(* ===== verification/_CoqProject ===== *)
-Q . S2P
Prelude.v
Endian.v
Crc32.v
HashIndex.v
HashCheckpoint.v
TimeIndex.v
SortedArray.v
Record.v
RecordCodec.v
RecordRoundtrip.v
RecordDecode.v
StrTable.v
ProbeTable.v
Intern.v
TagIndex.v
UsageIndex.v
EdgeIndex.v
FactIndex.v
Aead.v
Poly1305.v
AeadCorrect.v
Log.v
LogCorrect.v
LogFaults.v
WorkingBuffer.v
CkptCrypt.v
Floats.v
OpenTable.v
BinaryHeap.v
Hnsw.v
HnswCorrect.v
HnswAnswers.v
HnswFile.v
SemanticIndex.v
SemanticTopK.v
SemanticCorrect.v
SemanticAnswers.v
SemanticPersist.v
Tenant.v
Store.v
StoreCorrect.v
Compaction.v
CompactionCorrect.v
Json.v
Registry.v
Inference.v
InferTables.v
InferenceCorrect.v
Conflicts.v
Lexical.v
LexicalCorrect.v
LexSearch.v
LexSearchCorrect.v
RecordEdit.v
StoreView.v
Engine.v
Rebuild.v
EngineIndexes.v
EngineCorrect.v
EngineRefines.v
RebuildCorrect.v
RecoveryCorrect.v
Traverse.v
TraverseCorrect.v
Search.v
SearchSelect.v
SearchCorrect.v
SearchAnswers.v
TruthMaintenance.v
Maint.v
MaintCorrect.v
MaintAnswers.v
Text.v
InferStep.v
InferStepCorrect.v
Sha256.v
Reply.v
Tokens.v
TokensCorrect.v
