(* ===== verification/Prelude.v ===== *)
(** * AegisDB: a verification library

    AegisDB is a memory server for agents.  It appends encoded memory records
    to a framed log, keeps one primary index (record id to log offset) and a
    family of secondary indexes over the live records, answers queries from
    them, infers new facts by rules that a registry declares, and rebuilds all
    of it from the log after a restart or on a replica.  This library models
    the C code of that program ([src/src] and [src/include/aegisdb]) as Rocq
    functions and proves what the components promise one another.

    ** The program and the files that model it

    Foundations
    - [Prelude]: automation, machine integers, list and map lemmas.
    - [Endian]: [endian.h], [hash_mix.h], [hexutil.c].
    - [Crc32]: [crc32.c], the table and the chained update.
    - [Floats]: the binary32 and binary64 operations the code performs, over
      the Standard Library's [SpecFloat]; stored floats are bit patterns.
    - [Json]: the values that the vendored JSON parser delivers and the typed
      readers of [json_request.c].
    - [SortedArray], [StrTable], [ProbeTable], [OpenTable], [BinaryHeap],
      [Intern]: the data structures that several C files share by shape
      (sorted id arrays, chained string tables, open addressing with and
      without tombstones, array heaps, interned names), proved once.

    Storage
    - [HashIndex], [HashCheckpoint]: [hash_index.c], the primary index and its
      checkpoint image.
    - [TimeIndex], [TagIndex], [UsageIndex], [EdgeIndex], [FactIndex]: the
      files of the same names under [storage].
    - [Aead], [Poly1305], [AeadCorrect]: [chacha20poly1305.c].
    - [CkptCrypt]: [ckpt_crypt.c] and the atomic file replacement of
      [fsutil.c], every intermediate file state included.
    - [Log], [LogCorrect], [LogFaults]: [log.c]: append with partial writes,
      reading, scanning, resynchronisation, opening and migration.
    - [Store], [StoreCorrect], [StoreView]: the log, the primary index and the
      id allocator as [db.c] composes them, and pass 1 of [recovery.c].
    - [Compaction], [CompactionCorrect]: [compaction.c].
    - [Hnsw], [HnswCorrect], [HnswAnswers], [HnswFile]: [hnsw.c], [vecmath.h].
    - [SemanticIndex], [SemanticTopK], [SemanticCorrect], [SemanticAnswers],
      [SemanticPersist]: [semantic_index.c] with the maintenance step
      [db_semantic_build_step] of [db.c].
    - [Lexical], [LexicalCorrect]: [lexical_index.c].
    - [Rebuild], [RebuildCorrect], [RecoveryCorrect]: pass 2 of [recovery.c],
      [db_replica_apply] of [db.c], the streaming loop and [follow_session] of
      [replication.c].

    Memory
    - [Record], [RecordCodec], [RecordRoundtrip], [RecordDecode],
      [RecordEdit]: [record.c] and [record.h].
    - [WorkingBuffer]: [working_buffer.c].
    - [Tenant]: [tenant.c].

    Knowledge and queries
    - [Registry]: [predicate_registry.c].
    - [Inference], [InferTables], [InferenceCorrect]: [inference.c].
    - [Conflicts]: [conflict_set.c] and the contradiction scan of
      [qe_infer.c].
    - [Engine], [EngineIndexes], [EngineCorrect], [EngineRefines]:
      [query_engine.c] and the retraction of [qe_infer.c]: insert, get,
      update, delete, promote and relate with every index they maintain.
    - [LexSearch] and [LexSearchCorrect]: the BM25 search of the text index
      ([lexical_index_search] in src/storage/lexical_index.c): query terms,
      rarest-first order, the accumulator table and its growth, the candidate
      bound; against a score defined on the map of texts.
    - [Traverse] and [TraverseCorrect]: graph traversal ([qe_traverse_ex] in
      src/query/query_engine.c), one step per level with the locks released
      between them.
    - [Search], [SearchSelect], [SearchCorrect] and [SearchAnswers]: search,
      count and deletion by query (src/query/qe_search.c): filters, the sources
      of candidates (time, pattern, tags, scan, vectors, text, both fused by
      reciprocal rank), the widening loop, bounded selection, paging,
      subsumption.
    - [Maint], [MaintCorrect] and [MaintAnswers]: the maintenance jobs
      (src/query/qe_maint.c): export, erasure of a namespace, history and reads
      in the past, expiry, consolidation of near duplicates, forgetting.
    - [InferStep] and [InferStepCorrect]: the inference job of
      src/query/qe_infer.c: loading the facts, grouping them by namespace,
      recording contradictions, running the reasoner under shared budgets from a
      rotating offset, and writing conclusions with their provenance.
    - [TruthMaintenance]: the retraction queue of src/query/qe_infer.c, run by
      the maintenance thread until it is empty.

    Credentials
    - [Text]: string literals and C strings.
    - [Sha256]: [sha256.c] beside the digest of FIPS 180-4.
    - [Reply]: the response trees of [json_response.c] and the names of
      [status.c].
    - [Tokens] and [TokensCorrect]: the token set and the key file of
      [config.c], and of [qe_dispatch.c] the identity of a request and the
      operations that list, add and revoke tokens.

    ** What the theorems show

    - Durability ([StoreCorrect], [LogCorrect], [LogFaults], [CkptCrypt],
      [CompactionCorrect]): after any sequence of operations and any crash
      the recovered store holds what was acknowledged; damage to one frame
      costs that frame only; a checkpoint is replaced whole or not at all;
      compaction keeps every live record.  A failed append leaves bytes past
      the acknowledged end: every acknowledged record survives them
      ([log_crash_recovery]), and the exact recovery asks that they hold no
      frame ([silent]); [left_bytes_phantom] shows why.
    - Codecs ([RecordDecode], [HashCheckpoint], [HnswFile],
      [SemanticPersist]): what is written is read back, and what is read from
      hostile bytes is well formed or refused.
    - Indexes: each index, with its growth, its tombstones and its failed
      allocations, refines a finite map or a set, and its queries return
      exactly the members asked for.
    - Searches ([HnswAnswers], [SemanticAnswers]): the exact search returns
      the best records in order; the graph search returns live members
      without repetition, ordered, and all of them when its beam is wide
      enough.
    - Cryptography ([Poly1305], [AeadCorrect]): the limb arithmetic computes
      the MAC of RFC 8439, and nothing is opened unless its tag matches.
    - Inference ([InferenceCorrect], [Conflicts], [Registry]): a pass derives
      only what the rules allow, all of it when the budget suffices, in an
      order that does not depend on the order of the facts.
    - The engine ([EngineRefines], [RecoveryCorrect], [RebuildCorrect]): the
      engine refines a map from ids to live records, its secondary indexes
      describe that map after every operation, a restart rebuilds them, a
      replica that is sent the primary's stream arrives at them, and a tenant
      does not see another's records.
    - Faults of the code are theorems or examples that exhibit the state they
      lead to: [qe_delete_failed_append_hides], [hnsw_dead_graph],
      [reset_during_build], [compaction_reissues_deleted_id],
      [replica_bootstrap_loses_edge], [left_bytes_phantom],
      [compaction_crash_window], [long_namespace_breaks_file],
      [nan_score_first], [clock_back_as_of] and others.
    - Queries: a traversal is breadth-first search of the visible graph; an
      unranked search is a page of the matching records in one order, a count
      their number, a deletion by query the removal of them; whatever runs
      beside it a search or a walk returns only what its namespace and filters
      let through.  The text search is the top of the BM25 ranking.
    - Maintenance: a purge followed by a compaction erases a namespace from the
      log file; history and reads in the past follow the versions written
      (by stamp too, as long as the clock does not go back);
      export pages enumerate a namespace; the retraction passes run the queue
      empty and leave only conclusions that stand.  A merge folds only
      records that assert nothing else than the survivor, and forgetting removes
      only what scores below the floor.  The inference job writes only conclusions
      of one namespace's facts into that namespace, within its budget, and links
      only facts that contradict each other.
    - Credentials: the hash is SHA-256; a token set that was persisted is read
      back after a restart as one that grants the same rights, whatever token
      files it started from, namespaces of up to 947 bytes.
    - Accounting ([Tenant]): a tenant's answers, counters and rate bucket are
      those of its own operations, also when allocations fail.

    ** Conventions

    - Machine integers are [Z] with wrap-around written out where it can
      happen; array indexes and sizes are [nat]; bytes are [list Z] in range;
      a C string is a list of bytes without NUL, an optional one where NULL is
      allowed.  Sizes of C objects are those of LP64.
    - The outcome of an allocation or of a system call is an argument, so each
      theorem covers every pattern of failures.
    - A lock is a step boundary: each public operation is one step, and
      theorems quantify over sequences of steps.  A crash cuts a step inside
      its appends and its checkpoint writes; compaction's renaming of the log
      and its removal of the index checkpoint count as one step, and
      [compaction_crash_window] evaluates a crash between them.
    - Where a theorem needs a condition on its inputs, its comment names it.
      A crash is a crash of the process: what was written is in the file.
    - Code outside the repository is a parameter: the class [VecKernel]
      stands for the vector reductions that are compiled with relaxed
      floating-point rules, the logarithm and the library sort; the class
      [AeadScheme] is what the log and the checkpoints ask of the cipher, and
      [AeadCorrect] discharges it for the code of [chacha20poly1305.c].

    ** Fuel and bounds

    - A scan of the log takes the number of its bytes plus one as fuel: every
      turn consumes a byte.  The search for the next frame takes the same.
    - A probe loop takes the capacity of its table: each slot is visited once.
      Growth loops take the number of doublings, bounded by the length asked.
    - Binary searches take the length of the array; the tokenizer takes twice
      the length of the text plus one; greedy and beam walks of the graph take
      one turn per node, as a node is visited once.
    - The widening loop of a search takes five turns: the fetch quadruples from
      at least 36 to its cap of 8192.  A traversal takes its depth plus one
      levels, and probes its visited set once per slot.
    - A rehash that recurses into an insertion takes depth 2: the second
      insertion finds room.
    For each of these a lemma shows that the fuel is enough.

    ** Not modelled

    - The request handlers of [qe_dispatch.c] other than those that administer
      tokens, its operation table and its metrics: they translate documents of
      the vendored JSON library into calls of the operations above.  The parser
      and the printer of that library are third-party code.
    - The defaults and the command line of [config.c].
    - Sockets, threads, polling, signals, logging and the entry point:
      operating-system effects without state of their own.
    - The restore and key-migration tools: copies of files.
*)

From stdpp Require Export base list numbers option gmap sorting.
From Stdlib Require Export ZArith Lia Bool Btauto.

Global Set Default Goal Selector "!".
#[global] Open Scope Z_scope.

(** ** Automation *)

Create HintDb aegis.

(** Length equations of encoders and list operations, for [autorewrite]. *)
Create Rewrite HintDb len.
#[export] Hint Rewrite @length_app @length_take @length_drop @length_cons
  @length_nil @length_map @length_replicate : len.

(** Split every conjunction of the goal, then try the usual closers. *)
Ltac splits := repeat match goal with |- _ /\ _ => split end.

(** Turn boolean comparison hypotheses into arithmetic ones. *)
Ltac zbool :=
  repeat match goal with
  | H : (_ && _)%bool = true |- _ => apply andb_true_iff in H; destruct H
  | H : (_ || _)%bool = false |- _ => apply orb_false_iff in H; destruct H
  | H : negb _ = true |- _ => apply negb_true_iff in H
  | H : negb _ = false |- _ => apply negb_false_iff in H
  | H : (_ <? _) = true |- _ => apply Z.ltb_lt in H
  | H : (_ <? _) = false |- _ => apply Z.ltb_ge in H
  | H : (_ <=? _) = true |- _ => apply Z.leb_le in H
  | H : (_ <=? _) = false |- _ => apply Z.leb_gt in H
  | H : (_ =? _) = true |- _ => apply Z.eqb_eq in H
  | H : (_ =? _) = false |- _ => apply Z.eqb_neq in H
  | H : (_ >? _) = true |- _ => rewrite Z.gtb_ltb in H
  | H : (_ >? _) = false |- _ => rewrite Z.gtb_ltb in H
  | H : (_ <? _)%nat = true |- _ => apply Nat.ltb_lt in H
  | H : (_ <? _)%nat = false |- _ => apply Nat.ltb_ge in H
  | H : (_ <=? _)%nat = true |- _ => apply Nat.leb_le in H
  | H : (_ <=? _)%nat = false |- _ => apply Nat.leb_gt in H
  | H : (_ =? _)%nat = true |- _ => apply Nat.eqb_eq in H
  | H : (_ =? _)%nat = false |- _ => apply Nat.eqb_neq in H
  end.

(** Case split on the boolean test of a conditional, keeping the equation in
    arithmetic form. *)
Ltac case_if :=
  match goal with
  | |- context [if ?b then _ else _] => let E := fresh "E" in destruct b eqn:E
  | H : context [if ?b then _ else _] |- _ =>
      let E := fresh "E" in destruct b eqn:E
  end; zbool.

(** ** Machine integers

    A [w]-bit unsigned integer is a [Z]; arithmetic that can wrap in C goes
    through [wrap w]. *)

Definition wrap (w z : Z) : Z := z mod 2 ^ w.

Definition UINT16_MAX : Z := 65535.
Definition UINT32_MAX : Z := 4294967295.
Definition UINT64_MAX : Z := 18446744073709551615.
Definition SIZE_MAX : Z := UINT64_MAX.

(** [urange w z]: [z] is a value of the [w]-bit unsigned type. *)
Definition urange (w z : Z) : Prop := 0 <= z < 2 ^ w.

Abbreviation u8 := (urange 8).
Abbreviation u16 := (urange 16).
Abbreviation u32 := (urange 32).
Abbreviation u64 := (urange 64).

#[global] Instance urange_dec w z : Decision (urange w z).
Proof. unfold urange. apply _. Defined.

Lemma wrap_range w z : 0 <= w -> urange w (wrap w z).
Proof. intros. unfold urange, wrap. apply Z.mod_pos_bound. lia. Qed.

Lemma wrap_small w z : urange w z -> wrap w z = z.
Proof. intros []. by apply Z.mod_small. Qed.

Lemma urange_lt w v z : 0 <= z -> z < 2 ^ w -> w <= v -> urange v z.
Proof.
  intros H0 H1 Hv. split; [done|].
  eapply Z.lt_le_trans; [done|]. apply Z.pow_le_mono_r; lia.
Qed.

#[export] Hint Resolve wrap_range : aegis.

(** Bit-level facts used by every word-oriented component. *)
Lemma urange_testbit w z :
  0 <= w -> 0 <= z ->
  (forall i, w <= i -> Z.testbit z i = false) -> urange w z.
Proof.
  intros Hw Hz H. split; [done|].
  destruct (Z.eq_dec z 0) as [->|Hne]; [lia|].
  destruct (Z.lt_ge_cases z (2 ^ w)) as [|Hge]; [done|].
  assert (w <= Z.log2 z) by (apply Z.log2_le_pow2; lia).
  specialize (H (Z.log2 z) ltac:(done)). rewrite Z.bit_log2 in H by lia.
  discriminate.
Qed.

Lemma testbit_high w z i : urange w z -> 0 <= w <= i -> Z.testbit z i = false.
Proof.
  intros [H0 H1] Hi. destruct (Z.eq_dec z 0) as [->|]; [apply Z.testbit_0_l|].
  apply Z.bits_above_log2; [done|].
  assert (Z.log2 z < w) by (apply Z.log2_lt_pow2; lia). lia.
Qed.

Lemma lxor_range w a b : 0 <= w -> urange w a -> urange w b -> urange w (Z.lxor a b).
Proof.
  intros Hw Ha Hb. apply urange_testbit; [done| |].
  - apply Z.lxor_nonneg. destruct Ha, Hb. tauto.
  - intros i Hi. rewrite Z.lxor_spec, (testbit_high w a), (testbit_high w b); auto.
Qed.

Lemma land_range_l w a b : 0 <= w -> 0 <= a -> urange w b -> urange w (Z.land a b).
Proof.
  intros Hw Ha Hb. apply urange_testbit; [done| |].
  - apply Z.land_nonneg. auto.
  - intros i Hi. rewrite Z.land_spec, (testbit_high w b), andb_false_r; auto.
Qed.

Lemma lor_range w a b : 0 <= w -> urange w a -> urange w b -> urange w (Z.lor a b).
Proof.
  intros Hw Ha Hb. apply urange_testbit; [done| |].
  - apply Z.lor_nonneg. destruct Ha, Hb. tauto.
  - intros i Hi. rewrite Z.lor_spec, (testbit_high w a), (testbit_high w b); auto.
Qed.

Lemma shiftr_range w a n : 0 <= w -> 0 <= n -> urange w a -> urange w (Z.shiftr a n).
Proof.
  intros Hw Hn [H0 H1]. rewrite Z.shiftr_div_pow2 by done.
  assert (0 < 2 ^ n) by (apply Z.pow_pos_nonneg; lia).
  split; [apply Z.div_pos; lia|].
  apply Z.div_lt_upper_bound; [lia|]. nia.
Qed.

#[export] Hint Resolve lxor_range land_range_l lor_range shiftr_range : aegis.

(** ** Byte strings *)

Definition bytes_ok (l : list Z) : Prop := Forall (fun b => u8 b) l.

#[global] Instance bytes_ok_dec l : Decision (bytes_ok l).
Proof. unfold bytes_ok. apply _. Defined.

(** Prove [bytes_ok] of an explicit list. *)
Ltac bytes_lit :=
  unfold bytes_ok;
  repeat (apply Forall_cons_2; [try assumption; try (unfold urange; lia)|]);
  try apply Forall_nil_2.

Lemma bytes_ok_app l k : bytes_ok (l ++ k) <-> bytes_ok l /\ bytes_ok k.
Proof. apply Forall_app. Qed.

Lemma bytes_ok_take n l : bytes_ok l -> bytes_ok (take n l).
Proof. apply Forall_take. Qed.

Lemma bytes_ok_drop n l : bytes_ok l -> bytes_ok (drop n l).
Proof. apply Forall_drop. Qed.

#[export] Hint Resolve bytes_ok_take bytes_ok_drop : aegis.

(** [slice l off n]: the [n] bytes of [l] from [off] (a C [l + off] region). *)
Definition slice {A} (l : list A) (off n : nat) : list A := take n (drop off l).

Lemma length_slice {A} (l : list A) off n :
  (off + n <= length l)%nat -> length (slice l off n) = n.
Proof. intros. unfold slice. rewrite length_take, length_drop. lia. Qed.

Lemma slice_app {A} (a b c : list A) off n :
  off = length a -> n = length b -> slice (a ++ b ++ c) off n = b.
Proof.
  intros -> ->. unfold slice. rewrite drop_app_length. by rewrite take_app_length.
Qed.

(** ** Arrays kept as lists

    [insert_at]/[remove_at] are the effect of the [memmove]-based insertion and
    deletion the sorted arrays of the code use. *)

Definition insert_at {A} (i : nat) (x : A) (l : list A) : list A :=
  take i l ++ x :: drop i l.
Definition remove_at {A} (i : nat) (l : list A) : list A :=
  take i l ++ drop (S i) l.

Lemma length_insert_at {A} i (x : A) l : length (insert_at i x l) = S (length l).
Proof. unfold insert_at. rewrite length_app. simpl. rewrite length_take, length_drop. lia. Qed.

Lemma length_remove_at {A} i (l : list A) :
  (i < length l)%nat -> length (remove_at i l) = (length l - 1)%nat.
Proof. intros. unfold remove_at. rewrite length_app, length_take, length_drop. lia. Qed.

Lemma insert_at_Permutation {A} i (x : A) l : insert_at i x l ≡ₚ x :: l.
Proof.
  unfold insert_at. rewrite <- Permutation_middle. by rewrite take_drop.
Qed.

Lemma remove_at_Permutation {A} i (x : A) l :
  l !! i = Some x -> l ≡ₚ x :: remove_at i l.
Proof.
  intros H. unfold remove_at. rewrite Permutation_middle.
  by rewrite <- (take_drop_middle l i x H) at 1.
Qed.

Lemma map_insert_at {A B} (f : A -> B) i x l : map f (insert_at i x l) = insert_at i (f x) (map f l).
Proof. unfold insert_at. rewrite map_app. cbn. by rewrite <- firstn_map, <- skipn_map. Qed.

Lemma map_remove_at {A B} (f : A -> B) i (l : list A) : map f (remove_at i l) = remove_at i (map f l).
Proof. unfold remove_at. rewrite map_app. by rewrite <- firstn_map, <- skipn_map. Qed.

(** ** Binary search

    The loop [while (lo < hi) { mid = lo + (hi - lo) / 2; if (less mid)
    lo = mid + 1; else hi = mid; }] of the sorted-array indexes. [hi - lo]
    shrinks on every turn, so [hi - lo] turns are enough fuel. *)

Fixpoint bsearch_loop (fuel : nat) (less : nat -> bool) (lo hi : nat) : nat :=
  match fuel with
  | O => lo
  | S f =>
      if (lo <? hi)%nat then
        let mid := (lo + (hi - lo) / 2)%nat in
        if less mid then bsearch_loop f less (S mid) hi
        else bsearch_loop f less lo mid
      else lo
  end.

Definition bsearch (less : nat -> bool) (lo hi : nat) : nat :=
  bsearch_loop (hi - lo) less lo hi.

(** The search splits [lo, hi) at the point where a downward-closed [less]
    turns false. *)
Lemma bsearch_loop_spec fuel less lo hi :
  (hi - lo <= fuel)%nat -> (lo <= hi)%nat ->
  (forall i j, (lo <= i <= j)%nat -> (j < hi)%nat -> less j = true -> less i = true) ->
  let r := bsearch_loop fuel less lo hi in
  (lo <= r <= hi)%nat /\
  (forall i, (lo <= i < r)%nat -> less i = true) /\
  (forall i, (r <= i < hi)%nat -> less i = false).
Proof.
  revert lo hi. induction fuel as [|f IH]; intros lo hi Hf Hle Hdown;
    cbn [bsearch_loop].
  { assert (lo = hi) by lia. subst. splits; intros; lia. }
  destruct (Nat.ltb_spec lo hi) as [Hlt|Hge]; [|splits; intros; lia].
  cbn zeta. set (mid := (lo + (hi - lo) / 2)%nat).
  assert ((hi - lo) / 2 < hi - lo)%nat by (apply Nat.div_lt; lia).
  assert (lo <= mid < hi)%nat by (unfold mid; lia).
  destruct (less mid) eqn:Em.
  - destruct (IH (S mid) hi) as (H1 & H2 & H3); [lia|lia| |].
    { intros i j ? ? ?. apply (Hdown i j); [lia|done|done]. }
    splits; try lia; [|intros; apply H3; lia].
    intros i Hi. destruct (decide (i <= mid)%nat); [|apply H2; lia].
    apply (Hdown i mid); [lia|lia|done].
  - destruct (IH lo mid) as (H1 & H2 & H3); [lia|lia| |].
    { intros i j ? ? ?. apply (Hdown i j); [lia|lia|done]. }
    splits; try lia; [intros; apply H2; lia|].
    intros i Hi. destruct (decide (i < mid)%nat); [apply H3; lia|].
    destruct (less i) eqn:Ei; [|done].
    assert (less mid = true) by (apply (Hdown mid i); [lia|lia|done]). congruence.
Qed.

Lemma bsearch_spec less lo hi :
  (lo <= hi)%nat ->
  (forall i j, (lo <= i <= j)%nat -> (j < hi)%nat -> less j = true -> less i = true) ->
  (lo <= bsearch less lo hi <= hi)%nat /\
  (forall i, (lo <= i < bsearch less lo hi)%nat -> less i = true) /\
  (forall i, (bsearch less lo hi <= i < hi)%nat -> less i = false).
Proof. intros. by apply bsearch_loop_spec. Qed.

(** ** Lists *)

Lemma take_S_lookup {A} (l : list A) i x :
  l !! i = Some x -> take (S i) l = take i l ++ [x].
Proof. apply take_S_r. Qed.

Lemma Forall_insert_at {A} (P : A -> Prop) i x l :
  P x -> Forall P l -> Forall P (insert_at i x l).
Proof.
  intros. unfold insert_at. apply Forall_app. split; [by apply Forall_take|].
  constructor; [done|by apply Forall_drop].
Qed.

Lemma Forall_remove_at {A} (P : A -> Prop) i l :
  Forall P l -> Forall P (remove_at i l).
Proof.
  intros. unfold remove_at. apply Forall_app.
  split; [by apply Forall_take|by apply Forall_drop].
Qed.

(** ** Sorted arrays *)

Section sorted_array.
Context {A : Type} (R : relation A) (d : A) (p : A -> bool).
Context (Hdown : forall a b, R a b -> p b = true -> p a = true).

Lemma sorted_lookup l i j x y :
  StronglySorted R l -> (i < j)%nat -> l !! i = Some x -> l !! j = Some y -> R x y.
Proof.
  intros Hs Hij Hi Hj. rewrite <- (take_drop (S i) l) in Hs.
  eapply StronglySorted_app_1_elem_of; [done| |].
  - apply list_elem_of_lookup. exists i. rewrite lookup_take_lt by lia. done.
  - apply list_elem_of_lookup. exists (j - S i)%nat. rewrite lookup_drop.
    by replace (S i + (j - S i))%nat with j by lia.
Qed.

Lemma filter_all (q : A -> Prop) `{forall x, Decision (q x)} l :
  Forall q l -> filter q l = l.
Proof. induction 1; [done|]. rewrite filter_cons_True by done. by f_equal. Qed.

Lemma filter_none (q : A -> Prop) `{forall x, Decision (q x)} l :
  Forall (fun x => ~ q x) l -> filter q l = [].
Proof. induction 1; [done|]. by rewrite filter_cons_False. Qed.

(** Binary search in a sorted array splits it at the predicate's turning
    point. *)
Lemma bsearch_split l lo :
  StronglySorted R l -> (lo <= length l)%nat ->
  let r := bsearch (fun i => p (default d (l !! i))) lo (length l) in
  (lo <= r <= length l)%nat /\
  slice l lo (r - lo) = filter (fun x => p x = true) (drop lo l) /\
  drop r l = filter (fun x => p x = false) (drop lo l).
Proof.
  intros Hs Hlo r.
  destruct (bsearch_spec (fun i => p (default d (l !! i))) lo (length l)) as (Hr & Ht & Hf);
    [done| |fold r in Hr, Ht, Hf].
  { intros i j Hij Hj Hp. destruct (decide (i = j)) as [->|]; [done|].
    destruct (lookup_lt_is_Some_2 l i) as [x Hx]; [lia|].
    destruct (lookup_lt_is_Some_2 l j) as [y Hy]; [lia|].
    rewrite Hx. rewrite Hy in Hp. simpl in *. eapply Hdown; [|done].
    eapply (sorted_lookup l i j); eauto. lia. }
  assert (Forall (fun x => p x = true) (slice l lo (r - lo))) as Hl.
  { apply Forall_lookup. intros i x Hi. unfold slice in Hi.
    apply lookup_take_Some in Hi as [Hi Hlt]. rewrite lookup_drop in Hi.
    specialize (Ht (lo + i)%nat ltac:(lia)). by rewrite Hi in Ht. }
  assert (Forall (fun x => p x = false) (drop r l)) as Hd.
  { apply Forall_lookup. intros i x Hi. rewrite lookup_drop in Hi.
    pose proof (lookup_lt_Some _ _ _ Hi).
    specialize (Hf (r + i)%nat ltac:(lia)). by rewrite Hi in Hf. }
  assert (drop lo l = slice l lo (r - lo) ++ drop r l) as E.
  { unfold slice. replace (drop r l) with (drop (r - lo) (drop lo l)).
    - by rewrite take_drop.
    - rewrite drop_drop. f_equal. lia. }
  split; [done|]. rewrite E, !filter_app.
  rewrite (filter_all _ (slice _ _ _)), (filter_none _ (drop r l)) by
    (done || (eapply Forall_impl; [done|]; simpl; intros; congruence)).
  rewrite (filter_none _ (slice _ _ _)), (filter_all _ (drop r l)) by
    (done || (eapply Forall_impl; [done|]; simpl; intros; congruence)).
  by rewrite app_nil_r.
Qed.

(** The whole-array form. *)
Lemma bsearch_partition l :
  StronglySorted R l ->
  let r := bsearch (fun i => p (default d (l !! i))) 0 (length l) in
  (r <= length l)%nat /\
  take r l = filter (fun x => p x = true) l /\
  drop r l = filter (fun x => p x = false) l.
Proof.
  intros Hs r. destruct (bsearch_split l 0 Hs) as (H1 & H2 & H3); [lia|].
  fold r in H1, H2, H3. unfold slice in H2. rewrite drop_0, Nat.sub_0_r in H2.
  rewrite drop_0 in H3. splits; auto. lia.
Qed.
End sorted_array.

Lemma StronglySorted_filter {A} (R : relation A) (q : A -> Prop) `{forall x, Decision (q x)} l :
  StronglySorted R l -> StronglySorted R (filter q l).
Proof.
  induction 1 as [|x l Hs IH Hx]; [constructor|].
  destruct (decide (q x)); [rewrite filter_cons_True by done|by rewrite filter_cons_False].
  constructor; [done|]. rewrite Forall_forall in *. intros y Hy.
  apply Hx. by apply list_elem_of_filter in Hy as [_ ?].
Qed.

Lemma filter_impl_sublist {A} (P Q : A -> Prop) `{forall x, Decision (P x)}
  `{forall x, Decision (Q x)} (l : list A) :
  (forall x, P x -> Q x) -> sublist (filter P l) (filter Q l).
Proof.
  intros HPQ. induction l as [|x l IH]; [done|]. rewrite !filter_cons.
  repeat case_decide; [by apply sublist_skip|by exfalso; auto|by apply sublist_cons|done].
Qed.
