(* ===== verification/Endian.v ===== *)
(** * Little-endian packing and the integer hash mixer

    [include/aegisdb/endian.h]: the byte-order-fixed scalar codec every on-disk
    and replication encoding goes through. [include/aegisdb/hash_mix.h]: the
    64-bit mixer of the open-addressing tables. [src/util/hexutil.c]: the hex
    printer. [le_split]/[le_combine] are the width-generic reference codec the
    three concrete widths are shown to be instances of. *)

From S2P Require Import Prelude.

(** ** Reference codec *)

Fixpoint le_split (n : nat) (v : Z) : list Z :=
  match n with
  | O => []
  | S n' => wrap 8 v :: le_split n' (Z.shiftr v 8)
  end.

Fixpoint le_combine (l : list Z) : Z :=
  match l with
  | [] => 0
  | b :: l' => b + 256 * le_combine l'
  end.

Lemma length_le_split n v : length (le_split n v) = n.
Proof. revert v. induction n; intros; simpl; auto. Qed.

Lemma le_split_bytes n v : bytes_ok (le_split n v).
Proof.
  revert v. induction n as [|n IH]; intros v; simpl; [constructor|].
  constructor; [by apply wrap_range|apply IH].
Qed.

Lemma le_combine_split n v :
  0 <= v -> le_combine (le_split n v) = v mod 2 ^ (8 * Z.of_nat n).
Proof.
  revert v. induction n as [|n IH]; intros v Hv; cbn [le_split le_combine].
  { by rewrite Z.mod_1_r. }
  rewrite IH by (by apply Z.shiftr_nonneg).
  rewrite Z.shiftr_div_pow2 by lia. unfold wrap.
  replace (8 * Z.of_nat (S n)) with (8 + 8 * Z.of_nat n) by lia.
  rewrite Z.pow_add_r by lia. change (2 ^ 8) with 256.
  symmetry. apply Z.rem_mul_r; lia.
Qed.

Lemma le_combine_range l :
  bytes_ok l -> 0 <= le_combine l < 2 ^ (8 * Z.of_nat (length l)).
Proof.
  induction 1 as [|b l [H0 H1] _ IH]; cbn [le_combine length]; [simpl; lia|].
  replace (8 * Z.of_nat (S (length l))) with (8 + 8 * Z.of_nat (length l)) by lia.
  rewrite Z.pow_add_r by lia. change (2 ^ 8) with 256 in *. lia.
Qed.

Lemma le_split_combine l : bytes_ok l -> le_split (length l) (le_combine l) = l.
Proof.
  induction 1 as [|b l Hb _ IH]; [done|]. cbn [le_split le_combine length].
  f_equal.
  - unfold wrap. change (2 ^ 8) with 256. rewrite Z.mul_comm, Z.mod_add by lia.
    destruct Hb. apply Z.mod_small. lia.
  - rewrite Z.shiftr_div_pow2 by lia. change (2 ^ 8) with 256.
    rewrite Z.mul_comm, Z.div_add by lia. destruct Hb.
    rewrite Z.div_small by lia. by rewrite Z.add_0_l.
Qed.

Lemma le_split_inj n v w :
  urange (8 * Z.of_nat n) v -> urange (8 * Z.of_nat n) w ->
  le_split n v = le_split n w -> v = w.
Proof.
  intros Hv Hw E. apply (f_equal le_combine) in E.
  destruct Hv, Hw. rewrite !le_combine_split in E by done.
  by rewrite !Z.mod_small in E by done.
Qed.

(** ** [endian.h] *)

(** [b[i]] of a byte buffer. *)
Definition byte_at (b : list Z) (i : nat) : Z := default 0 (b !! i).

Definition aegis_put_u16le (v : Z) : list Z := [wrap 8 v; wrap 8 (Z.shiftr v 8)].

Definition aegis_put_u32le (v : Z) : list Z :=
  map (fun i => wrap 8 (Z.shiftr v (8 * i))) [0; 1; 2; 3].

Definition aegis_put_u64le (v : Z) : list Z :=
  map (fun i => wrap 8 (Z.shiftr v (8 * i))) [0; 1; 2; 3; 4; 5; 6; 7].

Definition aegis_get_u16le (b : list Z) : Z :=
  wrap 16 (Z.lor (byte_at b 0) (Z.shiftl (byte_at b 1) 8)).

Definition aegis_get_u32le (b : list Z) : Z :=
  wrap 32 (Z.lor (Z.lor (Z.lor (byte_at b 0) (Z.shiftl (byte_at b 1) 8))
                        (Z.shiftl (byte_at b 2) 16))
                 (Z.shiftl (byte_at b 3) 24)).

Definition aegis_get_u64le (b : list Z) : Z :=
  foldl (fun v i => Z.lor v (wrap 64 (Z.shiftl (byte_at b i) (8 * Z.of_nat i))))
        0 (seq 0 8).

Arguments aegis_put_u16le : simpl never.
Arguments aegis_put_u32le : simpl never.
Arguments aegis_put_u64le : simpl never.
Arguments aegis_get_u16le : simpl never.
Arguments aegis_get_u32le : simpl never.
Arguments aegis_get_u64le : simpl never.

(** ** [hash_mix.h] *)

Definition mix64 (x0 : Z) : Z :=
  let x1 := Z.lxor x0 (Z.shiftr x0 33) in
  let x2 := wrap 64 (x1 * 0xff51afd7ed558ccd) in
  let x3 := Z.lxor x2 (Z.shiftr x2 33) in
  let x4 := wrap 64 (x3 * 0xc4ceb9fe1a85ec53) in
  Z.lxor x4 (Z.shiftr x4 33).

(** ** [hexutil.c] *)

(** The digit table ["0123456789abcdef"]. *)
Definition hex_digits : list Z :=
  [48; 49; 50; 51; 52; 53; 54; 55; 56; 57; 97; 98; 99; 100; 101; 102].

(** The characters written to [out], the terminating NUL included. *)
Definition aegis_hex_encode (input : list Z) : list Z :=
  flat_map (fun b => [byte_at hex_digits (Z.to_nat (Z.shiftr b 4));
                      byte_at hex_digits (Z.to_nat (Z.land b 0xf))]) input ++ [0].

(** ** The concrete widths are the reference codec *)

Lemma put_u16le_split v : aegis_put_u16le v = le_split 2 v.
Proof. reflexivity. Qed.

Lemma put_u32le_split v : aegis_put_u32le v = le_split 4 v.
Proof.
  unfold aegis_put_u32le. cbn [map le_split].
  rewrite !Z.shiftr_shiftr by lia. by rewrite Z.shiftr_0_r.
Qed.

Lemma put_u64le_split v : aegis_put_u64le v = le_split 8 v.
Proof.
  unfold aegis_put_u64le. cbn [map le_split].
  rewrite !Z.shiftr_shiftr by lia. by rewrite Z.shiftr_0_r.
Qed.

(** Adding a byte above a smaller value is or-ing it in. *)
Lemma lor_shiftl_add a b n :
  0 <= n -> urange n a -> 0 <= b -> Z.lor a (Z.shiftl b n) = a + b * 2 ^ n.
Proof.
  intros Hn Ha Hb. rewrite <- Z.shiftl_mul_pow2 by done.
  rewrite <- Z.add_lor_land.
  assert (Z.land a (Z.shiftl b n) = 0) as ->; [|lia].
  apply Z.bits_inj'. intros i Hi. rewrite Z.land_spec, Z.bits_0.
  destruct (Z.lt_ge_cases i n).
  - rewrite (Z.shiftl_spec_low b) by done. apply andb_false_r.
  - by rewrite (testbit_high n a).
Qed.

Lemma get_u16le_combine b0 b1 l :
  u8 b0 -> u8 b1 -> aegis_get_u16le (b0 :: b1 :: l) = le_combine [b0; b1].
Proof.
  intros H0 H1. unfold aegis_get_u16le. cbn [byte_at lookup list_lookup default le_combine].
  unfold byte_at; cbn. rewrite lor_shiftl_add; [|lia|done|destruct H1; lia].
  destruct H0, H1. change (2 ^ 8) with 256 in *. rewrite wrap_small; [lia|].
  unfold urange. change (2 ^ 16) with 65536. lia.
Qed.

Lemma get_u32le_combine b0 b1 b2 b3 l :
  u8 b0 -> u8 b1 -> u8 b2 -> u8 b3 ->
  aegis_get_u32le (b0 :: b1 :: b2 :: b3 :: l) = le_combine [b0; b1; b2; b3].
Proof.
  intros [] [] [] []. unfold aegis_get_u32le, byte_at. cbn.
  change (2 ^ 8) with 256 in *.
  rewrite (lor_shiftl_add b0 b1 8) by (unfold urange; lia).
  rewrite (lor_shiftl_add _ b2 16) by (unfold urange; lia).
  rewrite (lor_shiftl_add _ b3 24) by (unfold urange; lia).
  rewrite wrap_small by (unfold urange; lia). lia.
Qed.

Lemma get_u64le_combine l :
  length l = 8%nat -> bytes_ok l -> forall k, aegis_get_u64le (l ++ k) = le_combine l.
Proof.
  intros Hl Hok k.
  destruct l as [|b0 [|b1 [|b2 [|b3 [|b4 [|b5 [|b6 [|b7 [|]]]]]]]]]; try done.
  unfold bytes_ok in Hok. rewrite !Forall_cons in Hok. unfold urange in Hok.
  change (2 ^ 8) with 256 in Hok. destruct_and!.
  unfold aegis_get_u64le, byte_at. cbn [foldl seq app lookup list_lookup default id].
  rewrite !wrap_small by
    (unfold urange; rewrite Z.shiftl_mul_pow2 by lia; simpl; lia).
  cbn [le_combine]. rewrite Z.lor_0_l, Z.mul_0_r, Z.shiftl_0_r.
  rewrite (lor_shiftl_add b0 b1) by (unfold urange; simpl; lia).
  do 6 match goal with |- context [Z.lor (?a + ?c) (Z.shiftl ?b ?n)] =>
    rewrite (lor_shiftl_add (a + c) b n) by (unfold urange; simpl; lia) end.
  simpl. lia.
Qed.

(** ** Round trips *)

Lemma length_put_u16le v : length (aegis_put_u16le v) = 2%nat.
Proof. reflexivity. Qed.
Lemma length_put_u32le v : length (aegis_put_u32le v) = 4%nat.
Proof. reflexivity. Qed.
Lemma length_put_u64le v : length (aegis_put_u64le v) = 8%nat.
Proof. reflexivity. Qed.

Lemma put_u16le_bytes v : bytes_ok (aegis_put_u16le v).
Proof. rewrite put_u16le_split. apply le_split_bytes. Qed.
Lemma put_u32le_bytes v : bytes_ok (aegis_put_u32le v).
Proof. rewrite put_u32le_split. apply le_split_bytes. Qed.
Lemma put_u64le_bytes v : bytes_ok (aegis_put_u64le v).
Proof. rewrite put_u64le_split. apply le_split_bytes. Qed.

#[export] Hint Resolve put_u16le_bytes put_u32le_bytes put_u64le_bytes : aegis.
#[export] Hint Rewrite length_put_u16le length_put_u32le length_put_u64le : len.

Lemma get_put_u16le v l : u16 v -> aegis_get_u16le (aegis_put_u16le v ++ l) = v.
Proof.
  intros Hv. unfold aegis_put_u16le. cbn [app].
  rewrite get_u16le_combine by (by apply wrap_range).
  change (le_combine (le_split 2 v) = v). destruct Hv.
  rewrite le_combine_split by done. by apply Z.mod_small.
Qed.

Lemma get_put_u32le v l : u32 v -> aegis_get_u32le (aegis_put_u32le v ++ l) = v.
Proof.
  intros [H0 H1]. unfold aegis_put_u32le at 1. cbn [map app].
  rewrite get_u32le_combine by (by apply wrap_range).
  change (le_combine (aegis_put_u32le v) = v). rewrite put_u32le_split.
  rewrite le_combine_split by done. by apply Z.mod_small.
Qed.

Lemma get_put_u64le v l : u64 v -> aegis_get_u64le (aegis_put_u64le v ++ l) = v.
Proof.
  intros [H0 H1]. rewrite get_u64le_combine; auto with aegis.
  rewrite put_u64le_split, le_combine_split by done. by apply Z.mod_small.
Qed.

Lemma mix64_range x : u64 x -> u64 (mix64 x).
Proof. intros. unfold mix64. auto 10 with aegis lia. Qed.
