(* ===== verification/Crc32.v ===== *)
(** * CRC-32 ([src/util/crc32.c])

    The table-driven checksum that guards log frames and checkpoints. The
    reference is the bit-serial register ([crc_byte_ref]); the table lookup is
    shown equal to it, chaining is shown exact, and the register's linearity
    and injectivity give the error-detection guarantee the log relies on. *)

From S2P Require Import Prelude Endian.

(** ** The code *)

(** One turn of the inner loop of [build_table]. *)
Definition crc_bit (c : Z) : Z :=
  if Z.land c 1 =? 1 then Z.lxor 0xEDB88320 (Z.shiftr c 1) else Z.shiftr c 1.

Definition build_table : list Z :=
  map (fun i => Nat.iter 8 crc_bit (Z.of_nat i)) (seq 0 256).

(** [g_table], published once by [pthread_once]. *)
Definition g_table : list Z := Eval vm_compute in build_table.

(** One turn of the [while (len--)] loop of [crc32_update]. *)
Definition crc_byte (crc b : Z) : Z :=
  Z.lxor (byte_at g_table (Z.to_nat (Z.land (Z.lxor crc b) 0xff))) (Z.shiftr crc 8).

(** [~crc] on [uint32_t]. *)
Definition lnot32 (c : Z) : Z := Z.lxor c 0xFFFFFFFF.

Definition crc32_update (crc : Z) (data : list Z) : Z :=
  lnot32 (foldl crc_byte (lnot32 crc) data).

Definition crc32_compute (data : list Z) : Z := crc32_update 0 data.

(** ** The bit-serial reference *)

Definition crc_byte_ref (crc b : Z) : Z := Nat.iter 8 crc_bit (Z.lxor crc b).

Definition crc32_ref (data : list Z) : Z :=
  lnot32 (foldl crc_byte_ref (lnot32 0) data).

(** ** The register: ranges, linearity, injectivity *)

Lemma g_table_build : g_table = build_table.
Proof. vm_compute. reflexivity. Qed.

Lemma crc_bit_odd c :
  crc_bit c = if Z.odd c then Z.lxor 0xEDB88320 (Z.shiftr c 1) else Z.shiftr c 1.
Proof.
  unfold crc_bit. change 1 with (Z.ones 1) at 1.
  rewrite Z.land_ones by lia. change (2 ^ 1) with 2.
  rewrite Zmod_odd. by destruct (Z.odd c).
Qed.

Lemma crc_bit_range c : u32 c -> u32 (crc_bit c).
Proof.
  intros. unfold crc_bit. destruct (_ =? _); auto with aegis lia.
  apply lxor_range; [lia|unfold urange; lia|auto with aegis lia].
Qed.

Lemma crc_bit_lxor a b : crc_bit (Z.lxor a b) = Z.lxor (crc_bit a) (crc_bit b).
Proof.
  rewrite !crc_bit_odd, Z.shiftr_lxor.
  rewrite <- !Z.bit0_odd, Z.lxor_spec, !Z.bit0_odd.
  apply Z.bits_inj'. intros i _.
  destruct (Z.odd a), (Z.odd b); simpl; rewrite !Z.lxor_spec; btauto.
Qed.

Lemma crc_bit_inj a b : u32 a -> u32 b -> crc_bit a = crc_bit b -> a = b.
Proof.
  intros Ha Hb. rewrite !crc_bit_odd. intros E.
  assert (forall c, u32 c ->
    Z.testbit (if Z.odd c then Z.lxor 0xEDB88320 (Z.shiftr c 1) else Z.shiftr c 1) 31
    = Z.odd c) as Htop.
  { intros c Hc.
    assert (Z.testbit (Z.shiftr c 1) 31 = false) as Hs.
    { rewrite Z.shiftr_spec by lia. apply (testbit_high 32); [done|lia]. }
    destruct (Z.odd c); rewrite ?Z.lxor_spec, Hs; reflexivity. }
  assert (Z.odd a = Z.odd b) as Hodd by (rewrite <- (Htop a), <- (Htop b), E; done).
  assert (Z.shiftr a 1 = Z.shiftr b 1) as Hs.
  { rewrite Hodd in E. destruct (Z.odd b); [|done].
    apply (f_equal (Z.lxor 0xEDB88320)) in E.
    by rewrite <- !Z.lxor_assoc, Z.lxor_nilpotent, !Z.lxor_0_l in E. }
  rewrite !Z.shiftr_div_pow2 in Hs by lia. change (2 ^ 1) with 2 in Hs.
  rewrite (Z.div_mod a 2), (Z.div_mod b 2), Hs, !Zmod_odd, Hodd by lia. done.
Qed.

Lemma iter_range n c : u32 c -> u32 (Nat.iter n crc_bit c).
Proof. intros. induction n; simpl; auto using crc_bit_range. Qed.

Lemma iter_lxor n a b :
  Nat.iter n crc_bit (Z.lxor a b) = Z.lxor (Nat.iter n crc_bit a) (Nat.iter n crc_bit b).
Proof. induction n as [|n IH]; simpl; [done|]. by rewrite IH, crc_bit_lxor. Qed.

Lemma iter_inj n a b :
  u32 a -> u32 b -> Nat.iter n crc_bit a = Nat.iter n crc_bit b -> a = b.
Proof.
  intros Ha Hb. induction n as [|n IH]; simpl; [done|].
  intros E. apply IH. eapply crc_bit_inj; eauto using iter_range.
Qed.

(** Shifting in zero bits only shifts. *)
Lemma iter_shiftl n y : 0 <= y -> Nat.iter n crc_bit (Z.shiftl y (Z.of_nat n)) = y.
Proof.
  revert y. induction n as [|n IH]; intros y Hy.
  { cbn. by rewrite Z.shiftl_0_r. }
  rewrite Nat2Z.inj_succ, <- Z.add_1_r, <- Z.shiftl_shiftl by lia.
  rewrite Nat.iter_succ_r, crc_bit_odd.
  assert (Z.odd (Z.shiftl (Z.shiftl y (Z.of_nat n)) 1) = false) as ->.
  { rewrite <- Z.bit0_odd. apply Z.shiftl_spec_low. lia. }
  rewrite Z.shiftr_shiftl_l, Z.shiftl_0_r by lia. by apply IH.
Qed.

(** ** The table lookup is the reference step *)

Lemma split_low8 x : 0 <= x -> x = Z.lxor (Z.land x 0xff) (Z.shiftl (Z.shiftr x 8) 8).
Proof.
  intros Hx. apply Z.bits_inj'. intros i Hi.
  rewrite Z.lxor_spec, Z.land_spec. change 0xff with (Z.ones 8).
  destruct (Z.lt_ge_cases i 8).
  - rewrite (Z.ones_spec_low 8 i) by lia. rewrite (Z.shiftl_spec_low _ 8) by lia.
    rewrite andb_true_r. by rewrite xorb_false_r.
  - rewrite (Z.ones_spec_high 8 i) by lia. rewrite Z.shiftl_spec by lia.
    rewrite Z.shiftr_spec by lia. rewrite andb_false_r.
    replace (i - 8 + 8) with i by lia. done.
Qed.

Lemma g_table_lookup x : 0 <= x < 256 -> byte_at g_table (Z.to_nat x) = Nat.iter 8 crc_bit x.
Proof.
  intros Hx. rewrite g_table_build. unfold byte_at, build_table.
  change (map ?f ?l) with (f <$> l). rewrite list_lookup_fmap.
  rewrite lookup_seq_lt by lia. simpl. by rewrite Z2Nat.id by lia.
Qed.

Lemma crc_byte_is_ref crc b : u32 crc -> u8 b -> crc_byte crc b = crc_byte_ref crc b.
Proof.
  intros Hc Hb. unfold crc_byte, crc_byte_ref.
  assert (u32 b) as Hb32 by (destruct Hb; unfold urange; lia).
  assert (0 <= Z.lxor crc b) by (apply (lxor_range 32); [lia|done|done]).
  assert (u8 (Z.land (Z.lxor crc b) 0xff)) as Hlow.
  { apply land_range_l; [lia|done|unfold urange; lia]. }
  rewrite g_table_lookup by (destruct Hlow; lia).
  rewrite (split_low8 (Z.lxor crc b)) at 2 by done.
  rewrite iter_lxor. f_equal. symmetry.
  change 8 with (Z.of_nat 8) at 3. rewrite iter_shiftl.
  - rewrite Z.shiftr_lxor. replace (Z.shiftr b 8) with 0; [by rewrite Z.lxor_0_r|].
    rewrite Z.shiftr_div_pow2 by lia. destruct Hb. symmetry. apply Z.div_small. lia.
  - by apply Z.shiftr_nonneg.
Qed.

Lemma crc_byte_ref_range crc b : u32 crc -> u8 b -> u32 (crc_byte_ref crc b).
Proof.
  intros Hc Hb. apply iter_range, lxor_range; [lia|done|].
  destruct Hb; unfold urange; lia.
Qed.

Lemma foldl_crc_ref data crc :
  u32 crc -> bytes_ok data ->
  foldl crc_byte crc data = foldl crc_byte_ref crc data /\
  u32 (foldl crc_byte_ref crc data).
Proof.
  intros Hc Hd. revert crc Hc. induction Hd as [|b data Hb _ IH]; intros; simpl; [done|].
  rewrite crc_byte_is_ref by done. apply IH. by apply crc_byte_ref_range.
Qed.

Lemma lnot32_range c : u32 c -> u32 (lnot32 c).
Proof. intros. apply lxor_range; [lia|done|unfold urange; lia]. Qed.

Lemma lnot32_involutive c : lnot32 (lnot32 c) = c.
Proof. unfold lnot32. by rewrite Z.lxor_assoc, Z.lxor_nilpotent, Z.lxor_0_r. Qed.

Lemma lnot32_inj a b : lnot32 a = lnot32 b -> a = b.
Proof. intros E. apply (f_equal lnot32) in E. by rewrite !lnot32_involutive in E. Qed.

Lemma crc32_update_range crc data : u32 crc -> bytes_ok data -> u32 (crc32_update crc data).
Proof.
  intros Hc Hd. unfold crc32_update. apply lnot32_range.
  destruct (foldl_crc_ref data (lnot32 crc)) as [-> ?]; auto using lnot32_range.
Qed.

Lemma crc32_compute_range data : bytes_ok data -> u32 (crc32_compute data).
Proof. intros. apply crc32_update_range; [unfold urange; lia|done]. Qed.

#[export] Hint Resolve crc32_compute_range crc32_update_range : aegis.

(** Feeding a buffer in two pieces is feeding it whole. *)
Lemma crc32_update_app crc a b :
  crc32_update (crc32_update crc a) b = crc32_update crc (a ++ b).
Proof. unfold crc32_update. by rewrite lnot32_involutive, foldl_app. Qed.

(** ** Error detection *)

(** The register after up to four bytes is the shifted-out exclusive or of the
    start value with the little-endian word the bytes form. *)
Lemma foldl_crc_word (w : list Z) crc :
  u32 crc -> bytes_ok w -> (length w <= 4)%nat ->
  foldl crc_byte_ref crc w =
  Nat.iter (8 * length w) crc_bit (Z.lxor crc (le_combine w)).
Proof.
  intros Hc Hw. revert crc Hc.
  induction Hw as [|b w Hb Hw IH]; intros crc Hc Hlen.
  { cbn. by rewrite Z.lxor_0_r. }
  cbn [foldl length] in *. rewrite IH by (try lia; by apply crc_byte_ref_range).
  unfold crc_byte_ref. replace (8 * S (length w))%nat with (8 * length w + 8)%nat by lia.
  rewrite Nat.iter_add. f_equal.
  assert (0 <= le_combine w) by (by apply le_combine_range).
  rewrite <- (iter_shiftl 8 (le_combine w)) at 1 by done.
  rewrite <- iter_lxor. f_equal. rewrite Z.lxor_assoc. f_equal.
  cbn [le_combine]. replace (256 * le_combine w) with (le_combine w * 2 ^ 8) by lia.
  rewrite <- lor_shiftl_add by (done || lia).
  change (Z.of_nat 8) with 8.
  apply Z.bits_inj'. intros i Hi. rewrite Z.lxor_spec, Z.lor_spec.
  destruct (Z.lt_ge_cases i 8).
  - rewrite (Z.shiftl_spec_low _ 8) by done. by rewrite xorb_false_r, orb_false_r.
  - rewrite (testbit_high 8 b) by done. by rewrite xorb_false_l.
Qed.

Lemma foldl_crc_word_inj w1 w2 crc :
  u32 crc -> bytes_ok w1 -> bytes_ok w2 ->
  length w1 = length w2 -> (length w1 <= 4)%nat ->
  foldl crc_byte_ref crc w1 = foldl crc_byte_ref crc w2 -> w1 = w2.
Proof.
  intros Hc H1 H2 Hl Hle E.
  assert (forall w, bytes_ok w -> (length w <= 4)%nat -> u32 (le_combine w)) as Hr.
  { intros w Hw Hlw. destruct (le_combine_range w Hw). split; [done|].
    eapply Z.lt_le_trans; [done|]. apply Z.pow_le_mono_r; lia. }
  rewrite (foldl_crc_word w1), (foldl_crc_word w2), Hl in E by (assumption || lia).
  apply iter_inj in E; [|apply lxor_range; [lia|done|apply Hr; [done|lia]]..].
  apply (f_equal (Z.lxor crc)) in E.
  rewrite <- !Z.lxor_assoc, Z.lxor_nilpotent, !Z.lxor_0_l in E.
  rewrite <- (le_split_combine w1), <- (le_split_combine w2), Hl, E by done. done.
Qed.

Lemma foldl_crc_state_inj data a b :
  u32 a -> u32 b -> bytes_ok data ->
  foldl crc_byte_ref a data = foldl crc_byte_ref b data -> a = b.
Proof.
  intros Ha Hb Hd. revert a b Ha Hb.
  induction Hd as [|x data Hx _ IH]; intros a b Ha Hb; simpl; [done|].
  intros E. apply IH in E; [|by apply crc_byte_ref_range..].
  unfold crc_byte_ref in E.
  assert (u32 x) by (destruct Hx; unfold urange; lia).
  apply iter_inj in E; [|apply lxor_range; auto; lia..].
  rewrite (Z.lxor_comm a), (Z.lxor_comm b) in E. apply (f_equal (Z.lxor x)) in E.
  by rewrite <- !Z.lxor_assoc, Z.lxor_nilpotent, !Z.lxor_0_l in E.
Qed.

(** Two messages that differ only inside a window of at most four bytes have
    different checksums. *)
Lemma crc32_burst pre w1 w2 post :
  bytes_ok pre -> bytes_ok w1 -> bytes_ok w2 -> bytes_ok post ->
  length w1 = length w2 -> (length w1 <= 4)%nat -> w1 <> w2 ->
  crc32_compute (pre ++ w1 ++ post) <> crc32_compute (pre ++ w2 ++ post).
Proof.
  intros Hp H1 H2 Hq Hl Hle Hne E. apply Hne. clear Hne.
  assert (u32 (lnot32 0)) as H0 by (vm_compute; intuition congruence).
  unfold crc32_compute, crc32_update in E. apply lnot32_inj in E.
  assert (bytes_ok (pre ++ w1 ++ post)) by (rewrite !bytes_ok_app; auto).
  assert (bytes_ok (pre ++ w2 ++ post)) by (rewrite !bytes_ok_app; auto).
  destruct (foldl_crc_ref (pre ++ w1 ++ post) (lnot32 0)) as [R1 _]; [done..|].
  destruct (foldl_crc_ref (pre ++ w2 ++ post) (lnot32 0)) as [R2 _]; [done..|].
  rewrite R1, R2, !foldl_app in E.
  pose proof (proj2 (foldl_crc_ref pre _ H0 Hp)) as Hs.
  apply foldl_crc_state_inj in E; [|by apply foldl_crc_ref..|done].
  by apply foldl_crc_word_inj in E.
Qed.

(** ** Claims *)

(** The table-driven checksum, fed in any number of chained pieces, is the
    bit-serial CRC-32 of the reflected polynomial 0xEDB88320 over the whole
    message. *)
Theorem crc32_chained_is_reference chunks :
  Forall bytes_ok chunks -> foldl crc32_update 0 chunks = crc32_ref (concat chunks).
Proof.
  intros Hc. assert (bytes_ok (concat chunks)) as Hb
    by (induction Hc; [constructor|]; cbn; by apply bytes_ok_app).
  assert (forall a, foldl crc32_update (crc32_update 0 a) chunks = crc32_update 0 (a ++ concat chunks)) as Hf.
  { clear. induction chunks as [|c chunks IH]; intros a; cbn [foldl concat]; [by rewrite app_nil_r|].
    rewrite crc32_update_app, IH. by rewrite (assoc_L (++)). }
  specialize (Hf []). cbn [app] in Hf. change (crc32_update 0 []) with 0 in Hf. rewrite Hf.
  unfold crc32_update, crc32_ref. f_equal. apply foldl_crc_ref; [by apply lnot32_range|done].
Qed.

Lemma crc32_chained_is_reference_witness :
  foldl crc32_update 0 [[49; 50; 51]; []; [52; 53; 54; 55; 56; 57]]
    = crc32_ref [49; 50; 51; 52; 53; 54; 55; 56; 57] /\
  crc32_ref [49; 50; 51; 52; 53; 54; 55; 56; 57] = 0xCBF43926.
Proof.
  split; [|vm_compute; reflexivity].
  apply (crc32_chained_is_reference [[49; 50; 51]; []; [52; 53; 54; 55; 56; 57]]).
  repeat constructor; lia.
Defined.

(** Any change confined to a window of at most four bytes changes the
    checksum. *)
Theorem crc32_detects_bursts pre w1 w2 post :
  bytes_ok pre -> bytes_ok w1 -> bytes_ok w2 -> bytes_ok post ->
  length w1 = length w2 -> (length w1 <= 4)%nat -> w1 <> w2 ->
  crc32_compute (pre ++ w1 ++ post) <> crc32_compute (pre ++ w2 ++ post).
Proof. apply crc32_burst. Qed.

Lemma crc32_detects_bursts_witness :
  crc32_compute ([1; 2] ++ [3; 4; 5; 6] ++ [7]) <> crc32_compute ([1; 2] ++ [0; 4; 5; 9] ++ [7]).
Proof.
  apply (crc32_detects_bursts [1; 2] [3; 4; 5; 6] [0; 4; 5; 9] [7]); try (repeat constructor; lia); done.
Defined.
