(* ===== verification/HashIndex.v ===== *)
(** * Primary id index ([src/storage/hash_index.c], [hash_index.h])

    The open-addressing table from record ids to log locations: linear probing
    over a power-of-two bucket array, growth by rehashing past the load limit,
    and the checkpoint image. The abstract view is the finite map [hi_map]. *)

From S2P Require Import Prelude Endian Crc32.

(** ** Data *)

Record HashEntry := mkHashEntry {
  he_id : Z;
  he_offset : Z;
  he_expires_at : Z;
  he_length : Z;
  he_type : Z;
  he_deleted : Z;
  he_used : bool;
}.

(** A bucket as [calloc] leaves it. *)
Definition empty_entry : HashEntry := mkHashEntry 0 0 0 0 0 0 false.

Record HashIndex := mkHashIndex {
  hi_buckets : list HashEntry;
  hi_cap : Z;
  hi_count : Z;
}.

Definition IDX_VERSION : Z := 4.
Definition IDX_HDR : Z := 36.
Definition IDX_ENTRY : Z := 30.
Definition INITIAL_CAP : Z := 1024.

(** The [double] nearest to [MAX_LOAD] (0.7) is [MAX_LOAD_num / 2^53]. *)
Definition MAX_LOAD_num : Z := 6305039478318694.

(** ** Operations *)

Definition hash_index_create : HashIndex :=
  mkHashIndex (replicate (Z.to_nat INITIAL_CAP) empty_entry) INITIAL_CAP 0.

(** The probe loop of [find_slot], at most [fuel] turns; [None] is "still
    probing". *)
Fixpoint find_slot_loop (fuel : nat) (buckets : list HashEntry) (mask i id : Z)
  : option nat :=
  match fuel with
  | O => None
  | S f =>
      let e := default empty_entry (buckets !! Z.to_nat i) in
      if negb (he_used e) || (he_id e =? id) then Some (Z.to_nat i)
      else find_slot_loop f buckets mask (Z.land (i + 1) mask) id
  end.

(** A full turn over the table visits every bucket, so [cap] turns decide the
    search. *)
Definition find_slot (buckets : list HashEntry) (cap id : Z) : option nat :=
  let mask := cap - 1 in
  find_slot_loop (Z.to_nat cap) buckets mask (Z.land (mix64 id) mask) id.

(** The [for] loop of [rehash] over the old buckets. *)
Fixpoint rehash_loop (old : list HashEntry) (nb : list HashEntry) (newcap : Z)
  : option (list HashEntry) :=
  match old with
  | [] => Some nb
  | e :: old' =>
      if he_used e then
        match find_slot nb newcap (he_id e) with
        | Some j => rehash_loop old' (<[j := e]> nb) newcap
        | None => None
        end
      else rehash_loop old' nb newcap
  end.

(** [ok] is the outcome of the [calloc]; [None] is the error return, which
    leaves the table untouched. *)
Definition rehash (ok : bool) (h : HashIndex) (newcap : Z) : option HashIndex :=
  if ok then
    match rehash_loop (hi_buckets h) (replicate (Z.to_nat newcap) empty_entry) newcap with
    | Some nb => Some (mkHashIndex nb newcap (hi_count h))
    | None => None
    end
  else None.

(** [(double)(count + 1) > (double)cap * MAX_LOAD]: [cap] is a power of two, so
    the product is exact and the comparison is one of rationals. *)
Definition exceeds_load (count cap : Z) : bool :=
  cap * MAX_LOAD_num <? (count + 1) * 2 ^ 53.

Definition hash_index_put (ok : bool) (h : HashIndex)
    (id offset length type deleted expires_at : Z) : option HashIndex :=
  match (if exceeds_load (hi_count h) (hi_cap h)
         then rehash ok h (hi_cap h * 2) else Some h) with
  | None => None
  | Some h1 =>
      match find_slot (hi_buckets h1) (hi_cap h1) id with
      | None => None
      | Some j =>
          let e := default empty_entry (hi_buckets h1 !! j) in
          let count := if he_used e then hi_count h1 else hi_count h1 + 1 in
          let id' := if he_used e then he_id e else id in
          Some (mkHashIndex
                  (<[j := mkHashEntry id' offset expires_at length type deleted true]>
                     (hi_buckets h1))
                  (hi_cap h1) count)
      end
  end.

Definition hash_index_get (h : HashIndex) (id : Z) : option HashEntry :=
  match find_slot (hi_buckets h) (hi_cap h) id with
  | None => None
  | Some j =>
      let e := default empty_entry (hi_buckets h !! j) in
      if he_used e && (he_deleted e =? 0) then Some e else None
  end.

(** [sizeof(HashIndex)] is 24 and [sizeof(HashEntry)] is 32 on LP64. *)
Definition hash_index_bytes (h : option HashIndex) : Z :=
  match h with Some h => 24 + hi_cap h * 32 | None => 0 end.

Definition hash_index_count (h : HashIndex) : Z := hi_count h.

(** ** Abstraction and invariant *)

Definition used_entries (bs : list HashEntry) : list HashEntry :=
  filter (fun e => he_used e = true) bs.

(** The abstract value: the occupied buckets as a finite map. *)
Definition tbl_map (bs : list HashEntry) : gmap Z HashEntry :=
  list_to_map ((fun e => (he_id e, e)) <$> used_entries bs).

Definition hi_map (h : HashIndex) : gmap Z HashEntry := tbl_map (hi_buckets h).

(** The bucket the [d]-th probe for [id] looks at. *)
Definition probe (cap id : Z) (d : nat) : nat :=
  Z.to_nat ((mix64 id + Z.of_nat d) mod cap).

(** Bucket [j] is occupied by an id other than [id]. *)
Definition occupied_by_other (bs : list HashEntry) (id : Z) (j : nat) : Prop :=
  exists e, bs !! j = Some e /\ he_used e = true /\ he_id e <> id.

(** Every occupied bucket is reached by its own probe sequence before any free
    bucket or another bucket of the same id. *)
Definition probed (bs : list HashEntry) (cap : Z) : Prop :=
  forall j e, bs !! j = Some e -> he_used e = true ->
    exists d, (d < Z.to_nat cap)%nat /\ probe cap (he_id e) d = j /\
      forall d', (d' < d)%nat -> occupied_by_other bs (he_id e) (probe cap (he_id e) d').

Record table_wf (bs : list HashEntry) (cap : Z) : Prop := {
  tw_pow2 : exists k, 0 <= k /\ cap = 2 ^ k;
  tw_len : Z.of_nat (length bs) = cap;
  tw_probed : probed bs cap;
  tw_free : (length (used_entries bs) < length bs)%nat;
}.

Record hi_wf (h : HashIndex) : Prop := {
  hw_table : table_wf (hi_buckets h) (hi_cap h);
  hw_cap : INITIAL_CAP <= hi_cap h;
  hw_count : hi_count h = Z.of_nat (length (used_entries (hi_buckets h)));
}.

(** ** The probe sequence *)

Section probing.
Context (bs : list HashEntry) (cap : Z) (Hwf : table_wf bs cap).

Lemma cap_pos : 0 < cap.
Proof. destruct (tw_pow2 _ _ Hwf) as (k & ? & ->). apply Z.pow_pos_nonneg; lia. Qed.

Lemma land_mask x : Z.land x (cap - 1) = x mod cap.
Proof.
  destruct (tw_pow2 _ _ Hwf) as (k & ? & ->).
  replace (2 ^ k - 1) with (Z.ones k) by (rewrite Z.ones_equiv; lia).
  by apply Z.land_ones.
Qed.

Lemma probe_lt id d : (probe cap id d < length bs)%nat.
Proof.
  unfold probe. pose proof (Z.mod_pos_bound (mix64 id + Z.of_nat d) cap cap_pos).
  pose proof (tw_len _ _ Hwf). lia.
Qed.

Lemma probe_next id d :
  Z.land (Z.of_nat (probe cap id d) + 1) (cap - 1) = Z.of_nat (probe cap id (S d)).
Proof.
  pose proof cap_pos. rewrite land_mask. unfold probe.
  rewrite !Z2Nat.id by (apply Z.mod_pos_bound; lia).
  rewrite Zplus_mod_idemp_l. f_equal. lia.
Qed.

Lemma probe_surj id j :
  (j < length bs)%nat -> exists d, (d < Z.to_nat cap)%nat /\ probe cap id d = j.
Proof.
  intros Hj. pose proof cap_pos. pose proof (tw_len _ _ Hwf).
  exists (Z.to_nat ((Z.of_nat j - mix64 id) mod cap)).
  pose proof (Z.mod_pos_bound (Z.of_nat j - mix64 id) cap cap_pos). split; [lia|].
  unfold probe. rewrite Z2Nat.id by lia. rewrite Zplus_mod_idemp_r.
  replace (mix64 id + (Z.of_nat j - mix64 id)) with (Z.of_nat j) by lia.
  rewrite Z.mod_small by lia. lia.
Qed.

(** The search stops at bucket [j]: it is free or holds [id]. *)
Definition stops (id : Z) (j : nat) : bool :=
  let e := default empty_entry (bs !! j) in negb (he_used e) || (he_id e =? id).

Lemma stops_false id j :
  (j < length bs)%nat -> stops id j = false <-> occupied_by_other bs id j.
Proof.
  intros Hj. destruct (lookup_lt_is_Some_2 bs j Hj) as [e He].
  unfold stops, occupied_by_other. rewrite He. simpl.
  rewrite orb_false_iff, negb_false_iff, Z.eqb_neq.
  split; [intros []; eauto|intros (e' & [= <-] & ? & ?); done].
Qed.

Lemma find_slot_loop_spec id n : forall fuel d,
  (n < fuel)%nat -> stops id (probe cap id (d + n)) = true ->
  (forall m, (m < n)%nat -> stops id (probe cap id (d + m)) = false) ->
  find_slot_loop fuel bs (cap - 1) (Z.of_nat (probe cap id d)) id
  = Some (probe cap id (d + n)).
Proof.
  induction n as [|n IH]; intros [|fuel] d Hf Hs Hm; try lia;
    cbn [find_slot_loop]; rewrite Nat2Z.id.
  - rewrite Nat.add_0_r in *. unfold stops in Hs. by rewrite Hs.
  - specialize (Hm 0%nat ltac:(lia)) as H0. rewrite Nat.add_0_r in H0.
    unfold stops in H0. rewrite H0. rewrite probe_next.
    rewrite IH; [by replace (S d + n)%nat with (d + S n)%nat by lia|lia| |].
    + by replace (S d + n)%nat with (d + S n)%nat by lia.
    + intros m Hlt. replace (S d + m)%nat with (d + S m)%nat by lia. apply Hm. lia.
Qed.

Lemma free_bucket : exists j e, bs !! j = Some e /\ he_used e = false.
Proof.
  pose proof (tw_free _ _ Hwf) as Hf. clear Hwf. revert Hf. unfold used_entries.
  induction bs as [|e l IH]; simpl; [lia|]. intros Hf.
  destruct (he_used e) eqn:Eu.
  - rewrite filter_cons_True in Hf by done. simpl in Hf.
    destruct IH as (j & e' & ? & ?); [lia|]. by exists (S j), e'.
  - by exists 0%nat, e.
Qed.

Lemma least_stop (id : Z) (p : nat -> bool) n :
  p n = true -> exists m, (m <= n)%nat /\ p m = true /\ forall i, (i < m)%nat -> p i = false.
Proof.
  induction n as [n IH] using lt_wf_ind. intros Hn.
  destruct (decide (Forall (fun i => p i = false) (seq 0 n))) as [Hall|Hex].
  - exists n. splits; auto. intros i Hi. rewrite Forall_forall in Hall.
    apply Hall, elem_of_seq. lia.
  - apply not_Forall_Exists in Hex; [|intros; apply _].
    apply Exists_exists in Hex as (i & Hi & Hpi). apply elem_of_seq in Hi.
    simpl in Hpi. destruct (IH i) as (m & ? & ? & ?); [lia|by destruct (p i)|].
    exists m. splits; auto. lia.
Qed.

(** The probe ends, at the first bucket that is free or holds [id]. *)
Lemma find_slot_spec id : exists d,
  (d < Z.to_nat cap)%nat /\ find_slot bs cap id = Some (probe cap id d) /\
  stops id (probe cap id d) = true /\
  forall d', (d' < d)%nat -> occupied_by_other bs id (probe cap id d').
Proof.
  destruct free_bucket as (j & e & Hj & Hu).
  destruct (probe_surj id j (lookup_lt_Some _ _ _ Hj)) as (dj & Hdj & Hpj).
  destruct (least_stop id (fun d => stops id (probe cap id d)) dj) as (d & Hle & Hs & Hmin).
  { unfold stops. rewrite Hpj, Hj. simpl. by rewrite Hu. }
  exists d. splits; [lia| |done|].
  - unfold find_slot. rewrite land_mask.
    replace (mix64 id mod cap) with (Z.of_nat (probe cap id 0)).
    + by rewrite (find_slot_loop_spec id d) by (assumption || lia).
    + unfold probe. rewrite Z2Nat.id by (apply Z.mod_pos_bound, cap_pos).
      f_equal. lia.
  - intros d' Hd'. apply stops_false; [apply probe_lt|]. auto.
Qed.

Lemma find_slot_used j e :
  bs !! j = Some e -> he_used e = true -> find_slot bs cap (he_id e) = Some j.
Proof.
  intros Hj Hu. destruct (tw_probed _ _ Hwf j e Hj Hu) as (dj & Hdj & Hpj & Hbefore).
  destruct (find_slot_spec (he_id e)) as (d & Hd & -> & Hs & Hmin). f_equal.
  destruct (lt_eq_lt_dec d dj) as [[Hlt| ->]|Hgt]; [|done|].
  - apply Hbefore, stops_false in Hlt; [congruence|apply probe_lt].
  - apply Hmin in Hgt as (e' & He' & _ & Hne). rewrite Hpj in He'. congruence.
Qed.

Lemma used_ids_unique i j ei ej :
  bs !! i = Some ei -> bs !! j = Some ej -> he_used ei = true -> he_used ej = true ->
  he_id ei = he_id ej -> i = j.
Proof.
  intros Hi Hj Hui Huj E. pose proof (find_slot_used i ei Hi Hui) as F1.
  rewrite E, (find_slot_used j ej Hj Huj) in F1. congruence.
Qed.

Lemma used_ids_NoDup : NoDup (he_id <$> used_entries bs).
Proof.
  pose proof used_ids_unique as Hu. clear Hwf. unfold used_entries.
  induction bs as [|e l IH]; [constructor|].
  assert (NoDup (he_id <$> filter (fun e => he_used e = true) l)) as IHl.
  { apply IH. intros i j ei ej Hi Hj H1 H2 E.
    specialize (Hu (S i) (S j) ei ej Hi Hj H1 H2 E). lia. }
  destruct (he_used e) eqn:Eu; [rewrite filter_cons_True by done
    |rewrite filter_cons_False by (by rewrite Eu); done].
  constructor; [|done]. intros Hin.
  apply list_elem_of_fmap in Hin as (e' & Hid & He').
  apply list_elem_of_filter in He' as [Hu' He'].
  apply list_elem_of_lookup in He' as [j Hj].
  specialize (Hu 0%nat (S j) e e' eq_refl Hj Eu Hu' Hid). lia.
Qed.

(** The abstract map holds exactly the occupied buckets. *)
Lemma tbl_map_lookup id e :
  tbl_map bs !! id = Some e <->
  exists j, bs !! j = Some e /\ he_used e = true /\ he_id e = id.
Proof.
  unfold tbl_map. rewrite <- elem_of_list_to_map.
  2:{ rewrite <- list_fmap_compose. apply used_ids_NoDup. }
  rewrite list_elem_of_fmap. unfold used_entries. split.
  - intros (e' & Heq & Hin). simplify_eq. apply list_elem_of_filter in Hin as [? Hin].
    apply list_elem_of_lookup in Hin as [j ?]. eauto.
  - intros (j & Hj & Hu & <-). exists e. split; [done|].
    apply list_elem_of_filter. split; [done|]. by eapply list_elem_of_lookup_2.
Qed.

(** What the probe finds is the abstract lookup. *)
Lemma find_slot_map id j :
  find_slot bs cap id = Some j ->
  exists e, bs !! j = Some e /\
    tbl_map bs !! id = (if he_used e then Some e else None) /\
    (he_used e = true -> he_id e = id).
Proof.
  destruct (find_slot_spec id) as (d & Hd & Hfind & Hs & Hmin).
  rewrite Hfind. intros [= <-].
  destruct (lookup_lt_is_Some_2 bs _ (probe_lt id d)) as [e He].
  unfold stops in Hs. rewrite He in Hs. simpl in Hs.
  exists e. split; [done|]. destruct (he_used e) eqn:Eu; rewrite ?Eu in Hs; simpl in Hs; zbool.
  - split; [|done]. apply tbl_map_lookup. eauto.
  - split; [|done]. destruct (tbl_map bs !! id) as [e'|] eqn:Em; [|done].
    apply tbl_map_lookup in Em as (j & Hj & Hu & <-).
    pose proof (find_slot_used j e' Hj Hu) as Hf. rewrite Hf in Hfind. congruence.
Qed.

End probing.

(** ** Storing at the found bucket *)

Lemma used_entries_insert bs j e e' :
  bs !! j = Some e -> he_used e' = true ->
  length (used_entries (<[j := e']> bs)) =
  (if he_used e then length (used_entries bs) else S (length (used_entries bs))).
Proof.
  intros Hj Hu. unfold used_entries.
  rewrite insert_take_drop by (by eapply lookup_lt_Some).
  set (P := fun e => he_used e = true).
  assert (filter P bs = filter P (take j bs) ++ filter P (e :: drop (S j) bs)) as ->.
  { rewrite <- filter_app. by rewrite take_drop_middle. }
  rewrite filter_app, !length_app, filter_cons_True by done. simpl.
  destruct (he_used e) eqn:Eu.
  - rewrite filter_cons_True by done. simpl. lia.
  - rewrite filter_cons_False by (unfold P; by rewrite Eu). lia.
Qed.

Section storing.
Context (bs : list HashEntry) (cap id : Z) (j : nat) (e' : HashEntry).
Context (Hwf : table_wf bs cap) (Hfind : find_slot bs cap id = Some j).
Context (Hid : he_id e' = id) (Hused : he_used e' = true).

Lemma stored_bucket : exists e, bs !! j = Some e.
Proof. destruct (find_slot_map bs cap Hwf id j Hfind) as (e & ? & _). eauto. Qed.

Lemma occupied_insert x i :
  x <> id \/ i <> j -> occupied_by_other bs x i -> occupied_by_other (<[j := e']> bs) x i.
Proof.
  intros Hor (e & He & Hu & Hne). destruct (decide (i = j)) as [->|Hij].
  - exists e'. rewrite list_lookup_insert_eq by (by eapply lookup_lt_Some).
    splits; auto. intros <-. by destruct Hor.
  - exists e. by rewrite list_lookup_insert_ne.
Qed.

Lemma probed_insert : probed (<[j := e']> bs) cap.
Proof.
  intros i e Hi Hu. destruct stored_bucket as [e0 He0].
  destruct (decide (i = j)) as [->|Hij].
  - rewrite list_lookup_insert_eq in Hi by (by eapply lookup_lt_Some).
    injection Hi as <-. rewrite Hid.
    destruct (find_slot_spec bs cap Hwf id) as (d & Hd & Hf & Hs & Hmin).
    exists d. splits; [done|congruence|]. intros d' Hd'.
    apply occupied_insert; [|by apply Hmin]. right. intros Heq.
    destruct (Hmin d' Hd') as (e1 & He1 & Hu1 & Hne1).
    destruct (find_slot_map bs cap Hwf id j Hfind) as (e2 & He2 & _ & Himp).
    rewrite Heq in He1. apply Hne1. rewrite He2 in He1. injection He1 as <-. auto.
  - rewrite list_lookup_insert_ne in Hi by done.
    destruct (tw_probed _ _ Hwf i e Hi Hu) as (d & Hd & Hp & Hb).
    exists d. splits; auto. intros d' Hd'. apply occupied_insert; [|auto].
    destruct (decide (probe cap (he_id e) d' = j)) as [Heq|]; [left|by right].
    destruct (Hb d' Hd') as (e1 & He1 & Hu1 & Hne1).
    destruct (find_slot_map bs cap Hwf id j Hfind) as (e2 & He2 & _ & Himp).
    rewrite Heq, He2 in He1. injection He1 as <-. intros E. rewrite Himp in Hne1; done.
Qed.

Lemma table_wf_insert :
  (S (length (used_entries bs)) < length bs)%nat -> table_wf (<[j := e']> bs) cap.
Proof.
  intros Hroom. destruct stored_bucket as [e0 He0]. destruct Hwf as [Hp Hl _ _].
  constructor; [done|by rewrite length_insert|apply probed_insert|].
  rewrite length_insert, (used_entries_insert bs j e0 e' He0 Hused).
  destruct (he_used e0); lia.
Qed.

Lemma tbl_map_insert :
  table_wf (<[j := e']> bs) cap -> tbl_map (<[j := e']> bs) = <[id := e']> (tbl_map bs).
Proof.
  intros Hwf'. destruct (find_slot_map bs cap Hwf id j Hfind) as (e0 & He0 & Hm0 & Himp).
  apply map_eq. intros x. apply option_eq. intros e.
  rewrite (tbl_map_lookup _ _ Hwf'). rewrite lookup_insert. case_decide as Hx; subst.
  - split.
    + intros (i & Hi & Hu & E). destruct (decide (i = j)) as [->|Hij].
      { by rewrite list_lookup_insert_eq in Hi by (by eapply lookup_lt_Some). }
      rewrite list_lookup_insert_ne in Hi by done.
      pose proof (find_slot_used bs cap Hwf i e Hi Hu) as F.
      rewrite E, Hfind in F. congruence.
    + intros [= <-]. exists j.
      by rewrite list_lookup_insert_eq by (by eapply lookup_lt_Some).
  - rewrite (tbl_map_lookup _ _ Hwf). split.
    + intros (i & Hi & Hu & E). destruct (decide (i = j)) as [->|Hij].
      { rewrite list_lookup_insert_eq in Hi by (by eapply lookup_lt_Some). congruence. }
      rewrite list_lookup_insert_ne in Hi by done. eauto.
    + intros (i & Hi & Hu & E). exists i. splits; auto.
      rewrite list_lookup_insert_ne; [done|]. intros ->.
      rewrite He0 in Hi. injection Hi as ->. rewrite Himp in E; congruence.
Qed.

End storing.

(** ** Rehashing *)

Lemma used_entries_replicate n : used_entries (replicate n empty_entry) = [].
Proof. unfold used_entries. induction n; simpl; [done|]. by rewrite filter_cons_False. Qed.

Lemma table_wf_replicate k :
  0 <= k -> table_wf (replicate (Z.to_nat (2 ^ k)) empty_entry) (2 ^ k).
Proof.
  intros Hk. assert (0 < 2 ^ k) by (apply Z.pow_pos_nonneg; lia).
  constructor; [eauto| | |].
  - rewrite length_replicate. lia.
  - intros j e Hj Hu. apply lookup_replicate in Hj as [-> _]. done.
  - rewrite used_entries_replicate, length_replicate. simpl. lia.
Qed.

Lemma used_entries_cons e l :
  used_entries (e :: l) = if he_used e then e :: used_entries l else used_entries l.
Proof.
  unfold used_entries. destruct (he_used e) eqn:Eu.
  - by rewrite filter_cons_True.
  - by rewrite filter_cons_False by (by rewrite Eu).
Qed.

Lemma tbl_map_cons e l :
  tbl_map (e :: l) = if he_used e then <[he_id e := e]> (tbl_map l) else tbl_map l.
Proof. unfold tbl_map. rewrite used_entries_cons. by destruct (he_used e). Qed.

Lemma rehash_loop_spec old nb cap :
  table_wf nb cap -> NoDup (he_id <$> used_entries old) ->
  (forall e, e ∈ used_entries old -> tbl_map nb !! he_id e = None) ->
  (length (used_entries nb) + length (used_entries old) < length nb)%nat ->
  exists nb', rehash_loop old nb cap = Some nb' /\ table_wf nb' cap /\
    tbl_map nb' = tbl_map old ∪ tbl_map nb /\ length nb' = length nb /\
    length (used_entries nb') = (length (used_entries nb) + length (used_entries old))%nat.
Proof.
  revert nb. induction old as [|e old IH]; intros nb Hwf Hnd Hfresh Hroom.
  { exists nb. splits; auto. change (tbl_map []) with (∅ : gmap Z HashEntry).
    by rewrite map_empty_union. }
  cbn [rehash_loop]. rewrite used_entries_cons in *. rewrite tbl_map_cons.
  destruct (he_used e) eqn:Eu; [|by apply IH].
  cbn [length] in Hroom. rewrite fmap_cons in Hnd. apply NoDup_cons in Hnd as [Hnin Hnd].
  destruct (find_slot_spec nb cap Hwf (he_id e)) as (d & _ & Hf & _). rewrite Hf.
  destruct (find_slot_map nb cap Hwf _ _ Hf) as (e0 & He0 & Hm0 & _).
  rewrite Hfresh in Hm0 by left.
  destruct (he_used e0) eqn:Eu0; [done|].
  set (nb1 := <[probe cap (he_id e) d := e]> nb).
  assert (table_wf nb1 cap) as Hwf1 by (eapply table_wf_insert; eauto; lia).
  assert (length (used_entries nb1) = S (length (used_entries nb))) as Hlen1.
  { unfold nb1. rewrite (used_entries_insert nb _ e0 e He0 Eu), Eu0. done. }
  pose proof (tbl_map_insert nb cap (he_id e) _ e Hwf Hf eq_refl Eu Hwf1) as Hmap1.
  fold nb1 in Hmap1.
  destruct (IH nb1) as (nb' & -> & Hwf' & Hm' & Hln & Hl'); [done|done| | |].
  - intros e1 He1. rewrite Hmap1, lookup_insert_ne; [apply Hfresh; by right|].
    intros E. apply Hnin. rewrite E. by apply list_elem_of_fmap_2.
  - unfold nb1 at 2. rewrite length_insert, Hlen1. lia.
  - exists nb'. splits; auto.
    + rewrite Hm', Hmap1. rewrite <- insert_union_r, insert_union_l; [done|].
      apply not_elem_of_list_to_map. by rewrite <- list_fmap_compose.
    + rewrite Hln. apply length_insert.
    + rewrite Hl', Hlen1. simpl. lia.
Qed.

Lemma tbl_map_replicate n : tbl_map (replicate n empty_entry) = ∅.
Proof. unfold tbl_map. by rewrite used_entries_replicate. Qed.

Lemma rehash_spec h :
  hi_wf h -> exists h', rehash true h (hi_cap h * 2) = Some h' /\ hi_wf h' /\
    hi_map h' = hi_map h /\ hi_cap h' = hi_cap h * 2 /\ hi_count h' = hi_count h.
Proof.
  intros [Hwf Hcap Hcnt]. destruct (tw_pow2 _ _ Hwf) as (k & Hk & Ek).
  assert (hi_cap h * 2 = 2 ^ (k + 1)) as E2 by (rewrite Ek, Z.pow_add_r by lia; lia).
  pose proof (table_wf_replicate (k + 1) ltac:(lia)) as Hw0. rewrite <- E2 in Hw0.
  pose proof (tw_len _ _ Hwf). pose proof (tw_free _ _ Hwf).
  unfold rehash.
  destruct (rehash_loop_spec (hi_buckets h)
    (replicate (Z.to_nat (hi_cap h * 2)) empty_entry) (hi_cap h * 2))
    as (nb & -> & Hwf' & Hm & Hln & Hl); [done|by eapply used_ids_NoDup| | |].
  - intros e He. by rewrite tbl_map_replicate.
  - rewrite used_entries_replicate, length_replicate. simpl. lia.
  - rewrite used_entries_replicate in Hl. simpl in Hl.
    eexists. split; [done|]. splits; simpl; auto.
    + constructor; simpl; [done|lia|by rewrite Hl].
    + unfold hi_map. simpl. by rewrite Hm, tbl_map_replicate, map_union_empty.
Qed.

(** ** Refinement of the finite map *)

Lemma exceeds_load_room count cap :
  0 < cap -> exceeds_load count cap = false -> count + 1 < cap.
Proof.
  unfold exceeds_load, MAX_LOAD_num. intros Hc H. zbool.
  change (2 ^ 53) with 9007199254740992 in H. lia.
Qed.

Lemma hi_wf_create : hi_wf hash_index_create.
Proof.
  unfold hash_index_create. constructor; cbn [hi_buckets hi_cap hi_count]; [|done|].
  - exact (table_wf_replicate 10 ltac:(lia)).
  - by rewrite used_entries_replicate.
Qed.

Lemma hi_map_create : hi_map hash_index_create = ∅.
Proof. apply tbl_map_replicate. Qed.

(** Storing into a table with room. *)
Lemma put_nogrow h j id e' :
  hi_wf h -> find_slot (hi_buckets h) (hi_cap h) id = Some j ->
  he_id e' = id -> he_used e' = true -> hi_count h + 1 < hi_cap h ->
  let e := default empty_entry (hi_buckets h !! j) in
  let h' := mkHashIndex (<[j := e']> (hi_buckets h)) (hi_cap h)
              (if he_used e then hi_count h else hi_count h + 1) in
  hi_wf h' /\ hi_map h' = <[id := e']> (hi_map h).
Proof.
  intros [Hwf Hcap Hcnt] Hf Hid Hu Hroom.
  destruct (find_slot_map _ _ Hwf _ _ Hf) as (e0 & He0 & _ & _).
  rewrite He0. simpl. pose proof (tw_len _ _ Hwf).
  assert (table_wf (<[j := e']> (hi_buckets h)) (hi_cap h)) as Hwf'.
  { eapply table_wf_insert; eauto. lia. }
  split; [|by apply tbl_map_insert with (cap := hi_cap h)].
  constructor; simpl; auto.
  rewrite (used_entries_insert _ _ e0 e' He0 Hu). destruct (he_used e0); lia.
Qed.

Lemma put_refines h id offset length type deleted expires_at :
  hi_wf h ->
  exists h', hash_index_put true h id offset length type deleted expires_at = Some h' /\
    hi_wf h' /\
    hi_map h' = <[id := mkHashEntry id offset expires_at length type deleted true]> (hi_map h).
Proof.
  intros Hwf. unfold hash_index_put.
  set (h1o := if exceeds_load _ _ then _ else _).
  assert (exists h1, h1o = Some h1 /\ hi_wf h1 /\ hi_map h1 = hi_map h /\
            hi_count h1 + 1 < hi_cap h1) as (h1 & -> & Hwf1 & Hm1 & Hroom).
  { unfold h1o. pose proof (cap_pos _ _ (hw_table _ Hwf)).
    destruct (exceeds_load _ _) eqn:El.
    - destruct (rehash_spec h Hwf) as (h1 & ? & ? & ? & Hc & Hn). exists h1.
      splits; auto. rewrite Hc, Hn, (hw_count _ Hwf).
      pose proof (tw_len _ _ (hw_table _ Hwf)). pose proof (tw_free _ _ (hw_table _ Hwf)). lia.
    - exists h. splits; auto. by apply exceeds_load_room. }
  destruct (find_slot_spec _ _ (hw_table _ Hwf1) id) as (d & _ & Hf & _). rewrite Hf.
  destruct (find_slot_map _ _ (hw_table _ Hwf1) _ _ Hf) as (e0 & He0 & _ & Himp).
  set (id' := if he_used _ then _ else _).
  assert (id' = id) as ->.
  { unfold id'. rewrite He0. simpl. destruct (he_used e0); auto. }
  eexists. split; [reflexivity|]. rewrite <- Hm1.
  by apply put_nogrow with (id := id).
Qed.

Lemma get_refines h id :
  hi_wf h ->
  hash_index_get h id = (hi_map h !! id) ≫= fun e => if he_deleted e =? 0 then Some e else None.
Proof.
  intros Hwf. unfold hash_index_get, hi_map.
  destruct (find_slot_spec _ _ (hw_table _ Hwf) id) as (d & _ & Hf & _). rewrite Hf.
  destruct (find_slot_map _ _ (hw_table _ Hwf) _ _ Hf) as (e0 & -> & -> & _).
  simpl. by destruct (he_used e0).
Qed.

(** With the allocator failing, the table is either unchanged or updated as
    with a working one. *)
Lemma put_oom h id offset length type deleted expires_at :
  hash_index_put false h id offset length type deleted expires_at = None \/
  hash_index_put false h id offset length type deleted expires_at =
  hash_index_put true h id offset length type deleted expires_at.
Proof. unfold hash_index_put, rehash. destruct (exceeds_load _ _); auto. Qed.

(** ** Properties *)

(** The arguments of one [hash_index_put] call after the table. *)
Record PutArgs := mkPutArgs {
  pa_id : Z; pa_offset : Z; pa_length : Z; pa_type : Z; pa_deleted : Z; pa_expires_at : Z;
}.

Definition put_args (h : HashIndex) (p : PutArgs) : option HashIndex :=
  hash_index_put true h (pa_id p) (pa_offset p) (pa_length p) (pa_type p)
    (pa_deleted p) (pa_expires_at p).

(** The entry a call describes. *)
Definition put_entry (p : PutArgs) : HashEntry :=
  mkHashEntry (pa_id p) (pa_offset p) (pa_expires_at p) (pa_length p) (pa_type p)
    (pa_deleted p) true.

Definition run_puts (h : HashIndex) (ps : list PutArgs) : option HashIndex :=
  foldl (fun o p => o ≫= fun h => put_args h p) (Some h) ps.

Lemma run_puts_None ps : foldl (fun o p => o ≫= fun h => put_args h p) None ps = None.
Proof. by induction ps. Qed.

Lemma run_puts_refines h ps :
  hi_wf h -> exists h', run_puts h ps = Some h' /\ hi_wf h' /\
    hi_map h' = foldl (fun m p => <[pa_id p := put_entry p]> m) (hi_map h) ps.
Proof.
  revert h. induction ps as [|p ps IH]; intros h Hwf; [by exists h|].
  destruct (put_refines h (pa_id p) (pa_offset p) (pa_length p) (pa_type p)
              (pa_deleted p) (pa_expires_at p) Hwf) as (h1 & E & Hwf1 & Hm1).
  destruct (IH h1 Hwf1) as (h' & E' & Hwf' & Hm'). exists h'. splits; auto.
  - unfold run_puts in *. cbn [foldl mbind option_bind]. unfold put_args at 2. by rewrite E.
  - by rewrite Hm', Hm1.
Qed.

(** the open-addressing table implements a finite map. From an empty table
    any sequence of stores terminates (every probe finds a bucket, growth
    included) in a well-formed table whose contents are the last store per id,
    and a lookup returns exactly the last stored location unless it is a
    tombstone. *)
Theorem hash_index_implements_map ps :
  exists h, run_puts hash_index_create ps = Some h /\ hi_wf h /\
    let spec := foldl (fun m p => <[pa_id p := put_entry p]> m) (∅ : gmap Z HashEntry) ps in
    hi_map h = spec /\ hash_index_count h = Z.of_nat (size spec) /\
    forall id, hash_index_get h id =
      (spec !! id) ≫= fun e => if he_deleted e =? 0 then Some e else None.
Proof.
  destruct (run_puts_refines hash_index_create ps hi_wf_create) as (h & E & Hwf & Hm).
  rewrite hi_map_create in Hm. exists h. cbn zeta. splits; auto.
  - rewrite <- Hm. unfold hash_index_count. rewrite (hw_count _ Hwf). f_equal.
    unfold hi_map, tbl_map. rewrite <- length_map_to_list.
    rewrite map_to_list_to_map; [by rewrite length_fmap|].
    rewrite <- list_fmap_compose. eapply used_ids_NoDup, hw_table, Hwf.
  - intros id. rewrite <- Hm. by apply get_refines.
Qed.
