(* ===== verification/HashCheckpoint.v ===== *)
(** * Index checkpoint image ([hash_index_serialize], [hash_index_load])

    The plaintext image of [memory.index]: a 36-byte header and one 30-byte
    entry per occupied bucket, guarded by one CRC over the header fields and
    the entries. Scalars are copied with [memcpy] from little-endian memory.
    The file and AEAD layer below ([ckpt_read]/[ckpt_write]) hands over the
    plaintext, or nothing. *)

From S2P Require Import Prelude Endian Crc32 HashIndex.

(** ** Writer *)

Definition AIDX_magic : list Z := [65; 73; 68; 88].

Definition entry_image (e : HashEntry) : list Z :=
  aegis_put_u64le (he_id e) ++ aegis_put_u64le (he_offset e) ++
  aegis_put_u32le (he_length e) ++ [he_type e; he_deleted e] ++
  aegis_put_u64le (he_expires_at e).

(** The header fields the CRC covers, bytes [0, 32). *)
Definition ckpt_header (written covered next_id : Z) : list Z :=
  AIDX_magic ++ aegis_put_u32le IDX_VERSION ++ aegis_put_u64le written ++
  aegis_put_u64le covered ++ aegis_put_u64le next_id.

(** [ok] is the outcome of the [malloc]. *)
Definition hash_index_serialize (ok : bool) (h : HashIndex) (covered next_id : Z)
  : option (list Z) :=
  if ok then
    let live := used_entries (hi_buckets h) in
    let body := concat (entry_image <$> live) in
    let hdr := ckpt_header (Z.of_nat (length live)) covered next_id in
    let crc := crc32_update (crc32_compute hdr) body in
    Some (hdr ++ aegis_put_u32le crc ++ body)
  else None.

(** ** Reader *)

(** The checks before the entry loop: the entry count, the covered log size,
    [next_id] and the entry bytes of an acceptable image. *)
Definition ckpt_validate (file : list Z) : option (Z * Z * Z * list Z) :=
  let flen := Z.of_nat (length file) in
  if flen <? IDX_HDR then None
  else if negb (bool_decide (take 4 file = AIDX_magic)) then None
  else if negb (aegis_get_u32le (drop 4 file) =? IDX_VERSION) then None
  else
    let cnt := aegis_get_u64le (drop 8 file) in
    let covered := aegis_get_u64le (drop 16 file) in
    let next_id := aegis_get_u64le (drop 24 file) in
    let want_crc := aegis_get_u32le (drop 32 file) in
    if (SIZE_MAX - 1) / IDX_ENTRY <? cnt then None
    else
      let body := cnt * IDX_ENTRY in
      if negb (flen =? IDX_HDR + body) then None
      else
        let entries := drop 36 file in
        let crc := crc32_update (crc32_compute (take 32 file)) entries in
        if negb (crc =? want_crc) then None
        else Some (cnt, covered, next_id, entries).

(** One turn of the entry loop; the return value of [hash_index_put] is
    ignored. *)
Definition load_entry (ok : bool) (h : HashIndex) (r : list Z) : HashIndex :=
  match hash_index_put ok h (aegis_get_u64le r) (aegis_get_u64le (drop 8 r))
          (aegis_get_u32le (drop 16 r)) (byte_at r 20) (byte_at r 21)
          (aegis_get_u64le (drop 22 r)) with
  | Some h' => h'
  | None => h
  end.

Fixpoint load_loop (oks : nat -> bool) (i n : nat) (entries : list Z) (h : HashIndex)
  : HashIndex :=
  match n with
  | O => h
  | S n' => load_loop oks (S i) n' (drop 30 entries) (load_entry (oks i) h entries)
  end.

(** [file] is what [ckpt_read] produced; [oks i] is the outcome of an
    allocation while storing entry [i]. *)
Definition hash_index_load (oks : nat -> bool) (h : HashIndex) (file : option (list Z))
  : option (HashIndex * Z * Z) :=
  match file with
  | None => None
  | Some f =>
      match ckpt_validate f with
      | None => None
      | Some (cnt, covered, next_id, entries) =>
          Some (load_loop oks 0 (Z.to_nat cnt) entries h, covered, next_id)
      end
  end.

(** ** Images of well-formed tables *)

Record entry_ok (e : HashEntry) : Prop := {
  eo_id : u64 (he_id e);
  eo_offset : u64 (he_offset e);
  eo_expires : u64 (he_expires_at e);
  eo_length : u32 (he_length e);
  eo_type : u8 (he_type e);
  eo_deleted : u8 (he_deleted e);
}.

Lemma length_entry_image e : length (entry_image e) = 30%nat.
Proof. unfold entry_image. autorewrite with len. reflexivity. Qed.

Lemma entry_image_bytes e : entry_ok e -> bytes_ok (entry_image e).
Proof.
  intros []. unfold entry_image. rewrite !bytes_ok_app.
  splits; auto with aegis. bytes_lit.
Qed.

Lemma length_body l : length (concat (entry_image <$> l)) = (30 * length l)%nat.
Proof.
  induction l as [|e l IH]; [done|]. cbn [fmap list_fmap concat].
  rewrite length_app, length_entry_image. change (list_fmap _ _ entry_image l) with (entry_image <$> l).
  rewrite IH. simpl. lia.
Qed.

Lemma body_bytes l : Forall entry_ok l -> bytes_ok (concat (entry_image <$> l)).
Proof.
  induction 1 as [|e l He _ IH]; [constructor|].
  cbn [fmap list_fmap concat]. apply bytes_ok_app. auto using entry_image_bytes.
Qed.

Lemma length_ckpt_header w c n : length (ckpt_header w c n) = 32%nat.
Proof. unfold ckpt_header. autorewrite with len. reflexivity. Qed.

Lemma ckpt_header_bytes w c n : bytes_ok (ckpt_header w c n).
Proof.
  unfold ckpt_header. rewrite !bytes_ok_app. splits; auto with aegis.
  unfold AIDX_magic. bytes_lit.
Qed.

(** Reading a field at a known position. *)
Lemma drop_app_n {A} n (a b : list A) : length a = n -> drop n (a ++ b) = b.
Proof. intros <-. apply drop_app_length. Qed.

Lemma take_app_n {A} n (a b : list A) : length a = n -> take n (a ++ b) = a.
Proof. intros <-. apply take_app_length. Qed.

Lemma ckpt_fields w c n rest :
  take 4 (ckpt_header w c n ++ rest) = AIDX_magic /\
  drop 4 (ckpt_header w c n ++ rest) =
    aegis_put_u32le IDX_VERSION ++ aegis_put_u64le w ++ aegis_put_u64le c ++
    aegis_put_u64le n ++ rest /\
  drop 8 (ckpt_header w c n ++ rest) =
    aegis_put_u64le w ++ aegis_put_u64le c ++ aegis_put_u64le n ++ rest /\
  drop 16 (ckpt_header w c n ++ rest) = aegis_put_u64le c ++ aegis_put_u64le n ++ rest /\
  drop 24 (ckpt_header w c n ++ rest) = aegis_put_u64le n ++ rest /\
  take 32 (ckpt_header w c n ++ rest) = ckpt_header w c n /\
  drop 32 (ckpt_header w c n ++ rest) = rest.
Proof. splits; reflexivity. Qed.

Lemma load_entry_image h e rest :
  hi_wf h -> entry_ok e -> he_used e = true ->
  hi_wf (load_entry true h (entry_image e ++ rest)) /\
  hi_map (load_entry true h (entry_image e ++ rest)) = <[he_id e := e]> (hi_map h).
Proof.
  intros Hwf He Hu. destruct e as [id off ex len ty de us]. simpl in Hu. subst us.
  destruct He as [Hid Hoff Hex Hlen Hty Hde].
  cbn in Hid, Hoff, Hex, Hlen, Hty, Hde.
  unfold load_entry, entry_image. cbn [he_id he_offset he_length he_type he_deleted he_expires_at].
  rewrite <- !app_assoc.
  rewrite get_put_u64le by done.
  rewrite (drop_app_n 8) by done. rewrite get_put_u64le by done.
  change (drop 16 ?l) with (drop 8 (drop 8 l)).
  rewrite !(drop_app_n 8) by done. rewrite get_put_u32le by done.
  change (byte_at (_ ++ _) 20) with ty. change (byte_at (_ ++ _) 21) with de.
  change (drop 22 ?l) with (drop 2 (drop 4 (drop 8 (drop 8 l)))).
  rewrite !(drop_app_n 8), (drop_app_n 4), (drop_app_n 2), get_put_u64le by done.
  destruct (put_refines h id off len ty de ex Hwf) as (h' & -> & ? & ->). done.
Qed.

(** Loading the entries one by one is inserting them into the map. *)
Lemma load_loop_image l i h :
  hi_wf h -> Forall entry_ok l -> Forall (fun e => he_used e = true) l ->
  let h' := load_loop (fun _ => true) i (length l) (concat (entry_image <$> l)) h in
  hi_wf h' /\
  hi_map h' = foldl (fun m e => <[he_id e := e]> m) (hi_map h) l.
Proof.
  revert i h. induction l as [|e l IH]; intros i h Hwf Hok Hu; [done|].
  apply Forall_cons in Hok as [He Hok]. apply Forall_cons in Hu as [Hue Hu].
  cbn [length load_loop]. rewrite fmap_cons. cbn [concat foldl].
  rewrite (drop_app_n 30) by apply length_entry_image.
  destruct (load_entry_image h e (concat (entry_image <$> l)) Hwf He Hue) as [Hwf1 Hm1].
  rewrite <- Hm1. by apply IH.
Qed.

Lemma foldl_insert_NoDup (l : list HashEntry) (m : gmap Z HashEntry) :
  NoDup (he_id <$> l) ->
  foldl (fun m e => <[he_id e := e]> m) m l =
  list_to_map ((fun e => (he_id e, e)) <$> l) ∪ m.
Proof.
  revert m. induction l as [|e l IH]; intros m Hnd; simpl.
  { by rewrite map_empty_union. }
  rewrite fmap_cons in Hnd. apply NoDup_cons in Hnd as [Hnin Hnd].
  rewrite IH by done. rewrite <- insert_union_l, insert_union_r; [done|].
  apply not_elem_of_list_to_map. by rewrite <- list_fmap_compose.
Qed.

Lemma used_entries_used bs : Forall (fun e => he_used e = true) (used_entries bs).
Proof. apply Forall_forall. intros e He. by apply list_elem_of_filter in He as [? _]. Qed.

(** The image passes every check of the reader and yields its own fields. *)
Lemma ckpt_validate_image l covered next_id :
  Forall entry_ok l -> u64 covered -> u64 next_id ->
  Z.of_nat (length l) <= (SIZE_MAX - 1) / IDX_ENTRY ->
  let hdr := ckpt_header (Z.of_nat (length l)) covered next_id in
  let body := concat (entry_image <$> l) in
  ckpt_validate (hdr ++ aegis_put_u32le (crc32_update (crc32_compute hdr) body) ++ body) =
  Some (Z.of_nat (length l), covered, next_id, body).
Proof.
  intros Hok Hc Hn Hfit hdr body. unfold ckpt_validate.
  set (crc := crc32_update (crc32_compute hdr) body).
  assert (Z.of_nat (length (hdr ++ aegis_put_u32le crc ++ body))
          = IDX_HDR + Z.of_nat (length l) * IDX_ENTRY) as Hlen.
  { unfold hdr, body. rewrite !length_app, length_ckpt_header, length_body, length_put_u32le.
    unfold IDX_HDR, IDX_ENTRY. lia. }
  destruct (ckpt_fields (Z.of_nat (length l)) covered next_id
              (aegis_put_u32le crc ++ body)) as (F1 & F2 & F3 & F4 & F5 & F6 & F7).
  fold hdr in F1, F2, F3, F4, F5, F6, F7.
  rewrite Hlen. destruct (Z.ltb_spec (IDX_HDR + Z.of_nat (length l) * IDX_ENTRY) IDX_HDR);
    [unfold IDX_ENTRY, IDX_HDR in *; lia|].
  rewrite F1, bool_decide_eq_true_2 by done. cbn [negb].
  rewrite F2, get_put_u32le by (unfold urange, IDX_VERSION; lia).
  rewrite Z.eqb_refl. cbn [negb].
  assert (u64 (Z.of_nat (length l))).
  { assert ((SIZE_MAX - 1) / IDX_ENTRY < 2 ^ 64) by (vm_compute; done).
    unfold urange. lia. }
  rewrite F3, F4, F5, F6, F7, !get_put_u64le by done.
  assert (u32 crc).
  { apply crc32_update_range; [apply crc32_compute_range, ckpt_header_bytes|].
    by apply body_bytes. }
  rewrite get_put_u32le by done.
  destruct (Z.ltb_spec ((SIZE_MAX - 1) / IDX_ENTRY) (Z.of_nat (length l))); [lia|].
  rewrite Z.eqb_refl. cbn [negb].
  change (drop 36 ?x) with (drop 4 (drop 32 x)). rewrite F7, (drop_app_n 4) by done.
  by rewrite Z.eqb_refl.
Qed.

(** The reader, as an equation on any image of the right shape. *)
Lemma ckpt_validate_crc file r :
  ckpt_validate file = Some r ->
  crc32_update (crc32_compute (take 32 file)) (drop 36 file) = aegis_get_u32le (drop 32 file).
Proof.
  unfold ckpt_validate. intros H. repeat case_if; done.
Qed.

Lemma crc_chain hdr body :
  crc32_update (crc32_compute hdr) body = crc32_compute (hdr ++ body).
Proof. apply crc32_update_app. Qed.

(** Four bytes are determined by the word they encode. *)
Lemma get_u32le_inj x y :
  length x = 4%nat -> length y = 4%nat -> bytes_ok x -> bytes_ok y ->
  forall k l, aegis_get_u32le (x ++ k) = aegis_get_u32le (y ++ l) -> x = y.
Proof.
  intros Hx Hy Bx By k l E.
  rewrite <- (le_split_combine x), <- (le_split_combine y), Hx, Hy by done. f_equal.
  destruct x as [|x0 [|x1 [|x2 [|x3 []]]]]; try done.
  destruct y as [|y0 [|y1 [|y2 [|y3 []]]]]; try done.
  unfold bytes_ok in Bx, By. rewrite !Forall_cons in Bx, By. destruct_and!.
  cbn [app] in E. by rewrite !get_u32le_combine in E by done.
Qed.

(** Loading the image of a table. *)
Lemma ckpt_image_loads h covered next_id :
  hi_wf h -> Forall entry_ok (used_entries (hi_buckets h)) ->
  u64 covered -> u64 next_id -> hi_count h <= (SIZE_MAX - 1) / IDX_ENTRY ->
  exists img h',
    hash_index_serialize true h covered next_id = Some img /\
    Z.of_nat (length img) = IDX_HDR + hi_count h * IDX_ENTRY /\
    hash_index_load (fun _ => true) hash_index_create (Some img) = Some (h', covered, next_id) /\
    hi_wf h' /\ hi_map h' = hi_map h.
Proof.
  intros Hwf Hok Hc Hn Hfit. pose proof (hw_count _ Hwf) as Hcnt.
  unfold hash_index_serialize, hash_index_load. eexists _, _. split; [reflexivity|].
  rewrite ckpt_validate_image by (done || lia). rewrite Nat2Z.id. splits; [|reflexivity| |].
  - rewrite !length_app, length_ckpt_header, length_body, length_put_u32le.
    rewrite Hcnt. unfold IDX_HDR, IDX_ENTRY. lia.
  - apply load_loop_image; auto using hi_wf_create, used_entries_used.
  - rewrite (proj2 (load_loop_image _ _ _ hi_wf_create Hok (used_entries_used _))).
    rewrite hi_map_create, foldl_insert_NoDup by (by eapply used_ids_NoDup, hw_table).
    by rewrite map_union_empty.
Qed.

(** ** Properties *)

(** saving an index and loading the image into a fresh table restores the
    same id-to-location map, the covered log size and the id allocator, and
    the image has exactly the size the writer allocates. *)
Theorem checkpoint_roundtrip h covered next_id :
  hi_wf h -> Forall entry_ok (used_entries (hi_buckets h)) ->
  u64 covered -> u64 next_id -> hi_count h <= (SIZE_MAX - 1) / IDX_ENTRY ->
  exists img h',
    hash_index_serialize true h covered next_id = Some img /\
    Z.of_nat (length img) = IDX_HDR + hi_count h * IDX_ENTRY /\
    hash_index_load (fun _ => true) hash_index_create (Some img) = Some (h', covered, next_id) /\
    hi_wf h' /\ hi_map h' = hi_map h.
Proof. apply ckpt_image_loads. Qed.

(** A one-record index, for the witnesses. *)
Definition ex_entry : HashEntry := mkHashEntry 7 64 0 100 2 0 true.
Definition ex_index : HashIndex :=
  default hash_index_create (hash_index_put true hash_index_create 7 64 100 2 0 0).

Lemma ex_index_wf : hi_wf ex_index.
Proof.
  unfold ex_index.
  destruct (put_refines _ 7 64 100 2 0 0 hi_wf_create) as (h & -> & ? & _). done.
Qed.

Lemma ex_index_used : used_entries (hi_buckets ex_index) = [ex_entry].
Proof. vm_compute. reflexivity. Qed.

Lemma ex_entries_ok : Forall entry_ok (used_entries (hi_buckets ex_index)).
Proof.
  rewrite ex_index_used. constructor; [|constructor].
  constructor; unfold urange, ex_entry; cbn; lia.
Qed.

Lemma checkpoint_roundtrip_witness : exists img h',
  hash_index_serialize true ex_index 200 8 = Some img /\
  Z.of_nat (length img) = IDX_HDR + hi_count ex_index * IDX_ENTRY /\
  hash_index_load (fun _ => true) hash_index_create (Some img) = Some (h', 200, 8) /\
  hi_wf h' /\ hi_map h' = hi_map ex_index.
Proof.
  apply (checkpoint_roundtrip ex_index 200 8 ex_index_wf ex_entries_ok).
  - unfold urange; lia.
  - unfold urange; lia.
  - vm_compute. discriminate.
Defined.

(** A window of the image that does not straddle the CRC field's edges. *)
Definition window_aligned (a n : nat) : Prop :=
  (a + n <= 32)%nat \/ (36 <= a)%nat \/ (32 <= a /\ a + n <= 36)%nat.

Lemma take_drop_window {A} (a w b : list A) i :
  ((length a + length w <= i)%nat -> take i (a ++ w ++ b) = a ++ w ++ take (i - length a - length w) b /\
     drop i (a ++ w ++ b) = drop (i - length a - length w) b) /\
  ((i <= length a)%nat -> take i (a ++ w ++ b) = take i a /\ drop i (a ++ w ++ b) = drop i a ++ w ++ b).
Proof.
  split; intros Hi.
  - rewrite !take_app_ge, !drop_app_ge by (rewrite ?length_app; lia). done.
  - by rewrite take_app_le, drop_app_le.
Qed.

Lemma ckpt_tamper a w1 w2 b r1 r2 :
  bytes_ok (a ++ w1 ++ b) -> bytes_ok w2 -> length w1 = length w2 -> (length w1 <= 4)%nat ->
  (36 <= length (a ++ w1 ++ b))%nat -> window_aligned (length a) (length w1) ->
  ckpt_validate (a ++ w1 ++ b) = Some r1 -> ckpt_validate (a ++ w2 ++ b) = Some r2 ->
  w1 = w2.
Proof.
  intros Hb H2 Hl Hle Hlen Hal V1 V2.
  apply ckpt_validate_crc in V1, V2. rewrite crc_chain in V1, V2.
  rewrite !bytes_ok_app in Hb. destruct Hb as (Ha & H1 & Hbb).
  destruct (decide (w1 = w2)) as [|Hne]; [done|exfalso].
  destruct (take_drop_window a w1 b 32) as [A1 A2], (take_drop_window a w2 b 32) as [B1 B2],
    (take_drop_window a w1 b 36) as [C1 C2], (take_drop_window a w2 b 36) as [D1 D2].
  destruct Hal as [Hw|[Hw|[Hw1 Hw2]]].
  - destruct A1 as [Ea Ea'], B1 as [Eb Eb'], C1 as [_ Ec'], D1 as [_ Ed']; try lia.
    rewrite Ea, Ea', Ec' in V1. rewrite Eb, Eb', Ed', <- Hl in V2.
    rewrite <- V2, <- !app_assoc in V1. revert V1. apply crc32_burst; auto with aegis.
    rewrite bytes_ok_app. auto with aegis.
  - destruct A2 as [Ea Ea'], B2 as [Eb Eb'], C2 as [_ Ec'], D2 as [_ Ed']; try lia.
    rewrite Ea, Ea', Ec' in V1. rewrite Eb, Eb', Ed' in V2.
    assert (length (drop 32 a) >= 4)%nat as Hd by (rewrite length_drop; lia).
    rewrite <- (take_drop 4 (drop 32 a)), <- !app_assoc in V1, V2.
    assert (forall t1 t2, aegis_get_u32le (take 4 (drop 32 a) ++ t1) =
                          aegis_get_u32le (take 4 (drop 32 a) ++ t2)) as Hsame.
    { intros. assert (length (take 4 (drop 32 a)) = 4%nat) as L4 by (rewrite length_take; lia).
      assert (bytes_ok (take 4 (drop 32 a))) as B4 by auto with aegis.
      destruct (take 4 (drop 32 a)) as [|x0 [|x1 [|x2 [|x3 []]]]]; try done. }
    rewrite (Hsame _ (drop 4 (drop 32 a) ++ w2 ++ b)) in V1.
    rewrite <- V2, !app_assoc in V1. rewrite <- !(app_assoc _ _ b) in V1.
    revert V1. apply crc32_burst; auto. rewrite bytes_ok_app. auto with aegis.
  - destruct A2 as [Ea Ea'], B2 as [Eb Eb'], C1 as [_ Ec'], D1 as [_ Ed']; try lia.
    rewrite Ea, Ea', Ec' in V1. rewrite Eb, Eb', Ed', <- Hl in V2. rewrite V1 in V2.
    set (m := (36 - length a - length w1)%nat) in *.
    assert (m <= length b)%nat by (rewrite !length_app in Hlen; lia).
    rewrite <- (take_drop m b), !app_assoc in V2.
    apply get_u32le_inj in V2;
      try solve [rewrite ?length_app, ?length_drop, ?length_take; lia
                |rewrite ?bytes_ok_app; auto with aegis].
    rewrite <- !app_assoc in V2. apply app_inv_head in V2. by apply app_inv_tail in V2.
Qed.

(** a checkpoint image damaged inside any window of at most four bytes (in
    the header fields, in the CRC or in the entries) is refused, whatever the
    allocator does, so recovery falls back to scanning the log. *)
Theorem checkpoint_corruption_refused h covered next_id img a w1 w2 b oks h0 :
  hi_wf h -> Forall entry_ok (used_entries (hi_buckets h)) ->
  u64 covered -> u64 next_id -> hi_count h <= (SIZE_MAX - 1) / IDX_ENTRY ->
  hash_index_serialize true h covered next_id = Some img ->
  img = a ++ w1 ++ b -> bytes_ok w2 -> length w2 = length w1 -> (length w1 <= 4)%nat ->
  w2 <> w1 -> window_aligned (length a) (length w1) ->
  hash_index_load oks h0 (Some (a ++ w2 ++ b)) = None.
Proof.
  intros Hwf Hok Hc Hn Hfit Hs Himg Hw2 Hl Hle Hne Hal. pose proof (hw_count _ Hwf) as Hcnt.
  unfold hash_index_serialize in Hs. cbn zeta in Hs. apply (inj Some) in Hs.
  pose proof (ckpt_validate_image _ covered next_id Hok Hc Hn ltac:(lia)) as V1.
  cbn zeta in V1. rewrite Hs, Himg in V1.
  unfold hash_index_load. destruct (ckpt_validate (a ++ w2 ++ b)) as [r2|] eqn:V2; [|done].
  exfalso. apply Hne. symmetry. eapply ckpt_tamper; eauto; rewrite <- Himg, <- Hs.
  - rewrite !bytes_ok_app. splits; auto using ckpt_header_bytes, body_bytes with aegis.
  - rewrite !length_app, length_ckpt_header, length_put_u32le. lia.
Qed.

Definition ex_image : list Z := default [] (hash_index_serialize true ex_index 200 8).

Lemma checkpoint_corruption_refused_witness :
  hash_index_load (fun _ => true) hash_index_create
    (Some (take 40 ex_image ++ [255; 255] ++ drop 42 ex_image)) = None.
Proof.
  apply (checkpoint_corruption_refused ex_index 200 8 ex_image (take 40 ex_image)
           (slice ex_image 40 2) [255; 255] (drop 42 ex_image) (fun _ => true)
           hash_index_create ex_index_wf ex_entries_ok).
  - unfold urange; lia.
  - unfold urange; lia.
  - vm_compute. discriminate.
  - vm_compute. reflexivity.
  - vm_compute. reflexivity.
  - bytes_lit.
  - vm_compute. reflexivity.
  - vm_compute. lia.
  - vm_compute. discriminate.
  - right. left. vm_compute. lia.
Defined.
