(* ===== verification/TimeIndex.v ===== *)
(** * Temporal range index ([src/storage/time_index.c])

    A growable array of [(created, id)] pairs kept sorted by binary-search
    insertion, and the two range queries over it. The abstract value is the
    multiset of pairs; the queries are shown equal to a filter of the sorted
    contents. *)

From S2P Require Import Prelude.

(** ** Data and operations *)

Record TimeEntry := mkTimeEntry { te_created : Z; te_id : Z }.

(** [n] of the C struct is the length of [ti_e]. *)
Record TimeIndex := mkTimeIndex { ti_e : list TimeEntry; ti_cap : nat }.

#[global] Instance TimeEntry_eq_dec : EqDecision TimeEntry.
Proof. solve_decision. Defined.

Definition time_index_create : TimeIndex := mkTimeIndex [] 0.

(** [sizeof(TimeIndex)] is 24 and [sizeof(TimeEntry)] is 16 on LP64. *)
Definition time_index_bytes (t : option TimeIndex) : Z :=
  match t with Some t => 24 + Z.of_nat (ti_cap t) * 16 | None => 0 end.

Definition cmp_key (ca ia cb ib : Z) : Z :=
  if ca <? cb then -1 else if ca >? cb then 1
  else if ia <? ib then -1 else if ia >? ib then 1 else 0.

Definition entry_at (l : list TimeEntry) (i : nat) : TimeEntry :=
  default (mkTimeEntry 0 0) (l !! i).

(** First index with key >= (created, id). *)
Definition lower_bound (t : TimeIndex) (created id : Z) : nat :=
  bsearch (fun mid => let e := entry_at (ti_e t) mid in
                      cmp_key (te_created e) (te_id e) created id <? 0)
          0 (length (ti_e t)).

(** [ok] is the outcome of the [realloc]; [None] is the error return. *)
Definition time_index_add (ok : bool) (t : TimeIndex) (created id : Z) : option TimeIndex :=
  match (if (length (ti_e t) =? ti_cap t)%nat then
           if ok then Some (if (ti_cap t =? 0)%nat then 256 else ti_cap t * 2)%nat else None
         else Some (ti_cap t)) with
  | None => None
  | Some cap =>
      let pos := lower_bound t created id in
      Some (mkTimeIndex (insert_at pos (mkTimeEntry created id) (ti_e t)) cap)
  end.

Definition time_index_remove (t : TimeIndex) (created id : Z) : TimeIndex :=
  let pos := lower_bound t created id in
  let e := entry_at (ti_e t) pos in
  if (pos <? length (ti_e t))%nat && (te_created e =? created) && (te_id e =? id)
  then mkTimeIndex (remove_at pos (ti_e t)) (ti_cap t)
  else t.

(** The collecting loop of [time_index_range] over the entries from [pos] on;
    [n] ids were collected before. *)
Fixpoint range_loop (es : list TimeEntry) (end_ : Z) (max n : nat) : list Z :=
  match es with
  | [] => []
  | e :: es' =>
      if te_created e >? end_ then []
      else if negb (max =? 0)%nat && (max <=? n)%nat then []
      else te_id e :: range_loop es' end_ max (S n)
  end.

(** [ok]: every allocation of the call succeeds. *)
Definition time_index_range (ok : bool) (t : TimeIndex) (start end_ : Z) (max : nat)
  : option (list Z) :=
  if ok then Some (range_loop (drop (lower_bound t start 0) (ti_e t)) end_ max 0)
  else None.

(** The ids and the [truncated] flag. *)
Definition time_index_range_recent (ok : bool) (t : TimeIndex) (start end_ : Z) (max : nat)
  : option (list Z * bool) :=
  let lo := lower_bound t start 0 in
  let hi := bsearch (fun mid => negb (te_created (entry_at (ti_e t) mid) >? end_))
              lo (length (ti_e t)) in
  let total := (hi - lo)%nat in
  let trunc := negb (max =? 0)%nat && (max <? total)%nat in
  let take_n := if trunc then max else total in
  let lo' := if trunc then (hi - max)%nat else lo in
  if ok then Some (map te_id (slice (ti_e t) lo' take_n), trunc) else None.

(** ** Invariant: sorted by (created, id) *)

Definition te_le (a b : TimeEntry) : Prop :=
  te_created a < te_created b \/ (te_created a = te_created b /\ te_id a <= te_id b).

#[global] Instance te_le_dec a b : Decision (te_le a b).
Proof. unfold te_le. apply _. Defined.
#[global] Instance te_le_trans : Transitive te_le.
Proof. intros [a1 a2] [b1 b2] [c1 c2]. unfold te_le; simpl. lia. Qed.
#[global] Instance te_le_total : Total te_le.
Proof. intros [a1 a2] [b1 b2]. unfold te_le; simpl. lia. Qed.
#[global] Instance te_le_antisymm : AntiSymm eq te_le.
Proof. intros [a1 a2] [b1 b2]. unfold te_le; simpl. intros. f_equal; lia. Qed.

Definition ti_wf (t : TimeIndex) : Prop :=
  StronglySorted te_le (ti_e t) /\ (length (ti_e t) <= ti_cap t)%nat.

(** ** Binary search *)

(** [e] is before the key [(created, id)]. *)
Definition before (created id : Z) (e : TimeEntry) : bool :=
  cmp_key (te_created e) (te_id e) created id <? 0.

Lemma before_spec created id e :
  before created id e = true <->
  te_created e < created \/ (te_created e = created /\ te_id e < id).
Proof. unfold before, cmp_key. repeat case_if; split; intros; try done; lia. Qed.

Lemma before_false created id e :
  before created id e = false <->
  created < te_created e \/ (te_created e = created /\ id <= te_id e).
Proof. unfold before, cmp_key. repeat case_if; split; intros; try done; lia. Qed.

Lemma before_down created id a b :
  te_le a b -> before created id b = true -> before created id a = true.
Proof. unfold te_le. rewrite !before_spec. lia. Qed.

Lemma lower_bound_partition t created id :
  ti_wf t ->
  (lower_bound t created id <= length (ti_e t))%nat /\
  take (lower_bound t created id) (ti_e t)
    = filter (fun e => before created id e = true) (ti_e t) /\
  drop (lower_bound t created id) (ti_e t)
    = filter (fun e => before created id e = false) (ti_e t).
Proof.
  intros [Hs _].
  exact (bsearch_partition te_le (mkTimeEntry 0 0) (before created id)
           (before_down created id) (ti_e t) Hs).
Qed.

(** ** Maintenance *)

Lemma insert_sorted t created id :
  ti_wf t ->
  StronglySorted te_le (insert_at (lower_bound t created id) (mkTimeEntry created id) (ti_e t)).
Proof.
  intros Hwf. destruct (lower_bound_partition t created id Hwf) as (_ & Ht & Hd).
  destruct Hwf as [Hs _]. unfold insert_at. rewrite Ht, Hd.
  apply StronglySorted_app_2; [|by apply StronglySorted_filter|].
  - intros x y Hx Hy. apply list_elem_of_filter in Hx as [Hx _]. apply before_spec in Hx.
    apply elem_of_cons in Hy as [->|Hy]; [unfold te_le; simpl; lia|].
    apply list_elem_of_filter in Hy as [Hy _]. apply before_false in Hy. unfold te_le. lia.
  - constructor; [by apply StronglySorted_filter|]. apply Forall_forall. intros y Hy.
    apply list_elem_of_filter in Hy as [Hy _]. apply before_false in Hy.
    unfold te_le; simpl. lia.
Qed.

Lemma time_index_add_spec t created id :
  ti_wf t -> exists t', time_index_add true t created id = Some t' /\ ti_wf t' /\
    ti_e t' ≡ₚ mkTimeEntry created id :: ti_e t.
Proof.
  intros Hwf. pose proof (insert_sorted t created id Hwf) as Hs. destruct Hwf as [_ Hcap].
  unfold time_index_add.
  destruct (Nat.eqb_spec (length (ti_e t)) (ti_cap t)) as [E|Hne];
    (eexists; split; [reflexivity|]; split; [split|]); simpl; auto;
    try apply insert_at_Permutation; rewrite length_insert_at.
  - destruct (Nat.eqb_spec (ti_cap t) 0); lia.
  - lia.
Qed.

Lemma lower_bound_found t created id :
  ti_wf t -> mkTimeEntry created id ∈ ti_e t ->
  ti_e t !! lower_bound t created id = Some (mkTimeEntry created id).
Proof.
  intros Hwf Hin. destruct (lower_bound_partition t created id Hwf) as (_ & _ & Hd).
  destruct Hwf as [Hs _].
  assert (mkTimeEntry created id ∈ drop (lower_bound t created id) (ti_e t)) as Hin'.
  { rewrite Hd. apply list_elem_of_filter. split; [|done]. apply before_false. simpl. lia. }
  rewrite <- (Nat.add_0_r (lower_bound _ _ _)), <- lookup_drop. rewrite Hd in *.
  assert (StronglySorted te_le (filter (fun e => before created id e = false) (ti_e t))) as Hs'.
  { by apply StronglySorted_filter. }
  destruct (filter _ (ti_e t)) as [|x l] eqn:Ef; [by apply elem_of_nil in Hin'|]. simpl. f_equal.
  assert (x ∈ filter (fun e => before created id e = false) (ti_e t)) as Hx
    by (rewrite Ef; left).
  apply list_elem_of_filter in Hx as [Hx _]. apply before_false in Hx.
  apply StronglySorted_inv in Hs' as [_ Hall]. rewrite Forall_forall in Hall.
  apply elem_of_cons in Hin' as [->|Hin']; [done|].
  specialize (Hall _ Hin'). apply (anti_symm te_le); [done|]. unfold te_le; simpl. lia.
Qed.

Lemma time_index_remove_spec t created id :
  ti_wf t -> ti_wf (time_index_remove t created id) /\
    (mkTimeEntry created id ∈ ti_e t ->
       ti_e t ≡ₚ mkTimeEntry created id :: ti_e (time_index_remove t created id)) /\
    (mkTimeEntry created id ∉ ti_e t -> time_index_remove t created id = t).
Proof.
  intros Hwf. pose proof (lower_bound_found t created id Hwf) as Hfound.
  unfold time_index_remove, entry_at.
  set (pos := lower_bound t created id) in *.
  destruct (ti_e t !! pos) as [e|] eqn:Epos; simpl.
  - pose proof (lookup_lt_Some _ _ _ Epos) as Hlt.
    apply Nat.ltb_lt in Hlt as ->. simpl.
    destruct (te_created e =? created) eqn:Ec, (te_id e =? id) eqn:Ei; simpl; zbool.
    + assert (e = mkTimeEntry created id) as -> by (destruct e; simpl in *; congruence).
      splits.
      * destruct Hwf as [Hs Hc]. split; simpl.
        -- rewrite <- (take_drop_middle _ _ _ Epos) in Hs. unfold remove_at.
           apply StronglySorted_app in Hs as (Hx & H1 & H2).
           apply StronglySorted_inv in H2 as [H2 _].
           apply StronglySorted_app_2; auto. intros a b Ha Hb. apply Hx; [done|by right].
        -- pose proof (lookup_lt_Some _ _ _ Epos). rewrite length_remove_at; lia.
      * intros _. by apply remove_at_Permutation.
      * intros Hnin. destruct Hnin. by eapply list_elem_of_lookup_2.
    + splits; auto. intros Hin. injection (Hfound Hin) as ->. simpl in *. congruence.
    + splits; auto. intros Hin. injection (Hfound Hin) as ->. simpl in *. congruence.
    + splits; auto. intros Hin. injection (Hfound Hin) as ->. simpl in *. congruence.
  - assert (time_index_remove t created id = t) as Hsame.
    { unfold time_index_remove. fold pos. apply lookup_ge_None in Epos.
      assert ((pos <? length (ti_e t))%nat = false) as -> by (apply Nat.ltb_ge; lia). done. }
    apply lookup_ge_None in Epos.
    assert ((pos <? length (ti_e t))%nat = false) as -> by (apply Nat.ltb_ge; lia). simpl.
    splits; auto. intros Hin. specialize (Hfound Hin). done.
Qed.

(** ** Range queries *)

Definition in_range (start end_ : Z) (e : TimeEntry) : Prop :=
  start <= te_created e <= end_.

#[global] Instance in_range_dec start end_ e : Decision (in_range start end_ e).
Proof. unfold in_range. apply _. Defined.

(** Ids are [uint64_t] values. *)
Definition ids_ok (t : TimeIndex) : Prop := Forall (fun e => 0 <= te_id e) (ti_e t).

Lemma lower_bound_start t start :
  ti_wf t -> ids_ok t ->
  drop (lower_bound t start 0) (ti_e t) = filter (fun e => start <= te_created e) (ti_e t).
Proof.
  intros Hwf Hids. destruct (lower_bound_partition t start 0 Hwf) as (_ & _ & ->).
  unfold ids_ok in Hids. clear Hwf.
  induction Hids as [|e l He _ IH]; [done|].
  destruct (decide (start <= te_created e)).
  - rewrite !filter_cons_True by (try apply before_false; lia). by f_equal.
  - rewrite !filter_cons_False by (try rewrite before_false; lia). done.
Qed.

Lemma range_loop_spec l end_ max n :
  StronglySorted te_le l ->
  range_loop l end_ max n =
  te_id <$> (if (max =? 0)%nat then filter (fun e => te_created e <= end_) l
             else take (max - n) (filter (fun e => te_created e <= end_) l)).
Proof.
  intros Hs. revert n. induction Hs as [|e l Hs IH Hall]; intros n; simpl.
  { by destruct (max =? 0)%nat; rewrite ?filter_nil, ?take_nil. }
  destruct (te_created e >? end_) eqn:Ec; zbool.
  - rewrite filter_none; [by destruct (max =? 0)%nat; rewrite ?take_nil|].
    constructor; [lia|]. eapply Forall_impl; [exact Hall|]. unfold te_le. simpl. lia.
  - rewrite filter_cons_True by lia. destruct (Nat.eqb_spec max 0) as [->|Hm]; simpl.
    { rewrite IH. done. }
    destruct (Nat.leb_spec max n) as [Hle|Hlt]; simpl.
    + by replace (max - n)%nat with 0%nat by lia.
    + rewrite IH. destruct (Nat.eqb_spec max 0); [lia|].
      replace (max - n)%nat with (S (max - S n)) by lia. done.
Qed.

Lemma filter_filter_range (l : list TimeEntry) start end_ :
  filter (fun e => te_created e <= end_) (filter (fun e => start <= te_created e) l) =
  filter (in_range start end_) l.
Proof.
  rewrite list_filter_filter. apply list_filter_iff. unfold in_range. intros. lia.
Qed.

(** ** Properties *)

(** The contents after a sequence of insertions, in the order of the array. *)
Definition run_adds (ps : list (Z * Z)) : option TimeIndex :=
  foldl (fun o p => o ≫= fun t => time_index_add true t p.1 p.2) (Some time_index_create) ps.

Lemma run_adds_spec ps : exists t, run_adds ps = Some t /\ ti_wf t /\
  ti_e t ≡ₚ (fun p => mkTimeEntry p.1 p.2) <$> ps.
Proof.
  induction ps as [|p ps (t & E & Hwf & Hp)] using rev_ind.
  { exists time_index_create. splits; [done|split; simpl; [constructor|lia]|done]. }
  destruct (time_index_add_spec t p.1 p.2 Hwf) as (t' & E' & Hwf' & Hp').
  exists t'. splits; auto.
  - unfold run_adds in *. rewrite foldl_app, E. done.
  - rewrite Hp', Hp, fmap_app. simpl. apply Permutation_cons_append.
Qed.

(** insertion by binary search keeps the array sorted by creation time then
    id, and the array is a function of the inserted pairs alone: two insertion
    orders of the same pairs give the same array. *)
Theorem time_index_order_independent ps qs :
  ps ≡ₚ qs -> exists t u,
    run_adds ps = Some t /\ run_adds qs = Some u /\
    StronglySorted te_le (ti_e t) /\ ti_e t = ti_e u.
Proof.
  intros Hp. destruct (run_adds_spec ps) as (t & Et & [Hst _] & Ht).
  destruct (run_adds_spec qs) as (u & Eu & [Hsu _] & Hu).
  exists t, u. splits; auto. apply (StronglySorted_unique te_le); auto.
  rewrite Ht, Hu. by rewrite Hp.
Qed.

Lemma time_index_order_independent_witness : exists t u,
  run_adds [(5, 1); (3, 2); (5, 0)] = Some t /\ run_adds [(5, 0); (5, 1); (3, 2)] = Some u /\
  StronglySorted te_le (ti_e t) /\ ti_e t = ti_e u.
Proof.
  apply (time_index_order_independent [(5, 1); (3, 2); (5, 0)] [(5, 0); (5, 1); (3, 2)]).
  symmetry. apply (Permutation_app_comm [(5, 0)] [(5, 1); (3, 2)]).
Defined.

(** [time_index_range] returns exactly the ids created in the closed
    interval, in (created, id) order, cut off after [max] of them ([max] = 0 is
    no limit). *)
Theorem time_index_range_exact t start end_ max :
  ti_wf t -> ids_ok t ->
  time_index_range true t start end_ max =
  Some (te_id <$> (let hits := filter (in_range start end_) (ti_e t) in
                   if (max =? 0)%nat then hits else take max hits)).
Proof.
  intros Hwf Hids. unfold time_index_range. rewrite lower_bound_start by done.
  destruct Hwf as [Hs _].
  rewrite range_loop_spec by (by apply StronglySorted_filter).
  by rewrite filter_filter_range, Nat.sub_0_r.
Qed.

Definition ex_time : TimeIndex := default time_index_create (run_adds [(5, 1); (3, 2); (9, 0)]).

Lemma ex_time_wf : ti_wf ex_time.
Proof. unfold ex_time. destruct (run_adds_spec [(5, 1); (3, 2); (9, 0)]) as (t & -> & ? & _). done. Qed.

Lemma ex_time_ids : ids_ok ex_time.
Proof. unfold ids_ok. vm_compute. repeat constructor; discriminate. Qed.

Lemma time_index_range_exact_witness : time_index_range true ex_time 4 9 1 = Some [1].
Proof. rewrite (time_index_range_exact ex_time 4 9 1 ex_time_wf ex_time_ids). vm_compute. reflexivity. Defined.

(** [time_index_range_recent] returns the most recent [max] hits of the
    interval, still in ascending order, and reports truncation exactly when
    there were more. *)
Theorem time_index_range_recent_exact t start end_ max :
  ti_wf t -> ids_ok t ->
  time_index_range_recent true t start end_ max =
  let hits := filter (in_range start end_) (ti_e t) in
  let cut := negb (max =? 0)%nat && (max <? length hits)%nat in
  Some (te_id <$> (if cut then drop (length hits - max) hits else hits), cut).
Proof.
  intros Hwf Hids. unfold time_index_range_recent.
  pose proof (lower_bound_start t start Hwf Hids) as Hlb.
  destruct (lower_bound_partition t start 0 Hwf) as (Hlo & _ & _).
  set (lo := lower_bound t start 0) in *.
  destruct (bsearch_split te_le (mkTimeEntry 0 0)
              (fun e => negb (te_created e >? end_))
              ltac:(unfold te_le; intros; zbool; apply negb_true_iff; rewrite Z.gtb_ltb;
                    apply Z.ltb_ge; lia)
              (ti_e t) lo (proj1 Hwf) Hlo) as (Hr & Hsl & _).
  change (default (mkTimeEntry 0 0) (ti_e t !! ?i)) with (entry_at (ti_e t) i) in *.
  set (hi := bsearch _ lo (length (ti_e t))) in *.
  assert (filter (in_range start end_) (ti_e t) = slice (ti_e t) lo (hi - lo)) as Hhits.
  { rewrite Hsl, Hlb, <- filter_filter_range. apply list_filter_iff. intros e.
    rewrite negb_true_iff, Z.gtb_ltb, Z.ltb_ge. done. }
  cbn zeta. rewrite Hhits, length_slice by lia.
  destruct (negb (max =? 0)%nat && (max <? hi - lo)%nat) eqn:Ecut; [|done].
  do 2 f_equal. change (map te_id ?l) with (te_id <$> l). f_equal.
  apply andb_true_iff in Ecut as [_ Hlt]. apply Nat.ltb_lt in Hlt.
  unfold slice. apply list_eq. intros i. rewrite lookup_drop.
  destruct (decide (i < max)%nat).
  - rewrite !lookup_take_lt, !lookup_drop by lia. f_equal. lia.
  - rewrite !lookup_take_ge by lia. done.
Qed.

Lemma time_index_range_recent_exact_witness :
  time_index_range_recent true ex_time 0 9 2 = Some ([1; 0], true).
Proof.
  rewrite (time_index_range_recent_exact ex_time 0 9 2 ex_time_wf ex_time_ids).
  vm_compute. reflexivity.
Defined.
