(* ===== verification/SortedArray.v ===== *)
(** * Sorted arrays used as sets

    The posting lists of the tag, edge and fact indexes are arrays kept sorted
    by a strict order, searched with a lower-bound binary search and updated
    with [memmove].  [OrderB] is the order such an array is kept in: the
    comparison the code writes, with the laws the search relies on. Each index
    gives the instance for its own posting type and inherits the lemmas. *)

From S2P Require Import Prelude.

Class OrderB (A : Type) := {
  ltb : A -> A -> bool;
  ltb_irrefl : forall a, ltb a a = false;
  ltb_trans : forall a b c, ltb a b = true -> ltb b c = true -> ltb a c = true;
  ltb_total : forall a b, ltb a b = false -> ltb b a = false -> a = b
}.

#[export, refine] Instance Z_orderb : OrderB Z := {| ltb := Z.ltb |}.
Proof. all: intros; zbool; lia. Defined.

Section sorted_set.
Context {A : Type} `{OrderB A} `{EqDecision A}.
Implicit Types (l : list A) (x y : A).

(** Index of the first element that is not below [x]. *)
Definition sa_lower_bound l x : nat :=
  bsearch (fun mid => ltb (default x (l !! mid)) x) 0 (length l).

(** [pos < n && v[pos] == x]. *)
Definition sa_at l (pos : nat) x : bool :=
  (pos <? length l)%nat && bool_decide (l !! pos = Some x).

Definition lt_rel : relation A := fun a b => ltb a b = true.

(** Strictly ascending: sorted and without duplicates. *)
Definition strictly_sorted l : Prop := StronglySorted lt_rel l.

#[global] Instance lt_rel_trans : Transitive lt_rel.
Proof. intros a b c. apply ltb_trans. Qed.

Lemma ltb_down x a b : lt_rel a b -> ltb b x = true -> ltb a x = true.
Proof. apply ltb_trans. Qed.

Lemma sa_partition l x :
  strictly_sorted l ->
  (sa_lower_bound l x <= length l)%nat /\
  take (sa_lower_bound l x) l = filter (fun y => ltb y x = true) l /\
  drop (sa_lower_bound l x) l = filter (fun y => ltb y x = false) l.
Proof. apply (bsearch_partition lt_rel x (fun y => ltb y x) (ltb_down x)). Qed.

Lemma elem_of_take_lb l x y :
  strictly_sorted l -> y ∈ take (sa_lower_bound l x) l -> ltb y x = true.
Proof.
  intros Hs. destruct (sa_partition l x Hs) as (_ & -> & _).
  by intros [? _]%list_elem_of_filter.
Qed.

Lemma elem_of_drop_lb l x y :
  strictly_sorted l -> y ∈ drop (sa_lower_bound l x) l -> ltb y x = false.
Proof.
  intros Hs. destruct (sa_partition l x Hs) as (_ & _ & ->).
  by intros [? _]%list_elem_of_filter.
Qed.

Lemma sorted_take n l : strictly_sorted l -> strictly_sorted (take n l).
Proof. unfold strictly_sorted. rewrite <- (take_drop n l) at 1. apply StronglySorted_app_1_l. Qed.

Lemma sorted_drop n l : strictly_sorted l -> strictly_sorted (drop n l).
Proof. unfold strictly_sorted. rewrite <- (take_drop n l) at 1. apply StronglySorted_app_1_r. Qed.

(** Once the search has skipped everything below [x], [x] is present exactly
    when it is the element found. *)
Lemma sa_at_spec l x :
  strictly_sorted l -> sa_at l (sa_lower_bound l x) x = true <-> x ∈ l.
Proof.
  intros Hs. unfold sa_at. rewrite andb_true_iff, bool_decide_eq_true. split.
  { intros [_ Hl]. by eapply list_elem_of_lookup_2. }
  intros Hx.
  assert (x ∈ drop (sa_lower_bound l x) l) as Hd.
  { rewrite <- (take_drop (sa_lower_bound l x) l) in Hx.
    apply elem_of_app in Hx as [Hx|]; [|done].
    apply elem_of_take_lb in Hx; [|done]. by rewrite ltb_irrefl in Hx. }
  assert (l !! sa_lower_bound l x = Some x) as Hl.
  { replace (sa_lower_bound l x) with (sa_lower_bound l x + 0)%nat by lia.
    rewrite <- lookup_drop. pose proof (sorted_drop (sa_lower_bound l x) l Hs) as Hsd.
    destruct (drop (sa_lower_bound l x) l) as [|y d] eqn:Ed; [by apply not_elem_of_nil in Hd|].
    apply elem_of_cons in Hd as [->|Hd]; [done|].
    assert (ltb y x = false) as Hy by (apply (elem_of_drop_lb l x); [done|rewrite Ed; left]).
    inversion_clear Hsd as [|? ? _ Hf]. rewrite Forall_forall in Hf.
    specialize (Hf x Hd). unfold lt_rel in Hf. congruence. }
  split; [|done]. apply Nat.ltb_lt. by eapply lookup_lt_Some.
Qed.

Lemma sa_at_false l x :
  strictly_sorted l -> sa_at l (sa_lower_bound l x) x = false <-> x ∉ l.
Proof.
  intros Hs. rewrite <- (sa_at_spec l x Hs). destruct (sa_at _ _ _); split; congruence || done.
Qed.

Lemma sa_insert_sorted l x :
  strictly_sorted l -> x ∉ l -> strictly_sorted (insert_at (sa_lower_bound l x) x l).
Proof.
  intros Hs Hx. unfold insert_at, strictly_sorted. apply StronglySorted_app.
  split_and!; [|by apply sorted_take|].
  - intros a b Ha Hb. apply elem_of_take_lb in Ha as Hax; [|done].
    apply elem_of_cons in Hb as [->|Hb]; [done|].
    rewrite <- (take_drop (sa_lower_bound l x) l) in Hs.
    by eapply StronglySorted_app_1_elem_of.
  - constructor; [by apply sorted_drop|]. rewrite Forall_forall. intros y Hy.
    apply elem_of_drop_lb in Hy as Hyx; [|done]. unfold lt_rel.
    destruct (ltb x y) eqn:E; [done|]. exfalso. apply Hx.
    rewrite (ltb_total x y) by done. apply list_elem_of_lookup in Hy as [i Hi].
    rewrite lookup_drop in Hi. by eapply list_elem_of_lookup_2.
Qed.

Lemma elem_of_insert_at i x l y : y ∈ insert_at i x l <-> y = x \/ y ∈ l.
Proof. rewrite (insert_at_Permutation i x l). apply elem_of_cons. Qed.

Lemma sorted_nodup l : strictly_sorted l -> NoDup l.
Proof.
  induction 1 as [|x l _ IH Hf]; constructor; [|done].
  intros Hx. rewrite Forall_forall in Hf. specialize (Hf x Hx).
  unfold lt_rel in Hf. by rewrite ltb_irrefl in Hf.
Qed.

Lemma sa_remove_sorted l i : strictly_sorted l -> strictly_sorted (remove_at i l).
Proof.
  intros Hs. unfold remove_at, strictly_sorted. apply StronglySorted_app.
  split_and!; [|by apply sorted_take|by apply sorted_drop].
  intros a b Ha Hb. rewrite <- (take_drop i l) in Hs.
  eapply StronglySorted_app_1_elem_of; [done|done|].
  apply list_elem_of_lookup in Hb as [j Hj]. rewrite lookup_drop in Hj.
  apply list_elem_of_lookup. exists (S j). rewrite lookup_drop. rewrite <- Hj. f_equal. lia.
Qed.

Lemma elem_of_remove_at l i x y :
  strictly_sorted l -> l !! i = Some x -> y ∈ remove_at i l <-> y ∈ l /\ y <> x.
Proof.
  intros Hs Hi. pose proof (sorted_nodup l Hs) as Hnd.
  pose proof (remove_at_Permutation i x l Hi) as Hp. rewrite Hp in Hnd.
  apply NoDup_cons in Hnd as [Hx _].
  assert (y ∈ l <-> y = x \/ y ∈ remove_at i l) as -> by (rewrite Hp at 1; apply elem_of_cons).
  split; [|naive_solver]. intros Hy. split; [by right|]. intros ->. done.
Qed.

(** A strictly sorted array is determined by its elements. *)
Lemma strictly_sorted_unique l k :
  strictly_sorted l -> strictly_sorted k -> (forall x, x ∈ l <-> x ∈ k) -> l = k.
Proof.
  intros Hl Hk Heq.
  assert (AntiSymm eq lt_rel) as Ha.
  { intros a b Hab Hba. pose proof (ltb_trans a b a Hab Hba) as E. by rewrite ltb_irrefl in E. }
  apply (StronglySorted_unique lt_rel); [done|done|].
  apply NoDup_Permutation; auto using sorted_nodup.
Qed.

Lemma strictly_sorted_filter (q : A -> Prop) `{forall x, Decision (q x)} l :
  strictly_sorted l -> strictly_sorted (filter q l).
Proof. apply StronglySorted_filter. Qed.

(** ** Insertion and removal as the code writes them

    [cap] is the allocated length; [grow0] the first allocation; [ok] whether
    the [realloc] succeeds. *)
Definition sa_add (grow0 : nat) (ok : bool) (v : list A) (cap : nat) x
  : option (list A * nat) :=
  let pos := sa_lower_bound v x in
  if sa_at v pos x then Some (v, cap)
  else
    let full := (length v =? cap)%nat in
    if full && negb ok then None
    else
      let cap' := if full then (if (cap =? 0)%nat then grow0 else cap * 2)%nat else cap in
      Some (insert_at pos x v, cap').

Definition sa_del (v : list A) x : list A :=
  let pos := sa_lower_bound v x in
  if sa_at v pos x then remove_at pos v else v.

Lemma sa_add_spec grow0 ok v cap x v' cap' :
  strictly_sorted v -> sa_add grow0 ok v cap x = Some (v', cap') ->
  strictly_sorted v' /\ (forall y, y ∈ v' <-> y = x \/ y ∈ v).
Proof.
  intros Hs. unfold sa_add. cbn zeta. case_if.
  { intros [= <- <-]. split; [done|]. intros y. split; [by right|].
    intros [->|]; [|done]. by apply (sa_at_spec v x). }
  case_if; [done|]. intros [= <- _]. apply sa_at_false in E; [|done].
  split; [by apply sa_insert_sorted|]. intros y. apply elem_of_insert_at.
Qed.

Lemma sa_add_ok grow0 v cap x : is_Some (sa_add grow0 true v cap x).
Proof.
  unfold sa_add. cbn zeta. case_if; [by eexists|]. rewrite andb_false_r. by eexists.
Qed.

Lemma sa_del_spec v x :
  strictly_sorted v ->
  strictly_sorted (sa_del v x) /\ (forall y, y ∈ sa_del v x <-> y ∈ v /\ y <> x).
Proof.
  intros Hs. unfold sa_del. cbn zeta. case_if.
  - split; [by apply sa_remove_sorted|]. intros y. apply elem_of_remove_at; [done|].
    unfold sa_at in E. apply andb_true_iff in E as [_ E]. by apply bool_decide_eq_true in E.
  - apply sa_at_false in E; [|done]. split; [done|]. intros y. split; [|tauto].
    intros Hy. split; [done|]. by intros ->.
Qed.

Lemma sa_add_length grow0 ok v cap x v' cap' :
  sa_add grow0 ok v cap x = Some (v', cap') ->
  length v' = (if sa_at v (sa_lower_bound v x) x then length v else S (length v)).
Proof.
  unfold sa_add. cbn zeta. case_if; [by intros [= <- _]|].
  case_if; [done|]. intros [= <- _]. apply length_insert_at.
Qed.
End sorted_set.

(** The capacity always covers the elements. *)
Lemma sa_add_cap {A} `{OrderB A} `{EqDecision A} grow0 ok (v : list A) cap x v' cap' :
  (0 < grow0)%nat -> (length v <= cap)%nat -> sa_add grow0 ok v cap x = Some (v', cap') ->
  (length v' <= cap')%nat.
Proof.
  intros Hg Hc. unfold sa_add. cbn zeta. case_if; [by intros [= <- <-]|].
  case_if; [done|]. intros [= <- <-]. rewrite length_insert_at.
  repeat case_if; lia.
Qed.
