(* ===== verification/Record.v ===== *)
(** * Memory records (src/src/memory/record.c, src/include/aegisdb/record.h)

    The record and its editing operations. C strings are lists of non-zero
    bytes without the terminator, [None] for [NULL]; a [float] is its 32-bit
    pattern. [alloc n] tells whether an allocation of [n] bytes succeeds. *)

From S2P Require Import Prelude Endian SortedArray.

(** ** Data *)

Inductive MemoryType := MEM_WORKING | MEM_EPISODIC | MEM_SEMANTIC.

Definition memory_type_code (t : MemoryType) : Z :=
  match t with MEM_WORKING => 0 | MEM_EPISODIC => 1 | MEM_SEMANTIC => 2 end.
Definition memory_type_of (z : Z) : option MemoryType :=
  if z =? 0 then Some MEM_WORKING
  else if z =? 1 then Some MEM_EPISODIC
  else if z =? 2 then Some MEM_SEMANTIC else None.

Record Relationship := mkRelationship {
  rl_from : Z; rl_to : Z; rl_kind : option (list Z)
}.

Inductive FactKind := FACT_NONE | FACT_OBJ_ID | FACT_OBJ_STRING.
#[global] Instance FactKind_eq_dec : EqDecision FactKind.
Proof. solve_decision. Defined.

Record Fact := mkFact {
  fa_kind : FactKind; fa_subject : Z; fa_predicate : option (list Z);
  fa_object_id : Z; fa_object_str : option (list Z)
}.
Definition fact_zero : Fact := mkFact FACT_NONE 0 None 0 None.

Inductive DerivRule := DERIV_NONE | DERIV_TRANSITIVE | DERIV_SYMMETRIC | DERIV_INVERSE.
#[global] Instance DerivRule_eq_dec : EqDecision DerivRule.
Proof. solve_decision. Defined.

Definition deriv_rule_code (r : DerivRule) : Z :=
  match r with
  | DERIV_NONE => 0 | DERIV_TRANSITIVE => 1 | DERIV_SYMMETRIC => 2 | DERIV_INVERSE => 3
  end.
Definition deriv_rule_of (z : Z) : option DerivRule :=
  if z =? 1 then Some DERIV_TRANSITIVE
  else if z =? 2 then Some DERIV_SYMMETRIC
  else if z =? 3 then Some DERIV_INVERSE else None.

Definition DERIV_MAX_PREMISES : nat := 8.
Definition DERIV_MAX_ROUTES : nat := 4.

(** [premises] and [premise_count] of a route as one list. *)
Record DerivRoute := mkDerivRoute {
  dr_rule : DerivRule; dr_depth : Z; dr_premises : list Z
}.
#[global] Instance DerivRoute_eq_dec : EqDecision DerivRoute.
Proof. solve_decision. Defined.

Record MemoryRecord := mkMemoryRecord {
  mr_id : Z; mr_type : MemoryType; mr_created : Z; mr_updated : Z;
  mr_importance : Z; mr_confidence : Z;
  mr_agent_id : option (list Z);
  mr_tags : list (list Z);
  mr_embedding : list Z; mr_embedding_dim : Z; mr_vec_count : Z;
  mr_relationships : list Relationship;
  mr_fact : Fact;
  mr_derivation : list DerivRoute;
  mr_data : list Z;
  mr_expires_at : Z; mr_deleted : Z
}.

(** 1.0F and 0.0F. *)
Definition F32_ONE : Z := 0x3F800000.
Definition F32_ZERO : Z := 0.

Definition record_init : MemoryRecord :=
  mkMemoryRecord 0 MEM_WORKING 0 0 F32_ZERO F32_ONE None [] [] 0 0 [] fact_zero [] [] 0 0.

(** ** Field updates *)

Definition set_tags (r : MemoryRecord) (v : list (list Z)) : MemoryRecord :=
  mkMemoryRecord (mr_id r) (mr_type r) (mr_created r) (mr_updated r) (mr_importance r)
    (mr_confidence r) (mr_agent_id r) v (mr_embedding r) (mr_embedding_dim r) (mr_vec_count r)
    (mr_relationships r) (mr_fact r) (mr_derivation r) (mr_data r) (mr_expires_at r) (mr_deleted r).
Definition set_relationships (r : MemoryRecord) (v : list Relationship) : MemoryRecord :=
  mkMemoryRecord (mr_id r) (mr_type r) (mr_created r) (mr_updated r) (mr_importance r)
    (mr_confidence r) (mr_agent_id r) (mr_tags r) (mr_embedding r) (mr_embedding_dim r)
    (mr_vec_count r) v (mr_fact r) (mr_derivation r) (mr_data r) (mr_expires_at r) (mr_deleted r).
Definition set_fact (r : MemoryRecord) (v : Fact) : MemoryRecord :=
  mkMemoryRecord (mr_id r) (mr_type r) (mr_created r) (mr_updated r) (mr_importance r)
    (mr_confidence r) (mr_agent_id r) (mr_tags r) (mr_embedding r) (mr_embedding_dim r)
    (mr_vec_count r) (mr_relationships r) v (mr_derivation r) (mr_data r) (mr_expires_at r)
    (mr_deleted r).
Definition set_derivation (r : MemoryRecord) (v : list DerivRoute) : MemoryRecord :=
  mkMemoryRecord (mr_id r) (mr_type r) (mr_created r) (mr_updated r) (mr_importance r)
    (mr_confidence r) (mr_agent_id r) (mr_tags r) (mr_embedding r) (mr_embedding_dim r)
    (mr_vec_count r) (mr_relationships r) (mr_fact r) v (mr_data r) (mr_expires_at r) (mr_deleted r).

(** ** Editing *)

Section editing.
Context (alloc : Z -> bool).

(** [None] when the copy cannot be allocated. *)
Definition dup_str (s : list Z) : option (list Z) :=
  if alloc (Z.of_nat (length s) + 1) then Some s else None.

(** The second component is true for the C result 0; a failure leaves the
    record without tags. *)
Definition record_set_tags (r : MemoryRecord) (tags : list (list Z)) : MemoryRecord * bool :=
  match tags with
  | [] => (set_tags r [], true)
  | _ =>
      if negb (alloc (Z.of_nat (length tags) * 8)) then (set_tags r [], false)
      else
        match mapM dup_str tags with
        | Some v => (set_tags r v, true)
        | None => (set_tags r [], false)
        end
  end.

Definition record_add_relationship (r : MemoryRecord) (from_id to_id : Z) (kind : option (list Z))
  : MemoryRecord * bool :=
  if negb (alloc ((Z.of_nat (length (mr_relationships r)) + 1) * 24)) then (r, false)
  else
    match kind with
    | None =>
        (set_relationships r (mr_relationships r ++ [mkRelationship from_id to_id None]), true)
    | Some k =>
        match dup_str k with
        | None => (r, false)
        | Some k =>
            (set_relationships r (mr_relationships r ++ [mkRelationship from_id to_id (Some k)]), true)
        end
    end.

Definition record_set_fact (r : MemoryRecord) (kind : FactKind) (subject : Z)
  (predicate : option (list Z)) (object_id : Z) (object_str : option (list Z))
  : MemoryRecord * bool :=
  match kind with
  | FACT_NONE => (set_fact r fact_zero, true)
  | _ =>
      match predicate with
      | None | Some [] => (r, false)
      | Some p =>
          match kind, object_str with
          | FACT_OBJ_STRING, None => (r, false)
          | _, _ =>
              match kind, object_str with
              | FACT_OBJ_STRING, Some o =>
                  match dup_str p, dup_str o with
                  | Some pred, Some obj =>
                      (set_fact r (mkFact kind subject (Some pred) 0 (Some obj)), true)
                  | _, _ => (r, false)
                  end
              | _, _ =>
                  match dup_str p with
                  | Some pred => (set_fact r (mkFact kind subject (Some pred) object_id None), true)
                  | None => (r, false)
                  end
              end
          end
      end
  end.

(** The minimum over the routes, 0 for none. *)
Definition derivation_depth (d : list DerivRoute) : Z :=
  match d with
  | [] => 0
  | rt :: d' => foldl (fun best rt => if dr_depth rt <? best then dr_depth rt else best)
                  (dr_depth rt) d'
  end.

Definition record_clear_derivation (r : MemoryRecord) : MemoryRecord := set_derivation r [].

(** Premises position by position, then their number, then the rule. *)
Fixpoint premises_cmp (a b : list Z) : Z :=
  match a, b with
  | [], [] => 0
  | [], _ => -1
  | _, [] => 1
  | x :: a', y :: b' => if negb (x =? y) then (if x <? y then -1 else 1) else premises_cmp a' b'
  end.

Definition route_cmp (a b : DerivRoute) : Z :=
  let c := premises_cmp (dr_premises a) (dr_premises b) in
  if negb (c =? 0) then c
  else if negb (deriv_rule_code (dr_rule a) =? deriv_rule_code (dr_rule b)) then
    (if deriv_rule_code (dr_rule a) <? deriv_rule_code (dr_rule b) then -1 else 1)
  else 0.

(** The search for the insertion point: [inl tt] when the route is already
    there. *)
Fixpoint route_position (rt : DerivRoute) (routes : list DerivRoute) (i : nat) : unit + nat :=
  match routes with
  | [] => inr i
  | x :: routes' =>
      let c := route_cmp rt x in
      if c =? 0 then inl tt
      else if c <? 0 then inr i
      else route_position rt routes' (S i)
  end.

Definition SIZEOF_DerivRoute : Z := 80.

(** The C result: 0 added, 1 redundant, -1 error. *)
Definition record_add_route (r : MemoryRecord) (rule : DerivRule) (depth : Z)
  (premises : option (list Z)) : MemoryRecord * Z :=
  match rule with
  | DERIV_NONE => (r, -1)
  | _ =>
      match premises with
      | None => (r, -1)
      | Some ps =>
          if (length ps =? 0)%nat || (DERIV_MAX_PREMISES <? length ps)%nat then (r, -1)
          else
            let rt := mkDerivRoute rule depth ps in
            let routes := mr_derivation r in
            match route_position rt routes 0 with
            | inl _ => (r, 1)
            | inr at_ =>
                if (DERIV_MAX_ROUTES <=? length routes)%nat then
                  if (DERIV_MAX_ROUTES <=? at_)%nat then (r, 1)
                  else (set_derivation r (take DERIV_MAX_ROUTES (insert_at at_ rt routes)), 0)
                else if (length routes =? 0)%nat
                        && negb (alloc (Z.of_nat DERIV_MAX_ROUTES * SIZEOF_DerivRoute))
                then (r, -1)
                else (set_derivation r (insert_at at_ rt routes), 0)
            end
      end
  end.

(** Copy the routes one by one; [None] when one of them is refused. *)
Definition clone_routes (r : MemoryRecord) (routes : list DerivRoute) : option MemoryRecord :=
  foldl (fun st rt =>
    st ≫= fun r =>
      let '(r', rc) := record_add_route r (dr_rule rt) (dr_depth rt) (Some (dr_premises rt)) in
      if rc <? 0 then None else Some r') (Some r) routes.

Definition clone_relationships (r : MemoryRecord) (rels : list Relationship)
  : option MemoryRecord :=
  foldl (fun st rl =>
    st ≫= fun r =>
      let '(r', ok) := record_add_relationship r (rl_from rl) (rl_to rl) (rl_kind rl) in
      if ok then Some r' else None) (Some r) rels.

Definition SIZEOF_MemoryRecord : Z := 192.

Definition record_clone (src : MemoryRecord) : option MemoryRecord :=
  if negb (alloc SIZEOF_MemoryRecord) then None else
  match (match mr_agent_id src with
         | None => Some None
         | Some a => match dup_str a with Some a' => Some (Some a') | None => None end
         end) with
  | None => None
  | Some agent =>
  let r := mkMemoryRecord (mr_id src) (mr_type src) (mr_created src) (mr_updated src)
             (mr_importance src) (mr_confidence src) agent [] [] 0 0 [] fact_zero [] []
             (mr_expires_at src) (mr_deleted src) in
  let '(r, ok) := if (length (mr_tags src) =? 0)%nat then (r, true)
                  else record_set_tags r (mr_tags src) in
  if negb ok then None else
  let f := mr_fact src in
  let '(r, ok) := if bool_decide (fa_kind f = FACT_NONE) then (r, true)
                  else record_set_fact r (fa_kind f) (fa_subject f) (fa_predicate f)
                         (fa_object_id f) (fa_object_str f) in
  if negb ok then None else
  match clone_routes r (mr_derivation src) with
  | None => None
  | Some r =>
  let n := mr_vec_count src * mr_embedding_dim src in
  let has_emb := negb (mr_embedding_dim src =? 0) && negb (mr_vec_count src =? 0) in
  if has_emb && ((mr_vec_count src >? (SIZE_MAX / 4) / mr_embedding_dim src)
                 || negb (alloc (n * 4))) then None else
  let r := if has_emb then
             mkMemoryRecord (mr_id r) (mr_type r) (mr_created r) (mr_updated r) (mr_importance r)
               (mr_confidence r) (mr_agent_id r) (mr_tags r) (take (Z.to_nat n) (mr_embedding src))
               (mr_embedding_dim src) (mr_vec_count src) (mr_relationships r) (mr_fact r)
               (mr_derivation r) (mr_data r) (mr_expires_at r) (mr_deleted r)
           else r in
  match clone_relationships r (mr_relationships src) with
  | None => None
  | Some r =>
      let dl := length (mr_data src) in
      if negb (dl =? 0)%nat && negb (alloc (Z.of_nat dl)) then None
      else
        Some (mkMemoryRecord (mr_id r) (mr_type r) (mr_created r) (mr_updated r) (mr_importance r)
               (mr_confidence r) (mr_agent_id r) (mr_tags r) (mr_embedding r)
               (mr_embedding_dim r) (mr_vec_count r) (mr_relationships r) (mr_fact r)
               (mr_derivation r) (mr_data src) (mr_expires_at r) (mr_deleted r))
  end end end.
End editing.

(** ** Routes: sorted by key, bounded *)

(** What identifies a route: its premises and its rule. *)
Definition RouteKey : Type := list Z * Z.
#[global] Instance RouteKey_eq_dec : EqDecision RouteKey.
Proof. unfold RouteKey. apply _. Defined.

Definition route_key (rt : DerivRoute) : RouteKey :=
  (dr_premises rt, deriv_rule_code (dr_rule rt)).

Definition key_cmp (a b : RouteKey) : Z :=
  let c := premises_cmp (fst a) (fst b) in
  if negb (c =? 0) then c
  else if negb (snd a =? snd b) then (if snd a <? snd b then -1 else 1) else 0.

Lemma premises_cmp_eq a b : premises_cmp a b = 0 <-> a = b.
Proof.
  revert b. induction a as [|x a IH]; intros [|y b]; cbn; try (split; congruence).
  destruct (Z.eqb_spec x y) as [->|Hne]; cbn.
  - rewrite IH. split; congruence.
  - split; [|congruence]. case_if; lia.
Qed.

Lemma premises_cmp_flip a b : premises_cmp b a = - premises_cmp a b.
Proof.
  revert b. induction a as [|x a IH]; intros [|y b]; cbn; try done.
  rewrite (Z.eqb_sym y x). destruct (Z.eqb_spec x y) as [->|Hne]; cbn; [apply IH|].
  destruct (Z.ltb_spec x y), (Z.ltb_spec y x); lia.
Qed.

Lemma premises_cmp_trans a b c :
  premises_cmp a b < 0 -> premises_cmp b c < 0 -> premises_cmp a c < 0.
Proof.
  revert b c. induction a as [|x a IH]; intros [|y b] [|z c]; cbn; try lia.
  destruct (Z.eqb_spec x y) as [->|H1], (Z.eqb_spec y z) as [->|H2]; cbn;
    rewrite ?Z.eqb_refl; cbn.
  - apply IH.
  - destruct (Z.eqb_spec y z); [done|]. cbn. intros _. done.
  - destruct (Z.eqb_spec x z); [done|]. cbn. done.
  - destruct (Z.ltb_spec x y), (Z.ltb_spec y z); try lia. intros _ _.
    destruct (Z.eqb_spec x z), (Z.ltb_spec x z); cbn; lia.
Qed.

#[export, refine] Instance RouteKey_order : OrderB RouteKey := {| ltb a b := key_cmp a b <? 0 |}.
Proof.
  - intros [p r]. unfold key_cmp. cbn.
    assert (premises_cmp p p = 0) as -> by (by apply premises_cmp_eq). cbn. by rewrite Z.eqb_refl.
  - intros [p1 r1] [p2 r2] [p3 r3]. unfold key_cmp. cbn.
    destruct (Z.eqb_spec (premises_cmp p1 p2) 0) as [E1|E1],
      (Z.eqb_spec (premises_cmp p2 p3) 0) as [E2|E2]; cbn; intros H1 H2; zbool.
    + apply premises_cmp_eq in E1 as ->. apply premises_cmp_eq in E2 as ->.
      assert (premises_cmp p3 p3 = 0) as -> by (by apply premises_cmp_eq). cbn.
      repeat case_if; try done; lia.
    + apply premises_cmp_eq in E1 as ->. rewrite (proj2 (Z.eqb_neq _ _) E2). cbn. by apply Z.ltb_lt.
    + apply premises_cmp_eq in E2 as ->. rewrite (proj2 (Z.eqb_neq _ _) E1). cbn. by apply Z.ltb_lt.
    + pose proof (premises_cmp_trans p1 p2 p3 H1 H2) as H3.
      rewrite (proj2 (Z.eqb_neq _ _)) by lia. cbn. by apply Z.ltb_lt.
  - intros [p1 r1] [p2 r2]. unfold key_cmp. cbn. rewrite (premises_cmp_flip p1 p2).
    destruct (Z.eqb_spec (premises_cmp p1 p2) 0) as [E1|E1].
    + rewrite E1. cbn. apply premises_cmp_eq in E1 as ->. rewrite (Z.eqb_sym r2 r1).
      destruct (Z.eqb_spec r1 r2) as [->|]; [done|]. cbn.
      destruct (Z.ltb_spec r1 r2), (Z.ltb_spec r2 r1); cbn; intros; try done; lia.
    + rewrite (proj2 (Z.eqb_neq (- premises_cmp p1 p2) 0)) by lia.
      cbn. intros H1 H2. zbool. lia.
Defined.

Lemma route_cmp_key a b : route_cmp a b = key_cmp (route_key a) (route_key b).
Proof. done. Qed.

Lemma key_cmp_zero a b : key_cmp a b = 0 <-> a = b.
Proof.
  destruct a as [p r], b as [q s]. unfold key_cmp. cbn.
  destruct (Z.eqb_spec (premises_cmp p q) 0) as [E|E]; cbn.
  - apply premises_cmp_eq in E as ->. destruct (Z.eqb_spec r s) as [->|]; cbn; [done|].
    split; [case_if; lia|congruence].
  - split; [lia|]. intros [= -> ->]. exfalso. apply E. by apply premises_cmp_eq.
Qed.

Lemma key_cmp_pos a b : key_cmp a b <> 0 -> (key_cmp a b <? 0) = false -> (key_cmp b a <? 0) = true.
Proof.
  intros Hne Hf. destruct (key_cmp b a <? 0) eqn:E; [done|]. exfalso. apply Hne.
  apply key_cmp_zero. by apply (ltb_total (A := RouteKey)).
Qed.

(** The linear scan stops at the sorted position. *)
Lemma route_position_spec rt routes k :
  strictly_sorted (map route_key routes) ->
  match route_position rt routes k with
  | inl _ => route_key rt ∈ map route_key routes
  | inr at_ => (k <= at_ <= k + length routes)%nat /\ route_key rt ∉ map route_key routes /\
      strictly_sorted (map route_key (insert_at (at_ - k) rt routes))
  end.
Proof.
  revert k. induction routes as [|x routes IH]; intros k Hs; cbn [route_position map].
  { split_and!; [simpl; lia|simpl; lia|apply not_elem_of_nil|]. rewrite Nat.sub_diag.
    repeat constructor. }
  rewrite route_cmp_key. inversion_clear Hs as [|? ? Hs' Hf].
  destruct (Z.eqb_spec (key_cmp (route_key rt) (route_key x)) 0) as [E|E].
  { apply key_cmp_zero in E as ->. left. }
  destruct (key_cmp (route_key rt) (route_key x) <? 0) eqn:El.
  - split_and!; [simpl; lia|simpl; lia| |].
    + rewrite not_elem_of_cons. split; [by intros H; rewrite H in E; apply E, key_cmp_zero|].
      intros Hin. rewrite Forall_forall in Hf. specialize (Hf _ Hin). unfold lt_rel in Hf. cbn in Hf.
      pose proof (ltb_trans _ _ _ El Hf) as Hc. cbn in Hc. rewrite (proj2 (key_cmp_zero _ _)) in Hc; done.
    + rewrite Nat.sub_diag. cbn. constructor; [by constructor|].
      constructor; [done|]. eapply Forall_impl; [exact Hf|]. intros y Hy. exact (ltb_trans (route_key rt) (route_key x) y El Hy).
  - specialize (IH (S k) Hs'). pose proof (key_cmp_pos _ _ E El) as Hgt.
    destruct (route_position rt routes (S k)) as [[]|at_]; [by right|].
    destruct IH as ((Hlo & Hhi) & Hnin & Hins). split_and!; [lia|simpl; lia| |].
    + rewrite not_elem_of_cons. split; [|done]. intros H. rewrite H in E. by apply E, key_cmp_zero.
    + replace (at_ - k)%nat with (S (at_ - S k)) by lia. cbn. constructor; [done|].
      rewrite Forall_forall in Hf |- *. intros y Hy. fold (insert_at (at_ - S k) rt routes) in Hy.
      rewrite (Permutation_map route_key (insert_at_Permutation _ _ _)) in Hy.
      cbn in Hy. apply elem_of_cons in Hy as [->|Hy]; [done|by apply Hf].
Qed.

(** Sorted insertion of a key. *)
Definition key_insert (ks : list RouteKey) (k : RouteKey) : list RouteKey :=
  default ks (fst <$> sa_add 1 true ks (length ks) k).

Lemma key_insert_spec ks k :
  strictly_sorted ks ->
  strictly_sorted (key_insert ks k) /\ forall y, y ∈ key_insert ks k <-> y = k \/ y ∈ ks.
Proof.
  intros Hs. unfold key_insert. destruct (sa_add_ok 1 ks (length ks) k) as [[v c] E]. rewrite E. cbn.
  by eapply sa_add_spec.
Qed.

Lemma key_insert_cases ks k :
  key_insert ks k
  = if sa_at ks (sa_lower_bound ks k) k then ks else insert_at (sa_lower_bound ks k) k ks.
Proof.
  unfold key_insert, sa_add. cbn zeta. case_if; [done|]. by rewrite andb_false_r.
Qed.

Lemma lower_bound_take (l : list RouteKey) n k :
  strictly_sorted l -> sa_lower_bound (take n l) k = Nat.min (sa_lower_bound l k) n.
Proof.
  intros Hs. destruct (sa_partition l k Hs) as (Hle & Ht & Hd).
  destruct (sa_partition (take n l) k (sorted_take n l Hs)) as (Hle' & Ht' & _).
  apply (f_equal length) in Ht, Ht'. rewrite !length_take in Ht, Ht'. rewrite length_take in Hle'.
  assert (filter (fun y => ltb y k = true) l
    = filter (fun y => ltb y k = true) (take n l) ++ filter (fun y => ltb y k = true) (drop n l))
    as Hsplit by (by rewrite <- filter_app, take_drop).
  rewrite Hsplit, length_app in Ht. pose proof (length_take l n) as Hlt. rewrite Hlt in Ht'.
  assert (sa_lower_bound (take n l) k = length (filter (fun y => ltb y k = true) (take n l))) by lia.
  destruct (decide (filter (fun y => ltb y k = true) (drop n l) = [])) as [E|E].
  - rewrite E in Ht. cbn [length] in Ht. pose proof (length_filter (fun y => ltb y k = true) (take n l)).
    rewrite length_take in H0. lia.
  - (* something past n is below k, so everything before n is *)
    destruct (filter (fun y => ltb y k = true) (drop n l)) as [|y ys] eqn:Ey; [done|].
    assert (y ∈ drop n l /\ ltb y k = true) as [Hy Hyk].
    { assert (y ∈ filter (fun y => ltb y k = true) (drop n l)) as Hin by (rewrite Ey; left).
      apply list_elem_of_filter in Hin as [? ?]. done. }
    assert (filter (fun y => ltb y k = true) (take n l) = take n l) as Eall.
    { apply filter_all. rewrite Forall_forall. intros x Hx.
      rewrite <- (take_drop n l) in Hs.
      pose proof (StronglySorted_app_1_elem_of lt_rel _ _ x y Hs Hx Hy) as Hxy.
      by eapply ltb_trans. }
    rewrite Eall, Hlt in *. cbn [length] in Ht.
    assert (n < length l)%nat; [|lia]. destruct (decide (n < length l)%nat); [done|].
    rewrite drop_ge in Hy by lia. by apply not_elem_of_nil in Hy.
Qed.

(** Keeping the lowest [n] keys commutes with inserting more. *)
Lemma take_insert_at {A} (l : list A) n p k :
  (p <= length l)%nat ->
  take n (insert_at p k l) = take n (insert_at (Nat.min p n) k (take n l)).
Proof.
  intros Hp. unfold insert_at. destruct (decide (p <= n)%nat) as [Hle|Hgt].
  - rewrite Nat.min_l by done. rewrite take_take, Nat.min_l by done. rewrite skipn_firstn_comm.
    rewrite !take_app, !length_take, (Nat.min_l p) by done.
    f_equal. destruct (n - p)%nat as [|m] eqn:Em; [done|]. cbn. f_equal.
    rewrite take_take. f_equal. lia.
  - rewrite Nat.min_r by lia. rewrite take_take, Nat.min_id.
    rewrite take_app_le by (rewrite length_take; lia). rewrite take_take, Nat.min_l by lia.
    rewrite take_app_le by (rewrite length_take; lia). rewrite take_take. f_equal. lia.
Qed.

Lemma take_key_insert (l : list RouteKey) n k :
  strictly_sorted l -> take n (key_insert l k) = take n (key_insert (take n l) k).
Proof.
  intros Hs. rewrite !key_insert_cases, lower_bound_take by done.
  destruct (sa_partition l k Hs) as (Hle & _ & _).
  assert (forall i, sa_at (take n l) i k = true <-> (i < n)%nat /\ l !! i = Some k) as Hat.
  { intros i. unfold sa_at. rewrite andb_true_iff, bool_decide_eq_true, lookup_take_Some.
    split; [tauto|]. intros [Hi Hl]. split_and!; [|done|done]. apply Nat.ltb_lt.
    rewrite length_take. apply lookup_lt_Some in Hl. lia. }
  destruct (sa_at (take n l) (Nat.min (sa_lower_bound l k) n) k) eqn:E2.
  - apply Hat in E2 as [Hlt Hl]. rewrite take_take, Nat.min_id.
    replace (Nat.min (sa_lower_bound l k) n) with (sa_lower_bound l k) in * by lia.
    unfold sa_at. rewrite bool_decide_true by done. apply lookup_lt_Some in Hl.
    by rewrite (proj2 (Nat.ltb_lt _ _) Hl).
  - rewrite <- take_insert_at by done.
    destruct (sa_at l (sa_lower_bound l k) k) eqn:E1; [|done].
    unfold sa_at in E1. zbool. apply bool_decide_eq_true in H0 as Hl.
    assert (n <= sa_lower_bound l k)%nat.
    { destruct (decide (n <= sa_lower_bound l k)%nat); [done|]. exfalso.
      assert (sa_at (take n l) (Nat.min (sa_lower_bound l k) n) k = true); [|congruence].
      apply Hat. rewrite Nat.min_l by lia. split; [lia|done]. }
    unfold insert_at. rewrite take_app_le by (rewrite length_take; lia).
    rewrite take_take. f_equal. lia.
Qed.

(** The keys a record keeps after one addition. *)
Lemma add_route_keys alloc r rule depth ps :
  (forall n, alloc n = true) -> rule <> DERIV_NONE ->
  (0 < length ps <= DERIV_MAX_PREMISES)%nat ->
  strictly_sorted (map route_key (mr_derivation r)) ->
  (length (mr_derivation r) <= DERIV_MAX_ROUTES)%nat ->
  let '(r', rc) := record_add_route alloc r rule depth (Some ps) in
  map route_key (mr_derivation r')
    = take DERIV_MAX_ROUTES (key_insert (map route_key (mr_derivation r)) (ps, deriv_rule_code rule)) /\
  (rc = 0 \/ (rc = 1 /\ r' = r)).
Proof.
  intros Hal Hrule Hps Hs Hlen. unfold record_add_route.
  destruct (Nat.eqb_spec (length ps) 0); [lia|].
  destruct (Nat.ltb_spec DERIV_MAX_PREMISES (length ps)); [lia|]. cbn [orb]. cbn zeta.
  set (rt := mkDerivRoute rule depth ps). set (routes := mr_derivation r) in *.
  destruct (key_insert_spec _ (ps, deriv_rule_code rule) Hs) as [Hsi Hei].
  assert (length (map route_key routes) = length routes) as Hml by apply length_map.
  pose proof (route_position_spec rt routes 0 Hs) as Hpos.
  assert (match route_position rt routes 0 with
    | inl _ => key_insert (map route_key routes) (ps, deriv_rule_code rule) = map route_key routes
    | inr at_ => key_insert (map route_key routes) (ps, deriv_rule_code rule)
        = map route_key (insert_at at_ rt routes)
    end) as Hki.
  { destruct (route_position rt routes 0) as [[]|at_].
    - apply strictly_sorted_unique; [done|done|]. intros y. rewrite Hei. split; [|by right].
      intros [->|]; done.
    - destruct Hpos as (_ & _ & Hins). rewrite Nat.sub_0_r in Hins.
      apply strictly_sorted_unique; [done|done|]. intros y. rewrite Hei.
      rewrite (Permutation_map route_key (insert_at_Permutation at_ rt routes)). cbn.
      by rewrite elem_of_cons. }
  destruct (route_position rt routes 0) as [[]|at_].
  - assert (map route_key routes = take DERIV_MAX_ROUTES (map route_key routes)) as E
      by (rewrite take_ge by lia; done).
    rewrite Hki. destruct rule; try done; (split; [exact E|by right]).
  - destruct Hpos as ((_ & Hat) & _ & _). rewrite Hki.
    rewrite Hal, andb_false_r.
    destruct (Nat.leb_spec DERIV_MAX_ROUTES (length routes)) as [Hfull|Hroom];
      [destruct (Nat.leb_spec DERIV_MAX_ROUTES at_) as [Hge|Hlt]|].
    + assert (map route_key routes = take DERIV_MAX_ROUTES (map route_key (insert_at at_ rt routes))) as E.
      { unfold insert_at. rewrite map_app, take_app_le by (rewrite length_map, length_take; lia).
        rewrite firstn_map, take_take, (take_ge routes); [done|lia]. }
      destruct rule; try done; (split; [exact E|by right]).
    + destruct rule; try done; cbn [set_derivation mr_derivation]; (split; [by rewrite firstn_map|by left]).
    + assert (take DERIV_MAX_ROUTES (map route_key (insert_at at_ rt routes))
        = map route_key (insert_at at_ rt routes)) as E.
      { apply take_ge. rewrite length_map, length_insert_at. lia. }
      destruct rule; try done; cbn [set_derivation mr_derivation]; (split; [by rewrite E|by left]).
Qed.

(** A justification offered to a record. *)
Record RouteArg := mkRouteArg { ra_rule : DerivRule; ra_depth : Z; ra_premises : list Z }.

Definition route_arg_ok (a : RouteArg) : Prop :=
  ra_rule a <> DERIV_NONE /\ (0 < length (ra_premises a) <= DERIV_MAX_PREMISES)%nat.
#[global] Instance route_arg_ok_dec a : Decision (route_arg_ok a).
Proof. unfold route_arg_ok. apply _. Defined.

Definition add_routes (alloc : Z -> bool) (r : MemoryRecord) (args : list RouteArg) : MemoryRecord :=
  foldl (fun r a => fst (record_add_route alloc r (ra_rule a) (ra_depth a) (Some (ra_premises a))))
    r args.

Definition arg_key (a : RouteArg) : RouteKey := (ra_premises a, deriv_rule_code (ra_rule a)).

Lemma add_routes_keys alloc args r ks :
  (forall n, alloc n = true) -> Forall route_arg_ok args -> strictly_sorted ks ->
  map route_key (mr_derivation r) = take DERIV_MAX_ROUTES ks ->
  map route_key (mr_derivation (add_routes alloc r args))
    = take DERIV_MAX_ROUTES (foldl key_insert ks (map arg_key args)).
Proof.
  intros Hal Hok. revert r ks. induction Hok as [|a args [Hr Hp] _ IH]; intros r ks Hs Ek; [done|].
  cbn [add_routes foldl map]. apply IH; [by apply key_insert_spec|].
  pose proof (add_route_keys alloc r (ra_rule a) (ra_depth a) (ra_premises a) Hal Hr Hp) as H.
  rewrite Ek in H. specialize (H (sorted_take _ _ Hs)).
  destruct (record_add_route _ _ _ _ _) as [r' rc]. cbn [fst].
  destruct H as [-> _]; [|by rewrite <- take_key_insert].
  apply (f_equal length) in Ek. rewrite length_map, length_take in Ek. lia.
Qed.

Lemma foldl_key_insert ks l :
  strictly_sorted l ->
  strictly_sorted (foldl key_insert l ks) /\ forall y, y ∈ foldl key_insert l ks <-> y ∈ ks \/ y ∈ l.
Proof.
  revert l. induction ks as [|k ks IH]; intros l Hs; cbn [foldl]; [set_solver|].
  destruct (key_insert_spec l k Hs) as [Hs' Hel]. destruct (IH _ Hs') as [H1 H2].
  split; [done|]. intros y. rewrite H2, Hel. set_solver.
Qed.

(** A record keeps the four lowest distinct justifications, in order, and
    which ones it keeps does not depend on the order they were offered in:
    permuted sequences of additions leave the same premises and rules. *)
Theorem record_routes_order_independent args args' :
  args ≡ₚ args' -> Forall route_arg_ok args ->
  let keys a := map route_key (mr_derivation (add_routes (fun _ => true) record_init a)) in
  keys args = keys args' /\
  strictly_sorted (keys args) /\
  keys args = take DERIV_MAX_ROUTES (foldl key_insert [] (map arg_key args)) /\
  forall k, k ∈ foldl key_insert [] (map arg_key args) <-> k ∈ map arg_key args.
Proof.
  intros Hp Hok keys.
  assert (strictly_sorted ([] : list RouteKey)) as Hnil by constructor.
  assert (forall a, Forall route_arg_ok a ->
    keys a = take DERIV_MAX_ROUTES (foldl key_insert [] (map arg_key a))) as Hk.
  { intros a Ha. unfold keys. by apply add_routes_keys. }
  assert (Forall route_arg_ok args') as Hok' by (by rewrite <- Hp).
  destruct (foldl_key_insert (map arg_key args) [] Hnil) as [S1 E1].
  destruct (foldl_key_insert (map arg_key args') [] Hnil) as [S2 E2].
  rewrite !Hk by done. split_and!; [|by apply sorted_take|done|].
  - f_equal. apply strictly_sorted_unique; [done|done|]. intros y.
    rewrite E1, E2. by rewrite (Permutation_map arg_key Hp).
  - intros k. rewrite E1. set_solver.
Qed.

Definition ex_args : list RouteArg :=
  [mkRouteArg DERIV_TRANSITIVE 1 [4; 5]; mkRouteArg DERIV_SYMMETRIC 0 [2];
   mkRouteArg DERIV_INVERSE 0 [9]; mkRouteArg DERIV_INVERSE 2 [1; 7];
   mkRouteArg DERIV_TRANSITIVE 0 [3; 3]; mkRouteArg DERIV_SYMMETRIC 7 [2]].

Lemma record_routes_order_independent_witness :
  let keys a := map route_key (mr_derivation (add_routes (fun _ => true) record_init a)) in
  keys ex_args = keys (reverse ex_args) /\
  keys ex_args = [([1; 7], 3); ([2], 2); ([3; 3], 1); ([4; 5], 1)].
Proof.
  split; [|vm_compute; reflexivity].
  apply (record_routes_order_independent ex_args (reverse ex_args)).
  - symmetry. apply reverse_Permutation.
  - apply (bool_decide_unpack _). vm_compute. exact I.
Defined.

(** The depth a record reports does depend on the order: when the same
    premises and rule are offered twice with different depths, the depth
    offered first is kept. *)
Theorem record_route_depth_first_wins :
  let a := mkRouteArg DERIV_TRANSITIVE 3 [1; 2] in
  let b := mkRouteArg DERIV_TRANSITIVE 1 [1; 2] in
  let depth args :=
    derivation_depth (mr_derivation (add_routes (fun _ => true) record_init args)) in
  depth [a; b] = 3 /\ depth [b; a] = 1.
Proof. vm_compute. auto. Qed.
