(* ===== verification/RecordCodec.v ===== *)
(** * The record codec (src/src/memory/record.c)

    The growing buffer and the versioned encoder; the cursor with its sticky
    error and the decoder. [alloc n] tells whether an allocation of [n] bytes
    succeeds; on success the result does not depend on it. *)

From S2P Require Import Prelude Endian SortedArray Record.

Definition NULL_LEN : Z := 0xFFFFFFFF.
Definition RECORD_CODEC_V2 : Z := 2.
Definition RECORD_CODEC_V3 : Z := 3.
Definition RECORD_CODEC_V5 : Z := 5.

Section encoder.
Context (alloc : Z -> bool).

(** ** Buffer *)

Record Buf := mkBuf { b_bytes : list Z; b_cap : Z; b_err : bool }.

Definition buf_empty : Buf := mkBuf [] 0 false.
Definition buf_len (b : Buf) : Z := Z.of_nat (length (b_bytes b)).
Definition buf_fail (b : Buf) : Buf := mkBuf (b_bytes b) (b_cap b) true.

(** The doubling loop; [None] when a doubling wraps. Sixty-four turns cover
    every capacity that starts positive. *)
Fixpoint grow_cap (fuel : nat) (cap need : Z) : option Z :=
  match fuel with
  | O => None
  | S f =>
      if cap <? need then
        let next := wrap 64 (cap * 2) in
        if next <? cap then None else grow_cap f next need
      else Some cap
  end.

Definition buf_reserve (b : Buf) (extra : Z) : Buf :=
  if b_err b then b
  else
    let need := wrap 64 (buf_len b + extra) in
    if need <? buf_len b then buf_fail b
    else if need <=? b_cap b then b
    else
      let cap := if b_cap b =? 0 then 128 else wrap 64 (b_cap b * 2) in
      match grow_cap 64 cap need with
      | None => buf_fail b
      | Some cap => if alloc cap then mkBuf (b_bytes b) cap false else buf_fail b
      end.

Definition put_bytes (b : Buf) (s : list Z) : Buf :=
  let b := buf_reserve b (Z.of_nat (length s)) in
  if b_err b then b else mkBuf (b_bytes b ++ s) (b_cap b) false.

Definition put_u8 (b : Buf) (v : Z) : Buf := put_bytes b [wrap 8 v].
Definition put_u16 (b : Buf) (v : Z) : Buf := put_bytes b (aegis_put_u16le v).
Definition put_u32 (b : Buf) (v : Z) : Buf := put_bytes b (aegis_put_u32le v).
Definition put_u64 (b : Buf) (v : Z) : Buf := put_bytes b (aegis_put_u64le v).
Definition put_f32 (b : Buf) (f : Z) : Buf := put_u32 b f.
Definition put_lenstr (b : Buf) (s : option (list Z)) : Buf :=
  match s with
  | None => put_u32 b NULL_LEN
  | Some s => put_bytes (put_u32 b (wrap 32 (Z.of_nat (length s)))) s
  end.

(** ** Encoder, in the order of the fields *)

Definition fact_kind_code (k : FactKind) : Z :=
  match k with FACT_NONE => 0 | FACT_OBJ_ID => 1 | FACT_OBJ_STRING => 2 end.

Definition has_fact (r : MemoryRecord) : bool := negb (bool_decide (fa_kind (mr_fact r) = FACT_NONE)).
Definition has_deriv (r : MemoryRecord) : bool := (0 <? length (mr_derivation r))%nat.

(** The lowest version that can represent the record. *)
Definition codec_version (r : MemoryRecord) : Z :=
  if has_deriv r then RECORD_CODEC_V5 else if has_fact r then RECORD_CODEC_V3 else RECORD_CODEC_V2.

Definition enc_head (b : Buf) (r : MemoryRecord) : Buf :=
  let b := put_u8 b (codec_version r) in
  let b := put_u64 b (mr_id r) in
  let b := put_u8 b (memory_type_code (mr_type r)) in
  let b := put_u64 b (mr_created r) in
  let b := put_u64 b (mr_updated r) in
  let b := put_f32 b (mr_importance r) in
  let b := put_f32 b (mr_confidence r) in
  let b := put_u8 b (if mr_deleted r =? 0 then 0 else 1) in
  let b := put_u64 b (mr_expires_at r) in
  put_lenstr b (mr_agent_id r).

Definition enc_tags (b : Buf) (r : MemoryRecord) : Buf :=
  let b := put_u16 b (Z.of_nat (length (mr_tags r))) in
  foldl (fun b t => put_lenstr b (Some t)) b (mr_tags r).

Definition enc_embedding (b : Buf) (r : MemoryRecord) : Buf :=
  let b := put_u32 b (mr_vec_count r) in
  let b := put_u32 b (mr_embedding_dim r) in
  foldl put_f32 b (take (Z.to_nat (wrap 64 (mr_vec_count r * mr_embedding_dim r))) (mr_embedding r)).

Definition enc_relationship (b : Buf) (rl : Relationship) : Buf :=
  let b := put_u64 b (rl_from rl) in
  let b := put_u64 b (rl_to rl) in
  put_lenstr b (rl_kind rl).

Definition enc_relationships (b : Buf) (r : MemoryRecord) : Buf :=
  let b := put_u16 b (Z.of_nat (length (mr_relationships r))) in
  foldl enc_relationship b (mr_relationships r).

Definition enc_fact (b : Buf) (f : Fact) : Buf :=
  match fa_kind f with
  | FACT_NONE => b
  | k =>
      let b := put_u8 b (fact_kind_code k) in
      let b := put_u64 b (fa_subject f) in
      let b := put_lenstr b (fa_predicate f) in
      match k with
      | FACT_OBJ_ID => put_u64 b (fa_object_id f)
      | _ => put_lenstr b (fa_object_str f)
      end
  end.

Definition premises_bad (rt : DerivRoute) : bool :=
  (length (dr_premises rt) =? 0)%nat || (DERIV_MAX_PREMISES <? length (dr_premises rt))%nat.

Definition enc_route (b : Buf) (rt : DerivRoute) : Buf :=
  let b := put_u8 b (deriv_rule_code (dr_rule rt)) in
  let b := put_u16 b (dr_depth rt) in
  let b := put_u8 b (Z.of_nat (length (dr_premises rt))) in
  foldl put_u64 b (dr_premises rt).

Definition enc_routes (b : Buf) (r : MemoryRecord) : Buf :=
  if has_deriv r then
    let b := put_u16 b (Z.of_nat (length (mr_derivation r))) in
    foldl enc_route b (mr_derivation r)
  else b.

(** The refusals on the derivation: too many routes, or a route without (or
    with too many) premises. *)
Definition routes_refused (r : MemoryRecord) : bool :=
  (DERIV_MAX_ROUTES <? length (mr_derivation r))%nat || existsb premises_bad (mr_derivation r).

Definition enc_data (b : Buf) (r : MemoryRecord) : Buf :=
  let b := put_u32 b (wrap 32 (Z.of_nat (length (mr_data r)))) in
  put_bytes b (mr_data r).

Definition record_encode (r : MemoryRecord) : option (list Z) :=
  if existsb (fun rt => bool_decide (dr_rule rt = DERIV_NONE)) (mr_derivation r) then None
  else if has_deriv r && negb (has_fact r) then None
  else
    let b := enc_head buf_empty r in
    if Z.of_nat (length (mr_tags r)) >? UINT16_MAX then None else
    let b := enc_tags b r in
    if (mr_vec_count r >? UINT32_MAX) || (mr_embedding_dim r >? UINT32_MAX) then None else
    let b := enc_embedding b r in
    if Z.of_nat (length (mr_relationships r)) >? UINT16_MAX then None else
    let b := enc_relationships b r in
    let b := enc_fact b (mr_fact r) in
    if routes_refused r then None else
    let b := enc_routes b r in
    let b := enc_data b r in
    if b_err b then None else Some (b_bytes b).

(** ** Decoding cursor *)

Record Cur := mkCur { c_p : list Z; c_off : nat; c_err : bool }.

Definition c_len (c : Cur) : nat := length (c_p c).
Definition cur_fail (c : Cur) : Cur := mkCur (c_p c) (c_off c) true.

(** The bytes read, zeros after an error. *)
Definition cur_take (c : Cur) (n : nat) : Cur * list Z :=
  if c_err c || (c_len c <? c_off c + n)%nat then (cur_fail c, replicate n 0)
  else (mkCur (c_p c) (c_off c + n) false, slice (c_p c) (c_off c) n).

Definition get_u8 (c : Cur) : Cur * Z :=
  let '(c, t) := cur_take c 1 in (c, byte_at t 0).
Definition get_u16 (c : Cur) : Cur * Z :=
  let '(c, t) := cur_take c 2 in (c, aegis_get_u16le t).
Definition get_u32 (c : Cur) : Cur * Z :=
  let '(c, t) := cur_take c 4 in (c, aegis_get_u32le t).
Definition get_u64 (c : Cur) : Cur * Z :=
  let '(c, t) := cur_take c 8 in (c, aegis_get_u64le t).
Definition get_f32 (c : Cur) : Cur * Z := get_u32 c.

(** The C string of a byte region: up to its first zero byte. *)
Fixpoint cstr (l : list Z) : list Z :=
  match l with
  | [] => []
  | x :: l' => if x =? 0 then [] else x :: cstr l'
  end.

Definition get_lenstr (c : Cur) : Cur * option (list Z) :=
  let '(c, n) := get_u32 c in
  if n =? NULL_LEN then (c, None)
  else if c_err c || (n >? Z.of_nat (c_len c) - Z.of_nat (c_off c)) then (cur_fail c, None)
  else if negb (alloc (n + 1)) then (cur_fail c, None)
  else
    (mkCur (c_p c) (c_off c + Z.to_nat n) false, Some (cstr (slice (c_p c) (c_off c) (Z.to_nat n)))).

(** ** Decoder *)

(** Tests on the pattern of a float. *)
Definition f32_isfinite (u : Z) : bool := negb (Z.land (Z.shiftr u 23) 0xFF =? 0xFF).
Definition f32_magnitude (u : Z) : Z := Z.land u 0x7FFFFFFF.
Definition f32_negative (u : Z) : bool := Z.testbit u 31.
Definition f32_lt_zero (u : Z) : bool := f32_negative u && negb (f32_magnitude u =? 0).
Definition f32_gt_one (u : Z) : bool := negb (f32_negative u) && (u >? F32_ONE).

(** Non-finite or out of [0, 1]. *)
Definition weight_bad (u : Z) : bool :=
  negb (f32_isfinite u) || f32_lt_zero u || f32_gt_one u.

Fixpoint dec_tags (n : nat) (c : Cur) (acc : list (list Z)) : option (Cur * list (list Z)) :=
  match n with
  | O => Some (c, acc)
  | S n' =>
      match get_lenstr c with
      | (c, Some t) => if c_err c then None else dec_tags n' c (acc ++ [t])
      | (_, None) => None
      end
  end.

Fixpoint dec_floats (n : nat) (c : Cur) (acc : list Z) : option (Cur * list Z) :=
  match n with
  | O => Some (c, acc)
  | S n' =>
      let '(c, v) := get_f32 c in
      if c_err c then None else dec_floats n' c (acc ++ [v])
  end.

(** Floats, dimension and vector count; both counts stay 0 when either is. *)
Definition dec_embedding (ver : Z) (c : Cur) : option (Cur * (list Z * Z * Z)) :=
  let '(c, vec_count) := if 2 <=? ver then get_u32 c else (c, 1) in
  let '(c, dim) := get_u32 c in
  if c_err c then None
  else
    let vec_count := if (ver =? 1) && (dim =? 0) then 0 else vec_count in
    if negb (dim =? 0) && negb (vec_count =? 0) then
      let avail := (Z.of_nat (c_len c) - Z.of_nat (c_off c)) / 4 in
      if vec_count >? avail / dim then None
      else
        let total := vec_count * dim in
        if negb (alloc (total * 4)) then None
        else
          match dec_floats (Z.to_nat total) c [] with
          | None => None
          | Some (c, v) => Some (c, (v, dim, vec_count))
          end
    else Some (c, ([], 0, 0)).

Fixpoint dec_relationships (n : nat) (c : Cur) (r : MemoryRecord) : option (Cur * MemoryRecord) :=
  match n with
  | O => Some (c, r)
  | S n' =>
      let '(c, from) := get_u64 c in
      let '(c, to) := get_u64 c in
      let '(c, kind) := get_lenstr c in
      if c_err c then None
      else
        let '(r, ok) := record_add_relationship alloc r from to kind in
        if ok then dec_relationships n' c r else None
  end.

Definition dec_fact (c : Cur) (r : MemoryRecord) : option (Cur * MemoryRecord) :=
  let '(c, fk) := get_u8 c in
  if c_err c then None
  else if negb (fk =? 1) && negb (fk =? 2) then None
  else
    let '(c, subject) := get_u64 c in
    match get_lenstr c with
    | (_, None) => None
    | (c, Some pred) =>
        if c_err c then None
        else if fk =? 1 then
          let '(c, oid) := get_u64 c in
          if c_err c then None
          else
            let '(r, ok) := record_set_fact alloc r FACT_OBJ_ID subject (Some pred) oid None in
            if ok then Some (c, r) else None
        else
          match get_lenstr c with
          | (_, None) => None
          | (c, Some obj) =>
              if c_err c then None
              else
                let '(r, ok) :=
                  record_set_fact alloc r FACT_OBJ_STRING subject (Some pred) 0 (Some obj) in
                if ok then Some (c, r) else None
          end
    end.

Fixpoint dec_premises (n : nat) (c : Cur) (acc : list Z) : Cur * list Z :=
  match n with
  | O => (c, acc)
  | S n' => let '(c, v) := get_u64 c in dec_premises n' c (acc ++ [v])
  end.

Fixpoint dec_routes (n : nat) (c : Cur) (r : MemoryRecord) : option (Cur * MemoryRecord) :=
  match n with
  | O => Some (c, r)
  | S n' =>
      let '(c, rule) := get_u8 c in
      let '(c, depth) := get_u16 c in
      let '(c, pc) := get_u8 c in
      if c_err c then None
      else
        match deriv_rule_of rule with
        | None => None
        | Some rl =>
            if (pc =? 0) || (pc >? Z.of_nat DERIV_MAX_PREMISES) then None
            else
              let '(c, prem) := dec_premises (Z.to_nat pc) c [] in
              if c_err c then None
              else
                let '(r, rc) := record_add_route alloc r rl depth (Some prem) in
                if rc =? 0 then dec_routes n' c r else None
        end
  end.

Definition dec_derivation (c : Cur) (r : MemoryRecord) : option (Cur * MemoryRecord) :=
  let '(c, n) := get_u16 c in
  if c_err c || (n =? 0) || (n >? Z.of_nat DERIV_MAX_ROUTES) then None
  else dec_routes (Z.to_nat n) c r.

Definition set_data (r : MemoryRecord) (v : list Z) : MemoryRecord :=
  mkMemoryRecord (mr_id r) (mr_type r) (mr_created r) (mr_updated r) (mr_importance r)
    (mr_confidence r) (mr_agent_id r) (mr_tags r) (mr_embedding r) (mr_embedding_dim r)
    (mr_vec_count r) (mr_relationships r) (mr_fact r) (mr_derivation r) v (mr_expires_at r)
    (mr_deleted r).

Definition dec_data (c : Cur) (r : MemoryRecord) : option MemoryRecord :=
  let '(c, dl) := get_u32 c in
  if c_err c || (dl >? Z.of_nat (c_len c) - Z.of_nat (c_off c)) then None
  else if negb (dl =? 0) && negb (alloc dl) then None
  else Some (set_data r (slice (c_p c) (c_off c) (Z.to_nat dl))).

(** The fields up to the embedding. *)
Definition dec_head (ver : Z) (c : Cur) : option (Cur * MemoryRecord) :=
  let '(c, id) := get_u64 c in
  let '(c, ty) := get_u8 c in
  match memory_type_of ty with
  | None => None
  | Some ty =>
      let '(c, created) := get_u64 c in
      let '(c, updated) := get_u64 c in
      let '(c, imp) := get_f32 c in
      let '(c, conf) := get_f32 c in
      let imp := if weight_bad imp then F32_ZERO else imp in
      let conf := if weight_bad conf then F32_ONE else conf in
      let '(c, deleted) := get_u8 c in
      let '(c, expires) := get_u64 c in
      let '(c, agent) := get_lenstr c in
      if c_err c then None
      else
        let '(c, tc) := get_u16 c in
        if c_err c then None
        else if negb (tc =? 0) && negb (alloc (tc * 8)) then None
        else
          match dec_tags (Z.to_nat tc) c [] with
          | None => None
          | Some (c, tags) =>
              match dec_embedding ver c with
              | None => None
              | Some (c, (emb, dim, vec_count)) =>
                  Some (c, mkMemoryRecord id ty created updated imp conf agent tags emb dim
                             vec_count [] fact_zero [] [] expires deleted)
              end
          end
  end.

Definition record_decode (buf : list Z) : option MemoryRecord :=
  let '(c, ver) := get_u8 (mkCur buf 0 false) in
  if negb (ver =? 1) && negb (ver =? RECORD_CODEC_V2) && negb (ver =? RECORD_CODEC_V3)
     && negb (ver =? RECORD_CODEC_V5) then None
  else
    match dec_head ver c with
    | None => None
    | Some (c, r) =>
        let '(c, rc) := get_u16 c in
        if c_err c then None
        else
          match dec_relationships (Z.to_nat rc) c r with
          | None => None
          | Some (c, r) =>
              match (if RECORD_CODEC_V3 <=? ver then dec_fact c r else Some (c, r)) with
              | None => None
              | Some (c, r) =>
                  match (if RECORD_CODEC_V5 <=? ver then dec_derivation c r else Some (c, r)) with
                  | None => None
                  | Some (c, r) => dec_data c r
                  end
              end
          end
    end.
End encoder.
