(* ===== verification/RecordRoundtrip.v ===== *)
(** * Correctness of the record codec

    The encoder writes the reference layout [record_bytes]; the decoder reads
    it back; whatever the decoder accepts is a well-formed record. *)

From S2P Require Import Prelude Endian SortedArray Record RecordCodec.

(** ** Well-formed records *)

(** A C string short enough not to collide with the null marker. *)
Definition str_ok (s : list Z) : Prop :=
  Forall (fun c => 0 < c < 256) s /\ Z.of_nat (length s) < NULL_LEN.
Definition ostr_ok (s : option (list Z)) : Prop := match s with None => True | Some s => str_ok s end.

Definition rel_ok (rl : Relationship) : Prop :=
  u64 (rl_from rl) /\ u64 (rl_to rl) /\ ostr_ok (rl_kind rl).

Definition fact_ok (f : Fact) : Prop :=
  match fa_kind f with
  | FACT_NONE => f = fact_zero
  | FACT_OBJ_ID =>
      u64 (fa_subject f) /\ u64 (fa_object_id f) /\ fa_object_str f = None /\
      exists p, fa_predicate f = Some p /\ p <> [] /\ str_ok p
  | FACT_OBJ_STRING =>
      u64 (fa_subject f) /\ fa_object_id f = 0 /\
      (exists p, fa_predicate f = Some p /\ p <> [] /\ str_ok p) /\
      exists o, fa_object_str f = Some o /\ str_ok o
  end.

Definition route_ok (rt : DerivRoute) : Prop :=
  dr_rule rt <> DERIV_NONE /\ u16 (dr_depth rt) /\
  (0 < length (dr_premises rt) <= DERIV_MAX_PREMISES)%nat /\ Forall (fun p => u64 p) (dr_premises rt).

Record record_wf (r : MemoryRecord) : Prop := {
  rw_id : u64 (mr_id r);
  rw_created : u64 (mr_created r);
  rw_updated : u64 (mr_updated r);
  rw_imp : u32 (mr_importance r) /\ weight_bad (mr_importance r) = false;
  rw_conf : u32 (mr_confidence r) /\ weight_bad (mr_confidence r) = false;
  rw_agent : ostr_ok (mr_agent_id r);
  rw_tags : Forall str_ok (mr_tags r) /\ Z.of_nat (length (mr_tags r)) <= UINT16_MAX;
  rw_emb : Forall (fun x => u32 x) (mr_embedding r) /\
    Z.of_nat (length (mr_embedding r)) = mr_vec_count r * mr_embedding_dim r;
  rw_dims : u32 (mr_vec_count r) /\ u32 (mr_embedding_dim r) /\
    (mr_vec_count r = 0 <-> mr_embedding_dim r = 0);
  rw_rels : Forall rel_ok (mr_relationships r) /\
    Z.of_nat (length (mr_relationships r)) <= UINT16_MAX;
  rw_fact : fact_ok (mr_fact r);
  rw_routes : Forall route_ok (mr_derivation r) /\
    strictly_sorted (map route_key (mr_derivation r)) /\
    (length (mr_derivation r) <= DERIV_MAX_ROUTES)%nat;
  rw_deriv : mr_derivation r <> [] -> fa_kind (mr_fact r) <> FACT_NONE;
  rw_data : bytes_ok (mr_data r) /\ Z.of_nat (length (mr_data r)) <= UINT32_MAX;
  rw_expires : u64 (mr_expires_at r);
  rw_deleted : u8 (mr_deleted r)
}.

(** The flag [deleted] is written as 0 or 1. *)
Definition norm_deleted (r : MemoryRecord) : MemoryRecord :=
  mkMemoryRecord (mr_id r) (mr_type r) (mr_created r) (mr_updated r) (mr_importance r)
    (mr_confidence r) (mr_agent_id r) (mr_tags r) (mr_embedding r) (mr_embedding_dim r)
    (mr_vec_count r) (mr_relationships r) (mr_fact r) (mr_derivation r) (mr_data r)
    (mr_expires_at r) (if mr_deleted r =? 0 then 0 else 1).

(** ** Reference layout *)

Definition lenstr_bytes (s : option (list Z)) : list Z :=
  match s with
  | None => aegis_put_u32le NULL_LEN
  | Some s => aegis_put_u32le (wrap 32 (Z.of_nat (length s))) ++ s
  end.

Definition head_bytes (r : MemoryRecord) : list Z :=
  [wrap 8 (codec_version r)] ++ aegis_put_u64le (mr_id r) ++ [wrap 8 (memory_type_code (mr_type r))]
  ++ aegis_put_u64le (mr_created r) ++ aegis_put_u64le (mr_updated r)
  ++ aegis_put_u32le (mr_importance r) ++ aegis_put_u32le (mr_confidence r)
  ++ [wrap 8 (if mr_deleted r =? 0 then 0 else 1)] ++ aegis_put_u64le (mr_expires_at r)
  ++ lenstr_bytes (mr_agent_id r).

Definition tags_bytes (r : MemoryRecord) : list Z :=
  aegis_put_u16le (Z.of_nat (length (mr_tags r)))
  ++ concat (map (fun t => lenstr_bytes (Some t)) (mr_tags r)).

Definition embedding_bytes (r : MemoryRecord) : list Z :=
  aegis_put_u32le (mr_vec_count r) ++ aegis_put_u32le (mr_embedding_dim r)
  ++ concat (map aegis_put_u32le
       (take (Z.to_nat (wrap 64 (mr_vec_count r * mr_embedding_dim r))) (mr_embedding r))).

Definition rel_bytes (rl : Relationship) : list Z :=
  aegis_put_u64le (rl_from rl) ++ aegis_put_u64le (rl_to rl) ++ lenstr_bytes (rl_kind rl).

Definition rels_bytes (r : MemoryRecord) : list Z :=
  aegis_put_u16le (Z.of_nat (length (mr_relationships r)))
  ++ concat (map rel_bytes (mr_relationships r)).

Definition fact_bytes (f : Fact) : list Z :=
  match fa_kind f with
  | FACT_NONE => []
  | k =>
      [wrap 8 (fact_kind_code k)] ++ aegis_put_u64le (fa_subject f) ++ lenstr_bytes (fa_predicate f)
      ++ match k with
         | FACT_OBJ_ID => aegis_put_u64le (fa_object_id f)
         | _ => lenstr_bytes (fa_object_str f)
         end
  end.

Definition route_bytes (rt : DerivRoute) : list Z :=
  [wrap 8 (deriv_rule_code (dr_rule rt))] ++ aegis_put_u16le (dr_depth rt)
  ++ [wrap 8 (Z.of_nat (length (dr_premises rt)))] ++ concat (map aegis_put_u64le (dr_premises rt)).

Definition routes_bytes (r : MemoryRecord) : list Z :=
  if has_deriv r then
    aegis_put_u16le (Z.of_nat (length (mr_derivation r))) ++ concat (map route_bytes (mr_derivation r))
  else [].

Definition data_bytes (r : MemoryRecord) : list Z :=
  aegis_put_u32le (wrap 32 (Z.of_nat (length (mr_data r)))) ++ mr_data r.

Definition record_bytes (r : MemoryRecord) : list Z :=
  head_bytes r ++ tags_bytes r ++ embedding_bytes r ++ rels_bytes r ++ fact_bytes (mr_fact r)
  ++ routes_bytes r ++ data_bytes r.

(** ** The encoder writes the layout *)

(** Frames below 2^62 bytes keep every capacity computation exact. *)
Definition MAX_FRAME : Z := 2 ^ 62.

Section writing.
Context (alloc : Z -> bool) (Hal : forall n, alloc n = true).

Record buf_good (b : Buf) : Prop := {
  bg_err : b_err b = false;
  bg_fit : buf_len b <= b_cap b;
  bg_cap : b_cap b = 0 \/ 128 <= b_cap b < 2 ^ 63
}.

Lemma grow_cap_spec fuel cap need :
  0 < cap < 2 ^ 63 -> need < MAX_FRAME -> need <= cap * 2 ^ (Z.of_nat fuel - 1) -> (0 < fuel)%nat ->
  exists c, grow_cap fuel cap need = Some c /\ need <= c /\ cap <= c < 2 ^ 63.
Proof.
  revert cap. induction fuel as [|f IH]; intros cap Hc Hn Hle Hf; [lia|]. cbn [grow_cap].
  destruct (Z.ltb_spec cap need) as [Hlt|Hge]; [|exists cap; split_and!; [done|lia|lia|lia]].
  cbn zeta. unfold MAX_FRAME in *. assert (wrap 64 (cap * 2) = cap * 2) as ->.
  { apply wrap_small. unfold urange. lia. }
  destruct (Z.ltb_spec (cap * 2) cap); [lia|].
  destruct (decide (f = 0%nat)) as [->|Hf0].
  { exfalso. change (2 ^ (Z.of_nat 1 - 1)) with 1 in Hle. lia. }
  destruct (IH (cap * 2)) as (c & -> & ? & ?); [lia|done| |lia|].
  - replace (Z.of_nat (S f) - 1) with (1 + (Z.of_nat f - 1)) in Hle by lia.
    rewrite Z.pow_add_r in Hle by lia. lia.
  - exists c. split_and!; [done|lia|lia|lia].
Qed.

Lemma put_bytes_good b s :
  buf_good b -> buf_len b + Z.of_nat (length s) < MAX_FRAME ->
  buf_good (put_bytes alloc b s) /\ b_bytes (put_bytes alloc b s) = b_bytes b ++ s.
Proof.
  intros [He Hfit Hcap] Hn. assert (0 <= buf_len b) by (unfold buf_len; lia).
  unfold put_bytes, buf_reserve. rewrite He. unfold MAX_FRAME in *.
  rewrite wrap_small by (unfold urange; lia). cbn zeta.
  destruct (Z.ltb_spec (buf_len b + Z.of_nat (length s)) (buf_len b)); [lia|].
  assert (forall cap, buf_len b + Z.of_nat (length s) <= cap ->
    (cap = 0 \/ 128 <= cap < 2 ^ 63) ->
    buf_good (mkBuf (b_bytes b ++ s) cap false)) as Hgood.
  { intros cap Hle Hc. split; [done| |done]. unfold buf_len in *. cbn [b_bytes b_cap].
    rewrite length_app. lia. }
  destruct (Z.leb_spec (buf_len b + Z.of_nat (length s)) (b_cap b)) as [Hle|Hgt].
  { rewrite He. split; [by apply Hgood|done]. }
  set (cap := if b_cap b =? 0 then 128 else wrap 64 (b_cap b * 2)).
  assert (128 <= cap < 2 ^ 63) as Hc.
  { unfold cap. destruct (Z.eqb_spec (b_cap b) 0); [lia|].
    rewrite wrap_small by (unfold urange; lia). lia. }
  destruct (grow_cap_spec 64 cap (buf_len b + Z.of_nat (length s)))
    as (c & -> & ? & ?); [lia|done| |lia|].
  { change (2 ^ (Z.of_nat 64 - 1)) with (2 ^ 63). lia. }
  rewrite Hal. cbn [b_err b_bytes b_cap]. split; [apply Hgood; lia|done].
Qed.

(** [f] appends [s]. *)
Definition Wr (f : Buf -> Buf) (s : list Z) : Prop :=
  forall b, buf_good b -> buf_len b + Z.of_nat (length s) < MAX_FRAME ->
    buf_good (f b) /\ b_bytes (f b) = b_bytes b ++ s.

Lemma Wr_bytes s : Wr (fun b => put_bytes alloc b s) s.
Proof. intros b. apply put_bytes_good. Qed.

Lemma Wr_id : Wr (fun b => b) [].
Proof. intros b Hb _. split; [done|]. by rewrite app_nil_r. Qed.

Lemma Wr_comp f g s t : Wr f s -> Wr g t -> Wr (fun b => g (f b)) (s ++ t).
Proof.
  intros Hf Hg b Hb Hn. rewrite length_app in Hn.
  destruct (Hf b Hb) as [Hb1 E1]; [lia|].
  destruct (Hg (f b) Hb1) as [Hb2 E2].
  { unfold buf_len in *. rewrite E1, length_app. lia. }
  split; [done|]. by rewrite E2, E1, <- (assoc_L (++)).
Qed.

Lemma Wr_foldl {A} (put : Buf -> A -> Buf) (enc : A -> list Z) l :
  (forall x, Wr (fun b => put b x) (enc x)) -> Wr (fun b => foldl put b l) (concat (map enc l)).
Proof.
  intros Hx. induction l as [|x l IH]; [apply Wr_id|]. cbn [foldl map concat].
  exact (Wr_comp (fun b => put b x) (fun b => foldl put b l) _ _ (Hx x) IH).
Qed.

Lemma Wr_u8 v : Wr (fun b => put_u8 alloc b v) [wrap 8 v].
Proof. apply Wr_bytes. Qed.
Lemma Wr_u16 v : Wr (fun b => put_u16 alloc b v) (aegis_put_u16le v).
Proof. apply Wr_bytes. Qed.
Lemma Wr_u32 v : Wr (fun b => put_u32 alloc b v) (aegis_put_u32le v).
Proof. apply Wr_bytes. Qed.
Lemma Wr_u64 v : Wr (fun b => put_u64 alloc b v) (aegis_put_u64le v).
Proof. apply Wr_bytes. Qed.
Lemma Wr_lenstr s : Wr (fun b => put_lenstr alloc b s) (lenstr_bytes s).
Proof.
  destruct s as [s|]; [|apply Wr_u32].
  exact (Wr_comp (fun b => put_u32 alloc b (wrap 32 (Z.of_nat (length s)))) _ _ _ (Wr_u32 _) (Wr_bytes s)).
Qed.

Lemma Wr_eq f s t : Wr f s -> s = t -> Wr f t.
Proof. by intros ? <-. Qed.

(** Peel the outermost writer off a sequence. *)
Ltac wr :=
  lazymatch goal with
  | |- Wr (fun b => b) _ => apply Wr_id
  | |- Wr (fun b => put_u8 _ (@?f b) ?v) _ =>
      eapply (Wr_comp f (fun b => put_u8 alloc b v)); [wr|apply Wr_u8]
  | |- Wr (fun b => put_u16 _ (@?f b) ?v) _ =>
      eapply (Wr_comp f (fun b => put_u16 alloc b v)); [wr|apply Wr_u16]
  | |- Wr (fun b => put_u32 _ (@?f b) ?v) _ =>
      eapply (Wr_comp f (fun b => put_u32 alloc b v)); [wr|apply Wr_u32]
  | |- Wr (fun b => put_u64 _ (@?f b) ?v) _ =>
      eapply (Wr_comp f (fun b => put_u64 alloc b v)); [wr|apply Wr_u64]
  | |- Wr (fun b => put_lenstr _ (@?f b) ?v) _ =>
      eapply (Wr_comp f (fun b => put_lenstr alloc b v)); [wr|apply Wr_lenstr]
  | |- Wr (fun b => put_bytes _ (@?f b) ?v) _ =>
      eapply (Wr_comp f (fun b => put_bytes alloc b v)); [wr|apply Wr_bytes]
  | |- Wr (fun b => foldl ?g (@?f b) ?l) _ =>
      eapply (Wr_comp f (fun b => foldl g b l)); [wr|apply Wr_foldl; intros]
  end.

Ltac wr_assoc := rewrite ?app_nil_l, <- ?(assoc_L (++)); reflexivity.

Lemma Wr_head r : Wr (fun b => enc_head alloc b r) (head_bytes r).
Proof. eapply Wr_eq; [unfold enc_head, put_f32; cbn zeta; wr|wr_assoc]. Qed.

Lemma Wr_tags r : Wr (fun b => enc_tags alloc b r) (tags_bytes r).
Proof. eapply Wr_eq; [unfold enc_tags; cbn zeta; wr; apply Wr_lenstr|wr_assoc]. Qed.

Lemma Wr_embedding r : Wr (fun b => enc_embedding alloc b r) (embedding_bytes r).
Proof. eapply Wr_eq; [unfold enc_embedding; cbn zeta; wr; apply Wr_u32|wr_assoc]. Qed.

Lemma Wr_relationship rl : Wr (fun b => enc_relationship alloc b rl) (rel_bytes rl).
Proof. eapply Wr_eq; [unfold enc_relationship; cbn zeta; wr|wr_assoc]. Qed.

Lemma Wr_relationships r : Wr (fun b => enc_relationships alloc b r) (rels_bytes r).
Proof. eapply Wr_eq; [unfold enc_relationships; cbn zeta; wr; apply Wr_relationship|wr_assoc]. Qed.

Lemma Wr_fact f : Wr (fun b => enc_fact alloc b f) (fact_bytes f).
Proof.
  unfold enc_fact, fact_bytes. destruct (fa_kind f); [apply Wr_id| |];
    (eapply Wr_eq; [cbn zeta; wr|wr_assoc]).
Qed.

Lemma Wr_route rt : Wr (fun b => enc_route alloc b rt) (route_bytes rt).
Proof. eapply Wr_eq; [unfold enc_route; cbn zeta; wr; apply Wr_u64|wr_assoc]. Qed.

Lemma Wr_routes r : Wr (fun b => enc_routes alloc b r) (routes_bytes r).
Proof.
  unfold enc_routes, routes_bytes. destruct (has_deriv r); [|apply Wr_id].
  eapply Wr_eq; [cbn zeta; wr; apply Wr_route|wr_assoc].
Qed.

Lemma Wr_data r : Wr (fun b => enc_data alloc b r) (data_bytes r).
Proof. eapply Wr_eq; [unfold enc_data; cbn zeta; wr|wr_assoc]. Qed.

Lemma buf_empty_good : buf_good buf_empty.
Proof. split; [done|done|by left]. Qed.

Lemma Wr_record r :
  Wr (fun b => enc_data alloc (enc_routes alloc (enc_fact alloc (enc_relationships alloc
        (enc_embedding alloc (enc_tags alloc (enc_head alloc b r) r) r) r) (mr_fact r)) r) r)
    (record_bytes r).
Proof.
  unfold record_bytes.
  apply (Wr_comp (fun b => enc_head alloc b r) (fun b => enc_data alloc (enc_routes alloc
    (enc_fact alloc (enc_relationships alloc (enc_embedding alloc (enc_tags alloc b r) r) r) (mr_fact r)) r) r));
    [apply Wr_head|].
  apply (Wr_comp (fun b => enc_tags alloc b r) (fun b => enc_data alloc (enc_routes alloc
    (enc_fact alloc (enc_relationships alloc (enc_embedding alloc b r) r) (mr_fact r)) r) r));
    [apply Wr_tags|].
  apply (Wr_comp (fun b => enc_embedding alloc b r) (fun b => enc_data alloc (enc_routes alloc
    (enc_fact alloc (enc_relationships alloc b r) (mr_fact r)) r) r)); [apply Wr_embedding|].
  apply (Wr_comp (fun b => enc_relationships alloc b r) (fun b => enc_data alloc (enc_routes alloc
    (enc_fact alloc b (mr_fact r)) r) r)); [apply Wr_relationships|].
  apply (Wr_comp (fun b => enc_fact alloc b (mr_fact r)) (fun b => enc_data alloc
    (enc_routes alloc b r) r)); [apply Wr_fact|].
  apply (Wr_comp (fun b => enc_routes alloc b r) (fun b => enc_data alloc b r));
    [apply Wr_routes|apply Wr_data].
Qed.

(** A well-formed record of bounded size is encoded, as the layout says. *)
Lemma record_encode_layout r :
  record_wf r -> Z.of_nat (length (record_bytes r)) < MAX_FRAME ->
  record_encode alloc r = Some (record_bytes r).
Proof.
  intros W Hn. unfold record_encode.
  assert (existsb (fun rt => bool_decide (dr_rule rt = DERIV_NONE)) (mr_derivation r) = false) as ->.
  { apply not_true_iff_false. rewrite existsb_exists. intros (rt & Hin & Hb).
    apply bool_decide_eq_true in Hb. apply list_elem_of_In in Hin.
    destruct (rw_routes r W) as (Hok & _). rewrite Forall_forall in Hok.
    by destruct (Hok rt Hin). }
  assert (has_deriv r && negb (has_fact r) = false) as ->.
  { unfold has_deriv, has_fact. pose proof (rw_deriv r W) as Hd.
    destruct (mr_derivation r); [done|]. cbn. rewrite bool_decide_false by (by apply Hd). done. }
  assert (routes_refused r = false) as ->.
  { unfold routes_refused. destruct (rw_routes r W) as (Hok & _ & Hlen).
    apply orb_false_iff. split; [by apply Nat.ltb_ge|].
    apply not_true_iff_false. rewrite existsb_exists. intros (rt & Hin & Hb).
    apply list_elem_of_In in Hin. rewrite Forall_forall in Hok. destruct (Hok rt Hin) as (_ & _ & Hp & _).
    unfold premises_bad in Hb. apply orb_true_iff in Hb as [Hb|Hb]; zbool; lia. }
  destruct (rw_tags r W) as [_ Ht], (rw_rels r W) as [_ Hr], (rw_dims r W) as (Hv & Hd & _).
  unfold urange, UINT16_MAX, UINT32_MAX in *. cbn zeta.
  rewrite !Z.gtb_ltb. rewrite !(proj2 (Z.ltb_ge _ _)) by lia. cbn [orb].
  destruct (Wr_record r buf_empty buf_empty_good) as [[He _ _] Eb]; [exact Hn|].
  by rewrite He, Eb.
Qed.
End writing.

(** ** The decoder reads the layout *)

Section reading.
Context (alloc : Z -> bool) (Hal : forall n, alloc n = true).

(** [c] has no error and [bs] lies ahead of it. *)
Definition cur_at (c : Cur) (bs : list Z) : Prop :=
  c_err c = false /\ (c_off c <= c_len c)%nat /\ drop (c_off c) (c_p c) = bs.

Lemma cur_at_length c bs : cur_at c bs -> (c_off c + length bs = c_len c)%nat.
Proof. intros (_ & Hle & <-). rewrite length_drop. unfold c_len in *. lia. Qed.

Lemma cur_at_advance c s rest :
  cur_at c (s ++ rest) -> cur_at (mkCur (c_p c) (c_off c + length s) false) rest.
Proof.
  intros Hc. pose proof (cur_at_length _ _ Hc) as Hl. rewrite length_app in Hl.
  destruct Hc as (_ & Hle & Hd). split_and!; [done|unfold c_len in *; cbn; lia|].
  cbn [c_p c_off]. by rewrite <- drop_drop, Hd, drop_app_length.
Qed.

Lemma rd_take c s rest n :
  cur_at c (s ++ rest) -> length s = n -> exists c', cur_take c n = (c', s) /\ cur_at c' rest.
Proof.
  intros Hc <-. pose proof (cur_at_length _ _ Hc) as Hl. rewrite length_app in Hl.
  unfold cur_take. destruct Hc as (He & Hle & Hd) eqn:EH. rewrite He.
  destruct (Nat.ltb_spec (c_len c) (c_off c + length s)); [lia|]. cbn [orb].
  eexists. split; [|by apply cur_at_advance]. f_equal. unfold slice. by rewrite Hd, take_app_length.
Qed.

Lemma rd_u8 c v rest :
  cur_at c ([wrap 8 v] ++ rest) -> u8 v -> exists c', get_u8 c = (c', v) /\ cur_at c' rest.
Proof.
  intros Hc Hv. destruct (rd_take c _ rest 1 Hc) as (c' & E & Hc'); [done|].
  exists c'. split; [|done]. unfold get_u8. rewrite E. cbn. by rewrite wrap_small.
Qed.

Lemma rd_u16 c v rest :
  cur_at c (aegis_put_u16le v ++ rest) -> u16 v -> exists c', get_u16 c = (c', v) /\ cur_at c' rest.
Proof.
  intros Hc Hv. destruct (rd_take c _ rest 2 Hc) as (c' & E & Hc'); [done|].
  exists c'. split; [|done]. unfold get_u16. rewrite E. f_equal.
  rewrite <- (app_nil_r (aegis_put_u16le v)). by apply get_put_u16le.
Qed.

Lemma rd_u32 c v rest :
  cur_at c (aegis_put_u32le v ++ rest) -> u32 v -> exists c', get_u32 c = (c', v) /\ cur_at c' rest.
Proof.
  intros Hc Hv. destruct (rd_take c _ rest 4 Hc) as (c' & E & Hc'); [done|].
  exists c'. split; [|done]. unfold get_u32. rewrite E. f_equal.
  rewrite <- (app_nil_r (aegis_put_u32le v)). by apply get_put_u32le.
Qed.

Lemma rd_u64 c v rest :
  cur_at c (aegis_put_u64le v ++ rest) -> u64 v -> exists c', get_u64 c = (c', v) /\ cur_at c' rest.
Proof.
  intros Hc Hv. destruct (rd_take c _ rest 8 Hc) as (c' & E & Hc'); [done|].
  exists c'. split; [|done]. unfold get_u64. rewrite E. f_equal.
  rewrite <- (app_nil_r (aegis_put_u64le v)). by apply get_put_u64le.
Qed.

Lemma cstr_id s : Forall (fun c => 0 < c < 256) s -> cstr s = s.
Proof.
  induction 1 as [|x s Hx _ IH]; [done|]. cbn. destruct (Z.eqb_spec x 0); [lia|]. by rewrite IH.
Qed.

Lemma rd_lenstr c s rest :
  cur_at c (lenstr_bytes s ++ rest) -> ostr_ok s ->
  exists c', get_lenstr alloc c = (c', s) /\ cur_at c' rest.
Proof.
  intros Hc Hs. unfold get_lenstr, NULL_LEN. destruct s as [s|]; cbn [lenstr_bytes] in Hc.
  - destruct Hs as [Hch Hlen]. unfold NULL_LEN in Hlen.
    assert (wrap 32 (Z.of_nat (length s)) = Z.of_nat (length s)) as Hw
      by (apply wrap_small; unfold urange; lia).
    rewrite Hw, <- (assoc_L (++)) in Hc.
    destruct (rd_u32 c _ _ Hc) as (c1 & -> & Hc1); [unfold urange; lia|].
    pose proof (cur_at_length _ _ Hc1) as Hl. rewrite length_app in Hl.
    pose proof Hc1 as (He & _ & Hd).
    destruct (Z.eqb_spec (Z.of_nat (length s)) 0xFFFFFFFF); [lia|].
    rewrite He, Z.gtb_ltb, (proj2 (Z.ltb_ge _ _)) by (unfold c_len in *; lia). cbn [orb].
    rewrite Hal. cbn [negb]. rewrite Nat2Z.id. eexists. split; [|by apply cur_at_advance].
    f_equal. unfold slice. rewrite Hd, take_app_length. by rewrite cstr_id.
  - destruct (rd_u32 c _ _ Hc) as (c1 & -> & Hc1); [unfold urange, NULL_LEN; lia|]. by exists c1.
Qed.

Lemma cur_ok c bs : cur_at c bs -> c_err c = false.
Proof. by intros (? & _). Qed.

Lemma rd_tags ts c acc rest :
  cur_at c (concat (map (fun t => lenstr_bytes (Some t)) ts) ++ rest) -> Forall str_ok ts ->
  exists c', dec_tags alloc (length ts) c acc = Some (c', acc ++ ts) /\ cur_at c' rest.
Proof.
  revert c acc. induction ts as [|t ts IH]; intros c acc Hc Hts.
  { exists c. split; [cbn; by rewrite app_nil_r|done]. }
  apply Forall_cons in Hts as [Ht Hts]. cbn [map concat] in Hc. rewrite <- (assoc_L (++)) in Hc.
  cbn [length dec_tags]. destruct (rd_lenstr c (Some t) _ Hc Ht) as (c1 & -> & Hc1).
  rewrite (cur_ok _ _ Hc1). destruct (IH c1 (acc ++ [t]) Hc1 Hts) as (c' & -> & Hc').
  exists c'. split; [by rewrite <- (assoc_L (++))|done].
Qed.

Lemma rd_floats vs c acc rest :
  cur_at c (concat (map aegis_put_u32le vs) ++ rest) -> Forall (fun x => u32 x) vs ->
  exists c', dec_floats (length vs) c acc = Some (c', acc ++ vs) /\ cur_at c' rest.
Proof.
  revert c acc. induction vs as [|v vs IH]; intros c acc Hc Hvs.
  { exists c. split; [cbn; by rewrite app_nil_r|done]. }
  apply Forall_cons in Hvs as [Hv Hvs]. cbn [map concat] in Hc. rewrite <- (assoc_L (++)) in Hc.
  cbn [length dec_floats]. unfold get_f32. destruct (rd_u32 c v _ Hc Hv) as (c1 & -> & Hc1).
  rewrite (cur_ok _ _ Hc1). destruct (IH c1 (acc ++ [v]) Hc1 Hvs) as (c' & -> & Hc').
  exists c'. split; [by rewrite <- (assoc_L (++))|done].
Qed.

Lemma rd_premises ps c acc rest :
  cur_at c (concat (map aegis_put_u64le ps) ++ rest) -> Forall (fun x => u64 x) ps ->
  exists c', dec_premises (length ps) c acc = (c', acc ++ ps) /\ cur_at c' rest.
Proof.
  revert c acc. induction ps as [|v ps IH]; intros c acc Hc Hps.
  { exists c. split; [cbn; by rewrite app_nil_r|done]. }
  apply Forall_cons in Hps as [Hv Hps]. cbn [map concat] in Hc. rewrite <- (assoc_L (++)) in Hc.
  cbn [length dec_premises]. destruct (rd_u64 c v _ Hc Hv) as (c1 & -> & Hc1).
  destruct (IH c1 (acc ++ [v]) Hc1 Hps) as (c' & -> & Hc').
  exists c'. split; [by rewrite <- (assoc_L (++))|done].
Qed.

Lemma concat_length_const {A} (f : A -> list Z) n l :
  (forall x, length (f x) = n) -> length (concat (map f l)) = (length l * n)%nat.
Proof.
  intros Hf. induction l as [|x l IH]; [done|]. cbn [map concat length].
  rewrite length_app, IH, Hf. lia.
Qed.

Lemma rd_embedding r ver c rest :
  record_wf r -> 2 <= ver -> cur_at c (embedding_bytes r ++ rest) ->
  exists c', dec_embedding alloc ver c
    = Some (c', (mr_embedding r, mr_embedding_dim r, mr_vec_count r)) /\ cur_at c' rest.
Proof.
  intros W Hver Hc. destruct (rw_emb r W) as [Hf32 Hlen], (rw_dims r W) as (Hv & Hd & Hz).
  unfold embedding_bytes in Hc. rewrite <- !(assoc_L (++)) in Hc.
  unfold dec_embedding. rewrite (proj2 (Z.leb_le 2 ver)) by done.
  destruct (rd_u32 c _ _ Hc Hv) as (c1 & -> & Hc1). destruct (rd_u32 c1 _ _ Hc1 Hd) as (c2 & -> & Hc2).
  rewrite (cur_ok _ _ Hc2). rewrite (proj2 (Z.eqb_neq ver 1)) by lia. cbn [andb].
  set (vc := mr_vec_count r) in *. set (dim := mr_embedding_dim r) in *.
  assert (0 <= vc * dim < 2 ^ 64) as Hp by (unfold urange in *; nia).
  rewrite wrap_small in Hc2 by done. rewrite take_ge in Hc2 by lia.
  destruct (Z.eqb_spec dim 0) as [E|E]; cbn [negb andb].
  { assert (vc = 0) as E2 by lia. rewrite E2 in Hlen |- *. rewrite E in Hlen |- *.
    assert (mr_embedding r = []) as E3 by (apply nil_length_inv; lia). rewrite E3 in Hc2 |- *. by exists c2. }
  destruct (Z.eqb_spec vc 0) as [E1|E1]; [lia|]. cbn [negb].
  pose proof (cur_at_length _ _ Hc2) as Hl. rewrite length_app, (concat_length_const _ 4) in Hl by done.
  assert ((vc >? (Z.of_nat (c_len c2) - Z.of_nat (c_off c2)) / 4 / dim) = false) as ->.
  { rewrite Z.gtb_ltb. apply Z.ltb_ge. unfold urange in *.
    apply Z.div_le_lower_bound; [lia|]. apply Z.div_le_lower_bound; lia. }
  rewrite Hal. cbn [negb]. replace (Z.to_nat (vc * dim)) with (length (mr_embedding r)) by lia.
  destruct (rd_floats (mr_embedding r) c2 [] rest Hc2 Hf32) as (c' & -> & Hc'). by exists c'.
Qed.

Lemma rd_relationships rls c r0 rest :
  cur_at c (concat (map rel_bytes rls) ++ rest) -> Forall rel_ok rls ->
  exists c', dec_relationships alloc (length rls) c r0
    = Some (c', set_relationships r0 (mr_relationships r0 ++ rls)) /\ cur_at c' rest.
Proof.
  revert c r0. induction rls as [|rl rls IH]; intros c r0 Hc Hok.
  { exists c. split; [|done]. cbn. rewrite app_nil_r. by destruct r0. }
  apply Forall_cons in Hok as [(H1 & H2 & H3) Hok]. cbn [map concat] in Hc. unfold rel_bytes in Hc at 1.
  rewrite <- !(assoc_L (++)) in Hc. cbn [length dec_relationships].
  destruct (rd_u64 c _ _ Hc H1) as (c1 & -> & Hc1). destruct (rd_u64 c1 _ _ Hc1 H2) as (c2 & -> & Hc2).
  destruct (rd_lenstr c2 _ _ Hc2 H3) as (c3 & -> & Hc3). rewrite (cur_ok _ _ Hc3).
  assert (record_add_relationship alloc r0 (rl_from rl) (rl_to rl) (rl_kind rl)
    = (set_relationships r0 (mr_relationships r0 ++ [rl]), true)) as ->.
  { unfold record_add_relationship, dup_str. destruct rl as [f t [k|]]; cbn; by rewrite !Hal. }
  destruct (IH c3 (set_relationships r0 (mr_relationships r0 ++ [rl])) Hc3 Hok) as (c' & -> & Hc').
  exists c'. split; [|done]. cbn. by rewrite <- (assoc_L (++)).
Qed.

Lemma rd_fact f c r0 rest :
  fact_ok f -> fa_kind f <> FACT_NONE -> cur_at c (fact_bytes f ++ rest) ->
  exists c', dec_fact alloc c r0 = Some (c', set_fact r0 f) /\ cur_at c' rest.
Proof.
  intros Hok Hk Hc. unfold fact_ok in Hok. unfold fact_bytes in Hc. unfold dec_fact.
  destruct f as [k sub pred oid ostr]. cbn [fa_kind fa_subject fa_predicate fa_object_id fa_object_str] in *.
  destruct k; [done| |]; rewrite <- !(assoc_L (++)) in Hc; cbn [fact_kind_code] in Hc;
    (destruct (rd_u8 c _ _ Hc) as (c1 & -> & Hc1); [unfold urange; lia|]); rewrite (cur_ok _ _ Hc1);
    cbn [Z.eqb negb andb].
  - destruct Hok as (Hs & Ho & -> & p & -> & Hne & Hp).
    destruct (rd_u64 c1 _ _ Hc1 Hs) as (c2 & -> & Hc2).
    destruct (rd_lenstr c2 (Some p) _ Hc2 Hp) as (c3 & -> & Hc3). rewrite (cur_ok _ _ Hc3).
    destruct (rd_u64 c3 _ _ Hc3 Ho) as (c4 & -> & Hc4). rewrite (cur_ok _ _ Hc4).
    unfold record_set_fact, dup_str. rewrite Hal. destruct p; [done|]. by exists c4.
  - destruct Hok as (Hs & -> & (p & -> & Hne & Hp) & o & -> & Ho).
    destruct (rd_u64 c1 _ _ Hc1 Hs) as (c2 & -> & Hc2).
    destruct (rd_lenstr c2 (Some p) _ Hc2 Hp) as (c3 & -> & Hc3). rewrite (cur_ok _ _ Hc3).
    destruct (rd_lenstr c3 (Some o) _ Hc3 Ho) as (c4 & -> & Hc4). rewrite (cur_ok _ _ Hc4).
    unfold record_set_fact, dup_str. rewrite !Hal. destruct p; [done|]. by exists c4.
Qed.

(** A route past all the others goes to the end. *)
Lemma route_position_end rt pre k :
  (forall x, x ∈ pre -> ltb (route_key x) (route_key rt) = true) ->
  route_position rt pre k = inr (k + length pre)%nat.
Proof.
  revert k. induction pre as [|x pre IH]; intros k Hpre; cbn [route_position length].
  { f_equal. lia. }
  assert (ltb (route_key x) (route_key rt) = true) as Hx by (apply Hpre; left).
  rewrite route_cmp_key. destruct (Z.eqb_spec (key_cmp (route_key rt) (route_key x)) 0) as [E|E].
  { apply key_cmp_zero in E. rewrite E, ltb_irrefl in Hx. done. }
  destruct (key_cmp (route_key rt) (route_key x) <? 0) eqn:El.
  { pose proof (ltb_trans _ _ _ Hx El) as Hc. by rewrite ltb_irrefl in Hc. }
  rewrite IH; [f_equal; lia|]. intros y Hy. apply Hpre. by right.
Qed.

(** Adding a route past all the others of a record with room appends it. *)
Lemma add_route_append rt r0 :
  route_ok rt ->
  (forall x, x ∈ mr_derivation r0 -> ltb (route_key x) (route_key rt) = true) ->
  (length (mr_derivation r0) < DERIV_MAX_ROUTES)%nat ->
  record_add_route alloc r0 (dr_rule rt) (dr_depth rt) (Some (dr_premises rt))
    = (set_derivation r0 (mr_derivation r0 ++ [rt]), 0).
Proof.
  unfold record_add_route, route_ok, DERIV_MAX_PREMISES, DERIV_MAX_ROUTES.
  intros (Hrule & Hdepth & Hpl & Hps) Hlt Hlen.
  replace (mkDerivRoute (dr_rule rt) (dr_depth rt) (dr_premises rt)) with rt by (by destruct rt).
  destruct (Nat.eqb_spec (length (dr_premises rt)) 0); [lia|].
  destruct (Nat.ltb_spec 8 (length (dr_premises rt))); [lia|]. cbn [orb]. cbn zeta.
  rewrite route_position_end by done.
  destruct (Nat.leb_spec 4 (length (mr_derivation r0))); [lia|].
  rewrite Hal, andb_false_r. cbn [Nat.add].
  assert (insert_at (length (mr_derivation r0)) rt (mr_derivation r0) = mr_derivation r0 ++ [rt]) as ->.
  { unfold insert_at. by rewrite take_ge, drop_ge by lia. }
  by destruct (dr_rule rt).
Qed.

Lemma deriv_rule_round rl : rl <> DERIV_NONE -> deriv_rule_of (deriv_rule_code rl) = Some rl.
Proof. by destruct rl. Qed.

Lemma rd_routes rts c r0 rest :
  cur_at c (concat (map route_bytes rts) ++ rest) -> Forall route_ok rts ->
  strictly_sorted (map route_key (mr_derivation r0 ++ rts)) ->
  (length (mr_derivation r0 ++ rts) <= DERIV_MAX_ROUTES)%nat ->
  exists c', dec_routes alloc (length rts) c r0
    = Some (c', set_derivation r0 (mr_derivation r0 ++ rts)) /\ cur_at c' rest.
Proof.
  revert c r0. induction rts as [|rt rts IH]; intros c r0 Hc Hok Hs Hlen.
  { exists c. split; [|done]. cbn. rewrite app_nil_r. by destruct r0. }
  apply Forall_cons in Hok as [(Hrule & Hdepth & Hpl & Hps) Hok].
  cbn [map concat] in Hc. unfold route_bytes in Hc at 1. rewrite <- !(assoc_L (++)) in Hc.
  cbn [length dec_routes]. unfold DERIV_MAX_PREMISES, DERIV_MAX_ROUTES in *.
  destruct (rd_u8 c _ _ Hc) as (c1 & -> & Hc1); [destruct (dr_rule rt); unfold urange; cbn; lia|].
  destruct (rd_u16 c1 _ _ Hc1 Hdepth) as (c2 & -> & Hc2).
  destruct (rd_u8 c2 _ _ Hc2) as (c3 & -> & Hc3); [unfold urange; lia|].
  rewrite (cur_ok _ _ Hc3), deriv_rule_round by done.
  destruct (Z.eqb_spec (Z.of_nat (length (dr_premises rt))) 0); [lia|].
  rewrite Z.gtb_ltb, (proj2 (Z.ltb_ge _ _)) by lia. cbn [orb]. rewrite Nat2Z.id.
  destruct (rd_premises (dr_premises rt) c3 [] _ Hc3 Hps) as (c4 & -> & Hc4).
  rewrite (cur_ok _ _ Hc4). cbn [app].
  rewrite length_app in Hlen. cbn [length] in Hlen.
  rewrite map_app in Hs. rewrite (add_route_append rt r0 (conj Hrule (conj Hdepth (conj Hpl Hps)))).
  2:{ intros x Hx. apply (StronglySorted_app_1_elem_of lt_rel _ _ _ _ Hs);
        [apply list_elem_of_fmap; by exists x|left]. }
  2:{ unfold DERIV_MAX_ROUTES. lia. }
  cbn [Z.eqb].
  destruct (IH c4 (set_derivation r0 (mr_derivation r0 ++ [rt])) Hc4 Hok) as (c' & -> & Hc').
  - cbn [set_derivation mr_derivation]. rewrite <- (assoc_L (++)), map_app. done.
  - cbn [set_derivation mr_derivation]. rewrite !length_app. cbn [length]. lia.
  - exists c'. split; [|done]. cbn [set_derivation mr_derivation mr_id mr_type]. do 2 f_equal.
    unfold set_derivation. cbn. by rewrite <- (assoc_L (++)).
Qed.

Lemma rd_data r c r0 rest :
  record_wf r -> cur_at c (data_bytes r ++ rest) -> dec_data alloc c r0 = Some (set_data r0 (mr_data r)).
Proof.
  intros W Hc. destruct (rw_data r W) as [_ Hlen]. unfold UINT32_MAX in Hlen.
  unfold data_bytes in Hc. rewrite wrap_small in Hc by (unfold urange; lia).
  rewrite <- (assoc_L (++)) in Hc. unfold dec_data.
  destruct (rd_u32 c _ _ Hc) as (c1 & -> & Hc1); [unfold urange; lia|].
  pose proof (cur_at_length _ _ Hc1) as Hl. rewrite length_app in Hl. pose proof Hc1 as (He & _ & Hd).
  rewrite He, Z.gtb_ltb, (proj2 (Z.ltb_ge _ _)) by (unfold c_len in *; lia). cbn [orb].
  rewrite Hal, andb_false_r, Nat2Z.id. unfold slice. by rewrite Hd, take_app_length.
Qed.

Lemma memory_type_round t : memory_type_of (memory_type_code t) = Some t.
Proof. by destruct t. Qed.

Lemma rd_head r c rest :
  record_wf r -> cur_at c (drop 1 (head_bytes r) ++ tags_bytes r ++ embedding_bytes r ++ rest) ->
  exists c', dec_head alloc (codec_version r) c
    = Some (c', mkMemoryRecord (mr_id r) (mr_type r) (mr_created r) (mr_updated r)
        (mr_importance r) (mr_confidence r) (mr_agent_id r) (mr_tags r) (mr_embedding r)
        (mr_embedding_dim r) (mr_vec_count r) [] fact_zero [] [] (mr_expires_at r)
        (if mr_deleted r =? 0 then 0 else 1)) /\
    cur_at c' rest.
Proof.
  intros W Hc. unfold head_bytes, tags_bytes in Hc. cbn [drop app] in Hc.
  rewrite <- ?(assoc_L (++)) in Hc. unfold dec_head, get_f32.
  destruct (rw_imp r W) as [Hi Hib], (rw_conf r W) as [Hcf Hcb], (rw_tags r W) as [Ht Htl].
  unfold UINT16_MAX in Htl.
  destruct (rd_u64 c _ _ Hc (rw_id r W)) as (c1 & -> & H1).
  destruct (rd_u8 c1 _ _ H1) as (c2 & -> & H2); [destruct (mr_type r); unfold urange; cbn; lia|].
  rewrite memory_type_round.
  destruct (rd_u64 c2 _ _ H2 (rw_created r W)) as (c3 & -> & H3).
  destruct (rd_u64 c3 _ _ H3 (rw_updated r W)) as (c4 & -> & H4).
  destruct (rd_u32 c4 _ _ H4 Hi) as (c5 & -> & H5). destruct (rd_u32 c5 _ _ H5 Hcf) as (c6 & -> & H6).
  rewrite Hib, Hcb.
  destruct (rd_u8 c6 _ _ H6) as (c7 & -> & H7); [destruct (mr_deleted r =? 0); unfold urange; lia|].
  destruct (rd_u64 c7 _ _ H7 (rw_expires r W)) as (c8 & -> & H8).
  destruct (rd_lenstr c8 _ _ H8 (rw_agent r W)) as (c9 & -> & H9). rewrite (cur_ok _ _ H9).
  destruct (rd_u16 c9 _ _ H9) as (c10 & -> & H10); [unfold urange; lia|]. rewrite (cur_ok _ _ H10).
  rewrite Hal, andb_false_r, Nat2Z.id.
  destruct (rd_tags (mr_tags r) c10 [] _ H10 Ht) as (c11 & -> & H11).
  destruct (rd_embedding r (codec_version r) c11 rest W) as (c12 & -> & H12).
  - unfold codec_version, RECORD_CODEC_V5, RECORD_CODEC_V3, RECORD_CODEC_V2.
    destruct (has_deriv r), (has_fact r); lia.
  - done.
  - by exists c12.
Qed.

Lemma record_decode_layout r trailing :
  record_wf r -> record_decode alloc (record_bytes r ++ trailing) = Some (norm_deleted r).
Proof.
  intros W. unfold record_decode.
  assert (cur_at (mkCur (record_bytes r ++ trailing) 0 false)
    ([wrap 8 (codec_version r)] ++ drop 1 (head_bytes r) ++ tags_bytes r ++ embedding_bytes r
     ++ rels_bytes r ++ fact_bytes (mr_fact r) ++ routes_bytes r ++ data_bytes r ++ trailing)) as Hc.
  { split_and!; [done|cbn; lia|]. cbn [c_off c_p drop]. unfold record_bytes.
    rewrite <- !(assoc_L (++)). done. }
  assert (codec_version r = 2 \/ codec_version r = 3 \/ codec_version r = 5) as Hver.
  { unfold codec_version. destruct (has_deriv r), (has_fact r); auto. }
  destruct (rd_u8 _ _ _ Hc) as (c1 & -> & H1); [unfold urange; lia|].
  assert (negb (codec_version r =? 1) && negb (codec_version r =? RECORD_CODEC_V2)
    && negb (codec_version r =? RECORD_CODEC_V3) && negb (codec_version r =? RECORD_CODEC_V5) = false) as ->.
  { destruct Hver as [-> |[-> | ->]]; done. }
  destruct (rd_head r c1 _ W H1) as (c2 & -> & H2).
  destruct (rw_rels r W) as [Hrl Hrn]. unfold UINT16_MAX in Hrn. unfold rels_bytes in H2.
  rewrite <- (assoc_L (++)) in H2.
  destruct (rd_u16 c2 _ _ H2) as (c3 & -> & H3); [unfold urange; lia|]. rewrite (cur_ok _ _ H3), Nat2Z.id.
  set (r0 := mkMemoryRecord _ _ _ _ _ _ _ _ _ _ _ _ _ _ _ _ _).
  destruct (rd_relationships (mr_relationships r) c3 r0 _ H3 Hrl) as (c4 & -> & H4).
  set (r1 := set_relationships r0 _).
  assert (exists c5, (if RECORD_CODEC_V3 <=? codec_version r then dec_fact alloc c4 r1 else Some (c4, r1))
    = Some (c5, set_fact r1 (mr_fact r)) /\
    cur_at c5 (routes_bytes r ++ data_bytes r ++ trailing)) as (c5 & -> & H5).
  { pose proof (rw_fact r W) as Hf. pose proof (rw_deriv r W) as Hd.
    destruct (decide (fa_kind (mr_fact r) = FACT_NONE)) as [E|E].
    - assert (mr_derivation r = []) as Ed by (destruct (mr_derivation r); [done|exfalso; by apply Hd]).
      unfold codec_version, has_deriv, has_fact. rewrite Ed, bool_decide_true by done. cbn.
      unfold fact_ok in Hf. rewrite E in Hf. rewrite Hf in H4 |- *. by exists c4.
    - assert ((RECORD_CODEC_V3 <=? codec_version r) = true) as ->.
      { unfold codec_version, has_fact. rewrite bool_decide_false by done. by destruct (has_deriv r). }
      by apply rd_fact. }
  set (r2 := set_fact r1 _).
  assert (exists c6, (if RECORD_CODEC_V5 <=? codec_version r then dec_derivation alloc c5 r2 else Some (c5, r2))
    = Some (c6, set_derivation r2 (mr_derivation r)) /\ cur_at c6 (data_bytes r ++ trailing))
    as (c6 & -> & H6).
  { destruct (rw_routes r W) as (Hok & Hsr & Hln). unfold routes_bytes in H5.
    unfold codec_version. destruct (has_deriv r) eqn:Eh.
    - cbn. rewrite <- (assoc_L (++)) in H5. unfold has_deriv in Eh. zbool.
      unfold DERIV_MAX_ROUTES in Hln. unfold dec_derivation, DERIV_MAX_ROUTES.
      destruct (rd_u16 c5 _ _ H5) as (c6 & -> & H6); [unfold urange; lia|]. rewrite (cur_ok _ _ H6).
      rewrite (proj2 (Z.eqb_neq _ _)), Z.gtb_ltb, (proj2 (Z.ltb_ge _ _)), Nat2Z.id by lia. cbn [orb].
      by apply rd_routes.
    - assert (mr_derivation r = []) as -> by (unfold has_deriv in Eh; by destruct (mr_derivation r)).
      exists c5. split; [by destruct (has_fact r)|done]. }
  rewrite (rd_data r c6 _ trailing W H6). by destruct r.
Qed.
End reading.

(** ** The layout is a byte string *)

Lemma bytes_ok_concat (l : list (list Z)) : Forall bytes_ok l -> bytes_ok (concat l).
Proof. induction 1; [constructor|]. cbn. by apply bytes_ok_app. Qed.

Lemma byte_wrap v : bytes_ok [wrap 8 v].
Proof. constructor; [by apply wrap_range|constructor]. Qed.

Lemma str_bytes s : str_ok s -> bytes_ok s.
Proof. intros [Hs _]. eapply Forall_impl; [exact Hs|]. intros c ?. cbn beta in *. split; lia. Qed.

Lemma lenstr_bytes_ok s : ostr_ok s -> bytes_ok (lenstr_bytes s).
Proof.
  destruct s as [s|]; cbn; [|auto with aegis]. intros Hs. apply bytes_ok_app.
  split; [auto with aegis|by apply str_bytes].
Qed.

Lemma bytes_ok_concat_map {A} (f : A -> list Z) l : Forall (fun x => bytes_ok (f x)) l -> bytes_ok (concat (map f l)).
Proof. intros Hl. apply bytes_ok_concat. by apply Forall_map. Qed.

Lemma fact_bytes_ok f : fact_ok f -> bytes_ok (fact_bytes f).
Proof.
  unfold fact_ok, fact_bytes. destruct (fa_kind f); [constructor| |].
  - intros (_ & _ & _ & p & -> & _ & Hp). rewrite !bytes_ok_app.
    split_and!; auto using byte_wrap, lenstr_bytes_ok with aegis.
  - intros (_ & _ & (p & -> & _ & Hp) & o & -> & Ho). rewrite !bytes_ok_app.
    split_and!; auto using byte_wrap, lenstr_bytes_ok with aegis.
Qed.

Lemma record_bytes_ok r : record_wf r -> bytes_ok (record_bytes r).
Proof.
  intros W. unfold record_bytes, head_bytes, tags_bytes, embedding_bytes, rels_bytes, routes_bytes, data_bytes.
  destruct (rw_tags r W) as [Ht _], (rw_rels r W) as [Hr _], (rw_data r W) as [Hd _], (rw_routes r W) as [Hro _].
  rewrite !bytes_ok_app.
  split_and!; auto using byte_wrap, lenstr_bytes_ok, fact_bytes_ok, rw_agent, rw_fact with aegis.
  - apply bytes_ok_concat_map. eapply Forall_impl; [exact Ht|]. intros t ?. by apply (lenstr_bytes_ok (Some t)).
  - apply bytes_ok_concat_map. apply Forall_true. auto with aegis.
  - apply bytes_ok_concat_map. eapply Forall_impl; [exact Hr|]. intros rl (_ & _ & Hk).
    unfold rel_bytes. rewrite !bytes_ok_app. split_and!; auto using lenstr_bytes_ok with aegis.
  - destruct (has_deriv r); [|constructor]. apply bytes_ok_app. split; [auto with aegis|].
    apply bytes_ok_concat_map. apply Forall_true. intros rt. unfold route_bytes. rewrite !bytes_ok_app.
    split_and!; auto using byte_wrap with aegis. apply bytes_ok_concat_map, Forall_true. auto with aegis.
Qed.
