(* ===== verification/RecordDecode.v ===== *)
(** * Decoder soundness and cloning

    Whatever bytes the decoder accepts, the record it returns is well-formed
    (so it can be encoded again); a clone of a well-formed record is that
    record. *)

From S2P Require Import Prelude Endian SortedArray Record RecordCodec RecordRoundtrip.

(** ** Ranges of what the cursor reads *)

Definition cur_bytes (c : Cur) : Prop := bytes_ok (c_p c).

Lemma byte_at_range l i : bytes_ok l -> u8 (byte_at l i).
Proof.
  intros H. unfold byte_at. destruct (l !! i) as [b|] eqn:E; cbn; [|unfold urange; lia].
  by apply (Forall_lookup_1 _ _ _ _ H E).
Qed.

Lemma le_range_of l n v :
  bytes_ok l -> length l = n -> v = le_combine l -> 0 <= v < 2 ^ (8 * Z.of_nat n).
Proof. intros H <- ->. by apply le_combine_range. Qed.

Lemma cur_take_bytes c n c' t :
  cur_take c n = (c', t) -> cur_bytes c -> cur_bytes c' /\ bytes_ok t /\ length t = n.
Proof.
  unfold cur_take, cur_bytes. intros E H. destruct (c_err c || _)%bool eqn:Eb; injection E as <- <-; cbn.
  - split_and!; [done| |by rewrite length_replicate].
    apply Forall_replicate. split; [lia|done].
  - zbool. unfold c_len in *. split_and!; [done|by apply bytes_ok_take, bytes_ok_drop|].
    rewrite length_slice; lia.
Qed.

Lemma get_u8_range c c' v : get_u8 c = (c', v) -> cur_bytes c -> cur_bytes c' /\ u8 v.
Proof.
  unfold get_u8. destruct (cur_take c 1) as [c1 t] eqn:E. intros [= <- <-] H.
  destruct (cur_take_bytes _ _ _ _ E H) as (? & Hb & Hl). split; [done|by apply byte_at_range].
Qed.

Lemma get_u16_range c c' v : get_u16 c = (c', v) -> cur_bytes c -> cur_bytes c' /\ u16 v.
Proof.
  unfold get_u16. destruct (cur_take c 2) as [c1 t] eqn:E. intros [= <- <-] H.
  destruct (cur_take_bytes _ _ _ _ E H) as (? & Hb & Hl). split; [done|].
  destruct t as [|b0 [|b1 [|]]]; try done. apply (le_range_of _ 2 _ Hb Hl).
  unfold bytes_ok in Hb. decompose_Forall. by apply get_u16le_combine.
Qed.

Lemma get_u32_range c c' v : get_u32 c = (c', v) -> cur_bytes c -> cur_bytes c' /\ u32 v.
Proof.
  unfold get_u32. destruct (cur_take c 4) as [c1 t] eqn:E. intros [= <- <-] H.
  destruct (cur_take_bytes _ _ _ _ E H) as (? & Hb & Hl). split; [done|].
  destruct t as [|b0 [|b1 [|b2 [|b3 [|]]]]]; try done. apply (le_range_of _ 4 _ Hb Hl).
  unfold bytes_ok in Hb. decompose_Forall. by apply get_u32le_combine.
Qed.

Lemma get_u64_range c c' v : get_u64 c = (c', v) -> cur_bytes c -> cur_bytes c' /\ u64 v.
Proof.
  unfold get_u64. destruct (cur_take c 8) as [c1 t] eqn:E. intros [= <- <-] H.
  destruct (cur_take_bytes _ _ _ _ E H) as (? & Hb & Hl). split; [done|].
  apply (le_range_of _ 8 _ Hb Hl). rewrite <- (app_nil_r t) at 1. by apply get_u64le_combine.
Qed.

Section wf.
Context (alloc : Z -> bool).

Lemma cstr_ok l : bytes_ok l -> Forall (fun c => 0 < c < 256) (cstr l) /\ (length (cstr l) <= length l)%nat.
Proof.
  induction 1 as [|x l Hx _ [IH IHl]]; cbn; [split; [constructor|lia]|].
  destruct (Z.eqb_spec x 0); cbn; [split; [constructor|lia]|].
  split; [|lia]. constructor; [unfold urange in Hx; lia|done].
Qed.

Lemma get_lenstr_range c c' s :
  get_lenstr alloc c = (c', s) -> cur_bytes c -> cur_bytes c' /\ ostr_ok s.
Proof.
  unfold get_lenstr. destruct (get_u32 c) as [c1 n] eqn:E. intros Eq H.
  destruct (get_u32_range _ _ _ E H) as [H1 Hn].
  destruct (Z.eqb_spec n NULL_LEN) as [->|Hne]; [by injection Eq as <- <-|].
  destruct (c_err c1 || _)%bool eqn:Eb; [by injection Eq as <- <-|].
  destruct (negb (alloc (n + 1))); [by injection Eq as <- <-|].
  injection Eq as <- <-. split; [done|]. zbool. unfold c_len in *.
  destruct (cstr_ok (slice (c_p c1) (c_off c1) (Z.to_nat n))) as [Hc Hl];
    [by apply bytes_ok_take, bytes_ok_drop|].
  split; [done|]. unfold urange, NULL_LEN in *. rewrite length_slice in Hl by lia. lia.
Qed.

(** Read the next field of the decoder in hypothesis [H]. *)
Ltac rd :=
  match goal with
  | H : context [get_u8 ?c], Hc : cur_bytes ?c |- _ =>
      let E := fresh "E" in destruct (get_u8 c) as [? ?] eqn:E;
      apply get_u8_range in E as [? ?]; [|done]
  | H : context [get_u16 ?c], Hc : cur_bytes ?c |- _ =>
      let E := fresh "E" in destruct (get_u16 c) as [? ?] eqn:E;
      apply get_u16_range in E as [? ?]; [|done]
  | H : context [get_u32 ?c], Hc : cur_bytes ?c |- _ =>
      let E := fresh "E" in destruct (get_u32 c) as [? ?] eqn:E;
      apply get_u32_range in E as [? ?]; [|done]
  | H : context [get_u64 ?c], Hc : cur_bytes ?c |- _ =>
      let E := fresh "E" in destruct (get_u64 c) as [? ?] eqn:E;
      apply get_u64_range in E as [? ?]; [|done]
  | H : context [get_lenstr alloc ?c], Hc : cur_bytes ?c |- _ =>
      let E := fresh "E" in destruct (get_lenstr alloc c) as [? ?] eqn:E;
      apply get_lenstr_range in E as [? ?]; [|done]
  | H : (if ?b then None else _) = Some _ |- _ =>
      let E := fresh "E" in destruct b eqn:E; [discriminate H|]
  | H : (if ?b then _ else None) = Some _ |- _ =>
      let E := fresh "E" in destruct b eqn:E; [|discriminate H]
  end.

Lemma dec_tags_range n c acc c' ts :
  dec_tags alloc n c acc = Some (c', ts) -> cur_bytes c -> Forall str_ok acc ->
  cur_bytes c' /\ Forall str_ok ts /\ length ts = (length acc + n)%nat.
Proof.
  revert c acc. induction n as [|n IH]; intros c acc H Hc Ha; cbn [dec_tags] in H.
  { injection H as <- <-. split_and!; [done|done|lia]. }
  rd. destruct o as [t|]; [|done]. rd.
  destruct (IH _ _ H) as (? & ? & Hl); [done|by apply Forall_app_2; [|by constructor]|].
  split_and!; [done|done|]. rewrite Hl, length_app. cbn. lia.
Qed.

Lemma dec_floats_range n c acc c' vs :
  dec_floats n c acc = Some (c', vs) -> cur_bytes c -> Forall (fun x => u32 x) acc ->
  cur_bytes c' /\ Forall (fun x => u32 x) vs /\ length vs = (length acc + n)%nat.
Proof.
  revert c acc. induction n as [|n IH]; intros c acc H Hc Ha; cbn [dec_floats] in H.
  { injection H as <- <-. split_and!; [done|done|lia]. }
  unfold get_f32 in H. rd. rd.
  destruct (IH _ _ H) as (? & ? & Hl); [done|by apply Forall_app_2; [|by constructor]|].
  split_and!; [done|done|]. rewrite Hl, length_app. cbn. lia.
Qed.

Lemma dec_premises_range n c acc c' vs :
  dec_premises n c acc = (c', vs) -> cur_bytes c -> Forall (fun x => u64 x) acc ->
  cur_bytes c' /\ Forall (fun x => u64 x) vs /\ length vs = (length acc + n)%nat.
Proof.
  revert c acc. induction n as [|n IH]; intros c acc H Hc Ha; cbn [dec_premises] in H.
  { injection H as <- <-. split_and!; [done|done|lia]. }
  rd. destruct (IH _ _ H) as (? & ? & Hl); [done|by apply Forall_app_2; [|by constructor]|].
  split_and!; [done|done|]. rewrite Hl, length_app. cbn. lia.
Qed.

(** The record fields an embedding reads. *)
Definition emb_ok (v : list Z) (dim vc : Z) : Prop :=
  Forall (fun x => u32 x) v /\ Z.of_nat (length v) = vc * dim /\ u32 vc /\ u32 dim /\ (vc = 0 <-> dim = 0).

Lemma dec_embedding_range ver c c' v dim vc :
  dec_embedding alloc ver c = Some (c', (v, dim, vc)) -> cur_bytes c ->
  cur_bytes c' /\ emb_ok v dim vc.
Proof.
  unfold dec_embedding. intros H Hc.
  destruct (if 2 <=? ver then get_u32 c else (c, 1)) as [c1 vc0] eqn:E1.
  assert (cur_bytes c1 /\ u32 vc0) as [Hc1 Hv0].
  { destruct (2 <=? ver); [by apply get_u32_range in E1|].
    injection E1 as <- <-. split; [done|unfold urange; lia]. }
  clear E1. rd. rd. cbn zeta in H. set (vc1 := if (ver =? 1) && (z =? 0) then 0 else vc0) in H.
  assert (u32 vc1) as Hv1 by (unfold vc1; destruct (_ && _)%bool; [unfold urange; lia|done]).
  destruct (negb (z =? 0) && negb (vc1 =? 0)) eqn:Eb.
  2:{ injection H as <- <- <- <-. unfold emb_ok, urange. split_and!; [done|constructor|done|lia|lia|lia|lia|done]. }
  do 2 rd. zbool. destruct (dec_floats _ _ _) as [[c2 fs]|] eqn:Ef; [|done].
  injection H as <- <- <- <-. destruct (dec_floats_range _ _ _ _ _ Ef) as (? & ? & Hl); [done|done|].
  split; [done|]. unfold emb_ok. split_and!; [done| |done|done|lia].
  cbn in Hl. rewrite Hl. unfold urange in *. nia.
Qed.

Lemma add_relationship_range r f t k r' ok :
  record_add_relationship alloc r f t k = (r', ok) -> ok = true ->
  r' = set_relationships r (mr_relationships r ++ [mkRelationship f t k]).
Proof.
  unfold record_add_relationship, dup_str. intros H ->.
  destruct (negb _); [done|]. destruct k as [k|]; [|by injection H].
  destruct (alloc _); by injection H.
Qed.

Lemma dec_relationships_range n c r c' r' :
  dec_relationships alloc n c r = Some (c', r') -> cur_bytes c -> Forall rel_ok (mr_relationships r) ->
  cur_bytes c' /\ Forall rel_ok (mr_relationships r') /\
  length (mr_relationships r') = (length (mr_relationships r) + n)%nat /\
  r' = set_relationships r (mr_relationships r').
Proof.
  revert c r. induction n as [|n IH]; intros c r H Hc Ha; cbn [dec_relationships] in H.
  { injection H as <- <-. split_and!; [done|done|lia|by destruct r]. }
  do 4 rd. destruct (record_add_relationship _ _ _ _ _) as [r1 ok] eqn:Er. destruct ok; [|done].
  apply add_relationship_range in Er; [|done].
  destruct (IH _ _ H) as (? & ? & Hl & Hr'); [done| |].
  { rewrite Er. cbn. apply Forall_app_2; [done|]. by apply Forall_singleton. }
  split_and!; [done|done| |].
  - rewrite Hl, Er. cbn. rewrite length_app. cbn. lia.
  - rewrite Hr', Er at 1. done.
Qed.

Lemma set_fact_range r k s p oid o r' ok :
  record_set_fact alloc r k s (Some p) oid o = (r', ok) -> ok = true -> k <> FACT_NONE ->
  p <> [] /\
  ((k = FACT_OBJ_ID /\ r' = set_fact r (mkFact k s (Some p) oid None)) \/
   (k = FACT_OBJ_STRING /\ o <> None /\ r' = set_fact r (mkFact k s (Some p) 0 o))).
Proof.
  unfold record_set_fact, dup_str. intros H -> Hk. destruct k; [done| |].
  - destruct p; [done|]. destruct (alloc _); [|done]. injection H as <-. auto.
  - destruct p; [done|]. destruct o as [o|]; [|done].
    do 2 (destruct (alloc _); [|done]). injection H as <-. split; [done|]. by right.
Qed.

Lemma dec_fact_range c r c' r' :
  dec_fact alloc c r = Some (c', r') -> cur_bytes c ->
  cur_bytes c' /\ fact_ok (mr_fact r') /\ fa_kind (mr_fact r') <> FACT_NONE /\
  r' = set_fact r (mr_fact r').
Proof.
  unfold dec_fact. intros H Hc. do 7 rd. destruct o as [p|]; [|done]. rd. destruct (z =? 1).
  - rd. destruct (record_set_fact _ _ _ _ _ _ _) as [r1 ok] eqn:Er. destruct ok; [|done].
    injection H as <- <-. apply set_fact_range in Er; [|done|done].
    destruct Er as [Hp [[_ ->]|[? _]]]; [|done]. split_and!; [done| |done|done].
    cbn. split_and!; [done|done|done|]. by exists p.
  - destruct o0 as [ob|]; [|done]. rd.
    destruct (record_set_fact _ _ _ _ _ _ _) as [r1 ok] eqn:Er. destruct ok; [|done].
    injection H as <- <-. apply set_fact_range in Er; [|done|done].
    destruct Er as [Hp [[? _]|(_ & _ & ->)]]; [done|]. split_and!; [done| |done|done].
    cbn. split_and!; [done|done|by exists p|by exists ob].
Qed.

Lemma add_route_alloc r rl d ps r' :
  record_add_route alloc r rl d ps = (r', 0) -> record_add_route (fun _ => true) r rl d ps = (r', 0).
Proof.
  unfold record_add_route. destruct rl, ps as [ps|]; try done;
    (destruct (_ || _); [done|]); cbn zeta; (destruct (route_position _ _ _) as [|at_]; [done|]);
    (destruct (_ <=? _)%nat; [done|]); (destruct (_ && negb (alloc _)); [done|]); by rewrite andb_false_r.
Qed.

(** The justifications of a record: acceptable, sorted, bounded. *)
Definition routes_wf (rts : list DerivRoute) : Prop :=
  Forall route_ok rts /\ strictly_sorted (map route_key rts) /\ (length rts <= DERIV_MAX_ROUTES)%nat.

Lemma add_route_wf r rl d ps r' :
  record_add_route alloc r rl d (Some ps) = (r', 0) -> routes_wf (mr_derivation r) ->
  route_ok (mkDerivRoute rl d ps) ->
  routes_wf (mr_derivation r') /\ r' = set_derivation r (mr_derivation r').
Proof.
  intros H (Hok & Hs & Hl) Hrt. apply add_route_alloc in H. pose proof Hrt as (Hn & _ & Hp & _). cbn in Hn, Hp.
  pose proof (add_route_keys (fun _ => true) r rl d ps (fun _ => eq_refl) Hn Hp Hs Hl) as Hk.
  rewrite H in Hk. destruct Hk as [Hk _]. destruct (key_insert_spec _ (ps, deriv_rule_code rl) Hs) as [Hsi _].
  assert (Forall route_ok (mr_derivation r') /\ r' = set_derivation r (mr_derivation r')) as [Hok' Hr'].
  { unfold record_add_route in H. destruct rl; try done;
      (destruct (_ || _); [done|]); cbn zeta in H; (destruct (route_position _ _ _) as [|at_]; [done|]);
      rewrite andb_false_r in H; repeat case_if; try done; injection H as <-; cbn; (split; [|done]);
      try apply Forall_take; by apply Forall_insert_at. }
  split; [|done]. split_and!; [done| |].
  - rewrite Hk. by apply sorted_take.
  - rewrite <- (length_map route_key), Hk, length_take. lia.
Qed.

Lemma deriv_rule_of_some z rl : deriv_rule_of z = Some rl -> rl <> DERIV_NONE.
Proof. unfold deriv_rule_of. repeat case_if; by intros [= <-]. Qed.

Lemma dec_routes_range n c r c' r' :
  dec_routes alloc n c r = Some (c', r') -> cur_bytes c -> routes_wf (mr_derivation r) ->
  cur_bytes c' /\ routes_wf (mr_derivation r') /\ r' = set_derivation r (mr_derivation r').
Proof.
  revert c r. induction n as [|n IH]; intros c r H Hc Ha; cbn [dec_routes] in H.
  { injection H as <- <-. split_and!; [done|done|by destruct r]. }
  do 4 rd. destruct (deriv_rule_of z) as [rl|] eqn:Erl; [|done]. rd.
  apply deriv_rule_of_some in Erl.
  destruct (dec_premises _ _ _) as [c4 ps] eqn:Ep.
  apply dec_premises_range in Ep as (Hc4 & Hps & Hpl); [|done|constructor]. rd.
  destruct (record_add_route _ _ _ _ _) as [r1 rc] eqn:Er. rd. zbool. subst rc.
  apply add_route_wf in Er as [Hwf Hr1]; [|done|].
  2:{ unfold route_ok, DERIV_MAX_PREMISES in *. cbn in Hpl |- *.
      split_and!; [done|done|unfold urange in *; lia|lia|done]. }
  destruct (IH _ _ H) as (? & ? & Hr'); [done|done|]. split_and!; [done|done|].
  rewrite Hr', Hr1 at 1. done.
Qed.

Lemma dec_data_range c r r' :
  dec_data alloc c r = Some r' -> cur_bytes c ->
  bytes_ok (mr_data r') /\ Z.of_nat (length (mr_data r')) <= UINT32_MAX /\ r' = set_data r (mr_data r').
Proof.
  unfold dec_data. intros H Hc. rd. rd. rd. injection H as <-. zbool. cbn.
  split_and!; [by apply bytes_ok_take, bytes_ok_drop| |done].
  unfold slice, urange, UINT32_MAX in *. rewrite length_take. lia.
Qed.

(** What the first decoding step establishes. *)
Record head_ok (r : MemoryRecord) : Prop := {
  ho_ids : u64 (mr_id r) /\ u64 (mr_created r) /\ u64 (mr_updated r) /\ u64 (mr_expires_at r) /\
    u8 (mr_deleted r);
  ho_imp : u32 (mr_importance r) /\ weight_bad (mr_importance r) = false;
  ho_conf : u32 (mr_confidence r) /\ weight_bad (mr_confidence r) = false;
  ho_agent : ostr_ok (mr_agent_id r);
  ho_tags : Forall str_ok (mr_tags r) /\ Z.of_nat (length (mr_tags r)) <= UINT16_MAX;
  ho_emb : emb_ok (mr_embedding r) (mr_embedding_dim r) (mr_vec_count r);
  ho_empty : mr_relationships r = [] /\ mr_fact r = fact_zero /\ mr_derivation r = []
}.

Lemma weight_norm w d :
  u32 w -> u32 d -> weight_bad d = false ->
  u32 (if weight_bad w then d else w) /\ weight_bad (if weight_bad w then d else w) = false.
Proof. intros. by destruct (weight_bad w) eqn:E. Qed.

Lemma dec_head_range ver c c' r :
  dec_head alloc ver c = Some (c', r) -> cur_bytes c -> cur_bytes c' /\ head_ok r.
Proof.
  unfold dec_head, get_f32. intros H Hc. do 2 rd. destruct (memory_type_of z0) as [ty|]; [|done].
  do 11 rd. destruct (dec_tags _ _ _ _) as [[ca ts]|] eqn:Et; [|done].
  apply dec_tags_range in Et as (? & ? & Hl); [|done|constructor].
  destruct (dec_embedding _ _ _) as [[cb [[em dim] vc]]|] eqn:Ee; [|done].
  apply dec_embedding_range in Ee as [? ?]; [|done]. apply (inj Some), pair_equal_spec in H as [<- <-]. split; [done|].
  split; cbn; try done.
  - by apply weight_norm.
  - by apply weight_norm.
  - split; [done|]. cbn in Hl. unfold urange, UINT16_MAX in *. lia.
Qed.

Lemma record_decode_range buf r :
  record_decode alloc buf = Some r -> bytes_ok buf -> record_wf r.
Proof.
  unfold record_decode. intros H Hb. assert (cur_bytes (mkCur buf 0 false)) as Hc by done.
  rd. rd. destruct (dec_head _ _ _) as [[ca r1]|] eqn:Eq1; [|done].
  apply dec_head_range in Eq1 as [Hcu1 [Hids Himp Hconf Hag Htg Hem (Hr0 & Hf0 & Hd0)]]; [|done].
  rd. rd. destruct (dec_relationships _ _ _ _) as [[cb r2]|] eqn:Eq2; [|done].
  apply dec_relationships_range in Eq2 as (Hcu2 & Hrel & Hrl & Er2); [|done|by rewrite Hr0; constructor].
  destruct (if RECORD_CODEC_V3 <=? z then _ else _) as [[c3 r3]|] eqn:Eq3; [|done].
  assert (cur_bytes c3 /\ fact_ok (mr_fact r3) /\ (3 <= z -> fa_kind (mr_fact r3) <> FACT_NONE) /\
    r3 = set_fact r2 (mr_fact r3)) as (Hcu3 & Hf & Hf3 & Er3).
  { destruct (RECORD_CODEC_V3 <=? z) eqn:Ev; [by apply dec_fact_range in Eq3 as (? & ? & ? & ?)|].
    injection Eq3 as <- <-. rewrite Er2. cbn. rewrite Hf0.
    apply Z.leb_gt in Ev. unfold RECORD_CODEC_V3 in Ev. split_and!; [done|done|lia|by rewrite <- Hf0]. }
  destruct (if RECORD_CODEC_V5 <=? z then _ else _) as [[c4 r4]|] eqn:Eq4; [|done].
  assert (mr_derivation r3 = []) as Hd3 by (rewrite Er3, Er2; done).
  assert (routes_wf []) as Hwf0 by (split_and!; [constructor|constructor|cbn; lia]).
  assert (cur_bytes c4 /\ routes_wf (mr_derivation r4) /\
    (mr_derivation r4 <> [] -> 3 <= z) /\ r4 = set_derivation r3 (mr_derivation r4)) as (Hcu4 & Hrt & Hd & Er4).
  { destruct (Z.leb_spec RECORD_CODEC_V5 z) as [Ev|Ev].
    - unfold dec_derivation in Eq4. rd. rd. apply dec_routes_range in Eq4 as (? & ? & ?); [|done|by rewrite Hd3].
      unfold RECORD_CODEC_V5 in Ev. split_and!; [done|done|intros _; lia|done].
    - injection Eq4 as <- <-. rewrite Hd3. split_and!; try done. rewrite <- Hd3. by destruct r3. }
  apply dec_data_range in H as (Hdt & Hdl & Er); [|done].
  destruct Hids as (? & ? & ? & ? & ?), Hem as (? & ? & ? & ? & ?).
  rewrite Er, Er4, Er3, Er2. cbn [set_data set_derivation set_fact set_relationships].
  rewrite Er4, Er3, Er2. destruct Hrt as (? & ? & ?).
  split; cbn; try done.
  - split; [done|]. rewrite Hr0 in Hrl. cbn in Hrl. unfold urange, UINT16_MAX in *. lia.
  - auto.
Qed.
End wf.

(** ** Cloning *)

Section clone.
Context (alloc : Z -> bool).

Definition oom : Prop := exists n, alloc n = false.

Lemma dup_str_cases s : dup_str alloc s = Some s \/ (dup_str alloc s = None /\ oom).
Proof. unfold dup_str, oom. destruct (alloc _) eqn:E; [by left|right; split; [done|by eexists]]. Qed.

Lemma mapM_dup_cases ts : mapM (dup_str alloc) ts = Some ts \/ (mapM (dup_str alloc) ts = None /\ oom).
Proof.
  induction ts as [|t ts IH]; [by left|]. cbn.
  destruct (dup_str_cases t) as [->|[-> ?]]; cbn; [|by right].
  destruct IH as [->|[-> ?]]; cbn; [by left|by right].
Qed.

(** With or without the allocation of the first route. *)
Lemma add_route_oom r rl d ps :
  record_add_route alloc r rl d ps = record_add_route (fun _ => true) r rl d ps \/
  (snd (record_add_route alloc r rl d ps) = -1 /\ oom).
Proof.
  unfold record_add_route. destruct rl, ps as [ps|]; try (by left);
    (destruct (_ || _); [by left|]); cbn zeta; (destruct (route_position _ _ _) as [|at_]; [by left|]);
    (destruct (_ <=? _)%nat; [by left|]); rewrite andb_false_r;
    (destruct (_ && negb (alloc _)) eqn:E; [right|by left]); zbool; (split; [done|by eexists]).
Qed.

Lemma clone_routes_None rts :
  foldl (fun st rt => st ≫= fun r =>
    let '(r', rc) := record_add_route alloc r (dr_rule rt) (dr_depth rt) (Some (dr_premises rt)) in
    if rc <? 0 then None else Some r') None rts = None.
Proof. by induction rts. Qed.

Lemma clone_routes_cases rts r0 :
  Forall route_ok rts -> strictly_sorted (map route_key (mr_derivation r0 ++ rts)) ->
  (length (mr_derivation r0 ++ rts) <= DERIV_MAX_ROUTES)%nat ->
  clone_routes alloc r0 rts = Some (set_derivation r0 (mr_derivation r0 ++ rts)) \/
  (clone_routes alloc r0 rts = None /\ oom).
Proof.
  unfold clone_routes. revert r0. induction rts as [|rt rts IH]; intros r0 Hok Hs Hl; cbn [foldl].
  { left. rewrite app_nil_r. by destruct r0. }
  apply Forall_cons in Hok as [Hrt Hok]. cbn [mbind option_bind].
  rewrite length_app in Hl. cbn [length] in Hl. rewrite map_app in Hs.
  destruct (add_route_oom r0 (dr_rule rt) (dr_depth rt) (Some (dr_premises rt))) as [-> | [Hneg Ho]].
  - rewrite add_route_append; [|done|done| |lia].
    2:{ intros x Hx. apply (StronglySorted_app_1_elem_of lt_rel _ _ _ _ Hs);
          [apply list_elem_of_fmap; by exists x|left]. }
    destruct (IH (set_derivation r0 (mr_derivation r0 ++ [rt]))) as [E|E]; cbn in *.
    + done.
    + rewrite <- (assoc_L (++)), map_app. done.
    + rewrite !length_app. cbn. lia.
    + left. etransitivity; [apply E|]. by rewrite <- (assoc_L (++)).
    + right. done.
  - destruct (record_add_route alloc _ _ _ _) as [r1 rc]. cbn in Hneg. subst rc. cbn.
    right. split; [apply clone_routes_None|done].
Qed.

Lemma clone_relationships_cases rls r0 :
  clone_relationships alloc r0 rls = Some (set_relationships r0 (mr_relationships r0 ++ rls)) \/
  (clone_relationships alloc r0 rls = None /\ oom).
Proof.
  unfold clone_relationships. revert r0. induction rls as [|rl rls IH]; intros r0; cbn [foldl].
  { left. rewrite app_nil_r. by destruct r0. }
  cbn [mbind option_bind].
  destruct (record_add_relationship alloc r0 (rl_from rl) (rl_to rl) (rl_kind rl)) as [r1 ok] eqn:E.
  destruct ok.
  - apply add_relationship_range in E; [|done]. subst r1.
    destruct (IH (set_relationships r0 (mr_relationships r0 ++ [rl]))) as [E|E]; cbn in *.
    + left. destruct rl. etransitivity; [apply E|]. by rewrite <- (assoc_L (++)).
    + right. by destruct rl.
  - right. split; [by clear; induction rls|]. unfold record_add_relationship in E.
    destruct (negb (alloc _)) eqn:Ea; [zbool; by eexists|]. destruct (rl_kind rl) as [k|]; [|done].
    destruct (dup_str_cases k) as [Ek|[Ek ?]]; rewrite Ek in E; done.
Qed.

Lemma clone_fact_cases r f :
  fact_ok f -> mr_fact r = fact_zero ->
  let '(r', ok) := if bool_decide (fa_kind f = FACT_NONE) then (r, true)
                   else record_set_fact alloc r (fa_kind f) (fa_subject f) (fa_predicate f)
                          (fa_object_id f) (fa_object_str f) in
  (ok = true /\ r' = set_fact r f) \/ (ok = false /\ oom).
Proof.
  intros Hf Hz. destruct f as [k s p oid o]. cbn in *.
  destruct k; cbn in Hf.
  - rewrite bool_decide_true by done. left. rewrite Hf. split; [done|]. rewrite <- Hz. by destruct r.
  - destruct Hf as (? & ? & -> & p' & -> & Hp & _). rewrite bool_decide_false by done. cbn.
    destruct p' as [|x p']; [done|].
    destruct (dup_str_cases (x :: p')) as [-> | [-> ?]]; [by left|by right].
  - destruct Hf as (? & -> & (p' & -> & Hp & _) & o' & -> & _). rewrite bool_decide_false by done. cbn.
    destruct p' as [|x p']; [done|].
    destruct (dup_str_cases (x :: p')) as [-> | [-> ?]]; [|by right].
    destruct (dup_str_cases o') as [-> | [-> ?]]; [by left|by right].
Qed.

Lemma clone_tags_cases r ts :
  mr_tags r = [] ->
  let '(r', ok) := if (length ts =? 0)%nat then (r, true) else record_set_tags alloc r ts in
  (ok = true /\ r' = set_tags r ts) \/ (ok = false /\ oom).
Proof.
  intros Hz. destruct ts as [|t ts]; cbn [length Nat.eqb].
  { left. split; [done|]. rewrite <- Hz. by destruct r. }
  unfold record_set_tags. destruct (alloc _) eqn:Ea; cbn [negb]; [|right; split; [done|by eexists]].
  destruct (mapM_dup_cases (t :: ts)) as [-> | [-> ?]]; [by left|by right].
Qed.

Lemma clone_agent_cases (a : option (list Z)) :
  let copy := match a with
              | None => Some None
              | Some a => match dup_str alloc a with Some a' => Some (Some a') | None => None end
              end in
  copy = Some a \/ (copy = None /\ oom).
Proof.
  destruct a as [a|]; [|by left]. cbn. destruct (dup_str_cases a) as [-> | [-> ?]]; [by left|by right].
Qed.

(** The overflow guard of the embedding copy never fires on a well-formed
    record that is in memory. *)
Lemma clone_guard_cases r :
  record_wf r -> Z.of_nat (length (mr_embedding r)) * 4 <= SIZE_MAX ->
  let guard := (negb (mr_embedding_dim r =? 0) && negb (mr_vec_count r =? 0)) &&
    ((mr_vec_count r >? SIZE_MAX / 4 / mr_embedding_dim r)
     || negb (alloc (mr_vec_count r * mr_embedding_dim r * 4))) in
  guard = false \/ (guard = true /\ oom).
Proof.
  intros W Hsz. destruct (rw_emb r W) as [_ Hel], (rw_dims r W) as (Hvc & Hdim & Hz). cbn zeta.
  destruct (negb (mr_embedding_dim r =? 0) && negb (mr_vec_count r =? 0)) eqn:E; [|by left].
  zbool. assert ((mr_vec_count r >? SIZE_MAX / 4 / mr_embedding_dim r) = false) as ->.
  { rewrite Z.gtb_ltb. apply Z.ltb_ge. unfold urange in *.
    apply Z.div_le_lower_bound; [lia|]. apply Z.div_le_lower_bound; [lia|]. lia. }
  destruct (alloc (mr_vec_count r * mr_embedding_dim r * 4)) eqn:Eal; [by left|right].
  split; [done|by eexists].
Qed.

Lemma record_clone_cases r :
  record_wf r -> Z.of_nat (length (mr_embedding r)) * 4 <= SIZE_MAX ->
  record_clone alloc r = Some r \/ (record_clone alloc r = None /\ oom).
Proof.
  intros W Hsz. unfold record_clone.
  destruct (alloc SIZEOF_MemoryRecord) eqn:Ea; cbn [negb]; [|right; split; [done|by eexists]].
  destruct (clone_agent_cases (mr_agent_id r)) as [-> | [-> ?]]; [|by right].
  set (r0 := mkMemoryRecord _ _ _ _ _ _ _ _ _ _ _ _ _ _ _ _ _).
  pose proof (clone_tags_cases r0 (mr_tags r) eq_refl) as Ht.
  destruct (if (length (mr_tags r) =? 0)%nat then _ else _) as [r1 ok1].
  destruct Ht as [[-> ->]|[-> ?]]; cbn [negb]; [|by right].
  cbn zeta. pose proof (clone_fact_cases (set_tags r0 (mr_tags r)) (mr_fact r) (rw_fact r W) eq_refl) as Hf.
  destruct (if bool_decide (fa_kind (mr_fact r) = FACT_NONE) then _ else _) as [r2 ok2].
  destruct Hf as [[-> ->]|[-> ?]]; cbn [negb]; [|by right].
  set (r2 := set_fact _ _). destruct (rw_routes r W) as (Hok & Hs & Hl).
  destruct (clone_routes_cases (mr_derivation r) r2 Hok Hs Hl) as [-> | [-> ?]]; [|by right].
  destruct (clone_guard_cases r W Hsz) as [-> | [-> ?]]; [|by right].
  set (r3 := if _ && _ then _ else _).
  assert (r3 = mkMemoryRecord (mr_id r) (mr_type r) (mr_created r) (mr_updated r) (mr_importance r)
    (mr_confidence r) (mr_agent_id r) (mr_tags r) (mr_embedding r) (mr_embedding_dim r)
    (mr_vec_count r) [] (mr_fact r) (mr_derivation r) [] (mr_expires_at r) (mr_deleted r)) as ->.
  { unfold r3. destruct (rw_emb r W) as [_ Hel], (rw_dims r W) as (Hvc & Hdim & Hz).
    destruct (Z.eqb_spec (mr_embedding_dim r) 0) as [E|E]; cbn [negb andb].
    - rewrite E. assert (mr_vec_count r = 0) as Ev by lia. rewrite Ev in Hel |- *.
      assert (mr_embedding r = []) as -> by (apply nil_length_inv; lia). done.
    - destruct (Z.eqb_spec (mr_vec_count r) 0); [lia|]. cbn.
      rewrite take_ge by lia. done. }
  match goal with |- context [clone_relationships alloc ?r4 _] =>
    destruct (clone_relationships_cases (mr_relationships r) r4) as [-> | [-> ?]] end; [|by right].
  destruct (negb (length (mr_data r) =? 0)%nat && negb (alloc (Z.of_nat (length (mr_data r))))) eqn:E.
  - right. zbool. split; [done|by eexists].
  - left. by destruct r.
Qed.
End clone.

(** ** Claims *)

(** A record with every optional part, used by the witnesses. *)
Definition ex_record : MemoryRecord :=
  mkMemoryRecord 42 MEM_SEMANTIC 1000 2000 0x3F000000 F32_ONE (Some [97; 103])
    [[116; 49]; [116; 50]] [0x3F800000; 0; 0xBF800000; 0x40000000] 2 2
    [mkRelationship 1 2 (Some [107]); mkRelationship 3 4 None]
    (mkFact FACT_OBJ_STRING 7 (Some [112]) 0 (Some [111; 98]))
    [mkDerivRoute DERIV_TRANSITIVE 2 [5; 6]; mkDerivRoute DERIV_INVERSE 1 [9]]
    [1; 2; 255] 0 0.

Lemma ex_record_wf : record_wf ex_record.
Proof. apply (record_decode_range (fun _ => true) (record_bytes ex_record)); [by vm_compute|].
  apply (bool_decide_unpack (bytes_ok (record_bytes ex_record))). by vm_compute. Qed.

(** C22: Encoding a well-formed record and decoding the frame gives the record
    back, whatever bytes follow it in the buffer ([deleted] comes back as 0 or
    1); the version byte is the lowest one that can represent the record. *)
Theorem record_roundtrip r trailing :
  record_wf r -> Z.of_nat (length (record_bytes r)) < MAX_FRAME ->
  exists bs, record_encode (fun _ => true) r = Some bs /\
    record_decode (fun _ => true) (bs ++ trailing) = Some (norm_deleted r) /\
    bs !! 0%nat = Some (if has_deriv r then 5 else if has_fact r then 3 else 2).
Proof.
  intros W Hn. exists (record_bytes r). split_and!.
  - by apply record_encode_layout.
  - by apply record_decode_layout.
  - transitivity (Some (wrap 8 (codec_version r))); [done|].
    unfold codec_version. by destruct (has_deriv r), (has_fact r).
Qed.

Lemma record_roundtrip_witness :
  record_wf ex_record /\
  exists bs, record_encode (fun _ => true) ex_record = Some bs /\
    record_decode (fun _ => true) (bs ++ [1; 2; 3]) = Some (norm_deleted ex_record) /\
    bs !! 0%nat = Some 5.
Proof.
  split; [apply ex_record_wf|].
  apply (record_roundtrip ex_record [1; 2; 3]); [apply ex_record_wf|vm_compute; reflexivity].
Defined.

(** C23: Whatever bytes the decoder accepts, under whatever allocation
    failures, the record is well-formed: every count, string and weight is in
    range, the routes are sorted, distinct and at most four, a record with
    routes has a fact. When its encoding stays below 2^62 bytes, where the
    growing buffer's arithmetic cannot overflow, it can be encoded again, and
    those bytes decode to the record with its deleted byte normalised to 0 or
    1; that is the record itself unless the byte that was read is 2 or more. *)
Theorem record_decode_sound alloc buf r :
  record_decode alloc buf = Some r -> bytes_ok buf ->
  record_wf r /\
  (Z.of_nat (length (record_bytes r)) < MAX_FRAME ->
   exists bs, record_encode (fun _ => true) r = Some bs /\
     record_decode (fun _ => true) bs = Some (norm_deleted r)) /\
  (mr_deleted r < 2 -> norm_deleted r = r).
Proof.
  intros H Hb. pose proof (record_decode_range _ _ _ H Hb) as W. split; [done|]. split.
  - intros Hn. exists (record_bytes r). split; [by apply record_encode_layout|].
    rewrite <- (app_nil_r (record_bytes r)). by apply record_decode_layout.
  - intros Hd. pose proof (rw_deleted _ W) as Hr. destruct r; unfold norm_deleted; cbn in *. f_equal.
    unfold urange in Hr. destruct (Z.eqb_spec mr_deleted 0); lia.
Qed.

Lemma record_decode_sound_witness :
  record_decode (fun _ => true) (record_bytes ex_record ++ [7]) = Some ex_record /\ record_wf ex_record.
Proof.
  assert (record_decode (fun _ => true) (record_bytes ex_record ++ [7]) = Some ex_record) as E
    by (vm_compute; reflexivity).
  split; [exact E|].
  apply (proj1 (record_decode_sound (fun _ => true) _ ex_record E
    ltac:(apply (bool_decide_unpack (bytes_ok (record_bytes ex_record ++ [7]))); by vm_compute))).
Defined.

(** Cloning a well-formed record yields an equal record or, only when
    some allocation failed, nothing: never a partial copy. *)
Theorem record_clone_exact alloc r :
  record_wf r -> Z.of_nat (length (mr_embedding r)) * 4 <= SIZE_MAX ->
  record_clone alloc r = Some r \/ (record_clone alloc r = None /\ exists n, alloc n = false).
Proof. apply record_clone_cases. Qed.

Lemma record_clone_exact_witness :
  record_wf ex_record /\ record_clone (fun n => n <? 100000) ex_record = Some ex_record.
Proof.
  split; [apply ex_record_wf|].
  destruct (record_clone_exact (fun n => n <? 100000) ex_record ex_record_wf) as [E|[E _]];
    [vm_compute; congruence|exact E|vm_compute in E; discriminate E].
Defined.
