(* ===== verification/StrTable.v ===== *)
(** * Chained string tables

    The tag index and the two intern tables (edge kinds, fact predicates) hang
    nodes off a fixed array of 1024 buckets, the lexical index off 4096,
    selected by an FNV-1a hash of a NUL-terminated string; the number of
    buckets belongs to the node type ([Buckets]). Strings are lists of non-zero bytes; a chain of
    [next] pointers is a list, head first. *)

From S2P Require Import Prelude Endian.

Definition FNV_OFFSET : Z := 1469598103934665603.
Definition FNV_PRIME : Z := 1099511628211.
Definition NBUCKETS : Z := 1024.

Definition fnv_step (h c : Z) : Z := wrap 64 (Z.lxor h c * FNV_PRIME).

(** The loop [for (; *s; s++) { h ^= *s; h *= prime; }]. *)
Definition fnv1a (s : list Z) : Z := foldl fnv_step FNV_OFFSET s.

Definition hash_str (nb : Z) (s : list Z) : nat := Z.to_nat (fnv1a s mod nb).

(** The length of the bucket array of a node type. *)
Class Buckets (N : Type) := { nbuckets : Z; nbuckets_pos : 0 < nbuckets }.
#[global] Hint Mode Buckets ! : typeclass_instances.
Arguments nbuckets N {_}.
Arguments nbuckets_pos N {_}.

Section table.
Context {N : Type} `{Buckets N} (name : N -> list Z).
Implicit Types (c : list N) (T : list (list N)).

(** The bucket of a string. *)
Definition bucket_of (s : list Z) : nat := hash_str (nbuckets N) s.

Lemma bucket_of_lt s : (bucket_of s < Z.to_nat (nbuckets N))%nat.
Proof.
  unfold bucket_of, hash_str. pose proof (nbuckets_pos N). pose proof (Z.mod_pos_bound (fnv1a s) (nbuckets N)). lia.
Qed.

(** Walk a chain with [strcmp]. *)
Fixpoint chain_find c (s : list Z) : option N :=
  match c with
  | [] => None
  | n :: c' => if bool_decide (name n = s) then Some n else chain_find c' s
  end.

(** Replace the first node named [s] by [f n], or unlink it when that is
    [None]. *)
Fixpoint chain_update (f : N -> option N) c (s : list Z) : list N :=
  match c with
  | [] => []
  | n :: c' =>
      if bool_decide (name n = s) then
        match f n with Some n' => n' :: c' | None => c' end
      else n :: chain_update f c' s
  end.

Definition tbl_find T (s : list Z) : option N := chain_find (T !!! bucket_of s) s.

Definition tbl_push T (n : N) : list (list N) :=
  let b := bucket_of (name n) in <[b := n :: (T !!! b)]> T.

Definition tbl_update (f : N -> option N) T (s : list Z) : list (list N) :=
  let b := bucket_of s in <[b := chain_update f (T !!! b) s]> T.

Definition tbl_empty : list (list N) := replicate (Z.to_nat (nbuckets N)) [].

(** Every node sits in the bucket its name hashes to, once. *)
Record tbl_wf T : Prop := {
  tw_len : length T = Z.to_nat (nbuckets N);
  tw_hash : forall b c n, T !! b = Some c -> n ∈ c -> bucket_of (name n) = b;
  tw_nodup : forall b c, T !! b = Some c -> NoDup (map name c)
}.

Lemma tbl_lookup_bucket T s : tbl_wf T -> T !! bucket_of s = Some (T !!! bucket_of s).
Proof.
  intros W. apply list_lookup_lookup_total_lt. rewrite (tw_len T W). apply bucket_of_lt.
Qed.

Lemma tbl_empty_wf : tbl_wf tbl_empty.
Proof.
  split; [apply length_replicate| |].
  - intros b c n [-> _]%lookup_replicate Hn. by apply not_elem_of_nil in Hn.
  - intros b c [-> _]%lookup_replicate. constructor.
Qed.

Lemma tbl_find_empty s : tbl_find tbl_empty s = None.
Proof.
  unfold tbl_find. assert (tbl_empty !!! bucket_of s = []) as ->; [|done].
  apply list_lookup_total_correct. apply lookup_replicate. split; [done|apply bucket_of_lt].
Qed.

Lemma chain_find_Some c s n : chain_find c s = Some n -> n ∈ c /\ name n = s.
Proof.
  induction c as [|m c IH]; [done|]. simpl. case_bool_decide.
  - intros [= ->]. split; [left|done].
  - intros [? ?]%IH. split; [by right|done].
Qed.

Lemma chain_find_None c s : chain_find c s = None <-> s ∉ map name c.
Proof.
  induction c as [|m c IH]; simpl; [split; [intros _; apply not_elem_of_nil|done]|].
  rewrite not_elem_of_cons, <- IH. case_bool_decide; naive_solver.
Qed.

Lemma chain_find_elem c n :
  NoDup (map name c) -> n ∈ c -> chain_find c (name n) = Some n.
Proof.
  induction c as [|m c IH]; simpl; intros Hnd Hn; [by apply not_elem_of_nil in Hn|].
  apply NoDup_cons in Hnd as [Hm Hnd]. apply elem_of_cons in Hn as [->|Hn].
  { by rewrite bool_decide_true. }
  rewrite bool_decide_false; [by apply IH|]. intros E. apply Hm. rewrite E.
  apply list_elem_of_fmap. by exists n.
Qed.

Lemma chain_update_names f c s :
  (forall n n', f n = Some n' -> name n' = name n) ->
  sublist (map name (chain_update f c s)) (map name c).
Proof.
  intros Hf. induction c as [|m c IH]; [constructor|]. simpl. case_bool_decide as E.
  - destruct (f m) as [m'|] eqn:Em; simpl; [by rewrite (Hf m m')|by apply sublist_cons].
  - simpl. by apply sublist_skip.
Qed.

Lemma chain_find_update f c s s' :
  (forall n n', f n = Some n' -> name n' = name n) -> NoDup (map name c) ->
  chain_find (chain_update f c s) s'
  = if bool_decide (s' = s) then chain_find c s ≫= f else chain_find c s'.
Proof.
  intros Hf. induction c as [|m c IH]; simpl; intros Hnd; [by case_bool_decide|].
  apply NoDup_cons in Hnd as [Hm Hnd]. specialize (IH Hnd).
  destruct (decide (name m = s)) as [E1|E1];
    [rewrite !(bool_decide_true (name m = s)) by done
    |rewrite !(bool_decide_false (name m = s)) by done].
  - change (Some m ≫= f) with (f m). destruct (f m) as [m'|] eqn:Em; simpl.
    + rewrite (Hf m m') by done. repeat case_bool_decide; congruence || done.
    + case_bool_decide as E2; [|by rewrite bool_decide_false by congruence].
      subst. by apply chain_find_None.
  - simpl. rewrite IH. repeat case_bool_decide; congruence || done.
Qed.

Lemma chain_update_elem f c s n :
  n ∈ chain_update f c s -> n ∈ c \/ exists m, m ∈ c /\ name m = s /\ f m = Some n.
Proof.
  induction c as [|m c IH]; simpl; [by left|]. case_bool_decide.
  - destruct (f m) as [m'|] eqn:Em.
    + intros [->|Hn]%elem_of_cons; [|by left; right].
      right. exists m. split_and!; [left|done|done].
    + intros Hn. left. by right.
  - intros [->|Hn]%elem_of_cons; [by left; left|].
    destruct (IH Hn) as [?|(m' & ? & ? & ?)]; [left; by right|].
    right. exists m'. split_and!; [by right|done|done].
Qed.

(** ** Pushing a new node *)

Lemma tbl_push_wf T n : tbl_wf T -> tbl_find T (name n) = None -> tbl_wf (tbl_push T n).
Proof.
  intros W Hn. unfold tbl_push. cbn zeta. split.
  - rewrite length_insert. apply W.
  - intros b c m Hb Hm. destruct (decide (b = bucket_of (name n))) as [->|].
    + rewrite list_lookup_insert_eq in Hb
        by (rewrite (tw_len T W); apply bucket_of_lt).
      apply (inj Some) in Hb. subst c. apply elem_of_cons in Hm as [->|Hm]; [done|].
      eapply (tw_hash T W); [by apply tbl_lookup_bucket|done].
    + rewrite list_lookup_insert_ne in Hb by done. by eapply (tw_hash T W).
  - intros b c Hb. destruct (decide (b = bucket_of (name n))) as [->|].
    + rewrite list_lookup_insert_eq in Hb by (rewrite (tw_len T W); apply bucket_of_lt).
      apply (inj Some) in Hb. subst c. simpl. constructor.
      * by apply chain_find_None.
      * eapply (tw_nodup T W). by apply tbl_lookup_bucket.
    + rewrite list_lookup_insert_ne in Hb by done. by eapply (tw_nodup T W).
Qed.

Lemma bucket_insert T b b' c :
  (b < length T)%nat ->
  (<[b := c]> T) !!! b' = if bool_decide (b' = b) then c else T !!! b'.
Proof.
  intros. case_bool_decide as E.
  - subst. by apply list_lookup_total_insert_eq.
  - by apply list_lookup_total_insert_ne.
Qed.

Lemma tbl_find_push T n s :
  tbl_wf T -> tbl_find (tbl_push T n) s = if bool_decide (s = name n) then Some n else tbl_find T s.
Proof.
  intros W. unfold tbl_find, tbl_push. cbn zeta.
  rewrite bucket_insert by (rewrite (tw_len T W); apply bucket_of_lt).
  case_bool_decide as E1; case_bool_decide as E2; subst; simpl.
  - by rewrite bool_decide_true.
  - rewrite bool_decide_false by congruence. by rewrite E1.
  - done.
  - done.
Qed.

(** ** Updating or unlinking the node of a name *)

Lemma tbl_update_wf f T s :
  (forall n n', f n = Some n' -> name n' = name n) -> tbl_wf T -> tbl_wf (tbl_update f T s).
Proof.
  intros Hf W. unfold tbl_update. cbn zeta. split.
  - rewrite length_insert. apply W.
  - intros b c m Hb Hm. destruct (decide (b = bucket_of s)) as [->|].
    + rewrite list_lookup_insert_eq in Hb by (rewrite (tw_len T W); apply bucket_of_lt).
      apply (inj Some) in Hb. subst c. apply chain_update_elem in Hm as [Hm|(m' & Hm & _ & Em)].
      * eapply (tw_hash T W); [by apply tbl_lookup_bucket|done].
      * rewrite (Hf _ _ Em). eapply (tw_hash T W); [by apply tbl_lookup_bucket|done].
    + rewrite list_lookup_insert_ne in Hb by done. by eapply (tw_hash T W).
  - intros b c Hb. destruct (decide (b = bucket_of s)) as [->|].
    + rewrite list_lookup_insert_eq in Hb by (rewrite (tw_len T W); apply bucket_of_lt).
      apply (inj Some) in Hb. subst c.
      assert (NoDup (map name (T !!! bucket_of s))) as Hnd
        by (eapply (tw_nodup T W); by apply tbl_lookup_bucket).
      eapply sublist_NoDup; [|by apply chain_update_names]. done.
    + rewrite list_lookup_insert_ne in Hb by done. by eapply (tw_nodup T W).
Qed.

Lemma tbl_find_update f T s s' :
  (forall n n', f n = Some n' -> name n' = name n) -> tbl_wf T ->
  tbl_find (tbl_update f T s) s'
  = if bool_decide (s' = s) then tbl_find T s ≫= f else tbl_find T s'.
Proof.
  intros Hf W. unfold tbl_find, tbl_update. cbn zeta.
  rewrite bucket_insert by (rewrite (tw_len T W); apply bucket_of_lt).
  assert (NoDup (map name (T !!! bucket_of s))) as Hnd
    by (eapply (tw_nodup T W); by apply tbl_lookup_bucket).
  case_bool_decide as E1.
  - rewrite chain_find_update by done. rewrite <- E1. done.
  - rewrite bool_decide_false by congruence. done.
Qed.

(** ** All nodes of the table *)

Definition tbl_nodes T : list N := concat T.

Lemma elem_of_tbl_nodes T n :
  tbl_wf T -> n ∈ tbl_nodes T <-> tbl_find T (name n) = Some n.
Proof.
  intros W. unfold tbl_nodes. rewrite list_elem_of_In, in_concat. split.
  - intros (c & Hc & Hn). rewrite <- list_elem_of_In in Hc. rewrite <- list_elem_of_In in Hn.
    apply list_elem_of_lookup in Hc as [b Hb].
    pose proof (tw_hash T W b c n Hb Hn) as Eh. unfold tbl_find. rewrite Eh.
    rewrite (list_lookup_total_correct _ _ _ Hb).
    apply chain_find_elem; [|done]. by eapply (tw_nodup T W).
  - intros Hf. apply chain_find_Some in Hf as [Hn _].
    exists (T !!! bucket_of (name n)). rewrite <- !list_elem_of_In. split; [|done].
    eapply list_elem_of_lookup_2. by apply tbl_lookup_bucket.
Qed.

Lemma tbl_names_nodup T : tbl_wf T -> NoDup (map name (tbl_nodes T)).
Proof.
  intros W. unfold tbl_nodes.
  assert (forall k (L : list (list N)),
    (forall b c n, L !! b = Some c -> n ∈ c -> bucket_of (name n) = (k + b)%nat) ->
    (forall b c, L !! b = Some c -> NoDup (map name c)) ->
    NoDup (map name (concat L)) /\
    forall n, n ∈ concat L -> (k <= bucket_of (name n))%nat) as Hgen.
  { intros k L. revert k. induction L as [|c L IH]; intros k Hh Hn; simpl.
    { split; [constructor|]. intros n Hn'. by apply not_elem_of_nil in Hn'. }
    destruct (IH (S k)) as [IH1 IH2].
    - intros b c' n Hb Hc. rewrite (Hh (S b) c' n); [lia|done|done].
    - intros b c' Hb. apply (Hn (S b)). done.
    - split.
      + rewrite map_app. apply NoDup_app. split_and!; [by apply (Hn 0%nat)| |done].
        intros x Hx Hx'. apply list_elem_of_fmap in Hx as (n & -> & Hx).
        apply list_elem_of_fmap in Hx' as (m & Em & Hm).
        specialize (IH2 m Hm). rewrite <- Em, (Hh 0%nat c n) in IH2 by done. lia.
      + intros n [Hc|Hc]%elem_of_app; [rewrite (Hh 0%nat c n) by done; lia|].
        specialize (IH2 n Hc). lia. }
  apply (Hgen 0%nat T); [apply W|apply W].
Qed.
End table.
