(* ===== verification/ProbeTable.v ===== *)
(** * Open-addressed tables with tombstones

    The usage, edge and fact indexes each keep a table of the same shape: slots
    in state EMPTY, LIVE or DEAD, power-of-two capacity, linear probing from
    [mix64 (key) & mask], a first DEAD slot remembered for reuse, and a rehash
    that drops the DEAD slots when the table would become three quarters full.
    This file states that idiom once, for any slot type with a state and a key
    ([ProbeSlot]), and proves that lookup obeys the laws of a finite map. The
    indexes instantiate it with their own slots. *)

From S2P Require Import Prelude Endian.

Inductive SlotState := SLOT_EMPTY | SLOT_LIVE | SLOT_DEAD.
#[global] Instance SlotState_eq_dec : EqDecision SlotState.
Proof. solve_decision. Defined.

Class ProbeSlot (S K : Type) := {
  slot_state : S -> SlotState;
  slot_key : S -> K;
  key_hash : K -> Z;              (* the integer given to mix64 *)
  zero_slot : S;                  (* what calloc yields *)
  zero_slot_empty : slot_state zero_slot = SLOT_EMPTY
}.

Record PTable (S : Type) := mkPTable {
  pt_slots : list S;
  pt_cap : nat;
  pt_live : nat;
  pt_used : nat
}.
Arguments mkPTable {S}.
Arguments pt_slots {S}.
Arguments pt_cap {S}.
Arguments pt_live {S}.
Arguments pt_used {S}.

Definition pt_empty {S} : PTable S := mkPTable [] 0 0 0.

Section probe.
Context {S K : Type} `{ProbeSlot S K} `{EqDecision K}.
Implicit Types (ss : list S) (k : K) (t : PTable S).

Definition slot_at ss (j : nat) : S := default zero_slot (ss !! j).

(** [(i + probe) & mask] with [i = mix64 (key) & mask]. *)
Definition probe_pos (cap : nat) k (probe : nat) : nat :=
  let mask := Z.of_nat cap - 1 in
  Z.to_nat (Z.land (Z.land (mix64 (key_hash k)) mask + Z.of_nat probe) mask).

(** The search loop: [n] probes remain, starting at [probe]. *)
Fixpoint find_loop (n probe : nat) ss (cap : nat) k : option nat :=
  match n with
  | O => None
  | Datatypes.S n' =>
      let j := probe_pos cap k probe in
      match slot_state (slot_at ss j) with
      | SLOT_EMPTY => None
      | SLOT_LIVE =>
          if decide (slot_key (slot_at ss j) = k) then Some j
          else find_loop n' (Datatypes.S probe) ss cap k
      | SLOT_DEAD => find_loop n' (Datatypes.S probe) ss cap k
      end
  end.

Definition pt_find t k : option nat :=
  if (pt_cap t =? 0)%nat then None
  else find_loop (pt_cap t) 0 (pt_slots t) (pt_cap t) k.

(** The insertion loop: [inl j] is the live slot of [k], [inr j] the slot to
    claim for it (the first tombstone passed, or the empty slot that ends the
    chain). *)
Fixpoint put_loop (n probe : nat) (reuse : option nat) ss (cap : nat) k
  : option (nat + nat) :=
  match n with
  | O => None
  | Datatypes.S n' =>
      let j := probe_pos cap k probe in
      match slot_state (slot_at ss j) with
      | SLOT_LIVE =>
          if decide (slot_key (slot_at ss j) = k) then Some (inl j)
          else put_loop n' (Datatypes.S probe) reuse ss cap k
      | SLOT_DEAD =>
          put_loop n' (Datatypes.S probe) (Some (default j reuse)) ss cap k
      | SLOT_EMPTY => Some (inr (default j reuse))
      end
  end.

(** [while (ns[j].state == LIVE) j = (j + 1) & mask;] *)
Fixpoint place_loop (n probe : nat) ss (cap : nat) k : option nat :=
  match n with
  | O => None
  | Datatypes.S n' =>
      let j := probe_pos cap k probe in
      match slot_state (slot_at ss j) with
      | SLOT_LIVE => place_loop n' (Datatypes.S probe) ss cap k
      | _ => Some j
      end
  end.

Definition grow_step (ncap : nat) (ns : list S) (old : S) : list S :=
  match slot_state old with
  | SLOT_LIVE =>
      match place_loop ncap 0 ns ncap (slot_key old) with
      | Some j => <[j := old]> ns
      | None => ns
      end
  | _ => ns
  end.

(** [ok]: the new array is allocated; [cap0]: the first capacity. *)
Definition pt_grow (cap0 : nat) (ok : bool) t : option (PTable S) :=
  let ncap := if (pt_cap t =? 0)%nat then cap0 else (pt_cap t * 2)%nat in
  if ok then
    Some (mkPTable (foldl (grow_step ncap) (replicate ncap zero_slot) (pt_slots t))
            ncap (pt_live t) (pt_live t))
  else None.

(** The load test before an insertion. *)
Definition pt_needs_grow t : bool :=
  (pt_cap t =? 0)%nat || (pt_cap t * 3 <=? (pt_used t + 1) * 4)%nat.

(** The slot of [k], claimed as [fresh] when absent. *)
Definition pt_put (cap0 : nat) (ok : bool) t k (fresh : S) : option (PTable S * nat) :=
  match (if pt_needs_grow t then pt_grow cap0 ok t else Some t) with
  | None => None
  | Some t =>
      match put_loop (pt_cap t) 0 None (pt_slots t) (pt_cap t) k with
      | None => None
      | Some (inl j) => Some (t, j)
      | Some (inr j) =>
          let used :=
            match slot_state (slot_at (pt_slots t) j) with
            | SLOT_EMPTY => Datatypes.S (pt_used t)
            | _ => pt_used t
            end in
          Some (mkPTable (<[j := fresh]> (pt_slots t)) (pt_cap t)
                  (Datatypes.S (pt_live t)) used, j)
      end
  end.

(** Write a slot in place (the effect of mutating through its pointer). *)
Definition pt_set t (j : nat) (s : S) : PTable S :=
  mkPTable (<[j := s]> (pt_slots t)) (pt_cap t) (pt_live t) (pt_used t).

(** Turn a slot into a tombstone. *)
Definition pt_retire t (j : nat) (dead : S) : PTable S :=
  mkPTable (<[j := dead]> (pt_slots t)) (pt_cap t) (pt_live t - 1) (pt_used t).

(** ** Invariant *)

Definition is_live (s : S) : Prop := slot_state s = SLOT_LIVE.
Definition is_used (s : S) : Prop := slot_state s <> SLOT_EMPTY.

#[global] Instance is_live_dec s : Decision (is_live s).
Proof. unfold is_live. apply _. Defined.
#[global] Instance is_used_dec s : Decision (is_used s).
Proof. unfold is_used. apply _. Defined.

Definition count_live ss : nat := length (filter is_live ss).
Definition count_used ss : nat := length (filter is_used ss).

(** The chain from [k]'s home position up to probe [d] has no empty slot. *)
Definition chain_used ss (cap : nat) k (d : nat) : Prop :=
  forall d', (d' < d)%nat -> is_used (slot_at ss (probe_pos cap k d')).

Definition live_at ss (j : nat) k : Prop :=
  exists s, ss !! j = Some s /\ is_live s /\ slot_key s = k.

Record slots_wf ss (cap : nat) : Prop := {
  sw_pow : exists e, cap = (2 ^ e)%nat;
  sw_len : length ss = cap;
  sw_probed : forall j k, live_at ss j k ->
    exists d, (d < cap)%nat /\ probe_pos cap k d = j /\ chain_used ss cap k d;
  sw_unique : forall i j k, live_at ss i k -> live_at ss j k -> i = j
}.

Record pt_wf t : Prop := {
  pw_slots : pt_cap t = 0%nat /\ pt_slots t = [] \/ slots_wf (pt_slots t) (pt_cap t);
  pw_live : pt_live t = count_live (pt_slots t);
  pw_used : pt_used t = count_used (pt_slots t);
  pw_load : pt_cap t = 0%nat \/ (pt_used t < pt_cap t)%nat
}.

(** One more slot can be claimed and an empty one is left. *)
Definition pt_room t : Prop := (pt_used t + 1 < pt_cap t)%nat.

Lemma needs_grow_room t : pt_needs_grow t = false -> pt_room t.
Proof. unfold pt_needs_grow, pt_room. intros. zbool. lia. Qed.

(** ** Positions *)

Lemma probe_pos_mod cap k d :
  (exists e, cap = (2 ^ e)%nat) ->
  probe_pos cap k d = Z.to_nat ((mix64 (key_hash k) + Z.of_nat d) mod Z.of_nat cap).
Proof.
  intros [e ->]. unfold probe_pos. cbn zeta.
  rewrite Nat2Z.inj_pow. change (Z.of_nat 2) with 2.
  replace (2 ^ Z.of_nat e - 1) with (Z.ones (Z.of_nat e)) by (rewrite Z.ones_equiv; lia).
  rewrite !Z.land_ones by lia. by rewrite Zplus_mod_idemp_l.
Qed.

Lemma probe_pos_lt cap k d : (exists e, cap = (2 ^ e)%nat) -> (probe_pos cap k d < cap)%nat.
Proof.
  intros He. rewrite probe_pos_mod by done. destruct He as [e ->].
  assert (0 < 2 ^ e)%nat by (apply Nat.neq_0_lt_0, Nat.pow_nonzero; lia).
  pose proof (Z.mod_pos_bound (mix64 (key_hash k) + Z.of_nat d) (Z.of_nat (2 ^ e))). lia.
Qed.

Lemma probe_pos_surj cap k j :
  (exists e, cap = (2 ^ e)%nat) -> (j < cap)%nat ->
  exists d, (d < cap)%nat /\ probe_pos cap k d = j.
Proof.
  intros He Hj. set (h := mix64 (key_hash k)). set (c := Z.of_nat cap).
  assert (0 < c) by lia. pose proof (Z.mod_pos_bound (Z.of_nat j - h) c ltac:(done)).
  exists (Z.to_nat ((Z.of_nat j - h) mod c)). split; [lia|].
  rewrite probe_pos_mod by done. fold h c. rewrite Z2Nat.id by lia.
  rewrite Zplus_mod_idemp_r. replace (h + (Z.of_nat j - h)) with (Z.of_nat j) by lia.
  rewrite Z.mod_small by lia. lia.
Qed.

Lemma slot_at_lookup ss j s : ss !! j = Some s -> slot_at ss j = s.
Proof. unfold slot_at. by intros ->. Qed.

Lemma slot_at_live ss j k :
  slot_state (slot_at ss j) = SLOT_LIVE -> slot_key (slot_at ss j) = k -> live_at ss j k.
Proof.
  unfold slot_at, live_at, is_live. destruct (ss !! j) as [s|]; simpl; [eauto|].
  rewrite zero_slot_empty. done.
Qed.

Lemma live_at_slot ss j k :
  live_at ss j k -> slot_state (slot_at ss j) = SLOT_LIVE /\ slot_key (slot_at ss j) = k.
Proof. intros (s & E & Hl & Hk). by rewrite (slot_at_lookup _ _ _ E). Qed.

Lemma slot_at_insert ss i j s :
  (i < length ss)%nat -> slot_at (<[i := s]> ss) j = if decide (j = i) then s else slot_at ss j.
Proof.
  intros. unfold slot_at. destruct (decide (j = i)) as [->|].
  - by rewrite list_lookup_insert_eq.
  - by rewrite list_lookup_insert_ne.
Qed.

(** ** Search *)

Lemma find_loop_sound n probe ss cap k j :
  find_loop n probe ss cap k = Some j -> live_at ss j k.
Proof.
  revert probe. induction n as [|n IH]; intros probe; [done|]. simpl.
  destruct (slot_state _) eqn:Es; [done| |apply IH].
  destruct (decide _) as [Ek|]; [|apply IH]. intros [= <-]. by apply slot_at_live.
Qed.

Lemma find_loop_complete n probe ss cap k j d :
  (forall i, live_at ss i k -> i = j) -> live_at ss j k ->
  (probe <= d < probe + n)%nat -> probe_pos cap k d = j -> chain_used ss cap k d ->
  find_loop n probe ss cap k = Some j.
Proof.
  intros Hu Hj Hd Hp Hc. revert probe Hd. induction n as [|n IH]; intros probe Hd; [lia|].
  simpl. destruct (decide (probe = d)) as [->|Hne].
  { rewrite Hp. destruct (live_at_slot _ _ _ Hj) as [-> ->]. by rewrite decide_True. }
  assert (is_used (slot_at ss (probe_pos cap k probe))) as Hus by (apply Hc; lia).
  unfold is_used in Hus. destruct (slot_state _) eqn:Es; [done| |apply IH; lia].
  destruct (decide _) as [Ek|]; [|apply IH; lia]. f_equal. apply Hu. by apply slot_at_live.
Qed.

Lemma pt_find_spec t k j : pt_wf t -> pt_find t k = Some j <-> live_at (pt_slots t) j k.
Proof.
  intros W. unfold pt_find. destruct (Nat.eqb_spec (pt_cap t) 0) as [E0|E0].
  { split; [done|]. intros (s & Hs & _). destruct (pw_slots t W) as [[_ E]|W'].
    - rewrite E in Hs. done.
    - apply lookup_lt_Some in Hs. rewrite (sw_len _ _ W') in Hs. lia. }
  destruct (pw_slots t W) as [[E _]|W']; [done|]. split; [apply find_loop_sound|].
  intros Hj. destruct (sw_probed _ _ W' j k Hj) as (d & Hd & Hp & Hc).
  apply (find_loop_complete _ _ _ _ _ _ d); auto; [|lia].
  intros i Hi. by apply (sw_unique _ _ W' i j k).
Qed.

Lemma pt_find_None t k :
  pt_wf t -> pt_find t k = None <-> (forall j, ~ live_at (pt_slots t) j k).
Proof.
  intros W. split.
  - intros E j Hj. apply (pt_find_spec t k j W) in Hj. congruence.
  - intros Hn. destruct (pt_find t k) as [j|] eqn:E; [|done].
    apply pt_find_spec in E; [|done]. by apply Hn in E.
Qed.

(** ** Counting *)

Lemma length_filter_insert (P : S -> Prop) `{forall s, Decision (P s)} ss j s0 s :
  ss !! j = Some s0 ->
  (length (filter P (<[j := s]> ss)) + (if decide (P s0) then 1 else 0)
   = length (filter P ss) + (if decide (P s) then 1 else 0))%nat.
Proof.
  intros Hj. pose proof (lookup_lt_Some _ _ _ Hj).
  rewrite insert_take_drop by done.
  rewrite <- (take_drop_middle ss j s0 Hj) at 3.
  rewrite !filter_app, !filter_cons, !length_app.
  repeat destruct (decide _); simpl; lia.
Qed.

Lemma count_used_full ss : (forall j, (j < length ss)%nat -> is_used (slot_at ss j)) ->
  count_used ss = length ss.
Proof.
  intros Hall. unfold count_used. rewrite filter_all; [done|].
  apply Forall_lookup. intros j s Hj. rewrite <- (slot_at_lookup _ _ _ Hj). apply Hall.
  by eapply lookup_lt_Some.
Qed.

Lemma exists_empty ss cap :
  slots_wf ss cap -> (count_used ss < cap)%nat ->
  exists j, (j < cap)%nat /\ slot_state (slot_at ss j) = SLOT_EMPTY.
Proof.
  intros W Hc. destruct (decide (Exists (fun s => ~ is_used s) ss)) as [He|Hne].
  - apply Exists_exists in He as (s & Hs & Hus). apply list_elem_of_lookup in Hs as [j Hj].
    exists j. rewrite (slot_at_lookup _ _ _ Hj), <- (sw_len _ _ W).
    split; [by eapply lookup_lt_Some|]. unfold is_used in Hus. by apply dec_stable.
  - exfalso. apply not_Exists_Forall in Hne; [|apply _].
    rewrite count_used_full in Hc; [by rewrite (sw_len _ _ W) in Hc; lia|].
    intros j Hj. apply lookup_lt_is_Some in Hj as [s Hs].
    rewrite (slot_at_lookup _ _ _ Hs). rewrite Forall_lookup in Hne.
    specialize (Hne j s Hs). unfold is_used in *. intros E. apply Hne. by intros ?.
Qed.

(** ** The insertion loops *)

(** With an empty slot ahead and [k] not live, the loop claims a slot on
    [k]'s chain that is not live. *)
Lemma put_loop_claim n probe reuse ss cap k d :
  (forall j, ~ live_at ss j k) ->
  (forall j, reuse = Some j -> exists d0, (d0 < probe)%nat /\ probe_pos cap k d0 = j /\
     slot_state (slot_at ss j) = SLOT_DEAD) ->
  chain_used ss cap k probe ->
  (probe <= d < probe + n)%nat -> slot_state (slot_at ss (probe_pos cap k d)) = SLOT_EMPTY ->
  exists j d', put_loop n probe reuse ss cap k = Some (inr j) /\
    (d' <= d)%nat /\ probe_pos cap k d' = j /\ chain_used ss cap k d' /\
    slot_state (slot_at ss j) <> SLOT_LIVE.
Proof.
  intros Hk Hr Hc Hd He. revert probe reuse Hr Hc Hd.
  induction n as [|n IH]; intros probe reuse Hr Hc Hd; [lia|]. simpl.
  set (j := probe_pos cap k probe).
  assert (slot_state (slot_at ss j) <> SLOT_EMPTY -> chain_used ss cap k (Datatypes.S probe)) as Hc'.
  { intros Hne d' Hd'. destruct (decide (d' = probe)) as [->|]; [done|apply Hc; lia]. }
  destruct (slot_state (slot_at ss j)) eqn:Es.
  - destruct reuse as [r|]; simpl.
    + destruct (Hr r eq_refl) as (d0 & Hd0 & Hp0 & Hs0). exists r, d0.
      split_and!; [done|lia|done| |congruence].
      intros d' Hd'. apply Hc. lia.
    + exists j, probe. split_and!; [done|lia|done|done|congruence].
  - rewrite decide_False; [|intros Ek; apply (Hk j); by apply slot_at_live].
    destruct (decide (probe = d)) as [->|]; [fold j in He; congruence|].
    apply IH; [|by apply Hc'|lia].
    intros r Hr'. destruct (Hr r Hr') as (d0 & ? & ? & ?). exists d0. split_and!; [lia|done|done].
  - destruct (decide (probe = d)) as [->|]; [fold j in He; congruence|].
    apply IH; [|by apply Hc'|lia].
    intros r [= <-]. destruct reuse as [r|]; simpl.
    + destruct (Hr r eq_refl) as (d0 & ? & ? & ?). exists d0. split_and!; [lia|done|done].
    + exists probe. split_and!; [lia|done|done].
Qed.

Lemma put_loop_found n probe reuse ss cap k j d :
  (forall i, live_at ss i k -> i = j) -> live_at ss j k ->
  (probe <= d < probe + n)%nat -> probe_pos cap k d = j -> chain_used ss cap k d ->
  put_loop n probe reuse ss cap k = Some (inl j).
Proof.
  intros Hu Hj Hd Hp Hc. revert probe reuse Hd.
  induction n as [|n IH]; intros probe reuse Hd; [lia|].
  simpl. destruct (decide (probe = d)) as [->|Hne].
  { rewrite Hp. destruct (live_at_slot _ _ _ Hj) as [-> ->]. by rewrite decide_True. }
  assert (is_used (slot_at ss (probe_pos cap k probe))) as Hus by (apply Hc; lia).
  unfold is_used in Hus. destruct (slot_state _) eqn:Es; [done| |apply IH; lia].
  destruct (decide _) as [Ek|]; [|apply IH; lia]. do 2 f_equal. apply Hu. by apply slot_at_live.
Qed.

Lemma place_loop_put n probe ss cap k :
  (forall j, ~ live_at ss j k) -> (forall j, slot_state (slot_at ss j) <> SLOT_DEAD) ->
  place_loop n probe ss cap k
  = match put_loop n probe None ss cap k with Some (inr j) => Some j | _ => None end.
Proof.
  intros Hk Hd. revert probe. induction n as [|n IH]; intros probe; [done|]. simpl.
  destruct (slot_state _) eqn:Es; [done| |by apply Hd in Es].
  rewrite decide_False; [apply IH|]. intros Ek.
  by apply (Hk (probe_pos cap k probe)), slot_at_live.
Qed.

(** ** Writing a slot *)

Lemma live_at_insert ss i s j k :
  (i < length ss)%nat ->
  live_at (<[i := s]> ss) j k <->
  (j = i /\ is_live s /\ slot_key s = k) \/ (j <> i /\ live_at ss j k).
Proof.
  intros Hi. unfold live_at. destruct (decide (j = i)) as [->|Hne].
  - rewrite list_lookup_insert_eq by done. split.
    + intros (s' & [= <-] & ? & ?). left. done.
    + intros [(_ & ? & ?)|[? _]]; [|done]. by exists s.
  - rewrite list_lookup_insert_ne by done. naive_solver.
Qed.

Lemma chain_used_insert ss i s cap k d :
  (i < length ss)%nat -> is_used s -> chain_used ss cap k d -> chain_used (<[i := s]> ss) cap k d.
Proof.
  intros Hi Hs Hc d' Hd'. rewrite slot_at_insert by done. case_decide; [done|by apply Hc].
Qed.

(** A slot on [k]'s chain becomes the live slot of [k]. *)
Lemma slots_wf_claim ss cap k i s d :
  slots_wf ss cap -> (forall j, ~ live_at ss j k) -> is_live s -> slot_key s = k ->
  (d < cap)%nat -> probe_pos cap k d = i -> chain_used ss cap k d ->
  slots_wf (<[i := s]> ss) cap.
Proof.
  intros W Hk Hl Hsk Hd Hp Hc.
  assert (i < length ss)%nat as Hi.
  { rewrite (sw_len _ _ W), <- Hp. apply probe_pos_lt, W. }
  assert (is_used s) as Hu by (unfold is_used; rewrite Hl; done).
  split.
  - apply W.
  - rewrite length_insert. apply W.
  - intros j k'. rewrite live_at_insert by done. intros [(-> & _ & <-)|[Hne Hj]].
    + exists d. subst k. split_and!; [done|done|by apply chain_used_insert].
    + destruct (sw_probed _ _ W j k' Hj) as (d' & ? & ? & ?).
      exists d'. split_and!; [done|done|by apply chain_used_insert].
  - intros a b k'. rewrite !live_at_insert by done.
    intros [(-> & _ & Ea)|[? Ha]] [(-> & _ & Eb)|[? Hb]].
    + done.
    + exfalso. apply (Hk b). congruence.
    + exfalso. apply (Hk a). congruence.
    + by apply (sw_unique _ _ W a b k').
Qed.

(** A live slot is rewritten (same key) or becomes a tombstone. *)
Lemma slots_wf_rewrite ss cap k i s :
  slots_wf ss cap -> live_at ss i k -> is_used s -> (is_live s -> slot_key s = k) ->
  slots_wf (<[i := s]> ss) cap.
Proof.
  intros W Hi Hu Hk.
  assert (i < length ss)%nat as Hlt by (destruct Hi as (? & ? & _); by eapply lookup_lt_Some).
  split.
  - apply W.
  - rewrite length_insert. apply W.
  - intros j k'. rewrite live_at_insert by done. intros [(-> & Hl & <-)|[Hne Hj]].
    + destruct (sw_probed _ _ W i k Hi) as (d' & ? & ? & ?). rewrite (Hk Hl).
      exists d'. split_and!; [done|done|by apply chain_used_insert].
    + destruct (sw_probed _ _ W j k' Hj) as (d' & ? & ? & ?).
      exists d'. split_and!; [done|done|by apply chain_used_insert].
  - intros a b k'. rewrite !live_at_insert by done.
    intros [(-> & Hl & Ea)|[? Ha]] [(-> & Hl' & Eb)|[? Hb]].
    + done.
    + apply (sw_unique _ _ W i b k'); [|done]. rewrite <- Ea, Hk; done.
    + apply (sw_unique _ _ W a i k'); [done|]. rewrite <- Eb, Hk; done.
    + by apply (sw_unique _ _ W a b k').
Qed.

(** ** The table as a finite map *)

(** The live slot of a key. *)
Definition pt_get t k : option S := pt_find t k ≫= fun j => pt_slots t !! j.

Definition holds ss k s : Prop := exists j, ss !! j = Some s /\ is_live s /\ slot_key s = k.

Lemma pt_get_spec t k s : pt_wf t -> pt_get t k = Some s <-> holds (pt_slots t) k s.
Proof.
  intros W. unfold pt_get, holds. rewrite bind_Some. split.
  - intros (j & Hf & Hj). apply pt_find_spec in Hf as (s' & Hj' & ? & ?); [|done].
    assert (s' = s) as -> by congruence. by exists j.
  - intros (j & Hj & Hl & Hk). exists j. split; [|done].
    apply pt_find_spec; [done|]. by exists s.
Qed.

Lemma pt_get_None t k : pt_wf t -> pt_get t k = None <-> pt_find t k = None.
Proof.
  intros W. unfold pt_get. destruct (pt_find t k) as [j|] eqn:E; [|done].
  apply pt_find_spec in E as (s & Hs & _); [|done]. cbn. by rewrite Hs.
Qed.

Lemma pt_get_ext t t' :
  pt_wf t -> pt_wf t' ->
  (forall k s, holds (pt_slots t) k s <-> holds (pt_slots t') k s) ->
  forall k, pt_get t k = pt_get t' k.
Proof.
  intros W W' Hh k. apply option_eq. intros s. by rewrite !pt_get_spec.
Qed.

Lemma pt_empty_wf : pt_wf (pt_empty (S := S)).
Proof. split; [by left|done|done|by left]. Qed.

Lemma pt_get_empty k : pt_get pt_empty k = None.
Proof. done. Qed.

(** *** Growth *)

Lemma replicate_slot_at n j : slot_at (replicate n zero_slot) j = zero_slot.
Proof.
  unfold slot_at. destruct (replicate n zero_slot !! j) as [s|] eqn:E; [|done].
  by apply lookup_replicate in E as [-> _].
Qed.

Lemma replicate_no_live n j k : ~ live_at (replicate n zero_slot) j k.
Proof.
  intros (s & [-> _]%lookup_replicate & Hl & _). unfold is_live in Hl.
  by rewrite zero_slot_empty in Hl.
Qed.

Lemma replicate_slots_wf e :
  slots_wf (replicate (2 ^ e) zero_slot) (2 ^ e).
Proof.
  split; [by exists e|apply length_replicate| |].
  - intros j k Hj. by apply replicate_no_live in Hj.
  - intros i j k Hi. by apply replicate_no_live in Hi.
Qed.

Lemma replicate_count_used n : count_used (replicate n zero_slot) = 0%nat.
Proof.
  unfold count_used. rewrite filter_none; [done|]. apply Forall_replicate.
  unfold is_used. rewrite zero_slot_empty. by intros ?.
Qed.

(** State of the rehash after the slots [done] have been moved. *)
Record rehashed (done ns : list S) (ncap : nat) : Prop := {
  rh_wf : slots_wf ns ncap;
  rh_nodead : forall j, slot_state (slot_at ns j) <> SLOT_DEAD;
  rh_count : count_used ns = count_live done;
  rh_holds : forall k s, holds ns k s <-> holds done k s
}.

Lemma holds_snoc l s0 k s :
  holds (l ++ [s0]) k s <-> holds l k s \/ (s = s0 /\ is_live s0 /\ slot_key s0 = k).
Proof.
  unfold holds. split.
  - intros (j & [Hj|(Hge & Hj)]%lookup_app_Some & Hl & Hk).
    + left. by exists j.
    + right. apply list_lookup_singleton_Some in Hj as [_ <-]. done.
  - intros [(j & Hj & ? & ?)|(-> & ? & ?)].
    + exists j. split; [|done]. by apply lookup_app_l_Some.
    + exists (length l). rewrite lookup_app_r, Nat.sub_diag by lia. done.
Qed.

Lemma holds_insert ss i s0 s1 k s :
  ss !! i = Some s0 -> ~ is_live s0 ->
  holds (<[i := s1]> ss) k s <-> holds ss k s \/ (s = s1 /\ is_live s1 /\ slot_key s1 = k).
Proof.
  intros Hi Hnl. pose proof (lookup_lt_Some _ _ _ Hi). unfold holds. split.
  - intros (j & Hj & Hl & Hk). destruct (decide (j = i)) as [->|].
    + rewrite list_lookup_insert_eq in Hj by done. right. naive_solver.
    + rewrite list_lookup_insert_ne in Hj by done. left. by exists j.
  - intros [(j & Hj & ? & ?)|(-> & ? & ?)].
    + exists j. rewrite list_lookup_insert_ne; [done|]. intros <-. naive_solver.
    + exists i. by rewrite list_lookup_insert_eq.
Qed.

Lemma grow_step_rehashed done ns ncap old :
  rehashed done ns ncap -> (count_live done < ncap)%nat ->
  (is_live old -> forall s, holds done (slot_key old) s -> False) ->
  rehashed (done ++ [old]) (grow_step ncap ns old) ncap.
Proof.
  intros R Hc Hfresh. unfold grow_step.
  assert (count_live (done ++ [old])
    = (count_live done + if decide (is_live old) then 1 else 0)%nat) as Hcl.
  { unfold count_live. rewrite filter_app, length_app, filter_cons, filter_nil.
    by case_decide. }
  destruct (decide (is_live old)) as [Hl|Hnl].
  2:{ assert (match slot_state old with SLOT_LIVE => True | _ => False end -> False) as Hs.
      { unfold is_live in Hnl. destruct (slot_state old); congruence || done. }
      assert (rehashed (done ++ [old]) ns ncap) as R'.
      { split; [apply R|apply R| |].
        - rewrite Hcl, (rh_count _ _ _ R). lia.
        - intros k s. rewrite holds_snoc, (rh_holds _ _ _ R). naive_solver. }
      destruct (slot_state old); [done|by exfalso; apply Hs|done]. }
  assert (forall j, ~ live_at ns j (slot_key old)) as Hk.
  { intros j (s & Hs & Hls & Hks). apply (Hfresh Hl s), (rh_holds _ _ _ R). by exists j. }
  destruct (exists_empty ns ncap) as (je & Hje & Hee); [apply R|by rewrite (rh_count _ _ _ R)|].
  destruct (probe_pos_surj ncap (slot_key old) je (sw_pow _ _ (rh_wf _ _ _ R)) Hje)
    as (d & Hd & Hpd).
  destruct (put_loop_claim ncap 0 None ns ncap (slot_key old) d)
    as (j & d' & Ep & Hd' & Hp' & Hch & Hnl); [done|done|intros ? ?; lia|lia|by rewrite Hpd|].
  unfold is_live in Hl. rewrite Hl. rewrite place_loop_put by (done || apply R). rewrite Ep.
  assert (j < length ns)%nat as Hj.
  { rewrite (sw_len _ _ (rh_wf _ _ _ R)), <- Hp'. apply probe_pos_lt, (rh_wf _ _ _ R). }
  destruct (lookup_lt_is_Some_2 ns j Hj) as [s0 Hs0].
  assert (slot_state s0 = SLOT_EMPTY) as He0.
  { pose proof (rh_nodead _ _ _ R j) as Hnd. rewrite (slot_at_lookup _ _ _ Hs0) in Hnl, Hnd.
    by destruct (slot_state s0). }
  split.
  - eapply slots_wf_claim; [apply R|done|done|done| |done|done]. lia.
  - intros i. rewrite slot_at_insert by done. case_decide; [congruence|apply R].
  - rewrite Hcl. pose proof (length_filter_insert is_used ns j s0 old Hs0) as E.
    rewrite decide_False in E by (unfold is_used; rewrite He0; by intros ?).
    rewrite decide_True in E by (unfold is_used; by rewrite Hl).
    pose proof (rh_count _ _ _ R). unfold count_used in *. lia.
  - intros k s. rewrite holds_snoc, (holds_insert _ _ s0 old) by
      (done || (unfold is_live; rewrite He0; done)).
    by rewrite (rh_holds _ _ _ R).
Qed.

Lemma count_live_take ss n : (count_live (take n ss) <= count_live ss)%nat.
Proof.
  unfold count_live. rewrite <- (take_drop n ss) at 2. rewrite filter_app, length_app. lia.
Qed.

Lemma grow_rehashed e ss :
  (count_live ss < 2 ^ e)%nat ->
  (forall i j k, live_at ss i k -> live_at ss j k -> i = j) ->
  rehashed ss (foldl (grow_step (2 ^ e)) (replicate (2 ^ e) zero_slot) ss) (2 ^ e).
Proof.
  intros Hc Hu.
  assert (forall n, (n <= length ss)%nat ->
    rehashed (take n ss)
      (foldl (grow_step (2 ^ e)) (replicate (2 ^ e) zero_slot) (take n ss)) (2 ^ e)) as Hgen.
  { induction n as [|n IH]; intros Hn.
    - rewrite take_0. cbn [foldl]. split; [apply replicate_slots_wf| | |].
      + intros j. rewrite replicate_slot_at, zero_slot_empty. done.
      + apply replicate_count_used.
      + intros k s. split; [|by intros (j & ? & _)]. intros (j & Hj & Hl & Hk).
        exfalso. apply (replicate_no_live (2 ^ e) j k). by exists s.
    - destruct (lookup_lt_is_Some_2 ss n) as [old Hold]; [lia|].
      rewrite (take_S_lookup ss n old Hold), foldl_snoc.
      apply grow_step_rehashed; [apply IH; lia| |].
      + pose proof (count_live_take ss n). lia.
      + intros Hl s (j & Hj & Hls & Hks). apply lookup_take_Some in Hj as [Hj Hlt].
        assert (j = n) as ->; [|lia]. apply (Hu j n (slot_key old)); [by exists s|by exists old]. }
  specialize (Hgen (length ss) ltac:(done)). by rewrite take_ge in Hgen.
Qed.

Lemma count_live_used ss : (count_live ss <= count_used ss)%nat.
Proof.
  unfold count_live, count_used, is_live, is_used.
  induction ss as [|s ss IH]; [done|]. rewrite !filter_cons.
  repeat case_decide; simpl; (lia || congruence).
Qed.

Lemma count_live_nodead ss :
  (forall j, slot_state (slot_at ss j) <> SLOT_DEAD) -> count_live ss = count_used ss.
Proof.
  intros Hnd. unfold count_live, count_used.
  assert (Forall (fun s => is_live s <-> is_used s) ss) as Hf.
  { apply Forall_lookup. intros j s Hj. specialize (Hnd j).
    rewrite (slot_at_lookup _ _ _ Hj) in Hnd. unfold is_live, is_used.
    destruct (slot_state s); naive_solver. }
  clear Hnd. induction Hf as [|s ss Hs _ IH]; [done|]. rewrite !filter_cons.
  repeat case_decide; simpl; tauto || lia.
Qed.

(** A table that grows keeps its contents and gets room for an insertion. *)
Lemma pt_grow_spec cap0 t :
  (exists e, cap0 = (2 ^ e)%nat) -> (2 <= cap0)%nat -> pt_wf t ->
  exists t', pt_grow cap0 true t = Some t' /\ pt_wf t' /\ pt_needs_grow t' = false /\
    pt_live t' = pt_live t /\ forall k, pt_get t' k = pt_get t k.
Proof.
  intros [e0 He0] H0 W. unfold pt_grow. cbn zeta.
  set (ncap := if (pt_cap t =? 0)%nat then cap0 else (pt_cap t * 2)%nat).
  assert (exists e, ncap = (2 ^ e)%nat) as [e He].
  { unfold ncap. destruct (Nat.eqb_spec (pt_cap t) 0); [by exists e0|].
    destruct (pw_slots t W) as [[? _]|W']; [done|]. destruct (sw_pow _ _ W') as [e1 E1].
    exists (Datatypes.S e1). rewrite E1. simpl. lia. }
  pose proof (count_live_used (pt_slots t)) as Hlu.
  rewrite <- (pw_live t W), <- (pw_used t W) in Hlu.
  assert ((pt_live t + 1) * 4 < ncap * 3)%nat as Hload.
  { unfold ncap. destruct (Nat.eqb_spec (pt_cap t) 0) as [E|E].
    - assert (pt_live t = 0)%nat as ->; [|lia]. rewrite (pw_live t W).
      destruct (pw_slots t W) as [[_ ->]|W']; [done|].
      pose proof (sw_len _ _ W') as E'. rewrite E in E'. by apply nil_length_inv in E' as ->.
    - destruct (pw_load t W); lia. }
  rewrite He in *.
  assert (rehashed (pt_slots t)
    (foldl (grow_step (2 ^ e)) (replicate (2 ^ e) zero_slot) (pt_slots t)) (2 ^ e)) as R.
  { apply grow_rehashed; [rewrite <- (pw_live t W); lia|]. intros i j k Hi Hj.
    destruct (pw_slots t W) as [[_ E]|W']; [|by apply (sw_unique _ _ W' i j k)].
    rewrite E in Hi. by destruct Hi as (? & ? & _). }
  eexists. split; [done|].
  assert (pt_wf (mkPTable
    (foldl (grow_step (2 ^ e)) (replicate (2 ^ e) zero_slot) (pt_slots t))
    (2 ^ e) (pt_live t) (pt_live t))) as W'.
  { split; cbn [pt_slots pt_cap pt_live pt_used].
    - right. apply R.
    - rewrite (count_live_nodead _ (rh_nodead _ _ _ R)), (rh_count _ _ _ R). apply W.
    - rewrite (rh_count _ _ _ R). apply W.
    - right. lia. }
  split_and!; [done| |done|].
  - unfold pt_needs_grow. cbn. rewrite orb_false_iff, Nat.eqb_neq, Nat.leb_gt. lia.
  - apply pt_get_ext; [done|done|]. intros k s. apply (rh_holds _ _ _ R).
Qed.

(** *** Insertion *)

Lemma pt_find_wf_slots t k j : pt_wf t -> pt_find t k = Some j -> slots_wf (pt_slots t) (pt_cap t).
Proof.
  intros W Hf. destruct (pw_slots t W) as [[E _]|W']; [|done].
  unfold pt_find in Hf. by rewrite E in Hf.
Qed.

(** The key is present: its slot is returned and nothing changes. *)
Lemma put_loop_present t k j :
  pt_wf t -> pt_find t k = Some j ->
  put_loop (pt_cap t) 0 None (pt_slots t) (pt_cap t) k = Some (inl j).
Proof.
  intros W Hf. pose proof (pt_find_wf_slots t k j W Hf) as W'.
  apply pt_find_spec in Hf; [|done].
  destruct (sw_probed _ _ W' j k Hf) as (d & Hd & Hp & Hc).
  eapply put_loop_found; [|done| |done|done]; [|lia].
  intros i Hi. by apply (sw_unique _ _ W' i j k).
Qed.

(** The key is absent: a slot that is not live is claimed. *)
Lemma put_loop_absent t k :
  pt_wf t -> pt_room t -> pt_find t k = None ->
  slots_wf (pt_slots t) (pt_cap t) /\
  exists j d s0,
    put_loop (pt_cap t) 0 None (pt_slots t) (pt_cap t) k = Some (inr j) /\
    pt_slots t !! j = Some s0 /\ ~ is_live s0 /\ (d < pt_cap t)%nat /\
    probe_pos (pt_cap t) k d = j /\ chain_used (pt_slots t) (pt_cap t) k d.
Proof.
  intros W Hg Hf. unfold pt_room in Hg.
  destruct (pw_slots t W) as [[? _]|W']; [lia|]. split; [done|].
  assert (forall j, ~ live_at (pt_slots t) j k) as Hk by by apply pt_find_None.
  destruct (exists_empty (pt_slots t) (pt_cap t) W') as (je & Hje & He).
  { rewrite <- (pw_used t W). lia. }
  destruct (probe_pos_surj (pt_cap t) k je (sw_pow _ _ W') Hje) as (d & Hd & Hpd).
  destruct (put_loop_claim (pt_cap t) 0 None (pt_slots t) (pt_cap t) k d)
    as (j & d' & Ep & Hd' & Hp' & Hch & Hnl); [done|done|intros ? ?; lia|lia|by rewrite Hpd|].
  destruct (lookup_lt_is_Some_2 (pt_slots t) j) as [s0 Hs0].
  { rewrite (sw_len _ _ W'), <- Hp'. apply probe_pos_lt, W'. }
  rewrite (slot_at_lookup _ _ _ Hs0) in Hnl.
  exists j, d', s0. split_and!; auto. lia.
Qed.

(** Claiming the slot makes [fresh] the entry of [k]. *)
Lemma pt_claim_spec t k j d s0 fresh :
  pt_wf t -> slots_wf (pt_slots t) (pt_cap t) -> pt_room t ->
  pt_find t k = None -> is_live fresh -> slot_key fresh = k ->
  pt_slots t !! j = Some s0 -> ~ is_live s0 -> (d < pt_cap t)%nat ->
  probe_pos (pt_cap t) k d = j -> chain_used (pt_slots t) (pt_cap t) k d ->
  let t' := mkPTable (<[j := fresh]> (pt_slots t)) (pt_cap t) (Datatypes.S (pt_live t))
              (match slot_state s0 with SLOT_EMPTY => Datatypes.S (pt_used t) | _ => pt_used t end) in
  pt_wf t' /\ pt_find t' k = Some j /\
  forall k', pt_get t' k' = if decide (k' = k) then Some fresh else pt_get t k'.
Proof.
  intros W W' Hg Hf Hl Hk Hs0 Hnl Hd Hp Hc t'.
  pose proof (lookup_lt_Some _ _ _ Hs0) as Hj.
  assert (is_used fresh) as Hu by (unfold is_used; rewrite Hl; done).
  assert (pt_wf t') as Wt'.
  { split; cbn [t' pt_slots pt_cap pt_live pt_used].
    - right. eapply slots_wf_claim; try done. by apply pt_find_None.
    - pose proof (length_filter_insert is_live _ _ _ fresh Hs0) as E.
      rewrite decide_False, decide_True in E by done.
      rewrite (pw_live t W). unfold count_live in *. lia.
    - pose proof (length_filter_insert is_used _ _ _ fresh Hs0) as E.
      rewrite (decide_True _ _ Hu) in E. rewrite (pw_used t W). unfold count_used in *.
      unfold is_live in Hnl. clear t'.
      destruct (decide (is_used s0)) as [Hu0|Hu0]; unfold is_used in Hu0;
        destruct (slot_state s0); (congruence || lia || by exfalso; apply Hu0).
    - right. unfold pt_room in Hg. destruct (slot_state s0); lia. }
  split_and!; [done| |].
  - apply pt_find_spec; [done|]. exists fresh. cbn. by rewrite list_lookup_insert_eq.
  - intros k'. apply option_eq. intros s. rewrite pt_get_spec by done.
    cbn [t' pt_slots]. rewrite (holds_insert _ _ s0 fresh) by done. case_decide as Ek.
    + subst k'. split; [|naive_solver]. intros [Hh|(-> & _ & _)]; [|done].
      apply (pt_get_spec t) in Hh; [|done]. apply pt_get_None in Hf; [congruence|done].
    + rewrite <- (pt_get_spec t) by done. naive_solver.
Qed.

Lemma pt_put_spec cap0 t k fresh :
  (exists e, cap0 = (2 ^ e)%nat) -> (2 <= cap0)%nat ->
  pt_wf t -> is_live fresh -> slot_key fresh = k ->
  exists t' j, pt_put cap0 true t k fresh = Some (t', j) /\ pt_wf t' /\
    pt_find t' k = Some j /\
    pt_live t' = (match pt_get t k with Some _ => pt_live t | None => Datatypes.S (pt_live t) end) /\
    forall k', pt_get t' k' =
      if decide (k' = k) then Some (default fresh (pt_get t k)) else pt_get t k'.
Proof.
  intros He H0 W Hl Hk. unfold pt_put.
  assert (exists t1, (if pt_needs_grow t then pt_grow cap0 true t else Some t) = Some t1 /\
    pt_wf t1 /\ pt_needs_grow t1 = false /\ pt_live t1 = pt_live t /\
    forall k', pt_get t1 k' = pt_get t k') as (t1 & -> & W1 & Hg1 & Hl1 & Hget).
  { destruct (pt_needs_grow t) eqn:Eg; [by apply pt_grow_spec|]. by exists t. }
  rewrite <- Hl1, <- (Hget k).
  destruct (pt_find t1 k) as [j|] eqn:Ef.
  - rewrite (put_loop_present t1 k j) by done. exists t1, j.
    assert (is_Some (pt_get t1 k)) as [s Hs].
    { rewrite <- not_eq_None_Some, pt_get_None by done. by rewrite Ef. }
    rewrite Hs. split_and!; [done..|]. intros k'. rewrite <- Hget. case_decide; [by subst|done].
  - destruct (put_loop_absent t1 k W1 (needs_grow_room _ Hg1) Ef) as (W' & j & d & s0 & -> & Hs0 & Hnl & Hd & Hp & Hc).
    rewrite (slot_at_lookup _ _ _ Hs0).
    destruct (pt_claim_spec t1 k j d s0 fresh) as (Wt & Hft & Hgt); try done; [by apply needs_grow_room|].
    apply pt_get_None in Ef as Eg; [|done]. rewrite Eg.
    eexists _, j. split_and!; [done|done|done|done|]. intros k'. rewrite <- Hget. done.
Qed.

Lemma pt_put_any cap0 ok t k fresh r :
  pt_put cap0 ok t k fresh = Some r -> pt_put cap0 true t k fresh = Some r.
Proof. destruct ok; [done|]. unfold pt_put. by destruct (pt_needs_grow t). Qed.

(** Failure only through allocation, and then nothing changes. *)
Lemma pt_put_oom cap0 t k fresh :
  pt_put cap0 false t k fresh = None -> pt_wf t -> pt_needs_grow t = true.
Proof.
  unfold pt_put. destruct (pt_needs_grow t) eqn:Eg; [done|]. intros E W. exfalso.
  destruct (pt_find t k) as [j|] eqn:Ef.
  - by rewrite (put_loop_present t k j) in E.
  - destruct (put_loop_absent t k W (needs_grow_room _ Eg) Ef) as (_ & j & _ & _ & Ep & _). by rewrite Ep in E.
Qed.

(** *** Rewriting and retiring a live slot *)

Lemma holds_rewrite ss cap i k s0 s1 k' s :
  slots_wf ss cap -> ss !! i = Some s0 -> is_live s0 -> slot_key s0 = k ->
  (is_live s1 -> slot_key s1 = k) ->
  holds (<[i := s1]> ss) k' s <->
  (k' <> k /\ holds ss k' s) \/ (k' = k /\ s = s1 /\ is_live s1).
Proof.
  intros W Hi Hl Hk Hk1. pose proof (lookup_lt_Some _ _ _ Hi). unfold holds. split.
  - intros (j & Hj & Hls & Hks). destruct (decide (j = i)) as [->|Hne].
    + rewrite list_lookup_insert_eq in Hj by done. injection Hj as <-.
      right. split_and!; [by rewrite <- Hks, Hk1|done|done].
    + rewrite list_lookup_insert_ne in Hj by done. left. split; [|by exists j].
      intros ->. apply Hne. apply (sw_unique _ _ W j i k); [by exists s|by exists s0].
  - intros [(Hne & j & Hj & ? & ?)|(-> & -> & ?)].
    + exists j. rewrite list_lookup_insert_ne; [done|]. intros <-.
      assert (s0 = s) as <- by congruence. congruence.
    + exists i. rewrite list_lookup_insert_eq by done. auto.
Qed.

Lemma pt_set_spec t k j s :
  pt_wf t -> pt_find t k = Some j -> is_live s -> slot_key s = k ->
  pt_wf (pt_set t j s) /\
  forall k', pt_get (pt_set t j s) k' = if decide (k' = k) then Some s else pt_get t k'.
Proof.
  intros W Hf Hl Hk. pose proof (pt_find_wf_slots t k j W Hf) as W'.
  apply pt_find_spec in Hf as Hlive; [|done]. destruct Hlive as (s0 & Hs0 & Hl0 & Hk0).
  assert (is_used s) as Hu by (unfold is_used; rewrite Hl; done).
  assert (is_used s0) as Hu0 by (unfold is_used; rewrite Hl0; done).
  assert (pt_wf (pt_set t j s)) as Wt.
  { split; cbn [pt_set pt_slots pt_cap pt_live pt_used].
    - right. apply (slots_wf_rewrite _ _ k); [done|by exists s0|done|done].
    - pose proof (length_filter_insert is_live _ _ _ s Hs0) as E.
      rewrite !decide_True in E by done. rewrite (pw_live t W). unfold count_live. lia.
    - pose proof (length_filter_insert is_used _ _ _ s Hs0) as E.
      rewrite !decide_True in E by done. rewrite (pw_used t W). unfold count_used. lia.
    - apply W. }
  split; [done|]. intros k'. apply option_eq. intros s'. rewrite pt_get_spec by done.
  cbn [pt_set pt_slots]. rewrite (holds_rewrite _ _ _ k s0) by done.
  rewrite <- (pt_get_spec t) by done. case_decide; naive_solver.
Qed.

Lemma pt_retire_spec t k j s :
  pt_wf t -> pt_find t k = Some j -> slot_state s = SLOT_DEAD ->
  pt_wf (pt_retire t j s) /\
  forall k', pt_get (pt_retire t j s) k' = if decide (k' = k) then None else pt_get t k'.
Proof.
  intros W Hf Hd. pose proof (pt_find_wf_slots t k j W Hf) as W'.
  apply pt_find_spec in Hf as Hlive; [|done]. destruct Hlive as (s0 & Hs0 & Hl0 & Hk0).
  assert (is_used s) as Hu by (unfold is_used; rewrite Hd; done).
  assert (is_used s0) as Hu0 by (unfold is_used; rewrite Hl0; done).
  assert (~ is_live s) as Hnl by (unfold is_live; rewrite Hd; done).
  assert (pt_wf (pt_retire t j s)) as Wt.
  { split; cbn [pt_retire pt_slots pt_cap pt_live pt_used].
    - right. apply (slots_wf_rewrite _ _ k); [done|by exists s0|done|done].
    - pose proof (length_filter_insert is_live _ _ _ s Hs0) as E.
      rewrite decide_True, decide_False in E by done. rewrite (pw_live t W). unfold count_live. lia.
    - pose proof (length_filter_insert is_used _ _ _ s Hs0) as E.
      rewrite !decide_True in E by done. rewrite (pw_used t W). unfold count_used. lia.
    - apply W. }
  split; [done|]. intros k'. apply option_eq. intros s'. rewrite pt_get_spec by done.
  cbn [pt_retire pt_slots]. rewrite (holds_rewrite _ _ _ k s0) by done.
  rewrite <- (pt_get_spec t) by done. case_decide; naive_solver.
Qed.

(** *** Enumerating the live slots *)

Definition live_slots t : list S := filter is_live (pt_slots t).
Definition live_keys t : list K := map slot_key (live_slots t).

Lemma elem_of_live_slots t s : pt_wf t -> s ∈ live_slots t <-> pt_get t (slot_key s) = Some s.
Proof.
  intros W. unfold live_slots. rewrite list_elem_of_filter, pt_get_spec by done.
  unfold holds. rewrite list_elem_of_lookup. naive_solver.
Qed.

Lemma elem_of_live_keys t k : pt_wf t -> k ∈ live_keys t <-> is_Some (pt_get t k).
Proof.
  intros W. unfold live_keys. rewrite list_elem_of_fmap. split.
  - intros (s & -> & Hs). apply elem_of_live_slots in Hs; [|done]. by eexists.
  - intros [s Hs]. exists s. apply pt_get_spec in Hs as Hh; [|done].
    destruct Hh as (j & _ & _ & Hk). split; [done|]. apply elem_of_live_slots; [done|].
    by rewrite Hk.
Qed.

Lemma live_keys_nodup t : pt_wf t -> NoDup (live_keys t).
Proof.
  intros W. unfold live_keys, live_slots.
  assert (forall i j k, live_at (pt_slots t) i k -> live_at (pt_slots t) j k -> i = j) as Hu.
  { destruct (pw_slots t W) as [[_ E]|W'].
    - intros i j k (s & Hs & _). by rewrite E in Hs.
    - apply (sw_unique _ _ W'). }
  clear W. induction (pt_slots t) as [|s ss IH]; [constructor|].
  assert (NoDup (map slot_key (filter is_live ss))) as IH'.
  { apply IH. intros i j k (s1 & ? & ?) (s2 & ? & ?).
    assert (Datatypes.S i = Datatypes.S j) by
      (apply (Hu _ _ k); [by exists s1|by exists s2]). congruence. }
  destruct (decide (is_live s)); [rewrite filter_cons_True by done
                                 |by rewrite filter_cons_False].
  simpl. constructor; [|done]. intros (s' & Hk & Hs')%list_elem_of_fmap.
  apply list_elem_of_filter in Hs' as [Hl' Hs']. apply list_elem_of_lookup in Hs' as [j Hj].
  assert (0%nat = Datatypes.S j) by (apply (Hu _ _ (slot_key s)); [by exists s|by exists s']).
  congruence.
Qed.

Lemma live_keys_length t : pt_wf t -> length (live_keys t) = pt_live t.
Proof. intros W. unfold live_keys. rewrite length_map. by rewrite (pw_live t W). Qed.
End probe.
