(* ===== verification/Intern.v ===== *)
(** * Interned names

    The edge index interns relationship kinds and the fact index predicates in
    tables of the same shape: a chained string table whose nodes carry an id
    [1 .. count], an array from id to node, and a use count per node with a
    running number of names in use. A C node is reachable from its chain and
    from the by-id array; here the chain holds its fixed fields (name and id)
    and the array the name with the mutable use count. *)

From S2P Require Import Prelude Endian StrTable.

Record INode := mkINode { in_name : list Z; in_id : Z }.

#[export, refine] Instance INode_buckets : Buckets INode := {| nbuckets := NBUCKETS |}.
Proof. done. Defined.

Record Intern := mkIntern {
  it_buckets : list (list INode);
  it_nodes : list (list Z * nat);   (* index i: name and uses of id i+1 *)
  it_cap : nat;                     (* allocated length of the by-id array *)
  it_live : nat                     (* names with at least one use *)
}.

Definition INTERN_MAX : nat := 4096.
Definition INTERN_MAX_LEN : nat := 64.

Definition it_empty : Intern := mkIntern tbl_empty [] 0 0.

Definition it_find (T : Intern) (s : list Z) : option Z :=
  in_id <$> tbl_find in_name (it_buckets T) s.

(** Mint an id for a name not yet in the table. [ok_arr]: the by-id array can
    grow; [ok_node]: the node and its name are allocated. *)
Definition it_mint (ok_arr ok_node : bool) (T : Intern) (s : list Z) : Intern * option Z :=
  if (INTERN_MAX <=? length (it_nodes T))%nat then (T, None)
  else
    let full := (length (it_nodes T) =? it_cap T)%nat in
    if full && negb ok_arr then (T, None)
    else
      let cap := if full then (if (it_cap T =? 0)%nat then 16 else it_cap T * 2)%nat
                 else it_cap T in
      if negb ok_node then (mkIntern (it_buckets T) (it_nodes T) cap (it_live T), None)
      else
        let id := wrap 16 (Z.of_nat (length (it_nodes T)) + 1) in
        (mkIntern (tbl_push in_name (it_buckets T) (mkINode s id))
           (it_nodes T ++ [(s, 0%nat)]) cap (it_live T), Some id).

(** The node of an id, if it names one. *)
Definition it_node (T : Intern) (id : Z) : option (list Z * nat) :=
  if (id <=? 0) || (id >? Z.of_nat (length (it_nodes T))) then None
  else it_nodes T !! Z.to_nat (id - 1).

(** A posting carrying [id] was added ([true]) or dropped ([false]). *)
Definition it_use (T : Intern) (id : Z) (up : bool) : Intern :=
  match it_node T id with
  | None => T
  | Some (name, uses) =>
      let set u live :=
        mkIntern (it_buckets T) (<[Z.to_nat (id - 1) := (name, u)]> (it_nodes T)) (it_cap T) live in
      if up then set (S uses) (if (uses =? 0)%nat then S (it_live T) else it_live T)
      else if (uses =? 0)%nat then T
      else set (uses - 1)%nat (if (uses - 1 =? 0)%nat then (it_live T - 1)%nat else it_live T)
  end.

(** ** Invariant *)

Definition in_use (x : list Z * nat) : Prop := x.2 <> 0%nat.
#[global] Instance in_use_dec x : Decision (in_use x).
Proof. unfold in_use. apply _. Defined.

Record it_wf (T : Intern) : Prop := {
  iw_tbl : tbl_wf in_name (it_buckets T);
  iw_ids : forall s id, it_find T s = Some id <->
    0 < id /\ exists u, it_nodes T !! Z.to_nat (id - 1) = Some (s, u);
  iw_max : (length (it_nodes T) <= INTERN_MAX)%nat;
  iw_live : it_live T = length (filter in_use (it_nodes T))
}.

(** Uses of a name: 0 when it was never interned. *)
Definition it_uses (T : Intern) (s : list Z) : nat :=
  match it_find T s with
  | Some id => default 0%nat (snd <$> it_nodes T !! Z.to_nat (id - 1))
  | None => 0%nat
  end.

Definition it_names (T : Intern) : list (list Z) := map fst (it_nodes T).

Lemma it_empty_wf : it_wf it_empty.
Proof.
  split; [apply tbl_empty_wf| |unfold INTERN_MAX; simpl; lia|done].
  intros s id. unfold it_find. simpl it_buckets. rewrite tbl_find_empty. cbn.
  split; [done|]. intros (_ & u & Hu). done.
Qed.

Lemma it_find_range T s id :
  it_wf T -> it_find T s = Some id -> 0 < id <= Z.of_nat (length (it_nodes T)) /\ id <= 4096.
Proof.
  intros W Hf. apply (iw_ids T W) in Hf as (H0 & u & Hu). apply lookup_lt_Some in Hu.
  pose proof (iw_max T W). unfold INTERN_MAX in *. lia.
Qed.

Lemma it_find_inj T s s' id : it_wf T -> it_find T s = Some id -> it_find T s' = Some id -> s = s'.
Proof.
  intros W Hs Hs'. apply (iw_ids T W) in Hs as (_ & u & Hu).
  apply (iw_ids T W) in Hs' as (_ & u' & Hu'). congruence.
Qed.

Lemma it_node_find T s id :
  it_wf T -> it_find T s = Some id -> it_node T id = Some (s, it_uses T s).
Proof.
  intros W Hf. unfold it_node, it_uses. rewrite Hf.
  pose proof (it_find_range T s id W Hf).
  destruct (Z.leb_spec id 0), (Z.gtb_spec id (Z.of_nat (length (it_nodes T)))); try lia.
  apply (iw_ids T W) in Hf as (_ & u & Hu). by rewrite Hu.
Qed.

Lemma elem_of_it_names T s : it_wf T -> s ∈ it_names T <-> is_Some (it_find T s).
Proof.
  intros W. unfold it_names. rewrite list_elem_of_fmap. split.
  - intros ([s' u] & -> & Hx). apply list_elem_of_lookup in Hx as [i Hi].
    exists (Z.of_nat i + 1). apply (iw_ids T W). split; [lia|]. exists u.
    by replace (Z.to_nat (Z.of_nat i + 1 - 1)) with i by lia.
  - intros [id Hid]. apply (iw_ids T W) in Hid as (_ & u & Hu). exists (s, u).
    split; [done|]. by eapply list_elem_of_lookup_2.
Qed.

Lemma it_names_nodup T : it_wf T -> NoDup (it_names T).
Proof.
  intros W. apply NoDup_alt. intros i j s Hi Hj. unfold it_names in *.
  apply list_lookup_fmap_Some in Hi as ([s1 u1] & -> & Hi).
  apply list_lookup_fmap_Some in Hj as ([s2 u2] & Heq & Hj). simpl in Heq. subst s2.
  assert (forall i u, it_nodes T !! i = Some (s1, u) -> it_find T s1 = Some (Z.of_nat i + 1)) as H.
  { intros i' u' Hi'. apply (iw_ids T W). split; [lia|]. exists u'.
    by replace (Z.to_nat (Z.of_nat i' + 1 - 1)) with i' by lia. }
  pose proof (H i u1 Hi). pose proof (H j u2 Hj).
  assert (Z.of_nat i + 1 = Z.of_nat j + 1) by congruence. lia.
Qed.

(** Names in use, counted by [it_live]. *)
Lemma it_live_names (T : Intern) (X : gset (list Z)) :
  it_wf T -> (forall s, s ∈ X <-> it_uses T s <> 0%nat) -> it_live T = size X.
Proof.
  intros W HX. rewrite (iw_live T W).
  rewrite <- (length_map fst), <- (size_list_to_set (C := gset (list Z))).
  - f_equal. apply set_eq. intros s. rewrite elem_of_list_to_set, list_elem_of_fmap, HX. split.
    + intros ([s' u] & -> & [Hu Hx]%list_elem_of_filter).
      apply list_elem_of_lookup in Hx as [i Hi]. cbn [fst]. unfold it_uses.
      assert (it_find T s' = Some (Z.of_nat i + 1)) as ->.
      { apply (iw_ids T W). split; [lia|]. exists u.
        by replace (Z.to_nat (Z.of_nat i + 1 - 1)) with i by lia. }
      replace (Z.to_nat (Z.of_nat i + 1 - 1)) with i by lia. by rewrite Hi.
    + intros Hu. unfold it_uses in Hu. destruct (it_find T s) as [id|] eqn:E; [|done].
      apply (iw_ids T W) in E as (_ & u & Hx). rewrite Hx in Hu. exists (s, u).
      split; [done|]. apply list_elem_of_filter. split; [done|]. by eapply list_elem_of_lookup_2.
  - eapply sublist_NoDup; [apply (it_names_nodup T W)|]. apply fmap_sublist, sublist_filter.
Qed.

(** ** Minting *)

Lemma it_mint_spec T s :
  it_wf T -> it_find T s = None -> (length (it_nodes T) < INTERN_MAX)%nat ->
  exists T' id, it_mint true true T s = (T', Some id) /\ it_wf T' /\
    it_find T' s = Some id /\ (forall s', s' <> s -> it_find T' s' = it_find T s') /\
    (forall s', it_uses T' s' = it_uses T s') /\ it_names T' = it_names T ++ [s].
Proof.
  intros W Hs Hlt. unfold it_mint.
  destruct (Nat.leb_spec INTERN_MAX (length (it_nodes T))); [lia|].
  rewrite andb_false_r. cbn [negb]. cbn zeta.
  set (id := wrap 16 (Z.of_nat (length (it_nodes T)) + 1)).
  assert (id = Z.of_nat (length (it_nodes T)) + 1) as Eid.
  { apply wrap_small. unfold urange, INTERN_MAX in *. lia. }
  eexists _, id. split; [done|].
  set (T' := mkIntern _ _ _ _).
  assert (tbl_find in_name (it_buckets T) s = None) as Hn by (unfold it_find in Hs; by apply fmap_None in Hs).
  assert (forall s', it_find T' s' = if bool_decide (s' = s) then Some id else it_find T s') as Hf.
  { intros s'. unfold it_find. cbn [T' it_buckets]. rewrite tbl_find_push by apply W.
    cbn [in_name]. by case_bool_decide. }
  assert (it_wf T') as W'.
  { split; cbn [T' it_nodes it_live it_buckets].
    - apply tbl_push_wf; [apply W|done].
    - intros s' id'. rewrite Hf. case_bool_decide as E.
      + subst s'. split.
        * intros [= <-]. split; [lia|]. exists 0%nat. rewrite Eid.
          replace (Z.to_nat (Z.of_nat (length (it_nodes T)) + 1 - 1)) with (length (it_nodes T)) by lia.
          by rewrite lookup_app_r, Nat.sub_diag by lia.
        * intros (H0 & u & Hu). apply lookup_app_Some in Hu as [Hu|[Hge Hu]].
          { assert (it_find T s = Some id') by (apply (iw_ids T W); eauto). congruence. }
          apply list_lookup_singleton_Some in Hu as [Hu _]. f_equal. lia.
      + rewrite (iw_ids T W). split; intros (H0 & u & Hu); (split; [done|]); exists u.
        * by apply lookup_app_l_Some.
        * apply lookup_app_Some in Hu as [Hu|[_ Hu]]; [done|].
          apply list_lookup_singleton_Some in Hu as [_ [= ->]]. done.
    - rewrite length_app. simpl. lia.
    - rewrite (iw_live T W), filter_app, length_app. rewrite filter_cons_False by (by intros ?).
      simpl. lia. }
  split_and!; [done| | | |].
  - by rewrite Hf, bool_decide_true.
  - intros s' Hne. by rewrite Hf, bool_decide_false.
  - intros s'. unfold it_uses. rewrite Hf. cbn [T' it_nodes]. case_bool_decide as E.
    + subst s'. rewrite Hs, Eid.
      replace (Z.to_nat (Z.of_nat (length (it_nodes T)) + 1 - 1)) with (length (it_nodes T)) by lia.
      by rewrite lookup_app_r, Nat.sub_diag by lia.
    + destruct (it_find T s') as [id'|] eqn:E'; [|done].
      apply (iw_ids T W) in E' as (_ & u & Hu).
      rewrite Hu. by rewrite (lookup_app_l_Some _ _ _ _ Hu).
  - unfold it_names. cbn [T' it_nodes]. by rewrite map_app.
Qed.

(** ** Counting uses *)

Lemma it_use_spec T s id up :
  it_wf T -> it_find T s = Some id -> (up = false -> it_uses T s <> 0%nat) ->
  let T' := it_use T id up in
  it_wf T' /\ (forall s', it_find T' s' = it_find T s') /\ it_names T' = it_names T /\
  forall s', it_uses T' s' =
    if bool_decide (s' = s) then (if up then S (it_uses T s) else it_uses T s - 1)%nat
    else it_uses T s'.
Proof.
  intros W Hf Hup T'. unfold T', it_use. rewrite (it_node_find T s id W Hf).
  set (u := it_uses T s) in *. set (i := Z.to_nat (id - 1)).
  set (u' := (if up then S u else u - 1)%nat).
  set (live' := if up then (if (u =? 0)%nat then S (it_live T) else it_live T)
                else (if (u - 1 =? 0)%nat then (it_live T - 1)%nat else it_live T)).
  assert ((if up then mkIntern (it_buckets T) (<[i := (s, S u)]> (it_nodes T)) (it_cap T)
             (if (u =? 0)%nat then S (it_live T) else it_live T)
           else if (u =? 0)%nat then T
           else mkIntern (it_buckets T) (<[i := (s, (u - 1)%nat)]> (it_nodes T)) (it_cap T)
             (if (u - 1 =? 0)%nat then (it_live T - 1)%nat else it_live T))
    = mkIntern (it_buckets T) (<[i := (s, u')]> (it_nodes T)) (it_cap T) live') as ->.
  { unfold u', live'. destruct up; [done|].
    destruct (Nat.eqb_spec u 0) as [E|]; [|done]. by destruct (Hup eq_refl). }
  assert (it_nodes T !! i = Some (s, u)) as Hi.
  { apply (iw_ids T W) in Hf as Hf'. destruct Hf' as (_ & u0 & Hu0). unfold u, it_uses.
    rewrite Hf. fold i in Hu0 |- *. by rewrite Hu0. }
  pose proof (lookup_lt_Some _ _ _ Hi) as Hlt.
  set (T1 := mkIntern _ _ _ _).
  assert (forall s', it_find T1 s' = it_find T s') as Hf1 by done.
  assert (forall j s' w, it_nodes T1 !! j = Some (s', w) ->
            exists w', it_nodes T !! j = Some (s', w')) as Hback.
  { intros j s' w. cbn [T1 it_nodes]. destruct (decide (j = i)) as [->|].
    - rewrite list_lookup_insert_eq by done. intros [= <- <-]. eauto.
    - rewrite list_lookup_insert_ne by done. eauto. }
  split_and!; [split| | |].
  - apply W.
  - intros s' id'. rewrite Hf1, (iw_ids T W). split; intros (H0 & w & Hw); (split; [done|]).
    + destruct (decide (Z.to_nat (id' - 1) = i)) as [E|E].
      * exists u'. cbn [T1 it_nodes]. rewrite E in Hw |- *.
        rewrite list_lookup_insert_eq by done. congruence.
      * exists w. cbn [T1 it_nodes]. by rewrite list_lookup_insert_ne.
    + by apply Hback in Hw.
  - cbn [T1 it_nodes]. rewrite length_insert. apply W.
  - cbn [T1 it_nodes it_live]. pose proof (iw_live T W) as Hl.
    rewrite insert_take_drop by done.
    rewrite <- (take_drop_middle _ _ _ Hi) in Hl.
    rewrite filter_app, filter_cons, length_app in Hl |- *. unfold in_use in *. simpl in *.
    unfold live', u' in *. clear -Hl Hup.
    destruct up; repeat case_if; repeat case_decide; simpl in *; lia.
  - done.
  - unfold it_names. cbn [T1 it_nodes].
    rewrite insert_take_drop by done. rewrite <- (take_drop_middle _ _ _ Hi) at 3.
    by rewrite !map_app.
  - intros s'. unfold it_uses at 1. rewrite Hf1. cbn [T1 it_nodes]. case_bool_decide as E.
    + subst s'. rewrite Hf. fold i. by rewrite list_lookup_insert_eq.
    + unfold it_uses. destruct (it_find T s') as [id'|] eqn:E'; [|done].
      rewrite list_lookup_insert_ne; [done|]. intros Ei. apply E.
      apply (iw_ids T W) in E' as (_ & w & Hw). fold i in Ei. rewrite <- Ei in Hw. congruence.
Qed.

(** ** Failed minting *)

(** Tables that differ only in the allocated length of the by-id array. *)
Definition it_same (T T' : Intern) : Prop :=
  it_buckets T' = it_buckets T /\ it_nodes T' = it_nodes T /\ it_live T' = it_live T.

Lemma it_same_wf T T' :
  it_same T T' -> it_wf T ->
  it_wf T' /\ (forall s, it_find T' s = it_find T s) /\ (forall s, it_uses T' s = it_uses T s).
Proof.
  intros (Hb & Hn & Hl) W.
  assert (forall s, it_find T' s = it_find T s) as Hf by (intros s; unfold it_find; by rewrite Hb).
  split_and!; [split|done|].
  - rewrite Hb. apply W.
  - intros s id. rewrite Hf, Hn. apply W.
  - rewrite Hn. apply W.
  - rewrite Hl, Hn. apply W.
  - intros s. unfold it_uses. by rewrite Hf, Hn.
Qed.

Lemma it_mint_any ok_arr ok_node T s :
  match it_mint ok_arr ok_node T s with
  | (T', None) => it_same T T'
  | (T', Some id) => it_mint true true T s = (T', Some id)
  end.
Proof.
  unfold it_mint. destruct (INTERN_MAX <=? _)%nat; [done|]. cbn zeta. rewrite andb_false_r.
  destruct (_ =? it_cap T)%nat, ok_arr, ok_node; done.
Qed.
