(* ===== verification/TagIndex.v ===== *)
(** * The inverted tag index (src/src/storage/tag_index.c)

    A chained table of tags; each node carries the ids of the records with
    that tag, sorted ascending. Refines the finite set of (tag, id) pairs. *)

From S2P Require Import Prelude Endian SortedArray StrTable.

(** ** Data *)

Record TagNode := mkTagNode { tn_tag : list Z; tn_ids : list Z; tn_cap : nat }.

#[export, refine] Instance TagNode_buckets : Buckets TagNode := {| nbuckets := NBUCKETS |}.
Proof. done. Defined.

(** [buckets[b]] is the chain of bucket [b], head first. *)
Record TagIndex := mkTagIndex { tg_buckets : list (list TagNode) }.

(** ** Operations *)

Definition tag_index_create (ok : bool) : option TagIndex :=
  if ok then Some (mkTagIndex tbl_empty) else None.

Definition find_node (t : TagIndex) (tag : list Z) : option TagNode :=
  tbl_find tn_tag (tg_buckets t) tag.

Definition tag_index_count (t : option TagIndex) : nat :=
  match t with None => 0%nat | Some t => length (concat (tg_buckets t)) end.

(** [sizeof (TagIndex)] and [sizeof (TagNode)] on LP64. *)
Definition SIZEOF_TagIndex : Z := 8192.
Definition SIZEOF_TagNode : Z := 40.

Definition node_bytes (n : TagNode) : Z :=
  SIZEOF_TagNode + (Z.of_nat (length (tn_tag n)) + 1) + Z.of_nat (tn_cap n) * 8.

Definition tag_index_bytes (t : option TagIndex) : Z :=
  match t with
  | None => 0
  | Some t => foldl (fun total n => total + node_bytes n) SIZEOF_TagIndex
                (concat (tg_buckets t))
  end.

Definition id_lower_bound (ids : list Z) (id : Z) : nat := sa_lower_bound ids id.

(** [ok_node]: the node and its tag copy are allocated; [ok_ids]: the posting
    array can grow. The second component is true for the C result 0. A failed
    growth leaves a freshly linked, empty node behind. *)
Definition tag_index_add (ok_node ok_ids : bool) (t : TagIndex) (tag : list Z) (id : Z)
  : TagIndex * bool :=
  let place (bs : list (list TagNode)) (n : TagNode) : TagIndex * bool :=
    match sa_add 8 ok_ids (tn_ids n) (tn_cap n) id with
    | None => (mkTagIndex bs, false)
    | Some (ids, cap) =>
        (mkTagIndex (tbl_update tn_tag (fun n => Some (mkTagNode (tn_tag n) ids cap)) bs tag),
         true)
    end in
  match find_node t tag with
  | Some n => place (tg_buckets t) n
  | None =>
      if negb ok_node then (t, false)
      else
        let n := mkTagNode tag [] 0 in
        place (tbl_push tn_tag (tg_buckets t) n) n
  end.

(** Delete the id from the node's array; a node left empty is unlinked. *)
Definition drop_id (id : Z) (n : TagNode) : option TagNode :=
  let ids := sa_del (tn_ids n) id in
  if (length ids =? 0)%nat then None else Some (mkTagNode (tn_tag n) ids (tn_cap n)).

Definition tag_index_remove (t : TagIndex) (tag : list Z) (id : Z) : TagIndex :=
  mkTagIndex (tbl_update tn_tag (drop_id id) (tg_buckets t) tag).

(** The [in_all] test against [tags[1..]]. *)
Definition in_all (t : TagIndex) (tags : list (list Z)) (id : Z) : bool :=
  forallb (fun tag =>
    match find_node t tag with
    | None => false
    | Some nj => sa_at (tn_ids nj) (id_lower_bound (tn_ids nj) id) id
    end) tags.

(** Append to the result array, doubling it when full. *)
Definition acc_push (ok : bool) (acc : list Z) (cap : nat) (id : Z) : option (list Z * nat) :=
  let full := (length acc =? cap)%nat in
  if full && negb ok then None
  else Some (acc ++ [id], if full then (cap * 2)%nat else cap).

Definition query_all (ok : bool) (t : TagIndex) (base : TagNode) (rest : list (list Z))
  : option (list Z * nat) :=
  foldl (fun st id =>
    st ≫= fun '(acc, cap) =>
      if in_all t rest id then acc_push ok acc cap id else Some (acc, cap))
    (Some ([], 16%nat)) (tn_ids base).

Definition merge_tag (ok : bool) (t : TagIndex) (st : option (list Z * nat)) (tag : list Z)
  : option (list Z * nat) :=
  match find_node t tag with
  | None => st
  | Some nj =>
      foldl (fun st id => st ≫= fun '(acc, cap) => sa_add 16 ok acc cap id) st (tn_ids nj)
  end.

(** [ok_acc]: the first allocation; [ok]: every later growth. *)
Definition tag_index_query (ok_acc ok : bool) (t : TagIndex) (tags : list (list Z))
  (match_all : bool) : option (list Z) :=
  match tags with
  | [] => Some []
  | tag0 :: rest =>
      if negb ok_acc then None
      else if match_all then
        match find_node t tag0 with
        | None => Some []
        | Some base => fst <$> query_all ok t base rest
        end
      else fst <$> foldl (merge_tag ok t) (Some ([], 16%nat)) tags
  end.

(** ** Specification: a set of (tag, id) pairs *)

Inductive TagOp := OpAdd (tag : list Z) (id : Z) | OpRemove (tag : list Z) (id : Z).

Definition spec_step (s : gset (list Z * Z)) (o : TagOp) : gset (list Z * Z) :=
  match o with
  | OpAdd tag id => {[ (tag, id) ]} ∪ s
  | OpRemove tag id => s ∖ {[ (tag, id) ]}
  end.
Definition spec_run (ops : list TagOp) : gset (list Z * Z) := foldl spec_step ∅ ops.

Definition op_step (t : TagIndex) (o : TagOp) : TagIndex :=
  match o with
  | OpAdd tag id => fst (tag_index_add true true t tag id)
  | OpRemove tag id => tag_index_remove t tag id
  end.
Definition op_run (ops : list TagOp) : TagIndex := foldl op_step (mkTagIndex tbl_empty) ops.

(** The ids filed under a tag. *)
Definition tag_ids (t : TagIndex) (tag : list Z) : list Z :=
  match find_node t tag with Some n => tn_ids n | None => [] end.

(** The table is well formed, every posting array is sorted, fits its
    allocation and is not empty. *)
Record tag_wf (t : TagIndex) : Prop := {
  gw_tbl : tbl_wf tn_tag (tg_buckets t);
  gw_sorted : forall tag n, find_node t tag = Some n ->
    strictly_sorted (tn_ids n) /\ (length (tn_ids n) <= tn_cap n)%nat /\ tn_ids n <> []
}.

Definition tag_refines (t : TagIndex) (s : gset (list Z * Z)) : Prop :=
  tag_wf t /\ forall tag id, id ∈ tag_ids t tag <-> (tag, id) ∈ s.

Lemma tag_ids_sorted t tag : tag_wf t -> strictly_sorted (tag_ids t tag).
Proof.
  intros W. unfold tag_ids. destruct (find_node t tag) as [n|] eqn:E; [|constructor].
  by apply (gw_sorted t W tag).
Qed.

(** Effect of writing a node's posting array. *)
Lemma find_node_set bs tag ids cap tag' :
  tbl_wf tn_tag bs ->
  find_node (mkTagIndex (tbl_update tn_tag (fun n => Some (mkTagNode (tn_tag n) ids cap)) bs tag)) tag'
  = if bool_decide (tag' = tag)
    then (fun n => mkTagNode (tn_tag n) ids cap) <$> tbl_find tn_tag bs tag
    else tbl_find tn_tag bs tag'.
Proof.
  intros W. unfold find_node. cbn [tg_buckets]. rewrite tbl_find_update; [done| |done].
  by intros n n' [= <-].
Qed.

Lemma set_node_refines bs n tag id ids cap s :
  tbl_wf tn_tag bs -> tbl_find tn_tag bs tag = Some n ->
  (forall tag' m, tag' <> tag -> tbl_find tn_tag bs tag' = Some m ->
     strictly_sorted (tn_ids m) /\ (length (tn_ids m) <= tn_cap m)%nat /\ tn_ids m <> []) ->
  (forall tag' id', tag' <> tag ->
     id' ∈ tag_ids (mkTagIndex bs) tag' <-> (tag', id') ∈ s) ->
  strictly_sorted ids -> (length ids <= cap)%nat ->
  (forall id', id' ∈ ids <-> id' = id \/ (tag, id') ∈ s) ->
  tag_refines
    (mkTagIndex (tbl_update tn_tag (fun n => Some (mkTagNode (tn_tag n) ids cap)) bs tag))
    ({[ (tag, id) ]} ∪ s).
Proof.
  intros W Hn Hoth Hs Hsort Hcap Hids. split; [split|].
  - by apply tbl_update_wf; [intros ? ? [= <-]|].
  - intros tag' m. rewrite find_node_set by done. case_bool_decide as E.
    + rewrite Hn. intros [= <-]. cbn. split_and!; [done|done|].
      intros ->. by apply (not_elem_of_nil id), Hids; left.
    + intros Hm. by apply (Hoth tag').
  - intros tag' id'. unfold tag_ids. rewrite find_node_set by done. case_bool_decide as E.
    + subst tag'. rewrite Hn. cbn. rewrite Hids. set_solver.
    + pose proof (Hs tag' id' E) as Hs'. unfold tag_ids, find_node in Hs'. simpl in Hs'.
      rewrite Hs'. set_solver.
Qed.

Lemma add_refines t s tag id :
  tag_refines t s ->
  exists t', tag_index_add true true t tag id = (t', true) /\
    tag_refines t' ({[ (tag, id) ]} ∪ s).
Proof.
  intros [W Hs]. unfold tag_index_add. cbn zeta. cbn [negb].
  destruct (find_node t tag) as [n|] eqn:En.
  - destruct (gw_sorted t W tag n En) as (Hsn & Hcn & _).
    destruct (sa_add_ok 8 (tn_ids n) (tn_cap n) id) as [[ids cap] Ea]. rewrite Ea.
    destruct (sa_add_spec _ _ _ _ _ _ _ Hsn Ea) as [Hsi Hel].
    eexists. split; [done|]. eapply set_node_refines; try done.
    + apply W.
    + intros tag' m _ Hm. by apply (gw_sorted t W tag').
    + intros tag' id' _. apply Hs.
    + eapply (sa_add_cap 8 true (tn_ids n) (tn_cap n)); [lia|done|done].
    + intros id'. rewrite Hel. specialize (Hs tag id'). unfold tag_ids in Hs.
      rewrite En in Hs. by rewrite Hs.
  - set (n := mkTagNode tag [] 0).
    destruct (sa_add_ok 8 (tn_ids n) (tn_cap n) id) as [[ids cap] Ea]. rewrite Ea.
    assert (strictly_sorted (tn_ids n)) as Hsn by constructor.
    destruct (sa_add_spec _ _ _ _ _ _ _ Hsn Ea) as [Hsi Hel].
    pose proof (gw_tbl t W) as WT.
    eexists. split; [done|]. eapply (set_node_refines _ n); try done.
    + by apply tbl_push_wf.
    + rewrite tbl_find_push by done. by rewrite bool_decide_true.
    + intros tag' m Hne. rewrite tbl_find_push, bool_decide_false by done.
      intros Hm. by apply (gw_sorted t W tag').
    + intros tag' id' Hne. rewrite <- Hs. unfold tag_ids, find_node. cbn [tg_buckets].
      by rewrite tbl_find_push, bool_decide_false.
    + eapply (sa_add_cap 8 true (tn_ids n) (tn_cap n)); [lia|done|done].
    + intros id'. rewrite Hel. cbn [tn_ids n]. specialize (Hs tag id').
      unfold tag_ids in Hs. rewrite En in Hs. by rewrite Hs.
Qed.

Lemma find_node_remove t tag id tag' :
  tag_wf t ->
  find_node (tag_index_remove t tag id) tag'
  = if bool_decide (tag' = tag) then find_node t tag ≫= drop_id id else find_node t tag'.
Proof.
  intros W. unfold find_node, tag_index_remove. cbn [tg_buckets].
  apply tbl_find_update; [|apply W]. unfold drop_id. intros n n'. cbn zeta.
  case_if; [done|]. by intros [= <-].
Qed.

Lemma remove_refines t s tag id :
  tag_refines t s -> tag_refines (tag_index_remove t tag id) (s ∖ {[ (tag, id) ]}).
Proof.
  intros [W Hs].
  assert (forall n, strictly_sorted (tn_ids n) ->
    match drop_id id n with
    | Some m => tn_tag m = tn_tag n /\ strictly_sorted (tn_ids m) /\ tn_ids m <> [] /\
        ((length (tn_ids n) <= tn_cap n) -> length (tn_ids m) <= tn_cap m)%nat /\
        forall id', id' ∈ tn_ids m <-> id' ∈ tn_ids n /\ id' <> id
    | None => forall id', id' ∈ tn_ids n -> id' = id
    end) as Hdrop.
  { intros n Hsn. destruct (sa_del_spec (tn_ids n) id Hsn) as [H1 H2]. unfold drop_id.
    cbn zeta. case_if.
    - apply nil_length_inv in E. intros id' Hid. destruct (decide (id' = id)); [done|].
      exfalso. apply (not_elem_of_nil id'). rewrite <- E. by apply H2.
    - cbn. split_and!; auto.
      + intros E0. rewrite E0 in E. done.
      + unfold sa_del. cbn zeta. case_if; [|done].
        intros. rewrite length_remove_at; [lia|]. unfold sa_at in E0. by zbool. }
  split; [split|].
  - apply tbl_update_wf; [|apply W]. intros n n'. unfold drop_id. cbn zeta.
    case_if; [done|]. by intros [= <-].
  - intros tag' m. rewrite find_node_remove by done. case_bool_decide as E.
    + destruct (find_node t tag) as [n|] eqn:En; [|done]. cbn. intros Em.
      destruct (gw_sorted t W tag n En) as (Hsn & Hcn & _).
      specialize (Hdrop n Hsn). rewrite Em in Hdrop. naive_solver.
    + apply (gw_sorted t W).
  - intros tag' id'. unfold tag_ids. rewrite find_node_remove by done.
    specialize (Hs tag' id'). unfold tag_ids in Hs. case_bool_decide as E.
    + subst tag'. destruct (find_node t tag) as [n|] eqn:En; cbn in *; [|set_solver].
      destruct (gw_sorted t W tag n En) as (Hsn & _ & _).
      specialize (Hdrop n Hsn). destruct (drop_id id n) as [m|].
      * destruct Hdrop as (_ & _ & _ & _ & Hel). rewrite Hel, Hs. set_solver.
      * rewrite elem_of_difference, elem_of_singleton, <- Hs. set_solver.
    + rewrite Hs. set_solver.
Qed.

Lemma empty_refines : tag_refines (mkTagIndex tbl_empty) ∅.
Proof.
  split; [split|].
  - apply tbl_empty_wf.
  - intros tag n. unfold find_node. cbn [tg_buckets]. by rewrite tbl_find_empty.
  - intros tag id. unfold tag_ids, find_node. cbn [tg_buckets]. rewrite tbl_find_empty. set_solver.
Qed.

Lemma op_run_refines ops : tag_refines (op_run ops) (spec_run ops).
Proof.
  unfold op_run, spec_run. generalize empty_refines.
  generalize (mkTagIndex tbl_empty) (∅ : gset (list Z * Z)).
  induction ops as [|o ops IH]; intros t s Hts; [done|]. simpl. apply IH.
  destruct o as [tag id|tag id]; simpl; [|by apply remove_refines].
  destruct (add_refines t s tag id Hts) as (t' & -> & Ht'). done.
Qed.

(** ** Queries *)

Lemma in_all_spec t tags id :
  tag_wf t -> in_all t tags id = true <-> Forall (fun tag => id ∈ tag_ids t tag) tags.
Proof.
  intros W. unfold in_all. rewrite forallb_forall, Forall_forall.
  split; intros Hall tag Htag.
  - apply list_elem_of_In in Htag. specialize (Hall tag Htag). unfold tag_ids.
    destruct (find_node t tag) as [n|] eqn:En; [|done].
    apply sa_at_spec; [|done]. by apply (gw_sorted t W tag).
  - apply list_elem_of_In in Htag. specialize (Hall tag Htag). unfold tag_ids in Hall.
    destruct (find_node t tag) as [n|] eqn:En; [|by apply not_elem_of_nil in Hall].
    apply sa_at_spec; [|done]. by apply (gw_sorted t W tag).
Qed.

(** The intersection loop filters the first tag's array. *)
Lemma query_all_filter t base rest :
  exists cap, query_all true t base rest
    = Some (filter (fun id => in_all t rest id = true) (tn_ids base), cap).
Proof.
  unfold query_all.
  enough (forall ids acc cap, exists cap',
    foldl (fun st id => st ≫= fun '(acc, cap) =>
      if in_all t rest id then acc_push true acc cap id else Some (acc, cap))
      (Some (acc, cap)) ids
    = Some (acc ++ filter (fun id => in_all t rest id = true) ids, cap')) as Hgen
    by (destruct (Hgen (tn_ids base) [] 16%nat) as [c E]; by exists c).
  induction ids as [|id ids IH]; intros acc cap.
  { exists cap. by rewrite app_nil_r. }
  simpl foldl. destruct (in_all t rest id) eqn:E.
  - unfold acc_push. rewrite andb_false_r. rewrite filter_cons_True by done.
    edestruct IH as [c Hc]. exists c. etransitivity; [apply Hc|].
    by rewrite <- (assoc_L (++)).
  - rewrite filter_cons_False by congruence. apply IH.
Qed.

(** Merging one array into the sorted accumulator adds its elements. *)
Lemma merge_ids ids acc cap :
  strictly_sorted acc ->
  exists acc' cap',
    foldl (fun st id => st ≫= fun '(acc, cap) => sa_add 16 true acc cap id)
      (Some (acc, cap)) ids = Some (acc', cap') /\
    strictly_sorted acc' /\ forall x, x ∈ acc' <-> x ∈ ids \/ x ∈ acc.
Proof.
  revert acc cap. induction ids as [|id ids IH]; intros acc cap Hs.
  { exists acc, cap. split_and!; [done|done|]. set_solver. }
  simpl foldl. destruct (sa_add_ok 16 acc cap id) as [[acc1 cap1] E].
  destruct (sa_add_spec _ _ _ _ _ _ _ Hs E) as [H1 H2].
  destruct (IH acc1 cap1 H1) as (acc' & cap' & E' & H3 & H4).
  exists acc', cap'. split_and!; [|done|].
  - change (mbind _ (Some (acc, cap))) with (sa_add 16 true acc cap id). by rewrite E.
  - intros x. rewrite H4, H2. set_solver.
Qed.

Lemma merge_tags t tags acc cap :
  strictly_sorted acc ->
  exists acc' cap', foldl (merge_tag true t) (Some (acc, cap)) tags = Some (acc', cap') /\
    strictly_sorted acc' /\
    forall x, x ∈ acc' <-> Exists (fun tag => x ∈ tag_ids t tag) tags \/ x ∈ acc.
Proof.
  revert acc cap. induction tags as [|tag tags IH]; intros acc cap Hs.
  { exists acc, cap. split_and!; [done|done|]. intros x. rewrite Exists_nil. tauto. }
  simpl foldl. unfold merge_tag at 2.
  destruct (find_node t tag) as [n|] eqn:En.
  - destruct (merge_ids (tn_ids n) acc cap Hs) as (acc1 & cap1 & E1 & H1 & H2).
    rewrite E1. destruct (IH acc1 cap1 H1) as (acc' & cap' & E' & H3 & H4).
    exists acc', cap'. split_and!; [done|done|]. intros x.
    rewrite H4, H2, Exists_cons. unfold tag_ids at 2. rewrite En. tauto.
  - destruct (IH acc cap Hs) as (acc' & cap' & E' & H3 & H4).
    exists acc', cap'. split_and!; [done|done|]. intros x.
    rewrite H4, Exists_cons. unfold tag_ids at 2. rewrite En. set_solver.
Qed.

(** The ids a query asks for, in the set of pairs. *)
Definition wanted (s : gset (list Z * Z)) (tags : list (list Z)) (match_all : bool) (id : Z)
  : Prop :=
  tags <> [] /\
  if match_all then Forall (fun tag => (tag, id) ∈ s) tags
  else Exists (fun tag => (tag, id) ∈ s) tags.

Lemma tag_query_refines t s tags match_all :
  tag_refines t s ->
  exists l, tag_index_query true true t tags match_all = Some l /\
    strictly_sorted l /\ forall id, id ∈ l <-> wanted s tags match_all id.
Proof.
  intros [W Hs]. unfold wanted.
  destruct tags as [|tag0 rest].
  { exists []. split_and!; [done|constructor|]. set_solver. }
  unfold tag_index_query. cbn [negb]. destruct match_all.
  - destruct (find_node t tag0) as [n|] eqn:En.
    + destruct (query_all_filter t n rest) as [cap ->]. eexists. split; [done|]. cbn [fst].
      destruct (gw_sorted t W tag0 n En) as (Hsn & _ & _).
      split; [by apply strictly_sorted_filter|]. intros id.
      rewrite list_elem_of_filter, in_all_spec, Forall_cons by done.
      rewrite <- (Hs tag0). unfold tag_ids at 2. rewrite En.
      setoid_rewrite Hs. naive_solver.
    + exists []. split_and!; [done|constructor|]. intros id.
      rewrite Forall_cons, <- (Hs tag0). unfold tag_ids. rewrite En. set_solver.
  - destruct (merge_tags t (tag0 :: rest) [] 16) as (acc & cap & E & H1 & H2); [constructor|].
    rewrite E. exists acc. split_and!; [done|done|]. intros id.
    rewrite H2. setoid_rewrite Hs. split.
    + intros [?|?]; [by split|set_solver].
    + intros [_ ?]. by left.
Qed.

(** After any sequence of additions and removals, a tag query returns the
    strictly ascending list of exactly the ids that carry all (respectively
    any) of the requested tags; an empty request returns nothing. *)
Theorem tag_index_query_exact ops tags match_all :
  exists l, tag_index_query true true (op_run ops) tags match_all = Some l /\
    strictly_sorted l /\
    forall id, id ∈ l <-> wanted (spec_run ops) tags match_all id.
Proof. apply tag_query_refines, op_run_refines. Qed.

(** The index holds one node per tag in use and no other, so removing the
    last id of a tag reclaims its node: after any sequence of additions and
    removals the node count is the number of distinct tags of the set. *)
Theorem tag_index_no_empty_nodes ops :
  tag_index_count (Some (op_run ops)) = size (set_map fst (spec_run ops) : gset (list Z)).
Proof.
  destruct (op_run_refines ops) as [W Hs]. set (t := op_run ops) in *.
  unfold tag_index_count. pose proof (gw_tbl t W) as WT.
  change (concat (tg_buckets t)) with (tbl_nodes (tg_buckets t)).
  rewrite <- (length_map tn_tag), <- (size_list_to_set (C := gset (list Z)))
    by (by apply tbl_names_nodup).
  f_equal. apply set_eq. intros tag. rewrite elem_of_list_to_set, list_elem_of_fmap, elem_of_map.
  split.
  - intros (n & -> & Hn). apply (elem_of_tbl_nodes tn_tag) in Hn; [|done].
    destruct (gw_sorted t W (tn_tag n) n Hn) as (_ & _ & Hne).
    destruct (tn_ids n) as [|id ids] eqn:Ei; [done|]. exists (tn_tag n, id).
    split; [done|]. apply Hs. unfold tag_ids, find_node. rewrite Hn, Ei. left.
  - intros ([tag' id] & -> & Hin). apply Hs in Hin. unfold tag_ids in Hin.
    destruct (find_node t tag') as [n|] eqn:En; [|set_solver]. exists n.
    unfold find_node, tbl_find in En. apply chain_find_Some in En as E'.
    destruct E' as [_ Ht]. split; [done|]. apply (elem_of_tbl_nodes tn_tag); [done|].
    by rewrite Ht.
Qed.
