(* ===== verification/UsageIndex.v ===== *)
(** * Usage feedback (src/src/storage/usage_index.c)

    Recall counters per tracked record, in an open-addressed table with
    tombstones, with a checkpoint image. Atomic counters are read and written
    one operation at a time. *)

From S2P Require Import Prelude Endian ProbeTable.

(** ** Data *)

(** [atomic_uint_fast32_t] and [atomic_uint_fast64_t] are 64 bits wide on
    LP64. *)
Record UsageEntry := mkUsageEntry {
  ue_id : Z; ue_count : Z; ue_last_ms : Z; ue_state : SlotState
}.

#[export, refine] Instance UsageEntry_slot : ProbeSlot UsageEntry Z := {|
  slot_state := ue_state; slot_key := ue_id; key_hash := id;
  zero_slot := mkUsageEntry 0 0 0 SLOT_EMPTY
|}.
Proof. reflexivity. Defined.

Abbreviation UsageIndex := (PTable UsageEntry).

Definition USG_MAGIC : list Z := [65; 85; 83; 71].
Definition USG_VERSION : Z := 1.
Definition USG_HDR : nat := 16.
Definition USG_ENTRY : nat := 20.
Definition USG_CAP0 : nat := 256.

(** ** Operations *)

Definition usage_index_create : UsageIndex := pt_empty.

(** A [NULL] index is [None]; the slot is its position. *)
Definition slot_of (u : option UsageIndex) (id : Z) : option nat :=
  match u with None => None | Some u => pt_find u id end.

Definition grow (ok : bool) (u : UsageIndex) : option UsageIndex := pt_grow USG_CAP0 ok u.

(** The claiming loop of [usage_index_track]; the id is known to be absent. *)
Fixpoint track_loop (n probe : nat) (reuse : option nat) (ss : list UsageEntry)
  (cap : nat) (id : Z) : option nat :=
  match n with
  | O => None
  | S n' =>
      let j := probe_pos cap id probe in
      let e := slot_at ss j in
      let reuse := match ue_state e, reuse with SLOT_DEAD, None => Some j | _, _ => reuse end in
      match ue_state e with
      | SLOT_EMPTY => Some (default j reuse)
      | _ => track_loop n' (S probe) reuse ss cap id
      end
  end.

(** The second component is true for the C result 0. *)
Definition usage_index_track (ok : bool) (u : option UsageIndex) (id : Z)
  : option UsageIndex * bool :=
  match u with
  | None => (None, true)
  | Some u0 =>
      match slot_of u id with
      | Some _ => (u, true)
      | None =>
          match (if pt_needs_grow u0 then grow ok u0 else Some u0) with
          | None => (u, false)
          | Some u1 =>
              match track_loop (pt_cap u1) 0 None (pt_slots u1) (pt_cap u1) id with
              | None => (Some u1, false)
              | Some j =>
                  let used := match ue_state (slot_at (pt_slots u1) j) with
                              | SLOT_EMPTY => S (pt_used u1)
                              | _ => pt_used u1
                              end in
                  (Some (mkPTable (<[j := mkUsageEntry id 0 0 SLOT_LIVE]> (pt_slots u1))
                           (pt_cap u1) (S (pt_live u1)) used), true)
              end
          end
      end
  end.

Definition usage_index_untrack (u : option UsageIndex) (id : Z) : option UsageIndex :=
  match u, slot_of u id with
  | Some u0, Some j =>
      let e := slot_at (pt_slots u0) j in
      Some (pt_retire u0 j (mkUsageEntry (ue_id e) (ue_count e) (ue_last_ms e) SLOT_DEAD))
  | _, _ => u
  end.

Definition usage_index_record (u : option UsageIndex) (id now_ms : Z) : option UsageIndex :=
  match u, slot_of u id with
  | Some u0, Some j =>
      let e := slot_at (pt_slots u0) j in
      Some (pt_set u0 j (mkUsageEntry (ue_id e) (wrap 64 (ue_count e + 1)) now_ms (ue_state e)))
  | _, _ => u
  end.

(** Count (truncated to 32 bits) and last recall; [None] is the C result -1. *)
Definition usage_index_get (u : option UsageIndex) (id : Z) : option (Z * Z) :=
  match u, slot_of u id with
  | Some u0, Some j =>
      let e := slot_at (pt_slots u0) j in Some (wrap 32 (ue_count e), ue_last_ms e)
  | _, _ => None
  end.

Definition usage_index_count (u : option UsageIndex) : nat :=
  match u with None => 0%nat | Some u => pt_live u end.

(** [sizeof (UsageIndex)] and [sizeof (UsageEntry)] on LP64 are 32 bytes. *)
Definition usage_index_bytes (u : option UsageIndex) : Z :=
  match u with None => 0 | Some u => 32 + Z.of_nat (pt_cap u) * 32 end.

Definition usage_index_total_recalls (u : option UsageIndex) : Z :=
  match u with
  | None => 0
  | Some u =>
      foldl (fun total e =>
        match ue_state e with SLOT_LIVE => wrap 64 (total + ue_count e) | _ => total end)
        0 (pt_slots u)
  end.

(** ** Checkpoint image *)

Definition usg_image (e : UsageEntry) : list Z :=
  aegis_put_u64le (ue_id e) ++ aegis_put_u32le (wrap 32 (ue_count e))
  ++ aegis_put_u64le (ue_last_ms e).

(** The writing loop: [room] entries fit in the rest of the buffer. *)
Fixpoint usg_entries (room : nat) (ss : list UsageEntry) : list Z :=
  match ss, room with
  | [], _ | _, O => []
  | e :: ss', S room' =>
      match ue_state e with
      | SLOT_LIVE =>
          if wrap 32 (ue_count e) =? 0 then usg_entries room ss'
          else usg_image e ++ usg_entries room' ss'
      | _ => usg_entries room ss'
      end
  end.

Definition usg_recalled (e : UsageEntry) : bool :=
  match ue_state e with SLOT_LIVE => negb (ue_count e =? 0) | _ => false end.

(** [junk]: what [malloc] returns, for the bytes the loop does not reach. *)
Definition usage_index_serialize (ok : bool) (junk : list Z) (u : option UsageIndex)
  : option (list Z) :=
  match u with
  | None => None
  | Some u =>
      let n := length (filter (fun e => usg_recalled e = true) (pt_slots u)) in
      let len := (USG_HDR + n * USG_ENTRY)%nat in
      if ok then
        let written := USG_MAGIC ++ aegis_put_u32le USG_VERSION ++ aegis_put_u64le (Z.of_nat n)
                       ++ usg_entries n (pt_slots u) in
        Some (take len (written ++ drop (length written) junk))
      else None
  end.

Definition load_one (u : UsageIndex) (p : list Z) : UsageIndex :=
  let id := aegis_get_u64le p in
  match pt_find u id with
  | None => u
  | Some j =>
      let e := slot_at (pt_slots u) j in
      pt_set u j (mkUsageEntry (ue_id e) (aegis_get_u32le (drop 8 p))
                    (aegis_get_u64le (drop 12 p)) (ue_state e))
  end.

Fixpoint usg_load_loop (n : nat) (u : UsageIndex) (p : list Z) : UsageIndex :=
  match n with
  | O => u
  | S n' => usg_load_loop n' (load_one u p) (drop USG_ENTRY p)
  end.

Definition usage_index_load_buf (u : option UsageIndex) (buf : option (list Z))
  : option UsageIndex * bool :=
  match u, buf with
  | Some u0, Some b =>
      if (length b <? USG_HDR)%nat then (u, false)
      else if negb (bool_decide (take 4 b = USG_MAGIC))
           || negb (aegis_get_u32le (drop 4 b) =? USG_VERSION) then (u, false)
      else
        let n := aegis_get_u64le (drop 8 b) in
        if n >? (Z.of_nat (length b) - Z.of_nat USG_HDR) / Z.of_nat USG_ENTRY then (u, false)
        else (Some (usg_load_loop (Z.to_nat n) u0 (drop USG_HDR b)), true)
  | _, _ => (u, false)
  end.

(** ** Specification: a finite map from id to its counters *)

Definition counters (e : UsageEntry) : Z * Z := (ue_count e, ue_last_ms e).

Definition usage_refines (u : UsageIndex) (m : gmap Z (Z * Z)) : Prop :=
  pt_wf u /\ forall id, counters <$> pt_get u id = m !! id.

Inductive UsageOp :=
  | UTrack (id : Z) | UUntrack (id : Z) | URecord (id now_ms : Z).

Definition uop_step (u : option UsageIndex) (o : UsageOp) : option UsageIndex :=
  match o with
  | UTrack id => fst (usage_index_track true u id)
  | UUntrack id => usage_index_untrack u id
  | URecord id now => usage_index_record u id now
  end.

Definition uspec_step (m : gmap Z (Z * Z)) (o : UsageOp) : gmap Z (Z * Z) :=
  match o with
  | UTrack id => match m !! id with Some _ => m | None => <[id := (0, 0)]> m end
  | UUntrack id => delete id m
  | URecord id now => alter (fun '(c, _) => (wrap 64 (c + 1), now)) id m
  end.

Lemma track_loop_put n probe reuse ss cap id :
  (forall j, ~ live_at ss j id) ->
  put_loop n probe reuse ss cap id = inr <$> track_loop n probe reuse ss cap id.
Proof.
  intros Hk. revert probe reuse. induction n as [|n IH]; intros probe reuse; [done|].
  simpl. destruct (ue_state (slot_at ss (probe_pos cap id probe))) eqn:Es.
  - done.
  - rewrite decide_False; [apply IH|]. intros Ek.
    apply (Hk (probe_pos cap id probe)). by apply slot_at_live.
  - rewrite IH. by destruct reuse.
Qed.

Lemma cap0_ok : (exists e, USG_CAP0 = (2 ^ e)%nat) /\ (2 <= USG_CAP0)%nat.
Proof. split; [by exists 8%nat|unfold USG_CAP0; lia]. Qed.

Lemma track_refines u m id :
  usage_refines u m ->
  exists u', usage_index_track true (Some u) id = (Some u', true) /\
    usage_refines u' (uspec_step m (UTrack id)).
Proof.
  intros [W Hm]. unfold usage_index_track, slot_of. cbn [uspec_step].
  destruct (pt_find u id) as [j|] eqn:Ef.
  { exists u. split; [done|]. specialize (Hm id) as Hid.
    destruct (m !! id) eqn:Em; [done|]. apply fmap_None in Hid.
    apply pt_get_None in Hid; [congruence|done]. }
  assert (m !! id = None) as ->.
  { rewrite <- Hm. apply pt_get_None in Ef as ->; done. }
  destruct cap0_ok as [Hc0 Hc2].
  destruct (pt_put_spec USG_CAP0 u id (mkUsageEntry id 0 0 SLOT_LIVE) Hc0 Hc2 W)
    as (u' & j & Ep & W' & _ & _ & Hget); [done|done|].
  unfold pt_put in Ep. unfold grow.
  destruct (if pt_needs_grow u then _ else _) as [u1|] eqn:Eg; [|done].
  assert (pt_wf u1 /\ pt_get u1 id = None) as [W1 Hn1].
  { apply pt_get_None in Ef; [|done]. destruct (pt_needs_grow u) eqn:En.
    - destruct (pt_grow_spec USG_CAP0 u Hc0 Hc2 W) as (u2 & E2 & W2 & _ & _ & Hg2).
      rewrite E2 in Eg. injection Eg as <-. split; [done|]. by rewrite Hg2.
    - injection Eg as <-. done. }
  rewrite track_loop_put in Ep.
  2:{ by apply pt_find_None, pt_get_None. }
  destruct (track_loop _ _ _ _ _ _) as [j'|]; [|done]. simpl in Ep. injection Ep as Eu _.
  exists u'. split; [by rewrite <- Eu|]. split; [done|]. intros id'. rewrite Hget.
  case_decide as E.
  - subst id'. rewrite lookup_insert_eq. apply pt_get_None in Ef; [|done]. by rewrite Ef.
  - by rewrite lookup_insert_ne.
Qed.

Lemma slot_of_found u id j :
  pt_wf u -> pt_find u id = Some j ->
  exists e, pt_slots u !! j = Some e /\ slot_at (pt_slots u) j = e /\
    pt_get u id = Some e /\ is_live e /\ ue_id e = id.
Proof.
  intros W Hf. apply pt_find_spec in Hf as Hl; [|done]. destruct Hl as (e & He & Hl & Hk).
  exists e. split_and!; [done|by apply slot_at_lookup| |done|done].
  apply pt_get_spec; [done|]. by exists j.
Qed.

Lemma write_refines u m id j c l :
  usage_refines u m -> pt_find u id = Some j ->
  usage_refines (pt_set u j (mkUsageEntry (ue_id (slot_at (pt_slots u) j)) c l
                   (ue_state (slot_at (pt_slots u) j)))) (<[id := (c, l)]> m).
Proof.
  intros [W Hm] Hf. destruct (slot_of_found u id j W Hf) as (e & _ & -> & _ & Hl & Hk).
  destruct (pt_set_spec u id j (mkUsageEntry (ue_id e) c l (ue_state e)) W Hf) as [W' Hget];
    [done|done|].
  split; [done|]. intros id'. rewrite Hget. case_decide as E.
  - subst id'. by rewrite lookup_insert_eq.
  - by rewrite lookup_insert_ne.
Qed.

Lemma record_refines u m id now :
  usage_refines u m ->
  exists u', usage_index_record (Some u) id now = Some u' /\
    usage_refines u' (uspec_step m (URecord id now)).
Proof.
  intros R. pose proof R as [W Hm]. unfold usage_index_record, slot_of. cbn [uspec_step].
  destruct (pt_find u id) as [j|] eqn:Ef.
  - destruct (slot_of_found u id j W Ef) as (e & _ & He & Hge & _ & _).
    eexists. split; [done|]. cbn zeta.
    assert (m !! id = Some (counters e)) as Em by (by rewrite <- Hm, Hge).
    assert (alter (fun '(c, _) => (wrap 64 (c + 1), now)) id m
      = <[id := (wrap 64 (ue_count e + 1), now)]> m) as ->.
    { apply map_eq. intros i. destruct (decide (i = id)) as [->|].
      - by rewrite lookup_alter_eq, lookup_insert_eq, Em.
      - by rewrite lookup_alter_ne, lookup_insert_ne. }
    rewrite <- He. by apply write_refines.
  - exists u. split; [done|]. rewrite alter_id; [done|].
    intros x Hx. rewrite <- Hm in Hx. apply pt_get_None in Ef; [|done]. by rewrite Ef in Hx.
Qed.

Lemma untrack_refines u m id :
  usage_refines u m ->
  exists u', usage_index_untrack (Some u) id = Some u' /\
    usage_refines u' (uspec_step m (UUntrack id)).
Proof.
  intros R. pose proof R as [W Hm]. unfold usage_index_untrack, slot_of. cbn [uspec_step].
  destruct (pt_find u id) as [j|] eqn:Ef.
  - eexists. split; [done|]. cbn zeta.
    edestruct (pt_retire_spec u id j) as [W' Hget]; [done|done| |split; [done|]].
    { done. }
    intros id'. rewrite Hget. case_decide as E.
    + subst id'. by rewrite lookup_delete_eq.
    + by rewrite lookup_delete_ne.
  - exists u. split; [done|]. rewrite delete_id; [done|].
    rewrite <- Hm. apply pt_get_None in Ef; [|done]. by rewrite Ef.
Qed.

Lemma uops_refine ops u m :
  usage_refines u m ->
  exists u', foldl uop_step (Some u) ops = Some u' /\
    usage_refines u' (foldl uspec_step m ops).
Proof.
  revert u m. induction ops as [|o ops IH]; intros u m R; [by exists u|]. simpl.
  assert (exists u', uop_step (Some u) o = Some u' /\ usage_refines u' (uspec_step m o))
    as (u' & -> & R').
  { destruct o as [id|id|id now]; cbn [uop_step].
    - destruct (track_refines u m id R) as (u' & -> & ?). by exists u'.
    - by apply untrack_refines.
    - by apply record_refines. }
  by apply IH.
Qed.

Lemma create_refines : usage_refines usage_index_create ∅.
Proof. split; [apply pt_empty_wf|]. intros id. by rewrite lookup_empty. Qed.

Lemma refines_count u m : usage_refines u m -> pt_live u = size m.
Proof.
  intros [W Hm]. rewrite <- (live_keys_length u W), <- size_dom.
  rewrite <- (size_list_to_set (C := gset Z)) by (by apply live_keys_nodup).
  f_equal. apply set_eq. intros id. rewrite elem_of_list_to_set, elem_of_live_keys by done.
  rewrite elem_of_dom, <- Hm, fmap_is_Some. done.
Qed.

Lemma refines_get u m id :
  usage_refines u m ->
  usage_index_get (Some u) id = (fun '(c, l) => (wrap 32 c, l)) <$> (m !! id).
Proof.
  intros [W Hm]. unfold usage_index_get, slot_of. rewrite <- Hm.
  destruct (pt_find u id) as [j|] eqn:Ef.
  - destruct (slot_of_found u id j W Ef) as (e & _ & -> & -> & _ & _). done.
  - apply pt_get_None in Ef; [|done]. by rewrite Ef.
Qed.

(** Any sequence of track, untrack and record operations on a fresh index
    behaves as the same operations on a finite map: every id reads back its
    map entry (with the count shown in 32 bits), untracked ids read as absent,
    and the reported size is the number of tracked ids. *)
Theorem usage_index_implements_map ops :
  exists u, foldl uop_step (Some usage_index_create) ops = Some u /\
    let m := foldl uspec_step ∅ ops in
    usage_index_count (Some u) = size m /\
    forall id, usage_index_get (Some u) id = (fun '(c, l) => (wrap 32 c, l)) <$> (m !! id).
Proof.
  destruct (uops_refine ops _ _ create_refines) as (u & Eu & R).
  exists u. split; [done|]. cbn zeta. split; [by apply refines_count|].
  intros id. by apply refines_get.
Qed.

(** ** Saving and restoring the counters *)

(** The counters fit the fields of the image. *)
Definition image_ok (id : Z) (v : Z * Z) : Prop := u64 id /\ u32 (v.1) /\ u64 (v.2).

#[global] Instance image_ok_dec id v : Decision (image_ok id v).
Proof. unfold image_ok. apply _. Defined.

Lemma usg_image_length e : length (usg_image e) = USG_ENTRY.
Proof. done. Qed.

Lemma recalled_wrap e : u32 (ue_count e) -> wrap 32 (ue_count e) = ue_count e.
Proof. apply wrap_small. Qed.

(** With counts below 2^32 the writing loop fills the buffer with the images of
    the recalled entries, in slot order. *)
Lemma usg_entries_all ss :
  Forall (fun e => is_live e -> u32 (ue_count e)) ss ->
  usg_entries (length (filter (fun e => usg_recalled e = true) ss)) ss
  = concat (map usg_image (filter (fun e => usg_recalled e = true) ss)).
Proof.
  induction 1 as [|e ss He _ IH]; [done|].
  destruct (usg_recalled e) eqn:Er.
  - rewrite filter_cons_True by done. cbn [length map concat usg_entries].
    unfold usg_recalled in Er. destruct (ue_state e) eqn:Es; try done.
    rewrite recalled_wrap by (by apply He). apply negb_true_iff in Er. rewrite Er, IH. done.
  - rewrite filter_cons_False by congruence.
    assert (forall r, usg_entries (S r) (e :: ss) = usg_entries (S r) ss) as Hskip.
    { intros r. cbn [usg_entries]. unfold usg_recalled in Er.
      destruct (ue_state e) eqn:Es; try done.
      rewrite recalled_wrap by (by apply He). apply negb_false_iff in Er. by rewrite Er. }
    destruct (length (filter (fun e => usg_recalled e = true) ss)) eqn:El.
    + apply nil_length_inv in El. by rewrite El.
    + by rewrite Hskip.
Qed.

(** Restoring one entry writes it only over a tracked id. *)
Definition restore (m : gmap Z (Z * Z)) (e : UsageEntry) : gmap Z (Z * Z) :=
  match m !! ue_id e with Some _ => <[ue_id e := counters e]> m | None => m end.

Lemma load_one_refines v m e rest :
  usage_refines v m -> image_ok (ue_id e) (counters e) ->
  usage_refines (load_one v (usg_image e ++ rest)) (restore m e).
Proof.
  intros R (H1 & H2 & H3). pose proof R as [W Hm]. unfold load_one, restore, usg_image.
  cbn [counters fst snd] in *. rewrite recalled_wrap by done.
  rewrite <- !(assoc_L (++)). rewrite get_put_u64le by done. cbn zeta.
  change (drop 8 (aegis_put_u64le (ue_id e) ++ ?r)) with r.
  change (drop 12 (aegis_put_u64le (ue_id e) ++ aegis_put_u32le (ue_count e) ++ ?r)) with r.
  rewrite get_put_u32le, get_put_u64le by done.
  destruct (pt_find v (ue_id e)) as [j|] eqn:Ef.
  - destruct (slot_of_found v _ j W Ef) as (e0 & _ & _ & Hg & _ & _).
    rewrite <- Hm, Hg. cbn [fmap option_fmap option_map]. by apply write_refines.
  - apply pt_get_None in Ef; [|done]. by rewrite <- Hm, Ef.
Qed.

Lemma load_loop_refines es v m rest :
  usage_refines v m -> Forall (fun e => image_ok (ue_id e) (counters e)) es ->
  usage_refines (usg_load_loop (length es) v (concat (map usg_image es) ++ rest))
    (foldl restore m es).
Proof.
  revert v m. induction es as [|e es IH]; intros v m R Hes; [done|].
  apply Forall_cons in Hes as [He Hes]. cbn [length usg_load_loop map concat foldl].
  rewrite <- (assoc_L (++)). rewrite drop_app_length' by done.
  apply IH; [|done]. by apply load_one_refines.
Qed.

Lemma restore_lookup es m id :
  NoDup (map ue_id es) ->
  foldl restore m es !! id =
  match m !! id with
  | None => None
  | Some v => Some (from_option counters v (list_find (fun e => ue_id e = id) es ≫= fun p => Some p.2))
  end.
Proof.
  revert m. induction es as [|e es IH]; intros m Hnd; cbn [foldl map] in *.
  { by destruct (m !! id). }
  apply NoDup_cons in Hnd as [Hne Hnd]. rewrite IH by done. unfold restore.
  cbn [list_find]. destruct (decide (ue_id e = id)) as [E|E].
  - assert (list_find (fun e => ue_id e = id) es = None) as ->.
    { apply list_find_None, Forall_forall. intros x Hx Hid. apply Hne. rewrite E, <- Hid.
      apply list_elem_of_fmap. by exists x. }
    rewrite E. destruct (m !! id) eqn:Em; [by rewrite lookup_insert_eq|by rewrite Em].
  - assert ((match m !! ue_id e with Some _ => <[ue_id e := counters e]> m | None => m end) !! id
      = m !! id) as ->.
    { destruct (m !! ue_id e); [by rewrite lookup_insert_ne|done]. }
    destruct (m !! id); [|done]. f_equal. by destruct (list_find _ es) as [[? ?]|].
Qed.

(** What a restored id reads: the saved counters when it had been recalled,
    its own otherwise; an id that is no longer tracked stays untracked. *)
Definition restored (saved current : gmap Z (Z * Z)) (id : Z) : option (Z * Z) :=
  match current !! id with
  | None => None
  | Some v =>
      match saved !! id with
      | Some (c, l) => if c =? 0 then Some v else Some (c, l)
      | None => Some v
      end
  end.

Definition recalled_slots (u : UsageIndex) : list UsageEntry :=
  filter (fun e => usg_recalled e = true) (pt_slots u).

Lemma recalled_slots_sublist u : sublist (recalled_slots u) (live_slots u).
Proof.
  apply filter_impl_sublist. intros e. unfold usg_recalled, is_live. cbn.
  by destruct (ue_state e).
Qed.

Lemma recalled_slots_nodup u : pt_wf u -> NoDup (map ue_id (recalled_slots u)).
Proof.
  intros W. eapply sublist_NoDup; [|apply (fmap_sublist ue_id), recalled_slots_sublist].
  exact (live_keys_nodup u W).
Qed.

Lemma recalled_find u m id :
  usage_refines u m ->
  list_find (fun e => ue_id e = id) (recalled_slots u) ≫= (fun p => Some (counters p.2))
  = match m !! id with Some (c, l) => if c =? 0 then None else Some (c, l) | None => None end.
Proof.
  intros [W Hm]. destruct (list_find _ _) as [[i e]|] eqn:Ef; cbn.
  - apply list_find_Some in Ef as (Hi & Hid & _). apply list_elem_of_lookup_2 in Hi.
    unfold recalled_slots in Hi. apply list_elem_of_filter in Hi as [Hr Hi].
    unfold usg_recalled in Hr. destruct (ue_state e) eqn:Es; try done.
    assert (pt_get u id = Some e) as Hg.
    { rewrite <- Hid. apply (elem_of_live_slots u e W). apply list_elem_of_filter. done. }
    rewrite <- Hm, Hg. cbn. apply negb_true_iff in Hr. by rewrite Hr.
  - rewrite <- Hm. destruct (pt_get u id) as [e|] eqn:Hg; [|done]. cbn.
    apply pt_get_spec in Hg as (j & Hj & Hl & Hk); [|done].
    destruct (ue_count e =? 0) eqn:Ec; [done|]. exfalso.
    apply list_find_None in Ef. rewrite Forall_forall in Ef. apply (Ef e); [|done].
    apply list_elem_of_filter. split; [|by eapply list_elem_of_lookup_2].
    unfold usg_recalled, is_live in *. cbn in Hl. by rewrite Hl, Ec.
Qed.

(** Saving the counters of one index and loading the image into another
    always succeeds, restores exactly the recalled counters of the ids the
    second index tracks, and brings no untracked id back to life. *)
Theorem usage_checkpoint_roundtrip u mu v mv junk :
  usage_refines u mu -> usage_refines v mv ->
  map_Forall image_ok mu -> Z.of_nat (size mu) < 2 ^ 64 ->
  exists img v' m', usage_index_serialize true junk (Some u) = Some img /\
    usage_index_load_buf (Some v) (Some img) = (Some v', true) /\
    usage_refines v' m' /\ forall id, m' !! id = restored mu mv id.
Proof.
  intros Ru Rv Hok Hsz. pose proof Ru as [W Hm]. unfold usage_index_serialize. cbn zeta.
  fold (recalled_slots u). set (es := recalled_slots u). set (n := length es).
  assert (Forall (fun e => is_live e -> image_ok (ue_id e) (counters e)) (pt_slots u)) as Hall.
  { apply Forall_lookup. intros j e Hj Hl. apply (map_Forall_lookup_1 _ mu); [done|].
    rewrite <- Hm. assert (pt_get u (ue_id e) = Some e) as ->; [|done].
    apply pt_get_spec; [done|]. by exists j. }
  assert (Forall (fun e => image_ok (ue_id e) (counters e)) es) as Hes.
  { rewrite Forall_forall in *. intros e [Hr He]%list_elem_of_filter. apply Hall; [done|].
    unfold usg_recalled in Hr. unfold is_live. cbn. by destruct (ue_state e). }
  assert (usg_entries n (pt_slots u) = concat (map usg_image es)) as ->.
  { apply usg_entries_all. eapply Forall_impl; [exact Hall|]. intros e He Hl.
    by apply (He Hl). }
  assert (length (concat (map usg_image es)) = (n * USG_ENTRY)%nat) as Hlen.
  { unfold n. clear. induction es as [|e es IH]; [done|]. cbn [map concat length].
    rewrite length_app, IH, usg_image_length. lia. }
  assert (u64 (Z.of_nat n)) as Hn.
  { split; [lia|]. eapply Z.le_lt_trans; [|exact Hsz]. rewrite <- (refines_count u mu Ru).
    rewrite (pw_live u W). apply inj_le.
    apply (sublist_length _ _ (recalled_slots_sublist u)). }
  set (body := concat (map usg_image es)) in *.
  set (hdr := USG_MAGIC ++ aegis_put_u32le USG_VERSION ++ aegis_put_u64le (Z.of_nat n)).
  assert (USG_MAGIC ++ aegis_put_u32le USG_VERSION ++ aegis_put_u64le (Z.of_nat n) ++ body
    = hdr ++ body) as -> by (unfold hdr; by rewrite <- !(assoc_L (++))).
  rewrite take_app_length' by (rewrite length_app, Hlen; done).
  eexists. eexists _, (foldl restore mv es). split; [done|]. unfold usage_index_load_buf.
  assert (length (hdr ++ body) = (16 + n * 20)%nat) as -> by (rewrite length_app, Hlen; done).
  change (take 4 (hdr ++ body)) with USG_MAGIC. rewrite bool_decide_true by done.
  change (aegis_get_u32le (drop 4 (hdr ++ body))) with USG_VERSION. rewrite Z.eqb_refl.
  change (drop 8 (hdr ++ body)) with (aegis_put_u64le (Z.of_nat n) ++ body).
  rewrite get_put_u64le by done. cbn zeta.
  destruct (Nat.ltb_spec (16 + n * 20) USG_HDR) as [Hl|_]; [unfold USG_HDR in Hl; lia|].
  cbn [negb orb].
  assert ((Z.of_nat n >? (Z.of_nat (16 + n * 20) - Z.of_nat USG_HDR) / Z.of_nat USG_ENTRY)
    = false) as ->.
  { rewrite Z.gtb_ltb. apply Z.ltb_ge. unfold USG_HDR, USG_ENTRY.
    apply Z.div_le_lower_bound; lia. }
  split; [done|]. rewrite Nat2Z.id.
  change (drop USG_HDR (hdr ++ body)) with body. rewrite <- (app_nil_r body).
  split; [by apply load_loop_refines|]. intros id.
  rewrite restore_lookup by (by apply recalled_slots_nodup). unfold restored.
  destruct (mv !! id) as [w|]; [|done].
  pose proof (recalled_find u mu id Ru) as Hf. fold es in Hf.
  destruct (list_find (fun e => ue_id e = id) es) as [[i e]|]; cbn in *;
    destruct (mu !! id) as [[c l]|]; repeat case_if; naive_solver.
Qed.

(** One record recalled twice, restored into an index that tracks it and one
    more id; the id deleted since stays away. *)
Definition ex_saved : UsageIndex :=
  default pt_empty (foldl uop_step (Some usage_index_create)
    [UTrack 7; UTrack 9; URecord 7 100; URecord 7 250; URecord 9 300]).
Definition ex_current : UsageIndex :=
  default pt_empty (foldl uop_step (Some usage_index_create) [UTrack 7; UTrack 5]).

Lemma ex_refines ops :
  usage_refines (default pt_empty (foldl uop_step (Some usage_index_create) ops))
    (foldl uspec_step ∅ ops).
Proof. by destruct (uops_refine ops _ _ create_refines) as (u & -> & R). Qed.

Lemma usage_checkpoint_roundtrip_witness :
  exists img v' m', usage_index_serialize true [] (Some ex_saved) = Some img /\
    usage_index_load_buf (Some ex_current) (Some img) = (Some v', true) /\
    usage_refines v' m' /\
    m' !! 7 = Some (2, 250) /\ m' !! 5 = Some (0, 0) /\ m' !! 9 = None.
Proof.
  destruct (usage_checkpoint_roundtrip ex_saved _ ex_current _ []
    (ex_refines _) (ex_refines _)) as (img & v' & m' & H1 & H2 & H3 & H4).
  - apply (bool_decide_unpack _). vm_compute. exact I.
  - vm_compute. reflexivity.
  - exists img, v', m'. split; [exact H1|]. split; [exact H2|]. split; [exact H3|].
    rewrite !H4. vm_compute. auto.
Defined.
