(* ===== verification/EdgeIndex.v ===== *)
(** * The reverse relationship index (src/src/storage/edge_index.c)

    For each record, the sorted array of incoming edges, in an open-addressed
    table keyed by target id; relationship kinds are interned. Refines the
    finite set of edges (from, to, kind). *)

From S2P Require Import Prelude Endian SortedArray StrTable Intern ProbeTable.

(** ** Data *)

Definition EDGE_KIND_NONE : Z := 0.
Definition EDGE_KIND_UNKNOWN : Z := 65535.
Definition EDGE_MAX_KIND_LEN : nat := 64.
Definition EDGE_CAP0 : nat := 64.

Record EdgePost := mkEdgePost { ep_from : Z; ep_kind : Z }.
#[global] Instance EdgePost_eq_dec : EqDecision EdgePost.
Proof. solve_decision. Defined.

Record EdgeTarget := mkEdgeTarget {
  et_to : Z; et_posts : list EdgePost; et_cap : nat; et_state : SlotState
}.

#[export, refine] Instance EdgeTarget_slot : ProbeSlot EdgeTarget Z := {|
  slot_state := et_state; slot_key := et_to; key_hash := id;
  zero_slot := mkEdgeTarget 0 [] 0 SLOT_EMPTY
|}.
Proof. reflexivity. Defined.

Record EdgeIndex := mkEdgeIndex {
  ei_targets : PTable EdgeTarget;
  ei_edges : nat;
  ei_kinds : Intern
}.

Record EdgeSource := mkEdgeSource {
  es_from : Z; es_kind : option (list Z); es_unknown : bool
}.

(** Outcomes of the allocations of one call. *)
Record EdgeOks := mkEdgeOks {
  ok_karr : bool; ok_knode : bool; ok_tbl : bool; ok_posts : bool
}.

(** ** Kinds *)

Definition kind_hash (s : list Z) : nat := hash_str NBUCKETS s.

(** [None] is a [NULL] kind. *)
Definition kind_intern (oks : EdgeOks) (T : Intern) (kind : option (list Z)) : Intern * Z :=
  match kind with
  | None => (T, EDGE_KIND_NONE)
  | Some s =>
      if (length s =? 0)%nat then (T, EDGE_KIND_NONE)
      else if (EDGE_MAX_KIND_LEN <? length s)%nat then (T, EDGE_KIND_UNKNOWN)
      else
        match it_find T s with
        | Some id => (T, id)
        | None =>
            match it_mint (ok_karr oks) (ok_knode oks) T s with
            | (T', Some id) => (T', id)
            | (T', None) => (T', EDGE_KIND_UNKNOWN)
            end
        end
  end.

Definition kind_lookup (T : Intern) (kind : option (list Z)) : Z :=
  match kind with
  | None | Some [] => EDGE_KIND_NONE
  | Some s => default EDGE_KIND_UNKNOWN (it_find T s)
  end.

Definition kind_node (T : Intern) (id : Z) : option (list Z * nat) :=
  if (id =? EDGE_KIND_NONE) || (id =? EDGE_KIND_UNKNOWN) then None else it_node T id.

Definition kind_name (T : Intern) (id : Z) : option (list Z) := fst <$> kind_node T id.

Definition kind_use (T : Intern) (id : Z) (up : bool) : Intern :=
  match kind_node T id with None => T | Some _ => it_use T id up end.

(** ** Targets and postings *)

Definition tgt_find (e : EdgeIndex) (to_id : Z) : option nat := pt_find (ei_targets e) to_id.
Definition tgt_grow (ok : bool) (t : PTable EdgeTarget) : option (PTable EdgeTarget) :=
  pt_grow EDGE_CAP0 ok t.
Definition tgt_put (ok : bool) (t : PTable EdgeTarget) (to_id : Z)
  : option (PTable EdgeTarget * nat) :=
  pt_put EDGE_CAP0 ok t to_id (mkEdgeTarget to_id [] 0 SLOT_LIVE).
Definition tgt_retire (t : PTable EdgeTarget) (j : nat) : PTable EdgeTarget :=
  pt_retire t j (mkEdgeTarget (et_to (slot_at (pt_slots t) j)) [] 0 SLOT_DEAD).

Definition post_cmp (a_from a_kind b_from b_kind : Z) : Z :=
  if negb (a_from =? b_from) then (if a_from <? b_from then -1 else 1)
  else if negb (a_kind =? b_kind) then (if a_kind <? b_kind then -1 else 1)
  else 0.

#[export, refine] Instance EdgePost_order : OrderB EdgePost := {|
  ltb a b := post_cmp (ep_from a) (ep_kind a) (ep_from b) (ep_kind b) <? 0
|}.
Proof.
  - intros [f k]. unfold post_cmp; simpl. by rewrite !Z.eqb_refl.
  - intros [f1 k1] [f2 k2] [f3 k3]. unfold post_cmp; simpl.
    repeat case_if; intros; try done; lia.
  - intros [f1 k1] [f2 k2]. unfold post_cmp; simpl.
    repeat case_if; intros; try done; f_equal; lia.
Defined.

Definition post_lower_bound (p : list EdgePost) (from_id kind : Z) : nat :=
  sa_lower_bound p (mkEdgePost from_id kind).

(** ** Operations *)

Definition edge_index_create : EdgeIndex := mkEdgeIndex pt_empty 0 it_empty.

(** The second component is true for the C result 0. *)
Definition edge_index_add (oks : EdgeOks) (eo : option EdgeIndex) (from_id to_id : Z)
  (kind : option (list Z)) : option EdgeIndex * bool :=
  match eo with
  | None => (None, true)
  | Some e =>
      let '(T, k) := kind_intern oks (ei_kinds e) kind in
      match tgt_put (ok_tbl oks) (ei_targets e) to_id with
      | None => (Some (mkEdgeIndex (ei_targets e) (ei_edges e) T), false)
      | Some (tg, j) =>
          let t := slot_at (pt_slots tg) j in
          let p := mkEdgePost from_id k in
          if sa_at (et_posts t) (post_lower_bound (et_posts t) from_id k) p then
            (Some (mkEdgeIndex tg (ei_edges e) T), true)
          else
            match sa_add 1 (ok_posts oks) (et_posts t) (et_cap t) p with
            | None =>
                let tg' := if (length (et_posts t) =? 0)%nat then tgt_retire tg j else tg in
                (Some (mkEdgeIndex tg' (ei_edges e) T), false)
            | Some (posts, cap) =>
                let tg' := pt_set tg j (mkEdgeTarget (et_to t) posts cap (et_state t)) in
                (Some (mkEdgeIndex tg' (S (ei_edges e)) (kind_use T k true)), true)
            end
      end
  end.

Definition edge_index_remove (eo : option EdgeIndex) (from_id to_id : Z)
  (kind : option (list Z)) : option EdgeIndex :=
  match eo with
  | None => None
  | Some e =>
      match tgt_find e to_id with
      | None => eo
      | Some j =>
          let t := slot_at (pt_slots (ei_targets e)) j in
          let k := kind_lookup (ei_kinds e) kind in
          let pos := post_lower_bound (et_posts t) from_id k in
          if negb (sa_at (et_posts t) pos (mkEdgePost from_id k)) then eo
          else
            let posts := remove_at pos (et_posts t) in
            let tg := pt_set (ei_targets e) j
                        (mkEdgeTarget (et_to t) posts (et_cap t) (et_state t)) in
            let tg' := if (length posts =? 0)%nat then tgt_retire tg j else tg in
            Some (mkEdgeIndex tg' (ei_edges e - 1) (kind_use (ei_kinds e) k false))
      end
  end.

Definition edge_index_remove_target (eo : option EdgeIndex) (id : Z) : option EdgeIndex :=
  match eo with
  | None => None
  | Some e =>
      match tgt_find e id with
      | None => eo
      | Some j =>
          let t := slot_at (pt_slots (ei_targets e)) j in
          let T := foldl (fun T p => kind_use T (ep_kind p) false) (ei_kinds e) (et_posts t) in
          Some (mkEdgeIndex (tgt_retire (ei_targets e) j)
                  (ei_edges e - length (et_posts t)) T)
      end
  end.

(** The filter resolved to ids: the wanted ids and [want_unresolved]. *)
Definition resolve_kinds (T : Intern) (kinds : list (option (list Z))) : list Z * bool :=
  foldl (fun '(want, unres) kind =>
    match kind with
    | None | Some [] => (want, unres)
    | Some _ =>
        let k := kind_lookup T kind in
        if k =? EDGE_KIND_UNKNOWN then (want, true) else (want ++ [k], unres)
    end) ([], false) kinds.

Definition keep_post (n_kinds : nat) (want : list Z) (want_unresolved : bool) (k : Z) : bool :=
  (n_kinds =? 0)%nat
  || ((k =? EDGE_KIND_UNKNOWN) && want_unresolved)
  || existsb (fun w => w =? k) want.

(** [None] is the C result -1. *)
Definition edge_index_sources (ok : bool) (eo : option EdgeIndex) (to_id : Z)
  (kinds : list (option (list Z))) : option (list EdgeSource) :=
  match eo with
  | None => Some []
  | Some e =>
      match tgt_find e to_id with
      | None => Some []
      | Some j =>
          let t := slot_at (pt_slots (ei_targets e)) j in
          if (length (et_posts t) =? 0)%nat then Some []
          else if negb ok then None
          else
            let '(want, unres) := resolve_kinds (ei_kinds e) kinds in
            Some (map (fun p => mkEdgeSource (ep_from p) (kind_name (ei_kinds e) (ep_kind p))
                                  (ep_kind p =? EDGE_KIND_UNKNOWN))
                    (filter (fun p => keep_post (length kinds) want unres (ep_kind p) = true)
                       (et_posts t)))
      end
  end.

Definition edge_index_edges (eo : option EdgeIndex) : nat :=
  match eo with None => 0%nat | Some e => ei_edges e end.
Definition edge_index_kinds (eo : option EdgeIndex) : nat :=
  match eo with None => 0%nat | Some e => it_live (ei_kinds e) end.

(** LP64 sizes: [EdgeIndex] 8264, [EdgeTarget] 40, [EdgePost] 16, [KindNode] 32. *)
Definition edge_index_bytes (eo : option EdgeIndex) : Z :=
  match eo with
  | None => 0
  | Some e =>
      let tg := ei_targets e in
      let total := 8264 + Z.of_nat (pt_cap tg) * 40 in
      let total := foldl (fun a t => a + Z.of_nat (et_cap t) * 16) total (pt_slots tg) in
      let total := total + Z.of_nat (it_cap (ei_kinds e)) * 8 in
      foldl (fun a n => a + (32 + Z.of_nat (length (in_name n)) + 1)) total
        (concat (it_buckets (ei_kinds e)))
  end.

(** ** Specification: a set of edges *)

(** An edge (from, to, kind); an absent kind is the empty name. *)
Definition Edge : Type := Z * Z * list Z.
#[global] Instance Edge_eq_dec : EqDecision Edge.
Proof. unfold Edge. apply _. Defined.
#[global] Instance Edge_countable : Countable Edge.
Proof. unfold Edge. apply _. Defined.

Definition known (T : Intern) (name : list Z) : Prop := name = [] \/ is_Some (it_find T name).

Definition klook (T : Intern) (name : list Z) : Z := kind_lookup T (Some name).

(** The intern table describes the edges of [E]. *)
Record kinds_inv (T : Intern) (E : gset Edge) : Prop := {
  ki_wf : it_wf T;
  ki_nil : it_find T [] = None;
  ki_known : forall f t name, (f, t, name) ∈ E -> known T name;
  ki_uses : forall name, name <> [] ->
    it_uses T name = size (filter (fun x : Edge => x.2 = name) E)
}.

Definition posts_of (o : option EdgeTarget) : list EdgePost :=
  match o with Some t => et_posts t | None => [] end.

(** The target table holds the postings of the edges of [E], kinds mapped by
    [f]. *)
Record tab_inv (tg : PTable EdgeTarget) (f : list Z -> Z) (E : gset Edge) : Prop := {
  tb_wf : pt_wf tg;
  tb_slots : forall to t, pt_get tg to = Some t ->
    strictly_sorted (et_posts t) /\ et_posts t <> [];
  tb_posts : forall to from k,
    mkEdgePost from k ∈ posts_of (pt_get tg to) <-> exists name, (from, to, name) ∈ E /\ f name = k
}.

Record edge_refines (e : EdgeIndex) (E : gset Edge) : Prop := {
  er_kinds : kinds_inv (ei_kinds e) E;
  er_tab : tab_inv (ei_targets e) (klook (ei_kinds e)) E;
  er_edges : ei_edges e = size E
}.

(** *** Kinds *)

Lemma klook_cases T name :
  klook T name = if bool_decide (name = []) then EDGE_KIND_NONE
                 else default EDGE_KIND_UNKNOWN (it_find T name).
Proof. unfold klook, kind_lookup. destruct name; [done|]. by rewrite bool_decide_false. Qed.

Lemma klook_inj T a b : it_wf T -> known T a -> known T b -> klook T a = klook T b -> a = b.
Proof.
  intros W Ha Hb. rewrite !klook_cases. unfold EDGE_KIND_NONE.
  destruct Ha as [->|[ia Ea]], Hb as [->|[ib Eb]]; [done| | |].
  - rewrite (bool_decide_true ([] = [])), Eb by done. simpl.
    pose proof (it_find_range T b _ W Eb). case_bool_decide; [done|lia].
  - rewrite (bool_decide_true ([] = [])), Ea by done. simpl.
    pose proof (it_find_range T a _ W Ea). case_bool_decide; [done|lia].
  - rewrite Ea, Eb. simpl. pose proof (it_find_range T a _ W Ea).
    pose proof (it_find_range T b _ W Eb). repeat case_bool_decide; subst; try done; try lia.
    intros ->. by apply (it_find_inj T a b ib).
Qed.

Lemma known_not_unknown T name : it_wf T -> known T name -> klook T name <> EDGE_KIND_UNKNOWN.
Proof.
  intros W Hk. rewrite klook_cases. unfold EDGE_KIND_UNKNOWN, EDGE_KIND_NONE. case_bool_decide; [done|].
  destruct Hk as [?|[id E]]; [done|]. rewrite E. simpl.
  pose proof (it_find_range T name id W E). lia.
Qed.

Lemma kind_node_known T name id :
  it_wf T -> name <> [] -> it_find T name = Some id -> kind_node T id = Some (name, it_uses T name).
Proof.
  intros W Hn Hf. unfold kind_node, EDGE_KIND_NONE, EDGE_KIND_UNKNOWN.
  pose proof (it_find_range T name id W Hf).
  destruct (Z.eqb_spec id 0), (Z.eqb_spec id 65535); try lia. simpl. by apply it_node_find.
Qed.

Lemma kind_name_known T name :
  it_wf T -> known T name -> kind_name T (klook T name) = if bool_decide (name = []) then None else Some name.
Proof.
  intros W Hk. rewrite klook_cases. unfold kind_name. case_bool_decide; [done|].
  destruct Hk as [?|[id E]]; [done|]. rewrite E. simpl. by rewrite (kind_node_known T name id).
Qed.

Lemma filter_size_add (P : Edge -> Prop) `{forall x, Decision (P x)} (x : Edge) (E : gset Edge) :
  x ∉ E -> size (filter P ({[ x ]} ∪ E)) = (size (filter P E) + if decide (P x) then 1 else 0)%nat.
Proof.
  intros Hx. destruct (decide (P x)).
  - assert (filter P ({[ x ]} ∪ E) = {[ x ]} ∪ filter P E) as -> by set_solver.
    rewrite size_union, size_singleton by set_solver. lia.
  - assert (filter P ({[ x ]} ∪ E) = filter P E) as -> by set_solver. lia.
Qed.

Lemma filter_size_del (P : Edge -> Prop) `{forall x, Decision (P x)} (x : Edge) (E : gset Edge) :
  x ∈ E -> size (filter P E) = (size (filter P (E ∖ {[ x ]})) + if decide (P x) then 1 else 0)%nat.
Proof.
  intros Hx. rewrite <- filter_size_add by set_solver. f_equal. f_equal.
  apply set_eq. intros y. destruct (decide (y = x)); set_solver.
Qed.

(** Changing a use count leaves the kinds themselves alone. *)
Lemma kind_use_spec (T : Intern) (E : gset Edge) (name : list Z) (up : bool) (E' : gset Edge) :
  kinds_inv T E -> known T name ->
  (forall f t n, (f, t, n) ∈ E' -> n = name \/ (f, t, n) ∈ E) ->
  (forall n, n <> [] -> n <> name -> size (filter (fun x : Edge => x.2 = n) E')
     = size (filter (fun x : Edge => x.2 = n) E)) ->
  (if up
   then size (filter (fun x : Edge => x.2 = name) E') = S (size (filter (fun x : Edge => x.2 = name) E))
   else S (size (filter (fun x : Edge => x.2 = name) E')) = size (filter (fun x : Edge => x.2 = name) E)) ->
  let T' := kind_use T (klook T name) up in
  kinds_inv T' E' /\ (forall n, klook T' n = klook T n) /\ it_names T' = it_names T.
Proof.
  intros I Hk Hsub Hoth Hcnt T'. pose proof (ki_wf T E I) as W. unfold T', kind_use.
  rewrite klook_cases. case_bool_decide as En.
  { subst name. unfold kind_node. simpl. split; [|done].
    split; [done|apply I| |].
    - intros f t n [->|?]%Hsub; [by left|by eapply ki_known].
    - intros n Hn. rewrite Hoth by done. by apply (ki_uses T E I). }
  destruct Hk as [?|[id Eid]]; [done|]. rewrite Eid. simpl.
  rewrite (kind_node_known T name id) by done.
  pose proof (ki_uses T E I name En) as Hu.
  destruct (it_use_spec T name id up W Eid) as (W' & Hf & Hnm & Hus).
  { intros ->. rewrite Hu. lia. }
  split_and!; [| |done].
  - split; [done|by rewrite Hf; apply I| |].
    + intros f t n Hn. unfold known. rewrite Hf. apply Hsub in Hn as [->|Hn]; [right; eauto|].
      by eapply ki_known.
    + intros n Hn. rewrite Hus. case_bool_decide as E0.
      * subst n. destruct up; lia.
      * rewrite Hoth by done. by apply (ki_uses T E I).
  - intros n. rewrite !klook_cases. by rewrite Hf.
Qed.

Lemma kind_use_add (T : Intern) (E : gset Edge) (f t : Z) (name : list Z) :
  kinds_inv T E -> known T name -> (f, t, name) ∉ E ->
  let T' := kind_use T (klook T name) true in
  kinds_inv T' ({[ (f, t, name) ]} ∪ E) /\ (forall n, klook T' n = klook T n) /\
  it_names T' = it_names T.
Proof.
  intros I Hk Hx. apply (kind_use_spec T E); [done|done| | |].
  - intros f' t' n [[= -> -> ->]%elem_of_singleton|?]%elem_of_union; auto.
  - intros n _ Hne. rewrite filter_size_add by done. rewrite decide_False; [lia|]. simpl. congruence.
  - rewrite filter_size_add by done. rewrite decide_True by done. lia.
Qed.

Lemma kind_use_del (T : Intern) (E : gset Edge) (f t : Z) (name : list Z) :
  kinds_inv T E -> (f, t, name) ∈ E ->
  let T' := kind_use T (klook T name) false in
  kinds_inv T' (E ∖ {[ (f, t, name) ]}) /\ (forall n, klook T' n = klook T n) /\
  it_names T' = it_names T.
Proof.
  intros I Hx. apply (kind_use_spec T E); [done|by eapply ki_known| | |].
  - set_solver.
  - intros n _ Hne. rewrite (filter_size_del _ _ E Hx), decide_False by (simpl; congruence).
    symmetry. apply Nat.add_0_r.
  - rewrite (filter_size_del _ _ E Hx), decide_True by done. symmetry. apply Nat.add_1_r.
Qed.

(** Interning a kind that fits: the result is its lookup, and edges keep
    their kinds. *)
Lemma kind_intern_spec (oks : EdgeOks) (T : Intern) (E : gset Edge) (kind : option (list Z)) :
  kinds_inv T E -> ok_karr oks = true -> ok_knode oks = true ->
  (length (default [] kind) <= EDGE_MAX_KIND_LEN)%nat ->
  (known T (default [] kind) \/ length (it_nodes T) < INTERN_MAX)%nat ->
  exists T', kind_intern oks T kind = (T', klook T' (default [] kind)) /\
    kinds_inv T' E /\ known T' (default [] kind) /\
    (forall n, known T n -> klook T' n = klook T n) /\
    (forall n, n ∈ it_names T' <-> n ∈ it_names T \/ (n = default [] kind /\ n <> [])).
Proof.
  intros I Ha Hn Hlen Hroom. unfold kind_intern.
  destruct kind as [s|]; simpl in *; [|exists T; split_and!; [done|done|by left|done|naive_solver]].
  destruct (Nat.eqb_spec (length s) 0) as [E0|E0].
  { apply nil_length_inv in E0 as ->. exists T. split_and!; [done|done|by left|done|naive_solver]. }
  destruct (Nat.ltb_spec EDGE_MAX_KIND_LEN (length s)); [lia|].
  assert (s <> []) as Hs by (by intros ->).
  pose proof (ki_wf T E I) as W. destruct (it_find T s) as [id|] eqn:Ef.
  - exists T. split_and!; [|done|right; eauto|done|].
    + rewrite klook_cases, bool_decide_false by done. by rewrite Ef.
    + intros n. split; [by left|]. intros [?|[-> _]]; [done|].
      apply elem_of_it_names; [done|]. eauto.
  - rewrite Ha, Hn. destruct Hroom as [[?|Hr]|Hroom]; [done|rewrite Ef in Hr; by destruct Hr|].
    destruct (it_mint_spec T s W Ef Hroom) as (T' & id & -> & W' & Hf' & Hoth & Hus & Hnm).
    exists T'. split_and!.
    + rewrite klook_cases, bool_decide_false by done. by rewrite Hf'.
    + split; [done|by rewrite Hoth; [apply I|]| |].
      * intros f t n Hin. destruct (decide (n = s)) as [->|]; [right; eauto|].
        unfold known. rewrite Hoth by done. by eapply ki_known.
      * intros n Hne. rewrite Hus. by apply (ki_uses T E I).
    + right. eauto.
    + intros n Hkn. rewrite !klook_cases. case_bool_decide; [done|].
      destruct (decide (n = s)) as [->|]; [|by rewrite Hoth].
      destruct Hkn as [?|[i Hi]]; [done|congruence].
    + intros n. rewrite Hnm, elem_of_app, list_elem_of_singleton. naive_solver.
Qed.

(** *** The target table *)

Lemma tab_inv_ext tg f g (E : gset Edge) :
  (forall a b n, (a, b, n) ∈ E -> f n = g n) -> tab_inv tg f E -> tab_inv tg g E.
Proof.
  intros Hfg I. split; [apply I|apply I|]. intros to from k. rewrite (tb_posts tg f E I).
  split; intros (n & Hn & <-); exists n; (split; [done|]); [symmetry|]; by eapply Hfg.
Qed.

Lemma tab_inv_same tg tg' f (E : gset Edge) :
  tab_inv tg f E -> pt_wf tg' -> (forall to, pt_get tg' to = pt_get tg to) -> tab_inv tg' f E.
Proof.
  intros I W Hg. split; [done| |].
  - intros to t. rewrite Hg. apply I.
  - intros to from k. rewrite Hg. apply I.
Qed.

(** One target's postings change. *)
Lemma tab_update tg tg' f (E E' : gset Edge) (to : Z) (o : option EdgeTarget) :
  tab_inv tg f E -> pt_wf tg' ->
  (forall to', pt_get tg' to' = if decide (to' = to) then o else pt_get tg to') ->
  (forall t, o = Some t -> strictly_sorted (et_posts t) /\ et_posts t <> []) ->
  (forall from k, mkEdgePost from k ∈ posts_of o <-> exists n, (from, to, n) ∈ E' /\ f n = k) ->
  (forall from to' n, to' <> to -> (from, to', n) ∈ E' <-> (from, to', n) ∈ E) ->
  tab_inv tg' f E'.
Proof.
  intros I W Hg Ho Hp HE. split; [done| |].
  - intros to' t. rewrite Hg. case_decide; [apply Ho|apply I].
  - intros to' from k. rewrite Hg. case_decide as Et; [by subst|].
    rewrite (tb_posts tg f E I). by setoid_rewrite HE.
Qed.

Lemma edge_cap0_ok : (exists e, EDGE_CAP0 = (2 ^ e)%nat) /\ (2 <= EDGE_CAP0)%nat.
Proof. split; [by exists 6%nat|unfold EDGE_CAP0; lia]. Qed.

(** Claiming a target's slot. *)
Lemma tgt_put_spec ok tg to tg' j :
  pt_wf tg -> tgt_put ok tg to = Some (tg', j) ->
  pt_wf tg' /\ pt_find tg' to = Some j /\
  (exists t, slot_at (pt_slots tg') j = t /\ et_to t = to /\ is_live t /\
     pt_get tg' to = Some t /\ et_posts t = posts_of (pt_get tg to)) /\
  forall to', to' <> to -> pt_get tg' to' = pt_get tg to'.
Proof.
  intros W Hp. unfold tgt_put in Hp. apply pt_put_any in Hp. destruct edge_cap0_ok as [H1 H2].
  destruct (pt_put_spec EDGE_CAP0 tg to (mkEdgeTarget to [] 0 SLOT_LIVE) H1 H2 W)
    as (tg1 & j1 & E1 & W1 & Hf & _ & Hg); [done|done|].
  rewrite Hp in E1. injection E1 as <- <-. split_and!; [done|done| |].
  - apply pt_find_spec in Hf as (t & Ht & Hl & Hk); [|done]. exists t.
    assert (pt_get tg' to = Some t) as Hgt by (apply pt_get_spec; [done|]; by exists j).
    split_and!; [by apply slot_at_lookup|done|done|done|].
    rewrite Hg, decide_True in Hgt by done. injection Hgt as <-. by destruct (pt_get tg to).
  - intros to' Hne. by rewrite Hg, decide_False.
Qed.

Lemma tgt_retire_spec tg to j :
  pt_wf tg -> pt_find tg to = Some j ->
  pt_wf (tgt_retire tg j) /\
  forall to', pt_get (tgt_retire tg j) to' = if decide (to' = to) then None else pt_get tg to'.
Proof. intros W Hf. by apply pt_retire_spec. Qed.

Lemma posts_elem tg (E : gset Edge) (T : Intern) from to name :
  it_wf T -> (forall a b n, (a, b, n) ∈ E -> known T n) -> known T name ->
  tab_inv tg (klook T) E ->
  mkEdgePost from (klook T name) ∈ posts_of (pt_get tg to) <-> (from, to, name) ∈ E.
Proof.
  intros W Hk Hn I. rewrite (tb_posts _ _ _ I). split; [|by exists name].
  intros (n & Hin & E'). apply klook_inj in E'; [by subst|done|by eapply Hk|done].
Qed.

(** *** The operations *)

(** A kind the index can intern at this point. *)
Definition kind_fits (T : Intern) (kind : option (list Z)) : Prop :=
  (length (default [] kind) <= EDGE_MAX_KIND_LEN)%nat /\
  (known T (default [] kind) \/ length (it_nodes T) < INTERN_MAX)%nat.

Lemma edge_add_refines (oks : EdgeOks) (e : EdgeIndex) (E : gset Edge) (from to : Z)
  (kind : option (list Z)) :
  edge_refines e E -> ok_karr oks = true -> ok_knode oks = true -> kind_fits (ei_kinds e) kind ->
  exists e' (rc : bool), edge_index_add oks (Some e) from to kind = (Some e', rc) /\
    edge_refines e' (if rc then {[ (from, to, default [] kind) ]} ∪ E else E) /\
    (ok_tbl oks = true -> ok_posts oks = true -> rc = true) /\
    (forall n, n ∈ it_names (ei_kinds e') <->
       n ∈ it_names (ei_kinds e) \/ (n = default [] kind /\ n <> [])).
Proof.
  intros R Ha Hn [Hlen Hroom]. unfold edge_index_add.
  destruct (kind_intern_spec oks (ei_kinds e) E kind (er_kinds e E R) Ha Hn Hlen Hroom)
    as (T & -> & I & Hkn & Hpres & Hnm).
  set (name := default [] kind) in *. set (k := klook T name).
  assert (tab_inv (ei_targets e) (klook T) E) as It.
  { apply (tab_inv_ext _ (klook (ei_kinds e))); [|apply R]. intros a b n Hin.
    symmetry. apply Hpres. by eapply ki_known; [apply R|]. }
  destruct (tgt_put (ok_tbl oks) (ei_targets e) to) as [[tg j]|] eqn:Ep.
  2:{ eexists _, false. split; [done|]. split_and!; [by split; [| |apply R]| |done].
      intros Hok _. unfold tgt_put in Ep. rewrite Hok in Ep. destruct edge_cap0_ok as [H1 H2].
      destruct (pt_put_spec EDGE_CAP0 (ei_targets e) to (mkEdgeTarget to [] 0 SLOT_LIVE) H1 H2)
        as (? & ? & E1 & _); [apply It|done|done|]. congruence. }
  destruct (tgt_put_spec _ _ _ _ _ (tb_wf _ _ _ It) Ep)
    as (W & Hf & (t & -> & Hto & Hl & Hgt & Hps) & Hoth).
  assert (strictly_sorted (et_posts t)) as Hsort.
  { rewrite Hps. destruct (pt_get (ei_targets e) to) as [t0|] eqn:E0; [|constructor].
    by apply (tb_slots _ _ _ It to). }
  pose proof (posts_elem (ei_targets e) E T from to name
    (ki_wf _ _ I) (ki_known _ _ I) Hkn It) as Hel. rewrite <- Hps in Hel. fold k in Hel.
  assert (et_posts t <> [] -> forall to', pt_get tg to' = pt_get (ei_targets e) to') as Hsame.
  { intros Hne to'. destruct (decide (to' = to)) as [->|]; [|by apply Hoth].
    pose proof Ep as Ep'. unfold tgt_put in Ep'. apply pt_put_any in Ep'.
    destruct edge_cap0_ok as [H1 H2].
    destruct (pt_put_spec EDGE_CAP0 (ei_targets e) to (mkEdgeTarget to [] 0 SLOT_LIVE) H1 H2)
      as (? & ? & E1 & _ & _ & _ & Hg); [apply It|done|done|].
    rewrite Ep' in E1. injection E1 as <- <-. rewrite Hg, decide_True by done.
    rewrite Hps in Hne. by destruct (pt_get (ei_targets e) to). }
  unfold post_lower_bound. destruct (sa_at _ _ _) eqn:Eat.
  { apply sa_at_spec in Eat as Hin; [|done]. apply Hel in Hin as HE.
    assert ({[ (from, to, name) ]} ∪ E = E) as EE by set_solver.
    eexists _, true. split; [done|]. rewrite EE. split_and!; [|done|done].
    split; [done| |apply R]. eapply tab_inv_same; [done|done|]. apply Hsame.
    intros E0. rewrite E0 in Hin. by apply not_elem_of_nil in Hin. }
  apply sa_at_false in Eat as Hnin; [|done].
  assert ((from, to, name) ∉ E) as HnE by (by rewrite <- Hel).
  destruct (sa_add 1 (ok_posts oks) (et_posts t) (et_cap t) (mkEdgePost from k))
    as [[posts cap]|] eqn:Ea.
  - destruct (sa_add_spec _ _ _ _ _ _ _ Hsort Ea) as [Hs' Hel'].
    eexists _, true. split; [done|].
    destruct (kind_use_add T E from to name I Hkn HnE) as (I' & Hlk & Hnm'). fold k in I', Hlk, Hnm'.
    split_and!; [|done|].
    2:{ intros n. cbn [ei_kinds]. rewrite Hnm'. apply Hnm. }
    split; [done| |cbn [ei_edges]; rewrite size_union, size_singleton by set_solver;
                     by rewrite (er_edges e E R)].
    cbn [ei_targets ei_kinds].
    destruct (pt_set_spec tg to j (mkEdgeTarget (et_to t) posts cap (et_state t)) W Hf)
      as [W2 Hg2]; [done|done|].
    eapply tab_inv_ext; [intros; symmetry; by apply Hlk|].
    eapply (tab_update (ei_targets e) _ _ E _ to); [done|done| | | |].
    + intros to'. rewrite Hg2. case_decide; [done|by apply Hoth].
    + intros t' [= <-]. cbn. split; [done|]. intros E0. apply (not_elem_of_nil (mkEdgePost from k)).
      rewrite <- E0. apply Hel'. by left.
    + intros from' k'. cbn [posts_of et_posts]. rewrite Hel', Hps, (tb_posts _ _ _ It). split.
      * intros [[= -> ->]|(n & ? & <-)]; [exists name|exists n]; set_solver.
      * intros (n & [[= -> ->]%elem_of_singleton|?]%elem_of_union & <-); [by left|right; eauto].
    + set_solver.
  - eexists _, false. split; [done|]. split_and!; [|intros _ Hok|done].
    2:{ rewrite Hok in Ea. destruct (sa_add_ok 1 (et_posts t) (et_cap t) (mkEdgePost from k)).
        congruence. }
    split; [done| |apply R]. cbn [ei_targets ei_kinds].
    destruct (Nat.eqb_spec (length (et_posts t)) 0) as [E0|E0].
    + destruct (tgt_retire_spec tg to j W Hf) as [W2 Hg2].
      eapply tab_inv_same; [done|done|]. intros to'. rewrite Hg2. case_decide; [|by apply Hoth].
      subst to'. apply nil_length_inv in E0. rewrite Hps in E0.
      destruct (pt_get (ei_targets e) to) as [t0|] eqn:E1; [|done]. simpl in E0.
      by destruct (tb_slots _ _ _ It to t0 E1).
    + eapply tab_inv_same; [done|done|]. apply Hsame. intros E1. by rewrite E1 in E0.
Qed.

Lemma tgt_found e (E : gset Edge) to j :
  edge_refines e E -> tgt_find e to = Some j ->
  exists t, slot_at (pt_slots (ei_targets e)) j = t /\ et_to t = to /\ is_live t /\
    pt_get (ei_targets e) to = Some t /\ strictly_sorted (et_posts t) /\ et_posts t <> [].
Proof.
  intros R Hf. pose proof (er_tab e E R) as It. unfold tgt_find in Hf.
  apply pt_find_spec in Hf as (t & Ht & Hl & Hk); [|apply It].
  assert (pt_get (ei_targets e) to = Some t) as Hg.
  { apply pt_get_spec; [apply It|]. by exists j. }
  exists t. split_and!; [by apply slot_at_lookup|done|done|done| |]; by apply (tb_slots _ _ _ It to).
Qed.

Lemma tgt_not_found e (E : gset Edge) from to name :
  edge_refines e E -> tgt_find e to = None -> (from, to, name) ∉ E.
Proof.
  intros R Hf Hin. pose proof (er_tab e E R) as It.
  apply pt_get_None in Hf; [|apply It].
  assert (mkEdgePost from (klook (ei_kinds e) name) ∈ posts_of (pt_get (ei_targets e) to)) as Hp.
  { apply (tb_posts _ _ _ It). eauto. }
  rewrite Hf in Hp. by apply not_elem_of_nil in Hp.
Qed.

Lemma edge_remove_refines (e : EdgeIndex) (E : gset Edge) (from to : Z) (kind : option (list Z)) :
  edge_refines e E -> (length (default [] kind) <= EDGE_MAX_KIND_LEN)%nat ->
  exists e', edge_index_remove (Some e) from to kind = Some e' /\
    edge_refines e' (E ∖ {[ (from, to, default [] kind) ]}) /\
    it_names (ei_kinds e') = it_names (ei_kinds e).
Proof.
  intros R Hlen. pose proof (er_tab e E R) as It. pose proof (er_kinds e E R) as I.
  unfold edge_index_remove. set (name := default [] kind).
  assert ((from, to, name) ∉ E -> E ∖ {[ (from, to, name) ]} = E) as Hid by set_solver.
  destruct (tgt_find e to) as [j|] eqn:Hf.
  2:{ exists e. rewrite Hid by (by eapply tgt_not_found). done. }
  destruct (tgt_found e E to j R Hf) as (t & -> & Hto & Hl & Hg & Hs & Hne).
  assert (kind_lookup (ei_kinds e) kind = klook (ei_kinds e) name) as ->.
  { unfold name, klook. by destruct kind as [[|? ?]|]. }
  set (k := klook (ei_kinds e) name). unfold post_lower_bound.
  assert (mkEdgePost from k ∈ et_posts t <-> (from, to, name) ∈ E) as Hel.
  { pose proof (tb_posts _ _ _ It to from k) as Hp. rewrite Hg in Hp. cbn [posts_of] in Hp.
    rewrite Hp. split; [|by exists name]. intros (n & Hin & En).
    assert (known (ei_kinds e) n) as Hkn by by eapply ki_known.
    assert (known (ei_kinds e) name) as Hkname.
    { destruct (decide (known (ei_kinds e) name)) as [|Hnk]; [done|]. exfalso.
      apply (known_not_unknown (ei_kinds e) n (ki_wf _ _ I) Hkn). rewrite En. unfold k.
      rewrite klook_cases. unfold known in Hnk. case_bool_decide; [tauto|].
      destruct (it_find (ei_kinds e) name) eqn:E0; [|done]. exfalso. apply Hnk. right. eauto. }
    apply klook_inj in En; [by subst|apply I|done|done]. }
  destruct (sa_at _ _ _) eqn:Eat; cbn [negb].
  2:{ apply sa_at_false in Eat; [|done]. exists e. rewrite Hid by (by rewrite <- Hel). done. }
  apply sa_at_spec in Eat as Hin; [|done]. apply Hel in Hin as HE.
  pose proof Eat as Elk. unfold sa_at in Elk. apply andb_true_iff in Elk as [_ Elk].
  apply bool_decide_eq_true in Elk.
  eexists. split; [done|].
  destruct (kind_use_del (ei_kinds e) E from to name I HE) as (I' & Hlk & Hnm).
  fold k in I', Hlk, Hnm. split; [|done].
  set (posts := remove_at _ _).
  assert (strictly_sorted posts) as Hs' by (by apply sa_remove_sorted).
  assert (forall y, y ∈ posts <-> y ∈ et_posts t /\ y <> mkEdgePost from k) as Hel'
    by (intros y; by apply elem_of_remove_at).
  destruct (pt_set_spec (ei_targets e) to j
    (mkEdgeTarget (et_to t) posts (et_cap t) (et_state t))) as [W2 Hg2];
    [apply It|done|done|done|].
  split; [done| |].
  2:{ cbn [ei_edges]. rewrite (er_edges e E R), size_difference, size_singleton by set_solver. done. }
  cbn [ei_targets ei_kinds]. eapply tab_inv_ext; [intros; symmetry; by apply Hlk|].
  assert (forall o, et_posts t = posts_of (Some t) -> posts_of o = posts ->
    forall from' k', mkEdgePost from' k' ∈ posts_of o <->
      exists n, (from', to, n) ∈ E ∖ {[ (from, to, name) ]} /\ klook (ei_kinds e) n = k') as Hpo.
  { intros o _ Ho from' k'. rewrite Ho, Hel'.
    pose proof (tb_posts _ _ _ It to from' k') as Hp. rewrite Hg in Hp. cbn [posts_of] in Hp.
    rewrite Hp. split.
    - intros [(n & Hn & <-) Hneq]. exists n. split; [|done].
      apply elem_of_difference. split; [done|]. intros [= -> ->]%elem_of_singleton. done.
    - intros (n & [Hn Hx]%elem_of_difference & <-). split; [by exists n|].
      intros [= -> Hk]. apply klook_inj in Hk; [|apply I|by eapply ki_known|by eapply ki_known].
      subst n. set_solver. }
  destruct (Nat.eqb_spec (length posts) 0) as [E0|E0].
  - destruct (tgt_retire_spec _ to j W2) as [W3 Hg3].
    { apply pt_find_spec; [done|]. apply pt_find_spec in Hf as (t0 & Ht0 & _); [|apply It].
      eexists. cbn [pt_set pt_slots]. rewrite list_lookup_insert_eq by (by eapply lookup_lt_Some).
      split_and!; [done|done|done]. }
    apply (tab_update (ei_targets e) _ _ E _ to None); [done|done| |done| |set_solver].
    + intros to'. rewrite Hg3, Hg2. by repeat case_decide.
    + apply Hpo; [done|]. by apply nil_length_inv in E0.
  - eapply (tab_update (ei_targets e) _ _ E _ to); [done|done|apply Hg2| | |set_solver].
    + intros t' [= <-]. cbn. split; [done|]. intros E1. by rewrite E1 in E0.
    + by apply Hpo.
Qed.

(** Dropping every posting of a target, one use count at a time. *)
Lemma drop_posts ps (T : Intern) (E : gset Edge) (to : Z) (f : list Z -> Z) :
  kinds_inv T E -> (forall n, klook T n = f n) -> NoDup ps ->
  (forall from k, mkEdgePost from k ∈ ps -> exists n, (from, to, n) ∈ E /\ f n = k) ->
  let T' := foldl (fun T p => kind_use T (ep_kind p) false) T ps in
  exists E' : gset Edge, kinds_inv T' E' /\ it_names T' = it_names T /\
    (forall n, klook T' n = f n) /\
    (size E' + length ps = size E)%nat /\
    forall from to' n, (from, to', n) ∈ E' <->
      (from, to', n) ∈ E /\ ~ (to' = to /\ mkEdgePost from (f n) ∈ ps).
Proof.
  revert T E. induction ps as [|[from k] ps IH]; intros T E I Hf Hnd Hps; cbn [foldl].
  { exists E. split_and!; [done|done|done|simpl; lia|]. intros. set_solver. }
  apply NoDup_cons in Hnd as [Hx Hnd].
  destruct (Hps from k) as (n & Hin & <-); [left|]. cbn [ep_kind]. rewrite <- Hf.
  destruct (kind_use_del T E from to n I Hin) as (I1 & Hlk & Hnm).
  assert (forall a b, known T a -> known T b -> f a = f b -> a = b) as Hinj.
  { intros a b Ha Hb. rewrite <- !Hf. by apply klook_inj; [apply I|..]. }
  destruct (IH _ _ I1) as (E' & I2 & Hnm2 & Hlk2 & Hsz & HE').
  - intros m. by rewrite Hlk.
  - done.
  - intros from' k' Hp. destruct (Hps from' k') as (m & Hm & <-); [by right|].
    exists m. split; [|done]. apply elem_of_difference. split; [done|].
    intros [= -> ->]%elem_of_singleton. done.
  - exists E'. split_and!; [done|by rewrite Hnm2|done| |].
    + rewrite size_difference, size_singleton in Hsz by set_solver. simpl.
      assert (size E <> 0)%nat by (intros E0; apply size_empty_inv in E0; set_solver). lia.
    + intros from' to' m. rewrite HE', elem_of_difference, elem_of_singleton, elem_of_cons.
      split.
      * intros [[Hm Hne] Hnp]. split; [done|]. intros [-> [[= -> Hk]|Hp]]; [|tauto].
        rewrite Hf in Hk. apply Hinj in Hk; [congruence|by eapply ki_known|by eapply ki_known].
      * intros [Hm Hnp]. split; [split; [done|]|].
        -- intros [= -> -> ->]. apply Hnp. split; [done|]. left. by rewrite Hf.
        -- intros [-> Hp]. apply Hnp. split; [done|]. by right.
Qed.

Lemma edge_remove_target_refines (e : EdgeIndex) (E : gset Edge) (to : Z) :
  edge_refines e E ->
  exists e', edge_index_remove_target (Some e) to = Some e' /\
    edge_refines e' (filter (fun x : Edge => x.1.2 <> to) E) /\
    it_names (ei_kinds e') = it_names (ei_kinds e).
Proof.
  intros R. pose proof (er_tab e E R) as It. pose proof (er_kinds e E R) as I.
  unfold edge_index_remove_target. destruct (tgt_find e to) as [j|] eqn:Hf.
  2:{ exists e. split; [done|]. split; [|done].
      assert (filter (fun x : Edge => x.1.2 <> to) E = E) as ->; [|done].
      apply set_eq. intros [[a b] n]. rewrite elem_of_filter. cbn. split; [tauto|].
      intros Hin. split; [|done]. intros ->. by eapply tgt_not_found. }
  destruct (tgt_found e E to j R Hf) as (t & -> & Hto & Hl & Hg & Hs & Hne).
  assert (forall from k, mkEdgePost from k ∈ et_posts t <->
    exists n, (from, to, n) ∈ E /\ klook (ei_kinds e) n = k) as Hps.
  { intros from k. pose proof (tb_posts _ _ _ It to from k) as Hp. by rewrite Hg in Hp. }
  destruct (drop_posts (et_posts t) (ei_kinds e) E to (klook (ei_kinds e)))
    as (E' & I' & Hnm & Hlk & Hsz & HE'); [done|done|by apply sorted_nodup| |].
  { intros from k Hp. by apply Hps. }
  assert (filter (fun x : Edge => x.1.2 <> to) E = E') as ->.
  { apply set_eq. intros [[a b] n]. rewrite elem_of_filter, HE', Hps. cbn. split.
    - intros [? ?]. split; [done|]. by intros [-> _].
    - intros [Hin Hn]. split; [|done]. intros ->. apply Hn. split; [done|]. eauto. }
  eexists. split; [done|]. split; [|done].
  destruct (tgt_retire_spec (ei_targets e) to j) as [W2 Hg2]; [apply It|done|].
  split; [done| |cbn [ei_edges]; rewrite (er_edges e E R); lia].
  cbn [ei_targets ei_kinds]. eapply tab_inv_ext; [intros; symmetry; by apply Hlk|].
  apply (tab_update (ei_targets e) _ _ E _ to None); [done|done|apply Hg2|done| |].
  - intros from k. cbn [posts_of]. split; [by intros ?%not_elem_of_nil|].
    intros (n & Hin & _). apply HE' in Hin as [Hin Hn]. exfalso. apply Hn. split; [done|].
    apply Hps. eauto.
  - intros from to' n Hne'. rewrite HE'. tauto.
Qed.

(** ** Queries *)

(** A named filter matches the edges carrying one of its names. *)
Definition kinds_match (kinds : list (option (list Z))) (name : list Z) : Prop :=
  kinds = [] \/ (name <> [] /\ Some name ∈ kinds).

Lemma resolve_kinds_elem (T : Intern) kinds k :
  k ∈ fst (resolve_kinds T kinds) <->
  exists s, Some s ∈ kinds /\ s <> [] /\ klook T s = k /\ k <> EDGE_KIND_UNKNOWN.
Proof.
  unfold resolve_kinds. set (step := fun '(want, unres) kind => _).
  assert (forall kinds want unres, k ∈ fst (foldl step (want, unres) kinds) <->
    k ∈ want \/ exists s, Some s ∈ kinds /\ s <> [] /\ klook T s = k /\ k <> EDGE_KIND_UNKNOWN)
    as Hgen.
  2:{ rewrite Hgen. split; [intros [?%not_elem_of_nil|?]; done|by right]. }
  clear kinds. induction kinds as [|kind kinds IH]; intros want unres; cbn [foldl].
  { cbn. split; [by left|]. intros [?|(s & Hs & _)]; [done|set_solver]. }
  assert (forall s, s <> [] -> step (want, unres) (Some s)
    = if klook T s =? EDGE_KIND_UNKNOWN then (want, true) else (want ++ [klook T s], unres)) as Hst
    by (by intros [|? ?]).
  destruct kind as [[|c s]|].
  - change (step (want, unres) (Some [])) with (want, unres). rewrite IH. set_solver.
  - rewrite (Hst (c :: s)) by done. destruct (Z.eqb_spec (klook T (c :: s)) EDGE_KIND_UNKNOWN) as [E|E].
    + rewrite IH. split; [intros [?|(s' & ? & ?)]; [by left|right; exists s'; set_solver]|].
      intros [?|(s' & [[= ->]|?]%elem_of_cons & ? & <- & ?)]; [by left|done|right; eauto].
    + rewrite IH, elem_of_app, list_elem_of_singleton. split.
      * intros [[?| ->]|(s' & ? & ?)]; [by left| |right; exists s'; set_solver].
        right. exists (c :: s). split_and!; [left|done|done|done].
      * intros [?|(s' & [[= ->]|?]%elem_of_cons & ? & <- & ?)]; [tauto|tauto|right; eauto].
  - change (step (want, unres) None) with (want, unres). rewrite IH. set_solver.
Qed.

Lemma keep_post_spec (T : Intern) kinds name want unres :
  it_wf T -> known T name -> resolve_kinds T kinds = (want, unres) ->
  keep_post (length kinds) want unres (klook T name) = true <-> kinds_match kinds name.
Proof.
  intros W Hk Hr. unfold keep_post, kinds_match.
  pose proof (known_not_unknown T name W Hk) as Hnu. apply Z.eqb_neq in Hnu as ->.
  cbn [andb]. rewrite orb_false_r, orb_true_iff, Nat.eqb_eq, existsb_exists. split.
  - intros [?%nil_length_inv|(w & Hw & Ew)]; [by left|]. apply Z.eqb_eq in Ew. subst w.
    apply list_elem_of_In in Hw. pose proof (resolve_kinds_elem T kinds (klook T name)) as He.
    rewrite Hr in He. apply He in Hw as (s & Hs & Hne & Es & Hu).
    destruct (decide (name = s)) as [->|Hd]; [by right|]. exfalso. apply Hd. symmetry.
    apply (klook_inj T); [done| |done|done]. right. rewrite (klook_cases T s) in Es.
    rewrite bool_decide_false in Es by done.
    destruct (it_find T s); [eauto|]. simpl in Es. by destruct Hu.
  - intros [->|[Hne Hin]]; [by left|]. right. exists (klook T name). rewrite Z.eqb_refl.
    split; [|done]. apply list_elem_of_In.
    pose proof (resolve_kinds_elem T kinds (klook T name)) as He. rewrite Hr in He. apply He.
    exists name. split_and!; [done|done|done|by apply known_not_unknown].
Qed.

(** The answer expected for an edge. *)
Definition source_of (from : Z) (name : list Z) : EdgeSource :=
  mkEdgeSource from (if bool_decide (name = []) then None else Some name) false.

Definition from_le (a b : EdgeSource) : Prop := es_from a <= es_from b.

Lemma sorted_sources (g : EdgePost -> EdgeSource) (ps : list EdgePost) :
  (forall p, es_from (g p) = ep_from p) -> strictly_sorted ps ->
  StronglySorted from_le (map g ps).
Proof.
  intros Hg. induction 1 as [|p ps _ IH Hf]; [constructor|]. simpl. constructor; [done|].
  rewrite Forall_forall in Hf. rewrite Forall_forall. intros x (q & -> & Hq)%list_elem_of_fmap.
  specialize (Hf q Hq). unfold lt_rel, from_le in *. rewrite !Hg.
  cbn in Hf. unfold post_cmp in Hf. repeat case_if; lia || done.
Qed.

Lemma edge_sources_refines (e : EdgeIndex) (E : gset Edge) to kinds :
  edge_refines e E ->
  exists l, edge_index_sources true (Some e) to kinds = Some l /\
    StronglySorted from_le l /\ NoDup l /\
    forall s, s ∈ l <-> exists from name,
      (from, to, name) ∈ E /\ kinds_match kinds name /\ s = source_of from name.
Proof.
  intros R. pose proof (er_tab e E R) as It. pose proof (er_kinds e E R) as I.
  unfold edge_index_sources. destruct (tgt_find e to) as [j|] eqn:Hf.
  2:{ exists []. split_and!; [done|constructor|constructor|]. intros s. split; [set_solver|].
      intros (from & name & Hin & _). by apply (tgt_not_found e E from to name R Hf) in Hin. }
  destruct (tgt_found e E to j R Hf) as (t & -> & Hto & Hl & Hg & Hs & Hne).
  destruct (Nat.eqb_spec (length (et_posts t)) 0) as [E0|_];
    [by apply nil_length_inv in E0|]. cbn [negb].
  destruct (resolve_kinds (ei_kinds e) kinds) as [want unres] eqn:Hr.
  set (g := fun p => mkEdgeSource _ _ _).
  set (ps := filter _ (et_posts t)).
  assert (forall from k, mkEdgePost from k ∈ et_posts t <->
    exists n, (from, to, n) ∈ E /\ klook (ei_kinds e) n = k) as Hps.
  { intros from k. pose proof (tb_posts _ _ _ It to from k) as Hp. by rewrite Hg in Hp. }
  assert (strictly_sorted ps) as Hsp by (by apply strictly_sorted_filter).
  assert (forall from n, (from, to, n) ∈ E ->
    g (mkEdgePost from (klook (ei_kinds e) n)) = source_of from n) as Hgs.
  { intros from n Hin. assert (known (ei_kinds e) n) as Hk by by eapply ki_known.
    unfold g, source_of. cbn [ep_from ep_kind]. rewrite kind_name_known by (done || apply I).
    f_equal. apply Z.eqb_neq. by apply known_not_unknown; [apply I|]. }
  exists (map g ps). split_and!; [done|by apply sorted_sources| |].
  - apply NoDup_fmap_2_strong; [|by apply sorted_nodup].
    intros [f1 k1] [f2 k2] [_ H1]%list_elem_of_filter [_ H2]%list_elem_of_filter.
    apply Hps in H1 as (n1 & H1 & <-). apply Hps in H2 as (n2 & H2 & <-).
    rewrite !Hgs by done. unfold source_of. intros [= -> Hn].
    repeat case_bool_decide; congruence.
  - intros s. rewrite list_elem_of_fmap. split.
    + intros ([from k] & -> & [Hkeep Hp]%list_elem_of_filter).
      apply Hps in Hp as (n & Hin & <-). exists from, n. split_and!; [done| |by apply Hgs].
      eapply (keep_post_spec (ei_kinds e)); [apply I|by eapply ki_known|done|done].
    + intros (from & n & Hin & Hm & ->). exists (mkEdgePost from (klook (ei_kinds e) n)).
      split; [by rewrite Hgs|]. apply list_elem_of_filter. split.
      * cbn [ep_kind]. eapply (keep_post_spec (ei_kinds e)); [apply I|by eapply ki_known|done|done].
      * apply Hps. eauto.
Qed.

(** ** Sequences of operations *)

Inductive EdgeOp :=
  | EAdd (oks : EdgeOks) (from to : Z) (kind : option (list Z))
  | ERemove (from to : Z) (kind : option (list Z))
  | ERemoveTarget (id : Z).

(** The index and the set of edges, side by side: a failed addition changes
    nothing in the set. *)
Definition edge_step (st : option EdgeIndex * gset Edge) (o : EdgeOp)
  : option EdgeIndex * gset Edge :=
  let '(e, E) := st in
  match o with
  | EAdd oks from to kind =>
      let '(e', rc) := edge_index_add oks e from to kind in
      (e', if rc then {[ (from, to, default [] kind) ]} ∪ E else E)
  | ERemove from to kind =>
      (edge_index_remove e from to kind, E ∖ {[ (from, to, default [] kind) ]})
  | ERemoveTarget id => (edge_index_remove_target e id, filter (fun x : Edge => x.1.2 <> id) E)
  end.

Definition edge_run (ops : list EdgeOp) : option EdgeIndex * gset Edge :=
  foldl edge_step (Some edge_index_create, ∅) ops.

(** The names the operations mention; they fit the table when each is at most
    64 bytes long and there are at most 4096 of them. *)
Definition op_kind (o : EdgeOp) : list Z :=
  match o with
  | EAdd _ _ _ kind | ERemove _ _ kind => default [] kind
  | ERemoveTarget _ => []
  end.

Definition op_ok (o : EdgeOp) : Prop :=
  (length (op_kind o) <= EDGE_MAX_KIND_LEN)%nat /\
  match o with
  | EAdd oks _ _ _ => ok_karr oks = true /\ ok_knode oks = true
  | _ => True
  end.

Definition ops_fit (ops : list EdgeOp) : Prop :=
  Forall op_ok ops /\ (size (list_to_set (map op_kind ops) : gset (list Z)) <= INTERN_MAX)%nat.

#[global] Instance op_ok_dec o : Decision (op_ok o).
Proof. unfold op_ok. destruct o; apply _. Defined.
#[global] Instance ops_fit_dec ops : Decision (ops_fit ops).
Proof. unfold ops_fit. apply _. Defined.

Lemma create_edge_refines : edge_refines edge_index_create ∅.
Proof.
  split; [split| |done].
  - apply it_empty_wf.
  - unfold it_find. cbn [edge_index_create ei_kinds it_empty it_buckets]. by rewrite tbl_find_empty.
  - set_solver.
  - intros name _. unfold it_uses, it_find.
    cbn [edge_index_create ei_kinds it_empty it_buckets]. by rewrite tbl_find_empty.
  - split; [apply pt_empty_wf|done|]. intros to from k. cbn. set_solver.
Qed.

Lemma edge_step_refines (K : gset (list Z)) e (E : gset Edge) o :
  (size K <= INTERN_MAX)%nat -> op_ok o -> op_kind o ∈ K ->
  edge_refines e E -> (forall n, n ∈ it_names (ei_kinds e) -> n ∈ K) ->
  exists e' E', edge_step (Some e, E) o = (Some e', E') /\ edge_refines e' E' /\
    (forall n, n ∈ it_names (ei_kinds e') -> n ∈ K).
Proof.
  intros HK [Hlen Hok] Hin R Hnm. destruct o as [oks from to kind|from to kind|id];
    cbn [edge_step op_kind] in *.
  - destruct Hok as [Ha Hn].
    assert (kind_fits (ei_kinds e) kind) as Hfit.
    { split; [done|]. pose proof (ki_wf _ _ (er_kinds e E R)) as W.
      destruct (decide (default [] kind ∈ it_names (ei_kinds e))) as [Hi|Hni].
      { left. right. by apply elem_of_it_names. }
      right. pose proof (it_names_nodup _ W) as Hnd.
      assert (size (list_to_set (default [] kind :: it_names (ei_kinds e)) : gset (list Z))
        <= size K)%nat as Hle by (apply subseteq_size; set_solver).
      rewrite size_list_to_set in Hle by (by constructor).
      unfold it_names in Hle. cbn [length] in Hle. rewrite length_map in Hle. lia. }
    destruct (edge_add_refines oks e E from to kind R Ha Hn Hfit) as (e' & rc & -> & R' & _ & Hn').
    eexists _, _. split; [done|]. split; [done|]. intros n. rewrite Hn'. naive_solver.
  - destruct (edge_remove_refines e E from to kind R Hlen) as (e' & -> & R' & Hn').
    eexists _, _. split; [done|]. split; [done|]. by rewrite Hn'.
  - destruct (edge_remove_target_refines e E id R) as (e' & -> & R' & Hn').
    eexists _, _. split; [done|]. split; [done|]. by rewrite Hn'.
Qed.

Lemma edge_run_refines ops :
  ops_fit ops -> exists e E, edge_run ops = (Some e, E) /\ edge_refines e E.
Proof.
  intros [Hok HK]. unfold edge_run. set (K := list_to_set (map op_kind ops) : gset (list Z)) in *.
  assert (forall o, o ∈ ops -> op_kind o ∈ K) as Hin.
  { intros o Ho. apply elem_of_list_to_set, list_elem_of_fmap. by exists o. }
  assert (forall n, n ∈ it_names (ei_kinds edge_index_create) -> n ∈ K) as Hnm by (cbn; set_solver).
  pose proof create_edge_refines as R. clearbody K. revert R Hnm.
  generalize edge_index_create (∅ : gset Edge).
  induction ops as [|o ops IH]; intros e E R Hnm; [by exists e, E|]. cbn [foldl].
  apply Forall_cons in Hok as [Ho Hok].
  destruct (edge_step_refines K e E o) as (e' & E' & -> & R' & Hnm'); [done|done|apply Hin; left|done|done|].
  apply IH; [done| |done|done]. intros o' Ho'. apply Hin. by right.
Qed.

Lemma live_kinds e (E : gset Edge) :
  edge_refines e E ->
  it_live (ei_kinds e) = size (set_map snd E ∖ {[ [] ]} : gset (list Z)).
Proof.
  intros R. pose proof (er_kinds e E R) as I. apply it_live_names; [apply I|].
  intros n. rewrite elem_of_difference, elem_of_singleton, elem_of_map.
  destruct (decide (n = [])) as [->|Hne].
  { unfold it_uses. rewrite (ki_nil _ _ I). naive_solver. }
  rewrite (ki_uses _ _ I n Hne). split.
  - intros [(x & -> & Hx) _] E0. apply size_empty_inv in E0. set_solver.
  - intros Hsz. split; [|done].
    destruct (decide (filter (fun x : Edge => x.2 = n) E = ∅)) as [E0|E0];
      [by rewrite E0, size_empty in Hsz|].
    apply set_choose_L in E0 as [x [Hx1 Hx2]%elem_of_filter]. exists x. done.
Qed.

(** C32: As long as the relationship kinds fit the intern table, any sequence
    of additions (including ones whose table or posting allocation fails),
    removals and target drops leaves the index equal to the resulting set of
    edges: a query for a record returns exactly its incoming edges with one of
    the requested kinds, each once, sorted by source id, with its kind name;
    the edge count is the number of edges, and the reported kind count is the
    number of distinct kinds carried by some edge. *)
Theorem edge_index_implements_graph ops :
  ops_fit ops ->
  exists e E, edge_run ops = (Some e, E) /\
    edge_index_edges (Some e) = size E /\
    edge_index_kinds (Some e) = size (set_map snd E ∖ {[ [] ]} : gset (list Z)) /\
    forall to kinds, exists l, edge_index_sources true (Some e) to kinds = Some l /\
      StronglySorted from_le l /\ NoDup l /\
      forall s, s ∈ l <-> exists from name,
        (from, to, name) ∈ E /\ kinds_match kinds name /\ s = source_of from name.
Proof.
  intros Hfit. destruct (edge_run_refines ops Hfit) as (e & E & Er & R).
  exists e, E. split_and!; [done|apply R|by apply live_kinds|].
  intros to kinds. by apply edge_sources_refines.
Qed.

Definition oks_all : EdgeOks := mkEdgeOks true true true true.
Definition ex_kind : list Z := [115; 117; 112].
Definition ex_ops : list EdgeOp :=
  [EAdd oks_all 1 9 (Some ex_kind); EAdd oks_all 2 9 None;
   EAdd (mkEdgeOks true true true false) 3 9 None; EAdd oks_all 2 8 None;
   ERemove 2 9 None; ERemoveTarget 8].

Lemma edge_index_implements_graph_witness :
  exists e E, edge_run ex_ops = (Some e, E) /\
    edge_index_edges (Some e) = size E /\
    edge_index_kinds (Some e) = size (set_map snd E ∖ {[ [] ]} : gset (list Z)) /\
    forall to kinds, exists l, edge_index_sources true (Some e) to kinds = Some l /\
      StronglySorted from_le l /\ NoDup l /\
      forall s, s ∈ l <-> exists from name,
        (from, to, name) ∈ E /\ kinds_match kinds name /\ s = source_of from name.
Proof.
  apply (edge_index_implements_graph ex_ops).
  apply (bool_decide_unpack _). vm_compute. exact I.
Defined.

(** A relationship kind longer than 64 bytes is stored as unknown, so two
    edges between the same records with distinct over-long kinds share one
    posting, and removing the first leaves the second unindexed: the query no
    longer offers the surviving edge even as a candidate. *)
Theorem edge_overlong_kinds_collapse :
  let a := replicate 65 97 in
  let b := replicate 65 98 in
  let e1 := fst (edge_index_add oks_all (Some edge_index_create) 1 9 (Some a)) in
  let e2 := fst (edge_index_add oks_all e1 1 9 (Some b)) in
  let e3 := edge_index_remove e2 1 9 (Some a) in
  edge_index_edges e2 = 1%nat /\
  edge_index_sources true e2 9 [Some b] = Some [mkEdgeSource 1 None true] /\
  edge_index_sources true e3 9 [Some b] = Some [] /\
  edge_index_sources true e3 9 [] = Some [].
Proof. vm_compute. auto. Qed.
