(* ===== verification/FactIndex.v ===== *)
(** * The fact indexes (src/src/storage/fact_index.c)

    Records by the subject, object and predicate of the fact they assert:
    two open-addressed tables of sorted posting arrays and an array of sorted
    id lists, with interned predicates. Refines the finite map from record to
    fact. *)

From S2P Require Import Prelude Endian SortedArray Record StrTable Intern ProbeTable.

(** ** Data *)

Definition FACT_MAX_PREDICATES : nat := 4096.
Definition FACT_MAX_PREDICATE_LEN : nat := 64.
Definition PRED_NONE : Z := 0.
Definition FACT_CAP0 : nat := 64.


Record Post := mkPost { po_rec : Z; po_pred : Z }.
#[global] Instance Post_eq_dec : EqDecision Post.
Proof. solve_decision. Defined.

Record Slot := mkSlot {
  sl_key : Z; sl_obj_str : option (list Z); sl_posts : list Post; sl_cap : nat;
  sl_state : SlotState
}.

(** A slot is identified by its key and, for a string object, its text. *)
Abbreviation SlotKey := (Z * option (list Z))%type.

#[export, refine] Instance Slot_probe : ProbeSlot Slot SlotKey := {|
  slot_state := sl_state; slot_key s := (sl_key s, sl_obj_str s); key_hash := fst;
  zero_slot := mkSlot 0 None [] 0 SLOT_EMPTY
|}.
Proof. reflexivity. Defined.

Abbreviation Table := (PTable Slot).

Record FactIndex := mkFactIndex {
  fi_subj : Table;
  fi_obj : Table;
  fi_pred_recs : list (list Z * nat);   (* per predicate id - 1: ids, capacity *)
  fi_preds : Intern;
  fi_facts : nat
}.

(** ** Predicates *)

Definition pred_hash (s : list Z) : nat := hash_str NBUCKETS s.
Definition pred_find (T : Intern) (p : list Z) : option Z := it_find T p.

Definition pred_intern (ok_arr ok_node : bool) (T : Intern) (p : list Z) : Intern * Z :=
  if (length p =? 0)%nat || (FACT_MAX_PREDICATE_LEN <? length p)%nat then (T, PRED_NONE)
  else
    match pred_find T p with
    | Some id => (T, id)
    | None =>
        match it_mint ok_arr ok_node T p with
        | (T', Some id) => (T', id)
        | (T', None) => (T', PRED_NONE)
        end
    end.

Definition pred_lookup (T : Intern) (p : option (list Z)) : Z :=
  match p with
  | None | Some [] => PRED_NONE
  | Some s => default PRED_NONE (pred_find T s)
  end.

Definition pred_use (T : Intern) (id : Z) (up : bool) : Intern := it_use T id up.

(** ** Sorted id lists *)

Definition idlist_add (ok : bool) (v : list Z * nat) (id : Z) : option (list Z * nat) :=
  sa_add 4 ok (fst v) (snd v) id.
Definition idlist_remove (v : list Z * nat) (id : Z) : list Z * nat :=
  (sa_del (fst v) id, snd v).

(** ** Tables *)

Definition post_cmp (ap ar bp br : Z) : Z :=
  if negb (ap =? bp) then (if ap <? bp then -1 else 1)
  else if negb (ar =? br) then (if ar <? br then -1 else 1)
  else 0.

#[export, refine] Instance Post_order : OrderB Post := {|
  ltb a b := post_cmp (po_pred a) (po_rec a) (po_pred b) (po_rec b) <? 0
|}.
Proof.
  - intros [r p]. unfold post_cmp; simpl. by rewrite !Z.eqb_refl.
  - intros [r1 p1] [r2 p2] [r3 p3]. unfold post_cmp; simpl.
    repeat case_if; intros; try done; lia.
  - intros [r1 p1] [r2 p2]. unfold post_cmp; simpl.
    repeat case_if; intros; try done; f_equal; lia.
Defined.

Definition post_lower_bound (p : list Post) (pred rec : Z) : nat :=
  sa_lower_bound p (mkPost rec pred).

Definition str_hash64 (s : list Z) : Z :=
  let h := fnv1a s in if h =? 0 then 1 else h.

Definition slot_matches (s : Slot) (key : Z) (str : option (list Z)) : bool :=
  (sl_key s =? key)
  && match str with
     | Some x => match sl_obj_str s with Some y => bool_decide (y = x) | None => false end
     | None => match sl_obj_str s with None => true | Some _ => false end
     end.

Definition tbl_find (t : Table) (key : Z) (str : option (list Z)) : option nat :=
  pt_find t (key, str).

Definition tbl_grow (ok : bool) (t : Table) : option Table := pt_grow FACT_CAP0 ok t.

(** [ok_grow]: the rehash allocation; [ok_str]: the copy of a string object.
    The table is returned also on failure: it may have been rehashed. *)
Definition tbl_put (ok_grow ok_str : bool) (t : Table) (key : Z) (str : option (list Z))
  : Table * option nat :=
  match (if pt_needs_grow t then tbl_grow ok_grow t else Some t) with
  | None => (t, None)
  | Some t =>
      match put_loop (pt_cap t) 0 None (pt_slots t) (pt_cap t) (key, str) with
      | None => (t, None)
      | Some (inl j) => (t, Some j)
      | Some (inr j) =>
          if match str with Some _ => negb ok_str | None => false end then (t, None)
          else
            let used := match sl_state (slot_at (pt_slots t) j) with
                        | SLOT_EMPTY => S (pt_used t)
                        | _ => pt_used t
                        end in
            (mkPTable (<[j := mkSlot key str [] 0 SLOT_LIVE]> (pt_slots t)) (pt_cap t)
               (S (pt_live t)) used, Some j)
      end
  end.

Definition tbl_retire (t : Table) (j : nat) : Table :=
  pt_retire t j (mkSlot (sl_key (slot_at (pt_slots t) j)) None [] 0 SLOT_DEAD).

(** The table and [*added]; [None] is the C result -1. *)
Definition slot_add_post (ok : bool) (t : Table) (j : nat) (pred rec : Z)
  : option (Table * bool) :=
  let s := slot_at (pt_slots t) j in
  let p := mkPost rec pred in
  if sa_at (sl_posts s) (post_lower_bound (sl_posts s) pred rec) p then Some (t, false)
  else
    match sa_add 1 ok (sl_posts s) (sl_cap s) p with
    | None => None
    | Some (posts, cap) =>
        Some (pt_set t j (mkSlot (sl_key s) (sl_obj_str s) posts cap (sl_state s)), true)
    end.

(** The table and [*removed]. *)
Definition slot_del_post (t : Table) (j : nat) (pred rec : Z) : Table * bool :=
  let s := slot_at (pt_slots t) j in
  let pos := post_lower_bound (sl_posts s) pred rec in
  if negb (sa_at (sl_posts s) pos (mkPost rec pred)) then (t, false)
  else
    let posts := remove_at pos (sl_posts s) in
    let t' := pt_set t j (mkSlot (sl_key s) (sl_obj_str s) posts (sl_cap s) (sl_state s)) in
    (if (length posts =? 0)%nat then tbl_retire t' j else t', true).

(** ** Operations *)

Definition fact_index_create : FactIndex :=
  mkFactIndex pt_empty pt_empty (replicate FACT_MAX_PREDICATES ([], 0%nat)) it_empty 0.

Definition object_key (okind : FactKind) (object_id : Z) (object_str : option (list Z))
  : option SlotKey :=
  match okind, object_str with
  | FACT_OBJ_ID, _ => Some (object_id, None)
  | FACT_OBJ_STRING, Some s => Some (str_hash64 s, Some s)
  | _, _ => None
  end.

(** Outcomes of the allocations of one call. *)
Record FactOks := mkFactOks {
  fk_arr : bool; fk_node : bool;                       (* predicate interning *)
  fk_subj : bool; fk_subj_post : bool;                 (* subject table *)
  fk_obj : bool; fk_obj_str : bool; fk_obj_post : bool;(* object table *)
  fk_list : bool                                       (* predicate list *)
}.

Definition pred_list (f : FactIndex) (pred : Z) : list Z * nat :=
  default ([], 0%nat) (fi_pred_recs f !! Z.to_nat (pred - 1)).

(** The second component is true for the C result 0. *)
Definition fact_index_add (ok : FactOks) (fo : option FactIndex) (record_id subject : Z)
  (predicate : option (list Z)) (okind : FactKind) (object_id : Z)
  (object_str : option (list Z)) : option FactIndex * bool :=
  match fo with
  | None => (None, true)
  | Some f =>
  match predicate with
  | None => (fo, false)
  | Some p =>
  match object_key okind object_id object_str with
  | None => (fo, false)
  | Some (okey, ostr) =>
      let '(T, pred) := pred_intern (fk_arr ok) (fk_node ok) (fi_preds f) p in
      let mk s o l T n := Some (mkFactIndex s o l T n) in
      if pred =? PRED_NONE then (mk (fi_subj f) (fi_obj f) (fi_pred_recs f) T (fi_facts f), false)
      else
      match tbl_put (fk_subj ok) true (fi_subj f) subject None with
      | (subj, None) => (mk subj (fi_obj f) (fi_pred_recs f) T (fi_facts f), false)
      | (subj, Some sj) =>
      match slot_add_post (fk_subj_post ok) subj sj pred record_id with
      | None =>
          let subj' := if (length (sl_posts (slot_at (pt_slots subj) sj)) =? 0)%nat
                       then tbl_retire subj sj else subj in
          (mk subj' (fi_obj f) (fi_pred_recs f) T (fi_facts f), false)
      | Some (subj, s_added) =>
          let undo_subj := if s_added then fst (slot_del_post subj sj pred record_id) else subj in
          match tbl_put (fk_obj ok) (fk_obj_str ok) (fi_obj f) okey ostr with
          | (obj, None) => (mk undo_subj obj (fi_pred_recs f) T (fi_facts f), false)
          | (obj, Some oj) =>
          match slot_add_post (fk_obj_post ok) obj oj pred record_id with
          | None =>
              let obj' := if (length (sl_posts (slot_at (pt_slots obj) oj)) =? 0)%nat
                          then tbl_retire obj oj else obj in
              (mk undo_subj obj' (fi_pred_recs f) T (fi_facts f), false)
          | Some (obj, o_added) =>
          match idlist_add (fk_list ok) (pred_list f pred) record_id with
          | None =>
              let undo_obj := if o_added then fst (slot_del_post obj oj pred record_id) else obj in
              (mk undo_subj undo_obj (fi_pred_recs f) T (fi_facts f), false)
          | Some v =>
              let recs := <[Z.to_nat (pred - 1) := v]> (fi_pred_recs f) in
              if s_added then (mk subj obj recs (pred_use T pred true) (S (fi_facts f)), true)
              else (mk subj obj recs T (fi_facts f), true)
          end end end end end end end end.

Definition fact_index_remove (fo : option FactIndex) (record_id subject : Z)
  (predicate : option (list Z)) (okind : FactKind) (object_id : Z)
  (object_str : option (list Z)) : option FactIndex :=
  match fo, predicate with
  | Some f, Some p =>
      match object_key okind object_id object_str with
      | None => fo
      | Some (okey, ostr) =>
          let pred := pred_lookup (fi_preds f) predicate in
          if pred =? PRED_NONE then fo
          else
            let '(subj, s_removed) :=
              match tbl_find (fi_subj f) subject None with
              | None => (fi_subj f, false)
              | Some j => slot_del_post (fi_subj f) j pred record_id
              end in
            let '(obj, _) :=
              match tbl_find (fi_obj f) okey ostr with
              | None => (fi_obj f, false)
              | Some j => slot_del_post (fi_obj f) j pred record_id
              end in
            if s_removed then
              Some (mkFactIndex subj obj
                (<[Z.to_nat (pred - 1) := idlist_remove (pred_list f pred) record_id]> (fi_pred_recs f))
                (pred_use (fi_preds f) pred false) (fi_facts f - 1))
            else Some (mkFactIndex subj obj (fi_pred_recs f) (fi_preds f) (fi_facts f))
      end
  | _, _ => fo
  end.

(** ** Lookups *)

(** [ok]: the result array is allocated; its first capacity, the number of
    postings, always suffices. *)
Definition collect (ok : bool) (s : option Slot) (pred : Z) : option (list Z) :=
  match s with
  | None => Some []
  | Some s =>
      if (length (sl_posts s) =? 0)%nat then Some []
      else if negb ok then None
      else
        fst <$> foldl (fun st p =>
          st ≫= fun v =>
            if negb (pred =? PRED_NONE) && negb (po_pred p =? pred) then Some v
            else idlist_add ok v (po_rec p))
          (Some ([], length (sl_posts s))) (sl_posts s)
  end.

Definition slot_of_key (t : Table) (key : Z) (str : option (list Z)) : option Slot :=
  (fun j => slot_at (pt_slots t) j) <$> tbl_find t key str.

Definition fact_index_by_subject (ok : bool) (fo : option FactIndex) (subject : Z)
  (predicate : option (list Z)) : option (list Z) :=
  match fo with
  | None => Some []
  | Some f =>
      let pred := pred_lookup (fi_preds f) predicate in
      match predicate with
      | Some _ =>
          if pred =? PRED_NONE then Some []
          else collect ok (slot_of_key (fi_subj f) subject None) pred
      | None => collect ok (slot_of_key (fi_subj f) subject None) PRED_NONE
      end
  end.

Definition fact_index_by_object (ok : bool) (fo : option FactIndex) (okind : FactKind)
  (object_id : Z) (object_str : option (list Z)) (predicate : option (list Z))
  : option (list Z) :=
  match fo with
  | None => Some []
  | Some f =>
      match object_key okind object_id object_str with
      | None => None
      | Some (okey, ostr) =>
          let pred := pred_lookup (fi_preds f) predicate in
          match predicate with
          | Some _ =>
              if pred =? PRED_NONE then Some []
              else collect ok (slot_of_key (fi_obj f) okey ostr) pred
          | None => collect ok (slot_of_key (fi_obj f) okey ostr) PRED_NONE
          end
      end
  end.

Definition fact_index_predicate_facts (fo : option FactIndex) (predicate : option (list Z)) : nat :=
  match fo, predicate with
  | Some f, Some _ =>
      let pred := pred_lookup (fi_preds f) predicate in
      if pred =? PRED_NONE then 0%nat else length (fst (pred_list f pred))
  | _, _ => 0%nat
  end.

Definition fact_index_by_predicate (ok : bool) (fo : option FactIndex)
  (predicate : option (list Z)) : option (list Z) :=
  match fo, predicate with
  | Some f, Some _ =>
      let pred := pred_lookup (fi_preds f) predicate in
      if (pred =? PRED_NONE) || (length (fst (pred_list f pred)) =? 0)%nat then Some []
      else if ok then Some (fst (pred_list f pred)) else None
  | _, _ => Some []
  end.

(** The copying loop stops with an error when the postings outnumber
    [facts]; [qsort] yields the ascending permutation. *)
Definition fact_index_all_records (ok : bool) (fo : option FactIndex) : option (list Z) :=
  match fo with
  | None => Some []
  | Some f =>
      if (fi_facts f =? 0)%nat then Some []
      else if negb ok then None
      else
        let all := concat (map fst (fi_pred_recs f)) in
        if (fi_facts f <? length all)%nat then None else Some (merge_sort Z.le all)
  end.

Definition fact_index_facts (fo : option FactIndex) : nat :=
  match fo with None => 0%nat | Some f => fi_facts f end.
Definition fact_index_predicates (fo : option FactIndex) : nat :=
  match fo with None => 0%nat | Some f => it_live (fi_preds f) end.

(** LP64 sizes: [Slot] 48, [Post] 16, [PredNode] 32, [FactIndex] 106600. *)
Definition tbl_bytes (t : Table) : Z :=
  foldl (fun a s => a + Z.of_nat (sl_cap s) * 16
           + match sl_obj_str s with Some x => Z.of_nat (length x) + 1 | None => 0 end)
    (Z.of_nat (pt_cap t) * 48) (pt_slots t).

Definition fact_index_bytes (fo : option FactIndex) : Z :=
  match fo with
  | None => 0
  | Some f =>
      let total := 106600 + tbl_bytes (fi_subj f) + tbl_bytes (fi_obj f) in
      let total := foldl (fun a v => a + Z.of_nat (snd v) * 8) total (fi_pred_recs f) in
      let total := total + Z.of_nat (it_cap (fi_preds f)) * 8 in
      foldl (fun a n => a + (32 + Z.of_nat (length (in_name n)) + 1)) total
        (concat (it_buckets (fi_preds f)))
  end.

(** ** Tables as relations between keys and postings *)

Lemma slot_matches_key s key str :
  slot_matches s key str = true <-> slot_key s = (key, str).
Proof.
  unfold slot_matches. cbn. rewrite andb_true_iff, Z.eqb_eq.
  destruct str as [x|], (sl_obj_str s) as [y|]; rewrite ?bool_decide_eq_true; naive_solver.
Qed.

Definition posts_of (o : option Slot) : list Post :=
  match o with Some s => sl_posts s | None => [] end.

Record tab_rel (t : Table) (Rel : SlotKey -> Post -> Prop) : Prop := {
  tr_wf : pt_wf t;
  tr_slots : forall k s, pt_get t k = Some s -> strictly_sorted (sl_posts s) /\ sl_posts s <> [];
  tr_posts : forall k p, p ∈ posts_of (pt_get t k) <-> Rel k p
}.

Lemma tab_rel_ext t Rel Rel' :
  (forall k p, Rel k p <-> Rel' k p) -> tab_rel t Rel -> tab_rel t Rel'.
Proof. intros HR I. split; [apply I|apply I|]. intros k p. by rewrite (tr_posts _ _ I), HR. Qed.

Lemma tab_rel_same t t' Rel :
  tab_rel t Rel -> pt_wf t' -> (forall k, pt_get t' k = pt_get t k) -> tab_rel t' Rel.
Proof.
  intros I W Hg. split; [done| |].
  - intros k s. rewrite Hg. apply I.
  - intros k p. rewrite Hg. apply I.
Qed.

Lemma fact_cap0_ok : (exists e, FACT_CAP0 = (2 ^ e)%nat) /\ (2 <= FACT_CAP0)%nat.
Proof. split; [by exists 6%nat|unfold FACT_CAP0; lia]. Qed.

(** A table in which the slot [j] of key [k] is ready for a posting: it holds
    the postings of [k] in [Rel], possibly none yet. *)
Record slot_ready (t : Table) (j : nat) (k : SlotKey) (Rel : SlotKey -> Post -> Prop) : Prop := {
  sr_wf : pt_wf t;
  sr_find : pt_find t k = Some j;
  sr_slot : exists s, slot_at (pt_slots t) j = s /\ pt_get t k = Some s /\ is_live s /\
    slot_key s = k /\ strictly_sorted (sl_posts s);
  sr_other : forall k' s, k' <> k -> pt_get t k' = Some s ->
    strictly_sorted (sl_posts s) /\ sl_posts s <> [];
  sr_posts : forall k' p, p ∈ posts_of (pt_get t k') <-> Rel k' p
}.

Lemma slot_ready_rel t j k Rel s :
  slot_ready t j k Rel -> pt_get t k = Some s -> sl_posts s <> [] -> tab_rel t Rel.
Proof.
  intros R Hs Hne. split; [apply R| |apply R]. intros k' s' Hg.
  destruct (decide (k' = k)) as [->|]; [|by apply (sr_other _ _ _ _ R k')].
  destruct (sr_slot _ _ _ _ R) as (s0 & _ & Hg0 & _ & _ & Hsort).
  assert (s0 = s) as -> by congruence. assert (s' = s) as -> by congruence. done.
Qed.

Lemma rel_slot_ready t j k Rel : tab_rel t Rel -> pt_find t k = Some j -> slot_ready t j k Rel.
Proof.
  intros I Hf. pose proof (tr_wf _ _ I) as W. split; [done|done| | |apply I].
  - apply pt_find_spec in Hf as (s & Hs & Hl & Hk); [|done]. exists s.
    assert (pt_get t k = Some s) as Hg by (apply pt_get_spec; [done|]; by exists j).
    split_and!; [by apply slot_at_lookup|done|done|done|by apply (tr_slots _ _ I k)].
  - intros k' s _. apply I.
Qed.

(** A slot for the key, or an unchanged relation. *)
Lemma tbl_put_spec ok_grow ok_str t Rel key str :
  tab_rel t Rel ->
  match tbl_put ok_grow ok_str t key str with
  | (t', Some j) => slot_ready t' j (key, str) Rel
  | (t', None) => tab_rel t' Rel /\ (ok_grow = true -> ok_str = true -> False)
  end.
Proof.
  intros I. pose proof (tr_wf _ _ I) as W. destruct fact_cap0_ok as [H1 H2]. unfold tbl_put, tbl_grow.
  destruct (if pt_needs_grow t then pt_grow FACT_CAP0 ok_grow t else Some t) as [t1|] eqn:Eg.
  2:{ split; [done|]. intros -> _. destruct (pt_needs_grow t); [|done].
      destruct (pt_grow_spec FACT_CAP0 t H1 H2 W) as (? & E & _). congruence. }
  assert (pt_wf t1 /\ pt_needs_grow t1 = false /\ forall k, pt_get t1 k = pt_get t k)
    as (W1 & Hg1 & Hget).
  { destruct (pt_needs_grow t) eqn:En; [|injection Eg as <-; done].
    destruct ok_grow; [|done].
    destruct (pt_grow_spec FACT_CAP0 t H1 H2 W) as (t2 & E & W2 & Hg2 & _ & Hget2).
    rewrite E in Eg. injection Eg as <-. done. }
  assert (tab_rel t1 Rel) as I1 by (by eapply tab_rel_same).
  destruct (pt_find t1 (key, str)) as [j|] eqn:Ef.
  { rewrite (put_loop_present t1 _ j) by done. by apply rel_slot_ready. }
  destruct (put_loop_absent t1 (key, str) W1 (needs_grow_room _ Hg1) Ef)
    as (W' & j & d & s0 & -> & Hs0 & Hnl & Hd & Hp & Hc).
  destruct (match str with Some _ => negb ok_str | None => false end) eqn:Es.
  { split; [done|]. intros _ ->. by destruct str. }
  rewrite (slot_at_lookup _ _ _ Hs0).
  destruct (pt_claim_spec t1 (key, str) j d s0 (mkSlot key str [] 0 SLOT_LIVE))
    as (W2 & Hf2 & Hg2); try done; [by apply needs_grow_room|]. cbn [slot_state Slot_probe] in *.
  set (t2 := mkPTable _ _ _ _) in *.
  assert (pt_get t2 (key, str) = Some (mkSlot key str [] 0 SLOT_LIVE)) as Hgk
    by (by rewrite Hg2, decide_True).
  split; [done|done| | |].
  - eexists. split; [|split_and!; [exact Hgk|done|done|constructor]].
    unfold pt_get in Hgk. rewrite Hf2 in Hgk. cbn in Hgk. by apply slot_at_lookup.
  - intros k' s Hne. rewrite Hg2, decide_False by done. apply I1.
  - intros k' p. rewrite Hg2. case_decide; [|apply I1]. subst k'.
    rewrite <- (tr_posts _ _ I1). apply pt_get_None in Ef as ->; done.
Qed.

(** Adding a posting to a ready slot. *)
Lemma slot_add_post_spec ok t j k Rel pred rec :
  slot_ready t j k Rel ->
  match slot_add_post ok t j pred rec with
  | None => ok = false /\ ~ Rel k (mkPost rec pred) /\
      tab_rel (if (length (sl_posts (slot_at (pt_slots t) j)) =? 0)%nat then tbl_retire t j else t) Rel
  | Some (t', added) =>
      (if added then ~ Rel k (mkPost rec pred) else Rel k (mkPost rec pred)) /\
      tab_rel t' (fun k' p => Rel k' p \/ (k' = k /\ p = mkPost rec pred)) /\
      pt_find t' k = Some j
  end.
Proof.
  intros R. pose proof (sr_wf _ _ _ _ R) as W. pose proof (sr_find _ _ _ _ R) as Hf.
  destruct (sr_slot _ _ _ _ R) as (s & Es & Hg & Hl & Hk & Hsort).
  unfold slot_add_post, post_lower_bound. rewrite Es.
  assert (mkPost rec pred ∈ sl_posts s <-> Rel k (mkPost rec pred)) as Hel.
  { rewrite <- (sr_posts _ _ _ _ R). by rewrite Hg. }
  destruct (sa_at _ _ _) eqn:Eat.
  { apply sa_at_spec in Eat as Hin; [|done]. split_and!; [naive_solver| |done].
    apply (tab_rel_ext _ Rel); [naive_solver|]. eapply slot_ready_rel; [done|done|].
    intros E0. rewrite E0 in Hin. set_solver. }
  apply sa_at_false in Eat as Hnin; [|done].
  destruct (sa_add _ _ _ _ _) as [[posts cap]|] eqn:Ea.
  - destruct (sa_add_spec _ _ _ _ _ _ _ Hsort Ea) as [Hs' Hel'].
    destruct (pt_set_spec t k j (mkSlot (sl_key s) (sl_obj_str s) posts cap (sl_state s)) W Hf)
      as [W2 Hg2]; [done|done|].
    split_and!; [naive_solver| |].
    + split; [done| |].
      * intros k' s'. rewrite Hg2. case_decide; [|by apply (sr_other _ _ _ _ R k')].
        intros [= <-]. split; [done|]. cbn. intros E0. apply (not_elem_of_nil (mkPost rec pred)).
        rewrite <- E0. apply Hel'. by left.
      * intros k' p. rewrite Hg2. case_decide as Ek.
        -- subst k'. cbn [posts_of sl_posts]. rewrite Hel', <- (sr_posts _ _ _ _ R), Hg. naive_solver.
        -- rewrite (sr_posts _ _ _ _ R). naive_solver.
    + apply pt_find_spec; [done|]. apply pt_find_spec in Hf as (s0 & Hs0 & _); [|done].
      eexists. cbn [pt_set pt_slots]. rewrite list_lookup_insert_eq by (by eapply lookup_lt_Some).
      done.
  - split_and!; [|naive_solver|].
    + destruct ok; [|done]. by destruct (sa_add_ok 1 (sl_posts s) (sl_cap s) (mkPost rec pred)) as [? E];
        rewrite E in Ea.
    + destruct (Nat.eqb_spec (length (sl_posts s)) 0) as [E0|E0].
      * apply nil_length_inv in E0. unfold tbl_retire.
        edestruct (pt_retire_spec t k j) as [W2 Hg2]; [done|done| |split; [exact W2| |]]; [done| |].
        -- intros k' s'. rewrite Hg2. case_decide; [done|]. by apply (sr_other _ _ _ _ R k').
        -- intros k' p. rewrite Hg2, <- (sr_posts _ _ _ _ R). case_decide as Ek; [|done].
           subst k'. rewrite Hg. cbn. by rewrite E0.
      * eapply slot_ready_rel; [done|done|]. intros E1. by rewrite E1 in E0.
Qed.

(** Removing a posting from a slot. *)
Lemma slot_del_post_spec t j k Rel pred rec :
  tab_rel t Rel -> pt_find t k = Some j ->
  tab_rel (fst (slot_del_post t j pred rec))
    (fun k' p => Rel k' p /\ ~ (k' = k /\ p = mkPost rec pred)) /\
  (snd (slot_del_post t j pred rec) = true <-> Rel k (mkPost rec pred)).
Proof.
  intros I Hf. pose proof (tr_wf _ _ I) as W.
  destruct (sr_slot _ _ _ _ (rel_slot_ready t j k Rel I Hf)) as (s & Es & Hg & Hl & Hk & Hsort).
  unfold slot_del_post, post_lower_bound. rewrite Es.
  assert (mkPost rec pred ∈ sl_posts s <-> Rel k (mkPost rec pred)) as Hel.
  { rewrite <- (tr_posts _ _ I). by rewrite Hg. }
  destruct (sa_at _ _ _) eqn:Eat; cbn [negb].
  2:{ apply sa_at_false in Eat; [|done]. split; [|naive_solver].
      eapply tab_rel_ext; [|done]. naive_solver. }
  apply sa_at_spec in Eat as Hin; [|done].
  pose proof Eat as Elk. unfold sa_at in Elk. apply andb_true_iff in Elk as [_ Elk].
  apply bool_decide_eq_true in Elk. cbn [fst snd]. split; [|naive_solver].
  set (posts := remove_at _ _).
  assert (strictly_sorted posts) as Hs' by (by apply sa_remove_sorted).
  assert (forall y, y ∈ posts <-> y ∈ sl_posts s /\ y <> mkPost rec pred) as Hel'
    by (intros y; by apply elem_of_remove_at).
  destruct (pt_set_spec t k j (mkSlot (sl_key s) (sl_obj_str s) posts (sl_cap s) (sl_state s)) W Hf)
    as [W2 Hg2]; [done|done|].
  assert (forall k' p, k' <> k \/ p ∈ posts <-> k' <> k \/ (Rel k p /\ p <> mkPost rec pred)) as Hpk.
  { intros k' p. rewrite Hel', <- (tr_posts _ _ I), Hg. done. }
  destruct (Nat.eqb_spec (length posts) 0) as [E0|E0].
  - unfold tbl_retire. edestruct (pt_retire_spec (pt_set t j
      (mkSlot (sl_key s) (sl_obj_str s) posts (sl_cap s) (sl_state s))) k j) as [W3 Hg3];
      [done| |shelve|split; [exact W3| |]].
    + apply pt_find_spec; [done|]. apply pt_find_spec in Hf as (s0 & Hs0 & _); [|done].
      eexists. cbn [pt_set pt_slots]. rewrite list_lookup_insert_eq by (by eapply lookup_lt_Some).
      done.
    + intros k' s'. rewrite Hg3. case_decide; [done|]. rewrite Hg2, decide_False by done. apply I.
    + intros k' p. rewrite Hg3. case_decide as Ek.
      * apply nil_length_inv in E0. specialize (Hpk k' p). rewrite E0 in Hpk. subst k'. set_solver.
      * rewrite Hg2, decide_False by done. rewrite (tr_posts _ _ I). naive_solver.
    Unshelve. done.
  - split; [done| |].
    + intros k' s'. rewrite Hg2. case_decide; [|apply I]. intros [= <-]. split; [done|].
      cbn. intros E1. by rewrite E1 in E0.
    + intros k' p. rewrite Hg2. case_decide as Ek.
      * specialize (Hpk k' p). subst k'. cbn [posts_of sl_posts]. naive_solver.
      * rewrite (tr_posts _ _ I). naive_solver.
Qed.

(** Undoing a posting that was just added restores the relation. *)
Lemma undo_post_spec ok t j k Rel pred rec t' added :
  slot_ready t j k Rel -> slot_add_post ok t j pred rec = Some (t', added) ->
  tab_rel (if added then fst (slot_del_post t' j pred rec) else t') Rel.
Proof.
  intros R Ha. pose proof (slot_add_post_spec ok t j k Rel pred rec R) as Hs. rewrite Ha in Hs.
  destruct Hs as (Hadd & I & Hf). destruct added.
  - destruct (slot_del_post_spec t' j k _ pred rec I Hf) as [I' _].
    eapply tab_rel_ext; [|exact I']. naive_solver.
  - eapply tab_rel_ext; [|exact I]. intros k' p. split; [|by left].
    intros [?|[-> ->]]; done.
Qed.

(** ** Specification: a map from record to fact *)

(** Subject, predicate, object key. A string object's key contains its text,
    so distinct objects have distinct keys. *)
Abbreviation FactVal := (Z * list Z * SlotKey)%type.

Definition plook (T : Intern) (p : list Z) : Z := pred_lookup T (Some p).

Definition with_pred (p : list Z) (x : Z * FactVal) : Prop := x.2.1.2 = p.
#[global] Instance with_pred_dec p x : Decision (with_pred p x).
Proof. unfold with_pred. apply _. Defined.

Record preds_inv (T : Intern) (M : gmap Z FactVal) : Prop := {
  pi_wf : it_wf T;
  pi_nil : it_find T [] = None;
  pi_known : forall r s p o, M !! r = Some (s, p, o) -> is_Some (it_find T p);
  pi_uses : forall p, it_uses T p = size (filter (with_pred p) M)
}.

Definition subj_rel (T : Intern) (M : gmap Z FactVal) (k : SlotKey) (x : Post) : Prop :=
  exists s p o, M !! po_rec x = Some (s, p, o) /\ k = (s, None) /\ plook T p = po_pred x.
Definition obj_rel (T : Intern) (M : gmap Z FactVal) (k : SlotKey) (x : Post) : Prop :=
  exists s p, M !! po_rec x = Some (s, p, k) /\ plook T p = po_pred x.

Record fact_refines (f : FactIndex) (M : gmap Z FactVal) : Prop := {
  fr_preds : preds_inv (fi_preds f) M;
  fr_subj : tab_rel (fi_subj f) (subj_rel (fi_preds f) M);
  fr_obj : tab_rel (fi_obj f) (obj_rel (fi_preds f) M);
  fr_len : length (fi_pred_recs f) = FACT_MAX_PREDICATES;
  fr_sorted : forall i v, fi_pred_recs f !! i = Some v -> strictly_sorted (fst v);
  fr_recs : forall i v r, fi_pred_recs f !! i = Some v ->
    r ∈ fst v <-> exists s p o, M !! r = Some (s, p, o) /\ plook (fi_preds f) p = Z.of_nat i + 1;
  fr_facts : fi_facts f = size M
}.

Lemma plook_find (T : Intern) p id : it_find T [] = None -> it_find T p = Some id -> plook T p = id.
Proof.
  intros Hn Hf. unfold plook, pred_lookup, pred_find. destruct p; [congruence|]. by rewrite Hf.
Qed.

Lemma plook_inj (T : Intern) (M : gmap Z FactVal) p q :
  preds_inv T M -> is_Some (it_find T p) -> is_Some (it_find T q) -> plook T p = plook T q -> p = q.
Proof.
  intros I [a Ha] [b Hb] E.
  rewrite (plook_find T p a), (plook_find T q b) in E by (done || apply I). subst b.
  by eapply it_find_inj; [apply I|..].
Qed.

Lemma plook_range (T : Intern) (M : gmap Z FactVal) p :
  preds_inv T M -> is_Some (it_find T p) -> 0 < plook T p <= 4096.
Proof.
  intros I [a Ha]. rewrite (plook_find T p a) by (done || apply I).
  pose proof (it_find_range T p a (pi_wf _ _ I) Ha). lia.
Qed.

(** The three structures hold [M] also for a table that gives its predicates
    the same ids. *)
Lemma refines_preds f (M : gmap Z FactVal) (T : Intern) subj obj :
  fact_refines f M -> preds_inv T M ->
  (forall p, is_Some (it_find (fi_preds f) p) -> plook T p = plook (fi_preds f) p) ->
  tab_rel subj (subj_rel T M) -> tab_rel obj (obj_rel T M) ->
  fact_refines (mkFactIndex subj obj (fi_pred_recs f) T (fi_facts f)) M.
Proof.
  intros R I Hpl Is Io. split; cbn; auto; try apply R.
  intros i v r Hv. rewrite (fr_recs f M R i v r Hv).
  split; intros (s & p & o & Hr & Hp); exists s, p, o; (split; [done|]); rewrite <- Hp;
    [|symmetry]; apply Hpl; by eapply (pi_known _ _ (fr_preds f M R)).
Qed.

Lemma rel_preds f (M : gmap Z FactVal) (T : Intern) :
  fact_refines f M ->
  (forall p, is_Some (it_find (fi_preds f) p) -> plook T p = plook (fi_preds f) p) ->
  tab_rel (fi_subj f) (subj_rel T M) /\ tab_rel (fi_obj f) (obj_rel T M).
Proof.
  intros R Hpl. split.
  - eapply tab_rel_ext; [|apply R]. intros k x. unfold subj_rel.
    split; intros (s & p & o & Hr & Hk & Hp); exists s, p, o; (split_and!; [done|done|]);
      rewrite <- Hp; [|symmetry]; apply Hpl; by eapply (pi_known _ _ (fr_preds f M R)).
  - eapply tab_rel_ext; [|apply R]. intros k x. unfold obj_rel.
    split; intros (s & p & Hr & Hp); exists s, p; (split_and!; [done|]);
      rewrite <- Hp; [|symmetry]; apply Hpl; by eapply (pi_known _ _ (fr_preds f M R)).
Qed.

(** Interning: refused ([PRED_NONE]) or the predicate's id; either way facts
    already stored keep their predicate ids. *)
Definition pred_fits (oka okn : bool) (T : Intern) (p : list Z) : Prop :=
  oka = true /\ okn = true /\ (0 < length p <= FACT_MAX_PREDICATE_LEN)%nat /\
  (is_Some (it_find T p) \/ length (it_nodes T) < INTERN_MAX)%nat.

Lemma preds_inv_ext (T T' : Intern) (M : gmap Z FactVal) :
  preds_inv T M -> it_wf T' -> it_find T' [] = None ->
  (forall p, is_Some (it_find T p) -> is_Some (it_find T' p)) ->
  (forall p, it_uses T' p = it_uses T p) -> preds_inv T' M.
Proof.
  intros I W Hn Hk Hu. split; [done|done| |].
  - intros r s p o Hr. apply Hk. by eapply pi_known.
  - intros p. rewrite Hu. apply I.
Qed.

Lemma pred_intern_spec oka okn (T : Intern) (M : gmap Z FactVal) (p : list Z) :
  preds_inv T M ->
  exists T' id, pred_intern oka okn T p = (T', id) /\ preds_inv T' M /\
    (forall q, is_Some (it_find T q) -> plook T' q = plook T q) /\
    (id <> PRED_NONE /\ is_Some (it_find T' p) /\ id = plook T' p
     \/ id = PRED_NONE /\ ~ pred_fits oka okn T p).
Proof.
  intros I. pose proof (pi_wf _ _ I) as W. unfold pred_intern, pred_fits, pred_find, PRED_NONE.
  destruct (Nat.eqb_spec (length p) 0) as [E0|E0];
    [|destruct (Nat.ltb_spec FACT_MAX_PREDICATE_LEN (length p)) as [E1|E1]]; cbn [orb].
  1,2: by exists T, 0; split_and!; [done|done|done|right; split; [done|]; lia].
  destruct (it_find T p) as [id|] eqn:Ef.
  { exists T, id. split_and!; [done|done|done|]. left. pose proof (it_find_range T p id W Ef).
    split_and!; [lia|eauto|]. symmetry. apply plook_find; [apply I|done]. }
  pose proof (it_mint_any oka okn T p) as Hany. destruct (it_mint oka okn T p) as [T' [id|]] eqn:Em.
  - assert (length (it_nodes T) < INTERN_MAX)%nat as Hroom.
    { unfold it_mint in Hany. destruct (Nat.leb_spec INTERN_MAX (length (it_nodes T))); [done|lia]. }
    destruct (it_mint_spec T p W Ef Hroom) as (T1 & id1 & E1' & W1 & Hf1 & Hoth & Hus & _).
    rewrite Hany in E1'. injection E1' as <- <-.
    assert (p <> []) as Hp by (by intros ->).
    assert (it_find T' [] = None) as Hnil by (rewrite Hoth; [apply I|done]).
    assert (forall q, is_Some (it_find T q) -> it_find T' q = it_find T q) as Hkeep.
    { intros q [x Hq]. apply Hoth. intros ->. congruence. }
    exists T', id. split_and!; [done| | |].
    + eapply preds_inv_ext; [done|done|done| |done]. intros q Hq. by rewrite Hkeep.
    + intros q Hq. destruct (it_find T q) as [x|] eqn:Eq; [|by destruct Hq].
      rewrite (plook_find T' q x), (plook_find T q x); [done|apply I|done|done|].
      rewrite Hkeep; [done|]. rewrite Eq. eauto.
    + left. pose proof (it_find_range T' p id W1 Hf1). split_and!; [lia|eauto|].
      symmetry. by apply plook_find.
  - destruct (it_same_wf T T' Hany W) as (W' & Hf & Hu). exists T', 0. split_and!; [done| | |].
    + eapply preds_inv_ext; [done|done|rewrite Hf; apply I| |done]. intros q. by rewrite Hf.
    + intros q _. unfold plook, pred_lookup, pred_find. by destruct q; rewrite ?Hf.
    + right. split; [done|]. intros (-> & -> & _ & [[? ?]|Hroom]); [congruence|].
      destruct (it_mint_spec T p W Ef Hroom) as (? & ? & E2 & _). congruence.
Qed.

(** *** Adding a fact *)

Lemma subj_rel_insert (T : Intern) (M : gmap Z FactVal) r s p o k x :
  (M !! r = None \/ M !! r = Some (s, p, o)) ->
  subj_rel T (<[r := (s, p, o)]> M) k x <->
  subj_rel T M k x \/ (k = (s, None) /\ x = mkPost r (plook T p)).
Proof.
  intros Hr. unfold subj_rel. destruct x as [xr xp]. cbn [po_rec po_pred].
  destruct (decide (xr = r)) as [->|Hne].
  - rewrite lookup_insert_eq. split.
    + intros (s' & p' & o' & [= <- <- <-] & -> & <-). by right.
    + intros [(s' & p' & o' & E & -> & <-)|[-> [= ->]]]; [|by exists s, p, o].
      rewrite E in Hr. destruct Hr as [Hr|Hr]; [done|]. injection Hr as -> -> ->.
      by exists s, p, o.
  - rewrite lookup_insert_ne by done. split; [by left|].
    intros [?|[_ [= ? _]]]; [done|congruence].
Qed.

Lemma obj_rel_insert (T : Intern) (M : gmap Z FactVal) r s p o k x :
  (M !! r = None \/ M !! r = Some (s, p, o)) ->
  obj_rel T (<[r := (s, p, o)]> M) k x <->
  obj_rel T M k x \/ (k = o /\ x = mkPost r (plook T p)).
Proof.
  intros Hr. unfold obj_rel. destruct x as [xr xp]. cbn [po_rec po_pred].
  destruct (decide (xr = r)) as [->|Hne].
  - rewrite lookup_insert_eq. split.
    + intros (s' & p' & [= <- <- <-] & <-). by right.
    + intros [(s' & p' & E & <-)|[-> [= ->]]]; [|by exists s, p].
      rewrite E in Hr. destruct Hr as [Hr|Hr]; [done|]. injection Hr as -> -> ->.
      by exists s, p.
  - rewrite lookup_insert_ne by done. split; [by left|].
    intros [?|[_ [= ? _]]]; [done|congruence].
Qed.

Lemma uses_insert (M : gmap Z FactVal) r s p o q :
  M !! r = None ->
  size (filter (with_pred q) (<[r := (s, p, o)]> M))
  = (size (filter (with_pred q) M) + if bool_decide (q = p) then 1 else 0)%nat.
Proof.
  intros Hr. rewrite map_filter_insert. unfold with_pred at 1. cbn.
  destruct (decide (p = q)) as [->|Hne].
  - rewrite bool_decide_true by done. rewrite map_size_insert_None; [lia|].
    apply map_lookup_filter_None. by left.
  - rewrite bool_decide_false by congruence. rewrite delete_id; [lia|done].
Qed.

(** Counting the new fact. *)
Lemma preds_inv_insert (T : Intern) (M : gmap Z FactVal) r s p o id :
  preds_inv T M -> it_find T p = Some id -> M !! r = None ->
  preds_inv (pred_use T id true) (<[r := (s, p, o)]> M) /\
  forall q, plook (pred_use T id true) q = plook T q.
Proof.
  intros I Hf Hr. unfold pred_use.
  destruct (it_use_spec T p id true (pi_wf _ _ I) Hf) as (W' & Hf' & _ & Hu); [done|].
  split.
  - split; [done|rewrite Hf'; apply I| |].
    + intros r' s' p' o'. rewrite Hf'. destruct (decide (r' = r)) as [->|].
      * rewrite lookup_insert_eq. intros [= <- <- <-]. eauto.
      * rewrite lookup_insert_ne by done. apply I.
    + intros q. rewrite Hu, uses_insert by done. rewrite <- !(pi_uses _ _ I).
      case_bool_decide; [subst; lia|lia].
  - intros q. unfold plook, pred_lookup, pred_find. destruct q; [done|]. by rewrite Hf'.
Qed.

Lemma pred_list_lookup f (M : gmap Z FactVal) (T : Intern) p :
  fact_refines f M -> preds_inv T M -> is_Some (it_find T p) ->
  fi_pred_recs f !! Z.to_nat (plook T p - 1) = Some (pred_list f (plook T p)).
Proof.
  intros R I Hp. pose proof (plook_range T M p I Hp). unfold pred_list.
  destruct (lookup_lt_is_Some_2 (fi_pred_recs f) (Z.to_nat (plook T p - 1))) as [v ->]; [|done].
  rewrite (fr_len f M R). unfold FACT_MAX_PREDICATES. lia.
Qed.

(** The predicate list after a record is added to it. *)
Lemma recs_insert f (M : gmap Z FactVal) (T : Intern) r s p o v :
  fact_refines f M -> preds_inv T M -> is_Some (it_find T p) ->
  (forall q, is_Some (it_find (fi_preds f) q) -> plook T q = plook (fi_preds f) q) ->
  (M !! r = None \/ M !! r = Some (s, p, o)) ->
  strictly_sorted (fst v) ->
  (forall y, y ∈ fst v <-> y = r \/ y ∈ fst (pred_list f (plook T p))) ->
  let recs := <[Z.to_nat (plook T p - 1) := v]> (fi_pred_recs f) in
  length recs = FACT_MAX_PREDICATES /\
  (forall i w, recs !! i = Some w -> strictly_sorted (fst w)) /\
  (forall i w y, recs !! i = Some w -> y ∈ fst w <->
     exists s' p' o', <[r := (s, p, o)]> M !! y = Some (s', p', o') /\ plook T p' = Z.of_nat i + 1).
Proof.
  intros R I Hp Hpl Hr Hsv Hv recs. pose proof (plook_range T M p I Hp) as Hrg.
  pose proof (pred_list_lookup f M T p R I Hp) as Hl. pose proof (lookup_lt_Some _ _ _ Hl) as Hlt.
  assert (forall i w y, fi_pred_recs f !! i = Some w -> y ∈ fst w <->
    exists s' p' o', M !! y = Some (s', p', o') /\ plook T p' = Z.of_nat i + 1) as Hold.
  { intros i w y Hw. rewrite (fr_recs f M R i w y Hw).
    split; intros (s' & p' & o' & Hy & Hp'); exists s', p', o'; (split; [done|]); rewrite <- Hp';
      [|symmetry]; apply Hpl; by eapply (pi_known _ _ (fr_preds f M R)). }
  split_and!; [unfold recs; rewrite length_insert; apply R| |].
  - intros i w. unfold recs. destruct (decide (i = Z.to_nat (plook T p - 1))) as [->|].
    + rewrite list_lookup_insert_eq by done. by intros [= <-].
    + rewrite list_lookup_insert_ne by done. apply R.
  - intros i w y. unfold recs. destruct (decide (i = Z.to_nat (plook T p - 1))) as [->|Hi].
    + rewrite list_lookup_insert_eq by done. intros [= <-]. rewrite Hv, (Hold _ _ y Hl).
      replace (Z.of_nat (Z.to_nat (plook T p - 1)) + 1) with (plook T p) by lia.
      destruct (decide (y = r)) as [->|Hne].
      * rewrite lookup_insert_eq. split; [intros _; by exists s, p, o|by left].
      * rewrite lookup_insert_ne by done. naive_solver.
    + rewrite list_lookup_insert_ne by done. intros Hw. rewrite (Hold _ _ y Hw).
      destruct (decide (y = r)) as [->|Hne].
      * rewrite lookup_insert_eq. split.
        -- intros (s' & p' & o' & Hy & Hp'). rewrite Hy in Hr.
           destruct Hr as [?|[= -> -> ->]]; [done|]. by exists s, p, o.
        -- intros (s' & p' & o' & [= <- <- <-] & Hp'). lia.
      * by rewrite lookup_insert_ne.
Qed.

(** Every allocation of the call succeeds. *)
Definition all_ok (ok : FactOks) : Prop :=
  fk_arr ok = true /\ fk_node ok = true /\ fk_subj ok = true /\ fk_subj_post ok = true /\
  fk_obj ok = true /\ fk_obj_str ok = true /\ fk_obj_post ok = true /\ fk_list ok = true.

Section adding.
Context (ok : FactOks) (f : FactIndex) (M : gmap Z FactVal) (r subject : Z) (p : list Z)
  (okind : FactKind) (oid : Z) (ostr : option (list Z)) (key : SlotKey).
Context (R : fact_refines f M).
Context (Hkey : object_key okind oid ostr = Some key).
Context (Hr : M !! r = None \/ M !! r = Some (subject, p, key)).

(** The posting tables after both insertions. *)
Lemma add_lists_refine (T : Intern) subj obj s_added v :
  preds_inv T M -> is_Some (it_find T p) ->
  (forall q, is_Some (it_find (fi_preds f) q) -> plook T q = plook (fi_preds f) q) ->
  tab_rel subj (subj_rel T (<[r := (subject, p, key)]> M)) ->
  tab_rel obj (obj_rel T (<[r := (subject, p, key)]> M)) ->
  (if s_added : bool then M !! r = None else M !! r = Some (subject, p, key)) ->
  strictly_sorted (fst v) ->
  (forall y, y ∈ fst v <-> y = r \/ y ∈ fst (pred_list f (plook T p))) ->
  fact_refines
    (if s_added
     then mkFactIndex subj obj (<[Z.to_nat (plook T p - 1) := v]> (fi_pred_recs f))
            (pred_use T (plook T p) true) (S (fi_facts f))
     else mkFactIndex subj obj (<[Z.to_nat (plook T p - 1) := v]> (fi_pred_recs f)) T (fi_facts f))
    (<[r := (subject, p, key)]> M).
Proof.
  intros I Hp Hpl Is Io Hadd Hsv Hv.
  destruct (recs_insert f M T r subject p key v R I Hp Hpl Hr Hsv Hv) as (Hlen & Hso & Hre).
  destruct s_added.
  - destruct Hp as [id Hid]. pose proof (plook_find T p id (pi_nil _ _ I) Hid) as Epl.
    destruct (preds_inv_insert T M r subject p key id I Hid Hadd) as [I' Hpl']. rewrite Epl in *.
    split; cbn [fi_preds fi_subj fi_obj fi_pred_recs fi_facts]; [done| | |done|done| |].
    + eapply tab_rel_ext; [|exact Is]. intros k x. unfold subj_rel. by setoid_rewrite Hpl'.
    + eapply tab_rel_ext; [|exact Io]. intros k x. unfold obj_rel. by setoid_rewrite Hpl'.
    + intros i w y Hw. rewrite (Hre i w y Hw). by setoid_rewrite Hpl'.
    + rewrite map_size_insert_None by done. f_equal. apply R.
  - assert (<[r := (subject, p, key)]> M = M) as EM by (by apply insert_id).
    rewrite EM in *. by split; cbn; auto; apply R.
Qed.

Lemma fact_add_refines :
  exists f' (rc : bool),
    fact_index_add ok (Some f) r subject (Some p) okind oid ostr = (Some f', rc) /\
    fact_refines f' (if rc then <[r := (subject, p, key)]> M else M) /\
    (all_ok ok -> pred_fits true true (fi_preds f) p -> rc = true).
Proof.
  assert (object_key okind oid ostr = Some (key.1, key.2)) as Hkey'
    by (by rewrite Hkey, <- surjective_pairing).
  unfold fact_index_add. rewrite Hkey'.
  destruct (pred_intern_spec (fk_arr ok) (fk_node ok) (fi_preds f) M p (fr_preds f M R))
    as (T & id & -> & I & Hpl & [(Hid & Hp & Eid)|[-> Hnf]]).
  2:{ cbn. destruct (rel_preds f M T R Hpl) as [Is Io]. eexists _, false. split; [done|].
      split; [by apply refines_preds|]. intros (Ha & Hn & _) Hf. exfalso. apply Hnf. by rewrite Ha, Hn. }
  destruct (Z.eqb_spec id PRED_NONE) as [|_]; [done|].
  destruct (rel_preds f M T R Hpl) as [Is Io].
  pose proof (tbl_put_spec (fk_subj ok) true _ _ subject None Is) as Hput.
  destruct (tbl_put (fk_subj ok) true (fi_subj f) subject None) as [subj1 [sj|]].
  2:{ destruct Hput as [Is1 Hf]. eexists _, false. split; [done|].
      split; [by apply refines_preds|]. intros (_ & _ & Hs & _) _. by destruct (Hf Hs). }
  pose proof (slot_add_post_spec (fk_subj_post ok) _ _ _ _ id r Hput) as Hadd.
  destruct (slot_add_post (fk_subj_post ok) subj1 sj id r) as [[subj2 s_added]|] eqn:Eadd.
  2:{ destruct Hadd as (Hf & _ & Is1). eexists _, false. split; [done|].
      split; [by apply refines_preds|]. intros (_ & _ & _ & Hs & _) _. congruence. }
  pose proof (undo_post_spec _ _ _ _ _ _ _ _ _ Hput Eadd) as Is_undo.
  destruct Hadd as (Hsa & Is2 & _).
  pose proof (tbl_put_spec (fk_obj ok) (fk_obj_str ok) _ _ key.1 key.2 Io) as Hputo.
  destruct (tbl_put (fk_obj ok) (fk_obj_str ok) (fi_obj f) key.1 key.2) as [obj1 [oj|]].
  2:{ destruct Hputo as [Io1 Hf]. eexists _, false. split; [done|].
      split; [by apply refines_preds|]. intros (_ & _ & _ & _ & Ho & Hos & _) _.
      by destruct (Hf Ho Hos). }
  pose proof (slot_add_post_spec (fk_obj_post ok) _ _ _ _ id r Hputo) as Haddo.
  destruct (slot_add_post (fk_obj_post ok) obj1 oj id r) as [[obj2 o_added]|] eqn:Eaddo.
  2:{ destruct Haddo as (Hf & _ & Io1). eexists _, false. split; [done|].
      split; [by apply refines_preds|]. intros (_ & _ & _ & _ & _ & _ & Hs & _) _. congruence. }
  pose proof (undo_post_spec _ _ _ _ _ _ _ _ _ Hputo Eaddo) as Io_undo.
  destruct Haddo as (_ & Io2 & _). rewrite <- surjective_pairing in Io2. unfold idlist_add.
  pose proof (pred_list_lookup f M T p R I Hp) as Hl. rewrite <- Eid in Hl.
  destruct (sa_add 4 (fk_list ok) _ _ r) as [[v cap]|] eqn:Ev.
  2:{ eexists _, false. split; [done|]. split; [by apply refines_preds|].
      intros (_ & _ & _ & _ & _ & _ & _ & Hok) _. rewrite Hok in Ev.
      destruct (sa_add_ok 4 (pred_list f id).1 (pred_list f id).2 r) as [? E].
      unfold idlist_add in *. congruence. }
  destruct (sa_add_spec _ _ _ _ _ _ _ (fr_sorted f M R _ _ Hl) Ev) as [Hsv Hv].
  subst id. set (recs := <[Z.to_nat (plook T p - 1) := (v, cap)]> (fi_pred_recs f)).
  exists (if s_added then mkFactIndex subj2 obj2 recs (pred_use T (plook T p) true) (S (fi_facts f))
          else mkFactIndex subj2 obj2 recs T (fi_facts f)), true.
  split; [by destruct s_added|]. split; [|done].
  apply (add_lists_refine T subj2 obj2 s_added (v, cap)); try done.
  - eapply tab_rel_ext; [|exact Is2]. intros k x. by rewrite subj_rel_insert.
  - eapply tab_rel_ext; [|exact Io2]. intros k x. by rewrite obj_rel_insert.
  - unfold subj_rel in Hsa. cbn [po_rec po_pred] in Hsa. destruct s_added.
    + destruct Hr as [?|Hr']; [done|]. exfalso. apply Hsa. by exists subject, p, key.
    + destruct Hr as [Hr'|?]; [|done]. destruct Hsa as (? & ? & ? & E & _). congruence.
Qed.
End adding.

(** *** Removing a fact *)

Lemma subj_rel_delete (T : Intern) (M : gmap Z FactVal) r s p o k x :
  M !! r = Some (s, p, o) ->
  subj_rel T (delete r M) k x <->
  subj_rel T M k x /\ ~ (k = (s, None) /\ x = mkPost r (plook T p)).
Proof.
  intros Hr. unfold subj_rel. destruct x as [xr xp]. cbn [po_rec po_pred].
  destruct (decide (xr = r)) as [->|Hne].
  - rewrite lookup_delete_eq, Hr. split; [by intros (? & ? & ? & ? & _)|].
    intros [(s' & p' & o' & [= <- <- <-] & -> & <-) Hn]. exfalso. by apply Hn.
  - rewrite lookup_delete_ne by done. split; [|by intros [? _]]. intros ?. split; [done|].
    intros [_ [= ? _]]. done.
Qed.

Lemma obj_rel_delete (T : Intern) (M : gmap Z FactVal) r s p o k x :
  M !! r = Some (s, p, o) ->
  obj_rel T (delete r M) k x <->
  obj_rel T M k x /\ ~ (k = o /\ x = mkPost r (plook T p)).
Proof.
  intros Hr. unfold obj_rel. destruct x as [xr xp]. cbn [po_rec po_pred].
  destruct (decide (xr = r)) as [->|Hne].
  - rewrite lookup_delete_eq, Hr. split; [by intros (? & ? & ? & _)|].
    intros [(s' & p' & [= <- <- <-] & <-) Hn]. exfalso. by apply Hn.
  - rewrite lookup_delete_ne by done. split; [|by intros [? _]]. intros ?. split; [done|].
    intros [_ [= ? _]]. done.
Qed.

Lemma preds_inv_delete (T : Intern) (M : gmap Z FactVal) r s p o id :
  preds_inv T M -> it_find T p = Some id -> M !! r = Some (s, p, o) ->
  preds_inv (pred_use T id false) (delete r M) /\
  forall q, plook (pred_use T id false) q = plook T q.
Proof.
  intros I Hf Hr. unfold pred_use.
  assert (forall q, size (filter (with_pred q) M)
    = (size (filter (with_pred q) (delete r M)) + if bool_decide (q = p) then 1 else 0)%nat) as Hsz.
  { intros q. rewrite <- (insert_delete_id M r (s, p, o)) at 1 by done.
    by rewrite uses_insert by apply lookup_delete_eq. }
  destruct (it_use_spec T p id false (pi_wf _ _ I) Hf) as (W' & Hf' & _ & Hu).
  { intros _. rewrite (pi_uses _ _ I), Hsz, bool_decide_true by done. lia. }
  split.
  - split; [done|rewrite Hf'; apply I| |].
    + intros r' s' p' o' [_ Hd]%lookup_delete_Some. rewrite Hf'. by eapply pi_known.
    + intros q. rewrite Hu. rewrite !(pi_uses _ _ I), !Hsz.
      repeat case_bool_decide; subst; try done; lia.
  - intros q. unfold plook, pred_lookup, pred_find. destruct q; [done|]. by rewrite Hf'.
Qed.

(** Deleting a posting through a lookup. *)
Lemma find_del_spec t Rel key str pred rec :
  tab_rel t Rel ->
  exists t' rm,
    (match tbl_find t key str with
     | None => (t, false)
     | Some j => slot_del_post t j pred rec
     end) = (t', rm) /\
    tab_rel t' (fun k p => Rel k p /\ ~ (k = (key, str) /\ p = mkPost rec pred)) /\
    (rm = true <-> Rel (key, str) (mkPost rec pred)).
Proof.
  intros I. unfold tbl_find. destruct (pt_find t (key, str)) as [j|] eqn:Ef.
  - destruct (slot_del_post_spec t j _ Rel pred rec I Ef) as [I' Hrm].
    destruct (slot_del_post t j pred rec) as [t' rm]. by exists t', rm.
  - assert (~ Rel (key, str) (mkPost rec pred)) as Hn.
    { rewrite <- (tr_posts _ _ I). apply pt_get_None in Ef as ->; [set_solver|apply I]. }
    exists t, false. split_and!; [done| |naive_solver].
    eapply tab_rel_ext; [|exact I]. naive_solver.
Qed.

Lemma fact_remove_refines f (M : gmap Z FactVal) r subject p okind oid ostr key :
  fact_refines f M -> object_key okind oid ostr = Some key ->
  (M !! r = None \/ M !! r = Some (subject, p, key)) ->
  exists f', fact_index_remove (Some f) r subject (Some p) okind oid ostr = Some f' /\
    fact_refines f' (delete r M).
Proof.
  intros R Hkey Hr. destruct key as [okey ostr']. unfold fact_index_remove. rewrite Hkey.
  pose proof (fr_preds f M R) as I. fold (plook (fi_preds f) p). set (T := fi_preds f) in *.
  destruct (Z.eqb_spec (plook T p) PRED_NONE) as [E0|E0].
  { exists f. split; [done|]. rewrite delete_id; [done|]. destruct Hr as [?|Hr]; [done|].
    pose proof (plook_range T M p I (pi_known _ _ I _ _ _ _ Hr)). unfold PRED_NONE in *. lia. }
  destruct (find_del_spec (fi_subj f) _ subject None (plook T p) r (fr_subj f M R))
    as (subj & s_rm & -> & Is & Hs).
  destruct (find_del_spec (fi_obj f) _ okey ostr' (plook T p) r (fr_obj f M R))
    as (obj & o_rm & -> & Io & _).
  fold T in Is, Io, Hs. destruct Hr as [Hr|Hr].
  - rewrite delete_id by done. destruct s_rm.
    { destruct Hs as [Hs _]. destruct (Hs eq_refl) as (? & ? & ? & E & _).
      cbn [po_rec] in E. rewrite Hr in E. done. }
    eexists. split; [done|]. apply refines_preds; [done|done|done| |].
    + eapply tab_rel_ext; [|exact Is]. intros k x. split; [by intros [? _]|].
      intros Hx. split; [done|]. intros [-> ->]. destruct Hx as (? & ? & ? & E & _).
      cbn [po_rec] in E. by rewrite Hr in E.
    + eapply tab_rel_ext; [|exact Io]. intros k x. split; [by intros [? _]|].
      intros Hx. split; [done|]. intros [-> ->]. destruct Hx as (? & ? & E & _).
      cbn [po_rec] in E. by rewrite Hr in E.
  - assert (s_rm = true) as -> by (apply Hs; by exists subject, p, (okey, ostr')).
    eexists. split; [done|].
    destruct (pi_known _ _ I _ _ _ _ Hr) as [id Hid].
    pose proof (plook_find T p id (pi_nil _ _ I) Hid) as Epl.
    destruct (preds_inv_delete T M r subject p _ id I Hid Hr) as [I' Hpl'].
    pose proof (pred_list_lookup f M T p R I ltac:(eauto)) as Hl.
    pose proof (lookup_lt_Some _ _ _ Hl) as Hlt.
    pose proof (plook_range T M p I ltac:(eauto)) as Hrg.
    destruct (sa_del_spec (fst (pred_list f (plook T p))) r (fr_sorted f M R _ _ Hl)) as [Hsd Hd].
    split; cbn [fi_preds fi_subj fi_obj fi_pred_recs fi_facts].
    + by rewrite Epl.
    + rewrite Epl. eapply tab_rel_ext; [|exact Is]. intros k x.
      rewrite <- (subj_rel_delete T M r subject p (okey, ostr')) by done.
      unfold subj_rel. by setoid_rewrite Hpl'.
    + rewrite Epl. eapply tab_rel_ext; [|exact Io]. intros k x.
      rewrite <- (obj_rel_delete T M r subject p (okey, ostr')) by done.
      unfold obj_rel. by setoid_rewrite Hpl'.
    + rewrite length_insert. apply R.
    + intros i w. destruct (decide (i = Z.to_nat (plook T p - 1))) as [->|].
      * rewrite list_lookup_insert_eq by done. by intros [= <-].
      * rewrite list_lookup_insert_ne by done. apply R.
    + intros i w y Hw. rewrite Epl. setoid_rewrite Hpl'.
      destruct (decide (i = Z.to_nat (plook T p - 1))) as [->|Hi].
      * rewrite list_lookup_insert_eq in Hw by done. injection Hw as <-. cbn [fst idlist_remove].
        rewrite Hd, (fr_recs f M R _ _ y Hl). fold T.
        replace (Z.of_nat (Z.to_nat (plook T p - 1)) + 1) with (plook T p) by lia.
        setoid_rewrite lookup_delete_Some. naive_solver.
      * rewrite list_lookup_insert_ne in Hw by done. rewrite (fr_recs f M R _ _ y Hw). fold T.
        setoid_rewrite lookup_delete_Some. split; [|naive_solver].
        intros (s' & p' & o' & Hy & Hp'). exists s', p', o'. split_and!; [|done|done].
        intros <-. rewrite Hr in Hy. injection Hy as <- <- <-. lia.
    + rewrite (fr_facts f M R), map_size_delete_Some by eauto. lia.
Qed.

Lemma fact_create_refines : fact_refines fact_index_create ∅.
Proof.
  split; cbn [fact_index_create fi_preds fi_subj fi_obj fi_pred_recs fi_facts].
  - split; [apply it_empty_wf| | |].
    + unfold it_find. cbn [it_empty it_buckets]. by rewrite tbl_find_empty.
    + intros r s p o. by rewrite lookup_empty.
    + intros p. unfold it_uses, it_find. cbn [it_empty it_buckets]. by rewrite tbl_find_empty.
  - split; [apply pt_empty_wf|done|]. intros k x. cbn. split; [set_solver|].
    by intros (? & ? & ? & E & _).
  - split; [apply pt_empty_wf|done|]. intros k x. cbn. split; [set_solver|].
    by intros (? & ? & E & _).
  - apply length_replicate.
  - intros i v [-> _]%lookup_replicate. constructor.
  - intros i v r [-> _]%lookup_replicate. cbn. split; [set_solver|]. by intros (? & ? & ? & E & _).
  - done.
Qed.

(** *** Lookups *)

(** Does a fact's predicate answer the request? [None] asks for any. *)
Definition pred_matches (predicate : option (list Z)) (p : list Z) : Prop :=
  predicate = None \/ predicate = Some p.

Lemma collect_spec (s : option Slot) pred :
  exists l, collect true s pred = Some l /\ strictly_sorted l /\
    forall r, r ∈ l <-> exists q, mkPost r q ∈ posts_of s /\ (pred = PRED_NONE \/ q = pred).
Proof.
  destruct s as [s|]; cbn [collect posts_of].
  2:{ exists []. split_and!; [done|constructor|]. set_solver. }
  destruct (Nat.eqb_spec (length (sl_posts s)) 0) as [E0|_].
  { apply nil_length_inv in E0. rewrite E0. exists []. split_and!; [done|constructor|]. set_solver. }
  cbn [negb].
  assert (forall ps (v : list Z) cap, strictly_sorted v -> exists v' cap',
    foldl (fun st p => st ≫= fun v =>
      if negb (pred =? PRED_NONE) && negb (po_pred p =? pred) then Some v
      else idlist_add true v (po_rec p)) (Some (v, cap)) ps = Some (v', cap') /\
    strictly_sorted v' /\ forall r, r ∈ v' <->
      (exists q, mkPost r q ∈ ps /\ (pred = PRED_NONE \/ q = pred)) \/ r ∈ v) as Hgen.
  { induction ps as [|[r0 q0] ps IH]; intros v cap Hv; cbn [foldl].
    { exists v, cap. split_and!; [done|done|]. set_solver. }
    change (mbind _ (Some (v, cap))) with
      (if negb (pred =? PRED_NONE) && negb (q0 =? pred) then Some (v, cap)
       else idlist_add true (v, cap) r0).
    destruct (negb (pred =? PRED_NONE) && negb (q0 =? pred)) eqn:Eq.
    - destruct (IH v cap Hv) as (v' & cap' & E' & Hs' & Hel'). exists v', cap'.
      split_and!; [done|done|]. intros r. rewrite Hel'. zbool. split.
      + intros [(q & Hq & Hc)|?]; [|by right]. left. exists q. split; [by right|done].
      + intros [(q & [[= -> ->]|Hq]%elem_of_cons & Hc)|?]; [lia|left; eauto|by right].
    - assert (pred = PRED_NONE \/ q0 = pred) as Hm.
      { apply andb_false_iff in Eq as [Eq|Eq]; zbool; auto. }
      unfold idlist_add. cbn [fst snd].
      destruct (sa_add_ok 4 v cap r0) as [[v1 cap1] Ea]. rewrite Ea.
      destruct (sa_add_spec _ _ _ _ _ _ _ Hv Ea) as [Hv1 Hel1].
      destruct (IH v1 cap1 Hv1) as (v' & cap' & E' & Hs' & Hel'). exists v', cap'.
      split_and!; [done|done|]. intros r. rewrite Hel', Hel1. split.
      + intros [(q & Hq & Hc)|[->|?]]; [left; exists q; split; [by right|done]| |by right].
        left. exists q0. split; [left|done].
      + intros [(q & [[= -> ->]|Hq]%elem_of_cons & Hc)|?]; [right; by left|left; eauto|].
        right. by right. }
  destruct (Hgen (sl_posts s) [] (length (sl_posts s))) as (v & cap & -> & Hs & Hel); [constructor|].
  exists v. split_and!; [done|done|]. intros r. rewrite Hel. set_solver.
Qed.

Lemma slot_of_key_get (t : Table) key str : pt_wf t -> slot_of_key t key str = pt_get t (key, str).
Proof.
  intros W. unfold slot_of_key, tbl_find, pt_get. destruct (pt_find t (key, str)) as [j|] eqn:E; [|done].
  apply pt_find_spec in E as (s & Hs & _); [|done]. cbn. by rewrite (slot_at_lookup _ _ _ Hs), Hs.
Qed.

(** A table lookup restricted to a predicate. *)
Lemma lookup_spec f (M : gmap Z FactVal) (t : Table) Rel key str predicate :
  fact_refines f M -> tab_rel t Rel ->
  exists l,
    (match predicate with
     | Some _ =>
         if pred_lookup (fi_preds f) predicate =? PRED_NONE then Some []
         else collect true (slot_of_key t key str) (pred_lookup (fi_preds f) predicate)
     | None => collect true (slot_of_key t key str) PRED_NONE
     end) = Some l /\ strictly_sorted l /\
    forall r, r ∈ l <-> exists q, Rel (key, str) (mkPost r q) /\
      (predicate = None \/ (q <> PRED_NONE /\ pred_lookup (fi_preds f) predicate = q)).
Proof.
  intros R I. rewrite slot_of_key_get by apply I. destruct predicate as [p|].
  - destruct (Z.eqb_spec (pred_lookup (fi_preds f) (Some p)) PRED_NONE) as [E|E].
    + exists []. split_and!; [done|constructor|]. intros r. split; [set_solver|].
      intros (q & _ & [?|[? ?]]); congruence.
    + destruct (collect_spec (pt_get t (key, str)) (pred_lookup (fi_preds f) (Some p)))
        as (l & -> & Hs & Hel). exists l. split_and!; [done|done|]. intros r. rewrite Hel.
      setoid_rewrite (tr_posts _ _ I). split.
      * intros (q & Hq & [?| ->]); [done|]. eexists. split; [exact Hq|]. by right.
      * intros (q & Hq & [?|[_ <-]]); [done|]. eexists. split; [exact Hq|by right].
  - destruct (collect_spec (pt_get t (key, str)) PRED_NONE) as (l & -> & Hs & Hel).
    exists l. split_and!; [done|done|]. intros r. rewrite Hel. setoid_rewrite (tr_posts _ _ I).
    naive_solver.
Qed.

(** The posting of a stored fact, as the lookup filters see it. *)
Lemma stored_pred f (M : gmap Z FactVal) r s p o predicate :
  fact_refines f M -> M !! r = Some (s, p, o) ->
  (predicate = None \/ (plook (fi_preds f) p <> PRED_NONE /\
     pred_lookup (fi_preds f) predicate = plook (fi_preds f) p)) <-> pred_matches predicate p.
Proof.
  intros R Hr. pose proof (fr_preds f M R) as I. pose proof (pi_known _ _ I _ _ _ _ Hr) as Hk.
  pose proof (plook_range _ M p I Hk) as Hrg. unfold pred_matches, PRED_NONE. split.
  - intros [?|[_ E]]; [by left|]. destruct predicate as [q|]; [|by left]. right. f_equal.
    fold (plook (fi_preds f) q) in E. apply (plook_inj (fi_preds f) M); [done| |done|done].
    unfold plook, pred_lookup, pred_find, PRED_NONE in E, Hrg. destruct q as [|c q]; [lia|].
    destruct (it_find (fi_preds f) (c :: q)); [eauto|]. simpl in E. lia.
  - intros [?| ->]; [by left|]. right. split; [lia|done].
Qed.

Lemma by_subject_exact f (M : gmap Z FactVal) subject predicate :
  fact_refines f M ->
  exists l, fact_index_by_subject true (Some f) subject predicate = Some l /\ strictly_sorted l /\
    forall r, r ∈ l <-> exists p o, M !! r = Some (subject, p, o) /\ pred_matches predicate p.
Proof.
  intros R. destruct (lookup_spec f M _ _ subject None predicate R (fr_subj f M R))
    as (l & El & Hs & Hel). exists l. split_and!; [by destruct predicate|done|].
  intros r. rewrite Hel. unfold subj_rel. cbn [po_rec po_pred]. split.
  - intros (q & (s & p & o & Hr & [= <-] & <-) & Hp). exists p, o. split; [done|].
    by eapply stored_pred.
  - intros (p & o & Hr & Hp). exists (plook (fi_preds f) p).
    split; [by exists subject, p, o|]. by eapply stored_pred.
Qed.

Lemma by_object_exact f (M : gmap Z FactVal) okind oid ostr key predicate :
  fact_refines f M -> object_key okind oid ostr = Some key ->
  exists l, fact_index_by_object true (Some f) okind oid ostr predicate = Some l /\
    strictly_sorted l /\
    forall r, r ∈ l <-> exists s p, M !! r = Some (s, p, key) /\ pred_matches predicate p.
Proof.
  intros R Hk. destruct key as [okey ostr'].
  destruct (lookup_spec f M _ _ okey ostr' predicate R (fr_obj f M R)) as (l & El & Hs & Hel).
  exists l. split_and!; [unfold fact_index_by_object; rewrite Hk; by destruct predicate|done|].
  intros r. rewrite Hel. unfold obj_rel. cbn [po_rec po_pred]. split.
  - intros (q & (s & p & Hr & <-) & Hp). exists s, p. split; [done|]. by eapply stored_pred.
  - intros (s & p & Hr & Hp). exists (plook (fi_preds f) p).
    split; [by exists s, p|]. by eapply stored_pred.
Qed.

Lemma by_predicate_exact f (M : gmap Z FactVal) p :
  fact_refines f M ->
  exists l, fact_index_by_predicate true (Some f) (Some p) = Some l /\ strictly_sorted l /\
    fact_index_predicate_facts (Some f) (Some p) = length l /\
    forall r, r ∈ l <-> exists s o, M !! r = Some (s, p, o).
Proof.
  intros R. pose proof (fr_preds f M R) as I. unfold fact_index_by_predicate, fact_index_predicate_facts.
  fold (plook (fi_preds f) p). destruct (Z.eqb_spec (plook (fi_preds f) p) PRED_NONE) as [E|E].
  - exists []. split_and!; [done|constructor|done|]. intros r. split; [set_solver|].
    intros (s & o & Hr). pose proof (plook_range _ M p I (pi_known _ _ I _ _ _ _ Hr)).
    unfold PRED_NONE in *. lia.
  - assert (is_Some (it_find (fi_preds f) p)) as Hk.
    { unfold plook, pred_lookup, pred_find, PRED_NONE in E. destruct p; [done|].
      destruct (it_find (fi_preds f) _); [eauto|done]. }
    pose proof (pred_list_lookup f M (fi_preds f) p R I Hk) as Hl.
    pose proof (plook_range _ M p I Hk) as Hrg.
    exists (fst (pred_list f (plook (fi_preds f) p))). cbn [orb]. split_and!.
    + destruct (Nat.eqb_spec (length (pred_list f (plook (fi_preds f) p)).1) 0) as [E0|]; [|done].
      apply nil_length_inv in E0. by rewrite E0.
    + by apply (fr_sorted f M R _ _ Hl).
    + done.
    + intros r. rewrite (fr_recs f M R _ _ r Hl).
      replace (Z.of_nat (Z.to_nat (plook (fi_preds f) p - 1)) + 1) with (plook (fi_preds f) p) by lia.
      split.
      * intros (s & q & o & Hr & Hq). apply (plook_inj _ M) in Hq as ->; eauto.
        by eapply pi_known.
      * intros (s & o & Hr). by exists s, p, o.
Qed.

(** The predicate lists together enumerate the records, each once. *)
Lemma all_recs f (M : gmap Z FactVal) :
  fact_refines f M ->
  NoDup (concat (map fst (fi_pred_recs f))) /\
  forall r, r ∈ concat (map fst (fi_pred_recs f)) <-> is_Some (M !! r).
Proof.
  intros R. pose proof (fr_preds f M R) as I.
  assert (forall r, r ∈ concat (map fst (fi_pred_recs f)) <-> is_Some (M !! r)) as Hel.
  { intros r. rewrite list_elem_of_In, in_concat. split.
    - intros (l & Hl & Hr). apply in_map_iff in Hl as (v & <- & Hv).
      apply list_elem_of_In, list_elem_of_lookup in Hv as [i Hi]. apply list_elem_of_In in Hr.
      apply (fr_recs f M R i v r Hi) in Hr as (s & p & o & Hr & _). eauto.
    - intros [[[s p] o] Hr]. pose proof (pi_known _ _ I _ _ _ _ Hr) as Hk.
      pose proof (pred_list_lookup f M _ p R I Hk) as Hl.
      pose proof (plook_range _ M p I Hk) as Hrg.
      exists (fst (pred_list f (plook (fi_preds f) p))). split.
      + apply in_map_iff. eexists. split; [done|]. apply list_elem_of_In. by eapply list_elem_of_lookup_2.
      + apply list_elem_of_In, (fr_recs f M R _ _ r Hl). exists s, p, o. split; [done|]. lia. }
  split; [|done].
  assert (forall i j v w r, fi_pred_recs f !! i = Some v -> fi_pred_recs f !! j = Some w ->
    r ∈ fst v -> r ∈ fst w -> i = j) as Hdis.
  { intros i j v w r Hi Hj Hv Hw. apply (fr_recs f M R i v r Hi) in Hv as (s & p & o & Hr & Ei).
    apply (fr_recs f M R j w r Hj) in Hw as (s' & p' & o' & Hr' & Ej). rewrite Hr in Hr'.
    injection Hr' as <- <- <-. lia. }
  pose proof (fr_sorted f M R) as Hso. revert Hdis Hso. clear.
  induction (fi_pred_recs f) as [|v vs IH]; intros Hdis Hso; [constructor|]. cbn [map concat].
  apply NoDup_app. split_and!.
  - apply sorted_nodup. by apply (Hso 0%nat).
  - intros r Hr Hr'. apply list_elem_of_In, in_concat in Hr' as (l & Hl & Hrl).
    apply in_map_iff in Hl as (w & <- & Hw). apply list_elem_of_In, list_elem_of_lookup in Hw as [j Hj].
    apply list_elem_of_In in Hrl. by specialize (Hdis 0%nat (S j) v w r eq_refl Hj Hr Hrl).
  - apply IH.
    + intros i j w w' r Hi Hj Hw Hw'.
      assert (S i = S j) by (by eapply (Hdis (S i) (S j) w w')). congruence.
    + intros i w Hi. by apply (Hso (S i)).
Qed.

Lemma all_records_exact f (M : gmap Z FactVal) :
  fact_refines f M ->
  exists l, fact_index_all_records true (Some f) = Some l /\ strictly_sorted l /\
    forall r, r ∈ l <-> is_Some (M !! r).
Proof.
  intros R. destruct (all_recs f M R) as [Hnd Hel]. unfold fact_index_all_records.
  set (all := concat _) in *. cbn [negb].
  assert (length all = size M) as Hlen.
  { rewrite <- size_dom, <- (size_list_to_set (C := gset Z)) by done. f_equal. apply set_eq.
    intros r. by rewrite elem_of_list_to_set, Hel, elem_of_dom. }
  rewrite (fr_facts f M R). destruct (Nat.eqb_spec (size M) 0) as [E0|_].
  { apply map_size_empty_inv in E0. exists []. split_and!; [done|constructor|].
    intros r. rewrite E0, lookup_empty. split; [set_solver|by intros [? ?]]. }
  destruct (Nat.ltb_spec (size M) (length all)); [lia|].
  eexists. split; [done|]. split.
  - assert (StronglySorted Z.le (merge_sort Z.le all)) as Hss by apply (StronglySorted_merge_sort _).
    assert (NoDup (merge_sort Z.le all)) as Hnd' by (by rewrite merge_sort_Permutation).
    revert Hss Hnd'. generalize (merge_sort Z.le all) as l. induction l as [|x l IH]; [constructor|].
    intros Hss Hnd'. inversion_clear Hss as [|? ? Hss' Hf]. apply NoDup_cons in Hnd' as [Hx Hnd'].
    constructor; [by apply IH|]. rewrite Forall_forall in Hf |- *. intros y Hy.
    specialize (Hf y Hy). unfold lt_rel. cbn. apply Z.ltb_lt.
    assert (x <> y) by (by intros ->). lia.
  - intros r. by rewrite merge_sort_Permutation, Hel.
Qed.

(** ** Reachable indexes

    The index and the facts it stands for, through any sequence of additions
    (whatever allocations fail) and removals, under the callers' discipline: a
    record carries at most one fact, and a removal names the fact the record
    carries. *)
Inductive fact_reach : FactIndex -> gmap Z FactVal -> Prop :=
  | reach_create : fact_reach fact_index_create ∅
  | reach_add ok f M r subject p okind oid ostr key f' rc :
      fact_reach f M -> object_key okind oid ostr = Some key ->
      (M !! r = None \/ M !! r = Some (subject, p, key)) ->
      fact_index_add ok (Some f) r subject (Some p) okind oid ostr = (Some f', rc) ->
      fact_reach f' (if rc : bool then <[r := (subject, p, key)]> M else M)
  | reach_remove f M r subject p okind oid ostr key f' :
      fact_reach f M -> object_key okind oid ostr = Some key ->
      (M !! r = None \/ M !! r = Some (subject, p, key)) ->
      fact_index_remove (Some f) r subject (Some p) okind oid ostr = Some f' ->
      fact_reach f' (delete r M).

Lemma reach_refines f M : fact_reach f M -> fact_refines f M.
Proof.
  induction 1 as [|ok f M r subject p okind oid ostr key f' rc _ IH Hk Hr Ha
                  |f M r subject p okind oid ostr key f' _ IH Hk Hr Ha].
  - apply fact_create_refines.
  - destruct (fact_add_refines ok f M r subject p okind oid ostr key IH Hk Hr)
      as (f1 & rc1 & E & R & _). rewrite Ha in E. injection E as <- <-. done.
  - destruct (fact_remove_refines f M r subject p okind oid ostr key IH Hk Hr) as (f1 & E & R).
    rewrite Ha in E. injection E as <-. done.
Qed.

(** C31: In every reachable fact index, each lookup returns the strictly
    ascending list of exactly the records whose fact matches: by subject or by
    object (restricted to a predicate or not), by predicate, and all of them;
    the counters report the number of facts and of distinct predicates in
    use. *)
Theorem fact_index_lookups_exact f M :
  fact_reach f M ->
  (forall subject predicate, exists l,
     fact_index_by_subject true (Some f) subject predicate = Some l /\ strictly_sorted l /\
     forall r, r ∈ l <-> exists p o, M !! r = Some (subject, p, o) /\ pred_matches predicate p) /\
  (forall okind oid ostr key predicate, object_key okind oid ostr = Some key -> exists l,
     fact_index_by_object true (Some f) okind oid ostr predicate = Some l /\ strictly_sorted l /\
     forall r, r ∈ l <-> exists s p, M !! r = Some (s, p, key) /\ pred_matches predicate p) /\
  (forall p, exists l,
     fact_index_by_predicate true (Some f) (Some p) = Some l /\ strictly_sorted l /\
     fact_index_predicate_facts (Some f) (Some p) = length l /\
     forall r, r ∈ l <-> exists s o, M !! r = Some (s, p, o)) /\
  (exists l, fact_index_all_records true (Some f) = Some l /\ strictly_sorted l /\
     forall r, r ∈ l <-> is_Some (M !! r)) /\
  fact_index_facts (Some f) = size M /\
  fact_index_predicates (Some f)
    = size (set_map (fun x : Z * FactVal => x.2.1.2) (map_to_set (C := gset (Z * FactVal)) pair M)
            : gset (list Z)).
Proof.
  intros Hf. apply reach_refines in Hf as R. split_and!.
  - intros. by apply by_subject_exact.
  - intros. by apply by_object_exact.
  - intros. by apply by_predicate_exact.
  - by apply all_records_exact.
  - apply R.
  - cbn. pose proof (fr_preds f M R) as I. apply it_live_names; [apply I|].
    intros p. rewrite (pi_uses _ _ I), elem_of_map. split.
    + intros (x & -> & Hx). apply elem_of_map_to_set in Hx as (r' & v & Hr & <-).
      cbn. intros E0. apply map_size_empty_inv in E0.
      assert (filter (with_pred v.1.2) M !! r' = Some v) as Hl
        by (apply map_lookup_filter_Some; split; [exact Hr|reflexivity]). by rewrite E0, lookup_empty in Hl.
    + intros Hsz. destruct (decide (filter (with_pred p) M = ∅)) as [E0|E0];
        [by rewrite E0, map_size_empty in Hsz|].
      apply map_choose in E0 as (r & v & [Hr Hp]%map_lookup_filter_Some).
      exists (r, v). split; [done|]. apply elem_of_map_to_set. by exists r, v.
Qed.

(** In every reachable index, when all allocations succeed and the
    predicate fits the intern table, a fact is never declined; and whatever
    fails, a declined fact leaves exactly the facts that were there. *)
Theorem fact_index_add_atomic f M ok r subject p okind oid ostr key :
  fact_reach f M -> object_key okind oid ostr = Some key ->
  (M !! r = None \/ M !! r = Some (subject, p, key)) ->
  exists f' rc, fact_index_add ok (Some f) r subject (Some p) okind oid ostr = (Some f', rc) /\
    fact_refines f' (if rc : bool then <[r := (subject, p, key)]> M else M) /\
    (all_ok ok -> pred_fits true true (fi_preds f) p -> rc = true).
Proof.
  intros Hf Hk Hr. apply fact_add_refines; [by apply reach_refines|done|done].
Qed.

Definition foks_all : FactOks := mkFactOks true true true true true true true true.
Definition ex_pred : list Z := [104; 97; 115].
Definition ex_obj : list Z := [97; 98].

(** Record 7 asserts (5, "has", "ab"); a second record's addition fails while
    the object posting is allocated. *)
Definition ex_f1 : FactIndex :=
  default fact_index_create
    (fst (fact_index_add foks_all (Some fact_index_create) 7 5 (Some ex_pred)
            FACT_OBJ_STRING 0 (Some ex_obj))).

Lemma ex_f1_eq :
  fact_index_add foks_all (Some fact_index_create) 7 5 (Some ex_pred) FACT_OBJ_STRING 0 (Some ex_obj)
  = (Some ex_f1, true).
Proof. vm_compute. reflexivity. Qed.

Lemma ex_reach : fact_reach ex_f1 (<[7 := (5, ex_pred, (str_hash64 ex_obj, Some ex_obj))]> ∅).
Proof.
  eapply (reach_add foks_all _ ∅ 7 5 ex_pred FACT_OBJ_STRING 0 (Some ex_obj) _ ex_f1 true);
    [apply reach_create|reflexivity|by left|apply ex_f1_eq].
Qed.

Lemma fact_index_lookups_exact_witness :
  exists l, fact_index_by_subject true (Some ex_f1) 5 None = Some l /\ l = [7].
Proof.
  destruct (fact_index_lookups_exact _ _ ex_reach) as (H1 & _).
  destruct (H1 5 None) as (l & El & _). exists l. split; [exact El|].
  vm_compute in El. injection El as <-. reflexivity.
Defined.

Lemma fact_index_add_atomic_witness :
  exists f' rc,
    fact_index_add (mkFactOks true true true true true true false true) (Some ex_f1) 8 5
      (Some ex_pred) FACT_OBJ_ID 9 None = (Some f', rc) /\ rc = false /\
    fact_refines f' (<[7 := (5, ex_pred, (str_hash64 ex_obj, Some ex_obj))]> ∅).
Proof.
  destruct (fact_index_add_atomic ex_f1 _ (mkFactOks true true true true true true false true)
    8 5 ex_pred FACT_OBJ_ID 9 None _ ex_reach eq_refl) as (f' & rc & E & R & _).
  - left. vm_compute. reflexivity.
  - exists f', rc. split; [exact E|]. assert (rc = false) as ->.
    { apply (f_equal snd) in E. vm_compute in E. by rewrite <- E. }
    split; [reflexivity|exact R].
Defined.
