(* ===== verification/Aead.v ===== *)
(** * XChaCha20-Poly1305

    The authenticated cipher of [src/util/chacha20poly1305.c]: ChaCha20 block
    function and stream, HChaCha20, the limb-based incremental Poly1305, and
    the sealing and opening operations. Words are 32-bit [Z], every sum and
    shift wraps as in C. *)

From S2P Require Import Prelude Endian.

(** ** Little-endian access *)

Definition u8to32le (p : list Z) : Z :=
  Z.lor (Z.lor (Z.lor (byte_at p 0) (wrap 32 (Z.shiftl (byte_at p 1) 8)))
               (wrap 32 (Z.shiftl (byte_at p 2) 16)))
        (wrap 32 (Z.shiftl (byte_at p 3) 24)).

Definition u32to8le (v : Z) : list Z :=
  [wrap 8 v; wrap 8 (Z.shiftr v 8); wrap 8 (Z.shiftr v 16); wrap 8 (Z.shiftr v 24)].

Definition u64to8le (v : Z) : list Z :=
  map (fun i => wrap 8 (Z.shiftr v (8 * Z.of_nat i))) (seq 0 8).

(** ** ChaCha20 *)

Definition ROTL32 (x n : Z) : Z := Z.lor (wrap 32 (Z.shiftl x n)) (Z.shiftr x (32 - n)).

Definition QR (a b c d : Z) : Z * Z * Z * Z :=
  let a := wrap 32 (a + b) in let d := Z.lxor d a in let d := ROTL32 d 16 in
  let c := wrap 32 (c + d) in let b := Z.lxor b c in let b := ROTL32 b 12 in
  let a := wrap 32 (a + b) in let d := Z.lxor d a in let d := ROTL32 d 8 in
  let c := wrap 32 (c + d) in let b := Z.lxor b c in let b := ROTL32 b 7 in
  (a, b, c, d).

(** The quarter round on words [i j k l] of the state. *)
Definition QR_at (i j k l : nat) (x : list Z) : list Z :=
  let '(a, b, c, d) := QR (byte_at x i) (byte_at x j) (byte_at x k) (byte_at x l) in
  <[l:=d]> (<[k:=c]> (<[j:=b]> (<[i:=a]> x))).

Definition double_round (x : list Z) : list Z :=
  let x := QR_at 0 4 8 12 x in let x := QR_at 1 5 9 13 x in
  let x := QR_at 2 6 10 14 x in let x := QR_at 3 7 11 15 x in
  let x := QR_at 0 5 10 15 x in let x := QR_at 1 6 11 12 x in
  let x := QR_at 2 7 8 13 x in QR_at 3 4 9 14 x.

Definition chacha20_rounds (x : list Z) : list Z := Nat.iter 10 double_round x.

Definition chacha_constants : list Z := [0x61707865; 0x3320646e; 0x79622d32; 0x6b206574].

Definition chacha20_state (key : list Z) (counter : Z) (nonce : list Z) : list Z :=
  chacha_constants ++ map (fun i => u8to32le (drop (4 * i) key)) (seq 0 8)
  ++ [counter; u8to32le nonce; u8to32le (drop 4 nonce); u8to32le (drop 8 nonce)].

Definition aegis_chacha20_block (key : list Z) (counter : Z) (nonce : list Z) : list Z :=
  let s := chacha20_state key counter nonce in
  let x := chacha20_rounds s in
  flat_map (fun i => u32to8le (wrap 32 (byte_at x i + byte_at s i))) (seq 0 16).

(** The loop of [chacha20_xor], one block per turn. *)
Fixpoint chacha20_xor_loop (fuel : nat) (key : list Z) (counter : Z) (nonce input : list Z) : list Z :=
  match fuel with
  | O => []
  | S fuel' =>
      match input with
      | [] => []
      | _ =>
          let block := aegis_chacha20_block key counter nonce in
          let n := Nat.min (length input) 64 in
          zip_with Z.lxor (take n input) (take n block)
          ++ chacha20_xor_loop fuel' key (wrap 32 (counter + 1)) nonce (drop n input)
      end
  end.

Definition chacha20_xor (key : list Z) (counter : Z) (nonce input : list Z) : list Z :=
  chacha20_xor_loop (length input) key counter nonce input.

Definition aegis_hchacha20 (key nonce16 : list Z) : list Z :=
  let x := chacha_constants ++ map (fun i => u8to32le (drop (4 * i) key)) (seq 0 8)
           ++ map (fun i => u8to32le (drop (4 * i) nonce16)) (seq 0 4) in
  let x := chacha20_rounds x in
  flat_map (fun i => u32to8le (byte_at x i)) (seq 0 4)
  ++ flat_map (fun i => u32to8le (byte_at x (12 + i))) (seq 0 4).

(** ** Poly1305 *)

(** Five 26-bit limbs. *)
Record Limbs := mkLimbs { l0 : Z; l1 : Z; l2 : Z; l3 : Z; l4 : Z }.

Record poly1305_ctx := mkPoly {
  p_r : Limbs; p_h : Limbs;
  p_pad : Z * Z * Z * Z;
  p_leftover : nat; p_buffer : list Z; p_final : bool
}.

Definition poly1305_init (key : list Z) : poly1305_ctx :=
  mkPoly
    (mkLimbs (Z.land (u8to32le key) 0x3ffffff)
             (Z.land (Z.shiftr (u8to32le (drop 3 key)) 2) 0x3ffff03)
             (Z.land (Z.shiftr (u8to32le (drop 6 key)) 4) 0x3ffc0ff)
             (Z.land (Z.shiftr (u8to32le (drop 9 key)) 6) 0x3f03fff)
             (Z.land (Z.shiftr (u8to32le (drop 12 key)) 8) 0x00fffff))
    (mkLimbs 0 0 0 0 0)
    (u8to32le (drop 16 key), u8to32le (drop 20 key), u8to32le (drop 24 key), u8to32le (drop 28 key))
    0 (replicate 16 0) false.

(** The partial reduction of a product [d0 .. d4]. *)
Definition poly1305_carry (d0 d1 d2 d3 d4 : Z) : Limbs :=
  let c := wrap 32 (Z.shiftr d0 26) in let h0 := Z.land (wrap 32 d0) 0x3ffffff in
  let d1 := wrap 64 (d1 + c) in
  let c := wrap 32 (Z.shiftr d1 26) in let h1 := Z.land (wrap 32 d1) 0x3ffffff in
  let d2 := wrap 64 (d2 + c) in
  let c := wrap 32 (Z.shiftr d2 26) in let h2 := Z.land (wrap 32 d2) 0x3ffffff in
  let d3 := wrap 64 (d3 + c) in
  let c := wrap 32 (Z.shiftr d3 26) in let h3 := Z.land (wrap 32 d3) 0x3ffffff in
  let d4 := wrap 64 (d4 + c) in
  let c := wrap 32 (Z.shiftr d4 26) in let h4 := Z.land (wrap 32 d4) 0x3ffffff in
  let h0 := wrap 32 (h0 + wrap 32 (c * 5)) in
  let c := Z.shiftr h0 26 in let h0 := Z.land h0 0x3ffffff in
  let h1 := wrap 32 (h1 + c) in
  mkLimbs h0 h1 h2 h3 h4.

(** Multiply by [r]; limbs past 2^130 come back multiplied by five. *)
Definition poly1305_mul (r h : Limbs) : Limbs :=
  let s1 := wrap 32 (l1 r * 5) in let s2 := wrap 32 (l2 r * 5) in
  let s3 := wrap 32 (l3 r * 5) in let s4 := wrap 32 (l4 r * 5) in
  let d0 := wrap 64 (l0 h * l0 r + l1 h * s4 + l2 h * s3 + l3 h * s2 + l4 h * s1) in
  let d1 := wrap 64 (l0 h * l1 r + l1 h * l0 r + l2 h * s4 + l3 h * s3 + l4 h * s2) in
  let d2 := wrap 64 (l0 h * l2 r + l1 h * l1 r + l2 h * l0 r + l3 h * s4 + l4 h * s3) in
  let d3 := wrap 64 (l0 h * l3 r + l1 h * l2 r + l2 h * l1 r + l3 h * l0 r + l4 h * s4) in
  let d4 := wrap 64 (l0 h * l4 r + l1 h * l3 r + l2 h * l2 r + l3 h * l1 r + l4 h * l0 r) in
  poly1305_carry d0 d1 d2 d3 d4.

(** One turn of the loop of [poly1305_blocks]: add the block, multiply by
    [r], reduce partially. *)
Definition poly1305_block (hibit : Z) (r h : Limbs) (m : list Z) : Limbs :=
  let h0 := wrap 32 (l0 h + Z.land (u8to32le m) 0x3ffffff) in
  let h1 := wrap 32 (l1 h + Z.land (Z.shiftr (u8to32le (drop 3 m)) 2) 0x3ffffff) in
  let h2 := wrap 32 (l2 h + Z.land (Z.shiftr (u8to32le (drop 6 m)) 4) 0x3ffffff) in
  let h3 := wrap 32 (l3 h + Z.land (Z.shiftr (u8to32le (drop 9 m)) 6) 0x3ffffff) in
  let h4 := wrap 32 (l4 h + Z.lor (Z.shiftr (u8to32le (drop 12 m)) 8) hibit) in
  poly1305_mul r (mkLimbs h0 h1 h2 h3 h4).

Fixpoint poly1305_loop (fuel : nat) (hibit : Z) (r h : Limbs) (m : list Z) : Limbs :=
  match fuel with
  | O => h
  | S fuel' =>
      if (16 <=? length m)%nat
      then poly1305_loop fuel' hibit r (poly1305_block hibit r h m) (drop 16 m)
      else h
  end.

Definition set_h (st : poly1305_ctx) (h : Limbs) : poly1305_ctx :=
  mkPoly (p_r st) h (p_pad st) (p_leftover st) (p_buffer st) (p_final st).
Definition set_buf (st : poly1305_ctx) (leftover : nat) (buffer : list Z) : poly1305_ctx :=
  mkPoly (p_r st) (p_h st) (p_pad st) leftover buffer (p_final st).

Definition poly1305_blocks (st : poly1305_ctx) (m : list Z) : poly1305_ctx :=
  let hibit := if p_final st then 0 else Z.shiftl 1 24 in
  set_h st (poly1305_loop (S (length m)) hibit (p_r st) (p_h st) m).

(** [memcpy(buf + off, src, ...)]. *)
Definition splice (buf : list Z) (off : nat) (src : list Z) : list Z :=
  take off buf ++ src ++ drop (off + length src) buf.

(** The part of [poly1305_update] after the buffered bytes are dealt with. *)
Definition poly1305_update_rest (st : poly1305_ctx) (m : list Z) : poly1305_ctx :=
  let want := if (16 <=? length m)%nat then (length m / 16 * 16)%nat else 0%nat in
  let st := if (16 <=? length m)%nat then poly1305_blocks st (take want m) else st in
  let m := drop want m in
  if (length m =? 0)%nat then st
  else set_buf st (p_leftover st + length m) (splice (p_buffer st) (p_leftover st) m).

Definition poly1305_update (st : poly1305_ctx) (m : list Z) : poly1305_ctx :=
  if (p_leftover st =? 0)%nat then poly1305_update_rest st m
  else
    let want := Nat.min (16 - p_leftover st) (length m) in
    let st := set_buf st (p_leftover st + want) (splice (p_buffer st) (p_leftover st) (take want m)) in
    if (p_leftover st <? 16)%nat then st
    else
      let st := poly1305_blocks st (p_buffer st) in
      poly1305_update_rest (set_buf st 0 (p_buffer st)) (drop want m).

(** The last, partial block of [poly1305_finish]. *)
Definition poly1305_pad_last (st : poly1305_ctx) : poly1305_ctx :=
  if (p_leftover st =? 0)%nat then st
  else
    let b := take (p_leftover st) (p_buffer st) ++ [1] ++ replicate (15 - p_leftover st) 0 in
    poly1305_blocks (mkPoly (p_r st) (p_h st) (p_pad st) (p_leftover st) b true) b.

(** Full carry, then subtract the prime when the value is not below it. *)
Definition poly1305_reduce (h : Limbs) : Limbs :=
  let M := 0x3ffffff in
  let c := Z.shiftr (l1 h) 26 in let h1 := Z.land (l1 h) M in
  let h2 := wrap 32 (l2 h + c) in
  let c := Z.shiftr h2 26 in let h2 := Z.land h2 M in
  let h3 := wrap 32 (l3 h + c) in
  let c := Z.shiftr h3 26 in let h3 := Z.land h3 M in
  let h4 := wrap 32 (l4 h + c) in
  let c := Z.shiftr h4 26 in let h4 := Z.land h4 M in
  let h0 := wrap 32 (l0 h + wrap 32 (c * 5)) in
  let c := Z.shiftr h0 26 in let h0 := Z.land h0 M in
  let h1 := wrap 32 (h1 + c) in
  let g0 := wrap 32 (h0 + 5) in
  let c := Z.shiftr g0 26 in let g0 := Z.land g0 M in
  let g1 := wrap 32 (h1 + c) in
  let c := Z.shiftr g1 26 in let g1 := Z.land g1 M in
  let g2 := wrap 32 (h2 + c) in
  let c := Z.shiftr g2 26 in let g2 := Z.land g2 M in
  let g3 := wrap 32 (h3 + c) in
  let c := Z.shiftr g3 26 in let g3 := Z.land g3 M in
  let g4 := wrap 32 (h4 + c - Z.shiftl 1 26) in
  let mask := wrap 32 (Z.shiftr g4 31 - 1) in
  let g0 := Z.land g0 mask in let g1 := Z.land g1 mask in let g2 := Z.land g2 mask in
  let g3 := Z.land g3 mask in let g4 := Z.land g4 mask in
  let mask := wrap 32 (Z.lnot mask) in
  mkLimbs (Z.lor (Z.land h0 mask) g0) (Z.lor (Z.land h1 mask) g1) (Z.lor (Z.land h2 mask) g2)
          (Z.lor (Z.land h3 mask) g3) (Z.lor (Z.land h4 mask) g4).

(** Pack the limbs into four words, add the pad, write the tag. *)
Definition poly1305_emit (h : Limbs) (pad : Z * Z * Z * Z) : list Z :=
  let '(pad0, pad1, pad2, pad3) := pad in
  let w0 := Z.lor (l0 h) (wrap 32 (Z.shiftl (l1 h) 26)) in
  let w1 := Z.lor (Z.shiftr (l1 h) 6) (wrap 32 (Z.shiftl (l2 h) 20)) in
  let w2 := Z.lor (Z.shiftr (l2 h) 12) (wrap 32 (Z.shiftl (l3 h) 14)) in
  let w3 := Z.lor (Z.shiftr (l3 h) 18) (wrap 32 (Z.shiftl (l4 h) 8)) in
  let f := wrap 64 (w0 + pad0) in let t0 := wrap 32 f in
  let f := wrap 64 (w1 + pad1 + Z.shiftr f 32) in let t1 := wrap 32 f in
  let f := wrap 64 (w2 + pad2 + Z.shiftr f 32) in let t2 := wrap 32 f in
  let f := wrap 64 (w3 + pad3 + Z.shiftr f 32) in let t3 := wrap 32 f in
  u32to8le t0 ++ u32to8le t1 ++ u32to8le t2 ++ u32to8le t3.

Definition poly1305_finish (st : poly1305_ctx) : list Z :=
  let st := poly1305_pad_last st in
  poly1305_emit (poly1305_reduce (p_h st)) (p_pad st).

Definition aegis_poly1305 (m key : list Z) : list Z :=
  poly1305_finish (poly1305_update (poly1305_init key) m).

(** ** Authenticated encryption *)

Definition AEAD_KEY_LEN : nat := 32.
Definition AEAD_NONCE_LEN : nat := 24.
Definition AEAD_TAG_LEN : nat := 16.

Definition poly_pad16 (st : poly1305_ctx) (len : nat) : poly1305_ctx :=
  let rem := (len mod 16)%nat in
  if (rem =? 0)%nat then st else poly1305_update st (replicate (16 - rem) 0).

(** Subkey, ChaCha20 nonce and one-time key. *)
Definition xchacha_setup (key nonce : list Z) : list Z * list Z * list Z :=
  let subkey := aegis_hchacha20 key nonce in
  let cc_nonce := replicate 4 0 ++ take 8 (drop 16 nonce) in
  let block0 := aegis_chacha20_block subkey 0 cc_nonce in
  (subkey, cc_nonce, take 32 block0).

Definition aead_mac (polykey aad ct : list Z) : list Z :=
  let st := poly1305_init polykey in
  let st := if (length aad =? 0)%nat then st else poly1305_update st aad in
  let st := poly_pad16 st (length aad) in
  let st := if (length ct =? 0)%nat then st else poly1305_update st ct in
  let st := poly_pad16 st (length ct) in
  let lens := u64to8le (Z.of_nat (length aad)) ++ u64to8le (Z.of_nat (length ct)) in
  let st := poly1305_update st lens in
  poly1305_finish st.

Definition aead_seal (key nonce aad pt : list Z) : list Z * list Z :=
  let '(subkey, cc_nonce, polykey) := xchacha_setup key nonce in
  let ct := chacha20_xor subkey 1 cc_nonce pt in
  (ct, aead_mac polykey aad ct).

Definition ct_eq16 (a b : list Z) : bool :=
  foldl (fun diff i => Z.lor diff (wrap 8 (Z.lxor (byte_at a i) (byte_at b i)))) 0 (seq 0 16) =? 0.

(** [None] for the result -1 (the output buffer is zeroed). *)
Definition aead_open (key nonce aad ct tag : list Z) : option (list Z) :=
  let '(subkey, cc_nonce, polykey) := xchacha_setup key nonce in
  if negb (ct_eq16 (aead_mac polykey aad ct) tag) then None
  else Some (chacha20_xor subkey 1 cc_nonce ct).
