(* ===== verification/Poly1305.v ===== *)
(** * The limb implementation of Poly1305 computes the MAC of RFC 8439

    [poly1305_ref] evaluates the message polynomial at the clamped key modulo
    2^130 - 5 and adds the second key half modulo 2^128. *)

From S2P Require Import Prelude Endian Aead.

(** ** Reference *)

Definition P1305 : Z := 2 ^ 130 - 5.

Definition clamp (r : Z) : Z := Z.land r 0x0ffffffc0ffffffc0ffffffc0fffffff.

(** Blocks of 16 bytes, each with a one appended, as little-endian numbers. *)
Fixpoint poly_eval (fuel : nat) (r a : Z) (m : list Z) : Z :=
  match fuel, m with
  | S fuel', _ :: _ =>
      poly_eval fuel' r ((a + le_combine (take 16 m ++ [1])) * r mod P1305) (drop 16 m)
  | _, _ => a
  end.

Definition poly1305_ref (m key : list Z) : list Z :=
  let r := clamp (le_combine (take 16 key)) in
  let s := le_combine (take 16 (drop 16 key)) in
  le_split 16 (poly_eval (length m) r 0 m + s).

(** ** Numbers from byte ranges *)

Lemma le_combine_app l k :
  le_combine (l ++ k) = le_combine l + 2 ^ (8 * Z.of_nat (length l)) * le_combine k.
Proof.
  induction l as [|b l IH]; cbn [app le_combine length].
  - change (8 * Z.of_nat 0) with 0. lia.
  - rewrite IH, Nat2Z.inj_succ. replace (8 * Z.succ (Z.of_nat (length l))) with (8 + 8 * Z.of_nat (length l)) by lia.
    rewrite Z.pow_add_r by lia. change (2 ^ 8) with 256. lia.
Qed.

Lemma le_combine_take l n : bytes_ok l -> le_combine (take n l) = le_combine l mod 2 ^ (8 * Z.of_nat n).
Proof.
  intros H. destruct (le_lt_dec (length l) n) as [Hge|Hlt].
  - rewrite take_ge by done. pose proof (le_combine_range l H). symmetry. apply Z.mod_small.
    split; [lia|]. eapply Z.lt_le_trans; [apply H0|]. apply Z.pow_le_mono_r; lia.
  - rewrite <- (take_drop n l) at 2. rewrite le_combine_app, length_take, Nat.min_l by lia.
    rewrite Z.mul_comm, Z.mod_add by lia. pose proof (le_combine_range (take n l) (bytes_ok_take n l H)) as Hr.
    rewrite length_take, Nat.min_l in Hr by lia. symmetry. by apply Z.mod_small.
Qed.

Lemma le_combine_drop l n : bytes_ok l -> le_combine (drop n l) = le_combine l / 2 ^ (8 * Z.of_nat n).
Proof.
  intros H. destruct (le_lt_dec (length l) n) as [Hge|Hlt].
  - rewrite drop_ge by done. cbn. pose proof (le_combine_range l H). symmetry. apply Z.div_small.
    split; [lia|]. eapply Z.lt_le_trans; [apply H0|]. apply Z.pow_le_mono_r; lia.
  - rewrite <- (take_drop n l) at 2. rewrite le_combine_app, length_take, Nat.min_l by lia.
    rewrite Z.mul_comm, Z.div_add by lia. pose proof (le_combine_range (take n l) (bytes_ok_take n l H)) as Hr.
    rewrite length_take, Nat.min_l in Hr by lia. rewrite Z.div_small by done. lia.
Qed.

Lemma u8to32le_combine p :
  bytes_ok p -> (4 <= length p)%nat -> u8to32le p = le_combine (take 4 p).
Proof.
  intros H Hl. destruct p as [|b0 [|b1 [|b2 [|b3 p]]]]; cbn in Hl; try lia.
  unfold bytes_ok in H. rewrite !Forall_cons in H. destruct H as (H0 & H1 & H2 & H3 & _).
  change (take 4 (b0 :: b1 :: b2 :: b3 :: p)) with [b0; b1; b2; b3].
  rewrite <- (get_u32le_combine b0 b1 b2 b3 p) by done.
  unfold u8to32le, aegis_get_u32le, byte_at. cbn. unfold urange in *.
  change (2 ^ 8) with 256 in *.
  assert (forall b i, 0 <= b < 256 -> 0 <= i <= 24 -> wrap 32 (Z.shiftl b i) = Z.shiftl b i) as Hs.
  { intros b i Hb Hi. apply wrap_small. unfold urange. rewrite Z.shiftl_mul_pow2 by lia.
    assert (2 ^ i <= 2 ^ 24) by (apply Z.pow_le_mono_r; lia). nia. }
  rewrite !Hs by lia. symmetry. apply wrap_small.
  repeat apply lor_range; try lia; unfold urange; rewrite ?Z.shiftl_mul_pow2 by lia; lia.
Qed.

(** A 32-bit window of a 16-byte block. *)
Lemma window m k :
  bytes_ok m -> (k + 4 <= length m)%nat -> 
  u8to32le (drop k m) = (le_combine m / 2 ^ (8 * Z.of_nat k)) mod 2 ^ 32.
Proof.
  intros H Hl. rewrite u8to32le_combine by (try apply bytes_ok_drop; rewrite ?length_drop; (done || lia)).
  rewrite le_combine_take by (by apply bytes_ok_drop). by rewrite le_combine_drop.
Qed.

Lemma window_shift x i j mask :
  0 <= i -> 0 <= j -> 0 <= mask < 2 ^ (32 - j) ->
  Z.land (Z.shiftr ((x / 2 ^ i) mod 2 ^ 32) j) mask = Z.land (Z.shiftr x (i + j)) mask.
Proof.
  intros Hi Hj Hm. apply Z.bits_inj'. intros n Hn. rewrite !Z.land_spec.
  destruct (Z.testbit mask n) eqn:E; [|by rewrite !andb_false_r]. rewrite !andb_true_r.
  assert (n < 32 - j).
  { destruct (Z.lt_ge_cases n (32 - j)); [done|]. rewrite (testbit_high (32 - j) mask n) in E; [done|done|].
    destruct (Z.lt_ge_cases (32 - j) 0); [|lia]. rewrite Z.pow_neg_r in Hm by done. lia. }
  rewrite Z.shiftr_spec, Z.mod_pow2_bits_low, Z.div_pow2_bits, Z.shiftr_spec by lia. f_equal. lia.
Qed.

Lemma limb_land x : Z.land x 0x3ffffff = x mod 2 ^ 26.
Proof. change 0x3ffffff with (Z.ones 26). by apply Z.land_ones. Qed.

(** The limbs of the block [m] and what they add up to. *)
Definition val (h : Limbs) : Z :=
  l0 h + 2 ^ 26 * l1 h + 2 ^ 52 * l2 h + 2 ^ 78 * l3 h + 2 ^ 104 * l4 h.

(** Five limbs of a number, each masked. *)
Lemma limbs_of_land x mask :
  0 <= mask < 2 ^ 130 ->
  val (mkLimbs (Z.land x (mask mod 2 ^ 26)) (Z.land (Z.shiftr x 26) (mask / 2 ^ 26 mod 2 ^ 26))
         (Z.land (Z.shiftr x 52) (mask / 2 ^ 52 mod 2 ^ 26)) (Z.land (Z.shiftr x 78) (mask / 2 ^ 78 mod 2 ^ 26))
         (Z.land (Z.shiftr x 104) (mask / 2 ^ 104))) = Z.land x mask.
Proof.
  intros Hm. set (v := Z.land x mask).
  assert (forall i, 0 <= i -> Z.land (Z.shiftr x i) (mask / 2 ^ i mod 2 ^ 26) = v / 2 ^ i mod 2 ^ 26) as Hl.
  { intros i Hi. unfold v. rewrite <- !Z.land_ones by lia. rewrite <- !Z.shiftr_div_pow2 by done.
    rewrite Z.shiftr_land. by rewrite Z.land_assoc. }
  assert (Z.land x (mask mod 2 ^ 26) = v mod 2 ^ 26) as ->.
  { unfold v. rewrite <- !Z.land_ones by lia. by rewrite Z.land_assoc. }
  rewrite !Hl by lia.
  assert (Z.land (Z.shiftr x 104) (mask / 2 ^ 104) = v / 2 ^ 104) as ->.
  { unfold v. rewrite <- !Z.shiftr_div_pow2 by lia. by rewrite Z.shiftr_land. }
  unfold val. cbn [l0 l1 l2 l3 l4].
  rewrite (Z.div_mod v (2 ^ 26)) at 6 by lia.
  rewrite (Z.div_mod (v / 2 ^ 26) (2 ^ 26)) at 2 by lia. rewrite Z.div_div by lia.
  rewrite (Z.div_mod (v / (2 ^ 26 * 2 ^ 26)) (2 ^ 26)) at 1 by lia. rewrite Z.div_div by lia.
  rewrite (Z.div_mod (v / (2 ^ 26 * 2 ^ 26 * 2 ^ 26)) (2 ^ 26)) at 1 by lia. rewrite Z.div_div by lia.
  change (2 ^ 26 * 2 ^ 26 * 2 ^ 26 * 2 ^ 26) with (2 ^ 104). change (2 ^ 26 * 2 ^ 26 * 2 ^ 26) with (2 ^ 78).
  change (2 ^ 26 * 2 ^ 26) with (2 ^ 52). lia.
Qed.

Definition block_limbs (m : list Z) : Limbs :=
  mkLimbs (Z.land (u8to32le m) 0x3ffffff)
    (Z.land (Z.shiftr (u8to32le (drop 3 m)) 2) 0x3ffffff)
    (Z.land (Z.shiftr (u8to32le (drop 6 m)) 4) 0x3ffffff)
    (Z.land (Z.shiftr (u8to32le (drop 9 m)) 6) 0x3ffffff)
    (Z.shiftr (u8to32le (drop 12 m)) 8).

(** Every limb fits in [b] bits, the last one in [t]. *)
Definition limbs_lt (b t : Z) (h : Limbs) : Prop :=
  0 <= l0 h < 2 ^ b /\ 0 <= l1 h < 2 ^ b /\ 0 <= l2 h < 2 ^ b /\ 0 <= l3 h < 2 ^ b /\ 0 <= l4 h < 2 ^ t.

(** The masked windows of 16 bytes are the limbs of the masked number. *)
Lemma windows_val x mask :
  bytes_ok x -> (16 <= length x)%nat -> 0 <= mask < 2 ^ 128 ->
  val (mkLimbs (Z.land (u8to32le x) (mask mod 2 ^ 26))
    (Z.land (Z.shiftr (u8to32le (drop 3 x)) 2) (mask / 2 ^ 26 mod 2 ^ 26))
    (Z.land (Z.shiftr (u8to32le (drop 6 x)) 4) (mask / 2 ^ 52 mod 2 ^ 26))
    (Z.land (Z.shiftr (u8to32le (drop 9 x)) 6) (mask / 2 ^ 78 mod 2 ^ 26))
    (Z.land (Z.shiftr (u8to32le (drop 12 x)) 8) (mask / 2 ^ 104))) = Z.land (le_combine x) mask.
Proof.
  intros Hx Hl Hm. rewrite <- (drop_0 x) at 1. rewrite !window by (done || lia).
  assert (Z.land ((le_combine x / 2 ^ (8 * Z.of_nat 0)) mod 2 ^ 32) (mask mod 2 ^ 26)
    = Z.land (le_combine x) (mask mod 2 ^ 26)) as ->.
  { rewrite <- (Z.shiftr_0_r (_ mod _)), window_shift; [by rewrite Z.shiftr_0_r|lia|lia|].
    pose proof (Z.mod_pos_bound mask (2 ^ 26)). lia. }
  rewrite !window_shift; try lia.
  2:{ split; [apply Z.div_pos; lia|]. apply Z.div_lt_upper_bound; lia. }
  all: try (match goal with |- context [?a mod 2 ^ 26] => pose proof (Z.mod_pos_bound a (2 ^ 26)) end; lia).
  apply (limbs_of_land (le_combine x) mask). lia.
Qed.

Lemma window_range x : bytes_ok x -> (4 <= length x)%nat -> 0 <= u8to32le x < 2 ^ 32.
Proof.
  intros H Hl. rewrite u8to32le_combine by done.
  pose proof (le_combine_range (take 4 x) (bytes_ok_take 4 x H)) as Hr.
  rewrite length_take, Nat.min_l in Hr by lia. apply Hr.
Qed.

Lemma shiftr8_range x : 0 <= x < 2 ^ 32 -> 0 <= Z.shiftr x 8 < 2 ^ 24.
Proof.
  intros. rewrite Z.shiftr_div_pow2 by lia. split; [apply Z.div_pos; lia|apply Z.div_lt_upper_bound; lia].
Qed.

Lemma block_limbs_val m :
  bytes_ok m -> (16 <= length m)%nat ->
  val (block_limbs m) = le_combine (take 16 m) /\ limbs_lt 26 24 (block_limbs m).
Proof.
  intros Hm Hl.
  assert (0 <= u8to32le (drop 12 m) < 2 ^ 32) as Hw
    by (apply window_range; [by apply bytes_ok_drop|rewrite length_drop; lia]).
  assert (Z.shiftr (u8to32le (drop 12 m)) 8 = Z.land (Z.shiftr (u8to32le (drop 12 m)) 8) (Z.ones 24)) as E.
  { rewrite Z.land_ones by lia. symmetry. apply Z.mod_small. apply shiftr8_range; lia. }
  split.
  - unfold block_limbs. rewrite E. rewrite le_combine_take by done.
    rewrite <- Z.land_ones by lia. apply (windows_val m (Z.ones 128)); [done|done|]. split; [done|]. reflexivity.
  - unfold limbs_lt, block_limbs. cbn [l0 l1 l2 l3 l4]. rewrite !limb_land.
    split_and!; try (apply Z.mod_pos_bound; lia); apply shiftr8_range; lia.
Qed.

Definition r_limbs (key : list Z) : Limbs := p_r (poly1305_init key).

Lemma r_limbs_val key :
  bytes_ok key -> (16 <= length key)%nat ->
  val (r_limbs key) = clamp (le_combine (take 16 key)) /\ limbs_lt 26 20 (r_limbs key).
Proof.
  intros Hk Hl. split.
  - unfold clamp. rewrite le_combine_take by done.
    rewrite <- Z.land_ones by lia. rewrite <- Z.land_assoc.
    change (Z.land (Z.ones (8 * Z.of_nat 16)) 0x0ffffffc0ffffffc0ffffffc0fffffff)
      with 0x0ffffffc0ffffffc0ffffffc0fffffff.
    by apply (windows_val key 0x0ffffffc0ffffffc0ffffffc0fffffff).
  - unfold limbs_lt, r_limbs. cbn [poly1305_init p_r l0 l1 l2 l3 l4].
    assert (forall k, (k + 4 <= 16)%nat -> 0 <= u8to32le (drop k key)) as Hp.
    { intros k Hk'. apply window_range; [by apply bytes_ok_drop|rewrite length_drop; lia]. }
    pose proof (Hp 0%nat) as H0. rewrite drop_0 in H0.
    split_and!; try (apply Z.land_nonneg; right; lia);
      match goal with |- Z.land ?a ?m < _ =>
        apply (land_range_l _ a m); [lia|rewrite ?Z.shiftr_nonneg; (apply Hp || apply H0); lia|unfold urange; lia]
      end.
Qed.

(** ** One block *)

(** Between blocks the second limb may carry a little more than 26 bits. *)
Definition limbs_ok (h : Limbs) : Prop :=
  0 <= l0 h < 2 ^ 26 /\ 0 <= l1 h < 2 ^ 26 + 64 /\ 0 <= l2 h < 2 ^ 26 /\ 0 <= l3 h < 2 ^ 26 /\
  0 <= l4 h < 2 ^ 26.

Lemma split26 d : d = 2 ^ 26 * (d / 2 ^ 26) + d mod 2 ^ 26 /\ 0 <= d mod 2 ^ 26 < 2 ^ 26.
Proof. split; [by apply Z.div_mod|by apply Z.mod_pos_bound]. Qed.

Lemma lo26 d : Z.land (wrap 32 d) 0x3ffffff = d mod 2 ^ 26.
Proof.
  rewrite limb_land. unfold wrap. symmetry. rewrite (Z.div_mod d (2 ^ 32)) at 1 by lia.
  replace (2 ^ 32 * (d / 2 ^ 32) + d mod 2 ^ 32) with (d mod 2 ^ 32 + 64 * (d / 2 ^ 32) * 2 ^ 26) by lia.
  by rewrite Z.mod_add.
Qed.

Lemma hi26 d : 0 <= d < 2 ^ 58 -> wrap 32 (Z.shiftr d 26) = d / 2 ^ 26.
Proof.
  intros H. rewrite Z.shiftr_div_pow2 by lia. apply wrap_small. unfold urange.
  split; [apply Z.div_pos; lia|apply Z.div_lt_upper_bound; lia].
Qed.

Lemma poly1305_carry_spec d0 d1 d2 d3 d4 :
  0 <= d0 < 26 * 2 ^ 53 -> 0 <= d1 < 26 * 2 ^ 53 -> 0 <= d2 < 26 * 2 ^ 53 -> 0 <= d3 < 26 * 2 ^ 53 ->
  0 <= d4 < 5 * 2 ^ 53 ->
  limbs_ok (poly1305_carry d0 d1 d2 d3 d4) /\
  exists k, d0 + 2 ^ 26 * d1 + 2 ^ 52 * d2 + 2 ^ 78 * d3 + 2 ^ 104 * d4
    = val (poly1305_carry d0 d1 d2 d3 d4) + P1305 * k.
Proof.
  intros H0 H1 H2 H3 H4. unfold poly1305_carry. cbv zeta. rewrite !lo26.
  rewrite (hi26 d0) by lia. destruct (split26 d0) as [E0 B0].
  set (c0 := d0 / 2 ^ 26) in *. set (x0 := d0 mod 2 ^ 26) in *.
  rewrite (wrap_small 64 (d1 + c0)) by (unfold urange; lia). rewrite (hi26 (d1 + c0)) by lia.
  destruct (split26 (d1 + c0)) as [E1 B1].
  set (c1 := (d1 + c0) / 2 ^ 26) in *. set (x1 := (d1 + c0) mod 2 ^ 26) in *.
  rewrite (wrap_small 64 (d2 + c1)) by (unfold urange; lia). rewrite (hi26 (d2 + c1)) by lia.
  destruct (split26 (d2 + c1)) as [E2 B2].
  set (c2 := (d2 + c1) / 2 ^ 26) in *. set (x2 := (d2 + c1) mod 2 ^ 26) in *.
  rewrite (wrap_small 64 (d3 + c2)) by (unfold urange; lia). rewrite (hi26 (d3 + c2)) by lia.
  destruct (split26 (d3 + c2)) as [E3 B3].
  set (c3 := (d3 + c2) / 2 ^ 26) in *. set (x3 := (d3 + c2) mod 2 ^ 26) in *.
  rewrite (wrap_small 64 (d4 + c3)) by (unfold urange; lia). rewrite (hi26 (d4 + c3)) by lia.
  destruct (split26 (d4 + c3)) as [E4 B4].
  set (c4 := (d4 + c3) / 2 ^ 26) in *. set (x4 := (d4 + c3) mod 2 ^ 26) in *.
  rewrite (wrap_small 32 (c4 * 5)) by (unfold urange; lia).
  rewrite (wrap_small 32 (x0 + c4 * 5)) by (unfold urange; lia).
  rewrite Z.shiftr_div_pow2 by lia. destruct (split26 (x0 + c4 * 5)) as [E5 B5].
  set (c5 := (x0 + c4 * 5) / 2 ^ 26) in *. set (x5 := (x0 + c4 * 5) mod 2 ^ 26) in *.
  rewrite (wrap_small 32 (x1 + c5)) by (unfold urange; lia).
  split; [unfold limbs_ok; cbn [l0 l1 l2 l3 l4]; lia|].
  exists c4. unfold val, P1305. cbn [l0 l1 l2 l3 l4]. lia.
Qed.

Lemma term_bound a b : 0 <= a < 2 ^ 27 + 64 -> 0 <= b < 5 * 2 ^ 26 -> 0 <= a * b <= 5 * 2 ^ 53 + 2 ^ 36.
Proof. nia. Qed.

Lemma sum_bound a b c d e B :
  0 <= a <= B -> 0 <= b <= B -> 0 <= c <= B -> 0 <= d <= B -> 0 <= e <= B ->
  0 <= a + b + c + d + e <= 5 * B.
Proof. lia. Qed.

Lemma top_bound h0 h1 h2 h3 h4 r0 r1 r2 r3 r4 :
  0 <= h0 < 2 ^ 27 + 64 -> 0 <= h1 < 2 ^ 27 + 64 -> 0 <= h2 < 2 ^ 27 + 64 ->
  0 <= h3 < 2 ^ 27 + 64 -> 0 <= h4 < 2 ^ 27 + 64 ->
  0 <= r0 < 2 ^ 26 -> 0 <= r1 < 2 ^ 26 -> 0 <= r2 < 2 ^ 26 -> 0 <= r3 < 2 ^ 26 -> 0 <= r4 < 2 ^ 20 ->
  0 <= h0 * r4 + h1 * r3 + h2 * r2 + h3 * r1 + h4 * r0 < 5 * 2 ^ 53.
Proof.
  intros.
  assert (forall a b, 0 <= a < 2 ^ 27 + 64 -> 0 <= b < 2 ^ 26 -> 0 <= a * b <= 2 ^ 53 + 2 ^ 32) as PB
    by (intros; nia).
  assert (0 <= h0 * r4 <= 2 ^ 48) by nia.
  pose proof (PB h1 r3). pose proof (PB h2 r2). pose proof (PB h3 r1). pose proof (PB h4 r0). lia.
Qed.

Lemma poly1305_mul_spec r h :
  limbs_lt 26 20 r ->
  0 <= l0 h < 2 ^ 27 + 64 -> 0 <= l1 h < 2 ^ 27 + 64 -> 0 <= l2 h < 2 ^ 27 + 64 ->
  0 <= l3 h < 2 ^ 27 + 64 -> 0 <= l4 h < 2 ^ 27 + 64 ->
  limbs_ok (poly1305_mul r h) /\ val (poly1305_mul r h) mod P1305 = (val h * val r) mod P1305.
Proof.
  destruct r as [r0 r1 r2 r3 r4], h as [h0 h1 h2 h3 h4]. unfold limbs_lt. cbn [l0 l1 l2 l3 l4].
  intros (R0 & R1 & R2 & R3 & R4) H0 H1 H2 H3 H4.
  unfold poly1305_mul. cbn [l0 l1 l2 l3 l4]. cbv zeta.
  rewrite !(wrap_small 32) by (unfold urange; lia).
  assert (forall x1 y1 x2 y2 x3 y3 x4 y4 x5 y5,
    0 <= x1 < 2 ^ 27 + 64 -> 0 <= x2 < 2 ^ 27 + 64 -> 0 <= x3 < 2 ^ 27 + 64 -> 0 <= x4 < 2 ^ 27 + 64 ->
    0 <= x5 < 2 ^ 27 + 64 -> 0 <= y1 < 5 * 2 ^ 26 -> 0 <= y2 < 5 * 2 ^ 26 -> 0 <= y3 < 5 * 2 ^ 26 ->
    0 <= y4 < 5 * 2 ^ 26 -> 0 <= y5 < 5 * 2 ^ 26 ->
    0 <= x1 * y1 + x2 * y2 + x3 * y3 + x4 * y4 + x5 * y5 < 26 * 2 ^ 53) as SB.
  { intros. pose proof (sum_bound (x1 * y1) (x2 * y2) (x3 * y3) (x4 * y4) (x5 * y5) (5 * 2 ^ 53 + 2 ^ 36)
      ltac:(by apply term_bound) ltac:(by apply term_bound) ltac:(by apply term_bound)
      ltac:(by apply term_bound) ltac:(by apply term_bound)) as Hs. revert Hs.
    generalize (x1 * y1 + x2 * y2 + x3 * y3 + x4 * y4 + x5 * y5). lia. }
  pose proof (top_bound h0 h1 h2 h3 h4 r0 r1 r2 r3 r4 H0 H1 H2 H3 H4 R0 R1 R2 R3 R4) as B4.
  pose proof (SB h0 r0 h1 (r4 * 5) h2 (r3 * 5) h3 (r2 * 5) h4 (r1 * 5)) as B0.
  pose proof (SB h0 r1 h1 r0 h2 (r4 * 5) h3 (r3 * 5) h4 (r2 * 5)) as B1.
  pose proof (SB h0 r2 h1 r1 h2 r0 h3 (r4 * 5) h4 (r3 * 5)) as B2.
  pose proof (SB h0 r3 h1 r2 h2 r1 h3 r0 h4 (r4 * 5)) as B3. clear SB.
  do 10 (specialize (B0 ltac:(lia))). do 10 (specialize (B1 ltac:(lia))).
  do 10 (specialize (B2 ltac:(lia))). do 10 (specialize (B3 ltac:(lia))).
  assert (forall d, 0 <= d < 26 * 2 ^ 53 -> wrap 64 d = d) as W.
  { intros. apply wrap_small. unfold urange. lia. }
  rewrite (W _ B0), (W _ B1), (W _ B2), (W _ B3), W by (split; [apply B4|eapply Z.lt_trans; [apply B4|done]]).
  destruct (poly1305_carry_spec _ _ _ _ _ B0 B1 B2 B3 B4) as [Hok [k Hk]].
  split; [exact Hok|].
  match type of Hk with ?d = val ?v + _ =>
    replace (val (mkLimbs h0 h1 h2 h3 h4) * val (mkLimbs r0 r1 r2 r3 r4)) with
      (d + ((h1 * r4 + h2 * r3 + h3 * r2 + h4 * r1) + 2 ^ 26 * (h2 * r4 + h3 * r3 + h4 * r2)
            + 2 ^ 52 * (h3 * r4 + h4 * r3) + 2 ^ 78 * (h4 * r4)) * P1305)
  end.
  - rewrite Z.mod_add by done. rewrite Hk, (Z.mul_comm P1305 k). by rewrite Z.mod_add.
  - unfold val, P1305. cbn [l0 l1 l2 l3 l4]. ring.
Qed.

Definition hi_of (final : bool) : Z := if final then 0 else Z.shiftl 1 24.

Lemma lor_hibit a final : 0 <= a < 2 ^ 24 -> Z.lor a (hi_of final) = a + hi_of final.
Proof.
  intros H. destruct final; cbn [hi_of]; [rewrite Z.lor_0_r; lia|].
  rewrite (lor_shiftl_add a 1 24) by (unfold urange; lia). done.
Qed.

Lemma poly1305_block_spec final r h m :
  limbs_lt 26 20 r -> limbs_ok h -> bytes_ok m -> (16 <= length m)%nat ->
  limbs_ok (poly1305_block (hi_of final) r h m) /\
  val (poly1305_block (hi_of final) r h m) mod P1305
    = ((val h + le_combine (take 16 m) + 2 ^ 104 * hi_of final) * val r) mod P1305.
Proof.
  intros Hr (H0 & H1 & H2 & H3 & H4) Hm Hl. destruct (block_limbs_val m Hm Hl) as [Hv (B0 & B1 & B2 & B3 & B4)].
  unfold poly1305_block. cbv zeta. rewrite <- Hv.
  change (Z.land (u8to32le m) 0x3ffffff) with (l0 (block_limbs m)).
  change (Z.land (Z.shiftr (u8to32le (drop 3 m)) 2) 0x3ffffff) with (l1 (block_limbs m)).
  change (Z.land (Z.shiftr (u8to32le (drop 6 m)) 4) 0x3ffffff) with (l2 (block_limbs m)).
  change (Z.land (Z.shiftr (u8to32le (drop 9 m)) 6) 0x3ffffff) with (l3 (block_limbs m)).
  change (Z.shiftr (u8to32le (drop 12 m)) 8) with (l4 (block_limbs m)).
  rewrite lor_hibit by done. set (b := block_limbs m) in *.
  assert (0 <= hi_of final <= 2 ^ 24) as Hh by (destruct final; split; done).
  rewrite !wrap_small by (unfold urange; lia).
  destruct (poly1305_mul_spec r (mkLimbs (l0 h + l0 b) (l1 h + l1 b) (l2 h + l2 b) (l3 h + l3 b)
    (l4 h + (l4 b + hi_of final)))) as [Hok Hval]; cbn [l0 l1 l2 l3 l4]; [done|lia|lia|lia|lia|lia|].
  split; [done|]. rewrite Hval. f_equal. f_equal. unfold val. cbn [l0 l1 l2 l3 l4]. ring.
Qed.

(** ** Final reduction and output *)

Lemma land_all_ones x : 0 <= x < 2 ^ 32 -> Z.land x 0xffffffff = x.
Proof. intros H. change 0xffffffff with (Z.ones 32). rewrite Z.land_ones by lia. by apply Z.mod_small. Qed.

(** The carried value: congruent, every limb in 26 bits. *)
Lemma carry_full (h : Limbs) :
  limbs_ok h ->
  let c1 := l1 h / 2 ^ 26 in let h1 := l1 h mod 2 ^ 26 in
  let c2 := (l2 h + c1) / 2 ^ 26 in let h2 := (l2 h + c1) mod 2 ^ 26 in
  let c3 := (l3 h + c2) / 2 ^ 26 in let h3 := (l3 h + c2) mod 2 ^ 26 in
  let c4 := (l4 h + c3) / 2 ^ 26 in let h4 := (l4 h + c3) mod 2 ^ 26 in
  let c0 := (l0 h + c4 * 5) / 2 ^ 26 in let h0 := (l0 h + c4 * 5) mod 2 ^ 26 in
  (0 <= c1 <= 1 /\ 0 <= c2 <= 1 /\ 0 <= c3 <= 1 /\ 0 <= c4 <= 1 /\ 0 <= c0 <= 1 /\
   limbs_lt 26 26 (mkLimbs h0 (h1 + c0) h2 h3 h4)) /\
  val (mkLimbs h0 (h1 + c0) h2 h3 h4) + P1305 * c4 = val h.
Proof.
  intros (H0 & H1 & H2 & H3 & H4). cbv zeta.
  destruct (split26 (l1 h)) as [E1 B1]. set (c1 := l1 h / 2 ^ 26) in *. set (h1 := l1 h mod 2 ^ 26) in *.
  destruct (split26 (l2 h + c1)) as [E2 B2].
  set (c2 := (l2 h + c1) / 2 ^ 26) in *. set (h2 := (l2 h + c1) mod 2 ^ 26) in *.
  destruct (split26 (l3 h + c2)) as [E3 B3].
  set (c3 := (l3 h + c2) / 2 ^ 26) in *. set (h3 := (l3 h + c2) mod 2 ^ 26) in *.
  destruct (split26 (l4 h + c3)) as [E4 B4].
  set (c4 := (l4 h + c3) / 2 ^ 26) in *. set (h4 := (l4 h + c3) mod 2 ^ 26) in *.
  destruct (split26 (l0 h + c4 * 5)) as [E0 B0].
  set (c0 := (l0 h + c4 * 5) / 2 ^ 26) in *. set (h0 := (l0 h + c4 * 5) mod 2 ^ 26) in *.
  unfold limbs_lt, val, P1305. cbn [l0 l1 l2 l3 l4].
  assert (0 <= c1 <= 1) by lia. assert (0 <= c2 <= 1) by lia. assert (0 <= c3 <= 1) by lia.
  assert (0 <= c4 <= 1) by lia. assert (0 <= c0 <= 1) by lia.
  assert (c4 = 1 -> c1 = 1) by lia. assert (c0 = 1 -> c4 = 1) by lia.
  split; [split_and!; lia|lia].
Qed.

(** Adding five limb by limb shows whether the value reaches the prime. *)
Lemma sub_prime h0 h1 h2 h3 h4 :
  limbs_lt 26 26 (mkLimbs h0 h1 h2 h3 h4) ->
  let c0 := (h0 + 5) / 2 ^ 26 in let g0 := (h0 + 5) mod 2 ^ 26 in
  let c1 := (h1 + c0) / 2 ^ 26 in let g1 := (h1 + c0) mod 2 ^ 26 in
  let c2 := (h2 + c1) / 2 ^ 26 in let g2 := (h2 + c1) mod 2 ^ 26 in
  let c3 := (h3 + c2) / 2 ^ 26 in let g3 := (h3 + c2) mod 2 ^ 26 in
  let g4 := h4 + c3 - 2 ^ 26 in
  (0 <= c0 <= 1 /\ 0 <= c1 <= 1 /\ 0 <= c2 <= 1 /\ 0 <= c3 <= 1) /\
  (0 <= g0 < 2 ^ 26 /\ 0 <= g1 < 2 ^ 26 /\ 0 <= g2 < 2 ^ 26 /\ 0 <= g3 < 2 ^ 26 /\ - 2 ^ 26 <= g4 <= 0) /\
  val (mkLimbs g0 g1 g2 g3 g4) = val (mkLimbs h0 h1 h2 h3 h4) - P1305.
Proof.
  unfold limbs_lt. cbn [l0 l1 l2 l3 l4]. intros (H0 & H1 & H2 & H3 & H4). cbv zeta.
  destruct (split26 (h0 + 5)) as [E0 B0].
  set (c0 := (h0 + 5) / 2 ^ 26) in *. set (g0 := (h0 + 5) mod 2 ^ 26) in *.
  destruct (split26 (h1 + c0)) as [E1 B1].
  set (c1 := (h1 + c0) / 2 ^ 26) in *. set (g1 := (h1 + c0) mod 2 ^ 26) in *.
  destruct (split26 (h2 + c1)) as [E2 B2].
  set (c2 := (h2 + c1) / 2 ^ 26) in *. set (g2 := (h2 + c1) mod 2 ^ 26) in *.
  destruct (split26 (h3 + c2)) as [E3 B3].
  set (c3 := (h3 + c2) / 2 ^ 26) in *. set (g3 := (h3 + c2) mod 2 ^ 26) in *.
  assert (0 <= c0 <= 1) by lia. assert (0 <= c1 <= 1) by lia. assert (0 <= c2 <= 1) by lia.
  assert (0 <= c3 <= 1) by lia. unfold val, P1305. cbn [l0 l1 l2 l3 l4].
  split_and!; lia.
Qed.

(** The constant-time selection between the value and the value minus the
    prime. *)
Lemma select_spec h0 h1 h2 h3 h4 g0 g1 g2 g3 g4 :
  limbs_lt 26 26 (mkLimbs h0 h1 h2 h3 h4) ->
  0 <= g0 < 2 ^ 26 -> 0 <= g1 < 2 ^ 26 -> 0 <= g2 < 2 ^ 26 -> 0 <= g3 < 2 ^ 26 -> - 2 ^ 26 <= g4 <= 0 ->
  val (mkLimbs g0 g1 g2 g3 g4) = val (mkLimbs h0 h1 h2 h3 h4) - P1305 ->
  let mask := wrap 32 (Z.shiftr (wrap 32 g4) 31 - 1) in
  let nmask := wrap 32 (Z.lnot mask) in
  let v := mkLimbs (Z.lor (Z.land h0 nmask) (Z.land g0 mask)) (Z.lor (Z.land h1 nmask) (Z.land g1 mask))
    (Z.lor (Z.land h2 nmask) (Z.land g2 mask)) (Z.lor (Z.land h3 nmask) (Z.land g3 mask))
    (Z.lor (Z.land h4 nmask) (Z.land (wrap 32 g4) mask)) in
  limbs_lt 26 26 v /\ val v = val (mkLimbs h0 h1 h2 h3 h4) mod P1305.
Proof.
  intros HL G0 G1 G2 G3 G4 HG. pose proof HL as (L0 & L1 & L2 & L3 & L4). cbn [l0 l1 l2 l3 l4] in *.
  destruct (decide (g4 < 0)) as [Hneg|Hpos].
  - assert (wrap 32 g4 = g4 + 2 ^ 32) as ->.
    { unfold wrap. rewrite <- (Z.mod_add g4 1) by lia. rewrite Z.mod_small by lia. lia. }
    assert (Z.shiftr (g4 + 2 ^ 32) 31 = 1) as ->.
    { rewrite Z.shiftr_div_pow2 by lia. symmetry. apply (Z.div_unique _ _ _ (g4 + 2 ^ 31)); lia. }
    change (wrap 32 (1 - 1)) with 0. change (wrap 32 (Z.lnot 0)) with 0xffffffff. cbv zeta.
    rewrite !Z.land_0_r, !Z.lor_0_r, !land_all_ones by lia. split; [done|].
    symmetry. apply Z.mod_small. unfold val, P1305 in *. cbn [l0 l1 l2 l3 l4] in *. lia.
  - assert (g4 = 0) as -> by lia. change (wrap 32 (Z.shiftr (wrap 32 0) 31 - 1)) with 0xffffffff.
    change (wrap 32 (Z.lnot 0xffffffff)) with 0. cbv zeta.
    rewrite !Z.land_0_r, !Z.lor_0_l, !land_all_ones by (lia || done).
    change (wrap 32 0) with 0. split; [unfold limbs_lt; cbn [l0 l1 l2 l3 l4]; lia|].
    rewrite HG. apply (Z.mod_unique _ _ 1); [|lia]. left.
    unfold val, P1305 in *. cbn [l0 l1 l2 l3 l4] in *. lia.
Qed.

Lemma poly1305_reduce_spec h :
  limbs_ok h ->
  limbs_lt 26 26 (poly1305_reduce h) /\ val (poly1305_reduce h) = val h mod P1305.
Proof.
  intros Hok. pose proof (carry_full h Hok) as HC. cbv zeta in HC.
  destruct Hok as (H0 & H1 & H2 & H3 & H4).
  unfold poly1305_reduce. cbv zeta. rewrite !limb_land, !(Z.shiftr_div_pow2 _ 26) by lia.
  destruct HC as [(C1 & C2 & C3 & C4 & C0 & HL) HV].
  rewrite (wrap_small 32 (l2 h + _)) by (unfold urange; lia).
  rewrite (wrap_small 32 (l3 h + _)) by (unfold urange; lia).
  rewrite (wrap_small 32 (l4 h + _)) by (unfold urange; lia).
  rewrite (wrap_small 32 (_ * 5)) by (unfold urange; lia).
  rewrite (wrap_small 32 (l0 h + _)) by (unfold urange; lia).
  pose proof HL as (L0 & L1 & L2 & L3 & L4). cbn [l0 l1 l2 l3 l4] in L0, L1, L2, L3, L4.
  rewrite (wrap_small 32 (l1 h mod 2 ^ 26 + _)) by (unfold urange; lia).
  set (h0 := (l0 h + _) mod 2 ^ 26) in *. set (h1 := l1 h mod 2 ^ 26 + _) in *.
  set (h2 := (l2 h + _) mod 2 ^ 26) in *. set (h3 := (l3 h + _) mod 2 ^ 26) in *.
  set (h4 := (l4 h + _) mod 2 ^ 26) in *.
  pose proof (sub_prime h0 h1 h2 h3 h4 HL) as HS. cbv zeta in HS.
  destruct HS as ((D0 & D1 & D2 & D3) & (G0 & G1 & G2 & G3 & G4) & HG).
  rewrite (wrap_small 32 (h0 + 5)) by (unfold urange; lia).
  rewrite (wrap_small 32 (h1 + _)) by (unfold urange; lia).
  rewrite (wrap_small 32 (h2 + _)) by (unfold urange; lia).
  rewrite (wrap_small 32 (h3 + _)) by (unfold urange; lia).
  change (Z.shiftl 1 26) with (2 ^ 26).
  set (g0 := (h0 + 5) mod 2 ^ 26) in *. set (g1 := (h1 + _) mod 2 ^ 26) in *.
  set (g2 := (h2 + _) mod 2 ^ 26) in *. set (g3 := (h3 + _) mod 2 ^ 26) in *.
  set (g4 := h4 + _ - 2 ^ 26) in *. clearbody h0 h1 h2 h3 h4 g0 g1 g2 g3 g4.
  assert (val h mod P1305 = val (mkLimbs h0 h1 h2 h3 h4) mod P1305) as ->.
  { rewrite <- HV, (Z.mul_comm P1305). by rewrite Z.mod_add. }
  by apply select_spec.
Qed.

(** ** Packing the limbs *)

Lemma pack_word a b j :
  0 <= j <= 32 -> 0 <= a < 2 ^ j -> 0 <= b ->
  Z.lor a (wrap 32 (Z.shiftl b j)) = a + 2 ^ j * (b mod 2 ^ (32 - j)).
Proof.
  intros Hj Ha Hb.
  assert (wrap 32 (Z.shiftl b j) = Z.shiftl (b mod 2 ^ (32 - j)) j) as ->.
  { unfold wrap. rewrite !Z.shiftl_mul_pow2 by lia.
    replace (2 ^ 32) with (2 ^ j * 2 ^ (32 - j)) by (rewrite <- Z.pow_add_r by lia; f_equal; lia).
    rewrite (Z.mul_comm b), Z.mul_mod_distr_l by lia. lia. }
  rewrite lor_shiftl_add; [lia|lia|done|]. apply Z.mod_pos_bound. lia.
Qed.

Lemma split_at x i : 0 <= i -> x = 2 ^ i * (x / 2 ^ i) + x mod 2 ^ i /\ 0 <= x mod 2 ^ i < 2 ^ i.
Proof. intros. split; [apply Z.div_mod; lia|apply Z.mod_pos_bound; lia]. Qed.

Lemma le_split_unique n l v :
  bytes_ok l -> length l = n -> 0 <= v -> le_combine l = v mod 2 ^ (8 * Z.of_nat n) -> l = le_split n v.
Proof.
  intros Hb Hl Hv E. rewrite <- (le_split_combine l Hb), Hl, E, <- le_combine_split by done.
  pose proof (le_split_combine (le_split n v) (le_split_bytes n v)) as H.
  by rewrite length_le_split in H.
Qed.

Lemma u32to8le_split v : u32to8le v = le_split 4 v.
Proof. unfold u32to8le. cbn [le_split]. by rewrite !Z.shiftr_shiftr by lia. Qed.

(** Four words with carries. *)
Lemma add_words w0 w1 w2 w3 p0 p1 p2 p3 :
  0 <= w0 < 2 ^ 32 -> 0 <= w1 < 2 ^ 32 -> 0 <= w2 < 2 ^ 32 -> 0 <= w3 < 2 ^ 32 ->
  0 <= p0 < 2 ^ 32 -> 0 <= p1 < 2 ^ 32 -> 0 <= p2 < 2 ^ 32 -> 0 <= p3 < 2 ^ 32 ->
  let f0 := wrap 64 (w0 + p0) in let f1 := wrap 64 (w1 + p1 + Z.shiftr f0 32) in
  let f2 := wrap 64 (w2 + p2 + Z.shiftr f1 32) in let f3 := wrap 64 (w3 + p3 + Z.shiftr f2 32) in
  u32to8le (wrap 32 f0) ++ u32to8le (wrap 32 f1) ++ u32to8le (wrap 32 f2) ++ u32to8le (wrap 32 f3)
  = le_split 16 ((w0 + 2 ^ 32 * w1 + 2 ^ 64 * w2 + 2 ^ 96 * w3) + (p0 + 2 ^ 32 * p1 + 2 ^ 64 * p2 + 2 ^ 96 * p3)).
Proof.
  intros. assert (0 <= f0 < 2 ^ 33 /\ f0 = w0 + p0) as [F0 E0].
  { unfold f0. rewrite wrap_small by (unfold urange; lia). lia. }
  assert (forall x, 0 <= x < 2 ^ 34 -> 0 <= x / 2 ^ 32 < 4) as Hd.
  { intros. split; [apply Z.div_pos; lia|apply Z.div_lt_upper_bound; lia]. }
  assert (0 <= f1 < 2 ^ 34 /\ f1 = w1 + p1 + f0 / 2 ^ 32) as [F1 E1].
  { unfold f1. rewrite Z.shiftr_div_pow2 by lia. pose proof (Hd f0).
    rewrite wrap_small by (unfold urange; lia). lia. }
  assert (0 <= f2 < 2 ^ 34 /\ f2 = w2 + p2 + f1 / 2 ^ 32) as [F2 E2].
  { unfold f2. rewrite Z.shiftr_div_pow2 by lia. pose proof (Hd f1).
    rewrite wrap_small by (unfold urange; lia). lia. }
  assert (0 <= f3 < 2 ^ 34 /\ f3 = w3 + p3 + f2 / 2 ^ 32) as [F3 E3].
  { unfold f3. rewrite Z.shiftr_div_pow2 by lia. pose proof (Hd f2).
    rewrite wrap_small by (unfold urange; lia). lia. }
  clearbody f0 f1 f2 f3. rewrite (u32to8le_split (wrap 32 f0)), (u32to8le_split (wrap 32 f1)), (u32to8le_split (wrap 32 f2)), (u32to8le_split (wrap 32 f3)). apply le_split_unique; [|done|lia|].
  { rewrite !bytes_ok_app. split_and!; apply le_split_bytes. }
  unfold wrap. rewrite !le_combine_app, !le_combine_split by (apply Z.mod_pos_bound; lia).
  rewrite !length_le_split. change (8 * Z.of_nat 4) with 32. change (8 * Z.of_nat 16) with 128.
  rewrite !Z.mod_mod by lia.
  destruct (split_at f0 32) as [S0 T0]; [lia|]. destruct (split_at f1 32) as [S1 T1]; [lia|].
  destruct (split_at f2 32) as [S2 T2]; [lia|]. destruct (split_at f3 32) as [S3 T3]; [lia|].
  apply (Z.mod_unique _ _ (f3 / 2 ^ 32)); [left; lia|lia].
Qed.

Lemma poly1305_emit_spec h p0 p1 p2 p3 :
  limbs_lt 26 26 h -> 0 <= p0 < 2 ^ 32 -> 0 <= p1 < 2 ^ 32 -> 0 <= p2 < 2 ^ 32 -> 0 <= p3 < 2 ^ 32 ->
  poly1305_emit h (p0, p1, p2, p3) = le_split 16 (val h + (p0 + 2 ^ 32 * p1 + 2 ^ 64 * p2 + 2 ^ 96 * p3)).
Proof.
  intros (L0 & L1 & L2 & L3 & L4) P0 P1 P2 P3. unfold poly1305_emit.
  destruct (split_at (l1 h) 6) as [S1 T1]; [lia|]. destruct (split_at (l2 h) 12) as [S2 T2]; [lia|].
  destruct (split_at (l3 h) 18) as [S3 T3]; [lia|]. destruct (split_at (l4 h) 24) as [S4 T4]; [lia|].
  rewrite !Z.shiftr_div_pow2 by lia.
  rewrite (pack_word (l0 h) (l1 h) 26), (pack_word (l1 h / 2 ^ 6) (l2 h) 20),
    (pack_word (l2 h / 2 ^ 12) (l3 h) 14), (pack_word (l3 h / 2 ^ 18) (l4 h) 8) by lia.
  change (32 - 26) with 6. change (32 - 20) with 12. change (32 - 14) with 18. change (32 - 8) with 24.
  rewrite <- !Z.shiftr_div_pow2 by lia.
  etransitivity; [apply add_words; rewrite ?Z.shiftr_div_pow2 by lia; lia|].
  rewrite ?Z.shiftr_div_pow2 by lia.
  set (q := l4 h / 2 ^ 24) in *.
  match goal with |- le_split 16 (?a + ?b) = _ => assert (val h + b = a + b + q * 2 ^ 128) as -> end.
  { unfold val. lia. }
  apply le_split_unique; [apply le_split_bytes|done|lia|]. rewrite le_combine_split by lia.
  change (2 ^ (8 * Z.of_nat 16)) with (2 ^ 128). by rewrite Z.mod_add.
Qed.

(** ** Streaming *)

Definition pe (r a : Z) (m : list Z) : Z := poly_eval (length m) r a m.

Lemma poly_eval_fuel f r a m : (length m <= f)%nat -> poly_eval f r a m = pe r a m.
Proof.
  unfold pe. assert (forall f g m a, (length m <= f)%nat -> (length m <= g)%nat ->
    poly_eval f r a m = poly_eval g r a m) as H; [|intros; by apply H].
  clear. induction f as [|f IH]; intros g [|x m] a Hf Hg; cbn [length] in *; try lia; try (by destruct g).
  destruct g as [|g]; [lia|]. cbn [poly_eval]. apply IH; rewrite length_drop; cbn [length]; lia.
Qed.

Lemma pe_step r a m :
  m <> [] -> pe r a m = pe r ((a + le_combine (take 16 m ++ [1])) * r mod P1305) (drop 16 m).
Proof.
  intros Hm. destruct m as [|x m]; [done|]. unfold pe at 1. cbn [length poly_eval].
  apply poly_eval_fuel. rewrite length_drop. cbn. lia.
Qed.

Lemma pe_app r a full m k : length full = (16 * k)%nat -> pe r a (full ++ m) = pe r (pe r a full) m.
Proof.
  revert a full. induction k as [|k IH]; intros a full Hl.
  { destruct full; [done|cbn in Hl; lia]. }
  assert (full <> []) by (intros ->; cbn in Hl; lia).
  rewrite (pe_step r a full) by done. rewrite pe_step by (by destruct full).
  rewrite take_app_le, drop_app_le by lia. apply IH. rewrite length_drop. lia.
Qed.

(** Only the value modulo the prime matters. *)
Lemma pe_step_mod r v a x : v mod P1305 = a mod P1305 -> (v + x) * r mod P1305 = (a + x) * r mod P1305.
Proof.
  intros E. rewrite (Z.mul_mod (v + x)), (Z.mul_mod (a + x)) by done.
  by rewrite (Z.add_mod v), (Z.add_mod a), E by done.
Qed.

Lemma le_combine_block m : length m = 16%nat -> le_combine (m ++ [1]) = le_combine m + 2 ^ 128.
Proof. intros Hl. rewrite le_combine_app, Hl. reflexivity. Qed.

Lemma poly1305_loop_spec k fuel r h m :
  length m = (16 * k)%nat -> (length m < fuel)%nat -> limbs_lt 26 20 r -> limbs_ok h -> bytes_ok m ->
  limbs_ok (poly1305_loop fuel (hi_of false) r h m) /\
  val (poly1305_loop fuel (hi_of false) r h m) mod P1305 = pe (val r) (val h mod P1305) m.
Proof.
  revert fuel h m. induction k as [|k IH]; intros fuel h m Hl Hf Hr Hh Hm;
    (destruct fuel as [|fuel]; [lia|]); cbn [poly1305_loop].
  { destruct m; [done|cbn in Hl; lia]. }
  destruct (Nat.leb_spec 16 (length m)); [|lia].
  destruct (poly1305_block_spec false r h m Hr Hh Hm) as [Hok Hv]; [done|].
  destruct (IH fuel (poly1305_block (hi_of false) r h m) (drop 16 m)) as [Hok' Hv'];
    [rewrite length_drop; lia|rewrite length_drop; lia|done|done|by apply bytes_ok_drop|].
  split; [done|]. rewrite Hv', (pe_step _ _ m) by (intros ->; cbn in Hl; lia). f_equal. rewrite Hv.
  rewrite <- Z.add_assoc. rewrite le_combine_block by (rewrite length_take; lia).
  apply pe_step_mod. by rewrite Z.mod_mod.
Qed.

(** The context after absorbing [m]: whole blocks are in the accumulator, the
    rest in the buffer. *)
Definition absorbed (key m : list Z) (st : poly1305_ctx) : Prop :=
  exists full tail k, m = full ++ tail /\ length full = (16 * k)%nat /\ (length tail < 16)%nat /\
    p_r st = r_limbs key /\ p_pad st = p_pad (poly1305_init key) /\ p_final st = false /\
    length (p_buffer st) = 16%nat /\ p_leftover st = length tail /\ take (length tail) (p_buffer st) = tail /\
    limbs_ok (p_h st) /\ val (p_h st) mod P1305 = pe (val (r_limbs key)) 0 full.

Lemma absorbed_init key : absorbed key [] (poly1305_init key).
Proof.
  exists [], [], 0%nat. split_and!; try done; try (cbn; lia).
Qed.

Lemma length_splice buf off s :
  (off + length s <= length buf)%nat -> length (splice buf off s) = length buf.
Proof. intros. unfold splice. rewrite !length_app, length_take, length_drop. lia. Qed.

Lemma take_splice buf off s :
  (off + length s <= length buf)%nat -> take (off + length s) (splice buf off s) = take off buf ++ s.
Proof.
  intros H. unfold splice. rewrite (assoc_L (++)). apply take_app_length'.
  rewrite length_app, length_take. lia.
Qed.

Section stream.
Context (key : list Z) (Hk : bytes_ok key) (Hkl : length key = 32%nat).

Lemma blocks_spec st full k x j :
  length full = (16 * k)%nat -> length x = (16 * j)%nat -> bytes_ok x ->
  p_r st = r_limbs key -> p_final st = false -> limbs_ok (p_h st) ->
  val (p_h st) mod P1305 = pe (val (r_limbs key)) 0 full ->
  limbs_ok (p_h (poly1305_blocks st x)) /\
  val (p_h (poly1305_blocks st x)) mod P1305 = pe (val (r_limbs key)) 0 (full ++ x).
Proof.
  intros Hf Hx Hb Hr Hfin Hok Hv. unfold poly1305_blocks. rewrite Hfin. cbn [set_h p_h].
  destruct (poly1305_loop_spec j (S (length x)) (p_r st) (p_h st) x) as [H1 H2]; try done; [lia| |].
  { rewrite Hr. apply r_limbs_val; [done|lia]. }
  split; [exact H1|]. etransitivity; [exact H2|]. by rewrite Hr, Hv, (pe_app _ _ _ _ k).
Qed.

Lemma update_rest_spec st full k x :
  length full = (16 * k)%nat -> bytes_ok x -> p_leftover st = 0%nat -> length (p_buffer st) = 16%nat ->
  p_r st = r_limbs key -> p_pad st = p_pad (poly1305_init key) -> p_final st = false -> limbs_ok (p_h st) ->
  val (p_h st) mod P1305 = pe (val (r_limbs key)) 0 full ->
  absorbed key (full ++ x) (poly1305_update_rest st x).
Proof.
  intros Hf Hx Hlo Hbl Hr Hp Hfin Hok Hv. unfold poly1305_update_rest.
  set (want := if (16 <=? length x)%nat then (length x / 16 * 16)%nat else 0%nat).
  pose proof (Nat.div_mod_eq (length x) 16) as Hdm. pose proof (Nat.mod_upper_bound (length x) 16) as Hmu.
  assert (want = (16 * (length x / 16)))%nat as Hw.
  { unfold want. destruct (Nat.leb_spec 16 (length x)); [lia|]. rewrite Nat.div_small by lia. lia. }
  set (st1 := if (16 <=? length x)%nat then poly1305_blocks st (take want x) else st).
  assert (limbs_ok (p_h st1) /\ val (p_h st1) mod P1305 = pe (val (r_limbs key)) 0 (full ++ take want x) /\
    p_r st1 = r_limbs key /\ p_pad st1 = p_pad (poly1305_init key) /\ p_final st1 = false /\
    length (p_buffer st1) = 16%nat /\ p_leftover st1 = 0%nat) as (Hok1 & Hv1 & Hr1 & Hp1 & Hf1 & Hb1 & Hl1).
  { unfold st1. destruct (Nat.leb_spec 16 (length x)) as [Hge|Hlt].
    - destruct (blocks_spec st full k (take want x) (length x / 16)) as [? ?]; try done.
      + rewrite length_take. lia.
      + by apply bytes_ok_take.
    - assert (want = 0%nat) as -> by (rewrite Hw, Nat.div_small by lia; lia).
      rewrite take_0, app_nil_r. done. }
  exists (full ++ take want x), (drop want x), (k + length x / 16)%nat.
  rewrite <- (assoc_L (++)), take_drop. assert (length (drop want x) < 16)%nat by (rewrite length_drop; lia).
  destruct (Nat.eqb_spec (length (drop want x)) 0) as [E|E].
  - rewrite (nil_length_inv _ E). split_and!; try done; [rewrite length_app, length_take; lia|cbn; lia].
  - cbn [set_buf p_r p_pad p_final p_buffer p_leftover p_h]. rewrite Hl1.
    split_and!; try done; [rewrite length_app, length_take; lia|rewrite length_splice; lia|].
    etransitivity; [apply (take_splice _ 0); lia|done].
Qed.

Lemma update_spec st m x :
  absorbed key m st -> bytes_ok m -> bytes_ok x -> absorbed key (m ++ x) (poly1305_update st x).
Proof.
  intros (full & tail & k & -> & Hf & Ht & Hr & Hp & Hfin & Hbl & Hlo & Htk & Hok & Hv) Hm Hx.
  apply bytes_ok_app in Hm as [_ Htb]. rewrite <- (assoc_L (++)). unfold poly1305_update.
  destruct (Nat.eqb_spec (p_leftover st) 0) as [E|E].
  { assert (tail = []) as -> by (apply nil_length_inv; lia). cbn [app].
    by apply (update_rest_spec st full k). }
  set (want := Nat.min (16 - p_leftover st) (length x)).
  assert (length (take want x) = want) as Hlw by (rewrite length_take; lia).
  cbn [set_buf p_leftover p_buffer].
  assert (take (p_leftover st + want) (splice (p_buffer st) (p_leftover st) (take want x))
    = tail ++ take want x) as Hts.
  { rewrite <- Hlw at 1. rewrite take_splice by lia. by rewrite Hlo, Htk. }
  assert (length (splice (p_buffer st) (p_leftover st) (take want x)) = 16%nat) as Hls
    by (rewrite length_splice; lia).
  destruct (Nat.ltb_spec (p_leftover st + want) 16) as [Hlt|Hge].
  - assert (take want x = x) as Ex by (apply take_ge; lia). rewrite Ex in *.
    exists full, (tail ++ x), k. rewrite length_app.
    cbn [p_r p_pad p_final p_buffer p_leftover p_h].
    split_and!; try done; [lia|cbn; lia|]. cbn [set_buf p_buffer]. by replace (length tail + length x)%nat with (p_leftover st + want)%nat by lia.
  - set (buf := splice (p_buffer st) (p_leftover st) (take want x)) in *.
    rewrite take_ge in Hts by lia. assert (full ++ tail ++ x = (full ++ buf) ++ drop want x) as ->.
    { rewrite Hts, <- !(assoc_L (++)). by rewrite take_drop. }
    set (st0 := set_buf st (p_leftover st + want) buf).
    destruct (blocks_spec st0 full k buf 1) as [H1 H2]; try done.
    { rewrite Hts. apply bytes_ok_app. split; [done|by apply bytes_ok_take]. }
    apply (update_rest_spec _ _ (k + 1)); try done; [rewrite length_app; lia|by apply bytes_ok_drop].
Qed.

Lemma pads_range : exists p0 p1 p2 p3, p_pad (poly1305_init key) = (p0, p1, p2, p3) /\
  0 <= p0 < 2 ^ 32 /\ 0 <= p1 < 2 ^ 32 /\ 0 <= p2 < 2 ^ 32 /\ 0 <= p3 < 2 ^ 32 /\
  p0 + 2 ^ 32 * p1 + 2 ^ 64 * p2 + 2 ^ 96 * p3 = le_combine (take 16 (drop 16 key)).
Proof.
  do 4 eexists. split; [reflexivity|].
  assert (forall k, (k <= 28)%nat -> 0 <= u8to32le (drop k key) < 2 ^ 32) as Hr.
  { intros k Hk'. apply window_range; [by apply bytes_ok_drop|rewrite length_drop; lia]. }
  split_and!; try (apply Hr; lia).
  assert (forall k, (k <= 28)%nat -> u8to32le (drop k key) = le_combine (take 4 (drop k key))) as Hu.
  { intros k Hk'. apply u8to32le_combine; [by apply bytes_ok_drop|rewrite length_drop; lia]. }
  rewrite !Hu by lia.
  assert (take 16 (drop 16 key) = take 4 (drop 16 key) ++ take 4 (drop 20 key) ++ take 4 (drop 24 key)
    ++ take 4 (drop 28 key)) as ->.
  { change (drop 20 key) with (drop (16 + 4) key). change (drop 24 key) with (drop (16 + 8) key).
    change (drop 28 key) with (drop (16 + 12) key).
    rewrite <- !drop_drop. generalize (drop 16 key). intros l.
    change (take 16 l) with (take (4 + (4 + (4 + 4))) l). rewrite <- !take_take_drop. rewrite !drop_drop. cbn [Nat.add]. done. }
  rewrite !le_combine_app, !length_take, !length_drop, Hkl. cbn [Nat.sub Nat.min].
  change (2 ^ (8 * Z.of_nat 4)) with (2 ^ 32). ring.
Qed.

Lemma finish_spec st m :
  absorbed key m st -> bytes_ok m -> poly1305_finish st = poly1305_ref m key.
Proof.
  intros (full & tail & k & -> & Hf & Ht & Hr & Hp & Hfin & Hbl & Hlo & Htk & Hok & Hv) Hm.
  apply bytes_ok_app in Hm as [_ Htb]. destruct (r_limbs_val key Hk) as [HR HRl]; [lia|].
  unfold poly1305_finish, poly1305_ref. rewrite <- HR. fold (pe (val (r_limbs key)) 0 (full ++ tail)).
  rewrite (pe_app _ _ _ _ k) by done.
  assert (p_pad (poly1305_pad_last st) = p_pad (poly1305_init key) /\ limbs_ok (p_h (poly1305_pad_last st)) /\
    val (p_h (poly1305_pad_last st)) mod P1305
      = pe (val (r_limbs key)) (pe (val (r_limbs key)) 0 full) tail) as (Hp' & Hok' & Hv').
  { unfold poly1305_pad_last. destruct (Nat.eqb_spec (p_leftover st) 0) as [E|E].
    { assert (tail = []) as -> by (apply nil_length_inv; lia). done. }
    rewrite Hlo, Htk. set (b := tail ++ [1] ++ replicate (15 - length tail) 0).
    assert (length b = 16%nat) as Hb by (unfold b; rewrite !length_app, length_replicate; cbn; lia).
    unfold poly1305_blocks. cbn [p_final p_r p_h p_pad set_h]. split; [done|].
    cbn [poly1305_loop]. rewrite Hb. cbn [Nat.leb]. rewrite drop_ge by lia. cbn [length Nat.leb].
    change 0 with (hi_of true) at 1 2.
    destruct (poly1305_block_spec true (p_r st) (p_h st) b) as [H1 H2]; [by rewrite Hr|done| |lia|].
    { unfold b. rewrite !bytes_ok_app. split_and!; [done|by repeat constructor|].
      apply Forall_replicate. split; [lia|done]. }
    split; [exact H1|]. etransitivity; [exact H2|]. rewrite pe_step by (intros ->; cbn in *; lia).
    rewrite (drop_ge tail), !take_ge by lia. change (pe ?r ?a []) with a. rewrite Hr.
    cbn [hi_of]. rewrite Z.mul_0_r, Z.add_0_r.
    assert (le_combine b = le_combine (tail ++ [1])) as ->.
    { unfold b. rewrite (assoc_L (++)), le_combine_app.
      assert (forall n, le_combine (replicate n 0) = 0) as -> by (by induction n as [|n IH]; cbn; rewrite ?IH).
      lia. }
    apply pe_step_mod. rewrite <- Hv. by rewrite Z.mod_mod. }
  rewrite Hp'. destruct pads_range as (p0 & p1 & p2 & p3 & -> & P0 & P1 & P2 & P3 & <-).
  destruct (poly1305_reduce_spec _ Hok') as [Hl2 Hv2]. rewrite poly1305_emit_spec by done.
  by rewrite Hv2, Hv'.
Qed.
End stream.

(** ** The MAC *)

Lemma updates_spec key chunks st m :
  bytes_ok key -> length key = 32%nat -> absorbed key m st -> bytes_ok m -> Forall bytes_ok chunks ->
  absorbed key (m ++ concat chunks) (foldl poly1305_update st chunks).
Proof.
  intros Hk Hkl. revert st m. induction chunks as [|c chunks IH]; intros st m Ha Hm Hc; cbn [foldl concat].
  { by rewrite app_nil_r. }
  apply Forall_cons in Hc as [Hc Hcs]. rewrite (assoc_L (++)). apply IH; [|by apply bytes_ok_app|done].
  by apply update_spec.
Qed.

(** C29: Whatever way a message is cut into updates, the incremental limb
    implementation returns the Poly1305 tag of the whole message as RFC 8439
    defines it: the message polynomial at the clamped key modulo 2^130 - 5,
    plus the pad modulo 2^128. *)
Theorem poly1305_streaming key chunks :
  bytes_ok key -> length key = 32%nat -> Forall bytes_ok chunks ->
  poly1305_finish (foldl poly1305_update (poly1305_init key) chunks) = poly1305_ref (concat chunks) key.
Proof.
  intros Hk Hkl Hc. apply finish_spec; [done|done| |].
  - apply (updates_spec key chunks _ [] Hk Hkl (absorbed_init key)); [constructor|done].
  - induction Hc; [constructor|]. cbn. by apply bytes_ok_app.
Qed.

Definition ex_key : list Z := map Z.of_nat (seq 100 32).
Definition ex_chunks : list (list Z) := [map Z.of_nat (seq 0 5); map Z.of_nat (seq 40 40); [7]].

Lemma poly1305_streaming_witness :
  bytes_ok ex_key /\
  poly1305_finish (foldl poly1305_update (poly1305_init ex_key) ex_chunks)
    = poly1305_ref (concat ex_chunks) ex_key.
Proof.
  assert (bytes_ok ex_key) as Hk by (apply (bool_decide_unpack (bytes_ok ex_key)); by vm_compute).
  split; [exact Hk|]. apply (poly1305_streaming ex_key ex_chunks Hk); [reflexivity|].
  apply (bool_decide_unpack (Forall bytes_ok ex_chunks)). by vm_compute.
Defined.
