(* ===== verification/AeadCorrect.v ===== *)
(** * Correctness of sealing and opening

    The tag is the RFC 8439 MAC, opening accepts exactly that tag, opening
    what was sealed returns the plaintext. [AeadScheme] is what the storage
    files rely on; the cipher is an instance. *)

From S2P Require Import Prelude Endian Aead Poly1305.

(** ** Key stream *)

Lemma u32to8le_bytes v : bytes_ok (u32to8le v).
Proof. rewrite u32to8le_split. apply le_split_bytes. Qed.

Lemma length_flat_map_const {A} (f : A -> list Z) n l :
  (forall x, length (f x) = n) -> length (flat_map f l) = (length l * n)%nat.
Proof. intros Hf. induction l as [|x l IH]; cbn; [done|]. rewrite length_app, IH, Hf. lia. Qed.

Lemma flat_map_bytes {A} (f : A -> list Z) l : (forall x, bytes_ok (f x)) -> bytes_ok (flat_map f l).
Proof. intros Hf. induction l as [|x l IH]; cbn; [constructor|]. by apply bytes_ok_app. Qed.

Lemma length_chacha20_block key counter nonce : length (aegis_chacha20_block key counter nonce) = 64%nat.
Proof. unfold aegis_chacha20_block. by rewrite (length_flat_map_const _ 4). Qed.

Lemma chacha20_block_bytes key counter nonce : bytes_ok (aegis_chacha20_block key counter nonce).
Proof. apply flat_map_bytes. intros. apply u32to8le_bytes. Qed.

Lemma zip_lxor_twice a b :
  (length a <= length b)%nat -> zip_with Z.lxor (zip_with Z.lxor a b) b = a.
Proof.
  revert b. induction a as [|x a IH]; intros [|y b] H; cbn in *; try (done || lia).
  f_equal; [|apply IH; lia]. by rewrite Z.lxor_assoc, Z.lxor_nilpotent, Z.lxor_0_r.
Qed.

Lemma zip_lxor_bytes a b : bytes_ok a -> bytes_ok b -> bytes_ok (zip_with Z.lxor a b).
Proof.
  intros Ha. revert b. induction Ha as [|x a Hx _ IH]; intros b Hb; [constructor|].
  destruct Hb as [|y b Hy Hb]; cbn; constructor; [by apply lxor_range|by apply IH].
Qed.

Section stream.
Context (key nonce : list Z).

Lemma chacha20_xor_loop_spec fuel counter input :
  (length input <= fuel)%nat ->
  length (chacha20_xor_loop fuel key counter nonce input) = length input /\
  (bytes_ok input -> bytes_ok (chacha20_xor_loop fuel key counter nonce input)) /\
  forall fuel', (length input <= fuel')%nat ->
    chacha20_xor_loop fuel' key counter nonce (chacha20_xor_loop fuel key counter nonce input) = input.
Proof.
  revert counter input. induction fuel as [|fuel IH]; intros counter input Hf.
  { destruct input; [|cbn in Hf; lia]. split_and!; [done|done|by intros []]. }
  destruct input as [|x input]; [split_and!; [done|done|by intros []]|].
  cbn [chacha20_xor_loop]. set (y := x :: input) in *. set (n := Nat.min (length y) 64).
  assert (0 < n <= length y)%nat as Hn by (unfold n, y; cbn; lia).
  set (block := aegis_chacha20_block key counter nonce).
  assert (length block = 64%nat) as Hb by apply length_chacha20_block.
  destruct (IH (wrap 32 (counter + 1)) (drop n y)) as (Hl & Hby & Hinv); [rewrite length_drop; lia|].
  set (rest := chacha20_xor_loop fuel key (wrap 32 (counter + 1)) nonce (drop n y)) in *.
  assert (length (zip_with Z.lxor (take n y) (take n block)) = n) as Hz.
  { rewrite length_zip_with, !length_take. lia. }
  split_and!.
  - rewrite length_app, Hz, Hl, length_drop. lia.
  - intros H. apply bytes_ok_app. split; [|apply Hby; by apply bytes_ok_drop].
    apply zip_lxor_bytes; [by apply bytes_ok_take|]. apply bytes_ok_take, chacha20_block_bytes.
  - intros [|fuel'] Hf'; [cbn in Hf'; lia|]. cbn [chacha20_xor_loop].
    set (out := zip_with Z.lxor (take n y) (take n block) ++ rest).
    assert (length out = length y) as Hlo by (unfold out; rewrite length_app, Hz, Hl, length_drop; lia).
    destruct out as [|o out'] eqn:Eo; [cbn in Hlo; lia|]. rewrite <- Eo in *. clear o out' Eo.
    rewrite Hlo. fold n block. unfold out. rewrite take_app_le, take_ge by lia.
    rewrite drop_app_ge by lia. rewrite Hz, Nat.sub_diag, drop_0.
    rewrite zip_lxor_twice by (rewrite !length_take; lia).
    rewrite Hinv by (rewrite length_drop; cbn [length] in Hf'; subst y; cbn [length] in *; lia).
    apply take_drop.
Qed.

Lemma length_chacha20_xor counter input : length (chacha20_xor key counter nonce input) = length input.
Proof. by apply chacha20_xor_loop_spec. Qed.

Lemma chacha20_xor_bytes counter input :
  bytes_ok input -> bytes_ok (chacha20_xor key counter nonce input).
Proof. by apply chacha20_xor_loop_spec. Qed.

Lemma chacha20_xor_twice counter input :
  chacha20_xor key counter nonce (chacha20_xor key counter nonce input) = input.
Proof.
  unfold chacha20_xor at 1. rewrite length_chacha20_xor. by apply chacha20_xor_loop_spec.
Qed.
End stream.

(** ** Tag comparison *)

Lemma foldl_lor_zero f l acc :
  (forall i : nat, 0 <= f i) -> 0 <= acc ->
  foldl (fun d i => Z.lor d (f i)) acc l = 0 <-> acc = 0 /\ Forall (fun i => f i = 0) l.
Proof.
  intros Hf. revert acc. induction l as [|i l IH]; intros acc Ha; cbn [foldl].
  { split; [by split; [|constructor]|by intros []]. }
  rewrite IH by (by apply Z.lor_nonneg). rewrite Z.lor_eq_0_iff, Forall_cons. tauto.
Qed.

Lemma ct_eq16_spec a b :
  bytes_ok a -> bytes_ok b -> length a = 16%nat -> length b = 16%nat -> ct_eq16 a b = true <-> a = b.
Proof.
  intros Ha Hb Hla Hlb. unfold ct_eq16. rewrite Z.eqb_eq.
  rewrite (foldl_lor_zero (fun i => wrap 8 (Z.lxor (byte_at a i) (byte_at b i))));
    [|intros i; by apply wrap_range|done].
  split.
  - intros [_ H]. apply list_eq. intros i. destruct (decide (i < 16)%nat) as [Hi|Hi].
    + assert (exists x y, a !! i = Some x /\ b !! i = Some y) as (x & y & Ex & Ey).
      { destruct (lookup_lt_is_Some_2 a i) as [x ?]; [lia|].
        destruct (lookup_lt_is_Some_2 b i) as [y ?]; [lia|]. eauto. }
      rewrite Ex, Ey. f_equal. rewrite Forall_forall in H.
      assert (i ∈ seq 0 16) as Hin by (apply elem_of_seq; lia). specialize (H i Hin). cbv beta in H.
      unfold byte_at in H. rewrite Ex, Ey in H. cbn [default from_option id] in H.
      pose proof (Forall_lookup_1 _ _ _ _ Ha Ex) as Hx. pose proof (Forall_lookup_1 _ _ _ _ Hb Ey) as Hy.
      rewrite wrap_small in H by (by apply lxor_range). by apply Z.lxor_eq.
    + rewrite !lookup_ge_None_2 by lia. done.
  - intros ->. split; [done|]. apply Forall_forall. intros i _. by rewrite Z.lxor_nilpotent.
Qed.

(** ** The authenticated data of RFC 8439 *)

Definition pad16 (l : list Z) : list Z := replicate ((16 - length l mod 16) mod 16) 0.

Definition mac_data (aad ct : list Z) : list Z :=
  aad ++ pad16 aad ++ ct ++ pad16 ct
  ++ le_split 8 (Z.of_nat (length aad)) ++ le_split 8 (Z.of_nat (length ct)).

Lemma pad16_bytes l : bytes_ok (pad16 l).
Proof. apply Forall_replicate. split; [lia|done]. Qed.

Lemma u64to8le_split v : u64to8le v = le_split 8 v.
Proof. apply put_u64le_split. Qed.

Section mac.
Context (key : list Z) (Hk : bytes_ok key) (Hkl : length key = 32%nat).

Lemma absorb_opt st m x :
  absorbed key m st -> bytes_ok m -> bytes_ok x ->
  absorbed key (m ++ x) (if (length x =? 0)%nat then st else poly1305_update st x).
Proof.
  intros Ha Hm Hx. destruct (Nat.eqb_spec (length x) 0) as [E|E]; [|by apply update_spec].
  by rewrite (nil_length_inv x E), app_nil_r.
Qed.

Lemma absorb_pad st m x :
  absorbed key m st -> bytes_ok m -> absorbed key (m ++ pad16 x) (poly_pad16 st (length x)).
Proof.
  intros Ha Hm. unfold poly_pad16, pad16. pose proof (Nat.mod_upper_bound (length x) 16).
  destruct (Nat.eqb_spec (length x mod 16) 0) as [E|E].
  - rewrite E. by rewrite app_nil_r.
  - rewrite (Nat.mod_small (16 - _)) by lia. apply update_spec; [done|done|done|done|].
    apply Forall_replicate. split; [lia|done].
Qed.

Lemma aead_mac_ref aad ct :
  bytes_ok aad -> bytes_ok ct -> aead_mac key aad ct = poly1305_ref (mac_data aad ct) key.
Proof.
  intros Ha Hc. unfold aead_mac.
  assert (bytes_ok (mac_data aad ct)) as Hb.
  { unfold mac_data. rewrite !bytes_ok_app. split_and!; auto using pad16_bytes, le_split_bytes. }
  apply finish_spec; [done|done| |done].
  unfold mac_data in *. rewrite <- (u64to8le_split (Z.of_nat (length aad))), <- (u64to8le_split (Z.of_nat (length ct))) in *.
  set (n1 := u64to8le (Z.of_nat (length aad))) in *. set (n2 := u64to8le (Z.of_nat (length ct))) in *.
  replace (aad ++ pad16 aad ++ ct ++ pad16 ct ++ n1 ++ n2)
    with ((((aad ++ pad16 aad) ++ ct) ++ pad16 ct) ++ (n1 ++ n2)) by (by rewrite <- !(assoc_L (++))).
  rewrite !bytes_ok_app in Hb. destruct Hb as (B1 & B2 & B3 & B4 & B5 & B6).
  apply update_spec; [done|done| | |by apply bytes_ok_app].
  2:{ rewrite !bytes_ok_app. auto. }
  apply absorb_pad; [|rewrite !bytes_ok_app; auto].
  apply absorb_opt; [|rewrite !bytes_ok_app; auto|done].
  apply absorb_pad; [|done].
  apply (absorb_opt _ [] aad (absorbed_init key)); [constructor|done].
Qed.
End mac.

(** The one-time key of a nonce. *)
Definition one_time_key (key nonce : list Z) : list Z := snd (xchacha_setup key nonce).

Lemma one_time_key_ok key nonce :
  bytes_ok (one_time_key key nonce) /\ length (one_time_key key nonce) = 32%nat.
Proof.
  unfold one_time_key, xchacha_setup. cbn [snd]. split; [apply bytes_ok_take, chacha20_block_bytes|].
  by rewrite length_take, length_chacha20_block.
Qed.

Lemma aead_mac_shape key aad ct : bytes_ok (aead_mac key aad ct) /\ length (aead_mac key aad ct) = 16%nat.
Proof.
  unfold aead_mac, poly1305_finish, poly1305_emit. cbv zeta.
  match goal with |- context [p_pad ?st] => destruct (p_pad st) as [[[p0 p1] p2] p3] end.
  split; [rewrite !bytes_ok_app; auto using u32to8le_bytes|done].
Qed.

(** ** The interface *)

(** What the log and the checkpoints rely on. *)
Class AeadScheme := {
  as_seal : list Z -> list Z -> list Z -> list Z -> list Z * list Z;
  as_open : list Z -> list Z -> list Z -> list Z -> list Z -> option (list Z);
  as_open_seal key nonce aad pt :
    as_open key nonce aad (fst (as_seal key nonce aad pt)) (snd (as_seal key nonce aad pt)) = Some pt;
  as_ct_length key nonce aad pt : length (fst (as_seal key nonce aad pt)) = length pt;
  as_tag_length key nonce aad pt : length (snd (as_seal key nonce aad pt)) = AEAD_TAG_LEN;
  as_ct_bytes key nonce aad pt : bytes_ok pt -> bytes_ok (fst (as_seal key nonce aad pt));
  as_tag_bytes key nonce aad pt : bytes_ok (snd (as_seal key nonce aad pt))
}.

Lemma aead_open_seal key nonce aad pt :
  aead_open key nonce aad (fst (aead_seal key nonce aad pt)) (snd (aead_seal key nonce aad pt)) = Some pt.
Proof.
  unfold aead_open, aead_seal. destruct (xchacha_setup key nonce) as [[sk cn] pk]. cbn [fst snd].
  set (tag := aead_mac pk aad _). assert (ct_eq16 tag tag = true) as ->.
  { destruct (aead_mac_shape pk aad (chacha20_xor sk 1 cn pt)) as [Hb Hl]. by apply ct_eq16_spec. }
  cbn [negb]. by rewrite chacha20_xor_twice.
Qed.

#[global] Program Instance xchacha20poly1305 : AeadScheme := {|
  as_seal := aead_seal; as_open := aead_open; as_open_seal := aead_open_seal |}.
Next Obligation. intros. apply length_chacha20_xor. Qed.
Next Obligation. intros. apply aead_mac_shape. Qed.
Next Obligation. intros. by apply chacha20_xor_bytes. Qed.
Next Obligation. intros. apply aead_mac_shape. Qed.

(** ** Claims *)

(** Sealing then opening under the same key, nonce and associated data
    returns the plaintext; the ciphertext has its length. *)
Theorem aead_roundtrip key nonce aad pt :
  let '(ct, tag) := aead_seal key nonce aad pt in
  aead_open key nonce aad ct tag = Some pt /\ length ct = length pt /\ length tag = 16%nat.
Proof.
  pose proof (aead_open_seal key nonce aad pt) as H1.
  pose proof (as_ct_length key nonce aad pt : length (fst (aead_seal key nonce aad pt)) = _) as H2.
  pose proof (as_tag_length key nonce aad pt : length (snd (aead_seal key nonce aad pt)) = _) as H3.
  by destruct (aead_seal key nonce aad pt) as [ct tag].
Qed.

(** C30: Opening succeeds exactly on the RFC 8439 tag of the associated data
    and ciphertext under the one-time key of the nonce; any other tag is
    refused without a plaintext. *)
Theorem aead_open_authenticates key nonce aad ct tag :
  bytes_ok aad -> bytes_ok ct -> bytes_ok tag -> length tag = 16%nat ->
  is_Some (aead_open key nonce aad ct tag) <->
  tag = poly1305_ref (mac_data aad ct) (one_time_key key nonce).
Proof.
  intros Ha Hc Ht Hl. destruct (one_time_key_ok key nonce) as [Hk Hkl].
  rewrite <- (aead_mac_ref _ Hk Hkl aad ct Ha Hc). unfold aead_open, one_time_key.
  destruct (xchacha_setup key nonce) as [[sk cn] pk]. cbn [snd].
  destruct (aead_mac_shape pk aad ct) as [Hb Hlm].
  pose proof (ct_eq16_spec (aead_mac pk aad ct) tag Hb Ht Hlm Hl) as Heq.
  destruct (ct_eq16 (aead_mac pk aad ct) tag) eqn:E; cbn [negb].
  - split; [|by eexists]. intros _. symmetry. by apply Heq.
  - split; [by intros [? ?]|]. intros ->. destruct Heq as [_ Heq]. by discriminate Heq.
Qed.

(** The vector of [tests/unit/test_aead.c] (draft-irtf-cfrg-xchacha, A.3.1). *)
Definition vec_key : list Z := map Z.of_nat (seq 0x80 32).
Definition vec_nonce : list Z := map Z.of_nat (seq 0x40 24).
Definition vec_aad : list Z := [0x50; 0x51; 0x52; 0x53; 0xc0; 0xc1; 0xc2; 0xc3; 0xc4; 0xc5; 0xc6; 0xc7].
Definition vec_pt : list Z :=
  [76; 97; 100; 105; 101; 115; 32; 97; 110; 100; 32; 71; 101; 110; 116; 108; 101; 109; 101; 110; 32; 111; 102; 32;
   116; 104; 101; 32; 99; 108; 97; 115; 115; 32; 111; 102; 32; 39; 57; 57; 58; 32; 73; 102; 32; 73; 32; 99;
   111; 117; 108; 100; 32; 111; 102; 102; 101; 114; 32; 121; 111; 117; 32; 111; 110; 108; 121; 32; 111; 110; 101; 32;
   116; 105; 112; 32; 102; 111; 114; 32; 116; 104; 101; 32; 102; 117; 116; 117; 114; 101; 44; 32; 115; 117; 110; 115;
   99; 114; 101; 101; 110; 32; 119; 111; 117; 108; 100; 32; 98; 101; 32; 105; 116; 46].
Definition vec_ct : list Z :=
  [189; 109; 23; 157; 62; 131; 212; 59; 149; 118; 87; 148; 147; 192; 233; 57; 87; 42; 23; 0; 37; 43; 250; 204;
   190; 210; 144; 44; 33; 57; 108; 187; 115; 28; 127; 27; 11; 74; 166; 68; 11; 243; 168; 47; 78; 218; 126; 57;
   174; 100; 198; 112; 140; 84; 194; 22; 203; 150; 183; 46; 18; 19; 180; 82; 47; 140; 155; 164; 13; 181; 217; 69;
   177; 27; 105; 185; 130; 193; 187; 158; 63; 63; 172; 43; 195; 105; 72; 143; 118; 178; 56; 53; 101; 211; 255; 249;
   33; 249; 102; 76; 151; 99; 125; 169; 118; 136; 18; 246; 21; 198; 139; 19; 181; 46].
Definition vec_tag : list Z :=
  [192; 135; 89; 36; 193; 199; 152; 121; 71; 222; 175; 216; 120; 10; 207; 73].

(** Sealing reproduces the published XChaCha20-Poly1305 test vector. *)
Theorem aead_seal_vector : aead_seal vec_key vec_nonce vec_aad vec_pt = (vec_ct, vec_tag).
Proof. vm_compute. reflexivity. Qed.

Lemma aead_open_authenticates_witness :
  is_Some (aead_open vec_key vec_nonce vec_aad vec_ct vec_tag) <->
  vec_tag = poly1305_ref (mac_data vec_aad vec_ct) (one_time_key vec_key vec_nonce).
Proof.
  apply (aead_open_authenticates vec_key vec_nonce vec_aad vec_ct vec_tag).
  - apply (bool_decide_unpack (bytes_ok vec_aad)). by vm_compute.
  - apply (bool_decide_unpack (bytes_ok vec_ct)). by vm_compute.
  - apply (bool_decide_unpack (bytes_ok vec_tag)). by vm_compute.
  - reflexivity.
Defined.
