(* ===== verification/Log.v ===== *)
(** * The append-only log

    Frames, appends, reads, truncation, resynchronisation, scanning, opening
    and legacy migration of [src/storage/log.c]. The file is its list of
    bytes. [rerr off n] tells that reading [n] bytes at [off] fails with an
    I/O error, [alloc n] that an allocation of [n] bytes succeeds; a write
    carries its own outcome. The mutex is not modelled: operations are
    atomic steps, as they are under [wlock]. *)

From S2P Require Import Prelude Endian Crc32 Aead AeadCorrect.

(** ** Constants *)

Definition LOG_FRAME_MAGIC : Z := 0xA3D1B70F.
Definition LOG_FRAME_MAGIC_ENC : Z := 0xA3D1B71E.
Definition LOG_FRAME_HEADER : Z := 16.
Definition V1_FRAME_HEADER : Z := 8.
Definition V3_NONCE_OFF : nat := 8.
Definition V3_FRAME_HEADER : Z := 36.
Definition V3_AAD_LEN : nat := 32.
Definition V3_FRAME_OVERHEAD : Z := V3_FRAME_HEADER + Z.of_nat AEAD_TAG_LEN.
Definition AEGIS_IO_BUF_SIZE : Z := 65536.

Record LogFile := mkLog {
  lf_open : bool;
  lf_disk : list Z;
  lf_size : Z;
  lf_since_fsync : Z;
  lf_fsync_batch : Z;
  lf_encrypted : bool;
  lf_key : list Z
}.

Inductive LogOpenStatus :=
  | LOG_OPEN_OK | LOG_OPEN_ERR_IO | LOG_OPEN_ERR_KEY_ON_PLAIN | LOG_OPEN_ERR_PLAIN_ON_ENC
  | LOG_OPEN_ERR_WRONG_KEY.

(** ** File access *)

Definition flen (disk : list Z) : Z := Z.of_nat (length disk).

(** [None] at the end of the file or on an error; the callers do not tell them
    apart. *)
Definition read_full (rerr : Z -> Z -> bool) (disk : list Z) (off n : Z) : option (list Z) :=
  if (off <? 0) || rerr off n || (flen disk <? off + n) then None
  else Some (slice disk (Z.to_nat off) (Z.to_nat n)).

(** The bytes [bs] at offset [off], a gap past the end filled with zeros. *)
Definition overwrite (disk : list Z) (off : Z) (bs : list Z) : list Z :=
  match bs with
  | [] => disk
  | _ =>
      let o := Z.to_nat off in
      take o (disk ++ replicate (o - length disk) 0) ++ bs ++ drop (o + length bs) disk
  end.

(** The outcome of a write: [Some n] an error once [n] bytes were written,
    which cannot happen after the last one. *)
Definition write_full (disk : list Z) (off : Z) (bs : list Z) (outcome : option nat)
  : list Z * bool :=
  match outcome with
  | None => (overwrite disk off bs, true)
  | Some n =>
      if (n <? length bs)%nat then (overwrite disk off (take n bs), false)
      else (overwrite disk off bs, true)
  end.

(** ** Headers *)

Definition build_header (len payload_crc : Z) : list Z :=
  let h := aegis_put_u32le LOG_FRAME_MAGIC ++ aegis_put_u32le (wrap 32 len)
           ++ aegis_put_u32le payload_crc in
  h ++ aegis_put_u32le (crc32_compute h).

(** Length and payload CRC. *)
Definition parse_header (hdr : list Z) : option (Z * Z) :=
  if negb (aegis_get_u32le hdr =? LOG_FRAME_MAGIC) then None
  else if negb (aegis_get_u32le (drop 12 hdr) =? crc32_compute (take 12 hdr)) then None
  else Some (aegis_get_u32le (drop 4 hdr), aegis_get_u32le (drop 8 hdr)).

Definition build_header_v3 (len : Z) (nonce : list Z) : list Z :=
  let h := aegis_put_u32le LOG_FRAME_MAGIC_ENC ++ aegis_put_u32le (wrap 32 len) ++ nonce in
  h ++ aegis_put_u32le (crc32_compute h).

Definition parse_header_v3 (hdr : list Z) : option Z :=
  if negb (aegis_get_u32le hdr =? LOG_FRAME_MAGIC_ENC) then None
  else if negb (aegis_get_u32le (drop 32 hdr) =? crc32_compute (take 32 hdr)) then None
  else Some (aegis_get_u32le (drop 4 hdr)).

(** The header test of the current mode; the payload CRC is 0 when the frame
    has none. *)
Definition parse_any (enc : bool) (hdr : list Z) : option (Z * Z) :=
  if enc then match parse_header_v3 hdr with Some len => Some (len, 0) | None => None end
  else parse_header hdr.

Definition hdr_len (enc : bool) : Z := if enc then V3_FRAME_HEADER else LOG_FRAME_HEADER.
Definition overhead (enc : bool) : Z := if enc then V3_FRAME_OVERHEAD else LOG_FRAME_HEADER.

Definition log_frame_overhead (lf : LogFile) : Z := overhead (lf_encrypted lf).

(** ** Durability counter *)

Definition set_since (lf : LogFile) (v : Z) : LogFile :=
  mkLog (lf_open lf) (lf_disk lf) (lf_size lf) v (lf_fsync_batch lf) (lf_encrypted lf) (lf_key lf).

(** [sync] is the outcome of the [fsync] call; the boolean is true for 0. *)
Definition log_fsync (lf : LogFile) (sync : bool) : LogFile * bool :=
  if negb (lf_open lf) then (lf, true)
  else if sync then (set_since lf 0, true) else (lf, false).

Definition log_flush_pending (lf : LogFile) : bool := lf_open lf && (0 <? lf_since_fsync lf).

Definition log_fsync_if_batched (lf : LogFile) (sync : bool) : LogFile * bool :=
  if negb (lf_open lf) then (lf, true)
  else if (lf_fsync_batch lf =? 0) || (lf_fsync_batch lf <=? lf_since_fsync lf) then
    if sync then (set_since lf 0, true) else (lf, false)
  else (lf, true).

Definition log_close (lf : LogFile) (sync closed : bool) : LogFile * bool :=
  if lf_open lf then
    (mkLog false (lf_disk lf) (lf_size lf) (lf_since_fsync lf) (lf_fsync_batch lf)
       (lf_encrypted lf) (lf_key lf), sync && closed)
  else (lf, true).

(** [ok] is the outcome of [ftruncate], which extends with zeros. *)
Definition log_truncate (lf : LogFile) (valid_end : Z) (ok : bool) : LogFile * bool :=
  if ok then
    let n := Z.to_nat valid_end in
    (mkLog (lf_open lf) (take n (lf_disk lf) ++ replicate (n - length (lf_disk lf)) 0) valid_end
       (lf_since_fsync lf) (lf_fsync_batch lf) (lf_encrypted lf) (lf_key lf), true)
  else (lf, false).

Section log.
Context `{AeadScheme}.
Context (rerr : Z -> Z -> bool) (alloc : Z -> bool).

Definition nonzero (len : Z) : Z := if len =? 0 then 1 else len.

(** ** Appending *)

Definition set_disk (lf : LogFile) (disk : list Z) : LogFile :=
  mkLog (lf_open lf) disk (lf_size lf) (lf_since_fsync lf) (lf_fsync_batch lf)
    (lf_encrypted lf) (lf_key lf).
Definition advance (lf : LogFile) (size : Z) : LogFile :=
  mkLog (lf_open lf) (lf_disk lf) size (wrap 64 (lf_since_fsync lf + 1)) (lf_fsync_batch lf)
    (lf_encrypted lf) (lf_key lf).

(** Write the pieces one after the other, stopping at the first failure;
    [w i] is the outcome of the [i]-th write. *)
Fixpoint write_all (disk : list Z) (off : Z) (pieces : list (list Z)) (w : nat -> option nat)
  : list Z * bool :=
  match pieces with
  | [] => (disk, true)
  | p :: pieces' =>
      let '(disk, ok) := write_full disk off p (w 0%nat) in
      if ok then write_all disk (off + Z.of_nat (length p)) pieces' (fun i => w (S i))
      else (disk, false)
  end.

Definition append_pieces (lf : LogFile) (pieces : list (list Z)) (size : Z) (w : nat -> option nat)
  : LogFile * option Z :=
  let off := lf_size lf in
  let '(disk, ok) := write_all (lf_disk lf) off pieces w in
  if ok then (advance (set_disk lf disk) size, Some off) else (set_disk lf disk, None).

(** [nonce] is the outcome of [aegis_fill_random]; the second component is the
    frame's offset, [None] for -1. *)
Definition log_append_encrypted (lf : LogFile) (payload : list Z) (nonce : option (list Z))
  (w : nat -> option nat) : LogFile * option Z :=
  match nonce with
  | None => (lf, None)
  | Some nonce =>
      let len := Z.of_nat (length payload) in
      let hdr := build_header_v3 len nonce in
      if negb (alloc (nonzero len)) then (lf, None)
      else
        let '(ct, tag) := as_seal (lf_key lf) nonce (take V3_AAD_LEN hdr) payload in
        append_pieces lf [hdr; ct; tag] (lf_size lf + V3_FRAME_OVERHEAD + len) w
  end.

Definition log_append (lf : LogFile) (payload : list Z) (nonce : option (list Z))
  (w : nat -> option nat) : LogFile * option Z :=
  let len := Z.of_nat (length payload) in
  if len >? 0xFFFFFFFF then (lf, None)
  else if lf_encrypted lf then log_append_encrypted lf payload nonce w
  else
    let hdr := build_header len (crc32_compute payload) in
    append_pieces lf [hdr; payload] (lf_size lf + LOG_FRAME_HEADER + len) w.

(** ** Reading *)

(** The payload of a frame whose header has been read: [None] when it cannot
    be read, [Some None] when it is damaged. *)
Definition read_payload (enc : bool) (key disk : list Z) (off : Z) (hdr : list Z) (len pcrc : Z)
  : option (option (list Z)) :=
  match read_full rerr disk (off + hdr_len enc) len with
  | None => None
  | Some buf =>
      if enc then
        match read_full rerr disk (off + hdr_len enc + len) (Z.of_nat AEAD_TAG_LEN) with
        | None => None
        | Some tag =>
            Some (as_open key (slice hdr V3_NONCE_OFF AEAD_NONCE_LEN) (take V3_AAD_LEN hdr) buf tag)
        end
      else Some (if crc32_compute buf =? pcrc then Some buf else None)
  end.

Definition log_read_mode (enc : bool) (lf : LogFile) (offset : Z) : option (list Z) :=
  match read_full rerr (lf_disk lf) offset (hdr_len enc) with
  | None => None
  | Some hdr =>
      match parse_any enc hdr with
      | None => None
      | Some (len, pcrc) =>
          if negb (alloc (nonzero len)) then None
          else match read_payload enc (lf_key lf) (lf_disk lf) offset hdr len pcrc with
               | Some r => r
               | None => None
               end
      end
  end.

Definition log_read_encrypted (lf : LogFile) (offset : Z) : option (list Z) :=
  log_read_mode true lf offset.

Definition log_read (lf : LogFile) (offset : Z) : option (list Z) :=
  if lf_encrypted lf then log_read_encrypted lf offset else log_read_mode false lf offset.

(** ** Resynchronisation *)

Definition want_magic (enc : bool) : Z := if enc then LOG_FRAME_MAGIC_ENC else LOG_FRAME_MAGIC.

(** The scan of one window: [n] positions left, [w] the window from the
    current one on. *)
Fixpoint win_search (lf : LogFile) (end_ base : Z) (n : nat) (i : Z) (w : list Z) : option Z :=
  match n with
  | O => None
  | S n' =>
      let next := win_search lf end_ base n' (i + 1) (drop 1 w) in
      if negb (aegis_get_u32le w =? want_magic (lf_encrypted lf)) then next
      else
        let off := base + i in
        match read_full rerr (lf_disk lf) off (hdr_len (lf_encrypted lf)) with
        | None => next
        | Some hdr =>
            match parse_any (lf_encrypted lf) hdr with
            | None => next
            | Some (len, _) =>
                if off + overhead (lf_encrypted lf) + len >? end_ then next else Some off
            end
        end
  end.

Fixpoint find_loop (fuel : nat) (lf : LogFile) (end_ base : Z) : Z :=
  match fuel with
  | O => end_
  | S fuel' =>
      let hl := hdr_len (lf_encrypted lf) in
      if base + hl <=? end_ then
        let want := Z.min (end_ - base) AEGIS_IO_BUF_SIZE in
        match read_full rerr (lf_disk lf) base want with
        | None => end_
        | Some win =>
            let limit := if hl <=? want then want - hl else 0 in
            match win_search lf end_ base (Z.to_nat (limit + 1)) 0 win with
            | Some off => off
            | None => find_loop fuel' lf end_ (base + (want - (hl - 1)))
            end
        end
      else end_
  end.

Definition find_next_frame (lf : LogFile) (from end_ : Z) : Z :=
  find_loop (S (Z.to_nat (end_ - from))) lf end_ from.

(** ** Scanning *)

Record LogScanResult := mkScan {
  truncate_to : Z; good_frames : Z; corrupt_frames : Z; recovered_after_hole : bool
}.

(** The local variables of the loop. *)
Record ScanState := mkSt {
  s_off : Z; s_clean_end : Z; s_good : Z; s_corrupt : Z; s_hole : bool; s_rah : bool
}.

Section scan.
Context {C : Type} (cb : Z -> list Z -> C -> C * Z).

(** [None] in the second component is the result -1 (out of memory). *)
Fixpoint scan_loop (fuel : nat) (lf : LogFile) (end_ : Z) (st : ScanState) (ctx : C)
  : C * option ScanState :=
  match fuel with
  | O => (ctx, Some st)
  | S fuel' =>
      let enc := lf_encrypted lf in
      let off := s_off st in
      if negb (off <? end_) then (ctx, Some st)
      else if off + hdr_len enc >? end_ then (ctx, Some st)
      else
        match read_full rerr (lf_disk lf) off (hdr_len enc) with
        | None => (ctx, Some st)
        | Some hdr =>
            match parse_any enc hdr with
            | None =>
                let nxt := find_next_frame lf (off + 1) end_ in
                if end_ <=? nxt then (ctx, Some st)
                else scan_loop fuel' lf end_
                       (mkSt nxt (s_clean_end st) (s_good st) (s_corrupt st + 1) true (s_rah st)) ctx
            | Some (len, pcrc) =>
                if off + overhead enc + len >? end_ then (ctx, Some st)
                else if negb (alloc (nonzero len)) then (ctx, None)
                else
                  match read_payload enc (lf_key lf) (lf_disk lf) off hdr len pcrc with
                  | None => (ctx, Some st)
                  | Some None =>
                      scan_loop fuel' lf end_
                        (mkSt (off + overhead enc + len) (s_clean_end st) (s_good st)
                           (s_corrupt st + 1) true (s_rah st)) ctx
                  | Some (Some payload) =>
                      let '(ctx, rv) := cb off payload ctx in
                      let off' := off + overhead enc + len in
                      let st' := mkSt off' (if s_hole st then s_clean_end st else off')
                                   (s_good st + 1) (s_corrupt st) (s_hole st)
                                   (if s_hole st then true else s_rah st) in
                      if negb (rv =? 0) then (ctx, Some st') else scan_loop fuel' lf end_ st' ctx
                  end
            end
        end
  end.

Definition log_scan (lf : LogFile) (start scan_end : Z) (ctx : C) : C * option LogScanResult :=
  let '(ctx, r) := scan_loop (S (Z.to_nat (scan_end - start))) lf scan_end
                     (mkSt start start 0 0 false false) ctx in
  match r with
  | None => (ctx, None)
  | Some st =>
      (ctx, Some (mkScan (if s_rah st then scan_end else s_clean_end st) (s_good st)
                    (s_corrupt st) (s_rah st)))
  end.
End scan.

(** ** Legacy migration *)

(** [wok out] tells whether the two writes at [out] succeed. The result is the
    new content, the number of frames and the failure flag. *)
Fixpoint migrate_loop (wok : Z -> bool) (fuel : nat) (old : list Z) (in_ : Z) (new : list Z)
  (migrated : Z) : list Z * Z * bool :=
  match fuel with
  | O => (new, migrated, false)
  | S fuel' =>
      if in_ + V1_FRAME_HEADER <=? flen old then
        match read_full rerr old in_ V1_FRAME_HEADER with
        | None => (new, migrated, false)
        | Some h =>
            let crc := aegis_get_u32le h in
            let len := aegis_get_u32le (drop 4 h) in
            if in_ + V1_FRAME_HEADER + len >? flen old then (new, migrated, false)
            else if negb (alloc (nonzero len)) then (new, migrated, true)
            else
              match read_full rerr old (in_ + V1_FRAME_HEADER) len with
              | None => (new, migrated, false)
              | Some buf =>
                  if negb (crc32_compute buf =? crc) then (new, migrated, false)
                  else if negb (wok (flen new)) then (new, migrated, true)
                  else migrate_loop wok fuel' old (in_ + V1_FRAME_HEADER + len)
                         (new ++ build_header len crc ++ buf) (migrated + 1)
              end
        end
      else (new, migrated, false)
  end.

(** [io_ok] stands for the opens, the [fsync] and the rename. [None] is -1 and
    leaves the original file. *)
Definition migrate_legacy_log (wok : Z -> bool) (io_ok : bool) (old : list Z) : option (list Z) :=
  let '(new, migrated, failed) := migrate_loop wok (S (length old)) old 0 [] 0 in
  let failed := failed || ((migrated =? 0) && (0 <? flen old)) in
  if failed || negb io_ok then None else Some new.

(** ** Opening *)

Definition verify_first_frame (disk key : list Z) : bool :=
  if flen disk <? V3_FRAME_HEADER then true
  else
    match read_full rerr disk 0 V3_FRAME_HEADER with
    | None => false
    | Some hdr =>
        match parse_header_v3 hdr with
        | None => false
        | Some len =>
            if V3_FRAME_HEADER + len + Z.of_nat AEAD_TAG_LEN >? flen disk then false
            else if negb (alloc (nonzero len)) then false
            else
              match read_payload true key disk 0 hdr len 0 with
              | Some (Some _) => true
              | _ => false
              end
        end
    end.

(** The outcomes of the calls of [log_open]: mutex, open, seek, and the
    reopening after a migration. *)
Record OpenIo := mkOpenIo {
  oi_open : bool; oi_seek : bool; oi_reopen : bool; oi_migrate_write : Z -> bool; oi_migrate : bool
}.

(** The log, the status, and the content of the file afterwards. *)
Definition log_open (io : OpenIo) (disk : list Z) (fsync_batch : Z) (key : option (list Z))
  : option LogFile * LogOpenStatus * list Z :=
  let opened d := (Some (mkLog true d (flen d) 0 fsync_batch
                           (match key with Some _ => true | None => false end) (default [] key)),
                   LOG_OPEN_OK, d) in
  if negb (oi_open io && oi_seek io) then (None, LOG_OPEN_ERR_IO, disk)
  else if 4 <=? flen disk then
    match read_full rerr disk 0 4 with
    | None => (None, LOG_OPEN_ERR_IO, disk)
    | Some m =>
        let magic := aegis_get_u32le m in
        let on_disk_encrypted := magic =? LOG_FRAME_MAGIC_ENC in
        let on_disk_plain_v2 := magic =? LOG_FRAME_MAGIC in
        match key with
        | None =>
            if on_disk_encrypted then (None, LOG_OPEN_ERR_PLAIN_ON_ENC, disk)
            else if on_disk_plain_v2 then opened disk
            else
              match migrate_legacy_log (oi_migrate_write io) (oi_migrate io) disk with
              | None => (None, LOG_OPEN_ERR_IO, disk)
              | Some new => if oi_reopen io then opened new else (None, LOG_OPEN_ERR_IO, new)
              end
        | Some k =>
            if on_disk_plain_v2 then (None, LOG_OPEN_ERR_KEY_ON_PLAIN, disk)
            else if negb on_disk_encrypted then (None, LOG_OPEN_ERR_KEY_ON_PLAIN, disk)
            else if negb (verify_first_frame disk k) then (None, LOG_OPEN_ERR_WRONG_KEY, disk)
            else opened disk
        end
    end
  else opened disk.
End log.
