(* ===== verification/LogCorrect.v ===== *)
(** * Correctness of the log

    A log is a sequence of frames, possibly damaged in their payload, and a
    torn tail; scanning delivers exactly the intact ones. Appends that succeed
    extend the sequence, appends that fail leave it. *)

From S2P Require Import Prelude Endian Crc32 Aead AeadCorrect Log.

Section log.
Context `{AeadScheme}.

(** No read fails and memory is available; writes may fail anywhere. *)
Definition rok : Z -> Z -> bool := fun _ _ => false.
Definition aok : Z -> bool := fun _ => true.

(** ** Headers *)

Lemma get_u32_at k a v b :
  length a = k -> u32 v -> aegis_get_u32le (drop k (a ++ aegis_put_u32le v ++ b)) = v.
Proof. intros <- Hv. rewrite drop_app_length. by apply get_put_u32le. Qed.

Lemma build_header_parse len crc :
  u32 len -> u32 crc -> parse_header (build_header len crc) = Some (len, crc).
Proof.
  intros Hl Hc. unfold parse_header, build_header. cbv zeta. rewrite (wrap_small 32 len) by done.
  set (m := aegis_put_u32le LOG_FRAME_MAGIC). set (l := aegis_put_u32le len). set (c := aegis_put_u32le crc).
  set (x := crc32_compute (m ++ l ++ c)).
  assert (u32 x) as Hx.
  { apply crc32_compute_range. rewrite !bytes_ok_app. split_and!; (done || apply put_u32le_bytes). }
  assert (aegis_get_u32le ((m ++ l ++ c) ++ aegis_put_u32le x) = LOG_FRAME_MAGIC) as ->.
  { rewrite <- (drop_0 (_ ++ _)), <- !(assoc_L (++)). by apply (get_u32_at 0 []). }
  rewrite take_app_length' by done. fold x.
  assert (aegis_get_u32le (drop 12 ((m ++ l ++ c) ++ aegis_put_u32le x)) = x) as ->.
  { rewrite <- (app_nil_r (aegis_put_u32le x)). by apply get_u32_at. }
  assert (aegis_get_u32le (drop 4 ((m ++ l ++ c) ++ aegis_put_u32le x)) = len) as ->.
  { rewrite <- !(assoc_L (++)). by apply get_u32_at. }
  assert (aegis_get_u32le (drop 8 ((m ++ l ++ c) ++ aegis_put_u32le x)) = crc) as ->.
  { rewrite (assoc_L (++) m l c), <- (assoc_L (++) (m ++ l)). by apply get_u32_at. }
  by rewrite !Z.eqb_refl.
Qed.

Lemma build_header_v3_parse len nonce :
  u32 len -> bytes_ok nonce -> length nonce = AEAD_NONCE_LEN ->
  parse_header_v3 (build_header_v3 len nonce) = Some len.
Proof.
  intros Hl Hn Hnl. unfold parse_header_v3, build_header_v3. cbv zeta. rewrite (wrap_small 32 len) by done.
  set (m := aegis_put_u32le LOG_FRAME_MAGIC_ENC). set (l := aegis_put_u32le len).
  set (x := crc32_compute (m ++ l ++ nonce)).
  assert (length (m ++ l ++ nonce) = 32%nat) as Hlen by (rewrite !length_app, Hnl; done).
  assert (u32 x) as Hx.
  { apply crc32_compute_range. rewrite !bytes_ok_app. split_and!; (done || apply put_u32le_bytes). }
  assert (aegis_get_u32le ((m ++ l ++ nonce) ++ aegis_put_u32le x) = LOG_FRAME_MAGIC_ENC) as ->.
  { rewrite <- (drop_0 (_ ++ _)), <- !(assoc_L (++)). by apply (get_u32_at 0 []). }
  rewrite take_app_length' by done. fold x.
  assert (aegis_get_u32le (drop 32 ((m ++ l ++ nonce) ++ aegis_put_u32le x)) = x) as ->.
  { rewrite <- (app_nil_r (aegis_put_u32le x)). by apply get_u32_at. }
  assert (aegis_get_u32le (drop 4 ((m ++ l ++ nonce) ++ aegis_put_u32le x)) = len) as ->.
  { rewrite <- !(assoc_L (++)). by apply get_u32_at. }
  by rewrite !Z.eqb_refl.
Qed.

(** ** Frames *)

(** What the body of a frame decodes to under its header. *)
Definition body_payload (enc : bool) (key hdr body : list Z) (len pcrc : Z) : option (list Z) :=
  if enc then
    as_open key (slice hdr V3_NONCE_OFF AEAD_NONCE_LEN) (take V3_AAD_LEN hdr)
      (take (Z.to_nat len) body) (drop (Z.to_nat len) body)
  else if crc32_compute body =? pcrc then Some body else None.

(** [fb] is structurally a frame of [len] payload bytes that decodes to [r]. *)
Definition frame_is (enc : bool) (key fb : list Z) (len : Z) (r : option (list Z)) : Prop :=
  exists hdr body pcrc, fb = hdr ++ body /\ flen hdr = hdr_len enc /\
    flen body = overhead enc - hdr_len enc + len /\ 0 <= len /\
    parse_any enc hdr = Some (len, pcrc) /\ body_payload enc key hdr body len pcrc = r.

Lemma frame_is_length enc key fb len r :
  frame_is enc key fb len r -> flen fb = overhead enc + len /\ 0 <= len.
Proof.
  intros (hdr & body & pcrc & -> & Hh & Hb & Hl & _). unfold flen in *. rewrite length_app. lia.
Qed.

(** The frame an append writes. *)
Definition frame_bytes (enc : bool) (key nonce payload : list Z) : list Z :=
  let len := Z.of_nat (length payload) in
  if enc then
    let hdr := build_header_v3 len nonce in
    let '(ct, tag) := as_seal key nonce (take V3_AAD_LEN hdr) payload in
    hdr ++ ct ++ tag
  else build_header len (crc32_compute payload) ++ payload.

Definition payload_ok (payload : list Z) : Prop :=
  bytes_ok payload /\ Z.of_nat (length payload) <= 0xFFFFFFFF.
Definition nonce_ok (nonce : list Z) : Prop := bytes_ok nonce /\ length nonce = AEAD_NONCE_LEN.

Lemma frame_bytes_is enc key nonce payload :
  payload_ok payload -> nonce_ok nonce ->
  frame_is enc key (frame_bytes enc key nonce payload) (Z.of_nat (length payload)) (Some payload).
Proof.
  intros [Hb Hl] [Hnb Hnl]. unfold frame_bytes.
  assert (u32 (Z.of_nat (length payload))) as Hu by (unfold urange; lia).
  destruct enc.
  - set (hdr := build_header_v3 _ nonce). set (aad := take V3_AAD_LEN hdr).
    assert (length hdr = 36%nat) as Hh.
    { unfold hdr, build_header_v3. cbv zeta. rewrite !length_app, Hnl. done. }
    pose proof (as_ct_length key nonce aad payload) as Hc. pose proof (as_tag_length key nonce aad payload) as Ht.
    pose proof (as_open_seal key nonce aad payload) as Ho.
    destruct (as_seal key nonce aad payload) as [ct tag]. cbn [fst snd] in *.
    exists hdr, (ct ++ tag), 0. split_and!; [done|unfold flen; by rewrite Hh| |lia| |].
    + unfold flen, overhead, hdr_len, V3_FRAME_OVERHEAD. rewrite length_app, Hc, Ht. lia.
    + unfold parse_any, hdr. by rewrite build_header_v3_parse.
    + unfold body_payload. rewrite Nat2Z.id, take_app_length', drop_app_length' by done. fold aad.
      assert (slice hdr V3_NONCE_OFF AEAD_NONCE_LEN = nonce) as ->; [|done].
      unfold hdr, build_header_v3. cbv zeta. unfold slice.
      rewrite (assoc_L (++)), <- (assoc_L (++) _ nonce), drop_app_length' by done. by apply take_app_length'.
  - exists (build_header (Z.of_nat (length payload)) (crc32_compute payload)), payload, (crc32_compute payload).
    split_and!; [done|done|unfold flen, overhead, hdr_len; lia|lia| |].
    + apply build_header_parse; [done|by apply crc32_compute_range].
    + unfold body_payload. by rewrite Z.eqb_refl.
Qed.

(** ** Reading inside a file *)

Lemma read_full_app pre x post off n :
  off = flen pre -> n = flen x -> read_full rok (pre ++ x ++ post) off n = Some x.
Proof.
  intros -> ->. unfold read_full, rok, flen. rewrite !length_app.
  destruct (Z.ltb_spec (Z.of_nat (length pre)) 0); [lia|].
  destruct (Z.ltb_spec (Z.of_nat (length pre + (length x + length post)))
    (Z.of_nat (length pre) + Z.of_nat (length x))); [lia|]. cbn [orb].
  unfold slice. by rewrite !Nat2Z.id, drop_app_length, take_app_length.
Qed.

Lemma frame_read enc key pre fb post len r off :
  frame_is enc key fb len r -> off = flen pre ->
  exists hdr pcrc, read_full rok (pre ++ fb ++ post) off (hdr_len enc) = Some hdr /\
    parse_any enc hdr = Some (len, pcrc) /\
    read_payload rok enc key (pre ++ fb ++ post) off hdr len pcrc = Some r.
Proof.
  intros (hdr & body & pcrc & -> & Hh & Hb & Hl & Hp & Hr) Ho. exists hdr, pcrc.
  split_and!; [|done|].
  - rewrite <- (assoc_L (++)). by apply read_full_app.
  - unfold read_payload, body_payload in *. destruct enc.
    + rewrite <- (take_drop (Z.to_nat len) body), <- (assoc_L (++) hdr), !(assoc_L (++)).
      unfold overhead, hdr_len, V3_FRAME_OVERHEAD, AEAD_TAG_LEN, flen in *.
      rewrite <- (assoc_L (++)), <- (assoc_L (++) (pre ++ hdr)).
      rewrite read_full_app; [|unfold flen; rewrite length_app; lia|unfold flen; rewrite length_take; lia].
      rewrite (assoc_L (++) (pre ++ hdr)).
      rewrite read_full_app;
        [|unfold flen; rewrite !length_app, length_take; lia|unfold flen; rewrite length_drop; lia].
      by rewrite Hr.
    + unfold overhead, hdr_len, flen in *. rewrite <- (assoc_L (++)), (assoc_L (++) pre).
      rewrite read_full_app; [by rewrite Hr|unfold flen; rewrite length_app; lia|unfold flen; lia].
Qed.

(** ** Segments of a log *)

(** A frame and what it decodes to: [None] for a damaged payload. *)
Record Seg := mkSeg { sg_bytes : list Z; sg_len : Z; sg_payload : option (list Z) }.

Definition seg_ok (enc : bool) (key : list Z) (s : Seg) : Prop :=
  frame_is enc key (sg_bytes s) (sg_len s) (sg_payload s).

Definition segs_bytes (segs : list Seg) : list Z := concat (map sg_bytes segs).

(** An incomplete frame at the end of the file: part of a header, or a header
    whose frame does not fit. *)
Definition torn (enc : bool) (t : list Z) : Prop :=
  flen t < hdr_len enc \/
  exists len pcrc, parse_any enc (take (Z.to_nat (hdr_len enc)) t) = Some (len, pcrc) /\
    flen t < overhead enc + len.

(** One segment of the reference scan. *)
Definition seg_step (enc : bool) (st : ScanState * list (Z * list Z)) (s : Seg)
  : ScanState * list (Z * list Z) :=
  let '(st, out) := st in
  let off := s_off st in
  let off' := off + overhead enc + sg_len s in
  match sg_payload s with
  | Some p =>
      (mkSt off' (if s_hole st then s_clean_end st else off') (s_good st + 1) (s_corrupt st)
         (s_hole st) (if s_hole st then true else s_rah st), out ++ [(off, p)])
  | None => (mkSt off' (s_clean_end st) (s_good st) (s_corrupt st + 1) true (s_rah st), out)
  end.

(** The callback that collects what it is given. *)
Definition collect_cb (off : Z) (p : list Z) (ctx : list (Z * list Z)) : list (Z * list Z) * Z :=
  (ctx ++ [(off, p)], 0).

Lemma hdr_len_pos enc : 0 < hdr_len enc <= overhead enc.
Proof. destruct enc; split; done. Qed.

(** Bytes past the scanned range ([g]) play no part. *)
Lemma torn_stops fuel lf pre t g st out :
  torn (lf_encrypted lf) t -> lf_disk lf = pre ++ t ++ g -> s_off st = flen pre -> (0 < fuel)%nat ->
  scan_loop rok aok collect_cb fuel lf (flen pre + flen t) st out = (out, Some st).
Proof.
  intros Ht Hd Ho Hf. destruct fuel as [|fuel]; [lia|]. cbn [scan_loop]. rewrite Hd, Ho.
  destruct (Z.ltb_spec (flen pre) (flen pre + flen t)); [|done]. cbn [negb].
  rewrite Z.gtb_ltb. destruct (Z.ltb_spec (flen pre + flen t) (flen pre + hdr_len (lf_encrypted lf)));
    [done|]. destruct Ht as [?|(len & pcrc & Hp & Hlt)]; [lia|].
  pose proof (hdr_len_pos (lf_encrypted lf)).
  rewrite <- (take_drop (Z.to_nat (hdr_len (lf_encrypted lf))) t) at 1. rewrite <- (assoc_L (++) (take _ _)).
  rewrite read_full_app; [|done|unfold flen in *; rewrite length_take; lia].
  rewrite Hp, Z.gtb_ltb. by rewrite (proj2 (Z.ltb_lt _ _)) by lia.
Qed.

(** A scan takes the frames it starts at one by one and goes on behind them. *)
Lemma scan_frames segs fuel lf pre post end_ st out :
  Forall (seg_ok (lf_encrypted lf) (lf_key lf)) segs -> lf_disk lf = pre ++ segs_bytes segs ++ post ->
  s_off st = flen pre -> flen pre + flen (segs_bytes segs) <= end_ -> (length segs <= fuel)%nat ->
  let '(st', out') := foldl (seg_step (lf_encrypted lf)) (st, out) segs in
  scan_loop rok aok collect_cb fuel lf end_ st out = scan_loop rok aok collect_cb (fuel - length segs) lf end_ st' out' /\
  s_off st' = flen pre + flen (segs_bytes segs).
Proof.
  revert fuel pre st out. induction segs as [|s segs IH]; intros fuel pre st out Hs Hd Ho He Hf.
  { cbn [foldl length]. rewrite Nat.sub_0_r, Ho. split; [done|]. unfold flen at 3. cbn. lia. }
  apply Forall_cons in Hs as [Hseg Hs]. destruct fuel as [|fuel]; [cbn in Hf; lia|].
  cbn [segs_bytes map concat] in Hd, He |- *. rewrite <- (assoc_L (++)) in Hd. fold (segs_bytes segs) in Hd, He |- *.
  destruct (frame_read _ _ pre (sg_bytes s) (segs_bytes segs ++ post) _ _ (s_off st) Hseg Ho)
    as (hdr & pcrc & Hrd & Hparse & Hpay).
  destruct (frame_is_length _ _ _ _ _ Hseg) as [Hfl Hlen]. pose proof (hdr_len_pos (lf_encrypted lf)) as Hh.
  assert (flen (sg_bytes s ++ segs_bytes segs) = flen (sg_bytes s) + flen (segs_bytes segs)) as Hsz
    by (unfold flen; rewrite length_app; lia).
  assert (flen (pre ++ sg_bytes s) = s_off st + overhead (lf_encrypted lf) + sg_len s) as Hp'.
  { rewrite Ho. unfold flen in *. rewrite length_app. lia. }
  assert (0 <= flen (segs_bytes segs)) by (unfold flen; lia).
  specialize (IH fuel (pre ++ sg_bytes s)). cbn [foldl length Nat.sub].
  cbn [scan_loop]. rewrite <- Hd in Hrd, Hpay. rewrite Hrd, Hparse.
  rewrite (proj2 (Z.ltb_lt _ _)), !Z.gtb_ltb by lia. cbn [negb].
  rewrite !(proj2 (Z.ltb_ge _ _)) by lia. cbn [aok negb]. rewrite Hpay. unfold seg_step at 2.
  replace (flen pre + flen (sg_bytes s ++ segs_bytes segs)) with (flen (pre ++ sg_bytes s) + flen (segs_bytes segs)) by lia.
  destruct (sg_payload s) as [p|]; cbn [collect_cb Z.eqb negb]; apply IH; try done;
    try (by rewrite Hd, <- (assoc_L (++))); try lia; cbn in Hf; lia.
Qed.

Lemma scan_segments segs fuel lf pre t g st out :
  Forall (seg_ok (lf_encrypted lf) (lf_key lf)) segs -> torn (lf_encrypted lf) t ->
  lf_disk lf = pre ++ segs_bytes segs ++ t ++ g -> s_off st = flen pre -> (length segs < fuel)%nat ->
  let '(st', out') := foldl (seg_step (lf_encrypted lf)) (st, out) segs in
  scan_loop rok aok collect_cb fuel lf (flen pre + (flen (segs_bytes segs) + flen t)) st out = (out', Some st').
Proof.
  intros Hs Ht Hd Ho Hf. assert (0 <= flen t) by (unfold flen; lia).
  pose proof (scan_frames segs fuel lf pre (t ++ g) (flen pre + (flen (segs_bytes segs) + flen t)) st out
    Hs Hd Ho ltac:(lia) ltac:(lia)) as Hsc.
  destruct (foldl _ _ segs) as [st' out']. destruct Hsc as [-> Ho'].
  assert (flen (pre ++ segs_bytes segs) = flen pre + flen (segs_bytes segs)) as E by (unfold flen; rewrite length_app; lia).
  rewrite Z.add_assoc, <- E. apply (torn_stops _ lf _ t g); [done|by rewrite Hd, <- (assoc_L (++))|by rewrite E|lia].
Qed.

(** ** Whatever lies behind the frames *)

(** A whole frame starts at [off], fits before [end_] and decodes to [p]. *)
Definition frame_here (lf : LogFile) (end_ off : Z) (p : list Z) : Prop :=
  exists hdr len pcrc, read_full rok (lf_disk lf) off (hdr_len (lf_encrypted lf)) = Some hdr /\
    parse_any (lf_encrypted lf) hdr = Some (len, pcrc) /\ off + overhead (lf_encrypted lf) + len <= end_ /\
    read_payload rok (lf_encrypted lf) (lf_key lf) (lf_disk lf) off hdr len pcrc = Some (Some p).

Lemma parse_any_len enc hdr len pcrc : parse_any enc hdr = Some (len, pcrc) -> 0 <= len.
Proof.
  assert (forall bs, 0 <= aegis_get_u32le bs) as Hg by (intros bs; by apply (wrap_range 32)).
  unfold parse_any, parse_header, parse_header_v3. destruct enc; intros E;
    repeat (destruct (_ =? _) in E; cbn [negb] in E; try discriminate E); by injection E as <- _.
Qed.

(** Resynchronising never goes back. *)
Lemma find_next_frame_ge lf from end_ : find_next_frame rok lf from end_ < end_ -> from <= find_next_frame rok lf from end_.
Proof.
  assert (forall n i base w off, win_search rok lf end_ base n i w = Some off -> base + i <= off) as Hw.
  { induction n as [|n IH]; intros i base w off; cbn [win_search]; [done|]. intros E.
    assert (win_search rok lf end_ base n (i + 1) (drop 1 w) = Some off -> base + i <= off) as Hn
      by (intros E'; apply IH in E'; lia).
    destruct (negb _); [auto|]. destruct (read_full _ _ _ _); [|auto]. destruct (parse_any _ _) as [[len pc]|]; [|auto].
    destruct (_ >? _); [auto|]. injection E as <-. lia. }
  unfold find_next_frame. generalize (S (Z.to_nat (end_ - from))) as fuel. intros fuel. revert from.
  induction fuel as [|fuel IH]; intros from; cbn [find_loop]; [lia|].
  pose proof (hdr_len_pos (lf_encrypted lf)) as Hh. destruct (Z.leb_spec (from + hdr_len (lf_encrypted lf)) end_); [|lia].
  destruct (read_full _ _ _ _) as [win|]; [|lia].
  destruct (win_search _ _ _ _ _ _ _) as [off|] eqn:E; [apply Hw in E; lia|].
  intros Hlt. specialize (IH _ Hlt). assert (hdr_len (lf_encrypted lf) <= 36) by (by destruct (lf_encrypted lf)).
  unfold AEGIS_IO_BUF_SIZE in *. lia.
Qed.

(** Every scan completes; what it delivers is whole frames of the file from its
    start on, and a scan that delivers nothing keeps the end it started with. *)
Lemma scan_any fuel lf end_ st out :
  exists extra st', scan_loop rok aok collect_cb fuel lf end_ st out = (out ++ extra, Some st') /\
    Forall (fun '(off, p) => s_off st <= off /\ frame_here lf end_ off p) extra /\
    (extra = [] -> s_clean_end st' = s_clean_end st /\ s_good st' = s_good st /\ s_rah st' = s_rah st).
Proof.
  assert (forall st out, exists extra st', (out, Some st) = (out ++ extra, Some st') /\
    Forall (fun '(off, p) => s_off st <= off /\ frame_here lf end_ off p) extra /\
    (extra = [] -> s_clean_end st' = s_clean_end st /\ s_good st' = s_good st /\ s_rah st' = s_rah st)) as Hstop.
  { intros s o. exists [], s. by rewrite app_nil_r. }
  revert st out. induction fuel as [|fuel IH]; intros st out; cbn [scan_loop]; [apply Hstop|].
  destruct (negb _); [apply Hstop|]. destruct (_ >? _); [apply Hstop|].
  pose proof (hdr_len_pos (lf_encrypted lf)) as Hh.
  destruct (read_full _ _ _ _) as [hdr|] eqn:Er; [|apply Hstop].
  destruct (parse_any _ hdr) as [[len pcrc]|] eqn:Ep.
  2: { destruct (Z.leb_spec end_ (find_next_frame rok lf (s_off st + 1) end_)) as [?|Hlt]; [apply Hstop|].
       apply find_next_frame_ge in Hlt.
       match goal with |- context [scan_loop _ _ _ _ _ _ ?s out] => destruct (IH s out) as (ex & st' & -> & Hex & Hn) end.
       exists ex, st'. split; [done|]. split; [|done]. eapply Forall_impl; [exact Hex|]. intros [off p] [H1 H2].
       cbn [s_off] in H1. split; [lia|done]. }
  rewrite Z.gtb_ltb. destruct (Z.ltb_spec end_ (s_off st + overhead (lf_encrypted lf) + len)) as [?|Hfit]; [apply Hstop|].
  apply parse_any_len in Ep as Hlen. cbn [aok negb].
  destruct (read_payload _ _ _ _ _ _ _ _) as [[p|]|] eqn:Epay; [| |apply Hstop];
    cbn [collect_cb Z.eqb negb];
    match goal with |- context [scan_loop _ _ _ _ _ _ ?s ?o] => destruct (IH s o) as (ex & st' & -> & Hex & Hn) end;
    cbn [s_off s_clean_end s_good s_rah] in *.
  - exists ((s_off st, p) :: ex), st'. rewrite <- (assoc_L (++)). split; [done|]. split; [|done].
    apply Forall_cons. split; [split; [lia|by exists hdr, len, pcrc]|].
    eapply Forall_impl; [exact Hex|]. intros [off q] [H1 H2]. split; [lia|done].
  - exists ex, st'. split; [done|]. split; [|done].
    eapply Forall_impl; [exact Hex|]. intros [off q] [H1 H2]. split; [lia|done].
Qed.

(** What a scan delivers depends on where it starts only. *)
Lemma scan_same fuel fuel' lf end_ st st' :
  s_off st = s_off st' -> end_ - s_off st < Z.of_nat fuel -> end_ - s_off st < Z.of_nat fuel' ->
  forall out out', exists extra, fst (scan_loop rok aok collect_cb fuel lf end_ st out) = out ++ extra /\
    fst (scan_loop rok aok collect_cb fuel' lf end_ st' out') = out' ++ extra.
Proof.
  revert fuel' st st'. induction fuel as [|fuel IH]; intros fuel' st st' Ho Hf Hf' out out'.
  { exists []. rewrite !app_nil_r. split; [done|]. destruct fuel' as [|fuel']; [done|]. cbn [scan_loop].
    by rewrite <- Ho, (proj2 (Z.ltb_ge _ _)) by lia. }
  destruct fuel' as [|fuel'].
  { exists []. rewrite !app_nil_r. split; [|done]. cbn [scan_loop]. by rewrite (proj2 (Z.ltb_ge _ _)) by lia. }
  assert (exists extra, out = out ++ extra /\ out' = out' ++ extra) as Hstop by (exists []; by rewrite !app_nil_r).
  cbn [scan_loop]. rewrite <- Ho. destruct (negb _); [done|]. destruct (_ >? _); [done|].
  destruct (read_full _ _ _ _) as [hdr|]; [|done]. pose proof (hdr_len_pos (lf_encrypted lf)) as Hh.
  destruct (parse_any _ hdr) as [[len pcrc]|] eqn:Ep.
  2: { destruct (Z.leb_spec end_ (find_next_frame rok lf (s_off st + 1) end_)) as [?|Hlt]; [done|].
       apply find_next_frame_ge in Hlt. apply IH; cbn [s_off]; lia. }
  destruct (_ >? _); [done|]. apply parse_any_len in Ep as Hlen. cbn [aok negb].
  destruct (read_payload _ _ _ _ _ _ _ _) as [[p|]|]; [| |done]; cbn [collect_cb Z.eqb negb].
  - match goal with |- context [scan_loop _ _ _ fuel _ _ ?s (out ++ _)] =>
      match goal with |- context [scan_loop _ _ _ fuel' _ _ ?s' (out' ++ _)] =>
        destruct (IH fuel' s s' eq_refl ltac:(cbn [s_off]; lia) ltac:(cbn [s_off]; lia) (out ++ [(s_off st, p)]) (out' ++ [(s_off st, p)]))
          as (ex & -> & ->) end end.
    exists ((s_off st, p) :: ex). by rewrite <- !(assoc_L (++)).
  - apply IH; cbn [s_off]; (done || lia).
Qed.

(** A scan from [off] to the end of the file delivers nothing. *)
Definition silent (lf : LogFile) (off : Z) : Prop :=
  fst (log_scan rok aok collect_cb lf off (flen (lf_disk lf)) []) = [].

#[export] Instance silent_dec lf off : Decision (silent lf off) := ltac:(unfold silent; solve_decision).

Lemma log_scan_fst lf start end_ ctx :
  fst (log_scan rok aok collect_cb lf start end_ ctx)
  = fst (scan_loop rok aok collect_cb (S (Z.to_nat (end_ - start))) lf end_ (mkSt start start 0 0 false false) ctx).
Proof. unfold log_scan. by destruct (scan_loop _ _ _ _ _ _ _ _) as [? [?|]]. Qed.

(** Behind the last frame nothing is delivered when no whole frame is there. *)
Lemma silent_no_frame lf off : (forall o p, off <= o -> ~ frame_here lf (flen (lf_disk lf)) o p) -> silent lf off.
Proof.
  intros Hno. unfold silent. rewrite log_scan_fst.
  destruct (scan_any (S (Z.to_nat (flen (lf_disk lf) - off))) lf (flen (lf_disk lf)) (mkSt off off 0 0 false false) [])
    as (ex & st' & -> & Hex & _). cbn. destruct ex as [|[o p] ex]; [done|].
  apply Forall_cons in Hex as [[H1 H2] _]. by destruct (Hno o p).
Qed.

Lemma silent_torn lf pre t : torn (lf_encrypted lf) t -> lf_disk lf = pre ++ t -> silent lf (flen pre).
Proof.
  intros Ht Hd. unfold silent. rewrite log_scan_fst.
  replace (flen (lf_disk lf)) with (flen pre + flen t) by (rewrite Hd; unfold flen; rewrite length_app; lia).
  rewrite (torn_stops _ lf pre t []); [done|done|by rewrite app_nil_r|done|lia].
Qed.

(** Any callback that never stops the scan sees the collected frames. *)
Lemma scan_loop_cb {C} (cb : Z -> list Z -> C -> C * Z) (step : C -> Z * list Z -> C) fuel lf end_ st out ctx :
  (forall off p c, cb off p c = (step c (off, p), 0)) ->
  scan_loop rok aok cb fuel lf end_ st (foldl step ctx out)
  = let '(out', r) := scan_loop rok aok collect_cb fuel lf end_ st out in (foldl step ctx out', r).
Proof.
  intros Hcb. revert st out. induction fuel as [|fuel IH]; intros st out; cbn [scan_loop]; [done|].
  destruct (negb _); [done|]. destruct (_ >? _); [done|]. destruct (read_full _ _ _ _); [|done].
  destruct (parse_any _ _) as [[len pcrc]|]; [|destruct (_ <=? _); [done|apply IH]].
  destruct (_ >? _); [done|]. destruct (negb _); [done|].
  destruct (read_payload _ _ _ _ _ _ _ _) as [[p|]|]; [|apply IH|done].
  rewrite Hcb. cbn [Z.eqb negb collect_cb]. rewrite <- IH, foldl_app. done.
Qed.

Lemma segs_count enc key segs : Forall (seg_ok enc key) segs -> Z.of_nat (length segs) <= flen (segs_bytes segs).
Proof.
  induction 1 as [|s segs Hs _ IH]; [done|]. cbn [segs_bytes map concat length].
  destruct (frame_is_length _ _ _ _ _ Hs) as [Hl ?]. pose proof (hdr_len_pos enc). unfold flen in *.
  fold (segs_bytes segs). rewrite length_app. lia.
Qed.

(** The reference result of a scan from the start of the file. *)
Definition scan_spec (enc : bool) (segs : list Seg) (end_ : Z) : list (Z * list Z) * LogScanResult :=
  let '(st, out) := foldl (seg_step enc) (mkSt 0 0 0 0 false false, []) segs in
  (out, mkScan (if s_rah st then end_ else s_clean_end st) (s_good st) (s_corrupt st) (s_rah st)).

Lemma log_scan_segments lf segs t g end_ :
  Forall (seg_ok (lf_encrypted lf) (lf_key lf)) segs -> torn (lf_encrypted lf) t ->
  lf_disk lf = segs_bytes segs ++ t ++ g -> end_ = flen (segs_bytes segs) + flen t ->
  log_scan rok aok collect_cb lf 0 end_ []
    = (fst (scan_spec (lf_encrypted lf) segs end_), Some (snd (scan_spec (lf_encrypted lf) segs end_))).
Proof.
  intros Hs Ht Hd ->. pose proof (segs_count _ _ _ Hs) as Hc.
  set (end_ := flen (segs_bytes segs) + flen t).
  pose proof (scan_segments segs (S (Z.to_nat (end_ - 0))) lf [] t g (mkSt 0 0 0 0 false false) []
    Hs Ht Hd eq_refl) as Hscan.
  unfold log_scan, scan_spec. destruct (foldl _ _ segs) as [st' out'].
  change (flen [] + (flen (segs_bytes segs) + flen t)) with end_ in Hscan.
  rewrite Hscan; [done|]. unfold end_, flen in *. lia.
Qed.

(** ** Closed forms of the reference scan *)

(** Offsets and payloads of the intact frames from [off] on. *)
Fixpoint delivered (enc : bool) (off : Z) (segs : list Seg) : list (Z * list Z) :=
  match segs with
  | [] => []
  | s :: segs' =>
      let rest := delivered enc (off + overhead enc + sg_len s) segs' in
      match sg_payload s with Some p => (off, p) :: rest | None => rest end
  end.

Definition intact (s : Seg) : bool := match sg_payload s with Some _ => true | None => false end.

Definition segs_size (enc : bool) (segs : list Seg) : Z :=
  foldr (fun s n => overhead enc + sg_len s + n) 0 segs.
Definition n_intact (segs : list Seg) : Z := Z.of_nat (length (filter (fun s => intact s = true) segs)).
Definition n_damaged (segs : list Seg) : Z := Z.of_nat (length (filter (fun s => intact s = false) segs)).

Lemma segs_size_bytes enc key segs : Forall (seg_ok enc key) segs -> segs_size enc segs = flen (segs_bytes segs).
Proof.
  induction 1 as [|s segs Hs _ IH]; [done|]. cbn [segs_size foldr segs_bytes map concat].
  fold (segs_size enc segs) (segs_bytes segs). destruct (frame_is_length _ _ _ _ _ Hs).
  unfold flen in *. rewrite length_app. lia.
Qed.

Lemma foldl_intact enc segs st out :
  forallb intact segs = true -> s_hole st = false -> s_clean_end st = s_off st ->
  foldl (seg_step enc) (st, out) segs =
    (mkSt (s_off st + segs_size enc segs) (s_off st + segs_size enc segs)
       (s_good st + Z.of_nat (length segs)) (s_corrupt st) false (s_rah st),
     out ++ delivered enc (s_off st) segs).
Proof.
  revert st out. induction segs as [|s segs IH]; intros st out Hi Hh Hc.
  { cbn. rewrite !Z.add_0_r, app_nil_r. destruct st; cbn in *. by subst. }
  cbn [forallb] in Hi. apply andb_true_iff in Hi as [Hs Hi]. cbn [foldl seg_step delivered segs_size foldr length].
  unfold intact in Hs. destruct (sg_payload s) as [p|]; [|done]. rewrite Hh.
  rewrite IH; [|done|done|done]. cbn [s_off s_good s_corrupt s_rah]. fold (segs_size enc segs).
  rewrite <- (assoc_L (++)). cbn [app]. f_equal. f_equal; lia.
Qed.

Lemma segs_bytes_app a b : segs_bytes (a ++ b) = segs_bytes a ++ segs_bytes b.
Proof. unfold segs_bytes. by rewrite map_app, concat_app. Qed.

(** Behind intact frames: they are delivered first, and when nothing else is,
    the file is to be cut back to their end. *)
Lemma log_scan_tail lf segs1 segs2 t :
  Forall (seg_ok (lf_encrypted lf) (lf_key lf)) segs2 -> forallb intact segs2 = true ->
  lf_disk lf = segs_bytes (segs1 ++ segs2) ++ t ->
  exists extra res,
    log_scan rok aok collect_cb lf (flen (segs_bytes segs1)) (flen (lf_disk lf)) []
    = (delivered (lf_encrypted lf) (flen (segs_bytes segs1)) segs2 ++ extra, Some res) /\
    Forall (fun '(off, p) => flen (segs_bytes (segs1 ++ segs2)) <= off /\ frame_here lf (flen (lf_disk lf)) off p) extra /\
    (silent lf (flen (segs_bytes (segs1 ++ segs2))) <-> extra = []) /\
    (extra = [] -> exists c, res = mkScan (flen (segs_bytes (segs1 ++ segs2))) (Z.of_nat (length segs2)) c false).
Proof.
  intros Hok Hi Hd. rewrite segs_bytes_app in *. set (start := flen (segs_bytes segs1)).
  pose proof (segs_count _ _ _ Hok) as Hc. set (end_ := flen (lf_disk lf)).
  assert (end_ = start + flen (segs_bytes segs2) + flen t) as He by (unfold end_, start, flen; rewrite Hd, !length_app; lia).
  assert (flen (segs_bytes segs1 ++ segs_bytes segs2) = start + flen (segs_bytes segs2)) as Hmid
    by (unfold start, flen; rewrite length_app; lia).
  assert (0 <= flen t) by (unfold flen; lia).
  pose proof (scan_frames segs2 (S (Z.to_nat (end_ - start))) lf (segs_bytes segs1) t end_
    (mkSt start start 0 0 false false) [] Hok ltac:(by rewrite Hd, <- (assoc_L (++))) eq_refl ltac:(fold start; lia) ltac:(lia)) as Hsc.
  rewrite foldl_intact in Hsc by done. cbn [s_off s_good s_corrupt s_rah app] in Hsc. fold start in Hsc.
  destruct Hsc as [Hsc Ho]. set (st1 := mkSt _ _ _ _ false false) in Hsc at 2. cbn [s_off] in Ho.
  destruct (scan_any (S (Z.to_nat (end_ - start)) - length segs2) lf end_ st1 (delivered (lf_encrypted lf) start segs2))
    as (ex & st' & Ex & Hex & Hnone).
  exists ex, (mkScan (if s_rah st' then end_ else s_clean_end st') (s_good st') (s_corrupt st') (s_rah st')).
  unfold log_scan. rewrite Hsc, Ex. split; [done|]. rewrite Hmid, <- Ho. split; [exact Hex|]. split.
  - unfold silent. rewrite log_scan_fst. fold end_. rewrite Ho.
    destruct (scan_same (S (Z.to_nat (end_ - start)) - length segs2) (S (Z.to_nat (end_ - (start + flen (segs_bytes segs2)))))
      lf end_ st1 (mkSt (start + flen (segs_bytes segs2)) (start + flen (segs_bytes segs2)) 0 0 false false) Ho
      ltac:(cbn [st1 s_off]; lia) ltac:(cbn [st1 s_off]; lia) (delivered (lf_encrypted lf) start segs2) []) as (ex' & E1 & ->).
    rewrite Ex in E1. cbn [fst] in E1. by apply app_inv_head in E1 as ->.
  - intros E. destruct (Hnone E) as (-> & -> & ->). cbn. by exists (s_corrupt st').
Qed.

Lemma foldl_hole enc segs st out :
  s_hole st = true ->
  foldl (seg_step enc) (st, out) segs =
    (mkSt (s_off st + segs_size enc segs) (s_clean_end st) (s_good st + n_intact segs)
       (s_corrupt st + n_damaged segs) true (s_rah st || existsb intact segs),
     out ++ delivered enc (s_off st) segs).
Proof.
  revert st out. induction segs as [|s segs IH]; intros st out Hh.
  { cbn. rewrite !Z.add_0_r, app_nil_r, orb_false_r. destruct st; cbn in *. by subst. }
  cbn [foldl seg_step delivered segs_size foldr existsb]. fold (segs_size enc segs).
  assert (n_intact (s :: segs) = (if intact s then 1 else 0) + n_intact segs /\
    n_damaged (s :: segs) = (if intact s then 0 else 1) + n_damaged segs) as [Hn1 Hn2].
  { unfold n_intact, n_damaged. rewrite !filter_cons.
    destruct (intact s); repeat case_decide; try congruence; cbn [length]; split; lia. }
  destruct (intact s) eqn:Ei; unfold intact in Ei; destruct (sg_payload s) as [p|]; try done;
    rewrite IH by done; rewrite ?Hh; cbn [s_off s_good s_corrupt s_rah s_clean_end];
    rewrite <- ?(assoc_L (++)), ?orb_true_r; cbn [app orb]; rewrite Hn1, Hn2; f_equal; f_equal; lia.
Qed.

(** A log whose frames are intact. *)
Lemma scan_spec_intact enc segs end_ :
  forallb intact segs = true ->
  scan_spec enc segs end_
    = (delivered enc 0 segs, mkScan (segs_size enc segs) (Z.of_nat (length segs)) 0 false).
Proof. intros Hi. unfold scan_spec. by rewrite foldl_intact. Qed.

(** A first damaged frame in the middle. *)
Lemma scan_spec_damaged enc segs1 s segs2 end_ :
  forallb intact segs1 = true -> intact s = false ->
  scan_spec enc (segs1 ++ s :: segs2) end_
    = (delivered enc 0 (segs1 ++ s :: segs2),
       mkScan (if existsb intact segs2 then end_ else segs_size enc segs1)
         (Z.of_nat (length segs1) + n_intact segs2) (1 + n_damaged segs2) (existsb intact segs2)).
Proof.
  intros Hi Hs. unfold scan_spec. rewrite foldl_app, foldl_intact by done. cbn [foldl seg_step].
  unfold intact in Hs. destruct (sg_payload s) as [p|] eqn:Ep; [done|].
  rewrite foldl_hole by done. cbn [s_off s_good s_corrupt s_rah s_clean_end orb app]. f_equal.
  clear -Ep. generalize 0. induction segs1 as [|x segs1 IH]; intros off; cbn [delivered app segs_size foldr].
  { rewrite Ep. do 2 f_equal; lia. }
  specialize (IH (off + overhead enc + sg_len x)). fold (segs_size enc segs1).
  replace (off + (overhead enc + sg_len x + segs_size enc segs1)) with
    (off + overhead enc + sg_len x + segs_size enc segs1) by lia.
  destruct (sg_payload x); [|done]. cbn [app]. by rewrite IH.
Qed.

(** ** Appending *)

(** The part of the file that counts. *)
Definition content (lf : LogFile) : list Z := take (Z.to_nat (lf_size lf)) (lf_disk lf).

Lemma overwrite_at disk off bs :
  0 <= off <= flen disk ->
  exists post, overwrite disk off bs = take (Z.to_nat off) disk ++ bs ++ post /\
    (flen disk = off -> post = []).
Proof.
  intros Ho. unfold overwrite, flen in *. destruct bs as [|b bs].
  - exists (drop (Z.to_nat off) disk). cbn [app]. rewrite take_drop. split; [done|].
    intros. apply drop_ge. lia.
  - exists (drop (Z.to_nat off + length (b :: bs)) disk).
    rewrite take_app_le by lia. split; [done|]. intros. apply drop_ge. lia.
Qed.

(** Writing pieces at the end of a prefix: the prefix stays; on success the
    pieces follow it, on failure a proper prefix of them does. *)
Lemma write_all_spec pieces pre rest w disk' ok :
  write_all (pre ++ rest) (flen pre) pieces w = (disk', ok) ->
  exists k post, disk' = pre ++ take k (concat pieces) ++ post /\ (rest = [] -> post = []) /\
    (ok = true -> (length (concat pieces) <= k)%nat) /\
    (ok = false -> (k < length (concat pieces))%nat).
Proof.
  revert pre rest w. induction pieces as [|p pieces IH]; intros pre rest w E; cbn [write_all concat] in *.
  { injection E as <- <-. exists 0%nat, rest. cbn. split_and!; try done. }
  assert (forall x, exists post, overwrite (pre ++ rest) (flen pre) x = pre ++ x ++ post /\
    (rest = [] -> post = [])) as Hov.
  { intros x. destruct (overwrite_at (pre ++ rest) (flen pre) x) as (post & -> & Hp).
    { unfold flen. rewrite length_app. lia. }
    exists post. split; [unfold flen; by rewrite Nat2Z.id, take_app_length|].
    intros ->. apply Hp. by rewrite app_nil_r. }
  destruct (write_full (pre ++ rest) (flen pre) p (w 0%nat)) as [d1 ok1] eqn:Ew. unfold write_full in Ew.
  assert ((ok1 = true /\ d1 = overwrite (pre ++ rest) (flen pre) p) \/
    (ok1 = false /\ exists n, (n < length p)%nat /\ d1 = overwrite (pre ++ rest) (flen pre) (take n p)))
    as [[-> ->]|[-> (n & Hn & ->)]].
  { destruct (w 0%nat) as [n|]; [|by left; injection Ew as <- <-].
    destruct (Nat.ltb_spec n (length p)); injection Ew as <- <-; [right; eauto|by left]. }
  - destruct (Hov p) as (post & Hd & Hpost). rewrite Hd, (assoc_L (++)) in E.
    replace (flen pre + Z.of_nat (length p)) with (flen (pre ++ p)) in E
      by (unfold flen; rewrite length_app; lia).
    destruct (IH _ _ _ E) as (k & post' & -> & Hr & Ht & Hf).
    exists (length p + k)%nat, post'. rewrite take_app_add, <- !(assoc_L (++)), length_app.
    split_and!; [done|auto|intros; specialize (Ht H0); lia|intros; specialize (Hf H0); lia].
  - injection E as <- <-. destruct (Hov (take n p)) as (post & -> & Hpost).
    exists n, post. rewrite take_app_le by lia. rewrite length_app.
    split_and!; [done|done|done|lia].
Qed.

(** The segment of an acknowledged payload. *)
Definition good_seg (enc : bool) (key nonce payload : list Z) : Seg :=
  mkSeg (frame_bytes enc key nonce payload) (Z.of_nat (length payload)) (Some payload).

(** The log's content is the frames [segs], each intact. *)
Record log_holds (lf : LogFile) (segs : list Seg) : Prop := {
  lh_ok : Forall (seg_ok (lf_encrypted lf) (lf_key lf)) segs;
  lh_intact : forallb intact segs = true;
  lh_content : content lf = segs_bytes segs;
  lh_size : lf_size lf = flen (segs_bytes segs)
}.

Lemma log_append_pieces lf payload nonce w lf' r nc :
  log_append aok lf payload nonce w = (lf', r) -> payload_ok payload -> nonce = Some nc \/ nonce = None ->
  (lf' = lf /\ r = None) \/
  exists pieces, concat pieces = frame_bytes (lf_encrypted lf) (lf_key lf) nc payload /\
    append_pieces lf pieces (lf_size lf + overhead (lf_encrypted lf) + Z.of_nat (length payload)) w = (lf', r).
Proof.
  intros E [Hb Hl] Hnonce. unfold log_append in E. rewrite Z.gtb_ltb in E.
  destruct (Z.ltb_spec 0xFFFFFFFF (Z.of_nat (length payload))); [lia|].
  unfold frame_bytes. destruct (lf_encrypted lf) eqn:Ee.
  - unfold log_append_encrypted in E. destruct Hnonce as [-> | ->]; [|left; by injection E as <- <-].
    cbn [aok negb] in E. right.
    destruct (as_seal _ nc _ payload) as [ct tag]. eexists. split; [|exact E].
    cbn [concat]. by rewrite app_nil_r.
  - right. exists [build_header (Z.of_nat (length payload)) (crc32_compute payload); payload].
    split; [cbn [concat]; by rewrite app_nil_r|exact E].
Qed.

Lemma log_holds_split lf segs :
  log_holds lf segs -> exists rest, lf_disk lf = segs_bytes segs ++ rest /\
    (flen (lf_disk lf) = lf_size lf -> rest = []).
Proof.
  intros [Hok Hi Hc Hs]. exists (drop (Z.to_nat (lf_size lf)) (lf_disk lf)).
  unfold content in Hc. rewrite <- Hc, take_drop. split; [done|]. unfold flen. intros. apply drop_ge. lia.
Qed.

Lemma log_holds_intro lf segs rest :
  Forall (seg_ok (lf_encrypted lf) (lf_key lf)) segs -> forallb intact segs = true ->
  lf_disk lf = segs_bytes segs ++ rest -> lf_size lf = flen (segs_bytes segs) -> log_holds lf segs.
Proof.
  intros Hok Hi Hd Hs. split; try done. unfold content. rewrite Hs, Hd. unfold flen.
  by rewrite Nat2Z.id, take_app_length.
Qed.

Lemma segs_bytes_snoc segs s : segs_bytes (segs ++ [s]) = segs_bytes segs ++ sg_bytes s.
Proof. unfold segs_bytes. rewrite map_app, concat_app. cbn. by rewrite app_nil_r. Qed.

(** An append either adds its frame or leaves the content alone; a failure on
    a file without leftovers leaves a proper prefix of the frame behind. *)
Lemma log_append_holds lf segs payload nonce w lf' r nc :
  log_holds lf segs -> payload_ok payload -> nonce_ok nc -> nonce = Some nc \/ nonce = None ->
  log_append aok lf payload nonce w = (lf', r) ->
  lf_encrypted lf' = lf_encrypted lf /\ lf_key lf' = lf_key lf /\
  match r with
  | Some off =>
      off = lf_size lf /\ log_holds lf' (segs ++ [good_seg (lf_encrypted lf) (lf_key lf) nc payload]) /\
      (flen (lf_disk lf) = lf_size lf -> flen (lf_disk lf') = lf_size lf')
  | None =>
      log_holds lf' segs /\ lf_size lf' = lf_size lf /\
      (flen (lf_disk lf) = lf_size lf ->
       exists k, (k < length (frame_bytes (lf_encrypted lf) (lf_key lf) nc payload))%nat /\
         lf_disk lf' = segs_bytes segs ++ take k (frame_bytes (lf_encrypted lf) (lf_key lf) nc payload))
  end.
Proof.
  intros Hh Hp Hnc Hnonce E. destruct (log_holds_split _ _ Hh) as (rest & Hd & Hrest).
  pose proof (frame_bytes_is (lf_encrypted lf) (lf_key lf) nc payload Hp Hnc) as Hfr.
  destruct (frame_is_length _ _ _ _ _ Hfr) as [Hfl _]. pose proof (hdr_len_pos (lf_encrypted lf)).
  destruct (log_append_pieces _ _ _ _ _ _ nc E Hp Hnonce) as [[-> ->]|(pieces & Hcat & Ea)].
  { split_and!; try done. intros Hfull. exists 0%nat. unfold flen in Hfl. split; [lia|].
    rewrite Hd, (Hrest Hfull). done. }
  unfold append_pieces in Ea. rewrite (lh_size _ _ Hh), Hd in Ea.
  destruct (write_all _ _ pieces w) as [disk' ok] eqn:Ew.
  destruct (write_all_spec _ _ _ _ _ _ Ew) as (k & post & -> & Hpost & Ht & Hf). rewrite Hcat in *.
  destruct Hh as [Hok Hi Hc Hs].
  destruct ok; injection Ea as <- <-; cbn [advance set_disk lf_encrypted lf_key lf_size lf_disk].
  - split_and!; try done.
    + apply (log_holds_intro _ _ post).
      * apply Forall_app_2; [done|by apply Forall_singleton].
      * by rewrite forallb_app, Hi.
      * cbn. rewrite segs_bytes_snoc, <- (assoc_L (++)). cbn. rewrite take_ge by auto. done.
      * cbn [advance set_disk lf_size]. rewrite segs_bytes_snoc. unfold flen in *.
        cbn [good_seg sg_bytes]. rewrite length_app. lia.
    + intros Hfull. rewrite (Hpost (Hrest Hfull)), take_ge by auto. unfold flen in *.
      rewrite !length_app. cbn [length]. lia.
  - split_and!; try done.
    + by eapply (log_holds_intro _ _ (take k _ ++ post)).
    + intros Hfull. exists k. split; [auto|]. rewrite (Hpost (Hrest Hfull)). by rewrite app_nil_r.
Qed.

(** ** Operations *)

Inductive LogOp :=
  | OpAppend (payload : list Z) (nonce : option (list Z)) (w : nat -> option nat)
  | OpFsync (sync : bool)
  | OpFsyncBatched (sync : bool).

(** The random source yields 24 bytes or fails. *)
Definition op_ok (op : LogOp) : Prop :=
  match op with
  | OpAppend payload nonce _ =>
      payload_ok payload /\ match nonce with Some nc => nonce_ok nc | None => True end
  | _ => True
  end.

(** The log and what it acknowledged, in order. *)
Definition run_op (st : LogFile * list (Z * list Z)) (op : LogOp) : LogFile * list (Z * list Z) :=
  let '(lf, acked) := st in
  match op with
  | OpAppend payload nonce w =>
      let '(lf, r) := log_append aok lf payload nonce w in
      (lf, match r with Some off => acked ++ [(off, payload)] | None => acked end)
  | OpFsync sync => (fst (log_fsync lf sync), acked)
  | OpFsyncBatched sync => (fst (log_fsync_if_batched lf sync), acked)
  end.

Definition run_ops (lf : LogFile) (ops : list LogOp) : LogFile * list (Z * list Z) :=
  foldl run_op (lf, []) ops.

(** A newly created log. *)
Definition new_log (batch : Z) (key : option (list Z)) : LogFile :=
  mkLog true [] 0 0 batch (match key with Some _ => true | None => false end) (default [] key).

Lemma delivered_snoc enc segs s off :
  delivered enc off (segs ++ [s])
  = delivered enc off segs ++ match sg_payload s with Some p => [(off + segs_size enc segs, p)] | None => [] end.
Proof.
  revert off. induction segs as [|x segs IH]; intros off; cbn [delivered app segs_size foldr].
  { rewrite Z.add_0_r. by destruct (sg_payload s). }
  fold (segs_size enc segs). rewrite IH.
  replace (off + (overhead enc + sg_len x + segs_size enc segs)) with
    (off + overhead enc + sg_len x + segs_size enc segs) by lia.
  by destruct (sg_payload x).
Qed.

(** What a run leaves: the acknowledged payloads as intact frames. *)
Definition log_acked (lf : LogFile) (acked : list (Z * list Z)) : Prop :=
  exists segs, log_holds lf segs /\ delivered (lf_encrypted lf) 0 segs = acked.

Lemma set_since_holds lf v acked : log_acked lf acked -> log_acked (set_since lf v) acked.
Proof. intros (segs & [? ? ? ?] & ?). by exists segs. Qed.

Lemma ex_nonce_ok : nonce_ok (replicate 24 0).
Proof. split; [|done]. apply Forall_replicate. split; [lia|done]. Qed.

Lemma run_op_acked lf acked op :
  log_acked lf acked -> op_ok op ->
  let '(lf', acked') := run_op (lf, acked) op in
  log_acked lf' acked' /\ lf_encrypted lf' = lf_encrypted lf /\ lf_key lf' = lf_key lf.
Proof.
  intros Ha Hop. destruct op as [payload nonce w|sync|sync]; cbn [run_op].
  - destruct Hop as [Hp Hn]. destruct Ha as (segs & Hh & Hdel).
    destruct (log_append aok lf payload nonce w) as [lf' r] eqn:E.
    assert (exists nc, nonce_ok nc /\ (nonce = Some nc \/ nonce = None)) as (nc & Hnc & Hnn).
    { destruct nonce as [nc|]; [by exists nc; auto|]. exists (replicate 24 0). split; [apply ex_nonce_ok|by right]. }
    destruct (log_append_holds _ _ _ _ _ _ _ nc Hh Hp Hnc Hnn E) as (He & Hk & Hr).
    split; [|done]. destruct r as [off|].
    + destruct Hr as (-> & Hh' & _). eexists. split; [exact Hh'|]. rewrite He, delivered_snoc, Hdel. cbn.
      rewrite (segs_size_bytes _ (lf_key lf)) by apply Hh. by rewrite (lh_size _ _ Hh).
    + destruct Hr as [Hh' _]. exists segs. by rewrite He.
  - unfold log_fsync. destruct (negb (lf_open lf)), sync; cbn [fst]; split_and!; auto using set_since_holds.
  - unfold log_fsync_if_batched. 
    destruct (negb (lf_open lf)), ((lf_fsync_batch lf =? 0) || (lf_fsync_batch lf <=? lf_since_fsync lf)), sync;
      cbn [fst];
      split_and!; auto using set_since_holds.
Qed.

Lemma run_ops_acked ops lf acked :
  log_acked lf acked -> Forall op_ok ops ->
  let '(lf', acked') := foldl run_op (lf, acked) ops in
  log_acked lf' acked' /\ lf_encrypted lf' = lf_encrypted lf /\ lf_key lf' = lf_key lf.
Proof.
  revert lf acked. induction ops as [|op ops IH]; intros lf acked Ha Hops; cbn [foldl]; [done|].
  apply Forall_cons in Hops as [Hop Hops]. pose proof (run_op_acked lf acked op Ha Hop) as H1.
  destruct (run_op (lf, acked) op) as [lf1 acked1]. destruct H1 as (H1 & H2 & H3).
  specialize (IH lf1 acked1 H1 Hops). destruct (foldl run_op (lf1, acked1) ops) as [lf' acked'].
  by rewrite <- H2, <- H3.
Qed.

Lemma new_log_acked batch key : log_acked (new_log batch key) [].
Proof. exists []. split; [|done]. split; done. Qed.

(** ** What a scan and the reads return *)

Lemma delivered_length enc segs off : forallb intact segs = true -> length (delivered enc off segs) = length segs.
Proof.
  revert off. induction segs as [|s segs IH]; intros off Hi; [done|].
  cbn [forallb] in Hi. apply andb_true_iff in Hi as [Hs Hi]. cbn [delivered length].
  unfold intact in Hs. destruct (sg_payload s); [|done]. cbn. by rewrite IH.
Qed.

Lemma torn_nil enc : torn enc [].
Proof. left. pose proof (hdr_len_pos enc). unfold flen. cbn. lia. Qed.

Lemma torn_prefix enc key fb len r k :
  frame_is enc key fb len r -> (k < length fb)%nat -> torn enc (take k fb).
Proof.
  intros Hfr Hk. destruct (frame_is_length _ _ _ _ _ Hfr) as [Hfl _].
  destruct Hfr as (hdr & body & pcrc & -> & Hh & Hb & Hl & Hp & _).
  destruct (Z.lt_ge_cases (flen (take k (hdr ++ body))) (hdr_len enc)) as [?|Hge]; [by left|right].
  exists len, pcrc. unfold flen in *. rewrite length_take in *.
  rewrite take_take, Nat.min_l by lia. rewrite take_app_length' by lia. split; [done|lia].
Qed.

Lemma scan_acked lf acked t g :
  log_acked lf acked -> torn (lf_encrypted lf) t -> lf_disk lf = content lf ++ t ++ g ->
  forall lf', lf_disk lf' = lf_disk lf -> lf_encrypted lf' = lf_encrypted lf -> lf_key lf' = lf_key lf ->
  log_scan rok aok collect_cb lf' 0 (lf_size lf + flen t) []
    = (acked, Some (mkScan (lf_size lf) (Z.of_nat (length acked)) 0 false)).
Proof.
  intros (segs & [Hok Hi Hc Hs] & <-) Ht Hd lf' Hd' He Hk.
  rewrite (log_scan_segments lf' segs t g).
  - rewrite He, scan_spec_intact by done. cbn [fst snd]. rewrite delivered_length by done.
    do 3 f_equal. by rewrite (segs_size_bytes _ (lf_key lf)), Hs.
  - by rewrite He, Hk.
  - by rewrite He.
  - by rewrite Hd', Hd, Hc.
  - by rewrite Hs.
Qed.

Lemma delivered_read lf segs pre post off p :
  Forall (seg_ok (lf_encrypted lf) (lf_key lf)) segs -> lf_disk lf = pre ++ segs_bytes segs ++ post ->
  (off, p) ∈ delivered (lf_encrypted lf) (flen pre) segs -> log_read rok aok lf off = Some p.
Proof.
  intros Hok. revert pre. induction Hok as [|s segs Hs _ IH]; intros pre Hd Hin; [by apply elem_of_nil in Hin|].
  cbn [segs_bytes map concat] in Hd. rewrite <- (assoc_L (++)) in Hd. fold (segs_bytes segs) in Hd.
  cbn [delivered] in Hin. destruct (frame_is_length _ _ _ _ _ Hs) as [Hfl _].
  assert ((off, p) ∈ delivered (lf_encrypted lf) (flen pre + overhead (lf_encrypted lf) + sg_len s) segs ->
    log_read rok aok lf off = Some p) as Hrest.
  { intros Hin'. apply (IH (pre ++ sg_bytes s)); [by rewrite Hd, <- (assoc_L (++))|].
    replace (flen (pre ++ sg_bytes s)) with (flen pre + overhead (lf_encrypted lf) + sg_len s); [done|].
    unfold flen in *. rewrite length_app. lia. }
  destruct (sg_payload s) as [q|] eqn:Eq; [|by apply Hrest].
  apply elem_of_cons in Hin as [[= -> ->]|Hin]; [|by apply Hrest].
  destruct (frame_read _ _ pre (sg_bytes s) (segs_bytes segs ++ post) _ _ (flen pre) Hs eq_refl)
    as (hdr & pcrc & Hrd & Hparse & Hpay). rewrite <- Hd in Hrd, Hpay.
  assert (log_read_mode rok aok (lf_encrypted lf) lf (flen pre) = Some q) as Hm.
  { unfold log_read_mode. rewrite Hrd, Hparse. cbn [aok negb]. by rewrite Hpay, Eq. }
  unfold log_read, log_read_encrypted. by destruct (lf_encrypted lf).
Qed.

Lemma acked_disk lf acked : log_acked lf acked -> exists g, lf_disk lf = content lf ++ g.
Proof. intros _. exists (drop (Z.to_nat (lf_size lf)) (lf_disk lf)). unfold content. by rewrite take_drop. Qed.

Lemma acked_read lf acked off p : log_acked lf acked -> (off, p) ∈ acked -> log_read rok aok lf off = Some p.
Proof.
  intros Ha. destruct (acked_disk _ _ Ha) as [g Hd]. destruct Ha as (segs & [Hok Hi Hc Hs] & <-).
  intros Hin. apply (delivered_read lf segs [] g); [done|by rewrite Hd, Hc|done].
Qed.
End log.

(** ** Claims *)

(** C20: Whatever sequence of appends and flushes a new log goes through, with
    appends failing at any byte, scanning it delivers exactly the acknowledged
    payloads in order at the offsets that were returned, reports no damage
    and keeps everything; reading any of those offsets returns its payload.
    Holds for plaintext and encrypted logs. *)
Theorem log_contents_exact `{AeadScheme} batch key ops :
  Forall op_ok ops ->
  let '(lf, acked) := run_ops (new_log batch key) ops in
  log_scan rok aok collect_cb lf 0 (lf_size lf) []
    = (acked, Some (mkScan (lf_size lf) (Z.of_nat (length acked)) 0 false)) /\
  Forall (fun '(off, p) => log_read rok aok lf off = Some p) acked.
Proof.
  intros Hops. pose proof (run_ops_acked ops _ _ (new_log_acked batch key) Hops) as Hrun.
  unfold run_ops. destruct (foldl run_op _ ops) as [lf acked]. destruct Hrun as (Ha & _).
  split.
  - destruct (acked_disk _ _ Ha) as [g Hd].
    pose proof (scan_acked lf acked [] g Ha (torn_nil _) Hd lf eq_refl eq_refl eq_refl) as Hs.
    unfold flen in Hs. cbn [length] in Hs. by rewrite Z.add_0_r in Hs.
  - apply Forall_forall. intros [off p] Hin. by apply (acked_read lf acked).
Qed.

(** The log as a restart sees the file. *)
Definition reopened (lf : LogFile) : LogFile :=
  mkLog true (lf_disk lf) (flen (lf_disk lf)) 0 (lf_fsync_batch lf) (lf_encrypted lf) (lf_key lf).

Lemma log_truncate_content lf lf' : content lf' = content lf -> 0 <= lf_size lf <= flen (lf_disk lf') ->
  lf_size lf' = lf_size lf -> lf_disk (fst (log_truncate (reopened lf') (lf_size lf) true)) = content lf.
Proof.
  intros Hc Hs Hz. unfold log_truncate. cbn [fst lf_disk reopened]. rewrite <- Hc. unfold content. rewrite Hz.
  unfold flen in Hs. replace (_ - length (lf_disk lf'))%nat with 0%nat by lia. by rewrite app_nil_r.
Qed.

(** C19: After any run of appends (each of which may have failed at any byte)
    and flushes, interrupt one more append at any byte and restart. The scan
    delivers every acknowledged payload, in order, at its offset, and behind
    them only payloads of whole frames found in the bytes past the last
    acknowledged frame. When there is no such frame, it tells to cut the file
    back to the end of the acknowledged frames, which restores their bytes
    exactly. When no earlier append left bytes behind (every earlier one was
    complete), nothing else is delivered and no corruption is counted. *)
Theorem log_crash_recovery `{AeadScheme} batch key ops payload nonce w :
  Forall op_ok ops -> op_ok (OpAppend payload nonce w) ->
  let '(lf, acked) := run_ops (new_log batch key) ops in
  let '(lf', r) := log_append aok lf payload nonce w in
  r = None ->
  let lf2 := reopened lf' in
  exists extra res,
  log_scan rok aok collect_cb lf2 0 (lf_size lf2) [] = (acked ++ extra, Some res) /\
  Forall (fun '(off, p) => lf_size lf <= off /\ frame_here lf2 (lf_size lf2) off p) extra /\
  (extra = [] -> truncate_to res = lf_size lf /\ good_frames res = Z.of_nat (length acked) /\
    recovered_after_hole res = false /\ lf_disk (fst (log_truncate lf2 (truncate_to res) true)) = content lf) /\
  (flen (lf_disk lf) = lf_size lf -> extra = [] /\ corrupt_frames res = 0).
Proof.
  intros Hops [Hp Hn]. pose proof (run_ops_acked ops _ _ (new_log_acked batch key) Hops) as Hrun.
  unfold run_ops. destruct (foldl run_op _ ops) as [lf acked]. destruct Hrun as (Ha & _).
  destruct (log_append aok lf payload nonce w) as [lf' r] eqn:E. intros ->.
  assert (exists nc, nonce_ok nc /\ (nonce = Some nc \/ nonce = None)) as (nc & Hnc & Hnn).
  { destruct nonce as [nc|]; [by exists nc; auto|]. exists (replicate 24 0). split; [apply ex_nonce_ok|by right]. }
  destruct Ha as (segs & Hh & Hdel).
  destruct (log_append_holds _ _ _ _ _ _ _ nc Hh Hp Hnc Hnn E) as (He & Hk & Hh' & Hsz & Hcut). cbv zeta.
  destruct (log_holds_split _ _ Hh') as (rest & Hd & _). pose proof (lh_size _ _ Hh) as Hsize.
  destruct (log_scan_tail (reopened lf') [] segs rest) as (extra & res & Hscan & Hex & Hsil & Hres);
    [apply Hh'|apply Hh'|exact Hd|]. cbn [app segs_bytes map concat] in *. fold (segs_bytes segs) in *.
  change (flen []) with 0 in *. cbn [reopened lf_encrypted] in Hscan. rewrite He, Hdel in Hscan.
  exists extra, res. split; [exact Hscan|]. rewrite Hsize. split; [exact Hex|]. split.
  - intros Hnil. destruct (Hres Hnil) as [c ->]. cbn [truncate_to good_frames recovered_after_hole].
    rewrite <- Hdel, delivered_length by apply Hh. split_and!; try done. rewrite <- Hsize.
    apply log_truncate_content; [by rewrite (lh_content _ _ Hh), (lh_content _ _ Hh')| |done].
    rewrite Hsize, Hd. unfold flen. rewrite length_app. lia.
  - intros Hfull. rewrite <- Hsize in Hfull. destruct (Hcut Hfull) as (k & Hkl & Hd').
    pose proof (torn_prefix _ _ _ _ _ k (frame_bytes_is (lf_encrypted lf) (lf_key lf) nc payload Hp Hnc) Hkl) as Ht.
    set (t := take k _) in *. pose proof (scan_acked lf' acked t []) as Hsa.
    specialize (Hsa ltac:(exists segs; split; [done|by rewrite He]) ltac:(by rewrite He)
      ltac:(by rewrite app_nil_r, Hd', (lh_content _ _ Hh')) (reopened lf') eq_refl eq_refl eq_refl).
    replace (lf_size lf' + flen t) with (flen (lf_disk (reopened lf'))) in Hsa
      by (cbn [reopened lf_disk]; rewrite Hd', Hsz, Hsize; unfold flen; rewrite length_app; lia).
    rewrite Hscan in Hsa. injection Hsa as Hnil ->. split; [|done].
    by apply (app_inv_head acked); rewrite app_nil_r.
Qed.

(** ** Bytes a cut append leaves *)

(** A plaintext append whose payload holds a frame, cut just behind it, and a
    shorter append after it, cut behind its header. *)
Definition left_payload : list Z := [0] ++ frame_bytes false [] [] [7; 7] ++ [1; 2; 3].
Definition left_ops : list LogOp :=
  [OpAppend left_payload None (fun i => match i with O => None | _ => Some 20%nat end)].

(** A failed append leaves its bytes in the file past the size and nothing
    removes them: the restart after the second cut delivers the inner frame,
    which no append ever wrote as one, and keeps the file. *)
Example left_bytes_phantom :
  let '(lf, acked) := run_ops (new_log 0 None) left_ops in
  let lf2 := reopened (fst (log_append aok lf [5] None (fun i => match i with O => None | _ => Some 0%nat end))) in
  acked = [] /\ lf_size lf = 0 /\
  log_scan rok aok collect_cb lf2 0 (lf_size lf2) [] = ([(17, [7; 7])], Some (mkScan 36 1 1 true)).
Proof. vm_compute. split_and!; reflexivity. Qed.

(** The same when the second append succeeds and the process restarts. *)
Example left_bytes_phantom_acked :
  let '(lf, acked) := run_ops (new_log 0 None) (left_ops ++ [OpAppend [5] None (fun _ => None)]) in
  acked = [(0, [5])] /\
  log_scan rok aok collect_cb (reopened lf) 0 (lf_size (reopened lf)) []
    = ([(0, [5]); (17, [7; 7])], Some (mkScan 35 2 0 false)).
Proof. vm_compute. split_and!; reflexivity. Qed.

(** ** Witnesses *)

Definition wit_key : list Z := map Z.of_nat (seq 7 32).
Definition wit_nonce : list Z := map Z.of_nat (seq 50 24).
Definition wit_ops : list LogOp :=
  [OpAppend [1; 2; 3] (Some wit_nonce) (fun _ => None); OpFsync true;
   OpAppend [] (Some wit_nonce) (fun _ => None); OpAppend [9; 9] None (fun _ => None);
   OpAppend [4; 5] (Some wit_nonce) (fun _ => None)].

Lemma wit_payload p : Forall (fun b => 0 <= b < 256) p -> (length p <= 100)%nat -> payload_ok p.
Proof. intros. split; [done|lia]. Qed.

Lemma wit_nonce_ok : nonce_ok wit_nonce.
Proof. split; [|done]. apply (bool_decide_unpack (bytes_ok wit_nonce)). by vm_compute. Qed.

Lemma wit_append_ok p nonce w :
  Forall (fun b => 0 <= b < 256) p -> (length p <= 100)%nat -> nonce = Some wit_nonce \/ nonce = None ->
  op_ok (OpAppend p nonce w).
Proof. intros ? ? [-> | ->]; (split; [by apply wit_payload|]); [apply wit_nonce_ok|done]. Qed.

Lemma wit_ops_ok : Forall op_ok wit_ops.
Proof.
  repeat constructor; try apply wit_nonce_ok; try apply wit_payload; cbn; try lia; repeat constructor; lia.
Qed.

Lemma log_contents_exact_witness :
  Forall op_ok wit_ops /\
  let '(lf, acked) := run_ops (new_log 0 (Some wit_key)) wit_ops in
  log_scan rok aok collect_cb lf 0 (lf_size lf) []
    = (acked, Some (mkScan (lf_size lf) (Z.of_nat (length acked)) 0 false)) /\
  Forall (fun '(off, p) => log_read rok aok lf off = Some p) acked.
Proof. split; [apply wit_ops_ok|]. apply (log_contents_exact 0 (Some wit_key) wit_ops wit_ops_ok). Defined.

(** One run without and one with bytes left by a cut append. *)
Definition wit_cut : nat -> option nat := fun i => match i with O => None | _ => Some 1%nat end.

Lemma left_ops_ok : Forall op_ok left_ops.
Proof.
  apply Forall_singleton. split; [|done]. split; [|vm_compute; discriminate].
  apply (bool_decide_unpack (bytes_ok left_payload)). by vm_compute.
Qed.

Lemma log_crash_recovery_witness :
  (let '(lf, acked) := run_ops (new_log 0 None) wit_ops in
   flen (lf_disk lf) = lf_size lf /\
   let lf2 := reopened (fst (log_append aok lf [8; 8; 8] None wit_cut)) in
   exists extra res, log_scan rok aok collect_cb lf2 0 (lf_size lf2) [] = (acked ++ extra, Some res) /\
     extra = [] /\ corrupt_frames res = 0) /\
  (let '(lf, acked) := run_ops (new_log 0 None) left_ops in
   flen (lf_disk lf) <> lf_size lf /\
   let lf2 := reopened (fst (log_append aok lf [5; 5] None wit_cut)) in
   exists extra res, log_scan rok aok collect_cb lf2 0 (lf_size lf2) [] = (acked ++ extra, Some res) /\
     Forall (fun '(off, p) => lf_size lf <= off /\ frame_here lf2 (lf_size lf2) off p) extra).
Proof.
  split.
  - pose proof (log_crash_recovery 0 None wit_ops [8; 8; 8] None wit_cut wit_ops_ok) as T.
    specialize (T ltac:(apply wit_append_ok; [repeat constructor; lia|cbn; lia|by right])).
    destruct (run_ops (new_log 0 None) wit_ops) as [lf acked] eqn:E. vm_compute in E. injection E as <- <-.
    split; [vm_compute; reflexivity|]. cbv zeta.
    destruct (log_append aok _ [8; 8; 8] None _) as [lf' r] eqn:E2.
    destruct T as (extra & res & H1 & _ & _ & H4); [vm_compute in E2; by injection E2 as <- <-|].
    exists extra, res. split; [exact H1|]. apply H4. vm_compute. reflexivity.
  - pose proof (log_crash_recovery 0 None left_ops [5; 5] None wit_cut) as T.
    specialize (T left_ops_ok).
    specialize (T ltac:(apply wit_append_ok; [repeat constructor; lia|cbn; lia|by right])).
    destruct (run_ops (new_log 0 None) left_ops) as [lf acked] eqn:E. vm_compute in E. injection E as <- <-.
    split; [vm_compute; discriminate|]. cbv zeta.
    destruct (log_append aok _ [5; 5] None _) as [lf' r] eqn:E2.
    destruct T as (extra & res & H1 & H2 & _); [vm_compute in E2; by injection E2 as <- <-|].
    exists extra, res. split; [exact H1|exact H2].
Defined.
