(* ===== verification/LogFaults.v ===== *)
(** * Damage, resynchronisation, opening and migration of the log *)

From S2P Require Import Prelude Endian Crc32 Aead AeadCorrect Log LogCorrect.

(** ** The windowed search finds the first frame *)

Section resync.
Context `{AeadScheme}.

(** A structurally valid frame starts at [off] and fits before [end_]. *)
Definition frame_at (lf : LogFile) (end_ off : Z) : bool :=
  match read_full rok (lf_disk lf) off (hdr_len (lf_encrypted lf)) with
  | None => false
  | Some hdr =>
      match parse_any (lf_encrypted lf) hdr with
      | None => false
      | Some (len, _) => off + overhead (lf_encrypted lf) + len <=? end_
      end
  end.

Lemma parse_any_magic enc hdr r : parse_any enc hdr = Some r -> aegis_get_u32le hdr = want_magic enc.
Proof.
  unfold parse_any, parse_header, parse_header_v3, want_magic. destruct enc.
  - destruct (Z.eqb_spec (aegis_get_u32le hdr) LOG_FRAME_MAGIC_ENC); [done|discriminate].
  - destruct (Z.eqb_spec (aegis_get_u32le hdr) LOG_FRAME_MAGIC); [done|discriminate].
Qed.

Lemma get_u32_prefix a b k : (4 <= k)%nat -> take k a = take k b -> aegis_get_u32le a = aegis_get_u32le b.
Proof.
  intros Hk E. unfold aegis_get_u32le, byte_at.
  assert (forall i, (i < 4)%nat -> a !! i = b !! i) as Hi.
  { intros i Hlt. rewrite <- (lookup_take_lt a k i), <- (lookup_take_lt b k i), E by lia. done. }
  by rewrite !Hi by lia.
Qed.

(** The first frame among the [n] offsets from [from] on. *)
Definition first_frame (lf : LogFile) (end_ from : Z) (n : Z) (r : option Z) : Prop :=
  match r with
  | Some off => from <= off < from + n /\ frame_at lf end_ off = true /\
      forall o, from <= o < off -> frame_at lf end_ o = false
  | None => forall o, from <= o < from + n -> frame_at lf end_ o = false
  end.

Lemma first_frame_step lf end_ from n r :
  frame_at lf end_ from = false -> first_frame lf end_ (from + 1) n r -> first_frame lf end_ from (n + 1) r.
Proof.
  intros Hf. destruct r as [off|]; cbn.
  - intros (Hr & Ht & Hb). split_and!; [lia|lia|done|]. intros o Ho.
    destruct (decide (o = from)) as [->|]; [done|]. apply Hb. lia.
  - intros Hb o Ho. destruct (decide (o = from)) as [->|]; [done|]. apply Hb. lia.
Qed.

Lemma first_frame_app lf end_ from n k r :
  0 <= n -> 0 <= k -> first_frame lf end_ from n None -> first_frame lf end_ (from + n) k r ->
  first_frame lf end_ from (n + k) r.
Proof.
  intros Hn Hk H1. destruct r as [off|]; cbn.
  - intros (Hr & Ht & Hb). split_and!; [lia|lia|done|]. intros o Ho.
    destruct (Z.lt_ge_cases o (from + n)); [apply H1; lia|apply Hb; lia].
  - intros Hb o Ho. destruct (Z.lt_ge_cases o (from + n)); [apply H1; lia|apply Hb; lia].
Qed.

(** A window of [m] bytes scanned over [n] positions. *)
Lemma win_search_spec lf end_ base n i m w :
  0 <= base + i -> base + i + Z.of_nat n - 1 + hdr_len (lf_encrypted lf) <= end_ ->
  end_ <= flen (lf_disk lf) -> w = take m (drop (Z.to_nat (base + i)) (lf_disk lf)) ->
  (n = 0 \/ n + 3 <= m)%nat ->
  first_frame lf end_ (base + i) (Z.of_nat n) (win_search rok lf end_ base n i w).
Proof.
  revert i m w. induction n as [|n IH]; intros i m w Hb Hend Hdisk Hw Hm.
  { intros o Ho. lia. }
  cbn [win_search]. pose proof (hdr_len_pos (lf_encrypted lf)) as Hh.
  assert (first_frame lf end_ (base + i + 1) (Z.of_nat n)
    (win_search rok lf end_ base n (i + 1) (drop 1 w))) as Hnext.
  { replace (base + i + 1) with (base + (i + 1)) by lia. apply (IH (i + 1) (m - 1)%nat); [lia|lia|done| |lia].
    rewrite Hw, skipn_firstn_comm, drop_drop. do 2 f_equal. lia. }
  assert (forall hdr, read_full rok (lf_disk lf) (base + i) (hdr_len (lf_encrypted lf)) = Some hdr ->
    aegis_get_u32le hdr = aegis_get_u32le w) as Hsame.
  { intros hdr Hr. unfold read_full in Hr. destruct (_ || _ || _); [done|]. injection Hr as <-.
    apply (get_u32_prefix _ _ 4); [lia|]. rewrite Hw. unfold slice. rewrite !take_take. f_equal.
    assert (4 <= hdr_len (lf_encrypted lf)) by (destruct (lf_encrypted lf); done). lia. }
  replace (Z.of_nat (S n)) with (Z.of_nat n + 1) by lia.
  assert (frame_at lf end_ (base + i) = false ->
    first_frame lf end_ (base + i) (Z.of_nat n + 1) (win_search rok lf end_ base n (i + 1) (drop 1 w))) as Hskip
    by (intros; by apply first_frame_step).
  destruct (Z.eqb_spec (aegis_get_u32le w) (want_magic (lf_encrypted lf))) as [Em|Em]; cbn [negb].
  - cbv zeta. unfold frame_at in Hskip at 1.
    destruct (read_full rok (lf_disk lf) (base + i) (hdr_len (lf_encrypted lf))) as [hdr|] eqn:Er; [|by apply Hskip].
    destruct (parse_any (lf_encrypted lf) hdr) as [[len pc]|] eqn:Ep; [|by apply Hskip].
    rewrite Z.gtb_ltb. destruct (Z.ltb_spec end_ (base + i + overhead (lf_encrypted lf) + len)).
    + apply Hskip. apply Z.leb_gt. lia.
    + split_and!; [lia|lia| |intros o Ho; lia]. unfold frame_at. rewrite Er, Ep. by apply Z.leb_le.
  - apply Hskip. unfold frame_at.
    destruct (read_full rok (lf_disk lf) (base + i) (hdr_len (lf_encrypted lf))) as [hdr|] eqn:Er; [|done].
    destruct (parse_any (lf_encrypted lf) hdr) as [[len pc]|] eqn:Ep; [|done].
    apply parse_any_magic in Ep. rewrite (Hsame _ eq_refl) in Ep. done.
Qed.

Lemma find_loop_spec fuel lf end_ base :
  0 <= base -> end_ <= flen (lf_disk lf) -> (Z.to_nat (end_ - base) < fuel)%nat ->
  exists r, first_frame lf end_ base (Z.max 0 (end_ - base - hdr_len (lf_encrypted lf) + 1)) r /\
    find_loop rok fuel lf end_ base = default end_ r.
Proof.
  revert base. induction fuel as [|fuel IH]; intros base Hb Hd Hf; [lia|]. cbn [find_loop].
  set (hl := hdr_len (lf_encrypted lf)). assert (16 <= hl <= 36) as Hh by (unfold hl; destruct (lf_encrypted lf); done).
  destruct (Z.leb_spec (base + hl) end_) as [Hle|Hgt].
  2:{ exists None. split; [|done]. intros o Ho. lia. }
  set (want := Z.min (end_ - base) AEGIS_IO_BUF_SIZE). cbv zeta. unfold AEGIS_IO_BUF_SIZE in want.
  assert (read_full rok (lf_disk lf) base want = Some (slice (lf_disk lf) (Z.to_nat base) (Z.to_nat want))) as ->.
  { unfold read_full, rok. destruct (Z.ltb_spec base 0); [lia|].
    destruct (Z.ltb_spec (flen (lf_disk lf)) (base + want)); [unfold want in *; lia|done]. }
  destruct (Z.leb_spec hl want) as [Hw|]; [|unfold want in *; lia].
  pose proof (win_search_spec lf end_ base (Z.to_nat (want - hl + 1)) 0 (Z.to_nat want)
    (slice (lf_disk lf) (Z.to_nat base) (Z.to_nat want))) as Hws. fold hl in Hws.
  rewrite Z.add_0_r, Z2Nat.id in Hws by lia.
  specialize (Hws Hb ltac:(unfold want in *; lia) Hd eq_refl ltac:(lia)).
  destruct (win_search rok lf end_ base _ 0 _) as [off|].
  - exists (Some off). split; [|done]. destruct Hws as (Hr & Ht & Hbf). split_and!; [lia|unfold want in *; lia|done|done].
  - destruct (IH (base + (want - (hl - 1)))) as (r & Hr & ->); [lia|done|lia|].
    exists r. split; [|done]. fold hl in Hr.
    replace (Z.max 0 (end_ - base - hl + 1)) with ((want - hl + 1) + Z.max 0 (end_ - (base + (want - (hl - 1))) - hl + 1))
      by (unfold want in *; lia).
    apply first_frame_app; [lia|lia|done|]. by replace (base + (want - hl + 1)) with (base + (want - (hl - 1))) by lia.
Qed.
End resync.

(** Resynchronisation by overlapping 64 KiB windows returns the first
    offset from [from] on where a structurally valid frame starts and fits
    before [end_], and [end_] when there is none: no frame is missed at a
    window boundary. *)
Theorem find_next_frame_first `{AeadScheme} lf from end_ :
  0 <= from -> end_ <= flen (lf_disk lf) ->
  let r := find_next_frame rok lf from end_ in
  (r < end_ -> from <= r /\ frame_at lf end_ r = true) /\
  (forall o, from <= o < r -> o + hdr_len (lf_encrypted lf) <= end_ -> frame_at lf end_ o = false).
Proof.
  intros Hf Hd. cbv zeta. unfold find_next_frame.
  destruct (find_loop_spec (S (Z.to_nat (end_ - from))) lf end_ from Hf Hd) as (r & Hr & ->); [lia|].
  destruct r as [off|]; cbn [default from_option id].
  - destruct Hr as (Hrange & Ht & Hb). split; [intros _; split; [lia|done]|]. intros o Ho _. by apply Hb.
  - split; [lia|]. intros o Ho Hh. apply Hr. lia.
Qed.

(** ** A damaged payload *)

Section damage.
Context `{AeadScheme}.

Definition plain_frame (p : list Z) : list Z := frame_bytes false [] [] p.
Definition plain_frames (ps : list (list Z)) : list Z := concat (map plain_frame ps).
Definition plain_seg (p : list Z) : Seg := mkSeg (plain_frame p) (Z.of_nat (length p)) (Some p).

Lemma plain_frame_is key p :
  payload_ok p -> frame_is false key (plain_frame p) (Z.of_nat (length p)) (Some p).
Proof. intros Hp. apply (frame_bytes_is false key (replicate 24 0) p Hp ex_nonce_ok). Qed.

Lemma plain_segs_ok key ps : Forall payload_ok ps -> Forall (seg_ok false key) (map plain_seg ps).
Proof. intros Hp. apply Forall_map. eapply Forall_impl; [exact Hp|]. intros p Hp'. by apply plain_frame_is. Qed.

Lemma plain_segs_bytes ps : segs_bytes (map plain_seg ps) = plain_frames ps.
Proof. unfold segs_bytes, plain_frames. by rewrite map_map. Qed.

Lemma plain_segs_intact ps : forallb intact (map plain_seg ps) = true.
Proof. by induction ps. Qed.

Lemma delivered_payloads enc segs off : map snd (delivered enc off segs) = omap sg_payload segs.
Proof.
  revert off. induction segs as [|s segs IH]; intros off; [done|]. cbn [delivered omap list_omap].
  destruct (sg_payload s); cbn; by rewrite IH.
Qed.

Lemma omap_plain ps : omap sg_payload (map plain_seg ps) = ps.
Proof. induction ps as [|p ps IH]; [done|]. cbn. by rewrite IH. Qed.

Lemma n_plain ps : n_intact (map plain_seg ps) = Z.of_nat (length ps) /\ n_damaged (map plain_seg ps) = 0.
Proof.
  unfold n_intact, n_damaged. induction ps as [|p ps [IH1 IH2]]; [done|]. cbn [map]. rewrite !filter_cons.
  repeat case_decide; try done. cbn [length]. lia.
Qed.

(** The frame of [p] with the payload bytes replaced by [p']. *)
Definition hit_frame (p p' : list Z) : list Z :=
  build_header (Z.of_nat (length p)) (crc32_compute p) ++ p'.

Lemma hit_frame_is key p p' :
  payload_ok p -> length p' = length p -> crc32_compute p <> crc32_compute p' ->
  frame_is false key (hit_frame p p') (Z.of_nat (length p)) None.
Proof.
  intros [Hb Hl] Hlen Hne. exists (build_header (Z.of_nat (length p)) (crc32_compute p)), p', (crc32_compute p).
  split_and!; [done|done|unfold flen, overhead, hdr_len; lia|lia| |].
  - apply build_header_parse; [unfold urange; lia|by apply crc32_compute_range].
  - unfold body_payload. by rewrite (proj2 (Z.eqb_neq _ _)) by congruence.
Qed.

Lemma scan_damaged lf ps1 p p' ps2 :
  lf_encrypted lf = false -> Forall payload_ok ps1 -> Forall payload_ok ps2 -> payload_ok p ->
  length p' = length p -> crc32_compute p <> crc32_compute p' ->
  lf_disk lf = plain_frames ps1 ++ hit_frame p p' ++ plain_frames ps2 ->
  exists out, map snd out = ps1 ++ ps2 /\
    log_scan rok aok collect_cb lf 0 (flen (lf_disk lf)) []
    = (out, Some (mkScan (match ps2 with [] => flen (plain_frames ps1) | _ => flen (lf_disk lf) end)
                    (Z.of_nat (length (ps1 ++ ps2))) 1 (match ps2 with [] => false | _ => true end))).
Proof.
  intros He H1 H2 Hp Hlen Hne Hd. set (bad := mkSeg (hit_frame p p') (Z.of_nat (length p)) None).
  set (segs := map plain_seg ps1 ++ bad :: map plain_seg ps2).
  assert (segs_bytes segs = lf_disk lf) as Hsb.
  { unfold segs, segs_bytes. rewrite map_app, concat_app. cbn [map concat].
    fold (segs_bytes (map plain_seg ps1)) (segs_bytes (map plain_seg ps2)).
    by rewrite !plain_segs_bytes, Hd. }
  exists (delivered false 0 segs). split.
  { rewrite delivered_payloads. unfold segs. rewrite omap_app. cbn [omap list_omap bad sg_payload].
    f_equal; apply omap_plain. }
  rewrite (log_scan_segments lf segs [] []).
  - rewrite He. unfold segs. rewrite scan_spec_damaged by (done || apply plain_segs_intact). cbn [fst snd].
    destruct (n_plain ps2) as [-> ->]. rewrite length_map, length_app.
    rewrite (segs_size_bytes false (lf_key lf)) by (by apply plain_segs_ok). rewrite plain_segs_bytes.
    assert (existsb intact (map plain_seg ps2) = match ps2 with [] => false | _ => true end) as ->
      by (by destruct ps2).
    do 3 f_equal; [by destruct ps2|lia].
  - rewrite He. unfold segs. apply Forall_app_2; [by apply plain_segs_ok|].
    apply Forall_cons_2; [by apply hit_frame_is|by apply plain_segs_ok].
  - apply torn_nil.
  - by rewrite Hsb, app_nil_r.
  - rewrite Hsb. unfold flen. cbn [length]. lia.
Qed.
End damage.

(** C21: A burst of at most four damaged bytes in the payload of one plaintext
    frame costs exactly that frame: every frame before and after it is still
    delivered, one corruption is counted, and the file is cut only when
    nothing follows the damage. *)
Theorem log_damage_contained `{AeadScheme} lf ps1 a w1 w2 b ps2 :
  lf_encrypted lf = false -> Forall payload_ok ps1 -> Forall payload_ok ps2 ->
  payload_ok (a ++ w1 ++ b) -> bytes_ok w2 -> length w1 = length w2 -> (length w1 <= 4)%nat -> w1 <> w2 ->
  lf_disk lf = plain_frames ps1 ++ hit_frame (a ++ w1 ++ b) (a ++ w2 ++ b) ++ plain_frames ps2 ->
  exists out, map snd out = ps1 ++ ps2 /\
    log_scan rok aok collect_cb lf 0 (flen (lf_disk lf)) []
    = (out, Some (mkScan (match ps2 with [] => flen (plain_frames ps1) | _ => flen (lf_disk lf) end)
                    (Z.of_nat (length (ps1 ++ ps2))) 1 (match ps2 with [] => false | _ => true end))).
Proof.
  intros He H1 H2 Hp Hw2 Hl Hle Hne Hd. apply (scan_damaged lf ps1 _ (a ++ w2 ++ b) ps2 He H1 H2 Hp); [| |done].
  - rewrite !length_app. lia.
  - destruct Hp as [Hb _]. rewrite !bytes_ok_app in Hb. destruct Hb as (Ha & Hw1 & Hbb).
    by apply crc32_burst.
Qed.

(** ** Opening *)

Definition io_ok : OpenIo := mkOpenIo true true true (fun _ => true) true.

Section opening.
Context `{AeadScheme}.

(** The magic of a file that starts with a frame. *)
Lemma first_magic enc key fb len r post :
  frame_is enc key fb len r ->
  exists m, read_full rok (fb ++ post) 0 4 = Some m /\ aegis_get_u32le m = want_magic enc /\ 4 <= flen (fb ++ post).
Proof.
  intros (hdr & body & pcrc & -> & Hh & Hb & Hl & Hp & _).
  assert (16 <= hdr_len enc) as H16 by (destruct enc; done).
  exists (take 4 hdr). unfold flen in *. split_and!.
  - rewrite <- (assoc_L (++)), <- (take_drop 4 hdr) at 1. rewrite <- (assoc_L (++)).
    apply (read_full_app []); [done|]. unfold flen. rewrite length_take. lia.
  - rewrite <- (parse_any_magic _ _ _ Hp). apply (get_u32_prefix _ _ 4); [done|]. by rewrite take_take.
  - rewrite !length_app. lia.
Qed.

Lemma verify_first_frame_ok key fb len p post :
  frame_is true key fb len (Some p) -> verify_first_frame rok aok (fb ++ post) key = true.
Proof.
  intros Hf. destruct (frame_is_length _ _ _ _ _ Hf) as [Hl Hn].
  destruct (frame_read true key [] fb post _ _ 0 Hf eq_refl) as (hdr & pcrc & Hr & Hp & Hpay).
  cbn [app] in *. unfold verify_first_frame.
  assert (flen (fb ++ post) = flen fb + flen post) as Hfl by (unfold flen; rewrite length_app; lia).
  assert (0 <= flen post) by (unfold flen; lia). unfold overhead, V3_FRAME_OVERHEAD, AEAD_TAG_LEN in *.
  destruct (Z.ltb_spec (flen (fb ++ post)) V3_FRAME_HEADER); [done|].
  change V3_FRAME_HEADER with (hdr_len true) at 1. rewrite Hr. unfold parse_any in Hp.
  destruct (parse_header_v3 hdr) as [len'|]; [|done]. injection Hp as <- <-.
  rewrite Z.gtb_ltb, (proj2 (Z.ltb_ge _ _)) by lia. cbn [aok negb]. by rewrite Hpay.
Qed.

Definition is_enc (key : option (list Z)) : bool := match key with Some _ => true | None => false end.

(** A file whose first frame decodes opens in its own mode and is refused in
    the other. *)
Lemma open_first_frame batch key fb len p post :
  frame_is (is_enc key) (default [] key) fb len (Some p) ->
  log_open rok aok io_ok (fb ++ post) batch key
    = (Some (mkLog true (fb ++ post) (flen (fb ++ post)) 0 batch (is_enc key) (default [] key)),
       LOG_OPEN_OK, fb ++ post).
Proof.
  intros Hf. destruct (first_magic _ _ _ _ _ post Hf) as (m & Hm & Hg & H4). unfold log_open. cbn [io_ok oi_open oi_seek andb negb].
  rewrite (proj2 (Z.leb_le _ _)), Hm, Hg by done. destruct key as [k|]; cbn [is_enc want_magic default from_option id].
  - cbn in Hf. by rewrite (verify_first_frame_ok _ _ _ _ post Hf).
  - done.
Qed.

Lemma open_wrong_mode batch key key' fb len p post :
  frame_is (is_enc key) (default [] key) fb len (Some p) -> is_enc key' = negb (is_enc key) ->
  log_open rok aok io_ok (fb ++ post) batch key'
    = (None, if is_enc key then LOG_OPEN_ERR_PLAIN_ON_ENC else LOG_OPEN_ERR_KEY_ON_PLAIN, fb ++ post).
Proof.
  intros Hf Hk. destruct (first_magic _ _ _ _ _ post Hf) as (m & Hm & Hg & H4). unfold log_open. cbn [io_ok oi_open oi_seek andb negb].
  rewrite (proj2 (Z.leb_le _ _)), Hm, Hg by done. by destruct key, key'.
Qed.
End opening.

(** A log left by any run that acknowledged something reopens under the
    same key as the same file, ready to be scanned from its beginning, and is
    refused, untouched, when opened in the other mode. *)
Theorem log_reopen_mode `{AeadScheme} batch key ops key' :
  Forall op_ok ops ->
  let '(lf, acked) := run_ops (new_log batch key) ops in
  acked <> [] -> is_enc key' = negb (is_enc key) ->
  log_open rok aok io_ok (lf_disk lf) batch key = (Some (reopened lf), LOG_OPEN_OK, lf_disk lf) /\
  log_open rok aok io_ok (lf_disk lf) batch key'
    = (None, if is_enc key then LOG_OPEN_ERR_PLAIN_ON_ENC else LOG_OPEN_ERR_KEY_ON_PLAIN, lf_disk lf).
Proof.
  intros Hops. pose proof (run_ops_acked ops _ _ (new_log_acked batch key) Hops) as Hrun.
  assert (forall ops (lf : LogFile) acked, lf_fsync_batch (fst (foldl run_op (lf, acked) ops)) = lf_fsync_batch lf) as Hbatch.
  { clear. induction ops as [|op ops IH]; intros lf acked; cbn [foldl]; [done|].
    destruct (run_op (lf, acked) op) as [lf1 a1] eqn:E. rewrite IH. destruct op; cbn in E.
    - unfold log_append, log_append_encrypted, append_pieces in E.
      repeat (case_match; simplify_eq); done.
    - unfold log_fsync in E. repeat case_match; simplify_eq; done.
    - unfold log_fsync_if_batched in E. repeat case_match; simplify_eq; done. }
  specialize (Hbatch ops (new_log batch key) []).
  unfold run_ops in *. destruct (foldl run_op _ ops) as [lf acked]. destruct Hrun as (Ha & He & Hk). cbn in He, Hk, Hbatch.
  intros Hne Hk'. destruct Ha as (segs & Hh & Hdel). destruct (log_holds_split _ _ Hh) as (rest & Hd & _).
  destruct segs as [|s segs]; [by rewrite <- Hdel in Hne|].
  pose proof (lh_ok _ _ Hh) as Hok. apply Forall_cons in Hok as [Hs _].
  pose proof (lh_intact _ _ Hh) as Hi. cbn [forallb] in Hi. apply andb_true_iff in Hi as [Hi _].
  unfold intact in Hi. unfold seg_ok in Hs. destruct (sg_payload s) as [p|]; [|done].
  rewrite He, Hk in Hs. fold (is_enc key) in Hs.
  cbn [segs_bytes map concat] in Hd. rewrite <- (assoc_L (++)) in Hd. split.
  - rewrite Hd at 1 2. rewrite (open_first_frame _ _ _ _ _ _ Hs). unfold reopened.
    by rewrite <- Hd, He, Hk, Hbatch.
  - rewrite Hd. by apply (open_wrong_mode _ key _ _ (sg_len s) p).
Qed.

(** An encrypted log whose very first append was cut by a crash after the
    header was written cannot be opened again: the open reports a wrong key,
    although the key is the right one. *)
Theorem encrypted_torn_first_frame_refused `{AeadScheme} batch key nonce payload k :
  payload_ok payload -> nonce_ok nonce ->
  (36 <= k < length (frame_bytes true key nonce payload))%nat ->
  log_open rok aok io_ok (take k (frame_bytes true key nonce payload)) batch (Some key)
    = (None, LOG_OPEN_ERR_WRONG_KEY, take k (frame_bytes true key nonce payload)).
Proof.
  intros Hp Hn Hk. pose proof (frame_bytes_is true key nonce payload Hp Hn) as Hf.
  destruct (frame_is_length _ _ _ _ _ Hf) as [Hl _].
  destruct Hf as (hdr & body & pcrc & Hfb & Hh & Hb & Hlen & Hparse & _). rewrite Hfb in *.
  change (hdr_len true) with 36 in *. unfold flen in *. rewrite take_app_ge by lia.
  set (b := take (k - length hdr) body). assert (length b = (k - length hdr)%nat) as Hbl.
  { unfold b. rewrite length_take. rewrite length_app in *. lia. }
  assert (aegis_get_u32le (take 4 hdr) = LOG_FRAME_MAGIC_ENC) as Hm.
  { rewrite (get_u32_prefix _ hdr 4 ltac:(lia)) by (by rewrite take_take). apply (parse_any_magic true _ _ Hparse). }
  unfold log_open. cbn [io_ok oi_open oi_seek andb negb]. unfold flen. rewrite length_app.
  rewrite (proj2 (Z.leb_le _ _)) by lia. 
  assert (read_full rok (hdr ++ b) 0 4 = Some (take 4 hdr)) as ->.
  { rewrite <- (take_drop 4 hdr) at 1. rewrite <- (assoc_L (++)). apply (read_full_app []); [done|].
    unfold flen. rewrite length_take. lia. }
  rewrite Hm. cbn [Z.eqb]. change (LOG_FRAME_MAGIC_ENC =? LOG_FRAME_MAGIC) with false.
  change (LOG_FRAME_MAGIC_ENC =? LOG_FRAME_MAGIC_ENC) with true. cbn [negb].
  assert (verify_first_frame rok aok (hdr ++ b) key = false) as ->; [|done].
  unfold verify_first_frame. unfold flen. rewrite length_app. change V3_FRAME_HEADER with 36.
  destruct (Z.ltb_spec (Z.of_nat (length hdr + length b)) 36); [lia|].
  rewrite (read_full_app [] hdr b) by (done || (unfold flen; lia)).
  unfold parse_any in Hparse. destruct (parse_header_v3 hdr) as [len|]; [|done]. injection Hparse as -> _.
  change (overhead true) with 52 in *. change (Z.of_nat AEAD_TAG_LEN) with 16. rewrite length_app in *.
  rewrite Z.gtb_ltb, (proj2 (Z.ltb_lt _ _)) by lia. done.
Qed.

(** ** Migration of a legacy log *)

Section migration.
Context `{AeadScheme}.

Definition v1_frame (p : list Z) : list Z :=
  aegis_put_u32le (crc32_compute p) ++ aegis_put_u32le (Z.of_nat (length p)) ++ p.

Lemma v1_read pre p post :
  payload_ok p ->
  read_full rok (pre ++ v1_frame p ++ post) (flen pre) V1_FRAME_HEADER
    = Some (aegis_put_u32le (crc32_compute p) ++ aegis_put_u32le (Z.of_nat (length p))) /\
  read_full rok (pre ++ v1_frame p ++ post) (flen pre + V1_FRAME_HEADER) (Z.of_nat (length p)) = Some p /\
  flen (v1_frame p) = V1_FRAME_HEADER + Z.of_nat (length p).
Proof.
  intros _. unfold v1_frame. split_and!.
  - rewrite (assoc_L (++) _ _ p), <- (assoc_L (++) (_ ++ _) p). by apply read_full_app.
  - rewrite (assoc_L (++) _ _ p), <- (assoc_L (++) (_ ++ _) p), (assoc_L (++) pre).
    apply read_full_app; [|done]. unfold flen. rewrite !length_app, !length_put_u32le. unfold V1_FRAME_HEADER. lia.
  - unfold flen. rewrite !length_app, !length_put_u32le. unfold V1_FRAME_HEADER. lia.
Qed.

Lemma migrate_loop_frames ps fuel pre t new n :
  Forall payload_ok ps -> flen t < V1_FRAME_HEADER -> (length ps < fuel)%nat ->
  migrate_loop rok aok (fun _ => true) fuel (pre ++ concat (map v1_frame ps) ++ t) (flen pre) new n
    = (new ++ plain_frames ps, n + Z.of_nat (length ps), false).
Proof.
  revert fuel pre new n. induction ps as [|p ps IH]; intros fuel pre new n Hps Ht Hf;
    (destruct fuel as [|fuel]; [lia|]); cbn [migrate_loop map concat].
  { cbn [app]. rewrite (proj2 (Z.leb_gt _ _)) by (unfold flen in *; rewrite length_app; lia).
    rewrite app_nil_r. f_equal. f_equal. cbn. lia. }
  apply Forall_cons in Hps as [Hp Hps]. rewrite <- (assoc_L (++)).
  set (post := concat (map v1_frame ps) ++ t). destruct (v1_read pre p post Hp) as (R1 & R2 & R3).
  assert (flen (pre ++ v1_frame p ++ post) = flen pre + flen (v1_frame p) + flen post) as Hsz
    by (unfold flen; rewrite !length_app; lia).
  assert (0 <= flen post) by (unfold flen; lia). destruct Hp as [Hb Hl].
  assert (0 < V1_FRAME_HEADER) by done.
  rewrite (proj2 (Z.leb_le _ _)) by lia. rewrite R1. cbv zeta.
  rewrite get_put_u32le by (by apply crc32_compute_range).
  rewrite drop_app_length' by done. rewrite <- (app_nil_r (aegis_put_u32le (Z.of_nat (length p)))).
  rewrite get_put_u32le by (unfold urange; lia).
  rewrite Z.gtb_ltb, (proj2 (Z.ltb_ge _ _)) by lia. cbn [aok negb]. rewrite R2, Z.eqb_refl. cbn [negb].
  specialize (IH fuel (pre ++ v1_frame p)). rewrite <- (assoc_L (++)) in IH. fold post in IH.
  replace (flen pre + V1_FRAME_HEADER + Z.of_nat (length p)) with (flen (pre ++ v1_frame p))
    by (unfold flen in *; rewrite length_app; lia).
  rewrite IH by (done || (cbn in Hf; lia)). unfold plain_frames. cbn [map concat length].
  rewrite <- (assoc_L (++)). f_equal. f_equal. lia.
Qed.
End migration.

(** Opening a legacy log (any frames with a partial header after them)
    without a key rewrites it as the same payloads in current frames and
    opens the result. *)
Theorem log_migration_preserves `{AeadScheme} batch p ps t :
  Forall payload_ok (p :: ps) -> bytes_ok t -> flen t < V1_FRAME_HEADER ->
  crc32_compute p <> LOG_FRAME_MAGIC -> crc32_compute p <> LOG_FRAME_MAGIC_ENC ->
  let new := plain_frames (p :: ps) in
  log_open rok aok io_ok (concat (map v1_frame (p :: ps)) ++ t) batch None
    = (Some (mkLog true new (flen new) 0 batch false []), LOG_OPEN_OK, new).
Proof.
  intros Hps _ Ht Hm1 Hm2. cbv zeta. unfold log_open. cbn [io_ok oi_open oi_seek andb negb].
  set (old := concat (map v1_frame (p :: ps)) ++ t).
  assert (length old = (length (v1_frame p) + length (concat (map v1_frame ps) ++ t))%nat) as Hlo.
  { unfold old. cbn [map concat]. rewrite !length_app. lia. }
  pose proof (Forall_inv Hps) as Hp. destruct (v1_read [] p (concat (map v1_frame ps) ++ t) Hp) as (_ & _ & R3).
  assert (8 <= flen (v1_frame p)) by (rewrite R3; unfold V1_FRAME_HEADER; lia).
  rewrite (proj2 (Z.leb_le _ _)) by (unfold flen in *; lia).
  assert (read_full rok old 0 4 = Some (aegis_put_u32le (crc32_compute p))) as ->.
  { unfold old. cbn [map concat]. unfold v1_frame at 1. rewrite <- !(assoc_L (++)). by apply (read_full_app []). }
  rewrite <- (app_nil_r (aegis_put_u32le (crc32_compute p))), get_put_u32le by (destruct Hp; by apply crc32_compute_range).
  rewrite (proj2 (Z.eqb_neq _ _)), (proj2 (Z.eqb_neq _ _)) by done.
  unfold migrate_legacy_log. cbn [io_ok oi_migrate_write oi_migrate oi_reopen].
  assert (Z.of_nat (length (p :: ps)) <= flen old) as Hcnt.
  { clear -Hps. unfold old. induction Hps as [|q qs Hq _ IH]; [unfold flen; cbn; lia|].
    destruct (v1_read [] q [] Hq) as (_ & _ & R). unfold flen, V1_FRAME_HEADER in *.
    cbn [map concat length]. rewrite !length_app in *. lia. }
  pose proof (migrate_loop_frames (p :: ps) (S (length old)) [] t [] 0 Hps Ht) as Hml. cbn [app flen length] in Hml.
  change (flen []) with 0 in Hml. fold old in Hml. rewrite Hml by (unfold flen in Hcnt; cbn [length] in Hcnt; lia).
  cbn [orb]. rewrite (proj2 (Z.eqb_neq _ _)) by (cbn [length]; lia). done.
Qed.

(** ** A torn tail behind damage *)

(** Four frames: the second has a damaged payload byte, the last is cut five
    bytes into its payload of forty. *)
Definition torn_disk : list Z :=
  plain_frame [1; 1] ++ hit_frame [2; 2] [2; 3] ++ plain_frame [3; 3]
  ++ take 21 (plain_frame (replicate 40 4)).

Definition torn_log : LogFile := mkLog true torn_disk (flen torn_disk) 0 0 false [].

(** When a good frame follows damage, the scan keeps the whole file, a
    torn frame at its end included; a payload appended and acknowledged after
    that is readable by offset but no later scan delivers it, since the torn
    frame's length swallows it. *)
Theorem append_after_kept_torn_tail_lost :
  let '(out, res) := log_scan rok aok collect_cb torn_log 0 (flen torn_disk) [] in
  map snd out = [[1; 1]; [3; 3]] /\
  res = Some (mkScan (flen torn_disk) 2 1 true) /\
  let '(lf, off) := log_append aok (fst (log_truncate torn_log (flen torn_disk) true)) [7; 7; 7] None
                      (fun _ => None) in
  off = Some (flen torn_disk) /\ log_read rok aok lf (flen torn_disk) = Some [7; 7; 7] /\
  map snd (fst (log_scan rok aok collect_cb lf 0 (lf_size lf) [])) = [[1; 1]; [3; 3]].
Proof. vm_compute. split_and!; reflexivity. Qed.

(** ** Witnesses *)

Definition wit_payloads : list (list Z) := [[1; 2]; []; [3]].

Lemma wit_payloads_ok : Forall payload_ok wit_payloads.
Proof. repeat constructor; cbn; lia. Qed.

Lemma find_next_frame_first_witness :
  frame_at torn_log (flen torn_disk) (find_next_frame rok torn_log 1 (flen torn_disk)) = true.
Proof.
  destruct (find_next_frame_first torn_log 1 (flen torn_disk)) as [Hr _]; [lia|vm_compute; congruence|].
  apply Hr. vm_compute. reflexivity.
Defined.

Definition hit_log : LogFile :=
  let d := plain_frames wit_payloads ++ hit_frame ([5; 6] ++ [7; 8] ++ [9]) ([5; 6] ++ [0; 0] ++ [9])
           ++ plain_frames wit_payloads in
  mkLog true d (flen d) 0 0 false [].

Lemma log_damage_contained_witness :
  exists out, map snd out = wit_payloads ++ wit_payloads /\
    log_scan rok aok collect_cb hit_log 0 (flen (lf_disk hit_log)) []
    = (out, Some (mkScan (flen (lf_disk hit_log)) 6 1 true)).
Proof.
  apply (log_damage_contained hit_log wit_payloads [5; 6] [7; 8] [0; 0] [9] wit_payloads); try reflexivity.
  - apply wit_payloads_ok.
  - apply wit_payloads_ok.
  - apply wit_payload; [repeat constructor; lia|cbn; lia].
  - repeat constructor; lia.
  - cbn. lia.
  - discriminate.
Defined.

Lemma log_reopen_mode_witness :
  let '(lf, acked) := run_ops (new_log 0 (Some wit_key)) wit_ops in
  log_open rok aok io_ok (lf_disk lf) 0 (Some wit_key) = (Some (reopened lf), LOG_OPEN_OK, lf_disk lf) /\
  log_open rok aok io_ok (lf_disk lf) 0 None = (None, LOG_OPEN_ERR_PLAIN_ON_ENC, lf_disk lf).
Proof.
  pose proof (log_reopen_mode 0 (Some wit_key) wit_ops None wit_ops_ok) as T.
  destruct (run_ops (new_log 0 (Some wit_key)) wit_ops) as [lf acked] eqn:E.
  apply T; [|reflexivity]. intros Ha. vm_compute in E. rewrite Ha in E. discriminate E.
Defined.

Lemma encrypted_torn_first_frame_refused_witness :
  log_open rok aok io_ok (take 40 (frame_bytes true wit_key wit_nonce [1; 2; 3])) 0 (Some wit_key)
    = (None, LOG_OPEN_ERR_WRONG_KEY, take 40 (frame_bytes true wit_key wit_nonce [1; 2; 3])).
Proof.
  apply (encrypted_torn_first_frame_refused 0 wit_key wit_nonce [1; 2; 3] 40).
  - apply wit_payload; [repeat constructor; lia|cbn; lia].
  - apply wit_nonce_ok.
  - vm_compute. lia.
Defined.

Lemma log_migration_preserves_witness :
  log_open rok aok io_ok (concat (map v1_frame wit_payloads) ++ [1; 2]) 0 None
    = (Some (mkLog true (plain_frames wit_payloads) (flen (plain_frames wit_payloads)) 0 0 false []),
       LOG_OPEN_OK, plain_frames wit_payloads).
Proof.
  apply (log_migration_preserves 0 [1; 2] [[]; [3]] [1; 2] wit_payloads_ok).
  - repeat constructor; lia.
  - reflexivity.
  - vm_compute. congruence.
  - vm_compute. congruence.
Defined.
