(* ===== verification/WorkingBuffer.v ===== *)
(** * Volatile working memory

    The per-session ring buffers with expiry of [src/memory/working_buffer.c].
    The store-wide mutex makes every public operation an atomic step. *)

From S2P Require Import Prelude StrTable Record.

Definition SBUCKETS : nat := 256.

Record Session := mkSession {
  ss_id : list Z;
  ss_slots : list (option MemoryRecord);
  ss_capacity : nat;
  ss_head : nat;
  ss_next_id : Z
}.

Record WorkingStore := mkStore {
  ws_buckets : list (list Session); ws_capacity : nat; ws_default_ttl_ms : Z
}.

(** The bucket of a session name. *)
Definition session_hash (s : list Z) : nat := Z.to_nat (fnv1a s mod 256).

Definition working_store_create (ok : bool) (capacity default_ttl_ms : Z) : option WorkingStore :=
  if negb ok then None
  else Some (mkStore (replicate SBUCKETS [])
               (Z.to_nat (if capacity =? 0 then 256 else capacity))
               (if default_ttl_ms =? 0 then 3600000 else default_ttl_ms)).

Definition occupied (sl : option MemoryRecord) : nat := match sl with Some _ => 1 | None => 0 end.

Definition working_store_count (ws : WorkingStore) : nat :=
  sum_list (map (fun s => sum_list (map occupied (ss_slots s))) (concat (ws_buckets ws))).

(** ** Sessions *)

Definition session_find (ws : WorkingStore) (sid : list Z) : option Session :=
  chain_find ss_id (ws_buckets ws !!! session_hash sid) sid.

Definition set_bucket (ws : WorkingStore) (b : nat) (c : list Session) : WorkingStore :=
  mkStore (<[b := c]> (ws_buckets ws)) (ws_capacity ws) (ws_default_ttl_ms ws).

(** Store back a session that was found. *)
Definition session_put (ws : WorkingStore) (s : Session) : WorkingStore :=
  let b := session_hash (ss_id s) in
  set_bucket ws b (chain_update ss_id (fun _ => Some s) (ws_buckets ws !!! b) (ss_id s)).

(** [ok] is the outcome of the three allocations of a new session. *)
Definition get_session (ok : bool) (ws : WorkingStore) (sid : list Z) (create : bool)
  : WorkingStore * option Session :=
  match session_find ws sid with
  | Some s => (ws, Some s)
  | None =>
      if negb create then (ws, None)
      else if negb ok then (ws, None)
      else
        let s := mkSession sid (replicate (ws_capacity ws) None) (ws_capacity ws) 0 1 in
        let b := session_hash sid in
        (set_bucket ws b (s :: (ws_buckets ws !!! b)), Some s)
  end.

Definition expired (now : Z) (r : MemoryRecord) : bool :=
  negb (mr_expires_at r =? 0) && (mr_expires_at r <=? now).

(** Slot by slot from the first: expired entries met on the way are freed. *)
Fixpoint find_slot_loop (now id : Z) (slots : list (option MemoryRecord)) (k : nat)
  : list (option MemoryRecord) * option nat :=
  match slots with
  | [] => ([], None)
  | None :: slots' =>
      let '(rest, r) := find_slot_loop now id slots' (S k) in (None :: rest, r)
  | Some r :: slots' =>
      if expired now r then
        let '(rest, f) := find_slot_loop now id slots' (S k) in (None :: rest, f)
      else if mr_id r =? id then (Some r :: slots', Some k)
      else let '(rest, f) := find_slot_loop now id slots' (S k) in (Some r :: rest, f)
  end.

Definition set_slots (s : Session) (slots : list (option MemoryRecord)) : Session :=
  mkSession (ss_id s) slots (ss_capacity s) (ss_head s) (ss_next_id s).

Definition find_slot (s : Session) (id now : Z) : Session * option nat :=
  let '(slots, f) := find_slot_loop now id (ss_slots s) 0 in (set_slots s slots, f).

(** ** Operations *)

(** The stored copy of [rec]. *)
Definition stamp (rec : MemoryRecord) (id now expires : Z) : MemoryRecord :=
  mkMemoryRecord id MEM_WORKING now now (mr_importance rec) (mr_confidence rec) (mr_agent_id rec)
    (mr_tags rec) (mr_embedding rec) (mr_embedding_dim rec) (mr_vec_count rec)
    (mr_relationships rec) (mr_fact rec) (mr_derivation rec) (mr_data rec) expires (mr_deleted rec).

Definition expiry (ws : WorkingStore) (now ttl_ms : Z) : Z :=
  let ttl := if ttl_ms =? 0 then ws_default_ttl_ms ws else ttl_ms in
  if ttl >? UINT64_MAX - now then UINT64_MAX else now + ttl.

(** The id, [None] for -1. *)
Definition working_store_add (ok : bool) (alloc : Z -> bool) (ws : WorkingStore) (session_id : list Z)
  (rec : MemoryRecord) (now ttl_ms : Z) : WorkingStore * option Z :=
  let '(ws, so) := get_session ok ws session_id true in
  match so with
  | None => (ws, None)
  | Some s =>
      match record_clone alloc rec with
      | None => (ws, None)
      | Some copy =>
          let copy := stamp copy (ss_next_id s) now (expiry ws now ttl_ms) in
          let s := mkSession (ss_id s) (<[ss_head s := Some copy]> (ss_slots s)) (ss_capacity s)
                     ((ss_head s + 1) mod ss_capacity s) (wrap 64 (ss_next_id s + 1)) in
          (session_put ws s, Some (mr_id copy))
      end
  end.

Definition working_store_get (alloc : Z -> bool) (ws : WorkingStore) (session_id : list Z) (id now : Z)
  : WorkingStore * option MemoryRecord :=
  let '(ws, so) := get_session true ws session_id false in
  match so with
  | None => (ws, None)
  | Some s =>
      let '(s, f) := find_slot s id now in
      let ws := session_put ws s in
      match f with
      | None => (ws, None)
      | Some k => (ws, match ss_slots s !! k with Some (Some r) => record_clone alloc r | _ => None end)
      end
  end.

(** The caller's namespace test of [take]. *)
Definition owner_refused (ns : option (list Z)) (r : MemoryRecord) : bool :=
  match ns with
  | None => false
  | Some n => match mr_agent_id r with None => true | Some a => negb (bool_decide (a = n)) end
  end.

Definition working_store_take (ws : WorkingStore) (session_id : list Z) (id now : Z)
  (ns : option (list Z)) : WorkingStore * option MemoryRecord :=
  let '(ws, so) := get_session true ws session_id false in
  match so with
  | None => (ws, None)
  | Some s =>
      let '(s, f) := find_slot s id now in
      match f with
      | None => (session_put ws s, None)
      | Some k =>
          match ss_slots s !! k with
          | Some (Some r) =>
              if owner_refused ns r then (session_put ws s, None)
              else (session_put ws (set_slots s (<[k := None]> (ss_slots s))), Some r)
          | _ => (session_put ws s, None)
          end
      end
  end.

Definition sweep_slot (now : Z) (sl : option MemoryRecord) : option MemoryRecord :=
  match sl with Some r => if expired now r then None else Some r | None => None end.

Definition sweep_removed (now : Z) (sl : option MemoryRecord) : nat :=
  match sl with Some r => if expired now r then 1 else 0 | None => 0 end.

Definition sweep_session (now : Z) (s : Session) : Session :=
  set_slots s (map (sweep_slot now) (ss_slots s)).

(** The store and the number of entries removed. *)
Definition working_store_sweep (ws : WorkingStore) (now : Z) : WorkingStore * nat :=
  let swept := mkStore (map (map (sweep_session now)) (ws_buckets ws)) (ws_capacity ws)
                 (ws_default_ttl_ms ws) in
  (swept, sum_list (map (fun s => sum_list (map (sweep_removed now) (ss_slots s)))
                      (concat (ws_buckets ws)))).

(** ** Ring invariant

    Ids are handed out in sequence and the head advances with them, so the
    slot of an id is its position modulo the capacity. *)

Definition slot_of_id (cap : nat) (id : Z) : nat := Z.to_nat ((id - 1) mod Z.of_nat cap).

Record sess_wf (cap : nat) (s : Session) : Prop := {
  sw_cap : ss_capacity s = cap;
  sw_pos : (0 < cap)%nat;
  sw_len : length (ss_slots s) = cap;
  sw_next : 1 <= ss_next_id s;
  sw_head : ss_head s = slot_of_id cap (ss_next_id s);
  sw_slots : forall k r, ss_slots s !! k = Some (Some r) ->
    k = slot_of_id cap (mr_id r) /\ 1 <= mr_id r /\ ss_next_id s - Z.of_nat cap <= mr_id r < ss_next_id s
}.

(** The entry of an id. *)
Definition entry (s : Session) (id : Z) : option MemoryRecord :=
  match ss_slots s !! slot_of_id (ss_capacity s) id with
  | Some (Some r) => if mr_id r =? id then Some r else None
  | _ => None
  end.

Lemma slot_of_id_lt cap id : (0 < cap)%nat -> (slot_of_id cap id < cap)%nat.
Proof. intros. unfold slot_of_id. pose proof (Z.mod_pos_bound (id - 1) (Z.of_nat cap)). lia. Qed.

Lemma slot_of_id_next cap id :
  (0 < cap)%nat -> slot_of_id cap (id + 1) = ((slot_of_id cap id + 1) mod cap)%nat.
Proof.
  intros Hc. unfold slot_of_id. pose proof (Z.mod_pos_bound (id - 1) (Z.of_nat cap)) as Hb.
  pose proof (Z.mod_pos_bound (id + 1 - 1) (Z.of_nat cap)) as Hb2.
  apply Nat2Z.inj. rewrite Nat2Z.inj_mod, Nat2Z.inj_add, !Z2Nat.id by lia.
  replace (id + 1 - 1) with (id - 1 + 1) by lia. by rewrite Z.add_mod_idemp_l by lia.
Qed.

(** Two ids of one window share a slot only if they are equal. *)
Lemma slot_of_id_inj cap a b lo :
  (0 < cap)%nat -> slot_of_id cap a = slot_of_id cap b ->
  lo <= a < lo + Z.of_nat cap -> lo <= b < lo + Z.of_nat cap -> a = b.
Proof.
  intros Hc E Ha Hb. unfold slot_of_id in E.
  pose proof (Z.mod_pos_bound (a - 1) (Z.of_nat cap)). pose proof (Z.mod_pos_bound (b - 1) (Z.of_nat cap)).
  assert ((a - 1) mod Z.of_nat cap = (b - 1) mod Z.of_nat cap) as E2 by lia.
  pose proof (Z.div_mod (a - 1) (Z.of_nat cap) ltac:(lia)) as Da.
  pose proof (Z.div_mod (b - 1) (Z.of_nat cap) ltac:(lia)) as Db. rewrite E2 in Da.
  set (q := (a - 1) / Z.of_nat cap) in *. set (q' := (b - 1) / Z.of_nat cap) in *.
  assert (q = q') by nia. nia.
Qed.

Lemma entry_lookup cap s k r :
  sess_wf cap s -> ss_slots s !! k = Some (Some r) -> entry s (mr_id r) = Some r.
Proof.
  intros W Hk. destruct (sw_slots _ _ W _ _ Hk) as (-> & _). unfold entry.
  by rewrite (sw_cap _ _ W), Hk, Z.eqb_refl.
Qed.

Lemma entry_slot s id r :
  entry s id = Some r -> ss_slots s !! slot_of_id (ss_capacity s) id = Some (Some r) /\ mr_id r = id.
Proof.
  unfold entry. destruct (_ !! _) as [[x|]|]; try done. destruct (Z.eqb_spec (mr_id x) id); [|done].
  by intros [= ->].
Qed.

(** ** Lookup clears only expired entries *)

(** [new] is [old] with some expired entries cleared. *)
Definition cleared (now : Z) (old new : list (option MemoryRecord)) : Prop :=
  Forall2 (fun o n => n = o \/ (n = None /\ exists r, o = Some r /\ expired now r = true)) old new.

Lemma ring_loop_spec now id slots k :
  let '(slots', f) := find_slot_loop now id slots k in
  cleared now slots slots' /\
  match f with
  | Some j => exists i r, j = (k + i)%nat /\ slots' !! i = Some (Some r) /\ mr_id r = id /\ expired now r = false
  | None => forall i r, slots !! i = Some (Some r) -> mr_id r = id -> expired now r = true
  end.
Proof.
  revert k. induction slots as [|[r|] slots IH]; intros k; cbn [find_slot_loop].
  - split; [constructor|]. intros i r Hi. by rewrite lookup_nil in Hi.
  - destruct (expired now r) eqn:Ee.
    + specialize (IH (S k)). destruct (find_slot_loop now id slots (S k)) as [rest f]. destruct IH as [Hc Hf].
      split; [constructor; [right; eauto|done]|]. destruct f as [j|].
      * destruct Hf as (i & r' & -> & Hi & ? & ?). exists (S i), r'. split_and!; (done || lia).
      * intros [|i] r' Hi; [by injection Hi as <-|by apply (Hf i)].
    + destruct (Z.eqb_spec (mr_id r) id) as [E|E].
      * split; [constructor; [by left|]|].
        { clear. induction slots; constructor; [by left|done]. }
        exists 0%nat, r. split_and!; (done || lia).
      * specialize (IH (S k)). destruct (find_slot_loop now id slots (S k)) as [rest f]. destruct IH as [Hc Hf].
        split; [constructor; [by left|done]|]. destruct f as [j|].
        -- destruct Hf as (i & r' & -> & Hi & ? & ?). exists (S i), r'. split_and!; (done || lia).
        -- intros [|i] r' Hi; [by injection Hi as <-|by apply (Hf i)].
  - specialize (IH (S k)). destruct (find_slot_loop now id slots (S k)) as [rest f]. destruct IH as [Hc Hf].
    split; [constructor; [by left|done]|]. destruct f as [j|].
    + destruct Hf as (i & r' & -> & Hi & ? & ?). exists (S i), r'. split_and!; (done || lia).
    + intros [|i] r' Hi; [done|by apply (Hf i)].
Qed.

Lemma cleared_lookup now old new k :
  cleared now old new ->
  match new !! k with
  | Some (Some r) => old !! k = Some (Some r)
  | Some None => old !! k = Some None \/ exists r, old !! k = Some (Some r) /\ expired now r = true
  | None => old !! k = None
  end.
Proof.
  intros H. destruct (old !! k) as [o|] eqn:Eo.
  - destruct (Forall2_lookup_l _ _ _ _ _ H Eo) as (n & -> & [->|[-> (r & -> & He)]]).
    + destruct o; [done|by left].
    + right. eauto.
  - assert (new !! k = None) as ->; [|done]. apply lookup_ge_None in Eo. apply lookup_ge_None.
    by rewrite <- (Forall2_length _ _ _ H).
Qed.

(** ** The session table *)

Record ws_wf (ws : WorkingStore) : Prop := {
  wf_len : length (ws_buckets ws) = SBUCKETS;
  wf_hash : forall b c s, ws_buckets ws !! b = Some c -> s ∈ c -> session_hash (ss_id s) = b;
  wf_nodup : forall b c, ws_buckets ws !! b = Some c -> NoDup (map ss_id c);
  wf_cap : (0 < ws_capacity ws)%nat
}.

Lemma session_hash_lt s : (session_hash s < SBUCKETS)%nat.
Proof. unfold session_hash, SBUCKETS. pose proof (Z.mod_pos_bound (fnv1a s) 256). lia. Qed.

Lemma bucket_at ws b : ws_wf ws -> (b < SBUCKETS)%nat -> ws_buckets ws !! b = Some (ws_buckets ws !!! b).
Proof. intros W Hb. apply list_lookup_lookup_total_lt. by rewrite (wf_len ws W). Qed.

(** Replacing a bucket by one whose names are kept or extended. *)
Lemma set_bucket_wf ws b c :
  ws_wf ws -> (b < SBUCKETS)%nat -> (forall s, s ∈ c -> session_hash (ss_id s) = b) -> NoDup (map ss_id c) ->
  ws_wf (set_bucket ws b c).
Proof.
  intros W Hb Hh Hn. split; cbn; [by rewrite length_insert; apply W| | |apply W].
  - intros b' c' s Hb'. destruct (decide (b' = b)) as [->|Hne].
    + rewrite list_lookup_insert_eq in Hb' by (by rewrite (wf_len ws W)). injection Hb' as <-. apply Hh.
    + rewrite list_lookup_insert_ne in Hb' by done. by apply (wf_hash ws W).
  - intros b' c' Hb'. destruct (decide (b' = b)) as [->|Hne].
    + rewrite list_lookup_insert_eq in Hb' by (by rewrite (wf_len ws W)). by injection Hb' as <-.
    + rewrite list_lookup_insert_ne in Hb' by done. by apply (wf_nodup ws W b').
Qed.

Lemma session_find_set_bucket ws b c sid :
  ws_wf ws -> (b < SBUCKETS)%nat ->
  session_find (set_bucket ws b c) sid
  = if decide (session_hash sid = b) then chain_find ss_id c sid else session_find ws sid.
Proof.
  intros W Hb. unfold session_find. cbn. destruct (decide (session_hash sid = b)) as [->|Hne].
  - by rewrite list_lookup_total_insert_eq by (by rewrite (wf_len ws W)).
  - by rewrite list_lookup_total_insert_ne.
Qed.

Lemma session_find_name ws sid s : session_find ws sid = Some s -> ss_id s = sid.
Proof. intros H. by apply chain_find_Some in H as [_ ?]. Qed.

Lemma session_put_spec ws s s0 sid :
  ws_wf ws -> session_find ws (ss_id s) = Some s0 ->
  ws_wf (session_put ws s) /\
  session_find (session_put ws s) sid = if decide (sid = ss_id s) then Some s else session_find ws sid.
Proof.
  intros W Hf. set (b := session_hash (ss_id s)). pose proof (session_hash_lt (ss_id s)) as Hb. fold b in Hb.
  pose proof (bucket_at ws b W Hb) as Hbk. pose proof (wf_nodup ws W _ _ Hbk) as Hnd.
  assert (map ss_id (chain_update ss_id (fun _ => Some s) (ws_buckets ws !!! b) (ss_id s))
    = map ss_id (ws_buckets ws !!! b)) as Hnames.
  { generalize (ws_buckets ws !!! b). intros c. induction c as [|m c IH]; [done|]. cbn.
    case_bool_decide as E; cbn; [by rewrite E|by rewrite IH]. }
  assert (forall c, chain_find ss_id (chain_update ss_id (fun _ => Some s) c (ss_id s)) sid
    = if decide (sid = ss_id s) then chain_find ss_id c (ss_id s) ≫= (fun _ => Some s)
      else chain_find ss_id c sid) as Hcf.
  { intros c. induction c as [|m c IH]; cbn; [by destruct (decide _)|].
    destruct (bool_decide (ss_id m = ss_id s)) eqn:Em; cbn.
    - apply bool_decide_eq_true in Em. destruct (decide (sid = ss_id s)) as [->|Hne].
      + by rewrite bool_decide_true.
      + rewrite !bool_decide_false by congruence. done.
    - apply bool_decide_eq_false in Em. rewrite IH. destruct (decide (sid = ss_id s)) as [->|Hne]; [|done].
      by rewrite bool_decide_false. }
  unfold session_put. fold b. split.
  - apply set_bucket_wf; [done|done| |by rewrite Hnames].
    intros x Hx. assert (ss_id x ∈ map ss_id (ws_buckets ws !!! b)) as Hin
      by (rewrite <- Hnames; apply list_elem_of_fmap; eauto).
    apply list_elem_of_fmap in Hin as (y & -> & Hy). by apply (wf_hash ws W _ _ y Hbk).
  - rewrite session_find_set_bucket by done. rewrite Hcf.
    destruct (decide (sid = ss_id s)) as [->|Hne].
    + rewrite decide_True by done. unfold session_find in Hf. fold b in Hf. by rewrite Hf.
    + destruct (decide (session_hash sid = b)) as [E|]; [|done]. unfold session_find. by rewrite E.
Qed.

Lemma new_session_spec ws s sid :
  ws_wf ws -> session_find ws (ss_id s) = None ->
  let ws' := set_bucket ws (session_hash (ss_id s)) (s :: (ws_buckets ws !!! session_hash (ss_id s))) in
  ws_wf ws' /\ session_find ws' sid = if decide (sid = ss_id s) then Some s else session_find ws sid.
Proof.
  intros W Hf. set (b := session_hash (ss_id s)). pose proof (session_hash_lt (ss_id s)) as Hb. fold b in Hb.
  pose proof (bucket_at ws b W Hb) as Hbk. split.
  - apply set_bucket_wf; [done|done| |].
    + intros x [->|Hx]%elem_of_cons; [done|]. by apply (wf_hash ws W _ _ x Hbk).
    + cbn. apply NoDup_cons. split; [by apply chain_find_None|by apply (wf_nodup ws W b)].
  - rewrite session_find_set_bucket by done. cbn [chain_find].
    destruct (decide (sid = ss_id s)) as [->|Hne].
    + rewrite decide_True by done. by rewrite bool_decide_true.
    + destruct (decide (session_hash sid = b)) as [E|]; [|done].
      rewrite bool_decide_false by done. unfold session_find. by rewrite E.
Qed.

(** ** Specification

    A session is a counter and a finite map of entries; nothing is removed for
    having expired, an expired entry is merely not returned. *)

Record SpecSession := mkSpec { sp_next : Z; sp_entries : gmap Z MemoryRecord }.
Abbreviation SpecStore := (gmap (list Z) SpecSession).

Definition spec_fresh : SpecSession := mkSpec 1 ∅.

Inductive WOp :=
  | WAdd (ok : bool) (alloc : Z -> bool) (sid : list Z) (rec : MemoryRecord) (now ttl : Z)
  | WGet (alloc : Z -> bool) (sid : list Z) (id now : Z)
  | WTake (sid : list Z) (id now : Z) (ns : option (list Z))
  | WSweep (now : Z).

Inductive WOut := OId (r : option Z) | ORec (r : option MemoryRecord) | ODone.

Definition op_now (op : WOp) : Z :=
  match op with
  | WAdd _ _ _ _ now _ => now | WGet _ _ _ now => now | WTake _ _ now _ => now | WSweep now => now
  end.

Definition impl_step (ws : WorkingStore) (op : WOp) : WorkingStore * WOut :=
  match op with
  | WAdd ok alloc sid rec now ttl =>
      let '(ws, r) := working_store_add ok alloc ws sid rec now ttl in (ws, OId r)
  | WGet alloc sid id now => let '(ws, r) := working_store_get alloc ws sid id now in (ws, ORec r)
  | WTake sid id now ns => let '(ws, r) := working_store_take ws sid id now ns in (ws, ORec r)
  | WSweep now => (fst (working_store_sweep ws now), ODone)
  end.

(** The live entry of an id. *)
Definition spec_live (S : SpecStore) (sid : list Z) (id now : Z) : option MemoryRecord :=
  match S !! sid with
  | Some sp => match sp_entries sp !! id with
               | Some r => if expired now r then None else Some r
               | None => None
               end
  | None => None
  end.

Definition spec_step (cap : nat) (ttl0 : Z) (S : SpecStore) (op : WOp) : SpecStore * WOut :=
  match op with
  | WAdd ok alloc sid rec now ttl =>
      if negb ok && bool_decide (S !! sid = None) then (S, OId None)
      else
        let sp := default spec_fresh (S !! sid) in
        match record_clone alloc rec with
        | None => (<[sid := sp]> S, OId None)
        | Some copy =>
            let n := sp_next sp in
            let r := stamp copy n now (expiry (mkStore [] cap ttl0) now ttl) in
            (<[sid := mkSpec (n + 1) (<[n := r]> (delete (n - Z.of_nat cap) (sp_entries sp)))]> S,
             OId (Some n))
        end
  | WGet alloc sid id now => (S, ORec (spec_live S sid id now ≫= record_clone alloc))
  | WTake sid id now ns =>
      match spec_live S sid id now with
      | Some r =>
          if owner_refused ns r then (S, ORec None)
          else (alter (fun sp => mkSpec (sp_next sp) (delete id (sp_entries sp))) sid S, ORec (Some r))
      | None => (S, ORec None)
      end
  | WSweep _ => (S, ODone)
  end.

(** ** Refinement *)

(** A session stands for its specification at time [T]: it holds nothing
    else, and everything not yet expired. *)
Definition sess_rel (cap : nat) (T : Z) (s : Session) (sp : SpecSession) : Prop :=
  sess_wf cap s /\ ss_next_id s = sp_next sp /\
  (forall id r, entry s id = Some r -> sp_entries sp !! id = Some r) /\
  (forall id r, sp_entries sp !! id = Some r -> expired T r = false -> entry s id = Some r).

Definition osess_rel (cap : nat) (T : Z) (s : option Session) (sp : option SpecSession) : Prop :=
  match s, sp with
  | None, None => True
  | Some s, Some sp => sess_rel cap T s sp
  | _, _ => False
  end.

Record store_rel (cap : nat) (ttl0 T N : Z) (ws : WorkingStore) (S : SpecStore) : Prop := {
  sr_wf : ws_wf ws;
  sr_cap : ws_capacity ws = cap;
  sr_ttl : ws_default_ttl_ms ws = ttl0;
  sr_rel : forall sid, osess_rel cap T (session_find ws sid) (S !! sid);
  sr_next : forall sid s, session_find ws sid = Some s -> ss_next_id s <= N
}.

Lemma expired_mono T T' r : T <= T' -> expired T r = true -> expired T' r = true.
Proof. unfold expired. intros Hle H. apply andb_true_iff in H as [-> H]. zbool. apply Z.leb_le. lia. Qed.

Lemma sess_rel_mono cap T T' s sp : T <= T' -> sess_rel cap T s sp -> sess_rel cap T' s sp.
Proof.
  intros Hle (W & Hn & Ha & Hb). split_and!; try done; try apply W. intros id r Hid He. apply Hb; [done|].
  destruct (expired T r) eqn:E; [|done]. by rewrite (expired_mono T T' r Hle E) in He.
Qed.

Lemma store_rel_mono cap ttl0 T T' N ws S :
  T <= T' -> store_rel cap ttl0 T N ws S -> store_rel cap ttl0 T' N ws S.
Proof.
  intros Hle [W Hc Ht Hr Hn]. split; try done. intros sid. specialize (Hr sid). unfold osess_rel in *.
  destruct (session_find ws sid), (S !! sid); try done. by apply (sess_rel_mono cap T).
Qed.

(** Clearing expired entries keeps the relation. *)
Lemma cleared_sess_rel cap T s sp slots :
  sess_rel cap T s sp -> cleared T (ss_slots s) slots -> sess_rel cap T (set_slots s slots) sp.
Proof.
  intros ([Hc Hp Hl Hn Hh Hs] & Hnx & Ha & Hb) Hcl.
  assert (forall k r, slots !! k = Some (Some r) -> ss_slots s !! k = Some (Some r)) as Hkeep.
  { intros k r Hk. pose proof (cleared_lookup _ _ _ k Hcl) as H. by rewrite Hk in H. }
  split_and!; cbn; try done.
  - split; cbn; try done; [by rewrite <- (Forall2_length _ _ _ Hcl)|]. intros k r Hk. by apply Hs, Hkeep.
  - intros id r He. apply Ha. apply entry_slot in He as [He <-]. cbn in He. unfold entry.
    by rewrite (Hkeep _ _ He), Z.eqb_refl.
  - intros id r Hid He. pose proof (Hb id r Hid He) as Hen. apply entry_slot in Hen as [Hen <-].
    unfold entry. cbn. pose proof (cleared_lookup _ _ _ (slot_of_id (ss_capacity s) (mr_id r)) Hcl) as H.
    destruct (slots !! _) as [[x|]|].
    + rewrite Hen in H. injection H as <-. by rewrite Z.eqb_refl.
    + destruct H as [H|(x & H & Hx)]; rewrite Hen in H; [done|]. injection H as <-. congruence.
    + by rewrite Hen in H.
Qed.

(** What a lookup finds is the live entry of the specification. *)
Lemma find_slot_live cap T s sp id :
  sess_rel cap T s sp ->
  let '(s', f) := find_slot s id T in
  sess_rel cap T s' sp /\ ss_id s' = ss_id s /\ ss_next_id s' = ss_next_id s /\
  match f with
  | Some k => exists r, ss_slots s' !! k = Some (Some r) /\ sp_entries sp !! id = Some r /\
      expired T r = false /\ k = slot_of_id cap id
  | None => forall r, sp_entries sp !! id = Some r -> expired T r = true
  end.
Proof.
  intros Hrel. unfold find_slot. pose proof (ring_loop_spec T id (ss_slots s) 0) as Hf.
  destruct (find_slot_loop T id (ss_slots s) 0) as [slots f]. destruct Hf as [Hcl Hf].
  pose proof (cleared_sess_rel _ _ _ _ _ Hrel Hcl) as Hrel'. split_and!; try done.
  destruct Hrel' as (W' & _ & Ha' & _). destruct f as [k|].
  - destruct Hf as (i & r & -> & Hi & Hid & He). exists r. cbn [Nat.add]. split_and!; try done.
    + rewrite <- Hid. apply Ha'. by apply (entry_lookup cap _ i).
    + rewrite <- Hid. by apply (sw_slots _ _ W' i r).
  - intros r Hr. destruct (expired T r) eqn:E; [done|]. destruct Hrel as (W & _ & _ & Hb).
    pose proof (Hb _ _ Hr E) as Hen. apply entry_slot in Hen as [Hen Hid].
    by rewrite (Hf _ _ Hen Hid) in E.
Qed.

(** Storing back a session that stands for [sp]. *)
Lemma session_put_rel (cap : nat) (ttl0 T N : Z) (ws : WorkingStore) (S : SpecStore) (s s0 : Session) (sp : SpecSession) :
  store_rel cap ttl0 T N ws S -> session_find ws (ss_id s) = Some s0 -> sess_rel cap T s sp ->
  ss_next_id s <= N -> store_rel cap ttl0 T N (session_put ws s) (<[ss_id s := sp]> S).
Proof.
  intros [W Hc Ht Hr Hn] Hf Hs Hle. split; try done.
  - by apply (session_put_spec ws s s0 []).
  - intros sid. destruct (session_put_spec ws s s0 sid W Hf) as [_ ->].
    destruct (decide (sid = ss_id s)) as [->|Hne]; [by rewrite lookup_insert_eq|by rewrite lookup_insert_ne].
  - intros sid x. destruct (session_put_spec ws s s0 sid W Hf) as [_ ->].
    destruct (decide (sid = ss_id s)) as [->|Hne]; [by intros [= <-]|apply Hn].
Qed.

(** Adding an entry at the head. *)
Lemma add_sess_rel cap T s sp r :
  sess_rel cap T s sp -> mr_id r = sp_next sp ->
  sess_rel cap T
    (mkSession (ss_id s) (<[ss_head s := Some r]> (ss_slots s)) (ss_capacity s)
       ((ss_head s + 1) mod ss_capacity s) (ss_next_id s + 1))
    (mkSpec (sp_next sp + 1) (<[sp_next sp := r]> (delete (sp_next sp - Z.of_nat cap) (sp_entries sp)))).
Proof.
  intros ([Hc Hp Hl Hn Hh Hs] & Hnx & Ha & Hb) Hid. rewrite <- Hnx in *.
  assert (ss_head s < length (ss_slots s))%nat as Hlt by (rewrite Hl, Hh; by apply slot_of_id_lt).
  assert (forall k x, ss_slots s !! k = Some (Some x) -> k <> ss_head s -> mr_id x <> ss_next_id s - Z.of_nat cap) as Hold.
  { intros k x Hk Hne Hx. apply Hne. destruct (Hs k x Hk) as (-> & _ & _). rewrite Hh, Hx. unfold slot_of_id.
    f_equal. replace (ss_next_id s - Z.of_nat cap - 1) with (ss_next_id s - 1 + (-1) * Z.of_nat cap) by lia.
    apply Z.mod_add. lia. }
  split_and!; cbn.
  - split; cbn; [done|done|by rewrite length_insert|lia| |].
    + by rewrite Hc, Hh, slot_of_id_next.
    + intros k x Hk. destruct (decide (k = ss_head s)) as [->|Hne].
      * rewrite list_lookup_insert_eq in Hk by done. injection Hk as <-. rewrite Hid, Hh. split_and!; [done|lia|lia|lia].
      * rewrite list_lookup_insert_ne in Hk by done. pose proof (Hold _ _ Hk Hne). destruct (Hs _ _ Hk) as (? & ? & ?).
        split_and!; [done|lia|lia|lia].
  - done.
  - intros id x He. apply entry_slot in He as [He Hx]. cbn in He. rewrite Hc in He.
    destruct (decide (slot_of_id cap id = ss_head s)) as [E|E].
    + rewrite E, list_lookup_insert_eq in He by done. injection He as <-. rewrite <- Hx, Hid. by rewrite lookup_insert_eq.
    + rewrite list_lookup_insert_ne in He by done. pose proof (Hold _ _ He E) as Hne.
      assert (id <> ss_next_id s) by (intros ->; by apply E). rewrite Hx in Hne.
      rewrite lookup_insert_ne, lookup_delete_ne by congruence. apply Ha. unfold entry. rewrite Hc, He.
      by rewrite <- Hx, Z.eqb_refl.
  - intros id x Hx He. unfold entry. cbn. rewrite Hc. destruct (decide (id = ss_next_id s)) as [->|Hne].
    + rewrite lookup_insert_eq in Hx. injection Hx as <-.
      rewrite <- Hh, list_lookup_insert_eq by done. by rewrite Hid, Z.eqb_refl.
    + rewrite lookup_insert_ne in Hx by congruence. apply lookup_delete_Some in Hx as [Hne2 Hx].
      pose proof (Hb _ _ Hx He) as Hen. apply entry_slot in Hen as [Hen Hid2]. rewrite Hc in Hen.
      rewrite list_lookup_insert_ne, Hen, Hid2, Z.eqb_refl; [done|].
      rewrite Hh. intros E. destruct (Hs _ _ Hen) as (_ & _ & Hwin). rewrite Hid2 in Hwin.
      assert (slot_of_id cap (ss_next_id s - Z.of_nat cap) = slot_of_id cap (ss_next_id s)) as E2.
      { unfold slot_of_id. f_equal.
        replace (ss_next_id s - Z.of_nat cap - 1) with (ss_next_id s - 1 + (-1) * Z.of_nat cap) by lia.
        apply Z.mod_add. lia. }
      rewrite <- E2 in E. apply Hne2. symmetry.
      apply (slot_of_id_inj cap _ _ (ss_next_id s - Z.of_nat cap) Hp (eq_sym E)); lia.
Qed.

(** Taking an entry out. *)
Lemma take_sess_rel cap T s sp id :
  sess_rel cap T s sp ->
  sess_rel cap T (set_slots s (<[slot_of_id cap id := None]> (ss_slots s)))
    (mkSpec (sp_next sp) (delete id (sp_entries sp))) \/ entry s id = None.
Proof.
  intros ([Hc Hp Hl Hn Hh Hs] & Hnx & Ha & Hb). destruct (entry s id) as [r|] eqn:Ee; [left|by right].
  apply entry_slot in Ee as [Ee Hid]. rewrite Hc in Ee. pose proof (slot_of_id_lt cap id Hp) as Hlt.
  destruct (Hs _ _ Ee) as (_ & _ & Hw). rewrite Hid in Hw.
  split_and!; cbn.
  - split; cbn; try done; [by rewrite length_insert|]. intros k x Hk.
    destruct (decide (k = slot_of_id cap id)) as [->|Hne].
    + by rewrite list_lookup_insert_eq in Hk by lia.
    + rewrite list_lookup_insert_ne in Hk by done. by apply Hs.
  - done.
  - intros id' x He. apply entry_slot in He as [He Hx]. cbn in He. rewrite Hc in He.
    destruct (decide (slot_of_id cap id' = slot_of_id cap id)) as [E|E].
    + by rewrite E, list_lookup_insert_eq in He by lia.
    + rewrite list_lookup_insert_ne in He by done. rewrite lookup_delete_ne by congruence.
      apply Ha. unfold entry. by rewrite Hc, He, Hx, Z.eqb_refl.
  - intros id' x Hx He. apply lookup_delete_Some in Hx as [Hne Hx]. pose proof (Hb _ _ Hx He) as Hen.
    apply entry_slot in Hen as [Hen Hid2]. rewrite Hc in Hen. unfold entry. cbn. rewrite Hc.
    rewrite list_lookup_insert_ne, Hen, Hid2, Z.eqb_refl; [done|]. intros E. apply Hne.
    destruct (Hs _ _ Hen) as (_ & _ & Hw2). rewrite Hid2 in Hw2.
    apply (slot_of_id_inj cap _ _ (ss_next_id s - Z.of_nat cap) Hp E); lia.
Qed.

Lemma fresh_sess_rel cap T sid : (0 < cap)%nat -> sess_rel cap T (mkSession sid (replicate cap None) cap 0 1) spec_fresh.
Proof.
  intros Hp. split_and!; cbn; try done.
  - split; cbn; try done; [by rewrite length_replicate|].
    intros k r Hk. by apply lookup_replicate in Hk as [? _].
  - intros id r He. apply entry_slot in He as [He _]. cbn in He. by apply lookup_replicate in He as [? _].
Qed.

Lemma store_rel_next (cap : nat) (ttl0 T N N' : Z) (ws : WorkingStore) (S : SpecStore) :
  N <= N' -> store_rel cap ttl0 T N ws S -> store_rel cap ttl0 T N' ws S.
Proof. intros Hle [W Hc Ht Hr Hn]. split; try done. intros sid s Hs. specialize (Hn sid s Hs). lia. Qed.

Lemma get_session_rel (cap : nat) (ttl0 T N : Z) (ws : WorkingStore) (S : SpecStore) (ok : bool) (sid : list Z) :
  store_rel cap ttl0 T N ws S -> 1 <= N ->
  let '(ws', so) := get_session ok ws sid true in
  match so with
  | None => ws' = ws /\ negb ok && bool_decide (S !! sid = None) = true
  | Some s => negb ok && bool_decide (S !! sid = None) = false /\ ss_id s = sid /\
      session_find ws' sid = Some s /\
      sess_rel cap T s (default spec_fresh (S !! sid)) /\
      store_rel cap ttl0 T N ws' (<[sid := default spec_fresh (S !! sid)]> S)
  end.
Proof.
  intros R HN. unfold get_session. pose proof (sr_rel _ _ _ _ _ _ R sid) as Hr.
  destruct (session_find ws sid) as [s|] eqn:Ef.
  - destruct (S !! sid) as [sp|] eqn:Es; [|done]. cbn [default from_option id].
    split_and!; try done; [apply andb_false_r|by apply session_find_name in Ef|].
    by rewrite insert_id.
  - destruct (S !! sid) as [sp|] eqn:Es; [done|]. cbn [negb].
    destruct ok; cbn [negb andb]; [|split; [done|by rewrite bool_decide_true]].
    set (s := mkSession sid _ _ 0 1). destruct R as [W Hc Ht Hrr Hn].
    pose proof (fun x => new_session_spec ws s x W Ef) as Hnew. cbn [ss_id s] in Hnew. cbv zeta in Hnew.
    assert (sess_rel cap T s spec_fresh) as Hs.
    { unfold s. rewrite Hc. apply fresh_sess_rel. rewrite <- Hc. apply W. }
    split_and!; try done.
    + destruct (Hnew sid) as [_ ->]. by rewrite decide_True.
    + split; try done; [by apply (Hnew sid)| |].
      * intros x. destruct (Hnew x) as [_ ->]. destruct (decide (x = sid)) as [->|Hne];
          [by rewrite lookup_insert_eq|by rewrite lookup_insert_ne].
      * intros x y. destruct (Hnew x) as [_ ->]. destruct (decide (x = sid)) as [->|Hne]; [|apply Hn].
        intros [= <-]. cbn. done.
Qed.

Lemma add_step (cap : nat) (ttl0 T N : Z) (ws : WorkingStore) (S : SpecStore) ok alloc sid rec now ttl :
  store_rel cap ttl0 now N ws S -> 1 <= N < 2 ^ 64 - 1 ->
  let '(ws', o) := impl_step ws (WAdd ok alloc sid rec now ttl) in
  let '(S', o') := spec_step cap ttl0 S (WAdd ok alloc sid rec now ttl) in
  o = o' /\ store_rel cap ttl0 now (N + 1) ws' S'.
Proof.
  intros R HN. cbn [impl_step spec_step]. unfold working_store_add.
  pose proof (get_session_rel cap ttl0 now N ws S ok sid R) as Hg.
  destruct (get_session ok ws sid true) as [ws1 so]. specialize (Hg ltac:(lia)). destruct so as [s|].
  2:{ destruct Hg as [-> ->]. split; [done|]. eapply store_rel_next; [|done]. lia. }
  destruct Hg as (-> & Hsid & Hf & Hs & R1). destruct (record_clone alloc rec) as [copy|].
  2:{ split; [done|]. eapply store_rel_next; [|exact R1]. lia. }
  cbv zeta. set (sp := default spec_fresh (S !! sid)) in *.
  pose proof (sr_next _ _ _ _ _ _ R1 _ _ Hf) as Hle. pose proof Hs as (W & Hnx & _ & _).
  pose proof (sw_next _ _ W). rewrite (wrap_small 64) by (unfold urange; lia).
  assert (expiry ws1 now ttl = expiry (mkStore [] cap ttl0) now ttl) as ->.
  { unfold expiry. by rewrite (sr_ttl _ _ _ _ _ _ R1). }
  rewrite Hnx. set (r := stamp copy (sp_next sp) now _).
  pose proof (add_sess_rel cap now s sp r Hs eq_refl) as Hadd. rewrite Hnx in Hadd. split; [done|].
  match type of Hadd with sess_rel _ _ ?s1 ?sp1 =>
    pose proof (session_put_rel cap ttl0 now (N + 1) ws1 _ s1 s sp1
      (store_rel_next _ _ _ N (N + 1) _ _ ltac:(lia) R1)) as Hput end.
  cbn [ss_id ss_next_id] in Hput. rewrite Hsid in Hput, Hadd |- *. specialize (Hput Hf Hadd ltac:(lia)).
  by rewrite insert_insert_eq in Hput.
Qed.

(** A session that is only looked up. *)
Lemma lookup_rel (cap : nat) (ttl0 now N : Z) (ws : WorkingStore) (S : SpecStore) sid id s :
  store_rel cap ttl0 now N ws S -> session_find ws sid = Some s ->
  exists sp, S !! sid = Some sp /\
  let '(s', f) := find_slot s id now in
  sess_rel cap now s' sp /\ ss_id s' = sid /\ ss_next_id s' <= N /\
  store_rel cap ttl0 now N (session_put ws s') S /\
  match f with
  | Some k => exists r, ss_slots s' !! k = Some (Some r) /\ spec_live S sid id now = Some r /\ k = slot_of_id cap id
  | None => spec_live S sid id now = None
  end.
Proof.
  intros R Hf. pose proof (sr_rel _ _ _ _ _ _ R sid) as Hr. rewrite Hf in Hr.
  destruct (S !! sid) as [sp|] eqn:Es; [|done]. exists sp. split; [done|].
  pose proof (find_slot_live cap now s sp id Hr) as Hl. destruct (find_slot s id now) as [s' f].
  destruct Hl as (Hs' & Hid & Hnx & Hfm). pose proof (session_find_name _ _ _ Hf) as Hsid.
  pose proof (sr_next _ _ _ _ _ _ R _ _ Hf) as Hle.
  assert (store_rel cap ttl0 now N (session_put ws s') S) as Hput.
  { pose proof (session_put_rel cap ttl0 now N ws S s' s sp R) as Hp. rewrite Hid, Hsid, insert_id in Hp by done.
    apply Hp; [done|done|lia]. }
  split_and!; try done; [congruence|lia|]. unfold spec_live. rewrite Es. destruct f as [k|].
  - destruct Hfm as (r & Hk & Hr2 & He & ->). exists r. by rewrite Hr2, He.
  - destruct (sp_entries sp !! id) as [r|]; [|done]. by rewrite (Hfm r eq_refl).
Qed.

Lemma get_step (cap : nat) (ttl0 N : Z) (ws : WorkingStore) (S : SpecStore) alloc sid id now :
  store_rel cap ttl0 now N ws S ->
  let '(ws', o) := impl_step ws (WGet alloc sid id now) in
  let '(S', o') := spec_step cap ttl0 S (WGet alloc sid id now) in
  o = o' /\ store_rel cap ttl0 now N ws' S'.
Proof.
  intros R. cbn [impl_step spec_step]. unfold working_store_get, get_session.
  destruct (session_find ws sid) as [s|] eqn:Ef; cbn [negb].
  - destruct (lookup_rel cap ttl0 now N ws S sid id s R Ef) as (sp & Es & H).
    destruct (find_slot s id now) as [s' f]. destruct H as (_ & _ & _ & Hput & Hfm). destruct f as [k|].
    + destruct Hfm as (r & -> & -> & _). done.
    + by rewrite Hfm.
  - pose proof (sr_rel _ _ _ _ _ _ R sid) as Hr. rewrite Ef in Hr. unfold spec_live.
    by destruct (S !! sid).
Qed.

Lemma take_step (cap : nat) (ttl0 N : Z) (ws : WorkingStore) (S : SpecStore) sid id now ns :
  store_rel cap ttl0 now N ws S ->
  let '(ws', o) := impl_step ws (WTake sid id now ns) in
  let '(S', o') := spec_step cap ttl0 S (WTake sid id now ns) in
  o = o' /\ store_rel cap ttl0 now N ws' S'.
Proof.
  intros R. cbn [impl_step spec_step]. unfold working_store_take, get_session.
  destruct (session_find ws sid) as [s|] eqn:Ef; cbn [negb].
  - destruct (lookup_rel cap ttl0 now N ws S sid id s R Ef) as (sp & Es & H).
    destruct (find_slot s id now) as [s' f]. destruct H as (Hs & Hsid & Hle & Hput & Hfm).
    destruct f as [k|]; [|by rewrite Hfm]. destruct Hfm as (r & Hk & Hl & ->). rewrite Hk, Hl.
    destruct (owner_refused ns r); [done|]. split; [done|].
    destruct (take_sess_rel cap now s' sp id Hs) as [Ht|Hnone].
    + match type of Ht with sess_rel _ _ ?s1 ?sp1 =>
        pose proof (session_put_rel cap ttl0 now N ws S s1 s sp1 R) as Hp end.
      cbn [ss_id ss_next_id set_slots] in Hp. rewrite Hsid in Hp. specialize (Hp Ef Ht Hle).
      replace (alter _ sid S) with (<[sid := mkSpec (sp_next sp) (delete id (sp_entries sp))]> S); [exact Hp|].
      apply map_eq. intros x. destruct (decide (x = sid)) as [->|Hne].
      * by rewrite lookup_insert_eq, lookup_alter_eq, Es.
      * by rewrite lookup_insert_ne, lookup_alter_ne.
    + exfalso. destruct Hs as (_ & _ & _ & Hb). unfold spec_live in Hl. rewrite Es in Hl.
      destruct (sp_entries sp !! id) as [x|] eqn:Ex; [|done]. destruct (expired now x) eqn:Ee; [done|].
      injection Hl as ->. by rewrite (Hb _ _ Ex Ee) in Hnone.
  - pose proof (sr_rel _ _ _ _ _ _ R sid) as Hr. rewrite Ef in Hr. unfold spec_live.
    by destruct (S !! sid).
Qed.

Lemma sweep_cleared now slots : cleared now slots (map (sweep_slot now) slots).
Proof.
  induction slots as [|[r|] slots IH]; constructor; try done; [|by left]. cbn.
  destruct (expired now r) eqn:E; [right; eauto|by left].
Qed.

Lemma sweep_find ws now sid :
  ws_wf ws ->
  session_find (fst (working_store_sweep ws now)) sid = sweep_session now <$> session_find ws sid.
Proof.
  intros W. unfold session_find. cbn.
  assert (map (map (sweep_session now)) (ws_buckets ws) !!! session_hash sid
    = map (sweep_session now) (ws_buckets ws !!! session_hash sid)) as ->.
  { apply list_lookup_total_correct. rewrite list_lookup_fmap, (bucket_at ws _ W (session_hash_lt sid)). done. }
  generalize (ws_buckets ws !!! session_hash sid). intros c. induction c as [|s c IH]; [done|]. cbn.
  case_bool_decide; [done|apply IH].
Qed.

Lemma sweep_wf ws now : ws_wf ws -> ws_wf (fst (working_store_sweep ws now)).
Proof.
  intros W. split; cbn; [by rewrite length_map; apply W| | |apply W].
  - intros b c s Hb Hs. rewrite list_lookup_fmap in Hb. destruct (ws_buckets ws !! b) as [c0|] eqn:E; [|done].
    injection Hb as <-. apply list_elem_of_fmap in Hs as (x & -> & Hx). by apply (wf_hash ws W b c0 x).
  - intros b c Hb. rewrite list_lookup_fmap in Hb. destruct (ws_buckets ws !! b) as [c0|] eqn:E; [|done].
    injection Hb as <-. rewrite map_map. by apply (wf_nodup ws W b).
Qed.

Lemma sweep_step (cap : nat) (ttl0 N now : Z) (ws : WorkingStore) (S : SpecStore) :
  store_rel cap ttl0 now N ws S -> store_rel cap ttl0 now N (fst (working_store_sweep ws now)) S.
Proof.
  intros [W Hc Ht Hr Hn]. split; try done; [by apply sweep_wf| |].
  - intros sid. rewrite sweep_find by done. specialize (Hr sid). destruct (session_find ws sid) as [s|]; [|done].
    cbn. destruct (S !! sid) as [sp|]; [|done]. by apply cleared_sess_rel, sweep_cleared.
  - intros sid s. rewrite sweep_find by done. destruct (session_find ws sid) as [s0|] eqn:E; [|done].
    intros [= <-]. exact (Hn sid s0 E).
Qed.

Fixpoint impl_run (ws : WorkingStore) (ops : list WOp) : list WOut :=
  match ops with [] => [] | op :: ops' => let '(ws, o) := impl_step ws op in o :: impl_run ws ops' end.
Fixpoint spec_run (cap : nat) (ttl0 : Z) (S : SpecStore) (ops : list WOp) : list WOut :=
  match ops with [] => [] | op :: ops' => let '(S1, o) := spec_step cap ttl0 S op in o :: spec_run cap ttl0 S1 ops' end.

(** The clock does not run backwards. *)
Fixpoint clock_ok (T : Z) (ops : list WOp) : Prop :=
  match ops with [] => True | op :: ops' => T <= op_now op /\ clock_ok (op_now op) ops' end.

Lemma run_rel (cap : nat) (ttl0 : Z) (ops : list WOp) (T N : Z) (ws : WorkingStore) (S : SpecStore) :
  store_rel cap ttl0 T N ws S -> clock_ok T ops -> 1 <= N -> N + Z.of_nat (length ops) < 2 ^ 64 ->
  impl_run ws ops = spec_run cap ttl0 S ops.
Proof.
  revert T N ws S. induction ops as [|op ops IH]; intros T N ws S R Hclk HN Hlen; [done|].
  destruct Hclk as [Hle Hclk]. cbn [length] in Hlen. apply (store_rel_mono _ _ _ _ _ _ _ Hle) in R.
  assert (let '(ws', o) := impl_step ws op in
    let '(S', o') := spec_step cap ttl0 S op in
    o = o' /\ store_rel cap ttl0 (op_now op) (N + 1) ws' S') as Hstep.
  { destruct op as [ok alloc sid rec now ttl|alloc sid id now|sid id now ns|now]; cbn [op_now] in R.
    - apply (add_step cap ttl0 T N); [done|lia].
    - pose proof (get_step cap ttl0 N ws S alloc sid id now R) as H.
      destruct (impl_step ws _), (spec_step cap ttl0 S _). destruct H as [-> H]. split; [done|].
      eapply store_rel_next; [|exact H]. lia.
    - pose proof (take_step cap ttl0 N ws S sid id now ns R) as H.
      destruct (impl_step ws _), (spec_step cap ttl0 S _). destruct H as [-> H]. split; [done|].
      eapply store_rel_next; [|exact H]. lia.
    - split; [done|]. eapply store_rel_next; [|by apply sweep_step]. lia. }
  cbn [impl_run spec_run]. destruct (impl_step ws op) as [ws' o], (spec_step cap ttl0 S op) as [S' o'].
  destruct Hstep as [-> Hstep]. f_equal. apply (IH (op_now op) (N + 1)); [done|done|lia|lia].
Qed.

Lemma create_rel capacity ttl ws T :
  working_store_create true capacity ttl = Some ws -> 0 <= capacity ->
  store_rel (ws_capacity ws) (ws_default_ttl_ms ws) T 1 ws ∅.
Proof.
  intros H Hc. assert (ws = mkStore (replicate SBUCKETS []) (Z.to_nat (if capacity =? 0 then 256 else capacity))
    (if ttl =? 0 then 3600000 else ttl)) as -> by (unfold working_store_create in H; cbn [negb] in H; congruence).
  clear H. split; try done.
  - split; cbn [ws_buckets ws_capacity]; [by rewrite length_replicate| | |].
    + intros b c s Hb Hs. apply lookup_replicate in Hb as [-> _]. by apply not_elem_of_nil in Hs.
    + intros b c Hb. apply lookup_replicate in Hb as [-> _]. constructor.
    + destruct (Z.eqb_spec capacity 0); lia.
  - intros sid. unfold session_find. cbn [ws_buckets].
    assert (replicate SBUCKETS ([] : list Session) !!! session_hash sid = []) as ->; [|done].
    apply list_lookup_total_correct, lookup_replicate. split; [done|apply session_hash_lt].
  - intros sid s. unfold session_find. cbn [ws_buckets].
    assert (replicate SBUCKETS ([] : list Session) !!! session_hash sid = []) as ->; [|done].
    apply list_lookup_total_correct, lookup_replicate. split; [done|apply session_hash_lt].
Qed.

(** C37: Under any sequence of additions, lookups, removals and sweeps at
    non-decreasing times, allocation failures included, the hashed ring
    buffers answer exactly as a finite map per session in which an id holds
    its record until it expires, is taken by an owner, or [capacity] later
    additions to its session have been made. Sweeping and lazy clearing are
    not observable. *)
Theorem working_store_refines capacity ttl ws ops T :
  working_store_create true capacity ttl = Some ws -> 0 <= capacity -> clock_ok T ops ->
  Z.of_nat (length ops) < 2 ^ 64 - 1 ->
  impl_run ws ops = spec_run (ws_capacity ws) (ws_default_ttl_ms ws) ∅ ops.
Proof.
  intros Hw Hc Hclk Hlen. apply (run_rel _ _ ops T 1); [by apply (create_rel capacity ttl)|done|lia|lia].
Qed.

Definition wit_rec : MemoryRecord := record_init.
Definition wit_wops : list WOp :=
  [WAdd true (fun _ => true) [97] wit_rec 10 5; WAdd true (fun _ => true) [97] wit_rec 11 100;
   WGet (fun _ => true) [97] 1 12; WGet (fun _ => true) [97] 1 15; WAdd true (fun _ => true) [97] wit_rec 16 0;
   WAdd true (fun _ => true) [97] wit_rec 17 0; WGet (fun _ => true) [97] 2 18; WTake [97] 3 18 (Some [98]);
   WTake [97] 3 18 None; WSweep 20; WGet (fun _ => true) [97] 3 21; WGet (fun _ => true) [98] 1 22].

Definition wit_store : WorkingStore := mkStore (replicate SBUCKETS []) 2 50.

Lemma wit_clock : clock_ok 10 wit_wops.
Proof. unfold wit_wops. cbn [clock_ok op_now]. lia. Qed.

Lemma working_store_refines_witness :
  working_store_create true 2 50 = Some wit_store /\
  impl_run wit_store wit_wops = spec_run (ws_capacity wit_store) (ws_default_ttl_ms wit_store) ∅ wit_wops /\
  map (fun o => match o with ORec (Some _) => true | _ => false end) (impl_run wit_store wit_wops)
    = [false; false; true; false; false; false; false; false; true; false; false; false].
Proof.
  split; [reflexivity|]. split; [|vm_compute; reflexivity].
  exact (working_store_refines 2 50 wit_store wit_wops 10 eq_refl ltac:(lia) wit_clock
    ltac:(vm_compute; reflexivity)).
Defined.
