(* ===== verification/CkptCrypt.v ===== *)
(** * Checkpoint files

    Atomic replacement of a file ([fs_write_atomic] of [src/util/fsutil.c]) and
    the encryption envelope of the checkpoints ([src/storage/ckpt_crypt.c]).
    A file and its [.tmp] sibling are their contents; a write is the list of
    the states between its system calls, so that a crash can be placed at any
    of them. *)

From S2P Require Import Prelude Endian Aead AeadCorrect.

(** ** Atomic replacement *)

Record FsState := mkFs { fs_file : option (list Z); fs_tmp : option (list Z) }.

(** Outcomes of the calls: the [.tmp] name fits, [open], the [i]-th [write]
    ([None] an error, [Some n] that [n + 1] bytes were taken), [fsync],
    [close], [rename], and the synchronisation of the directory. *)
Record FsIo := mkFsIo {
  io_name : bool; io_open : bool; io_write : nat -> option nat; io_fsync : bool; io_close : bool;
  io_rename : bool; io_dir : bool
}.

(** The contents of the temporary file after each [write]; every turn takes at
    least one byte, so [length rest] turns are enough. *)
Fixpoint write_loop (fuel : nat) (io : nat -> option nat) (i : nat) (written rest : list Z)
  : list (list Z) * bool :=
  match rest, fuel with
  | [], _ => ([], true)
  | _, O => ([], false)
  | _, S fuel' =>
      match io i with
      | None => ([], false)
      | Some n =>
          let written := written ++ take (S n) rest in
          let '(tr, ok) := write_loop fuel' io (S i) written (drop (S n) rest) in
          (written :: tr, ok)
      end
  end.

(** The states passed through, the last one first reached being the final one,
    and whether 0 is returned. *)
Definition fs_write_atomic (io : FsIo) (st : FsState) (data : list Z) : list FsState * FsState * bool :=
  if negb (io_name io) then ([], st, false)
  else
    let s1 := mkFs (fs_file st) None in
    if negb (io_open io) then ([s1], s1, false)
    else
      let s2 := mkFs (fs_file st) (Some []) in
      let '(tr, ok) := write_loop (length data) (io_write io) 0 [] data in
      let states := map (fun t => mkFs (fs_file st) (Some t)) tr in
      let ok := if ok && negb (io_fsync io) then false else ok in
      let ok := if negb (io_close io) then false else ok in
      if negb ok || negb (io_rename io) then ([s1; s2] ++ states ++ [s1], s1, false)
      else
        let s3 := mkFs (default (Some []) (Some <$> last tr)) None in
        ([s1; s2] ++ states ++ [s3], s3, io_dir io).

(** ** The envelope *)

Definition CKPT_MAGIC : Z := 0x43454B41.
Definition CKPT_VERSION : Z := 1.
Definition CKPT_HDR : nat := 32.

Section ckpt.
Context `{AeadScheme}.

(** [ok] is the outcome of reading the file, memory for it included. *)
Definition read_whole (ok : bool) (file : option (list Z)) : option (list Z) :=
  if ok then file else None.

(** [alloc] is the outcome of the [malloc] and [nonce] of [aegis_fill_random]. *)
Definition ckpt_write (io : FsIo) (alloc : bool) (nonce : option (list Z)) (st : FsState)
  (key : option (list Z)) (plain : list Z) : list FsState * FsState * bool :=
  match key with
  | None => fs_write_atomic io st plain
  | Some key =>
      if negb alloc then ([], st, false)
      else
        match nonce with
        | None => ([], st, false)
        | Some nonce =>
            let hdr := aegis_put_u32le CKPT_MAGIC ++ aegis_put_u32le CKPT_VERSION ++ nonce in
            let '(ct, tag) := as_seal key nonce hdr plain in
            fs_write_atomic io st (hdr ++ ct ++ tag)
        end
  end.

(** [alloc] is the outcome of the [malloc] of the plaintext. *)
Definition ckpt_read (ok alloc : bool) (file : option (list Z)) (key : option (list Z))
  : option (list Z) :=
  match read_whole ok file with
  | None => None
  | Some f =>
      match key with
      | None => Some f
      | Some key =>
          if (length f <? CKPT_HDR + AEAD_TAG_LEN)%nat || negb (aegis_get_u32le f =? CKPT_MAGIC)
             || negb (aegis_get_u32le (drop 4 f) =? CKPT_VERSION) then None
          else
            let plain_len := (length f - CKPT_HDR - AEAD_TAG_LEN)%nat in
            if negb alloc then None
            else as_open key (slice f 8 AEAD_NONCE_LEN) (take CKPT_HDR f)
                   (slice f CKPT_HDR plain_len) (slice f (CKPT_HDR + plain_len) AEAD_TAG_LEN)
      end
  end.

(** ** Lemmas *)

Lemma write_loop_spec fuel io i written rest :
  (length rest <= fuel)%nat ->
  snd (write_loop fuel io i written rest) = true ->
  default written (last (fst (write_loop fuel io i written rest))) = written ++ rest.
Proof.
  revert i written rest. induction fuel as [|fuel IH]; intros i written [|x rest] Hf; cbn [write_loop];
    try (intros; cbn; by rewrite ?app_nil_r).
  destruct (io i) as [n|]; [|done].
  specialize (IH (S i) (written ++ take (S n) (x :: rest)) (drop (S n) (x :: rest))).
  destruct (write_loop _ _ _ _ _) as [tr ok]. cbn [fst snd] in *. intros ->.
  rewrite <- (assoc_L (++)), take_drop in IH. rewrite last_cons.
  specialize (IH ltac:(rewrite length_drop; cbn in *; lia) eq_refl). by destruct (last tr).
Qed.

(** At every point of the write the file is the old one or the new one. *)
Lemma fs_write_atomic_spec io st data :
  let '(tr, fin, ok) := fs_write_atomic io st data in
  (forall s, s ∈ fin :: tr -> fs_file s = fs_file st \/ fs_file s = Some data) /\
  (ok = true -> fs_file fin = Some data).
Proof.
  unfold fs_write_atomic. destruct (io_name io); cbn [negb]; [|split; [set_solver|done]].
  destruct (io_open io); cbn [negb];
    [|split; [intros s Hs; left; by set_unfold; naive_solver|done]].
  pose proof (write_loop_spec (length data) (io_write io) 0 [] data (le_n _)) as Hw.
  destruct (write_loop _ _ _ _ _) as [tr ok]. cbn [fst snd app] in Hw. cbv zeta.
  set (okf := if negb (io_close io) then _ else _).
  destruct (negb okf || negb (io_rename io)) eqn:Ef.
  - split; [|done]. intros s Hs. left. set_unfold. destruct Hs as [->|[->|[->|[Hs|[->|[]]]]]]; try done.
    by destruct Hs as (t & -> & _).
  - apply orb_false_iff in Ef as [Ho _]. apply negb_false_iff in Ho.
    assert (ok = true) as Hok.
    { unfold okf in Ho. destruct (io_close io), (io_fsync io), ok; done. }
    assert (default (Some []) (Some <$> last tr) = Some data) as E.
    { specialize (Hw Hok). destruct (last tr); cbn in *; by rewrite Hw. }
    rewrite E. split; [|done]. intros s Hs. set_unfold. destruct Hs as [->|[->|[->|[Hs|[->|[]]]]]]; auto.
    destruct Hs as (t & -> & _). auto.
Qed.

Lemma ckpt_envelope key nonce plain :
  bytes_ok nonce -> length nonce = AEAD_NONCE_LEN ->
  let hdr := aegis_put_u32le CKPT_MAGIC ++ aegis_put_u32le CKPT_VERSION ++ nonce in
  let '(ct, tag) := as_seal key nonce hdr plain in
  ckpt_read true true (Some (hdr ++ ct ++ tag)) (Some key) = Some plain.
Proof.
  intros Hb Hn. cbv zeta. set (hdr := _ ++ _ ++ nonce).
  assert (length hdr = CKPT_HDR) as Hh by (unfold hdr; rewrite !length_app, Hn; done).
  pose proof (as_open_seal key nonce hdr plain) as Ho. pose proof (as_ct_length key nonce hdr plain) as Hc.
  pose proof (as_tag_length key nonce hdr plain) as Ht.
  destruct (as_seal key nonce hdr plain) as [ct tag]. cbn [fst snd] in *.
  unfold ckpt_read, read_whole. set (f := hdr ++ ct ++ tag).
  assert (length f = CKPT_HDR + length plain + AEAD_TAG_LEN)%nat as Hf
    by (unfold f; rewrite !length_app; lia).
  rewrite (proj2 (Nat.ltb_ge _ _)) by lia. cbn [orb negb].
  assert (aegis_get_u32le f = CKPT_MAGIC) as ->.
  { unfold f, hdr. rewrite <- (assoc_L (++)). by apply get_put_u32le. }
  assert (aegis_get_u32le (drop 4 f) = CKPT_VERSION) as ->.
  { unfold f, hdr. rewrite <- !(assoc_L (++)). by apply get_put_u32le. }
  rewrite !Z.eqb_refl. cbn [negb orb].
  replace (length f - CKPT_HDR - AEAD_TAG_LEN)%nat with (length plain) by lia.
  assert (slice f 8 AEAD_NONCE_LEN = nonce) as ->.
  { unfold f, hdr, slice. rewrite <- !(assoc_L (++)), (assoc_L (++) (aegis_put_u32le _)).
    rewrite drop_app_length' by done. by apply take_app_length'. }
  assert (take CKPT_HDR f = hdr) as -> by (unfold f; by apply take_app_length').
  assert (slice f CKPT_HDR (length plain) = ct) as ->.
  { unfold f, slice. rewrite drop_app_length' by done. by apply take_app_length'. }
  assert (slice f (CKPT_HDR + length plain) AEAD_TAG_LEN = tag) as ->; [|done].
  unfold f, slice. rewrite (assoc_L (++)), drop_app_length' by (rewrite length_app; lia).
  apply take_ge. lia.
Qed.

Lemma ckpt_write_spec io alloc nonce st key plain :
  (forall n, nonce = Some n -> bytes_ok n /\ length n = AEAD_NONCE_LEN) ->
  let '(tr, fin, ok) := ckpt_write io alloc nonce st key plain in
  (forall s, s ∈ fin :: tr ->
     ckpt_read true true (fs_file s) key = ckpt_read true true (fs_file st) key \/
     ckpt_read true true (fs_file s) key = Some plain) /\
  (ok = true -> ckpt_read true true (fs_file fin) key = Some plain).
Proof.
  intros Hn.
  assert (forall data, ckpt_read true true (Some data) key = Some plain ->
    let '(tr, fin, ok) := fs_write_atomic io st data in
    (forall s, s ∈ fin :: tr ->
       ckpt_read true true (fs_file s) key = ckpt_read true true (fs_file st) key \/
       ckpt_read true true (fs_file s) key = Some plain) /\
    (ok = true -> ckpt_read true true (fs_file fin) key = Some plain)) as Hfs.
  { intros data Hd. pose proof (fs_write_atomic_spec io st data) as Hs.
    destruct (fs_write_atomic io st data) as [[tr fin] ok]. destruct Hs as [Hs Hok]. split.
    - intros s Hin. destruct (Hs s Hin) as [->| ->]; auto.
    - intros E. by rewrite (Hok E). }
  unfold ckpt_write. destruct key as [key|]; [|by apply Hfs].
  destruct alloc; cbn [negb]; [|split; [set_solver|done]].
  destruct nonce as [nonce|]; [|split; [set_solver|done]]. destruct (Hn nonce eq_refl) as [Hb Hl].
  pose proof (ckpt_envelope key nonce plain Hb Hl) as He. cbv zeta in He.
  cbv zeta. destruct (as_seal _ _ _ _) as [ct tag]. by apply Hfs.
Qed.

(** C38: At every point where a crash can cut the replacement of a checkpoint,
    encrypted or not, the file reads back as what it held before or as the
    complete new checkpoint, and when the write is reported done it is the
    new one. *)
Theorem ckpt_write_crash_atomic io alloc nonce st key plain :
  (forall n, nonce = Some n -> bytes_ok n /\ length n = AEAD_NONCE_LEN) ->
  let '(tr, fin, ok) := ckpt_write io alloc nonce st key plain in
  (forall s, s ∈ fin :: tr ->
     ckpt_read true true (fs_file s) key = ckpt_read true true (fs_file st) key \/
     ckpt_read true true (fs_file s) key = Some plain) /\
  (ok = true -> ckpt_read true true (fs_file fin) key = Some plain).
Proof. apply ckpt_write_spec. Qed.
End ckpt.

Lemma ckpt_write_crash_atomic_witness :
  let io := mkFsIo true true (fun _ => Some 40%nat) true true true true in
  let '(tr, fin, ok) := ckpt_write io true (Some (replicate 24 7)) (mkFs (Some [1]) None)
    (Some (replicate 32 9)) [4; 5; 6] in
  length tr = 5%nat /\ ok = true /\
  ckpt_read true true (fs_file fin) (Some (replicate 32 9)) = Some [4; 5; 6].
Proof.
  pose proof (ckpt_write_crash_atomic (mkFsIo true true (fun _ => Some 40%nat) true true true true) true
    (Some (replicate 24 7)) (mkFs (Some [1]) None) (Some (replicate 32 9)) [4; 5; 6]) as Hw.
  cbv zeta in *. destruct (ckpt_write _ _ _ _ _ _) as [[tr fin] ok] eqn:E.
  assert (length tr = 5%nat /\ ok = true) as [? ->].
  { vm_compute in E. injection E as <- <- <-. done. }
  split; [done|]. split; [done|]. apply Hw; [|done].
  intros n [= <-]. split; [bytes_lit|reflexivity].
Defined.
