(* ===== verification/Floats.v ===== *)
(** * Floating point

    The C types [double] and [float] as the executable IEEE 754 formats of the
    Standard Library, rounding to nearest even, with the operations and
    comparisons the sources use. *)

From Stdlib Require Export SpecFloat.
From S2P Require Import Prelude.

Definition f64_add : spec_float -> spec_float -> spec_float := SFadd 53 1024.
Definition f64_sub : spec_float -> spec_float -> spec_float := SFsub 53 1024.
Definition f64_mul : spec_float -> spec_float -> spec_float := SFmul 53 1024.
Definition f64_div : spec_float -> spec_float -> spec_float := SFdiv 53 1024.
Definition f32_mul : spec_float -> spec_float -> spec_float := SFmul 24 128.

(** The conversion of an integer. *)
Definition f64_of_Z (z : Z) : spec_float := binary_normalize 53 1024 z 0 false.
Definition f32_of_Z (z : Z) : spec_float := binary_normalize 24 128 z 0 false.

(** A [float] from its bit pattern. *)
Definition f32_of_bits (b : Z) : spec_float :=
  let s := Z.testbit b 31 in
  let e := Z.land (Z.shiftr b 23) 255 in
  let m := Z.land b 0x7FFFFF in
  if e =? 255 then if m =? 0 then S754_infinity s else S754_nan
  else if e =? 0 then
    match m with Zpos p => S754_finite s p (-149) | _ => S754_zero s end
  else match m + 0x800000 with Zpos p => S754_finite s p (e - 150) | _ => S754_nan end.

(** The narrowing conversion. *)
Definition f32_of_f64 (x : spec_float) : spec_float :=
  match x with
  | S754_finite s m e => binary_normalize 24 128 (cond_Zopp s (Zpos m)) e s
  | x => x
  end.
Definition f32_add : spec_float -> spec_float -> spec_float := SFadd 24 128.
Definition f32_sub : spec_float -> spec_float -> spec_float := SFsub 24 128.
Definition f32_div : spec_float -> spec_float -> spec_float := SFdiv 24 128.
Definition f64_sqrt : spec_float -> spec_float := SFsqrt 53 1024.

(** The widening conversion; the mantissa is brought to the wider format. *)
Definition f64_of_f32 (x : spec_float) : spec_float :=
  match x with
  | S754_finite s m e => binary_normalize 53 1024 (cond_Zopp s (Zpos m)) e s
  | x => x
  end.

(** The bit pattern of a [float]; one pattern for every NaN. *)
Definition f32_to_bits (x : spec_float) : Z :=
  let sgn (s : bool) := if s then 2 ^ 31 else 0 in
  match x with
  | S754_zero s => sgn s
  | S754_infinity s => sgn s + 255 * 2 ^ 23
  | S754_nan => 0x7FC00000
  | S754_finite s m e =>
      if e =? -149 then if Zpos m <? 2 ^ 23 then sgn s + Zpos m else sgn s + 2 ^ 23 + (Zpos m - 2 ^ 23)
      else sgn s + (e + 150) * 2 ^ 23 + (Zpos m - 2 ^ 23)
  end.

(** The integer part, towards zero; 0 where C leaves the conversion undefined. *)
Definition sf_trunc (x : spec_float) : Z :=
  match x with
  | S754_finite s m e => cond_Zopp s (if 0 <=? e then Zpos m * 2 ^ e else Zpos m / 2 ^ (- e))
  | _ => 0
  end.

(** [lroundf]: the nearest integer, halves away from zero. *)
Definition sf_lround (x : spec_float) : Z :=
  match x with
  | S754_finite s m e => cond_Zopp s (if 0 <=? e then Zpos m * 2 ^ e else (2 * Zpos m + 2 ^ (- e)) / 2 ^ (1 - e))
  | _ => 0
  end.

(** [<] is a strict order. *)
Lemma sf_ltb_irrefl x : SFltb x x = false.
Proof.
  unfold SFltb, SFcompare. destruct x as [|s| |s m e]; try done; [by destruct s|].
  destruct s; rewrite Z.compare_refl, Pos.compare_refl; done.
Qed.

Lemma sf_ltb_trans x y z : SFltb x y = true -> SFltb y z = true -> SFltb x z = true.
Proof.
  unfold SFltb, SFcompare. destruct x as [|s| |s m e], y as [|s'| |s' m' e'], z as [|s''| |s'' m'' e''];
    try done; try destruct s; try destruct s'; try destruct s''; try done.
  all: repeat match goal with |- context [PosDef.Pos.compare_cont Eq ?a ?b] => change (PosDef.Pos.compare_cont Eq a b) with (Pos.compare a b) end;
    destruct (Z.compare_spec e e'), (Z.compare_spec e' e''), (Z.compare_spec e e''); cbn [CompOpp]; try done; try lia;
    destruct (Pos.compare_spec m m'), (Pos.compare_spec m' m''), (Pos.compare_spec m m''); cbn [CompOpp]; try done; lia.
Qed.

(** Between numbers, not less is transitive. *)
Lemma sf_ltb_neg_trans x y z : x <> S754_nan -> y <> S754_nan -> z <> S754_nan -> SFltb x y = false -> SFltb y z = false -> SFltb x z = false.
Proof.
  unfold SFltb, SFcompare. destruct x as [|s| |s m e], y as [|s'| |s' m' e'], z as [|s''| |s'' m'' e''];
    try done; try destruct s; try destruct s'; try destruct s''; try done.
  all: repeat match goal with |- context [PosDef.Pos.compare_cont Eq ?a ?b] => change (PosDef.Pos.compare_cont Eq a b) with (Pos.compare a b) end;
    destruct (Z.compare_spec e e'), (Z.compare_spec e' e''), (Z.compare_spec e e''); cbn [CompOpp]; try done; try lia;
    destruct (Pos.compare_spec m m'), (Pos.compare_spec m' m''), (Pos.compare_spec m m''); cbn [CompOpp]; try done; lia.
Qed.

Lemma sf_ltb_asym x y : SFltb x y = true -> SFltb y x = false.
Proof.
  intros E. destruct (SFltb y x) eqn:E'; [|done]. pose proof (sf_ltb_trans x y x E E') as Ht. by rewrite sf_ltb_irrefl in Ht.
Qed.
