(* ===== verification/OpenTable.v ===== *)
(** * Open addressing without tombstones

    The linear-probing tables of the vector indexes: the dense map and the
    vector counts of [src/storage/semantic_index.c], the node map of
    [src/storage/hnsw.c]. Slots are free or hold a key and a value; the capacity
    is a power of two; a deletion slides later members of the probe chain back
    over the hole. The abstract view is the finite map [ot_map]. *)

From S2P Require Import Prelude Endian.

(** ** Cyclic positions *)

Section cyclic.
Context (cap : nat).

Definition wadd (a d : nat) : nat := if (a + d <? cap)%nat then (a + d)%nat else (a + d - cap)%nat.
Definition wdist (a b : nat) : nat := if (a <=? b)%nat then (b - a)%nat else (b + cap - a)%nat.
End cyclic.

(** Decide linear facts over cyclic positions. *)
Ltac cyclic :=
  unfold wadd, wdist in *;
  repeat match goal with
  | |- context [(?a <? ?b)%nat] => destruct (Nat.ltb_spec a b)
  | |- context [(?a <=? ?b)%nat] => destruct (Nat.leb_spec a b)
  | H : context [(?a <? ?b)%nat] |- _ => destruct (Nat.ltb_spec a b)
  | H : context [(?a <=? ?b)%nat] |- _ => destruct (Nat.leb_spec a b)
  end; try lia.

Lemma wadd_wdist cap a b : (a < cap)%nat -> (b < cap)%nat -> wadd cap a (wdist cap a b) = b.
Proof. intros. cyclic. Qed.

Lemma wadd_bound cap a d : (a < cap)%nat -> (d < cap)%nat -> (wadd cap a d < cap)%nat.
Proof. intros. cyclic. Qed.

Lemma wdist_bound cap a b : (a < cap)%nat -> (b < cap)%nat -> (wdist cap a b < cap)%nat.
Proof. intros. cyclic. Qed.

(** A path that goes through [i] and beyond [j] goes through the slot after
    [j]. *)
Lemma path_through cap h a i j d : (h < cap)%nat -> (a < cap)%nat -> (i < cap)%nat -> (j < cap)%nat ->
  (d < wdist cap h a)%nat -> wadd cap h d = i -> (wdist cap i j < wdist cap i a)%nat -> wadd cap j 1 <> a ->
  wadd cap j 1 <> i /\ wadd cap h (d + wdist cap i (wadd cap j 1)) = wadd cap j 1 /\ (d + wdist cap i (wadd cap j 1) < wdist cap h a)%nat.
Proof. intros. cyclic. Qed.

Lemma path_avoids cap h i j d : (h < cap)%nat -> (i < cap)%nat -> (j < cap)%nat ->
  (0 < wdist cap i h <= wdist cap i j)%nat -> (d < wdist cap h j)%nat -> wadd cap h d <> i.
Proof. intros. cyclic. Qed.

Lemma path_moves cap h i j d : (h < cap)%nat -> (i < cap)%nat -> (j < cap)%nat -> i <> j ->
  ~ (0 < wdist cap i h <= wdist cap i j)%nat -> (d < wdist cap h i)%nat ->
  (d < wdist cap h j)%nat /\ wadd cap h d <> i /\ wadd cap h d <> j.
Proof. intros. cyclic. Qed.

Lemma wdist_next cap i j f : (i < cap)%nat -> (j < cap)%nat -> (f < cap)%nat -> (wdist cap i j < wdist cap i f)%nat ->
  (wadd cap j 1 < cap)%nat /\ wdist cap i (wadd cap j 1) = (wdist cap i j + 1)%nat /\ i <> wadd cap j 1 /\ wdist cap j f = S (wdist cap (wadd cap j 1) f).
Proof. intros. cyclic. Qed.

Lemma wdist_self cap i : wdist cap i i = 0%nat.
Proof. cyclic. Qed.

Lemma wdist_pos cap i j : (i < cap)%nat -> (j < cap)%nat -> i <> j -> (0 < wdist cap i j)%nat.
Proof. intros. cyclic. Qed.

(** The table position of a key, and the slot after one: [& mask]. *)
Definition ot_home (cap : nat) (k : Z) : nat := Z.to_nat (Z.land (mix64 k) (Z.of_nat cap - 1)).
Definition ot_next (cap i : nat) : nat := Z.to_nat (Z.land (Z.of_nat i + 1) (Z.of_nat cap - 1)).

Definition pow2 (cap : nat) : Prop := exists e, cap = (2 ^ e)%nat.

Lemma pow2_pos cap : pow2 cap -> (0 < cap)%nat.
Proof. intros [e ->]. induction e; cbn; lia. Qed.

Lemma pow2_double cap : pow2 cap -> pow2 (cap * 2).
Proof. intros [e ->]. exists (S e). cbn. lia. Qed.

Lemma pow2_land cap x : pow2 cap -> Z.land x (Z.of_nat cap - 1) = x mod Z.of_nat cap.
Proof.
  intros [e ->]. rewrite Nat2Z.inj_pow.
  replace (Z.of_nat 2 ^ Z.of_nat e - 1) with (Z.ones (Z.of_nat e)) by (rewrite Z.ones_equiv; lia).
  rewrite Z.land_ones by lia. done.
Qed.

Lemma ot_home_lt cap k : pow2 cap -> (ot_home cap k < cap)%nat.
Proof.
  intros Hp. pose proof (pow2_pos cap Hp). unfold ot_home. rewrite pow2_land by done.
  pose proof (Z.mod_pos_bound (mix64 k) (Z.of_nat cap)). lia.
Qed.

Lemma ot_next_wadd cap i : pow2 cap -> (i < cap)%nat -> ot_next cap i = wadd cap i 1.
Proof.
  intros Hp Hi. unfold ot_next. rewrite pow2_land by done. cyclic.
  - rewrite Z.mod_small by lia. lia.
  - replace (Z.of_nat i + 1) with (Z.of_nat cap) by lia. rewrite Z.mod_same by lia. lia.
Qed.

Section table.
Context {V : Type}.
Implicit Types (t : list (option (Z * V))) (k : Z) (v : V).

(** ** Operations *)

(** [map_probe]: the slot of [k], or the free slot where it would go. *)
Fixpoint probe_loop (n : nat) t k (i : nat) : nat :=
  match n with
  | O => i
  | S n' =>
      match t !! i with
      | Some (Some (k', _)) => if k' =? k then i else probe_loop n' t k (ot_next (length t) i)
      | _ => i
      end
  end.
Definition map_probe t k : nat := probe_loop (length t) t k (ot_home (length t) k).

(** The rehash of a growing table: the first free slot from the home. *)
Fixpoint free_loop (n : nat) t (i : nat) : nat :=
  match n with
  | O => i
  | S n' => match t !! i with Some (Some _) => free_loop n' t (ot_next (length t) i) | _ => i end
  end.
Definition place t (kv : Z * V) : list (option (Z * V)) :=
  <[free_loop (length t) t (ot_home (length t) kv.1) := Some kv]> t.
Definition rehash_into (newcap : nat) (l : list (Z * V)) : list (option (Z * V)) := foldl place (replicate newcap None) l.

Definition ot_get t k : option V :=
  match t !! map_probe t k with Some (Some (_, v)) => Some v | _ => None end.

Definition ot_set t k v : list (option (Z * V)) := <[map_probe t k := Some (k, v)]> t.

(** Whether the home [h] lies cyclically in [(i, j]]. *)
Definition home_between (i h j : nat) : bool :=
  if (i <=? j)%nat then (i <? h)%nat && (h <=? j)%nat else (i <? h)%nat || (h <=? j)%nat.

(** Slide the chain back over the hole [i], having looked at the slots up to
    [j]. *)
Fixpoint shift_loop (n : nat) t (i j : nat) : list (option (Z * V)) :=
  match n with
  | O => t
  | S n' =>
      let j := ot_next (length t) j in
      match t !! j with
      | Some (Some (k, v)) =>
          if home_between i (ot_home (length t) k) j then shift_loop n' t i j
          else shift_loop n' (<[j := None]> (<[i := Some (k, v)]> t)) j j
      | _ => t
      end
  end.
Definition delete_at t (i : nat) : list (option (Z * V)) := shift_loop (length t) (<[i := None]> t) i i.

Definition ot_del t k : list (option (Z * V)) :=
  match t !! map_probe t k with Some (Some _) => delete_at t (map_probe t k) | _ => t end.

(** ** The view *)

Definition entries t : list (Z * V) := omap id t.
Definition ot_map t : gmap Z V := list_to_map (entries t).
Definition holds_at t (j : nat) k v : Prop := t !! j = Some (Some (k, v)).
Definition taken t (j : nat) : Prop := exists kv, t !! j = Some (Some kv).
Definition free_at t (j : nat) : Prop := t !! j = Some None.

(** Every key is held once, every slot between a key's home and the key is
    taken, and some slot is free. *)
Record ot_wf t : Prop := {
  ow_pow : pow2 (length t);
  ow_uniq : forall i j k v w, holds_at t i k v -> holds_at t j k w -> i = j;
  ow_reach : forall j k v, holds_at t j k v ->
    forall d, (d < wdist (length t) (ot_home (length t) k) j)%nat -> taken t (wadd (length t) (ot_home (length t) k) d);
  ow_free : exists j, free_at t j
}.

Lemma slot_cases t j : (j < length t)%nat -> free_at t j \/ exists k v, holds_at t j k v.
Proof.
  intros Hj. destruct (lookup_lt_is_Some_2 t j Hj) as [[[k v]|] E]; [right; by exists k, v|by left].
Qed.

Lemma taken_not_free t j : taken t j -> free_at t j -> False.
Proof. intros [kv E] Hf. unfold free_at in Hf. congruence. Qed.

Lemma elem_of_entries t k v : (k, v) ∈ entries t <-> exists j, holds_at t j k v.
Proof.
  unfold entries. rewrite list_elem_of_omap. split.
  - intros (x & Hx & E). cbn in E. subst x. apply list_elem_of_lookup in Hx as [j Hj]. by exists j.
  - intros (j & Hj). exists (Some (k, v)). split; [|done]. apply list_elem_of_lookup. by exists j.
Qed.

Lemma keys_nodup t : (forall i j k v w, holds_at t i k v -> holds_at t j k w -> i = j) -> NoDup (entries t).*1.
Proof.
  induction t as [|x t IH]; intros Hu; [constructor|].
  assert (NoDup (entries t).*1) as IHt.
  { apply IH. intros i j k v w Hi Hj. specialize (Hu (S i) (S j) k v w Hi Hj). lia. }
  destruct x as [[k v]|]; cbn; [|done]. constructor; [|done]. intros Hin.
  apply list_elem_of_fmap in Hin as ([k' w] & -> & Hin). apply elem_of_entries in Hin as [j Hj]. by specialize (Hu 0%nat (S j) k' v w eq_refl Hj).
Qed.

Lemma ot_map_lookup t k v : ot_wf t -> ot_map t !! k = Some v <-> exists j, holds_at t j k v.
Proof.
  intros W. unfold ot_map. rewrite <- elem_of_list_to_map by (apply keys_nodup, W). apply elem_of_entries.
Qed.

Lemma ot_map_size t : ot_wf t -> size (ot_map t) = length (entries t).
Proof.
  intros W. unfold ot_map. rewrite <- (length_fmap fst (entries t)). rewrite <- (size_list_to_set (C := gset Z)) by (apply keys_nodup, W).
  rewrite <- dom_list_to_map_L. by rewrite size_dom.
Qed.

(** ** Probing *)

Definition probe_stops t k (j : nat) : bool :=
  match t !! j with Some (Some (k', _)) => k' =? k | _ => true end.

Lemma first_stop (p : nat -> bool) n :
  p n = true -> exists m, (m <= n)%nat /\ p m = true /\ forall i, (i < m)%nat -> p i = false.
Proof.
  induction n as [n IH] using lt_wf_ind. intros Hn. destruct (decide (Exists (fun i => p i = true) (seq 0 n))) as [He|He].
  - apply Exists_exists in He as (i & Hi & Hp). apply elem_of_seq in Hi. destruct (IH i) as (m & ? & ? & ?); [lia|done|].
    exists m. split; [lia|done].
  - exists n. split; [lia|]. split; [done|]. intros i Hi. destruct (p i) eqn:E; [|done]. exfalso. apply He, Exists_exists.
    exists i. split; [apply elem_of_seq; lia|done].
Qed.

Lemma probe_loop_stop t k n i : pow2 (length t) -> (i < length t)%nat -> (n < length t)%nat ->
  probe_stops t k (wadd (length t) i n) = true -> (forall d, (d < n)%nat -> probe_stops t k (wadd (length t) i d) = false) ->
  forall fuel, (n < fuel)%nat -> probe_loop fuel t k i = wadd (length t) i n.
Proof.
  intros Hp. revert i. induction n as [|n IH]; intros i Hi Hn Hs Hd fuel Hf; (destruct fuel as [|fuel]; [lia|]); cbn [probe_loop].
  - assert (wadd (length t) i 0 = i) as E by cyclic. rewrite E in *. unfold probe_stops in Hs.
    destruct (t !! i) as [[[k' v]|]|]; [by rewrite Hs|done|done].
  - assert (wadd (length t) i 0 = i) as E by cyclic. pose proof (Hd 0%nat ltac:(lia)) as H0. rewrite E in H0. unfold probe_stops in H0.
    destruct (t !! i) as [[[k' v]|]|]; [rewrite H0|done|done]. rewrite ot_next_wadd by done.
    assert (forall d, (S d < length t)%nat -> wadd (length t) (wadd (length t) i 1) d = wadd (length t) i (S d)) as Ea by (intros; cyclic).
    rewrite (IH (wadd (length t) i 1)); [apply Ea; lia|cyclic|lia|rewrite Ea by lia; done| |lia].
    intros d Hlt. rewrite Ea by lia. apply Hd. lia.
Qed.

(** The probe ends at the key or at a free slot, past taken slots of other
    keys. *)
Lemma map_probe_spec t k : pow2 (length t) -> (exists j, free_at t j) ->
  exists n, (n < length t)%nat /\ map_probe t k = wadd (length t) (ot_home (length t) k) n /\
    probe_stops t k (map_probe t k) = true /\
    forall d, (d < n)%nat -> probe_stops t k (wadd (length t) (ot_home (length t) k) d) = false.
Proof.
  intros Hp [f Hf]. pose proof (ot_home_lt _ k Hp) as Hh. set (h := ot_home (length t) k) in *.
  assert (f < length t)%nat as Hfl by (by eapply lookup_lt_Some).
  destruct (first_stop (fun d => probe_stops t k (wadd (length t) h d)) (wdist (length t) h f)) as (n & Hn & Hs & Hd).
  { assert (wadd (length t) h (wdist (length t) h f) = f) as -> by cyclic. unfold probe_stops. by rewrite Hf. }
  assert (n < length t)%nat by cyclic. exists n. split; [done|].
  assert (map_probe t k = wadd (length t) h n) as E by (unfold map_probe; fold h; by apply probe_loop_stop; try lia).
  rewrite E. done.
Qed.

Lemma probe_stops_false t k j : (j < length t)%nat -> probe_stops t k j = false <-> exists k' v, holds_at t j k' v /\ k' <> k.
Proof.
  intros Hj. unfold probe_stops, holds_at. destruct (lookup_lt_is_Some_2 t j Hj) as [x E]. rewrite E. destruct x as [[k' v]|].
  - rewrite Z.eqb_neq. split; [intros; by exists k', v|]. by intros (? & ? & [= -> ->] & ?).
  - split; [done|]. by intros (? & ? & ? & _).
Qed.

Lemma holds_lt t j k v : holds_at t j k v -> (j < length t)%nat.
Proof. apply lookup_lt_Some. Qed.

Lemma wadd_lt t h d : (h < length t)%nat -> (d < length t)%nat -> (wadd (length t) h d < length t)%nat.
Proof. intros. cyclic. Qed.

(** A held key is found. *)
Lemma map_probe_found t k v j : ot_wf t -> holds_at t j k v -> map_probe t k = j.
Proof.
  intros [Hp Hu Hr Hf] Hj. destruct (map_probe_spec t k Hp Hf) as (n & Hn & E & Hs & Hd).
  pose proof (ot_home_lt _ k Hp) as Hh. pose proof (holds_lt _ _ _ _ Hj) as Hjl. set (h := ot_home (length t) k) in *.
  destruct (decide (wdist (length t) h j < n)%nat) as [Hlt|Hge].
  - apply Hd in Hlt. assert (wadd (length t) h (wdist (length t) h j) = j) as Ej by cyclic. rewrite Ej in Hlt.
    apply probe_stops_false in Hlt as (k' & w & Hk & Hne); [|done]. unfold holds_at in *. congruence.
  - destruct (decide (n = wdist (length t) h j)) as [->|Hne]; [rewrite E; cyclic|].
    destruct (Hr j k v Hj n) as [[k' w] Ht]; [fold h; lia|]. fold h in Ht. rewrite E in Hs |- *. unfold probe_stops in Hs. rewrite Ht in Hs.
    apply Z.eqb_eq in Hs. subst k'. by apply (Hu _ _ k w v).
Qed.

Lemma map_probe_cases t k : ot_wf t ->
  match ot_map t !! k with
  | Some v => holds_at t (map_probe t k) k v
  | None => free_at t (map_probe t k) /\ exists n, (n < length t)%nat /\ map_probe t k = wadd (length t) (ot_home (length t) k) n /\
      forall d, (d < n)%nat -> taken t (wadd (length t) (ot_home (length t) k) d)
  end.
Proof.
  intros W. destruct (ot_map t !! k) as [v|] eqn:Em.
  - apply (ot_map_lookup t k v W) in Em as [j Hj]. by rewrite (map_probe_found t k v j W Hj).
  - destruct (map_probe_spec t k (ow_pow _ W) (ow_free _ W)) as (n & Hn & E & Hs & Hd).
    pose proof (ot_home_lt _ k (ow_pow _ W)) as Hh. pose proof (wadd_lt t _ _ Hh Hn) as Hl. split.
    + destruct (slot_cases t (map_probe t k)) as [?|(k' & v & Hk)]; [by rewrite E|done|]. exfalso.
      unfold probe_stops in Hs. rewrite Hk in Hs. apply Z.eqb_eq in Hs. subst k'.
      assert (ot_map t !! k = Some v) by (apply (ot_map_lookup t k v W); eauto). congruence.
    + exists n. split_and!; try done. intros d Hdn. apply Hd in Hdn as Hx.
      apply probe_stops_false in Hx as (k' & v & Hk & _); [|apply wadd_lt; lia]. by eexists.
Qed.

Lemma ot_get_spec t k : ot_wf t -> ot_get t k = ot_map t !! k.
Proof.
  intros W. unfold ot_get. pose proof (map_probe_cases t k W) as Hc. destruct (ot_map t !! k) as [v|].
  - by rewrite Hc.
  - destruct Hc as [-> _]. done.
Qed.

(** ** Storing *)

Lemma holds_insert_table t i j k v kv : (i < length t)%nat ->
  holds_at (<[i := Some kv]> t) j k v <-> (i = j /\ kv = (k, v)) \/ (i <> j /\ holds_at t j k v).
Proof.
  intros Hi. unfold holds_at. destruct (decide (i = j)) as [->|Hne].
  - rewrite list_lookup_insert_eq by done. naive_solver.
  - rewrite list_lookup_insert_ne by done. naive_solver.
Qed.

Lemma taken_insert t i j kv : taken t j -> taken (<[i := Some kv]> t) j.
Proof.
  intros [x Hx]. destruct (decide (i = j)) as [->|Hne].
  - exists kv. apply list_lookup_insert_eq. by eapply lookup_lt_Some.
  - exists x. by rewrite list_lookup_insert_ne.
Qed.

Lemma map_eq_holds t (m : gmap Z V) : ot_wf t -> (forall k v, m !! k = Some v <-> exists j, holds_at t j k v) -> ot_map t = m.
Proof.
  intros W Hm. apply map_eq. intros k. destruct (ot_map t !! k) as [v|] eqn:E.
  - apply (ot_map_lookup t k v W) in E. symmetry. by apply Hm.
  - destruct (m !! k) as [v|] eqn:E'; [|done]. apply Hm, (ot_map_lookup t k v W) in E'. congruence.
Qed.

(** Overwriting a held key. *)
Lemma store_held t k v w j : ot_wf t -> holds_at t j k v -> ot_wf (<[j := Some (k, w)]> t) /\ ot_map (<[j := Some (k, w)]> t) = <[k := w]> (ot_map t).
Proof.
  intros W Hj. pose proof (holds_lt _ _ _ _ Hj) as Hl. pose proof W as [Hp Hu Hr Hf].
  assert (ot_wf (<[j := Some (k, w)]> t)) as W'.
  { split; rewrite ?length_insert; [done| | |].
    - intros a b k' x y Ha Hb. apply holds_insert_table in Ha; [|done]. apply holds_insert_table in Hb; [|done].
      destruct Ha as [[<- [= <- <-]]|[_ Ha]], Hb as [[<- [= Hk]]|[_ Hb]]; try done; subst; try (by eapply Hu).
    - intros a k' x Ha d Hd. apply taken_insert. apply holds_insert_table in Ha as [[<- [= <- <-]]|[_ Ha]]; [by eapply (Hr j k v)|by eapply Hr|done].
    - destruct Hf as [f Hf]. exists f. unfold free_at. rewrite list_lookup_insert_ne; [done|]. intros ->. unfold holds_at, free_at in *. congruence. }
  split; [done|]. apply map_eq_holds; [done|]. intros k' x. rewrite lookup_insert. split.
  - case_decide as E; [intros [= <-]; subst k'; exists j; apply holds_insert_table; [done|by left]|]. intros Hx.
    apply (ot_map_lookup t _ _ W) in Hx as [a Ha]. exists a. apply holds_insert_table; [done|]. right. split; [|done].
    intros ->. unfold holds_at in *. congruence.
  - intros [a Ha]. apply holds_insert_table in Ha as [[<- [= <- <-]]|[Hne Ha]]; [by rewrite decide_True| |done].
    rewrite decide_False; [apply (ot_map_lookup t _ _ W); eauto|]. intros ->. apply Hne. by eapply Hu.
Qed.

(** Claiming the free slot a probe for an absent key ends at, another slot
    staying free. *)
Lemma store_fresh t k v j n :
  ot_wf t -> ot_map t !! k = None -> free_at t j -> (n < length t)%nat -> j = wadd (length t) (ot_home (length t) k) n ->
  (forall d, (d < n)%nat -> taken t (wadd (length t) (ot_home (length t) k) d)) -> (exists f, f <> j /\ free_at t f) ->
  ot_wf (<[j := Some (k, v)]> t) /\ ot_map (<[j := Some (k, v)]> t) = <[k := v]> (ot_map t).
Proof.
  intros W Hk Hj Hn Ej Hd [f [Hfj Hf]]. assert (j < length t)%nat as Hl by (by eapply lookup_lt_Some). pose proof W as [Hp Hu Hr _].
  pose proof (ot_home_lt _ k Hp) as Hh.
  assert (forall i x, ~ holds_at t i k x) as Hno.
  { intros i x Hi. assert (ot_map t !! k = Some x) by (apply (ot_map_lookup t _ _ W); eauto). congruence. }
  assert (ot_wf (<[j := Some (k, v)]> t)) as W'.
  { split; rewrite ?length_insert; [done| | |].
    - intros a b k' x y Ha Hb. apply holds_insert_table in Ha; [|done]. apply holds_insert_table in Hb; [|done].
      destruct Ha as [[<- [= <- <-]]|[_ Ha]], Hb as [[<- [= Hk']]|[_ Hb]]; try done; subst; [by destruct (Hno _ _ Hb)|by destruct (Hno _ _ Ha)|by eapply Hu].
    - intros a k' x Ha d Hd'. apply taken_insert. apply holds_insert_table in Ha as [[<- [= <- <-]]|[_ Ha]]; [|by eapply Hr|done].
      apply Hd. subst j. cyclic.
    - exists f. unfold free_at. by rewrite list_lookup_insert_ne. }
  split; [done|]. apply map_eq_holds; [done|]. intros k' x. rewrite lookup_insert. split.
  - case_decide as E; [intros [= <-]; subst k'; exists j; apply holds_insert_table; [done|by left]|]. intros Hx.
    apply (ot_map_lookup t _ _ W) in Hx as [a Ha]. exists a. apply holds_insert_table; [done|]. right. split; [|done].
    intros ->. unfold holds_at, free_at in *. congruence.
  - intros [a Ha]. apply holds_insert_table in Ha as [[<- [= <- <-]]|[Hne Ha]]; [by rewrite decide_True| |done].
    rewrite decide_False; [apply (ot_map_lookup t _ _ W); eauto|]. intros ->. by destruct (Hno _ _ Ha).
Qed.

(** ** Counting *)

Lemma entries_insert t j x : (j < length t)%nat ->
  entries (<[j := x]> t) ≡ₚ match x with Some kv => kv :: entries (<[j := None]> t) | None => entries (<[j := None]> t) end.
Proof.
  intros Hj. rewrite !insert_take_drop by done. unfold entries. rewrite !omap_app. destruct x as [kv|]; [|done]. cbn. by rewrite <- Permutation_middle.
Qed.

Lemma two_free t : (length (entries t) + 1 < length t)%nat -> forall j, exists f, f <> j /\ free_at t f.
Proof.
  intros Hc j. set (fr f := match t !! f with Some None => true | _ => false end).
  destruct (decide (Exists (fun f => f <> j /\ fr f = true) (seq 0 (length t)))) as [He|He].
  { apply Exists_exists in He as (f & _ & ? & Hf). exists f. split; [done|]. unfold fr in Hf. unfold free_at. destruct (t !! f) as [[|]|]; done. }
  exfalso. assert (forall i, (i < length t)%nat -> i <> j -> taken t i) as Hall.
  { intros i Hi Hne. destruct (slot_cases t i Hi) as [Hf|(k & v & Hk)]; [|by exists (k, v)]. exfalso. apply He, Exists_exists.
    exists i. split; [apply elem_of_seq; lia|]. split; [done|]. unfold fr. by rewrite Hf. }
  clear He fr. revert j Hall Hc. unfold entries. induction t as [|x t IH]; intros j Hall Hc; cbn [omap list_omap length] in *; [lia|].
  destruct j as [|j].
  - assert (length (omap id t) = length t) as El.
    { clear -Hall. induction t as [|y t IH]; [done|]. destruct (Hall 1%nat ltac:(cbn; lia) ltac:(lia)) as [kv E]. cbn in E. injection E as ->.
      cbn. f_equal. apply IH. intros i Hi Hne. destruct i as [|i]; [done|]. destruct (Hall (S (S i)) ltac:(cbn in *; lia) ltac:(lia)) as [z Hz]. by exists z. }
    cbn in Hc. destruct x; cbn in Hc; lia.
  - destruct (Hall 0%nat ltac:(lia) ltac:(lia)) as [kv E]. cbn in E. injection E as ->. cbn in Hc. apply (IH j); [|lia].
    intros i Hi Hne. destruct (Hall (S i) ltac:(lia) ltac:(lia)) as [z Hz]. by exists z.
Qed.

Lemma ot_set_spec t k v :
  ot_wf t -> (length (entries t) + 1 < length t)%nat \/ is_Some (ot_map t !! k) ->
  ot_wf (ot_set t k v) /\ ot_map (ot_set t k v) = <[k := v]> (ot_map t).
Proof.
  intros W Hr. unfold ot_set. pose proof (map_probe_cases t k W) as Hc. destruct (ot_map t !! k) as [w|] eqn:Em.
  - by eapply store_held.
  - destruct Hc as [Hf (n & Hn & E & Hd)]. destruct Hr as [Hr|[? ?]]; [|done]. rewrite E in *. eapply store_fresh; try done. by apply two_free.
Qed.

Lemma length_ot_set t k v : length (ot_set t k v) = length t.
Proof. apply length_insert. Qed.

(** ** Rehashing *)

Lemma free_loop_probe t k n i : (forall j v, ~ holds_at t j k v) -> free_loop n t i = probe_loop n t k i.
Proof.
  intros Hno. revert i. induction n as [|n IH]; intros i; [done|]. cbn [free_loop probe_loop].
  destruct (t !! i) as [[[k' v]|]|] eqn:E; [|done|done]. destruct (Z.eqb_spec k' k) as [->|Hne]; [by destruct (Hno i v)|]. apply IH.
Qed.

Lemma place_set t k v : ot_wf t -> ot_map t !! k = None -> place t (k, v) = ot_set t k v.
Proof.
  intros W Hk. unfold place, ot_set, map_probe. cbn [fst]. rewrite (free_loop_probe t k); [done|]. intros j w Hj.
  assert (ot_map t !! k = Some w) by (apply (ot_map_lookup t _ _ W); eauto). congruence.
Qed.

Lemma empty_table n : entries (replicate n (@None (Z * V))) = [].
Proof. induction n; [done|]. by cbn. Qed.

Lemma empty_table_wf n : pow2 n -> ot_wf (replicate n (@None (Z * V))).
Proof.
  intros Hp. pose proof (pow2_pos _ Hp). assert (forall j k v, ~ holds_at (replicate n (@None (Z * V))) j k v) as Hno.
  { intros j k v Hj. unfold holds_at in Hj. by apply lookup_replicate in Hj as [? _]. }
  split; [by rewrite length_replicate| | |].
  - intros i j k v w Hi. by destruct (Hno _ _ _ Hi).
  - intros j k v Hj. by destruct (Hno _ _ _ Hj).
  - exists 0%nat. unfold free_at. by rewrite lookup_replicate_2 by lia.
Qed.

Lemma rehash_prefix t l :
  ot_wf t -> NoDup l.*1 -> (forall k, k ∈ l.*1 -> ot_map t !! k = None) -> (length (entries t) + length l < length t)%nat ->
  ot_wf (foldl place t l) /\ (forall k, ot_map (foldl place t l) !! k = match (list_to_map l : gmap Z V) !! k with Some v => Some v | None => ot_map t !! k end) /\
  length (foldl place t l) = length t.
Proof.
  revert t. induction l as [|[k v] l IH]; intros t W Hnd Hno Hc; cbn [foldl].
  { split; [done|]. split; [|done]. intros k. cbn. by rewrite lookup_empty. }
  cbn in Hnd, Hc. apply NoDup_cons in Hnd as [Hk Hnd]. assert (ot_map t !! k = None) as Hkn by (apply Hno; by left).
  rewrite (place_set t k v W Hkn). destruct (ot_set_spec t k v W) as [W1 E1]; [left; lia|].
  destruct (IH (ot_set t k v)) as (W2 & E2 & L2).
  - done.
  - done.
  - intros k' Hk'. rewrite E1, lookup_insert_ne; [apply Hno; by right|]. by intros ->.
  - rewrite length_ot_set. rewrite <- (ot_map_size _ W1), E1, map_size_insert_None, (ot_map_size _ W) by done. lia.
  - split; [done|]. split; [|by rewrite L2, length_ot_set]. intros k'. rewrite E2, E1. cbn [list_to_map foldr uncurry fst snd]. fold (list_to_map (M := gmap Z V) l).
    destruct (decide (k = k')) as [->|Hne].
    + rewrite (not_elem_of_list_to_map_1 (M := gmap Z) l k') by done. by rewrite !lookup_insert_eq.
    + by rewrite !lookup_insert_ne.
Qed.

Lemma rehash_into_spec newcap (l : list (Z * V)) :
  pow2 newcap -> NoDup l.*1 -> (length l < newcap)%nat ->
  ot_wf (rehash_into newcap l) /\ ot_map (rehash_into newcap l) = list_to_map l /\ length (rehash_into newcap l) = newcap.
Proof.
  intros Hp Hnd Hl. destruct (rehash_prefix (replicate newcap None) l) as (W & E & L).
  - by apply empty_table_wf.
  - done.
  - intros k _. unfold ot_map. by rewrite empty_table.
  - by rewrite empty_table, length_replicate.
  - rewrite length_replicate in L. split; [done|]. split; [|done]. apply map_eq. intros k. rewrite E. unfold ot_map. rewrite empty_table.
    destruct (list_to_map l !! k); [done|]. apply lookup_empty.
Qed.

(** ** Deletion *)

(** A chain being closed: [i] is the hole, the slots after it up to [j] have
    been looked at and stay where they are, [f] ends every chain. *)
Record hole_wf t (m : gmap Z V) (i j f : nat) : Prop := {
  hw_pow : pow2 (length t); hw_i : (i < length t)%nat; hw_j : (j < length t)%nat;
  hw_hole : free_at t i; hw_end : free_at t f; hw_ne : i <> f;
  hw_uniq : forall a b k v w, holds_at t a k v -> holds_at t b k w -> a = b;
  hw_map : forall k v, m !! k = Some v <-> exists a, holds_at t a k v;
  hw_path : forall a k v, holds_at t a k v ->
    forall d, (d < wdist (length t) (ot_home (length t) k) a)%nat ->
      taken t (wadd (length t) (ot_home (length t) k) d) \/ wadd (length t) (ot_home (length t) k) d = i;
  hw_seen : (wdist (length t) i j < wdist (length t) i f)%nat;
  hw_kept : forall d, (0 < d <= wdist (length t) i j)%nat -> exists k v, holds_at t (wadd (length t) i d) k v /\
      forall d', (d' < wdist (length t) (ot_home (length t) k) (wadd (length t) i d))%nat -> wadd (length t) (ot_home (length t) k) d' <> i
}.

Lemma home_between_spec cap i h j : (i < cap)%nat -> (h < cap)%nat -> (j < cap)%nat -> i <> j ->
  home_between i h j = true <-> (0 < wdist cap i h <= wdist cap i j)%nat.
Proof.
  intros Hi Hh Hj Hne. unfold home_between. destruct (Nat.leb_spec i j).
  - rewrite andb_true_iff, Nat.ltb_lt, Nat.leb_le. cyclic.
  - rewrite orb_true_iff, Nat.ltb_lt, Nat.leb_le. cyclic.
Qed.

(** The chain is closed when the next slot is free. *)
Lemma hole_done t m i j f : hole_wf t m i j f -> free_at t (wadd (length t) j 1) -> ot_wf t /\ ot_map t = m.
Proof.
  intros [Hp Hi Hj Hh He Hne Hu Hm Hpath Hs Hk] Hfree.
  assert (ot_wf t) as W; [|split; [done|]; by apply map_eq_holds].
  split; [done|done| |by exists i]. intros a k v Ha d Hd. pose proof (holds_lt _ _ _ _ Ha) as Hal.
  pose proof (ot_home_lt _ k Hp) as Hhl. set (h := ot_home (length t) k) in *.
  destruct (Hpath a k v Ha d Hd) as [?|Hx]; [done|]. exfalso. fold h in Hx.
  assert (f < length t)%nat as Hfl by (by eapply lookup_lt_Some).
  assert (a <> i) as Hai by (intros ->; unfold holds_at, free_at in *; congruence).
  destruct (decide (wdist (length t) i a <= wdist (length t) i j)%nat) as [Hle|Hgt].
  - pose proof (wdist_pos (length t) i a Hi Hal (not_eq_sym Hai)).
    destruct (Hk (wdist (length t) i a)) as (k' & v' & Hka & Hno); [lia|]. rewrite (wadd_wdist (length t) i a) in * by done.
    assert (k' = k) as -> by (unfold holds_at in *; congruence). by apply (Hno d).
  - set (j1 := wadd (length t) j 1) in *. assert (j1 <> a) as Hja by (intros ->; unfold holds_at, free_at in *; congruence).
    destruct (path_through (length t) h a i j d) as (Hji & Ej & Hlt); try done; [lia|]. fold j1 in Hji, Ej, Hlt.
    destruct (Hpath a k v Ha _ Hlt) as [Ht|Ht]; fold h in Ht; rewrite Ej in Ht; [by eapply taken_not_free|done].
Qed.

(** The next slot stays. *)
Lemma hole_keep t m i j f k v :
  hole_wf t m i j f -> holds_at t (wadd (length t) j 1) k v -> home_between i (ot_home (length t) k) (wadd (length t) j 1) = true ->
  hole_wf t m i (wadd (length t) j 1) f.
Proof.
  intros [Hp Hi Hj Hh He Hne Hu Hm Hpath Hs Hk] Hkv Hb. pose proof (ot_home_lt _ k Hp) as Hhl. set (h := ot_home (length t) k) in *.
  assert (f < length t)%nat as Hfl by (by eapply lookup_lt_Some).
  destruct (wdist_next (length t) i j f Hi Hj Hfl Hs) as (Hj1 & Ed & Hij & _). set (j1 := wadd (length t) j 1) in *.
  assert (j1 <> f) as Hjf by (intros ->; unfold holds_at, free_at in *; congruence). apply (home_between_spec (length t)) in Hb; try done.
  split; try done; [clear -Hj1 Hfl Hi Hjf Ed Hs; cyclic|]. intros d Hd. destruct (decide (d <= wdist (length t) i j)%nat) as [Hle|Hgt]; [apply Hk; lia|].
  assert (d = wdist (length t) i j1) as -> by lia. rewrite (wadd_wdist (length t) i j1) by done.
  exists k, v. split; [done|]. intros d' Hd'. fold h in Hd' |- *. by apply (path_avoids (length t) h i j1).
Qed.

(** The next slot fills the hole and becomes the hole. *)
Lemma hole_move t m i j f k v :
  hole_wf t m i j f -> holds_at t (wadd (length t) j 1) k v -> home_between i (ot_home (length t) k) (wadd (length t) j 1) = false ->
  hole_wf (<[wadd (length t) j 1 := None]> (<[i := Some (k, v)]> t)) m (wadd (length t) j 1) (wadd (length t) j 1) f.
Proof.
  intros [Hp Hi Hj Hh He Hne Hu Hm Hpath Hs Hk] Hkv Hb. pose proof (ot_home_lt _ k Hp) as Hhl. set (h := ot_home (length t) k) in *.
  assert (f < length t)%nat as Hfl by (by eapply lookup_lt_Some).
  destruct (wdist_next (length t) i j f Hi Hj Hfl Hs) as (Hj1 & _). set (j1 := wadd (length t) j 1) in *.
  assert (j1 <> f) as Hjf by (intros ->; unfold holds_at, free_at in *; congruence).
  assert (i <> j1) as Hij by (intros <-; unfold holds_at, free_at in *; congruence).
  assert (~ (0 < wdist (length t) i h <= wdist (length t) i j1)%nat) as Hb'.
  { rewrite <- home_between_spec by done. by rewrite Hb. }
  set (t' := <[j1 := None]> (<[i := Some (k, v)]> t)). assert (length t' = length t) as Lt by (subst t'; by rewrite !length_insert).
  assert (forall a k' w, holds_at t' a k' w <-> (a = i /\ k' = k /\ w = v) \/ (a <> i /\ a <> j1 /\ holds_at t a k' w)) as Hold.
  { intros a k' w. unfold holds_at. subst t'. destruct (decide (a = j1)) as [->|Ha].
    - rewrite list_lookup_insert_eq by (by rewrite length_insert). naive_solver.
    - rewrite list_lookup_insert_ne by done. destruct (decide (a = i)) as [->|Hai]; [rewrite list_lookup_insert_eq by done|rewrite list_lookup_insert_ne by done]; naive_solver. }
  assert (forall a, taken t a -> a <> j1 -> taken t' a) as Htk.
  { intros a [[k' w] Ha] Hne1. destruct (decide (a = i)) as [->|Hai]; [exists (k, v); apply Hold; by left|]. exists (k', w). apply Hold. by right. }
  split; rewrite ?Lt; try done.
  - subst t'. unfold free_at. by rewrite list_lookup_insert_eq by (by rewrite length_insert).
  - subst t'. unfold free_at. by rewrite !list_lookup_insert_ne by done.
  - intros a b k' x y Ha Hb1. apply Hold in Ha. apply Hold in Hb1. destruct Ha as [(-> & -> & ->)|(Ha & Ha1 & Ha2)], Hb1 as [(-> & E & ->)|(Hb0 & Hb1 & Hb2)]; try done.
    + by destruct (Hu _ _ _ _ _ Hkv Hb2).
    + subst. by destruct (Hu _ _ _ _ _ Hkv Ha2).
    + by eapply Hu.
  - intros k' w. rewrite Hm. split.
    + intros [a Ha]. destruct (decide (a = j1)) as [->|Hne1].
      * exists i. apply Hold. left. unfold holds_at in *. naive_solver.
      * exists a. apply Hold. right. split; [|done]. intros ->. unfold holds_at, free_at in *. congruence.
    + intros [a Ha]. apply Hold in Ha as [(-> & -> & ->)|(_ & _ & Ha)]; eauto.
  - intros a k' w Ha d Hd. apply Hold in Ha as [(-> & -> & ->)|(Hai & Haj & Ha)].
    + fold h in Hd |- *. left. destruct (path_moves (length t) h i j1 d) as (P1 & P2 & P3); try done.
      destruct (Hpath j1 k v Hkv d P1) as [Ht|Hx]; [by apply Htk|done].
    + pose proof (holds_lt _ _ _ _ Ha). pose proof (ot_home_lt _ k' Hp) as Hhl'. set (h' := ot_home (length t) k') in *.
      destruct (decide (wadd (length t) h' d = j1)) as [->|Hnj]; [by right|]. left.
      destruct (Hpath a k' w Ha d Hd) as [Ht|Hx]; [by apply Htk|]. fold h' in Hx. rewrite Hx. exists (k, v). apply Hold. by left.
  - rewrite wdist_self. by apply wdist_pos.
  - rewrite wdist_self. intros d Hd. lia.
Qed.

Lemma shift_loop_spec n t m i j f :
  hole_wf t m i j f -> (wdist (length t) j f <= n)%nat ->
  ot_wf (shift_loop n t i j) /\ ot_map (shift_loop n t i j) = m /\ length (shift_loop n t i j) = length t.
Proof.
  revert t i j. induction n as [|n IH]; intros t i j Hw Hn; cbn [shift_loop].
  { destruct Hw as [Hp Hi Hj Hh He Hne Hu Hm Hpath Hs Hk]. assert (f < length t)%nat by (by eapply lookup_lt_Some). exfalso.
    destruct (wdist_next (length t) i j f) as (_ & _ & _ & ?); try done. lia. }
  pose proof (hw_pow _ _ _ _ _ Hw) as Hp. pose proof (hw_j _ _ _ _ _ Hw) as Hj. rewrite ot_next_wadd by done.
  assert (f < length t)%nat as Hfl by (eapply lookup_lt_Some, (hw_end _ _ _ _ _ Hw)). pose proof (hw_seen _ _ _ _ _ Hw) as Hs. pose proof (hw_i _ _ _ _ _ Hw) as Hi.
  destruct (wdist_next (length t) i j f Hi Hj Hfl Hs) as (Hj1 & _ & _ & Edf).
  destruct (slot_cases t (wadd (length t) j 1) Hj1) as [Hf|(k & v & Hkv)].
  - rewrite Hf. destruct (hole_done t m i j f Hw Hf). done.
  - pose proof Hkv as Hkv'. unfold holds_at in Hkv'. rewrite Hkv'.
    assert (wadd (length t) j 1 <> f) as Hjf. { intros E. pose proof (hw_end _ _ _ _ _ Hw) as Hend. rewrite E in Hkv'. unfold free_at in Hend. congruence. }
    destruct (home_between _ _ _) eqn:Eb.
    + apply IH; [by eapply hole_keep|lia].
    + set (t' := <[wadd (length t) j 1 := None]> (<[i := Some (k, v)]> t)).
      assert (length t' = length t) as Lt by (subst t'; by rewrite !length_insert).
      destruct (IH t' (wadd (length t) j 1) (wadd (length t) j 1)) as (W & E & L); [by apply hole_move|rewrite Lt; lia|].
      by rewrite L.
Qed.

Lemma delete_at_spec t i k v :
  ot_wf t -> holds_at t i k v ->
  ot_wf (delete_at t i) /\ ot_map (delete_at t i) = delete k (ot_map t) /\ length (delete_at t i) = length t.
Proof.
  intros W Hi. pose proof W as [Hp Hu Hr [f Hf]]. pose proof (holds_lt _ _ _ _ Hi) as Hil.
  assert (f < length t)%nat as Hfl by (by eapply lookup_lt_Some).
  assert (i <> f) as Hif by (intros ->; unfold holds_at, free_at in *; congruence).
  assert (forall a k' w, holds_at (<[i := None]> t) a k' w <-> a <> i /\ holds_at t a k' w) as Hold.
  { intros a k' w. unfold holds_at. destruct (decide (a = i)) as [->|Hne]; [rewrite list_lookup_insert_eq by done|rewrite list_lookup_insert_ne by done]; naive_solver. }
  unfold delete_at. destruct (shift_loop_spec (length t) (<[i := None]> t) (delete k (ot_map t)) i i f) as (W' & E & L).
  - split; rewrite ?length_insert; try done.
    + unfold free_at. by rewrite list_lookup_insert_eq.
    + unfold free_at. by rewrite list_lookup_insert_ne.
    + intros a b k' x y Ha Hb. apply Hold in Ha as [_ Ha]. apply Hold in Hb as [_ Hb]. by eapply Hu.
    + intros k' x. rewrite lookup_delete. split.
      * case_decide as E; [done|]. intros Hx. apply (ot_map_lookup t _ _ W) in Hx as [a Ha]. exists a. apply Hold. split; [|done].
        intros ->. unfold holds_at in *. congruence.
      * intros [a Ha]. apply Hold in Ha as [Hne Ha]. rewrite decide_False; [apply (ot_map_lookup t _ _ W); eauto|]. intros ->. apply Hne. by eapply Hu.
    + intros a k' x Ha d Hd. apply Hold in Ha as [Hne Ha]. destruct (Hr a k' x Ha d Hd) as [kv Ht].
      destruct (decide (wadd (length t) (ot_home (length t) k') d = i)) as [->|Hnd]; [by right|]. left. exists kv. by rewrite list_lookup_insert_ne.
    + rewrite wdist_self. by apply wdist_pos.
    + rewrite wdist_self. intros d Hd. lia.
  - rewrite length_insert. pose proof (wdist_bound (length t) i f Hil Hfl). lia.
  - rewrite length_insert in L. done.
Qed.

Lemma ot_del_spec t k :
  ot_wf t -> ot_wf (ot_del t k) /\ ot_map (ot_del t k) = delete k (ot_map t) /\ length (ot_del t k) = length t.
Proof.
  intros W. unfold ot_del. pose proof (map_probe_cases t k W) as Hc. destruct (ot_map t !! k) as [v|] eqn:Em.
  - pose proof Hc as Hc'. unfold holds_at in Hc'. rewrite Hc'. by eapply delete_at_spec.
  - destruct Hc as [-> _]. split; [done|]. split; [|done]. by rewrite delete_id.
Qed.
End table.
