(* ===== verification/BinaryHeap.v ===== *)
(** * Binary heaps in arrays

    The sift loops the vector searches use ([scored_sift_down] of
    [src/storage/semantic_index.c], [heap_up] and [heap_down] of
    [src/storage/hnsw.c]), over a boolean [better] that tells which of two
    elements goes nearer the root. The loops keep the elements; over a strict
    weak order, sifting down restores the heap order. *)

From S2P Require Import Prelude.

Definition swap_at {A} (l : list A) (i j : nat) : list A :=
  match l !! i, l !! j with Some x, Some y => <[j := x]> (<[i := y]> l) | _, _ => l end.

Lemma swap_at_perm {A} (l : list A) i j : swap_at l i j ≡ₚ l.
Proof.
  unfold swap_at. destruct (l !! i) as [x|] eqn:Ei; [|done]. destruct (l !! j) as [y|] eqn:Ej; [|done].
  destruct (decide (i = j)) as [->|Hne].
  - assert (x = y) as -> by congruence. rewrite list_insert_insert_eq. by rewrite list_insert_id.
  - apply Permutation_inj. split; [by rewrite !length_insert|].
    pose proof (lookup_lt_Some _ _ _ Ei). pose proof (lookup_lt_Some _ _ _ Ej).
    exists (fun k => if decide (k = i) then j else if decide (k = j) then i else k). split.
    + intros a b. repeat case_decide; subst; congruence.
    + intros k. repeat case_decide; subst.
      * rewrite list_lookup_insert_ne by done. rewrite list_lookup_insert_eq by done. by rewrite Ej.
      * rewrite list_lookup_insert_eq by (by rewrite length_insert). by rewrite Ei.
      * by rewrite !list_lookup_insert_ne.
Qed.

Lemma length_swap_at {A} (l : list A) i j : length (swap_at l i j) = length l.
Proof. by rewrite swap_at_perm. Qed.

Lemma lookup_swap_at {A} (l : list A) i j k x y :
  l !! i = Some x -> l !! j = Some y ->
  swap_at l i j !! k = if decide (k = j) then Some x else if decide (k = i) then Some y else l !! k.
Proof.
  intros Hi Hj. unfold swap_at. rewrite Hi, Hj. pose proof (lookup_lt_Some _ _ _ Hi). pose proof (lookup_lt_Some _ _ _ Hj).
  destruct (decide (k = j)) as [->|Hkj]; [by rewrite list_lookup_insert_eq by (by rewrite length_insert)|].
  rewrite list_lookup_insert_ne by done. destruct (decide (k = i)) as [->|Hki]; [by rewrite list_lookup_insert_eq|by rewrite list_lookup_insert_ne].
Qed.

Section heap.
Context {A : Type} (better : A -> A -> bool).
Implicit Types (a : list A).

Definition better_at a (i j : nat) : bool :=
  match a !! i, a !! j with Some x, Some y => better x y | _, _ => false end.

Fixpoint sift_up (n : nat) a (i : nat) : list A :=
  match n with
  | O => a
  | S n' =>
      if (i =? 0)%nat then a
      else
        let p := ((i - 1) / 2)%nat in
        if better_at a i p then sift_up n' (swap_at a i p) p else a
  end.

(** Over the first [len] elements. *)
Definition sift_child (len : nat) a (i : nat) : nat :=
  let l := (2 * i + 1)%nat in
  let r := (2 * i + 2)%nat in
  let b := if (l <? len)%nat && better_at a l i then l else i in
  if (r <? len)%nat && better_at a r b then r else b.

Fixpoint sift_down (n : nat) (len : nat) a (i : nat) : list A :=
  match n with
  | O => a
  | S n' => let b := sift_child len a i in if (b =? i)%nat then a else sift_down n' len (swap_at a i b) b
  end.

Lemma sift_up_perm n a i : sift_up n a i ≡ₚ a.
Proof.
  revert a i. induction n as [|n IH]; intros a i; cbn [sift_up]; [done|]. destruct (_ =? _)%nat; [done|]. cbn zeta.
  destruct (better_at _ _ _); [|done]. by rewrite IH, swap_at_perm.
Qed.

Lemma sift_down_perm n len a i : sift_down n len a i ≡ₚ a.
Proof.
  revert a i. induction n as [|n IH]; intros a i; cbn [sift_down]; [done|]. cbn zeta. destruct (_ =? _)%nat; [done|].
  by rewrite IH, swap_at_perm.
Qed.

(** ** Heap order *)

Definition parent (j : nat) : nat := ((j - 1) / 2)%nat.

(** Below position [k], no element is better than its parent. *)
Definition heap_from (k len : nat) a : Prop :=
  forall j, (0 < j < len)%nat -> (k <= parent j)%nat -> better_at a j (parent j) = false.

Context (P : A -> Prop)
  (irrefl : forall x, P x -> better x x = false)
  (trans : forall x y z, P x -> P y -> P z -> better x y = true -> better y z = true -> better x z = true)
  (neg_trans : forall x y z, P x -> P y -> P z -> better x y = false -> better y z = false -> better x z = false).

Lemma parent_child j i : (0 < j)%nat -> parent j = i <-> j = (2 * i + 1)%nat \/ j = (2 * i + 2)%nat.
Proof.
  intros Hj. unfold parent. split.
  - intros <-. pose proof (Nat.div_mod_eq (j - 1) 2). pose proof (Nat.mod_upper_bound (j - 1) 2). lia.
  - intros [-> | ->].
    + replace (2 * i + 1 - 1)%nat with (i * 2)%nat by lia. by apply Nat.div_mul.
    + replace (2 * i + 2 - 1)%nat with (1 + i * 2)%nat by lia. by rewrite Nat.div_add by lia.
Qed.

Lemma parent_lt j : (0 < j)%nat -> (parent j < j)%nat.
Proof. intros Hj. unfold parent. apply Nat.Div0.div_lt_upper_bound. lia. Qed.

Lemma better_at_lookup a i j x y : a !! i = Some x -> a !! j = Some y -> better_at a i j = better x y.
Proof. intros Hi Hj. unfold better_at. by rewrite Hi, Hj. Qed.

(** The child the loop descends to is no worse than the node and its
    children. *)
Lemma sift_child_spec len a i :
  Forall P a -> (i < len)%nat -> (len <= length a)%nat ->
  let b := sift_child len a i in
  (b = i \/ (0 < b < len)%nat /\ parent b = i /\ better_at a b i = true) /\
  (forall c, (0 < c < len)%nat -> parent c = i -> better_at a c b = false).
Proof.
  intros HP Hi Hlen. cbn zeta. unfold sift_child. set (l := (2 * i + 1)%nat). set (r := (2 * i + 2)%nat).
  assert (forall j, (j < len)%nat -> exists x, a !! j = Some x /\ P x) as Hat.
  { intros j Hj. destruct (lookup_lt_is_Some_2 a j) as [x Hx]; [lia|]. exists x. split; [done|]. rewrite Forall_lookup in HP. by eapply HP. }
  destruct (Hat i Hi) as (xi & Ei & Pi).
  assert (forall c, (0 < c < len)%nat -> parent c = i -> c = l \/ c = r) as Hc by (intros c ? ?; apply parent_child; [lia|done]).
  assert (parent l = i /\ parent r = i) as [Hpl Hpr] by (split; apply parent_child; subst l r; lia).
  set (b := if (l <? len)%nat && better_at a l i then l else i).
  assert ((b = i \/ b = l /\ (l < len)%nat /\ better_at a l i = true) /\ ((l < len)%nat -> better_at a l b = false)) as [Hb Hbl].
  { subst b. destruct (Nat.ltb_spec l len) as [Hl|Hl]; cbn [andb]; [|split; [by left|lia]].
    destruct (better_at a l i) eqn:E; [|split; [by left|done]]. split; [by right|]. intros _. destruct (Hat l Hl) as (xl & El & Pl).
    rewrite (better_at_lookup _ _ _ _ _ El El). by apply irrefl. }
  clearbody b. destruct (Nat.ltb_spec r len) as [Hr|Hr]; cbn [andb].
  2: { split; [destruct Hb as [->|(-> & ? & ?)]; [by left|right; split; [subst l; lia|done]]|].
       intros c Hcl Hcp. destruct (Hc c Hcl Hcp) as [-> | ->]; [apply Hbl; lia|lia]. }
  assert (l < len)%nat as Hl by (subst l r; lia). specialize (Hbl Hl).
  destruct (Hat l Hl) as (xl & El & Pl), (Hat r Hr) as (xr & Er & Pr).
  assert (exists xb, a !! b = Some xb /\ P xb) as (xb & Eb & Pb) by (destruct Hb as [->|(-> & _)]; eauto).
  rewrite (better_at_lookup _ _ _ _ _ Er Eb). rewrite (better_at_lookup _ _ _ _ _ El Eb) in Hbl.
  destruct (better xr xb) eqn:Erb.
  - split.
    + right. split; [subst r; lia|]. split; [done|]. rewrite (better_at_lookup _ _ _ _ _ Er Ei). destruct Hb as [->|(-> & _ & Hli)]; [congruence|].
      rewrite (better_at_lookup _ _ _ _ _ El Ei) in Hli. assert (xb = xl) as -> by congruence. by eapply (trans xr xl xi).
    + intros c Hcl Hcp. destruct (Hc c Hcl Hcp) as [-> | ->].
      * rewrite (better_at_lookup _ _ _ _ _ El Er). eapply (neg_trans xl xb xr); try done. destruct (better xb xr) eqn:Ebr; [|done].
        assert (better xb xb = true) by (by eapply (trans xb xr xb)). by rewrite (irrefl xb Pb) in *.
      * rewrite (better_at_lookup _ _ _ _ _ Er Er). by apply irrefl.
  - split; [destruct Hb as [->|(-> & ? & ?)]; [by left|right; split; [subst l; lia|done]]|].
    intros c Hcl Hcp. destruct (Hc c Hcl Hcp) as [-> | ->]; [by rewrite (better_at_lookup _ _ _ _ _ El Eb)|by rewrite (better_at_lookup _ _ _ _ _ Er Eb)].
Qed.

(** Sifting position [i] down: only its own order may be broken before. *)
Definition heap_but (k i len : nat) a : Prop :=
  (forall j, (0 < j < len)%nat -> (k <= parent j)%nat -> parent j <> i -> better_at a j (parent j) = false) /\
  (forall j, (0 < j < len)%nat -> parent j = i -> (0 < i)%nat -> (k <= parent i)%nat -> better_at a j (parent i) = false).

Lemma sift_down_spec n k len a i :
  Forall P a -> (len <= length a)%nat -> (k <= i < len)%nat -> heap_but k i len a -> (len - i <= n)%nat ->
  heap_from k len (sift_down n len a i).
Proof.
  revert a i. induction n as [|n IH]; intros a i HP Hlen Hi [H1 H2] Hn; [lia|]. cbn [sift_down]. cbn zeta.
  destruct (sift_child_spec len a i HP ltac:(lia) Hlen) as [Hb Hc]. set (b := sift_child len a i) in *.
  destruct (Nat.eqb_spec b i) as [Ebi|Hbi].
  { intros j Hj Hk. destruct (decide (parent j = i)) as [Hp|Hp]; [|by apply H1]. rewrite Hp, <- Ebi. by apply Hc. }
  destruct Hb as [?|(Hbl & Hbp & Hbb)]; [done|]. assert (i < b)%nat by (rewrite <- Hbp; apply parent_lt; lia).
  destruct (lookup_lt_is_Some_2 a i ltac:(lia)) as [xi Ei], (lookup_lt_is_Some_2 a b ltac:(lia)) as [xb Eb].
  rewrite Forall_lookup in HP. pose proof (HP _ _ Ei) as Pi. pose proof (HP _ _ Eb) as Pb.
  assert (better xb xi = true) as Hbx by (by rewrite <- (better_at_lookup a b i xb xi)).
  assert (forall j x, a !! j = Some x -> j <> i -> j <> b -> swap_at a i b !! j = Some x) as Hsame.
  { intros j x Hj ? ?. rewrite (lookup_swap_at a i b j xi xb) by done. by rewrite !decide_False. }
  assert (swap_at a i b !! i = Some xb) as Ei' by (rewrite (lookup_swap_at a i b i xi xb) by done; rewrite decide_False, decide_True by (done || lia); done).
  assert (swap_at a i b !! b = Some xi) as Eb' by (rewrite (lookup_swap_at a i b b xi xb) by done; by rewrite decide_True).
  apply IH.
  - apply Forall_lookup. intros j x Hj. eapply Forall_lookup_1; [|exact Hj]. rewrite swap_at_perm. by apply Forall_lookup.
  - by rewrite length_swap_at.
  - lia.
  - assert (forall j, (0 < j < len)%nat -> exists x, a !! j = Some x) as Hat by (intros j Hj; apply lookup_lt_is_Some_2; lia). split.
    + intros j Hj Hk Hpb. destruct (Hat j Hj) as [xj Ej]. destruct (decide (j = i)) as [->|Hji].
      * destruct (decide (0 < i)%nat) as [Hi0|]; [|lia]. specialize (H2 b Hbl Hbp Hi0 Hk). pose proof (parent_lt i Hi0).
        destruct (lookup_lt_is_Some_2 a (parent i) ltac:(lia)) as [xp Ep].
        rewrite (better_at_lookup _ _ _ _ _ Ei' (Hsame _ _ Ep ltac:(lia) ltac:(lia))). by rewrite (better_at_lookup a b (parent i) xb xp) in H2.
      * destruct (decide (j = b)) as [->|Hjb].
        { rewrite Hbp, (better_at_lookup _ _ _ _ _ Eb' Ei'). destruct (better xi xb) eqn:E; [|done].
          assert (better xi xi = true) by (by eapply (trans xi xb xi)). by rewrite (irrefl xi Pi) in *. }
        pose proof (parent_lt j ltac:(lia)). destruct (lookup_lt_is_Some_2 a (parent j) ltac:(lia)) as [xp Ep].
        destruct (decide (parent j = i)) as [Hp|Hp].
        { rewrite Hp, (better_at_lookup _ _ _ _ _ (Hsame _ _ Ej Hji Hjb) Ei'). specialize (Hc j Hj Hp). by rewrite (better_at_lookup a j b xj xb) in Hc. }
        rewrite (better_at_lookup _ _ _ _ _ (Hsame _ _ Ej Hji Hjb) (Hsame _ _ Ep Hp Hpb)). specialize (H1 j Hj Hk Hp). by rewrite (better_at_lookup a j (parent j) xj xp) in H1.
    + intros j Hj Hp Hb0 Hk. destruct (Hat j Hj) as [xj Ej]. pose proof (parent_lt j ltac:(lia)). assert (j <> b /\ j <> i) as [Hjb Hji] by lia.
      rewrite Hbp, (better_at_lookup _ _ _ _ _ (Hsame _ _ Ej Hji Hjb) Ei'). specialize (H1 j Hj). rewrite Hp in H1. specialize (H1 ltac:(lia) ltac:(lia)).
      by rewrite (better_at_lookup a j b xj xb) in H1.
  - lia.
Qed.

(** A heap but for position [i], which may beat its parent. *)
Definition heap_above (i len : nat) a : Prop :=
  (forall j, (0 < j < len)%nat -> j <> i -> better_at a j (parent j) = false) /\
  (forall j, (0 < j < len)%nat -> parent j = i -> (0 < i)%nat -> better_at a j (parent i) = false).

Lemma sift_up_spec n len a i :
  Forall P a -> (len <= length a)%nat -> (i < len)%nat -> heap_above i len a -> (i <= n)%nat -> heap_from 0 len (sift_up n a i).
Proof.
  revert a i. induction n as [|n IH]; intros a i HP Hlen Hi [H1 H2] Hn; cbn [sift_up].
  { intros j Hj _. apply H1; lia. }
  destruct (Nat.eqb_spec i 0) as [->|Hi0]; [intros j Hj _; apply H1; lia|]. cbn zeta. fold (parent i).
  pose proof (parent_lt i ltac:(lia)) as Hpi. set (p := parent i) in *.
  destruct (better_at a i p) eqn:Hb.
  2:{ intros j Hj _. destruct (decide (j = i)) as [->|Hne]; [done|by apply H1]. }
  destruct (lookup_lt_is_Some_2 a i ltac:(lia)) as [xi Ei], (lookup_lt_is_Some_2 a p ltac:(lia)) as [xp Ep].
  assert (forall j x, a !! j = Some x -> P x) as HPl by (rewrite Forall_lookup in HP; exact HP).
  rewrite (better_at_lookup a i p xi xp) in Hb by done.
  assert (forall j x, a !! j = Some x -> j <> i -> j <> p -> swap_at a i p !! j = Some x) as Hsame.
  { intros j x Hj ? ?. rewrite (lookup_swap_at a i p j xi xp) by done. by rewrite !decide_False. }
  assert (swap_at a i p !! i = Some xp) as Ei' by (rewrite (lookup_swap_at a i p i xi xp) by done; rewrite decide_False, decide_True by (done || lia); done).
  assert (swap_at a i p !! p = Some xi) as Ep' by (rewrite (lookup_swap_at a i p p xi xp) by done; by rewrite decide_True).
  assert (forall j, (0 < j < len)%nat -> exists x y, a !! j = Some x /\ a !! parent j = Some y /\ (j <> i -> better x y = false)) as Hat.
  { intros j Hj. pose proof (parent_lt j ltac:(lia)). destruct (lookup_lt_is_Some_2 a j ltac:(lia)) as [x Ex], (lookup_lt_is_Some_2 a (parent j) ltac:(lia)) as [y Ey].
    exists x, y. split_and!; [done|done|]. intros Hne. rewrite <- (better_at_lookup a j (parent j)) by done. by apply H1. }
  apply IH; [by rewrite swap_at_perm|by rewrite length_swap_at|lia| |lia]. split.
  - intros j Hj Hjp. destruct (Hat j Hj) as (x & y & Ex & Ey & Hxy). destruct (decide (j = i)) as [->|Hji].
    { fold p. rewrite (better_at_lookup _ _ _ _ _ Ei' Ep'). destruct (better xp xi) eqn:E; [|done].
      assert (better xi xi = true) by (eapply (trans xi xp xi); eauto). by rewrite (irrefl xi) in * by eauto. }
    specialize (Hxy Hji). pose proof (Hsame _ _ Ex Hji Hjp) as Ex'. destruct (decide (parent j = i)) as [Hp|Hp].
    { rewrite Hp, (better_at_lookup _ _ _ _ _ Ex' Ei'). rewrite <- (better_at_lookup a j p) by done. apply H2; [done|done|lia]. }
    destruct (decide (parent j = p)) as [Hpp|Hpp].
    { rewrite Hpp, (better_at_lookup _ _ _ _ _ Ex' Ep'). rewrite Hpp, Ep in Ey. injection Ey as <-.
      destruct (better x xi) eqn:E; [|done]. rewrite (trans x xi xp) in Hxy; eauto. }
    by rewrite (better_at_lookup _ _ _ _ _ Ex' (Hsame _ _ Ey Hp Hpp)).
  - intros j Hj Hp Hp0. pose proof (parent_lt p Hp0) as Hlt. destruct (Hat p ltac:(lia)) as (xp' & y & Exp & Ey & Hxy).
    assert (xp' = xp) as -> by congruence. specialize (Hxy ltac:(lia)). pose proof (Hsame _ _ Ey ltac:(lia) ltac:(lia)) as Ey'.
    destruct (decide (j = i)) as [->|Hji]; [by rewrite (better_at_lookup _ _ _ _ _ Ei' Ey')|].
    destruct (Hat j Hj) as (x & y' & Ex & Ey2 & Hj'). rewrite Hp, Ep in Ey2. injection Ey2 as <-. specialize (Hj' Hji).
    pose proof (parent_lt j ltac:(lia)). rewrite (better_at_lookup _ _ _ _ _ (Hsame _ _ Ex Hji ltac:(lia)) Ey'). eapply (neg_trans x xp y); eauto.
Qed.

(** The root of a heap is not beaten. *)
Lemma heap_root len a : Forall P a -> (len <= length a)%nat -> heap_from 0 len a -> forall j, (j < len)%nat -> better_at a j 0 = false.
Proof.
  intros HP Hlen Hh j. induction j as [j IH] using lt_wf_ind. intros Hj. rewrite Forall_lookup in HP.
  destruct (lookup_lt_is_Some_2 a j ltac:(lia)) as [xj Ej], (lookup_lt_is_Some_2 a 0%nat ltac:(lia)) as [x0 E0].
  rewrite (better_at_lookup _ _ _ _ _ Ej E0). destruct (decide (j = 0)%nat) as [->|Hne].
  { assert (xj = x0) as -> by congruence. apply irrefl. by eapply HP. }
  pose proof (parent_lt j ltac:(lia)). destruct (lookup_lt_is_Some_2 a (parent j) ltac:(lia)) as [xp Ep].
  specialize (IH (parent j) ltac:(lia) ltac:(lia)). rewrite (better_at_lookup _ _ _ _ _ Ep E0) in IH.
  specialize (Hh j ltac:(lia) ltac:(lia)). rewrite (better_at_lookup _ _ _ _ _ Ej Ep) in Hh.
  eapply (neg_trans xj xp x0); try done; by eapply HP.
Qed.
End heap.
