(* ===== verification/Hnsw.v ===== *)
(** * HNSW graph ([src/storage/hnsw.c], [hnsw.h], [vecmath.h])

    The approximate nearest-neighbour index: a dense array of nodes with a list
    of neighbours per layer, soft deletion, an open-addressing map from ids to
    nodes, greedy descent and beam search over binary heaps, the diversity
    heuristic for choosing neighbours, the rebuild that reclaims tombstones.

    A native build compiles the file with [-ffast-math], so the reductions over
    vectors have no fixed rounding: [VecKernel] stands for them, for [log] and
    for [qsort], and everything below holds for every kernel. [ieee_kernel] evaluates the
    loops of [vecmath.h] in source order. *)

From S2P Require Import Prelude Endian Floats OpenTable BinaryHeap.

(** ** Vectors *)

Definition f32_zero : spec_float := S754_zero false.
Definition f32_one : spec_float := f32_of_Z 1.

Record Cand := mkCand { cd_d : spec_float; cd_node : nat }.

(** Vectors are lists of [float] bit patterns, quantized ones lists of bytes
    in [-127, 127]. *)
Class VecKernel := {
  vk_dot : list Z -> list Z -> spec_float;      (* dot_f32 *)
  vk_norm : list Z -> spec_float;               (* l2norm *)
  vk_dot_q8 : list Z -> list Z -> spec_float;   (* a float vector and a quantized one, in double *)
  vk_log : spec_float -> spec_float;
  vk_qsort : forall {A : Type}, (A -> A -> Z) -> list A -> list A;
  vk_qsort_perm : forall A (cmp : A -> A -> Z) (l : list A), vk_qsort cmp l ≡ₚ l;
  vk_qsort_sorted : forall A (cmp : A -> A -> Z) (l : list A), (forall a b, cmp a b <= 0 \/ cmp b a <= 0) ->
    (forall a b c, a ∈ l -> b ∈ l -> c ∈ l -> cmp a b <= 0 -> cmp b c <= 0 -> cmp a c <= 0) ->
    StronglySorted (fun a b => cmp a b <= 0) (vk_qsort cmp l)
}.

(** [l2norm] in source order. *)
Definition l2norm (v : list Z) : spec_float :=
  f32_of_f64 (f64_sqrt (foldl (fun acc x => let d := f64_of_f32 (f32_of_bits x) in f64_add acc (f64_mul d d)) f32_zero v)).

(** [dot_f32] in source order: four accumulators, then the tail. *)
Fixpoint dot_quads (s0 s1 s2 s3 : spec_float) (a b : list Z) : spec_float :=
  match a, b with
  | a0 :: a1 :: a2 :: a3 :: a', b0 :: b1 :: b2 :: b3 :: b' =>
      let m x y := f32_mul (f32_of_bits x) (f32_of_bits y) in
      dot_quads (f32_add s0 (m a0 b0)) (f32_add s1 (m a1 b1)) (f32_add s2 (m a2 b2)) (f32_add s3 (m a3 b3)) a' b'
  | _, _ =>
      foldl (fun s p => f32_add s (f32_mul (f32_of_bits p.1) (f32_of_bits p.2)))
        (f32_add (f32_add s0 s1) (f32_add s2 s3)) (zip a b)
  end.
Definition dot_f32 (a b : list Z) : spec_float := dot_quads f32_zero f32_zero f32_zero f32_zero a b.

(** The loop of [node_dot_query] over a quantized vector. *)
Definition dot_q8 (q v : list Z) : spec_float :=
  foldl (fun s p => f64_add s (f64_mul (f64_of_f32 (f32_of_bits p.1)) (f64_of_Z p.2))) f32_zero (zip q v).

(** ** Nodes *)

Inductive NodeVec :=
  | NvFloat (vec : list Z)
  | NvQuant (qvec : list Z) (scale : spec_float).

(** [top_layer + 1] lists of neighbours. *)
Record Node := mkNode { nd_id : Z; nd_vec : NodeVec; nd_norm : spec_float; nd_deleted : bool; nd_links : list (list nat) }.
Definition nd_top_layer (nd : Node) : nat := (length (nd_links nd) - 1)%nat.
Definition nd_layer (nd : Node) (l : nat) : list nat := default [] (nd_links nd !! l).

Record Hnsw := mkHnsw {
  hn_dim : nat; hn_M : nat; hn_ef_construction : nat; hn_ef_search : nat; hn_quantized : bool; hn_rng : Z;
  hn_nodes : list Node; hn_cap : nat; hn_live : nat; hn_entry : option nat; hn_max_layer : nat;
  hn_map : list (option (Z * nat))
}.
Definition hn_M0 (h : Hnsw) : nat := (hn_M h * 2)%nat.

Definition set_nodes (h : Hnsw) (ns : list Node) (live : nat) : Hnsw :=
  mkHnsw (hn_dim h) (hn_M h) (hn_ef_construction h) (hn_ef_search h) (hn_quantized h) (hn_rng h) ns (hn_cap h) live (hn_entry h) (hn_max_layer h) (hn_map h).
Definition set_ncap (h : Hnsw) (cap : nat) : Hnsw :=
  mkHnsw (hn_dim h) (hn_M h) (hn_ef_construction h) (hn_ef_search h) (hn_quantized h) (hn_rng h) (hn_nodes h) cap (hn_live h) (hn_entry h) (hn_max_layer h) (hn_map h).
Definition set_rng (h : Hnsw) (rng : Z) : Hnsw :=
  mkHnsw (hn_dim h) (hn_M h) (hn_ef_construction h) (hn_ef_search h) (hn_quantized h) rng (hn_nodes h) (hn_cap h) (hn_live h) (hn_entry h) (hn_max_layer h) (hn_map h).
Definition set_entry (h : Hnsw) (e : nat) (l : nat) : Hnsw :=
  mkHnsw (hn_dim h) (hn_M h) (hn_ef_construction h) (hn_ef_search h) (hn_quantized h) (hn_rng h) (hn_nodes h) (hn_cap h) (hn_live h) (Some e) l (hn_map h).
Definition set_map (h : Hnsw) (m : list (option (Z * nat))) : Hnsw :=
  mkHnsw (hn_dim h) (hn_M h) (hn_ef_construction h) (hn_ef_search h) (hn_quantized h) (hn_rng h) (hn_nodes h) (hn_cap h) (hn_live h) (hn_entry h) (hn_max_layer h) m.

Definition xorshift (s : Z) : Z :=
  let x := Z.lxor s (wrap 64 (Z.shiftl s 13)) in
  let x := Z.lxor x (Z.shiftr x 7) in
  Z.lxor x (wrap 64 (Z.shiftl x 17)).

(** ** The id map *)

Definition map_get (h : Hnsw) (id : Z) : option nat :=
  if (length (hn_map h) =? 0)%nat then None else ot_get (hn_map h) id.

Definition map_grow (ok : bool) (m : list (option (Z * nat))) (newcap : nat) : option (list (option (Z * nat))) :=
  if ok then Some (rehash_into newcap (entries m)) else None.

(** [ok0] and [ok]: the first table and the doubling. *)
Definition map_put (ok0 ok : bool) (h : Hnsw) (id : Z) (node : nat) : option Hnsw :=
  match (if (length (hn_map h) =? 0)%nat then map_grow ok0 (hn_map h) 64 else Some (hn_map h)) with
  | None => None
  | Some m =>
      match m !! map_probe m id with
      | Some (Some _) => Some (set_map h (ot_set m id node))
      | _ =>
          if (length m * 7 <? (hn_live h + 1) * 10)%nat then
            match map_grow ok m (length m * 2) with
            | Some m' => Some (set_map h (ot_set m' id node))
            | None => None
            end
          else Some (set_map h (ot_set m id node))
      end
  end.

Definition map_del (h : Hnsw) (id : Z) : Hnsw :=
  if (length (hn_map h) =? 0)%nat then h else set_map h (ot_del (hn_map h) id).

Section hnsw.
Context `{VecKernel}.

(** ** Distances *)

Definition node_dot_query (q : list Z) (nd : Node) : spec_float :=
  match nd_vec nd with
  | NvQuant v scale => f64_mul (vk_dot_q8 q v) (f64_of_f32 scale)
  | NvFloat v => f64_of_f32 (vk_dot q v)
  end.

Definition node_dot_node (a b : Node) : spec_float :=
  match nd_vec a, nd_vec b with
  | NvQuant va sa, NvQuant vb sb =>
      f64_mul (f64_mul (f64_of_Z (foldl (fun acc p => acc + p.1 * p.2) 0 (zip va vb))) (f64_of_f32 sa)) (f64_of_f32 sb)
  | NvFloat va, NvFloat vb => f64_of_f32 (vk_dot va vb)
  | _, _ => f32_zero
  end.

Definition cosine_dist (dot denom : spec_float) : spec_float :=
  if SFltb f32_zero denom then f32_sub f32_one (f32_of_f64 (f64_div dot (f64_of_f32 denom))) else f32_one.

Definition no_node : Node := mkNode 0 (NvFloat []) f32_zero true [].
Definition node_at (h : Hnsw) (i : nat) : Node := default no_node (hn_nodes h !! i).

Definition dist_q (h : Hnsw) (q : list Z) (qn : spec_float) (i : nat) : spec_float :=
  cosine_dist (node_dot_query q (node_at h i)) (f32_mul qn (nd_norm (node_at h i))).
Definition dist_nn (h : Hnsw) (a b : nat) : spec_float :=
  cosine_dist (node_dot_node (node_at h a) (node_at h b)) (f32_mul (nd_norm (node_at h a)) (nd_norm (node_at h b))).

(** ** Heaps *)

Definition cand_at (a : list Cand) (i : nat) : spec_float := from_option cd_d S754_nan (a !! i).

(** Nearer the root: the farther one of a max-heap, the nearer one otherwise. *)
Definition before (maxh : bool) (x y : Cand) : bool := if maxh then SFltb (cd_d y) (cd_d x) else SFltb (cd_d x) (cd_d y).

Definition heap_up (a : list Cand) (i : nat) (maxh : bool) : list Cand := sift_up (before maxh) (length a) a i.
Definition heap_down (a : list Cand) (i : nat) (maxh : bool) : list Cand := sift_down (before maxh) (length a) (length a) a i.

Record Heap := mkHeap { hp_a : list Cand; hp_cap : nat }.
Definition heap_empty : Heap := mkHeap [] 0.

Fixpoint double_to (n : nat) (c want : nat) : nat :=
  match n with O => c | S n' => if (c <? want)%nat then double_to n' (c * 2) want else c end.

(** [ok want]: the reallocation that makes room for [want] elements. *)
Definition heap_reserve (ok : nat -> bool) (hp : Heap) (want : nat) : option Heap :=
  if (want <=? hp_cap hp)%nat then Some hp
  else if ok want then Some (mkHeap (hp_a hp) (double_to want (if (hp_cap hp =? 0)%nat then 16 else hp_cap hp * 2) want)) else None.

Definition heap_push (ok : nat -> bool) (hp : Heap) (c : Cand) (maxh : bool) : option Heap :=
  match heap_reserve ok hp (length (hp_a hp) + 1) with
  | None => None
  | Some hp => Some (mkHeap (heap_up (hp_a hp ++ [c]) (length (hp_a hp)) maxh) (hp_cap hp))
  end.

(** The root, and the heap without it: the last element takes its place. *)
Definition heap_pop (hp : Heap) (maxh : bool) : option (Cand * Heap) :=
  match hp_a hp with
  | [] => None
  | top :: rest =>
      let a := match last rest with Some c => c :: removelast rest | None => [] end in
      Some (top, mkHeap (heap_down a 0 maxh) (hp_cap hp))
  end.

Definition cmp3 (x y : spec_float) : Z := Z.b2z (SFltb y x) - Z.b2z (SFltb x y).
Definition cmp_cand_asc (a b : Cand) : Z := cmp3 (cd_d a) (cd_d b).

(** ** Visited nodes *)

Record VSet := mkVSet { vs_slots : list (option (Z * unit)); vs_n : nat }.

Definition vset_init (ok : bool) (hint : nat) : option VSet :=
  if ok then Some (mkVSet (replicate (double_to hint 64 (hint * 2)) None) 0) else None.

Definition vset_regrow (ok : bool) (v : VSet) : option VSet :=
  if ok then Some (mkVSet (rehash_into (length (vs_slots v) * 2) (entries (vs_slots v))) (vs_n v)) else None.

(** [Some (v, true)]: newly added; [None]: out of memory. *)
Definition vset_add (ok : nat -> bool) (v : VSet) (node : nat) : option (VSet * bool) :=
  match (if (length (vs_slots v) * 7 <? (vs_n v + 1) * 10)%nat then vset_regrow (ok (vs_n v)) v else Some v) with
  | None => None
  | Some v =>
      match vs_slots v !! map_probe (vs_slots v) (Z.of_nat node) with
      | Some (Some _) => Some (v, false)
      | _ => Some (mkVSet (ot_set (vs_slots v) (Z.of_nat node) tt) (vs_n v + 1), true)
      end
  end.

(** ** Search *)

(** The neighbours of [cur] that are nearer, one after another. *)
Definition greedy_scan (h : Hnsw) (q : list Z) (qn : spec_float) (nb : list nat) (st : nat * spec_float * bool) : nat * spec_float * bool :=
  foldl (fun st x => let '(cur, cur_d, imp) := st in let d := dist_q h q qn x in if SFltb d cur_d then (x, d, true) else st) st nb.

Fixpoint greedy_loop (fuel : nat) (h : Hnsw) (q : list Z) (qn : spec_float) (layer : nat) (cur : nat) (cur_d : spec_float) : nat :=
  match fuel with
  | O => cur
  | S fuel' =>
      if (nd_top_layer (node_at h cur) <? layer)%nat then cur
      else
        let '(cur', d', imp) := greedy_scan h q qn (nd_layer (node_at h cur) layer) (cur, cur_d, false) in
        if imp then greedy_loop fuel' h q qn layer cur' d' else cur
  end.

(** The distance falls on every turn, so a turn per node is enough. *)
Definition greedy_descend (h : Hnsw) (q : list Z) (qn : spec_float) (ep layer : nat) : nat :=
  greedy_loop (S (length (hn_nodes h))) h q qn layer ep (dist_q h q qn ep).

(** Outcomes of the allocations of one beam search. *)
Record BeamOks := mkBeamOks { bo_init : bool; bo_vis : nat -> bool; bo_c : nat -> bool; bo_w : nat -> bool }.

Record Beam := mkBeam { bm_vis : VSet; bm_c : Heap; bm_w : Heap }.

Definition beam_seed (ok : BeamOks) (h : Hnsw) (q : list Z) (qn : spec_float) (b : option Beam) (s : nat) : option Beam :=
  match b with
  | None => None
  | Some b =>
      match vset_add (bo_vis ok) (bm_vis b) s with
      | Some (v, true) =>
          let c := mkCand (dist_q h q qn s) s in
          match heap_push (bo_c ok) (bm_c b) c false with
          | None => None
          | Some C =>
              if nd_deleted (node_at h s) then Some (mkBeam v C (bm_w b))
              else match heap_push (bo_w ok) (bm_w b) c true with None => None | Some W => Some (mkBeam v C W) end
          end
      | Some (v, false) => Some (mkBeam v (bm_c b) (bm_w b))
      | None => Some b
      end
  end.

(** Whether the beam has room, or its farthest is farther than [d]. *)
Definition beam_takes (ef : nat) (W : Heap) (d : spec_float) : bool :=
  (length (hp_a W) <? ef)%nat || SFltb d (cand_at (hp_a W) 0).

Definition beam_visit (ok : BeamOks) (h : Hnsw) (q : list Z) (qn : spec_float) (ef : nat) (b : option Beam) (e : nat) : option Beam :=
  match b with
  | None => None
  | Some b =>
      match vset_add (bo_vis ok) (bm_vis b) e with
      | None => None
      | Some (v, false) => Some (mkBeam v (bm_c b) (bm_w b))
      | Some (v, true) =>
          let de := dist_q h q qn e in
          if beam_takes ef (bm_w b) de then
            match heap_push (bo_c ok) (bm_c b) (mkCand de e) false with
            | None => None
            | Some C =>
                if nd_deleted (node_at h e) then Some (mkBeam v C (bm_w b))
                else
                  match heap_push (bo_w ok) (bm_w b) (mkCand de e) true with
                  | None => None
                  | Some W =>
                      Some (mkBeam v C (if (ef <? length (hp_a W))%nat then match heap_pop W true with Some (_, W') => W' | None => W end else W))
                  end
            end
          else Some (mkBeam v (bm_c b) (bm_w b))
      end
  end.

Fixpoint beam_loop (fuel : nat) (ok : BeamOks) (h : Hnsw) (q : list Z) (qn : spec_float) (ef layer : nat) (b : Beam) : option Beam :=
  match fuel with
  | O => Some b
  | S fuel' =>
      match heap_pop (bm_c b) false with
      | None => Some b
      | Some (c, C) =>
          if (ef <=? length (hp_a (bm_w b)))%nat && SFltb (cand_at (hp_a (bm_w b)) 0) (cd_d c) then Some (mkBeam (bm_vis b) C (bm_w b))
          else if (nd_top_layer (node_at h (cd_node c)) <? layer)%nat then beam_loop fuel' ok h q qn ef layer (mkBeam (bm_vis b) C (bm_w b))
          else
            match foldl (beam_visit ok h q qn ef) (Some (mkBeam (bm_vis b) C (bm_w b))) (nd_layer (node_at h (cd_node c)) layer) with
            | None => None
            | Some b' => beam_loop fuel' ok h q qn ef layer b'
            end
      end
  end.

(** Every node enters the candidates once, so a turn per node is enough. *)
Definition search_layer (ok : BeamOks) (h : Hnsw) (q : list Z) (qn : spec_float) (seeds : list nat) (ef layer : nat) : option (list Cand) :=
  match vset_init (bo_init ok) (ef * 8 + 64) with
  | None => None
  | Some v =>
      match foldl (beam_seed ok h q qn) (Some (mkBeam v heap_empty heap_empty)) seeds with
      | None => None
      | Some b =>
          match beam_loop (length (hn_nodes h) + length seeds + 1) ok h q qn ef layer b with
          | None => None
          | Some b => Some (hp_a (bm_w b))
          end
      end
  end.

(** ** Building *)

Definition node_layer_cap (h : Hnsw) (layer : nat) : nat := if (layer =? 0)%nat then hn_M0 h else hn_M h.

(** The candidates in ascending order, and the chosen nodes: first those nearer
    the target than any chosen one, then the nearest leftovers. *)
Definition select_diverse (h : Hnsw) (M : nat) (out : list nat) (c : Cand) : list nat :=
  if (length out <? M)%nat then
    if existsb (fun o => SFltb (dist_nn h (cd_node c) o) (cd_d c)) out then out else out ++ [cd_node c]
  else out.
Definition select_fill (M : nat) (out : list nat) (c : Cand) : list nat :=
  if (length out <? M)%nat then if existsb (Nat.eqb (cd_node c)) out then out else out ++ [cd_node c] else out.
Definition select_heuristic (h : Hnsw) (cand : list Cand) (M : nat) : list Cand * list nat :=
  let cand := vk_qsort cmp_cand_asc cand in
  (cand, foldl (select_fill M) (foldl (select_diverse h M) [] cand) cand).

Definition set_layer (nd : Node) (layer : nat) (l : list nat) : Node :=
  mkNode (nd_id nd) (nd_vec nd) (nd_norm nd) (nd_deleted nd) (<[layer := l]> (nd_links nd)).

(** The links of [a] with [b]: appended while there is room, chosen again
    otherwise. *)
Definition relinked (h : Hnsw) (a b layer : nat) : list nat :=
  let cap := node_layer_cap h layer in
  let links := nd_layer (node_at h a) layer in
  if (length links <? cap)%nat then links ++ [b]
  else snd (select_heuristic h (map (fun x => mkCand (dist_nn h a x) x) links ++ [mkCand (dist_nn h a b) b]) cap).

Definition connect (h : Hnsw) (a b layer : nat) : Hnsw :=
  set_nodes h (<[a := set_layer (node_at h a) layer (relinked h a b layer)]> (hn_nodes h)) (hn_live h).

(** The next state of the generator and the layer drawn. *)
Definition rand_level (h : Hnsw) : Z * nat :=
  let r := xorshift (hn_rng h) in
  let u := f64_mul (f64_of_Z (wrap 64 (Z.shiftr r 11 + 1))) (f64_div (f64_of_Z 1) (f64_of_Z 9007199254740993)) in
  let mL := f64_div (f64_of_Z 1) (vk_log (f64_of_Z (Z.of_nat (hn_M h)))) in
  (r, Z.to_nat (sf_trunc (f64_mul (SFopp (vk_log u)) mL))).

Definition quant_scale (vec : list Z) : spec_float :=
  let maxa := foldl (fun m x => let a := SFabs (f32_of_bits x) in if SFltb m a then a else m) f32_zero vec in
  if SFltb f32_zero maxa then f32_div maxa (f32_of_Z 127) else f32_one.
Definition quant_value (scale : spec_float) (x : Z) : Z :=
  let r := sf_lround (f32_div (f32_of_bits x) scale) in
  if 127 <? r then 127 else if r <? -127 then -127 else r.

Definition store_vector (quantized : bool) (vec : list Z) : NodeVec * spec_float :=
  if quantized then
    let scale := quant_scale vec in
    let q := map (quant_value scale) vec in
    let sq := foldl (fun s r => f64_add s (f64_mul (f64_of_Z r) (f64_of_Z r))) f32_zero q in
    (NvQuant q scale, f32_of_f64 (f64_mul (f64_of_f32 scale) (f64_sqrt sq)))
  else (NvFloat vec, vk_norm vec).

(** Outcomes of the allocations of an insertion: the node array, the node, the
    first map and its doubling, the beam search of each layer. *)
Record AddOks := mkAddOks { ao_nodes : bool; ao_node : bool; ao_map0 : bool; ao_map : bool; ao_beam : nat -> BeamOks }.

Definition node_create (ok : AddOks) (h : Hnsw) (id : Z) (vec : list Z) (level : nat) : Hnsw * option nat :=
  let n := length (hn_nodes h) in
  let full := (n =? hn_cap h)%nat in
  if full && negb (ao_nodes ok) then (h, None)
  else
    let h := if full then set_ncap h (if (hn_cap h =? 0)%nat then 64 else hn_cap h * 2)%nat else h in
    if negb (ao_node ok) then (h, None)
    else
      let '(nv, norm) := store_vector (hn_quantized h) vec in
      (set_nodes h (hn_nodes h ++ [mkNode id nv norm false (replicate (S level) [])]) (hn_live h), Some n).

Definition tombstone (h : Hnsw) (i : nat) : list Node :=
  let nd := node_at h i in <[i := mkNode (nd_id nd) (nd_vec nd) (nd_norm nd) true (nd_links nd)]> (hn_nodes h).

(** Down the layers above the new node's. *)
Fixpoint descend (steps : nat) (h : Hnsw) (q : list Z) (qn : spec_float) (ep lc : nat) : nat :=
  match steps with O => ep | S steps' => descend steps' h q qn (greedy_descend h q qn ep lc) (lc - 1) end.

(** Both directions of each chosen link. *)
Definition link_all (h : Hnsw) (cur lc : nat) (chosen : list nat) : Hnsw :=
  foldl (fun h c => connect (connect h cur c lc) c cur lc) h chosen.

(** One layer: link the new node to the chosen candidates; the nearest one seeds
    the next layer. *)
Definition link_layer (h : Hnsw) (cur ep lc : nat) (W : list Cand) : Hnsw * nat :=
  match W with
  | [] => (h, ep)
  | _ =>
      let cap := node_layer_cap h lc in
      let '(W', chosen) := select_heuristic h W (if (cap <? 64)%nat then cap else 64) in
      (link_all h cur lc chosen, from_option cd_node ep (head W'))
  end.

(** The layers [lc, lc - 1, ..., 0]. *)
Fixpoint insert_layers (ok : nat -> BeamOks) (h : Hnsw) (q : list Z) (qn : spec_float) (cur ep lc : nat) : Hnsw * bool :=
  match search_layer (ok lc) h q qn [ep] (hn_ef_construction h) lc with
  | None => (h, false)
  | Some W =>
      let '(h, ep) := link_layer h cur ep lc W in
      match lc with O => (h, true) | S lc' => insert_layers ok h q qn cur ep lc' end
  end.

Definition hnsw_alloc (ok : bool) (dim M efc efs : nat) (rng : Z) (quantize : bool) : option Hnsw :=
  if ok then Some (mkHnsw dim (if (M <? 2)%nat then 2 else M) efc efs quantize rng [] 0 0 None 0 []) else None.

Definition HNSW_REBUILD_MIN : nat := 1024.

(** What a node's vector is re-inserted as. *)
Definition stored_float (nv : NodeVec) : list Z :=
  match nv with NvFloat v => v | NvQuant q scale => map (fun x => f32_to_bits (f32_mul (f32_of_Z x) scale)) q end.

(** Outcomes of a rebuild: the new shell and the scratch vector, then each
    insertion. *)
Record RebuildOks := mkRebuildOks { ro_alloc : bool; ro_add : nat -> AddOks }.

Section rebuild.
Context (add : AddOks -> Hnsw -> Z -> list Z -> Hnsw * bool).

Fixpoint reinsert (ok : nat -> AddOks) (k : nat) (t : Hnsw) (ns : list Node) : option Hnsw :=
  match ns with
  | [] => Some t
  | nd :: ns' =>
      if nd_deleted nd then reinsert ok (S k) t ns'
      else match add (ok k) t (nd_id nd) (stored_float (nd_vec nd)) with
           | (t', true) => reinsert ok (S k) t' ns'
           | (_, false) => None
           end
  end.

Definition maybe_rebuild (rb : RebuildOks) (h : Hnsw) : Hnsw :=
  let n := length (hn_nodes h) in
  if (n <? HNSW_REBUILD_MIN)%nat || (hn_live h =? 0)%nat || (n <? 2 * hn_live h)%nat then h
  else
    match hnsw_alloc (ro_alloc rb) (hn_dim h) (hn_M h) (hn_ef_construction h) (hn_ef_search h) (hn_rng h) (hn_quantized h) with
    | None => h
    | Some t => default h (reinsert (ro_add rb) 0 t (hn_nodes h))
    end.
End rebuild.

(** [depth] bounds the rebuilds inside a rebuild; there are none, since a graph
    being rebuilt has no tombstones. *)
Fixpoint add_depth (depth : nat) (rb : RebuildOks) (ok : AddOks) (h : Hnsw) (id : Z) (vec : list Z) : Hnsw * bool :=
  let h :=
    match map_get h id with
    | Some prev => if nd_deleted (node_at h prev) then h else set_nodes h (tombstone h prev) (hn_live h - 1)
    | None => h
    end in
  let '(rng, level) := rand_level h in
  let h := set_rng h rng in
  match node_create ok h id vec level with
  | (h, None) => (h, false)
  | (h, Some cur) =>
      match map_put (ao_map0 ok) (ao_map ok) h id cur with
      | None => (set_nodes h (tombstone h cur) (hn_live h), false)
      | Some h =>
          let h := set_nodes h (hn_nodes h) (hn_live h + 1) in
          let qn := vk_norm vec in
          match hn_entry h with
          | None => (set_entry h cur level, true)
          | Some entry =>
              let ep := descend (hn_max_layer h - level) h vec qn entry (hn_max_layer h) in
              let '(h', ok') := insert_layers (ao_beam ok) h vec qn cur ep (Nat.min level (hn_max_layer h)) in
              if negb ok' then (h', false)
              else
                let h' := if (hn_max_layer h' <? level)%nat then set_entry h' cur level else h' in
                (match depth with O => h' | S depth' => maybe_rebuild (add_depth depth' rb) rb h' end, true)
          end
      end
  end.

(** Node numbers are [nat]: the narrowing of the node count to 32 bits is exact
    below 2^32 nodes, and what follows it there is not modelled. *)
Definition hnsw_add (rb : RebuildOks) (ok : AddOks) (h : Hnsw) (id : Z) (vec : list Z) (dim : nat) : Hnsw * bool :=
  if negb (dim =? hn_dim h)%nat then (h, false) else add_depth 2 rb ok h id vec.

Definition hnsw_remove (rb : RebuildOks) (h : Hnsw) (id : Z) : Hnsw :=
  match map_get h id with
  | None => h
  | Some node =>
      if nd_deleted (node_at h node) then h
      else maybe_rebuild (add_depth 1 rb) rb (map_del (set_nodes h (tombstone h node) (hn_live h - 1)) id)
  end.

(** Parameters given as 0 take their defaults. *)
Record HnswParams := mkHnswParams { hp_M : nat; hp_efc : nat; hp_efs : nat; hp_seed : Z; hp_quantize : bool }.
Definition hnsw_create (ok : bool) (dim : nat) (p : option HnswParams) : option Hnsw :=
  let pick (f : HnswParams -> nat) (d : nat) := match p with Some p => if (f p =? 0)%nat then d else f p | None => d end in
  hnsw_alloc ok dim (pick hp_M 16%nat) (pick hp_efc 200%nat) (pick hp_efs 50%nat)
    (match p with Some p => if hp_seed p =? 0 then 0x9E3779B97F4A7C15 else hp_seed p | None => 0x9E3779B97F4A7C15 end)
    (match p with Some p => hp_quantize p | None => false end).

(** [ok]: the arrays of the answer. *)
Definition hnsw_search (bk : BeamOks) (ok : bool) (h : Hnsw) (query : list Z) (dim top_k ef : nat) : option (list (Z * spec_float)) :=
  if negb (dim =? hn_dim h)%nat then None
  else
    let ef := if (ef =? 0)%nat then hn_ef_search h else ef in
    let ef := if (ef <? top_k)%nat then top_k else ef in
    match hn_entry h with
    | None => if ok then Some [] else None
    | Some entry =>
        if (top_k =? 0)%nat then if ok then Some [] else None
        else
          let qn := vk_norm query in
          let ep := descend (hn_max_layer h) h query qn entry (hn_max_layer h) in
          match search_layer bk h query qn [ep] ef 0 with
          | None => None
          | Some W =>
              if ok then
                Some (map (fun c => (nd_id (node_at h (cd_node c)), f32_sub f32_one (cd_d c))) (take top_k (vk_qsort cmp_cand_asc W)))
              else None
          end
    end.

Definition hnsw_count (h : Hnsw) : nat := hn_live h.
Definition hnsw_is_quantized (h : Hnsw) : bool := hn_quantized h.
Definition hnsw_total_nodes (h : Hnsw) : nat := length (hn_nodes h).

(** [sizeof(Hnsw)], [sizeof(Node)] and [sizeof(MapSlot)] are 136, 56 and 16 on
    LP64. *)
Definition hnsw_bytes (h : Hnsw) : Z :=
  let vsz := Z.of_nat (if hn_quantized h then hn_dim h else hn_dim h * 4) in
  foldl (fun total nd => total + vsz + Z.of_nat (length (nd_links nd)) * 12 + 4 * foldl (fun s l => s + Z.of_nat (length l)) 0 (nd_links nd))
    (136 + Z.of_nat (hn_cap h) * 56 + Z.of_nat (length (hn_map h)) * 16) (hn_nodes h).

(** The live vectors in node order; the callback may stop the walk. *)
Fixpoint foreach_nodes {C} (cb : Z -> list Z -> C -> C * bool) (ns : list Node) (ctx : C) : C :=
  match ns with
  | [] => ctx
  | nd :: ns' =>
      if nd_deleted nd then foreach_nodes cb ns' ctx
      else let '(ctx', stop) := cb (nd_id nd) (stored_float (nd_vec nd)) ctx in if stop then ctx' else foreach_nodes cb ns' ctx'
  end.
Definition hnsw_foreach_live {C} (ok : bool) (cb : Z -> list Z -> C -> C * bool) (h : Hnsw) (ctx : C) : C :=
  if hn_quantized h && negb ok then ctx else foreach_nodes cb (hn_nodes h) ctx.
End hnsw.

(** ** A kernel to evaluate with *)

(** A coarse logarithm, exact up to the factor at powers of two. *)
Definition coarse_log (x : spec_float) : spec_float :=
  match x with
  | S754_finite false m e => f64_mul (f64_of_Z (Z.log2 (Zpos m) + e)) (f64_div (f64_of_Z 6931471805599453) (f64_of_Z 10000000000000000))
  | _ => f32_zero
  end.

Definition cmp_le {A} (cmp : A -> A -> Z) (a b : A) : Prop := cmp a b <= 0.
#[export] Instance cmp_le_dec {A} (cmp : A -> A -> Z) : RelDecision (cmp_le cmp).
Proof. intros a b. unfold cmp_le. apply _. Defined.

Lemma sorted_strongly {A} (R : A -> A -> Prop) (l : list A) :
  (forall a b c, a ∈ l -> b ∈ l -> c ∈ l -> R a b -> R b c -> R a c) -> Sorted R l -> StronglySorted R l.
Proof.
  intros Ht Hs. induction Hs as [|x l Hs IH Hh]; [constructor|].
  assert (StronglySorted R l) as Hl by (apply IH; intros a b c Ha Hb Hc; apply Ht; by right). constructor; [done|].
  destruct Hh as [|y l Hxy]; [constructor|]. constructor; [done|]. inversion Hl as [|? ? _ Hall]; subst. rewrite Forall_forall in Hall |- *. intros z Hz.
  apply (Ht x y z); [left|right; left|right; by right|done|by apply Hall].
Qed.

Definition ieee_kernel : VecKernel.
Proof.
  refine {| vk_dot := dot_f32; vk_norm := l2norm; vk_dot_q8 := dot_q8; vk_log := coarse_log;
            vk_qsort := fun A cmp l => merge_sort (cmp_le cmp) l |}.
  - intros A cmp l. apply merge_sort_Permutation.
  - intros A cmp l Ht Htr. apply sorted_strongly.
    + intros a b c Ha Hb Hc. rewrite (merge_sort_Permutation (cmp_le cmp) l) in Ha, Hb, Hc. by apply Htr.
    + assert (Total (cmp_le cmp)) by (intros a b; apply Ht). apply (Sorted_merge_sort (cmp_le cmp)).
Defined.
