(* ===== verification/HnswCorrect.v ===== *)
(** * The HNSW graph is sound

    Invariants of the graph and of the id map, the loops' termination, what the
    beam search returns, and the refinement of a finite map from ids to
    vectors. *)

From S2P Require Import Prelude Endian Floats OpenTable BinaryHeap Hnsw.

(** ** Capacities *)

Lemma double_to_pow2 n c want : pow2 c -> pow2 (double_to n c want).
Proof.
  revert c. induction n as [|n IH]; intros c Hc; cbn [double_to]; [done|]. destruct (_ <? _)%nat; [|done]. apply IH. by apply pow2_double.
Qed.

Lemma double_to_ge n c want : (c <= double_to n c want)%nat.
Proof.
  revert c. induction n as [|n IH]; intros c; cbn [double_to]; [lia|]. destruct (_ <? _)%nat; [|lia]. specialize (IH (c * 2)%nat). lia.
Qed.

Lemma pow2_64 : pow2 64.
Proof. by exists 6%nat. Qed.

(** ** Visited sets *)

Definition v_has (v : VSet) (x : nat) : Prop := ot_map (vs_slots v) !! Z.of_nat x = Some tt.

Record vs_wf (v : VSet) : Prop := {
  vw_table : ot_wf (vs_slots v); vw_cap : (64 <= length (vs_slots v))%nat;
  vw_n : vs_n v = length (entries (vs_slots v)); vw_load : (vs_n v * 10 <= length (vs_slots v) * 7)%nat
}.

Lemma vset_init_wf ok hint v : vset_init ok hint = Some v -> vs_wf v /\ forall x, ~ v_has v x.
Proof.
  unfold vset_init. destruct ok; [|done]. intros [= <-]. pose proof (double_to_pow2 hint 64 (hint * 2) pow2_64) as Hp.
  split.
  - split; cbn [vs_slots vs_n]; [by apply empty_table_wf|rewrite length_replicate; apply double_to_ge|by rewrite empty_table|lia].
  - intros x. unfold v_has, ot_map. cbn [vs_slots]. rewrite empty_table. cbn. by rewrite lookup_empty.
Qed.

Lemma list_to_map_entries {V} (t : list (option (Z * V))) : list_to_map (entries t) = ot_map t.
Proof. done. Qed.

Lemma vset_add_spec ok v x :
  vs_wf v ->
  match vset_add ok v x with
  | None => True
  | Some (v', b) => vs_wf v' /\ (if b then ~ v_has v x else v_has v x) /\ forall y, v_has v' y <-> v_has v y \/ y = x
  end.
Proof.
  intros [W Hc Hn Hl]. unfold vset_add.
  set (grow := if (length (vs_slots v) * 7 <? (vs_n v + 1) * 10)%nat then vset_regrow (ok (vs_n v)) v else Some v).
  assert (match grow with
    | None => True
    | Some v1 => ot_wf (vs_slots v1) /\ (64 <= length (vs_slots v1))%nat /\ vs_n v1 = vs_n v /\ ot_map (vs_slots v1) = ot_map (vs_slots v) /\
        ((vs_n v + 1) * 10 <= length (vs_slots v1) * 7)%nat
    end) as Hg.
  { subst grow. destruct (Nat.ltb_spec (length (vs_slots v) * 7) ((vs_n v + 1) * 10)) as [Hlt|Hge]; [|by split_and!].
    unfold vset_regrow. destruct (ok (vs_n v)); [|done]. cbn [vs_slots vs_n].
    destruct (rehash_into_spec (length (vs_slots v) * 2) (entries (vs_slots v))) as (W' & E & L); [by apply pow2_double, W|apply keys_nodup, W|rewrite <- Hn; lia|].
    split; [done|]. rewrite L. split_and!; [lia|done|by rewrite E|lia]. }
  destruct grow as [v1|]; [|done]. destruct Hg as (W1 & Hc1 & Hn1 & E1 & Hl1).
  assert (length (entries (vs_slots v1)) = vs_n v) as Hen by (by rewrite <- (ot_map_size _ W1), E1, (ot_map_size _ W)).
  pose proof (map_probe_cases (vs_slots v1) (Z.of_nat x) W1) as Hp. destruct (ot_map (vs_slots v1) !! Z.of_nat x) as [[]|] eqn:Em.
  - rewrite Hp. split; [split; [done|done|lia|lia]|]. unfold v_has. rewrite <- E1. split; [done|]. intros y. split; [by left|]. by intros [?| ->].
  - destruct Hp as [-> _]. destruct (ot_set_spec (vs_slots v1) (Z.of_nat x) tt W1) as [W2 E2]; [left; lia|].
    unfold v_has in *. cbn [vs_slots vs_n]. rewrite <- E1. split.
    + split; cbn [vs_slots vs_n]; [done|by rewrite length_ot_set| |rewrite length_ot_set; lia].
      rewrite <- (ot_map_size _ W2), E2, map_size_insert_None, (ot_map_size _ W1) by done. lia.
    + split; [by rewrite Em|]. intros y. rewrite E2, lookup_insert. split.
      * case_decide as E; [intros _; right; lia|by left].
      * intros [Hy| ->]; [|by rewrite decide_True]. case_decide; done.
Qed.

(** ** Heaps keep their elements *)

Lemma heap_push_perm ok hp c maxh hp' : heap_push ok hp c maxh = Some hp' -> hp_a hp' ≡ₚ c :: hp_a hp.
Proof.
  unfold heap_push. destruct (heap_reserve ok hp (length (hp_a hp) + 1)) as [h1|] eqn:E; [|done]. intros [= <-]. cbn [hp_a].
  assert (hp_a h1 = hp_a hp) as ->.
  { unfold heap_reserve in E. destruct (_ <=? _)%nat; [by injection E as <-|]. destruct (ok _); [|done]. by injection E as <-. }
  unfold heap_up. rewrite sift_up_perm. by rewrite Permutation_app_comm.
Qed.

Lemma heap_pop_perm hp maxh c hp' : heap_pop hp maxh = Some (c, hp') -> hp_a hp ≡ₚ c :: hp_a hp'.
Proof.
  unfold heap_pop. destruct (hp_a hp) as [|top rest]; [done|]. intros [= <- <-]. cbn [hp_a]. unfold heap_down. rewrite sift_down_perm.
  apply Permutation_cons; [done|]. destruct (last rest) as [c|] eqn:El.
  - apply last_Some in El as [l ->]. rewrite removelast_last. by rewrite Permutation_app_comm.
  - by apply last_None in El as ->.
Qed.

Lemma heap_pop_None hp maxh : heap_pop hp maxh = None <-> hp_a hp = [].
Proof. unfold heap_pop. by destruct (hp_a hp). Qed.

Section hnsw.
Context `{VecKernel}.

(** ** Layers *)

Definition in_layer (h : Hnsw) (l x : nat) : Prop := exists nd, hn_nodes h !! x = Some nd /\ (l < length (nd_links nd))%nat.

Lemma in_layer_lt h l x : in_layer h l x -> (x < length (hn_nodes h))%nat.
Proof. intros (nd & Hx & _). by eapply lookup_lt_Some. Qed.

Lemma in_layer_le h l l' x : in_layer h l x -> (l' <= l)%nat -> in_layer h l' x.
Proof. intros (nd & Hx & Hl) Hle. exists nd. split; [done|lia]. Qed.

Lemma node_at_lookup h x nd : hn_nodes h !! x = Some nd -> node_at h x = nd.
Proof. intros Hx. unfold node_at. by rewrite Hx. Qed.

(** The links of every layer stay inside the layer and inside their array; the
    entry point is on the top layer. *)
Record shape (h : Hnsw) : Prop := {
  sh_M : (2 <= hn_M h)%nat;
  sh_links : forall i nd l ns, hn_nodes h !! i = Some nd -> nd_links nd !! l = Some ns ->
    (length ns <= node_layer_cap h l)%nat /\ Forall (in_layer h l) ns;
  sh_node : forall i nd, hn_nodes h !! i = Some nd -> (0 < length (nd_links nd))%nat;
  sh_entry : forall e, hn_entry h = Some e -> exists nd, hn_nodes h !! e = Some nd /\ length (nd_links nd) = S (hn_max_layer h)
}.

Lemma layer_links h l x : shape h -> Forall (in_layer h l) (nd_layer (node_at h x) l).
Proof.
  intros Hs. unfold nd_layer. destruct (nd_links (node_at h x) !! l) as [ns|] eqn:El; cbn; [|by apply Forall_nil].
  unfold node_at in El. destruct (hn_nodes h !! x) as [nd|] eqn:Ex; cbn in El; [|done]. by eapply sh_links.
Qed.

(** ** Greedy descent *)

Lemma greedy_scan_spec h q qn nb cur cur_d imp cur' d' imp' (P : nat -> Prop) :
  greedy_scan h q qn nb (cur, cur_d, imp) = (cur', d', imp') -> Forall P nb -> P cur -> cur_d = dist_q h q qn cur ->
  P cur' /\ d' = dist_q h q qn cur' /\ (imp' = imp /\ cur' = cur \/ imp' = true /\ SFltb d' cur_d = true).
Proof.
  unfold greedy_scan. intros E Hn. revert cur cur_d imp E. induction Hn as [|x nb Hx Hn IH]; intros cur cur_d imp E Hc Hd; cbn [foldl] in E.
  { injection E as <- <- <-. split_and!; try done. by left. }
  destruct (SFltb (dist_q h q qn x) cur_d) eqn:El.
  - destruct (IH x _ true E Hx eq_refl) as (H1 & H2 & [[-> ->]|[-> H3]]); split_and!; try done; right; split; try done; [by rewrite H2|by eapply sf_ltb_trans].
  - destruct (IH cur cur_d imp E Hc Hd) as (H1 & H2 & H3). done.
Qed.

Lemma greedy_loop_layer fuel h q qn layer cur d : shape h -> in_layer h layer cur -> d = dist_q h q qn cur -> in_layer h layer (greedy_loop fuel h q qn layer cur d).
Proof.
  intros Hs. revert cur d. induction fuel as [|fuel IH]; intros cur d Hc Hd; cbn [greedy_loop]; [done|]. destruct (_ <? _)%nat; [done|].
  destruct (greedy_scan _ _ _ _ _) as [[cur' d'] imp] eqn:E.
  destruct (greedy_scan_spec _ _ _ _ _ _ _ _ _ _ (in_layer h layer) E (layer_links h layer cur Hs) Hc Hd) as (H1 & H2 & _).
  destruct imp; [by apply IH|done].
Qed.

(** The distance falls strictly, so no node is met twice and a turn per node
    suffices. *)
Lemma greedy_loop_enough fuel h q qn layer cur d (seen : list nat) k :
  shape h -> in_layer h layer cur -> d = dist_q h q qn cur ->
  NoDup seen -> Forall (fun x => x < length (hn_nodes h))%nat seen -> Forall (fun x => SFltb d (dist_q h q qn x) = true) seen ->
  (length (hn_nodes h) < length seen + fuel)%nat ->
  greedy_loop (fuel + k) h q qn layer cur d = greedy_loop fuel h q qn layer cur d.
Proof.
  intros Hs. revert cur d seen. induction fuel as [|fuel IH]; intros cur d seen Hc Hd Hnd Hlt Hseen Hf.
  { exfalso. assert (length seen <= length (hn_nodes h))%nat; [|lia]. rewrite <- (length_seq (length (hn_nodes h)) 0).
    apply submseteq_length, NoDup_submseteq; [done|]. intros x Hx. apply elem_of_seq. rewrite Forall_forall in Hlt. specialize (Hlt x Hx). lia. }
  cbn [Nat.add greedy_loop]. destruct (_ <? _)%nat; [done|]. destruct (greedy_scan _ _ _ _ _) as [[cur' d'] imp] eqn:E.
  destruct (greedy_scan_spec _ _ _ _ _ _ _ _ _ _ (in_layer h layer) E (layer_links h layer cur Hs) Hc Hd) as (H1 & H2 & H3).
  destruct imp; [|done]. destruct H3 as [[? _]|[_ H3]]; [done|]. apply (IH cur' d' (cur :: seen)); try done.
  - constructor; [|done]. intros Hin. rewrite Forall_forall in Hseen. specialize (Hseen cur Hin). rewrite Hd in Hseen. by rewrite sf_ltb_irrefl in Hseen.
  - constructor; [by eapply in_layer_lt|done].
  - constructor; [by rewrite <- Hd|]. eapply Forall_impl; [exact Hseen|]. intros x Hx. cbn beta in Hx. by eapply sf_ltb_trans.
  - cbn [length]. lia.
Qed.

Lemma greedy_descend_layer h q qn ep layer l : shape h -> in_layer h layer ep -> (l <= layer)%nat -> in_layer h l (greedy_descend h q qn ep layer).
Proof. intros Hs He Hl. eapply in_layer_le; [|exact Hl]. by apply greedy_loop_layer. Qed.

Lemma descend_layer steps h q qn ep lc : shape h -> in_layer h lc ep -> (steps <= lc)%nat -> in_layer h (lc - steps) (descend steps h q qn ep lc).
Proof.
  intros Hs. revert ep lc. induction steps as [|steps IH]; intros ep lc He Hl; cbn [descend]; [by rewrite Nat.sub_0_r|].
  replace (lc - S steps)%nat with (lc - 1 - steps)%nat by lia. apply IH; [|lia]. apply greedy_descend_layer; [done|done|lia].
Qed.

(** ** The beam *)

#[local] Instance v_has_dec v x : Decision (v_has v x).
Proof. unfold v_has. apply _. Defined.

(** The nodes not visited yet. *)
Definition unseen (h : Hnsw) (v : VSet) : list nat := filter (fun x => ~ v_has v x) (seq 0 (length (hn_nodes h))).

Lemma unseen_add h v v' x :
  (x < length (hn_nodes h))%nat -> ~ v_has v x -> (forall y, v_has v' y <-> v_has v y \/ y = x) ->
  length (unseen h v) = S (length (unseen h v')).
Proof.
  intros Hx Hn Hv. change (S (length (unseen h v'))) with (length (x :: unseen h v')). apply Permutation_length. apply NoDup_Permutation.
  - apply NoDup_filter, NoDup_seq.
  - constructor; [|apply NoDup_filter, NoDup_seq]. intros Hin. apply list_elem_of_filter in Hin as [Hno _]. apply Hno, Hv. by right.
  - intros y. rewrite elem_of_cons. unfold unseen. rewrite !list_elem_of_filter, !elem_of_seq, Hv. destruct (decide (y = x)) as [->|]; [|naive_solver].
    split; [by left|]. intros _. split; [done|lia].
Qed.

Section beam.
Context (h : Hnsw) (q : list Z) (qn : spec_float) (l : nat) (Hs : shape h).

Record beam_ok (b : Beam) : Prop := {
  bk_vis : vs_wf (bm_vis b);
  bk_seen : forall x, v_has (bm_vis b) x -> in_layer h l x;
  bk_c : Forall (fun c => v_has (bm_vis b) (cd_node c) /\ cd_d c = dist_q h q qn (cd_node c)) (hp_a (bm_c b));
  bk_w : Forall (fun c => v_has (bm_vis b) (cd_node c) /\ cd_d c = dist_q h q qn (cd_node c) /\ nd_deleted (node_at h (cd_node c)) = false) (hp_a (bm_w b));
  bk_wn : NoDup (cd_node <$> hp_a (bm_w b))
}.

Definition measure (b : Beam) : nat := (length (unseen h (bm_vis b)) + length (hp_a (bm_c b)))%nat.

(** The state after a visit: nothing is lost, and a new node costs an unseen
    one. *)
Record beam_step (b b' : Beam) : Prop := {
  bs_ok : beam_ok b';
  bs_measure : (measure b' <= measure b)%nat;
  bs_vis : forall x, v_has (bm_vis b) x -> v_has (bm_vis b') x
}.

Lemma beam_step_trans a b c : beam_step a b -> beam_step b c -> beam_step a c.
Proof. intros [A1 A2 A3] [B1 B2 B3]. split; [done|lia|]. intros x Hx. by apply B3, A3. Qed.

Lemma mono_c v v' (C : list Cand) : (forall x, v_has v x -> v_has v' x) ->
  Forall (fun c => v_has v (cd_node c) /\ cd_d c = dist_q h q qn (cd_node c)) C -> Forall (fun c => v_has v' (cd_node c) /\ cd_d c = dist_q h q qn (cd_node c)) C.
Proof. intros Hv Hc. eapply Forall_impl; [exact Hc|]. cbn. intros c []. split; [by apply Hv|done]. Qed.

Lemma mono_w v v' (W : list Cand) : (forall x, v_has v x -> v_has v' x) ->
  Forall (fun c => v_has v (cd_node c) /\ cd_d c = dist_q h q qn (cd_node c) /\ nd_deleted (node_at h (cd_node c)) = false) W ->
  Forall (fun c => v_has v' (cd_node c) /\ cd_d c = dist_q h q qn (cd_node c) /\ nd_deleted (node_at h (cd_node c)) = false) W.
Proof. intros Hv Hc. eapply Forall_impl; [exact Hc|]. cbn. intros c (? & ? & ?). split_and!; [by apply Hv|done|done]. Qed.

(** A node seen for the first time goes to the candidates, and to the beam when
    it is live. *)
Lemma beam_push okc okw b v e C (W : option Heap) :
  beam_ok b -> vs_wf v -> in_layer h l e -> ~ v_has (bm_vis b) e -> (forall y, v_has v y <-> v_has (bm_vis b) y \/ y = e) ->
  heap_push okc (bm_c b) (mkCand (dist_q h q qn e) e) false = Some C ->
  (W = None \/ nd_deleted (node_at h e) = false /\ heap_push okw (bm_w b) (mkCand (dist_q h q qn e) e) true = W) ->
  beam_step b (mkBeam v C (default (bm_w b) W)).
Proof.
  intros [B1 B2 B3 B4 B5] Hv He Hn Hy HC HW. apply heap_push_perm in HC.
  assert (forall x, v_has (bm_vis b) x -> v_has v x) as Hmono by (intros x Hx; apply Hy; by left).
  assert (v_has v e) as Hve by (apply Hy; by right). pose proof (in_layer_lt _ _ _ He) as Hlt.
  split; cbn [bm_vis bm_c bm_w]; [split; cbn [bm_vis bm_c bm_w]|unfold measure; cbn [bm_vis bm_c]|done].
  - done.
  - intros x Hx. apply Hy in Hx as [Hx| ->]; [by apply B2|done].
  - rewrite HC. constructor; [done|by eapply mono_c].
  - destruct HW as [->|[Hd HW]]; cbn [default]; [by eapply mono_w|]. destruct W as [W|]; cbn [default]; [|by eapply mono_w].
    apply heap_push_perm in HW. change (id W) with W. rewrite HW. constructor; [done|by eapply mono_w].
  - destruct HW as [->|[Hd HW]]; cbn [default]; [done|]. destruct W as [W|]; cbn [default]; [|done]. change (id W) with W.
    apply heap_push_perm in HW. rewrite HW. cbn. constructor; [|done]. intros Hin. apply list_elem_of_fmap in Hin as (c & -> & Hin).
    rewrite Forall_forall in B4. by destruct (B4 c Hin) as (? & _).
  - rewrite HC. cbn [length]. rewrite (unseen_add h (bm_vis b) v e) by done. lia.
Qed.

Lemma beam_seen b v : beam_ok b -> vs_wf v -> (forall x, v_has v x <-> v_has (bm_vis b) x) -> beam_step b (mkBeam v (bm_c b) (bm_w b)).
Proof.
  intros [B1 B2 B3 B4 B5] Hv Hy. assert (unseen h v = unseen h (bm_vis b)) as Eu.
  { unfold unseen. apply list_filter_iff. intros x. by rewrite Hy. }
  split; cbn [bm_vis bm_c bm_w]; [split; cbn [bm_vis bm_c bm_w]; try done|unfold measure; cbn [bm_vis bm_c]; by rewrite Eu|intros x; apply Hy].
  - intros x Hx. by apply B2, Hy.
  - eapply mono_c; [|done]. intros x. apply Hy.
  - eapply mono_w; [|done]. intros x. apply Hy.
Qed.

Lemma beam_seed_spec ok b s b' : beam_ok b -> in_layer h l s -> beam_seed ok h q qn (Some b) s = Some b' -> beam_step b b'.
Proof.
  intros Hb Hl. unfold beam_seed. pose proof (vset_add_spec (bo_vis ok) (bm_vis b) s (bk_vis _ Hb)) as Ha.
  destruct (vset_add _ _ _) as [[v []]|].
  - destruct Ha as (Hv & Hn & Hy). destruct (heap_push _ (bm_c b) _ _) as [C|] eqn:EC; [|done]. destruct (nd_deleted _) eqn:Ed.
    + intros [= <-]. by eapply (beam_push _ (bo_w ok) b v s C None); try done; left.
    + destruct (heap_push _ (bm_w b) _ _) as [W|] eqn:EW; [|done]. intros [= <-]. by eapply (beam_push _ _ b v s C (Some W)); try done; right.
  - destruct Ha as (Hv & Hn & Hy). intros [= <-]. apply beam_seen; try done. intros x. rewrite Hy. naive_solver.
  - intros [= <-]. destruct Hb. split; [by split|done|done].
Qed.

Lemma beam_visit_spec ok ef b e b' : beam_ok b -> in_layer h l e -> beam_visit ok h q qn ef (Some b) e = Some b' -> beam_step b b'.
Proof.
  intros Hb Hl. unfold beam_visit. pose proof (vset_add_spec (bo_vis ok) (bm_vis b) e (bk_vis _ Hb)) as Ha.
  destruct (vset_add _ _ _) as [[v []]|]; [| |done].
  - destruct Ha as (Hv & Hn & Hy). destruct (beam_takes _ _ _).
    + destruct (heap_push _ (bm_c b) _ _) as [C|] eqn:EC; [|done]. destruct (nd_deleted _) eqn:Ed.
      { intros [= <-]. by eapply (beam_push _ (bo_w ok) b v e C None); try done; left. }
      destruct (heap_push _ (bm_w b) _ _) as [W|] eqn:EW; [|done]. intros [= <-].
      assert (beam_step b (mkBeam v C W)) as Hst by (by eapply (beam_push _ _ b v e C (Some W)); try done; right).
      destruct (_ <? _)%nat; [|done]. destruct (heap_pop W true) as [[c W']|] eqn:EP; [|done]. apply heap_pop_perm in EP.
      destruct Hst as [[H1 H2 H3 H4 H5] H6 H7]. cbn [bm_vis bm_c bm_w] in *. rewrite EP in H4, H5. split; [split; cbn [bm_vis bm_c bm_w]; try done| |done].
      * by apply Forall_cons in H4 as [_ H4].
      * cbn in H5. by apply NoDup_cons in H5 as [_ H5].
      * done.
    + intros [= <-]. destruct Hb as [B1 B2 B3 B4 B5]. assert (forall x, v_has (bm_vis b) x -> v_has v x) as Hmono by (intros x Hx; apply Hy; by left).
      split; cbn [bm_vis bm_c bm_w]; [split; cbn [bm_vis bm_c bm_w]; try done| |done].
      * intros x Hx. apply Hy in Hx as [Hx| ->]; [by apply B2|done].
      * by eapply mono_c.
      * by eapply mono_w.
      * unfold measure. cbn [bm_vis bm_c]. rewrite (unseen_add h (bm_vis b) v e) by (try done; by eapply in_layer_lt). lia.
  - destruct Ha as (Hv & Hn & Hy). intros [= <-]. apply beam_seen; try done. intros x. rewrite Hy. naive_solver.
Qed.

Lemma beam_fold_None {X} (f : option Beam -> X -> option Beam) (xs : list X) : (forall x, f None x = None) -> foldl f None xs = None.
Proof. intros Hf. induction xs as [|x xs IH]; [done|]. cbn. by rewrite Hf. Qed.

Lemma beam_fold {X} (f : option Beam -> X -> option Beam) (xs : list X) (P : X -> Prop) b b' :
  (forall x, f None x = None) -> (forall b x b', beam_ok b -> P x -> f (Some b) x = Some b' -> beam_step b b') ->
  Forall P xs -> beam_ok b -> foldl f (Some b) xs = Some b' -> beam_step b b'.
Proof.
  intros Hf Hst Hp. revert b. induction Hp as [|x xs Hx _ IH]; intros b Hb E; cbn [foldl] in E.
  { injection E as <-. destruct Hb. by split; [split| |]. }
  destruct (f (Some b) x) as [b1|] eqn:E1; [|by rewrite beam_fold_None in E].
  specialize (Hst _ _ _ Hb Hx E1). eapply beam_step_trans; [exact Hst|]. apply IH; [apply Hst|done].
Qed.

Lemma beam_pop b c C : beam_ok b -> heap_pop (bm_c b) false = Some (c, C) ->
  let b1 := mkBeam (bm_vis b) C (bm_w b) in beam_ok b1 /\ measure b = S (measure b1) /\ v_has (bm_vis b) (cd_node c).
Proof.
  intros [B1 B2 B3 B4 B5] EP. apply heap_pop_perm in EP. cbn zeta. rewrite EP in B3. apply Forall_cons in B3 as [[Hc _] B3].
  split; [by split|]. split; [|done]. unfold measure. cbn [bm_vis bm_c]. rewrite EP. cbn [length]. lia.
Qed.

(** The loop keeps the beam, and stops within the fuel it is given. *)
Lemma beam_loop_spec fuel ok ef b b' :
  beam_ok b -> beam_loop fuel ok h q qn ef l b = Some b' -> beam_ok b'.
Proof.
  revert b. induction fuel as [|fuel IH]; intros b Hb E; cbn [beam_loop] in E; [by injection E as <-|].
  destruct (heap_pop (bm_c b) false) as [[c C]|] eqn:EP; [|by injection E as <-].
  destruct (beam_pop b c C Hb EP) as (Hb1 & _ & _). destruct (_ && _); [by injection E as <-|].
  destruct (_ <? _)%nat; [by eapply IH|].
  destruct (foldl _ _ _) as [b2|] eqn:EF; [|done]. eapply IH; [|exact E].
  eapply (beam_fold _ _ (in_layer h l)) in EF; [apply EF|done| |by apply layer_links|done]. intros. by eapply beam_visit_spec.
Qed.

Lemma beam_loop_enough fuel ok ef b k :
  beam_ok b -> (measure b < fuel)%nat -> beam_loop (fuel + k) ok h q qn ef l b = beam_loop fuel ok h q qn ef l b.
Proof.
  revert b. induction fuel as [|fuel IH]; intros b Hb Hm; [lia|]. cbn [Nat.add beam_loop].
  destruct (heap_pop (bm_c b) false) as [[c C]|] eqn:EP; [|done].
  destruct (beam_pop b c C Hb EP) as (Hb1 & Hm1 & _). destruct (_ && _); [done|]. destruct (_ <? _)%nat; [apply IH; [done|lia]|].
  destruct (foldl _ _ _) as [b2|] eqn:EF; [|done].
  assert (beam_step (mkBeam (bm_vis b) C (bm_w b)) b2) as Hst.
  { eapply (beam_fold _ _ (in_layer h l)) in EF; [apply EF|done| |by apply layer_links|done]. intros. by eapply beam_visit_spec. }
  apply IH; [apply Hst|]. pose proof (bs_measure _ _ Hst). lia.
Qed.

(** The beam before the loop. *)
Lemma seeded ok seeds ef v b :
  vset_init (bo_init ok) (ef * 8 + 64) = Some v -> Forall (in_layer h l) seeds ->
  foldl (beam_seed ok h q qn) (Some (mkBeam v heap_empty heap_empty)) seeds = Some b ->
  beam_ok b /\ (measure b <= length (hn_nodes h))%nat.
Proof.
  intros Hv Hsd E. apply vset_init_wf in Hv as [Hv Hno].
  assert (beam_ok (mkBeam v heap_empty heap_empty)) as Hb.
  { split; cbn; [done| |by apply Forall_nil|by apply Forall_nil|constructor]. intros x Hx. by destruct (Hno x). }
  eapply (beam_fold _ _ (in_layer h l)) in E; [|done| |done|done]; [|intros; by eapply beam_seed_spec].
  split; [apply E|]. pose proof (bs_measure _ _ E) as Hm. etransitivity; [exact Hm|]. unfold measure. cbn [bm_vis bm_c heap_empty hp_a length].
  rewrite Nat.add_0_r. unfold unseen. etransitivity; [apply length_filter|]. by rewrite length_seq.
Qed.

(** What a search of the layer returns: live nodes of the layer, each once,
    with their distances. *)
Lemma search_layer_spec ok seeds ef W :
  Forall (in_layer h l) seeds -> search_layer ok h q qn seeds ef l = Some W ->
  NoDup (cd_node <$> W) /\
  Forall (fun c => in_layer h l (cd_node c) /\ cd_d c = dist_q h q qn (cd_node c) /\ nd_deleted (node_at h (cd_node c)) = false) W.
Proof.
  intros Hsd. unfold search_layer. destruct (vset_init _ _) as [v|] eqn:Ev; [|done].
  destruct (foldl _ _ seeds) as [b|] eqn:Eb; [|done]. destruct (seeded _ _ _ _ _ Ev Hsd Eb) as [Hb _].
  destruct (beam_loop _ _ _ _ _ _ _ _) as [b'|] eqn:El; [|done]. intros [= <-]. apply beam_loop_spec in El as [B1 B2 B3 B4 B5]; [|done].
  split; [done|]. eapply Forall_impl; [exact B4|]. cbn. intros c (? & ? & ?). split_and!; [by apply B2|done|done].
Qed.
End beam.

(** ** Choosing neighbours *)

Lemma select_fold (f : list nat -> Cand -> list nat) (P : nat -> Prop) M (cand : list Cand) out :
  (forall out c, f out c = out \/ (length out < M)%nat /\ f out c = out ++ [cd_node c]) ->
  Forall P (cd_node <$> cand) -> Forall P out -> (length out <= M)%nat ->
  Forall P (foldl f out cand) /\ (length (foldl f out cand) <= M)%nat.
Proof.
  intros Hf Hc. revert out. induction cand as [|c cand IH]; intros out Ho Hl; cbn [foldl]; [done|].
  cbn in Hc. apply Forall_cons in Hc as [Hp Hc]. destruct (Hf out c) as [->|[Hlt ->]]; apply IH; try done.
  - apply Forall_app. split; [done|by apply Forall_singleton].
  - rewrite length_app. cbn. lia.
Qed.

Lemma select_diverse_cases h M out c : select_diverse h M out c = out \/ (length out < M)%nat /\ select_diverse h M out c = out ++ [cd_node c].
Proof. unfold select_diverse. destruct (Nat.ltb_spec (length out) M); [|by left]. destruct (existsb _ _); [by left|by right]. Qed.

Lemma select_fill_cases M out c : select_fill M out c = out \/ (length out < M)%nat /\ select_fill M out c = out ++ [cd_node c].
Proof. unfold select_fill. destruct (Nat.ltb_spec (length out) M); [|by left]. destruct (existsb _ _); [by left|by right]. Qed.

Lemma select_heuristic_spec h cand M (P : nat -> Prop) :
  Forall P (cd_node <$> cand) ->
  Forall P (snd (select_heuristic h cand M)) /\ (length (snd (select_heuristic h cand M)) <= M)%nat /\ fst (select_heuristic h cand M) ≡ₚ cand.
Proof.
  intros Hp. unfold select_heuristic. cbn [fst snd]. pose proof (vk_qsort_perm _ cmp_cand_asc cand) as Hperm.
  assert (Forall P (cd_node <$> vk_qsort cmp_cand_asc cand)) as Hp' by (by rewrite Hperm).
  destruct (select_fold (select_diverse h M) P M (vk_qsort cmp_cand_asc cand) [] (select_diverse_cases h M) Hp') as [H1 H2]; [by apply Forall_nil|cbn; lia|].
  destruct (select_fold (select_fill M) P M (vk_qsort cmp_cand_asc cand) _ (select_fill_cases M) Hp' H1 H2). done.
Qed.

(** ** Links change, nodes stay *)

Definition nd_core (nd : Node) : Z * NodeVec * spec_float * bool * nat := (nd_id nd, nd_vec nd, nd_norm nd, nd_deleted nd, length (nd_links nd)).

Record same_core (h h' : Hnsw) : Prop := {
  sc_nodes : map nd_core (hn_nodes h') = map nd_core (hn_nodes h);
  sc_rest : set_nodes h' [] 0 = set_nodes h [] 0; sc_live : hn_live h' = hn_live h
}.

#[local] Instance same_core_preorder : PreOrder same_core.
Proof. split; [by split|]. intros a b c [] []. split; congruence. Qed.

Lemma same_core_lookup h h' i nd : same_core h h' -> hn_nodes h !! i = Some nd -> exists nd', hn_nodes h' !! i = Some nd' /\ nd_core nd' = nd_core nd.
Proof.
  intros [E _ _] Hi. assert (map nd_core (hn_nodes h') !! i = Some (nd_core nd)) as Hl by (rewrite E, list_lookup_fmap, Hi; done).
  rewrite list_lookup_fmap in Hl. destruct (hn_nodes h' !! i) as [nd'|]; [|done]. exists nd'. cbn in Hl. split; [done|congruence].
Qed.

Lemma same_core_sym h h' : same_core h h' -> same_core h' h.
Proof. intros []. by split. Qed.

Lemma same_core_layer h h' l x : same_core h h' -> in_layer h l x -> in_layer h' l x.
Proof.
  intros Hc (nd & Hx & Hl). destruct (same_core_lookup _ _ _ _ Hc Hx) as (nd' & Hx' & E). exists nd'. split; [done|].
  unfold nd_core in E. injection E as _ _ _ _ E. lia.
Qed.

Lemma same_core_fields h h' : same_core h h' ->
  hn_dim h' = hn_dim h /\ hn_M h' = hn_M h /\ hn_ef_construction h' = hn_ef_construction h /\ hn_quantized h' = hn_quantized h /\ hn_entry h' = hn_entry h /\
  hn_max_layer h' = hn_max_layer h /\ hn_map h' = hn_map h /\ hn_rng h' = hn_rng h /\ hn_cap h' = hn_cap h /\ hn_ef_search h' = hn_ef_search h.
Proof. intros [_ E _]. unfold set_nodes in E. injection E. intros. by split_and!. Qed.

Lemma connect_core h a b layer : same_core h (connect h a b layer).
Proof.
  unfold connect. split; [|done|done]. cbn [set_nodes hn_nodes]. generalize (relinked h a b layer) as ls. intros ls.
  destruct (hn_nodes h !! a) as [nd|] eqn:Ea.
  - rewrite list_fmap_insert. apply list_insert_id. rewrite list_lookup_fmap, Ea. cbn. f_equal. rewrite (node_at_lookup _ _ _ Ea).
    unfold nd_core, set_layer. cbn. by rewrite length_insert.
  - by rewrite list_insert_ge by (by apply lookup_ge_None).
Qed.

Lemma connect_shape h a b layer : shape h -> in_layer h layer a -> in_layer h layer b -> shape (connect h a b layer).
Proof.
  intros Hs Ha Hb. pose proof (connect_core h a b layer) as Hc. pose proof (same_core_fields _ _ Hc) as (_ & EM & _ & _ & Ee & El & _).
  assert (forall l, node_layer_cap (connect h a b layer) l = node_layer_cap h l) as Ecap by done.
  split; [by rewrite EM; apply Hs| | |].
  - intros i nd l ns Hi Hl. rewrite Ecap.
    assert ((length ns <= node_layer_cap h l)%nat /\ Forall (in_layer h l) ns) as [H1 H2].
    2: { split; [done|]. eapply Forall_impl; [exact H2|]. intros x. by apply same_core_layer. }
    destruct Ha as (na & Ha & Hal). unfold connect in Hi. cbn [set_nodes hn_nodes] in Hi. rewrite (node_at_lookup _ _ _ Ha) in Hi.
    destruct (decide (i = a)) as [->|Hne]; [|rewrite list_lookup_insert_ne in Hi by done; by eapply sh_links].
    rewrite list_lookup_insert_eq in Hi by (by eapply lookup_lt_Some). injection Hi as <-. cbn [set_layer nd_links] in Hl.
    destruct (decide (l = layer)) as [->|Hnl]; [|rewrite list_lookup_insert_ne in Hl by done; by eapply sh_links].
    rewrite list_lookup_insert_eq in Hl by done. injection Hl as <-.
    destruct (lookup_lt_is_Some_2 (nd_links na) layer Hal) as [old Hold].
    unfold relinked. rewrite (node_at_lookup _ _ _ Ha). assert (nd_layer na layer = old) as -> by (unfold nd_layer; by rewrite Hold).
    destruct (sh_links h Hs a na layer old Ha Hold) as [Hlen Hf]. destruct (Nat.ltb_spec (length old) (node_layer_cap h layer)).
    + split; [rewrite length_app; cbn; lia|]. apply Forall_app. split; [done|by apply Forall_singleton].
    + destruct (select_heuristic_spec h (map (fun x => mkCand (dist_nn h a x) x) old ++ [mkCand (dist_nn h a b) b]) (node_layer_cap h layer) (in_layer h layer)) as (H1 & H2 & _); [|done].
      rewrite fmap_app. apply Forall_app. split; [|by apply Forall_singleton]. rewrite Forall_forall in Hf |- *. intros x Hx.
      apply list_elem_of_fmap in Hx as (c & -> & Hc'). apply list_elem_of_fmap in Hc' as (y & -> & Hy). by apply Hf.
  - intros i nd Hi. destruct (same_core_lookup _ _ _ _ (same_core_sym _ _ Hc) Hi) as (nd' & Hi' & E). unfold nd_core in E. injection E as _ _ _ _ E.
    rewrite <- E. by eapply sh_node.
  - intros e He. rewrite Ee in He. destruct (sh_entry h Hs e He) as (nd & Hn & Hl).
    destruct (same_core_lookup _ _ _ _ Hc Hn) as (nd' & Hi' & E). exists nd'. split; [done|]. unfold nd_core in E. injection E as _ _ _ _ E. by rewrite El, E.
Qed.

Lemma link_all_spec h cur lc chosen :
  shape h -> in_layer h lc cur -> Forall (in_layer h lc) chosen -> shape (link_all h cur lc chosen) /\ same_core h (link_all h cur lc chosen).
Proof.
  intros Hs Hc Hf. unfold link_all. revert h Hs Hc Hf. induction chosen as [|c chosen IH]; intros h Hs Hc Hf; cbn [foldl]; [done|].
  apply Forall_cons in Hf as [Hx Hf]. set (h1 := connect h cur c lc). set (h2 := connect h1 c cur lc).
  assert (same_core h h1) as C1 by apply connect_core. assert (same_core h1 h2) as C2 by apply connect_core.
  assert (same_core h h2) as C12 by (by etransitivity).
  assert (shape h2) as S2.
  { apply connect_shape; [by apply connect_shape|by eapply same_core_layer|by eapply same_core_layer]. }
  destruct (IH h2 S2) as [Hs' Hc']; [by eapply same_core_layer| |].
  - eapply Forall_impl; [exact Hf|]. intros x. by apply same_core_layer.
  - split; [done|]. by etransitivity.
Qed.

Lemma link_layer_spec h cur ep lc W h1 ep1 :
  shape h -> in_layer h lc cur -> in_layer h lc ep -> Forall (in_layer h lc) (cd_node <$> W) -> link_layer h cur ep lc W = (h1, ep1) ->
  shape h1 /\ same_core h h1 /\ in_layer h1 lc ep1.
Proof.
  intros Hs Hc He HW. unfold link_layer. destruct W as [|c W]; [by intros [= <- <-]|]. cbn zeta. set (M := if (_ <? _)%nat then _ else _).
  destruct (select_heuristic_spec h (c :: W) M (in_layer h lc) HW) as (S1 & _ & S3).
  destruct (select_heuristic h (c :: W) M) as [W' chosen]. cbn [fst snd] in S1, S3.
  destruct (link_all_spec h cur lc chosen Hs Hc S1) as [L1 L2]. intros [= <- <-]. split; [done|]. split; [done|].
  destruct W' as [|c' W']; [by apply Permutation_length in S3|]. cbn. eapply same_core_layer; [exact L2|].
  rewrite <- S3 in HW. by apply Forall_cons in HW as [? _].
Qed.

Lemma insert_layers_spec ok h q qn cur ep lc h' b :
  shape h -> in_layer h lc cur -> in_layer h lc ep -> insert_layers ok h q qn cur ep lc = (h', b) -> shape h' /\ same_core h h'.
Proof.
  revert h ep. induction lc as [|lc IH]; intros h ep Hs Hc He E; cbn [insert_layers] in E.
  all: destruct (search_layer _ _ _ _ _ _ _) as [W|] eqn:ES; [|by injection E as <- _].
  all: apply (search_layer_spec h q qn _ Hs) in ES as [_ HW]; [|by apply Forall_singleton].
  all: destruct (link_layer _ _ _ _ _) as [h1 ep1] eqn:E1; apply link_layer_spec in E1 as (H1 & H2 & H3); try done;
    try (apply Forall_fmap; eapply Forall_impl; [exact HW|]; by intros ? [? _]).
  - by injection E as <- _.
  - destruct (IH h1 ep1 H1) as [R1 R2]; [|by eapply in_layer_le; [|apply Nat.le_succ_diag_r]|exact E|].
    + eapply in_layer_le; [eapply same_core_layer; [exact H2|exact Hc]|lia].
    + split; [done|]. by etransitivity.
Qed.

(** ** Vectors by id *)

Definition table_ok (t : list (option (Z * nat))) : Prop :=
  t = [] \/ ot_wf t /\ (64 <= length t)%nat /\ (size (ot_map t) * 10 <= length t * 7)%nat.

Definition live_node (h : Hnsw) (i : nat) (id : Z) (nv : NodeVec) : Prop :=
  exists nd, hn_nodes h !! i = Some nd /\ nd_id nd = id /\ nd_deleted nd = false /\ nd_vec nd = nv.

(** The graph stores the vectors of [m]: the map holds exactly the live nodes,
    one per id. Quantized vectors are an approximation of those given. *)
Record hn_wf (h : Hnsw) (m : gmap Z (list Z)) : Prop := {
  hw_shape : shape h;
  hw_table : table_ok (hn_map h);
  hw_ids : forall id i, ot_map (hn_map h) !! id = Some i <-> exists nv, live_node h i id nv;
  hw_count : size (ot_map (hn_map h)) = hn_live h;
  hw_dom : dom (ot_map (hn_map h)) = dom m;
  hw_vec : hn_quantized h = false -> forall i id nv, live_node h i id nv -> nv = NvFloat (m !!! id)
}.

Lemma map_get_map h id : table_ok (hn_map h) -> map_get h id = ot_map (hn_map h) !! id.
Proof.
  unfold map_get. intros [-> | (W & Hl & _)]; [done|]. destruct (Nat.eqb_spec (length (hn_map h)) 0); [lia|]. by apply ot_get_spec.
Qed.

Lemma map_grow_ok t newcap : table_ok t -> pow2 newcap -> (64 <= newcap)%nat -> (size (ot_map t) < newcap)%nat ->
  exists t', map_grow true t newcap = Some t' /\ ot_wf t' /\ ot_map t' = ot_map t /\ length t' = newcap.
Proof.
  intros Ht Hp Hc Hs. assert (NoDup (entries t).*1 /\ length (entries t) = size (ot_map t)) as [Hnd Hlen].
  { destruct Ht as [-> | (W & _)]; [split; [constructor|done]|]. split; [apply keys_nodup, W|by rewrite ot_map_size]. }
  destruct (rehash_into_spec newcap (entries t)) as (W & E & L); [done|done|lia|]. eexists. done.
Qed.

Lemma map_put_spec h id node :
  table_ok (hn_map h) -> is_Some (ot_map (hn_map h) !! id) \/ size (ot_map (hn_map h)) = hn_live h ->
  exists t, map_put true true h id node = Some (set_map h t) /\ table_ok t /\ ot_map t = <[id := node]> (ot_map (hn_map h)).
Proof.
  intros Ht Hsz. unfold map_put.
  assert (exists m, (if (length (hn_map h) =? 0)%nat then map_grow true (hn_map h) 64 else Some (hn_map h)) = Some m /\
    ot_wf m /\ (64 <= length m)%nat /\ (size (ot_map m) * 10 <= length m * 7)%nat /\ ot_map m = ot_map (hn_map h)) as (m & -> & W & Hl & Hload & Em).
  { destruct Ht as [E | (W & Hl & Hload)].
    - rewrite E. cbn [length Nat.eqb]. assert (size (ot_map (@nil (option (Z * nat)))) = 0%nat) as E0 by done.
      destruct (map_grow_ok [] 64) as (t' & -> & W & E' & L); [by left|apply pow2_64|lia|rewrite E0; lia|].
      exists t'. rewrite E', L, E0. split_and!; (done || lia).
    - destruct (Nat.eqb_spec (length (hn_map h)) 0); [lia|]. by exists (hn_map h). }
  rewrite <- Em in Hsz |- *. pose proof (map_probe_cases m id W) as Hp. destruct (ot_map m !! id) as [j|] eqn:Ej.
  - rewrite Hp. destruct (ot_set_spec m id node W) as [W' E']; [right; by rewrite Ej|]. exists (ot_set m id node). split; [done|]. split; [|done].
    right. rewrite length_ot_set, E', map_size_insert_Some by (by rewrite Ej). done.
  - destruct Hp as [-> _]. destruct Hsz as [[? ?]|Hsz]; [done|]. destruct (Nat.ltb_spec (length m * 7) ((hn_live h + 1) * 10)) as [Hgrow|Hroom].
    + destruct (map_grow_ok m (length m * 2)) as (t' & -> & W' & E' & L'); [right; by split_and!|by apply pow2_double, W|lia|lia|].
      destruct (ot_set_spec t' id node W') as [W2 E2]; [left; rewrite <- (ot_map_size _ W'), E', L'; lia|].
      exists (ot_set t' id node). split; [done|]. rewrite E2, E'. split; [|done]. right. rewrite length_ot_set, E2, E', map_size_insert_None, L' by done.
      split_and!; [done|lia|lia].
    + destruct (ot_set_spec m id node W) as [W2 E2]; [left; rewrite <- (ot_map_size _ W); lia|].
      exists (ot_set m id node). split; [done|]. rewrite E2. split; [|done]. right. rewrite length_ot_set, E2, map_size_insert_None by done.
      split_and!; [done|lia|lia].
Qed.

Lemma live_node_core h h' i id nv : same_core h h' -> live_node h i id nv -> live_node h' i id nv.
Proof.
  intros Hc (nd & Hi & H1 & H2 & H3). destruct (same_core_lookup _ _ _ _ Hc Hi) as (nd' & Hi' & E). exists nd'.
  unfold nd_core in E. injection E as E1 E2 _ E3 _. split; [done|]. by rewrite E1, E2, E3.
Qed.

Lemma wf_core h h' m : hn_wf h m -> shape h' -> same_core h h' -> hn_wf h' m.
Proof.
  intros [_ W2 W3 W4 W5 W6] Hs Hc. pose proof (same_core_sym _ _ Hc) as Hc'. destruct (same_core_fields _ _ Hc) as (_ & _ & _ & Eq & _ & _ & Em & _).
  split; rewrite ?Em, ?Eq; try done.
  - intros id i. rewrite W3. split; intros [nv Hl]; exists nv; by eapply live_node_core.
  - by rewrite W4, (sc_live _ _ Hc).
  - intros Hq i id nv Hl. eapply W6; [done|]. by eapply live_node_core.
Qed.

Lemma wf_entry h m e l nd : hn_wf h m -> hn_nodes h !! e = Some nd -> length (nd_links nd) = S l -> hn_wf (set_entry h e l) m.
Proof.
  intros [[S1 S2 S3 S4] W2 W3 W4 W5 W6] He Hl. split; try done. split; [done|exact S2|exact S3|]. intros e' [= <-]. by exists nd.
Qed.

(** *** Tombstones *)

Lemma tombstone_lookup h i nd j : hn_nodes h !! i = Some nd ->
  tombstone h i !! j = if decide (j = i) then Some (mkNode (nd_id nd) (nd_vec nd) (nd_norm nd) true (nd_links nd)) else hn_nodes h !! j.
Proof.
  intros Hi. unfold tombstone. rewrite (node_at_lookup _ _ _ Hi). case_decide as E; [subst; rewrite list_lookup_insert_eq by (by eapply lookup_lt_Some); done|].
  by rewrite list_lookup_insert_ne.
Qed.

Lemma tombstone_layer h i nd live l x : hn_nodes h !! i = Some nd -> in_layer (set_nodes h (tombstone h i) live) l x <-> in_layer h l x.
Proof.
  intros Hi. unfold in_layer. cbn [set_nodes hn_nodes]. rewrite (tombstone_lookup h i nd x Hi). case_decide as E; [subst x|done]. split.
  - intros (nd' & [= <-] & Hl). by exists nd.
  - intros (nd' & Hx & Hl). assert (nd' = nd) as -> by congruence. by eexists.
Qed.

Lemma tombstone_shape h i nd live : shape h -> hn_nodes h !! i = Some nd -> shape (set_nodes h (tombstone h i) live).
Proof.
  intros [S1 S2 S3 S4] Hi. split; [done| | |].
  - intros j nd' l ns Hj Hl. cbn [set_nodes hn_nodes] in Hj. rewrite (tombstone_lookup h i nd j Hi) in Hj.
    assert (exists nd0, hn_nodes h !! j = Some nd0 /\ nd_links nd0 = nd_links nd') as (nd0 & Hj0 & El).
    { case_decide; [subst j; injection Hj as <-; by exists nd|by exists nd']. }
    rewrite <- El in Hl. destruct (S2 _ _ _ _ Hj0 Hl) as [H1 H2]. split; [done|]. eapply Forall_impl; [exact H2|]. intros x. by apply (tombstone_layer h i nd).
  - intros j nd' Hj. cbn [set_nodes hn_nodes] in Hj. rewrite (tombstone_lookup h i nd j Hi) in Hj. case_decide; [subst j; injection Hj as <-; exact (S3 i nd Hi)|by eapply S3].
  - intros e He. destruct (S4 e He) as (nd' & Hn & Hl). cbn [set_nodes hn_nodes]. rewrite (tombstone_lookup h i nd e Hi). case_decide; [|by exists nd'].
    subst e. assert (nd' = nd) as -> by congruence. by eexists.
Qed.

Lemma tombstone_live h i nd live j id nv : hn_nodes h !! i = Some nd ->
  live_node (set_nodes h (tombstone h i) live) j id nv <-> j <> i /\ live_node h j id nv.
Proof.
  intros Hi. unfold live_node. cbn [set_nodes hn_nodes]. rewrite (tombstone_lookup h i nd j Hi). case_decide as E.
  - subst j. split; [by intros (x & [= <-] & _ & ? & _)|]. by intros [? _].
  - split; [by intros ?|by intros [_ ?]].
Qed.

(** *** A new node *)

Definition appended (h : Hnsw) (nd : Node) : Hnsw := set_nodes h (hn_nodes h ++ [nd]) (hn_live h).

Lemma appended_layer h nd l x : in_layer h l x -> in_layer (appended h nd) l x.
Proof. intros (x0 & Hx & Hl). exists x0. split; [|done]. cbn. by apply lookup_app_l_Some. Qed.

Lemma appended_shape h nd level : shape h -> nd_links nd = replicate (S level) [] -> shape (appended h nd).
Proof.
  intros [S1 S2 S3 S4] Hn. split; [done| | |].
  - intros i nd' l ns Hi Hl. cbn in Hi. apply lookup_app_Some in Hi as [Hi|[_ Hi]].
    + destruct (S2 _ _ _ _ Hi Hl) as [H1 H2]. split; [done|]. eapply Forall_impl; [exact H2|]. intros x. apply appended_layer.
    + apply list_lookup_singleton_Some in Hi as [_ <-]. rewrite Hn in Hl. apply lookup_replicate in Hl as [-> _]. split; [cbn; lia|by apply Forall_nil].
  - intros i nd' Hi. cbn in Hi. apply lookup_app_Some in Hi as [Hi|[_ Hi]]; [by eapply S3|]. apply list_lookup_singleton_Some in Hi as [_ <-].
    rewrite Hn, length_replicate. lia.
  - intros e He. destruct (S4 e He) as (nd' & Hx & Hl). exists nd'. split; [|done]. cbn. by apply lookup_app_l_Some.
Qed.

Lemma appended_live h nd j id nv :
  live_node (appended h nd) j id nv <-> live_node h j id nv \/ j = length (hn_nodes h) /\ nd_id nd = id /\ nd_deleted nd = false /\ nd_vec nd = nv.
Proof.
  unfold live_node. cbn [appended set_nodes hn_nodes]. split.
  - intros (x & Hx & Hr). apply lookup_app_Some in Hx as [Hx|[Hge Hx]]; [left; by exists x|]. apply list_lookup_singleton_Some in Hx as [Hj <-].
    right. split; [lia|done].
  - intros [(x & Hx & Hr)|(-> & Hr)]; [exists x; split; [by apply lookup_app_l_Some|done]|]. exists nd. split; [|done]. by apply list_lookup_middle.
Qed.

Record add_oks (ok : AddOks) : Prop := { ak_nodes : ao_nodes ok = true; ak_node : ao_node ok = true; ak_map0 : ao_map0 ok = true; ak_map : ao_map ok = true }.

(** The parts of the state an insertion leaves alone. *)
Definition same_kind (h h' : Hnsw) : Prop := hn_quantized h' = hn_quantized h /\ hn_dim h' = hn_dim h.

(** The node is stored and counted, its links still empty. *)
Definition stored_node (ok : AddOks) (h : Hnsw) (id : Z) (vec : list Z) : option (Hnsw * nat * nat) :=
  let h :=
    match map_get h id with
    | Some prev => if nd_deleted (node_at h prev) then h else set_nodes h (tombstone h prev) (hn_live h - 1)
    | None => h
    end in
  let '(rng, level) := rand_level h in
  let h := set_rng h rng in
  match node_create ok h id vec level with
  | (h, None) => None
  | (h, Some cur) =>
      match map_put (ao_map0 ok) (ao_map ok) h id cur with
      | None => None
      | Some h => Some (set_nodes h (hn_nodes h) (hn_live h + 1), cur, level)
      end
  end.

(** Dropping the previous node of [id]. *)
Lemma retire_prev h m id :
  hn_wf h m ->
  let h1 := match map_get h id with
            | Some prev => if nd_deleted (node_at h prev) then h else set_nodes h (tombstone h prev) (hn_live h - 1)
            | None => h
            end in
  shape h1 /\ hn_map h1 = hn_map h /\ same_kind h h1 /\ length (hn_nodes h1) = length (hn_nodes h) /\ hn_entry h1 = hn_entry h /\
  hn_live h1 = (hn_live h - (if decide (is_Some (ot_map (hn_map h) !! id)) then 1 else 0))%nat /\
  forall j id' nv, live_node h1 j id' nv <-> id' <> id /\ live_node h j id' nv.
Proof.
  intros [W1 W2 W3 W4 W5 W6]. rewrite (map_get_map h id W2). destruct (ot_map (hn_map h) !! id) as [prev|] eqn:Em; cbn zeta.
  - pose proof (proj1 (W3 id prev) Em) as (nv & nd & Hp & Hid & Hd & Hv). rewrite (node_at_lookup _ _ _ Hp), Hd.
    split; [by eapply tombstone_shape|]. split; [done|]. split; [done|]. split; [cbn; unfold tombstone; by rewrite length_insert|]. split; [done|].
    rewrite decide_True by done. split; [done|]. intros j id' nv'. rewrite (tombstone_live h prev nd) by done. split.
    + intros [Hj Hl]. split; [|done]. intros ->. apply Hj. assert (ot_map (hn_map h) !! id = Some j) by (apply W3; eauto). congruence.
    + intros [Hne Hl]. split; [|done]. intros ->. destruct Hl as (nd' & Hp' & Hid' & _). congruence.
  - rewrite decide_False by (by intros []). split_and!; try done; [lia|]. intros j id' nv. split; [|by intros []]. intros Hl. split; [|done].
    intros ->. assert (ot_map (hn_map h) !! id = Some j) by (apply W3; eauto). congruence.
Qed.

Lemma node_create_ok ok h id vec level : add_oks ok ->
  exists cap, node_create ok h id vec level =
    (appended (set_ncap h cap) (mkNode id (fst (store_vector (hn_quantized h) vec)) (snd (store_vector (hn_quantized h) vec)) false (replicate (S level) [])),
     Some (length (hn_nodes h))).
Proof.
  intros [E1 E2 _ _]. unfold node_create. rewrite E1, E2. cbn [negb]. cbn zeta. rewrite andb_false_r. cbn [negb]. destruct (length (hn_nodes h) =? hn_cap h)%nat; eexists.
  - cbn [set_ncap hn_quantized]. destruct (store_vector (hn_quantized h) vec). reflexivity.
  - destruct (store_vector (hn_quantized h) vec). instantiate (1 := hn_cap h). by destruct h.
Qed.

Lemma stored_node_spec ok h m id vec :
  hn_wf h m -> add_oks ok ->
  exists h5 level nd, stored_node ok h id vec = Some (h5, length (hn_nodes h), level) /\ hn_wf h5 (<[id := vec]> m) /\ same_kind h h5 /\
    hn_nodes h5 !! length (hn_nodes h) = Some nd /\ length (nd_links nd) = S level.
Proof.
  intros W Hok. unfold stored_node. destruct (retire_prev h m id W) as (S1 & Em & Hk & Hlen & _ & Hlive & Hl). cbn zeta in *.
  set (h1 := match map_get h id with Some _ => _ | None => _ end) in *. clearbody h1.
  destruct (rand_level h1) as [rng level]. destruct (node_create_ok ok (set_rng h1 rng) id vec level Hok) as [cap ->].
  cbn [set_rng hn_nodes hn_quantized]. rewrite (ak_map0 _ Hok), (ak_map _ Hok). rewrite Hlen.
  set (nd := mkNode id _ _ false _). set (h3 := appended (set_ncap (set_rng h1 rng) cap) nd).
  destruct W as [W1 W2 W3 W4 W5 W6].
  assert (hn_map h3 = hn_map h) as Em3 by done. assert (hn_live h3 = hn_live h1) as El3 by done.
  assert (0 < size (ot_map (hn_map h)) \/ ~ is_Some (ot_map (hn_map h) !! id))%nat as Hpos.
  { destruct (ot_map (hn_map h) !! id) as [x|] eqn:E; [left|right; by intros []]. destruct (size (ot_map (hn_map h))) eqn:Es; [|lia].
    apply map_size_empty_inv in Es. rewrite Es in E. by rewrite lookup_empty in E. }
  destruct (map_put_spec h3 id (length (hn_nodes h))) as (t & -> & Ht & Et); [by rewrite Em3| |].
  { rewrite Em3, El3, Hlive. case_decide as Hc; [by left|]. right. rewrite W4. lia. }
  rewrite Em3 in Et. assert (hn_nodes h3 !! length (hn_nodes h) = Some nd) as Hnd by (cbn; rewrite <- Hlen; by apply list_lookup_middle).
  assert (shape h3) as S3 by (apply (appended_shape _ nd level); [destruct S1; by split|done]).
  assert (forall j id' nv, live_node h3 j id' nv <-> (id' <> id /\ live_node h j id' nv) \/ j = length (hn_nodes h) /\ id = id' /\ nd_vec nd = nv) as Hl3.
  { intros j id' nv. unfold h3. rewrite appended_live. cbn [set_ncap set_rng hn_nodes nd_id nd_deleted]. rewrite <- (Hl j id' nv), <- Hlen. naive_solver. }
  eexists _, level, nd. split; [reflexivity|]. split; [|split; [done|split; [exact Hnd|cbn; by rewrite length_replicate]]].
  split; cbn [set_nodes set_map hn_map hn_live hn_quantized].
  - destruct S3. by split.
  - done.
  - intros id' i. rewrite Et, lookup_insert. change (live_node (set_nodes (set_map h3 t) (hn_nodes (set_map h3 t)) (hn_live (set_map h3 t) + 1)) i id') with (live_node h3 i id').
    setoid_rewrite Hl3. destruct (decide (id = id')) as [E|E]; [subst id'; split|rewrite W3; split].
    + intros [= <-]. exists (nd_vec nd). by right.
    + intros (nv & [[? _]|(-> & _)]); done.
    + intros [nv Hn]. exists nv. left. split; [congruence|done].
    + intros (nv & [[_ ?]|(_ & ? & _)]); [by exists nv|done].
  - rewrite Et, El3, Hlive. destruct (decide (is_Some (ot_map (hn_map h) !! id))) as [Hs|Hs].
    + rewrite map_size_insert_Some by done. destruct Hpos as [?|?]; [lia|done].
    + rewrite map_size_insert_None by (by apply eq_None_not_Some). lia.
  - rewrite Et, !dom_insert_L. by rewrite W5.
  - intros Hq i id' nv Hn. apply Hl3 in Hn as [[Hne Hn]|(_ & <- & <-)].
    + rewrite lookup_total_insert_ne by done. eapply W6; [|done]. by destruct Hk as [<- _].
    + rewrite lookup_total_insert_eq. cbn [nd nd_vec]. unfold store_vector.
      assert (hn_quantized h1 = false) as Hq1 by done. by rewrite Hq1.
Qed.

(** What is stored does not depend on which allocations could have failed. *)
Lemma map_put_true ok0 ok h id node h' : map_put ok0 ok h id node = Some h' -> map_put true true h id node = Some h'.
Proof.
  unfold map_put, map_grow. intros E. destruct (length (hn_map h) =? 0)%nat; [destruct ok0; [|done]|];
    (destruct (_ !! _) as [[|]|]; [done| |]; destruct (_ <? _)%nat; try done; by destruct ok).
Qed.

Lemma node_create_true ok h id vec level h' cur : node_create ok h id vec level = (h', Some cur) ->
  node_create (mkAddOks true true true true (ao_beam ok)) h id vec level = (h', Some cur).
Proof.
  unfold node_create. cbn zeta. cbn [ao_nodes ao_node negb]. rewrite andb_false_r. destruct (_ && _); [done|]. by destruct (ao_node ok).
Qed.

Lemma stored_node_true ok h id vec x : stored_node ok h id vec = Some x -> stored_node (mkAddOks true true true true (ao_beam ok)) h id vec = Some x.
Proof.
  unfold stored_node. cbn zeta. destruct (rand_level _) as [rng level]. destruct (node_create ok _ _ _ _) as [h3 [cur|]] eqn:En; [|done].
  rewrite (node_create_true _ _ _ _ _ _ _ En). destruct (map_put (ao_map0 ok) _ _ _ _) as [h4|] eqn:Em; [|done].
  cbn [ao_map0 ao_map]. by rewrite (map_put_true _ _ _ _ _ _ Em).
Qed.

Lemma stored_node_wf ok h m id vec h5 cur level :
  hn_wf h m -> stored_node ok h id vec = Some (h5, cur, level) ->
  hn_wf h5 (<[id := vec]> m) /\ same_kind h h5 /\ exists nd, hn_nodes h5 !! cur = Some nd /\ length (nd_links nd) = S level.
Proof.
  intros W E. apply stored_node_true in E.
  destruct (stored_node_spec (mkAddOks true true true true (ao_beam ok)) h m id vec W ltac:(by split)) as (h5' & level' & nd & E' & W5 & K & Hnd & Hlev).
  rewrite E in E'. injection E' as -> -> ->. split; [done|]. split; [done|]. by exists nd.
Qed.

(** *** Insertion *)

(** What follows once the node is stored. *)
Definition linked (depth : nat) (rb : RebuildOks) (ok : AddOks) (vec : list Z) (h : Hnsw) (cur level : nat) : Hnsw * bool :=
  match hn_entry h with
  | None => (set_entry h cur level, true)
  | Some entry =>
      let ep := descend (hn_max_layer h - level) h vec (vk_norm vec) entry (hn_max_layer h) in
      let '(h', ok') := insert_layers (ao_beam ok) h vec (vk_norm vec) cur ep (Nat.min level (hn_max_layer h)) in
      if negb ok' then (h', false)
      else
        let h' := if (hn_max_layer h' <? level)%nat then set_entry h' cur level else h' in
        (match depth with O => h' | S depth' => maybe_rebuild (add_depth depth' rb) rb h' end, true)
  end.

Lemma add_depth_linked depth rb ok h id vec h5 cur level :
  stored_node ok h id vec = Some (h5, cur, level) -> add_depth depth rb ok h id vec = linked depth rb ok vec h5 cur level.
Proof.
  unfold stored_node. destruct depth; cbn [add_depth]; cbn zeta; destruct (rand_level _) as [rng lv];
    destruct (node_create _ _ _ _ _) as [h3 [c|]]; try done; destruct (map_put _ _ _ _ _) as [h4|]; try done; by intros [= <- <- <-].
Qed.

(** An insertion that succeeds puts the vector under its id; so does one with
    room for the node and its map entry, however its search for neighbours
    ends. *)
Definition add_spec (add : AddOks -> Hnsw -> Z -> list Z -> Hnsw * bool) : Prop :=
  forall ok h m id vec, hn_wf h m -> add_oks ok \/ snd (add ok h id vec) = true ->
    let h' := fst (add ok h id vec) in hn_wf h' (<[id := vec]> m) /\ same_kind h h'.

Lemma add_depth_stored depth rb ok h id vec : snd (add_depth depth rb ok h id vec) = true -> is_Some (stored_node ok h id vec).
Proof.
  unfold stored_node. destruct depth; cbn [add_depth]; cbn zeta; destruct (rand_level _) as [rng lv];
    destruct (node_create _ _ _ _ _) as [h3 [c|]]; try done; destruct (map_put _ _ _ _ _) as [h4|]; done.
Qed.

Lemma wf_quantized h m m' : hn_wf h m -> hn_quantized h = true -> dom m' = dom m -> hn_wf h m'.
Proof. intros [W1 W2 W3 W4 W5 W6] Hq Hd. split; try done; [by rewrite W5|]. intros Hq'. congruence. Qed.

Definition reinserted (m : gmap Z (list Z)) (nd : Node) : gmap Z (list Z) :=
  if nd_deleted nd then m else <[nd_id nd := stored_float (nd_vec nd)]> m.

Lemma reinsert_spec add ok k t mt ns t' :
  add_spec add -> hn_wf t mt -> reinsert add ok k t ns = Some t' ->
  hn_wf t' (foldl reinserted mt ns) /\ same_kind t t'.
Proof.
  intros Ha. revert k t mt. induction ns as [|nd ns IH]; intros k t mt W E; cbn [reinsert foldl] in E |- *; [by injection E as <-|].
  unfold reinserted at 2. destruct (nd_deleted nd); [by eapply IH|].
  pose proof (Ha (ok k) t mt (nd_id nd) (stored_float (nd_vec nd)) W) as Ha1. destruct (add _ _ _ _) as [t1 []]; [|done]. cbn [fst snd] in *.
  destruct Ha1 as [W1 [K1 K2]]; [by right|].
  destruct (IH (S k) t1 _ W1 E) as [W2 [K3 K4]]. split; [done|]. split; congruence.
Qed.

(** The live nodes, inserted one by one, give back the vectors. *)
Lemma reinserted_lookup ns m id :
  (forall i j a b, ns !! i = Some a -> ns !! j = Some b -> nd_deleted a = false -> nd_deleted b = false -> nd_id a = nd_id b -> i = j) ->
  match foldl reinserted m ns !! id with
  | Some v => (exists i nd, ns !! i = Some nd /\ nd_deleted nd = false /\ nd_id nd = id /\ v = stored_float (nd_vec nd)) \/ m !! id = Some v
  | None => m !! id = None /\ forall i nd, ns !! i = Some nd -> nd_deleted nd = false -> nd_id nd <> id
  end.
Proof.
  revert m. induction ns as [|nd ns IH]; intros m Hu; cbn [foldl]; [destruct (m !! id) eqn:E; [by right|]; split; [done|]; intros i nd Hi; done|].
  assert (forall i j a b, ns !! i = Some a -> ns !! j = Some b -> nd_deleted a = false -> nd_deleted b = false -> nd_id a = nd_id b -> i = j) as Hu'.
  { intros i j a b Hi Hj H1 H2 E. specialize (Hu (S i) (S j) a b Hi Hj H1 H2 E). lia. }
  specialize (IH (reinserted m nd) Hu').
  assert (reinserted m nd !! id = if nd_deleted nd then m !! id else if decide (nd_id nd = id) then Some (stored_float (nd_vec nd)) else m !! id) as Er.
  { unfold reinserted. destruct (nd_deleted nd); [done|apply lookup_insert]. }
  rewrite Er in IH. destruct (foldl reinserted (reinserted m nd) ns !! id) as [v|].
  - destruct IH as [(i & x & Hi & Hr)|Hm]; [left; by exists (S i), x|]. destruct (nd_deleted nd) eqn:Ed; [by right|].
    case_decide as E; [injection Hm as <-; left; by exists 0%nat, nd|by right].
  - destruct IH as [Hm Hno]. destruct (nd_deleted nd) eqn:Ed.
    + split; [done|]. intros [|i] x Hi Hx; [injection Hi as <-; congruence|by eapply Hno].
    + case_decide as E; [done|]. split; [done|]. intros [|i] x Hi Hx; [injection Hi as <-; done|by eapply Hno].
Qed.

Lemma wf_reinserted h m : hn_wf h m -> dom (foldl reinserted ∅ (hn_nodes h)) = dom m /\ (hn_quantized h = false -> foldl reinserted ∅ (hn_nodes h) = m).
Proof.
  intros [W1 W2 W3 W4 W5 W6].
  assert (forall i j a b, hn_nodes h !! i = Some a -> hn_nodes h !! j = Some b -> nd_deleted a = false -> nd_deleted b = false -> nd_id a = nd_id b -> i = j) as Hu.
  { intros i j a b Hi Hj Ha Hb E. assert (ot_map (hn_map h) !! nd_id a = Some i) as E1 by (apply W3; exists (nd_vec a), a; done).
    assert (ot_map (hn_map h) !! nd_id a = Some j) as E2 by (apply W3; exists (nd_vec b), b; done). congruence. }
  assert (forall id, is_Some (m !! id) <-> exists i nd, hn_nodes h !! i = Some nd /\ nd_deleted nd = false /\ nd_id nd = id) as Hm.
  { intros id. rewrite <- elem_of_dom, <- W5, elem_of_dom. split.
    - intros [i Hi]. apply W3 in Hi as (nv & nd & ? & ? & ? & ?). by exists i, nd.
    - intros (i & nd & ? & ? & ?). exists i. apply W3. by exists (nd_vec nd), nd. }
  pose proof (fun id => reinserted_lookup (hn_nodes h) ∅ id Hu) as Hl. split.
  - apply set_eq. intros id. rewrite !elem_of_dom, Hm. specialize (Hl id). destruct (foldl _ _ _ !! id) as [v|].
    + destruct Hl as [(i & nd & ? & ? & ? & ?)|Hl]; [|by rewrite lookup_empty in Hl]. split; [intros _; by exists i, nd|done].
    + destruct Hl as [_ Hno]. split; [by intros []|]. intros (i & nd & Hi & Hd & Hid). by destruct (Hno i nd Hi Hd).
  - intros Hq. apply map_eq. intros id. specialize (Hl id). destruct (foldl _ _ _ !! id) as [v|] eqn:Ev.
    + destruct Hl as [(i & nd & Hi & Hd & Hid & ->)|Hl]; [|by rewrite lookup_empty in Hl].
      assert (live_node h i id (nd_vec nd)) as Hln by (by exists nd). rewrite (W6 Hq _ _ _ Hln). cbn.
      destruct (proj2 (Hm id)) as [x Hx]; [by exists i, nd|]. by rewrite Hx, (lookup_total_correct _ _ _ Hx).
    + destruct Hl as [_ Hno]. destruct (m !! id) as [x|] eqn:Ex; [|done]. exfalso. destruct (proj1 (Hm id)) as (i & nd & Hi & Hd & Hid); [by rewrite Ex|].
      by destruct (Hno i nd Hi Hd).
Qed.

Lemma empty_wf ok dim M efc efs rng quantize h : hnsw_alloc ok dim M efc efs rng quantize = Some h -> hn_wf h ∅ /\ hn_quantized h = quantize /\ hn_dim h = dim.
Proof.
  unfold hnsw_alloc. destruct ok; [|done]. intros [= <-]. split; [|done]. split; try done.
  - split; [cbn [hn_M]; destruct (Nat.ltb_spec M 2); lia|done..].
  - by left.
  - intros id i. cbn [hn_map]. split; [done|]. intros (nv & nd & Hx & _). done.
  - intros _ i id nv (nd & Hx & _). done.
Qed.

Lemma maybe_rebuild_spec add rb h m :
  add_spec add -> hn_wf h m -> hn_wf (maybe_rebuild add rb h) m /\ same_kind h (maybe_rebuild add rb h).
Proof.
  intros Ha W. unfold maybe_rebuild. cbn zeta. destruct (_ || _); [done|]. destruct (hnsw_alloc _ _ _ _ _ _ _) as [t|] eqn:Et; [|done].
  apply empty_wf in Et as (Wt & Hq & Hd). destruct (reinsert _ _ _ _ _) as [t'|] eqn:Er; cbn [default]; [|done]. change (id t') with t'.
  destruct (reinsert_spec _ _ _ _ _ _ _ Ha Wt Er) as [W' [K1 K2]]. split; [|split; congruence].
  destruct (wf_reinserted h m W) as [Edom Evec]. destruct (hn_quantized h) eqn:Eq; [|by rewrite <- Evec].
  eapply wf_quantized; [exact W'|congruence|done].
Qed.

Lemma linked_spec depth rb ok vec h m cur level nd :
  (match depth with O => True | S d => add_spec (add_depth d rb) end) ->
  hn_wf h m -> hn_nodes h !! cur = Some nd -> length (nd_links nd) = S level ->
  hn_wf (fst (linked depth rb ok vec h cur level)) m /\ same_kind h (fst (linked depth rb ok vec h cur level)).
Proof.
  intros Hd W Hcur Hlev. unfold linked. destruct (hn_entry h) as [entry|] eqn:Ee; [|split; [by eapply wf_entry|done]].
  destruct (sh_entry h (hw_shape _ _ W) entry Ee) as (ne & Hne & Hle).
  assert (in_layer h (Nat.min level (hn_max_layer h)) (descend (hn_max_layer h - level) h vec (vk_norm vec) entry (hn_max_layer h))) as Hep.
  { eapply in_layer_le; [apply descend_layer; [apply W| |]|]; [exists ne; split; [done|lia]|lia|lia]. }
  cbn zeta. destruct (insert_layers _ _ _ _ _ _ _) as [h' b] eqn:E.
  apply insert_layers_spec in E as [S' C']; [|apply W|exists nd; split; [done|lia]|done].
  assert (hn_wf h' m) as W' by (by eapply wf_core). destruct (same_core_fields _ _ C') as (Ed & _ & _ & Eq & _ & El & _).
  destruct b; cbn [negb]; [|split; [done|by split]]. cbn [fst].
  set (h2 := if (hn_max_layer h' <? level)%nat then _ else _).
  assert (hn_wf h2 m /\ same_kind h h2) as [W2 [K1 K2]].
  { subst h2. destruct (_ <? _)%nat; [|split; [done|by split]]. destruct (same_core_lookup _ _ _ _ C' Hcur) as (nd' & Hn' & En').
    unfold nd_core in En'. injection En' as _ _ _ _ En'. split; [|by split]. eapply wf_entry; [done|exact Hn'|]. by rewrite En'. }
  destruct depth as [|d]; [done|]. destruct (maybe_rebuild_spec (add_depth d rb) rb h2 m Hd W2) as [R1 [R2 R3]]. split; [done|]. split; congruence.
Qed.

Lemma add_depth_spec depth rb : add_spec (add_depth depth rb).
Proof.
  induction depth as [|d IH]; intros ok h m id vec W Hok; cbn zeta.
  all: assert (is_Some (stored_node ok h id vec)) as [[[h5 cur] level] E]
    by (destruct Hok as [Hok|Hok]; [destruct (stored_node_spec ok h m id vec W Hok) as (? & ? & ? & -> & _); by eexists|by eapply add_depth_stored]);
    destruct (stored_node_wf _ _ _ _ _ _ _ _ W E) as (W5 & [K1 K2] & nd & Hnd & Hlev); rewrite (add_depth_linked _ _ _ _ _ _ _ _ _ E).
  - destruct (linked_spec 0 rb ok vec h5 _ _ level nd I W5 Hnd Hlev) as [R1 [R2 R3]]. split; [done|]. split; congruence.
  - destruct (linked_spec (S d) rb ok vec h5 _ _ level nd IH W5 Hnd Hlev) as [R1 [R2 R3]]. split; [done|]. split; congruence.
Qed.

(** *** Removal *)

Lemma hnsw_remove_spec rb h m id :
  hn_wf h m -> hn_wf (hnsw_remove rb h id) (delete id m) /\ same_kind h (hnsw_remove rb h id).
Proof.
  intros W. unfold hnsw_remove. pose proof W as [W1 W2 W3 W4 W5 W6]. rewrite (map_get_map h id W2).
  destruct (ot_map (hn_map h) !! id) as [node|] eqn:Em.
  2: { rewrite delete_id; [done|]. apply eq_None_not_Some. intros Hs. apply elem_of_dom in Hs. rewrite <- W5 in Hs. apply elem_of_dom in Hs as [? ?]. congruence. }
  pose proof (proj1 (W3 id node) Em) as (nv & nd & Hp & Hid & Hd & Hv). rewrite (node_at_lookup _ _ _ Hp), Hd.
  set (h1 := map_del _ id).
  assert (exists t, h1 = set_map (set_nodes h (tombstone h node) (hn_live h - 1)) t /\ ot_wf t /\ length t = length (hn_map h) /\ ot_map t = delete id (ot_map (hn_map h)) /\ (64 <= length t)%nat) as (t & Eh & Wt & Lt & Et & Ht64).
  { subst h1. unfold map_del. cbn [set_nodes hn_map]. destruct W2 as [E | (Wm & Hl & Hload)]; [rewrite E in Em; done|].
    destruct (Nat.eqb_spec (length (hn_map h)) 0); [lia|]. destruct (ot_del_spec (hn_map h) id Wm) as (D1 & D2 & D3). eexists. split; [reflexivity|].
    split_and!; try done. lia. }
  assert (size (ot_map t) = hn_live h - 1)%nat as Hsz by (rewrite Et, map_size_delete_Some by (by rewrite Em); lia).
  assert (hn_wf h1 (delete id m)) as W1'.
  { rewrite Eh. split; cbn [set_map set_nodes hn_map hn_live hn_quantized].
    - destruct (tombstone_shape h node nd (hn_live h - 1) W1 Hp). by split.
    - right. split; [done|]. split; [done|]. rewrite Hsz, Lt. destruct W2 as [E | (_ & _ & Hload)]; [rewrite E in Lt; cbn in Lt; lia|lia].
    - intros id' i. rewrite Et, lookup_delete.
      change (live_node (set_map (set_nodes h (tombstone h node) (hn_live h - 1)) t) i id') with (live_node (set_nodes h (tombstone h node) (hn_live h - 1)) i id').
      setoid_rewrite (tombstone_live h node nd); [|done]. case_decide as E.
      + subst id'. split; [done|]. intros (x & Hne & Hl). exfalso. apply Hne. assert (ot_map (hn_map h) !! id = Some i) by (apply W3; eauto). congruence.
      + rewrite W3. split; [|intros (x & _ & ?); by exists x]. intros [x Hx]. exists x. split; [|done]. intros ->. destruct Hx as (nd' & Hn' & Hi' & _). congruence.
    - done.
    - rewrite Et, !dom_delete_L. by rewrite W5.
    - intros Hq i id' x Hl. change (live_node (set_nodes h (tombstone h node) (hn_live h - 1)) i id' x) in Hl.
      apply (tombstone_live h node nd _ _ _ _ Hp) in Hl as [Hne Hl]. rewrite lookup_total_delete_ne; [by eapply W6|].
      intros <-. apply Hne. assert (ot_map (hn_map h) !! id = Some i) by (apply W3; eauto). congruence. }
  destruct (maybe_rebuild_spec (add_depth 1 rb) rb h1 _ (add_depth_spec 1 rb) W1') as [R1 [R2 R3]]. split; [done|]. rewrite Eh in R2, R3 |- *. by split.
Qed.

(** ** A beam as wide as the graph *)

Definition beam_all_ok (ok : BeamOks) : Prop := bo_init ok = true /\ (forall n, bo_vis ok n = true) /\ (forall n, bo_c ok n = true) /\ (forall n, bo_w ok n = true).

Lemma heap_push_ok ok hp c maxh : (forall n, ok n = true) -> is_Some (heap_push ok hp c maxh).
Proof. intros Ho. unfold heap_push, heap_reserve. destruct (_ <=? _)%nat; [by eexists|]. rewrite Ho. by eexists. Qed.

Lemma vset_add_ok ok v x : (forall n, ok n = true) -> is_Some (vset_add ok v x).
Proof.
  intros Ho. unfold vset_add, vset_regrow. rewrite Ho. destruct (_ <? _)%nat; (destruct (_ !! _) as [[|]|]; by eexists).
Qed.

Lemma beam_seed_ok ok h q qn b s : beam_all_ok ok -> is_Some (beam_seed ok h q qn (Some b) s).
Proof.
  intros (_ & Hv & Hc & Hw). unfold beam_seed. destruct (vset_add_ok (bo_vis ok) (bm_vis b) s Hv) as [[v []] ->]; [|by eexists].
  destruct (heap_push_ok (bo_c ok) (bm_c b) (mkCand (dist_q h q qn s) s) false Hc) as [C ->]. destruct (nd_deleted _); [by eexists|].
  destruct (heap_push_ok (bo_w ok) (bm_w b) (mkCand (dist_q h q qn s) s) true Hw) as [W ->]. by eexists.
Qed.

Lemma beam_visit_ok ok h q qn ef b e : beam_all_ok ok -> is_Some (beam_visit ok h q qn ef (Some b) e).
Proof.
  intros (_ & Hv & Hc & Hw). unfold beam_visit. destruct (vset_add_ok (bo_vis ok) (bm_vis b) e Hv) as [[v []] ->]; [|by eexists].
  destruct (beam_takes _ _ _); [|by eexists]. destruct (heap_push_ok (bo_c ok) (bm_c b) (mkCand (dist_q h q qn e) e) false Hc) as [C ->].
  destruct (nd_deleted _); [by eexists|]. destruct (heap_push_ok (bo_w ok) (bm_w b) (mkCand (dist_q h q qn e) e) true Hw) as [W ->]. by eexists.
Qed.

Lemma fold_ok {X} (f : option Beam -> X -> option Beam) (xs : list X) b : (forall b x, is_Some (f (Some b) x)) -> is_Some (foldl f (Some b) xs).
Proof. intros Hf. revert b. induction xs as [|x xs IH]; intros b; cbn [foldl]; [by eexists|]. destruct (Hf b x) as [b' ->]. apply IH. Qed.

(** A search with memory answers. *)
Lemma search_layer_ok ok h q qn seeds ef l : beam_all_ok ok -> is_Some (search_layer ok h q qn seeds ef l).
Proof.
  intros Hok. unfold search_layer, vset_init. rewrite (proj1 Hok). destruct (fold_ok (beam_seed ok h q qn) seeds (mkBeam (mkVSet (replicate (double_to (ef * 8 + 64) 64 ((ef * 8 + 64) * 2)) None) 0) heap_empty heap_empty)) as [b ->];
    [intros; by apply beam_seed_ok|].
  assert (forall fuel b, is_Some (beam_loop fuel ok h q qn ef l b)) as Hl; [|destruct (Hl (length (hn_nodes h) + length seeds + 1)%nat b) as [b' ->]; by eexists].
  induction fuel as [|fuel IH]; intros b1; cbn [beam_loop]; [by eexists|]. destruct (heap_pop _ _) as [[c C]|]; [|by eexists]. destruct (_ && _); [by eexists|].
  destruct (_ <? _)%nat; [apply IH|]. destruct (fold_ok (beam_visit ok h q qn ef) (nd_layer (node_at h (cd_node c)) l) (mkBeam (bm_vis b1) C (bm_w b1))) as [b2 ->]; [intros; by apply beam_visit_ok|apply IH].
Qed.

Lemma insert_layers_ok ok lc h q qn cur ep : (forall l, beam_all_ok (ok l)) -> snd (insert_layers ok h q qn cur ep lc) = true.
Proof.
  intros Hb. revert h ep. induction lc as [|lc IH]; intros h ep; cbn [insert_layers].
  - destruct (search_layer_ok (ok 0%nat) h q qn [ep] (hn_ef_construction h) 0 (Hb _)) as [W ->]. by destruct (link_layer _ _ _ _ _).
  - destruct (search_layer_ok (ok (S lc)) h q qn [ep] (hn_ef_construction h) (S lc) (Hb _)) as [W ->]. destruct (link_layer _ _ _ _ _). apply IH.
Qed.

(** An insertion with memory succeeds. *)
Lemma hnsw_add_ok rb ok h m id vec : hn_wf h m -> add_oks ok -> (forall l, beam_all_ok (ao_beam ok l)) -> snd (hnsw_add rb ok h id vec (hn_dim h)) = true.
Proof.
  intros W Hok Hb. unfold hnsw_add. rewrite Nat.eqb_refl. cbn [negb].
  destruct (stored_node_spec ok h m id vec W Hok) as (h5 & level & nd & E & _). rewrite (add_depth_linked _ _ _ _ _ _ _ _ _ E). unfold linked.
  destruct (hn_entry h5) as [entry|]; [|done]. cbn zeta.
  pose proof (insert_layers_ok (ao_beam ok) (Nat.min level (hn_max_layer h5)) h5 vec (vk_norm vec) (length (hn_nodes h))
    (descend (hn_max_layer h5 - level) h5 vec (vk_norm vec) entry (hn_max_layer h5)) Hb) as Hi.
  destruct (insert_layers _ _ _ _ _ _ _) as [h' b]. cbn [snd] in Hi. by subst b.
Qed.

Section wide.
Context (h : Hnsw) (q : list Z) (qn : spec_float) (l : nat) (Hs : shape h) (ok : BeamOks) (Hok : beam_all_ok ok)
  (ef : nat) (Hef : (length (hn_nodes h) <= ef)%nat) (root : nat).

Definition linked_at (x y : nat) : Prop := y ∈ nd_layer (node_at h x) l.
Definition is_live_at (x : nat) : Prop := nd_deleted (node_at h x) = false.

(** Everything visited is reachable, and in the beam when live. *)
Record wide_ok (b : Beam) : Prop := {
  wd_beam : beam_ok h q qn l b;
  wd_reach : forall x, v_has (bm_vis b) x -> rtc linked_at root x;
  wd_live : forall x, v_has (bm_vis b) x -> is_live_at x -> x ∈ (cd_node <$> hp_a (bm_w b))
}.

(** [x] waits among the candidates or all its links have been visited. *)
Definition expanded (b : Beam) (x : nat) : Prop := x ∈ (cd_node <$> hp_a (bm_c b)) \/ forall y, linked_at x y -> v_has (bm_vis b) y.

Lemma beam_room b e : beam_ok h q qn l b -> in_layer h l e -> ~ v_has (bm_vis b) e -> (length (hp_a (bm_w b)) < ef)%nat.
Proof.
  intros [B1 B2 B3 B4 B5] He Hn. eapply Nat.lt_le_trans; [|exact Hef]. rewrite <- (length_fmap cd_node), <- (length_seq (length (hn_nodes h)) 0).
  change (length (e :: (cd_node <$> hp_a (bm_w b))) <= length (seq 0 (length (hn_nodes h))))%nat. apply submseteq_length, NoDup_submseteq.
  - constructor; [|done]. intros Hin. apply list_elem_of_fmap in Hin as (c & -> & Hc). rewrite Forall_forall in B4. by destruct (B4 c Hc).
  - intros x Hx. apply elem_of_seq. split; [lia|]. cbn. apply elem_of_cons in Hx as [->|Hx]; [by eapply in_layer_lt|].
    apply list_elem_of_fmap in Hx as (c & -> & Hc). rewrite Forall_forall in B4. destruct (B4 c Hc) as [Hv _]. by eapply in_layer_lt, B2.
Qed.

(** A visit adds the node to everything it belongs to. *)
Lemma wide_visit b e : wide_ok b -> in_layer h l e -> rtc linked_at root e ->
  exists b', beam_visit ok h q qn ef (Some b) e = Some b' /\ wide_ok b' /\ v_has (bm_vis b') e /\
    (forall x, v_has (bm_vis b) x -> v_has (bm_vis b') x) /\
    (forall x, v_has (bm_vis b') x -> v_has (bm_vis b) x \/ x ∈ (cd_node <$> hp_a (bm_c b'))) /\
    (forall x, x ∈ (cd_node <$> hp_a (bm_c b)) -> x ∈ (cd_node <$> hp_a (bm_c b'))).
Proof.
  intros [Hb Hr Hl] He Hre. destruct Hok as (_ & Hov & Hoc & How).
  assert (exists b', beam_visit ok h q qn ef (Some b) e = Some b' /\
    (forall x, v_has (bm_vis b') x <-> v_has (bm_vis b) x \/ x = e) /\
    (hp_a (bm_c b') ≡ₚ (if decide (v_has (bm_vis b) e) then [] else [mkCand (dist_q h q qn e) e]) ++ hp_a (bm_c b)) /\
    (hp_a (bm_w b') ≡ₚ (if decide (v_has (bm_vis b) e) then [] else if nd_deleted (node_at h e) then [] else [mkCand (dist_q h q qn e) e]) ++ hp_a (bm_w b)))
    as (b' & E & Hv & HC & HW).
  { unfold beam_visit. pose proof (vset_add_spec (bo_vis ok) (bm_vis b) e (bk_vis _ _ _ _ _ Hb)) as Ha.
    destruct (vset_add_ok (bo_vis ok) (bm_vis b) e Hov) as [[v new] Ev]. rewrite Ev in Ha |- *. destruct Ha as (Hw & Hn & Hy). destruct new.
    - pose proof (beam_room b e Hb He Hn) as Hroom. rewrite !decide_False by done. unfold beam_takes. rewrite (proj2 (Nat.ltb_lt _ _) Hroom). cbn [orb].
      destruct (heap_push_ok (bo_c ok) (bm_c b) (mkCand (dist_q h q qn e) e) false Hoc) as [C EC]. rewrite EC. apply heap_push_perm in EC.
      destruct (nd_deleted (node_at h e)) eqn:Ed; [by eexists|].
      destruct (heap_push_ok (bo_w ok) (bm_w b) (mkCand (dist_q h q qn e) e) true How) as [W EW]. rewrite EW. apply heap_push_perm in EW.
      assert (length (hp_a W) = S (length (hp_a (bm_w b)))) as EL by (by rewrite EW). destruct (Nat.ltb_spec ef (length (hp_a W))); [lia|]. by eexists.
    - rewrite !decide_True by done. eexists. split; [reflexivity|]. by split_and!. }
  exists b'. pose proof (beam_visit_spec h q qn l ok ef b e b' Hb He E) as [Hb' _ Hm].
  assert (v_has (bm_vis b') e) as Hve by (apply Hv; by right).
  split; [done|]. split; [split; [done| |]|split; [done|split; [done|split]]].
  - intros x Hx. apply Hv in Hx as [Hx| ->]; [by apply Hr|done].
  - intros x Hx Hlx. rewrite HW, fmap_app. apply elem_of_app. apply Hv in Hx as [Hx| ->]; [right; by apply Hl|].
    destruct (decide (v_has (bm_vis b) e)) as [Hbe|Hbe]; [right; by apply Hl|]. left. unfold is_live_at in Hlx. rewrite Hlx. by left.
  - intros x Hx. apply Hv in Hx as [Hx| ->]; [by left|]. destruct (decide (v_has (bm_vis b) e)) as [?|Hbe]; [by left|]. right.
    rewrite HC, fmap_app. apply elem_of_app. left. by left.
  - intros x Hx. rewrite HC, fmap_app. apply elem_of_app. by right.
Qed.

Lemma wide_fold b ns : wide_ok b -> Forall (in_layer h l) ns -> Forall (fun y => rtc linked_at root y) ns ->
  exists b', foldl (beam_visit ok h q qn ef) (Some b) ns = Some b' /\ wide_ok b' /\ (forall y, y ∈ ns -> v_has (bm_vis b') y) /\
    (forall x, v_has (bm_vis b) x -> v_has (bm_vis b') x) /\
    (forall x, v_has (bm_vis b') x -> v_has (bm_vis b) x \/ x ∈ (cd_node <$> hp_a (bm_c b'))) /\
    (forall x, x ∈ (cd_node <$> hp_a (bm_c b)) -> x ∈ (cd_node <$> hp_a (bm_c b'))).
Proof.
  revert b. induction ns as [|e ns IH]; intros b Hb Hl Hr; cbn [foldl].
  { exists b. split_and!; try done; [intros y Hy; by apply elem_of_nil in Hy|by left]. }
  apply Forall_cons in Hl as [He Hl]. apply Forall_cons in Hr as [Hre Hr].
  destruct (wide_visit b e Hb He Hre) as (b1 & -> & Hb1 & Hv1 & Hm1 & Hc1 & Hk1).
  destruct (IH b1 Hb1 Hl Hr) as (b2 & -> & Hb2 & Hv2 & Hm2 & Hc2 & Hk2). exists b2. split_and!; try done.
  - intros y Hy. apply elem_of_cons in Hy as [->|Hy]; [by apply Hm2|by apply Hv2].
  - intros x Hx. by apply Hm2, Hm1.
  - intros x Hx. apply Hc2 in Hx as [Hx|Hx]; [|by right]. apply Hc1 in Hx as [Hx|Hx]; [by left|right; by apply Hk2].
  - intros x Hx. by apply Hk2, Hk1.
Qed.

Lemma no_layer_links x : (nd_top_layer (node_at h x) < l)%nat -> forall y, ~ linked_at x y.
Proof.
  intros Ht y Hy. unfold linked_at, nd_layer in Hy. unfold nd_top_layer in Ht. rewrite lookup_ge_None_2 in Hy by lia. cbn in Hy. by apply elem_of_nil in Hy.
Qed.

(** When the loop ends the beam holds exactly the live reachable nodes. *)
Lemma wide_loop fuel b :
  wide_ok b -> v_has (bm_vis b) root -> (forall x, v_has (bm_vis b) x -> expanded b x) -> (measure h b < fuel)%nat ->
  exists b', beam_loop fuel ok h q qn ef l b = Some b' /\ beam_ok h q qn l b' /\
    forall x, x ∈ (cd_node <$> hp_a (bm_w b')) <-> rtc linked_at root x /\ is_live_at x /\ (x < length (hn_nodes h))%nat.
Proof.
  assert (forall b x, wide_ok b -> x ∈ (cd_node <$> hp_a (bm_w b)) -> rtc linked_at root x /\ is_live_at x /\ (x < length (hn_nodes h))%nat) as Hsound.
  { intros b1 x [[B1 B2 B3 B4 B5] Hr _] Hx. apply list_elem_of_fmap in Hx as (c & -> & Hc). rewrite Forall_forall in B4. destruct (B4 c Hc) as (Hv & _ & Hd).
    split_and!; [by apply Hr|done|]. by eapply in_layer_lt, B2. }
  revert b. induction fuel as [|fuel IH]; intros b Hb Hroot Hx Hm; [lia|]. cbn [beam_loop].
  destruct (heap_pop (bm_c b) false) as [[c C]|] eqn:EP.
  2: { apply heap_pop_None in EP. exists b. split; [done|]. split; [apply Hb|]. intros x. split; [by apply Hsound|]. intros (Hr & Hl & _).
       apply (wd_live _ Hb); [|done]. assert (forall y, rtc linked_at root y -> v_has (bm_vis b) y) as Hall; [|by apply Hall].
       apply (rtc_ind_r (fun y => v_has (bm_vis b) y)); [done|]. intros y z _ Hyz Hy. destruct (Hx y Hy) as [Hin|Hall]; [|by apply Hall].
       rewrite EP in Hin. by apply elem_of_nil in Hin. }
  pose proof (beam_pop h q qn l b c C (wd_beam _ Hb) EP) as (Hb1 & Hm1 & Hvc). cbn zeta in Hb1, Hm1. pose proof (heap_pop_perm _ _ _ _ EP) as Hperm.
  set (b1 := mkBeam (bm_vis b) C (bm_w b)) in *.
  assert (wide_ok b1) as Hw1 by (split; [done|apply Hb|apply Hb]).
  destruct (_ && _) eqn:Estop.
  { apply andb_true_iff in Estop as [Hfull _]. apply Nat.leb_le in Hfull. exists b1. split; [done|]. split; [done|]. intros x. split; [by apply Hsound|].
    intros (_ & _ & Hlt). destruct Hb1 as [B1 B2 B3 B4 B5]. cbn [bm_w b1] in *.
    assert ((cd_node <$> hp_a (bm_w b)) ≡ₚ seq 0 (length (hn_nodes h))) as Hp.
    { apply submseteq_length_Permutation; [|rewrite length_fmap, length_seq; lia]. apply NoDup_submseteq; [done|]. intros y Hy. apply elem_of_seq. split; [lia|]. cbn.
      by destruct (Hsound b y Hb Hy) as (_ & _ & ?). }
    rewrite Hp. apply elem_of_seq. lia. }
  destruct (Nat.ltb_spec (nd_top_layer (node_at h (cd_node c))) l) as [Htop|_].
  { apply IH; [done|done| |lia]. intros x Hvx. destruct (Hx x Hvx) as [Hin|Hall]; [|by right]. rewrite Hperm in Hin. cbn in Hin.
    apply elem_of_cons in Hin as [->|Hin]; [|by left]. right. intros y Hy. by destruct (no_layer_links _ Htop y). }
  destruct (wide_fold b1 (nd_layer (node_at h (cd_node c)) l)) as (b2 & EF & Hb2 & Hv2 & Hmono & Hnew & Hkeep); [done|by apply layer_links| |].
  { rewrite Forall_forall. intros y Hy. eapply rtc_r; [by apply (wd_reach _ Hb)|exact Hy]. }
  rewrite EF. apply IH; [done|by apply Hmono| |].
  - intros x Hvx. destruct (Hnew x Hvx) as [Hvb|Hin]; [|by left]. destruct (Hx x Hvb) as [Hin|Hall].
    + rewrite Hperm in Hin. cbn in Hin. apply elem_of_cons in Hin as [->|Hin]; [right; intros y Hy; by apply Hv2|left; by apply Hkeep].
    + right. intros y Hy. by apply Hmono, Hall.
  - eapply (beam_fold h q qn l _ _ (in_layer h l)) in EF; [|done| |by apply layer_links|done].
    + pose proof (bs_measure _ _ _ _ _ _ EF). fold b1 in Hm1. lia.
    + intros. by eapply beam_visit_spec.
Qed.

Lemma wide_search : in_layer h l root ->
  exists W, search_layer ok h q qn [root] ef l = Some W /\ NoDup (cd_node <$> W) /\ Forall (fun c => cd_d c = dist_q h q qn (cd_node c)) W /\
    forall x, x ∈ (cd_node <$> W) <-> rtc linked_at root x /\ is_live_at x /\ (x < length (hn_nodes h))%nat.
Proof.
  intros Hroot. unfold search_layer. pose proof Hok as (Hoi & Hov & Hoc & How).
  destruct (vset_init (bo_init ok) (ef * 8 + 64)) as [v|] eqn:Ev; [|unfold vset_init in Ev; by rewrite Hoi in Ev].
  assert (exists b, foldl (beam_seed ok h q qn) (Some (mkBeam v heap_empty heap_empty)) [root] = Some b /\ wide_ok b /\ v_has (bm_vis b) root /\
    forall x, v_has (bm_vis b) x -> expanded b x) as (b & Eb & Hw & Hvr & Hexp).
  { pose proof (vset_init_wf _ _ _ Ev) as [Hv Hno].
    assert (exists b, beam_seed ok h q qn (Some (mkBeam v heap_empty heap_empty)) root = Some b /\ (forall x, v_has (bm_vis b) x <-> x = root) /\
      (cd_node <$> hp_a (bm_c b)) = [root] /\ (is_live_at root -> root ∈ (cd_node <$> hp_a (bm_w b)))) as (b & E & Hvb & HC & HW).
    { unfold beam_seed. cbn [bm_vis bm_c bm_w]. pose proof (vset_add_spec (bo_vis ok) v root Hv) as Ha. destruct (vset_add_ok (bo_vis ok) v root Hov) as [[v1 new] E1].
      rewrite E1 in Ha |- *. destruct Ha as (_ & Hn & Hy). destruct new; [|by destruct (Hno root)].
      destruct (heap_push_ok (bo_c ok) heap_empty (mkCand (dist_q h q qn root) root) false Hoc) as [C EC]. rewrite EC. apply heap_push_perm in EC.
      assert (hp_a C = [mkCand (dist_q h q qn root) root]) as HC by (by apply Permutation_singleton_r in EC).
      assert (forall x, v_has v1 x <-> x = root) as Hv1 by (intros x; rewrite Hy; split; [intros [Hx|?]; [by destruct (Hno x)|done]|by right]).
      destruct (nd_deleted (node_at h root)) eqn:Ed.
      - eexists. split; [reflexivity|]. cbn [bm_vis bm_c bm_w]. rewrite HC. split_and!; try done. unfold is_live_at. congruence.
      - destruct (heap_push_ok (bo_w ok) heap_empty (mkCand (dist_q h q qn root) root) true How) as [W EW]. rewrite EW. apply heap_push_perm in EW.
        eexists. split; [reflexivity|]. cbn [bm_vis bm_c bm_w]. rewrite HC. split_and!; try done. intros _. rewrite EW. by left. }
    exists b. cbn [foldl]. split; [exact E|]. assert (beam_ok h q qn l b) as Hb.
    { assert (foldl (beam_seed ok h q qn) (Some (mkBeam v heap_empty heap_empty)) [root] = Some b) as Ef by done.
      by apply (seeded h q qn l ok [root] ef v b Ev ltac:(by apply Forall_singleton)) in Ef as [? _]. }
    split; [split; [done| |]|split; [by apply Hvb|]].
    - intros x Hx. apply Hvb in Hx as ->. apply rtc_refl.
    - intros x Hx Hl. apply Hvb in Hx as ->. by apply HW.
    - intros x Hx. apply Hvb in Hx as ->. left. rewrite HC. by left. }
  rewrite Eb. destruct (seeded h q qn l ok [root] ef v b Ev ltac:(by apply Forall_singleton) Eb) as [_ Hm].
  destruct (wide_loop (length (hn_nodes h) + length [root] + 1) b Hw Hvr Hexp) as (b' & -> & [B1 B2 B3 B4 B5] & Hx); [cbn; lia|].
  exists (hp_a (bm_w b')). split; [done|]. split; [done|]. split; [|done]. eapply Forall_impl; [exact B4|]. cbn. by intros c (_ & ? & _).
Qed.
End wide.

(** ** Answers *)

(** The point a search of layer 0 starts from. *)
Definition start_point (h : Hnsw) (query : list Z) (entry : nat) : nat := descend (hn_max_layer h) h query (vk_norm query) entry (hn_max_layer h).

Lemma start_in_layer h m query entry : hn_wf h m -> hn_entry h = Some entry -> in_layer h 0 (start_point h query entry).
Proof.
  intros W He. destruct (sh_entry h (hw_shape _ _ W) entry He) as (ne & Hne & Hle).
  pose proof (descend_layer (hn_max_layer h) h query (vk_norm query) entry (hn_max_layer h) (hw_shape _ _ W)) as Hd.
  rewrite Nat.sub_diag in Hd. apply Hd; [exists ne; split; [done|lia]|lia].
Qed.

Lemma cmp3_le x y : cmp3 x y <= 0 <-> SFltb y x = false.
Proof.
  unfold cmp3. destruct (SFltb y x) eqn:E1; [|split; [done|]; destruct (SFltb x y); cbn; lia].
  rewrite (sf_ltb_asym _ _ E1). cbn. split; [lia|done].
Qed.

Lemma cmp_cand_total a b : cmp_cand_asc a b <= 0 \/ cmp_cand_asc b a <= 0.
Proof.
  unfold cmp_cand_asc. rewrite !cmp3_le. destruct (SFltb (cd_d b) (cd_d a)) eqn:E; [right; by apply sf_ltb_asym|by left].
Qed.

(** Distances that are numbers are sorted by [qsort]. *)
Lemma qsort_ascending (W : list Cand) : Forall (fun c => cd_d c <> S754_nan) W ->
  StronglySorted (fun a b => SFltb (cd_d b) (cd_d a) = false) (vk_qsort cmp_cand_asc W).
Proof.
  intros HW. assert (StronglySorted (fun a b => cmp_cand_asc a b <= 0) (vk_qsort cmp_cand_asc W)) as Hs.
  { apply vk_qsort_sorted; [apply cmp_cand_total|]. unfold cmp_cand_asc. intros a b c Ha Hb Hc. rewrite !cmp3_le. rewrite Forall_forall in HW. intros H1 H2.
    apply (sf_ltb_neg_trans _ (cd_d b)); auto. }
  induction Hs as [|x l Hs IH Hf]; [constructor|]. constructor; [done|]. eapply Forall_impl; [exact Hf|]. intros y. apply cmp3_le.
Qed.
End hnsw.
