(* ===== verification/HnswAnswers.v ===== *)
(** * What the HNSW graph answers

    The graph as a finite map from ids to vectors, through any sequence of
    insertions and removals; the answers of a search; the graph whose reachable
    nodes are all deleted. *)

From S2P Require Import Prelude Endian Floats OpenTable BinaryHeap Hnsw HnswCorrect.

Section answers.
Context `{VecKernel}.

(** ** Sequences of operations *)

Inductive HnswOp :=
  | OpAdd (rb : RebuildOks) (ok : AddOks) (id : Z) (vec : list Z)
  | OpRemove (rb : RebuildOks) (id : Z).

Definition hnsw_step (h : Hnsw) (op : HnswOp) : Hnsw :=
  match op with
  | OpAdd rb ok id vec => fst (hnsw_add rb ok h id vec (length vec))
  | OpRemove rb id => hnsw_remove rb h id
  end.

(** The specification: vectors of the right dimension replace, removals drop. *)
Definition spec_step (dim : nat) (m : gmap Z (list Z)) (op : HnswOp) : gmap Z (list Z) :=
  match op with
  | OpAdd _ _ id vec => if (length vec =? dim)%nat then <[id := vec]> m else m
  | OpRemove _ id => delete id m
  end.

(** There is memory for the node of an addition and for its map entry; the
    beam searches may run out of it, and so may a rebuild at any point. *)
Definition op_ok (op : HnswOp) : Prop := match op with OpAdd _ ok _ _ => add_oks ok | OpRemove _ _ => True end.

Lemma hnsw_step_spec h m op : hn_wf h m -> op_ok op -> hn_wf (hnsw_step h op) (spec_step (hn_dim h) m op) /\ same_kind h (hnsw_step h op).
Proof.
  intros W. destruct op as [rb ok id vec|rb id]; cbn [op_ok hnsw_step spec_step].
  - intros Hok. unfold hnsw_add. destruct (length vec =? hn_dim h)%nat; cbn [negb]; [|done]. apply add_depth_spec; [done|by left].
  - intros _. by apply hnsw_remove_spec.
Qed.

Lemma hnsw_steps_spec ops h m : hn_wf h m -> Forall op_ok ops ->
  hn_wf (foldl hnsw_step h ops) (foldl (spec_step (hn_dim h)) m ops) /\ same_kind h (foldl hnsw_step h ops).
Proof.
  intros W Hops. revert h m W. induction Hops as [|op ops Hop _ IH]; intros h m W; cbn [foldl]; [done|].
  destruct (hnsw_step_spec h m op W Hop) as [W1 [K1 K2]]. destruct (IH _ _ W1) as [W2 [K3 K4]]. rewrite K2 in W2. split; [done|]. split; congruence.
Qed.

Lemma created_wf dim p h0 ops : hnsw_create true dim p = Some h0 -> Forall op_ok ops -> hn_wf (foldl hnsw_step h0 ops) (foldl (spec_step dim) ∅ ops).
Proof.
  intros Hc Hops. unfold hnsw_create in Hc. apply empty_wf in Hc as (W0 & Hq & Hd).
  destruct (hnsw_steps_spec ops h0 ∅ W0 Hops) as [W _]. by rewrite Hd in W.
Qed.

(** ** Walking the live nodes *)

Definition collect_live (id : Z) (v : list Z) (acc : list (Z * list Z)) : list (Z * list Z) * bool := (acc ++ [(id, v)], false).
Definition live_pairs (ns : list Node) : list (Z * list Z) := omap (fun nd => if nd_deleted nd then None else Some (nd_id nd, stored_float (nd_vec nd))) ns.

Lemma foreach_collect ns acc : foreach_nodes collect_live ns acc = acc ++ live_pairs ns.
Proof.
  revert acc. induction ns as [|nd ns IH]; intros acc; cbn [foreach_nodes]; [by rewrite app_nil_r|]. unfold live_pairs. cbn [omap list_omap].
  destruct (nd_deleted nd); [apply IH|]. cbn [collect_live]. by rewrite IH, <- app_assoc.
Qed.

Lemma live_pairs_elem h id v : (id, v) ∈ live_pairs (hn_nodes h) <-> exists i nv, live_node h i id nv /\ v = stored_float nv.
Proof.
  unfold live_pairs. rewrite list_elem_of_omap. split.
  - intros (nd & Hin & E). apply list_elem_of_lookup in Hin as [i Hi]. destruct (nd_deleted nd) eqn:Ed; [done|]. injection E as <- <-.
    exists i, (nd_vec nd). split; [by exists nd|done].
  - intros (i & nv & (nd & Hi & Hid & Hd & Hv) & ->). exists nd. split; [by eapply list_elem_of_lookup_2|]. rewrite Hd. by rewrite Hid, Hv.
Qed.

Lemma live_ids_nodup (ns : list Node) :
  (forall i j a b, ns !! i = Some a -> ns !! j = Some b -> nd_deleted a = false -> nd_deleted b = false -> nd_id a = nd_id b -> i = j) ->
  NoDup (live_pairs ns).*1.
Proof.
  induction ns as [|nd ns IH]; intros Hu; [constructor|].
  assert (NoDup (live_pairs ns).*1) as Hn by (apply IH; intros i j a b Hi Hj Ha Hb E; specialize (Hu (S i) (S j) a b Hi Hj Ha Hb E); lia).
  unfold live_pairs. cbn [omap list_omap]. destruct (nd_deleted nd) eqn:Ed; [done|]. constructor; [|done]. intros Hin.
  apply list_elem_of_fmap in Hin as ([id v] & E & Hin). apply list_elem_of_omap in Hin as (nd' & Hin & E'). apply list_elem_of_lookup in Hin as [j Hj].
  destruct (nd_deleted nd') eqn:Ed'; [done|]. injection E' as <- <-. specialize (Hu 0%nat (S j) nd nd' eq_refl Hj Ed Ed' E). lia.
Qed.

Lemma live_unique h m : hn_wf h m ->
  forall i j a b, hn_nodes h !! i = Some a -> hn_nodes h !! j = Some b -> nd_deleted a = false -> nd_deleted b = false -> nd_id a = nd_id b -> i = j.
Proof.
  intros W i j a b Hi Hj Ha Hb E. assert (ot_map (hn_map h) !! nd_id a = Some i) as E1 by (apply (hw_ids _ _ W); exists (nd_vec a), a; done).
  assert (ot_map (hn_map h) !! nd_id a = Some j) as E2 by (apply (hw_ids _ _ W); exists (nd_vec b), b; done). congruence.
Qed.

Lemma live_ids_dom h m id : hn_wf h m -> is_Some (m !! id) <-> exists i nv, live_node h i id nv.
Proof.
  intros W. rewrite <- elem_of_dom, <- (hw_dom _ _ W), elem_of_dom. split.
  - intros [i Hi]. exists i. by apply (hw_ids _ _ W).
  - intros (i & Hl). exists i. by apply (hw_ids _ _ W).
Qed.

Lemma foreach_live_ids h m : hn_wf h m -> (hnsw_foreach_live true collect_live h []).*1 ≡ₚ elements (dom m).
Proof.
  intros W. unfold hnsw_foreach_live. rewrite andb_false_r, foreach_collect. cbn [app]. apply NoDup_Permutation; [apply live_ids_nodup, (live_unique _ _ W)|apply NoDup_elements|].
  intros id. rewrite elem_of_elements, elem_of_dom, (live_ids_dom _ _ _ W). rewrite list_elem_of_fmap. split.
  - intros ([id' v] & -> & Hin). apply live_pairs_elem in Hin as (i & nv & ? & _). by exists i, nv.
  - intros (i & nv & Hl). exists (id, stored_float nv). split; [done|]. apply live_pairs_elem. by exists i, nv.
Qed.

Lemma foreach_live_vectors h m : hn_wf h m -> hn_quantized h = false -> hnsw_foreach_live true collect_live h [] ≡ₚ map_to_list m.
Proof.
  intros W Hq. unfold hnsw_foreach_live. rewrite andb_false_r, foreach_collect. cbn [app]. apply NoDup_Permutation.
  - apply (NoDup_fmap_1 fst), live_ids_nodup, (live_unique _ _ W).
  - apply NoDup_map_to_list.
  - intros [id v]. rewrite live_pairs_elem, elem_of_map_to_list. split.
    + intros (i & nv & Hl & ->). rewrite (hw_vec _ _ W Hq _ _ _ Hl). cbn. destruct (proj2 (live_ids_dom h m id W)) as [x Hx]; [by exists i, nv|].
      by rewrite Hx, (lookup_total_correct _ _ _ Hx).
    + intros Hv. destruct (proj1 (live_ids_dom h m id W)) as (i & nv & Hl); [by rewrite Hv|]. exists i, nv. split; [done|].
      rewrite (hw_vec _ _ W Hq _ _ _ Hl). cbn. by rewrite (lookup_total_correct _ _ _ Hv).
Qed.

(** C34: A graph made by [hnsw_create] behaves as a finite map under any sequence
    of [hnsw_add] and [hnsw_remove], re-insertions, soft deletions and rebuilds
    included, and whether or not the searches for neighbours and the rebuilds
    run out of memory:
    the count and the walk over the live nodes are those of the map, with the
    vectors exact unless quantized; the links stay in range, in their layer and
    within their arrays, and the entry point is on the top layer. *)
Theorem hnsw_implements_map (dim : nat) (p : option HnswParams) (h0 : Hnsw) (ops : list HnswOp) :
  hnsw_create true dim p = Some h0 -> Forall op_ok ops ->
  let h := foldl hnsw_step h0 ops in
  let m := foldl (spec_step dim) ∅ ops in
  shape h /\ hnsw_count h = size m /\ (hnsw_foreach_live true collect_live h []).*1 ≡ₚ elements (dom m) /\
  (hnsw_is_quantized h = false -> hnsw_foreach_live true collect_live h [] ≡ₚ map_to_list m).
Proof.
  intros Hc Hops. cbn zeta. pose proof (created_wf dim p h0 ops Hc Hops) as W. split; [apply W|]. split; [|split].
  - unfold hnsw_count. rewrite <- (hw_count _ _ W), <- (size_dom (D := gset Z) (ot_map _)), <- (size_dom (D := gset Z) (foldl _ _ _)). by rewrite (hw_dom _ _ W).
  - by apply foreach_live_ids.
  - by apply foreach_live_vectors.
Qed.

(** ** Searches *)

(** What is returned for a node. *)
Definition answer (h : Hnsw) (query : list Z) (i : nat) : Z * spec_float :=
  (nd_id (node_at h i), f32_sub f32_one (dist_q h query (vk_norm query) i)).

(** Nodes in the order of their distance to the query. *)
Definition by_distance (h : Hnsw) (query : list Z) : list nat -> Prop :=
  StronglySorted (fun i j => SFltb (dist_q h query (vk_norm query) j) (dist_q h query (vk_norm query) i) = false).

Lemma sorted_nodes h query (W : list Cand) :
  Forall (fun c => cd_d c = dist_q h query (vk_norm query) (cd_node c)) W ->
  StronglySorted (fun a b => SFltb (cd_d b) (cd_d a) = false) W -> by_distance h query (cd_node <$> W).
Proof.
  intros Hd Hs. unfold by_distance. induction Hs as [|c W Hs IH Hf]; [constructor|]. apply Forall_cons in Hd as [Hc Hd]. cbn. constructor; [by apply IH|].
  rewrite Forall_fmap. rewrite !Forall_forall in *. intros x Hx. cbn. rewrite <- Hc, <- (Hd x Hx). by apply Hf.
Qed.

(** The nodes answered, before the cut at [top_k]. *)
Lemma qsort_answers h query (W : list Cand) k :
  Forall (fun c => cd_d c = dist_q h query (vk_norm query) (cd_node c)) W ->
  exists L, map (fun c => (nd_id (node_at h (cd_node c)), f32_sub f32_one (cd_d c))) (take k (vk_qsort cmp_cand_asc W)) = map (answer h query) (take k L) /\
    L ≡ₚ cd_node <$> W /\ (Forall (fun c => cd_d c <> S754_nan) W -> by_distance h query L).
Proof.
  intros Hd. exists (cd_node <$> vk_qsort cmp_cand_asc W). assert (Forall (fun c => cd_d c = dist_q h query (vk_norm query) (cd_node c)) (vk_qsort cmp_cand_asc W)) as Hq by (by rewrite vk_qsort_perm).
  split; [|split].
  - rewrite <- fmap_take. apply (Forall_take _ k) in Hq. induction Hq as [|c W' Hc _ IH]; [done|]. cbn [map fmap list_fmap]. unfold answer at 1. rewrite <- Hc. f_equal. exact IH.
  - by rewrite vk_qsort_perm.
  - intros Hn. by apply sorted_nodes, qsort_ascending.
Qed.

Definition eff_ef (h : Hnsw) (ef top_k : nat) : nat :=
  let ef := if (ef =? 0)%nat then hn_ef_search h else ef in if (ef <? top_k)%nat then top_k else ef.

Lemma node_at_live h m i : hn_wf h m -> (i < length (hn_nodes h))%nat -> nd_deleted (node_at h i) = false -> live_node h i (nd_id (node_at h i)) (nd_vec (node_at h i)).
Proof. intros W Hi Hd. destruct (lookup_lt_is_Some_2 _ _ Hi) as [nd Hnd]. rewrite (node_at_lookup _ _ _ Hnd) in *. by exists nd. Qed.

Lemma answers_nodup h m query (L : list nat) :
  hn_wf h m -> NoDup L -> Forall (fun i => (i < length (hn_nodes h))%nat /\ nd_deleted (node_at h i) = false) L -> NoDup (map (answer h query) L).*1.
Proof.
  intros W Hn HL. induction Hn as [|i L Hi Hn IH]; [constructor|]. apply Forall_cons in HL as [[Hlt Hd] HL]. cbn. constructor; [|by apply IH].
  intros Hin. apply list_elem_of_fmap in Hin as (p & E & Hin). apply list_elem_of_fmap in Hin as (j & -> & Hj). cbn in E.
  rewrite Forall_forall in HL. destruct (HL j Hj) as [Hlt' Hd']. apply Hi.
  pose proof (node_at_live h m i W Hlt Hd) as (a & Ha & _ & Hda & _). pose proof (node_at_live h m j W Hlt' Hd') as (b & Hb & _ & Hdb & _).
  assert (i = j) as ->; [|done]. eapply (live_unique _ _ W _ _ _ _ Ha Hb Hda Hdb). by rewrite <- (node_at_lookup _ _ _ Ha), <- (node_at_lookup _ _ _ Hb).
Qed.

(** Whatever a search of a graph that stores the vectors of [m] answers, it
    answers at most [top_k] ids, each at most once and each stored at present (a
    deleted or replaced vector is never returned), with the similarity of its
    own vector, and in the order of the distance to the query when no
    distance is a NaN. *)
Theorem hnsw_search_sound (h : Hnsw) (m : gmap Z (list Z)) (bk : BeamOks) (ok : bool) (query : list Z) (dim top_k ef : nat) (ans : list (Z * spec_float)) :
  hn_wf h m -> hnsw_search bk ok h query dim top_k ef = Some ans ->
  (length ans <= top_k)%nat /\ NoDup ans.*1 /\ Forall (fun p => is_Some (m !! p.1)) ans /\
  exists L, ans = map (answer h query) L /\
    ((forall i, (i < length (hn_nodes h))%nat -> dist_q h query (vk_norm query) i <> S754_nan) -> by_distance h query L).
Proof.
  intros W. unfold hnsw_search. destruct (negb _); [done|]. cbn zeta.
  assert (forall a : list (Z * spec_float), a = [] -> (length a <= top_k)%nat /\ NoDup a.*1 /\ Forall (fun p => is_Some (m !! p.1)) a /\
    exists L, a = map (answer h query) L /\ ((forall i, (i < length (hn_nodes h))%nat -> dist_q h query (vk_norm query) i <> S754_nan) -> by_distance h query L)) as Hnil.
  { intros a ->. split; [cbn; lia|]. split; [constructor|]. split; [constructor|]. exists []. split; [done|]. intros _. constructor. }
  destruct (hn_entry h) as [entry|] eqn:Ee; [|destruct ok; [|done]; intros [= <-]; by apply Hnil].
  destruct (top_k =? 0)%nat; [destruct ok; [|done]; intros [= <-]; by apply Hnil|]. destruct (search_layer _ _ _ _ _ _ _) as [Wc|] eqn:Es; [|done]. destruct ok; [|done].
  fold (start_point h query entry) in Es.
  apply search_layer_spec in Es as [Hn Hw]; [|apply W|apply Forall_singleton; by eapply start_in_layer]. intros E. apply (inj Some) in E as <-.
  destruct (qsort_answers h query Wc top_k) as (L & -> & HL & Hs); [eapply Forall_impl; [exact Hw|]; by intros c (_ & ? & _)|].
  assert (NoDup (take top_k L)) as HnL by (apply (sublist_NoDup _ L); [by rewrite HL|apply sublist_take]).
  assert (Forall (fun i => (i < length (hn_nodes h))%nat /\ nd_deleted (node_at h i) = false) (take top_k L)) as Hlive.
  { apply Forall_take. rewrite HL, Forall_fmap. eapply Forall_impl; [exact Hw|]. cbn. intros c (? & _ & ?). split; [by eapply in_layer_lt|done]. }
  split; [rewrite length_map, length_take; lia|]. split; [by eapply answers_nodup|]. split.
  - rewrite Forall_forall in Hlive. rewrite Forall_forall. intros p Hp. apply list_elem_of_fmap in Hp as (i & -> & Hi). destruct (Hlive i Hi). cbn [answer fst].
    apply (live_ids_dom h m _ W). exists i. eexists. by eapply node_at_live.
  - exists (take top_k L). split; [done|]. intros Hnan. unfold by_distance. apply (StronglySorted_app_1_l _ _ (drop top_k L)). rewrite take_drop. apply Hs.
    eapply Forall_impl; [exact Hw|]. cbn. intros c (Hc & -> & _). apply Hnan. by eapply in_layer_lt.
Qed.

(** With memory for its working set and a beam at least as wide as the
    graph, a search always answers, and its answer is exact on what can be
    reached: the [top_k] nearest of exactly the live nodes linked, through any
    number of nodes deleted or not, to the point where the descent lands. *)
Theorem hnsw_search_exhaustive (h : Hnsw) (m : gmap Z (list Z)) (bk : BeamOks) (query : list Z) (top_k ef entry : nat) :
  hn_wf h m -> beam_all_ok bk -> hn_entry h = Some entry -> (length (hn_nodes h) <= eff_ef h ef top_k)%nat -> (0 < top_k)%nat ->
  exists L, hnsw_search bk true h query (hn_dim h) top_k ef = Some (map (answer h query) (take top_k L)) /\ NoDup L /\
    (forall i, i ∈ L <-> rtc (linked_at h 0) (start_point h query entry) i /\ is_live_at h i /\ (i < length (hn_nodes h))%nat) /\
    ((forall i, (i < length (hn_nodes h))%nat -> dist_q h query (vk_norm query) i <> S754_nan) -> by_distance h query L).
Proof.
  intros W Hbk He Hef Hk. unfold hnsw_search. rewrite Nat.eqb_refl. cbn [negb]. cbn zeta. rewrite He. fold (eff_ef h ef top_k).
  destruct (Nat.eqb_spec top_k 0); [lia|]. fold (start_point h query entry).
  destruct (wide_search h query (vk_norm query) 0 (hw_shape _ _ W) bk Hbk (eff_ef h ef top_k) Hef (start_point h query entry)) as (Wc & -> & Hn & Hd & Hx); [by eapply start_in_layer|].
  destruct (qsort_answers h query Wc top_k Hd) as (L & -> & HL & Hs). exists L. split; [done|]. split; [by rewrite HL|]. split; [intros i; rewrite HL; apply Hx|].
  intros Hnan. apply Hs. rewrite Forall_forall in Hd |- *. intros c Hc. rewrite (Hd c Hc). apply Hnan. apply (Hx (cd_node c)). by apply list_elem_of_fmap_2.
Qed.
End answers.

(** ** A small graph *)

Section demo.
#[local] Existing Instance ieee_kernel.

Definition demo_beam : BeamOks := mkBeamOks true (fun _ => true) (fun _ => true) (fun _ => true).
Definition demo_add : AddOks := mkAddOks true true true true (fun _ => demo_beam).
Definition demo_rebuild : RebuildOks := mkRebuildOks true (fun _ => demo_add).
Definition demo_east : list Z := [0x3F800000; 0].
Definition demo_north : list Z := [0; 0x3F800000].
Definition demo_between : list Z := [0x3F800000; 0x3F800000].
Definition demo_empty : Hnsw := default (mkHnsw 0 0 0 0 false 0 [] 0 0 None 0 []) (hnsw_create true 2 None).
Definition demo_put (id : Z) (v : list Z) : HnswOp := OpAdd demo_rebuild demo_add id v.

(** Three vectors, one of them replaced. *)
Definition demo_ops : list HnswOp := [demo_put 1 demo_north; demo_put 2 demo_north; demo_put 3 demo_between; demo_put 1 demo_east].
Definition demo_graph : Hnsw := foldl hnsw_step demo_empty demo_ops.
Definition demo_map : gmap Z (list Z) := foldl (spec_step 2) ∅ demo_ops.

Lemma demo_add_oks : add_oks demo_add.
Proof. by split. Qed.

Lemma demo_ops_ok : Forall op_ok demo_ops.
Proof. repeat constructor. Qed.

Lemma demo_wf : hn_wf demo_graph demo_map.
Proof.
  unfold demo_graph, demo_map. exact (created_wf 2 None demo_empty demo_ops eq_refl demo_ops_ok).
Qed.

Lemma demo_answer :
  hnsw_search demo_beam true demo_graph demo_east 2 2 0 = Some (map (answer demo_graph demo_east) [3%nat; 2%nat]).
Proof. vm_compute. reflexivity. Qed.

Lemma hnsw_implements_map_witness :
  hnsw_count demo_graph = 3%nat /\ hnsw_count demo_graph = size demo_map.
Proof.
  split; [vm_compute; reflexivity|].
  exact (proj1 (proj2 (hnsw_implements_map 2 None demo_empty demo_ops eq_refl demo_ops_ok))).
Defined.

Lemma hnsw_search_sound_witness :
  NoDup (map (answer demo_graph demo_east) [3%nat; 2%nat]).*1.
Proof.
  exact (proj1 (proj2 (hnsw_search_sound demo_graph demo_map demo_beam true demo_east 2 2 0 _ demo_wf demo_answer))).
Defined.

Lemma demo_beam_ok : beam_all_ok demo_beam.
Proof. by split_and!. Qed.
Lemma demo_entry : hn_entry demo_graph = Some 0%nat.
Proof. vm_compute. reflexivity. Qed.
Lemma demo_ef : (length (hn_nodes demo_graph) <= eff_ef demo_graph 0 2)%nat.
Proof. vm_compute. lia. Qed.

Lemma hnsw_search_exhaustive_witness :
  exists L, hnsw_search demo_beam true demo_graph demo_east (hn_dim demo_graph) 2 0 = Some (map (answer demo_graph demo_east) (take 2 L)) /\ NoDup L.
Proof.
  destruct (hnsw_search_exhaustive demo_graph demo_map demo_beam demo_east 2 0 0 demo_wf demo_beam_ok demo_entry demo_ef ltac:(lia)) as (L & HL & Hn & _).
  exists L. exact (conj HL Hn).
Defined.

(** Once every node linked to the entry point is deleted, vectors added
    later stay unlinked and the entry point is not moved: they are counted and
    stored, and no search finds them. *)
Theorem hnsw_dead_graph :
  let h := foldl hnsw_step demo_empty [demo_put 1 demo_east; OpRemove demo_rebuild 1; demo_put 2 demo_east; demo_put 3 demo_north] in
  hnsw_count h = 2%nat /\ hnsw_foreach_live true collect_live h [] = [(2, demo_east); (3, demo_north)] /\
  hnsw_search demo_beam true h demo_east 2 10 100 = Some [].
Proof. vm_compute. done. Qed.
End demo.
