(* ===== verification/HnswFile.v ===== *)
(** * The HNSW graph file ([hnsw_save] and [hnsw_load] of [src/storage/hnsw.c])

    The image handed to [ckpt_write] and the parse of what [ckpt_read] returns:
    a header, the nodes in array order with their links, a trailing CRC. The
    reader's sticky error is an [option]: every path tests it before the graph
    is returned. *)

From S2P Require Import Prelude Endian Crc32 Floats OpenTable BinaryHeap Hnsw HnswCorrect HnswAnswers.

(** ** Writing *)

Definition HNSW_FORMAT_MAGIC : list Z := [65; 72; 78; 83].
Definition HNSW_FORMAT_VERSION : Z := 2.
Definition NPOS : Z := 0xFFFFFFFF.

Definition link_bytes (ns : list nat) : list Z :=
  aegis_put_u32le (Z.of_nat (length ns)) ++ concat (map (fun x => aegis_put_u32le (Z.of_nat x)) ns).

Definition vec_bytes (nv : NodeVec) : list Z :=
  match nv with
  | NvQuant q scale => aegis_put_u32le (f32_to_bits scale) ++ map (wrap 8) q
  | NvFloat v => concat (map aegis_put_u32le v)
  end.

Definition node_bytes (nd : Node) : list Z :=
  aegis_put_u64le (nd_id nd) ++ aegis_put_u32le (if nd_deleted nd then 1 else 0) ++ aegis_put_u32le (Z.of_nat (nd_top_layer nd)) ++
  aegis_put_u32le (f32_to_bits (nd_norm nd)) ++ vec_bytes (nd_vec nd) ++ concat (map link_bytes (nd_links nd)).

Definition graph_bytes (h : Hnsw) (covered : Z) : list Z :=
  HNSW_FORMAT_MAGIC ++ aegis_put_u32le HNSW_FORMAT_VERSION ++ aegis_put_u32le (Z.of_nat (hn_dim h)) ++ aegis_put_u32le (Z.of_nat (hn_M h)) ++
  aegis_put_u32le (Z.of_nat (hn_ef_construction h)) ++ aegis_put_u32le (Z.of_nat (hn_ef_search h)) ++ aegis_put_u32le (if hn_quantized h then 1 else 0) ++
  aegis_put_u64le (hn_rng h) ++ aegis_put_u64le (Z.of_nat (length (hn_nodes h))) ++ aegis_put_u64le (Z.of_nat (hn_live h)) ++
  aegis_put_u32le (match hn_entry h with Some e => Z.of_nat e | None => NPOS end) ++ aegis_put_u32le (Z.of_nat (hn_max_layer h)) ++ aegis_put_u64le covered ++
  concat (map node_bytes (hn_nodes h)).

(** What [hnsw_save] hands to [ckpt_write]; [ok]: the growths of the buffer. *)
Definition hnsw_save (ok : bool) (h : Hnsw) (covered : Z) : option (list Z) :=
  if ok then let b := graph_bytes h covered in Some (b ++ aegis_put_u32le (crc32_compute b)) else None.

(** ** Reading *)

Definition rd_get (n : nat) (b : list Z) : option (list Z * list Z) := if (n <=? length b)%nat then Some (take n b, drop n b) else None.
Definition rd_u32 (b : list Z) : option (Z * list Z) := match rd_get 4 b with Some (t, b) => Some (aegis_get_u32le t, b) | None => None end.
Definition rd_u64 (b : list Z) : option (Z * list Z) := match rd_get 8 b with Some (t, b) => Some (aegis_get_u64le t, b) | None => None end.

(** [n] values of 32 bits. *)
Fixpoint rd_words (n : nat) (b : list Z) : option (list Z * list Z) :=
  match n with
  | O => Some ([], b)
  | S n' =>
      match rd_u32 b with
      | None => None
      | Some (x, b) => match rd_words n' b with Some (xs, b) => Some (x :: xs, b) | None => None end
      end
  end.

Definition int8_of (b : Z) : Z := if b <? 128 then b else b - 256.

Definition rd_vec (quantized : bool) (dim : nat) (b : list Z) : option (NodeVec * list Z) :=
  if quantized then
    match rd_u32 b with
    | None => None
    | Some (scale, b) => match rd_get dim b with Some (q, b) => Some (NvQuant (map int8_of q) (f32_of_bits scale), b) | None => None end
    end
  else match rd_words dim b with Some (v, b) => Some (NvFloat v, b) | None => None end.

(** The layers [l, l + 1, ...]: no more links than the layer has room for. *)
Fixpoint rd_layers (ok : nat -> bool) (cap : nat -> nat) (n l : nat) (b : list Z) : option (list (list nat) * list Z) :=
  match n with
  | O => Some ([], b)
  | S n' =>
      match rd_u32 b with
      | None => None
      | Some (cnt, b) =>
          if Z.of_nat (cap l) <? cnt then None
          else if negb (ok l) then None
          else
            match rd_words (Z.to_nat cnt) b with
            | None => None
            | Some (ns, b) => match rd_layers ok cap n' (S l) b with Some (ls, b) => Some (map Z.to_nat ns :: ls, b) | None => None end
            end
      end
  end.

(** Outcomes of the allocations: the shell, the node array, per node the link
    array, the counts, the vector and each layer, then the map. *)
Record LoadOks := mkLoadOks {
  lo_alloc : bool; lo_nodes : bool; lo_links : nat -> bool; lo_cnt : nat -> bool; lo_vec : nat -> bool; lo_layer : nat -> nat -> bool;
  lo_map : bool; lo_put : nat -> bool * bool
}.

(** [NrBad]: the graph read so far is freed; [NrCrash]: it is freed with a node
    whose link array is null, which [hnsw_free_contents] reads. *)
Inductive NodeRead := NrNode (nd : Node) (b : list Z) | NrBad | NrCrash.

Definition load_node (ok : LoadOks) (i : nat) (quantized : bool) (dim : nat) (cap : nat -> nat) (b : list Z) : NodeRead :=
  match rd_u64 b with
  | None => NrCrash
  | Some (id, b) =>
      match rd_u32 b with
      | None => NrCrash
      | Some (deleted, b) =>
          match rd_u32 b with
          | None => NrCrash
          | Some (top, b) =>
              if 2 ^ 31 <=? top then NrBad
              else if negb (lo_links ok i) then NrCrash
              else if negb (lo_cnt ok i) || negb (lo_vec ok i) then NrBad
              else
                match rd_u32 b with
                | None => NrBad
                | Some (norm, b) =>
                    match rd_vec quantized dim b with
                    | None => NrBad
                    | Some (nv, b) =>
                        match rd_layers (lo_layer ok i) cap (S (Z.to_nat top)) 0 b with
                        | None => NrBad
                        | Some (links, b) => NrNode (mkNode id nv (f32_of_bits norm) (negb (deleted =? 0)) links) b
                        end
                    end
                end
          end
      end
  end.

Inductive LoadOutcome := LdGraph (h : Hnsw) (covered : Z) | LdNull | LdCrash.

Fixpoint load_nodes (ok : LoadOks) (n i : nat) (quantized : bool) (dim : nat) (cap : nat -> nat) (b : list Z) : NodeRead + list Node * list Z :=
  match n with
  | O => inr ([], b)
  | S n' =>
      match load_node ok i quantized dim cap b with
      | NrNode nd b => match load_nodes ok n' (S i) quantized dim cap b with inr (ns, b) => inr (nd :: ns, b) | inl e => inl e end
      | e => inl e
      end
  end.

(** The capacity of a map with room for [live] ids. *)
Fixpoint presize (fuel cap live : nat) : nat :=
  match fuel with O => cap | S fuel' => if (cap * 7 <? (live + 1) * 10)%nat then presize fuel' (cap * 2) live else cap end.

Fixpoint load_map (ok : nat -> bool * bool) (i : nat) (ns : list Node) (h : Hnsw) : option Hnsw :=
  match ns with
  | [] => Some h
  | nd :: ns' =>
      if nd_deleted nd then load_map ok (S i) ns' h
      else match map_put (fst (ok i)) (snd (ok i)) h (nd_id nd) i with Some h => load_map ok (S i) ns' h | None => None end
  end.

(** The numbers of the header. *)
Fixpoint rd_header (widths : list bool) (b : list Z) : option (list Z * list Z) :=
  match widths with
  | [] => Some ([], b)
  | w :: ws =>
      match (if w then rd_u64 b else rd_u32 b) with
      | None => None
      | Some (x, b) => match rd_header ws b with Some (xs, b) => Some (x :: xs, b) | None => None end
      end
  end.

(** [file]: what [ckpt_read] returns. *)
Definition hnsw_load (ok : LoadOks) (file : option (list Z)) (expected_dim : nat) : LoadOutcome :=
  match file with
  | None => LdNull
  | Some buf =>
      if (length buf <? 8)%nat then LdNull
      else
        let body := take (length buf - 4) buf in
        if negb (crc32_compute body =? aegis_get_u32le (drop (length buf - 4) buf)) then LdNull
        else
          match rd_get 4 body with
          | None => LdNull
          | Some (magic, b) =>
              if negb (bool_decide (magic = HNSW_FORMAT_MAGIC)) then LdNull
              else
                match rd_header [false; false; false; false; false; false; true; true; true; false; false; true] b with
                | Some ([version; dim; M; efc; efs; quantized; rng; ncount; live; entry; max_layer; covered], b) =>
                    if negb (version =? HNSW_FORMAT_VERSION) || negb (dim =? Z.of_nat expected_dim) then LdNull
                    else
                      match hnsw_alloc (lo_alloc ok) (Z.to_nat dim) (Z.to_nat M) (Z.to_nat efc) (Z.to_nat efs) rng (negb (quantized =? 0)) with
                      | None => LdNull
                      | Some h =>
                          let n := Z.to_nat ncount in
                          if (0 <? n)%nat && negb (lo_nodes ok) then LdNull
                          else
                            match load_nodes ok n 0 (hn_quantized h) (hn_dim h) (node_layer_cap h) b with
                            | inl NrCrash => LdCrash
                            | inl _ => LdNull
                            | inr (ns, _ :: _) => LdNull
                            | inr (ns, []) =>
                                let h := mkHnsw (hn_dim h) (hn_M h) (hn_ef_construction h) (hn_ef_search h) (hn_quantized h) rng ns n (Z.to_nat live)
                                           (if entry =? NPOS then None else Some (Z.to_nat entry)) (if max_layer <? 2 ^ 31 then Z.to_nat max_layer else 0%nat) [] in
                                match map_grow (lo_map ok) [] (presize (S (hn_live h)) 64 (hn_live h)) with
                                | None => LdNull
                                | Some m => match load_map (lo_put ok) 0 ns (set_map h m) with Some h => LdGraph h covered | None => LdNull end
                                end
                            end
                      end
                | _ => LdNull
                end
          end
  end.

(** ** Reading back what was written *)

Lemma concat_bytes {A} (f : A -> list Z) (l : list A) : (forall x, bytes_ok (f x)) -> bytes_ok (concat (map f l)).
Proof. intros Hf. induction l as [|x l IH]; cbn; [constructor|]. apply bytes_ok_app. done. Qed.

Lemma graph_bytes_ok h covered : bytes_ok (graph_bytes h covered).
Proof.
  unfold graph_bytes. repeat (apply bytes_ok_app; split; [first [apply put_u32le_bytes|apply put_u64le_bytes|by repeat constructor]|]).
  apply concat_bytes. intros nd. unfold node_bytes. repeat (apply bytes_ok_app; split; [first [apply put_u32le_bytes|apply put_u64le_bytes|idtac]|]).
  - destruct (nd_vec nd) as [v|q scale]; cbn [vec_bytes]; [apply concat_bytes; intros; apply put_u32le_bytes|]. apply bytes_ok_app. split; [apply put_u32le_bytes|].
    unfold bytes_ok. rewrite Forall_forall. intros b Hb. apply list_elem_of_fmap in Hb as (x & -> & _). by apply wrap_range.
  - apply concat_bytes. intros ns. unfold link_bytes. apply bytes_ok_app. split; [apply put_u32le_bytes|]. apply concat_bytes. intros; apply put_u32le_bytes.
Qed.

Lemma rd_get_app (t b : list Z) : rd_get (length t) (t ++ b) = Some (t, b).
Proof. unfold rd_get. rewrite length_app, (proj2 (Nat.leb_le _ _)) by lia. by rewrite take_app_length, drop_app_length. Qed.

Lemma rd_u32_put v b : u32 v -> rd_u32 (aegis_put_u32le v ++ b) = Some (v, b).
Proof.
  intros Hv. unfold rd_u32. pose proof (rd_get_app (aegis_put_u32le v) b) as E. rewrite length_put_u32le in E. rewrite E.
  rewrite <- (app_nil_r (aegis_put_u32le v)), get_put_u32le; done.
Qed.

Lemma rd_u64_put v b : u64 v -> rd_u64 (aegis_put_u64le v ++ b) = Some (v, b).
Proof.
  intros Hv. unfold rd_u64. pose proof (rd_get_app (aegis_put_u64le v) b) as E. rewrite length_put_u64le in E. rewrite E.
  rewrite <- (app_nil_r (aegis_put_u64le v)), get_put_u64le; done.
Qed.

Lemma rd_words_put l b : Forall u32 l -> rd_words (length l) (concat (map aegis_put_u32le l) ++ b) = Some (l, b).
Proof.
  intros Hl. induction Hl as [|x l Hx _ IH]; cbn [rd_words length map concat app]; [done|]. rewrite <- app_assoc, rd_u32_put by done. by rewrite IH.
Qed.

(** A number a [float] of the file can hold. *)
Definition float_ok (x : spec_float) : Prop := u32 (f32_to_bits x) /\ f32_of_bits (f32_to_bits x) = x.

Definition vec_ok (quantized : bool) (dim : nat) (nv : NodeVec) : Prop :=
  match nv with
  | NvFloat v => quantized = false /\ length v = dim /\ Forall u32 v
  | NvQuant q scale => quantized = true /\ length q = dim /\ Forall (fun x => -128 <= x < 128) q /\ float_ok scale
  end.

Lemma int8_wrap x : -128 <= x < 128 -> int8_of (wrap 8 x) = x.
Proof.
  intros Hx. unfold int8_of, wrap. change (2 ^ 8) with 256. destruct (Z.ltb_spec (x mod 256) 128) as [Hl|Hl].
  - destruct (decide (0 <= x)); [by rewrite Z.mod_small by lia|]. replace x with (x + 256 + (-1) * 256) in Hl by lia. rewrite Z.mod_add, Z.mod_small in Hl by lia. lia.
  - destruct (decide (0 <= x)); [rewrite Z.mod_small in Hl by lia; lia|]. replace x with (x + 256 + (-1) * 256) at 1 by lia. rewrite Z.mod_add, Z.mod_small by lia. lia.
Qed.

Lemma rd_vec_bytes quantized dim nv b : vec_ok quantized dim nv -> rd_vec quantized dim (vec_bytes nv ++ b) = Some (nv, b).
Proof.
  destruct nv as [v|q scale]; cbn [vec_ok vec_bytes].
  - intros (-> & <- & Hv). unfold rd_vec. by rewrite rd_words_put.
  - intros (-> & <- & Hq & [Hs Es]). unfold rd_vec. rewrite <- app_assoc, rd_u32_put by done. rewrite <- (length_map (wrap 8) q), rd_get_app. rewrite Es. do 3 f_equal.
    rewrite map_map. induction Hq as [|x q Hx _ IH]; [done|]. cbn. by rewrite int8_wrap, IH.
Qed.

Definition links_ok (cap : nat -> nat) (l : nat) (ls : list (list nat)) : Prop :=
  forall i ns, ls !! i = Some ns -> (length ns <= cap (l + i))%nat /\ u32 (Z.of_nat (length ns)) /\ Forall (fun x => u32 (Z.of_nat x)) ns.

Lemma rd_layers_bytes ok cap l ls b : (forall k, ok k = true) -> links_ok cap l ls ->
  rd_layers ok cap (length ls) l (concat (map link_bytes ls) ++ b) = Some (ls, b).
Proof.
  intros Hok. revert l. induction ls as [|ns ls IH]; intros l Hl; cbn [rd_layers length map concat app]; [done|].
  destruct (Hl 0%nat ns eq_refl) as (Hc & Hu & Hn). rewrite Nat.add_0_r in Hc. unfold link_bytes at 1. rewrite <- !app_assoc, rd_u32_put by done.
  rewrite (proj2 (Z.ltb_ge _ _)) by lia. rewrite Hok. cbn [negb]. rewrite Nat2Z.id.
  pose proof (rd_words_put (map Z.of_nat ns) (concat (map link_bytes ls) ++ b)) as Ew. rewrite length_map, map_map in Ew. rewrite Ew by (by rewrite Forall_fmap).
  rewrite (IH (S l)).
  - rewrite map_map. do 3 f_equal. rewrite <- (map_id ns) at 2. apply map_ext. intros x. lia.
  - intros i x Hx. replace (S l + i)%nat with (l + S i)%nat by lia. by apply Hl.
Qed.

Record node_ok (quantized : bool) (dim : nat) (cap : nat -> nat) (nd : Node) : Prop := {
  no_id : u64 (nd_id nd); no_norm : float_ok (nd_norm nd); no_vec : vec_ok quantized dim (nd_vec nd);
  no_layers : 0 < Z.of_nat (length (nd_links nd)) <= 2 ^ 31; no_links : links_ok cap 0 (nd_links nd)
}.

Definition load_all_ok (ok : LoadOks) : Prop :=
  lo_alloc ok = true /\ lo_nodes ok = true /\ lo_map ok = true /\ (forall i, lo_links ok i = true) /\ (forall i, lo_cnt ok i = true) /\ (forall i, lo_vec ok i = true) /\
  (forall i l, lo_layer ok i l = true) /\ (forall i, lo_put ok i = (true, true)).

Lemma load_node_bytes ok i quantized dim cap nd b : load_all_ok ok -> node_ok quantized dim cap nd -> load_node ok i quantized dim cap (node_bytes nd ++ b) = NrNode nd b.
Proof.
  intros (_ & _ & _ & O1 & O2 & O3 & O4 & _) [N1 [N2 N2'] N3 N4 N5]. unfold load_node, node_bytes. rewrite <- !app_assoc.
  assert (u32 (Z.of_nat (nd_top_layer nd))) as Ht by (unfold nd_top_layer, u32, urange; lia).
  rewrite rd_u64_put by done. rewrite rd_u32_put by (destruct (nd_deleted nd); done). rewrite rd_u32_put by done.
  rewrite (proj2 (Z.leb_gt _ _)) by (unfold nd_top_layer; lia). rewrite O1, O2, O3. cbn [negb orb]. rewrite rd_u32_put, rd_vec_bytes by done.
  assert (S (Z.to_nat (Z.of_nat (nd_top_layer nd))) = length (nd_links nd)) as -> by (unfold nd_top_layer; lia).
  rewrite rd_layers_bytes by done. f_equal. rewrite N2'. destruct nd as [id v n d ls]. cbn. by destruct d.
Qed.

Lemma load_nodes_bytes ok i quantized dim cap ns b : load_all_ok ok -> Forall (node_ok quantized dim cap) ns ->
  load_nodes ok (length ns) i quantized dim cap (concat (map node_bytes ns) ++ b) = inr (ns, b).
Proof.
  intros Hok Hns. revert i. induction Hns as [|nd ns Hnd _ IH]; intros i; cbn [load_nodes length map concat app]; [done|].
  rewrite <- app_assoc, load_node_bytes by done. by rewrite IH.
Qed.

(** *** The map *)

Lemma presize_spec fuel cap live : pow2 cap -> (64 <= cap)%nat -> ((live + 1) * 10 <= cap * 7 * 2 ^ fuel)%nat ->
  pow2 (presize fuel cap live) /\ (64 <= presize fuel cap live)%nat /\ ((live + 1) * 10 <= presize fuel cap live * 7)%nat.
Proof.
  revert cap. induction fuel as [|fuel IH]; intros cap Hp Hc Hf; cbn [presize]; [cbn in Hf; split_and!; (done || lia)|].
  destruct (Nat.ltb_spec (cap * 7) ((live + 1) * 10)); [|split_and!; (done || lia)]. apply IH; [by apply pow2_double|lia|cbn [Nat.pow] in Hf; lia].
Qed.

(** A map with room for the ids takes them without growing. *)
Lemma map_put_room h id node : ot_wf (hn_map h) -> (64 <= length (hn_map h))%nat -> ((hn_live h + 1) * 10 <= length (hn_map h) * 7)%nat ->
  (size (ot_map (hn_map h)) <= hn_live h)%nat -> ot_map (hn_map h) !! id = None ->
  map_put true true h id node = Some (set_map h (ot_set (hn_map h) id node)) /\ ot_wf (ot_set (hn_map h) id node) /\
  ot_map (ot_set (hn_map h) id node) = <[id := node]> (ot_map (hn_map h)).
Proof.
  intros W Hc Hl Hs Hno. unfold map_put. destruct (Nat.eqb_spec (length (hn_map h)) 0); [lia|]. pose proof (map_probe_cases (hn_map h) id W) as Hp. rewrite Hno in Hp.
  destruct Hp as [-> _]. destruct (Nat.ltb_spec (length (hn_map h) * 7) ((hn_live h + 1) * 10)); [lia|]. split; [done|].
  apply ot_set_spec; [done|]. left. rewrite <- (ot_map_size _ W). lia.
Qed.

Fixpoint live_index (i : nat) (ns : list Node) : list (Z * nat) :=
  match ns with [] => [] | nd :: ns' => if nd_deleted nd then live_index (S i) ns' else (nd_id nd, i) :: live_index (S i) ns' end.

Lemma load_map_spec ok i ns h : (forall i, ok i = (true, true)) -> ot_wf (hn_map h) -> (64 <= length (hn_map h))%nat -> ((hn_live h + 1) * 10 <= length (hn_map h) * 7)%nat ->
  (size (ot_map (hn_map h)) + length (live_index i ns) <= hn_live h)%nat -> NoDup (live_index i ns).*1 ->
  (forall k, k ∈ (live_index i ns).*1 -> ot_map (hn_map h) !! k = None) ->
  exists t, load_map ok i ns h = Some (set_map h t) /\ ot_wf t /\ length t = length (hn_map h) /\
    (forall k x, ot_map t !! k = Some x <-> (k, x) ∈ live_index i ns \/ ot_map (hn_map h) !! k = Some x).
Proof.
  intros Hok. revert i h. induction ns as [|nd ns IH]; intros i h W Hc Hl Hs Hn Hf; cbn [load_map live_index] in *.
  { exists (hn_map h). split; [by destruct h|]. split; [done|]. split; [done|]. intros k x. split; [by right|]. intros [Hx|?]; [by apply elem_of_nil in Hx|done]. }
  destruct (nd_deleted nd); [by apply IH|]. rewrite Hok. cbn [fst snd length] in *. apply NoDup_cons in Hn as [Hno Hn].
  destruct (map_put_room h (nd_id nd) i W Hc Hl) as (-> & W1 & E1); [lia|apply Hf; by left|].
  destruct (IH (S i) (set_map h (ot_set (hn_map h) (nd_id nd) i))) as (t & -> & Wt & Lt & Et).
  - done.
  - cbn [set_map hn_map]. by rewrite length_ot_set.
  - cbn [set_map hn_map hn_live]. by rewrite length_ot_set.
  - cbn [set_map hn_map hn_live]. rewrite E1, map_size_insert_None by (apply Hf; by left). lia.
  - done.
  - intros k Hk. cbn [set_map hn_map]. rewrite E1, lookup_insert_ne; [apply Hf; by right|]. intros <-. done.
  - exists t. split; [done|]. split; [done|]. cbn [set_map hn_map] in Lt, Et. rewrite length_ot_set in Lt. split; [done|]. intros k x. rewrite Et, E1, elem_of_cons, lookup_insert_Some. split.
    + intros [?|[[<- <-]|[? ?]]]; [by left; right|by left; left|by right].
    + intros [[E|?]|?]; [injection E as -> ->; right; by left|by left|]. right. right. split; [|done]. intros <-. specialize (Hf (nd_id nd) ltac:(by left)). congruence.
Qed.

Lemma live_index_elem i ns k x : (k, x) ∈ live_index i ns <-> exists j nd, ns !! j = Some nd /\ nd_deleted nd = false /\ nd_id nd = k /\ x = (i + j)%nat.
Proof.
  revert i. induction ns as [|nd ns IH]; intros i; cbn [live_index]; [split; [by intros ?%elem_of_nil|by intros (j & ? & Hj & _)]|].
  assert ((k, x) ∈ live_index (S i) ns <-> exists j nd', (nd :: ns) !! S j = Some nd' /\ nd_deleted nd' = false /\ nd_id nd' = k /\ x = (i + S j)%nat) as IH'.
  { rewrite IH. split; intros (j & nd' & H1 & H2 & H3 & H4); exists j, nd'; (split_and!; [done|done|done|lia]). }
  destruct (nd_deleted nd) eqn:Ed.
  - rewrite IH'. split; [intros (j & nd' & Hr); by exists (S j), nd'|]. intros ([|j] & nd' & Hj & Hd & Hr); [injection Hj as <-; congruence|]. by exists j, nd'.
  - rewrite elem_of_cons, IH'. split.
    + intros [E|(j & nd' & Hr)]; [injection E as -> ->; exists 0%nat, nd; by rewrite Nat.add_0_r|by exists (S j), nd'].
    + intros ([|j] & nd' & Hj & Hd & Hi & Hx); [injection Hj as <-; left; rewrite Hx, Nat.add_0_r; congruence|right; by exists j, nd'].
Qed.

Lemma live_index_nodup i ns :
  (forall a b x y, ns !! a = Some x -> ns !! b = Some y -> nd_deleted x = false -> nd_deleted y = false -> nd_id x = nd_id y -> a = b) -> NoDup (live_index i ns).*1.
Proof.
  revert i. induction ns as [|nd ns IH]; intros i Hu; cbn [live_index]; [constructor|].
  assert (NoDup (live_index (S i) ns).*1) as Hn by (apply IH; intros a b x y Ha Hb Hx Hy E; specialize (Hu (S a) (S b) x y Ha Hb Hx Hy E); lia).
  destruct (nd_deleted nd) eqn:Ed; [done|]. cbn. constructor; [|done]. intros Hin. apply list_elem_of_fmap in Hin as ([k x] & E & Hin).
  apply live_index_elem in Hin as (j & nd' & Hj & Hd & Hi & _). specialize (Hu 0%nat (S j) nd nd' eq_refl Hj Ed Hd ltac:(cbn in E; congruence)). lia.
Qed.

Section file.
Context `{VecKernel}.

(** The numbers fit the fields of the file. *)
Record file_ok (h : Hnsw) (covered : Z) : Prop := {
  fo_dim : u32 (Z.of_nat (hn_dim h)); fo_M : u32 (Z.of_nat (hn_M0 h)); fo_efc : u32 (Z.of_nat (hn_ef_construction h)); fo_efs : u32 (Z.of_nat (hn_ef_search h));
  fo_rng : u64 (hn_rng h); fo_covered : u64 covered; fo_nodes : Z.of_nat (length (hn_nodes h)) < NPOS; fo_live : u64 (Z.of_nat (hn_live h));
  fo_max : Z.of_nat (hn_max_layer h) < 2 ^ 31;
  fo_node : Forall (fun nd => u64 (nd_id nd) /\ float_ok (nd_norm nd) /\ vec_ok (hn_quantized h) (hn_dim h) (nd_vec nd) /\ Z.of_nat (length (nd_links nd)) <= 2 ^ 31) (hn_nodes h)
}.

Lemma file_nodes h covered : shape h -> file_ok h covered -> Forall (node_ok (hn_quantized h) (hn_dim h) (node_layer_cap h)) (hn_nodes h).
Proof.
  intros [_ S2 S3 _] F. pose proof (fo_node _ _ F) as Hf. rewrite Forall_lookup in Hf |- *. intros i nd Hi. destruct (Hf i nd Hi) as (H1 & H2 & H3 & H4).
  pose proof (S3 i nd Hi). pose proof (fo_nodes _ _ F) as Hn. unfold NPOS in Hn. split; try done; [lia|]. intros l ns Hl. destruct (S2 i nd l ns Hi Hl) as [Hc Hin]. split; [done|].
  assert (Forall (fun x => u32 (Z.of_nat x)) ns) as Hu.
  { eapply Forall_impl; [exact Hin|]. intros x Hx. apply in_layer_lt in Hx. unfold u32, urange. lia. }
  split; [|done]. pose proof (fo_M _ _ F) as HM. unfold u32, urange, hn_M0 in *. unfold node_layer_cap, hn_M0 in Hc. destruct (l =? 0)%nat; lia.
Qed.

Lemma rd_header_cons (w : bool) ws x b : (if w then u64 x else u32 x) -> rd_header (w :: ws) ((if w then aegis_put_u64le x else aegis_put_u32le x) ++ b) =
  match rd_header ws b with Some (xs, b) => Some (x :: xs, b) | None => None end.
Proof. intros Hx. cbn [rd_header]. destruct w; [by rewrite rd_u64_put|by rewrite rd_u32_put]. Qed.

Lemma rd_fields (fs : list (bool * Z)) b : Forall (fun f => if f.1 : bool then u64 f.2 else u32 f.2) fs ->
  rd_header (map fst fs) (concat (map (fun f => if f.1 : bool then aegis_put_u64le f.2 else aegis_put_u32le f.2) fs) ++ b) = Some (map snd fs, b).
Proof.
  intros Hf. induction Hf as [|[w x] fs Hx _ IH]; cbn [map concat fst snd app]; [done|]. rewrite <- app_assoc, rd_header_cons by done. by rewrite IH.
Qed.

(** The header as a list of fields. *)
Definition header_fields (h : Hnsw) (covered : Z) : list (bool * Z) :=
  [(false, HNSW_FORMAT_VERSION); (false, Z.of_nat (hn_dim h)); (false, Z.of_nat (hn_M h)); (false, Z.of_nat (hn_ef_construction h)); (false, Z.of_nat (hn_ef_search h));
   (false, if hn_quantized h then 1 else 0); (true, hn_rng h); (true, Z.of_nat (length (hn_nodes h))); (true, Z.of_nat (hn_live h));
   (false, match hn_entry h with Some e => Z.of_nat e | None => NPOS end); (false, Z.of_nat (hn_max_layer h)); (true, covered)].

Lemma graph_bytes_fields h covered : graph_bytes h covered =
  HNSW_FORMAT_MAGIC ++ concat (map (fun f => if f.1 : bool then aegis_put_u64le f.2 else aegis_put_u32le f.2) (header_fields h covered)) ++ concat (map node_bytes (hn_nodes h)).
Proof. unfold graph_bytes, header_fields. cbn [map concat fst snd app]. by rewrite <- !app_assoc. Qed.

Lemma header_ok h m covered : hn_wf h m -> file_ok h covered -> Forall (fun f => if f.1 : bool then u64 f.2 else u32 f.2) (header_fields h covered).
Proof.
  intros W [F1 F2 F3 F4 F5 F6 F7 F8 F9 _]. unfold NPOS in F7. assert (u32 (Z.of_nat (hn_M h))) by (unfold u32, urange, hn_M0 in *; lia).
  assert (u32 (match hn_entry h with Some e => Z.of_nat e | None => NPOS end)).
  { destruct (hn_entry h) as [e|] eqn:Ee; [|done]. destruct (sh_entry h (hw_shape _ _ W) e Ee) as (nd & He & _). apply lookup_lt_Some in He. unfold u32, urange. lia. }
  unfold header_fields. repeat apply Forall_cons_2; try apply Forall_nil_2; cbn [fst snd]; try done; try (unfold u32, u64, urange; lia). by destruct (hn_quantized h).
Qed.

(** The map rebuilt from the nodes is the map of the live nodes. *)
Lemma loaded_map h m t0 : hn_wf h m -> ot_wf t0 -> ot_map t0 = ∅ -> (64 <= length t0)%nat -> ((hn_live h + 1) * 10 <= length t0 * 7)%nat -> forall ok cap, (forall i, ok i = (true, true)) ->
  exists t, load_map ok 0 (hn_nodes h) (set_map (set_ncap h cap) t0) = Some (set_map (set_ncap h cap) t) /\ hn_wf (set_map (set_ncap h cap) t) m.
Proof.
  intros W Wt Et Ht Hl ok cap Hok. pose proof W as [W1 W2 W3 W4 W5 W6].
  assert (forall k x, (k, x) ∈ live_index 0 (hn_nodes h) <-> ot_map (hn_map h) !! k = Some x) as Hli.
  { intros k x. rewrite live_index_elem, W3. split.
    - intros (j & nd & Hj & Hd & Hi & ->). by exists (nd_vec nd), nd.
    - intros (nv & nd & Hj & Hi & Hd & _). by exists x, nd. }
  assert (NoDup (live_index 0 (hn_nodes h)).*1) as Hn.
  { apply live_index_nodup. intros a b x y Ha Hb Hx Hy E. assert (ot_map (hn_map h) !! nd_id x = Some a) by (apply W3; by exists (nd_vec x), x).
    assert (ot_map (hn_map h) !! nd_id x = Some b) by (apply W3; exists (nd_vec y), y; done). congruence. }
  assert (ot_map (hn_map h) = list_to_map (live_index 0 (hn_nodes h))) as Em.
  { apply map_eq. intros k. apply option_eq. intros x. by rewrite <- elem_of_list_to_map, Hli. }
  assert (length (live_index 0 (hn_nodes h)) = hn_live h) as Hlen.
  { rewrite <- W4, Em, <- (size_dom (D := gset Z)), dom_list_to_map_L, size_list_to_set by done. by rewrite length_fmap. }
  destruct (load_map_spec ok 0 (hn_nodes h) (set_map (set_ncap h cap) t0)) as (t & E & Wt' & Lt & Et'); try done.
  - cbn [set_map set_ncap hn_map hn_live]. rewrite Et, map_size_empty. lia.
  - intros k _. cbn [set_map hn_map]. by rewrite Et.
  - exists t. split; [done|]. cbn [set_map set_ncap hn_map hn_live] in *.
    assert (ot_map t = ot_map (hn_map h)) as Emap by (apply map_eq; intros k; apply option_eq; intros x; rewrite Et', Hli, Et; naive_solver).
    split; cbn [set_map set_ncap hn_map hn_live hn_quantized]; rewrite ?Emap; try done.
    + destruct W1. by split.
    + right. split; [done|]. rewrite Emap, W4, Lt. split; [done|lia].
Qed.

(** A graph written by [hnsw_save] and read by [hnsw_load] comes back: the
    same nodes in the same order with their links, vectors, norms and
    tombstones, the same parameters, generator state and entry point, and an
    id map that finds the same vectors; only the spare capacities differ. *)
Theorem hnsw_file_roundtrip (h : Hnsw) (m : gmap Z (list Z)) (covered : Z) (ok : LoadOks) :
  hn_wf h m -> file_ok h covered -> load_all_ok ok ->
  exists img t, hnsw_save true h covered = Some img /\
    hnsw_load ok (Some img) (hn_dim h) = LdGraph (set_map (set_ncap h (length (hn_nodes h))) t) covered /\
    hn_wf (set_map (set_ncap h (length (hn_nodes h))) t) m.
Proof.
  intros W F Hok. pose proof Hok as (O1 & O2 & O3 & _ & _ & _ & _ & O8). unfold hnsw_save. cbn zeta. set (body := graph_bytes h covered). eexists.
  destruct (presize_spec (S (hn_live h)) 64 (hn_live h) pow2_64 ltac:(lia)) as (P1 & P2 & P3); [pose proof (Nat.pow_gt_lin_r 2 (S (hn_live h)) ltac:(lia)); lia|].
  set (mcap := presize (S (hn_live h)) 64 (hn_live h)) in *.
  destruct (loaded_map h m (replicate mcap None) W) with (ok := lo_put ok) (cap := length (hn_nodes h)) as (t & Em & Wt); try done; [by apply empty_table_wf|unfold ot_map; by rewrite empty_table|by rewrite length_replicate|by rewrite length_replicate|].
  exists t. split; [reflexivity|]. split; [|done]. unfold hnsw_load.
  assert (length (body ++ aegis_put_u32le (crc32_compute body)) = length body + 4)%nat as Hlen by (by rewrite length_app, length_put_u32le). rewrite Hlen.
  replace (length body + 4 - 4)%nat with (length body) by lia. rewrite take_app_length, drop_app_length.
  assert (4 <= length body)%nat as Hb4 by (subst body; rewrite graph_bytes_fields, length_app; cbn [length HNSW_FORMAT_MAGIC]; lia). rewrite (proj2 (Nat.ltb_ge _ _)) by lia. cbn zeta.
  assert (aegis_get_u32le (aegis_put_u32le (crc32_compute body)) = crc32_compute body) as -> by (rewrite <- (app_nil_r (aegis_put_u32le _)); apply get_put_u32le, crc32_compute_range, graph_bytes_ok).
  rewrite Z.eqb_refl. cbn [negb]. subst body. rewrite graph_bytes_fields.
  pose proof (rd_get_app HNSW_FORMAT_MAGIC (concat (map (fun f : bool * Z => if f.1 : bool then aegis_put_u64le f.2 else aegis_put_u32le f.2) (header_fields h covered)) ++ concat (map node_bytes (hn_nodes h)))) as Eg.
  cbn [length HNSW_FORMAT_MAGIC] in Eg. rewrite Eg. rewrite bool_decide_true by done. cbn [negb].
  change [false; false; false; false; false; false; true; true; true; false; false; true] with (map fst (header_fields h covered)).
  rewrite (rd_fields _ _ (header_ok h m covered W F)). cbn [header_fields map snd].
  rewrite Z.eqb_refl, Z.eqb_refl. cbn [negb orb]. unfold hnsw_alloc. rewrite O1. rewrite !Nat2Z.id, O2. rewrite andb_false_r.
  pose proof (sh_M _ (hw_shape _ _ W)) as HM. rewrite (proj2 (Nat.ltb_ge (hn_M h) 2)) by lia.
  assert (negb ((if hn_quantized h then 1 else 0) =? 0) = hn_quantized h) as -> by (by destruct (hn_quantized h)). cbn [hn_quantized hn_dim hn_M hn_ef_construction hn_ef_search hn_live].
  pose proof (load_nodes_bytes ok 0 (hn_quantized h) (hn_dim h) (node_layer_cap h) (hn_nodes h) [] Hok (file_nodes h covered (hw_shape _ _ W) F)) as El. rewrite app_nil_r in El.
  change (node_layer_cap (mkHnsw _ _ _ _ _ _ _ _ _ _ _ _)) with (node_layer_cap h). rewrite El, O3. unfold map_grow. cbn [entries omap list_omap]. fold mcap.
  change (rehash_into mcap []) with (replicate mcap (@None (Z * nat))).
  assert ((if (match hn_entry h with Some e => Z.of_nat e | None => NPOS end) =? NPOS then None else Some (Z.to_nat (match hn_entry h with Some e => Z.of_nat e | None => NPOS end))) = hn_entry h) as ->.
  { destruct (hn_entry h) as [e|] eqn:Ee; [|done]. destruct (sh_entry h (hw_shape _ _ W) e Ee) as (nd & He & _). apply lookup_lt_Some in He. pose proof (fo_nodes _ _ F).
    destruct (Z.eqb_spec (Z.of_nat e) NPOS); [lia|]. by rewrite Nat2Z.id. }
  rewrite (proj2 (Z.ltb_lt _ _) (fo_max _ _ F)). unfold set_map, set_ncap in Em |- *. cbn [hn_dim hn_M hn_ef_construction hn_ef_search hn_quantized hn_rng hn_nodes hn_cap hn_live hn_entry hn_max_layer hn_map] in Em |- *.
  by rewrite Em.
Qed.
End file.

(** ** The small graph, through a file *)

Section demo.
#[local] Existing Instance ieee_kernel.

Definition demo_load : LoadOks := mkLoadOks true true (fun _ => true) (fun _ => true) (fun _ => true) (fun _ _ => true) true (fun _ => (true, true)).

Lemma demo_load_ok : load_all_ok demo_load.
Proof. by split_and!. Qed.

Definition float_okb (x : spec_float) : bool :=
  (0 <=? f32_to_bits x) && (f32_to_bits x <? 2 ^ 32) && bool_decide (f32_to_bits (f32_of_bits (f32_to_bits x)) = f32_to_bits x) &&
  match f32_of_bits (f32_to_bits x), x with
  | S754_zero a, S754_zero b => eqb a b
  | S754_finite a m e, S754_finite b n d => eqb a b && (m =? n)%positive && (e =? d)
  | _, _ => false
  end.

Lemma float_okb_ok x : float_okb x = true -> float_ok x.
Proof.
  unfold float_okb. rewrite !andb_true_iff. intros [[[H1 H2] _] H3]. split; [unfold u32, urange; lia|].
  destruct (f32_of_bits (f32_to_bits x)) as [a| | |a m e], x as [b| | |b n d]; try done.
  - by apply eqb_prop in H3 as ->.
  - rewrite !andb_true_iff in H3. destruct H3 as [[Ha Hm] He]. apply eqb_prop in Ha as ->. apply Pos.eqb_eq in Hm as ->. apply Z.eqb_eq in He as ->. done.
Qed.

Definition node_okb (dim : nat) (nd : Node) : bool :=
  (0 <=? nd_id nd) && (nd_id nd <? 2 ^ 64) && float_okb (nd_norm nd) && (Z.of_nat (length (nd_links nd)) <=? 2 ^ 31) &&
  match nd_vec nd with NvFloat v => (length v =? dim)%nat && forallb (fun x => (0 <=? x) && (x <? 2 ^ 32)) v | NvQuant _ _ => false end.

Lemma node_okb_all dim ns : forallb (node_okb dim) ns = true ->
  Forall (fun nd => u64 (nd_id nd) /\ float_ok (nd_norm nd) /\ vec_ok false dim (nd_vec nd) /\ Z.of_nat (length (nd_links nd)) <= 2 ^ 31) ns.
Proof.
  intros Hn. rewrite forallb_forall in Hn. rewrite Forall_forall. intros nd Hnd. specialize (Hn nd (proj1 (list_elem_of_In _ _) Hnd)). unfold node_okb in Hn.
  rewrite !andb_true_iff in Hn. destruct Hn as [[[[H1 H2] H3] H4] H5]. split; [unfold u64, urange; lia|]. split; [by apply float_okb_ok|]. split; [|lia].
  unfold vec_ok. destruct (nd_vec nd) as [v|]; [|done]. apply andb_true_iff in H5 as [Hl Hv]. apply Nat.eqb_eq in Hl. split; [done|]. split; [done|].
  rewrite forallb_forall in Hv. rewrite Forall_forall. intros x Hx. specialize (Hv x (proj1 (list_elem_of_In _ _) Hx)). unfold u32, urange. lia.
Qed.

(** [file_ok] of a graph that is not quantized, decided. *)
Definition file_okb (h : Hnsw) (covered : Z) : bool :=
  let fits (n : nat) := Z.of_nat n <? 2 ^ 32 in
  let fits64 (x : Z) := (0 <=? x) && (x <? 2 ^ 64) in
  negb (hn_quantized h) && fits (hn_dim h) && fits (hn_M0 h) && fits (hn_ef_construction h) && fits (hn_ef_search h) && fits64 (hn_rng h) && fits64 covered &&
  (Z.of_nat (length (hn_nodes h)) <? NPOS) && fits64 (Z.of_nat (hn_live h)) && (Z.of_nat (hn_max_layer h) <? 2 ^ 31) && forallb (node_okb (hn_dim h)) (hn_nodes h).

Lemma file_okb_ok h covered : file_okb h covered = true -> file_ok h covered.
Proof.
  unfold file_okb. cbn zeta. rewrite !andb_true_iff. intros [[[[[[[[[[Hq H1] H2] H3] H4] H5] H6] H7] H8] H9] Hn]. apply negb_true_iff in Hq.
  split; try (unfold NPOS, u32, u64, urange in *; lia). rewrite Hq. by apply node_okb_all.
Qed.

Lemma demo_file_ok : file_ok demo_graph 4096.
Proof. apply file_okb_ok. vm_compute. reflexivity. Qed.

Lemma hnsw_file_roundtrip_witness :
  exists img t, hnsw_save true demo_graph 4096 = Some img /\
    hnsw_load demo_load (Some img) (hn_dim demo_graph) = LdGraph (set_map (set_ncap demo_graph (length (hn_nodes demo_graph))) t) 4096.
Proof.
  destruct (hnsw_file_roundtrip demo_graph demo_map 4096 demo_load demo_wf demo_file_ok demo_load_ok) as (img & t & E1 & E2 & _).
  exists img, t. exact (conj E1 E2).
Defined.

(** A load that runs out of memory for the links of a node crashes while it
    frees the node. *)
Theorem failed_load_crashes :
  match hnsw_save true demo_graph 4096 with
  | Some img => hnsw_load (mkLoadOks true true (fun _ => false) (fun _ => true) (fun _ => true) (fun _ _ => true) true (fun _ => (true, true))) (Some img) 2
  | None => LdNull
  end = LdCrash.
Proof. vm_compute. reflexivity. Qed.
End demo.
