(* ===== verification/SemanticIndex.v ===== *)
(** * Semantic index ([src/storage/semantic_index.c], [semantic_index.h])

    The vectors of the records: a dense array with an id map while there are
    few, one or more HNSW graphs afterwards; the number of vectors of each
    record; the deferred build of the graphs with its journal, and the
    maintenance step of [src/storage/db.c] that drives it; the exact search and
    the collapse of candidates to the best records. *)

From S2P Require Import Prelude Endian Floats OpenTable BinaryHeap Hnsw.

(** ** Shards and synthetic ids *)

Definition DEFAULT_ANN_THRESHOLD : nat := Z.to_nat 10000.
Definition SHARD_TARGET : nat := Z.to_nat 25000.
Definition SHARD_MAX : nat := 8.

(** [env]: the value of [AEGIS_SHARD_TARGET] as [strtol] reads it, when set. *)
Definition resolve_shard_target (env : option Z) (configured : nat) : nat :=
  if (0 <? configured)%nat then configured
  else match env with Some v => if 0 <? v then Z.to_nat v else SHARD_TARGET | None => SHARD_TARGET end.

(** [cpus]: what [sysconf] answers. *)
Definition pick_nshards (env : option Z) (cpus : Z) (n configured : nat) : nat :=
  let by_size := (n / resolve_shard_target env configured)%nat in
  if (by_size <? 2)%nat then 1%nat
  else
    let cap := if (0 <? cpus) && (Z.to_nat cpus <? SHARD_MAX)%nat then Z.to_nat cpus else SHARD_MAX in
    if (by_size <? cap)%nat then by_size else cap.

Definition shard_index (synid : Z) (nshards : nat) : nat :=
  if (1 <? nshards)%nat then Z.to_nat (mix64 synid mod Z.of_nat nshards) else 0%nat.

Definition MV_SLOT_BITS : Z := 6.
Definition MV_SLOT_MASK : Z := 63.
Definition mv_syn (rec : Z) (slot : nat) : Z := Z.lor (wrap 64 (Z.shiftl rec MV_SLOT_BITS)) (Z.of_nat slot).
Definition mv_rec (syn : Z) : Z := Z.shiftr syn MV_SLOT_BITS.
Definition mv_slot (syn : Z) : nat := Z.to_nat (Z.land syn MV_SLOT_MASK).

(** ** State *)

Record SemEntry := mkSemEntry { se_id : Z; se_vec : list Z; se_norm : spec_float; se_used : bool }.

(** [vec]: an addition; [None]: a removal. *)
Record SemDelta := mkSemDelta { dl_synid : Z; dl_vec : option (list Z) }.

Record SemBuildJob := mkSemBuildJob {
  jb_dim : nat; jb_vecs : list (Z * list Z); jb_ef : nat; jb_quantize : bool;
  jb_shards : list Hnsw; jb_nshards : nat; jb_pending : list SemDelta
}.

Record SemanticIndex := mkSem {
  si_dim : nat; si_e : list SemEntry; si_cap : nat; si_map : list (option (Z * nat));
  si_rc : list (option (Z * nat)); si_rcn : nat; si_shards : list Hnsw;
  si_threshold : nat; si_ef : nat; si_quantize : bool; si_target : nat;
  si_building : bool; si_failed : bool; si_deltas : list SemDelta; si_deltacap : nat
}.

Definition set_dense (s : SemanticIndex) (e : list SemEntry) (cap : nat) (m : list (option (Z * nat))) : SemanticIndex :=
  mkSem (si_dim s) e cap m (si_rc s) (si_rcn s) (si_shards s) (si_threshold s) (si_ef s) (si_quantize s) (si_target s)
    (si_building s) (si_failed s) (si_deltas s) (si_deltacap s).
Definition set_rc (s : SemanticIndex) (rc : list (option (Z * nat))) (n : nat) : SemanticIndex :=
  mkSem (si_dim s) (si_e s) (si_cap s) (si_map s) rc n (si_shards s) (si_threshold s) (si_ef s) (si_quantize s) (si_target s)
    (si_building s) (si_failed s) (si_deltas s) (si_deltacap s).
Definition set_shards (s : SemanticIndex) (g : list Hnsw) : SemanticIndex :=
  mkSem (si_dim s) (si_e s) (si_cap s) (si_map s) (si_rc s) (si_rcn s) g (si_threshold s) (si_ef s) (si_quantize s) (si_target s)
    (si_building s) (si_failed s) (si_deltas s) (si_deltacap s).
Definition set_build (s : SemanticIndex) (building failed : bool) : SemanticIndex :=
  mkSem (si_dim s) (si_e s) (si_cap s) (si_map s) (si_rc s) (si_rcn s) (si_shards s) (si_threshold s) (si_ef s) (si_quantize s) (si_target s)
    building failed (si_deltas s) (si_deltacap s).
Definition set_deltas (s : SemanticIndex) (d : list SemDelta) (cap : nat) : SemanticIndex :=
  mkSem (si_dim s) (si_e s) (si_cap s) (si_map s) (si_rc s) (si_rcn s) (si_shards s) (si_threshold s) (si_ef s) (si_quantize s) (si_target s)
    (si_building s) (si_failed s) d cap.
Definition set_job_shards (j : SemBuildJob) (g : list Hnsw) : SemBuildJob :=
  mkSemBuildJob (jb_dim j) (jb_vecs j) (jb_ef j) (jb_quantize j) g (jb_nshards j) (jb_pending j).
Definition set_pending (j : SemBuildJob) (p : list SemDelta) : SemBuildJob :=
  mkSemBuildJob (jb_dim j) (jb_vecs j) (jb_ef j) (jb_quantize j) (jb_shards j) (jb_nshards j) p.

(** ** Tables *)

(** The id map is rebuilt from the dense array. *)
Definition dense_slots (e : list SemEntry) : list (Z * nat) := imap (fun i x => (se_id x, i)) e.
Definition sem_map_grow (ok : bool) (e : list SemEntry) (newcap : nat) : option (list (option (Z * nat))) :=
  if ok then Some (rehash_into newcap (dense_slots e)) else None.

Definition rc_grow (ok : bool) (m : list (option (Z * nat))) (newcap : nat) : option (list (option (Z * nat))) :=
  if ok then Some (rehash_into newcap (entries m)) else None.
Definition rc_get (s : SemanticIndex) (rec : Z) : nat :=
  if (length (si_rc s) =? 0)%nat then 0%nat else default 0%nat (ot_get (si_rc s) rec).

Definition rc_set (ok0 ok : bool) (s : SemanticIndex) (rec : Z) (count : nat) : SemanticIndex * bool :=
  match (if (length (si_rc s) =? 0)%nat then rc_grow ok0 (si_rc s) 64 else Some (si_rc s)) with
  | None => (s, false)
  | Some m =>
      match m !! map_probe m rec with
      | Some (Some _) => (set_rc s (ot_set m rec count) (si_rcn s), true)
      | _ =>
          if (length m * 7 <? (si_rcn s + 1) * 10)%nat then
            match rc_grow ok m (length m * 2) with
            | Some m' => (set_rc s (ot_set m' rec count) (si_rcn s + 1), true)
            | None => (set_rc s m (si_rcn s), false)
            end
          else (set_rc s (ot_set m rec count) (si_rcn s + 1), true)
      end
  end.

Definition rc_del (s : SemanticIndex) (rec : Z) : SemanticIndex :=
  if (length (si_rc s) =? 0)%nat then s
  else match si_rc s !! map_probe (si_rc s) rec with
       | Some (Some _) => set_rc s (ot_del (si_rc s) rec) (si_rcn s - 1)
       | _ => s
       end.

Definition semantic_index_create (ok : bool) (dim ann_threshold ef_search : nat) (quantize : bool) (shard_target : nat) : option SemanticIndex :=
  if ok then
    Some (mkSem dim [] 0 [] [] 0 [] (if (ann_threshold =? 0)%nat then DEFAULT_ANN_THRESHOLD else ann_threshold) ef_search quantize shard_target false false [] 0)
  else None.

Definition graph_present (s : SemanticIndex) : bool := (0 <? length (si_shards s))%nat.
Definition graph_count (s : SemanticIndex) : nat := foldl (fun n g => n + hnsw_count g)%nat 0%nat (si_shards s).
Definition semantic_index_count (s : SemanticIndex) : nat := if graph_present s then graph_count s else length (si_e s).
Definition drop_dense (s : SemanticIndex) : SemanticIndex := set_dense s [] 0 [].
Definition semantic_index_clear (s : SemanticIndex) : SemanticIndex :=
  mkSem (si_dim s) [] 0 [] [] 0 [] (si_threshold s) (si_ef s) (si_quantize s) (si_target s) false false [] 0.

(** [sizeof] of the index, an entry and the two kinds of slots are 152, 24, 24
    and 16 on LP64; [stale i]: what the byte of [used] holds in the entries
    past the live ones. *)
Definition semantic_index_bytes (stale : nat -> bool) (s : SemanticIndex) : Z :=
  let per := fun (used : bool) => if used then Z.of_nat (si_dim s) * 4 else 0 in
  foldl (fun t g => t + hnsw_bytes g)
    (152 + Z.of_nat (si_cap s) * 24 + Z.of_nat (length (si_map s)) * 24 + Z.of_nat (length (si_rc s)) * 16
     + foldl (fun t e => t + per (se_used e)) 0 (si_e s)
     + foldl (fun t i => t + per (stale i)) 0 (seq (length (si_e s)) (si_cap s - length (si_e s)))) (si_shards s).

(** ** The dense array *)

(** Outcomes of the allocations behind one vector: the first map, the vector,
    the entry array, the doubling of the map; the journal and its copy; the
    graph. *)
Record VecOks := mkVecOks {
  vo_map0 : bool; vo_vec : bool; vo_e : bool; vo_map : bool; vo_darr : bool; vo_dcopy : bool; vo_add : AddOks; vo_rb : RebuildOks
}.

Section semantic.
Context `{VecKernel}.

Definition dense_put (ok : VecOks) (s : SemanticIndex) (id : Z) (vec : list Z) : SemanticIndex * bool :=
  match (if (length (si_map s) =? 0)%nat then sem_map_grow (vo_map0 ok) (si_e s) 128 else Some (si_map s)) with
  | None => (s, false)
  | Some m =>
      match m !! map_probe m id with
      | Some (Some (_, idx)) =>
          if vo_vec ok then
            (set_dense s (alter (fun e => mkSemEntry (se_id e) vec (vk_norm vec) (se_used e)) idx (si_e s)) (si_cap s) m, true)
          else (set_dense s (si_e s) (si_cap s) m, false)
      | _ =>
          if negb (vo_vec ok) then (set_dense s (si_e s) (si_cap s) m, false)
          else
            let n := length (si_e s) in
            let full := (n =? si_cap s)%nat in
            if full && negb (vo_e ok) then (set_dense s (si_e s) (si_cap s) m, false)
            else
              let cap := if full then (if (si_cap s =? 0)%nat then 64%nat else (si_cap s * 2)%nat) else si_cap s in
              let e' := si_e s ++ [mkSemEntry id vec (vk_norm vec) true] in
              if (length m * 7 <? (n + 1) * 10)%nat then
                match sem_map_grow (vo_map ok) (si_e s) (length m * 2) with
                | Some m' => (set_dense s e' cap (ot_set m' id n), true)
                | None => (set_dense s (si_e s) cap m, false)
                end
              else (set_dense s e' cap (ot_set m id n), true)
      end
  end.

(** The last entry moves into the hole. *)
Definition dense_remove (s : SemanticIndex) (synid : Z) : SemanticIndex :=
  if (length (si_map s) =? 0)%nat then s
  else
    let j := map_probe (si_map s) synid in
    match si_map s !! j with
    | Some (Some (_, idx)) =>
        let m := delete_at (si_map s) j in
        let n := (length (si_e s) - 1)%nat in
        match si_e s !! n with
        | Some moved =>
            if (idx =? n)%nat then set_dense s (take n (si_e s)) (si_cap s) m
            else set_dense s (take n (<[idx := moved]> (si_e s))) (si_cap s) (ot_set m (se_id moved) idx)
        | None => set_dense s (si_e s) (si_cap s) m
        end
    | _ => s
    end.

Definition delta_push (darr dcopy : bool) (s : SemanticIndex) (synid : Z) (vec : option (list Z)) : SemanticIndex :=
  let full := (length (si_deltas s) =? si_deltacap s)%nat in
  if full && negb darr then set_build s (si_building s) true
  else
    let cap := if full then (if (si_deltacap s =? 0)%nat then 64%nat else (si_deltacap s * 2)%nat) else si_deltacap s in
    let s := set_deltas s (si_deltas s) cap in
    if (match vec with Some _ => negb dcopy | None => false end) then set_build s (si_building s) true
    else set_deltas s (si_deltas s ++ [mkSemDelta synid vec]) cap.

(** ** One vector *)

Definition vec_add (ok : VecOks) (s : SemanticIndex) (synid : Z) (vec : list Z) : SemanticIndex * bool :=
  if graph_present s then
    let i := shard_index synid (length (si_shards s)) in
    match si_shards s !! i with
    | Some g => let '(g', b) := hnsw_add (vo_rb ok) (vo_add ok) g synid vec (si_dim s) in (set_shards s (<[i := g']> (si_shards s)), b)
    | None => (s, false)
    end
  else
    match dense_put ok s synid vec with
    | (s, false) => (s, false)
    | (s, true) => ((if si_building s then delta_push (vo_darr ok) (vo_dcopy ok) s synid (Some vec) else s), true)
    end.

Definition vec_remove (ok : VecOks) (s : SemanticIndex) (synid : Z) : SemanticIndex :=
  if graph_present s then
    let i := shard_index synid (length (si_shards s)) in
    match si_shards s !! i with
    | Some g => set_shards s (<[i := hnsw_remove (vo_rb ok) g synid]> (si_shards s))
    | None => s
    end
  else
    let s := dense_remove s synid in
    if si_building s then delta_push (vo_darr ok) (vo_dcopy ok) s synid None else s.

(** ** Records *)

(** Slots [k, k + 1, ...] of the record. *)
Fixpoint remove_slots (ok : nat -> VecOks) (n : nat) (s : SemanticIndex) (id : Z) (slot : nat) : SemanticIndex :=
  match n with O => s | S n' => remove_slots ok n' (vec_remove (ok slot) s (mv_syn id slot)) id (S slot) end.
Fixpoint add_slots (ok : nat -> VecOks) (s : SemanticIndex) (id : Z) (slot : nat) (vecs : list (list Z)) : SemanticIndex * bool :=
  match vecs with
  | [] => (s, true)
  | v :: vecs' =>
      match vec_add (ok slot) s (mv_syn id slot) v with
      | (s, true) => add_slots ok s id (S slot) vecs'
      | (s, false) => (s, false)
      end
  end.

(** Outcomes of an addition: of the removals, of the additions, of the count
    table and its doubling. *)
Record SemOks := mkSemOks { so_rem : nat -> VecOks; so_add : nat -> VecOks; so_rc0 : bool; so_rc : bool }.

(** [vecs]: the [vec_count] vectors of the argument, [dim] floats each. *)
Definition semantic_index_add (ok : SemOks) (s : SemanticIndex) (id : Z) (vecs : list (list Z)) (dim : nat) : SemanticIndex * bool :=
  if negb (dim =? si_dim s)%nat || (length vecs =? 0)%nat || (64 <? length vecs)%nat then (s, false)
  else
    let s := remove_slots (so_rem ok) (rc_get s id) s id 0 in
    match add_slots (so_add ok) s id 0 vecs with
    | (s, false) => (s, false)
    | (s, true) => rc_set (so_rc0 ok) (so_rc ok) s id (length vecs)
    end.

Definition semantic_index_remove (ok : nat -> VecOks) (s : SemanticIndex) (id : Z) : SemanticIndex :=
  rc_del (remove_slots ok (rc_get s id) s id 0) id.

(** The records held, then those not kept removed one by one. *)
Definition semantic_index_reconcile (ok : bool) (oks : Z -> nat -> VecOks) (keep : Z -> bool) (s : SemanticIndex) : SemanticIndex :=
  if ok then foldl (fun s rec => if keep rec then s else semantic_index_remove (oks rec) s rec) s (entries (si_rc s)).*1 else s.

(** ** Building the graphs *)

Definition HNSW_BUILD_SEED : Z := 0x9E3779B97F4A7C15.
Definition build_params (ef : nat) (quantize : bool) : HnswParams := mkHnswParams 0 0 ef HNSW_BUILD_SEED quantize.

(** Outcomes of a graph's construction: the shell, then each insertion. *)
Record GraphOks := mkGraphOks { go_create : bool; go_add : nat -> AddOks; go_rb : nat -> RebuildOks }.

Fixpoint build_graph (ok : GraphOks) (k : nat) (h : Hnsw) (dim : nat) (vecs : list (Z * list Z)) : option Hnsw :=
  match vecs with
  | [] => Some h
  | (id, v) :: vecs' =>
      match hnsw_add (go_rb ok k) (go_add ok k) h id v dim with
      | (h, true) => build_graph ok (S k) h dim vecs'
      | (_, false) => None
      end
  end.

Definition semantic_index_build_now (ok : GraphOks) (okarr : bool) (s : SemanticIndex) : SemanticIndex * bool :=
  if graph_present s then (s, false)
  else
    match hnsw_create (go_create ok) (si_dim s) (Some (build_params (si_ef s) (si_quantize s))) with
    | None => (s, false)
    | Some h =>
        match build_graph ok 0 h (si_dim s) (map (fun e => (se_id e, se_vec e)) (si_e s)) with
        | None => (s, false)
        | Some h => if okarr then (drop_dense (set_shards s [h]), true) else (s, false)
        end
    end.

Definition semantic_index_needs_build (s : SemanticIndex) : bool :=
  negb (graph_present s) && negb (si_building s) && (si_threshold s <=? length (si_e s))%nat.

Definition semantic_index_build_begin (ok : bool) (env : option Z) (cpus : Z) (s : SemanticIndex) : SemanticIndex * option SemBuildJob :=
  if negb (semantic_index_needs_build s) then (s, None)
  else if negb ok then (s, None)
  else
    (set_build s true false,
     Some (mkSemBuildJob (si_dim s) (map (fun e => (se_id e, se_vec e)) (si_e s)) (si_ef s) (si_quantize s) []
             (pick_nshards env cpus (length (si_e s)) (si_target s)) [])).

(** The snapshot's vectors of one shard, in order. *)
Definition shard_vecs (j : SemBuildJob) (shard : nat) : list (Z * list Z) :=
  filter (fun p => shard_index p.1 (jb_nshards j) = shard) (jb_vecs j).
Definition build_shard_worker (ok : GraphOks) (j : SemBuildJob) (shard : nat) : option Hnsw :=
  match hnsw_create (go_create ok) (jb_dim j) (Some (build_params (jb_ef j) (jb_quantize j))) with
  | None => None
  | Some h => build_graph ok 0 h (jb_dim j) (shard_vecs j shard)
  end.

(** Every shard writes its own result, so the order the threads run in does
    not matter. *)
Definition semantic_index_build_run (ok : bool) (oks : nat -> GraphOks) (j : SemBuildJob) : SemBuildJob * bool :=
  if negb ok then (j, false)
  else
    let P := if (jb_nshards j =? 0)%nat then 1%nat else jb_nshards j in
    match mapM (fun i => build_shard_worker (oks i) j i) (seq 0 P) with
    | Some shards => (set_job_shards j shards, true)
    | None => (j, false)
    end.

Definition semantic_index_build_take_deltas (s : SemanticIndex) (j : SemBuildJob) : SemanticIndex * SemBuildJob * nat :=
  (set_deltas s [] 0, set_pending j (si_deltas s), length (si_deltas s)).

Definition semantic_index_build_failed (s : SemanticIndex) : bool := si_failed s.

(** Every delta is replayed, failures are remembered. *)
Definition apply_delta (rb : RebuildOks) (ok : AddOks) (dim nshards : nat) (g : list Hnsw * bool) (d : SemDelta) : list Hnsw * bool :=
  let '(shards, rc) := g in
  let i := shard_index (dl_synid d) nshards in
  match shards !! i with
  | None => (shards, rc)
  | Some h =>
      match dl_vec d with
      | Some v => let '(h', b) := hnsw_add rb ok h (dl_synid d) v dim in (<[i := h']> shards, rc && b)
      | None => (<[i := hnsw_remove rb h (dl_synid d)]> shards, rc)
      end
  end.
Fixpoint apply_deltas (rb : nat -> RebuildOks) (ok : nat -> AddOks) (k : nat) (dim nshards : nat) (g : list Hnsw * bool) (ds : list SemDelta) : list Hnsw * bool :=
  match ds with
  | [] => g
  | d :: ds' => apply_deltas rb ok (S k) dim nshards (apply_delta (rb k) (ok k) dim nshards g d) ds'
  end.
Definition semantic_index_build_apply (rb : nat -> RebuildOks) (ok : nat -> AddOks) (j : SemBuildJob) : SemBuildJob * bool :=
  let '(shards, rc) := apply_deltas rb ok 0 (jb_dim j) (jb_nshards j) (jb_shards j, true) (jb_pending j) in
  (set_pending (set_job_shards j shards) [], rc).

(** [shards_free] reads the array for each graph it frees: [false] stands for
    the read through an array that is not there. *)
Definition shards_free (shards : list Hnsw) (n : nat) : bool := (n <=? length shards)%nat.

(** [None]: the job is freed before it has graphs, and the process crashes. *)
Definition semantic_index_build_abort (s : SemanticIndex) (j : SemBuildJob) : option SemanticIndex :=
  if shards_free (jb_shards j) (jb_nshards j) then Some (set_deltas (set_build s false false) [] 0) else None.

Definition semantic_index_build_commit (rb : nat -> RebuildOks) (ok : nat -> AddOks) (s : SemanticIndex) (j : SemBuildJob) : option (SemanticIndex * bool) :=
  if si_failed s then option_map (fun s => (s, false)) (semantic_index_build_abort s j)
  else
    let '(s, j, _) := semantic_index_build_take_deltas s j in
    match semantic_index_build_apply rb ok j with
    | (j, false) => option_map (fun s => (s, false)) (semantic_index_build_abort s j)
    | (j, true) => Some (drop_dense (set_build (set_shards s (jb_shards j)) false (si_failed s)), true)
    end.

(** ** The maintenance step *)

(** [db_semantic_build_step], cut at the points where it holds no lock; the
    writers run between them. *)
Inductive BuildPhase :=
  | Idle
  | Begun (j : SemBuildJob)
  | CatchUp (j : SemBuildJob) (round : nat)
  | Taken (j : SemBuildJob) (took round : nat)
  | Failing (j : SemBuildJob)
  | Converged (j : SemBuildJob).

Definition SEM_BUILD_COMMIT_MAX : nat := 512.
Definition SEM_BUILD_MAX_ROUNDS : nat := 16.

(** Outcomes of the allocations, and the environment a build reads. *)
Record MaintOks := mkMaintOks {
  mo_begin : bool; mo_env : option Z; mo_cpus : Z; mo_run : bool; mo_graph : nat -> GraphOks; mo_rb : nat -> RebuildOks; mo_add : nat -> AddOks
}.

Definition db_semantic_build_step (ok : MaintOks) (s : SemanticIndex) (ph : BuildPhase) : option (SemanticIndex * BuildPhase) :=
  match ph with
  | Idle =>
      match semantic_index_build_begin (mo_begin ok) (mo_env ok) (mo_cpus ok) s with
      | (s, Some j) => Some (s, Begun j)
      | (s, None) => Some (s, Idle)
      end
  | Begun j =>
      match semantic_index_build_run (mo_run ok) (mo_graph ok) j with
      | (j, true) => Some (s, CatchUp j 0)
      | (j, false) => Some (s, Failing j)
      end
  | CatchUp j round =>
      if (round <? SEM_BUILD_MAX_ROUNDS)%nat then
        if semantic_index_build_failed s then Some (s, Failing j)
        else let '(s, j, took) := semantic_index_build_take_deltas s j in Some (s, Taken j took round)
      else Some (s, Failing j)
  | Taken j took round =>
      match semantic_index_build_apply (mo_rb ok) (mo_add ok) j with
      | (j, true) => Some (s, if (took <=? SEM_BUILD_COMMIT_MAX)%nat then Converged j else CatchUp j (S round))
      | (j, false) => Some (s, Failing j)
      end
  | Failing j => option_map (fun s => (s, Idle)) (semantic_index_build_abort s j)
  | Converged j => option_map (fun r => (fst r, Idle)) (semantic_index_build_commit (mo_rb ok) (mo_add ok) s j)
  end.

(** ** Search *)

Record Scored := mkScored { sc_id : Z; sc_score : spec_float }.

(** [cmp_scored_desc] *)
Definition cmp_scored_desc (a b : Scored) : Z :=
  if SFltb (sc_score a) (sc_score b) then 1 else if SFltb (sc_score b) (sc_score a) then -1 else 0.

(** Nearer the root: the lower score. *)
Definition lower (x y : Scored) : bool := SFltb (sc_score x) (sc_score y).
Definition scored_sift_down (a : list Scored) (n i : nat) : list Scored := sift_down lower n n a i.

(** One candidate: a record met before keeps its best score. *)
Definition dedup_step (st : list (option (Z * nat)) * list Scored) (c : Scored) : list (option (Z * nat)) * list Scored :=
  let '(ds, uni) := st in
  match ds !! map_probe ds (sc_id c) with
  | Some (Some (_, idx)) =>
      (ds, alter (fun u => if SFltb (sc_score u) (sc_score c) then mkScored (sc_id u) (sc_score c) else u) idx uni)
  | _ => (ot_set ds (sc_id c) (length uni), uni ++ [c])
  end.

Definition dedup (cand : list Scored) : list Scored :=
  snd (foldl dedup_step (replicate (double_to (length cand) 16 (length cand * 2)) None, []) cand).

(** The [k] best of [uni] in its first [k] places. *)
Definition heapify (k : nat) (uni : list Scored) : list Scored :=
  foldl (fun a i => scored_sift_down a k i) uni (rev (seq 0 (k / 2))).
Definition evict (k : nat) (a : list Scored) (i : nat) : list Scored :=
  match a !! i, a !! 0%nat with
  | Some x, Some root => if SFltb (sc_score root) (sc_score x) then scored_sift_down (<[0%nat := x]> a) k 0 else a
  | _, _ => a
  end.
Definition select_top (k : nat) (uni : list Scored) : list Scored :=
  foldl (evict k) (heapify k uni) (seq k (length uni - k)).

Definition dedup_topk (ok okout : bool) (cand : list Scored) (top_k : nat) : option (list (Z * spec_float)) :=
  if negb ok then None
  else
    let uni := dedup cand in
    let k := if negb (top_k =? 0)%nat && (top_k <? length uni)%nat then top_k else length uni in
    let uni := if (k <? length uni)%nat then select_top k uni else uni in
    let best := vk_qsort cmp_scored_desc (take k uni) in
    if okout then Some (map (fun u => (sc_id u, sc_score u)) best) else None.

(** The candidates of every shard in turn, up to the capacity reserved. *)
Record SearchOks := mkSearchOks { sk_cand : bool; sk_beam : nat -> BeamOks; sk_shard : nat -> bool; sk_dedup : bool; sk_out : bool }.

Fixpoint shard_candidates (ok : SearchOks) (k : nat) (shards : list Hnsw) (query : list Z) (dim per ef cap : nat) (cand : list Scored) : option (list Scored) :=
  match shards with
  | [] => Some cand
  | g :: shards' =>
      let fetch := if (per <? hnsw_count g)%nat then per else hnsw_count g in
      if (fetch =? 0)%nat then shard_candidates ok (S k) shards' query dim per ef cap cand
      else
        match hnsw_search (sk_beam ok k) (sk_shard ok k) g query dim fetch ef with
        | None => None
        | Some ans =>
            shard_candidates ok (S k) shards' query dim per ef cap
              (cand ++ take (cap - length cand) (map (fun p => mkScored (mv_rec p.1) p.2) ans))
        end
  end.

(** Every stored vector is scored. *)
Definition dense_score (query : list Z) (e : SemEntry) : spec_float :=
  let denom := f32_mul (se_norm e) (vk_norm query) in
  if SFltb f32_zero denom then f32_div (vk_dot (se_vec e) query) denom else f32_zero.
Definition dense_candidates (query : list Z) (e : list SemEntry) : list Scored :=
  omap (fun x => if se_used x then Some (mkScored (mv_rec (se_id x)) (dense_score query x)) else None) e.

Definition semantic_index_search (ok : SearchOks) (s : SemanticIndex) (query : list Z) (dim top_k : nat) : option (list (Z * spec_float)) :=
  if negb (dim =? si_dim s)%nat then None
  else if graph_present s then
    let want := if (top_k =? 0)%nat then graph_count s else top_k in
    if (want =? 0)%nat then if sk_out ok then Some [] else None
    else
      let per := (want * 2)%nat in
      let cap := foldl (fun n g => n + (if (per <? hnsw_count g)%nat then per else hnsw_count g))%nat 0%nat (si_shards s) in
      if negb (sk_cand ok) then None
      else match shard_candidates ok 0 (si_shards s) query dim per (si_ef s) cap [] with
           | None => None
           | Some cand => dedup_topk (sk_dedup ok) (sk_out ok) cand top_k
           end
  else if negb (sk_cand ok) then None
  else dedup_topk (sk_dedup ok) (sk_out ok) (dense_candidates query (si_e s)) top_k.

(** ** Loading *)

(** The count of each record covers the slots of its live nodes; [ok] are the
    outcomes for the count table. *)
Definition rc_rebuild_cb (ok : Z -> bool * bool) (synid : Z) (vec : list Z) (st : SemanticIndex * bool) : SemanticIndex * bool * bool :=
  let '(s, err) := st in
  let rec := mv_rec synid in
  let slot := mv_slot synid in
  if (rc_get s rec <? slot + 1)%nat then
    match rc_set (fst (ok synid)) (snd (ok synid)) s rec (slot + 1) with
    | (s, true) => (s, err, false)
    | (s, false) => (s, true, true)
    end
  else (s, err, false).

(** [file]: what [hnsw_load] answers. *)
Definition semantic_index_load (okarr okwalk : bool) (ok : Z -> bool * bool) (file : option (Hnsw * Z)) (s : SemanticIndex) : SemanticIndex * option Z :=
  if graph_present s || negb (length (si_e s) =? 0)%nat then (s, None)
  else
    match file with
    | None => (s, None)
    | Some (g, covered) =>
        if negb (eqb (hnsw_is_quantized g) (si_quantize s)) then (s, None)
        else if negb okarr then (s, None)
        else
          match hnsw_foreach_live okwalk (rc_rebuild_cb ok) g (set_shards s [g], false) with
          | (s, true) => (semantic_index_clear s, None)
          | (s, false) => (s, Some covered)
          end
    end.
End semantic.
