(* ===== verification/SemanticTopK.v ===== *)
(** * The best records of a list of candidates

    [dedup_topk] of [src/storage/semantic_index.c]: one entry per record with
    its best score, the [k] best of them kept in a heap, sorted. *)

From S2P Require Import Prelude Endian Floats OpenTable BinaryHeap Hnsw HnswCorrect SemanticIndex.

(** ** Positions by key *)

Section positions.
Context {A : Type} (f : A -> Z).

Definition positions (l : list A) : list (Z * nat) := imap (fun i x => (f x, i)) l.
Definition pos_map (l : list A) : gmap Z nat := list_to_map (positions l).

Lemma positions_keys l : (positions l).*1 = f <$> l.
Proof. unfold positions. rewrite fmap_imap. cbn. by rewrite <- (imap_const f). Qed.

Lemma length_positions l : length (positions l) = length l.
Proof. apply length_imap. Qed.

Lemma pos_map_lookup l k i : NoDup (f <$> l) -> pos_map l !! k = Some i <-> exists x, l !! i = Some x /\ f x = k.
Proof.
  intros Hn. unfold pos_map. rewrite <- elem_of_list_to_map by (by rewrite positions_keys). unfold positions. rewrite elem_of_lookup_imap. split.
  - intros (j & x & E & Hj). injection E as -> ->. by exists x.
  - intros (x & Hx & <-). by exists i, x.
Qed.

Lemma pos_map_snoc l x : NoDup (f <$> (l ++ [x])) -> pos_map (l ++ [x]) = <[f x := length l]> (pos_map l).
Proof.
  intros Hn. unfold pos_map, positions. rewrite imap_app. cbn. rewrite Nat.add_0_r. apply list_to_map_snoc. fold (positions l). rewrite positions_keys.
  rewrite fmap_app in Hn. apply NoDup_app in Hn as (_ & Hn & _). intros Hin. apply (Hn _ Hin). by left.
Qed.

Lemma pos_map_size l : NoDup (f <$> l) -> size (pos_map l) = length l.
Proof.
  intros Hn. unfold pos_map. rewrite <- (length_positions l), <- (size_dom (D := gset Z)), dom_list_to_map_L, size_list_to_set, length_fmap; [done|]. by rewrite positions_keys.
Qed.

Lemma pos_map_alter l g i : (forall x, f (g x) = f x) -> pos_map (alter g i l) = pos_map l.
Proof.
  intros Hg. unfold pos_map. f_equal. unfold positions. apply list_eq. intros j. rewrite !list_lookup_imap.
  destruct (decide (i = j)) as [->|Hne]; [rewrite list_lookup_alter_eq|by rewrite list_lookup_alter_ne]. destruct (l !! j); [|done]. cbn. by rewrite Hg.
Qed.
End positions.

Lemma fmap_alter_same {A B} (f : A -> B) g i (l : list A) : (forall x, f (g x) = f x) -> f <$> alter g i l = f <$> l.
Proof.
  intros Hg. apply list_eq. intros j. rewrite !list_lookup_fmap. destruct (decide (i = j)) as [->|Hne]; [rewrite list_lookup_alter_eq|by rewrite list_lookup_alter_ne].
  destruct (l !! j); [|done]. cbn. by rewrite Hg.
Qed.

(** ** One entry per record *)

Lemma double_to_reach n c want : (want <= c * 2 ^ n)%nat -> (want <= double_to n c want)%nat.
Proof.
  revert c. induction n as [|n IH]; intros c Hw; cbn [double_to]; [cbn in Hw; lia|]. destruct (Nat.ltb_spec c want); [|lia]. apply IH. cbn [Nat.pow] in Hw. lia.
Qed.

(** [u] is a candidate and no candidate of its record scores higher. *)
Definition best_of (cand : list Scored) (u : Scored) : Prop :=
  u ∈ cand /\ forall c, c ∈ cand -> sc_id c = sc_id u -> SFltb (sc_score u) (sc_score c) = false.

Record dedup_ok (cap : nat) (seen : list Scored) (st : list (option (Z * nat)) * list Scored) : Prop := {
  dd_table : ot_wf st.1;
  dd_cap : length st.1 = cap;
  dd_map : ot_map st.1 = pos_map sc_id st.2;
  dd_ids : NoDup (sc_id <$> st.2);
  dd_best : Forall (best_of seen) st.2;
  dd_all : Forall (fun c => sc_id c ∈ (sc_id <$> st.2)) seen;
  dd_len : (length st.2 <= length seen)%nat
}.

Definition raise (c u : Scored) : Scored := if SFltb (sc_score u) (sc_score c) then mkScored (sc_id u) (sc_score c) else u.

Lemma raise_id c u : sc_id (raise c u) = sc_id u.
Proof. unfold raise. by destruct (SFltb _ _). Qed.

Lemma raise_best seen c u : best_of seen u -> sc_id u = sc_id c -> best_of (seen ++ [c]) (raise c u).
Proof.
  intros [Hin Hb] E. unfold raise. destruct (SFltb (sc_score u) (sc_score c)) eqn:Hl.
  - rewrite E. replace (mkScored (sc_id c) (sc_score c)) with c by (by destruct c). split; [apply elem_of_app; right; by left|]. intros c' Hc' Ec'.
    apply elem_of_app in Hc' as [Hc'|Hc']; [|apply list_elem_of_singleton in Hc' as ->; apply sf_ltb_irrefl].
    specialize (Hb c' Hc' ltac:(congruence)). destruct (SFltb (sc_score c) (sc_score c')) eqn:El; [|done]. by rewrite (sf_ltb_trans _ _ _ Hl El) in Hb.
  - split; [apply elem_of_app; by left|]. intros c' Hc' Ec'. apply elem_of_app in Hc' as [Hc'|Hc']; [by apply Hb|]. by apply list_elem_of_singleton in Hc' as ->.
Qed.

Lemma best_other seen c u : best_of seen u -> sc_id u <> sc_id c -> best_of (seen ++ [c]) u.
Proof.
  intros [Hin Hb] E. split; [apply elem_of_app; by left|]. intros c' Hc' Ec'. apply elem_of_app in Hc' as [Hc'|Hc']; [by apply Hb|].
  apply list_elem_of_singleton in Hc' as ->. congruence.
Qed.

Lemma dedup_step_ok cap seen st c : dedup_ok cap seen st -> (length seen + 1 < cap)%nat -> dedup_ok cap (seen ++ [c]) (dedup_step st c).
Proof.
  destruct st as [ds uni]. intros [W Hc Hm Hn Hb Ha Hl] Hcap. cbn [fst snd] in *. unfold dedup_step.
  pose proof (map_probe_cases ds (sc_id c) W) as Hp. rewrite Hm in Hp. destruct (pos_map sc_id uni !! sc_id c) as [idx|] eqn:Ep.
  - rewrite Hp. apply pos_map_lookup in Ep as (u & Hu & Eu); [|done]. fold (raise c). split; cbn [fst snd].
    + done.
    + done.
    + by rewrite pos_map_alter by (apply raise_id).
    + by rewrite fmap_alter_same by (apply raise_id).
    + rewrite Forall_lookup. intros j x Hx. rewrite Forall_lookup in Hb. destruct (decide (idx = j)) as [<-|Hne].
      * rewrite list_lookup_alter_eq, Hu in Hx. injection Hx as <-. apply raise_best; [by eapply Hb|done].
      * rewrite list_lookup_alter_ne in Hx by done. apply best_other; [by eapply Hb|]. intros E. apply Hne.
        eapply (NoDup_lookup _ _ _ (sc_id u) Hn); rewrite list_lookup_fmap; [by rewrite Hu|rewrite Hx; cbn; congruence].
    + rewrite fmap_alter_same by (apply raise_id). apply Forall_app. split; [done|]. apply Forall_singleton. apply list_elem_of_fmap. exists u. split; [done|]. by eapply list_elem_of_lookup_2.
    + rewrite length_alter, length_app. lia.
  - destruct Hp as [-> _].
    assert (forall u, u ∈ uni -> sc_id u <> sc_id c) as Hfresh.
    { intros u Hu E. apply list_elem_of_lookup in Hu as [i Hi]. assert (pos_map sc_id uni !! sc_id c = Some i) by (apply pos_map_lookup; [done|by exists u]). congruence. }
    assert (NoDup (sc_id <$> (uni ++ [c]))) as Hn'.
    { rewrite fmap_app. apply NoDup_app. split; [done|]. split; [|apply NoDup_singleton]. intros x Hx Hx'. apply list_elem_of_fmap in Hx as (u & -> & Hu).
      apply list_elem_of_singleton in Hx'. by eapply Hfresh. }
    destruct (ot_set_spec ds (sc_id c) (length uni) W) as [W' E']; [left; rewrite <- (ot_map_size _ W), Hm, pos_map_size by done; lia|].
    split; cbn [fst snd]; [done|by rewrite length_ot_set|by rewrite E', pos_map_snoc, Hm|done| | |rewrite !length_app; cbn; lia].
    + apply Forall_app. split.
      * rewrite Forall_forall in Hb |- *. intros u Hu. apply best_other; [by apply Hb|by apply Hfresh].
      * apply Forall_singleton. split; [apply elem_of_app; right; by left|]. intros c' Hc' Ec'. apply elem_of_app in Hc' as [Hc'|Hc'].
        -- rewrite Forall_forall in Ha. specialize (Ha c' Hc'). rewrite Ec' in Ha. apply list_elem_of_fmap in Ha as (u & Eu & Hu). by destruct (Hfresh u Hu).
        -- apply list_elem_of_singleton in Hc' as ->. apply sf_ltb_irrefl.
    + rewrite fmap_app. apply Forall_app. split; [|apply Forall_singleton, elem_of_app; right; by left]. eapply Forall_impl; [exact Ha|]. intros x Hx. apply elem_of_app. by left.
Qed.

Lemma dedup_spec (cand : list Scored) :
  NoDup (sc_id <$> dedup cand) /\ Forall (best_of cand) (dedup cand) /\ Forall (fun c => sc_id c ∈ (sc_id <$> dedup cand)) cand.
Proof.
  unfold dedup. set (cap := double_to (length cand) 16 (length cand * 2)).
  assert (length cand < cap)%nat as Hcap.
  { subst cap. pose proof (double_to_ge (length cand) 16 (length cand * 2)). assert (length cand * 2 <= double_to (length cand) 16 (length cand * 2))%nat; [|lia].
    apply double_to_reach. pose proof (Nat.pow_gt_lin_r 2 (length cand) ltac:(lia)). nia. }
  assert (forall rest seen st, dedup_ok cap seen st -> (length seen + length rest < cap)%nat -> dedup_ok cap (seen ++ rest) (foldl dedup_step st rest)) as Hf.
  { induction rest as [|c rest IH]; intros seen st Hst Hl; cbn [foldl]; [by rewrite app_nil_r|]. rewrite (cons_middle c seen rest), app_assoc. cbn [length] in Hl.
    apply IH; [apply dedup_step_ok; [done|lia]|rewrite length_app; cbn; lia]. }
  destruct (Hf cand [] (replicate cap None, [])) as [_ _ _ Hn Hb Ha _]; [|done|done].
  assert (pow2 cap) by (apply double_to_pow2; by exists 4%nat). split; cbn [fst snd]; try done.
  - by apply empty_table_wf.
  - apply length_replicate.
  - unfold ot_map. by rewrite empty_table.
  - constructor.
Qed.

(** ** The sift works in the first [k] places *)

Section prefix.
Context {A : Type} (better : A -> A -> bool).

Lemma better_at_app (h t : list A) i j : (i < length h)%nat -> (j < length h)%nat -> better_at better (h ++ t) i j = better_at better h i j.
Proof. intros Hi Hj. unfold better_at. by rewrite !lookup_app_l. Qed.

Lemma swap_at_app (h t : list A) i j : (i < length h)%nat -> (j < length h)%nat -> swap_at (h ++ t) i j = swap_at h i j ++ t.
Proof.
  intros Hi Hj. unfold swap_at. rewrite !lookup_app_l by done. destruct (h !! i); [|done]. destruct (h !! j); [|done].
  by rewrite !insert_app_l by (by rewrite ?length_insert).
Qed.

Lemma sift_child_app (h t : list A) i : (i < length h)%nat ->
  sift_child better (length h) (h ++ t) i = sift_child better (length h) h i /\ (sift_child better (length h) h i < length h)%nat.
Proof.
  intros Hi. unfold sift_child. cbn zeta.
  assert (forall c j, (j < length h)%nat -> (c <? length h)%nat && better_at better (h ++ t) c j = (c <? length h)%nat && better_at better h c j) as Hb.
  { intros c j Hj. destruct (Nat.ltb_spec c (length h)); [|done]. cbn [andb]. by apply better_at_app. }
  rewrite (Hb _ i) by done. set (b := if (2 * i + 1 <? length h)%nat && better_at better h (2 * i + 1) i then (2 * i + 1)%nat else i).
  assert (b < length h)%nat as Hbl by (subst b; destruct (Nat.ltb_spec (2 * i + 1) (length h)); cbn [andb]; [by destruct (better_at _ _ _ _)|done]).
  clearbody b. rewrite (Hb _ b) by done. split; [done|]. destruct (Nat.ltb_spec (2 * i + 2) (length h)); cbn [andb]; [by destruct (better_at _ _ _ _)|done].
Qed.

Lemma sift_down_app n (h t : list A) i : (i < length h)%nat -> sift_down better n (length h) (h ++ t) i = sift_down better n (length h) h i ++ t.
Proof.
  revert h i. induction n as [|n IH]; intros h i Hi; cbn [sift_down]; [done|]. destruct (sift_child_app h t i Hi) as [-> Hc].
  destruct (_ =? _)%nat; [done|]. rewrite swap_at_app by done. set (c := sift_child better (length h) h i) in *. clearbody c.
  pose proof (IH (swap_at h i c) c) as IHc. rewrite length_swap_at in IHc. by apply IHc.
Qed.
End prefix.

(** ** The [k] best *)

Definition number (u : Scored) : Prop := sc_score u <> S754_nan.

Lemma lower_irrefl x : number x -> lower x x = false.
Proof. intros _. apply sf_ltb_irrefl. Qed.
Lemma lower_trans x y z : number x -> number y -> number z -> lower x y = true -> lower y z = true -> lower x z = true.
Proof. intros _ _ _. apply sf_ltb_trans. Qed.
Lemma lower_neg_trans x y z : number x -> number y -> number z -> lower x y = false -> lower y z = false -> lower x z = false.
Proof. apply sf_ltb_neg_trans. Qed.

(** The heap in the first [k] places is [h], the rest is [t]. *)
Lemma sift_heap k (h : list Scored) i :
  Forall number h -> length h = k -> (i < k)%nat -> heap_but lower i i k h ->
  heap_from lower i k (scored_sift_down h k i) /\ scored_sift_down h k i ≡ₚ h /\ length (scored_sift_down h k i) = k.
Proof.
  intros Hn Hl Hi Hh. unfold scored_sift_down. split; [|split; [apply sift_down_perm|by rewrite (Permutation_length (sift_down_perm _ _ _ _ _))]].
  apply (sift_down_spec lower number lower_irrefl lower_trans lower_neg_trans); [done|lia|lia|done|lia].
Qed.

Lemma heapify_spec k (h t : list Scored) : Forall number h -> length h = k ->
  exists h', heapify k (h ++ t) = h' ++ t /\ h' ≡ₚ h /\ heap_from lower 0 k h'.
Proof.
  intros Hn Hl. unfold heapify.
  assert (forall m h1, (m <= k / 2)%nat -> h1 ≡ₚ h -> heap_from lower m k h1 ->
    exists h', foldl (fun a i => scored_sift_down a k i) (h1 ++ t) (rev (seq 0 m)) = h' ++ t /\ h' ≡ₚ h /\ heap_from lower 0 k h') as Hm.
  { induction m as [|m IH]; intros h1 Hmk Hp Hh; [by exists h1|]. rewrite seq_S, rev_app_distr, Nat.add_0_l. cbn [rev app foldl].
    assert (length h1 = k) as Hl1 by (by rewrite Hp). assert (Nat.div k 2 * 2 <= k)%nat by (pose proof (Nat.Div0.mul_div_le k 2); lia).
    assert (m < k)%nat as Hmk' by lia.
    destruct (sift_heap k h1 m) as (H1 & H2 & H3); [by rewrite Hp|done|done| |].
    - split; [|intros; pose proof (parent_lt m ltac:(lia)); lia]. intros j Hj Hpj Hne. apply Hh; [done|lia].
    - unfold scored_sift_down in *. replace (sift_down lower k k (h1 ++ t) m) with (sift_down lower k k h1 m ++ t) by (rewrite <- Hl1; symmetry; apply sift_down_app; lia).
      apply IH; [lia|by rewrite H2|done]. }
  apply Hm; [done|done|]. intros j Hj Hp. exfalso. unfold parent in Hp. pose proof (Nat.Div0.mul_div_le k 2). pose proof (Nat.mul_succ_div_gt k 2 ltac:(lia)).
  pose proof (Nat.Div0.mul_div_le (j - 1) 2). lia.
Qed.

(** What has been seen splits into the heap and what lost to it. *)
Definition split_best (k : nat) (seen h : list Scored) : Prop :=
  length h = k /\ heap_from lower 0 k h /\
  exists lost, h ++ lost ≡ₚ seen /\ forall x y, x ∈ h -> y ∈ lost -> SFltb (sc_score x) (sc_score y) = false.

Lemma heap_min k (h : list Scored) root rest : Forall number h -> length h = k -> heap_from lower 0 k h -> h = root :: rest ->
  forall x, x ∈ h -> SFltb (sc_score x) (sc_score root) = false.
Proof.
  intros Hn Hl Hh -> x Hx. apply list_elem_of_lookup in Hx as [j Hj]. pose proof (lookup_lt_Some _ _ _ Hj) as Hlt.
  pose proof (heap_root lower number lower_irrefl lower_neg_trans k (root :: rest) Hn ltac:(lia) Hh j ltac:(lia)) as Hb.
  by rewrite (better_at_lookup lower _ j 0 x root Hj eq_refl) in Hb.
Qed.

Lemma evict_step k (seen h mid : list Scored) x (t : list Scored) :
  (0 < k)%nat -> Forall number (seen ++ [x]) -> split_best k seen h ->
  exists h', evict k (h ++ mid ++ x :: t) (length h + length mid) = h' ++ mid ++ x :: t /\ split_best k (seen ++ [x]) h'.
Proof.
  intros Hk Hn (Hl & Hh & lost & Hp & Hlost). apply Forall_app in Hn as [Hns Hnx]. rewrite Forall_singleton in Hnx.
  assert (Forall number h /\ Forall number lost) as [Hnh Hnl] by (rewrite <- Hp in Hns; by apply Forall_app in Hns).
  unfold evict. rewrite lookup_app_r by lia. replace (length h + length mid - length h)%nat with (length mid) by lia. rewrite list_lookup_middle by done.
  assert (exists root rest, h = root :: rest) as (root & rest & Eh) by (destruct h; [cbn in Hl; lia|by eauto]).
  assert ((h ++ mid ++ x :: t) !! 0%nat = Some root) as -> by (by rewrite Eh).
  assert (forall y, y ∈ h -> SFltb (sc_score y) (sc_score root) = false) as Hmin by (intros y Hy; by eapply (heap_min k h root rest)).
  assert (number root) as Hnr by (rewrite Eh in Hnh; by apply Forall_cons in Hnh as [? _]).
  destruct (SFltb (sc_score root) (sc_score x)) eqn:Hx.
  - destruct (sift_heap k (x :: rest) 0) as (H1 & H2 & H3).
    { rewrite Eh in Hnh. apply Forall_cons in Hnh as [_ Hnh]. by apply Forall_cons. }
    { rewrite Eh in Hl. exact Hl. }
    { done. }
    { split; [|lia]. intros j Hj _ Hne. assert (0 < parent j)%nat as Hp0 by lia. pose proof (parent_lt j ltac:(lia)). specialize (Hh j Hj ltac:(lia)).
      unfold better_at in *. rewrite Eh in Hh. destruct j; [lia|]. by destruct (parent (S j)); [lia|]. }
    exists (scored_sift_down (x :: rest) k 0). split.
    + replace (<[0%nat := x]> (h ++ mid ++ x :: t)) with ((x :: rest) ++ mid ++ x :: t) by (by rewrite Eh).
      unfold scored_sift_down. assert (k = length (x :: rest)) as Ek by (rewrite <- Hl, Eh; done). rewrite Ek. apply sift_down_app. cbn; lia.
    + split; [done|]. split; [done|]. exists (root :: lost). split.
      * rewrite H2, <- Hp, Eh. cbn. rewrite (Permutation_app_comm (root :: rest ++ lost) [x]). cbn. apply perm_skip. by rewrite Permutation_middle.
      * intros a b Ha Hb. rewrite H2 in Ha. apply elem_of_cons in Hb as [->|Hb].
        -- apply elem_of_cons in Ha as [->|Ha]; [by apply sf_ltb_asym|]. apply Hmin. rewrite Eh. by right.
        -- apply elem_of_cons in Ha as [->|Ha]; [|apply Hlost; [rewrite Eh; by right|done]].
           destruct (SFltb (sc_score x) (sc_score b)) eqn:E; [|done]. pose proof (sf_ltb_trans _ _ _ Hx E) as Hc. rewrite Hlost in Hc; [done|rewrite Eh; by left|done].
  - exists h. split; [by rewrite Eh|]. split; [done|]. split; [done|]. exists (x :: lost). split.
    + rewrite <- Hp. rewrite (Permutation_app_comm (h ++ lost) [x]). cbn. by rewrite Permutation_middle.
    + intros a b Ha Hb. apply elem_of_cons in Hb as [->|Hb]; [|by apply Hlost]. rewrite Forall_forall in Hnh.
      apply (sf_ltb_neg_trans _ (sc_score root)); [by apply Hnh|done|done|by apply Hmin|done].
Qed.

Lemma select_top_spec k (uni : list Scored) : (0 < k <= length uni)%nat -> Forall number uni ->
  exists lost, length (take k (select_top k uni)) = k /\ take k (select_top k uni) ++ lost ≡ₚ uni /\
    forall x y, x ∈ take k (select_top k uni) -> y ∈ lost -> SFltb (sc_score x) (sc_score y) = false.
Proof.
  intros Hk Hn. unfold select_top. set (h0 := take k uni). set (t := drop k uni). assert (h0 ++ t = uni) as Eu by (apply take_drop).
  assert (length h0 = k) as Hl0 by (subst h0; rewrite length_take; lia).
  assert (Forall number h0 /\ Forall number t) as [Hn0 Hnt] by (rewrite <- Eu in Hn; by apply Forall_app in Hn).
  destruct (heapify_spec k h0 t Hn0 Hl0) as (h1 & Eh1 & Hp1 & Hh1). rewrite Eu in Eh1. rewrite Eh1.
  assert (length uni - k = length t)%nat as -> by (subst t; by rewrite length_drop).
  assert (forall rest mid seen h, t = mid ++ rest -> split_best k seen h -> Forall number seen -> seen ≡ₚ h0 ++ mid ->
    exists h', foldl (evict k) (h ++ t) (seq (k + length mid) (length rest)) = h' ++ t /\ split_best k (h0 ++ t) h') as Hf.
  { induction rest as [|x rest IH]; intros mid seen h Et Hs Hns Hp.
    - exists h. split; [done|]. destruct Hs as (L1 & L2 & lost & L3 & L4). split; [done|]. split; [done|]. exists lost. split; [|done]. by rewrite L3, Hp, Et, app_nil_r.
    - cbn [length seq foldl]. destruct (evict_step k seen h mid x rest ltac:(lia)) as (h' & E & Hs'); [| done |].
      { apply Forall_app. split; [done|]. apply Forall_singleton. rewrite Et in Hnt. apply Forall_app in Hnt as [_ Hnt]. by apply Forall_cons in Hnt as [? _]. }
      destruct Hs as (L1 & _). rewrite <- Et, L1 in E. rewrite E.
      replace (S (k + length mid)) with (k + length (mid ++ [x]))%nat by (rewrite length_app; cbn; lia). apply (IH (mid ++ [x]) (seen ++ [x]) h').
      + by rewrite Et, <- app_assoc.
      + done.
      + apply Forall_app. split; [done|]. apply Forall_singleton. rewrite Et in Hnt. apply Forall_app in Hnt as [_ Hnt]. by apply Forall_cons in Hnt as [? _].
      + rewrite Hp. by rewrite app_assoc. }
  destruct (Hf t [] h0 h1) as (h' & E' & Hl & _ & lost & Hp & Hlost).
  - done.
  - split; [by rewrite Hp1|]. split; [done|]. exists []. split; [by rewrite app_nil_r|]. intros x y _ Hy. by apply elem_of_nil in Hy.
  - done.
  - by rewrite app_nil_r.
  - exists lost. cbn [length] in E'. rewrite Nat.add_0_r in E'. rewrite E', take_app_length' by done. rewrite Eu in Hp. done.
Qed.

(** ** The answer *)

(** The best records: each once with its best score, in descending order, none
    left out that scores higher than one that is in, and as many as asked for
    or there are ([0] asks for all). *)
Record top_answer (cand : list Scored) (top_k : nat) (ans : list (Z * spec_float)) : Prop := {
  ta_ids : NoDup ans.*1;
  ta_sorted : StronglySorted (fun a b => SFltb a.2 b.2 = false) ans;
  ta_best : Forall (fun p => best_of cand (mkScored p.1 p.2)) ans;
  ta_out : forall c, c ∈ cand -> sc_id c ∉ ans.*1 -> Forall (fun p => SFltb p.2 (sc_score c) = false) ans;
  ta_len : length ans = let n := size (list_to_set (sc_id <$> cand) : gset Z) in if (top_k =? 0)%nat then n else Nat.min top_k n
}.

Lemma cmp_desc_le a b : cmp_scored_desc a b <= 0 <-> SFltb (sc_score a) (sc_score b) = false.
Proof.
  unfold cmp_scored_desc. destruct (SFltb (sc_score a) (sc_score b)); [split; [lia|done]|]. split; [done|]. destruct (SFltb _ _); lia.
Qed.

Lemma qsort_scored `{VecKernel} (l : list Scored) : Forall number l ->
  StronglySorted (fun a b => SFltb (sc_score a) (sc_score b) = false) (vk_qsort cmp_scored_desc l).
Proof.
  intros Hn. rewrite Forall_forall in Hn. assert (StronglySorted (fun a b => cmp_scored_desc a b <= 0) (vk_qsort cmp_scored_desc l)) as Hs.
  { apply vk_qsort_sorted.
    - intros a b. rewrite !cmp_desc_le. destruct (SFltb (sc_score a) (sc_score b)) eqn:E; [right; by apply sf_ltb_asym|by left].
    - intros a b c Ha Hb Hc. rewrite !cmp_desc_le. apply sf_ltb_neg_trans; by apply Hn. }
  induction Hs as [|x l' Hs IH Hf]; [constructor|]. constructor; [done|]. eapply Forall_impl; [exact Hf|]. intros y. apply cmp_desc_le.
Qed.

Definition scored_pair (u : Scored) : Z * spec_float := (sc_id u, sc_score u).

Lemma sorted_pairs (l : list Scored) : StronglySorted (fun a b => SFltb (sc_score a) (sc_score b) = false) l ->
  StronglySorted (fun a b => SFltb a.2 b.2 = false) (scored_pair <$> l).
Proof. induction 1 as [|x l Hs IH Hf]; [constructor|]. cbn. constructor; [done|]. by rewrite Forall_fmap. Qed.

(** The [k] best of the distinct records. *)
Lemma chosen_top (uni : list Scored) k : (k <= length uni)%nat -> Forall number uni ->
  let top := take k (if (k <? length uni)%nat then select_top k uni else uni) in
  exists lost, length top = k /\ top ++ lost ≡ₚ uni /\ forall x y, x ∈ top -> y ∈ lost -> SFltb (sc_score x) (sc_score y) = false.
Proof.
  intros Hk Hn. cbn zeta. destruct (Nat.ltb_spec k (length uni)) as [Hlt|Hge].
  - destruct (decide (k = 0%nat)) as [->|Hne]; [|apply select_top_spec; [lia|done]].
    exists uni. rewrite take_0. split_and!; try done. intros x y Hx. by apply elem_of_nil in Hx.
  - exists []. rewrite take_ge by lia. rewrite app_nil_r. split_and!; [lia|done|]. intros x y _ Hy. by apply elem_of_nil in Hy.
Qed.

Lemma dedup_topk_spec `{VecKernel} (cand : list Scored) (top_k : nat) : Forall number cand ->
  exists ans, dedup_topk true true cand top_k = Some ans /\ top_answer cand top_k ans.
Proof.
  intros Hn. unfold dedup_topk. cbn [negb]. cbn zeta. destruct (dedup_spec cand) as (Hids & Hbest & Hall). set (uni := dedup cand) in *.
  assert (length uni = size (list_to_set (sc_id <$> cand) : gset Z)) as Hlen.
  { rewrite <- (length_fmap sc_id uni), <- (size_list_to_set (C := gset Z) _ Hids). f_equal. apply set_eq. intros id. rewrite !elem_of_list_to_set. split.
    - intros Hin. apply list_elem_of_fmap in Hin as (u & -> & Hu). rewrite Forall_forall in Hbest. destruct (Hbest u Hu) as [Hc _]. by apply list_elem_of_fmap_2.
    - intros Hin. apply list_elem_of_fmap in Hin as (c & -> & Hc). rewrite Forall_forall in Hall. by apply Hall. }
  assert (Forall number uni) as Hnu.
  { rewrite Forall_forall in Hbest, Hn |- *. intros u Hu. apply Hn. by apply Hbest. }
  set (k := if negb (top_k =? 0)%nat && (top_k <? length uni)%nat then top_k else length uni).
  assert (k <= length uni /\ k = if (top_k =? 0)%nat then length uni else Nat.min top_k (length uni))%nat as [Hk Ek].
  { subst k. destruct (Nat.eqb_spec top_k 0), (Nat.ltb_spec top_k (length uni)); cbn [negb andb]; lia. }
  destruct (chosen_top uni k Hk Hnu) as (lost & Ht & Hp & Hlost). cbn zeta in *. set (top := take k _) in *. clearbody top.
  eexists. split; [reflexivity|]. change (map (fun u : Scored => (sc_id u, sc_score u))) with (fmap scored_pair : list Scored -> list (Z * spec_float)).
  assert (Forall (fun u => u ∈ uni) top) as Htop by (rewrite Forall_forall; intros u Hu; rewrite <- Hp; apply elem_of_app; by left).
  assert (NoDup (sc_id <$> top)) as Hnd by (rewrite <- Hp, fmap_app in Hids; by apply NoDup_app in Hids as (? & _)).
  assert (forall p, p ∈ (scored_pair <$> vk_qsort cmp_scored_desc top) -> exists u, p = scored_pair u /\ u ∈ top) as Hel.
  { intros p Hp'. apply list_elem_of_fmap in Hp' as (u & -> & Hu). rewrite vk_qsort_perm in Hu. by exists u. }
  split.
  - rewrite <- list_fmap_compose. change (fst ∘ scored_pair) with sc_id. by rewrite vk_qsort_perm.
  - apply sorted_pairs, qsort_scored. rewrite Forall_forall in Htop, Hnu |- *. intros u Hu. by apply Hnu, Htop.
  - rewrite Forall_forall. intros p Hp'. destruct (Hel p Hp') as (u & -> & Hu). rewrite Forall_forall in Htop, Hbest. specialize (Hbest u (Htop u Hu)). by destruct u.
  - intros c Hc Hno. rewrite Forall_forall in Hall. specialize (Hall c Hc). apply list_elem_of_fmap in Hall as (u & Eu & Hu).
    assert (u ∈ lost) as Hul.
    { rewrite <- Hp in Hu. apply elem_of_app in Hu as [Hu|Hu]; [|done]. exfalso. apply Hno. rewrite <- list_fmap_compose. change (fst ∘ scored_pair) with sc_id.
      rewrite vk_qsort_perm, Eu. by apply list_elem_of_fmap_2. }
    rewrite Forall_forall. intros p Hp'. destruct (Hel p Hp') as (x & -> & Hx). cbn [scored_pair snd]. rewrite Forall_forall in Hbest. destruct (Hbest u) as [_ Hb]; [by rewrite <- Hp; apply elem_of_app; right|].
    rewrite Forall_forall in Hnu, Hn, Htop. apply (sf_ltb_neg_trans _ (sc_score u)); [by apply Hnu, Htop|apply Hnu; rewrite <- Hp; apply elem_of_app; by right|by apply Hn|by apply Hlost|by apply Hb].
  - rewrite length_fmap, (Permutation_length (vk_qsort_perm _ _ _)), Ht, Ek, Hlen. done.
Qed.
