(* ===== verification/SemanticCorrect.v ===== *)
(** * The semantic index holds the vectors of the records

    The dense array, the count table and the sharded graphs as finite maps, the
    deferred build with its journal, and the index as a map from records to
    their vectors through any interleaving of writers with the maintenance
    step. *)

From S2P Require Import Prelude Endian Floats OpenTable BinaryHeap Hnsw HnswCorrect HnswAnswers SemanticIndex SemanticTopK.

(** ** Synthetic ids *)

Definition id_ok (id : Z) : Prop := 0 <= id < 2 ^ 58.

Lemma mv_syn_val id slot : id_ok id -> (slot < 64)%nat -> mv_syn id slot = id * 64 + Z.of_nat slot.
Proof.
  intros Hid Hs. unfold mv_syn, MV_SLOT_BITS. unfold id_ok in Hid. rewrite wrap_small.
  - rewrite Z.lor_comm, lor_shiftl_add; [lia|lia|unfold urange; lia|lia].
  - unfold urange. rewrite Z.shiftl_mul_pow2 by lia. lia.
Qed.

Lemma mv_rec_syn id slot : id_ok id -> (slot < 64)%nat -> mv_rec (mv_syn id slot) = id.
Proof. intros Hid Hs. rewrite mv_syn_val by done. unfold mv_rec, MV_SLOT_BITS. rewrite Z.shiftr_div_pow2 by lia. change (2 ^ 6) with 64. rewrite Z.div_add_l, Z.div_small by lia. lia. Qed.

Lemma mv_syn_inj id id' slot slot' : id_ok id -> id_ok id' -> (slot < 64)%nat -> (slot' < 64)%nat -> mv_syn id slot = mv_syn id' slot' -> id = id' /\ slot = slot'.
Proof. intros H1 H2 H3 H4. rewrite !mv_syn_val by done. lia. Qed.

Lemma shard_index_lt synid n : (0 < n)%nat -> (shard_index synid n < n)%nat.
Proof. intros Hn. unfold shard_index. destruct (Nat.ltb_spec 1 n); [|lia]. pose proof (Z.mod_pos_bound (mix64 synid) (Z.of_nat n) ltac:(lia)). lia. Qed.

(** ** The dense array *)

Definition entry_pair (e : SemEntry) : Z * list Z := (se_id e, se_vec e).

Section semantic.
Context `{VecKernel}.

Definition entry_ok (dim : nat) (e : SemEntry) : Prop := se_used e = true /\ se_norm e = vk_norm (se_vec e) /\ length (se_vec e) = dim.

(** The array stores [c], and the map finds its positions. *)
Record dense_rep (s : SemanticIndex) (c : gmap Z (list Z)) : Prop := {
  dr_table : table_ok (si_map s);
  dr_ids : NoDup (se_id <$> si_e s);
  dr_map : ot_map (si_map s) = pos_map se_id (si_e s);
  dr_entries : Forall (entry_ok (si_dim s)) (si_e s);
  dr_pairs : c = list_to_map (map entry_pair (si_e s))
}.

Lemma pairs_ids (e : list SemEntry) : (map entry_pair e).*1 = se_id <$> e.
Proof. change (map entry_pair e) with (entry_pair <$> e). by rewrite <- list_fmap_compose. Qed.

Lemma dense_lookup s c id v : dense_rep s c -> c !! id = Some v <-> exists i e, si_e s !! i = Some e /\ se_id e = id /\ se_vec e = v.
Proof.
  intros [_ Hn _ _ ->]. rewrite <- elem_of_list_to_map by (by rewrite pairs_ids). change (map entry_pair (si_e s)) with (entry_pair <$> si_e s). rewrite list_elem_of_fmap. split.
  - intros (e & E & Hin). injection E as -> ->. apply list_elem_of_lookup in Hin as [i Hi]. by exists i, e.
  - intros (i & e & Hi & <- & <-). exists e. split; [done|]. by eapply list_elem_of_lookup_2.
Qed.

Lemma dense_size s c : dense_rep s c -> size c = length (si_e s).
Proof.
  intros [_ Hn _ _ ->]. rewrite <- (size_dom (D := gset Z)), dom_list_to_map_L, pairs_ids, size_list_to_set by done. by rewrite length_fmap.
Qed.

(** The rest of the index is left alone. *)
Record dense_only (s s' : SemanticIndex) : Prop := {
  do_dim : si_dim s' = si_dim s; do_rc : si_rc s' = si_rc s; do_rcn : si_rcn s' = si_rcn s; do_shards : si_shards s' = si_shards s;
  do_building : si_building s' = si_building s; do_failed : si_failed s' = si_failed s; do_deltas : si_deltas s' = si_deltas s
}.

Definition dense_oks (ok : VecOks) : Prop := vo_map0 ok = true /\ vo_vec ok = true /\ vo_e ok = true /\ vo_map ok = true.

Lemma sem_map_grow_ok (e : list SemEntry) newcap : NoDup (se_id <$> e) -> pow2 newcap -> (length e < newcap)%nat ->
  exists t, sem_map_grow true e newcap = Some t /\ ot_wf t /\ ot_map t = pos_map se_id e /\ length t = newcap.
Proof.
  intros Hn Hp Hl. unfold sem_map_grow. destruct (rehash_into_spec newcap (dense_slots e)) as (W & E & L); [done| | |by eexists].
  - change (dense_slots e) with (positions se_id e). by rewrite positions_keys.
  - unfold dense_slots. by rewrite length_imap.
Qed.

(** The table a new entry goes to. *)
Lemma dense_first s c : dense_rep s c ->
  exists m, (if (length (si_map s) =? 0)%nat then sem_map_grow true (si_e s) 128 else Some (si_map s)) = Some m /\
    ot_wf m /\ (64 <= length m)%nat /\ (length (si_e s) * 10 <= length m * 7)%nat /\ ot_map m = pos_map se_id (si_e s).
Proof.
  intros [Ht Hn Hm _ _]. pose proof (pos_map_size se_id (si_e s) Hn) as Hsz. rewrite <- Hm in Hsz. destruct Ht as [E | (W & Hl & Hload)].
  - rewrite E in Hsz |- *. cbn [length Nat.eqb]. assert (length (si_e s) = 0)%nat as E0 by (rewrite <- Hsz; done).
    destruct (sem_map_grow_ok (si_e s) 128) as (t & -> & W & Et & L); [done|by exists 7%nat|lia|]. exists t. rewrite L. split_and!; (done || lia).
  - destruct (Nat.eqb_spec (length (si_map s)) 0); [lia|]. exists (si_map s). split_and!; try done. lia.
Qed.

Lemma dense_put_spec ok s c id vec : dense_rep s c -> dense_oks ok -> length vec = si_dim s ->
  exists s', dense_put ok s id vec = (s', true) /\ dense_rep s' (<[id := vec]> c) /\ dense_only s s'.
Proof.
  intros D (O1 & O2 & O3 & O4) Hvec. unfold dense_put. rewrite O1. destruct (dense_first s c D) as (m & -> & W & Hl & Hload & Em). pose proof D as [_ Hn _ He Hc].
  pose proof (map_probe_cases m id W) as Hp. rewrite Em in Hp. destruct (pos_map se_id (si_e s) !! id) as [idx|] eqn:Ei.
  - rewrite Hp, O2. pose proof (proj1 (pos_map_lookup _ _ _ _ Hn) Ei) as (x & Hx & Eid). set (g := fun e => mkSemEntry (se_id e) vec (vk_norm vec) (se_used e)).
    eexists. split; [reflexivity|]. split; [|by split]. split; cbn [set_dense si_map si_e si_dim].
    + right. split; [done|]. split; [done|]. rewrite Em, pos_map_size by done. lia.
    + by rewrite fmap_alter_same.
    + by rewrite pos_map_alter.
    + rewrite Forall_lookup in He |- *. intros j y Hy. destruct (decide (idx = j)) as [<-|Hne].
      * rewrite list_lookup_alter_eq, Hx in Hy. injection Hy as <-. destruct (He idx x Hx) as (? & _ & _). done.
      * rewrite list_lookup_alter_ne in Hy by done. by eapply He.
    + apply map_eq. intros k. apply option_eq. intros v. rewrite lookup_insert, <- elem_of_list_to_map by (by rewrite pairs_ids, fmap_alter_same).
      change (map entry_pair (alter g idx (si_e s))) with (entry_pair <$> alter g idx (si_e s)). rewrite list_elem_of_fmap. split.
      * intros Hv. destruct (decide (id = k)) as [E|Hk].
        -- injection Hv as <-. exists (g x). split; [unfold entry_pair, g; cbn [se_id se_vec]; congruence|]. eapply list_elem_of_lookup_2. by rewrite list_lookup_alter_eq, Hx.
        -- apply (dense_lookup s c k v D) in Hv as (j & y & Hj & <- & <-). exists y. split; [done|]. eapply (list_elem_of_lookup_2 _ j).
           rewrite list_lookup_alter_ne; [done|]. intros E. subst j. assert (y = x) as -> by congruence. by destruct Hk.
      * intros (y & E & Hin). injection E as -> ->. apply list_elem_of_lookup in Hin as [j Hj]. destruct (decide (idx = j)) as [<-|Hne].
        -- rewrite list_lookup_alter_eq, Hx in Hj. injection Hj as <-. cbn. by rewrite decide_True.
        -- rewrite list_lookup_alter_ne in Hj by done. rewrite decide_False; [apply (dense_lookup s c _ _ D); by exists j, y|].
           intros E. apply Hne. eapply (NoDup_lookup _ _ _ (se_id x) Hn); rewrite list_lookup_fmap; [by rewrite Hx|rewrite Hj; cbn; congruence].
  - destruct Hp as [-> _]. rewrite O2, O3, O4. cbn [negb]. rewrite andb_false_r. set (x := mkSemEntry id vec (vk_norm vec) true).
    assert (NoDup (se_id <$> (si_e s ++ [x]))) as Hn'.
    { rewrite fmap_app. apply NoDup_app. split; [done|]. split; [|apply NoDup_singleton]. intros k Hk Hk'. apply list_elem_of_singleton in Hk' as ->.
      apply list_elem_of_fmap in Hk as (y & E & Hy). apply list_elem_of_lookup in Hy as [j Hj]. assert (pos_map se_id (si_e s) !! id = Some j) by (apply pos_map_lookup; eauto). congruence. }
    assert (forall t cap, ot_wf t -> (64 <= length t)%nat -> ot_map t = pos_map se_id (si_e s) -> ((length (si_e s) + 1) * 10 <= length t * 7)%nat ->
      dense_rep (set_dense s (si_e s ++ [x]) cap (ot_set t id (length (si_e s)))) (<[id := vec]> c)) as Hrep.
    { intros t cap Wt Hlt Et Hloadt. pose proof (pos_map_size se_id (si_e s) Hn) as Hsz.
      destruct (ot_set_spec t id (length (si_e s)) Wt) as [W' E']; [left; rewrite <- (ot_map_size _ Wt), Et, Hsz; lia|].
      split; cbn [set_dense si_map si_e si_dim]; [| done | | | ].
      - right. split; [done|]. rewrite length_ot_set. split; [done|]. rewrite E', Et, map_size_insert_None, Hsz by done. lia.
      - by rewrite E', Et, pos_map_snoc.
      - apply Forall_app. split; [done|]. by apply Forall_singleton.
      - rewrite Hc. change (map entry_pair) with (fmap entry_pair : list SemEntry -> list (Z * list Z)). rewrite fmap_app. cbn. symmetry. apply list_to_map_snoc.
        change (entry_pair <$> si_e s) with (map entry_pair (si_e s)). rewrite pairs_ids. rewrite fmap_app in Hn'. apply NoDup_app in Hn' as (_ & Hn' & _). intros Hin. apply (Hn' _ Hin). by left. }
    destruct (Nat.ltb_spec (length m * 7) ((length (si_e s) + 1) * 10)) as [Hg|Hg].
    + destruct (sem_map_grow_ok (si_e s) (length m * 2)) as (t & -> & Wt & Et & Lt); [done|by apply pow2_double, W|lia|].
      eexists. split; [reflexivity|]. split; [apply Hrep; try done; lia|by split].
    + eexists. split; [reflexivity|]. split; [apply Hrep; try done; lia|by split].
Qed.
(** What the removal of the entry [x] at [idx] leaves: the others, the last one
    in its place. *)
Lemma swap_remove (e : list SemEntry) idx x moved : NoDup (se_id <$> e) -> e !! idx = Some x -> e !! (length e - 1)%nat = Some moved ->
  let e' := if (idx =? length e - 1)%nat then take (length e - 1) e else take (length e - 1) (<[idx := moved]> e) in
  e ≡ₚ x :: e' /\ pos_map se_id e' = (if (idx =? length e - 1)%nat then delete (se_id x) (pos_map se_id e) else <[se_id moved := idx]> (delete (se_id x) (pos_map se_id e))).
Proof.
  intros Hn Hx Hm. cbn zeta. pose proof (lookup_lt_Some _ _ _ Hx) as Hlt.
  assert (exists e1, e = e1 ++ [moved] /\ length e1 = length e - 1)%nat as (e1 & Ee & L1).
  { exists (take (length e - 1) e). split; [|rewrite length_take; lia]. rewrite <- (take_drop (length e - 1) e) at 1. f_equal. symmetry.
    rewrite (drop_S _ _ _ Hm). f_equal. rewrite drop_ge by lia. done. }
  assert (e ≡ₚ x :: (if (idx =? length e - 1)%nat then take (length e - 1) e else take (length e - 1) (<[idx := moved]> e)) /\
    forall j y, (if (idx =? length e - 1)%nat then take (length e - 1) e else take (length e - 1) (<[idx := moved]> e)) !! j = Some y <->
      (j < length e - 1)%nat /\ (j <> idx /\ e !! j = Some y \/ j = idx /\ y = moved)) as [Hp Hl].
  { destruct (Nat.eqb_spec idx (length e - 1)) as [E|E].
    - assert (x = moved) as -> by congruence. split.
      + rewrite Ee at 1. rewrite <- L1, Ee. rewrite take_app_length. apply Permutation_app_comm.
      + intros j y. rewrite lookup_take_Some. split; [intros [? ?]; split; [done|left; split; [lia|done]]|intros [? [[_ ?]|[? _]]]; [done|lia]].
    - assert (idx < length e1)%nat as Hi by lia. rewrite <- L1. split.
      + rewrite Ee. rewrite insert_app_l, take_app_length' by (by rewrite ?length_insert). rewrite Ee, lookup_app_l in Hx by done.
        apply list_elem_of_split_length in Hx as (l1 & l2 & -> & Li). rewrite insert_app_r_alt, Li, Nat.sub_diag by lia. cbn. solve_Permutation.
      + intros j y. rewrite lookup_take_Some. split.
        * intros [Hj Hlt']. split; [done|]. destruct (decide (j = idx)) as [->|Hne]; [right; split; [done|]; rewrite list_lookup_insert_eq in Hj by lia; by injection Hj|].
          left. by rewrite list_lookup_insert_ne in Hj.
        * intros [Hlt' [[Hne Hj]|[-> ->]]]; (split; [|done]); [by rewrite list_lookup_insert_ne|by rewrite list_lookup_insert_eq by lia]. }
  split; [done|]. set (e' := if (idx =? length e - 1)%nat then _ else _) in Hp, Hl |- *. clearbody e'.
  assert (NoDup (se_id x :: (se_id <$> e'))) as Hn' by (by rewrite <- fmap_cons, <- Hp). apply NoDup_cons in Hn' as [Hx' Hn'].
  apply map_eq. intros k. apply option_eq. intros j. rewrite (pos_map_lookup se_id e' k j Hn'). setoid_rewrite Hl.
  assert (pos_map se_id e !! k = Some j <-> exists y, e !! j = Some y /\ se_id y = k) as Hpe by (by apply pos_map_lookup).
  assert (forall i y z, e !! i = Some y -> e !! j = Some z -> se_id y = se_id z -> i = j) as Hinj.
  { intros i y z Hi Hj E. eapply (NoDup_lookup _ _ _ (se_id y) Hn); rewrite list_lookup_fmap; [by rewrite Hi|rewrite Hj; cbn; congruence]. }
  destruct (Nat.eqb_spec idx (length e - 1)) as [E|E].
  - rewrite lookup_delete. case_decide as Ek.
    + split; [|done]. intros (y & (Hj & [[Hne Hy]|[-> ->]]) & Ey); [|lia]. exfalso. apply Hne. symmetry. eapply Hinj; [exact Hx|exact Hy|congruence].
    + rewrite Hpe. split.
      * intros (y & (Hj & [[Hne Hy]|[-> ->]]) & Ey); [by exists y|lia].
      * intros (y & Hy & Ey). exists y. split; [|done]. assert (j <> idx) by (intros ->; congruence). pose proof (lookup_lt_Some _ _ _ Hy). split; [lia|by left].
  - rewrite lookup_insert. case_decide as Em.
    + split.
      * intros (y & (Hj & [[Hne Hy]|[-> ->]]) & Ey); [|done]. exfalso. assert (length e - 1 = j)%nat; [|lia]. eapply Hinj; [exact Hm|exact Hy|congruence].
      * intros [= <-]. exists moved. split; [|done]. split; [lia|by right].
    + rewrite lookup_delete. case_decide as Ek.
      * split; [|done]. intros (y & (Hj & [[Hne Hy]|[-> ->]]) & Ey); [|congruence]. exfalso. apply Hne. symmetry. eapply Hinj; [exact Hx|exact Hy|congruence].
      * rewrite Hpe. split.
        -- intros (y & (Hj & [[Hne Hy]|[-> ->]]) & Ey); [by exists y|congruence].
        -- intros (y & Hy & Ey). exists y. split; [|done]. assert (j <> idx) by (intros ->; congruence). pose proof (lookup_lt_Some _ _ _ Hy).
           assert (j <> length e - 1)%nat by (intros ->; congruence). split; [lia|by left].
Qed.
Lemma dense_remove_spec s c synid : dense_rep s c -> dense_rep (dense_remove s synid) (delete synid c) /\ dense_only s (dense_remove s synid).
Proof.
  intros D. unfold dense_remove. pose proof D as [Ht Hn Hm He Hc].
  assert (pos_map se_id (si_e s) !! synid = None -> delete synid c = c) as Hnone.
  { intros E. apply delete_id. destruct (c !! synid) as [v|] eqn:Ec; [|done]. apply (dense_lookup s c _ _ D) in Ec as (i & e & Hi & Eid & _).
    assert (pos_map se_id (si_e s) !! synid = Some i) by (apply pos_map_lookup; eauto). congruence. }
  destruct Ht as [E | (W & Hl & Hload)].
  { rewrite E in *. cbn [length Nat.eqb]. rewrite Hnone; [done|]. by rewrite <- Hm. }
  destruct (Nat.eqb_spec (length (si_map s)) 0); [lia|]. cbn zeta. pose proof (map_probe_cases (si_map s) synid W) as Hp. rewrite Hm in Hp.
  destruct (pos_map se_id (si_e s) !! synid) as [idx|] eqn:Ei.
  2: { destruct Hp as [-> _]. by rewrite Hnone. }
  pose proof Hp as Hp'. unfold holds_at in Hp'. rewrite Hp'. destruct (delete_at_spec _ _ _ _ W Hp) as (W1 & E1 & L1).
  pose proof (proj1 (pos_map_lookup _ _ _ _ Hn) Ei) as (x & Hx & Eid). pose proof (lookup_lt_Some _ _ _ Hx) as Hlt.
  destruct (lookup_lt_is_Some_2 (si_e s) (length (si_e s) - 1)) as [moved Hmv]; [lia|]. rewrite Hmv.
  destruct (swap_remove (si_e s) idx x moved Hn Hx Hmv) as [Hperm Hpos]. cbn zeta in *. rewrite Hm in E1. rewrite Eid in Hpos.
  set (e' := if (idx =? length (si_e s) - 1)%nat then take (length (si_e s) - 1) (si_e s) else take (length (si_e s) - 1) (<[idx := moved]> (si_e s))) in *.
  assert (exists t, (if (idx =? length (si_e s) - 1)%nat then set_dense s (take (length (si_e s) - 1) (si_e s)) (si_cap s) (delete_at (si_map s) (map_probe (si_map s) synid))
     else set_dense s (take (length (si_e s) - 1) (<[idx := moved]> (si_e s))) (si_cap s) (ot_set (delete_at (si_map s) (map_probe (si_map s) synid)) (se_id moved) idx)) =
     set_dense s e' (si_cap s) t /\ ot_wf t /\ length t = length (si_map s) /\ ot_map t = pos_map se_id e') as (t & -> & Wt & Lt & Et).
  { subst e'. destruct (Nat.eqb_spec idx (length (si_e s) - 1)) as [E|E].
    - eexists. split; [reflexivity|]. split_and!; [done|done|congruence].
    - eexists. split; [reflexivity|]. destruct (ot_set_spec _ (se_id moved) idx W1) as [W2 E2].
      + right. rewrite E1. assert (pos_map se_id (si_e s) !! se_id moved = Some (length (si_e s) - 1)%nat) as Epm by (apply pos_map_lookup; eauto).
        rewrite lookup_delete_ne, Epm; [done|]. intros Eq. rewrite <- Eq, Ei in Epm. congruence.
      + rewrite length_ot_set. split_and!; [done|done|]. rewrite E2, E1. by rewrite Hpos. }
  assert (NoDup (se_id x :: (se_id <$> e'))) as Hn' by (by rewrite <- fmap_cons, <- Hperm). apply NoDup_cons in Hn' as [Hx' Hn'].
  assert (length (si_e s) = S (length e')) as Hlen by (by rewrite Hperm).
  split; [|by split]. split; cbn [set_dense si_map si_e si_dim].
  - right. split; [done|]. rewrite Lt, Et, pos_map_size by done. split; [done|]. rewrite Hm, pos_map_size in Hload by done. lia.
  - done.
  - done.
  - rewrite Hperm in He. by apply Forall_cons in He as [_ He].
  - rewrite Hc. assert (list_to_map (map entry_pair (si_e s)) = list_to_map (map entry_pair (x :: e')) :> gmap Z (list Z)) as ->.
    { apply list_to_map_proper; [by rewrite pairs_ids|]. change (entry_pair <$> si_e s ≡ₚ entry_pair <$> (x :: e')). by rewrite Hperm. }
    cbn. rewrite Eid. apply delete_insert_id. apply not_elem_of_list_to_map_1. rewrite pairs_ids. by rewrite <- Eid.
Qed.

(** ** The number of vectors of each record *)

Record rc_rep (s : SemanticIndex) (r : gmap Z nat) : Prop := {
  rr_table : table_ok (si_rc s); rr_n : si_rcn s = size r; rr_map : ot_map (si_rc s) = r
}.

Lemma rc_get_spec s r id : rc_rep s r -> rc_get s id = default 0%nat (r !! id).
Proof.
  intros [Ht _ Hm]. unfold rc_get. destruct Ht as [E | (W & Hl & _)].
  - rewrite E in *. cbn. by rewrite <- Hm.
  - destruct (Nat.eqb_spec (length (si_rc s)) 0); [lia|]. by rewrite ot_get_spec, Hm.
Qed.

(** The count table is a map of ids to numbers like the graph's own, which is
    grown by the same rule. *)
Lemma rc_set_spec s r id n : rc_rep s r ->
  exists t k, rc_set true true s id n = (set_rc s t k, true) /\ table_ok t /\ ot_map t = <[id := n]> r /\ k = size (<[id := n]> r).
Proof.
  intros [Ht Hn Hm]. pose (h := mkHnsw 0 0 0 0 false 0 [] 0 (size r) None 0 (si_rc s)).
  destruct (map_put_spec h id n) as (t & E & Wt & Et); [done|right; change (size (ot_map (si_rc s)) = size r); by rewrite Hm|].
  assert (rc_set true true s id n = (set_rc s t (if decide (is_Some (r !! id)) then size r else size r + 1)%nat, true)) as Er.
  { unfold map_put in E. unfold rc_set. cbn [hn_map hn_live h] in E. unfold rc_grow, map_grow in *. rewrite Hn.
    set (m := if (length (si_rc s) =? 0)%nat then Some (rehash_into 64 (entries (si_rc s))) else Some (si_rc s)) in *.
    assert (match m with Some m => ot_wf m /\ ot_map m = r | None => False end) as Hgood.
    { subst m. destruct Ht as [E0 | (W & Hl & _)].
      - rewrite E0 in *. cbn [length Nat.eqb]. destruct (rehash_into_spec 64 (entries (@nil (option (Z * nat))))) as (W & E1 & _); [apply pow2_64|constructor|cbn; lia|]. split; [done|]. by rewrite E1, <- Hm.
      - destruct (Nat.eqb_spec (length (si_rc s)) 0); [lia|]. by split. }
    destruct m as [m|]; [|done]. destruct Hgood as [Wm Em]. pose proof (map_probe_cases m id Wm) as Hp. rewrite Em in Hp. destruct (r !! id) as [x|] eqn:Ex.
    - rewrite Hp in E |- *. rewrite decide_True by done. by injection E as <-.
    - destruct Hp as [Hf _]. unfold free_at in Hf. rewrite Hf in E |- *. rewrite decide_False by (by intros []). destruct (_ <? _)%nat; by injection E as <-. }
  exists t. eexists. split; [exact Er|]. split; [done|]. cbn [hn_map h] in Et. rewrite Et, Hm. split; [done|]. case_decide as Hs.
  - by rewrite map_size_insert_Some.
  - rewrite map_size_insert_None by (by apply eq_None_not_Some). lia.
Qed.

Lemma rc_del_spec s r id : rc_rep s r -> rc_rep (rc_del s id) (delete id r) /\ exists t k, rc_del s id = set_rc s t k.
Proof.
  intros [Ht Hn Hm]. unfold rc_del. destruct Ht as [E | (W & Hl & Hload)].
  { replace (length (si_rc s)) with 0%nat by (by rewrite E). cbn [Nat.eqb]. rewrite delete_id by (by rewrite <- Hm, E).
    split; [split; [by left|done|done]|]. exists (si_rc s), (si_rcn s). by destruct s. }
  destruct (Nat.eqb_spec (length (si_rc s)) 0); [lia|]. pose proof (map_probe_cases (si_rc s) id W) as Hp. rewrite Hm in Hp. destruct (r !! id) as [x|] eqn:Ex.
  - unfold holds_at in Hp. rewrite !Hp. destruct (ot_del_spec (si_rc s) id W) as (W' & E' & L'). split; [|eexists _, _; reflexivity]. split; cbn [set_rc si_rc si_rcn].
    + right. split; [done|]. rewrite L'. split; [done|]. rewrite E', map_size_delete_Some by (by rewrite Hm, Ex). lia.
    + rewrite map_size_delete_Some by (by rewrite Ex). lia.
    + by rewrite E', Hm.
  - destruct Hp as [Hf _]. unfold free_at in Hf. rewrite !Hf. rewrite delete_id by done. split; [split; [right; by split_and!|done|done]|]. exists (si_rc s), (si_rcn s). by destruct s.
Qed.
(** ** The graphs *)

(** The vectors whose ids belong to shard [i] of [n]. *)
Definition part (n i : nat) (c : gmap Z (list Z)) : gmap Z (list Z) := filter (fun p => shard_index p.1 n = i) c.

Lemma part_lookup n i c id : part n i c !! id = if decide (shard_index id n = i) then c !! id else None.
Proof.
  apply option_eq. intros v. unfold part. rewrite map_lookup_filter_Some. cbn. case_decide; [|naive_solver]. split; [by intros []|done].
Qed.

Lemma part_insert n i c id v : part n i (<[id := v]> c) = if decide (shard_index id n = i) then <[id := v]> (part n i c) else part n i c.
Proof.
  apply map_eq. intros k. rewrite part_lookup, lookup_insert. destruct (decide (id = k)) as [->|Hne].
  - destruct (decide (shard_index k n = i)) as [E|E]; [by rewrite lookup_insert_eq|]. by rewrite part_lookup, decide_False.
  - destruct (decide (shard_index id n = i)) as [E|E]; [rewrite lookup_insert_ne by done|]; by rewrite part_lookup.
Qed.

Lemma part_delete n i c id : part n i (delete id c) = if decide (shard_index id n = i) then delete id (part n i c) else part n i c.
Proof.
  apply map_eq. intros k. rewrite part_lookup, lookup_delete. destruct (decide (id = k)) as [->|Hne].
  - destruct (decide (shard_index k n = i)) as [E|E]; [by rewrite lookup_delete_eq|]. by rewrite part_lookup, decide_False.
  - destruct (decide (shard_index id n = i)) as [E|E]; [rewrite lookup_delete_ne by done|]; by rewrite part_lookup.
Qed.

(** The graphs store [c], each its part. *)
Definition graph_rep (dim : nat) (g : list Hnsw) (c : gmap Z (list Z)) : Prop :=
  forall i h, g !! i = Some h -> hn_wf h (part (length g) i c) /\ hn_dim h = dim.

Lemma graph_shard dim g c id : graph_rep dim g c -> (0 < length g)%nat -> exists h, g !! shard_index id (length g) = Some h /\ hn_wf h (part (length g) (shard_index id (length g)) c) /\ hn_dim h = dim.
Proof. intros G Hl. destruct (lookup_lt_is_Some_2 g (shard_index id (length g))) as [h Hh]; [by apply shard_index_lt|]. exists h. split; [done|]. by apply G. Qed.

Lemma graph_update dim g c c' id h' :
  graph_rep dim g c -> let i := shard_index id (length g) in hn_wf h' (part (length g) i c') -> hn_dim h' = dim ->
  (forall j, j <> i -> part (length g) j c' = part (length g) j c) -> graph_rep dim (<[i := h']> g) c'.
Proof.
  intros G i Hw Hd Hj k h Hk. rewrite length_insert. destruct (decide (i = k)) as [<-|Hne].
  - assert (i < length g)%nat by (rewrite <- (length_insert g i h'); by eapply lookup_lt_Some). rewrite list_lookup_insert_eq in Hk by done. injection Hk as <-. done.
  - rewrite list_lookup_insert_ne in Hk by done. rewrite Hj by done. by apply G.
Qed.

Lemma graph_add dim g c rb ok id v h h' :
  graph_rep dim g c -> g !! shard_index id (length g) = Some h -> hnsw_add rb ok h id v dim = (h', true) ->
  graph_rep dim (<[shard_index id (length g) := h']> g) (<[id := v]> c).
Proof.
  intros G Hh E. destruct (G _ _ Hh) as [W Hd]. unfold hnsw_add in E. destruct (dim =? hn_dim h)%nat; cbn [negb] in E; [|done].
  destruct (add_depth_spec 2 rb ok h _ id v W) as [W' [K1 K2]]; [right; by rewrite E|]. rewrite E in W', K1, K2. cbn [fst] in *.
  eapply graph_update; [done| |congruence|].
  - by rewrite part_insert, decide_True.
  - intros j Hj. by rewrite part_insert, decide_False by congruence.
Qed.

Lemma graph_remove dim g c rb id h :
  graph_rep dim g c -> g !! shard_index id (length g) = Some h -> graph_rep dim (<[shard_index id (length g) := hnsw_remove rb h id]> g) (delete id c).
Proof.
  intros G Hh. destruct (G _ _ Hh) as [W Hd]. destruct (hnsw_remove_spec rb h _ id W) as [W' [K1 K2]]. eapply graph_update; [done| |congruence|].
  - by rewrite part_delete, decide_True.
  - intros j Hj. by rewrite part_delete, decide_False by congruence.
Qed.

(** ** Phases of a build *)

Definition ins_all (c : gmap Z (list Z)) (l : list (Z * list Z)) : gmap Z (list Z) := foldl (fun c p => <[p.1 := p.2]> c) c l.

Lemma ins_all_nodup (l : list (Z * list Z)) : NoDup l.*1 -> ins_all ∅ l = list_to_map l.
Proof.
  induction l as [|[k v] l IH] using rev_ind; [done|]. intros Hn. rewrite fmap_app in Hn. apply NoDup_app in Hn as (Hn & Hd & _).
  unfold ins_all in *. rewrite foldl_app, IH by done. cbn. symmetry. apply list_to_map_snoc. intros Hin. apply (Hd _ Hin). by left.
Qed.

Lemma part_empty n i : part n i ∅ = ∅.
Proof. apply map_eq. intros k. rewrite part_lookup, !lookup_empty. by case_decide. Qed.

Lemma part_ins_all n i c (l : list (Z * list Z)) : part n i (ins_all c l) = ins_all (part n i c) (filter (fun p => shard_index p.1 n = i) l).
Proof.
  revert c. induction l as [|[k v] l IH]; intros c; cbn [ins_all foldl]; [done|]. unfold ins_all in *. rewrite IH, part_insert, filter_cons. cbn. by destruct (decide _).
Qed.

Definition replay (c : gmap Z (list Z)) (d : SemDelta) : gmap Z (list Z) :=
  match dl_vec d with Some v => <[dl_synid d := v]> c | None => delete (dl_synid d) c end.

(** What the index holds, and where. *)
Definition contents (s : SemanticIndex) (c : gmap Z (list Z)) : Prop :=
  if graph_present s then graph_rep (si_dim s) (si_shards s) c else dense_rep s c.

(** The journal leads from [base] to what the index holds, unless an entry was
    lost. *)
Definition journal_ok (s : SemanticIndex) (base c : gmap Z (list Z)) : Prop := si_failed s = true \/ foldl replay base (si_deltas s) = c.

Definition in_build (s : SemanticIndex) (j : SemBuildJob) : Prop :=
  si_building s = true /\ graph_present s = false /\ jb_dim j = si_dim s /\ (0 < jb_nshards j)%nat.

(** The graphs of the job, once the deltas it has taken are applied, and those
    journalled since, hold what the index holds. *)
Definition caught_up (s : SemanticIndex) (j : SemBuildJob) (c : gmap Z (list Z)) : Prop :=
  length (jb_shards j) = jb_nshards j /\ exists base, graph_rep (jb_dim j) (jb_shards j) base /\ journal_ok s (foldl replay base (jb_pending j)) c.

Definition phase_ok (s : SemanticIndex) (ph : BuildPhase) (c : gmap Z (list Z)) : Prop :=
  match ph with
  | Idle => si_building s = false /\ si_deltas s = []
  | Begun j => in_build s j /\ jb_shards j = [] /\ jb_pending j = [] /\ journal_ok s (ins_all ∅ (jb_vecs j)) c
  | CatchUp j _ | Converged j => in_build s j /\ jb_pending j = [] /\ caught_up s j c
  | Taken j _ _ => in_build s j /\ caught_up s j c
  | Failing j => in_build s j /\ (jb_nshards j <= length (jb_shards j))%nat
  end.

(** A writer's step: the contents change, and the phase of a build with them. *)
Record written (s s' : SemanticIndex) (ph : BuildPhase) (c' : gmap Z (list Z)) : Prop := {
  wr_contents : contents s' c'; wr_phase : phase_ok s' ph c'; wr_dim : si_dim s' = si_dim s; wr_rc : si_rc s' = si_rc s; wr_rcn : si_rcn s' = si_rcn s
}.

Lemma phase_moves s s' ph c c' :
  phase_ok s ph c -> si_building s' = si_building s -> si_shards s' = si_shards s -> si_dim s' = si_dim s ->
  (si_building s = false -> si_deltas s' = si_deltas s) ->
  (forall base, journal_ok s base c -> si_building s = true -> journal_ok s' base c') -> phase_ok s' ph c'.
Proof.
  intros Hp Eb Es Ed Hidle Hj.
  assert (forall j, in_build s j -> in_build s' j) as Hib by (intros j (H1 & H2 & H3 & H4); unfold in_build, graph_present in *; rewrite Eb, Es, Ed; done).
  assert (forall j, in_build s j -> caught_up s j c -> caught_up s' j c') as Hcu by (intros j (? & _) (? & base & ? & ?); split; [done|]; exists base; split; [done|by apply Hj]).
  destruct ph; cbn [phase_ok] in *.
  - destruct Hp as [Hb Hd]. rewrite Eb, Hidle by done. done.
  - destruct Hp as (Hi & H1 & H2 & H3). split_and!; try done; [by apply Hib|]. apply Hj; [done|by apply Hi].
  - destruct Hp as (Hi & H1 & H2). split_and!; [by apply Hib|done|by apply Hcu].
  - destruct Hp as (Hi & H1). split; [by apply Hib|by apply Hcu].
  - destruct Hp as (Hi & H1). split; [by apply Hib|done].
  - destruct Hp as (Hi & H1 & H2). split_and!; [by apply Hib|done|by apply Hcu].
Qed.

(** A change of the dense array, journalled when a build is under way. *)
Lemma delta_push_spec a1 a2 s synid vec :
  let s' := delta_push a1 a2 s synid vec in
  si_dim s' = si_dim s /\ si_e s' = si_e s /\ si_map s' = si_map s /\ si_rc s' = si_rc s /\ si_rcn s' = si_rcn s /\ si_shards s' = si_shards s /\
  si_building s' = si_building s /\ (si_failed s' = true \/ si_failed s' = si_failed s /\ si_deltas s' = si_deltas s ++ [mkSemDelta synid vec]).
Proof.
  cbn zeta. unfold delta_push. destruct (_ && _); [split_and!; try done; by left|]. destruct (match vec with Some _ => negb a2 | None => false end); split_and!; try done; [by left|by right].
Qed.

Lemma dense_written s s1 ph c d ok1 ok2 :
  graph_present s = false -> dense_only s s1 -> dense_rep s1 (replay c d) -> phase_ok s ph c ->
  written s (if si_building s1 then delta_push ok1 ok2 s1 (dl_synid d) (dl_vec d) else s1) ph (replay c d).
Proof.
  intros Hg [D1 D2 D3 D4 D5 D6 D7] Hr Hp. rewrite D5. destruct (si_building s) eqn:Eb.
  - pose proof (delta_push_spec ok1 ok2 s1 (dl_synid d) (dl_vec d)) as (P1 & P2 & P3 & P4 & P5 & P6 & P7 & P8). cbn zeta in *. set (s' := delta_push _ _ _ _ _) in *. clearbody s'.
    split; [| |congruence..].
    + unfold contents, graph_present in *. rewrite P6, D4, Hg. destruct Hr as [R1 R2 R3 R4 R5]. split; rewrite ?P1, ?P2, ?P3; done.
    + eapply phase_moves; [exact Hp|congruence|congruence|congruence|by rewrite Eb|]. intros base [Hf|Hj] _; [left; destruct P8 as [?|[E _]]; [done|congruence]|].
      destruct P8 as [?|[_ E]]; [by left|]. right. rewrite E, D7, foldl_app, Hj. cbn [foldl]. by destruct d.
  - split; [| |done..].
    + unfold contents, graph_present in *. by rewrite D4, Hg.
    + eapply phase_moves; [exact Hp|congruence|congruence|congruence|done|]. intros base _ Hb. congruence.
Qed.
(** ** One vector *)

(** There is memory for the vector; the journal of a build may run out of it. *)
Definition vec_oks (ok : VecOks) : Prop := dense_oks ok /\ add_oks (vo_add ok) /\ forall l, beam_all_ok (ao_beam (vo_add ok) l).

(** While a graph serves the index no build is under way. *)
Lemma graph_idle s ph c : graph_present s = true -> phase_ok s ph c -> ph = Idle.
Proof. intros Hg. destruct ph; cbn [phase_ok]; unfold in_build; rewrite ?Hg; naive_solver. Qed.

Lemma graph_written s g ph c c' : graph_present s = true -> (0 < length g)%nat -> phase_ok s ph c -> graph_rep (si_dim s) g c' -> written s (set_shards s g) ph c'.
Proof.
  intros Hg Hl Hp Hr. pose proof (graph_idle s ph c Hg Hp) as ->. split; [|done..]. unfold contents, graph_present. cbn [set_shards si_shards si_dim].
  by rewrite (proj2 (Nat.ltb_lt _ _) Hl).
Qed.

Lemma vec_add_spec ok s ph c synid v : contents s c -> phase_ok s ph c -> vec_oks ok -> length v = si_dim s ->
  exists s', vec_add ok s synid v = (s', true) /\ written s s' ph (<[synid := v]> c).
Proof.
  intros Hc Hp (O1 & O2 & O3) Hv. unfold vec_add. unfold contents in Hc. destruct (graph_present s) eqn:Hg.
  - assert (0 < length (si_shards s))%nat as Hl by (by apply Nat.ltb_lt). cbn zeta. destruct (graph_shard _ _ _ synid Hc Hl) as (h & Eh & W & Hd). rewrite Eh.
    pose proof (hnsw_add_ok (vo_rb ok) (vo_add ok) h _ synid v W O2 O3) as Ht. rewrite Hd in Ht. destruct (hnsw_add _ _ _ _ _ _) as [h' b] eqn:E. cbn in Ht. subst b.
    eexists. split; [reflexivity|]. apply (graph_written _ _ _ c); [done|by rewrite length_insert|done|]. by eapply graph_add.
  - destruct (dense_put_spec ok s c synid v Hc O1 Hv) as (s1 & -> & D & Do). eexists. split; [reflexivity|].
    exact (dense_written s s1 ph c (mkSemDelta synid (Some v)) _ _ Hg Do D Hp).
Qed.

Lemma vec_remove_spec ok s ph c synid : contents s c -> phase_ok s ph c -> written s (vec_remove ok s synid) ph (delete synid c).
Proof.
  intros Hc Hp. unfold vec_remove. unfold contents in Hc. destruct (graph_present s) eqn:Hg.
  - assert (0 < length (si_shards s))%nat as Hl by (by apply Nat.ltb_lt). cbn zeta. destruct (graph_shard _ _ _ synid Hc Hl) as (h & E & W & Hd). rewrite E.
    apply (graph_written _ _ _ c); [done|by rewrite length_insert|done|]. by apply graph_remove.
  - cbn zeta. destruct (dense_remove_spec s c synid Hc) as [D Do]. exact (dense_written s _ ph c (mkSemDelta synid None) _ _ Hg Do D Hp).
Qed.

(** ** Records *)

Definition del_slots (c : gmap Z (list Z)) (id : Z) (slot n : nat) : gmap Z (list Z) := foldl (fun c k => delete (mv_syn id k) c) c (seq slot n).
Fixpoint put_slots (c : gmap Z (list Z)) (id : Z) (slot : nat) (vecs : list (list Z)) : gmap Z (list Z) :=
  match vecs with [] => c | v :: vecs' => put_slots (<[mv_syn id slot := v]> c) id (S slot) vecs' end.

Lemma written_trans s1 s2 s3 ph c2 c3 : written s1 s2 ph c2 -> written s2 s3 ph c3 -> written s1 s3 ph c3.
Proof. intros [A1 A2 A3 A4 A5] [B1 B2 B3 B4 B5]. split; try done; congruence. Qed.

Lemma remove_slots_spec ok n s ph c id slot : contents s c -> phase_ok s ph c -> written s (remove_slots ok n s id slot) ph (del_slots c id slot n).
Proof.
  revert s c slot. induction n as [|n IH]; intros s c slot Hc Hp; cbn [remove_slots]; [by split|]. unfold del_slots. cbn [seq foldl].
  pose proof (vec_remove_spec (ok slot) s ph c (mv_syn id slot) Hc Hp) as W. eapply written_trans; [exact W|]. apply IH; apply W.
Qed.

Lemma add_slots_spec ok vecs s ph c id slot : contents s c -> phase_ok s ph c -> (forall k, vec_oks (ok k)) -> Forall (fun v => length v = si_dim s) vecs ->
  exists s', add_slots ok s id slot vecs = (s', true) /\ written s s' ph (put_slots c id slot vecs).
Proof.
  revert s c slot. induction vecs as [|v vecs IH]; intros s c slot Hc Hp Hok Hv; cbn [add_slots put_slots]; [exists s; by split|].
  apply Forall_cons in Hv as [Hv Hvs]. destruct (vec_add_spec (ok slot) s ph c (mv_syn id slot) v Hc Hp (Hok slot) Hv) as (s1 & -> & W).
  destruct (IH s1 (<[mv_syn id slot := v]> c) (S slot)) as (s' & E & W'); [apply W|apply W|done|by rewrite (wr_dim _ _ _ _ W)|].
  exists s'. split; [done|]. by eapply written_trans.
Qed.

(** The vectors by synthetic id are those of the records. *)
Definition flat_of (c : gmap Z (list Z)) (m : gmap Z (list (list Z))) : Prop :=
  forall k v, c !! k = Some v <-> exists id vs slot, m !! id = Some vs /\ vs !! slot = Some v /\ k = mv_syn id slot.

Definition records_ok (dim : nat) (m : gmap Z (list (list Z))) : Prop :=
  forall id vs, m !! id = Some vs -> id_ok id /\ (0 < length vs <= 64)%nat /\ Forall (fun v => length v = dim) vs.

Lemma del_slots_lookup c id slot n k v :
  del_slots c id slot n !! k = Some v <-> c !! k = Some v /\ forall i, (slot <= i < slot + n)%nat -> k <> mv_syn id i.
Proof.
  unfold del_slots. revert c slot. induction n as [|n IH]; intros c slot; cbn [seq foldl]; [split; [intros; split; [done|lia]|by intros []]|].
  rewrite IH, lookup_delete_Some. split.
  - intros [[Hne Hc] Hi]. split; [done|]. intros i Hr. destruct (decide (i = slot)) as [->|]; [congruence|apply Hi; lia].
  - intros [Hc Hi]. split; [split; [|done]|intros i Hr; apply Hi; lia]. intros E. apply (Hi slot); [lia|done].
Qed.

Lemma put_slots_lookup c id slot vecs k v : id_ok id -> (slot + length vecs <= 64)%nat ->
  put_slots c id slot vecs !! k = Some v <->
  (exists i, vecs !! i = Some v /\ k = mv_syn id (slot + i)) \/ (c !! k = Some v /\ forall i, (i < length vecs)%nat -> k <> mv_syn id (slot + i)).
Proof.
  intros Hid. revert c slot. induction vecs as [|v0 vecs IH]; intros c slot Hl; cbn [put_slots].
  { split; [intros Hc; right; split; [done|cbn; lia]|]. intros [(i & Hi & _)|[? _]]; [by rewrite lookup_nil in Hi|done]. }
  cbn [length] in Hl |- *. rewrite IH by lia. rewrite lookup_insert_Some. split.
  - intros [(i & Hi & ->)|[[[<- <-]|[Hne Hc]] Hi]].
    + left. exists (S i). split; [done|]. f_equal. lia.
    + left. exists 0%nat. split; [done|]. f_equal. lia.
    + right. split; [done|]. intros [|i] Hr; [rewrite Nat.add_0_r; congruence|]. replace (slot + S i)%nat with (S slot + i)%nat by lia. apply Hi. lia.
  - intros [([|i] & Hi & ->)|[Hc Hi]].
    + injection Hi as <-. right. rewrite Nat.add_0_r. split; [by left|]. intros i Hr E. apply mv_syn_inj in E; [lia|done|done|lia|lia].
    + left. exists i. split; [done|]. f_equal. lia.
    + right. split; [right; split; [|done]|]; [specialize (Hi 0%nat ltac:(lia)); rewrite Nat.add_0_r in Hi; congruence|].
      intros i Hr. replace (S slot + i)%nat with (slot + S i)%nat by lia. apply Hi. lia.
Qed.

(** Dropping the slots of a record drops the record. *)
Lemma flat_delete dim c m id : flat_of c m -> records_ok dim m -> id_ok id ->
  flat_of (del_slots c id 0 (default 0%nat (length <$> m !! id))) (delete id m).
Proof.
  intros Hf Hm Hid k v. rewrite del_slots_lookup, (Hf k v). split.
  - intros [(id' & vs & slot & Hv & Hs & ->) Hi]. exists id', vs, slot. split; [|done]. rewrite lookup_delete_ne; [done|]. intros <-. rewrite Hv in Hi. cbn in Hi.
    apply (Hi slot); [|done]. pose proof (lookup_lt_Some _ _ _ Hs). lia.
  - intros (id' & vs & slot & Hv & Hs & ->). apply lookup_delete_Some in Hv as [Hne Hv]. split; [by exists id', vs, slot|]. intros i Hr E.
    destruct (Hm _ _ Hv) as (Hid' & Hl & _). pose proof (lookup_lt_Some _ _ _ Hs). destruct (m !! id) as [ws|] eqn:Ew; cbn in Hr; [|lia]. destruct (Hm _ _ Ew) as (_ & Hlw & _).
    apply mv_syn_inj in E as [? _]; [congruence|done|done|lia|lia].
Qed.

Lemma flat_insert dim c m id vecs : flat_of c (delete id m) -> records_ok dim m -> id_ok id -> (length vecs <= 64)%nat -> flat_of (put_slots c id 0 vecs) (<[id := vecs]> m).
Proof.
  intros Hf Hm Hid Hl k v. rewrite put_slots_lookup by done. split.
  - intros [(i & Hi & ->)|[Hc Hi]].
    + exists id, vecs, i. by rewrite lookup_insert_eq.
    + apply Hf in Hc as (id' & vs & slot & Hv & Hs & ->). apply lookup_delete_Some in Hv as [Hne Hv]. exists id', vs, slot. by rewrite lookup_insert_ne.
  - intros (id' & vs & slot & Hv & Hs & ->). apply lookup_insert_Some in Hv as [[<- <-]|[Hne Hv]]; [left; by exists slot|]. right. split.
    + apply Hf. exists id', vs, slot. split; [|done]. by rewrite lookup_delete_ne.
    + intros i Hr E. destruct (Hm _ _ Hv) as (Hid' & Hl' & _). pose proof (lookup_lt_Some _ _ _ Hs). apply mv_syn_inj in E as [? _]; [congruence|done|done|lia|cbn; lia].
Qed.

(** The index holds the vectors of the records of [m]. *)
Record index_rep (s : SemanticIndex) (ph : BuildPhase) (m : gmap Z (list (list Z))) : Prop := {
  ir_contents : exists c, contents s c /\ phase_ok s ph c /\ flat_of c m;
  ir_records : records_ok (si_dim s) m;
  ir_rc : rc_rep s (length <$> m)
}.

Record sem_oks (ok : SemOks) : Prop := { sk_slots : forall k, vec_oks (so_add ok k); sk_rc0 : so_rc0 ok = true; sk_rc : so_rc ok = true }.

(** The phase does not look at the counts. *)
Lemma phase_rc s ph c t k : phase_ok s ph c -> phase_ok (set_rc s t k) ph c.
Proof. intros Hp. eapply phase_moves; try done. Qed.

Lemma contents_rc s c t k : contents s c -> contents (set_rc s t k) c.
Proof. unfold contents, graph_present. cbn [set_rc si_shards si_dim]. destruct (_ <? _)%nat; [done|]. intros [D1 D2 D3 D4 D5]. by split. Qed.

Lemma removed_slots ok s ph m id : index_rep s ph m -> id_ok id ->
  exists c, written s (remove_slots ok (rc_get s id) s id 0) ph c /\ flat_of c (delete id m) /\ rc_rep (remove_slots ok (rc_get s id) s id 0) (length <$> m).
Proof.
  intros [(c & Hc & Hp & Hf) Hm Hr] Hid. rewrite (rc_get_spec s _ id Hr), lookup_fmap.
  pose proof (remove_slots_spec ok (default 0%nat (length <$> m !! id)) s ph c id 0 Hc Hp) as W. eexists. split; [exact W|]. split; [by eapply flat_delete|].
  destruct Hr as [R1 R2 R3]. split; rewrite ?(wr_rc _ _ _ _ W), ?(wr_rcn _ _ _ _ W); done.
Qed.

Lemma semantic_index_add_spec ok s ph m id vecs :
  index_rep s ph m -> sem_oks ok -> id_ok id -> (0 < length vecs <= 64)%nat -> Forall (fun v => length v = si_dim s) vecs ->
  exists s', semantic_index_add ok s id vecs (si_dim s) = (s', true) /\ index_rep s' ph (<[id := vecs]> m) /\ si_dim s' = si_dim s.
Proof.
  intros I [O1 O2 O3] Hid Hl Hv. unfold semantic_index_add. rewrite Nat.eqb_refl. cbn [negb orb]. destruct (Nat.eqb_spec (length vecs) 0); [lia|]. destruct (Nat.ltb_spec 64 (length vecs)); [lia|].
  cbn [orb]. destruct (removed_slots (so_rem ok) s ph m id I Hid) as (c & W1 & F1 & R1). set (s1 := remove_slots _ _ _ _ _) in *. cbn zeta.
  destruct (add_slots_spec (so_add ok) vecs s1 ph c id 0) as (s2 & -> & W2); [apply W1|apply W1|done|by rewrite (wr_dim _ _ _ _ W1)|].
  assert (rc_rep s2 (length <$> m)) as R2 by (destruct R1 as [A B C]; split; rewrite ?(wr_rc _ _ _ _ W2), ?(wr_rcn _ _ _ _ W2); done).
  rewrite O2, O3. destruct (rc_set_spec s2 _ id (length vecs) R2) as (t & k & -> & Wt & Et & Ek). eexists. split; [reflexivity|].
  pose proof (written_trans _ _ _ _ _ _ W1 W2) as W. assert (si_dim s2 = si_dim s) as Ed by (apply W). split; [|done]. split.
  - exists (put_slots c id 0 vecs). split; [apply contents_rc, W|]. split; [apply phase_rc, W|]. eapply flat_insert; [done|apply I|done|lia].
  - cbn [set_rc si_dim]. rewrite Ed. intros id' vs Hvs. apply lookup_insert_Some in Hvs as [[<- <-]|[_ Hvs]]; [done|by apply (ir_records _ _ _ I)].
  - split; cbn [set_rc si_rc si_rcn]; rewrite ?fmap_insert; done.
Qed.

Lemma semantic_index_remove_spec ok s ph m id : index_rep s ph m -> id_ok id ->
  index_rep (semantic_index_remove ok s id) ph (delete id m) /\ si_dim (semantic_index_remove ok s id) = si_dim s.
Proof.
  intros I Hid. unfold semantic_index_remove. destruct (removed_slots ok s ph m id I Hid) as (c & W & F & R). set (s1 := remove_slots _ _ _ _ _) in *.
  destruct (rc_del_spec s1 _ id R) as [R' (t & k & E)]. rewrite E in R' |- *. assert (si_dim s1 = si_dim s) as Ed by (apply W). split; [|done]. split.
  - exists c. split; [apply contents_rc, W|]. split; [apply phase_rc, W|done].
  - cbn [set_rc si_dim]. rewrite Ed. intros id' vs Hvs. apply lookup_delete_Some in Hvs as [_ Hvs]. by apply (ir_records _ _ _ I).
  - by rewrite fmap_delete.
Qed.

(** Removing one by one, in any order, the records that are not kept. *)
Lemma reconcile_fold (oks : Z -> nat -> VecOks) (keep : Z -> bool) (recs : list Z) s ph m : index_rep s ph m -> (forall id, id ∈ recs -> id_ok id) ->
  index_rep (foldl (fun (s : SemanticIndex) (rec : Z) => if keep rec then s else semantic_index_remove (oks rec) s rec) s recs) ph
    (filter (fun p : Z * list (list Z) => p.1 ∉ recs \/ keep p.1 = true) m).
Proof.
  revert s m. induction recs as [|rec recs IH]; intros s m I Hid; cbn [foldl].
  { rewrite map_filter_id; [done|]. intros id vs _. left. apply not_elem_of_nil. }
  destruct (keep rec) eqn:Ek.
  - replace (filter _ m) with (filter (fun p : Z * list (list Z) => p.1 ∉ recs \/ keep p.1 = true) m); [apply IH; [done|]; intros id Hi; apply Hid; by right|].
    apply map_filter_ext. intros id vs _. cbn. rewrite elem_of_cons. split; [|naive_solver]. intros [Hn|Hk]; [|by right].
    destruct (decide (id = rec)) as [->|]; [by right|left; naive_solver].
  - replace (filter _ m) with (filter (fun p : Z * list (list Z) => p.1 ∉ recs \/ keep p.1 = true) (delete rec m)).
    + apply IH; [|intros id Hi; apply Hid; by right]. apply semantic_index_remove_spec; [done|apply Hid; by left].
    + apply map_eq. intros id. apply option_eq. intros vs. rewrite !map_lookup_filter_Some, lookup_delete_Some. cbn. rewrite elem_of_cons.
      split; [naive_solver|]. intros [Hm Hk]. destruct (decide (id = rec)) as [->|]; [exfalso|]; naive_solver congruence.
Qed.

(** Reconciling keeps the records the caller keeps and no others. *)
Lemma semantic_index_reconcile_spec oks keep s ph m : index_rep s ph m ->
  index_rep (semantic_index_reconcile true oks keep s) ph (filter (fun p => keep p.1 = true) m).
Proof.
  intros I. unfold semantic_index_reconcile. destruct (ir_rc _ _ _ I) as [_ _ Hm].
  assert (forall id, id ∈ (entries (si_rc s)).*1 <-> is_Some (m !! id)) as He.
  { intros id. unfold ot_map in Hm. rewrite <- (fmap_is_Some length), <- lookup_fmap, <- Hm. split.
    - intros Hin. destruct (list_to_map (M := gmap Z nat) (entries (si_rc s)) !! id) eqn:E; [by eexists|]. by apply not_elem_of_list_to_map_2 in E.
    - intros [n E]. apply elem_of_list_to_map_2 in E. apply list_elem_of_fmap. by exists (id, n). }
  replace (filter (fun p => keep p.1 = true) m) with (filter (fun p : Z * list (list Z) => p.1 ∉ (entries (si_rc s)).*1 \/ keep p.1 = true) m).
  - apply reconcile_fold; [done|]. intros id Hi. apply He in Hi as [vs Hv]. by apply (ir_records _ _ _ I _ _ Hv).
  - apply map_filter_ext. intros id vs Hv. cbn. split; [|by right]. intros [Hn|Hk]; [|done]. destruct Hn. apply He. by eexists.
Qed.

(** ** The maintenance step *)

Record graph_oks (ok : GraphOks) : Prop := {
  gk_create : go_create ok = true; gk_add : forall k, add_oks (go_add ok k); gk_beam : forall k l, beam_all_ok (ao_beam (go_add ok k) l)
}.

Lemma build_graph_spec ok k h m dim vecs : graph_oks ok -> hn_wf h m -> hn_dim h = dim ->
  exists h', build_graph ok k h dim vecs = Some h' /\ hn_wf h' (ins_all m vecs) /\ hn_dim h' = dim.
Proof.
  intros Hok. revert k h m. induction vecs as [|[id v] vecs IH]; intros k h m W Hd; cbn [build_graph]; [by exists h|].
  pose proof (hnsw_add_ok (go_rb ok k) (go_add ok k) h m id v W (gk_add _ Hok k) (gk_beam _ Hok k)) as Ht. rewrite Hd in Ht.
  destruct (hnsw_add _ _ _ _ _ _) as [h1 b] eqn:E. cbn in Ht. subst b. unfold hnsw_add in E. rewrite Hd, Nat.eqb_refl in E. cbn [negb] in E.
  destruct (add_depth_spec 2 (go_rb ok k) (go_add ok k) h m id v W) as [W' [K1 K2]]; [right; by rewrite E|]. rewrite E in W', K2. cbn [fst] in *.
  unfold ins_all. cbn [foldl fst snd]. apply IH; [done|congruence].
Qed.

(** The shards built from the snapshot hold it. *)
Lemma build_run_spec oks j : (forall i, graph_oks (oks i)) -> (0 < jb_nshards j)%nat ->
  exists g, semantic_index_build_run true oks j = (set_job_shards j g, true) /\ length g = jb_nshards j /\ graph_rep (jb_dim j) g (ins_all ∅ (jb_vecs j)).
Proof.
  intros Hok Hn. unfold semantic_index_build_run. cbn [negb]. destruct (Nat.eqb_spec (jb_nshards j) 0); [lia|]. cbn zeta.
  assert (forall i, exists h, build_shard_worker (oks i) j i = Some h /\ hn_wf h (part (jb_nshards j) i (ins_all ∅ (jb_vecs j))) /\ hn_dim h = jb_dim j) as Hw.
  { intros i. unfold build_shard_worker. rewrite (gk_create _ (Hok i)). destruct (hnsw_create true _ _) as [h|] eqn:E; [|by unfold hnsw_create, hnsw_alloc in E].
    unfold hnsw_create in E. apply empty_wf in E as (W & _ & Hd). rewrite part_ins_all, part_empty. by apply build_graph_spec. }
  destruct (mapM _ (seq 0 (jb_nshards j))) as [g|] eqn:Em.
  - exists g. apply mapM_Some in Em. pose proof (Forall2_length _ _ _ Em) as Hlen. rewrite length_seq in Hlen. split; [done|]. split; [done|].
    intros i h Hi. rewrite <- Hlen. pose proof (lookup_lt_Some _ _ _ Hi) as Hlt. destruct (Forall2_lookup_r _ _ _ _ _ Em Hi) as (i' & Hi' & E).
    apply lookup_seq in Hi' as [-> _]. destruct (Hw i) as (h' & E' & ?). cbn in E. assert (h' = h) as -> by congruence. done.
  - exfalso. apply eq_None_not_Some in Em. apply Em. apply mapM_is_Some. rewrite Forall_forall. intros i _. destruct (Hw i) as (h & E & _). exists h. exact E.
Qed.

Lemma apply_deltas_spec rb ok k dim n g b ds base :
  length g = n -> (0 < n)%nat -> (b = true -> graph_rep dim g base) ->
  let r := apply_deltas rb ok k dim n (g, b) ds in length r.1 = n /\ (r.2 = true -> graph_rep dim r.1 (foldl replay base ds)).
Proof.
  intros Hl Hn. revert k g b base Hl. induction ds as [|d ds IH]; intros k g b base Hl Hg; cbn [apply_deltas foldl]; [done|]. cbn zeta in *.
  assert (length (apply_delta (rb k) (ok k) dim n (g, b) d).1 = n /\ ((apply_delta (rb k) (ok k) dim n (g, b) d).2 = true -> graph_rep dim (apply_delta (rb k) (ok k) dim n (g, b) d).1 (replay base d))) as [L1 G1].
  { unfold apply_delta, replay. destruct (lookup_lt_is_Some_2 g (shard_index (dl_synid d) n)) as [h Hh]; [rewrite Hl; by apply shard_index_lt|]. rewrite Hh. subst n. destruct (dl_vec d) as [v|].
    - destruct (hnsw_add _ _ _ _ _ _) as [h' b'] eqn:E. cbn [fst snd]. rewrite length_insert. split; [done|]. intros Hb. apply andb_true_iff in Hb as [-> ->]. by eapply graph_add; [apply Hg| |].
    - cbn [fst snd]. rewrite length_insert. split; [done|]. intros Hb. apply graph_remove; [by apply Hg|done]. }
  destruct (apply_delta _ _ _ _ _ _) as [g' b']. by apply IH.
Qed.

Lemma build_apply_spec rb ok j base : length (jb_shards j) = jb_nshards j -> (0 < jb_nshards j)%nat -> graph_rep (jb_dim j) (jb_shards j) base ->
  exists g b, semantic_index_build_apply rb ok j = (set_pending (set_job_shards j g) [], b) /\ length g = jb_nshards j /\
    (b = true -> graph_rep (jb_dim j) g (foldl replay base (jb_pending j))).
Proof.
  intros Hl Hn Hg. unfold semantic_index_build_apply. pose proof (apply_deltas_spec rb ok 0 (jb_dim j) (jb_nshards j) (jb_shards j) true (jb_pending j) base Hl Hn (fun _ => Hg)) as Ha.
  cbn zeta in Ha. destruct (apply_deltas _ _ _ _ _ _ _) as [g b]. by exists g, b.
Qed.

(** Contents and counts do not look at the state of a build. *)
Lemma contents_build s s' c : si_dim s' = si_dim s -> si_e s' = si_e s -> si_map s' = si_map s -> si_shards s' = si_shards s -> contents s c -> contents s' c.
Proof.
  intros E1 E2 E3 E4. unfold contents, graph_present. rewrite E4, E1. destruct (_ <? _)%nat; [done|]. intros [D1 D2 D3 D4 D5]. split; rewrite ?E1, ?E2, ?E3; done.
Qed.

(** Freeing the job leaves the index as it is and no build under way. *)
Lemma build_abort_spec s j c : contents s c -> (jb_nshards j <= length (jb_shards j))%nat ->
  exists s', semantic_index_build_abort s j = Some s' /\ contents s' c /\ phase_ok s' Idle c /\ si_dim s' = si_dim s /\ si_rc s' = si_rc s /\ si_rcn s' = si_rcn s.
Proof.
  intros Hc Hl. unfold semantic_index_build_abort, shards_free. rewrite (proj2 (Nat.leb_le _ _) Hl). eexists. split; [reflexivity|]. split; [by apply (contents_build s)|]. by split_and!.
Qed.

Lemma build_commit_spec rb ok s j c : contents s c -> in_build s j -> jb_pending j = [] -> caught_up s j c ->
  exists s' b, semantic_index_build_commit rb ok s j = Some (s', b) /\ contents s' c /\ phase_ok s' Idle c /\ si_dim s' = si_dim s /\ si_rc s' = si_rc s /\ si_rcn s' = si_rcn s.
Proof.
  intros Hc (Hb & Hg & Hd & Hn) Hpend (Hl & base & Hgr & Hj). unfold semantic_index_build_commit. destruct (si_failed s) eqn:Hf.
  { destruct (build_abort_spec s j c Hc) as (s' & -> & Hr); [lia|]. by exists s', false. }
  destruct Hj as [Hj|Hj]; [congruence|]. rewrite Hpend in Hj. cbn [foldl] in Hj. cbn [semantic_index_build_take_deltas]. unfold semantic_index_build_take_deltas.
  destruct (build_apply_spec rb ok (set_pending j (si_deltas s)) base Hl Hn Hgr) as (g & b & -> & Lg & Gg). cbn [set_pending jb_pending jb_nshards jb_dim] in Lg, Gg. destruct b.
  - eexists _, true. split; [reflexivity|]. split; [|by split_and!]. unfold contents, graph_present.
    cbn [drop_dense set_dense set_build set_shards set_deltas set_pending set_job_shards jb_shards si_shards si_dim]. rewrite (proj2 (Nat.ltb_lt _ _)) by lia. rewrite <- Hd, <- Hj. by apply Gg.
  - destruct (build_abort_spec (set_deltas s [] 0) (set_pending (set_job_shards (set_pending j (si_deltas s)) g) []) c) as (s' & -> & H1 & H2 & H3 & H4 & H5);
      [by apply (contents_build s)|cbn; lia|]. exists s', false. by split_and!.
Qed.

Record maint_oks (ok : MaintOks) : Prop := { mk_run : mo_run ok = true; mk_graph : forall i, graph_oks (mo_graph ok i) }.

Lemma pick_nshards_pos env cpus n target : (0 < pick_nshards env cpus n target)%nat.
Proof.
  unfold pick_nshards. cbn zeta. destruct (Nat.ltb_spec (n / resolve_shard_target env target) 2) as [?|Hge]; [lia|].
  set (b := (n / resolve_shard_target env target)%nat) in *. clearbody b. unfold SHARD_MAX.
  set (cap := if _ && _ then Z.to_nat cpus else 8%nat). assert (0 < cap)%nat by (subst cap; destruct (Z.ltb_spec 0 cpus); cbn [andb]; [destruct (_ <? _)%nat|]; lia).
  destruct (b <? cap)%nat; lia.
Qed.

Lemma build_step_spec ok s ph m : index_rep s ph m -> maint_oks ok ->
  exists s' ph', db_semantic_build_step ok s ph = Some (s', ph') /\ index_rep s' ph' m /\ si_dim s' = si_dim s.
Proof.
  intros [(c & Hc & Hp & Hf) Hm Hr] [O1 O2].
  assert (forall s' ph', contents s' c -> phase_ok s' ph' c -> si_dim s' = si_dim s -> si_rc s' = si_rc s -> si_rcn s' = si_rcn s -> index_rep s' ph' m) as Hgo.
  { intros s' ph' H1 H2 H3 H4 H5. split; [by exists c|by rewrite H3|]. destruct Hr as [R1 R2 R3]. split; rewrite ?H4, ?H5; done. }
  destruct ph as [|j|j round|j took round|j|j]; cbn [db_semantic_build_step phase_ok] in *.
  - unfold semantic_index_build_begin. destruct (semantic_index_needs_build s) eqn:En; cbn [negb]; [|exists s, Idle; split; [done|split; [by apply Hgo|done]]].
    destruct (mo_begin ok); cbn [negb]; [|exists s, Idle; split; [done|split; [by apply Hgo|done]]].
    eexists _, _. split; [reflexivity|]. split; [|done]. unfold semantic_index_needs_build in En. apply andb_true_iff in En as [En _]. apply andb_true_iff in En as [Hg _]. apply negb_true_iff in Hg.
    destruct Hp as [Hb Hde]. apply Hgo; try done; [by apply (contents_build s)|]. split; [split_and!; [done|done|done|apply pick_nshards_pos]|]. split; [done|]. split; [done|].
    right. cbn [set_build si_deltas jb_vecs]. rewrite Hde. cbn [foldl]. unfold contents in Hc. rewrite Hg in Hc. destruct Hc as [_ Hn _ _ ->].
    apply ins_all_nodup. by rewrite pairs_ids.
  - destruct Hp as (Hi & _ & Hpe & Hj). rewrite O1. destruct (build_run_spec (mo_graph ok) j O2) as (g & -> & Lg & Gg); [apply Hi|].
    eexists _, _. split; [reflexivity|]. split; [|done]. apply Hgo; try done. split; [done|]. split; [done|]. split; [done|]. exists (ins_all ∅ (jb_vecs j)). split; [done|].
    cbn [set_job_shards jb_pending]. by rewrite Hpe.
  - destruct Hp as (Hi & Hpe & Hcu). assert (phase_ok s (Failing j) c) as Hfail by (split; [done|destruct Hcu as [-> _]; lia]).
    destruct (_ <? _)%nat; [|exists s, (Failing j); split; [done|split; [by apply Hgo|done]]]. destruct (semantic_index_build_failed s) eqn:Ef.
    { exists s, (Failing j). split; [done|split; [by apply Hgo|done]]. }
    eexists _, _. split; [reflexivity|]. split; [|done]. apply Hgo; try done; [by apply (contents_build s)|]. split; [done|]. destruct Hcu as (Hl & base & Hg & Hj). split; [done|]. exists base. split; [done|].
    destruct Hj as [Hj|Hj]; [unfold semantic_index_build_failed in Ef; congruence|]. right. rewrite Hpe in Hj. done.
  - destruct Hp as (Hi & Hl & base & Hg & Hj). destruct (build_apply_spec (mo_rb ok) (mo_add ok) j base Hl) as (g & b & -> & Lg & Gg); [apply Hi|done|]. destruct b.
    + assert (caught_up s (set_pending (set_job_shards j g) []) c) as Hcu by (split; [done|]; exists (foldl replay base (jb_pending j)); split; [by apply Gg|done]).
      eexists _, _. split; [reflexivity|]. split; [|done]. apply Hgo; try done. destruct (_ <=? _)%nat; by split_and!.
    + eexists _, _. split; [reflexivity|]. split; [|done]. apply Hgo; try done. split; [done|]. cbn [set_pending set_job_shards jb_shards jb_nshards]. lia.
  - destruct Hp as (Hi & Hl). destruct (build_abort_spec s j c Hc Hl) as (s' & -> & H1 & H2 & H3 & H4 & H5). eexists _, _. split; [reflexivity|]. split; [by apply Hgo|done].
  - destruct Hp as (Hi & Hpe & Hcu). destruct (build_commit_spec (mo_rb ok) (mo_add ok) s j c Hc Hi Hpe Hcu) as (s' & b & -> & H1 & H2 & H3 & H4 & H5).
    eexists _, _. split; [reflexivity|]. split; [by apply Hgo|done].
Qed.
End semantic.
