(* ===== verification/SemanticAnswers.v ===== *)
(** * What the semantic index answers

    The index as a map from records to their vectors, through any interleaving
    of writers with the phases of a deferred build; the exact search; an index
    emptied while a build is under way. *)

From S2P Require Import Prelude Endian Floats OpenTable BinaryHeap Hnsw HnswCorrect HnswAnswers SemanticIndex SemanticTopK SemanticCorrect.

Section answers.
Context `{VecKernel}.

(** ** Writers and maintenance *)

Inductive SemEvent :=
  | EvAdd (ok : SemOks) (id : Z) (vecs : list (list Z))
  | EvRemove (ok : nat -> VecOks) (id : Z)
  | EvMaint (ok : MaintOks).

(** [None]: the process has crashed. *)
Definition sem_event (st : option (SemanticIndex * BuildPhase)) (ev : SemEvent) : option (SemanticIndex * BuildPhase) :=
  match st with
  | None => None
  | Some (s, ph) =>
      match ev with
      | EvAdd ok id vecs => Some (fst (semantic_index_add ok s id vecs (si_dim s)), ph)
      | EvRemove ok id => Some (semantic_index_remove ok s id, ph)
      | EvMaint ok => db_semantic_build_step ok s ph
      end
  end.

Definition spec_event (m : gmap Z (list (list Z))) (ev : SemEvent) : gmap Z (list (list Z)) :=
  match ev with EvAdd _ id vecs => <[id := vecs]> m | EvRemove _ id => delete id m | EvMaint _ => m end.

(** Ids below [2^58] and 1 to 64 vectors of the right dimension, with memory
    for them; a build with memory for its graphs. The journal, the snapshot,
    the replay of the journal and every rebuild may run out of memory. *)
Definition event_ok (dim : nat) (ev : SemEvent) : Prop :=
  match ev with
  | EvAdd ok id vecs => sem_oks ok /\ id_ok id /\ (0 < length vecs <= 64)%nat /\ Forall (fun v => length v = dim) vecs
  | EvRemove ok id => id_ok id
  | EvMaint ok => maint_oks ok
  end.

Lemma sem_event_spec s ph m ev : index_rep s ph m -> event_ok (si_dim s) ev ->
  exists s' ph', sem_event (Some (s, ph)) ev = Some (s', ph') /\ index_rep s' ph' (spec_event m ev) /\ si_dim s' = si_dim s.
Proof.
  intros I. destruct ev as [ok id vecs|ok id|ok]; cbn [event_ok sem_event spec_event].
  - intros (O & Hid & Hl & Hv). destruct (semantic_index_add_spec ok s ph m id vecs I O Hid Hl Hv) as (s' & -> & I' & Hd). by exists s', ph.
  - intros Hid. destruct (semantic_index_remove_spec ok s ph m id I Hid) as [I' Hd]. by eexists _, ph.
  - intros O. by apply build_step_spec.
Qed.

Lemma sem_events_spec evs s ph m : index_rep s ph m -> Forall (event_ok (si_dim s)) evs ->
  exists s' ph', foldl sem_event (Some (s, ph)) evs = Some (s', ph') /\ index_rep s' ph' (foldl spec_event m evs) /\ si_dim s' = si_dim s.
Proof.
  intros I Hev. remember (si_dim s) as dim eqn:Ed. revert s ph m I Ed. induction Hev as [|ev evs Hev _ IH]; intros s ph m I ->; cbn [foldl]; [by exists s, ph|].
  destruct (sem_event_spec s ph m ev I Hev) as (s1 & ph1 & -> & I1 & Ed). destruct (IH s1 ph1 _ I1 (eq_sym Ed)) as (s' & ph' & E & I' & Ed'). by exists s', ph'.
Qed.

Lemma created_rep ok dim thr ef q target s : semantic_index_create ok dim thr ef q target = Some s -> index_rep s Idle ∅ /\ si_dim s = dim.
Proof.
  unfold semantic_index_create. destruct ok; [|done]. intros [= <-]. split; [|done]. split.
  - exists ∅. split; [|split; [done|]].
    + unfold contents, graph_present. cbn. split; try done; [by left|constructor].
    + intros k v. rewrite lookup_empty. split; [done|]. intros (id & vs & slot & Hv & _). by rewrite lookup_empty in Hv.
  - intros id vs Hv. by rewrite lookup_empty in Hv.
  - split; [by left|done|done].
Qed.

(** ** What is stored *)

(** The walk over everything stored: the dense array, or every graph. *)
Definition stored (s : SemanticIndex) : list (Z * list Z) :=
  if graph_present s then concat (map (fun h => hnsw_foreach_live true collect_live h []) (si_shards s)) else map entry_pair (si_e s).

Lemma concat_indexed {A B} (F : A -> list B) (G : nat -> list B) (g : list A) k :
  (forall i h, g !! i = Some h -> F h ≡ₚ G (k + i)%nat) -> concat (map F g) ≡ₚ concat (map G (seq k (length g))).
Proof.
  revert k. induction g as [|h g IH]; intros k Hg; cbn; [done|]. rewrite (Hg 0%nat h eq_refl), Nat.add_0_r. f_equiv. apply (IH (S k)).
  intros i x Hi. replace (S k + i)%nat with (k + S i)%nat by lia. by apply Hg.
Qed.

Lemma concat_extra {B} (F G : nat -> list B) x i0 k n : (k <= i0 < k + n)%nat -> F i0 ≡ₚ x :: G i0 -> (forall i, i <> i0 -> F i ≡ₚ G i) ->
  concat (map F (seq k n)) ≡ₚ x :: concat (map G (seq k n)).
Proof.
  intros Hi Hx Ho. revert k Hi. induction n as [|n IH]; intros k Hi; [lia|]. cbn. destruct (decide (k = i0)) as [->|Hne].
  - rewrite Hx. cbn. apply perm_skip. f_equiv. assert (forall l, Forall (fun i => i <> i0) l -> concat (map F l) ≡ₚ concat (map G l)) as Hl.
    { induction 1 as [|y l Hy _ IHl]; cbn; [done|]. by rewrite (Ho y Hy), IHl. }
    apply Hl. rewrite Forall_forall. intros y Hy. apply elem_of_seq in Hy. lia.
  - rewrite (Ho k Hne), (IH (S k)) by lia. by rewrite Permutation_middle.
Qed.

(** The parts of all shards are the whole. *)
Lemma concat_parts n c : (0 < n)%nat -> concat (map (fun i => map_to_list (part n i c)) (seq 0 n)) ≡ₚ map_to_list c.
Proof.
  intros Hn. induction c as [|id v c Hid IH] using map_ind.
  - rewrite map_to_list_empty. assert (forall l, concat (map (fun i => map_to_list (part n i ∅)) l) = []) as ->; [|done].
    induction l as [|i l IHl]; cbn; [done|]. by rewrite part_empty, map_to_list_empty.
  - rewrite map_to_list_insert by done. rewrite <- IH. apply (concat_extra _ _ (id, v) (shard_index id n)); [pose proof (shard_index_lt id n Hn); lia| |].
    + rewrite part_insert, decide_True by done. rewrite map_to_list_insert; [done|]. by rewrite part_lookup, decide_True.
    + intros i Hi. by rewrite part_insert, decide_False by congruence.
Qed.

Lemma fst_concat {A B} (l : list (list (A * B))) : (concat l).*1 = concat (map (fmap fst) l).
Proof. induction l as [|x l IH]; cbn; [done|]. by rewrite fmap_app, IH. Qed.

Lemma elements_dom_perm (m : gmap Z (list Z)) : elements (dom m) ≡ₚ (map_to_list m).*1.
Proof.
  apply NoDup_Permutation; [apply NoDup_elements|apply NoDup_fst_map_to_list|]. intros k. rewrite elem_of_elements, elem_of_dom, list_elem_of_fmap. split.
  - intros [v Hv]. exists (k, v). split; [done|]. by apply elem_of_map_to_list.
  - intros ([k' v] & -> & Hin). apply elem_of_map_to_list in Hin. by exists v.
Qed.

Lemma stored_ids s c : contents s c -> (stored s).*1 ≡ₚ (map_to_list c).*1.
Proof.
  unfold contents, stored. destruct (graph_present s) eqn:Hg; intros Hc.
  - apply Nat.ltb_lt in Hg. rewrite <- (concat_parts (length (si_shards s)) c Hg), !fst_concat, !map_map.
    apply concat_indexed. intros i h Hi. destruct (Hc i h Hi) as [W _]. cbn. rewrite (foreach_live_ids _ _ W). apply elements_dom_perm.
  - pose proof Hc as [_ Hn _ _ ->]. by rewrite map_to_list_to_map by (by rewrite pairs_ids).
Qed.

Lemma stored_pairs s c : contents s c -> Forall (fun h => hnsw_is_quantized h = false) (si_shards s) -> stored s ≡ₚ map_to_list c.
Proof.
  unfold contents, stored. destruct (graph_present s) eqn:Hg; intros Hc Hq.
  - apply Nat.ltb_lt in Hg. rewrite <- (concat_parts (length (si_shards s)) c Hg). apply concat_indexed. intros i h Hi. destruct (Hc i h Hi) as [W _].
    rewrite Forall_lookup in Hq. by rewrite (foreach_live_vectors _ _ W (Hq i h Hi)).
  - pose proof Hc as [_ Hn _ _ ->]. by rewrite map_to_list_to_map by (by rewrite pairs_ids).
Qed.

Lemma count_stored s c : contents s c -> semantic_index_count s = length (map_to_list c).
Proof.
  unfold contents, semantic_index_count. destruct (graph_present s) eqn:Hg; intros Hc; [|by rewrite length_map_to_list, (dense_size _ _ Hc)].
  apply Nat.ltb_lt in Hg. rewrite <- (concat_parts (length (si_shards s)) c Hg). unfold graph_count.
  assert (forall (g : list Hnsw) k a, (forall i h, g !! i = Some h -> hnsw_count h = length (map_to_list (part (length (si_shards s)) (k + i) c))) ->
    foldl (fun n g => n + hnsw_count g)%nat a g = (a + length (concat (map (fun i => map_to_list (part (length (si_shards s)) i c)) (seq k (length g)))))%nat) as Hsum.
  { induction g as [|h g IH]; intros k a Hg'; cbn; [lia|]. rewrite (IH (S k)).
    - rewrite length_app, (Hg' 0%nat h eq_refl), Nat.add_0_r. lia.
    - intros i x Hi. replace (S k + i)%nat with (k + S i)%nat by lia. by apply Hg'. }
  rewrite (Hsum _ 0%nat); [done|]. intros i h Hi. destruct (Hc i h Hi) as [W _]. unfold hnsw_count. rewrite length_map_to_list, <- (hw_count _ _ W).
  rewrite <- (size_dom (D := gset Z) (ot_map _)), <- (size_dom (D := gset Z) (part _ _ _)). by rewrite (hw_dom _ _ W).
Qed.

(** C35: The semantic index implements a map from records to their vectors.
    Whatever additions and removals writers make, and wherever they fall
    between the steps of a deferred build (snapshot, construction, rounds of
    catching up with the journal, installation or failure), the index never
    loses or resurrects a vector: the counts per record are those of the map,
    and the dense array or the graphs store exactly the vectors of its
    records, bit for bit unless a graph is quantized. *)
Theorem semantic_index_refines (dim thr ef target : nat) (q : bool) (s0 : SemanticIndex) (evs : list SemEvent) :
  semantic_index_create true dim thr ef q target = Some s0 -> Forall (event_ok dim) evs ->
  exists s ph, foldl sem_event (Some (s0, Idle)) evs = Some (s, ph) /\
    let m := foldl spec_event ∅ evs in
    (forall id, rc_get s id = default 0%nat (length <$> m !! id)) /\
    exists c, flat_of c m /\ semantic_index_count s = size c /\ (stored s).*1 ≡ₚ elements (dom c) /\
      (Forall (fun h => hnsw_is_quantized h = false) (si_shards s) -> stored s ≡ₚ map_to_list c).
Proof.
  intros Hc Hev. apply created_rep in Hc as [I0 Hd]. rewrite <- Hd in Hev. destruct (sem_events_spec evs s0 Idle ∅ I0 Hev) as (s & ph & E & I & _).
  exists s, ph. split; [done|]. cbn zeta. destruct I as [(c & Hco & _ & Hf) _ Hr]. split; [intros id; by rewrite (rc_get_spec _ _ _ Hr), lookup_fmap|].
  exists c. split; [done|]. split; [by rewrite (count_stored _ _ Hco), length_map_to_list|]. split; [by rewrite (stored_ids _ _ Hco), elements_dom_perm|]. by apply stored_pairs.
Qed.
(** ** Exact search *)

(** The cosine similarity of a vector to the query, as the scan computes it. *)
Definition vec_score (query v : list Z) : spec_float :=
  let denom := f32_mul (vk_norm v) (vk_norm query) in
  if SFltb f32_zero denom then f32_div (vk_dot v query) denom else f32_zero.

Lemma dense_candidates_elem s c m query x : dense_rep s c -> flat_of c m -> records_ok (si_dim s) m ->
  x ∈ dense_candidates query (si_e s) <-> exists id vs v, m !! id = Some vs /\ v ∈ vs /\ x = mkScored id (vec_score query v).
Proof.
  intros D Hf Hm. unfold dense_candidates. rewrite list_elem_of_omap. pose proof (dr_entries _ _ D) as He. rewrite Forall_forall in He. split.
  - intros (e & Hin & E). destruct (He e Hin) as (Hu & Hn & _). rewrite Hu in E. injection E as <-. apply list_elem_of_lookup in Hin as [i Hi].
    assert (c !! se_id e = Some (se_vec e)) as Hc by (apply (dense_lookup s c _ _ D); by exists i, e). apply Hf in Hc as (id & vs & slot & Hv & Hs & Eid).
    exists id, vs, (se_vec e). split; [done|]. split; [by eapply list_elem_of_lookup_2|]. destruct (Hm _ _ Hv) as (Hid & Hl & _). pose proof (lookup_lt_Some _ _ _ Hs).
    rewrite Eid, mv_rec_syn by (done || lia). f_equal. unfold dense_score, vec_score. by rewrite Hn.
  - intros (id & vs & v & Hv & Hin & ->). apply list_elem_of_lookup in Hin as [slot Hs]. destruct (Hm _ _ Hv) as (Hid & Hl & _). pose proof (lookup_lt_Some _ _ _ Hs).
    assert (c !! mv_syn id slot = Some v) as Hc by (apply Hf; by exists id, vs, slot). apply (dense_lookup s c _ _ D) in Hc as (i & e & Hi & Eid & Ev).
    exists e. split; [by eapply list_elem_of_lookup_2|]. destruct (He e) as (Hu & Hn & _); [by eapply list_elem_of_lookup_2|]. rewrite Hu, Eid, mv_rec_syn by (done || lia).
    do 2 f_equal. unfold dense_score, vec_score. by rewrite Hn, Ev.
Qed.

Definition search_oks (ok : SearchOks) : Prop := sk_cand ok = true /\ sk_dedup ok = true /\ sk_out ok = true.

(** C36: While no graph serves the index, a search is exact: it answers the
    [top_k] records (all for 0) whose best vector is nearest to the query, each
    once, with the score of that vector, in descending order; no record left
    out has a vector that scores higher than one answered. Condition: no stored
    vector's score for this query is NaN, which overflowing squares of large
    finite components can make it ([nan_score_first]). *)
Theorem semantic_search_exact (s : SemanticIndex) (ph : BuildPhase) (m : gmap Z (list (list Z))) (ok : SearchOks) (query : list Z) (top_k : nat) :
  index_rep s ph m -> graph_present s = false -> search_oks ok ->
  (forall id vs v, m !! id = Some vs -> v ∈ vs -> vec_score query v <> S754_nan) ->
  exists ans, semantic_index_search ok s query (si_dim s) top_k = Some ans /\
    length ans = (if (top_k =? 0)%nat then size m else Nat.min top_k (size m)) /\ NoDup ans.*1 /\
    StronglySorted (fun a b => SFltb a.2 b.2 = false) ans /\
    Forall (fun p => exists vs, m !! p.1 = Some vs /\ (exists v, v ∈ vs /\ p.2 = vec_score query v) /\ Forall (fun v => SFltb p.2 (vec_score query v) = false) vs) ans /\
    forall id vs v, m !! id = Some vs -> v ∈ vs -> id ∉ ans.*1 -> Forall (fun p => SFltb p.2 (vec_score query v) = false) ans.
Proof.
  intros [(c & Hc & _ & Hf) Hm _] Hg (O1 & O2 & O3) Hnum. unfold contents in Hc. rewrite Hg in Hc. unfold semantic_index_search. rewrite Nat.eqb_refl, Hg, O1, O2, O3. cbn [negb].
  pose proof (fun x => dense_candidates_elem s c m query x Hc Hf Hm) as Hel. destruct (dedup_topk_spec (dense_candidates query (si_e s)) top_k) as (ans & E & [T1 T2 T3 T4 T5]).
  { rewrite Forall_forall. intros x Hx. apply Hel in Hx as (id & vs & v & Hv & Hin & ->). by eapply Hnum. }
  exists ans. split; [done|]. split; [|split; [done|split; [done|split]]].
  - rewrite T5. cbn zeta. assert (list_to_set (sc_id <$> dense_candidates query (si_e s)) = dom m) as ->; [|by rewrite size_dom].
    apply set_eq. intros id. rewrite elem_of_list_to_set, elem_of_dom, list_elem_of_fmap. split.
    + intros (x & -> & Hx). apply Hel in Hx as (id & vs & v & Hv & _ & ->). by exists vs.
    + intros [vs Hv]. destruct (Hm _ _ Hv) as (_ & Hl & _). destruct vs as [|v vs]; [cbn in Hl; lia|]. exists (mkScored id (vec_score query v)). split; [done|]. apply Hel.
      exists id, (v :: vs), v. split; [done|]. split; [by left|done].
  - rewrite Forall_forall in T3 |- *. intros p Hp. destruct (T3 p Hp) as [Hin Hb]. apply Hel in Hin as (id & vs & v & Hv & Hin & Ep). injection Ep as E1 E2. exists vs. rewrite E1.
    split; [done|]. split; [by exists v|]. rewrite Forall_forall. intros v' Hv'. apply (Hb (mkScored id (vec_score query v'))); [|done]. apply Hel. by exists id, vs, v'.
  - intros id vs v Hv Hin Hno. apply (T4 (mkScored id (vec_score query v))); [|done]. apply Hel. by exists id, vs, v.
Qed.
End answers.

(** ** A small index *)

Section demo.
#[local] Existing Instance ieee_kernel.

Definition demo_vec_oks : VecOks := mkVecOks true true true true true true demo_add demo_rebuild.
Definition demo_sem_oks : SemOks := mkSemOks (fun _ => demo_vec_oks) (fun _ => demo_vec_oks) true true.
Definition demo_graph_oks : GraphOks := mkGraphOks true (fun _ => demo_add) (fun _ => demo_rebuild).
Definition demo_maint : MaintOks := mkMaintOks true None 4 true (fun _ => demo_graph_oks) (fun _ => demo_rebuild) (fun _ => demo_add).
Definition demo_search : SearchOks := mkSearchOks true (fun _ => demo_beam) (fun _ => true) true true.

(** An index of two dimensions that wants a graph from two vectors on. *)
Definition demo_index : SemanticIndex := default (mkSem 0 [] 0 [] [] 0 [] 0 0 false 0 false false [] 0) (semantic_index_create true 2 2 0 false 0).
Definition demo_store (id : Z) (vecs : list (list Z)) : SemEvent := EvAdd demo_sem_oks id vecs.

(** A build is begun and run; a record is added and another removed before it
    is installed. *)
Definition demo_events : list SemEvent :=
  [demo_store 1 [demo_east]; demo_store 2 [demo_north; demo_between]; EvMaint demo_maint; EvMaint demo_maint;
   demo_store 3 [demo_between]; EvRemove (fun _ => demo_vec_oks) 1; EvMaint demo_maint; EvMaint demo_maint; EvMaint demo_maint].

Lemma demo_vec_oks_ok : vec_oks demo_vec_oks.
Proof. split; [by split_and!|]. split; [apply demo_add_oks|]. intros l. apply demo_beam_ok. Qed.
Lemma demo_maint_ok : maint_oks demo_maint.
Proof. split; [done|]. intros i. split; [done|intros; apply demo_add_oks|intros; apply demo_beam_ok]. Qed.
Lemma demo_store_ok id vecs : id_ok id -> (0 < length vecs <= 64)%nat -> Forall (fun v => length v = 2%nat) vecs -> event_ok 2 (demo_store id vecs).
Proof. intros H1 H2 H3. split; [|done]. split; [intros; apply demo_vec_oks_ok|done|done]. Qed.

Lemma demo_events_ok : Forall (event_ok 2) demo_events.
Proof.
  assert (Forall (fun v => length v = 2%nat) [demo_east; demo_north; demo_between]) as Hv by (by repeat constructor). rewrite Forall_forall in Hv.
  repeat apply Forall_cons_2; try apply Forall_nil_2; try apply demo_maint_ok; try (unfold event_ok, id_ok; lia);
    (apply demo_store_ok; [unfold id_ok; lia|cbn; lia|by repeat constructor]).
Qed.

Lemma demo_run : option_map (fun st => (length (si_shards (fst st)), stored (fst st))) (foldl sem_event (Some (demo_index, Idle)) demo_events) =
  Some (1%nat, [(mv_syn 2 0, demo_north); (mv_syn 2 1, demo_between); (mv_syn 3 0, demo_between)]).
Proof. vm_compute. reflexivity. Qed.

Lemma semantic_index_refines_witness :
  exists s ph, foldl sem_event (Some (demo_index, Idle)) demo_events = Some (s, ph) /\ rc_get s 2 = default 0%nat (length <$> (foldl spec_event ∅ demo_events : gmap Z (list (list Z))) !! 2).
Proof.
  destruct (semantic_index_refines 2 2 0 0 false demo_index demo_events eq_refl demo_events_ok) as (s & ph & E & Hr & _). exists s, ph. exact (conj E (Hr 2)).
Defined.

(** Two records and no graph yet. *)
Definition demo_two : list SemEvent := [demo_store 1 [demo_east]; demo_store 2 [demo_north; demo_between]].
Definition demo_two_map : gmap Z (list (list Z)) := foldl spec_event ∅ demo_two.
Definition demo_two_index : SemanticIndex := match foldl sem_event (Some (demo_index, Idle)) demo_two with Some (s, _) => s | None => demo_index end.

Lemma demo_two_ok : Forall (event_ok 2) demo_two.
Proof. repeat apply Forall_cons_2; try apply Forall_nil_2; (apply demo_store_ok; [unfold id_ok; lia|cbn; lia|by repeat constructor]). Qed.

Lemma demo_two_rep : index_rep demo_two_index Idle demo_two_map.
Proof.
  destruct (created_rep true 2 2 0 false 0 demo_index eq_refl) as [I0 Hd].
  destruct (sem_events_spec demo_two demo_index Idle ∅ I0) as (s & ph & E & I & _); [by rewrite Hd; apply demo_two_ok|].
  assert (ph = Idle) as ->.
  { assert (option_map snd (foldl sem_event (Some (demo_index, Idle)) demo_two) = Some Idle) as E2 by (vm_compute; reflexivity). rewrite E in E2. by injection E2. }
  unfold demo_two_index, demo_two_map. by rewrite E.
Qed.

Lemma demo_two_numbers id vs v : demo_two_map !! id = Some vs -> v ∈ vs -> vec_score demo_between v <> S754_nan.
Proof.
  intros Hv Hin.
  assert (forallb (fun p => forallb (fun v => match vec_score demo_between v with S754_nan => false | _ => true end) p.2) (map_to_list demo_two_map) = true) as Hall by (vm_compute; reflexivity).
  rewrite forallb_forall in Hall. specialize (Hall (id, vs)). rewrite forallb_forall in Hall.
  assert (match vec_score demo_between v with S754_nan => false | _ => true end = true) as Hn; [|intros E; by rewrite E in Hn].
  apply Hall; [by apply list_elem_of_In, elem_of_map_to_list|by apply list_elem_of_In].
Qed.

Lemma demo_two_dense : graph_present demo_two_index = false.
Proof. vm_compute. reflexivity. Qed.

Lemma semantic_search_exact_witness :
  exists ans, semantic_index_search demo_search demo_two_index demo_between (si_dim demo_two_index) 1 = Some ans /\ length ans = Nat.min 1 (size demo_two_map).
Proof.
  destruct (semantic_search_exact demo_two_index Idle demo_two_map demo_search demo_between 1 demo_two_rep demo_two_dense ltac:(by split_and!) demo_two_numbers) as (ans & E & Hl & _).
  exists ans. exact (conj E Hl).
Defined.

(** Finite components can give a score that is not a number: the squares of
    1e30 overflow, the norm and the product of the norms are infinite, and so
    is the dot product with a query of 1e10. That record is answered first,
    before one whose score is 1. *)
Definition huge_events : list SemEvent := [demo_store 1 [[0x7149F2CA; 0]]; demo_store 2 [[0x3F800000; 0]]].
Example nan_score_first :
  option_map (fun st => (semantic_index_search demo_search (fst st) [0x501502F9; 0] 2 1, vec_score [0x501502F9; 0] [0x3F800000; 0]))
    (foldl sem_event (Some (demo_index, Idle)) huge_events) = Some (Some [(1, S754_nan)], f32_of_bits 0x3F800000).
Proof. vm_compute. reflexivity. Qed.

(** An index emptied while a build is under way, as a follower does when it
    starts over, gets the old vectors back when the build is installed, and
    loses what was added in between: the journal stops at the reset and the
    installation does not notice it. *)
Theorem reset_during_build :
  let before := foldl sem_event (Some (demo_index, Idle)) [demo_store 1 [demo_east]; demo_store 2 [demo_north]; EvMaint demo_maint; EvMaint demo_maint] in
  let reset := option_map (fun st => (semantic_index_clear (fst st), snd st)) before in
  let after := foldl sem_event reset [demo_store 7 [demo_between]; EvMaint demo_maint; EvMaint demo_maint; EvMaint demo_maint] in
  option_map (fun st => (stored (fst st), rc_get (fst st) 7, option_map (map fst) (semantic_index_search demo_search (fst st) demo_east 2 10))) after =
    Some ([(mv_syn 1 0, demo_east); (mv_syn 2 0, demo_north)], 1%nat, Some [1; 2]).
Proof. vm_compute. reflexivity. Qed.

(** A build that runs out of memory crashes the process: the job is freed with
    the number of its graphs but without the graphs. *)
Theorem failed_build_crashes :
  foldl sem_event (Some (demo_index, Idle)) [demo_store 1 [demo_east]; demo_store 2 [demo_north]; EvMaint demo_maint;
    EvMaint (mkMaintOks true None 4 false (fun _ => demo_graph_oks) (fun _ => demo_rebuild) (fun _ => demo_add)); EvMaint demo_maint] = None.
Proof. vm_compute. reflexivity. Qed.

(** An addition that runs out of memory after its first vector leaves the vector
    without a count: removing the record does not remove it, and searches
    answer it. *)
Theorem failed_add_leaves_vector :
  let oks := mkSemOks (fun _ => demo_vec_oks) (fun k => mkVecOks true (k =? 0)%nat true true true true demo_add demo_rebuild) true true in
  let '(s, ok) := semantic_index_add oks demo_index 5 [demo_east; demo_north] 2 in
  let s := semantic_index_remove (fun _ => demo_vec_oks) s 5 in
  ok = false /\ stored s = [(mv_syn 5 0, demo_east)] /\ option_map (map fst) (semantic_index_search demo_search s demo_east 2 1) = Some [5].
Proof. vm_compute. done. Qed.
End demo.
