(* ===== verification/SemanticPersist.v ===== *)
(** * Saving and loading the semantic index

    [semantic_index_save] and [semantic_index_load] of
    [src/storage/semantic_index.c]: a single graph is written to the checkpoint
    file; loading it rebuilds the number of vectors of each record from the
    synthetic ids of the live nodes. *)

From S2P Require Import Prelude Endian Floats OpenTable BinaryHeap Hnsw HnswCorrect HnswAnswers HnswFile SemanticIndex SemanticTopK SemanticCorrect SemanticAnswers.

(** What becomes of the checkpoint file: written with these bytes, or removed. *)
Inductive SaveAction := SaveFile (bytes : list Z) | SaveUnlink | SaveFailed.

Definition semantic_index_save (ok : bool) (s : SemanticIndex) (covered : Z) : SaveAction :=
  match si_shards s with
  | [g] => match hnsw_save ok g covered with Some b => SaveFile b | None => SaveFailed end
  | _ => SaveUnlink
  end.

(** What [hnsw_load] answers, as far as the index sees it. *)
Definition loaded_graph (r : LoadOutcome) : option (Hnsw * Z) := match r with LdGraph h covered => Some (h, covered) | _ => None end.

Lemma mv_slot_syn id slot : id_ok id -> (slot < 64)%nat -> mv_slot (mv_syn id slot) = slot.
Proof.
  intros Hid Hs. rewrite mv_syn_val by done. unfold mv_slot, MV_SLOT_MASK. change 63 with (Z.ones 6). rewrite Z.land_ones by lia. change (2 ^ 6) with 64.
  rewrite Z.add_comm, Z.mod_add, Z.mod_small by lia. lia.
Qed.

(** ** Counting the slots *)

(** One more than the highest slot of [rec] among the ids. *)
Definition top_slot (rec : Z) (ids : list Z) : nat := foldr (fun k n => if mv_rec k =? rec then Nat.max (S (mv_slot k)) n else n) 0%nat ids.

Lemma top_slot_app rec a b : top_slot rec (a ++ b) = Nat.max (top_slot rec a) (top_slot rec b).
Proof. unfold top_slot. induction a as [|k a IH]; cbn [app foldr]; [done|]. rewrite IH. destruct (_ =? _); lia. Qed.

Lemma top_slot_ge rec ids k : k ∈ ids -> mv_rec k = rec -> (S (mv_slot k) <= top_slot rec ids)%nat.
Proof.
  intros Hk <-. induction ids as [|x ids IH]; [by apply elem_of_nil in Hk|]. unfold top_slot in *. cbn [foldr]. apply elem_of_cons in Hk as [->|Hk]; [rewrite Z.eqb_refl; lia|].
  specialize (IH Hk). destruct (_ =? _); lia.
Qed.

Lemma top_slot_le rec ids n : (forall k, k ∈ ids -> mv_rec k = rec -> (mv_slot k < n)%nat) -> (top_slot rec ids <= n)%nat.
Proof.
  intros Hn. induction ids as [|x ids IH]; unfold top_slot in *; cbn [foldr]; [lia|]. specialize (IH (fun k Hk => Hn k (list_elem_of_further _ _ _ Hk))).
  destruct (Z.eqb_spec (mv_rec x) rec) as [E|]; [|done]. specialize (Hn x ltac:(by left) E). lia.
Qed.

Section persist.
Context `{VecKernel}.

(** The counts after the nodes with the given ids. *)
Record counted (s0 s : SemanticIndex) (ids : list Z) (r : gmap Z nat) : Prop := {
  ct_rc : rc_rep s r; ct_only : exists t n, s = set_rc s0 t n;
  ct_top : forall rec, default 0%nat (r !! rec) = top_slot rec ids; ct_pos : forall rec n, r !! rec = Some n -> (0 < n)%nat
}.

Lemma rc_rebuild_step s0 s ids r ok k v : (forall k, ok k = (true, true)) -> counted s0 s ids r ->
  exists s' r', rc_rebuild_cb ok k v (s, false) = (s', false, false) /\ counted s0 s' (ids ++ [k]) r'.
Proof.
  intros Hok [C1 (t0 & n0 & C2) C3 C4]. unfold rc_rebuild_cb. rewrite Hok. cbn [fst snd]. rewrite (rc_get_spec _ _ _ C1), C3.
  assert (forall rec, top_slot rec (ids ++ [k]) = if mv_rec k =? rec then Nat.max (top_slot rec ids) (S (mv_slot k)) else top_slot rec ids) as Ht.
  { intros rec. rewrite top_slot_app. unfold top_slot at 2. cbn [foldr]. destruct (_ =? _); lia. }
  destruct (Nat.ltb_spec (top_slot (mv_rec k) ids) (mv_slot k + 1)) as [Hlt|Hge].
  - destruct (rc_set_spec s r (mv_rec k) (mv_slot k + 1) C1) as (t & n & -> & Wt & Et & En). eexists _, (<[mv_rec k := (mv_slot k + 1)%nat]> r). split; [reflexivity|]. split.
    + by split.
    + exists t, n. rewrite C2. done.
    + intros rec. rewrite Ht, lookup_insert. destruct (Z.eqb_spec (mv_rec k) rec) as [<-|Hne]; [rewrite decide_True by done; cbn; lia|]. rewrite decide_False by done. apply C3.
    + intros rec x Hx. apply lookup_insert_Some in Hx as [[_ <-]|[_ Hx]]; [lia|by eapply C4].
  - eexists s, r. split; [reflexivity|]. split; try done; [by exists t0, n0|]. intros rec. rewrite Ht, C3. destruct (Z.eqb_spec (mv_rec k) rec) as [<-|Hne]; [lia|done].
Qed.

Lemma rc_rebuild_walk ok s0 ns s ids r : (forall k, ok k = (true, true)) -> counted s0 s ids r ->
  exists s' r', foreach_nodes (rc_rebuild_cb ok) ns (s, false) = (s', false) /\ counted s0 s' (ids ++ (live_pairs ns).*1) r'.
Proof.
  intros Hok. revert s ids r. induction ns as [|nd ns IH]; intros s ids r C; cbn [foreach_nodes]; [exists s, r; cbn; by rewrite app_nil_r|].
  unfold live_pairs. cbn [omap list_omap]. destruct (nd_deleted nd); [by eapply IH|].
  destruct (rc_rebuild_step s0 s ids r ok (nd_id nd) (stored_float (nd_vec nd)) Hok C) as (s1 & r1 & -> & C1).
  destruct (IH s1 _ r1 C1) as (s' & r' & E & C'). exists s', r'. split; [done|]. cbn. by rewrite <- app_assoc in C'.
Qed.

(** The counts of the records whose vectors have these ids. *)
Lemma top_slot_records dim c m (ids : list Z) rec : flat_of c m -> records_ok dim m -> (forall k, k ∈ ids <-> is_Some (c !! k)) ->
  top_slot rec ids = default 0%nat (length <$> m !! rec).
Proof.
  intros Hf Hm Hids. apply Nat.le_antisymm.
  - apply top_slot_le. intros k Hk Hr. apply Hids in Hk as [v Hv]. apply Hf in Hv as (id & vs & slot & Hi & Hs & ->). destruct (Hm _ _ Hi) as (Hid & Hl & _). pose proof (lookup_lt_Some _ _ _ Hs).
    rewrite mv_rec_syn in Hr by (done || lia). subst rec. rewrite Hi. cbn. rewrite mv_slot_syn by (done || lia). lia.
  - destruct (m !! rec) as [vs|] eqn:Hi; cbn; [|lia]. destruct (Hm _ _ Hi) as (Hid & Hl & _). destruct (lookup_lt_is_Some_2 vs (length vs - 1)) as [v Hv]; [lia|].
    assert (mv_syn rec (length vs - 1) ∈ ids) as Hin by (apply Hids; exists v; apply Hf; by exists rec, vs, (length vs - 1)%nat).
    apply (top_slot_ge rec) in Hin; [|apply mv_rec_syn; [done|lia]]. rewrite mv_slot_syn in Hin by (done || lia). lia.
Qed.

(** An index served by one graph survives a restart: what
    [semantic_index_save] writes loads into a fresh index of the same
    configuration, which then holds the same vectors and counts the same
    number of them for every record, so that later removals and replacements
    find them all. *)
Theorem semantic_index_roundtrip (s s0 : SemanticIndex) (g : Hnsw) (m : gmap Z (list (list Z))) (covered : Z) (ok : LoadOks) (rc : Z -> bool * bool) :
  index_rep s Idle m -> si_shards s = [g] -> file_ok g covered -> load_all_ok ok -> (forall k, rc k = (true, true)) ->
  semantic_index_create true (si_dim s) (si_threshold s) (si_ef s) (hn_quantized g) (si_target s) = Some s0 ->
  exists img s', semantic_index_save true s covered = SaveFile img /\
    semantic_index_load true true rc (loaded_graph (hnsw_load ok (Some img) (si_dim s))) s0 = (s', Some covered) /\ index_rep s' Idle m.
Proof.
  intros [(c & Hc & _ & Hf) Hm Hr] Hg F Hok Hrc Hs0. unfold semantic_index_save. rewrite Hg. unfold contents, graph_present in Hc. rewrite Hg in Hc. cbn [length Nat.ltb Nat.leb] in Hc.
  destruct (Hc 0%nat g eq_refl) as [W Hd]. destruct (hnsw_file_roundtrip g _ covered ok W F Hok) as (img & t & -> & El & Wt). rewrite Hd in El. exists img.
  set (g' := set_map (set_ncap g (length (hn_nodes g))) t) in *. unfold semantic_index_load. rewrite El. cbn [loaded_graph].
  assert (s0 = mkSem (si_dim s) [] 0 [] [] 0 [] (si_threshold s0) (si_ef s) (hn_quantized g) (si_target s) false false [] 0) as Es0.
  { unfold semantic_index_create in Hs0. by injection Hs0 as <-. }
  assert (graph_present s0 = false) as Hgp by (by rewrite Es0). assert (length (si_e s0) = 0)%nat as He by (by rewrite Es0). assert (si_quantize s0 = hn_quantized g) as Hq by (by rewrite Es0).
  rewrite Hgp, He, Hq. cbn [Nat.eqb negb orb]. change (hnsw_is_quantized g') with (hn_quantized g). rewrite eqb_reflx. cbn [negb].
  assert (counted (set_shards s0 [g']) (set_shards s0 [g']) [] ∅) as C0.
  { split; [split; [by rewrite Es0; left|by rewrite Es0|by rewrite Es0]|exists (si_rc s0), (si_rcn s0); by rewrite Es0|intros rec; by rewrite lookup_empty|intros rec n Hn; by rewrite lookup_empty in Hn]. }
  destruct (rc_rebuild_walk rc _ (hn_nodes g') _ _ _ Hrc C0) as (s' & r & E & [C1 (t' & n' & C2) C3 C4]). unfold hnsw_foreach_live. rewrite andb_false_r, E. exists s'. split; [done|]. split; [done|].
  cbn [app] in C3. assert (hn_wf g' (part 1 0 c) /\ part 1 0 c = c) as [Wg Ep].
  { split; [done|]. apply map_eq. intros k. by rewrite part_lookup, decide_True. }
  rewrite Ep in Wg. assert (forall k, k ∈ (live_pairs (hn_nodes g')).*1 <-> is_Some (c !! k)) as Hids.
  { intros k. rewrite (live_ids_dom g' c k Wg), list_elem_of_fmap. split.
    - intros ([id v] & -> & Hin). apply live_pairs_elem in Hin as (i & nv & Hl & _). by exists i, nv.
    - intros (i & nv & Hl). exists (k, stored_float nv). split; [done|]. apply live_pairs_elem. by exists i, nv. }
  split.
  - exists c. split; [|split; [|done]].
    + rewrite C2. unfold contents, graph_present. rewrite Es0. cbn [set_rc set_shards si_shards length Nat.ltb Nat.leb si_dim]. intros i h Hi. destruct i as [|i]; [|done]. injection Hi as <-.
      cbn [length]. rewrite Ep. split; [done|]. exact Hd.
    + rewrite C2, Es0. done.
  - rewrite C2, Es0. exact Hm.
  - assert (r = length <$> m) as <-; [|done]. apply map_eq. intros rec. specialize (C3 rec). rewrite (top_slot_records _ c m _ rec Hf Hm Hids) in C3. rewrite lookup_fmap.
    destruct (r !! rec) as [n|] eqn:En, (m !! rec) as [vs|] eqn:Ev; cbn in *; [by rewrite C3|pose proof (C4 _ _ En); lia|destruct (Hm _ _ Ev) as (_ & ? & _); lia|done].
Qed.
End persist.

(** ** The small index, saved and loaded *)

Section demo.
#[local] Existing Instance ieee_kernel.

Definition demo_final : SemanticIndex := match foldl sem_event (Some (demo_index, Idle)) demo_events with Some (s, _) => s | None => demo_index end.
Definition demo_final_graph : Hnsw := match si_shards demo_final with [g] => g | _ => demo_graph end.
Definition demo_final_map : gmap Z (list (list Z)) := foldl spec_event ∅ demo_events.
Definition demo_fresh : SemanticIndex :=
  default demo_index (semantic_index_create true (si_dim demo_final) (si_threshold demo_final) (si_ef demo_final) (hn_quantized demo_final_graph) (si_target demo_final)).

Lemma demo_final_rep : index_rep demo_final Idle demo_final_map.
Proof.
  destruct (created_rep true 2 2 0 false 0 demo_index eq_refl) as [I0 Hd].
  destruct (sem_events_spec demo_events demo_index Idle ∅ I0) as (s & ph & E & I & _); [by rewrite Hd; apply demo_events_ok|].
  assert (ph = Idle) as ->.
  { assert (option_map snd (foldl sem_event (Some (demo_index, Idle)) demo_events) = Some Idle) as E2 by (vm_compute; reflexivity). rewrite E in E2. by injection E2. }
  unfold demo_final, demo_final_map. by rewrite E.
Qed.

Lemma demo_final_shards : si_shards demo_final = [demo_final_graph].
Proof. vm_compute. reflexivity. Qed.
Lemma demo_final_file : file_ok demo_final_graph 4096.
Proof. apply file_okb_ok. vm_compute. reflexivity. Qed.
Lemma demo_fresh_created :
  semantic_index_create true (si_dim demo_final) (si_threshold demo_final) (si_ef demo_final) (hn_quantized demo_final_graph) (si_target demo_final) = Some demo_fresh.
Proof. reflexivity. Qed.

Lemma semantic_index_roundtrip_witness :
  exists img s', semantic_index_save true demo_final 4096 = SaveFile img /\
    semantic_index_load true true (fun _ => (true, true)) (loaded_graph (hnsw_load demo_load (Some img) (si_dim demo_final))) demo_fresh = (s', Some 4096).
Proof.
  destruct (semantic_index_roundtrip demo_final demo_fresh demo_final_graph demo_final_map 4096 demo_load (fun _ => (true, true))
    demo_final_rep demo_final_shards demo_final_file demo_load_ok (fun _ => eq_refl) demo_fresh_created) as (img & s' & E1 & E2 & _).
  exists img, s'. exact (conj E1 E2).
Defined.
End demo.
