(* ===== verification/Tenant.v ===== *)
(** * Tenants

    Per-namespace usage accounting and the token bucket of [src/util/tenant.c].
    The table mutex makes every operation an atomic step. *)

From S2P Require Import Prelude Floats.

(** ** Data *)

Record Tenant := mkTenant {
  tn_ns : list Z; tn_records : Z; tn_bytes : Z; tn_tokens : spec_float; tn_last_refill_us : Z
}.

Record TenantTable := mkTenants { tt_t : list Tenant; tt_cap : nat }.

Definition tenant_table_create (ok : bool) : option TenantTable :=
  if ok then Some (mkTenants [] 0) else None.

(** ** Operations *)

Fixpoint tenant_index (t : list Tenant) (ns : list Z) : option nat :=
  match t with
  | [] => None
  | e :: t' => if bool_decide (tn_ns e = ns) then Some 0%nat else S <$> tenant_index t' ns
  end.

Definition tenant_find (tab : TenantTable) (ns : list Z) : option Tenant :=
  tenant_index (tt_t tab) ns ≫= fun i => tt_t tab !! i.

(** [grow] and [dup] are the outcomes of the [realloc] and the [strdup]; the
    entry's position. *)
Definition find_or_add (grow dup : bool) (tab : TenantTable) (ns : list Z) : TenantTable * option nat :=
  match tenant_index (tt_t tab) ns with
  | Some i => (tab, Some i)
  | None =>
      let full := (length (tt_t tab) =? tt_cap tab)%nat in
      if full && negb grow then (tab, None)
      else
        let cap := if full then (if tt_cap tab =? 0 then 8 else tt_cap tab * 2)%nat else tt_cap tab in
        if negb dup then (mkTenants (tt_t tab) cap, None)
        else (mkTenants (tt_t tab ++ [mkTenant ns 0 0 (S754_zero false) 0]) cap, Some (length (tt_t tab)))
  end.

(** Saturating at zero. *)
Definition adjust_counter (v d : Z) : Z :=
  if (d <? 0) && (v <? - d) then 0 else wrap 64 (v + d).

Definition adjust_tenant (d_records d_bytes : Z) (e : Tenant) : Tenant :=
  mkTenant (tn_ns e) (adjust_counter (tn_records e) d_records) (adjust_counter (tn_bytes e) d_bytes)
    (tn_tokens e) (tn_last_refill_us e).

Definition tenant_usage_adjust (grow dup : bool) (tab : TenantTable) (ns : list Z) (d_records d_bytes : Z)
  : TenantTable :=
  let '(tab, i) := find_or_add grow dup tab ns in
  match i with
  | None => tab
  | Some i => mkTenants (alter (adjust_tenant d_records d_bytes) i (tt_t tab)) (tt_cap tab)
  end.

(** True for the result -1. *)
Definition exceeds (e : option Tenant) (add_records add_bytes max_records max_bytes : Z) : bool :=
  let recs := default 0 (tn_records <$> e) in
  let bytes := default 0 (tn_bytes <$> e) in
  (negb (max_records =? 0) && (0 <? add_records) && (max_records <? wrap 64 (recs + add_records)))
  || (negb (max_bytes =? 0) && (0 <? add_bytes) && (max_bytes <? wrap 64 (bytes + add_bytes))).

Definition tenant_usage_would_exceed (tab : TenantTable) (ns : list Z)
  (add_records add_bytes max_records max_bytes : Z) : bool :=
  if (max_records =? 0) && (max_bytes =? 0) then false
  else exceeds (tenant_find tab ns) add_records add_bytes max_records max_bytes.

Definition f64_one : spec_float := f64_of_Z 1.

Definition refill (qps burst : spec_float) (now_us : Z) (e : Tenant) : Tenant :=
  let set t l := mkTenant (tn_ns e) (tn_records e) (tn_bytes e) t l in
  if tn_last_refill_us e =? 0 then set burst now_us
  else if tn_last_refill_us e <? now_us then
    let elapsed_s := f64_div (f64_of_Z (now_us - tn_last_refill_us e)) (f64_of_Z 1000000) in
    let tokens := f64_add (tn_tokens e) (f64_mul elapsed_s qps) in
    set (if SFltb burst tokens then burst else tokens) now_us
  else e.

Definition spend (e : Tenant) : Tenant * bool :=
  if SFleb f64_one (tn_tokens e) then
    (mkTenant (tn_ns e) (tn_records e) (tn_bytes e) (f64_sub (tn_tokens e) f64_one) (tn_last_refill_us e),
     true)
  else (e, false).

(** The request is let through when the bucket holds a token, when there is no
    limit, or when memory for the entry ran out. *)
Definition tenant_rate_allow (grow dup : bool) (tab : TenantTable) (ns : list Z) (qps burst : spec_float)
  (now_us : Z) : TenantTable * bool :=
  if SFleb qps (S754_zero false) then (tab, true)
  else
    let burst := if SFltb burst f64_one then f64_one else burst in
    let '(tab, i) := find_or_add grow dup tab ns in
    match i ≫= fun i => (i,.) <$> tt_t tab !! i with
    | None => (tab, true)
    | Some (i, e) =>
        let '(e, allow) := spend (refill qps burst now_us e) in
        (mkTenants (<[i := e]> (tt_t tab)) (tt_cap tab), allow)
    end.

Record TenantUsage := mkUsage { tu_ns : list Z; tu_records : Z; tu_bytes : Z }.

Fixpoint snapshot_loop (dup : nat -> bool) (i : nat) (t : list Tenant) : list TenantUsage :=
  match t with
  | [] => []
  | e :: t' =>
      if dup i then mkUsage (tn_ns e) (tn_records e) (tn_bytes e) :: snapshot_loop dup (S i) t' else []
  end.

(** [None] is [NULL]; the count is the length. *)
Definition tenant_usage_snapshot (alloc : bool) (dup : nat -> bool) (tab : TenantTable)
  : option (list TenantUsage) :=
  if (length (tt_t tab) =? 0)%nat || negb alloc then None
  else match snapshot_loop dup 0 (tt_t tab) with [] => None | l => Some l end.

(** ** Lookup *)

Lemma tenant_index_Some t ns i :
  tenant_index t ns = Some i -> exists e, t !! i = Some e /\ tn_ns e = ns.
Proof.
  revert i. induction t as [|e t IH]; intros i; cbn [tenant_index]; [done|].
  case_bool_decide as E; [intros [= <-]; by exists e|].
  destruct (tenant_index t ns) as [j|]; [|done]. intros [= <-]. cbn. by apply IH.
Qed.

Lemma tenant_index_alter t ns i f :
  (forall e, t !! i = Some e -> tn_ns (f e) = tn_ns e) -> tenant_index (alter f i t) ns = tenant_index t ns.
Proof.
  revert i. induction t as [|e t IH]; intros [|i] Hf; cbn; try done.
  - by rewrite (Hf e).
  - by rewrite IH.
Qed.

Lemma insert_alter (t : list Tenant) i e : <[i := e]> t = alter (fun _ => e) i t.
Proof. revert i. induction t as [|x t IH]; intros [|i]; cbn; [done..|]. by f_equal. Qed.

Lemma tenant_index_app t ns e :
  tenant_index (t ++ [e]) ns =
  match tenant_index t ns with
  | Some i => Some i
  | None => if bool_decide (tn_ns e = ns) then Some (length t) else None
  end.
Proof.
  induction t as [|x t IH]; cbn; [done|]. destruct (bool_decide (tn_ns x = ns)); [done|]. rewrite IH.
  destruct (tenant_index t ns); [done|]. by destruct (bool_decide (tn_ns e = ns)).
Qed.

Lemma tenant_find_None t cap ns : tenant_find (mkTenants t cap) ns = None <-> tenant_index t ns = None.
Proof.
  unfold tenant_find. cbn. destruct (tenant_index t ns) as [i|] eqn:E; [|done].
  destruct (tenant_index_Some _ _ _ E) as (e & He & _). cbn. by rewrite He.
Qed.

(** The entry of [ns], a new one if there is none. *)
Definition entry_of (o : option Tenant) (ns : list Z) : Tenant :=
  default (mkTenant ns 0 0 (S754_zero false) 0) o.

(** Whether an operation on [ns] gets an entry: there is one, or the array has
    room or grows and the name can be copied. *)
Definition gets_entry (grow dup : bool) (tab : TenantTable) (ns : list Z) : bool :=
  bool_decide (is_Some (tenant_find tab ns)) || (negb (length (tt_t tab) =? tt_cap tab)%nat || grow) && dup.

(** Updating the entry of [ns] in place, or leaving every entry alone when
    memory for a new one ran out. *)
Lemma find_or_add_spec grow dup tab ns :
  (gets_entry grow dup tab ns = false /\ tenant_find tab ns = None /\
   exists tab', find_or_add grow dup tab ns = (tab', None) /\ forall ns', tenant_find tab' ns' = tenant_find tab ns') \/
  (gets_entry grow dup tab ns = true /\
   exists tab' i e, find_or_add grow dup tab ns = (tab', Some i) /\ tt_t tab' !! i = Some e /\
    e = entry_of (tenant_find tab ns) ns /\ tn_ns e = ns /\
    forall f ns', tn_ns (f e) = ns ->
      tenant_find (mkTenants (alter f i (tt_t tab')) (tt_cap tab')) ns' =
      if decide (ns' = ns) then Some (f e) else tenant_find tab ns').
Proof.
  unfold gets_entry, find_or_add. destruct (tenant_index (tt_t tab) ns) as [i|] eqn:E.
  - right. destruct (tenant_index_Some _ _ _ E) as (e & He & Hn).
    assert (tenant_find tab ns = Some e) as Hfe by (unfold tenant_find; rewrite E; cbn; by rewrite He).
    split; [by rewrite Hfe|]. exists tab, i, e. split_and!; [done|done|by rewrite Hfe|done|].
    intros f ns' Hf. unfold tenant_find. cbn. rewrite tenant_index_alter by congruence.
    destruct (decide (ns' = ns)) as [->|Hne].
    + rewrite E. cbn. by rewrite list_lookup_alter_eq, He.
    + destruct (tenant_index (tt_t tab) ns') as [j|] eqn:Ej; [|done]. cbn.
      apply list_lookup_alter_ne. intros <-. destruct (tenant_index_Some _ _ _ Ej) as (e' & He' & <-). congruence.
  - assert (tenant_find tab ns = None) as Hnone by (unfold tenant_find; by rewrite E).
    rewrite Hnone, (bool_decide_eq_false_2 (is_Some None)) by (by intros []). cbn [orb].
    destruct ((length (tt_t tab) =? tt_cap tab)%nat && negb grow) eqn:Ef.
    { left. apply andb_true_iff in Ef as [-> Hg]. apply negb_true_iff in Hg as ->. split; [done|]. split; [done|]. by exists tab. }
    assert ((negb (length (tt_t tab) =? tt_cap tab)%nat || grow) = true) as -> by (by destruct (_ =? _)%nat, grow).
    cbn [andb]. set (cap := if (length (tt_t tab) =? tt_cap tab)%nat then _ else _).
    destruct dup; cbn [negb]; [|left; split; [done|]; split; [done|]; by eexists].
    right. split; [done|]. set (new := mkTenant ns 0 0 (S754_zero false) 0).
    eexists _, _, new. split; [reflexivity|]. cbn [tt_t tt_cap]. split; [by rewrite lookup_app_r, Nat.sub_diag|].
    split; [done|]. split; [done|]. intros f ns' Hf. unfold tenant_find. cbn [tt_t]. rewrite tenant_index_alter.
    2: { intros x. rewrite lookup_app_r, Nat.sub_diag by done. by intros [= <-]. }
    rewrite tenant_index_app. destruct (decide (ns' = ns)) as [->|Hne].
    + rewrite E, bool_decide_true by done. cbn. by rewrite list_lookup_alter_eq, lookup_app_r, Nat.sub_diag.
    + destruct (tenant_index (tt_t tab) ns') as [j|] eqn:Ej; [|by rewrite bool_decide_false by (cbn; congruence)].
      cbn. destruct (tenant_index_Some _ _ _ Ej) as (e' & He' & _). pose proof (lookup_lt_Some _ _ _ He').
      rewrite list_lookup_alter_ne by lia. by rewrite lookup_app_l.
Qed.

(** ** Isolation *)

(** An operation with the outcomes of the allocations it may need. *)
Inductive TOp :=
  | TAdjust (grow dup : bool) (ns : list Z) (d_records d_bytes : Z)
  | TCheck (ns : list Z) (add_records add_bytes max_records max_bytes : Z)
  | TRate (grow dup : bool) (ns : list Z) (qps burst : spec_float) (now_us : Z).

Definition op_ns (op : TOp) : list Z :=
  match op with TAdjust _ _ ns _ _ => ns | TCheck ns _ _ _ _ => ns | TRate _ _ ns _ _ _ => ns end.

(** The table an operation leaves and the answer it gives. *)
Definition t_step (tab : TenantTable) (op : TOp) : TenantTable * option bool :=
  match op with
  | TAdjust grow dup ns dr db => (tenant_usage_adjust grow dup tab ns dr db, None)
  | TCheck ns ar ab mr mb => (tab, Some (tenant_usage_would_exceed tab ns ar ab mr mb))
  | TRate grow dup ns qps burst now => let '(tab, a) := tenant_rate_allow grow dup tab ns qps burst now in (tab, Some a)
  end.

(** The final table, and the answers, each with the namespace that got it. *)
Fixpoint t_run (tab : TenantTable) (ops : list TOp) : TenantTable * list (list Z * option bool) :=
  match ops with
  | [] => (tab, [])
  | op :: ops' =>
      let '(tab, a) := t_step tab op in
      let '(tab, l) := t_run tab ops' in (tab, (op_ns op, a) :: l)
  end.

(** The operation with both allocations succeeding or both failing. *)
Definition with_mem (m : bool) (op : TOp) : TOp :=
  match op with
  | TAdjust _ _ ns dr db => TAdjust m m ns dr db
  | TCheck ns ar ab mr mb => op
  | TRate _ _ ns qps burst now => TRate m m ns qps burst now
  end.

Definition op_gets (tab : TenantTable) (op : TOp) : bool :=
  match op with
  | TAdjust grow dup ns _ _ => gets_entry grow dup tab ns
  | TCheck _ _ _ _ _ => true
  | TRate grow dup ns _ _ _ => gets_entry grow dup tab ns
  end.

(** What one operation does to its own tenant's entry; [m] is whether it gets
    one. *)
Definition t_step1 (m : bool) (o : option Tenant) (op : TOp) : option Tenant * option bool :=
  match op with
  | TAdjust _ _ ns dr db => (if m then Some (adjust_tenant dr db (entry_of o ns)) else o, None)
  | TCheck ns ar ab mr mb =>
      (o, Some (if (mr =? 0) && (mb =? 0) then false else exceeds o ar ab mr mb))
  | TRate _ _ ns qps burst now =>
      if SFleb qps (S754_zero false) then (o, Some true)
      else if m then
        let burst := if SFltb burst f64_one then f64_one else burst in
        let '(e, a) := spend (refill qps burst now (entry_of o ns)) in (Some e, Some a)
      else (o, Some true)
  end.

Lemma refill_ns qps burst now e : tn_ns (refill qps burst now e) = tn_ns e.
Proof. unfold refill. by repeat case_match. Qed.
Lemma spend_ns e : tn_ns (fst (spend e)) = tn_ns e.
Proof. unfold spend. by case_match. Qed.

Lemma t_step_local tab op ns :
  let '(tab', a) := t_step tab op in
  let '(o', a') := t_step1 (op_gets tab op) (tenant_find tab (op_ns op)) op in
  a = a' /\ tenant_find tab' ns = if decide (ns = op_ns op) then o' else tenant_find tab ns.
Proof.
  destruct op as [g d n dr db|n ar ab mr mb|g d n qps burst now]; cbn [t_step t_step1 op_ns op_gets].
  - unfold tenant_usage_adjust. destruct (find_or_add_spec g d tab n) as [(-> & Hn & tab' & -> & Hs)|(-> & tab' & i & e & -> & _ & He & Hn & Hf)].
    + split; [done|]. rewrite Hs. by destruct (decide (ns = n)) as [->|].
    + rewrite <- He. split; [done|]. by apply Hf.
  - split; [done|]. by destruct (decide (ns = n)) as [->|].
  - unfold tenant_rate_allow. destruct (SFleb qps (S754_zero false)).
    { split; [done|]. by destruct (decide (ns = n)) as [->|]. }
    set (b := if SFltb burst f64_one then _ else _).
    destruct (find_or_add_spec g d tab n) as [(-> & Hn & tab' & -> & Hs)|(-> & tab' & i & e & -> & Hi & He & Hns & Hf)]; cbn.
    { split; [done|]. rewrite Hs. by destruct (decide (ns = n)) as [->|]. }
    rewrite Hi. cbn. rewrite <- He. pose proof (spend_ns (refill qps b now e)) as Hsp.
    destruct (spend (refill qps b now e)) as [e' a]. cbn [fst] in Hsp.
    split; [done|]. rewrite refill_ns in Hsp. rewrite insert_alter. apply Hf. congruence.
Qed.

(** Alone, with the same entry and memory as it turned out, an operation gets
    what it got. *)
Lemma alone_gets tab tab' op :
  tenant_find tab (op_ns op) = tenant_find tab' (op_ns op) -> op_gets tab' (with_mem (op_gets tab op) op) = op_gets tab op.
Proof.
  destruct op as [g d n dr db|n ar ab mr mb|g d n qps burst now]; cbn [op_gets with_mem op_ns]; intros E; try done;
    unfold gets_entry; rewrite E; destruct (bool_decide (is_Some (tenant_find tab' n))); cbn [orb]; try done;
    destruct ((_ || g) && d); by rewrite ?orb_true_r, ?andb_false_r.
Qed.

Lemma t_step1_mem m m' o op : t_step1 m o (with_mem m' op) = t_step1 m o op.
Proof. by destruct op. Qed.

Definition mem_ok (op : TOp) : Prop := with_mem true op = op.

Lemma mem_ok_gets tab op : mem_ok op -> with_mem (op_gets tab op) op = op.
Proof.
  destruct op as [g d n dr db|n ar ab mr mb|g d n qps burst now]; unfold mem_ok; cbn [with_mem op_gets]; try done;
    intros [= <- <-]; unfold gets_entry; by rewrite !orb_true_r.
Qed.

Lemma t_run_local tab tab' ops ns :
  tenant_find tab ns = tenant_find tab' ns ->
  exists own, with_mem true <$> own = with_mem true <$> filter (fun op => op_ns op = ns) ops /\
    (Forall mem_ok ops -> own = filter (fun op => op_ns op = ns) ops) /\
    filter (fun p => fst p = ns) (snd (t_run tab ops)) = snd (t_run tab' own) /\
    tenant_find (fst (t_run tab ops)) ns = tenant_find (fst (t_run tab' own)) ns.
Proof.
  revert tab tab'. induction ops as [|op ops IH]; intros tab tab' E; [by exists []|]. cbn [t_run].
  pose proof (t_step_local tab op ns) as H1. destruct (t_step tab op) as [tab1 a1] eqn:E1.
  destruct (t_step1 _ (tenant_find tab (op_ns op)) op) as [o1 b1] eqn:S1. destruct H1 as [-> H1].
  rewrite (filter_cons (fun op => op_ns op = ns) op ops). destruct (decide (op_ns op = ns)) as [Hn|Hn].
  - subst ns. set (op' := with_mem (op_gets tab op) op).
    pose proof (t_step_local tab' op' (op_ns op)) as H2. assert (op_ns op' = op_ns op) as En by (by destruct op).
    unfold op' in H2 at 2. rewrite En, (alone_gets tab tab' op E) in H2. unfold op' in H2. rewrite t_step1_mem, <- E, S1 in H2. fold op' in H2.
    destruct (t_step tab' op') as [tab2 a2] eqn:E2. destruct H2 as [-> H2]. rewrite decide_True in H1, H2 by done.
    destruct (IH tab1 tab2 ltac:(by rewrite H1, H2)) as (own & Ho & Hm & Ha & Ht). exists (op' :: own).
    cbn [fmap list_fmap t_run]. rewrite E2. destruct (t_run tab1 ops) as [t1 l1], (t_run tab2 own) as [t2 l2]. cbn [fst snd] in *.
    split; [f_equal; [by destruct op|done]|]. split.
    + intros Hall. apply Forall_cons in Hall as [Hop Hall]. f_equal; [by apply mem_ok_gets|by apply Hm].
    + rewrite filter_cons, decide_True by done. split; [|done]. rewrite En. by f_equal.
  - rewrite decide_False in H1 by congruence. destruct (IH tab1 tab' ltac:(by rewrite H1)) as (own & Ho & Hm & Ha & Ht). exists own.
    destruct (t_run tab1 ops) as [t1 l1]. cbn [fst snd] in *. split; [done|]. split; [intros Hall; apply Hm; by apply Forall_cons in Hall as []|].
    rewrite filter_cons, decide_False by done. done.
Qed.

(** C39: Tenants are isolated: in any interleaving of accounting, quota checks
    and rate decisions from an empty table, the answers a namespace gets and
    what its entry ends with (the record and byte counters, the bucket and its
    time) are those of its own operations run alone. Allocations for new entries
    may fail; alone the same operations run with outcomes of their own, and
    when none failed in the interleaving they are exactly its operations. *)
Theorem tenant_isolation ops ns :
  exists own, with_mem true <$> own = with_mem true <$> filter (fun op => op_ns op = ns) ops /\
    (Forall mem_ok ops -> own = filter (fun op => op_ns op = ns) ops) /\
    let '(tab, answers) := t_run (mkTenants [] 0) ops in
    let '(tab', answers') := t_run (mkTenants [] 0) own in
    filter (fun p => fst p = ns) answers = answers' /\ tenant_find tab ns = tenant_find tab' ns.
Proof.
  destruct (t_run_local (mkTenants [] 0) (mkTenants [] 0) ops ns eq_refl) as (own & Ho & Hm & Ha & Ht). exists own.
  split; [done|]. split; [done|]. destruct (t_run _ ops) as [tab ans], (t_run _ own) as [tab' ans']. done.
Qed.
