(* ===== verification/Store.v ===== *)
(** * The storage core

    The state the write path, the checkpoint and recovery share (the log, the
    id index, the tenant accounting, the id allocator and the checkpoint
    files), with [append_and_hash] and [load_record] of
    [src/query/query_engine.c], [db_next_id], the metadata file and the index
    part of [db_checkpoint] of [src/storage/db.c], [hash_index_save], and the
    first pass of [recovery_run] of [src/storage/recovery.c]. Each runs under
    [index_lock], so it is one step. *)

From S2P Require Import Prelude Endian Crc32 HashIndex HashCheckpoint Record RecordCodec Aead AeadCorrect Log Tenant CkptCrypt.

Inductive aegis_status :=
  | AEGIS_OK | AEGIS_ERR_INVALID_REQUEST | AEGIS_ERR_NOT_FOUND | AEGIS_ERR_PAYLOAD_TOO_LARGE
  | AEGIS_ERR_IMMUTABLE | AEGIS_ERR_NOT_READY | AEGIS_ERR_UNAUTHORIZED | AEGIS_ERR_FORBIDDEN
  | AEGIS_ERR_QUOTA_EXCEEDED | AEGIS_ERR_RATE_LIMITED | AEGIS_ERR_READ_ONLY | AEGIS_ERR_MEMORY_LIMIT
  | AEGIS_ERR_INTERNAL.

(** The configuration the storage core consults. *)
Record Config := mkConfig {
  cfg_key : option (list Z);
  cfg_fsync_batch : Z;
  cfg_auth : bool;
  cfg_tenant_max_records : Z;
  cfg_tenant_max_bytes : Z
}.

Record Db := mkDb {
  db_config : Config;
  db_log : LogFile;
  db_hash : HashIndex;
  db_tenants : TenantTable;
  db_next_id : Z;
  db_index_file : FsState;
  db_log_generation : Z
}.

Definition set_log (db : Db) (lf : LogFile) : Db :=
  mkDb (db_config db) lf (db_hash db) (db_tenants db) (db_next_id db) (db_index_file db)
    (db_log_generation db).
Definition set_hash (db : Db) (h : HashIndex) : Db :=
  mkDb (db_config db) (db_log db) h (db_tenants db) (db_next_id db) (db_index_file db)
    (db_log_generation db).
Definition set_tenants (db : Db) (t : TenantTable) : Db :=
  mkDb (db_config db) (db_log db) (db_hash db) t (db_next_id db) (db_index_file db)
    (db_log_generation db).
Definition set_index_file (db : Db) (f : FsState) : Db :=
  mkDb (db_config db) (db_log db) (db_hash db) (db_tenants db) (db_next_id db) f
    (db_log_generation db).

(** The id handed out and the state after. *)
Definition take_next_id (db : Db) : Db * Z :=
  (mkDb (db_config db) (db_log db) (db_hash db) (db_tenants db) (wrap 64 (db_next_id db + 1))
     (db_index_file db) (db_log_generation db), db_next_id db).

(** ** Metadata file *)

Definition AMETA_SIZE : nat := 32.
Definition AMETA_VERSION : Z := 1.
Definition AMETA_magic : list Z := [65; 77; 69; 84; 65].

Definition ameta_encode (next_id : Z) : list Z :=
  AMETA_magic ++ aegis_put_u32le AMETA_VERSION ++ aegis_put_u64le next_id ++ replicate 15 0.

Definition ameta_decode (buf : list Z) : option Z :=
  if negb (bool_decide (take 5 buf = AMETA_magic)) then None else Some (aegis_get_u64le (drop 9 buf)).

(** 0 when the file is missing, short or not a metadata file. *)
Definition load_metadata_next_id (ok : bool) (file : option (list Z)) : Z :=
  match file with
  | Some f =>
      if ok && (AMETA_SIZE <=? length f)%nat then default 0 (ameta_decode (take AMETA_SIZE f)) else 0
  | None => 0
  end.

(** The floor [db_open] applies after recovery. *)
Definition floor_next_id (next_id meta_next : Z) : Z := if next_id <? meta_next then meta_next else next_id.

Section store.
Context `{AeadScheme}.

(** ** Writing a record *)

(** Outcomes of the calls of one write: allocations of the encoder, of the
    log, the random source, the writes, growth of the index and of the tenant
    table. *)
Record WriteIo := mkWriteIo {
  wi_enc : Z -> bool; wi_log : Z -> bool; wi_nonce : option (list Z); wi_write : nat -> option nat;
  wi_put : bool; wi_grow : bool; wi_dup : bool
}.

Definition flag (b : bool) : Z := if b then 1 else 0.
Definition is_deleted (r : MemoryRecord) : bool := negb (mr_deleted r =? 0).

(** The change in live records and bytes of the tenant. *)
Definition usage_delta (h : HashIndex) (rec : MemoryRecord) (len : Z) : Z * Z :=
  let prior := hash_index_get h (mr_id rec) in
  let prior_live := match prior with Some p => he_deleted p =? 0 | None => false end in
  let new_live := negb (is_deleted rec) in
  let prior_bytes := match prior with Some p => if prior_live then he_length p else 0 | None => 0 end in
  let new_bytes := if new_live then len else 0 in
  (flag new_live - flag prior_live, new_bytes - prior_bytes).

Definition append_and_hash (io : WriteIo) (db : Db) (rec : MemoryRecord) : Db * aegis_status :=
  match record_encode (wi_enc io) rec with
  | None => (db, AEGIS_ERR_INTERNAL)
  | Some buf =>
      let len := Z.of_nat (length buf) in
      let cfg := db_config db in
      let ns := if cfg_auth cfg then mr_agent_id rec else None in
      let '(d_records, d_bytes) :=
        match ns with Some _ => usage_delta (db_hash db) rec len | None => (0, 0) end in
      if match ns with
         | Some ns => tenant_usage_would_exceed (db_tenants db) ns (Z.max d_records 0) (Z.max d_bytes 0)
                        (cfg_tenant_max_records cfg) (cfg_tenant_max_bytes cfg)
         | None => false
         end then (db, AEGIS_ERR_QUOTA_EXCEEDED)
      else
        let '(lf, off) := log_append (wi_log io) (db_log db) buf (wi_nonce io) (wi_write io) in
        let db := set_log db lf in
        match off with
        | None => (db, AEGIS_ERR_INTERNAL)
        | Some off =>
            match hash_index_put (wi_put io) (db_hash db) (mr_id rec) off (wrap 32 len)
                    (memory_type_code (mr_type rec)) (flag (is_deleted rec)) (mr_expires_at rec) with
            | None => (db, AEGIS_ERR_INTERNAL)
            | Some h =>
                let db := set_hash db h in
                match ns with
                | Some ns =>
                    if negb (d_records =? 0) || negb (d_bytes =? 0) then
                      (set_tenants db (tenant_usage_adjust (wi_grow io) (wi_dup io) (db_tenants db) ns
                         d_records d_bytes), AEGIS_OK)
                    else (db, AEGIS_OK)
                | None => (db, AEGIS_OK)
                end
            end
        end
  end.

(** ** Reading a record *)

Definition load_record (rerr : Z -> Z -> bool) (lalloc dalloc : Z -> bool) (db : Db) (id : Z)
  : MemoryRecord + aegis_status :=
  match hash_index_get (db_hash db) id with
  | None => inr AEGIS_ERR_NOT_FOUND
  | Some e =>
      match log_read rerr lalloc (db_log db) (he_offset e) with
      | None => inr AEGIS_ERR_INTERNAL
      | Some buf =>
          match record_decode dalloc buf with
          | None => inr AEGIS_ERR_INTERNAL
          | Some r => inl r
          end
      end
  end.

(** ** Checkpoint *)

Definition hash_index_save (io : FsIo) (salloc walloc : bool) (nonce : option (list Z)) (st : FsState)
  (h : HashIndex) (covered next_id : Z) (key : option (list Z)) : list FsState * FsState * bool :=
  match hash_index_serialize salloc h covered next_id with
  | None => ([], st, false)
  | Some buf => ckpt_write io walloc nonce st key buf
  end.

(** The index part of [db_checkpoint]: a consistent capture of the index, the
    log size and the id allocator, then the write. *)
Definition checkpoint_index (io : FsIo) (salloc walloc : bool) (nonce : option (list Z)) (db : Db)
  : list FsState * FsState * bool :=
  hash_index_save io salloc walloc nonce (db_index_file db) (db_hash db) (lf_size (db_log db))
    (db_next_id db) (cfg_key (db_config db)).

(** ** Recovery, first pass *)

Record ScanCtx := mkScanCtx { sc_hash : HashIndex; sc_max_id : Z }.

(** [put off] is the outcome of growing the index for the frame at [off]; the
    result of [hash_index_put] is ignored. *)
Definition scan_cb (dalloc : Z -> bool) (put : Z -> bool) (offset : Z) (payload : list Z) (sc : ScanCtx)
  : ScanCtx * Z :=
  match record_decode dalloc payload with
  | None => (sc, 0)
  | Some r =>
      let max_id := if sc_max_id sc <? mr_id r then mr_id r else sc_max_id sc in
      let h := match hash_index_put (put offset) (sc_hash sc) (mr_id r) offset
                       (wrap 32 (Z.of_nat (length payload))) (memory_type_code (mr_type r))
                       (flag (is_deleted r)) (mr_expires_at r) with
               | Some h => h
               | None => sc_hash sc
               end in
      (mkScanCtx h max_id, 0)
  end.

(** Outcomes of recovery's calls. *)
Record RecoveryIo := mkRecIo {
  ri_read : bool; ri_plain : bool; ri_load : nat -> bool; ri_create : bool;
  ri_rerr : Z -> Z -> bool; ri_alloc : Z -> bool; ri_dalloc : Z -> bool; ri_put : Z -> bool;
  ri_trunc : bool; ri_sync : bool
}.

(** The index and the position the scan starts from: the checkpoint's when it
    loads and covers no more than the log holds. *)
Definition recovery_checkpoint (io : RecoveryIo) (db : Db) : option (HashIndex * Z * Z) :=
  match hash_index_load (ri_load io) (db_hash db)
          (ckpt_read (ri_read io) (ri_plain io) (fs_file (db_index_file db)) (cfg_key (db_config db))) with
  | None => Some (db_hash db, 0, 0)
  | Some (h, covered, snap_next_id) =>
      if covered <=? lf_size (db_log db) then
        Some (h, covered, if snap_next_id =? 0 then 0 else snap_next_id - 1)
      else if ri_create io then Some (hash_index_create, 0, 0) else None
  end.

(** Up to the rebuilt id index; [None] is the result -1. *)
Definition recovery_pass1 (io : RecoveryIo) (db : Db) : option (Db * LogScanResult) :=
  match recovery_checkpoint io db with
  | None => None
  | Some (h, scan_from, max_id) =>
      let '(sc, res) := log_scan (ri_rerr io) (ri_alloc io) (scan_cb (ri_dalloc io) (ri_put io)) (db_log db)
                          scan_from (lf_size (db_log db)) (mkScanCtx h max_id) in
      match res with
      | None => None
      | Some res =>
          let done lf := Some (mkDb (db_config db) lf (sc_hash sc) (db_tenants db)
                                 (wrap 64 (sc_max_id sc + 1)) (db_index_file db) (db_log_generation db), res) in
          if truncate_to res <? lf_size (db_log db) then
            let '(lf, ok) := log_truncate (db_log db) (truncate_to res) (ri_trunc io) in
            if negb ok then None else done (fst (log_fsync lf (ri_sync io)))
          else done (db_log db)
      end
  end.
End store.
