(* ===== verification/StoreCorrect.v ===== *)
(** * Durability of the storage core

    Whatever sequence of inserts, rewrites, flushes and checkpoints has run,
    and wherever a crash cuts the last step, the first pass of recovery brings
    back the same log, the same id index and a safe id allocator. *)

From S2P Require Import Prelude Endian Crc32 HashIndex HashCheckpoint Record RecordCodec RecordRoundtrip RecordDecode Aead AeadCorrect Log LogCorrect Tenant CkptCrypt Store.

Section correct.
Context `{AeadScheme}.

(** ** The index a log describes *)

(** The location entry of a frame. *)
Definition frame_entry (off : Z) (p : list Z) (r : MemoryRecord) : HashEntry :=
  mkHashEntry (mr_id r) off (mr_expires_at r) (wrap 32 (Z.of_nat (length p))) (memory_type_code (mr_type r))
    (flag (is_deleted r)) true.

(** The last frame of an id wins. *)
Definition index_step (m : gmap Z HashEntry) (f : Z * list Z) : gmap Z HashEntry :=
  match record_decode aok (snd f) with
  | None => m
  | Some r => <[mr_id r := frame_entry (fst f) (snd f) r]> m
  end.

Definition frames_index (frames : list (Z * list Z)) : gmap Z HashEntry := foldl index_step ∅ frames.

(** The highest id, at least [m]. *)
Definition max_step (m : Z) (f : Z * list Z) : Z :=
  match record_decode aok (snd f) with None => m | Some r => Z.max m (mr_id r) end.

Definition frames_max (m : Z) (frames : list (Z * list Z)) : Z := foldl max_step m frames.

Lemma frames_max_app m a b : frames_max m (a ++ b) = frames_max (frames_max m a) b.
Proof. apply foldl_app. Qed.

Lemma frames_max_max a b frames : frames_max (Z.max a b) frames = Z.max a (frames_max b frames).
Proof.
  revert b. induction frames as [|f frames IH]; intros b; cbn; [done|].
  assert (max_step (Z.max a b) f = Z.max a (max_step b f)) as ->
    by (unfold max_step; destruct (record_decode aok (snd f)); lia).
  apply IH.
Qed.

Lemma frames_max_seed m frames : 0 <= m -> frames_max m frames = Z.max m (frames_max 0 frames).
Proof. intros. rewrite <- frames_max_max. f_equal. lia. Qed.

Lemma record_decode_bytes r : record_wf r -> record_decode aok (record_bytes r) = Some (norm_deleted r).
Proof. intros W. rewrite <- (app_nil_r (record_bytes r)). by apply record_decode_layout. Qed.

Lemma index_step_rec m off r :
  record_wf r -> index_step m (off, record_bytes r) = <[mr_id r := frame_entry off (record_bytes r) r]> m.
Proof.
  intros W. unfold index_step. cbn [fst snd]. rewrite record_decode_bytes by done.
  unfold frame_entry, is_deleted. cbn. by destruct (mr_deleted r =? 0).
Qed.

Lemma max_step_rec m off r : record_wf r -> max_step m (off, record_bytes r) = Z.max m (mr_id r).
Proof. intros W. unfold max_step. cbn [snd]. by rewrite record_decode_bytes. Qed.

(** The scan's callback computes both. *)
Definition ctx_step (sc : ScanCtx) (f : Z * list Z) : ScanCtx := fst (scan_cb aok aok (fst f) (snd f) sc).

Lemma scan_cb_step off p sc : scan_cb aok aok off p sc = (ctx_step sc (off, p), 0).
Proof. unfold ctx_step, scan_cb. cbn. by destruct (record_decode aok p). Qed.

Lemma ctx_step_spec frames sc :
  hi_wf (sc_hash sc) ->
  let sc' := foldl ctx_step sc frames in
  hi_wf (sc_hash sc') /\ hi_map (sc_hash sc') = foldl index_step (hi_map (sc_hash sc)) frames /\
  sc_max_id sc' = frames_max (sc_max_id sc) frames.
Proof.
  revert sc. induction frames as [|[off p] frames IH]; intros sc Hwf; cbn [foldl]; [done|].
  assert (hi_wf (sc_hash (ctx_step sc (off, p))) /\
    hi_map (sc_hash (ctx_step sc (off, p))) = index_step (hi_map (sc_hash sc)) (off, p) /\
    sc_max_id (ctx_step sc (off, p)) = max_step (sc_max_id sc) (off, p)) as (H1 & H2 & H3).
  { unfold ctx_step, scan_cb, index_step, max_step. cbn [fst snd].
    destruct (record_decode aok p) as [r|]; [|done]. cbn [fst].
    destruct (put_refines (sc_hash sc) (mr_id r) off (wrap 32 (Z.of_nat (length p)))
      (memory_type_code (mr_type r)) (flag (is_deleted r)) (mr_expires_at r) Hwf) as (h' & E & Hw & Hm).
    change (aok off) with true. rewrite E. cbn [sc_hash sc_max_id]. split_and!; [done|done|].
    destruct (Z.ltb_spec (sc_max_id sc) (mr_id r)); lia. }
  specialize (IH _ H1). unfold frames_max in *. cbn [foldl]. by rewrite <- H2, <- H3.
Qed.

(** ** Scanning from the middle *)

Lemma delivered_app enc off a b :
  delivered enc off (a ++ b) = delivered enc off a ++ delivered enc (off + segs_size enc a) b.
Proof.
  revert off. induction a as [|s a IH]; intros off; cbn [delivered app segs_size foldr].
  { by rewrite Z.add_0_r. }
  fold (segs_size enc a). rewrite IH.
  replace (off + (overhead enc + sg_len s + segs_size enc a)) with
    (off + overhead enc + sg_len s + segs_size enc a) by lia.
  by destruct (sg_payload s).
Qed.

(** A scan of intact frames and a tail that holds none, from the frame boundary
    after [segs1]. *)
Lemma log_scan_from {C} (cb : Z -> list Z -> C -> C * Z) (step : C -> Z * list Z -> C) lf segs1 segs2 t ctx :
  (forall off p c, cb off p c = (step c (off, p), 0)) ->
  Forall (seg_ok (lf_encrypted lf) (lf_key lf)) (segs1 ++ segs2) -> forallb intact (segs1 ++ segs2) = true ->
  silent lf (flen (segs_bytes (segs1 ++ segs2))) -> lf_disk lf = segs_bytes (segs1 ++ segs2) ++ t ->
  exists c, log_scan rok aok cb lf (flen (segs_bytes segs1)) (flen (lf_disk lf)) ctx
  = (foldl step ctx (delivered (lf_encrypted lf) (flen (segs_bytes segs1)) segs2),
     Some (mkScan (flen (segs_bytes (segs1 ++ segs2))) (Z.of_nat (length segs2)) c false)).
Proof.
  intros Hcb0 Hok Hi Hs Hd. apply Forall_app in Hok as [_ Hok2].
  rewrite forallb_app in Hi. apply andb_true_iff in Hi as [_ Hi2].
  destruct (log_scan_tail lf segs1 segs2 t Hok2 Hi2 Hd) as (extra & res & Hscan & _ & Hsil & Hres).
  apply Hsil in Hs. subst extra. destruct (Hres eq_refl) as [c ->]. exists c. rewrite app_nil_r in Hscan.
  unfold log_scan in *. set (start := flen (segs_bytes segs1)) in *.
  pose proof (scan_loop_cb cb step (S (Z.to_nat (flen (lf_disk lf) - start))) lf (flen (lf_disk lf))
    (mkSt start start 0 0 false false) [] ctx Hcb0) as Hcb. cbn [foldl] in Hcb. rewrite Hcb.
  destruct (scan_loop _ _ collect_cb _ _ _ _ _) as [out [st|]]; [|done]. by injection Hscan as -> -> -> -> ->.
Qed.

(** ** The invariant *)

(** A record that fits a frame. *)
Definition rec_ok (r : MemoryRecord) : Prop :=
  record_wf r /\ Z.of_nat (length (record_bytes r)) <= 0xFFFFFFFF.

(** The frame of a record. *)
Definition seg_rec (s : Seg) : Prop :=
  exists r, rec_ok r /\ sg_payload s = Some (record_bytes r) /\ sg_len s = Z.of_nat (length (record_bytes r)).

(** What a readable checkpoint says: the index of a prefix of the frames, its
    size, and an allocator past its ids. *)
Definition ckpt_inv (cfg : Config) (enc : bool) (next : Z) (segs : list Seg) (file : option (list Z)) : Prop :=
  forall img, ckpt_read true true file (cfg_key cfg) = Some img ->
  exists segs1 segs2 h nid, segs = segs1 ++ segs2 /\ hi_wf h /\
    hi_map h = frames_index (delivered enc 0 segs1) /\
    hash_index_serialize true h (flen (segs_bytes segs1)) nid = Some img /\
    frames_max 0 (delivered enc 0 segs1) < nid <= next.

Record db_inv (db : Db) (segs : list Seg) : Prop := {
  di_log : log_holds (db_log db) segs;
  di_recs : Forall seg_rec segs;
  di_hash : hi_wf (db_hash db);
  di_map : hi_map (db_hash db) = frames_index (delivered (lf_encrypted (db_log db)) 0 segs);
  di_next : frames_max 0 (delivered (lf_encrypted (db_log db)) 0 segs) < db_next_id db;
  di_file : ckpt_inv (db_config db) (lf_encrypted (db_log db)) (db_next_id db) segs (fs_file (db_index_file db))
}.

(** Nothing on disk past the content. *)
Definition db_full (db : Db) : Prop := flen (lf_disk (db_log db)) = lf_size (db_log db).

(** ** Entries of the described index *)

Lemma frames_index_elem frames m id e :
  foldl index_step m frames !! id = Some e ->
  m !! id = Some e \/ exists off p r, (off, p) ∈ frames /\ record_decode aok p = Some r /\
    e = frame_entry off p r /\ mr_id r = id.
Proof.
  revert m. induction frames as [|[off p] frames IH]; intros m Hl; cbn [foldl] in Hl; [by left|].
  destruct (IH _ Hl) as [Hm|(off' & p' & r & Hin & ?)]; [|right; exists off', p', r; set_solver].
  unfold index_step in Hm. cbn [fst snd] in Hm. destruct (record_decode aok p) as [r|] eqn:Er; [|by left].
  apply lookup_insert_Some in Hm as [[<- <-]|[_ ?]]; [|by left]. right. exists off, p, r. set_solver.
Qed.

Lemma frames_index_size frames m : (size (foldl index_step m frames) <= size m + length frames)%nat.
Proof.
  revert m. induction frames as [|f frames IH]; intros m; cbn [foldl length]; [lia|].
  specialize (IH (index_step m f)). assert (size (index_step m f) <= S (size m))%nat; [|lia].
  unfold index_step. destruct (record_decode aok (snd f)) as [r|]; [|lia].
  rewrite map_size_insert. destruct (m !! mr_id r); cbn; lia.
Qed.

Lemma delivered_elem enc key off0 segs off p :
  Forall (seg_ok enc key) segs -> (off, p) ∈ delivered enc off0 segs ->
  off0 <= off < off0 + flen (segs_bytes segs) /\ exists s, s ∈ segs /\ sg_payload s = Some p.
Proof.
  intros Hok. revert off0. induction Hok as [|s segs Hs Hok IH]; intros off0 Hin; [by apply elem_of_nil in Hin|].
  cbn [delivered] in Hin. destruct (frame_is_length _ _ _ _ _ Hs) as [Hfl Hl]. pose proof (hdr_len_pos enc).
  assert (flen (segs_bytes (s :: segs)) = flen (sg_bytes s) + flen (segs_bytes segs)) as Hb.
  { unfold flen. cbn [segs_bytes map concat]. rewrite length_app. fold (segs_bytes segs). lia. }
  assert (0 <= flen (segs_bytes segs)) by (unfold flen; lia).
  assert ((off, p) ∈ delivered enc (off0 + overhead enc + sg_len s) segs ->
    off0 <= off < off0 + flen (segs_bytes (s :: segs)) /\ exists s', s' ∈ s :: segs /\ sg_payload s' = Some p) as Hrest.
  { intros Hin'. destruct (IH _ Hin') as [? (s' & ? & ?)]. split; [lia|]. exists s'. set_solver. }
  destruct (sg_payload s) as [q|] eqn:Eq; [|by apply Hrest].
  apply elem_of_cons in Hin as [[= -> ->]|Hin]; [|by apply Hrest]. split; [lia|]. exists s. set_solver.
Qed.

Lemma frames_index_ok enc key segs id e :
  Forall (seg_ok enc key) segs -> Forall seg_rec segs -> flen (segs_bytes segs) < 2 ^ 63 ->
  frames_index (delivered enc 0 segs) !! id = Some e -> entry_ok e.
Proof.
  intros Hok Hrec Hsz Hl. apply frames_index_elem in Hl as [Hl|(off & p & r & Hin & Hr & -> & <-)]; [done|].
  destruct (delivered_elem _ _ _ _ _ _ Hok Hin) as [Hoff (s & Hs & Hp)].
  rewrite Forall_forall in Hrec. destruct (Hrec s Hs) as (r0 & [W _] & Hp' & _). rewrite Hp in Hp'. injection Hp' as ->.
  pose proof (record_decode_layout aok ltac:(done) r0 [] W) as Hd. rewrite app_nil_r, Hr in Hd. injection Hd as ->.
  pose proof (rw_id _ W). pose proof (rw_expires _ W).
  split; cbn; [done|split; lia|done|by apply wrap_range| |].
  - by destruct (mr_type r0).
  - unfold is_deleted. cbn. by destruct (mr_deleted r0 =? 0).
Qed.

Lemma frames_max_nonneg frames : 0 <= frames_max 0 frames.
Proof. pose proof (frames_max_max 0 0 frames) as E. rewrite Z.max_id in E. lia. Qed.

Lemma segs_count16 enc key segs :
  Forall (seg_ok enc key) segs -> 16 * Z.of_nat (length segs) <= flen (segs_bytes segs).
Proof.
  induction 1 as [|s segs Hs _ IH]; [done|]. destruct (frame_is_length _ _ _ _ _ Hs) as [Hl ?].
  assert (16 <= overhead enc) by (by destruct enc). unfold flen in *. cbn [segs_bytes map concat length].
  fold (segs_bytes segs). rewrite length_app. lia.
Qed.

Lemma delivered_length_le enc off segs : (length (delivered enc off segs) <= length segs)%nat.
Proof.
  revert off. induction segs as [|s segs IH]; intros off; cbn [delivered length]; [lia|].
  specialize (IH (off + overhead enc + sg_len s)). destruct (sg_payload s); cbn [length]; lia.
Qed.

Lemma hi_count_size h : hi_wf h -> hi_count h = Z.of_nat (size (hi_map h)).
Proof.
  intros Hwf. rewrite (hw_count _ Hwf). f_equal. unfold hi_map, tbl_map. rewrite <- length_map_to_list.
  rewrite map_to_list_to_map; [by rewrite length_fmap|].
  rewrite <- list_fmap_compose. eapply used_ids_NoDup, hw_table, Hwf.
Qed.

(** An index whose map is a log's description can be saved and loaded. *)
Lemma ckpt_inv_loads cfg enc key next segs file img :
  ckpt_inv cfg enc next segs file -> ckpt_read true true file (cfg_key cfg) = Some img ->
  Forall (seg_ok enc key) segs -> Forall seg_rec segs -> flen (segs_bytes segs) < 2 ^ 63 -> next < 2 ^ 64 ->
  exists segs1 segs2 h nid, segs = segs1 ++ segs2 /\ hi_wf h /\
    hi_map h = frames_index (delivered enc 0 segs1) /\
    hash_index_load (fun _ => true) hash_index_create (Some img) = Some (h, flen (segs_bytes segs1), nid) /\
    frames_max 0 (delivered enc 0 segs1) < nid <= next /\ ckpt_inv cfg enc nid segs file.
Proof.
  intros Hinv Hread Hok Hrec Hsz Hnext.
  destruct (Hinv img Hread) as (segs1 & segs2 & h & nid & -> & Hwf & Hm & Hser & Hn).
  apply Forall_app in Hok as [Hok1 _]. apply Forall_app in Hrec as [Hrec1 _].
  pose proof (frames_max_nonneg (delivered enc 0 segs1)).
  assert (flen (segs_bytes segs1) < 2 ^ 63) as Hsz1.
  { unfold flen in *. rewrite segs_bytes_app, length_app in Hsz. lia. }
  destruct (ckpt_image_loads h (flen (segs_bytes segs1)) nid) as (img' & h' & E & _ & Hload & Hwf' & Hm').
  - done.
  - apply Forall_forall. intros e He. apply (frames_index_ok enc key segs1 (he_id e)); try done. rewrite <- Hm.
    apply list_elem_of_filter in He as [Hu He]. apply list_elem_of_lookup in He as [j Hj].
    apply (tbl_map_lookup _ _ (hw_table _ Hwf)). eauto.
  - split; unfold flen in *; lia.
  - split; lia.
  - rewrite hi_count_size, Hm by done. pose proof (frames_index_size (delivered enc 0 segs1) ∅) as Hs.
    rewrite map_size_empty in Hs. fold (frames_index (delivered enc 0 segs1)) in Hs.
    pose proof (delivered_length_le enc 0 segs1). pose proof (segs_count16 _ _ _ Hok1).
    assert ((SIZE_MAX - 1) / IDX_ENTRY = 614891469123651720) as -> by reflexivity. lia.
  - rewrite Hser in E. injection E as <-. exists segs1, segs2, h', nid. rewrite Hm'. split_and!; try done; [lia..|].
    intros img' Hr'. assert (img' = img) as -> by congruence. exists segs1, segs2, h, nid. split_and!; (done || lia).
Qed.

(** ** Appending a record *)

Definition set_id (r : MemoryRecord) (id : Z) : MemoryRecord :=
  mkMemoryRecord id (mr_type r) (mr_created r) (mr_updated r) (mr_importance r) (mr_confidence r)
    (mr_agent_id r) (mr_tags r) (mr_embedding r) (mr_embedding_dim r) (mr_vec_count r)
    (mr_relationships r) (mr_fact r) (mr_derivation r) (mr_data r) (mr_expires_at r) (mr_deleted r).

Lemma set_id_wf r id : record_wf r -> u64 id -> record_wf (set_id r id).
Proof. intros [] ?. by constructor. Qed.

Lemma set_id_length r id : length (record_bytes (set_id r id)) = length (record_bytes r).
Proof.
  unfold record_bytes, head_bytes. rewrite !length_app, !length_put_u64le. reflexivity.
Qed.

(** Memory is available and the random source, if it answers, gives a nonce;
    writes may fail anywhere. *)
Definition wio_ok (io : WriteIo) : Prop :=
  wi_enc io = aok /\ wi_log io = aok /\ wi_put io = true /\
  match wi_nonce io with Some nc => nonce_ok nc | None => True end.

Definition clean (io : WriteIo) : Prop := forall i, wi_write io i = None.

Lemma write_all_clean disk off pieces w :
  (forall i, w i = None) -> snd (write_all disk off pieces w) = true.
Proof.
  revert disk off w. induction pieces as [|p pieces IH]; intros disk off w Hw; cbn [write_all]; [done|].
  unfold write_full. rewrite Hw. apply IH. intros i. apply Hw.
Qed.

(** The file a crash leaves: the frames, and bytes in which a scan finds none. *)
Definition cut_tail (lf : LogFile) (segs : list Seg) : Prop :=
  silent (reopened lf) (flen (segs_bytes segs)) /\ exists t, lf_disk lf = segs_bytes segs ++ t.

Lemma cut_tail_torn lf segs t : torn (lf_encrypted lf) t -> lf_disk lf = segs_bytes segs ++ t -> cut_tail lf segs.
Proof. intros Ht Hd. split; [by apply (silent_torn (reopened lf) _ t)|eauto]. Qed.

Lemma cut_tail_full lf segs : log_holds lf segs -> flen (lf_disk lf) = lf_size lf -> cut_tail lf segs.
Proof.
  intros Hh Hf. apply (cut_tail_torn lf segs []); [apply torn_nil|].
  destruct (log_holds_split _ _ Hh) as (rest & Hd & Hr). by rewrite Hd, (Hr Hf).
Qed.

Lemma log_append_cases lf segs r io lf' off :
  log_holds lf segs -> rec_ok r -> wio_ok io ->
  log_append (wi_log io) lf (record_bytes r) (wi_nonce io) (wi_write io) = (lf', off) ->
  lf_encrypted lf' = lf_encrypted lf /\ lf_key lf' = lf_key lf /\
  match off with
  | Some off => off = lf_size lf /\ exists s, seg_rec s /\ sg_payload s = Some (record_bytes r) /\
      log_holds lf' (segs ++ [s]) /\ (flen (lf_disk lf) = lf_size lf -> flen (lf_disk lf') = lf_size lf')
  | None => log_holds lf' segs /\
      (flen (lf_disk lf) = lf_size lf -> cut_tail lf' segs) /\ (clean io -> lf' = lf)
  end.
Proof.
  intros Hh [W Hl] (_ & -> & _ & Hn) E. assert (payload_ok (record_bytes r)) as Hp by (split; [by apply record_bytes_ok|done]).
  assert (exists nc, nonce_ok nc /\ (wi_nonce io = Some nc \/ wi_nonce io = None)) as (nc & Hnc & Hnn).
  { destruct (wi_nonce io) as [nc|]; [by exists nc; auto|]. exists (replicate 24 0). split; [apply ex_nonce_ok|by right]. }
  destruct (log_append_holds _ _ _ _ _ _ _ nc Hh Hp Hnc Hnn E) as (He & Hk & Hr).
  split; [done|]. split; [done|]. destruct off as [off|].
  - destruct Hr as (-> & Hh' & Hf). split; [done|].
    exists (good_seg (lf_encrypted lf) (lf_key lf) nc (record_bytes r)). split; [by exists r|]. done.
  - destruct Hr as (Hh' & Hsz & Hcut). split; [done|]. split.
    + intros Hfull. destruct (Hcut Hfull) as (k & Hkl & Hd). eapply cut_tail_torn; [|exact Hd]. rewrite He.
      by apply (torn_prefix _ _ _ _ _ _ (frame_bytes_is (lf_encrypted lf) (lf_key lf) nc _ Hp Hnc)).
    + intros Hc. destruct (log_append_pieces _ _ _ _ _ _ nc E Hp Hnn) as [[? _]|(pieces & _ & Ea)]; [done|].
      unfold append_pieces in Ea. pose proof (write_all_clean (lf_disk lf) (lf_size lf) pieces _ Hc) as Hw.
      destruct (write_all _ _ _ _) as [d ok]. cbn in Hw. subst ok. discriminate Ea.
Qed.

Lemma ckpt_inv_app cfg enc next segs more file :
  ckpt_inv cfg enc next segs file -> ckpt_inv cfg enc next (segs ++ more) file.
Proof.
  intros Hi img Hr. destruct (Hi img Hr) as (s1 & s2 & h & nid & -> & ?). exists s1, (s2 ++ more), h, nid.
  by rewrite <- (assoc_L (++)).
Qed.

Lemma ckpt_inv_next cfg enc next next' segs file :
  ckpt_inv cfg enc next segs file -> next <= next' -> ckpt_inv cfg enc next' segs file.
Proof.
  intros Hi Hle img Hr. destruct (Hi img Hr) as (s1 & s2 & h & nid & ? & ? & ? & ? & ?).
  exists s1, s2, h, nid. split_and!; try done; lia.
Qed.

(** The file is kept by everything but a checkpoint. *)
Definition same_rest (db db' : Db) : Prop :=
  db_config db' = db_config db /\ db_next_id db' = db_next_id db /\ db_index_file db' = db_index_file db /\
  lf_encrypted (db_log db') = lf_encrypted (db_log db) /\ lf_key (db_log db') = lf_key (db_log db).

Lemma append_step io db rec segs :
  db_inv db segs -> wio_ok io -> rec_ok rec -> mr_id rec < db_next_id db ->
  let '(db', st) := append_and_hash io db rec in
  same_rest db db' /\
  ((st = AEGIS_OK /\ (exists s, sg_payload s = Some (record_bytes rec) /\ db_inv db' (segs ++ [s])) /\
    (db_full db -> db_full db')) \/
   (st <> AEGIS_OK /\ db_inv db' segs /\ (db_full db -> cut_tail (db_log db') segs) /\
    (clean io -> db_full db -> db_full db'))).
Proof.
  intros Hi Hio Hrec Hid. pose proof Hrec as [W Hl]. pose proof Hio as (Henc & _ & Hput & _).
  unfold append_and_hash. rewrite Henc, (record_encode_layout aok ltac:(done)) by (done || (unfold MAX_FRAME; lia)).
  set (ns := if cfg_auth _ then _ else _).
  destruct (match ns with Some _ => usage_delta _ _ _ | None => _ end) as [dr dby].
  assert (db_full db -> cut_tail (db_log db) segs) as Hnow.
  { intros Hf. apply cut_tail_full; [apply Hi|done]. }
  destruct (match ns with Some _ => _ | None => _ end); [split; [done|right; by split_and!]|].
  destruct (log_append _ _ _ _ _) as [lf' off] eqn:Ea.
  destruct (log_append_cases _ segs rec io lf' off (di_log _ _ Hi) Hrec Hio Ea) as (He & Hk & Hoff).
  destruct Hi as [Hlog Hrecs Hhash Hmap Hnext Hfile].
  destruct off as [off|].
  2: { destruct Hoff as (Hh' & Hcut & Hcl). split; [done|right]. split; [done|]. split.
       - by split; cbn; rewrite ?He.
       - split; [done|]. intros Hc Hf. unfold db_full. cbn. by rewrite (Hcl Hc). }
  destruct Hoff as (-> & s & Hs & Hsp & Hh' & Hfull). cbn [set_log db_hash]. rewrite Hput.
  destruct (put_refines (db_hash db) (mr_id rec) (lf_size (db_log db)) (wrap 32 (Z.of_nat (length (record_bytes rec))))
    (memory_type_code (mr_type rec)) (flag (is_deleted rec)) (mr_expires_at rec) Hhash) as (h' & -> & Hw & Hm).
  assert (delivered (lf_encrypted lf') 0 (segs ++ [s])
    = delivered (lf_encrypted (db_log db)) 0 segs ++ [(lf_size (db_log db), record_bytes rec)]) as Hdel.
  { rewrite He, delivered_snoc, Hsp. rewrite (segs_size_bytes _ (lf_key (db_log db))) by apply Hlog.
    by rewrite (lh_size _ _ Hlog). }
  assert (forall t, db_inv (mkDb (db_config db) lf' h' t (db_next_id db) (db_index_file db) (db_log_generation db)) (segs ++ [s])) as Hinv.
  { intros t. split; cbn.
    - done.
    - apply Forall_app. split; [done|by apply Forall_singleton].
    - done.
    - rewrite Hdel, Hm, Hmap. unfold frames_index. rewrite foldl_app. cbn [foldl]. by rewrite index_step_rec.
    - rewrite Hdel, frames_max_app. cbn [frames_max foldl]. rewrite max_step_rec by done. lia.
    - rewrite He. by apply ckpt_inv_app. }
  assert (forall t, db_full db -> db_full (mkDb (db_config db) lf' h' t (db_next_id db) (db_index_file db) (db_log_generation db))) as Hf' by done.
  destruct ns as [ns|]; [destruct (negb _ || negb _)|]; (split; [done|left; split; [done|]; split; [exists s; split; [exact Hsp|apply Hinv]|apply Hf']]).
Qed.

(** ** Recovery *)

Definition rio_ok (sync : bool) : RecoveryIo := mkRecIo true true (fun _ => true) true rok aok aok aok true sync.

(** The state [db_open] hands to recovery. *)
Definition restarted (cfg : Config) (lf : LogFile) (ten : TenantTable) (file : FsState) : Db :=
  mkDb cfg (reopened lf) hash_index_create ten 1 file 0.

Section recovery.
Context (cfg : Config) (lf : LogFile) (ten : TenantTable) (file : FsState) (segs : list Seg) (t : list Z) (next : Z).
Context (Hok : Forall (seg_ok (lf_encrypted lf) (lf_key lf)) segs) (Hint : forallb intact segs = true)
  (Hrec : Forall seg_rec segs) (Ht : silent (reopened lf) (flen (segs_bytes segs))) (Hd : lf_disk lf = segs_bytes segs ++ t)
  (Hsz : flen (segs_bytes segs) < 2 ^ 63) (Hnext : next < 2 ^ 64)
  (Hmax : frames_max 0 (delivered (lf_encrypted lf) 0 segs) < next)
  (Hfile : ckpt_inv cfg (lf_encrypted lf) next segs (fs_file file)).

(** Where the scan starts: at a frame boundary, with the index of the frames
    before it. *)
Lemma recovery_start sync :
  exists segs1 segs2 h seed, segs = segs1 ++ segs2 /\ hi_wf h /\
    hi_map h = frames_index (delivered (lf_encrypted lf) 0 segs1) /\
    recovery_checkpoint (rio_ok sync) (restarted cfg lf ten file) = Some (h, flen (segs_bytes segs1), seed) /\
    frames_max 0 (delivered (lf_encrypted lf) 0 segs1) <= seed < next /\
    ckpt_inv cfg (lf_encrypted lf) (seed + 1) segs (fs_file file).
Proof.
  unfold recovery_checkpoint. cbn [rio_ok ri_read ri_plain ri_load ri_create restarted db_index_file db_hash
    db_config db_log].
  destruct (ckpt_read true true (fs_file file) (cfg_key cfg)) as [img|] eqn:Er.
  - destruct (ckpt_inv_loads _ _ _ _ _ _ _ Hfile Er Hok Hrec Hsz Hnext)
      as (segs1 & segs2 & h & nid & E & Hwf & Hm & -> & Hn & Hc).
    assert (flen (segs_bytes segs1) <= lf_size (reopened lf)) as Hle.
    { cbn. rewrite Hd, E, segs_bytes_app. unfold flen. rewrite !length_app. lia. }
    rewrite (proj2 (Z.leb_le _ _) Hle). pose proof (frames_max_nonneg (delivered (lf_encrypted lf) 0 segs1)).
    rewrite (proj2 (Z.eqb_neq nid 0)) by lia. exists segs1, segs2, h, (nid - 1).
    rewrite Z.sub_add. split_and!; (done || lia).
  - exists [], segs, hash_index_create, 0. cbn. split_and!; try done; [apply hi_wf_create| |].
    + pose proof (frames_max_nonneg (delivered (lf_encrypted lf) 0 segs)). lia.
    + intros img Hr. congruence.
Qed.

Lemma recovery_restores sync :
  exists db' res, recovery_pass1 (rio_ok sync) (restarted cfg lf ten file) = Some (db', res) /\
    hi_wf (db_hash db') /\ hi_map (db_hash db') = frames_index (delivered (lf_encrypted lf) 0 segs) /\
    lf_disk (db_log db') = segs_bytes segs /\ lf_size (db_log db') = flen (segs_bytes segs) /\
    lf_encrypted (db_log db') = lf_encrypted lf /\ lf_key (db_log db') = lf_key lf /\
    frames_max 0 (delivered (lf_encrypted lf) 0 segs) < db_next_id db' <= next /\
    db_config db' = cfg /\ db_index_file db' = file /\ ckpt_inv cfg (lf_encrypted lf) (db_next_id db') segs (fs_file file).
Proof.
  destruct (recovery_start sync) as (segs1 & segs2 & h & seed & E & Hwf & Hm & Hck & Hseed & Hckpt).
  unfold recovery_pass1. rewrite Hck. cbn [rio_ok ri_rerr ri_alloc ri_dalloc ri_put ri_trunc ri_sync].
  cbn [restarted db_log db_config db_tenants db_index_file].
  change (lf_size (reopened lf)) with (flen (lf_disk (reopened lf))).
  destruct (log_scan_from (scan_cb aok aok) ctx_step (reopened lf) segs1 segs2 t (mkScanCtx h seed) scan_cb_step) as [c ->];
    [by rewrite <- E|by rewrite <- E|by rewrite <- E|by rewrite <- E|]. rewrite <- E. cbn [truncate_to reopened lf_encrypted].
  pose proof (frames_max_nonneg (delivered (lf_encrypted lf) 0 segs1)) as H0.
  pose proof (ctx_step_spec (delivered (lf_encrypted lf) (flen (segs_bytes segs1)) segs2) (mkScanCtx h seed) Hwf) as Hsc.
  cbn zeta in Hsc. set (sc := foldl ctx_step _ _) in *. destruct Hsc as (Hw' & Hm' & Hx).
  cbn [sc_hash sc_max_id] in Hm', Hx.
  pose proof Hok as Hok1. rewrite E in Hok1. apply Forall_app in Hok1 as [Hok1 _].
  assert (delivered (lf_encrypted lf) 0 segs = delivered (lf_encrypted lf) 0 segs1 ++
    delivered (lf_encrypted lf) (flen (segs_bytes segs1)) segs2) as Hdel.
  { rewrite E, delivered_app, (segs_size_bytes _ (lf_key lf)) by done. done. }
  assert (hi_map (sc_hash sc) = frames_index (delivered (lf_encrypted lf) 0 segs)) as HM.
  { rewrite Hm', Hm, Hdel. unfold frames_index. by rewrite foldl_app. }
  assert (frames_max 0 (delivered (lf_encrypted lf) 0 segs) < wrap 64 (sc_max_id sc + 1) <= next /\ seed + 1 <= wrap 64 (sc_max_id sc + 1)) as [HN Hseed'].
  { set (d1 := delivered _ 0 segs1) in *. set (d2 := delivered _ _ segs2) in *.
    rewrite Hx, (frames_max_seed seed d2) by lia. rewrite Hdel, frames_max_app in Hmax |- *.
    rewrite (frames_max_seed (frames_max 0 d1) d2) in Hmax |- * by done.
    rewrite wrap_small by (split; lia). lia. }
  pose proof (ckpt_inv_next _ _ _ _ _ _ Hckpt Hseed') as Hck'.
  change (lf_disk (reopened lf)) with (lf_disk lf). rewrite Hd.
  assert (flen (segs_bytes segs ++ t) = flen (segs_bytes segs) + flen t) as Hfl by (unfold flen; rewrite length_app; lia).
  rewrite Hfl. destruct (Z.ltb_spec (flen (segs_bytes segs)) (flen (segs_bytes segs) + flen t)) as [Hlt|Hge].
  - unfold log_truncate. cbn [negb]. eexists _, _. split; [reflexivity|]. cbn [db_hash db_next_id db_config db_index_file db_log].
    assert (take (Z.to_nat (flen (segs_bytes segs))) (segs_bytes segs ++ t) ++
      replicate (Z.to_nat (flen (segs_bytes segs)) - length (segs_bytes segs ++ t)) 0 = segs_bytes segs) as Htk.
    { unfold flen. rewrite Nat2Z.id, take_app_length, length_app.
      replace (_ - _)%nat with 0%nat by lia. apply app_nil_r. }
    unfold log_fsync. cbn [lf_open reopened negb]. destruct sync; cbn [fst set_since lf_disk lf_size lf_encrypted lf_key];
      cbn [reopened lf_disk]; rewrite Hd, Htk; split_and!; (done || apply HN).
  - assert (t = []) as -> by (apply nil_length_inv; unfold flen in Hge; lia).
    eexists _, _. split; [reflexivity|]. cbn. rewrite Hd, app_nil_r. split_and!; (done || apply HN).
Qed.
End recovery.

(** ** Runs *)

Inductive DbOp :=
  | DInsert (io : WriteIo) (rec : MemoryRecord)
  | DRewrite (io : WriteIo) (rec : MemoryRecord)
  | DFlush (sync : bool)
  | DCheckpoint (io : FsIo) (salloc walloc : bool) (nonce : option (list Z)).

(** An insert takes the next id; a rewrite (an update, a tombstone, a new
    relationship) stores a new version of an id the index knows. *)
Definition db_step (db : Db) (op : DbOp) : Db :=
  match op with
  | DInsert io rec => let '(db, id) := take_next_id db in fst (append_and_hash io db (set_id rec id))
  | DRewrite io rec =>
      match hash_index_get (db_hash db) (mr_id rec) with
      | None => db
      | Some _ => fst (append_and_hash io db rec)
      end
  | DFlush sync => set_log db (fst (log_fsync_if_batched (db_log db) sync))
  | DCheckpoint io sa wa nonce => set_index_file db (snd (fst (checkpoint_index io sa wa nonce db)))
  end.

(** The disk states a crash during or right after the step can leave. *)
Definition crash_states (db : Db) (op : DbOp) : list (LogFile * FsState) :=
  match op with
  | DCheckpoint io sa wa nonce =>
      let '(tr, fin, _) := checkpoint_index io sa wa nonce db in map (db_log db,.) (fin :: tr)
  | _ => [(db_log (db_step db op), db_index_file (db_step db op))]
  end.

Definition dop_ok (op : DbOp) : Prop :=
  match op with
  | DInsert io rec => wio_ok io /\ rec_ok rec
  | DRewrite io rec => wio_ok io /\ rec_ok rec
  | DFlush _ => True
  | DCheckpoint _ _ _ nonce => match nonce with Some nc => nonce_ok nc | None => True end
  end.

(** No write of the step is cut. *)
Definition dop_clean (op : DbOp) : Prop :=
  match op with DInsert io _ => clean io | DRewrite io _ => clean io | _ => True end.

Lemma take_next_id_inv db segs :
  db_inv db segs -> db_next_id db < 2 ^ 64 - 1 -> db_inv (fst (take_next_id db)) segs.
Proof.
  intros [? ? ? ? Hn Hf] Hb. pose proof (frames_max_nonneg (delivered (lf_encrypted (db_log db)) 0 segs)).
  assert (wrap 64 (db_next_id db + 1) = db_next_id db + 1) as E by (apply wrap_small; split; lia).
  split; cbn; try done; rewrite E; [lia|]. eapply ckpt_inv_next; [exact Hf|lia].
Qed.

Lemma checkpoint_inv io sa wa nonce db segs :
  db_inv db segs -> dop_ok (DCheckpoint io sa wa nonce) ->
  let '(tr, fin, _) := checkpoint_index io sa wa nonce db in
  forall s, s ∈ fin :: tr -> ckpt_inv (db_config db) (lf_encrypted (db_log db)) (db_next_id db) segs (fs_file s).
Proof.
  intros Hi Hn. unfold checkpoint_index, hash_index_save. destruct sa; cbn [hash_index_serialize].
  2: { intros s Hs. assert (s = db_index_file db) as -> by set_solver. apply Hi. }
  set (img := ckpt_header _ _ _ ++ _).
  assert (hash_index_serialize true (db_hash db) (lf_size (db_log db)) (db_next_id db) = Some img) as Himg by done.
  pose proof (ckpt_write_spec io wa nonce (db_index_file db) (cfg_key (db_config db)) img) as Hw.
  destruct (ckpt_write _ _ _ _ _ _) as [[tr fin] ok]. destruct Hw as [Hw _].
  { intros n ->. exact Hn. }
  intros s Hs. destruct (Hw s Hs) as [E|E]; intros img' Hr; rewrite E in Hr; [by apply (di_file _ _ Hi)|].
  injection Hr as <-. exists segs, [], (db_hash db), (db_next_id db). rewrite app_nil_r. destruct Hi as [Hl ? ? ? ? ?].
  split_and!; try done. by rewrite <- (lh_size _ _ Hl).
Qed.

Lemma frames_max_elem frames m off p r :
  (off, p) ∈ frames -> record_decode aok p = Some r -> mr_id r <= frames_max m frames.
Proof.
  revert m. induction frames as [|f frames IH]; intros m Hin Hr; [by apply elem_of_nil in Hin|].
  apply elem_of_cons in Hin as [<-|Hin]; [|by apply IH]. cbn [frames_max foldl].
  fold (frames_max (max_step m (off, p)) frames). unfold max_step. cbn [snd]. rewrite Hr.
  rewrite Z.max_comm, frames_max_max. lia.
Qed.

(** Known ids are below the allocator. *)
Lemma known_id_lt db segs id e :
  db_inv db segs -> hi_map (db_hash db) !! id = Some e -> id < db_next_id db.
Proof.
  intros Hi Hl. rewrite (di_map _ _ Hi) in Hl.
  apply frames_index_elem in Hl as [Hl|(off & p & r & Hin & Hr & _ & <-)]; [done|].
  pose proof (frames_max_elem _ 0 _ _ _ Hin Hr). pose proof (di_next _ _ Hi). lia.
Qed.

Lemma get_known h id e : hi_wf h -> hash_index_get h id = Some e -> hi_map h !! id = Some e.
Proof.
  intros Hwf. rewrite get_refines by done. destruct (hi_map h !! id) as [x|]; cbn; [|done].
  destruct (he_deleted x =? 0); [|done]. by intros [= ->].
Qed.

Lemma fsync_batched_since lf sync : exists v, fst (log_fsync_if_batched lf sync) = set_since lf v.
Proof.
  assert (lf = set_since lf (lf_since_fsync lf)) as E by (by destruct lf). unfold log_fsync_if_batched.
  destruct (negb (lf_open lf)); [by exists (lf_since_fsync lf)|].
  destruct ((lf_fsync_batch lf =? 0) || (lf_fsync_batch lf <=? lf_since_fsync lf)), sync; cbn [fst]; eauto.
Qed.

(** What a step leaves: the invariant for the frames before it, or for one
    more. *)
Lemma db_step_inv db op segs :
  db_inv db segs -> db_full db -> dop_ok op -> db_next_id db < 2 ^ 64 - 1 ->
  exists segs', (segs' = segs \/ exists s, segs' = segs ++ [s]) /\ db_inv (db_step db op) segs' /\
    cut_tail (db_log (db_step db op)) segs' /\ (dop_clean op -> db_full (db_step db op)) /\
    db_config (db_step db op) = db_config db /\ db_next_id (db_step db op) <= db_next_id db + 1.
Proof.
  intros Hi Hf Hop Hb.
  assert (forall db segs, db_inv db segs -> db_full db -> cut_tail (db_log db) segs) as Hcut.
  { clear. intros db segs Hi Hf. apply cut_tail_full; [apply Hi|done]. }
  assert (forall io db rec, db_inv db segs -> db_full db -> wio_ok io -> rec_ok rec -> mr_id rec < db_next_id db ->
    let db' := fst (append_and_hash io db rec) in
    exists segs', (segs' = segs \/ exists s, segs' = segs ++ [s]) /\ db_inv db' segs' /\
      cut_tail (db_log db') segs' /\ (clean io -> db_full db') /\
      db_config db' = db_config db /\ db_next_id db' = db_next_id db) as Happ.
  { clear -Hcut. intros io db rec Hi Hf Hio Hr Hid. pose proof (append_step io db rec segs Hi Hio Hr Hid) as Hs.
    destruct (append_and_hash io db rec) as [db' st]. destruct Hs as [(Hc & Hn & _) [Hs|Hs]]; cbn [fst].
    - destruct Hs as (_ & (s & _ & Hinv) & Hfull). exists (segs ++ [s]). split_and!; eauto.
    - destruct Hs as (_ & Hinv & Htl & Hcl). exists segs. split_and!; eauto. }
  destruct op as [io rec|io rec|sync|io sa wa nonce]; cbn [db_step dop_ok dop_clean] in *.
  - destruct Hop as [Hio Hr]. pose proof (take_next_id_inv _ _ Hi Hb) as Hi1.
    pose proof (frames_max_nonneg (delivered (lf_encrypted (db_log db)) 0 segs)). pose proof (di_next _ _ Hi).
    assert (wrap 64 (db_next_id db + 1) = db_next_id db + 1) as E by (apply wrap_small; split; lia).
    destruct (take_next_id db) as [db1 id] eqn:Et. injection Et as <- <-. cbn [fst] in Hi1.
    assert (rec_ok (set_id rec (db_next_id db))) as Hr'.
    { destruct Hr as [W Hl]. split; [apply set_id_wf; [done|split; lia]|by rewrite set_id_length]. }
    destruct (Happ io _ (set_id rec (db_next_id db)) Hi1 Hf Hio Hr' ltac:(cbn; lia)) as (segs' & ? & ? & ? & ? & Hc & Hn).
    exists segs'. cbn in Hc, Hn. split_and!; try done. rewrite Hn, E. lia.
  - destruct Hop as [Hio Hr]. destruct (hash_index_get (db_hash db) (mr_id rec)) as [e|] eqn:Eg.
    2: { exists segs. split_and!; auto. lia. }
    assert (mr_id rec < db_next_id db) as Hid.
    { eapply known_id_lt, get_known; [exact Hi|apply Hi|exact Eg]. }
    destruct (Happ io db rec Hi Hf Hio Hr Hid) as (segs' & ? & ? & ? & ? & Hc & Hn). exists segs'. split_and!; try done. lia.
  - exists segs. destruct (fsync_batched_since (db_log db) sync) as [v ->].
    assert (db_inv (set_log db (set_since (db_log db) v)) segs) as Hi'.
    { destruct Hi as [[? ? ? ?] ? ? ? ? ?]. by split. }
    split_and!; auto. cbn. lia.
  - exists segs. pose proof (checkpoint_inv io sa wa nonce db segs Hi Hop) as Hck.
    destruct (checkpoint_index io sa wa nonce db) as [[tr fin] ok]. cbn [fst snd].
    assert (db_inv (set_index_file db fin) segs) as Hi'.
    { destruct Hi as [? ? ? ? ? ?]. split; cbn; try done. apply Hck. set_solver. }
    split_and!; auto. cbn. lia.
Qed.

(** ** The theorem *)

(** The same records under the same ids, and an allocator that reuses none. *)
Record same_contents (db' db : Db) : Prop := {
  sc_log : lf_disk (db_log db') = content (db_log db);
  sc_size : lf_size (db_log db') = lf_size (db_log db);
  sc_map : hi_map (db_hash db') = hi_map (db_hash db);
  sc_load id : load_record rok aok aok db' id = load_record rok aok aok db id;
  sc_fresh id : is_Some (hi_map (db_hash db) !! id) -> id < db_next_id db';
  sc_next : db_next_id db' <= db_next_id db
}.

Definition init_db (cfg : Config) (batch : Z) (ten : TenantTable) : Db :=
  mkDb cfg (new_log batch (cfg_key cfg)) hash_index_create ten 1 (mkFs None None) 0.

Lemma init_inv cfg batch ten : db_inv (init_db cfg batch ten) [] /\ db_full (init_db cfg batch ten).
Proof.
  split; [|done]. split; cbn; try done. apply hi_wf_create.
Qed.

Lemma db_run_inv ops db segs :
  db_inv db segs -> db_full db -> Forall (fun op => dop_ok op /\ dop_clean op) ops ->
  db_next_id db + Z.of_nat (length ops) < 2 ^ 64 ->
  exists segs', db_inv (foldl db_step db ops) segs' /\ db_full (foldl db_step db ops) /\
    db_config (foldl db_step db ops) = db_config db /\
    db_next_id (foldl db_step db ops) <= db_next_id db + Z.of_nat (length ops).
Proof.
  revert db segs. induction ops as [|op ops IH]; intros db segs Hi Hf Hops Hb; cbn [foldl].
  { exists segs. cbn. split_and!; (done || lia). }
  apply Forall_cons in Hops as [[Hop Hcl] Hops]. cbn [length] in *.
  destruct (db_step_inv db op segs Hi Hf Hop ltac:(lia)) as (segs1 & _ & Hi1 & _ & Hf1 & Hc1 & Hn1).
  destruct (IH _ segs1 Hi1 (Hf1 Hcl) Hops ltac:(lia)) as (segs' & ? & ? & Hc & ?).
  exists segs'. rewrite Hc. split_and!; (done || lia).
Qed.

Lemma load_record_same db db' segs :
  db_inv db segs -> hi_wf (db_hash db') -> hi_map (db_hash db') = hi_map (db_hash db) ->
  lf_disk (db_log db') = segs_bytes segs -> lf_encrypted (db_log db') = lf_encrypted (db_log db) ->
  lf_key (db_log db') = lf_key (db_log db) ->
  forall id, load_record rok aok aok db' id = load_record rok aok aok db id.
Proof.
  intros Hi Hwf Hm Hd He Hk id. unfold load_record.
  assert (hash_index_get (db_hash db') id = hash_index_get (db_hash db) id) as ->.
  { rewrite !get_refines by (done || apply Hi). by rewrite Hm. }
  destruct (hash_index_get (db_hash db) id) as [e|] eqn:Eg; [|done].
  apply get_known in Eg; [|apply Hi]. rewrite (di_map _ _ Hi) in Eg.
  apply frames_index_elem in Eg as [Eg|(off & p & r & Hin & Hr & -> & _)]; [done|]. cbn [frame_entry he_offset].
  pose proof (di_log _ _ Hi) as Hl.
  rewrite (acked_read (db_log db) (delivered (lf_encrypted (db_log db)) 0 segs) off p);
    [|by exists segs|done].
  assert (log_read rok aok (db_log db') off = Some p) as ->; [|done].
  apply (delivered_read _ segs [] []); [rewrite He, Hk; apply Hl|by rewrite Hd, app_nil_r|by rewrite He].
Qed.
(** Recovery from a state that holds [segs], its file possibly cut, and any
    usable checkpoint. *)
Lemma recovery_same db segs ten file sync :
  db_inv db segs -> cut_tail (db_log db) segs ->
  ckpt_inv (db_config db) (lf_encrypted (db_log db)) (db_next_id db) segs (fs_file file) ->
  lf_size (db_log db) < 2 ^ 63 -> db_next_id db < 2 ^ 64 ->
  exists db' res, recovery_pass1 (rio_ok sync) (restarted (db_config db) (db_log db) ten file) = Some (db', res) /\
    same_contents db' db.
Proof.
  intros Hi (Ht & t & Hd) Hfile Hsz Hn. pose proof (di_log _ _ Hi) as Hl.
  destruct (recovery_restores (db_config db) (db_log db) ten file segs t (db_next_id db)) with (sync := sync)
    as (db' & res & E & Hwf & Hm & Hdisk & Hsize & He & Hk & Hnx & _); try done; try apply Hl; try apply Hi.
  { by rewrite <- (lh_size _ _ Hl). }
  exists db', res. split; [exact E|]. split.
  - by rewrite Hdisk, (lh_content _ _ Hl).
  - by rewrite Hsize, (lh_size _ _ Hl).
  - by rewrite Hm, (di_map _ _ Hi).
  - apply (load_record_same db db' segs); try done. by rewrite Hm, (di_map _ _ Hi).
  - intros id [e Hid]. rewrite (di_map _ _ Hi) in Hid.
    apply frames_index_elem in Hid as [Hid|(off & p & r & Hin & Hr & _ & <-)]; [done|].
    pose proof (frames_max_elem _ 0 _ _ _ Hin Hr). lia.
  - lia.
Qed.

(** The recovered database satisfies the invariant again. *)
Lemma recovery_inv db segs ten file sync :
  db_inv db segs -> cut_tail (db_log db) segs ->
  ckpt_inv (db_config db) (lf_encrypted (db_log db)) (db_next_id db) segs (fs_file file) ->
  lf_size (db_log db) < 2 ^ 63 -> db_next_id db < 2 ^ 64 ->
  exists db' res, recovery_pass1 (rio_ok sync) (restarted (db_config db) (db_log db) ten file) = Some (db', res) /\
    db_inv db' segs /\ db_config db' = db_config db.
Proof.
  intros Hi (Ht & t & Hd) Hfile Hsz Hn. pose proof (di_log _ _ Hi) as Hl.
  destruct (recovery_restores (db_config db) (db_log db) ten file segs t (db_next_id db)) with (sync := sync)
    as (db' & res & E & Hwf & Hm & Hdisk & Hsize & He & Hk & Hnx & Hc & Hf & Hck); try done; try apply Hl; try apply Hi.
  { by rewrite <- (lh_size _ _ Hl). }
  exists db', res. split; [exact E|]. split; [|done]. split.
  - split; [rewrite He, Hk; apply Hl|apply Hl| |done].
    unfold content. rewrite Hdisk, Hsize. unfold flen. by rewrite Nat2Z.id, firstn_all.
  - apply Hi.
  - done.
  - by rewrite He.
  - rewrite He. apply Hnx.
  - by rewrite Hc, He, Hf.
Qed.

(** A step keeps the frames there are, cut or not. *)
Lemma db_step_extends db op segs :
  db_inv db segs -> dop_ok op -> db_next_id db < 2 ^ 64 - 1 ->
  exists more, db_inv (db_step db op) (segs ++ more) /\ db_config (db_step db op) = db_config db /\
    db_next_id (db_step db op) <= db_next_id db + 1 /\
    lf_encrypted (db_log (db_step db op)) = lf_encrypted (db_log db) /\
    lf_key (db_log (db_step db op)) = lf_key (db_log db).
Proof.
  intros Hi Hop Hb.
  assert (forall io db rec, db_inv db segs -> wio_ok io -> rec_ok rec -> mr_id rec < db_next_id db ->
    let db' := fst (append_and_hash io db rec) in
    exists more, db_inv db' (segs ++ more) /\ db_config db' = db_config db /\ db_next_id db' = db_next_id db /\
      lf_encrypted (db_log db') = lf_encrypted (db_log db) /\ lf_key (db_log db') = lf_key (db_log db)) as Happ.
  { clear. intros io db rec Hi Hio Hr Hid. pose proof (append_step io db rec segs Hi Hio Hr Hid) as Hs.
    destruct (append_and_hash io db rec) as [db' st]. destruct Hs as [(Hc & Hn & _ & He & Hk) [Hs|Hs]]; cbn [fst].
    - destruct Hs as (_ & (s & _ & Hinv) & _). by exists [s].
    - destruct Hs as (_ & Hinv & _). exists []. by rewrite app_nil_r. }
  destruct op as [io rec|io rec|sync|io sa wa nonce]; cbn [db_step dop_ok] in *.
  - destruct Hop as [Hio Hr]. pose proof (take_next_id_inv _ _ Hi Hb) as Hi1.
    pose proof (frames_max_nonneg (delivered (lf_encrypted (db_log db)) 0 segs)). pose proof (di_next _ _ Hi).
    assert (wrap 64 (db_next_id db + 1) = db_next_id db + 1) as E by (apply wrap_small; split; lia).
    destruct (take_next_id db) as [db1 id] eqn:Et. injection Et as <- <-. cbn [fst] in Hi1.
    assert (rec_ok (set_id rec (db_next_id db))) as Hr'.
    { destruct Hr as [W Hl]. split; [apply set_id_wf; [done|split; lia]|by rewrite set_id_length]. }
    destruct (Happ io _ (set_id rec (db_next_id db)) Hi1 Hio Hr' ltac:(cbn; lia)) as (more & ? & Hc & Hn & ? & ?).
    exists more. cbn in Hc, Hn. split_and!; try done. rewrite Hn, E. lia.
  - destruct Hop as [Hio Hr]. destruct (hash_index_get (db_hash db) (mr_id rec)) as [e|] eqn:Eg.
    2: { exists []. rewrite app_nil_r. split_and!; (done || lia). }
    assert (mr_id rec < db_next_id db) as Hid by (eapply known_id_lt, get_known; [exact Hi|apply Hi|exact Eg]).
    destruct (Happ io db rec Hi Hio Hr Hid) as (more & ? & Hc & Hn & ? & ?). exists more. split_and!; try done. lia.
  - exists []. rewrite app_nil_r. destruct (fsync_batched_since (db_log db) sync) as [v ->].
    destruct Hi as [[? ? ? ?] ? ? ? ? ?]. split_and!; cbn; try done; try lia; by split.
  - exists []. rewrite app_nil_r. pose proof (checkpoint_inv io sa wa nonce db segs Hi Hop) as Hck.
    destruct (checkpoint_index io sa wa nonce db) as [[tr fin] ok]. cbn [fst snd].
    destruct Hi as [? ? ? ? ? ?]. split_and!; try done; [|cbn; lia]. split; cbn; try done. apply Hck. set_solver.
Qed.

Lemma db_run_extends ops db segs :
  db_inv db segs -> Forall dop_ok ops -> db_next_id db + Z.of_nat (length ops) < 2 ^ 64 ->
  exists more, db_inv (foldl db_step db ops) (segs ++ more) /\ db_config (foldl db_step db ops) = db_config db /\
    db_next_id (foldl db_step db ops) <= db_next_id db + Z.of_nat (length ops) /\
    lf_encrypted (db_log (foldl db_step db ops)) = lf_encrypted (db_log db) /\
    lf_key (db_log (foldl db_step db ops)) = lf_key (db_log db).
Proof.
  revert db segs. induction ops as [|op ops IH]; intros db segs Hi Hops Hb; cbn [foldl length] in *.
  { exists []. rewrite app_nil_r. split_and!; (done || lia). }
  apply Forall_cons in Hops as [Hop Hops].
  destruct (db_step_extends db op segs Hi Hop ltac:(lia)) as (more1 & Hi1 & Hc1 & Hn1 & He1 & Hk1).
  destruct (IH _ _ Hi1 Hops ltac:(lia)) as (more2 & Hi2 & Hc2 & Hn2 & He2 & Hk2).
  exists (more1 ++ more2). rewrite (assoc_L (++)). split_and!; (done || congruence || lia).
Qed.
(** What a crash in or right after the last step leaves of the two files. *)
Lemma crash_states_inv db last lf file segs more :
  db_inv db segs -> dop_ok last -> db_inv (db_step db last) (segs ++ more) -> db_config (db_step db last) = db_config db ->
  (lf, file) ∈ crash_states db last ->
  lf = db_log (db_step db last) /\
  ckpt_inv (db_config db) (lf_encrypted lf) (db_next_id (db_step db last)) (segs ++ more) (fs_file file).
Proof.
  intros Hi Hlast Hi1 Hc1 Hcrash. pose proof (di_file _ _ Hi1) as Hfi. rewrite Hc1 in Hfi.
  destruct last as [io rec|io rec|s|io sa wa nonce]; cbn [crash_states] in Hcrash;
    try (apply list_elem_of_singleton in Hcrash as [= -> ->]; done).
  pose proof (checkpoint_inv io sa wa nonce db segs Hi Hlast) as Hck. cbn [db_step].
  destruct (checkpoint_index io sa wa nonce db) as [[tr fin] ok].
  apply list_elem_of_fmap in Hcrash as (f & [= -> ->] & Hin). split; [done|]. cbn.
  apply ckpt_inv_app. by apply Hck.
Qed.

(** The frames of a file are determined by its size as far as a cut goes. *)
Lemma cut_tail_same lf segs segs' : log_holds lf segs -> log_holds lf segs' -> cut_tail lf segs -> cut_tail lf segs'.
Proof.
  intros H1 H2 [Hs (t & Hd)]. assert (segs_bytes segs' = segs_bytes segs) as E by (by rewrite <- (lh_content _ _ H1), <- (lh_content _ _ H2)).
  unfold cut_tail. rewrite E. eauto.
Qed.
End correct.

(** C1: From an empty database, after any sequence of inserts, rewrites, flushes
    and checkpoints, with the last step cut by a crash at any byte of its log
    append or at any point of its checkpoint replacement, the first pass of
    recovery succeeds and restores exactly the acknowledged contents: the same
    log bytes, the same index, every record readable under its id, whether or
    not a checkpoint was usable; the id allocator is past every stored id and
    never ahead of the one that crashed. Either no append before the last step
    was cut, or appends were cut anywhere and the bytes they left past the end
    of the acknowledged frames are such that a scan of them finds no frame
    (otherwise a frame inside a cut payload comes back, [left_bytes_phantom]). *)
Theorem store_crash_recovery `{AeadScheme} cfg batch ten ops last lf file sync :
  Forall dop_ok ops -> dop_ok last ->
  Z.of_nat (length ops) < 2 ^ 63 ->
  let db := foldl db_step (init_db cfg batch ten) ops in
  lf_size (db_log (db_step db last)) < 2 ^ 63 ->
  (lf, file) ∈ crash_states db last ->
  Forall dop_clean ops \/ silent (reopened lf) (lf_size lf) ->
  exists db' res, recovery_pass1 (rio_ok sync) (restarted cfg lf ten file) = Some (db', res) /\
    same_contents db' (db_step db last).
Proof.
  intros Hops Hlast Hlen db Hsz Hcrash Hsil. destruct (init_inv cfg batch ten) as [Hi0 Hf0].
  destruct (db_run_extends ops _ [] Hi0 Hops ltac:(cbn; lia)) as (segs0 & Hi & Hc & Hn & _). cbn [app] in Hi.
  fold db in Hi, Hc, Hn. cbn in Hc, Hn.
  destruct (db_step_extends db last segs0 Hi Hlast ltac:(lia)) as (more & Hi1 & Hc1 & Hn1 & _).
  destruct (crash_states_inv db last lf file segs0 more Hi Hlast Hi1 Hc1 Hcrash) as [-> Hfile].
  rewrite <- Hc, <- Hc1. apply recovery_same with (segs0 ++ more); [done| |by rewrite Hc1|done|lia].
  destruct Hsil as [Hcl|Hsil].
  - assert (Forall (fun op => dop_ok op /\ dop_clean op) ops) as Hall by (by apply Forall_and).
    destruct (db_run_inv ops _ [] Hi0 Hf0 Hall ltac:(cbn; lia)) as (segs1 & Hi' & Hf' & _). fold db in Hi', Hf'.
    destruct (db_step_inv db last segs1 Hi' Hf' Hlast ltac:(lia)) as (segs2 & _ & Hi2 & Hcut & _).
    by apply (cut_tail_same _ segs2); [apply Hi2|apply Hi1|].
  - split; [by rewrite <- (lh_size _ _ (di_log _ _ Hi1))|].
    destruct (log_holds_split _ _ (di_log _ _ Hi1)) as (rest & Hd & _). by exists rest.
Qed.

(** Two inserts around a checkpoint, a rewrite, and an insert cut after three
    bytes of its payload. *)
Definition wit_wio (w : nat -> option nat) : WriteIo := mkWriteIo aok aok (Some wit_nonce) w true true true.
Definition wit_fio : FsIo := mkFsIo true true (fun _ => Some 100%nat) true true true true.
Definition wit_dops : list DbOp :=
  [DInsert (wit_wio (fun _ => None)) ex_record; DCheckpoint wit_fio true true (Some wit_nonce);
   DInsert (wit_wio (fun _ => None)) ex_record; DFlush true;
   DRewrite (wit_wio (fun _ => None)) (set_id ex_record 1)].
Definition wit_last : DbOp := DInsert (wit_wio (fun i => match i with O => None | _ => Some 3%nat end)) ex_record.
Definition wit_cfg : Config := mkConfig (Some wit_key) 0 true 10 100000.

Lemma wit_rec_ok : rec_ok ex_record.
Proof. split; [apply ex_record_wf|vm_compute; discriminate]. Qed.

Lemma wit_dops_ok : Forall (fun op => dop_ok op /\ dop_clean op) wit_dops.
Proof.
  assert (wio_ok (wit_wio (fun _ => None))) by (repeat split; apply wit_nonce_ok).
  assert (rec_ok (set_id ex_record 1)) by (split; [apply set_id_wf; [apply ex_record_wf|done]|vm_compute; discriminate]).
  repeat constructor; try done; try apply wit_rec_ok; try apply wit_nonce_ok; try (by split; [apply ex_record_wf|vm_compute]).
  all: apply H0.
Qed.

Lemma wit_last_ok : dop_ok wit_last.
Proof. split; [repeat split; apply wit_nonce_ok|apply wit_rec_ok]. Qed.

(** The same run, and one in which an append was cut before the last step. *)
Definition wit_dops_cut : list DbOp := wit_dops ++ [wit_last].
Definition wit_last_cut : DbOp := DInsert (wit_wio (fun i => match i with O => Some 9%nat | _ => None end)) ex_record.

Lemma wit_dops_cut_ok : Forall dop_ok wit_dops_cut.
Proof.
  apply Forall_app. split; [|apply Forall_singleton, wit_last_ok].
  eapply Forall_impl; [apply wit_dops_ok|]. by intros ? [].
Qed.

Definition recovers (ops : list DbOp) (last : DbOp) : Prop :=
  let db := foldl db_step (init_db wit_cfg 0 (mkTenants [] 0)) ops in
  exists db' res, recovery_pass1 (rio_ok true) (restarted wit_cfg (db_log (db_step db last)) (mkTenants [] 0)
      (db_index_file (db_step db last))) = Some (db', res) /\
    same_contents db' (db_step db last).

Lemma wit_cut_silent :
  let lf := db_log (db_step (foldl db_step (init_db wit_cfg 0 (mkTenants [] 0)) wit_dops_cut) wit_last_cut) in
  lf_size lf < flen (lf_disk lf) /\ silent (reopened lf) (lf_size lf).
Proof. split; vm_compute; reflexivity. Qed.

Lemma store_crash_recovery_witness : recovers wit_dops wit_last /\ recovers wit_dops_cut wit_last_cut.
Proof.
  split.
  - apply (store_crash_recovery wit_cfg 0 (mkTenants [] 0) wit_dops wit_last);
      [eapply Forall_impl; [apply wit_dops_ok|by intros ? []]|apply wit_last_ok|done|vm_compute; reflexivity| |].
    + apply list_elem_of_singleton. reflexivity.
    + left. eapply Forall_impl; [apply wit_dops_ok|by intros ? []].
  - apply (store_crash_recovery wit_cfg 0 (mkTenants [] 0) wit_dops_cut wit_last_cut);
      [apply wit_dops_cut_ok|split; [repeat split; apply wit_nonce_ok|apply wit_rec_ok]|done|vm_compute; reflexivity| |].
    + apply list_elem_of_singleton. reflexivity.
    + right. apply wit_cut_silent.
Defined.
