(* ===== verification/Compaction.v ===== *)
(** * Compaction

    The log rewrite of [src/storage/compaction.c]: a snapshot of the live
    entries, the copy of their frames into a scratch log while the database
    keeps running, and under the write lock the copy of the frames appended
    meanwhile, the swap of the log file and the rebuilt index. The three
    phases read three states of the database, the later ones reached by
    concurrent writers. *)

From S2P Require Import Prelude Endian HashIndex Record RecordCodec Aead AeadCorrect Log Tenant CkptCrypt Store.

Record NewLoc := mkLoc {
  nl_id : Z; nl_offset : Z; nl_length : Z; nl_type : Z; nl_deleted : Z; nl_expires_at : Z
}.

Record Locs := mkLocs { lo_items : list NewLoc; lo_cap : nat }.

(** [ok] is the outcome of the [realloc]. *)
Definition locs_push (ok : bool) (l : Locs) (v : NewLoc) : option Locs :=
  if (length (lo_items l) =? lo_cap l)%nat then
    if ok then Some (mkLocs (lo_items l ++ [v]) (if lo_cap l =? 0 then 16 else lo_cap l * 2)%nat) else None
  else Some (mkLocs (lo_items l ++ [v]) (lo_cap l)).

(** The live entries in bucket order and the log size they were captured at. *)
Definition compaction_snapshot (ok : bool) (db : Db) : option (list NewLoc * Z) :=
  if negb ok then None
  else
    Some (map (fun e => mkLoc (he_id e) (he_offset e) (he_length e) (he_type e) 0 (he_expires_at e))
            (filter (fun e => he_used e = true /\ he_deleted e = 0) (hi_buckets (db_hash db))),
          lf_size (db_log db)).

(** Outcomes of the calls; [ci_nonce], [ci_write] and [ci_push] are indexed by
    the frame being copied, [ci_put] by the location stored. *)
Record CompactIo := mkCio {
  ci_snap : bool; ci_new : OpenIo; ci_rerr : Z -> Z -> bool; ci_alloc : Z -> bool; ci_dalloc : Z -> bool;
  ci_nonce : nat -> option (list Z); ci_write : nat -> nat -> option nat; ci_push : nat -> bool;
  ci_fsync : bool; ci_rename : bool; ci_open : OpenIo; ci_create : bool; ci_put : nat -> bool
}.

Section compaction.
Context `{AeadScheme} (io : CompactIo).

(** Append one frame to the scratch log and record where it went; [None] when
    either failed. *)
Definition copy_frame (k : nat) (newlog : LogFile) (locs : Locs) (buf : list Z) (loc : Z -> NewLoc)
  : LogFile * option Locs :=
  let '(newlog, off) := log_append (ci_alloc io) newlog buf (ci_nonce io k) (ci_write io k) in
  match off with
  | None => (newlog, None)
  | Some off => (newlog, locs_push (ci_push io k) locs (loc off))
  end.

Fixpoint compaction_copy_live (db : Db) (snap : list NewLoc) (k : nat) (newlog : LogFile) (locs : Locs)
  : LogFile * option Locs :=
  match snap with
  | [] => (newlog, Some locs)
  | v :: snap' =>
      match log_read (ci_rerr io) (ci_alloc io) (db_log db) (nl_offset v) with
      | None => (newlog, None)
      | Some buf =>
          let '(newlog, locs) :=
            copy_frame k newlog locs buf
              (fun off => mkLoc (nl_id v) off (wrap 32 (Z.of_nat (length buf))) (nl_type v) 0 (nl_expires_at v)) in
          match locs with
          | None => (newlog, None)
          | Some locs => compaction_copy_live db snap' (S k) newlog locs
          end
      end
  end.

(** The frames from [tail] on; every turn advances by at least a header, so as
    many turns as bytes are enough. *)
Fixpoint compaction_drain (fuel : nat) (db : Db) (tail : Z) (k : nat) (newlog : LogFile) (locs : Locs)
  : LogFile * option Locs :=
  match fuel with
  | O => (newlog, Some locs)
  | S fuel' =>
      if tail <? lf_size (db_log db) then
        match log_read (ci_rerr io) (ci_alloc io) (db_log db) tail with
        | None => (newlog, None)
        | Some buf =>
            match record_decode (ci_dalloc io) buf with
            | None => (newlog, None)
            | Some r =>
                let len := Z.of_nat (length buf) in
                let '(newlog, locs) :=
                  copy_frame k newlog locs buf
                    (fun off => mkLoc (mr_id r) off (wrap 32 len) (memory_type_code (mr_type r))
                                  (flag (is_deleted r)) (mr_expires_at r)) in
                match locs with
                | None => (newlog, None)
                | Some locs =>
                    compaction_drain fuel' db (tail + (log_frame_overhead (db_log db) + len)) (S k) newlog locs
                end
            end
        end
      else (newlog, Some locs)
  end.

(** The index over the new offsets; the results of the puts are ignored. *)
Fixpoint rebuild_hash (k : nat) (locs : list NewLoc) (h : HashIndex) : HashIndex :=
  match locs with
  | [] => h
  | v :: locs' =>
      rebuild_hash (S k) locs'
        (match hash_index_put (ci_put io k) h (nl_id v) (nl_offset v) (nl_length v) (nl_type v)
                 (nl_deleted v) (nl_expires_at v) with
         | Some h' => h'
         | None => h
         end)
  end.

(** The swap: the state and whether the compaction succeeded. It is the state
    after the rename of the log and the unlink of the index checkpoint; the
    files in between are those of [compaction_crash_window]. *)
Definition compaction_swap (db : Db) (newlog : LogFile) (locs : Locs) : Db * bool :=
  let '(newlog, synced) := log_fsync newlog (ci_fsync io) in
  if negb synced then (db, false)
  else
    let key := cfg_key (db_config db) in
    let closed := fst (log_close (db_log db) true true) in
    let reopen disk := fst (fst (log_open (ci_rerr io) (ci_alloc io) (ci_open io) disk
                                   (cfg_fsync_batch (db_config db)) key)) in
    if negb (ci_rename io) then (set_log db (default closed (reopen (lf_disk (db_log db)))), false)
    else
      match reopen (lf_disk newlog) with
      | None => (set_log db closed, false)
      | Some lf =>
          if negb (ci_create io) then (set_log db lf, false)
          else
            (mkDb (db_config db) lf (rebuild_hash 0 (lo_items locs) hash_index_create) (db_tenants db)
               (db_next_id db) (mkFs None (fs_tmp (db_index_file db)))
               (wrap 64 (db_log_generation db + 1)), true)
      end.

(** Snapshot of [db0], copy while the state is [dbm], swap at [db1]. *)
Definition compaction_run_once_locked (db0 dbm db1 : Db) : Db * bool :=
  match compaction_snapshot (ci_snap io) db0 with
  | None => (db1, false)
  | Some (snap, snap_end) =>
      match log_open (ci_rerr io) (ci_alloc io) (ci_new io) [] (cfg_fsync_batch (db_config db0))
              (cfg_key (db_config db0)) with
      | (Some newlog, _, _) =>
          match compaction_copy_live dbm snap 0 newlog (mkLocs [] 0) with
          | (newlog, Some locs) =>
              match compaction_drain (S (Z.to_nat (lf_size (db_log db1) - snap_end))) db1 snap_end
                      (length snap) newlog locs with
              | (newlog, Some locs) => compaction_swap db1 newlog locs
              | (_, None) => (db1, false)
              end
          | (_, None) => (db1, false)
          end
      | (None, _, _) => (db1, false)
      end
  end.
End compaction.

(** At least a quarter of the index is tombstones. *)
Definition compaction_worthwhile (db : Db) : bool :=
  let used := filter (fun e => he_used e = true) (hi_buckets (db_hash db)) in
  let dead := Z.of_nat (length (filter (fun e => he_deleted e <> 0) used)) in
  let live := Z.of_nat (length (filter (fun e => he_deleted e = 0) used)) in
  (0 <? dead) && (live + dead <=? dead * 4).
