(* ===== verification/CompactionCorrect.v ===== *)
(** * Compaction preserves the records

    The rewritten log answers every id as the old one, with writers running
    through the copy, and what a compaction drops is only what no id names. *)

From S2P Require Import Prelude Endian HashIndex HashCheckpoint Record RecordCodec RecordRoundtrip RecordDecode Aead AeadCorrect Log LogCorrect LogFaults Tenant CkptCrypt Store StoreCorrect Compaction.

Section correct.
Context `{AeadScheme}.

(** ** The payload of an id *)

Definition pay_step (m : gmap Z (list Z)) (p : list Z) : gmap Z (list Z) :=
  match record_decode aok p with None => m | Some r => <[mr_id r := p]> m end.

(** The last payload of each id. *)
Definition pays (ps : list (list Z)) : gmap Z (list Z) := foldl pay_step ∅ ps.

Definition live (p : list Z) : bool :=
  match record_decode aok p with Some r => negb (is_deleted r) | None => false end.

(** What an id answers. *)
Definition answer (ps : list (list Z)) (id : Z) : option (list Z) :=
  pays ps !! id ≫= fun p => if live p then Some p else None.

Lemma foldl_pay_union m ps : foldl pay_step m ps = pays ps ∪ m.
Proof.
  revert m. induction ps as [|p ps IH] using rev_ind; intros m; cbn; [by rewrite map_empty_union|].
  unfold pays. rewrite !foldl_app. cbn [foldl]. rewrite IH. fold (pays ps). unfold pay_step.
  destruct (record_decode aok p) as [r|]; [|done]. apply insert_union_l.
Qed.

Lemma pays_app a b id : pays (a ++ b) !! id = match pays b !! id with Some p => Some p | None => pays a !! id end.
Proof.
  unfold pays. rewrite foldl_app, foldl_pay_union. fold (pays a) (pays b). rewrite lookup_union.
  destruct (pays b !! id), (pays a !! id); done.
Qed.

Lemma pays_elem ps id p :
  pays ps !! id = Some p -> p ∈ ps /\ exists r, record_decode aok p = Some r /\ mr_id r = id.
Proof.
  induction ps as [|q ps IH] using rev_ind; [done|]. rewrite pays_app. cbn. unfold pay_step.
  destruct (record_decode aok q) as [r|] eqn:Eq; [|rewrite lookup_empty; set_solver].
  destruct (decide (mr_id r = id)) as [<-|Hne].
  - rewrite lookup_insert_eq. intros [= <-]. split; [set_solver|]. eauto.
  - rewrite lookup_insert_ne, lookup_empty by done. set_solver.
Qed.

Lemma elem_pays ps p r : p ∈ ps -> record_decode aok p = Some r -> is_Some (pays ps !! mr_id r).
Proof.
  intros Hin Hr. induction ps as [|q ps IH]; [by apply elem_of_nil in Hin|].
  change (q :: ps) with ([q] ++ ps). rewrite pays_app.
  destruct (pays ps !! mr_id r) eqn:E; [eauto|]. apply elem_of_cons in Hin as [<-|Hin].
  - cbn. unfold pay_step. rewrite Hr, lookup_insert_eq. eauto.
  - destruct (IH Hin) as [? ?]. congruence.
Qed.

(** The index and the payloads agree. *)
Lemma index_pays frames id :
  match frames_index frames !! id with
  | None => pays (map snd frames) !! id = None
  | Some e => exists off p r, (off, p) ∈ frames /\ record_decode aok p = Some r /\ mr_id r = id /\
      e = frame_entry off p r /\ pays (map snd frames) !! id = Some p
  end.
Proof.
  induction frames as [|[off p] frames IH] using rev_ind; [done|].
  unfold frames_index in *. rewrite foldl_app, map_app. cbn [foldl map snd]. rewrite pays_app.
  unfold index_step at 1, pays at 1 3. cbn [fst snd foldl]. unfold pay_step.
  destruct (record_decode aok p) as [r|] eqn:Er.
  - destruct (decide (mr_id r = id)) as [<-|Hne].
    + rewrite !lookup_insert_eq. exists off, p, r. set_solver.
    + rewrite !lookup_insert_ne, lookup_empty by done. destruct (foldl index_step ∅ frames !! id) as [e|]; [|done].
      destruct IH as (off' & p' & r' & ? & ?). exists off', p', r'. set_solver.
  - rewrite lookup_empty. destruct (foldl index_step ∅ frames !! id) as [e|]; [|done].
    destruct IH as (off' & p' & r' & ? & ?). exists off', p', r'. set_solver.
Qed.

Definition log_pays (segs : list Seg) : list (list Z) := omap sg_payload segs.

Lemma delivered_pays enc off segs : map snd (delivered enc off segs) = log_pays segs.
Proof.
  revert off. induction segs as [|s segs IH]; intros off; cbn [delivered log_pays omap list_omap]; [done|].
  destruct (sg_payload s); cbn; by rewrite IH.
Qed.

Lemma answer_elem ps id p : answer ps id = Some p -> p ∈ ps.
Proof.
  unfold answer. destruct (pays ps !! id) as [q|] eqn:E; [|done]. cbn. destruct (live q); [|done].
  intros [= <-]. by apply pays_elem in E as [? _].
Qed.

(** Stored ids are below the allocator. *)
Lemma payload_id_lt db segs p r :
  db_inv db segs -> p ∈ log_pays segs -> record_decode aok p = Some r -> mr_id r < db_next_id db.
Proof.
  intros Hi Hin Hr. rewrite <- (delivered_pays (lf_encrypted (db_log db)) 0) in Hin.
  apply list_elem_of_fmap in Hin as ([off q] & -> & Hin).
  pose proof (frames_max_elem _ 0 _ _ _ Hin Hr). pose proof (di_next _ _ Hi). lia.
Qed.

(** ** What a load returns *)

Lemma load_record_answer db segs id :
  db_inv db segs ->
  load_record rok aok aok db id =
  match answer (log_pays segs) id with
  | None => inr AEGIS_ERR_NOT_FOUND
  | Some p => match record_decode aok p with Some r => inl r | None => inr AEGIS_ERR_INTERNAL end
  end.
Proof.
  intros Hi. unfold load_record, answer. rewrite get_refines by apply Hi. rewrite (di_map _ _ Hi).
  pose proof (index_pays (delivered (lf_encrypted (db_log db)) 0 segs) id) as Hp. rewrite delivered_pays in Hp.
  destruct (frames_index _ !! id) as [e|]; cbn [mbind option_bind]; [|by rewrite Hp].
  destruct Hp as (off & p & r & Hin & Hr & _ & -> & ->). cbn [frame_entry he_deleted mbind option_bind].
  unfold live. rewrite Hr. destruct (is_deleted r); cbn [flag Z.eqb negb]; [done|].
  cbn [frame_entry he_offset].
  rewrite (acked_read (db_log db) _ off p (ex_intro _ segs (conj (di_log _ _ Hi) eq_refl)) Hin), Hr. done.
Qed.

(** ** The scratch log *)

#[local] Opaque log_append log_read record_bytes record_decode.

(** The location of a frame. *)
Definition frame_loc (f : Z * list Z) : NewLoc :=
  match record_decode aok (snd f) with
  | Some r => mkLoc (mr_id r) (fst f) (wrap 32 (Z.of_nat (length (snd f)))) (memory_type_code (mr_type r))
                (flag (is_deleted r)) (mr_expires_at r)
  | None => mkLoc 0 0 0 0 0 0
  end.

(** The scratch log holds the payloads [ps], and [locs] is where. *)
Definition scratch (enc : bool) (key : list Z) (newlog : LogFile) (locs : Locs) (ps : list (list Z)) : Prop :=
  exists segs, log_holds newlog segs /\ Forall seg_rec segs /\ lf_encrypted newlog = enc /\ lf_key newlog = key /\
    flen (lf_disk newlog) = lf_size newlog /\ log_pays segs = ps /\
    lo_items locs = map frame_loc (delivered enc 0 segs).

(** Reads succeed, the random source gives nonces if anything, the files open
    and the swap and the index go through; the snapshot, writes, growth and
    the flush may fail. *)
Record cio_ok (io : CompactIo) : Prop := {
  co_rerr : ci_rerr io = rok; co_alloc : ci_alloc io = aok; co_dalloc : ci_dalloc io = aok;
  co_new : ci_new io = io_ok; co_open : ci_open io = io_ok;
  co_nonce : forall k, match ci_nonce io k with Some nc => nonce_ok nc | None => True end;
  co_rename : ci_rename io = true; co_create : ci_create io = true; co_put : forall k, ci_put io k = true
}.

Context (io : CompactIo) (Hio : cio_ok io).

Lemma copy_frame_scratch enc key k newlog locs ps r loc newlog' locs' :
  scratch enc key newlog locs ps -> rec_ok r ->
  (forall off, loc off = frame_loc (off, record_bytes r)) ->
  copy_frame io k newlog locs (record_bytes r) loc = (newlog', Some locs') ->
  scratch enc key newlog' locs' (ps ++ [record_bytes r]).
Proof.
  intros (segs & Hh & Hrecs & He & Hk & Hfull & Hps & Hlo) Hr Hloc E. unfold copy_frame in E.
  assert (exists wio, wio_ok wio /\ wi_log wio = ci_alloc io /\ wi_nonce wio = ci_nonce io k /\
    wi_write wio = ci_write io k) as (wio & Hw & Ew1 & Ew2 & Ew3).
  { exists (mkWriteIo aok aok (ci_nonce io k) (ci_write io k) true true true). split_and!; try done.
    - split_and!; try done. apply (co_nonce _ Hio k).
    - by rewrite (co_alloc _ Hio). }
  rewrite <- Ew1, <- Ew2, <- Ew3 in E. destruct (log_append _ _ _ _ _) as [lf' off] eqn:Ea.
  destruct (log_append_cases newlog segs r wio lf' off Hh Hr Hw Ea) as (He' & Hk' & Hoff).
  destruct off as [off|]; [|done]. destruct Hoff as (-> & s & Hs & Hsp & Hh' & Hf').
  destruct (locs_push _ _ _) as [l|] eqn:El; [|done]. injection E as <- <-.
  exists (segs ++ [s]). rewrite He', Hk'. split_and!; try done.
  - apply Forall_app. split; [done|by apply Forall_singleton].
  - by apply Hf'.
  - unfold log_pays in *. rewrite omap_app, Hps. f_equal. cbn [omap list_omap]. by rewrite Hsp.
  - assert (lo_items l = lo_items locs ++ [loc (lf_size newlog)]) as ->.
    { unfold locs_push in El. destruct (_ =? _)%nat; [destruct (ci_push io k); [|done]|]; by injection El as <-. }
    rewrite <- He, delivered_snoc, map_app, Hsp, Hlo, Hloc, <- He. cbn [map]. do 3 f_equal.
    rewrite (segs_size_bytes _ (lf_key newlog)) by apply Hh. by rewrite (lh_size _ _ Hh).
Qed.

Lemma seg_rec_read lf segs1 s segs2 rest :
  Forall (seg_ok (lf_encrypted lf) (lf_key lf)) (segs1 ++ s :: segs2) -> seg_rec s ->
  lf_disk lf = segs_bytes (segs1 ++ s :: segs2) ++ rest ->
  exists r, rec_ok r /\ sg_payload s = Some (record_bytes r) /\
    log_read rok aok lf (flen (segs_bytes segs1)) = Some (record_bytes r) /\
    flen (segs_bytes (segs1 ++ [s])) =
      flen (segs_bytes segs1) + (log_frame_overhead lf + Z.of_nat (length (record_bytes r))).
Proof.
  intros Hok (r & Hr & Hp & Hl) Hd. exists r. split; [done|]. split; [done|].
  apply Forall_app in Hok as [Hok1 Hok2]. split.
  - apply (delivered_read lf (s :: segs2) (segs_bytes segs1) rest); [done| |].
    + rewrite Hd, segs_bytes_app. by rewrite <- (assoc_L (++)).
    + cbn [delivered]. rewrite Hp. set_solver.
  - apply Forall_cons in Hok2 as [Hs _]. destruct (frame_is_length _ _ _ _ _ Hs) as [Hfl _].
    rewrite segs_bytes_snoc. unfold flen in *. rewrite length_app. unfold log_frame_overhead. lia.
Qed.

(** Draining copies every frame from the boundary on. *)
Lemma drain_scratch enc key db fuel segs1 segs2 k newlog locs ps newlog' locs' :
  log_holds (db_log db) (segs1 ++ segs2) -> Forall seg_rec segs2 -> (length segs2 < fuel)%nat ->
  scratch enc key newlog locs ps ->
  compaction_drain io fuel db (flen (segs_bytes segs1)) k newlog locs = (newlog', Some locs') ->
  scratch enc key newlog' locs' (ps ++ log_pays segs2).
Proof.
  revert fuel segs1 k newlog locs ps. induction segs2 as [|s segs2 IH]; intros fuel segs1 k newlog locs ps Hh Hrecs Hf Hs E.
  - destruct fuel as [|fuel]; [lia|]. cbn [compaction_drain] in E. rewrite app_nil_r in Hh.
    rewrite (lh_size _ _ Hh), Z.ltb_irrefl in E. injection E as <- <-. cbn. by rewrite app_nil_r.
  - destruct fuel as [|fuel]; [lia|]. apply Forall_cons in Hrecs as [Hsr Hrecs]. cbn [compaction_drain] in E.
    destruct (log_holds_split _ _ Hh) as (rest & Hd & _).
    destruct (seg_rec_read (db_log db) segs1 s segs2 rest (lh_ok _ _ Hh) Hsr Hd) as (r & Hr & Hp & Hrd & Hnext).
    rewrite (co_rerr _ Hio), (co_alloc _ Hio), (co_dalloc _ Hio), Hrd in E.
    assert (flen (segs_bytes segs1) < lf_size (db_log db)) as Hlt.
    { rewrite (lh_size _ _ Hh), segs_bytes_app. pose proof (lh_ok _ _ Hh) as Hok. apply Forall_app in Hok as [_ Hok].
      apply Forall_cons in Hok as [Hs1 _]. destruct (frame_is_length _ _ _ _ _ Hs1). pose proof (hdr_len_pos (lf_encrypted (db_log db))).
      unfold flen in *. cbn [segs_bytes map concat]. rewrite !length_app. lia. }
    rewrite (proj2 (Z.ltb_lt _ _) Hlt) in E. destruct Hr as [W Hl]. rewrite record_decode_bytes in E by done.
    destruct (copy_frame _ _ _ _ _ _) as [nl [lo|]] eqn:Ec; [|done].
    assert (scratch enc key nl lo (ps ++ [record_bytes r])) as Hs'.
    { eapply copy_frame_scratch; [exact Hs|by split| |exact Ec]. intros off. unfold frame_loc. cbn [fst snd].
      by rewrite record_decode_bytes. }
    rewrite <- Hnext in E. replace (ps ++ log_pays (s :: segs2)) with ((ps ++ [record_bytes r]) ++ log_pays segs2).
    + eapply IH; [|done| |exact Hs'|exact E]; [by rewrite <- (assoc_L (++))|cbn in Hf; lia].
    + rewrite <- (assoc_L (++)). cbn. unfold log_pays. cbn. by rewrite Hp.
Qed.

(** ** The snapshot *)

(** What a snapshot entry stands for: a live record of the log. *)
Definition snap_ok (enc : bool) (segs : list Seg) (v : NewLoc) (p : list Z) : Prop :=
  exists r, rec_ok r /\ p = record_bytes r /\ answer (log_pays segs) (mr_id r) = Some p /\
    (nl_offset v, p) ∈ delivered enc 0 segs /\
    forall off, frame_loc (off, p) =
      mkLoc (nl_id v) off (wrap 32 (Z.of_nat (length p))) (nl_type v) 0 (nl_expires_at v).

(** A live entry of the index, its record and its payload. *)
Lemma live_entry db segs e off p r :
  db_inv db segs -> (off, p) ∈ delivered (lf_encrypted (db_log db)) 0 segs -> record_decode aok p = Some r ->
  pays (log_pays segs) !! mr_id r = Some p -> e = frame_entry off p r -> he_deleted e = 0 ->
  snap_ok (lf_encrypted (db_log db)) segs
    (mkLoc (he_id e) (he_offset e) (he_length e) (he_type e) 0 (he_expires_at e)) p.
Proof.
  intros Hi Hin Hr Hp -> Hdel. destruct (delivered_elem _ _ _ _ _ _ (lh_ok _ _ (di_log _ _ Hi)) Hin) as (_ & s & Hs & Hsp).
  pose proof (di_recs _ _ Hi) as Hrecs. rewrite Forall_forall in Hrecs.
  destruct (Hrecs s Hs) as (r0 & Hr0 & Hsp' & _). rewrite Hsp in Hsp'. injection Hsp' as ->.
  cbn [frame_entry he_deleted] in Hdel. assert (is_deleted r = false) as Hd by (by destruct (is_deleted r)).
  pose proof Hr as Hr'. rewrite record_decode_bytes in Hr' by apply Hr0. injection Hr' as Hr'.
  exists r0. split; [done|]. split; [done|].
  assert (mr_id r0 = mr_id r) as -> by (by rewrite <- Hr'). split; [|split; [done|]].
  - unfold answer. rewrite Hp. cbn. unfold live. by rewrite Hr, Hd.
  - intros off'. unfold frame_loc. cbn [fst snd]. rewrite Hr, Hd. done.
Qed.

Lemma snapshot_live db segs snap snap_end :
  db_inv db segs -> compaction_snapshot (ci_snap io) db = Some (snap, snap_end) ->
  snap_end = flen (segs_bytes segs) /\
  (forall v, v ∈ snap -> exists p, snap_ok (lf_encrypted (db_log db)) segs v p) /\
  (forall id p, answer (log_pays segs) id = Some p ->
     exists v, v ∈ snap /\ snap_ok (lf_encrypted (db_log db)) segs v p).
Proof.
  intros Hi E. unfold compaction_snapshot in E. destruct (negb (ci_snap io)); [done|]. injection E as <- <-.
  pose proof (index_pays (delivered (lf_encrypted (db_log db)) 0 segs)) as Hip.
  split; [apply Hi|]. split.
  - intros v Hv. apply list_elem_of_fmap in Hv as (e & -> & He). apply list_elem_of_filter in He as [[Hu Hd] He].
    apply list_elem_of_lookup in He as [j Hj].
    assert (hi_map (db_hash db) !! he_id e = Some e) as Hm.
    { apply (tbl_map_lookup _ _ (hw_table _ (di_hash _ _ Hi))). eauto. }
    rewrite (di_map _ _ Hi) in Hm. specialize (Hip (he_id e)). rewrite Hm, delivered_pays in Hip.
    destruct Hip as (off & p & r & Hin & Hr & Hid & -> & Hp). exists p.
    eapply live_entry; [done|exact Hin|exact Hr|by rewrite Hid|done|done].
  - intros id p Ha. unfold answer in Ha. destruct (pays (log_pays segs) !! id) as [q|] eqn:Ep; [|done]. cbn in Ha.
    destruct (live q) eqn:El; [|done]. injection Ha as ->. specialize (Hip id). rewrite delivered_pays in Hip.
    destruct (frames_index _ !! id) as [e|] eqn:Ei; [|congruence].
    destruct Hip as (off & q & r & Hin & Hr & Hid & -> & Hq). rewrite Hq in Ep. injection Ep as ->.
    unfold live in El. rewrite Hr in El. assert (is_deleted r = false) as Hd by (by destruct (is_deleted r)).
    rewrite <- (di_map _ _ Hi) in Ei. apply (tbl_map_lookup _ _ (hw_table _ (di_hash _ _ Hi))) in Ei as (j & Hj & Hu & _).
    eexists. split.
    + apply list_elem_of_fmap. eexists. split; [reflexivity|]. apply list_elem_of_filter.
      split; [split; [done|]|by apply list_elem_of_lookup; exists j]. cbn. by rewrite Hd.
    + eapply live_entry; [done|exact Hin|exact Hr|by rewrite Hid|done|]. cbn. by rewrite Hd.
Qed.

Lemma copy_live_scratch enc key db segs0 more snap k newlog locs ps newlog' locs' :
  log_holds (db_log db) (segs0 ++ more) -> (forall v, v ∈ snap -> exists p, snap_ok (lf_encrypted (db_log db)) segs0 v p) ->
  scratch enc key newlog locs ps ->
  compaction_copy_live io db snap k newlog locs = (newlog', Some locs') ->
  exists qs, scratch enc key newlog' locs' (ps ++ qs) /\
    (forall q, q ∈ qs -> exists v, v ∈ snap /\ snap_ok (lf_encrypted (db_log db)) segs0 v q) /\
    (forall v p, v ∈ snap -> snap_ok (lf_encrypted (db_log db)) segs0 v p -> p ∈ qs).
Proof.
  intros Hh. assert (forall v p, snap_ok (lf_encrypted (db_log db)) segs0 v p ->
    log_read rok aok (db_log db) (nl_offset v) = Some p) as Hread.
  { intros v p (r & _ & -> & _ & Hin & _). eapply acked_read; [by exists (segs0 ++ more)|].
    rewrite delivered_app. set_solver. }
  revert k newlog locs ps. induction snap as [|v snap IH]; intros k newlog locs ps Hsn Hs E; cbn [compaction_copy_live] in E.
  { injection E as <- <-. exists []. rewrite app_nil_r. split; [done|]. set_solver. }
  destruct (Hsn v ltac:(set_solver)) as (p & Hp). rewrite (co_rerr _ Hio), (co_alloc _ Hio), (Hread v p Hp) in E.
  destruct Hp as (r & Hr & -> & Ha & Hin & Hloc).
  destruct (copy_frame _ _ _ _ _ _) as [nl [lo|]] eqn:Ec; [|done].
  assert (scratch enc key nl lo (ps ++ [record_bytes r])) as Hs'.
  { eapply copy_frame_scratch; [exact Hs|done| |exact Ec]. intros off. by rewrite Hloc. }
  destruct (IH (S k) nl lo _ ltac:(set_solver) Hs' E) as (qs & Hsc & Hq1 & Hq2).
  exists (record_bytes r :: qs). rewrite <- (assoc_L (++)) in Hsc. split; [done|]. split.
  - intros q Hq. apply elem_of_cons in Hq as [->|Hq]; [|destruct (Hq1 q Hq) as (v' & ? & ?); exists v'; set_solver].
    exists v. split; [set_solver|]. by exists r.
  - intros v' p' Hv' Hp'. apply elem_of_cons in Hv' as [->|Hv']; [|set_solver].
    pose proof (Hread v p' Hp') as Hr1. rewrite (Hread v (record_bytes r)) in Hr1 by (by exists r). set_solver.
Qed.

(** The copied payloads answer as the log they came from. *)
Lemma answer_copied enc (segs0 : list Seg) (snap : list NewLoc) (qs tail : list (list Z)) id :
  (forall id p, answer (log_pays segs0) id = Some p -> exists v, v ∈ snap /\ snap_ok enc segs0 v p) ->
  (forall q, q ∈ qs -> exists v, v ∈ snap /\ snap_ok enc segs0 v q) ->
  (forall v p, v ∈ snap -> snap_ok enc segs0 v p -> p ∈ qs) ->
  answer (qs ++ tail) id = answer (log_pays segs0 ++ tail) id.
Proof.
  intros Hall Hq1 Hq2. assert (answer qs id = answer (log_pays segs0) id) as E.
  { unfold answer at 1. destruct (pays qs !! id) as [q|] eqn:Eq; cbn.
    - destruct (pays_elem _ _ _ Eq) as [Hin (r & Hr & <-)]. destruct (Hq1 q Hin) as (v & _ & r0 & Hr0 & -> & Ha & _).
      pose proof Hr as Hr'. rewrite record_decode_bytes in Hr' by apply Hr0. injection Hr' as <-. cbn [norm_deleted mr_id] in *.
      rewrite Ha. unfold answer in Ha. destruct (pays (log_pays segs0) !! mr_id r0) as [q|]; [|done]. cbn in Ha.
      destruct (live q) eqn:El; [|done]. injection Ha as ->. by rewrite El.
    - destruct (answer (log_pays segs0) id) as [p|] eqn:Ea; [|done]. destruct (Hall _ _ Ea) as (v & Hv & Hs).
      pose proof (Hq2 v p Hv Hs) as Hin. unfold answer in Ea. destruct (pays (log_pays segs0) !! id) as [q|] eqn:Ep; [|done].
      cbn in Ea. destruct (live q); [|done]. injection Ea as ->. destruct (pays_elem _ _ _ Ep) as [_ (r & Hr & <-)].
      destruct (elem_pays _ _ _ Hin Hr). congruence. }
  unfold answer in *. rewrite !pays_app. by destruct (pays tail !! id).
Qed.

(** ** The rebuilt index *)

Lemma rebuild_hash_spec frames k h :
  hi_wf h -> Forall (fun f => is_Some (record_decode aok (snd f))) frames ->
  hi_wf (rebuild_hash io k (map frame_loc frames) h) /\
  hi_map (rebuild_hash io k (map frame_loc frames) h) = foldl index_step (hi_map h) frames.
Proof.
  revert k h. induction frames as [|f frames IH]; intros k h Hwf Hf; cbn [map rebuild_hash foldl]; [done|].
  apply Forall_cons in Hf as [[r Hr] Hf].
  assert (index_step (hi_map h) f = <[mr_id r := frame_entry (fst f) (snd f) r]> (hi_map h)) as ->
    by (unfold index_step; by rewrite Hr).
  assert (frame_loc f = mkLoc (mr_id r) (fst f) (wrap 32 (Z.of_nat (length (snd f)))) (memory_type_code (mr_type r))
    (flag (is_deleted r)) (mr_expires_at r)) as -> by (unfold frame_loc; by rewrite Hr).
  cbn [nl_id nl_offset nl_length nl_type nl_deleted nl_expires_at]. rewrite (co_put _ Hio).
  destruct (put_refines h (mr_id r) (fst f) (wrap 32 (Z.of_nat (length (snd f)))) (memory_type_code (mr_type r))
    (flag (is_deleted r)) (mr_expires_at r) Hwf) as (h' & -> & Hw & Hm).
  destruct (IH (S k) h' Hw Hf) as [Hw' Hm']. split; [done|]. by rewrite Hm', Hm.
Qed.

Lemma delivered_decodes enc key off segs :
  Forall (seg_ok enc key) segs -> Forall seg_rec segs ->
  Forall (fun f => is_Some (record_decode aok (snd f))) (delivered enc off segs).
Proof.
  intros Hok Hrecs. apply Forall_forall. intros [o p] Hin.
  destruct (delivered_elem _ _ _ _ _ _ Hok Hin) as (_ & s & Hs & Hp). rewrite Forall_forall in Hrecs.
  destruct (Hrecs s Hs) as (r & [W _] & Hp' & _). rewrite Hp in Hp'. injection Hp' as ->. cbn.
  rewrite record_decode_bytes by done. eauto.
Qed.

Lemma reopen_scratch batch key newlog locs ps :
  scratch (is_enc key) (default [] key) newlog locs ps ->
  fst (fst (log_open rok aok io_ok (lf_disk newlog) batch key))
  = Some (mkLog true (lf_disk newlog) (flen (lf_disk newlog)) 0 batch (is_enc key) (default [] key)).
Proof.
  intros (segs & Hh & Hrecs & He & Hk & Hfull & _). destruct (log_holds_split _ _ Hh) as (rest & Hd & Hr).
  specialize (Hr Hfull). subst rest. rewrite app_nil_r in Hd. destruct segs as [|s segs].
  - rewrite Hd. by destruct key.
  - pose proof (lh_ok _ _ Hh) as Hok. apply Forall_cons in Hok as [Hs _]. apply Forall_cons in Hrecs as [(r & _ & Hp & _) _].
    unfold seg_ok in Hs. rewrite He, Hk, Hp in Hs. rewrite Hd. cbn [segs_bytes map concat].
    by rewrite (open_first_frame batch key _ _ _ (concat (map sg_bytes segs)) Hs).
Qed.

(** The state after the swap. *)
Lemma swap_inv db newlog locs ps db' ok :
  scratch (is_enc (cfg_key (db_config db))) (default [] (cfg_key (db_config db))) newlog locs ps ->
  compaction_swap io db newlog locs = (db', ok) ->
  (forall p r, p ∈ ps -> record_decode aok p = Some r -> mr_id r < db_next_id db) -> 0 < db_next_id db ->
  (ok = false /\ db' = db) \/
  (ok = true /\ exists segs, db_inv db' segs /\ db_full db' /\ log_pays segs = ps /\
     db_next_id db' = db_next_id db /\ db_config db' = db_config db).
Proof.
  intros Hs E Hids H0. unfold compaction_swap in E.
  assert (exists v, log_fsync newlog (ci_fsync io) = (newlog, v) \/ log_fsync newlog (ci_fsync io) = (set_since newlog 0, v)) as (v & Hv).
  { unfold log_fsync. destruct (negb (lf_open newlog)); [eauto|]. destruct (ci_fsync io); eauto. }
  assert (exists nl, log_fsync newlog (ci_fsync io) = (nl, v) /\ lf_disk nl = lf_disk newlog) as (nl & Hfs & Hdisk).
  { destruct Hv as [-> | ->]; eauto. }
  rewrite Hfs in E. destruct v; cbn [negb] in E; [|injection E as <- <-; by left].
  rewrite (co_rename _ Hio), (co_open _ Hio), (co_create _ Hio), (co_rerr _ Hio), (co_alloc _ Hio), Hdisk in E. cbn [negb] in E.
  rewrite (reopen_scratch _ _ _ _ _ Hs) in E. injection E as <- <-. right. split; [done|].
  destruct Hs as (segs & Hh & Hrecs & He & Hk & Hfull & Hps & Hlo). exists segs.
  destruct (rebuild_hash_spec (delivered (is_enc (cfg_key (db_config db))) 0 segs) 0 hash_index_create hi_wf_create) as [Hw Hm].
  { eapply delivered_decodes; [|done]. rewrite <- He. apply Hh. }
  rewrite <- Hlo, hi_map_create in Hm. rewrite <- Hlo in Hw.
  split; [|split_and!; done]. split; cbn [db_log db_hash db_config db_next_id db_index_file lf_encrypted].
  - destruct Hh as [Hok Hi Hc Hsz]. apply (log_holds_intro _ _ []); cbn [lf_encrypted lf_key lf_disk lf_size].
    + by rewrite <- He, <- Hk.
    + done.
    + rewrite app_nil_r, <- Hc. unfold content. rewrite <- Hfull. unfold flen. by rewrite Nat2Z.id, firstn_all.
    + by rewrite Hfull.
  - done.
  - done.
  - exact Hm.
  - assert (Forall (fun f => forall r, record_decode aok (snd f) = Some r -> mr_id r < db_next_id db)
      (delivered (is_enc (cfg_key (db_config db))) 0 segs)) as Hall.
    { apply Forall_forall. intros [o p] Hin r Hr. apply (Hids p r); [|done]. rewrite <- Hps.
      rewrite <- (delivered_pays (is_enc (cfg_key (db_config db))) 0). apply list_elem_of_fmap. by exists (o, p). }
    clear -Hall H0. unfold frames_max.
    assert (forall l m, m < db_next_id db -> Forall (fun f => forall r, record_decode aok (snd f) = Some r -> mr_id r < db_next_id db) l ->
      foldl max_step m l < db_next_id db) as Hg.
    { induction l as [|f l IH]; intros m Hm Hl; cbn [foldl]; [done|]. apply Forall_cons in Hl as [Hf Hl]. apply IH; [|done].
      unfold max_step. destruct (record_decode aok (snd f)); [|done]. specialize (Hf _ eq_refl). lia. }
    by apply Hg.
  - intros img Himg. unfold ckpt_read, read_whole in Himg. discriminate Himg.
Qed.

Lemma new_scratch batch key nl b c :
  log_open rok aok io_ok [] batch key = (Some nl, b, c) ->
  scratch (is_enc key) (default [] key) nl (mkLocs [] 0) [].
Proof.
  intros E. exists []. destruct key; injection E as <- _ _; split_and!; try done; by apply (log_holds_intro _ _ []).
Qed.

(** The answers are kept whatever the writers did meanwhile. *)
Lemma run_once_inv db0 dbm db1 segs0 more1 more2 db2 ok :
  db_inv db0 segs0 -> db_inv dbm (segs0 ++ more1) -> db_inv db1 (segs0 ++ more2) ->
  db_config db1 = db_config db0 -> lf_encrypted (db_log db0) = is_enc (cfg_key (db_config db0)) ->
  lf_encrypted (db_log dbm) = lf_encrypted (db_log db0) -> lf_encrypted (db_log db1) = lf_encrypted (db_log db0) ->
  compaction_run_once_locked io db0 dbm db1 = (db2, ok) ->
  (ok = false /\ db2 = db1) \/
  (ok = true /\ exists segs2, db_inv db2 segs2 /\ db_full db2 /\ db_next_id db2 = db_next_id db1 /\
    db_config db2 = db_config db1 /\
    (forall id, load_record rok aok aok db2 id = load_record rok aok aok db1 id) /\
    forall p, p ∈ log_pays segs2 -> (exists id, answer (log_pays segs0) id = Some p) \/ p ∈ log_pays more2).
Proof.
  intros Hi0 Him Hi1 Hc Hk0 Hkm Hk1 E. unfold compaction_run_once_locked in E.
  destruct (compaction_snapshot _ _) as [[snap snap_end]|] eqn:Es; [|injection E as <- <-; by left].
  destruct (snapshot_live _ _ _ _ Hi0 Es) as (-> & Hsn & Hall). rewrite <- Hkm in Hsn, Hall.
  rewrite (co_rerr _ Hio), (co_alloc _ Hio), (co_new _ Hio) in E.
  destruct (log_open _ _ _ _ _ _) as [[[nl|] ?] ?] eqn:Eo; [|injection E as <- <-; by left].
  pose proof (new_scratch _ _ _ _ _ Eo) as Hs. rewrite <- Hc in Hs.
  destruct (compaction_copy_live _ _ _ _ _ _) as [nl1 [lo1|]] eqn:Ec; [|injection E as <- <-; by left].
  destruct (copy_live_scratch _ _ _ _ _ _ _ _ _ _ _ _ (di_log _ _ Him) Hsn Hs Ec) as (qs & Hs1 & Hq1 & Hq2).
  destruct (compaction_drain _ _ _ _ _ _ _) as [nl2 [lo2|]] eqn:Ed; [|injection E as <- <-; by left].
  pose proof (di_recs _ _ Hi1) as Hrecs. apply Forall_app in Hrecs as [_ Hrecs].
  eapply drain_scratch in Ed; [|apply (di_log _ _ Hi1)|done| |exact Hs1].
  2: { pose proof (lh_ok _ _ (di_log _ _ Hi1)) as Hok. apply Forall_app in Hok as [_ Hok].
    pose proof (segs_count16 _ _ _ Hok). rewrite (lh_size _ _ (di_log _ _ Hi1)), segs_bytes_app.
    unfold flen in *. rewrite length_app. lia. }
  assert (forall id, answer (qs ++ log_pays more2) id = answer (log_pays (segs0 ++ more2)) id) as Hans.
  { intros id. unfold log_pays at 2. rewrite omap_app. by apply (answer_copied (lf_encrypted (db_log dbm)) segs0 snap). }
  eapply swap_inv in E as [E|(-> & segs2 & Hi2 & Hf2 & Hp2 & Hn2 & Hc2)]; [by left| |exact Ed| |].
  - right. split; [done|]. exists segs2. split_and!; try done.
    { intros id. by rewrite (load_record_answer _ _ _ Hi2), (load_record_answer _ _ _ Hi1), Hp2, Hans. }
    intros p Hin. rewrite Hp2 in Hin. apply elem_of_app in Hin as [Hin|Hin]; [left|by right].
    destruct (Hq1 p Hin) as (v & _ & r' & _ & _ & Ha & _). eauto.
  - intros p r Hin Hr. apply (payload_id_lt _ _ p r Hi1); [|done]. unfold log_pays at 1. rewrite omap_app.
    apply elem_of_app in Hin as [Hin|Hin]; [|set_solver]. apply elem_of_app. left.
    destruct (Hq1 p Hin) as (v & _ & r' & _ & _ & Ha & _). by apply answer_elem in Ha.
  - pose proof (di_next _ _ Hi1). pose proof (frames_max_nonneg (delivered (lf_encrypted (db_log db1)) 0 (segs0 ++ more2))). lia.
Qed.
End correct.

(** C2: A compaction that runs while writers append keeps the database's
    contents. The snapshot is taken at any state reached from an empty
    database, the live frames are copied at a later one and the log is
    swapped at a still later one; the operations between may fail anywhere.
    When the compaction reports failure before the swap the database is
    untouched; when it reports success every id answers exactly as before,
    live, deleted or unknown, the id allocator has not moved, the new log file
    holds nothing past its frames, and a crash right after it is recovered
    to the same contents. *)
Theorem compaction_preserves `{AeadScheme} cfg batch ten ops0 opsm ops1 io db2 ok :
  Forall dop_ok ops0 -> Forall dop_ok opsm -> Forall dop_ok ops1 -> cio_ok io ->
  Z.of_nat (length ops0 + length opsm + length ops1) < 2 ^ 63 ->
  let db0 := foldl db_step (init_db cfg batch ten) ops0 in
  let dbm := foldl db_step db0 opsm in
  let db1 := foldl db_step dbm ops1 in
  compaction_run_once_locked io db0 dbm db1 = (db2, ok) ->
  (ok = false -> db2 = db1) /\
  (ok = true ->
   (forall id, load_record rok aok aok db2 id = load_record rok aok aok db1 id) /\
   db_next_id db2 = db_next_id db1 /\ db_full db2 /\
   forall sync, lf_size (db_log db2) < 2 ^ 63 ->
     exists db' res, recovery_pass1 (rio_ok sync) (restarted cfg (db_log db2) ten (db_index_file db2)) = Some (db', res) /\
       same_contents db' db2).
Proof.
  intros H0 Hm H1 Hio Hlen db0 dbm db1 E. destruct (init_inv cfg batch ten) as [Hi _].
  destruct (db_run_extends ops0 _ [] Hi H0 ltac:(cbn; lia)) as (segs0 & Hi0 & Hc0 & Hn0 & He0 & _).
  fold db0 in Hi0, Hc0, Hn0, He0. cbn in Hc0, Hn0, He0.
  destruct (db_run_extends opsm db0 segs0 Hi0 Hm ltac:(lia)) as (m1 & Him & Hcm & Hnm & Hem & _).
  fold dbm in Him, Hcm, Hnm, Hem.
  destruct (db_run_extends ops1 dbm _ Him H1 ltac:(lia)) as (m2 & Hi1 & Hc1 & Hn1 & He1 & _).
  fold db1 in Hi1, Hc1, Hn1, He1. rewrite <- (assoc_L (++)) in Hi1.
  destruct (run_once_inv io Hio db0 dbm db1 segs0 m1 (m1 ++ m2) db2 ok)
    as [[-> ->]|(-> & segs2 & Hi2 & Hf2 & Hn2 & Hc2 & Hld & _)]; try done; try congruence.
  { rewrite He0, Hc0. by destruct (cfg_key cfg). }
  split; [done|]. intros _. split_and!; try done. intros sync Hsz.
  assert (db_config db2 = cfg) as <- by congruence.
  apply recovery_same with segs2; try done; [|apply Hi2|lia].
  apply cut_tail_full; [apply Hi2|done].
Qed.

(** A tombstone of the record under the id. *)
Definition tombstone (r : MemoryRecord) (id : Z) : MemoryRecord :=
  mkMemoryRecord id (mr_type r) (mr_created r) (mr_updated r) (mr_importance r) (mr_confidence r)
    (mr_agent_id r) (mr_tags r) (mr_embedding r) (mr_embedding_dim r) (mr_vec_count r)
    (mr_relationships r) (mr_fact r) (mr_derivation r) (mr_data r) (mr_expires_at r) 1.

Definition wit_cio : CompactIo :=
  mkCio true io_ok rok aok aok (fun _ => Some wit_nonce) (fun _ _ => None) (fun _ => true) true true io_ok true
    (fun _ => true).

(** Both records rewritten during the copy, one more inserted and the second
    deleted before the swap. *)
Definition wit_mid : list DbOp := [wit_last; DRewrite (wit_wio (fun _ => None)) (set_id ex_record 2)].
Definition wit_tail : list DbOp :=
  [DInsert (wit_wio (fun _ => None)) ex_record; DRewrite (wit_wio (fun _ => None)) (tombstone ex_record 2)].

Lemma wit_cio_ok : cio_ok wit_cio.
Proof. split; try done. intros k. apply wit_nonce_ok. Qed.

Lemma tombstone_wf r id : record_wf r -> u64 id -> record_wf (tombstone r id).
Proof. intros [] ?. by constructor. Qed.

Lemma tombstone_ok id : u64 id -> Z.of_nat (length (record_bytes (tombstone ex_record id))) <= 0xFFFFFFFF ->
  rec_ok (tombstone ex_record id).
Proof. intros Hid Hl. split; [|done]. apply tombstone_wf; [apply ex_record_wf|done]. Qed.

Lemma wit_wio_ok w : wio_ok (wit_wio w).
Proof. repeat split; apply wit_nonce_ok. Qed.

Lemma wit_rewrite_ok id : u64 id -> Z.of_nat (length (record_bytes (set_id ex_record id))) <= 0xFFFFFFFF ->
  rec_ok (set_id ex_record id).
Proof. intros Hid Hl. split; [|done]. apply set_id_wf; [apply ex_record_wf|done]. Qed.

Lemma wit_mid_ok : Forall dop_ok wit_mid.
Proof.
  apply Forall_cons; split; [split; [apply wit_wio_ok|apply wit_rec_ok]|].
  apply Forall_singleton. split; [apply wit_wio_ok|]. apply wit_rewrite_ok; [by split|by vm_compute].
Qed.

Lemma wit_tail_ok : Forall dop_ok wit_tail.
Proof.
  apply Forall_cons; split; [split; [apply wit_wio_ok|apply wit_rec_ok]|].
  apply Forall_singleton. split; [apply wit_wio_ok|]. apply tombstone_ok; [by split|by vm_compute].
Qed.

Definition wit_plain : Config := mkConfig None 0 true 10 100000.

Lemma compaction_preserves_witness :
  let db0 := foldl db_step (init_db wit_plain 0 (mkTenants [] 0)) wit_dops in
  let dbm := foldl db_step db0 wit_mid in
  let db1 := foldl db_step dbm wit_tail in
  exists db2, compaction_run_once_locked wit_cio db0 dbm db1 = (db2, true) /\
    lf_size (db_log db1) = 1242 /\ lf_size (db_log db2) = 1035 /\
    forall id, load_record rok aok aok db2 id = load_record rok aok aok db1 id.
Proof.
  cbv zeta. set (db0 := foldl db_step (init_db _ _ _) _). set (dbm := foldl _ db0 _). set (db1 := foldl _ dbm _).
  destruct (compaction_run_once_locked wit_cio db0 dbm db1) as [db2 ok] eqn:E. exists db2.
  assert (ok = true) as ->.
  { assert (snd (compaction_run_once_locked wit_cio db0 dbm db1) = true) as Hs by (vm_compute; reflexivity). by rewrite E in Hs. }
  split; [done|]. split; [vm_compute; reflexivity|]. split.
  { assert (db2 = fst (compaction_run_once_locked wit_cio db0 dbm db1)) as -> by (by rewrite E). vm_compute. reflexivity. }
  assert (Forall dop_ok wit_dops) as H0 by (eapply Forall_impl; [apply wit_dops_ok|by intros ? [? _]]).
  pose proof (compaction_preserves wit_plain 0 (mkTenants [] 0) wit_dops wit_mid wit_tail wit_cio db2 true
    H0 wit_mid_ok wit_tail_ok wit_cio_ok eq_refl) as Hp.
  cbv zeta in Hp. fold db0 in Hp. fold dbm in Hp. fold db1 in Hp. specialize (Hp E) as [_ Hp]. exact (proj1 (Hp eq_refl)).
Defined.

(** A deleted id can be issued twice. Two inserts, the second deleted, and a
    compaction, which drops the tombstone and the index checkpoint: in memory
    the allocator is still past both ids, but a crash before the next
    checkpoint or clean shutdown leaves a log that only knows the first, and
    with the metadata file of a database never closed the restarted
    allocator hands out the deleted id again. *)
Theorem compaction_reissues_deleted_id :
  let w := wit_wio (fun _ => None) in
  let db1 := foldl db_step (init_db wit_plain 0 (mkTenants [] 0))
               [DInsert w ex_record; DInsert w ex_record; DRewrite w (tombstone ex_record 2)] in
  let '(db2, ok) := compaction_run_once_locked wit_cio db1 db1 db1 in
  ok = true /\ db_next_id db2 = 3 /\
  match recovery_pass1 (rio_ok true) (restarted wit_plain (db_log db2) (mkTenants [] 0) (db_index_file db2)) with
  | Some (db', _) =>
      floor_next_id (db_next_id db') (load_metadata_next_id true None) = 2
  | None => False
  end.
Proof. vm_compute. done. Qed.

(** ** Between the rename and the unlink *)

(** Three records, the index checkpointed after the first. *)
Definition window_cfg : Config := mkConfig None 0 false 10 100000.
Definition window_ops : list DbOp :=
  [DInsert (wit_wio (fun _ => None)) ex_record; DCheckpoint wit_fio true true None;
   DInsert (wit_wio (fun _ => None)) ex_record; DInsert (wit_wio (fun _ => None)) ex_record].

(** The new log is renamed into place before the old index checkpoint is
    unlinked. A crash between the two leaves the compacted log with a
    checkpoint of the old one; its covered offset is below the new size, so
    recovery starts there with the old offsets and the record the compaction
    moved to the front is lost. *)
Example compaction_crash_window :
  let db1 := foldl db_step (init_db window_cfg 0 (mkTenants [] 0)) window_ops in
  let '(db2, ok) := compaction_run_once_locked wit_cio db1 db1 db1 in
  ok = true /\ (exists r, load_record rok aok aok db2 3 = inl r) /\
  match recovery_pass1 (rio_ok true) (restarted window_cfg (db_log db2) (mkTenants [] 0) (db_index_file db1)) with
  | Some (db', _) => load_record rok aok aok db' 3 = inr AEGIS_ERR_NOT_FOUND
  | None => False
  end.
Proof. vm_compute. split_and!; [reflexivity|eexists; reflexivity|reflexivity]. Qed.
