(* ===== verification/Json.v ===== *)
(** * JSON documents

    The document tree of the vendored parser ([third_party/cjson]) as its
    accessors present it, and the typed field readers of
    [src/protocol/json_request.c]. Strings are C strings: what follows a NUL
    is invisible to every user. The text parser itself is not modelled. *)

From S2P Require Import Prelude Floats.

(** Children of an object keep the order and the duplicates of the text. *)
Inductive cJSON :=
  | JFalse | JTrue | JNull
  | JNumber (valuedouble : spec_float)
  | JString (valuestring : list Z)
  | JArray (child : list cJSON)
  | JObject (child : list (list Z * cJSON)).

Definition cJSON_IsBool (v : cJSON) : bool := match v with JFalse | JTrue => true | _ => false end.
Definition cJSON_IsTrue (v : cJSON) : bool := match v with JTrue => true | _ => false end.

(** The first child under the name. *)
Fixpoint find_item (l : list (list Z * cJSON)) (name : list Z) : option cJSON :=
  match l with
  | [] => None
  | (k, v) :: l' => if bool_decide (k = name) then Some v else find_item l' name
  end.

Definition cJSON_GetObjectItemCaseSensitive (o : cJSON) (name : list Z) : option cJSON :=
  match o with JObject l => find_item l name | _ => None end.

(** ** Field readers *)

Definition jr_str (o : cJSON) (key : list Z) (dflt : option (list Z)) : option (list Z) :=
  match cJSON_GetObjectItemCaseSensitive o key with
  | Some (JString s) => Some s
  | _ => dflt
  end.

Definition f64_2_64 : spec_float := f64_of_Z (2 ^ 64).

(** The integer part of a non-negative finite double. *)
Definition f64_trunc (x : spec_float) : Z :=
  match x with
  | S754_finite false m e => Z.shiftl (Zpos m) e
  | _ => 0
  end.

Definition isfinite (x : spec_float) : bool :=
  match x with S754_finite _ _ _ | S754_zero _ => true | _ => false end.

(** [None] for -1. *)
Definition jr_u64 (o : cJSON) (key : list Z) : option Z :=
  match cJSON_GetObjectItemCaseSensitive o key with
  | Some (JNumber d) =>
      if SFltb d (S754_zero false) then None
      else if SFleb f64_2_64 d then None
      else Some (f64_trunc d)
  | _ => None
  end.

Definition jr_f64 (o : cJSON) (key : list Z) : option spec_float :=
  match cJSON_GetObjectItemCaseSensitive o key with
  | Some (JNumber d) => if isfinite d then Some d else None
  | _ => None
  end.

Definition jr_bool (o : cJSON) (key : list Z) (dflt : bool) : bool :=
  match cJSON_GetObjectItemCaseSensitive o key with
  | Some v => if cJSON_IsBool v then cJSON_IsTrue v else dflt
  | None => dflt
  end.

Definition strings_of (l : list cJSON) : list (list Z) :=
  omap (fun v => match v with JString s => Some s | _ => None end) l.

(** [max = 0] is no limit; [None] is the refusal. *)
Definition jr_str_array (alloc : bool) (o : cJSON) (key : list Z) (max : nat) : option (list (list Z)) :=
  match cJSON_GetObjectItemCaseSensitive o key with
  | Some (JArray l) =>
      if (length l =? 0)%nat then Some []
      else if negb (max =? 0)%nat && (max <? length l)%nat then None
      else if negb alloc then None
      else Some (strings_of l)
  | _ => Some []
  end.

Fixpoint floats_of (l : list cJSON) : option (list spec_float) :=
  match l with
  | [] => Some []
  | JNumber d :: l' => if isfinite d then cons (f32_of_f64 d) <$> floats_of l' else None
  | _ :: _ => None
  end.

Definition jr_float_array (alloc : bool) (o : cJSON) (key : list Z) (max : nat) : option (list spec_float) :=
  match cJSON_GetObjectItemCaseSensitive o key with
  | Some (JArray l) =>
      if (length l =? 0)%nat then Some []
      else if negb (max =? 0)%nat && (max <? length l)%nat then None
      else if negb alloc then None
      else floats_of l
  | _ => Some []
  end.
