(* ===== verification/Registry.v ===== *)
(** * The predicate registry

    [src/util/predicate_registry.c]: the declared vocabulary of facts, parsed
    from a JSON document, validated as a whole and searched by name. A file
    that cannot be read or is not JSON is refused before the document the
    model starts from. *)

From S2P Require Import Prelude SortedArray Record StrTable Intern ProbeTable FactIndex Floats Json.

Inductive PredObjKind := PRED_OBJ_ID | PRED_OBJ_STRING.
#[global] Instance PredObjKind_eq_dec : EqDecision PredObjKind.
Proof. solve_decision. Defined.

Record PredicateSpec := mkPredSpec {
  ps_name : list Z;
  ps_object : PredObjKind;
  ps_single_valued : bool;
  ps_symmetric : bool;
  ps_transitive : bool;
  ps_inverse_of : option (list Z);
  ps_mutex_with : list (list Z)
}.

(** Sorted by name. *)
Record PredicateRegistry := mkRegistry { pr_specs : list PredicateSpec }.

(** The byte order of two C strings. *)
Definition strcmp (a b : list Z) : Z := premises_cmp a b.

(** ** Lookup *)

Definition predicate_registry_count (r : PredicateRegistry) : nat := length (pr_specs r).
Definition predicate_registry_at (r : PredicateRegistry) (i : nat) : option PredicateSpec := pr_specs r !! i.

(** The binary search between [lo] and [hi]; every turn halves the interval,
    so its length is enough fuel. *)
Fixpoint get_loop (fuel : nat) (specs : list PredicateSpec) (predicate : list Z) (lo hi : nat)
  : option PredicateSpec :=
  match fuel with
  | O => None
  | S fuel' =>
      if (lo <? hi)%nat then
        let mid := (lo + (hi - lo) / 2)%nat in
        match specs !! mid with
        | None => None
        | Some s =>
            let c := strcmp (ps_name s) predicate in
            if c <? 0 then get_loop fuel' specs predicate (mid + 1) hi
            else if 0 <? c then get_loop fuel' specs predicate lo mid
            else Some s
        end
      else None
  end.

Definition predicate_registry_get (r : PredicateRegistry) (predicate : list Z) : option PredicateSpec :=
  get_loop (S (length (pr_specs r))) (pr_specs r) predicate 0 (length (pr_specs r)).

Inductive CheckError := NotDeclared | WrongObject (want : PredObjKind).

(** No registry allows everything. *)
Definition predicate_registry_check (r : option PredicateRegistry) (predicate : list Z) (okind : FactKind)
  : option CheckError :=
  match r with
  | None => None
  | Some r =>
      match predicate_registry_get r predicate with
      | None => Some NotDeclared
      | Some spec =>
          let want := match okind with FACT_OBJ_ID => PRED_OBJ_ID | _ => PRED_OBJ_STRING end in
          if bool_decide (ps_object spec = want) then None else Some (WrongObject (ps_object spec))
      end
  end.

(** ** Parsing *)

Definition K_object : list Z := [111; 98; 106; 101; 99; 116].
Definition K_cardinality : list Z := [99; 97; 114; 100; 105; 110; 97; 108; 105; 116; 121].
Definition K_symmetric : list Z := [115; 121; 109; 109; 101; 116; 114; 105; 99].
Definition K_transitive : list Z := [116; 114; 97; 110; 115; 105; 116; 105; 118; 101].
Definition K_inverse_of : list Z := [105; 110; 118; 101; 114; 115; 101; 95; 111; 102].
Definition K_mutex_with : list Z := [109; 117; 116; 101; 120; 95; 119; 105; 116; 104].
Definition S_id : list Z := [105; 100].
Definition S_string : list Z := [115; 116; 114; 105; 110; 103].
Definition S_one : list Z := [111; 110; 101].
Definition S_many : list Z := [109; 97; 110; 121].

(** What the loader reports. *)
Inductive RegError :=
  | EmptyName | NameTooLong | NotAnObject | UnknownKey | BadObject | BadCardinality | BadFlag
  | NeedsIdObject | BadInverse | InverseOfItself | BadMutex | DeclaredTwice | NoPredicates
  | TooManyPredicates | InverseUndeclared | InverseNotMutual | InverseNeedsId | MutexUndeclared
  | OutOfMemory.

(** The error monad of the loader. *)
Definition Res (A : Type) : Type := RegError + A.
Definition bind_res {A B} (m : Res A) (k : A -> Res B) : Res B :=
  match m with inl e => inl e | inr a => k a end.
#[local] Notation "'do' x <- m ; k" := (bind_res m (fun x => k)) (at level 200, x pattern, right associativity).
#[local] Notation "'check' b 'else' e ; k" := (if b then k else inl e) (at level 200, right associativity).

Definition known_key (k : list Z) : bool :=
  existsb (fun x => bool_decide (k = x))
    [K_object; K_cardinality; K_symmetric; K_transitive; K_inverse_of; K_mutex_with].

Definition parse_bool (v : option cJSON) : Res bool :=
  match v with
  | None => inr false
  | Some v => check cJSON_IsBool v else BadFlag; inr (cJSON_IsTrue v)
  end.

Definition parse_object (v : option cJSON) : Res PredObjKind :=
  match v with
  | Some (JString s) =>
      if bool_decide (s = S_id) then inr PRED_OBJ_ID
      else if bool_decide (s = S_string) then inr PRED_OBJ_STRING
      else inl BadObject
  | _ => inl BadObject
  end.

Definition parse_cardinality (v : option cJSON) : Res bool :=
  match v with
  | None => inr false
  | Some (JString s) =>
      if bool_decide (s = S_one) then inr true
      else if bool_decide (s = S_many) then inr false
      else inl BadCardinality
  | Some _ => inl BadCardinality
  end.

Section load.
(** Outcomes of the allocations of a declaration: the copy of the inverse's
    name, the array, each of its names, the declaration's own name. *)
Context (alloc : nat -> bool).

Definition parse_inverse (pred : list Z) (v : option cJSON) : Res (option (list Z)) :=
  match v with
  | None => inr None
  | Some (JString s) =>
      check negb (bool_decide (s = [])) else BadInverse;
      check negb (bool_decide (s = pred)) else InverseOfItself;
      check alloc 0 else OutOfMemory;
      inr (Some s)
  | Some _ => inl BadInverse
  end.

Fixpoint parse_mutex_names (k : nat) (l : list cJSON) : Res (list (list Z)) :=
  match l with
  | [] => inr []
  | JString s :: l' =>
      check alloc k else OutOfMemory;
      do rest <- parse_mutex_names (S k) l';
      inr (s :: rest)
  | _ :: _ => inl BadMutex
  end.

Definition parse_mutex (v : option cJSON) : Res (list (list Z)) :=
  match v with
  | None => inr []
  | Some (JArray l) =>
      match l with
      | [] => inr []
      | _ => check alloc 1 else OutOfMemory; parse_mutex_names 3 l
      end
  | Some _ => inl BadMutex
  end.

Definition parse_spec (pred : list Z) (item : cJSON) : Res PredicateSpec :=
  check negb (bool_decide (pred = [])) else EmptyName;
  check (length pred <=? FACT_MAX_PREDICATE_LEN)%nat else NameTooLong;
  match item with
  | JObject keys =>
      check forallb (fun kv => known_key (fst kv)) keys else UnknownKey;
      do object <- parse_object (cJSON_GetObjectItemCaseSensitive item K_object);
      do single <- parse_cardinality (cJSON_GetObjectItemCaseSensitive item K_cardinality);
      do symmetric <- parse_bool (cJSON_GetObjectItemCaseSensitive item K_symmetric);
      do transitive <- parse_bool (cJSON_GetObjectItemCaseSensitive item K_transitive);
      check negb ((symmetric || transitive) && negb (bool_decide (object = PRED_OBJ_ID))) else NeedsIdObject;
      do inverse <- parse_inverse pred (cJSON_GetObjectItemCaseSensitive item K_inverse_of);
      do mutex <- parse_mutex (cJSON_GetObjectItemCaseSensitive item K_mutex_with);
      check alloc 2 else OutOfMemory;
      inr (mkPredSpec pred object single symmetric transitive inverse mutex)
  | _ => inl NotAnObject
  end.
End load.

(** ** Validation of the whole *)

Definition spec_le : relation PredicateSpec := fun a b => strcmp (ps_name a) (ps_name b) <= 0.
#[global] Instance spec_le_dec : RelDecision spec_le.
Proof. intros a b. unfold spec_le. apply _. Defined.

Fixpoint no_adjacent_twins (l : list PredicateSpec) : bool :=
  match l with
  | a :: (b :: _) as l' => negb (strcmp (ps_name a) (ps_name b) =? 0) && no_adjacent_twins l'
  | _ => true
  end.

Definition validate_inverse (r : PredicateRegistry) (e : PredicateSpec) : Res unit :=
  match ps_inverse_of e with
  | None => inr tt
  | Some inv =>
      match predicate_registry_get r inv with
      | None => inl InverseUndeclared
      | Some other =>
          check bool_decide (ps_inverse_of other = Some (ps_name e)) else InverseNotMutual;
          check bool_decide (ps_object other = PRED_OBJ_ID /\ ps_object e = PRED_OBJ_ID) else InverseNeedsId;
          inr tt
      end
  end.

Fixpoint validate_mutex (r : PredicateRegistry) (l : list (list Z)) : Res unit :=
  match l with
  | [] => inr tt
  | m :: l' =>
      match predicate_registry_get r m with
      | None => inl MutexUndeclared
      | Some _ => validate_mutex r l'
      end
  end.

Fixpoint validate_loop (r : PredicateRegistry) (l : list PredicateSpec) : Res unit :=
  match l with
  | [] => inr tt
  | e :: l' =>
      do _ <- validate_inverse r e;
      do _ <- validate_mutex r (ps_mutex_with e);
      validate_loop r l'
  end.

Definition validate_refs (r : PredicateRegistry) : Res unit := validate_loop r (pr_specs r).

Fixpoint parse_all (alloc : nat -> nat -> bool) (i : nat) (l : list (list Z * cJSON)) : Res (list PredicateSpec) :=
  match l with
  | [] => inr []
  | (pred, item) :: l' =>
      do s <- parse_spec (alloc i) pred item;
      do rest <- parse_all alloc (S i) l';
      inr (s :: rest)
  end.

(** From the parsed document; [tables] is the outcome of the two table
    allocations, [alloc i] of those of the [i]-th declaration. *)
Definition predicate_registry_load (tables : bool) (alloc : nat -> nat -> bool) (root : cJSON)
  : Res PredicateRegistry :=
  match root with
  | JObject child =>
      check negb (length child =? 0)%nat else NoPredicates;
      check (length child <=? FACT_MAX_PREDICATES)%nat else TooManyPredicates;
      check tables else OutOfMemory;
      do specs <- parse_all alloc 0 child;
      let r := mkRegistry (merge_sort spec_le specs) in
      check no_adjacent_twins (pr_specs r) else DeclaredTwice;
      do _ <- validate_refs r;
      inr r
  | _ => inl NotAnObject
  end.

(** ** The order of names *)

#[export, refine] Instance name_order : OrderB (list Z) := {| ltb a b := strcmp a b <? 0 |}.
Proof.
  - intros a. assert (strcmp a a = 0) as -> by (by apply premises_cmp_eq). done.
  - intros a b c H1 H2. zbool. apply Z.ltb_lt. by apply (premises_cmp_trans a b c).
  - intros a b H1 H2. zbool. unfold strcmp in *. rewrite premises_cmp_flip in H2.
    apply premises_cmp_eq. lia.
Defined.

Lemma strcmp_pos a b : 0 < strcmp a b -> ltb b a = true.
Proof. intros H. cbn. unfold strcmp in *. rewrite premises_cmp_flip. apply Z.ltb_lt. lia. Qed.

Definition names (r : PredicateRegistry) : list (list Z) := map ps_name (pr_specs r).

(** The search narrows an interval that holds every spec of the name. *)
Lemma get_loop_spec fuel specs p lo hi :
  strictly_sorted (map ps_name specs) -> (hi <= length specs)%nat -> (hi - lo < fuel)%nat ->
  (forall i s, specs !! i = Some s -> ps_name s = p -> (lo <= i < hi)%nat) ->
  forall s, get_loop fuel specs p lo hi = Some s <-> s ∈ specs /\ ps_name s = p.
Proof.
  intros Hs. revert lo hi. induction fuel as [|fuel IH]; intros lo hi Hhi Hf Hin s; [lia|]. cbn [get_loop].
  destruct (Nat.ltb_spec lo hi) as [Hlt|Hge].
  2:{ split; [done|]. intros [Hel Hn]. apply list_elem_of_lookup in Hel as [i Hi]. specialize (Hin i s Hi Hn). lia. }
  pose proof (Nat.div_lt (hi - lo) 2 ltac:(lia) ltac:(lia)) as Hd. set (mid := (lo + (hi - lo) / 2)%nat) in *.
  destruct (lookup_lt_is_Some_2 specs mid ltac:(lia)) as [m Hm]. rewrite Hm.
  assert (forall i s', specs !! i = Some s' -> ((i < mid)%nat -> ltb (ps_name s') (ps_name m) = true) /\
    ((mid < i)%nat -> ltb (ps_name m) (ps_name s') = true)) as Hord.
  { intros i s' Hi. split; intros Hlt'; eapply (sorted_lookup lt_rel (map ps_name specs) _ _ _ _ Hs Hlt');
      rewrite list_lookup_fmap; (by rewrite Hi) || (by rewrite Hm). }
  destruct (strcmp (ps_name m) p <? 0) eqn:El.
  - apply IH; [lia|lia|]. intros i s' Hi Hn. specialize (Hin i s' Hi Hn). split; [|lia].
    destruct (decide (i <= mid)%nat) as [Hle|]; [|lia]. exfalso. destruct (decide (i = mid)) as [->|].
    + assert (s' = m) as -> by congruence. change (ltb (ps_name m) p = true) in El. rewrite Hn, ltb_irrefl in El. done.
    + destruct (Hord i s' Hi) as [H1 _]. specialize (H1 ltac:(lia)). rewrite Hn in H1.
      pose proof (ltb_trans _ _ _ H1 (El : ltb (ps_name m) p = true)) as Hc. by rewrite ltb_irrefl in Hc.
  - destruct (Z.ltb_spec 0 (strcmp (ps_name m) p)) as [Eg|Eg].
    + apply IH; [lia|lia|]. intros i s' Hi Hn. specialize (Hin i s' Hi Hn). split; [lia|].
      destruct (decide (i < mid)%nat) as [Hle|]; [done|]. exfalso. apply strcmp_pos in Eg. destruct (decide (i = mid)) as [->|].
      * assert (s' = m) as -> by congruence. rewrite Hn, ltb_irrefl in Eg. done.
      * destruct (Hord i s' Hi) as [_ H1]. specialize (H1 ltac:(lia)). rewrite Hn in H1.
        pose proof (ltb_trans _ _ _ Eg H1) as Hc. by rewrite ltb_irrefl in Hc.
    + apply Z.ltb_ge in El. assert (ps_name m = p) as Hmp by (apply premises_cmp_eq; unfold strcmp in *; lia).
      split; [intros [= <-]; split; [by apply list_elem_of_lookup_2 with mid|done]|]. intros [Hel Hn].
      apply list_elem_of_lookup in Hel as [i Hi]. destruct (Hord i s Hi) as [H1 H2]. rewrite Hn, Hmp, ltb_irrefl in H1, H2.
      assert (i = mid) as -> by (destruct (decide (i < mid)%nat); [by specialize (H1 ltac:(lia))|];
        destruct (decide (mid < i)%nat); [by specialize (H2 ltac:(lia))|]; lia). congruence.
Qed.

Lemma registry_get_exact r p s :
  strictly_sorted (names r) -> predicate_registry_get r p = Some s <-> s ∈ pr_specs r /\ ps_name s = p.
Proof.
  intros Hs. apply get_loop_spec; [done|lia|lia|]. intros i x Hi _. apply lookup_lt_Some in Hi. lia.
Qed.

(** ** What a load accepts *)

(** A declaration on its own. *)
Record spec_ok (s : PredicateSpec) : Prop := {
  so_name : (0 < length (ps_name s) <= FACT_MAX_PREDICATE_LEN)%nat;
  so_id : ps_symmetric s || ps_transitive s = true -> ps_object s = PRED_OBJ_ID;
  so_inverse : ps_inverse_of s <> Some (ps_name s)
}.

(** The vocabulary as a whole. *)
Record registry_wf (r : PredicateRegistry) : Prop := {
  rw_sorted : strictly_sorted (names r);
  rw_count : (0 < length (pr_specs r) <= FACT_MAX_PREDICATES)%nat;
  rw_specs : Forall spec_ok (pr_specs r);
  rw_inverse s inv : s ∈ pr_specs r -> ps_inverse_of s = Some inv ->
    exists o, predicate_registry_get r inv = Some o /\ ps_inverse_of o = Some (ps_name s) /\
      ps_object o = PRED_OBJ_ID /\ ps_object s = PRED_OBJ_ID;
  rw_mutex s m : s ∈ pr_specs r -> m ∈ ps_mutex_with s -> is_Some (predicate_registry_get r m)
}.

(** Take a successful load apart, one step of the monad at a time. *)
Ltac res_step :=
  match goal with
  | H : bind_res ?m _ = inr _ |- _ =>
      let E := fresh "E" in destruct m eqn:E; cbn [bind_res] in H; [discriminate H|]
  | H : (if ?b then _ else inl _) = inr _ |- _ =>
      let E := fresh "E" in destruct b eqn:E; [|discriminate H]
  end.

Lemma mutex_names_ok alloc k l ms : parse_mutex_names alloc k l = inr ms -> parse_mutex_names (fun _ => true) k l = inr ms.
Proof.
  revert k ms. induction l as [|v l IH]; intros k ms H; cbn [parse_mutex_names] in *; [done|].
  destruct v; try done. repeat res_step. by rewrite (IH _ _ E0).
Qed.

Lemma parse_mutex_ok alloc v ms : parse_mutex alloc v = inr ms -> parse_mutex (fun _ => true) v = inr ms.
Proof.
  unfold parse_mutex. destruct v as [[| | | | |[|? ?]|]|]; try done. intros H. repeat res_step. by eapply mutex_names_ok.
Qed.

Lemma parse_inverse_ok alloc p v o :
  parse_inverse alloc p v = inr o -> parse_inverse (fun _ => true) p v = inr o /\ o <> Some p.
Proof.
  unfold parse_inverse. destruct v as [[]|]; try done; intros H; [|by injection H as <-].
  repeat res_step. injection H as <-. split; [done|]. intros [= ->]. by rewrite bool_decide_eq_true_2 in E0.
Qed.

Lemma parse_spec_ok alloc p item s :
  parse_spec alloc p item = inr s ->
  ps_name s = p /\ spec_ok s /\ parse_spec (fun _ => true) p item = inr s.
Proof.
  unfold parse_spec. intros H. repeat res_step. destruct item; try done. repeat res_step. injection H as <-.
  match goal with H : parse_inverse _ _ _ = inr _ |- _ => destruct (parse_inverse_ok _ _ _ _ H) as [Hi Hne]; clear H end.
  match goal with H : parse_mutex _ _ = inr _ |- _ => pose proof (parse_mutex_ok _ _ _ H) as Hm; clear H end.
  split; [done|]. split.
  - split; cbn; [|intros Hor; rewrite Hor in *|done].
    + zbool. destruct p; [by rewrite bool_decide_eq_true_2 in E|cbn in *; lia].
    + cbn in *. zbool. by eapply bool_decide_eq_true_1.
  - repeat match goal with E : _ = inr _ |- _ => rewrite E; clear E; cbn [bind_res] | E : _ = true |- _ => rewrite E; clear E end. done.
Qed.

Lemma parse_all_spec alloc i l specs :
  parse_all alloc i l = inr specs ->
  Forall2 (fun kv s => parse_spec (fun _ => true) (fst kv) (snd kv) = inr s /\ ps_name s = fst kv /\ spec_ok s) l specs.
Proof.
  revert i specs. induction l as [|[p item] l IH]; intros i specs H; cbn [parse_all] in H; [by injection H as <-|].
  repeat res_step. injection H as <-. destruct (parse_spec_ok _ _ _ _ E) as (? & ? & ?). constructor; [done|]. by eapply IH.
Qed.

Lemma parse_all_total l specs :
  Forall2 (fun kv s => parse_spec (fun _ => true) (fst kv) (snd kv) = inr s /\ ps_name s = fst kv /\ spec_ok s) l specs ->
  forall i, parse_all (fun _ _ => true) i l = inr specs.
Proof.
  induction 1 as [|[p item] s l specs (E & _ & _) _ IH]; intros i; cbn [parse_all]; [done|].
  cbn [fst snd] in E. by rewrite E; cbn [bind_res]; rewrite IH.
Qed.

#[local] Instance spec_le_total : Total spec_le.
Proof.
  intros a b. unfold spec_le, strcmp. rewrite (premises_cmp_flip (ps_name a)). lia.
Qed.

#[local] Instance spec_le_trans : Transitive spec_le.
Proof.
  intros a b c. unfold spec_le, strcmp. intros H1 H2.
  destruct (decide (premises_cmp (ps_name a) (ps_name b) = 0)) as [E|E]; [apply premises_cmp_eq in E; by rewrite E|].
  destruct (decide (premises_cmp (ps_name b) (ps_name c) = 0)) as [E'|E']; [apply premises_cmp_eq in E'; by rewrite <- E'|].
  pose proof (premises_cmp_trans (ps_name a) (ps_name b) (ps_name c)). lia.
Qed.

Lemma strict_names l : Sorted spec_le l -> no_adjacent_twins l = true -> strictly_sorted (map ps_name l).
Proof.
  intros Hs Ht. apply Sorted_StronglySorted; [apply lt_rel_trans|].
  induction Hs as [|a l Hs IH Hh]; [constructor|]. cbn [map]. destruct l as [|b l]; [repeat constructor|].
  change (negb (strcmp (ps_name a) (ps_name b) =? 0) && no_adjacent_twins (b :: l) = true) in Ht.
  apply andb_true_iff in Ht as [Hab' Ht]. apply negb_true_iff, Z.eqb_neq in Hab'. constructor; [by apply IH|]. constructor.
  inversion_clear Hh as [|? ? Hab]. unfold lt_rel, spec_le, strcmp in *. cbn. unfold strcmp. apply Z.ltb_lt. lia.
Qed.

Lemma nodup_twins l : NoDup (map ps_name l) -> no_adjacent_twins l = true.
Proof.
  induction l as [|a [|b l] IH]; intros Hs; [done|done|]. cbn [map] in Hs. apply NoDup_cons in Hs as [Hn Hs].
  change (negb (strcmp (ps_name a) (ps_name b) =? 0) && no_adjacent_twins (b :: l) = true).
  rewrite IH by done. rewrite andb_true_r. apply negb_true_iff, Z.eqb_neq. unfold strcmp.
  rewrite premises_cmp_eq. intros E. apply Hn. rewrite E. left.
Qed.

Lemma validate_mutex_spec r l : validate_mutex r l = inr tt <-> Forall (fun m => is_Some (predicate_registry_get r m)) l.
Proof.
  induction l as [|m l IH]; cbn [validate_mutex]; [by split|]. destruct (predicate_registry_get r m) as [s|] eqn:E.
  - rewrite IH. split; [intros; constructor; eauto|by inversion 1].
  - split; [done|]. inversion_clear 1 as [|? ? [? ?]]. congruence.
Qed.

Lemma validate_loop_spec r l :
  validate_loop r l = inr tt <->
  Forall (fun e => validate_inverse r e = inr tt /\ validate_mutex r (ps_mutex_with e) = inr tt) l.
Proof.
  induction l as [|e l IH]; cbn [validate_loop]; [by split|].
  destruct (validate_inverse r e) as [?|[]] eqn:E1; cbn [bind_res]; [split; [done|inversion 1 as [|? ? [? ?]]; congruence]|].
  destruct (validate_mutex r (ps_mutex_with e)) as [?|[]] eqn:E2; cbn [bind_res]; [split; [done|inversion 1 as [|? ? [? ?]]; congruence]|].
  rewrite IH. split; [by constructor|by inversion 1].
Qed.

Lemma validate_inverse_spec r e :
  validate_inverse r e = inr tt <->
  forall inv, ps_inverse_of e = Some inv ->
    exists o, predicate_registry_get r inv = Some o /\ ps_inverse_of o = Some (ps_name e) /\
      ps_object o = PRED_OBJ_ID /\ ps_object e = PRED_OBJ_ID.
Proof.
  unfold validate_inverse. destruct (ps_inverse_of e) as [inv|]; [|by split].
  split.
  - intros H inv' [= <-]. destruct (predicate_registry_get r inv) as [o|]; [|done]. repeat res_step.
    apply bool_decide_eq_true_1 in E as ?. apply bool_decide_eq_true_1 in E0 as [? ?]. eauto.
  - intros H. destruct (H inv eq_refl) as (o & -> & Ho & H1 & H2). rewrite Ho, H1, H2. by rewrite !bool_decide_eq_true_2.
Qed.

Lemma sorted_specs_unique l l' : strictly_sorted (map ps_name l) -> strictly_sorted (map ps_name l') -> l ≡ₚ l' -> l = l'.
Proof.
  intros Hs Hs' Hp. assert (map ps_name l = map ps_name l') as E.
  { apply strictly_sorted_unique; [done|done|]. intros y. by rewrite Hp. }
  apply list_eq. intros i. destruct (l !! i) as [s|] eqn:Hi.
  - assert (s ∈ l') as Hin by (rewrite <- Hp; by eapply list_elem_of_lookup_2).
    apply list_elem_of_lookup in Hin as [j Hj].
    assert (map ps_name l' !! i = Some (ps_name s)) as H1 by (by rewrite <- E, list_lookup_fmap, Hi).
    assert (map ps_name l' !! j = Some (ps_name s)) as H2 by (by rewrite list_lookup_fmap, Hj).
    apply sorted_nodup in Hs'. by rewrite (NoDup_lookup _ _ _ _ Hs' H1 H2).
  - symmetry. apply lookup_ge_None. apply lookup_ge_None in Hi. by rewrite <- (Permutation_length Hp).
Qed.

(** The loader on an object, as a relation. *)
Lemma load_spec tables alloc child r :
  predicate_registry_load tables alloc (JObject child) = inr r ->
  exists specs, Forall2 (fun kv s => parse_spec (fun _ => true) (fst kv) (snd kv) = inr s /\ ps_name s = fst kv /\ spec_ok s) child specs /\
    pr_specs r ≡ₚ specs /\ registry_wf r.
Proof.
  intros H. cbn [predicate_registry_load] in H. repeat res_step. injection H as <-. zbool.
  apply parse_all_spec in E2 as Hf. exists l. pose proof (merge_sort_Permutation spec_le l) as Hp.
  pose proof (strict_names _ (Sorted_merge_sort spec_le l) E3) as Hs. destruct u.
  apply validate_loop_spec in E4. rewrite Forall_forall in E4.
  split; [done|]. split; [done|]. split; cbn [pr_specs].
  - done.
  - rewrite Hp, <- (Forall2_length _ _ _ Hf). lia.
  - rewrite Hp. clear -Hf. induction Hf as [|? ? ? ? (? & ? & ?)]; by constructor.
  - intros s inv Hin Hinv. destruct (E4 s Hin) as [Hv _]. rewrite validate_inverse_spec in Hv. by apply Hv.
  - intros s m Hin Hm. destruct (E4 s Hin) as [_ Hv]. rewrite validate_mutex_spec, Forall_forall in Hv. by apply Hv.
Qed.

(** C25: A vocabulary that loads is coherent, whatever allocations fail along the
    way: names are distinct, non-empty and within the index limit, symmetric
    and transitive predicates relate records, inverses are declared, mutual
    and relate records, exclusive predicates are declared. Every declaration
    of the file is found under its name with the properties it states and
    nothing else is found; and the order of the declarations does not matter. *)
Theorem registry_load_valid tables alloc child r :
  predicate_registry_load tables alloc (JObject child) = inr r ->
  registry_wf r /\
  (forall p s, predicate_registry_get r p = Some s <->
     exists item, (p, item) ∈ child /\ parse_spec (fun _ => true) p item = inr s) /\
  (forall child', child' ≡ₚ child -> predicate_registry_load true (fun _ _ => true) (JObject child') = inr r).
Proof.
  intros H. destruct (load_spec _ _ _ _ H) as (specs & Hf & Hp & Hwf). split; [done|]. split.
  - intros p s. rewrite registry_get_exact by apply Hwf. rewrite Hp. split.
    + intros [Hin <-]. apply list_elem_of_lookup in Hin as [i Hi].
      destruct (Forall2_lookup_r _ _ _ _ _ Hf Hi) as ([q item] & Hq & E & En & _). cbn in *. subst q.
      exists item. split; [by eapply list_elem_of_lookup_2|done].
    + intros (item & Hin & E). apply list_elem_of_lookup in Hin as [i Hi].
      destruct (Forall2_lookup_l _ _ _ _ _ Hf Hi) as (s' & Hs' & E' & En & _). cbn in *.
      assert (s' = s) as -> by congruence. split; [by eapply list_elem_of_lookup_2|done].
  - intros child' Hperm.
    destruct (Permutation_Forall2 (Permutation_sym Hperm) Hf) as (specs' & Hp' & Hf').
    cbn [predicate_registry_load]. rewrite (Permutation_length Hperm).
    destruct Hwf as [Hs Hc Hok Hinv Hmx]. rewrite (Permutation_length Hp), <- (Forall2_length _ _ _ Hf) in Hc.
    rewrite (proj2 (Nat.eqb_neq _ _)), (proj2 (Nat.leb_le _ _)) by lia. cbn [negb].
    rewrite (parse_all_total _ _ Hf'). cbn [bind_res].
    pose proof (Permutation_map ps_name (Permutation_trans Hp Hp')) as Hpn.
    assert (merge_sort spec_le specs' = pr_specs r) as ->.
    { apply sorted_specs_unique; [|done|by rewrite merge_sort_Permutation, Hp, Hp'].
      apply strict_names; [apply (Sorted_merge_sort spec_le)|]. apply nodup_twins.
      rewrite (Permutation_map ps_name (merge_sort_Permutation spec_le specs')), <- Hpn. by apply sorted_nodup. }
    destruct r as [l]. cbn [pr_specs] in *. rewrite nodup_twins by (by apply sorted_nodup).
    assert (validate_refs (mkRegistry l) = inr tt) as ->; [|done].
    apply validate_loop_spec, Forall_forall. intros s Hin. rewrite validate_inverse_spec, validate_mutex_spec, Forall_forall.
    split; [intros inv; by apply Hinv|intros m; by apply Hmx].
Qed.

Definition ex_decls : list (list Z * cJSON) :=
  [([112; 97; 114; 116], JObject [(K_object, JString S_id); (K_transitive, JTrue); (K_inverse_of, JString [104; 97; 115])]);
   ([115; 105; 98], JObject [(K_symmetric, JTrue); (K_object, JString S_id)]);
   ([104; 97; 115], JObject [(K_object, JString S_id); (K_inverse_of, JString [112; 97; 114; 116])]);
   ([97; 103; 101], JObject [(K_object, JString S_string); (K_cardinality, JString S_one);
                             (K_mutex_with, JArray [JString [115; 105; 98]])])].

Definition ex_registry : PredicateRegistry :=
  mkRegistry
    [mkPredSpec [97; 103; 101] PRED_OBJ_STRING true false false None [[115; 105; 98]];
     mkPredSpec [104; 97; 115] PRED_OBJ_ID false false false (Some [112; 97; 114; 116]) [];
     mkPredSpec [112; 97; 114; 116] PRED_OBJ_ID false false true (Some [104; 97; 115]) [];
     mkPredSpec [115; 105; 98] PRED_OBJ_ID false true false None []].

Lemma registry_load_valid_witness :
  predicate_registry_load true (fun _ _ => true) (JObject ex_decls) = inr ex_registry /\
  registry_wf ex_registry /\
  predicate_registry_load true (fun _ _ => true) (JObject (reverse ex_decls)) = inr ex_registry.
Proof.
  assert (predicate_registry_load true (fun _ _ => true) (JObject ex_decls) = inr ex_registry) as H
    by (vm_compute; reflexivity).
  destruct (registry_load_valid true (fun _ _ => true) ex_decls ex_registry H) as (Hwf & _ & Hp).
  split; [exact H|]. split; [exact Hwf|]. apply Hp, reverse_Permutation.
Defined.
