(* ===== verification/Inference.v ===== *)
(** * Deterministic inference

    [src/query/inference.c]: one pass over a snapshot of a namespace's facts
    that draws the symmetric, inverse and transitive conclusions the registry
    declares. [Seen] is the set of triples, [Adj] the join table; both are open
    addressed and are instances of the shared probe table, with every slot
    [LIVE] or [EMPTY] and [n] in both of its counters. A pass that fails to
    allocate returns nothing. *)

From S2P Require Import Prelude Endian SortedArray Record StrTable Intern ProbeTable FactIndex Floats Json Registry.

Record InferFact := mkInferFact {
  if_record_id : Z; if_subject : Z; if_predicate : list Z; if_kind : FactKind;
  if_object_id : Z; if_object_str : option (list Z);
  if_depth : Z; if_confidence : spec_float
}.

Record InferRoute := mkInferRoute {
  ir_rule : DerivRule; ir_depth : Z; ir_premises : list Z; ir_confidence : spec_float
}.

(** A triple as the functions receive it. *)
Record Triple := mkTriple {
  tr_subject : Z; tr_predicate : list Z; tr_kind : FactKind; tr_oid : Z; tr_ostr : option (list Z)
}.

Record InferConclusion := mkConclusion {
  ic_triple : Triple; ic_routes : list InferRoute; ic_confidence : spec_float
}.

Definition INFER_DEFAULT_MAX_DEPTH : Z := 4.
Definition INFER_DEFAULT_CONFIDENCE_FLOOR : spec_float := f32_of_bits 0x3DCCCCCD.
Definition INFER_DEFAULT_MAX_CANDIDATES : Z := 1000000.

Record InferOpts := mkInferOpts {
  io_max_depth : Z; io_max_conclusions : nat; io_max_candidates : Z; io_start_index : nat;
  io_confidence_floor : spec_float
}.

Record InferResult := mkInferResult {
  ires_items : list InferConclusion; ires_truncated : bool; ires_candidates : Z; ires_scanned : nat
}.

(** ** The triple set *)

Record SeenSlot := mkSeenSlot {
  sn_triple : Triple;
  sn_out_idx : option nat;        (* [None] is [SEEN_INPUT] *)
  sn_used : bool
}.

(** What [triple_eq] compares. *)
Definition TripleKey : Type := Z * list Z * (Z + FactKind * option (list Z)).
Definition triple_key (t : Triple) : TripleKey :=
  (tr_subject t, tr_predicate t,
   match tr_kind t with FACT_OBJ_ID => inl (tr_oid t) | k => inr (k, tr_ostr t) end).

(** What the outer [mix64] of [triple_hash] is applied to. *)
Definition triple_hash_in (k : TripleKey) : Z :=
  let '(subject, predicate, object) := k in
  Z.lxor (Z.lxor (mix64 subject) (str_hash64 predicate))
    (match object with inl oid => mix64 oid | inr (_, ostr) => str_hash64 (default [] ostr) end).

Definition triple_hash (t : Triple) : Z := mix64 (triple_hash_in (triple_key t)).

Definition triple_eq (s : SeenSlot) (t : Triple) : bool :=
  let u := sn_triple s in
  if negb (tr_subject u =? tr_subject t) || negb (bool_decide (tr_kind u = tr_kind t)) then false
  else if negb (bool_decide (tr_predicate u = tr_predicate t)) then false
  else match tr_kind t with
       | FACT_OBJ_ID => tr_oid u =? tr_oid t
       | _ => match tr_ostr u, tr_ostr t with
              | Some a, Some b => bool_decide (a = b)
              | _, _ => false
              end
       end.

Definition zero_triple : Triple := mkTriple 0 [] FACT_NONE 0 None.

#[export] Instance SeenSlot_probe : ProbeSlot SeenSlot TripleKey := {|
  slot_state s := if sn_used s then SLOT_LIVE else SLOT_EMPTY;
  slot_key s := triple_key (sn_triple s);
  key_hash := triple_hash_in;
  zero_slot := mkSeenSlot zero_triple None false;
  zero_slot_empty := eq_refl
|}.

Definition Seen : Type := PTable SeenSlot.
Definition SEEN_CAP0 : nat := 64.

Definition seen_grow (ok : bool) (t : Seen) : option Seen := pt_grow SEEN_CAP0 ok t.

(** The slot that ends the search, and whether it holds the triple. The code
    loops until it meets one; a table is never full, so [cap] turns do. *)
Fixpoint seen_loop (n probe : nat) (slots : list SeenSlot) (cap : nat) (t : Triple) : option (nat * bool) :=
  match n with
  | O => None
  | S n' =>
      let i := probe_pos cap (triple_key t) probe in
      let s := slot_at slots i in
      if sn_used s then
        if triple_eq s t then Some (i, true) else seen_loop n' (S probe) slots cap t
      else Some (i, false)
  end.

Definition seen_find (t : Seen) (tr : Triple) : option SeenSlot :=
  if (pt_cap t =? 0)%nat then None
  else match seen_loop (pt_cap t) 0 (pt_slots t) (pt_cap t) tr with
       | Some (i, true) => pt_slots t !! i
       | _ => None
       end.

(** The table and whether the triple is new. *)
Definition seen_put (ok : bool) (t : Seen) (tr : Triple) (out_idx : option nat) : option (Seen * bool) :=
  match (if (pt_cap t * 3 <=? pt_used t * 4)%nat then seen_grow ok t else Some t) with
  | None => None
  | Some t =>
      match seen_loop (pt_cap t) 0 (pt_slots t) (pt_cap t) tr with
      | Some (_, true) => Some (t, false)
      | Some (i, false) =>
          Some (mkPTable (<[i := mkSeenSlot tr out_idx true]> (pt_slots t)) (pt_cap t)
                  (S (pt_live t)) (S (pt_used t)), true)
      | None => None
      end
  end.

(** ** The join table *)

Record AdjSlot := mkAdjSlot {
  ad_subject : Z; ad_predicate : list Z; ad_idx : list nat; ad_cap : nat; ad_used : bool
}.

#[export] Instance AdjSlot_probe : ProbeSlot AdjSlot (Z * list Z) := {|
  slot_state s := if ad_used s then SLOT_LIVE else SLOT_EMPTY;
  slot_key s := (ad_subject s, ad_predicate s);
  key_hash k := Z.lxor (mix64 (fst k)) (str_hash64 (snd k));
  zero_slot := mkAdjSlot 0 [] [] 0 false;
  zero_slot_empty := eq_refl
|}.

Definition sp_hash (subject : Z) (predicate : list Z) : Z := mix64 (Z.lxor (mix64 subject) (str_hash64 predicate)).

Definition Adj : Type := PTable AdjSlot.

Definition adj_grow (ok : bool) (a : Adj) : option Adj := pt_grow 64 ok a.

(** Append an index to a slot; [ok] is the outcome of the [realloc]. *)
Definition adj_push (ok : bool) (s : AdjSlot) (idx : nat) : option AdjSlot :=
  if (length (ad_idx s) =? ad_cap s)%nat then
    if ok then
      Some (mkAdjSlot (ad_subject s) (ad_predicate s) (ad_idx s ++ [idx])
              (if ad_cap s =? 0 then 2 else ad_cap s * 2)%nat (ad_used s))
    else None
  else Some (mkAdjSlot (ad_subject s) (ad_predicate s) (ad_idx s ++ [idx]) (ad_cap s) (ad_used s)).

Definition adj_add (ok_grow ok_idx : bool) (a : Adj) (subject : Z) (predicate : list Z) (idx : nat) : option Adj :=
  match (if (pt_cap a * 3 <=? pt_used a * 4)%nat then adj_grow ok_grow a else Some a) with
  | None => None
  | Some a =>
      let claim j s live := (fun s' => mkPTable (<[j := s']> (pt_slots a)) (pt_cap a) live live) <$> adj_push ok_idx s idx in
      match put_loop (pt_cap a) 0 None (pt_slots a) (pt_cap a) (subject, predicate) with
      | Some (inl j) => claim j (slot_at (pt_slots a) j) (pt_live a)
      | Some (inr j) => claim j (mkAdjSlot subject predicate [] 0 true) (S (pt_live a))
      | None => None
      end
  end.

Definition adj_get (a : Adj) (subject : Z) (predicate : list Z) : option AdjSlot :=
  pt_get a (subject, predicate).

(** ** Routes *)

(** The route two premises make, its confidence and the deepest premise. *)
Definition route_of (rule : DerivRule) (a : InferFact) (b : option InferFact) (floor : spec_float)
  : InferRoute * spec_float * Z :=
  let '(d, conf, premises) :=
    match b with
    | None => (if_depth a, if_confidence a, [if_record_id a])
    | Some b =>
        (if if_depth a <? if_depth b then if_depth b else if_depth a,
         f32_mul (if_confidence a) (if_confidence b), [if_record_id a; if_record_id b])
    end in
  (mkInferRoute rule 0 premises (S754_zero false), if SFltb conf floor then floor else conf, d).

(** The order of provenance: premises, then rule. *)
Definition infer_route_cmp (a b : InferRoute) : Z :=
  let c := premises_cmp (ir_premises a) (ir_premises b) in
  if negb (c =? 0) then c
  else if negb (deriv_rule_code (ir_rule a) =? deriv_rule_code (ir_rule b)) then
    (if deriv_rule_code (ir_rule a) <? deriv_rule_code (ir_rule b) then -1 else 1)
  else 0.

(** [None] when the route is already there. *)
Fixpoint infer_position (rt : InferRoute) (routes : list InferRoute) (i : nat) : option nat :=
  match routes with
  | [] => Some i
  | x :: routes' =>
      let c := infer_route_cmp rt x in
      if c =? 0 then None else if c <? 0 then Some i else infer_position rt routes' (S i)
  end.

Definition routes_insert (routes : list InferRoute) (rt : InferRoute) : list InferRoute :=
  match infer_position rt routes 0 with
  | None => routes
  | Some at_ =>
      if (DERIV_MAX_ROUTES <=? length routes)%nat then
        if (DERIV_MAX_ROUTES <=? at_)%nat then routes
        else take DERIV_MAX_ROUTES (insert_at at_ rt routes)
      else insert_at at_ rt routes
  end.

Definition conclusion_confidence (routes : list InferRoute) : spec_float :=
  foldl (fun best r => if SFltb best (ir_confidence r) then ir_confidence r else best) (S754_zero false) routes.

Definition set_routes (c : InferConclusion) (routes : list InferRoute) : InferConclusion :=
  mkConclusion (ic_triple c) routes (conclusion_confidence routes).

(** ** The pass *)

(** Outcomes of the allocations: growing the triple set and the join table at
    a given count, an index list at a given fact, the output at a given
    length. *)
Record InferAlloc := mkInferAlloc {
  ia_seen : nat -> bool; ia_adj : nat -> bool; ia_idx : nat -> bool; ia_out : nat -> bool
}.

Record OutBuf := mkOutBuf { ob_items : list InferConclusion; ob_cap : nat }.

Definition out_push (ok : bool) (o : OutBuf) (c : InferConclusion) : option OutBuf :=
  if (length (ob_items o) =? ob_cap o)%nat then
    if ok then Some (mkOutBuf (ob_items o ++ [c]) (if ob_cap o =? 0 then 16 else ob_cap o * 2)%nat) else None
  else Some (mkOutBuf (ob_items o ++ [c]) (ob_cap o)).

Record Pass := mkPass {
  pa_out : OutBuf; pa_seen : Seen; pa_cands : Z; pa_stop : bool; pa_truncated : bool
}.

Section pass.
Context (al : InferAlloc) (facts : list InferFact) (reg : PredicateRegistry).
Context (max_depth : Z) (max_conc : nat) (max_cand : Z) (floor : spec_float).

(** [None] for -1. *)
Definition offer (st : Pass) (t : Triple) (rt : InferRoute) (conf : spec_float) (deepest : Z) : option Pass :=
  if max_depth <=? deepest then Some st
  else
    let placed := mkInferRoute (ir_rule rt) (wrap 16 (deepest + 1)) (ir_premises rt) conf in
    match seen_find (pa_seen st) t with
    | Some slot =>
        match sn_out_idx slot with
        | None => Some st
        | Some i =>
            let items := alter (fun cur => set_routes cur (routes_insert (ic_routes cur) placed)) i (ob_items (pa_out st)) in
            Some (mkPass (mkOutBuf items (ob_cap (pa_out st))) (pa_seen st) (pa_cands st) (pa_stop st) (pa_truncated st))
        end
    | None =>
        if negb (max_conc =? 0)%nat && (max_conc <=? length (ob_items (pa_out st)))%nat then
          Some (mkPass (pa_out st) (pa_seen st) (pa_cands st) true true)
        else
          let routes := routes_insert [] placed in
          match out_push (ia_out al (length (ob_items (pa_out st)))) (pa_out st)
                  (mkConclusion t routes (conclusion_confidence routes)) with
          | None => None
          | Some out =>
              match seen_put (ia_seen al (pt_used (pa_seen st))) (pa_seen st) t
                      (Some (length (ob_items out) - 1)%nat) with
              | None => None
              | Some (seen, _) => Some (mkPass out seen (pa_cands st) (pa_stop st) (pa_truncated st))
              end
          end
    end.

(** Count a candidate and offer it, or stop at the cap. *)
Definition candidate (st : Pass) (rule : DerivRule) (a : InferFact) (b : option InferFact) (t : Triple) : option Pass :=
  let cands := pa_cands st + 1 in
  if max_cand <? cands then Some (mkPass (pa_out st) (pa_seen st) cands true true)
  else
    let '(rt, conf, deepest) := route_of rule a b floor in
    offer (mkPass (pa_out st) (pa_seen st) cands (pa_stop st) (pa_truncated st)) t rt conf deepest.

Definition id_triple (subject : Z) (predicate : list Z) (oid : Z) : Triple :=
  mkTriple subject predicate FACT_OBJ_ID oid None.

Fixpoint join_loop (st : Pass) (f : InferFact) (idx : list nat) : option Pass :=
  match idx with
  | [] => Some st
  | j :: idx' =>
      if pa_stop st then Some st
      else match facts !! j with
           | None => Some st
           | Some g =>
               match candidate st DERIV_TRANSITIVE f (Some g)
                       (id_triple (if_subject f) (if_predicate f) (if_object_id g)) with
               | None => None
               | Some st => join_loop st f idx'
               end
           end
  end.

(** The three rules on one fact. *)
Definition scan_fact (adj : Adj) (st : Pass) (f : InferFact) : option Pass :=
  match if_kind f with
  | FACT_OBJ_ID =>
      match predicate_registry_get reg (if_predicate f) with
      | None => Some st
      | Some spec =>
          match (if ps_symmetric spec then
                   candidate st DERIV_SYMMETRIC f None (id_triple (if_object_id f) (if_predicate f) (if_subject f))
                 else Some st) with
          | None => None
          | Some st =>
              match (match ps_inverse_of spec with
                     | Some inv =>
                         if pa_stop st then Some st
                         else candidate st DERIV_INVERSE f None (id_triple (if_object_id f) inv (if_subject f))
                     | None => Some st
                     end) with
              | None => None
              | Some st =>
                  if ps_transitive spec && negb (pa_stop st) then
                    match adj_get adj (if_object_id f) (if_predicate f) with
                    | None => Some st
                    | Some next => join_loop st f (ad_idx next)
                    end
                  else Some st
              end
          end
      end
  | _ => Some st
  end.

(** [n] facts are left; the state and how many facts were consumed. *)
Fixpoint rule_loop (adj : Adj) (start k n : nat) (st : Pass) : option (Pass * nat) :=
  match n with
  | O => Some (st, k)
  | S n' =>
      if pa_stop st then Some (st, k)
      else match facts !! ((start + k) mod length facts)%nat with
           | None => Some (st, k)
           | Some f =>
               match scan_fact adj st f with
               | None => None
               | Some st => rule_loop adj start (S k) n' st
               end
           end
  end.
End pass.

Definition fact_triple (f : InferFact) : Triple :=
  mkTriple (if_subject f) (if_predicate f) (if_kind f) (if_object_id f) (if_object_str f).

(** The first phase: every fact into the set, the joinable ones into the table. *)
Fixpoint index_loop (al : InferAlloc) (i : nat) (l : list InferFact) (seen : Seen) (adj : Adj) : option (Seen * Adj) :=
  match l with
  | [] => Some (seen, adj)
  | f :: l' =>
      match seen_put (ia_seen al (pt_used seen)) seen (fact_triple f) None with
      | None => None
      | Some (seen, _) =>
          match (match if_kind f with
                 | FACT_OBJ_ID =>
                     adj_add (ia_adj al (pt_used adj)) (ia_idx al i) adj (if_subject f) (if_predicate f) i
                 | _ => Some adj
                 end) with
          | None => None
          | Some adj => index_loop al (S i) l' seen adj
          end
      end
  end.

(** [None] for -1. *)
Definition infer_run (al : InferAlloc) (facts : list InferFact) (reg : option PredicateRegistry)
  (opts : option InferOpts) : option InferResult :=
  let empty := mkInferResult [] false 0 0 in
  match reg with
  | None => Some empty
  | Some reg =>
      if (length facts =? 0)%nat then Some empty
      else
        let opt {A} (get : InferOpts -> A) (good : A -> bool) (d : A) : A :=
          match opts with Some o => if good (get o) then get o else d | None => d end in
        let max_depth := opt io_max_depth (fun d => negb (d =? 0)) INFER_DEFAULT_MAX_DEPTH in
        let max_conc := opt io_max_conclusions (fun _ => true) 0%nat in
        let max_cand := opt io_max_candidates (fun c => negb (c =? 0)) INFER_DEFAULT_MAX_CANDIDATES in
        let floor := opt io_confidence_floor (fun x => SFltb (S754_zero false) x) INFER_DEFAULT_CONFIDENCE_FLOOR in
        let start := match opts with Some o => (io_start_index o mod length facts)%nat | None => 0%nat end in
        match index_loop al 0 facts pt_empty pt_empty with
        | None => None
        | Some (seen, adj) =>
            match rule_loop al facts reg max_depth max_conc max_cand floor adj start 0 (length facts)
                    (mkPass (mkOutBuf [] 0) seen 0 false false) with
            | None => None
            | Some (st, scanned) =>
                Some (mkInferResult (ob_items (pa_out st)) (pa_truncated st) (pa_cands st) scanned)
            end
        end
  end.
