(* ===== verification/InferTables.v ===== *)
(** * The tables of an inference pass

    The triple set is a finite map from triples to where they came from; the
    join table lists, for a subject and a predicate, the facts in order. *)

From S2P Require Import Prelude Endian SortedArray Record StrTable Intern ProbeTable FactIndex Floats Json Registry Inference.

(** ** Tables without tombstones *)

Section insert_only.
Context {S K : Type} `{ProbeSlot S K} `{EqDecision K}.
Context (nodead : forall s : S, slot_state s <> SLOT_DEAD).
Implicit Types (t : PTable S) (k : K).

(** Well-formed, with one counter, at least the first capacity and at most
    one past three quarters full. *)
Record io_wf t : Prop := {
  iw_wf : pt_wf t;
  iw_count : pt_live t = pt_used t;
  iw_cap : pt_cap t = 0%nat \/ (64 <= pt_cap t /\ pt_used t * 4 < pt_cap t * 3 + 4)%nat
}.

(** What the load test leaves. *)
Definition io_space t : Prop := (64 <= pt_cap t /\ pt_used t * 4 < pt_cap t * 3)%nat.

Lemma io_empty : io_wf pt_empty.
Proof. split; [apply pt_empty_wf|done|by left]. Qed.

Lemma io_grow t t' :
  io_wf t -> pt_grow 64 true t = Some t' ->
  io_wf t' /\ io_space t' /\ pt_live t' = pt_live t /\ forall k, pt_get t' k = pt_get t k.
Proof.
  intros [W Hc Hcap] E. destruct (pt_grow_spec 64 t) as (t1 & E1 & W1 & Hg & Hl & Hget); [by exists 6%nat|lia|done|].
  assert (t1 = t') as -> by congruence.
  assert (pt_live t' = pt_used t') as Hu by (unfold pt_grow in E; by injection E as <-).
  assert (64 <= pt_cap t')%nat.
  { unfold pt_grow in E. injection E as <-. cbn. destruct (Nat.eqb_spec (pt_cap t) 0); lia. }
  unfold pt_needs_grow in Hg. zbool. split_and!; [split; [done|done|lia]|split; lia|done|done].
Qed.

(** The load test, growth and what it leaves. *)
Lemma io_make_room ok t t1 :
  io_wf t -> (if (pt_cap t * 3 <=? pt_used t * 4)%nat then pt_grow 64 ok t else Some t) = Some t1 ->
  io_wf t1 /\ io_space t1 /\ pt_live t1 = pt_live t /\ forall k, pt_get t1 k = pt_get t k.
Proof.
  intros W E. destruct (_ <=? _)%nat eqn:En.
  - apply io_grow; [done|]. by destruct ok.
  - injection E as <-. split_and!; try done. zbool. destruct (iw_cap _ W); unfold io_space; lia.
Qed.

Lemma io_make_room_ok t : io_wf t ->
  exists t1, (if (pt_cap t * 3 <=? pt_used t * 4)%nat then pt_grow 64 true t else Some t) = Some t1.
Proof. intros W. case_if; [|eauto]. unfold pt_grow. eauto. Qed.

(** Where the search ends, and what claiming an empty slot does. *)
Lemma io_search t k :
  io_wf t -> io_space t ->
  match put_loop (pt_cap t) 0 None (pt_slots t) (pt_cap t) k with
  | Some (inl j) => pt_find t k = Some j
  | Some (inr j) => pt_get t k = None /\ forall fresh, is_live fresh -> slot_key fresh = k ->
      let t' := mkPTable (<[j := fresh]> (pt_slots t)) (pt_cap t) (Datatypes.S (pt_live t)) (Datatypes.S (pt_live t)) in
      io_wf t' /\ forall k', pt_get t' k' = if decide (k' = k) then Some fresh else pt_get t k'
  | None => False
  end.
Proof.
  intros [W Hc Hcap] Hsp. destruct (pt_find t k) as [j|] eqn:Ef; [by rewrite (put_loop_present t k j)|].
  assert (pt_room t) as Hr by (unfold io_space, pt_room in *; lia).
  destruct (put_loop_absent t k W Hr Ef) as (W' & j & d & s0 & -> & Hs0 & Hnl & Hd & Hp & Hch).
  split; [by apply pt_get_None|]. intros fresh Hl Hk t'.
  pose proof (pt_claim_spec t k j d s0 fresh W W' Hr Ef Hl Hk Hs0 Hnl Hd Hp Hch) as Hcl. cbn zeta in Hcl.
  assert (slot_state s0 = SLOT_EMPTY) as E0.
  { pose proof (nodead s0). unfold is_live in Hnl. by destruct (slot_state s0). }
  rewrite E0, <- Hc in Hcl. destruct Hcl as (Wt & _ & Hg). split; [|done].
  split; [done|done|]. cbn. unfold io_space in Hsp. lia.
Qed.

Lemma io_find t k :
  io_wf t ->
  pt_get t k = if (pt_cap t =? 0)%nat then None
               else match put_loop (pt_cap t) 0 None (pt_slots t) (pt_cap t) k with
                    | Some (inl j) => pt_slots t !! j
                    | _ => None
                    end.
Proof.
  intros [W Hc Hcap]. destruct (Nat.eqb_spec (pt_cap t) 0) as [E|E].
  { unfold pt_get, pt_find. by rewrite E. }
  destruct (pt_find t k) as [j|] eqn:Ef.
  - rewrite (put_loop_present t k j) by done. unfold pt_get. by rewrite Ef.
  - assert (pt_room t) as Hr by (unfold pt_room; lia).
    destruct (put_loop_absent t k W Hr Ef) as (_ & j & d & s0 & -> & _). by apply pt_get_None.
Qed.

Lemma io_set t k j s :
  io_wf t -> pt_find t k = Some j -> is_live s -> slot_key s = k ->
  io_wf (pt_set t j s) /\ forall k', pt_get (pt_set t j s) k' = if decide (k' = k) then Some s else pt_get t k'.
Proof.
  intros [W Hc Hcap] Hf Hl Hk. destruct (pt_set_spec t k j s W Hf Hl Hk) as [Wt Hg]. split; [|done]. by split.
Qed.
End insert_only.

(** ** The triple set *)

(** A triple that [triple_eq] equals to itself. *)
Definition triple_ok (t : Triple) : Prop := tr_kind t <> FACT_OBJ_ID -> is_Some (tr_ostr t).

Lemma triple_eq_key s t : triple_ok t -> triple_eq s t = bool_decide (triple_key (sn_triple s) = triple_key t).
Proof.
  intros Hok. symmetry. unfold triple_eq, triple_key, triple_ok in *.
  destruct s as [[us up uk uo ur] ? ?], t as [ts tp tk to_ tr_]. cbn in *.
  destruct (Z.eqb_spec us ts) as [->|Hs]; cbn; [|apply bool_decide_eq_false_2; congruence].
  destruct (decide (uk = tk)) as [->|Hk]; [rewrite (bool_decide_eq_true_2 (tk = tk)) by done|
    rewrite (bool_decide_eq_false_2 (uk = tk)) by done; apply bool_decide_eq_false_2; destruct uk, tk; congruence].
  destruct (decide (up = tp)) as [->|Hp]; [rewrite (bool_decide_eq_true_2 (tp = tp)) by done|
    rewrite (bool_decide_eq_false_2 (up = tp)) by done; apply bool_decide_eq_false_2; congruence]. cbn.
  destruct tk.
  2: { destruct (Z.eqb_spec uo to_) as [->|]; [by apply bool_decide_eq_true_2|apply bool_decide_eq_false_2; congruence]. }
  all: destruct (Hok ltac:(done)) as [x ->]; destruct ur as [y|]; [|apply bool_decide_eq_false_2; congruence].
  all: destruct (decide (y = x)) as [->|]; [by rewrite !bool_decide_eq_true_2|rewrite !bool_decide_eq_false_2; congruence].
Qed.

Lemma seen_nodead (s : SeenSlot) : slot_state s <> SLOT_DEAD.
Proof. cbn. by destruct (sn_used s). Qed.

Lemma seen_loop_put n probe slots cap t :
  triple_ok t ->
  seen_loop n probe slots cap t
  = match put_loop n probe None slots cap (triple_key t) with
    | Some (inl j) => Some (j, true) | Some (inr j) => Some (j, false) | None => None
    end.
Proof.
  intros Hok. revert probe. induction n as [|n IH]; intros probe; [done|]. cbn [seen_loop put_loop].
  generalize (probe_pos cap (triple_key t) probe) as i. intros i. cbn zeta.
  set (s := slot_at slots i). rewrite triple_eq_key by done. change (slot_state s) with (if sn_used s then SLOT_LIVE else SLOT_EMPTY).
  destruct (sn_used s); [|done]. change (slot_key s) with (triple_key (sn_triple s)).
  destruct (decide (triple_key (sn_triple s) = triple_key t)) as [E|E].
  - by rewrite bool_decide_eq_true_2.
  - rewrite bool_decide_eq_false_2 by done. apply IH.
Qed.

Lemma seen_find_get t tr : io_wf t -> triple_ok tr -> seen_find t tr = pt_get t (triple_key tr).
Proof.
  intros W Hok. rewrite io_find by done. unfold seen_find. destruct (_ =? _)%nat; [done|].
  rewrite seen_loop_put by done. by destruct (put_loop _ _ _ _ _ _) as [[|]|].
Qed.

(** Storing a triple; it fails only when growing does. *)
Lemma seen_put_spec ok t tr idx :
  io_wf t -> triple_ok tr ->
  match seen_put ok t tr idx with
  | Some (t', _) => io_wf t' /\ forall k, pt_get t' k =
      if decide (k = triple_key tr) then Some (default (mkSeenSlot tr idx true) (pt_get t (triple_key tr))) else pt_get t k
  | None => ok = false
  end.
Proof.
  intros W Hok. unfold seen_put, seen_grow, SEEN_CAP0.
  destruct (if (pt_cap t * 3 <=? pt_used t * 4)%nat then _ else _) as [t1|] eqn:Eg.
  2: { destruct ok; [|done]. destruct (io_make_room_ok t W) as [? Ex]. discriminate (eq_trans (eq_sym Eg) Ex). }
  destruct (io_make_room ok t t1 W Eg) as (W1 & Hsp & _ & Hget).
  pose proof (io_search seen_nodead t1 (triple_key tr) W1 Hsp) as Hs. rewrite seen_loop_put by done.
  destruct (put_loop _ _ _ _ _ _) as [[j|j]|]; [| |done].
  - split; [done|]. intros k. rewrite <- (Hget (triple_key tr)), <- (Hget k). case_decide as E; [|done]. subst k.
    assert (is_Some (pt_get t1 (triple_key tr))) as [s ->]; [|done].
    rewrite <- not_eq_None_Some, pt_get_None, Hs by apply W1. done.
  - destruct Hs as [Hn Hs]. destruct (Hs (mkSeenSlot tr idx true) eq_refl eq_refl) as [W2 Hg2].
    rewrite <- (iw_count _ W1). split; [exact W2|]. intros k. rewrite Hg2, <- (Hget (triple_key tr)), Hn, <- (Hget k). done.
Qed.

(** ** The join table *)

Lemma adj_nodead (s : AdjSlot) : slot_state s <> SLOT_DEAD.
Proof. cbn. by destruct (ad_used s). Qed.

(** The indexes listed for a key. *)
Definition adj_list (a : Adj) (k : Z * list Z) : list nat :=
  match pt_get a k with Some s => ad_idx s | None => [] end.

Lemma adj_push_spec ok s idx :
  match adj_push ok s idx with
  | Some s' => ad_subject s' = ad_subject s /\ ad_predicate s' = ad_predicate s /\ ad_used s' = ad_used s /\
      ad_idx s' = ad_idx s ++ [idx]
  | None => ok = false
  end.
Proof. unfold adj_push. destruct (_ =? _)%nat; [destruct ok|]; done. Qed.

Lemma adj_add_spec ok_grow ok_idx a subject predicate idx :
  io_wf a ->
  match adj_add ok_grow ok_idx a subject predicate idx with
  | Some a' => io_wf a' /\ forall k, adj_list a' k =
      if decide (k = (subject, predicate)) then adj_list a k ++ [idx] else adj_list a k
  | None => ok_grow = false \/ ok_idx = false
  end.
Proof.
  intros W. unfold adj_add, adj_grow.
  destruct (if (pt_cap a * 3 <=? pt_used a * 4)%nat then _ else _) as [a1|] eqn:Eg.
  2: { destruct ok_grow; [|by left]. destruct (io_make_room_ok a W) as [? Ex]. discriminate (eq_trans (eq_sym Eg) Ex). }
  destruct (io_make_room ok_grow a a1 W Eg) as (W1 & Hsp & _ & Hget).
  assert (forall k, adj_list a k = adj_list a1 k) as Hl by (intros k; unfold adj_list; by rewrite Hget).
  pose proof (io_search adj_nodead a1 (subject, predicate) W1 Hsp) as Hs. cbn zeta.
  destruct (put_loop _ _ _ _ _ _) as [[j|j]|]; [| |done].
  - set (s := slot_at (pt_slots a1) j). pose proof (adj_push_spec ok_idx s idx) as Hp.
    destruct (adj_push ok_idx s idx) as [s'|]; [|by right]. cbn [fmap option_fmap option_map].
    destruct Hp as (H1 & H2 & H3 & H4). apply pt_find_spec in Hs as Hlive; [|apply W1].
    apply live_at_slot in Hlive as [Hst Hk]. fold s in Hst, Hk. cbn in Hst, Hk.
    destruct (io_set a1 (subject, predicate) j s' W1 Hs) as [W2 Hg2].
    { unfold is_live. cbn. by rewrite H3. } { cbn. by rewrite H1, H2. }
    assert (mkPTable (<[j := s']> (pt_slots a1)) (pt_cap a1) (pt_live a1) (pt_live a1) = pt_set a1 j s') as ->.
    { unfold pt_set. by rewrite (iw_count _ W1). }
    split; [done|]. intros k. rewrite Hl. unfold adj_list. rewrite Hg2. case_decide as E; [|done]. subst k.
    rewrite H4. unfold pt_get. rewrite Hs. cbn [mbind option_bind].
    assert (is_Some (pt_slots a1 !! j)) as [x Hx].
    { apply pt_find_spec in Hs as (x & Hx & _); [by exists x|apply W1]. }
    rewrite Hx. unfold s, slot_at. by rewrite Hx.
  - destruct Hs as [Hn Hs]. pose proof (adj_push_spec ok_idx (mkAdjSlot subject predicate [] 0 true) idx) as Hp.
    destruct (adj_push _ _ _) as [s'|]; [|by right]. cbn [fmap option_fmap option_map]. destruct Hp as (H1 & H2 & H3 & H4).
    destruct (Hs s') as [W2 Hg2]; [unfold is_live; cbn; by rewrite H3|cbn; by rewrite H1, H2|].
    split; [exact W2|]. intros k. rewrite Hl. unfold adj_list. rewrite Hg2. case_decide as E; [|done]. subst k. by rewrite Hn, H4.
Qed.
