(* ===== verification/InferenceCorrect.v ===== *)
(** * Correctness of an inference pass

    The pass is a fold over the candidate conclusions of its facts; what it
    returns is, for every triple that some declared rule concludes and that is
    not yet a fact, one conclusion with the lowest four of its justifications.
    Neither the order of the facts nor where the scan starts matters. *)

From S2P Require Import Prelude Endian SortedArray Record StrTable Intern ProbeTable FactIndex Floats Json Registry Inference InferTables.

(** ** The route set *)

Definition ir_key (r : InferRoute) : RouteKey := (ir_premises r, deriv_rule_code (ir_rule r)).
Definition to_deriv (r : InferRoute) : DerivRoute := mkDerivRoute (ir_rule r) 0 (ir_premises r).

(** What a rule's route looks like. *)
Definition route_ok (r : InferRoute) : Prop :=
  ir_rule r <> DERIV_NONE /\ (0 < length (ir_premises r) <= DERIV_MAX_PREMISES)%nat.

Lemma infer_position_spec rt routes i :
  infer_position rt routes i
  = match route_position (to_deriv rt) (map to_deriv routes) i with inl _ => None | inr a => Some a end.
Proof.
  revert i. induction routes as [|x routes IH]; intros i; [done|]. cbn [map infer_position route_position].
  change (route_cmp (to_deriv rt) (to_deriv x)) with (infer_route_cmp rt x). cbn zeta.
  destruct (_ =? 0); [done|]. destruct (_ <? 0); [done|]. apply IH.
Qed.

(** The insertion is the one of a record's derivation. *)
Lemma routes_insert_record routes rt :
  route_ok rt ->
  map to_deriv (routes_insert routes rt)
  = mr_derivation (fst (record_add_route (fun _ => true) (set_derivation record_init (map to_deriv routes))
      (ir_rule rt) 0 (Some (ir_premises rt)))).
Proof.
  intros [Hr Hp]. unfold routes_insert, record_add_route. rewrite infer_position_spec.
  rewrite (proj2 (Nat.eqb_neq _ _)), (proj2 (Nat.ltb_ge _ _)) by lia. cbn [orb mr_derivation set_derivation].
  change (mkDerivRoute (ir_rule rt) 0 (ir_premises rt)) with (to_deriv rt). rewrite length_map.
  destruct (route_position _ _ _) as [[]|at_]; cbn zeta; [by destruct (ir_rule rt)|]. rewrite andb_false_r.
  destruct (DERIV_MAX_ROUTES <=? length routes)%nat; [destruct (DERIV_MAX_ROUTES <=? at_)%nat|];
    destruct (ir_rule rt); try done; cbn [fst mr_derivation set_derivation]; by rewrite <- ?firstn_map, map_insert_at.
Qed.

Lemma routes_insert_keys routes rt :
  route_ok rt -> strictly_sorted (map ir_key routes) -> (length routes <= DERIV_MAX_ROUTES)%nat ->
  map ir_key (routes_insert routes rt) = take DERIV_MAX_ROUTES (key_insert (map ir_key routes) (ir_key rt)).
Proof.
  intros [Hr Hp] Hs Hl.
  assert (forall l, map ir_key l = map route_key (map to_deriv l)) as Hk by (intros l; by rewrite map_map).
  rewrite !Hk. rewrite routes_insert_record by done.
  pose proof (add_route_keys (fun _ => true) (set_derivation record_init (map to_deriv routes)) (ir_rule rt) 0
    (ir_premises rt) (fun _ => eq_refl) Hr Hp) as H. cbn [mr_derivation set_derivation] in H.
  rewrite <- Hk, length_map in H. specialize (H Hs Hl). destruct (record_add_route _ _ _ _ _) as [r' rc]. cbn [fst].
  rewrite <- Hk. apply H.
Qed.

Lemma routes_insert_elem routes rt r : r ∈ routes_insert routes rt -> r = rt \/ r ∈ routes.
Proof.
  unfold routes_insert. assert (forall at_, r ∈ insert_at at_ rt routes -> r = rt \/ r ∈ routes) as Hi.
  { intros at_. rewrite insert_at_Permutation. set_solver. }
  destruct (infer_position rt routes 0) as [at_|]; [|by right].
  destruct (DERIV_MAX_ROUTES <=? length routes)%nat; [destruct (DERIV_MAX_ROUTES <=? at_)%nat|]; [by right| |apply Hi].
  intros Hin. by apply elem_of_take in Hin as (i & Hin & _); apply list_elem_of_lookup_2, Hi in Hin.
Qed.

(** The routes kept of those offered. *)
Definition kept (l : list InferRoute) : list InferRoute := foldl routes_insert [] l.

Lemma kept_snoc l rt : kept (l ++ [rt]) = routes_insert (kept l) rt.
Proof. unfold kept. by rewrite foldl_app. Qed.

Lemma kept_spec l :
  Forall route_ok l ->
  map ir_key (kept l) = take DERIV_MAX_ROUTES (foldl key_insert [] (map ir_key l)) /\
  (forall r, r ∈ kept l -> r ∈ l).
Proof.
  induction l as [|rt l IH] using rev_ind; intros Hok; [set_solver|].
  apply Forall_app in Hok as [Hok Hrt]. rewrite Forall_singleton in Hrt. destruct (IH Hok) as [Hk He].
  assert (strictly_sorted ([] : list RouteKey)) as Hnil by constructor.
  destruct (foldl_key_insert (map ir_key l) [] Hnil) as [Hs _].
  rewrite kept_snoc, map_app, foldl_app. cbn [map foldl]. split.
  - rewrite routes_insert_keys; [|done| |].
    + rewrite Hk, <- take_key_insert by done. done.
    + rewrite Hk. by apply sorted_take.
    + rewrite <- (length_map ir_key), Hk, length_take. lia.
  - intros r Hr. apply routes_insert_elem in Hr as [->|Hr]; set_solver.
Qed.

(** Which routes are kept does not depend on the order. *)
Lemma kept_perm l l' :
  l ≡ₚ l' -> Forall route_ok l ->
  (forall r r', r ∈ l -> r' ∈ l -> ir_key r = ir_key r' -> r = r') -> kept l = kept l'.
Proof.
  intros Hp Hok Hinj. assert (Forall route_ok l') as Hok' by (by rewrite <- Hp).
  destruct (kept_spec l Hok) as [Hk He], (kept_spec l' Hok') as [Hk' He'].
  assert (strictly_sorted ([] : list RouteKey)) as Hnil by constructor.
  destruct (foldl_key_insert (map ir_key l) [] Hnil) as [S1 E1].
  destruct (foldl_key_insert (map ir_key l') [] Hnil) as [S2 E2].
  assert (foldl key_insert [] (map ir_key l) = foldl key_insert [] (map ir_key l')) as E.
  { apply strictly_sorted_unique; [done|done|]. intros y. rewrite E1, E2. by rewrite (Permutation_map ir_key Hp). }
  rewrite E in Hk. rewrite <- Hk' in Hk. clear -Hk He He' Hinj Hp.
  assert (forall r, r ∈ kept l' -> r ∈ l) as He2 by (intros r Hr; rewrite Hp; by apply He').
  revert Hk He He2. generalize (kept l) (kept l'). intros a b. revert b.
  induction a as [|x a IH]; intros [|y b] Hk H1 H2; try done. cbn [map] in Hk. pose proof (f_equal head Hk) as Hx. pose proof (f_equal tail Hk) as Ha. cbn [head tail] in Hx, Ha.
  injection Hx as Hx Hx'.
  assert (x = y) as -> by (apply Hinj; [apply H1; left|apply H2; left|unfold ir_key; by rewrite Hx, Hx']).
  f_equal. apply IH; [done|intros r Hr; apply H1; by right|intros r Hr; apply H2; by right].
Qed.

(** ** Candidates *)

Record Cand := mkCand { cd_rule : DerivRule; cd_a : InferFact; cd_b : option InferFact; cd_triple : Triple }.

Definition cd_key (c : Cand) : TripleKey := triple_key (cd_triple c).

(** The facts a transitive step from [f] joins with. *)
Definition joinable (f g : InferFact) : Prop :=
  if_kind g = FACT_OBJ_ID /\ if_subject g = if_object_id f /\ if_predicate g = if_predicate f.
#[global] Instance joinable_dec f g : Decision (joinable f g).
Proof. unfold joinable. apply _. Defined.

(** The candidates of a fact, in the order the pass considers them. *)
Definition cands_of (facts : list InferFact) (reg : PredicateRegistry) (f : InferFact) : list Cand :=
  match if_kind f, predicate_registry_get reg (if_predicate f) with
  | FACT_OBJ_ID, Some spec =>
      (if ps_symmetric spec then
         [mkCand DERIV_SYMMETRIC f None (id_triple (if_object_id f) (if_predicate f) (if_subject f))] else []) ++
      match ps_inverse_of spec with
      | Some inv => [mkCand DERIV_INVERSE f None (id_triple (if_object_id f) inv (if_subject f))]
      | None => []
      end ++
      (if ps_transitive spec then
         map (fun g => mkCand DERIV_TRANSITIVE f (Some g) (id_triple (if_subject f) (if_predicate f) (if_object_id g)))
           (filter (joinable f) facts) else [])
  | _, _ => []
  end.

(** First occurrences. *)
Definition firsts {A} `{EqDecision A} (l : list A) : list A :=
  foldl (fun acc k => if decide (k ∈ acc) then acc else acc ++ [k]) [] l.

Lemma firsts_snoc {A} `{EqDecision A} (l : list A) k :
  firsts (l ++ [k]) = if decide (k ∈ firsts l) then firsts l else firsts l ++ [k].
Proof. unfold firsts. by rewrite foldl_app. Qed.

Lemma firsts_spec {A} `{EqDecision A} (l : list A) : NoDup (firsts l) /\ forall k, k ∈ firsts l <-> k ∈ l.
Proof.
  induction l as [|k l [IH1 IH2]] using rev_ind; [split; [constructor|done]|]. rewrite firsts_snoc. case_decide as Hk.
  - split; [done|]. set_solver.
  - split; [|set_solver]. apply NoDup_app. split_and!; [done|set_solver|apply NoDup_singleton].
Qed.

(** ** The pass as a function of the candidates *)

Section pass.
Context (facts : list InferFact) (max_depth : Z) (floor : spec_float).

Definition fkeys : list TripleKey := map (fun f => triple_key (fact_triple f)) facts.

Definition cand_deepest (c : Cand) : Z := snd (route_of (cd_rule c) (cd_a c) (cd_b c) floor).
Definition placed (c : Cand) : InferRoute :=
  let '(rt, conf, deepest) := route_of (cd_rule c) (cd_a c) (cd_b c) floor in
  mkInferRoute (ir_rule rt) (wrap 16 (deepest + 1)) (ir_premises rt) conf.

(** Shallow enough and not a fact. *)
Definition accepted (c : Cand) : Prop := cand_deepest c < max_depth /\ cd_key c ∉ fkeys.
#[global] Instance accepted_dec c : Decision (accepted c).
Proof. unfold accepted. apply _. Defined.

(** The justifications offered for a triple, and the triples in the order they
    are first concluded. *)
Definition offered (cs : list Cand) (k : TripleKey) : list InferRoute :=
  map placed (filter (fun c => accepted c /\ cd_key c = k) cs).
Definition concluded (cs : list Cand) : list TripleKey := firsts (map cd_key (filter accepted cs)).

Definition key_triple (k : TripleKey) : Triple :=
  let '(s, p, o) := k in
  match o with inl oid => id_triple s p oid | inr (kind, str) => mkTriple s p kind 0 str end.

Definition conclusion (cs : list Cand) (k : TripleKey) : InferConclusion :=
  mkConclusion (key_triple k) (kept (offered cs k)) (conclusion_confidence (kept (offered cs k))).

Definition result (cs : list Cand) : list InferConclusion := map (conclusion cs) (concluded cs).

Lemma offered_snoc cs c k :
  offered (cs ++ [c]) k = if decide (accepted c /\ cd_key c = k) then offered cs k ++ [placed c] else offered cs k.
Proof.
  unfold offered. rewrite filter_app, filter_cons, filter_nil, map_app. case_decide; [done|by rewrite app_nil_r].
Qed.

Lemma concluded_snoc cs c :
  concluded (cs ++ [c]) = if decide (accepted c /\ cd_key c ∉ concluded cs) then concluded cs ++ [cd_key c] else concluded cs.
Proof.
  unfold concluded. rewrite filter_app, filter_cons, filter_nil, map_app.
  destruct (decide (accepted c)) as [Ha|Ha].
  - cbn [map]. rewrite firsts_snoc. repeat case_decide; try done; exfalso; naive_solver.
  - cbn [map]. rewrite app_nil_r. case_decide; [naive_solver|done].
Qed.

Lemma concluded_spec cs :
  NoDup (concluded cs) /\ forall k, k ∈ concluded cs <-> exists c, c ∈ cs /\ accepted c /\ cd_key c = k.
Proof.
  unfold concluded. destruct (firsts_spec (map cd_key (filter accepted cs))) as [Hn Hk]. split; [done|].
  intros k. rewrite Hk, list_elem_of_fmap. setoid_rewrite list_elem_of_filter. naive_solver.
Qed.

(** A candidate that is refused changes nothing. *)
Lemma result_refused cs c : ~ accepted c -> result (cs ++ [c]) = result cs /\ concluded (cs ++ [c]) = concluded cs.
Proof.
  intros Ha. unfold result. rewrite concluded_snoc, decide_False by naive_solver. split; [|done].
  apply map_ext. intros k. unfold conclusion. by rewrite offered_snoc, decide_False by naive_solver.
Qed.

(** A new triple is appended. *)
Lemma result_new cs c :
  accepted c -> cd_key c ∉ concluded cs ->
  let rs := routes_insert [] (placed c) in
  result (cs ++ [c]) = result cs ++ [mkConclusion (key_triple (cd_key c)) rs (conclusion_confidence rs)].
Proof.
  intros Ha Hk. unfold result. rewrite concluded_snoc, decide_True, map_app by done. cbn [map]. f_equal.
  - apply map_ext_in. intros k Hin. unfold conclusion. rewrite offered_snoc, decide_False; [done|].
    intros [_ <-]. apply Hk. by apply list_elem_of_In.
  - unfold conclusion. rewrite offered_snoc, decide_True by done.
    assert (offered cs (cd_key c) = []) as ->; [|done]. unfold offered. rewrite filter_none; [done|].
    apply Forall_forall. intros c' Hc' [Ha' Hk']. apply Hk. rewrite <- Hk'. apply concluded_spec. eauto.
Qed.

(** Another route to a triple goes into its conclusion. *)
Lemma result_again cs c i :
  accepted c -> concluded cs !! i = Some (cd_key c) ->
  result (cs ++ [c]) = alter (fun x => set_routes x (routes_insert (ic_routes x) (placed c))) i (result cs) /\
  concluded (cs ++ [c]) = concluded cs.
Proof.
  intros Ha Hi. destruct (concluded_spec cs) as [Hn _].
  assert (cd_key c ∈ concluded cs) as Hin by (by eapply list_elem_of_lookup_2).
  assert (concluded (cs ++ [c]) = concluded cs) as E by (rewrite concluded_snoc, decide_False; naive_solver).
  split; [|done]. unfold result. rewrite E. apply list_eq. intros j. rewrite list_lookup_alter, !list_lookup_fmap.
  case_decide as Eij.
  - subst j. rewrite Hi. cbn. f_equal. unfold conclusion, set_routes. cbn. by rewrite offered_snoc, decide_True, kept_snoc.
  - destruct (concluded cs !! j) as [k|] eqn:Hj; [|done]. cbn. f_equal. unfold conclusion.
    rewrite offered_snoc, decide_False; [done|]. intros [_ Hk]. apply Eij. eapply NoDup_lookup; [done|exact Hi|by rewrite Hk].
Qed.
End pass.

(** ** The state of the pass *)

Section run.
Context (al : InferAlloc) (facts : list InferFact) (reg : PredicateRegistry).
Context (max_depth : Z) (max_conc : nat) (max_cand : Z) (floor : spec_float).

Notation fkeys := (fkeys facts).
Notation accepted := (accepted facts max_depth floor).
Notation concluded := (concluded facts max_depth floor).
Notation result := (result facts max_depth floor).
Notation placed := (placed floor).

(** After the candidates [cs]. *)
Record st_inv (st : Pass) (cs : list Cand) : Prop := {
  si_wf : io_wf (pa_seen st);
  si_fact k : k ∈ fkeys -> sn_out_idx <$> pt_get (pa_seen st) k = Some None;
  si_none k : k ∉ fkeys -> pt_get (pa_seen st) k = None <-> k ∉ concluded cs;
  si_idx k s : k ∉ fkeys -> pt_get (pa_seen st) k = Some s -> exists i, sn_out_idx s = Some i /\ concluded cs !! i = Some k;
  si_items : ob_items (pa_out st) = result cs;
  si_bound : max_conc = 0%nat \/ (length (concluded cs) <= max_conc)%nat
}.

(** A candidate's triple relates two records. *)
Definition cand_ok (c : Cand) : Prop := exists s p o, cd_triple c = id_triple s p o.

Lemma cand_ok_key c : cand_ok c -> triple_ok (cd_triple c) /\ key_triple (cd_key c) = cd_triple c.
Proof. intros (s & p & o & E). unfold cd_key. rewrite E. split; [by intros []|done]. Qed.

Definition offer_cand (st : Pass) (c : Cand) : option Pass :=
  let '(rt, conf, deepest) := route_of (cd_rule c) (cd_a c) (cd_b c) floor in
  offer al max_depth max_conc st (cd_triple c) rt conf deepest.

Lemma length_result cs : length (result cs) = length (concluded cs).
Proof. unfold InferenceCorrect.result. apply length_map. Qed.

Lemma out_push_spec ok o x :
  match out_push ok o x with Some o' => ob_items o' = ob_items o ++ [x] | None => ok = false end.
Proof. unfold out_push. destruct (_ =? _)%nat; [by destruct ok|done]. Qed.

(** What an offer does: it takes the candidate, or stops at the cap on
    conclusions, or runs out of memory. *)
Lemma offer_inv st cs c :
  st_inv st cs -> cand_ok c ->
  match offer_cand st c with
  | Some st' => pa_cands st' = pa_cands st /\
      ((pa_stop st' = pa_stop st /\ pa_truncated st' = pa_truncated st /\ st_inv st' (cs ++ [c])) \/
       (pa_stop st' = true /\ pa_truncated st' = true /\ st_inv st' cs /\ accepted c /\
        max_conc <> 0%nat /\ (max_conc <= length (concluded cs))%nat /\ cd_key c ∉ concluded cs))
  | None => ia_out al (length (concluded cs)) = false \/ ia_seen al (pt_used (pa_seen st)) = false
  end.
Proof.
  intros Hi Hc. destruct (cand_ok_key c Hc) as [Hok Hkt]. unfold offer_cand, offer.
  destruct (route_of _ _ _ _) as [[rt conf] deepest] eqn:Ert.
  assert (cand_deepest floor c = deepest) as Hd by (unfold cand_deepest; by rewrite Ert).
  assert (placed c = mkInferRoute (ir_rule rt) (wrap 16 (deepest + 1)) (ir_premises rt) conf) as Hpl
    by (unfold InferenceCorrect.placed; by rewrite Ert).
  assert (forall st', pa_seen st' = pa_seen st -> pa_out st' = pa_out st -> ~ accepted c -> st_inv st' (cs ++ [c])) as Href.
  { intros st' Es Eo Ha. destruct (result_refused facts max_depth floor cs c Ha) as [Hr Hcon]. destruct Hi.
    split; rewrite ?Es, ?Eo, ?Hr, ?Hcon; done. }
  destruct (Z.leb_spec max_depth deepest) as [Hdeep|Hdeep].
  { split; [done|]. left. split_and!; try done. apply Href; try done. intros [Ha _]. lia. }
  rewrite <- Hpl, seen_find_get by (done || apply Hi). fold (cd_key c).
  destruct (decide (cd_key c ∈ fkeys)) as [Hf|Hf].
  { pose proof (si_fact _ _ Hi _ Hf) as E. destruct (pt_get (pa_seen st) (cd_key c)) as [s|]; [|done].
    cbn in E. injection E as ->. split; [done|]. left. split_and!; try done. apply Href; try done. by intros [_ ?]. }
  assert (accepted c) as Ha by (split; [lia|done]).
  destruct (pt_get (pa_seen st) (cd_key c)) as [s|] eqn:Eg.
  - destruct (si_idx _ _ Hi _ _ Hf Eg) as (i & -> & Hci). split; [done|]. left. split_and!; try done.
    destruct (result_again facts max_depth floor cs c i Ha Hci) as [Hr Hcon]. destruct Hi.
    split; cbn [pa_seen pa_out ob_items]; rewrite ?Hcon; try done. by rewrite Hr, si_items0.
  - apply (si_none _ _ Hi _ Hf) in Eg as Hnk. rewrite (si_items _ _ Hi), length_result.
    destruct (negb (max_conc =? 0)%nat && (max_conc <=? length (concluded cs))%nat) eqn:Ecap.
    { zbool. split; [done|]. right. split_and!; try done. destruct Hi. by split. }
    assert (max_conc = 0%nat \/ (length (concluded cs) < max_conc)%nat) as Hroom.
    { apply andb_false_iff in Ecap as [E|E]; zbool; lia. }
    set (rs := routes_insert [] (placed c)). set (x := mkConclusion _ _ _).
    pose proof (out_push_spec (ia_out al (length (concluded cs))) (pa_out st) x) as Ho.
    destruct (out_push _ _ _) as [out|]; [|by left]. rewrite Ho, length_app, (si_items _ _ Hi), length_result.
    replace (length (concluded cs) + length [x] - 1)%nat with (length (concluded cs)) by (cbn; lia).
    pose proof (seen_put_spec (ia_seen al (pt_used (pa_seen st))) (pa_seen st) (cd_triple c) (Some (length (concluded cs)))
      (si_wf _ _ Hi) Hok) as Hp.
    destruct (seen_put _ _ _ _) as [[seen b]|]; [|by right]. destruct Hp as [Wp Hg]. fold (cd_key c) in Hg. rewrite Eg in Hg.
    split; [done|]. left. split_and!; try done.
    assert (concluded (cs ++ [c]) = concluded cs ++ [cd_key c]) as Hcon by (rewrite concluded_snoc; by rewrite decide_True).
    split; cbn [pa_seen pa_out ob_items]; rewrite ?Hcon.
    + done.
    + intros k Hk. rewrite Hg, decide_False by congruence. by apply (si_fact _ _ Hi).
    + intros k Hk. rewrite Hg. case_decide as E; [subst k; cbn; set_solver|].
      rewrite (si_none _ _ Hi _ Hk). set_solver.
    + intros k s Hk. rewrite Hg. case_decide as E.
      * subst k. intros [= <-]. cbn. eexists. split; [done|]. by rewrite lookup_app_r, Nat.sub_diag.
      * intros Hs. destruct (si_idx _ _ Hi _ _ Hk Hs) as (i & Hsi & Hci). exists i. split; [done|]. by apply lookup_app_l_Some.
    + rewrite Ho, (si_items _ _ Hi). unfold x, rs. rewrite (result_new facts max_depth floor cs c Ha Hnk), Hkt. done.
    + rewrite length_app. cbn. lia.
Qed.

(** ** Runs *)

Fixpoint run_cands (st : Pass) (cs : list Cand) : option Pass :=
  match cs with
  | [] => Some st
  | c :: cs' =>
      if pa_stop st then Some st
      else match candidate al max_depth max_conc max_cand floor st (cd_rule c) (cd_a c) (cd_b c) (cd_triple c) with
           | None => None
           | Some st => run_cands st cs'
           end
  end.

(** Some allocation of the pass fails. *)
Definition alloc_fails : Prop :=
  exists n, ia_seen al n = false \/ ia_adj al n = false \/ ia_idx al n = false \/ ia_out al n = false.

(** The pass has taken the candidates [cs]; when it has stopped, one more was
    counted and a cap was the reason. *)
Record run_inv (st : Pass) (cs : list Cand) : Prop := {
  ru_st : st_inv st cs;
  ru_truncated : pa_truncated st = pa_stop st;
  ru_go : pa_stop st = false -> pa_cands st = Z.of_nat (length cs) /\ pa_cands st <= max_cand;
  ru_stop : pa_stop st = true -> pa_cands st = Z.of_nat (length cs) + 1 /\ pa_cands st <= max_cand + 1 /\
    (max_cand <= Z.of_nat (length cs) \/ (max_conc <> 0%nat /\ (max_conc <= length (concluded cs))%nat))
}.

Lemma candidate_inv st cs c :
  run_inv st cs -> pa_stop st = false -> cand_ok c ->
  match candidate al max_depth max_conc max_cand floor st (cd_rule c) (cd_a c) (cd_b c) (cd_triple c) with
  | Some st' => if pa_stop st' then run_inv st' cs else run_inv st' (cs ++ [c])
  | None => alloc_fails
  end.
Proof.
  intros [Hi Ht Hg Hst] Hstop Hc. destruct (Hg Hstop) as [Hn Hm]. unfold candidate.
  destruct (Z.ltb_spec max_cand (pa_cands st + 1)) as [Hcap|Hcap].
  { cbn [pa_stop]. split; [destruct Hi; by split|done|done|]. intros _. cbn. split_and!; lia. }
  set (st1 := mkPass _ _ _ _ _). assert (st_inv st1 cs) as Hi1 by (destruct Hi; by split).
  pose proof (offer_inv st1 cs c Hi1 Hc) as Ho. unfold offer_cand in Ho.
  destruct (route_of _ _ _ _) as [[rt conf] deepest]. destruct (offer _ _ _ _ _ _ _ _) as [st'|].
  2: { destruct Ho as [Ho|Ho]; eexists; eauto. }
  destruct Ho as [Hcs [(Hs & Htr & Hinv)|(Hs & Htr & Hinv & _ & H0 & Hle & _)]].
  - cbn in Hs, Htr, Hcs. rewrite Hs, Hstop. split; [done|congruence| |congruence]. intros _.
    rewrite length_app, Hcs. cbn. lia.
  - rewrite Hs. cbn in Hcs. split; [done|congruence|congruence|]. intros _. split_and!; [lia|lia|by right].
Qed.

Lemma run_cands_inv l st cs :
  run_inv st cs -> Forall cand_ok l ->
  match run_cands st l with
  | Some st' => exists done rest, l = done ++ rest /\ run_inv st' (cs ++ done) /\ (pa_stop st' = false -> rest = []) /\
      (pa_stop st = false -> pa_stop st' = true -> rest <> [])
  | None => alloc_fails
  end.
Proof.
  revert st cs. induction l as [|c l IH]; intros st cs Hi Hok; cbn [run_cands].
  { exists [], []. rewrite (app_nil_r cs). split_and!; (done || congruence). }
  apply Forall_cons in Hok as [Hc Hok]. destruct (pa_stop st) eqn:Es.
  { exists [], (c :: l). rewrite (app_nil_r cs). split_and!; (done || congruence). }
  pose proof (candidate_inv st cs c Hi Es Hc) as H1. destruct (candidate _ _ _ _ _ _ _ _ _ _) as [st'|]; [|done].
  destruct (pa_stop st') eqn:Es'.
  - assert (run_cands st' l = Some st') as -> by (destruct l; cbn; [done|by rewrite Es']).
    exists [], (c :: l). rewrite (app_nil_r cs). split_and!; (done || congruence).
  - specialize (IH st' _ H1 Hok). destruct (run_cands st' l) as [st2|]; [|done].
    destruct IH as (d & rest & -> & Hi2 & Hr & Hn). exists (c :: d), rest. rewrite <- (assoc_L (++)) in Hi2. split_and!; auto.
Qed.

Lemma run_cands_app st a b :
  run_cands st (a ++ b) = match run_cands st a with Some st' => run_cands st' b | None => None end.
Proof.
  revert st. induction a as [|c a IH]; intros st; [done|]. cbn [app run_cands]. destruct (pa_stop st) eqn:Es.
  - destruct b; cbn; [done|by rewrite Es].
  - destruct (candidate _ _ _ _ _ _ _ _ _ _); [apply IH|done].
Qed.

Lemma run_cands_stopped st l : pa_stop st = true -> run_cands st l = Some st.
Proof. intros Es. destruct l; cbn; [done|by rewrite Es]. Qed.

Lemma cands_of_ok f : Forall cand_ok (cands_of facts reg f).
Proof.
  unfold cands_of. destruct (if_kind f); [constructor| |constructor]. destruct (predicate_registry_get _ _) as [spec|]; [|constructor].
  repeat (apply Forall_app; split).
  - destruct (ps_symmetric spec); repeat constructor. by do 3 eexists.
  - destruct (ps_inverse_of spec); repeat constructor. by do 3 eexists.
  - destruct (ps_transitive spec); [|constructor]. apply Forall_fmap, Forall_true. intros g. by do 3 eexists.
Qed.

(** ** The scan is a run over the candidates *)

(** The join table lists the joinable facts. *)
Definition adj_inv (adj : Adj) : Prop :=
  forall f, if_kind f = FACT_OBJ_ID ->
  omap (fun j => facts !! j) (adj_list adj (if_object_id f, if_predicate f)) = filter (joinable f) facts /\
  Forall (fun j => is_Some (facts !! j)) (adj_list adj (if_object_id f, if_predicate f)).

Definition trans_cand (f g : InferFact) : Cand :=
  mkCand DERIV_TRANSITIVE f (Some g) (id_triple (if_subject f) (if_predicate f) (if_object_id g)).

Lemma join_loop_run st f idx :
  Forall (fun j => is_Some (facts !! j)) idx ->
  join_loop al facts max_depth max_conc max_cand floor st f idx
  = run_cands st (map (trans_cand f) (omap (fun j => facts !! j) idx)).
Proof.
  intros Hf. revert st. induction Hf as [|j idx [g Hg] _ IH]; intros st; [done|].
  cbn [join_loop omap list_omap]. rewrite Hg. cbn [map run_cands]. destruct (pa_stop st); [done|].
  cbn [cd_rule cd_a cd_b cd_triple trans_cand]. destruct (candidate _ _ _ _ _ _ _ _ _ _); [apply IH|done].
Qed.

Lemma scan_fact_run adj st f :
  adj_inv adj -> pa_stop st = false ->
  scan_fact al facts reg max_depth max_conc max_cand floor adj st f = run_cands st (cands_of facts reg f).
Proof.
  intros Ha Hs. unfold scan_fact, cands_of. destruct (if_kind f) eqn:Ek; [done| |done].
  destruct (predicate_registry_get _ _) as [spec|]; [|done]. rewrite run_cands_app.
  destruct (Ha f Ek) as [Hj Hv].
  assert (match (if ps_symmetric spec then candidate al max_depth max_conc max_cand floor st DERIV_SYMMETRIC f None
      (id_triple (if_object_id f) (if_predicate f) (if_subject f)) else Some st) with Some st => Some st | None => None end
    = run_cands st (if ps_symmetric spec then
        [mkCand DERIV_SYMMETRIC f None (id_triple (if_object_id f) (if_predicate f) (if_subject f))] else [])) as <-.
  { destruct (ps_symmetric spec); [|done]. cbn. by rewrite Hs. }
  destruct (if ps_symmetric spec then _ else _) as [st1|]; [|done]. rewrite run_cands_app.
  assert (match ps_inverse_of spec with
    | Some inv => if pa_stop st1 then Some st1 else candidate al max_depth max_conc max_cand floor st1 DERIV_INVERSE f None
        (id_triple (if_object_id f) inv (if_subject f))
    | None => Some st1 end
    = run_cands st1 match ps_inverse_of spec with
      | Some inv => [mkCand DERIV_INVERSE f None (id_triple (if_object_id f) inv (if_subject f))] | None => [] end) as <-.
  { destruct (ps_inverse_of spec); [|done]. cbn. destruct (pa_stop st1); [done|]. by destruct (candidate _ _ _ _ _ _ _ _ _ _). }
  destruct (match ps_inverse_of spec with Some _ => _ | None => _ end) as [st2|]; [|done].
  destruct (ps_transitive spec); cbn [andb]; [|done]. fold (trans_cand f). rewrite <- Hj.
  destruct (pa_stop st2) eqn:Es; cbn [negb]; [by rewrite run_cands_stopped|].
  unfold adj_get, adj_list in *. destruct (pt_get adj _) as [next|]; [|done]. by apply join_loop_run.
Qed.

(** The facts in the order they are visited. *)
Definition rotated (start : nat) : list InferFact := drop start facts ++ take start facts.

Lemma rotated_lookup start k :
  (start < length facts)%nat -> (k < length facts)%nat ->
  rotated start !! k = facts !! ((start + k) mod length facts)%nat.
Proof.
  intros Hs Hk. unfold rotated. destruct (decide (start + k < length facts)%nat) as [H|H].
  - rewrite Nat.mod_small by done. rewrite lookup_app_l by (rewrite length_drop; lia). apply lookup_drop.
  - rewrite lookup_app_r by (rewrite length_drop; lia). rewrite length_drop, lookup_take_lt by lia.
    f_equal. apply (Nat.mod_unique _ _ 1); lia.
Qed.

Lemma rule_loop_run adj start k n st :
  adj_inv adj -> (start < length facts)%nat -> (k + n = length facts)%nat ->
  fst <$> rule_loop al facts reg max_depth max_conc max_cand floor adj start k n st
  = run_cands st (concat (map (cands_of facts reg) (drop k (rotated start)))).
Proof.
  intros Ha Hs. assert (length (rotated start) = length facts) as Hlen
    by (unfold rotated; rewrite length_app, length_drop, length_take; lia).
  revert k st. induction n as [|n IH]; intros k st Hk; cbn [rule_loop].
  { rewrite drop_ge by lia. done. }
  destruct (lookup_lt_is_Some_2 (rotated start) k ltac:(lia)) as [f Hf]. rewrite (drop_S _ f) by done.
  cbn [map concat]. destruct (pa_stop st) eqn:Es; [by rewrite run_cands_stopped|].
  rewrite rotated_lookup in Hf by lia. rewrite Hf, run_cands_app, <- (scan_fact_run adj) by done.
  destruct (scan_fact _ _ _ _ _ _ _ _ _ _) as [st'|]; [|done]. apply IH. lia.
Qed.

(** How far the scan got. *)
Lemma rule_loop_scanned adj start k n st st' k' :
  rule_loop al facts reg max_depth max_conc max_cand floor adj start k n st = Some (st', k') ->
  (start < length facts)%nat -> (k + n = length facts)%nat ->
  (k <= k' <= length facts)%nat /\ (pa_stop st = false -> (0 < n)%nat -> (k < k')%nat) /\
  (pa_stop st' = false -> k' = length facts).
Proof.
  intros E Hs. revert k st E. induction n as [|n IH]; intros k st E Hk; cbn [rule_loop] in E.
  { injection E as <- <-. split_and!; lia. }
  destruct (pa_stop st) eqn:Es; [injection E as <- <-; split_and!; (lia || congruence)|].
  assert (0 < length facts)%nat by lia.
  destruct (lookup_lt_is_Some_2 facts ((start + k) mod length facts)%nat) as [f Hf]; [by apply Nat.mod_upper_bound; lia|].
  rewrite Hf in E. destruct (scan_fact _ _ _ _ _ _ _ _ _ _) as [st1|]; [|done].
  destruct (IH (S k) st1 E ltac:(lia)) as (H1 & H2 & H3). split_and!; (lia || done).
Qed.
End run.

(** ** The first phase *)

Definition keyed (k : Z * list Z) (g : InferFact) : Prop :=
  if_kind g = FACT_OBJ_ID /\ (if_subject g, if_predicate g) = k.
#[global] Instance keyed_dec k g : Decision (keyed k g).
Proof. unfold keyed. apply _. Defined.

(** The positions of the keyed facts, counted from [i]. *)
Fixpoint joins (i : nat) (l : list InferFact) (k : Z * list Z) : list nat :=
  match l with
  | [] => []
  | f :: l' => (if decide (keyed k f) then [i] else []) ++ joins (S i) l' k
  end.

Lemma joins_spec pre l k :
  omap (fun j => (pre ++ l) !! j) (joins (length pre) l k) = filter (keyed k) l /\
  Forall (fun j => is_Some ((pre ++ l) !! j)) (joins (length pre) l k).
Proof.
  revert pre. induction l as [|f l IH]; intros pre; [done|]. cbn [joins]. rewrite omap_app.
  specialize (IH (pre ++ [f])). rewrite length_app, <- (assoc_L (++)), Nat.add_1_r in IH. cbn [app] in IH.
  destruct IH as [IH1 IH2]. rewrite IH1, filter_cons.
  assert ((pre ++ f :: l) !! length pre = Some f) as Hf by (by rewrite lookup_app_r, Nat.sub_diag).
  case_decide; [|done]. cbn. rewrite Hf. split; [done|]. constructor; [by rewrite Hf|done].
Qed.

Lemma filter_joinable f (l : list InferFact) : filter (keyed (if_object_id f, if_predicate f)) l = filter (joinable f) l.
Proof.
  apply list_filter_iff. intros g. unfold keyed, joinable. split; [intros [? [= ? ?]]; done|by intros (? & -> & ->)].
Qed.

Definition fact_ok (f : InferFact) : Prop := triple_ok (fact_triple f).

Lemma index_loop_spec al i l seen adj :
  io_wf seen -> io_wf adj -> Forall fact_ok l ->
  match index_loop al i l seen adj with
  | Some (seen', adj') => io_wf seen' /\ io_wf adj' /\
      (forall k, sn_out_idx <$> pt_get seen' k =
         match pt_get seen k with
         | Some s => Some (sn_out_idx s)
         | None => if decide (k ∈ fkeys l) then Some None else None
         end) /\
      forall k, adj_list adj' k = adj_list adj k ++ joins i l k
  | None => alloc_fails al
  end.
Proof.
  revert i seen adj. induction l as [|f l IH]; intros i seen adj Ws Wa Hok; cbn [index_loop].
  { split_and!; [done|done| |]; intros k; [by destruct (pt_get seen k)|cbn; by rewrite app_nil_r]. }
  apply Forall_cons in Hok as [Hf Hok].
  pose proof (seen_put_spec (ia_seen al (pt_used seen)) seen (fact_triple f) None Ws Hf) as Hp.
  destruct (seen_put _ _ _ _) as [[seen1 b]|]; [|eexists; eauto]. destruct Hp as [Ws1 Hg].
  set (adj1 := match if_kind f with FACT_OBJ_ID => _ | _ => _ end).
  assert (match adj1 with
    | Some a => io_wf a /\ forall k, adj_list a k = adj_list adj k ++ (if decide (keyed k f) then [i] else [])
    | None => alloc_fails al end) as Ha.
  { assert (if_kind f <> FACT_OBJ_ID -> forall k, adj_list adj k = adj_list adj k ++ (if decide (keyed k f) then [i] else [])) as Hno.
    { intros Hk k. rewrite decide_False by (by intros [? _]). by rewrite app_nil_r. }
    unfold adj1. destruct (if_kind f) eqn:Ek; [split; [done|by apply Hno]| |split; [done|by apply Hno]].
    pose proof (adj_add_spec (ia_adj al (pt_used adj)) (ia_idx al i) adj (if_subject f) (if_predicate f) i Wa) as H1.
    destruct (adj_add _ _ _ _ _ _) as [a|]; [|destruct H1; eexists; eauto]. destruct H1 as [W1 H1]. split; [done|].
    intros k. rewrite H1. unfold keyed. destruct (decide (k = (if_subject f, if_predicate f))) as [->|E].
    - by rewrite decide_True.
    - rewrite decide_False by (intros [_ <-]; done). by rewrite app_nil_r. }
  destruct adj1 as [a|]; [|done]. destruct Ha as [Wa1 Ha]. specialize (IH (S i) seen1 a Ws1 Wa1 Hok).
  destruct (index_loop al (S i) l seen1 a) as [[seen' adj']|]; [|done]. destruct IH as (? & ? & H3 & H4).
  split_and!; [done|done| |].
  - intros k. rewrite H3, Hg. unfold fkeys. cbn [map]. destruct (decide (k = triple_key (fact_triple f))) as [->|E].
    + destruct (pt_get seen _); cbn; [done|]. by rewrite decide_True by left.
    + destruct (pt_get seen k); [done|]. apply decide_ext. rewrite elem_of_cons. naive_solver.
  - intros k. rewrite H4, Ha. cbn [joins]. by rewrite (assoc_L (++)).
Qed.

(** ** The whole pass *)

(** The effective settings. *)
Definition run_depth (opts : option InferOpts) : Z :=
  match opts with Some o => if negb (io_max_depth o =? 0) then io_max_depth o else INFER_DEFAULT_MAX_DEPTH
  | None => INFER_DEFAULT_MAX_DEPTH end.
Definition run_conc (opts : option InferOpts) : nat := match opts with Some o => io_max_conclusions o | None => 0%nat end.
Definition run_cand (opts : option InferOpts) : Z :=
  match opts with Some o => if negb (io_max_candidates o =? 0) then io_max_candidates o else INFER_DEFAULT_MAX_CANDIDATES
  | None => INFER_DEFAULT_MAX_CANDIDATES end.
Definition run_floor (opts : option InferOpts) : spec_float :=
  match opts with
  | Some o => if SFltb (S754_zero false) (io_confidence_floor o) then io_confidence_floor o else INFER_DEFAULT_CONFIDENCE_FLOOR
  | None => INFER_DEFAULT_CONFIDENCE_FLOOR
  end.
Definition run_start (facts : list InferFact) (opts : option InferOpts) : nat :=
  match opts with Some o => (io_start_index o mod length facts)%nat | None => 0%nat end.

Definition opts_ok (opts : option InferOpts) : Prop :=
  match opts with Some o => 0 <= io_max_candidates o /\ 0 <= io_max_depth o <= UINT16_MAX | None => True end.

Definition all_cands (facts : list InferFact) (reg : PredicateRegistry) (start : nat) : list Cand :=
  concat (map (cands_of facts reg) (rotated facts start)).

(** What a pass returns: the conclusions of a prefix of its candidates, all of
    them unless a cap stopped it. *)
Record pass_result (facts : list InferFact) (reg : PredicateRegistry) (opts : option InferOpts) (res : InferResult)
  (done rest : list Cand) : Prop := {
  pr_split : all_cands facts reg (run_start facts opts) = done ++ rest;
  pr_items : ires_items res = result facts (run_depth opts) (run_floor opts) done;
  pr_all : ires_truncated res = false <-> rest = [];
  pr_count : ires_candidates res = Z.of_nat (length done) + (if ires_truncated res then 1 else 0);
  pr_cap : ires_candidates res <= run_cand opts + (if ires_truncated res then 1 else 0);
  pr_conc : run_conc opts = 0%nat \/ (length (ires_items res) <= run_conc opts)%nat;
  pr_why : ires_truncated res = true ->
    run_cand opts <= Z.of_nat (length done) \/
    (run_conc opts <> 0%nat /\ (run_conc opts <= length (ires_items res))%nat);
  pr_scanned : (0 < ires_scanned res <= length facts)%nat /\
    (ires_truncated res = false -> ires_scanned res = length facts)
}.

Lemma run_start_lt facts opts : facts <> [] -> (run_start facts opts < length facts)%nat.
Proof.
  intros Hf. assert (length facts <> 0%nat) by (by destruct facts). unfold run_start.
  destruct opts; [by apply Nat.mod_upper_bound|lia].
Qed.

Lemma all_cands_ok facts reg start : Forall cand_ok (all_cands facts reg start).
Proof.
  unfold all_cands. induction (rotated facts start) as [|f l IH]; cbn; [constructor|].
  apply Forall_app. split; [apply cands_of_ok|done].
Qed.

Lemma infer_run_pass al facts reg opts :
  Forall fact_ok facts -> facts <> [] -> opts_ok opts ->
  match infer_run al facts (Some reg) opts with
  | Some res => exists done rest, pass_result facts reg opts res done rest
  | None => alloc_fails al
  end.
Proof.
  intros Hok Hne Ho. pose proof (run_start_lt facts opts Hne) as Hst.
  assert (0 <= run_cand opts) as Hc0.
  { unfold run_cand. destruct opts as [o|]; [|done]. destruct Ho as [? _]. by destruct (negb _). }
  unfold infer_run. rewrite (proj2 (Nat.eqb_neq _ _)) by (by destruct facts).
  fold (run_depth opts) (run_conc opts) (run_cand opts) (run_floor opts) (run_start facts opts).
  pose proof (index_loop_spec al 0 facts pt_empty pt_empty io_empty io_empty Hok) as Hx.
  destruct (index_loop _ _ _ _ _) as [[seen adj]|]; [|done]. destruct Hx as (Ws & Wa & Hs & Hj).
  assert (adj_inv facts adj) as Hadj.
  { intros f Hk. rewrite Hj. destruct (joins_spec [] facts (if_object_id f, if_predicate f)) as [H1 H2]. cbn in H1, H2.
    cbn. by rewrite <- filter_joinable. }
  set (st0 := mkPass _ _ _ _ _).
  assert (run_inv facts (run_depth opts) (run_conc opts) (run_cand opts) (run_floor opts) st0 []) as Hi0.
  { split; cbn; try done. split; cbn; try done.
    - intros k Hk. rewrite Hs. cbn. by rewrite decide_True.
    - intros k Hk. specialize (Hs k). cbn in Hs. rewrite decide_False in Hs by done.
      destruct (pt_get seen k); [done|]. split; [|done]. intros _. apply not_elem_of_nil.
    - intros k s Hk Hg. specialize (Hs k). rewrite Hg in Hs. cbn in Hs. by rewrite decide_False in Hs.
    - lia. }
  pose proof (rule_loop_run al facts reg (run_depth opts) (run_conc opts) (run_cand opts) (run_floor opts) adj
    (run_start facts opts) 0 (length facts) st0 Hadj Hst eq_refl) as Hrun. rewrite drop_0 in Hrun.
  pose proof (run_cands_inv al facts (run_depth opts) (run_conc opts) (run_cand opts) (run_floor opts)
    (all_cands facts reg (run_start facts opts)) st0 [] Hi0 (all_cands_ok _ _ _)) as Hinv.
  unfold all_cands in Hinv. rewrite <- Hrun in Hinv.
  destruct (rule_loop _ _ _ _ _ _ _ _ _ _ _ _) as [[st k']|] eqn:El; [|done]. cbn in Hinv.
  destruct Hinv as (d & rest & Hsp & Hi & Hr & Hn). specialize (Hn eq_refl).
  destruct (rule_loop_scanned _ _ _ _ _ _ _ _ _ _ _ _ _ _ El Hst eq_refl) as (Hk1 & Hk2 & Hk3).
  exists d, rest. destruct Hi as [Hi Ht Hg Hp]. rewrite <- Ht in *.
  split; cbn [ires_items ires_truncated ires_candidates ires_scanned].
  - done.
  - apply Hi.
  - split; [done|]. destruct (pa_truncated st); [|done]. by intros ->; destruct (Hn eq_refl).
  - destruct (pa_truncated st); [destruct (Hp eq_refl)|destruct (Hg eq_refl)]; lia.
  - destruct (pa_truncated st); [destruct (Hp eq_refl)|destruct (Hg eq_refl)]; lia.
  - rewrite (si_items _ _ _ _ _ _ Hi), length_result. apply Hi.
  - intros E. rewrite (si_items _ _ _ _ _ _ Hi), length_result. destruct (Hp E) as (_ & _ & H). done.
  - split; [|done]. specialize (Hk2 eq_refl). assert (0 < length facts)%nat by lia. lia.
Qed.

(** ** What follows from the facts *)

(** A confidence under the floor. *)
Definition floored (floor conf : spec_float) : spec_float := if SFltb conf floor then floor else conf.

(** [derives k r]: a declared rule concludes the triple [k], justified by [r]. *)
Inductive derives (facts : list InferFact) (reg : PredicateRegistry) (max_depth : Z) (floor : spec_float)
  : TripleKey -> InferRoute -> Prop :=
  | derives_symmetric f spec :
      f ∈ facts -> if_kind f = FACT_OBJ_ID ->
      spec ∈ pr_specs reg -> ps_name spec = if_predicate f -> ps_symmetric spec = true ->
      if_depth f < max_depth ->
      derives facts reg max_depth floor (if_object_id f, if_predicate f, inl (if_subject f))
        (mkInferRoute DERIV_SYMMETRIC (if_depth f + 1) [if_record_id f] (floored floor (if_confidence f)))
  | derives_inverse f spec inv :
      f ∈ facts -> if_kind f = FACT_OBJ_ID ->
      spec ∈ pr_specs reg -> ps_name spec = if_predicate f -> ps_inverse_of spec = Some inv ->
      if_depth f < max_depth ->
      derives facts reg max_depth floor (if_object_id f, inv, inl (if_subject f))
        (mkInferRoute DERIV_INVERSE (if_depth f + 1) [if_record_id f] (floored floor (if_confidence f)))
  | derives_transitive f g spec :
      f ∈ facts -> if_kind f = FACT_OBJ_ID -> g ∈ facts -> if_kind g = FACT_OBJ_ID ->
      if_subject g = if_object_id f -> if_predicate g = if_predicate f ->
      spec ∈ pr_specs reg -> ps_name spec = if_predicate f -> ps_transitive spec = true ->
      Z.max (if_depth f) (if_depth g) < max_depth ->
      derives facts reg max_depth floor (if_subject f, if_predicate f, inl (if_object_id g))
        (mkInferRoute DERIV_TRANSITIVE (Z.max (if_depth f) (if_depth g) + 1) [if_record_id f; if_record_id g]
           (floored floor (f32_mul (if_confidence f) (if_confidence g)))).

Section spec.
Context (facts : list InferFact) (reg : PredicateRegistry) (max_depth : Z) (floor : spec_float).
Context (Hreg : strictly_sorted (names reg)) (Hdep : Forall (fun f => 0 <= if_depth f) facts)
  (Hmax : max_depth <= UINT16_MAX).

Lemma cands_of_elem f c :
  c ∈ cands_of facts reg f <->
  if_kind f = FACT_OBJ_ID /\ exists spec, spec ∈ pr_specs reg /\ ps_name spec = if_predicate f /\
  ((ps_symmetric spec = true /\ c = mkCand DERIV_SYMMETRIC f None (id_triple (if_object_id f) (if_predicate f) (if_subject f))) \/
   (exists inv, ps_inverse_of spec = Some inv /\ c = mkCand DERIV_INVERSE f None (id_triple (if_object_id f) inv (if_subject f))) \/
   (ps_transitive spec = true /\ exists g, g ∈ facts /\ joinable f g /\ c = trans_cand f g)).
Proof.
  unfold cands_of. destruct (if_kind f) eqn:Ek; [split; [by intros ?%elem_of_nil|by intros [? _]]| |split; [by intros ?%elem_of_nil|by intros [? _]]].
  destruct (predicate_registry_get reg (if_predicate f)) as [spec|] eqn:Eg.
  - apply registry_get_exact in Eg as [Hin Hn]; [|done]. rewrite !elem_of_app. split.
    + intros Hc. split; [done|]. exists spec. split_and!; try done. destruct Hc as [Hc|[Hc|Hc]].
      * left. destruct (ps_symmetric spec); [|by apply elem_of_nil in Hc]. by apply list_elem_of_singleton in Hc.
      * right. left. destruct (ps_inverse_of spec) as [inv|]; [|by apply elem_of_nil in Hc]. apply list_elem_of_singleton in Hc. eauto.
      * do 2 right. destruct (ps_transitive spec); [|by apply elem_of_nil in Hc]. split; [done|].
        apply list_elem_of_fmap in Hc as (g & -> & Hg). apply list_elem_of_filter in Hg as [Hj Hg]. eauto.
    + intros (_ & spec' & Hin' & Hn' & Hc).
      assert (spec' = spec) as ->.
      { assert (predicate_registry_get reg (if_predicate f) = Some spec) as E1 by (by apply registry_get_exact).
        assert (predicate_registry_get reg (if_predicate f) = Some spec') as E2 by (by apply registry_get_exact). congruence. }
      destruct Hc as [[-> ->]|[(inv & -> & ->)|(-> & g & Hg & Hj & ->)]]; [left; left|right; left; left|].
      do 2 right. apply list_elem_of_fmap. exists g. split; [done|]. by apply list_elem_of_filter.
  - split; [by intros ?%elem_of_nil|]. intros (_ & spec & Hin & Hn & _).
    assert (predicate_registry_get reg (if_predicate f) = Some spec) by (by apply registry_get_exact). congruence.
Qed.

Lemma rotated_perm start : rotated facts start ≡ₚ facts.
Proof. unfold rotated. by rewrite (comm (++)), take_drop. Qed.

Lemma elem_of_concat {A} (ls : list (list A)) x : x ∈ concat ls <-> exists l, x ∈ l /\ l ∈ ls.
Proof.
  rewrite list_elem_of_In, in_concat. setoid_rewrite list_elem_of_In. naive_solver.
Qed.

Lemma all_cands_elem start c :
  c ∈ all_cands facts reg start <-> exists f, f ∈ facts /\ c ∈ cands_of facts reg f.
Proof.
  unfold all_cands. rewrite elem_of_concat. split.
  - intros (l & Hc & Hl). apply list_elem_of_fmap in Hl as (f & -> & Hf). rewrite rotated_perm in Hf. eauto.
  - intros (f & Hf & Hc). eexists. split; [exact Hc|]. apply list_elem_of_fmap. exists f. by rewrite rotated_perm.
Qed.

(** A candidate within the depth limit is a derivation and conversely. *)
Lemma derives_cand start k r :
  derives facts reg max_depth floor k r <->
  exists c, c ∈ all_cands facts reg start /\ cand_deepest floor c < max_depth /\ cd_key c = k /\ placed floor c = r.
Proof.
  rewrite Forall_forall in Hdep. unfold UINT16_MAX in *.
  assert (forall d, 0 <= d -> d < max_depth -> wrap 16 (d + 1) = d + 1) as Hw by (intros; apply wrap_small; split; lia).
  setoid_rewrite all_cands_elem. setoid_rewrite cands_of_elem. split.
  - intros [f spec Hf Hk Hin Hn Hs Hd|f spec inv Hf Hk Hin Hn Hs Hd|f g spec Hf Hk Hg Hkg Hsub Hp Hin Hn Hs Hd].
    + pose proof (Hdep f Hf). exists (mkCand DERIV_SYMMETRIC f None (id_triple (if_object_id f) (if_predicate f) (if_subject f))).
      split; [exists f; split; [done|]; split; [done|]; exists spec; split_and!; try done; by left|].
      unfold cand_deepest, placed. cbn. rewrite Hw by done. done.
    + pose proof (Hdep f Hf). exists (mkCand DERIV_INVERSE f None (id_triple (if_object_id f) inv (if_subject f))).
      split; [exists f; split; [done|]; split; [done|]; exists spec; split_and!; try done; right; left; by exists inv|].
      unfold cand_deepest, placed. cbn. rewrite Hw by done. done.
    + pose proof (Hdep f Hf). pose proof (Hdep g Hg). exists (trans_cand f g).
      assert (joinable f g) by done. split; [exists f; split; [done|]; split; [done|]; exists spec; split_and!; try done; do 2 right; split; [done|]; by exists g|].
      unfold cand_deepest, placed. cbn.
      assert ((if if_depth f <? if_depth g then if_depth g else if_depth f) = Z.max (if_depth f) (if_depth g)) as ->
        by (destruct (Z.ltb_spec (if_depth f) (if_depth g)); lia).
      rewrite Hw by lia. done.
  - intros (c & (f & Hf & Hk & spec & Hin & Hn & Hc) & Hd & <- & <-). pose proof (Hdep f Hf).
    destruct Hc as [[Hs ->]|[(inv & Hs & ->)|(Hs & g & Hg & (Hkg & Hsub & Hp) & ->)]];
      unfold cand_deepest, placed in *; cbn in *.
    + rewrite Hw by done. by eapply derives_symmetric.
    + rewrite Hw by done. by eapply derives_inverse.
    + pose proof (Hdep g Hg).
      assert ((if if_depth f <? if_depth g then if_depth g else if_depth f) = Z.max (if_depth f) (if_depth g)) as E
        by (destruct (Z.ltb_spec (if_depth f) (if_depth g)); lia).
      rewrite E in *. rewrite Hw by lia. by eapply derives_transitive.
Qed.

(** Every route is a rule's. *)
Lemma derives_route_ok k r : derives facts reg max_depth floor k r -> route_ok r.
Proof. by intros [| |]; split; cbn; unfold DERIV_MAX_PREMISES; try lia. Qed.

(** With one fact per record, premises and rule determine the justification of
    a triple. *)
Lemma derives_inj k r r' :
  NoDup (map if_record_id facts) ->
  derives facts reg max_depth floor k r -> derives facts reg max_depth floor k r' -> ir_key r = ir_key r' -> r = r'.
Proof.
  intros Hnd. assert (forall f g, f ∈ facts -> g ∈ facts -> if_record_id f = if_record_id g -> f = g) as Hinj.
  { intros f g Hf Hg E. apply list_elem_of_lookup in Hf as [i Hi], Hg as [j Hj].
    assert (i = j) as ->; [|congruence]. eapply (NoDup_lookup _ i j (if_record_id f) Hnd).
    - by rewrite list_lookup_fmap, Hi.
    - by rewrite list_lookup_fmap, Hj, E. }
  intros H1 H2. destruct H1, H2; unfold ir_key; cbn; intros [= E]; try (by rewrite (Hinj f f0)).
  by rewrite (Hinj f f0), (Hinj g g0).
Qed.
End spec.

Definition ic_key (c : InferConclusion) : TripleKey := triple_key (ic_triple c).

Lemma key_triple_key k : triple_key (key_triple k) = k \/ exists s p o, k = (s, p, inr (FACT_OBJ_ID, o)).
Proof.
  destruct k as [[s p] [o|[[] str]]]; [by left|by left|right; eauto|by left].
Qed.

(** The conclusions of candidates taken from those of the facts. *)
Section result.
Context (facts : list InferFact) (reg : PredicateRegistry) (max_depth : Z) (floor : spec_float).
Context (Hreg : strictly_sorted (names reg)) (Hdep : Forall (fun f => 0 <= if_depth f) facts)
  (Hmax : max_depth <= UINT16_MAX).

Lemma offered_derives start cs k :
  (forall c, c ∈ cs -> c ∈ all_cands facts reg start) ->
  Forall (derives facts reg max_depth floor k) (offered facts max_depth floor cs k).
Proof.
  intros Hsub. apply Forall_forall. intros r Hr. unfold offered in Hr. apply list_elem_of_fmap in Hr as (c & -> & Hc).
  apply list_elem_of_filter in Hc as [[[Hd Hk] <-] Hc]. apply (derives_cand facts reg max_depth floor Hreg Hdep Hmax start).
  exists c. split_and!; try done. by apply Hsub.
Qed.

Lemma concluded_key start cs k :
  (forall c, c ∈ cs -> c ∈ all_cands facts reg start) -> k ∈ concluded facts max_depth floor cs ->
  triple_key (key_triple k) = k /\ k ∉ fkeys facts /\ (0 < length (offered facts max_depth floor cs k))%nat.
Proof.
  intros Hsub Hk. apply concluded_spec in Hk as (c & Hc & Ha & <-).
  pose proof (all_cands_ok facts reg start) as Hok. rewrite Forall_forall in Hok.
  destruct (cand_ok_key c (Hok c (Hsub c Hc))) as [_ ->]. split; [done|]. split; [apply Ha|].
  assert (placed floor c ∈ offered facts max_depth floor cs (cd_key c)) as Hin.
  { unfold offered. apply list_elem_of_fmap. exists c. split; [done|]. by apply list_elem_of_filter. }
  destruct (offered _ _ _ _ _); [by apply elem_of_nil in Hin|cbn; lia].
Qed.

(** What a conclusion holds. *)
Lemma conclusion_spec start cs k :
  (forall c, c ∈ cs -> c ∈ all_cands facts reg start) -> k ∈ concluded facts max_depth floor cs ->
  let c := conclusion facts max_depth floor cs k in
  ic_key c = k /\ k ∉ fkeys facts /\ (0 < length (ic_routes c) <= DERIV_MAX_ROUTES)%nat /\
  strictly_sorted (map ir_key (ic_routes c)) /\
  (forall r, r ∈ ic_routes c -> derives facts reg max_depth floor k r) /\
  (forall r, r ∈ offered facts max_depth floor cs k ->
     ir_key r ∈ map ir_key (ic_routes c) \/
     (length (ic_routes c) = DERIV_MAX_ROUTES /\ forall r', r' ∈ ic_routes c -> ltb (ir_key r') (ir_key r) = true)).
Proof.
  intros Hsub Hk c. destruct (concluded_key start cs k Hsub Hk) as (Hkk & Hf & Hlen).
  pose proof (offered_derives start cs k Hsub) as Hder. set (l := offered facts max_depth floor cs k) in *.
  assert (Forall route_ok l) as Hok by (eapply Forall_impl; [exact Hder|intros r; apply derives_route_ok]).
  destruct (kept_spec l Hok) as [Hks He]. assert (strictly_sorted ([] : list RouteKey)) as Hnil by constructor.
  destruct (foldl_key_insert (map ir_key l) [] Hnil) as [Hs Hel]. set (ks := foldl key_insert [] (map ir_key l)) in *.
  cbn [c conclusion ic_routes ic_triple ic_key]. unfold ic_key. cbn [ic_triple conclusion]. fold l.
  assert (length (kept l) = Nat.min DERIV_MAX_ROUTES (length ks)) as Hlk.
  { rewrite <- (length_map ir_key), Hks. apply length_take. }
  assert (0 < length ks)%nat as Hks0.
  { destruct l as [|r l']; [cbn in Hlen; lia|]. assert (ir_key r ∈ ks) as Hin by (apply Hel; left; left).
    destruct ks; [by apply elem_of_nil in Hin|cbn; lia]. }
  split_and!; try done; unfold DERIV_MAX_ROUTES in *; try (rewrite ?Hlk; lia).
  - rewrite Hks. by apply sorted_take.
  - intros r Hr. rewrite Forall_forall in Hder. by apply Hder, He.
  - intros r Hr. assert (ir_key r ∈ ks) as Hin by (apply Hel; left; apply list_elem_of_fmap; eauto).
    rewrite Hks. rewrite <- (take_drop 4 ks) in Hin. apply elem_of_app in Hin as [Hin|Hin]; [by left|right]. split.
    + rewrite Hlk. assert (4 < length ks)%nat; [|lia]. destruct (decide (4 < length ks)%nat); [done|].
      rewrite drop_ge in Hin by lia. by apply elem_of_nil in Hin.
    + intros r' Hr'. assert (ir_key r' ∈ take 4 ks) as Hin' by (rewrite <- Hks; apply list_elem_of_fmap; eauto).
      rewrite <- (take_drop 4 ks) in Hs. by apply (StronglySorted_app_1_elem_of lt_rel _ _ _ _ Hs Hin' Hin).
Qed.
End result.

Lemma result_elem facts d fl cs c :
  c ∈ result facts d fl cs <-> exists k, k ∈ concluded facts d fl cs /\ c = conclusion facts d fl cs k.
Proof. unfold result. rewrite list_elem_of_fmap. naive_solver. Qed.

Lemma derives_depth facts reg max_depth floor k r :
  Forall (fun f => 0 <= if_depth f) facts -> derives facts reg max_depth floor k r -> 1 <= ir_depth r <= max_depth.
Proof. intros Hd [f ? Hf|f ? ? Hf|f g ? Hf]; rewrite Forall_forall in Hd; pose proof (Hd f Hf); cbn; lia. Qed.

Lemma run_depth_ok opts : opts_ok opts -> run_depth opts <= UINT16_MAX.
Proof. unfold run_depth, opts_ok, UINT16_MAX. destruct opts as [o|]; [|done]. case_if; [lia|done]. Qed.

(** C26: Whatever allocations fail and whichever cap stops it, what an inference
    pass returns is sound and within its bounds. Every conclusion is a new
    triple, none twice, with one to four justifications in order, each of
    which is an application of a declared rule to facts of the snapshot with
    the depth and confidence that rule gives it, no deeper than the limit. It
    draws no more conclusions than its cap, counts at most one candidate past
    its budget, and always consumes at least one fact. *)
Theorem infer_run_sound al facts reg opts res :
  Forall fact_ok facts -> Forall (fun f => 0 <= if_depth f) facts -> facts <> [] ->
  opts_ok opts -> strictly_sorted (names reg) ->
  infer_run al facts (Some reg) opts = Some res ->
  NoDup (map ic_key (ires_items res)) /\
  (forall c, c ∈ ires_items res ->
     ic_key c ∉ fkeys facts /\ (0 < length (ic_routes c) <= DERIV_MAX_ROUTES)%nat /\
     strictly_sorted (map ir_key (ic_routes c)) /\
     ic_confidence c = conclusion_confidence (ic_routes c) /\
     forall r, r ∈ ic_routes c ->
       derives facts reg (run_depth opts) (run_floor opts) (ic_key c) r /\ 1 <= ir_depth r <= run_depth opts) /\
  (run_conc opts <> 0%nat -> (length (ires_items res) <= run_conc opts)%nat) /\
  ires_candidates res <= run_cand opts + 1 /\ (0 < ires_scanned res <= length facts)%nat.
Proof.
  intros Hok Hd Hne Ho Hreg E. pose proof (infer_run_pass al facts reg opts Hok Hne Ho) as Hp. rewrite E in Hp.
  destruct Hp as (done & rest & [Hsp Hit _ _ Hcap Hconc _ [Hsc _]]). rewrite Hit in *.
  assert (forall c, c ∈ done -> c ∈ all_cands facts reg (run_start facts opts)) as Hsub by (rewrite Hsp; set_solver).
  pose proof (fun k => conclusion_spec facts reg _ (run_floor opts) Hreg Hd (run_depth_ok _ Ho) _ done k Hsub) as Hspec.
  split_and!; [| |lia| |lia|lia].
  - assert (map ic_key (result facts (run_depth opts) (run_floor opts) done)
      = concluded facts (run_depth opts) (run_floor opts) done) as ->; [|apply concluded_spec].
    unfold result. rewrite map_map. etransitivity; [|apply map_id]. apply map_ext_in. intros k Hin.
    apply list_elem_of_In in Hin. by destruct (Hspec k Hin).
  - intros c Hc. apply result_elem in Hc as (k & Hk & ->). destruct (Hspec k Hk) as (-> & Hf & Hlen & Hs & Hder & _).
    split_and!; try done; try lia. intros r Hr. split; [by apply Hder|]. eapply derives_depth; [done|by apply Hder].
  - destruct (ires_truncated res); lia.
Qed.

(** ** Order *)

Lemma all_cands_perm facts facts' reg start :
  facts ≡ₚ facts' -> all_cands facts reg start ≡ₚ concat (map (cands_of facts reg) facts').
Proof.
  intros Hp. unfold all_cands. rewrite <- !flat_map_concat_map. apply Permutation_flat_map. by rewrite rotated_perm.
Qed.

Lemma cands_of_perm facts facts' reg f : facts ≡ₚ facts' -> cands_of facts reg f ≡ₚ cands_of facts' reg f.
Proof.
  intros Hp. unfold cands_of. destruct (if_kind f); try done. destruct (predicate_registry_get _ _) as [spec|]; [|done].
  do 2 apply Permutation_app_head. destruct (ps_transitive spec); [|done]. apply Permutation_map. by rewrite Hp.
Qed.

Lemma concat_map_perm {A B} (f g : A -> list B) l :
  (forall x, f x ≡ₚ g x) -> concat (map f l) ≡ₚ concat (map g l).
Proof. intros Hfg. induction l as [|x l IH]; cbn; [done|]. by rewrite IH, Hfg. Qed.

Lemma all_cands_same facts facts' reg start start' :
  facts ≡ₚ facts' -> all_cands facts reg start ≡ₚ all_cands facts' reg start'.
Proof.
  intros Hp. rewrite (all_cands_perm facts facts' reg start Hp), (all_cands_perm facts' facts' reg start') by done.
  apply concat_map_perm. intros f. by apply cands_of_perm.
Qed.

Lemma offered_perm facts facts' d fl cs cs' k :
  facts ≡ₚ facts' -> cs ≡ₚ cs' -> offered facts d fl cs k ≡ₚ offered facts' d fl cs' k.
Proof.
  intros Hf Hc. unfold offered. apply Permutation_map. rewrite Hc.
  rewrite (list_filter_iff (fun c => accepted facts d fl c /\ cd_key c = k) (fun c => accepted facts' d fl c /\ cd_key c = k)); [done|].
  intros c. unfold accepted, fkeys. by rewrite (Permutation_map _ Hf).
Qed.

Lemma concluded_perm facts facts' d fl cs cs' :
  facts ≡ₚ facts' -> cs ≡ₚ cs' -> concluded facts d fl cs ≡ₚ concluded facts' d fl cs'.
Proof.
  intros Hf Hc. destruct (concluded_spec facts d fl cs) as [N1 E1], (concluded_spec facts' d fl cs') as [N2 E2].
  apply NoDup_Permutation; [done|done|]. intros k. rewrite E1, E2. setoid_rewrite Hc.
  unfold accepted, fkeys. by setoid_rewrite (Permutation_map _ Hf).
Qed.

(** With one fact per record, a pass that no cap cut short returns the same
    conclusions, with the same justifications and confidences, whatever the
    order of the facts and wherever the scan starts. *)
Theorem infer_run_order_independent al al' facts facts' reg opts opts' res res' :
  facts ≡ₚ facts' -> NoDup (map if_record_id facts) ->
  Forall fact_ok facts -> Forall (fun f => 0 <= if_depth f) facts -> facts <> [] ->
  opts_ok opts -> opts_ok opts' -> strictly_sorted (names reg) ->
  run_depth opts = run_depth opts' -> run_floor opts = run_floor opts' ->
  infer_run al facts (Some reg) opts = Some res -> infer_run al' facts' (Some reg) opts' = Some res' ->
  ires_truncated res = false -> ires_truncated res' = false ->
  ires_items res ≡ₚ ires_items res'.
Proof.
  intros Hp Hnd Hok Hd Hne Ho Ho' Hreg Ed Ef E E' Ht Ht'.
  assert (Forall fact_ok facts') as Hok' by (by rewrite <- Hp).
  assert (facts' <> []) as Hne' by (intros ->; by apply Permutation_nil_r in Hp).
  pose proof (infer_run_pass al facts reg opts Hok Hne Ho) as H1. rewrite E in H1.
  pose proof (infer_run_pass al' facts' reg opts' Hok' Hne' Ho') as H2. rewrite E' in H2.
  destruct H1 as (d1 & r1 & [S1 I1 A1 _ _ _ _ _]), H2 as (d2 & r2 & [S2 I2 A2 _ _ _ _ _]).
  rewrite (proj1 A1 Ht), app_nil_r in S1. rewrite (proj1 A2 Ht'), app_nil_r in S2. rewrite I1, I2, <- Ed, <- Ef. clear E E' I1 I2.
  assert (d1 ≡ₚ d2) as Hcs by (rewrite <- S1, <- S2; by apply all_cands_same).
  unfold result. rewrite (concluded_perm facts facts' _ _ d1 d2) by done.
  erewrite map_ext_in; [reflexivity|]. intros k Hk. apply list_elem_of_In in Hk.
  assert (kept (offered facts (run_depth opts) (run_floor opts) d1 k)
    = kept (offered facts' (run_depth opts) (run_floor opts) d2 k)) as Hkept.
  { pose proof (offered_derives facts reg _ (run_floor opts) Hreg Hd (run_depth_ok _ Ho) (run_start facts opts) d1 k) as Hder.
    specialize (Hder ltac:(by rewrite S1)). apply kept_perm; [by apply offered_perm| |].
    - eapply Forall_impl; [exact Hder|]. intros r. apply derives_route_ok.
    - rewrite Forall_forall in Hder. intros r r' Hr Hr'. apply (derives_inj facts reg (run_depth opts) (run_floor opts) k); auto. }
  unfold conclusion. by rewrite Hkept.
Qed.

(** C27: When memory suffices, the output is not capped and the candidates fit
    the budget, a pass runs to the end and is complete: every triple a
    declared rule concludes is already a fact or is among its conclusions,
    and each justification is recorded with it unless four lower ones are. *)
Theorem infer_run_complete al facts reg opts :
  (forall n, ia_seen al n = true /\ ia_adj al n = true /\ ia_idx al n = true /\ ia_out al n = true) ->
  Forall fact_ok facts -> Forall (fun f => 0 <= if_depth f) facts -> facts <> [] ->
  opts_ok opts -> strictly_sorted (names reg) -> NoDup (map if_record_id facts) ->
  run_conc opts = 0%nat -> Z.of_nat (length (all_cands facts reg 0)) <= run_cand opts ->
  exists res, infer_run al facts (Some reg) opts = Some res /\
    ires_truncated res = false /\ ires_scanned res = length facts /\
    ires_candidates res = Z.of_nat (length (all_cands facts reg 0)) /\
    forall k r, derives facts reg (run_depth opts) (run_floor opts) k r -> k ∉ fkeys facts ->
      exists c, c ∈ ires_items res /\ ic_key c = k /\
        (r ∈ ic_routes c \/
         length (ic_routes c) = DERIV_MAX_ROUTES /\ forall r', r' ∈ ic_routes c -> ltb (ir_key r') (ir_key r) = true).
Proof.
  intros Hal Hok Hd Hne Ho Hreg Hnd Hconc Hcand. pose proof (infer_run_pass al facts reg opts Hok Hne Ho) as Hp.
  destruct (infer_run al facts (Some reg) opts) as [res|]; [|destruct Hp as (n & [?|[?|[?|?]]]); destruct (Hal n) as (? & ? & ? & ?); congruence].
  exists res. split; [done|]. destruct Hp as (d & rest & [Hsp Hit Hall Hcnt Hcap _ Hwhy [Hsc Hsca]]).
  pose proof (Permutation_length (all_cands_same facts facts reg (run_start facts opts) 0 ltac:(done))) as Hlen.
  assert (length d <= length (all_cands facts reg 0))%nat as Hdl by (rewrite <- Hlen, Hsp, length_app; lia).
  assert (ires_truncated res = false) as Ht.
  { apply Hall. destruct (ires_truncated res); [|by apply Hall]. destruct (Hwhy eq_refl) as [H|[H _]]; [|done].
    rewrite Hsp, length_app in Hlen. apply nil_length_inv. lia. }
  rewrite (proj1 Hall Ht), app_nil_r in Hsp. rewrite Ht in Hcnt. rewrite Hsp in Hlen. split_and!; [done|auto|lia|].
  intros k r Hder Hf. pose proof (derives_inj facts reg (run_depth opts) (run_floor opts) k) as Hinj.
  pose proof Hder as Hder0. apply (derives_cand facts reg _ _ Hreg Hd (run_depth_ok _ Ho) (run_start facts opts)) in Hder as (c & Hc & Hdeep & Hk & Hpl).
  assert (accepted facts (run_depth opts) (run_floor opts) c) as Ha by (split; [done|by rewrite Hk]).
  rewrite Hsp in Hc. assert (k ∈ concluded facts (run_depth opts) (run_floor opts) d) as Hin by (apply concluded_spec; eauto).
  exists (conclusion facts (run_depth opts) (run_floor opts) d k). rewrite Hit. split; [apply result_elem; eauto|].
  destruct (conclusion_spec facts reg _ (run_floor opts) Hreg Hd (run_depth_ok _ Ho) (run_start facts opts) d k) as (Hkey & _ & _ & _ & Hrd & Hlow); [by rewrite Hsp|done|].
  split; [done|]. destruct (Hlow r) as [Hl|Hl]; [| |by right].
  - unfold offered. apply list_elem_of_fmap. exists c. split; [done|]. apply list_elem_of_filter. done.
  - left. apply list_elem_of_fmap in Hl as (r' & Hkr & Hr'). by rewrite (Hinj r r' Hnd Hder0 (Hrd r' Hr') Hkr).
Qed.

(** ** Examples *)

Definition al_ok : InferAlloc := mkInferAlloc (fun _ => true) (fun _ => true) (fun _ => true) (fun _ => true).
Definition S_part : list Z := [112; 97; 114; 116].
Definition S_has : list Z := [104; 97; 115].
Definition S_sib : list Z := [115; 105; 98].
Definition half : spec_float := f32_of_bits 0x3F000000.

Definition id_fact (rid s : Z) (p : list Z) (o : Z) : InferFact := mkInferFact rid s p FACT_OBJ_ID o None 0 half.

Definition ex_facts : list InferFact :=
  [id_fact 10 1 S_part 2; id_fact 11 2 S_part 3; id_fact 12 2 S_part 4; id_fact 13 5 S_sib 6;
   mkInferFact 14 1 [97; 103; 101] FACT_OBJ_STRING 0 (Some [55]) 0 half; id_fact 15 1 S_part 7; id_fact 16 7 S_part 3].

Lemma ex_facts_ok : Forall fact_ok ex_facts /\ Forall (fun f => 0 <= if_depth f) ex_facts /\
  NoDup (map if_record_id ex_facts).
Proof.
  split; [|split].
  - repeat (constructor; [intros Hk; cbn in *; (done || eauto)|]). constructor.
  - repeat (constructor; [done|]). constructor.
  - apply (bool_decide_unpack _). by vm_compute.
Qed.

Lemma ex_registry_sorted : strictly_sorted (names ex_registry).
Proof. repeat constructor. Qed.

Lemma ex_run : exists res, infer_run al_ok ex_facts (Some ex_registry) None = Some res /\
  ires_truncated res = false /\
  map (fun c => (ic_key c, map ir_premises (ic_routes c))) (ires_items res)
  = [((2, S_has, inl 1), [[10]]); ((1, S_part, inl 3), [[10; 11]; [15; 16]]); ((1, S_part, inl 4), [[10; 12]]);
     ((3, S_has, inl 2), [[11]]); ((4, S_has, inl 2), [[12]]); ((6, S_sib, inl 5), [[13]]); ((7, S_has, inl 1), [[15]]);
     ((3, S_has, inl 7), [[16]])].
Proof. eexists. split; [vm_compute; reflexivity|]. split; vm_compute; reflexivity. Qed.

Lemma infer_run_sound_witness :
  exists res, infer_run al_ok ex_facts (Some ex_registry) None = Some res /\ NoDup (map ic_key (ires_items res)).
Proof.
  destruct ex_run as (res & E & _). exists res. split; [exact E|]. destruct ex_facts_ok as (H1 & H2 & _).
  apply (infer_run_sound al_ok ex_facts ex_registry None res H1 H2 ltac:(discriminate) I ex_registry_sorted E).
Defined.

Definition ex_rotated : option InferOpts := Some (mkInferOpts 0 0 0 9 (S754_zero false)).

Lemma ex_runs : exists res res', infer_run al_ok ex_facts (Some ex_registry) None = Some res /\
  infer_run al_ok (reverse ex_facts) (Some ex_registry) ex_rotated = Some res' /\
  ires_truncated res = false /\ ires_truncated res' = false /\ ires_items res <> ires_items res'.
Proof.
  eexists _, _. split; [vm_compute; reflexivity|]. split; [vm_compute; reflexivity|].
  split; [reflexivity|]. split; [reflexivity|]. discriminate.
Qed.

Lemma infer_run_order_independent_witness :
  exists res res', infer_run al_ok ex_facts (Some ex_registry) None = Some res /\
    infer_run al_ok (reverse ex_facts) (Some ex_registry) ex_rotated = Some res' /\
    ires_items res <> ires_items res' /\ ires_items res ≡ₚ ires_items res'.
Proof.
  destruct ex_runs as (res & res' & E & E' & Ht & Ht' & Hne). exists res, res'.
  split; [exact E|]. split; [exact E'|]. split; [exact Hne|]. destruct ex_facts_ok as (H1 & H2 & H3).
  apply (infer_run_order_independent al_ok al_ok ex_facts (reverse ex_facts) ex_registry None ex_rotated res res'
    (symmetry (reverse_Permutation ex_facts)) H3 H1 H2 ltac:(discriminate) I ltac:(vm_compute; repeat split; discriminate)
    ex_registry_sorted eq_refl eq_refl E E' Ht Ht').
Defined.

Lemma infer_run_complete_witness :
  exists res, infer_run al_ok ex_facts (Some ex_registry) None = Some res /\ ires_truncated res = false /\
    ires_candidates res = 9.
Proof.
  destruct ex_facts_ok as (H1 & H2 & H3).
  assert (Z.of_nat (length (all_cands ex_facts ex_registry 0)) = 9) as Hn by (vm_compute; reflexivity).
  assert (Z.of_nat (length (all_cands ex_facts ex_registry 0)) <= run_cand None) as Hle by (rewrite Hn; done).
  destruct (infer_run_complete al_ok ex_facts ex_registry None (fun _ => conj eq_refl (conj eq_refl (conj eq_refl eq_refl)))
    H1 H2 ltac:(discriminate) I ex_registry_sorted H3 eq_refl Hle) as (res & E & Ht & _ & Hc & _).
  exists res. split; [exact E|]. split; [exact Ht|]. rewrite Hc. exact Hn.
Defined.

(** ** The budget *)

Definition trans_registry : PredicateRegistry := mkRegistry [mkPredSpec S_part PRED_OBJ_ID false false true None []].
Definition budget (start : nat) : option InferOpts := Some (mkInferOpts 0 0 1 start (S754_zero false)).

Lemma infer_run_start al facts reg d c m start fl :
  infer_run al facts (Some reg) (Some (mkInferOpts d c m start fl))
  = infer_run al facts (Some reg) (Some (mkInferOpts d c m (start mod length facts) fl)).
Proof.
  unfold infer_run. destruct (length facts =? 0)%nat eqn:E; [done|]. cbn [io_start_index io_max_depth io_max_conclusions
    io_max_candidates io_confidence_floor]. zbool. by rewrite Nat.Div0.mod_mod.
Qed.

(** A budgeted pass can leave a conclusion undrawn for ever. A fact with more
    join partners than the candidate budget is cut at the same partner by
    every pass, wherever the scan starts, before and after the conclusion it
    does reach has been written: the start rotates over facts, and a fact
    that is cut is resumed at its first partner. *)
Theorem infer_budget_starves start :
  let f1 := id_fact 10 1 S_part 2 in let f2 := id_fact 11 2 S_part 3 in let f3 := id_fact 12 2 S_part 4 in
  let drawn := mkInferFact 20 1 S_part FACT_OBJ_ID 3 None 1 half in
  let misses facts :=
    match infer_run al_ok facts (Some trans_registry) (budget start) with
    | Some res => ires_truncated res && bool_decide ((1, S_part, inl 4) ∉ map ic_key (ires_items res))
    | None => false
    end = true in
  (exists r, derives [f1; f2; f3] trans_registry INFER_DEFAULT_MAX_DEPTH INFER_DEFAULT_CONFIDENCE_FLOOR (1, S_part, inl 4) r) /\
  misses [f1; f2; f3] /\ misses [f1; f2; f3; drawn].
Proof.
  intros f1 f2 f3 drawn misses. split.
  { eexists. apply (derives_transitive [f1; f2; f3] trans_registry _ _ f1 f3 (mkPredSpec S_part PRED_OBJ_ID false false true None [])).
    all: first [done | left | right; right; left]. }
  unfold misses, budget. split; rewrite infer_run_start; cbn [length].
  - pose proof (Nat.mod_upper_bound start 3 ltac:(lia)) as Hlt. destruct (start mod 3)%nat as [|[|[|?]]]; [| | |lia].
    all: vm_compute; reflexivity.
  - pose proof (Nat.mod_upper_bound start 4 ltac:(lia)) as Hlt. destruct (start mod 4)%nat as [|[|[|[|?]]]]; [| | | |lia].
    all: vm_compute; reflexivity.
Qed.
