(* ===== verification/Conflicts.v ===== *)
(** * Contradictions

    The bounded list of contradicting pairs ([src/query/conflict_set.c]) and
    the scan that fills it ([find_conflicts] of [src/query/qe_infer.c]): two
    values of a single-valued predicate, or two predicates the registry
    declares exclusive, about one subject. The edges the scan asks for
    ([note_conflict]) are the list of pairs it is called with. *)

From S2P Require Import Prelude SortedArray Record StrTable Intern ProbeTable FactIndex Floats Json Registry.

Definition CONFLICT_PREDICATE_MAX : nat := 64.
Definition CONFLICT_NS_MAX : nat := 128.
Definition CONFLICT_REASON_MAX : nat := 15.
Definition CONFLICT_SET_MAX : nat := 1024.

Record ConflictPair := mkConflictPair {
  cp_a : Z; cp_b : Z; cp_ns : list Z; cp_predicate_a : list Z; cp_predicate_b : list Z; cp_reason : list Z
}.

Record ConflictSet := mkConflictSet { cs_items : list ConflictPair; cs_truncated : bool }.

Definition conflict_set_create (ok : bool) : option ConflictSet := if ok then Some (mkConflictSet [] false) else None.
Definition conflict_set_clear (cs : ConflictSet) : ConflictSet := mkConflictSet [] false.

(** A fixed field of [dstsz] bytes with its terminator. *)
Definition copy_bounded (dstsz : nat) (src : option (list Z)) : list Z := take (dstsz - 1) (default [] src).

(** The set and the result 0, 1 or -1; [None] is no set. *)
Definition conflict_set_add (cs : option ConflictSet) (a b : Z) (ns predicate_a predicate_b reason : option (list Z))
  : option ConflictSet * Z :=
  match cs with
  | None => (None, -1)
  | Some s =>
      if (a =? 0) || (b =? 0) || (a =? b) then (cs, -1)
      else
        let '(a, b, predicate_a, predicate_b) :=
          if b <? a then (b, a, predicate_b, predicate_a) else (a, b, predicate_a, predicate_b) in
        if existsb (fun p => (cp_a p =? a) && (cp_b p =? b)) (cs_items s) then (cs, 1)
        else if (CONFLICT_SET_MAX <=? length (cs_items s))%nat then (Some (mkConflictSet (cs_items s) true), -1)
        else
          (Some (mkConflictSet
                   (cs_items s ++ [mkConflictPair a b (copy_bounded (CONFLICT_NS_MAX + 1) ns)
                                     (copy_bounded (CONFLICT_PREDICATE_MAX + 1) predicate_a)
                                     (copy_bounded (CONFLICT_PREDICATE_MAX + 1) predicate_b)
                                     (copy_bounded (CONFLICT_REASON_MAX + 1) reason)])
                   (cs_truncated s)), 0)
  end.

Definition conflict_set_count (cs : option ConflictSet) : nat := match cs with Some s => length (cs_items s) | None => 0%nat end.
Definition conflict_set_truncated (cs : option ConflictSet) : bool := match cs with Some s => cs_truncated s | None => false end.

(** The pairs copied out and how many matched; [have_out] is a non-NULL
    buffer. *)
Definition conflict_set_list (cs : option ConflictSet) (ns : option (list Z)) (have_out : bool) (max : nat)
  : list ConflictPair * nat :=
  match cs with
  | None => ([], 0%nat)
  | Some s =>
      if (0 <? max)%nat && negb have_out then ([], 0%nat)
      else
        let matched :=
          match ns with
          | None | Some [] => cs_items s
          | Some ns => filter (fun p => cp_ns p = ns) (cs_items s)
          end in
        (take max matched, length matched)
  end.

(** ** The scan *)

(** A loaded record: its id and its fact. *)
Record CFact := mkCFact { cf_id : Z; cf_fact : Fact }.

Definition cf_pred (x : CFact) : list Z := default [] (fa_predicate (cf_fact x)).
Definition cf_subject (x : CFact) : Z := fa_subject (cf_fact x).

Definition cmp_subject_pred (x y : CFact) : Z :=
  if negb (cf_subject x =? cf_subject y) then (if cf_subject x <? cf_subject y then -1 else 1)
  else
    let c := strcmp (cf_pred x) (cf_pred y) in
    if negb (c =? 0) then c
    else (if cf_id y <? cf_id x then 1 else 0) - (if cf_id x <? cf_id y then 1 else 0).

Definition sp_le : relation CFact := fun x y => cmp_subject_pred x y <= 0.
#[global] Instance sp_le_dec : RelDecision sp_le.
Proof. intros x y. unfold sp_le. apply _. Defined.

Definition objects_differ (a b : Fact) : bool :=
  if negb (bool_decide (fa_kind a = fa_kind b)) then true
  else match fa_kind a with
       | FACT_OBJ_ID => negb (fa_object_id a =? fa_object_id b)
       | _ =>
           match fa_object_str a, fa_object_str b with
           | Some x, Some y => negb (bool_decide (x = y))
           | _, _ => true
           end
       end.

Definition mutually_exclusive (a b : PredicateSpec) : bool :=
  existsb (fun m => bool_decide (m = ps_name b)) (ps_mutex_with a)
  || existsb (fun m => bool_decide (m = ps_name a)) (ps_mutex_with b).

Definition CONFLICT_MAX_PER_SUBJECT : nat := 256.

(** Consecutive elements that agree. *)
Fixpoint group_runs {A} (same : A -> A -> bool) (l : list A) : list (list A) :=
  match l with
  | [] => []
  | x :: l' =>
      match group_runs same l' with
      | (y :: r) :: gs => if same x y then (x :: y :: r) :: gs else [x] :: (y :: r) :: gs
      | gs => [x] :: gs
      end
  end.

Inductive Reason := Cardinality | MutexWith.
#[global] Instance Reason_eq_dec : EqDecision Reason.
Proof. solve_decision. Defined.

Definition S_cardinality : list Z := [99; 97; 114; 100; 105; 110; 97; 108; 105; 116; 121].
Definition S_mutex_with : list Z := [109; 117; 116; 101; 120; 95; 119; 105; 116; 104].
Definition reason_text (r : Reason) : list Z := match r with Cardinality => S_cardinality | MutexWith => S_mutex_with end.

Section scan.
Context (reg : PredicateRegistry).

(** The pairs of one predicate of one subject: its first record against each
    that differs. *)
Definition cardinality_pairs (run : list CFact) : list (CFact * CFact * Reason) :=
  match run with
  | [] => []
  | x :: rest =>
      match predicate_registry_get reg (cf_pred x) with
      | Some spec =>
          if ps_single_valued spec then
            map (fun y => (x, y, Cardinality)) (filter (fun y => objects_differ (cf_fact x) (cf_fact y) = true) rest)
          else []
      | None => []
      end
  end.

(** The exclusive pairs of one subject. *)
Definition exclusive (x y : CFact) : bool :=
  match predicate_registry_get reg (cf_pred x), predicate_registry_get reg (cf_pred y) with
  | Some sx, Some sy => mutually_exclusive sx sy
  | _, _ => false
  end.

Fixpoint mutex_pairs (run : list CFact) : list (CFact * CFact * Reason) :=
  match run with
  | [] => []
  | x :: rest => map (fun y => (x, y, MutexWith)) (filter (fun y => exclusive x y = true) rest) ++ mutex_pairs rest
  end.

Definition subject_pairs (run : list CFact) : list (CFact * CFact * Reason) :=
  if (CONFLICT_MAX_PER_SUBJECT <? length run)%nat then []
  else
    concat (map cardinality_pairs (group_runs (fun x y => strcmp (cf_pred x) (cf_pred y) =? 0) run))
    ++ mutex_pairs run.

(** The facts in scan order. *)
Definition scan_order (facts : list CFact) : list CFact :=
  merge_sort sp_le (filter (fun x => fa_kind (cf_fact x) <> FACT_NONE /\ fa_predicate (cf_fact x) <> None) facts).

Definition scan_pairs (facts : list CFact) : list (CFact * CFact * Reason) :=
  concat (map subject_pairs (group_runs (fun x y => cf_subject x =? cf_subject y) (scan_order facts))).

(** What reporting one pair does: the set, the count and the edges asked for. *)
Definition report (ns : list Z) (st : option ConflictSet * nat * list (CFact * CFact)) (p : CFact * CFact * Reason)
  : option ConflictSet * nat * list (CFact * CFact) :=
  let '(cs, found, notes) := st in
  let '(x, y, why) := p in
  let '(cs, rc) := conflict_set_add cs (cf_id x) (cf_id y) (Some ns) (Some (cf_pred x)) (Some (cf_pred y))
                     (Some (reason_text why)) in
  if rc =? 1 then (cs, found, notes) else (cs, S found, notes ++ [(x, y)]).

(** [ok] is the allocation of the sort array. *)
Definition find_conflicts (ok : bool) (facts : list CFact) (ns : list Z) (cs : option ConflictSet)
  : option ConflictSet * nat * list (CFact * CFact) :=
  if negb ok then (cs, 0%nat, []) else foldl (report ns) (cs, 0%nat, []) (scan_pairs facts).
End scan.

(** ** Runs of a sorted list *)

Section runs.
Context {A K : Type} `{EqDecision K} (key : A -> K) (same : A -> A -> bool).
Context (same_key : forall x y, same x y = true <-> key x = key y).

(** Equal keys sit together. *)
Fixpoint clustered (l : list A) : Prop :=
  match l with
  | [] => True
  | x :: l' => clustered l' /\ (forall y, y ∈ l' -> key y = key x -> exists z l'', l' = z :: l'' /\ key z = key x)
  end.

Lemma clustered_sorted (R : relation A) l :
  StronglySorted R l ->
  (forall x z y, x ∈ l -> z ∈ l -> y ∈ l -> R x z -> R z y -> key x = key y -> key z = key x) ->
  clustered l.
Proof.
  induction 1 as [|x l Hs IH Hf]; intros Hi; cbn; [done|]. split.
  { apply IH. intros a z y Ha Hz Hy. apply Hi; by right. }
  intros y Hy Hk. destruct l as [|z l'']; [by apply elem_of_nil in Hy|]. exists z, l''. split; [done|].
  apply elem_of_cons in Hy as [->|Hy]; [done|].
  inversion_clear Hs as [|? ? _ Hz]. rewrite Forall_forall in Hz, Hf.
  eapply (Hi x z y); [left|by right; left|by right; right|apply Hf; left|by apply Hz|done].
Qed.

Lemma group_runs_concat l : concat (group_runs same l) = l.
Proof.
  induction l as [|x l IH]; cbn; [done|]. destruct (group_runs same l) as [|[|y r] gs]; cbn in *.
  - by rewrite <- IH.
  - by rewrite <- IH.
  - case_if; cbn; by rewrite <- IH.
Qed.

Lemma group_runs_nonempty l : Forall (fun g => g <> []) (group_runs same l).
Proof.
  induction l as [|x l IH]; cbn; [done|]. destruct (group_runs same l) as [|[|y r] gs].
  - by repeat constructor.
  - by inversion IH.
  - inversion_clear IH. case_if; repeat constructor; done.
Qed.

Lemma group_runs_in l x : x ∈ l -> exists g, g ∈ group_runs same l /\ x ∈ g.
Proof.
  rewrite <- (group_runs_concat l) at 1. rewrite list_elem_of_In, in_concat.
  intros (g & Hg & Hx). exists g. by rewrite !list_elem_of_In.
Qed.

(** The first run takes every element of its key. *)
Lemma first_run_rest (y : A) r gs l :
  y :: r = filter (fun v => key v = key y) l -> l = (y :: r) ++ gs -> Forall (fun v => key v <> key y) gs.
Proof.
  intros E ->. assert (Forall (fun v => key v = key y) (y :: r)) as Hyr.
  { rewrite E. apply Forall_forall. intros v Hv. by apply list_elem_of_filter in Hv as []. }
  rewrite filter_app, (filter_all _ (y :: r) Hyr) in E. apply Forall_forall. intros v Hv Hk.
  assert (v ∈ filter (fun v => key v = key y) gs) as Hin by (by apply list_elem_of_filter).
  apply (f_equal length) in E. rewrite length_app in E.
  destruct (filter _ gs); [by apply elem_of_nil in Hin|]. cbn in E. lia.
Qed.

(** A run is all the elements of its key. *)
Lemma group_runs_filter l g :
  clustered l -> g ∈ group_runs same l -> exists x, x ∈ g /\ g = filter (fun y => key y = key x) l.
Proof.
  revert g. induction l as [|x l IH]; intros g Hc Hg; [by apply elem_of_nil in Hg|].
  destruct Hc as [Hc Hx]. pose proof (group_runs_concat l) as Hcat. pose proof (group_runs_nonempty l) as Hne.
  cbn [group_runs] in Hg. destruct (group_runs same l) as [|[|y r] gs] eqn:Eg.
  - cbn in Hcat. subst l. apply list_elem_of_singleton in Hg. subst g. exists x. split; [left|]. by rewrite filter_cons_True.
  - by inversion Hne.
  - destruct (IH (y :: r) Hc) as (w & _ & Ew); [left|].
    assert (key w = key y) as Hwy.
    { assert (y ∈ y :: r) as Hy by left. rewrite Ew in Hy. by apply list_elem_of_filter in Hy as []. }
    rewrite Hwy in Ew. pose proof (first_run_rest y r (concat gs) l Ew (eq_sym Hcat)) as Hrest.
    assert (forall g', g' ∈ gs -> exists v, v ∈ g' /\ g' = filter (fun y => key y = key v) l) as IHg.
    { intros g' Hg'. apply IH; [done|by right]. }
    destruct (same x y) eqn:Es; apply elem_of_cons in Hg as [->|Hg].
    + apply same_key in Es. exists x. split; [left|]. rewrite filter_cons_True by done. f_equal. rewrite Ew.
      apply list_filter_iff. intros v. by rewrite Es.
    + apply same_key in Es. destruct (IHg g Hg) as (v & Hv & Ev). exists v. split; [done|].
      rewrite filter_cons_False; [done|]. intros Hk. rewrite Forall_forall in Hrest.
      apply (Hrest v); [|congruence]. apply list_elem_of_In, in_concat. exists g. by rewrite <- !list_elem_of_In.
    + exists x. split; [left|]. rewrite filter_cons_True by done. f_equal. symmetry. apply filter_none.
      apply Forall_forall. intros v Hv Hk. destruct (Hx v Hv Hk) as (z & l'' & E & Hz).
      rewrite E in Hcat. injection Hcat as <- _. apply not_true_iff_false in Es. apply Es. by apply same_key.
    + assert (exists v, v ∈ g /\ g = filter (fun y => key y = key v) l) as (v & Hv & Ev).
      { apply elem_of_cons in Hg as [->|Hg]; [|by apply IHg]. exists y. split; [left|done]. }
      exists v. split; [done|]. rewrite filter_cons_False; [done|]. intros Hk.
      assert (v ∈ l) as Hvl by (rewrite Ev in Hv; by apply list_elem_of_filter in Hv as []).
      destruct (Hx v Hvl) as (z & l'' & E & Hz); [done|].
      rewrite E in Hcat. injection Hcat as <- _. apply not_true_iff_false in Es. apply Es. by apply same_key.
Qed.

Lemma group_runs_of l x :
  clustered l -> x ∈ l -> filter (fun y => key y = key x) l ∈ group_runs same l.
Proof.
  intros Hc Hx. destruct (group_runs_in l x Hx) as (g & Hg & Hxg).
  destruct (group_runs_filter l g Hc Hg) as (w & _ & Ew). rewrite Ew in Hxg. apply list_elem_of_filter in Hxg as [E _].
  rewrite E. by rewrite <- Ew.
Qed.

Lemma clustered_filter (q : A -> Prop) `{forall x, Decision (q x)} l :
  (forall x y, key x = key y -> q x -> q y) -> clustered l -> clustered (filter q l).
Proof.
  intros Hq. induction l as [|x l IH]; cbn [clustered]; [done|]. intros [Hc Hx]. rewrite filter_cons.
  case_decide; [|by apply IH]. split; [by apply IH|].
  intros y Hy Hk. apply list_elem_of_filter in Hy as [_ Hy]. destruct (Hx y Hy Hk) as (z & l'' & -> & Hz).
  exists z, (filter q l''). split; [|done]. rewrite filter_cons_True; [done|]. by apply (Hq x).
Qed.
End runs.

(** ** The order of the scan *)

Lemma strcmp_refl_eq a b : (strcmp a b =? 0) = true <-> a = b.
Proof. unfold strcmp. rewrite Z.eqb_eq. apply premises_cmp_eq. Qed.

#[local] Instance sp_le_total : Total sp_le.
Proof.
  intros x y. unfold sp_le, cmp_subject_pred, strcmp. rewrite (premises_cmp_flip (cf_pred x) (cf_pred y)).
  repeat case_if; lia.
Qed.

#[local] Instance sp_le_trans : Transitive sp_le.
Proof.
  intros x y z. unfold sp_le, cmp_subject_pred, strcmp.
  pose proof (premises_cmp_trans (cf_pred x) (cf_pred y) (cf_pred z)).
  pose proof (premises_cmp_eq (cf_pred x) (cf_pred y)) as Hxy.
  pose proof (premises_cmp_eq (cf_pred y) (cf_pred z)) as Hyz.
  destruct (decide (cf_pred x = cf_pred y)) as [E|E]; [apply Hxy in E as E1; rewrite E in *|rewrite <- Hxy in E];
    (destruct (decide (cf_pred y = cf_pred z)) as [E'|E']; [apply Hyz in E' as E2; rewrite E' in *|rewrite <- Hyz in E']);
    clear Hxy Hyz; repeat case_if; try lia.
Qed.

Definition live_fact (x : CFact) : Prop := fa_kind (cf_fact x) <> FACT_NONE /\ fa_predicate (cf_fact x) <> None.
#[global] Instance live_fact_dec x : Decision (live_fact x).
Proof. unfold live_fact. apply _. Defined.

Lemma scan_order_perm facts : scan_order facts ≡ₚ filter live_fact facts.
Proof. unfold scan_order. rewrite merge_sort_Permutation. apply Permutation_refl'. by apply list_filter_iff. Qed.

Lemma scan_order_sorted facts : StronglySorted sp_le (scan_order facts).
Proof. apply (StronglySorted_merge_sort sp_le). Qed.

Lemma scan_order_in facts x : x ∈ scan_order facts <-> x ∈ facts /\ live_fact x.
Proof. rewrite scan_order_perm, list_elem_of_filter. tauto. Qed.

Lemma subject_same x y : (cf_subject x =? cf_subject y) = true <-> cf_subject x = cf_subject y.
Proof. apply Z.eqb_eq. Qed.
Lemma pred_same x y : (strcmp (cf_pred x) (cf_pred y) =? 0) = true <-> cf_pred x = cf_pred y.
Proof. apply strcmp_refl_eq. Qed.

Lemma scan_order_subjects facts : clustered cf_subject (scan_order facts).
Proof.
  eapply clustered_sorted; [apply scan_order_sorted|]. intros x z y _ _ _. unfold sp_le, cmp_subject_pred.
  repeat case_if; lia.
Qed.

(** The records of one subject, in scan order. *)
Definition subject_run (facts : list CFact) (s : Z) : list CFact := filter (fun y => cf_subject y = s) (scan_order facts).

Lemma subject_run_preds facts s : clustered cf_pred (subject_run facts s).
Proof.
  eapply (clustered_sorted cf_pred sp_le).
  - apply StronglySorted_filter, scan_order_sorted.
  - intros x z y Hx Hz Hy. apply list_elem_of_filter in Hx as [Ex _], Hz as [Ez _], Hy as [Ey _].
    unfold sp_le, cmp_subject_pred, strcmp. intros Hxz Hzy E.
    assert (premises_cmp (cf_pred x) (cf_pred z) <= 0 /\ premises_cmp (cf_pred z) (cf_pred y) <= 0) as [H1 H2].
    { revert Hxz Hzy. repeat case_if; lia. }
    rewrite <- E, premises_cmp_flip in H2. symmetry. apply premises_cmp_eq. lia.
Qed.

Lemma subject_run_in facts x : x ∈ facts -> live_fact x -> x ∈ subject_run facts (cf_subject x).
Proof. intros. apply list_elem_of_filter. split; [done|]. by apply scan_order_in. Qed.

(** One run per subject, one run per predicate of a subject. *)
Lemma scan_pairs_elem reg facts p :
  p ∈ scan_pairs reg facts <->
  exists x, x ∈ scan_order facts /\ p ∈ subject_pairs reg (subject_run facts (cf_subject x)).
Proof.
  unfold scan_pairs. rewrite list_elem_of_In, in_concat. setoid_rewrite in_map_iff. split.
  - intros (ps & (g & <- & Hg) & Hp). apply list_elem_of_In in Hg, Hp.
    destruct (group_runs_filter cf_subject _ subject_same _ g (scan_order_subjects facts) Hg) as (x & Hx & E).
    exists x. rewrite E in Hx. apply list_elem_of_filter in Hx as [_ Hx]. split; [done|]. unfold subject_run. by rewrite <- E.
  - intros (x & Hx & Hp). exists (subject_pairs reg (subject_run facts (cf_subject x))). rewrite <- list_elem_of_In.
    split; [|done]. eexists. split; [done|]. rewrite <- list_elem_of_In.
    by apply (group_runs_of cf_subject _ subject_same _ _ (scan_order_subjects facts)).
Qed.

(** ** What the scan finds *)

Section found.
Context (reg : PredicateRegistry) (facts : list CFact).

(** Two records cannot both hold. *)
Definition contradicts (x y : CFact) (why : Reason) : Prop :=
  cf_subject x = cf_subject y /\
  match why with
  | Cardinality =>
      cf_pred x = cf_pred y /\ objects_differ (cf_fact x) (cf_fact y) = true /\
      exists spec, predicate_registry_get reg (cf_pred x) = Some spec /\ ps_single_valued spec = true
  | MutexWith => exclusive reg x y = true
  end.

Lemma exclusive_sym x y : exclusive reg x y = exclusive reg y x.
Proof.
  unfold exclusive, mutually_exclusive.
  destruct (predicate_registry_get reg (cf_pred x)), (predicate_registry_get reg (cf_pred y)); auto using orb_comm.
Qed.

(** Records that agree with a common one agree with each other. *)
Lemma objects_agree (h a b : Fact) :
  objects_differ a b = true -> objects_differ h a = true \/ objects_differ h b = true.
Proof.
  intros Hd. destruct (objects_differ h a) eqn:Ea; [by left|]. destruct (objects_differ h b) eqn:Eb; [by right|].
  exfalso. unfold objects_differ in *.
  destruct (bool_decide_reflect (fa_kind h = fa_kind a)) as [Ka|]; [|done].
  destruct (bool_decide_reflect (fa_kind h = fa_kind b)) as [Kb|]; [|done].
  rewrite <- Ka, <- Kb in Hd. rewrite bool_decide_eq_true_2 in Hd by done. cbn [negb] in *.
  destruct (fa_kind h); [| zbool; congruence |];
    destruct (fa_object_str h), (fa_object_str a), (fa_object_str b); try done;
    rewrite negb_false_iff, bool_decide_eq_true in Ea, Eb; subst; rewrite bool_decide_eq_true_2 in Hd; done.
Qed.

Lemma objects_differ_sym a b : objects_differ a b = objects_differ b a.
Proof.
  unfold objects_differ. destruct (bool_decide_reflect (fa_kind a = fa_kind b)) as [E|E].
  - rewrite E, bool_decide_eq_true_2 by done. cbn [negb].
    destruct (fa_kind b); [|by rewrite Z.eqb_sym|];
      destruct (fa_object_str a), (fa_object_str b); try done; do 2 f_equal; by apply bool_decide_ext.
  - by rewrite bool_decide_eq_false_2.
Qed.

Lemma cardinality_pairs_elem run x y why :
  (x, y, why) ∈ cardinality_pairs reg run <->
  why = Cardinality /\ head run = Some x /\ y ∈ tail run /\ objects_differ (cf_fact x) (cf_fact y) = true /\
  exists spec, predicate_registry_get reg (cf_pred x) = Some spec /\ ps_single_valued spec = true.
Proof.
  unfold cardinality_pairs. destruct run as [|h rest]; cbn [head tail].
  { rewrite elem_of_nil. naive_solver. }
  destruct (predicate_registry_get reg (cf_pred h)) as [spec|] eqn:Es.
  2:{ rewrite elem_of_nil. naive_solver. }
  destruct (ps_single_valued spec) eqn:Ev; [|rewrite elem_of_nil; split; [done|];
    intros (_ & Eh & _ & _ & spec' & Es' & Ev'); congruence].
  rewrite list_elem_of_fmap. setoid_rewrite list_elem_of_filter. naive_solver.
Qed.

Lemma mutex_pairs_sound run x y why :
  (x, y, why) ∈ mutex_pairs reg run -> why = MutexWith /\ x ∈ run /\ y ∈ run /\ exclusive reg x y = true.
Proof.
  induction run as [|h rest IH]; cbn [mutex_pairs]; [by intros ?%elem_of_nil|].
  rewrite elem_of_app, list_elem_of_fmap. setoid_rewrite list_elem_of_filter. intros [(z & E & Hz)|H].
  - simplify_eq. destruct Hz. rewrite !elem_of_cons. tauto.
  - apply IH in H. rewrite !elem_of_cons. tauto.
Qed.

Lemma mutex_pairs_complete run x y :
  x ∈ run -> y ∈ run -> x <> y -> exclusive reg x y = true ->
  (x, y, MutexWith) ∈ mutex_pairs reg run \/ (y, x, MutexWith) ∈ mutex_pairs reg run.
Proof.
  induction run as [|h rest IH]; cbn [mutex_pairs]; [by intros ?%elem_of_nil|].
  rewrite !elem_of_app, !list_elem_of_fmap, !elem_of_cons. setoid_rewrite list_elem_of_filter.
  intros [->|Hx] [->|Hy] Hne He; [done| | |].
  - left. left. by exists y.
  - right. left. exists x. by rewrite exclusive_sym.
  - destruct (IH Hx Hy Hne He); auto.
Qed.

(** The pairs a run of at most [CONFLICT_MAX_PER_SUBJECT] records gives. *)
Lemma subject_pairs_elem s p :
  p ∈ subject_pairs reg (subject_run facts s) <->
  (length (subject_run facts s) <= CONFLICT_MAX_PER_SUBJECT)%nat /\
  ((exists w, w ∈ subject_run facts s /\
      p ∈ cardinality_pairs reg (filter (fun y => cf_pred y = cf_pred w) (subject_run facts s)))
   \/ p ∈ mutex_pairs reg (subject_run facts s)).
Proof.
  unfold subject_pairs. destruct (Nat.ltb_spec CONFLICT_MAX_PER_SUBJECT (length (subject_run facts s))) as [Hl|Hl].
  { rewrite elem_of_nil. split; [done|]. intros [? _]. lia. }
  rewrite elem_of_app. pose proof (subject_run_preds facts s) as Hc.
  assert (p ∈ concat (map (cardinality_pairs reg)
            (group_runs (fun x y => strcmp (cf_pred x) (cf_pred y) =? 0) (subject_run facts s))) <->
          exists w, w ∈ subject_run facts s /\
            p ∈ cardinality_pairs reg (filter (fun y => cf_pred y = cf_pred w) (subject_run facts s))) as ->; [|tauto].
  rewrite list_elem_of_In, in_concat. setoid_rewrite in_map_iff. split.
  - intros (ps & (g & <- & Hg) & Hp). apply list_elem_of_In in Hg, Hp.
    destruct (group_runs_filter cf_pred _ pred_same _ g Hc Hg) as (w & Hw & E).
    exists w. rewrite E in Hw. apply list_elem_of_filter in Hw as [_ Hw]. by rewrite <- E.
  - intros (w & Hw & Hp). eexists. rewrite <- list_elem_of_In. split; [|exact Hp]. eexists. split; [done|].
    rewrite <- list_elem_of_In. by apply (group_runs_of cf_pred _ pred_same).
Qed.

Lemma subject_run_elem s x : x ∈ subject_run facts s <-> x ∈ facts /\ live_fact x /\ cf_subject x = s.
Proof. unfold subject_run. rewrite list_elem_of_filter, scan_order_in. tauto. Qed.

Lemma subject_run_length s :
  length (subject_run facts s) = length (filter (fun x => live_fact x /\ cf_subject x = s) facts).
Proof.
  unfold subject_run. rewrite (filter_Permutation _ _ _ (scan_order_perm facts)), list_filter_filter.
  f_equal. apply list_filter_iff. tauto.
Qed.

(** The least id of a run comes first. *)
Lemma head_least s p h :
  head (filter (fun y => cf_pred y = p) (subject_run facts s)) = Some h ->
  forall y, y ∈ subject_run facts s -> cf_pred y = p -> cf_id h <= cf_id y.
Proof.
  intros Hh y Hy Hp.
  assert (StronglySorted sp_le (filter (fun y => cf_pred y = p) (subject_run facts s))) as Hs.
  { apply StronglySorted_filter, StronglySorted_filter, scan_order_sorted. }
  assert (y ∈ filter (fun y => cf_pred y = p) (subject_run facts s)) as Hyf by (by apply list_elem_of_filter).
  assert (h ∈ filter (fun y => cf_pred y = p) (subject_run facts s)) as Hhf
    by (destruct (filter _ _); [done|]; injection Hh as ->; left).
  apply list_elem_of_filter in Hhf as [Eh Hhs]. apply subject_run_elem in Hhs as (_ & _ & Es).
  apply subject_run_elem in Hy as (_ & _ & Ey).
  destruct (filter _ _) as [|h' rest]; [done|]. injection Hh as ->.
  apply elem_of_cons in Hyf as [->|Hyf]; [done|]. inversion_clear Hs as [|? ? _ Hf]. rewrite Forall_forall in Hf.
  specialize (Hf y Hyf). revert Hf. unfold sp_le, cmp_subject_pred. rewrite Es, Ey, Z.eqb_refl, Eh, Hp.
  assert (strcmp p p = 0) as -> by (by apply premises_cmp_eq). cbn [negb Z.eqb]. repeat case_if; lia.
Qed.

Context (ids : NoDup (map cf_id facts)).

Lemma filter_ids (q : CFact -> Prop) `{forall x, Decision (q x)} (run : list CFact) :
  NoDup (map cf_id run) -> NoDup (map cf_id (filter q run)).
Proof. intros Hn. eapply sublist_NoDup; [exact Hn|]. apply fmap_sublist, sublist_filter. Qed.

Lemma subject_run_ids s : NoDup (map cf_id (subject_run facts s)).
Proof.
  apply filter_ids. apply (NoDup_Permutation_proper _ _ (fmap_Permutation cf_id _ _ (scan_order_perm facts))).
  by apply filter_ids.
Qed.

Lemma head_tail_ids (run : list CFact) x y : NoDup (map cf_id run) -> head run = Some x -> y ∈ tail run -> cf_id x <> cf_id y.
Proof.
  destruct run as [|h rest]; cbn; [done|]. intros Hn [= ->] Hy E. apply NoDup_cons in Hn as [Hx _].
  apply Hx. rewrite E. by apply list_elem_of_fmap_2.
Qed.

Lemma mutex_pairs_ids run x y why :
  NoDup (map cf_id run) -> (x, y, why) ∈ mutex_pairs reg run -> cf_id x <> cf_id y.
Proof.
  induction run as [|h rest IH]; cbn [mutex_pairs]; [by intros _ ?%elem_of_nil|].
  rewrite elem_of_app, list_elem_of_fmap. setoid_rewrite list_elem_of_filter. intros Hn [(z & E & Hz)|H].
  - injection E as -> -> ->. destruct Hz. by apply (head_tail_ids (h :: rest)).
  - apply IH; [|done]. by apply NoDup_cons in Hn as [].
Qed.

(** Every pair of the scan is a contradiction between two different live
    records of [facts]. *)
Lemma scan_pairs_sound x y why :
  (x, y, why) ∈ scan_pairs reg facts ->
  x ∈ facts /\ y ∈ facts /\ live_fact x /\ live_fact y /\ cf_id x <> cf_id y /\ contradicts x y why.
Proof.
  rewrite scan_pairs_elem. intros (z & Hz & Hp). apply subject_pairs_elem in Hp as [_ [(w & Hw & Hp)|Hp]].
  - pose proof (filter_ids (fun y => cf_pred y = cf_pred w) _ (subject_run_ids (cf_subject z))) as Hn.
    apply cardinality_pairs_elem in Hp as (-> & Hh & Ht & Hd & Hs).
    pose proof (head_tail_ids _ x y Hn Hh Ht) as Hne.
    assert (forall v, v = x \/ v = y -> v ∈ filter (fun y => cf_pred y = cf_pred w) (subject_run facts (cf_subject z))) as Hin.
    { intros v Hv. destruct (filter _ _) as [|h rest]; [done|]. cbn in Hh, Ht. injection Hh as ->.
      rewrite elem_of_cons. destruct Hv as [-> | ->]; auto. }
    pose proof (Hin x (or_introl eq_refl)) as Hx. pose proof (Hin y (or_intror eq_refl)) as Hy.
    apply list_elem_of_filter in Hx as [Ex Hx], Hy as [Ey Hy].
    apply subject_run_elem in Hx as (? & ? & Sx), Hy as (? & ? & Sy). splits; try done. split; [congruence|].
    split; [congruence|done].
  - pose proof (mutex_pairs_ids _ _ _ _ (subject_run_ids _) Hp) as Hne.
    apply mutex_pairs_sound in Hp as (-> & Hx & Hy & He).
    apply subject_run_elem in Hx as (? & ? & Sx), Hy as (? & ? & Sy). splits; try done. split; [congruence|done].
Qed.

(** Two exclusive records of a subject within the limit are paired. *)
Lemma scan_finds_mutex x y :
  x ∈ facts -> y ∈ facts -> live_fact x -> live_fact y -> cf_id x <> cf_id y -> contradicts x y MutexWith ->
  (length (filter (fun z => live_fact z /\ cf_subject z = cf_subject x) facts) <= CONFLICT_MAX_PER_SUBJECT)%nat ->
  (x, y, MutexWith) ∈ scan_pairs reg facts \/ (y, x, MutexWith) ∈ scan_pairs reg facts.
Proof.
  intros Hx Hy Lx Ly Hne [Es He] Hl. rewrite <- subject_run_length in Hl. rewrite !scan_pairs_elem.
  destruct (mutex_pairs_complete (subject_run facts (cf_subject x)) x y) as [H|H]; try done.
  - by apply subject_run_in.
  - apply subject_run_elem. by rewrite Es.
  - congruence.
  - left. exists x. split; [by apply scan_order_in|]. apply subject_pairs_elem. auto.
  - right. exists x. split; [by apply scan_order_in|]. apply subject_pairs_elem. auto.
Qed.

(** Two values of a single-valued predicate: at least one of them is paired
    with the record of least id. *)
Lemma scan_finds_cardinality x y :
  x ∈ facts -> y ∈ facts -> live_fact x -> live_fact y -> x <> y -> contradicts x y Cardinality ->
  (length (filter (fun z => live_fact z /\ cf_subject z = cf_subject x) facts) <= CONFLICT_MAX_PER_SUBJECT)%nat ->
  exists h v, (v = x \/ v = y) /\ cf_id h <= cf_id x /\ cf_id h <= cf_id y /\ (h, v, Cardinality) ∈ scan_pairs reg facts.
Proof.
  intros Hx Hy Lx Ly Hne (Es & Ep & Hd & spec & Hs & Hv) Hl. rewrite <- subject_run_length in Hl.
  assert (x ∈ subject_run facts (cf_subject x)) as Hxr by (by apply subject_run_in).
  assert (y ∈ subject_run facts (cf_subject x)) as Hyr by (apply subject_run_elem; by rewrite Es).
  set (run := filter (fun y => cf_pred y = cf_pred x) (subject_run facts (cf_subject x))).
  assert (x ∈ run) as Hxn by (by apply list_elem_of_filter).
  assert (y ∈ run) as Hyn by (by apply list_elem_of_filter).
  destruct run as [|h rest] eqn:Er; [by apply elem_of_nil in Hxn|].
  assert (head (filter (fun y => cf_pred y = cf_pred x) (subject_run facts (cf_subject x))) = Some h) as Hh
    by (fold run; by rewrite Er).
  pose proof (head_least (cf_subject x) (cf_pred x) h Hh) as Hleast.
  assert (cf_pred h = cf_pred x) as Eh.
  { assert (h ∈ run) as Hhr by (rewrite Er; left). by apply list_elem_of_filter in Hhr as []. }
  assert (exists v, (v = x \/ v = y) /\ v ∈ rest /\ objects_differ (cf_fact h) (cf_fact v) = true) as (v & Hvv & Hvr & Hvd).
  { apply elem_of_cons in Hxn as [->|Hxn]; [exists y; apply elem_of_cons in Hyn as [->|]; [done|auto]|].
    apply elem_of_cons in Hyn as [->|Hyn]; [exists x; rewrite objects_differ_sym; auto|].
    destruct (objects_agree (cf_fact h) (cf_fact x) (cf_fact y) Hd); eauto. }
  exists h, v. splits; [done|by apply Hleast|by apply Hleast|].
  rewrite scan_pairs_elem; exists x; split; [by apply scan_order_in|].
  apply subject_pairs_elem; split; [done|]; left; exists x; split; [done|]. fold run. rewrite Er.
  apply cardinality_pairs_elem. splits; [done|done|done|done|exists spec; by rewrite Eh].
Qed.
End found.

(** ** The gauge and the list *)

(** The unordered pair of two ids. *)
Definition pair_key (a b : Z) : Z * Z := (Z.min a b, Z.max a b).
Definition item_key (p : ConflictPair) : Z * Z := (cp_a p, cp_b p).

(** Every pair once, smaller id first, at most [CONFLICT_SET_MAX] of them. *)
Record conflict_set_ok (s : ConflictSet) : Prop := {
  cs_once : NoDup (map item_key (cs_items s));
  cs_bound : (length (cs_items s) <= CONFLICT_SET_MAX)%nat;
  cs_ordered : Forall (fun p => 0 < cp_a p < cp_b p) (cs_items s);
  cs_fields : Forall (fun p => length (cp_ns p) <= CONFLICT_NS_MAX /\ length (cp_predicate_a p) <= CONFLICT_PREDICATE_MAX
                               /\ length (cp_predicate_b p) <= CONFLICT_PREDICATE_MAX
                               /\ length (cp_reason p) <= CONFLICT_REASON_MAX)%nat (cs_items s)
}.

(** The item a pair becomes. *)
Definition pair_item (ns : list Z) (p : CFact * CFact * Reason) : ConflictPair :=
  let '(x, y, why) := p in
  let '(x, y) := if cf_id y <? cf_id x then (y, x) else (x, y) in
  mkConflictPair (cf_id x) (cf_id y) (take CONFLICT_NS_MAX ns) (take CONFLICT_PREDICATE_MAX (cf_pred x))
    (take CONFLICT_PREDICATE_MAX (cf_pred y)) (take CONFLICT_REASON_MAX (reason_text why)).

Definition report_key (p : CFact * CFact * Reason) : Z * Z := pair_key (cf_id (p.1.1)) (cf_id (p.1.2)).

Lemma item_key_pair ns p : item_key (pair_item ns p) = report_key p.
Proof. destruct p as [[x y] why]. unfold pair_item, report_key, pair_key, item_key. cbn. case_if; cbn; f_equal; lia. Qed.

(** One report: a pair already listed changes nothing; a new one is counted,
    its edges asked for, and it is listed unless the list is full. *)
Lemma report_spec ns s found notes x y why :
  0 < cf_id x -> 0 < cf_id y -> cf_id x <> cf_id y ->
  report ns (Some s, found, notes) (x, y, why) =
    (if bool_decide (report_key (x, y, why) ∈ map item_key (cs_items s)) then (Some s, found, notes)
     else if (CONFLICT_SET_MAX <=? length (cs_items s))%nat
          then (Some (mkConflictSet (cs_items s) true), S found, notes ++ [(x, y)])
          else (Some (mkConflictSet (cs_items s ++ [pair_item ns (x, y, why)]) (cs_truncated s)), S found, notes ++ [(x, y)])).
Proof.
  intros Hx Hy Hne. unfold report, conflict_set_add.
  rewrite (proj2 (Z.eqb_neq _ _)), (proj2 (Z.eqb_neq (cf_id y) 0)), (proj2 (Z.eqb_neq (cf_id x) (cf_id y))) by lia.
  cbn [orb]. unfold pair_item, report_key, pair_key. cbn [fst snd].
  assert (forall a b, existsb (fun p => (cp_a p =? a) && (cp_b p =? b)) (cs_items s) =
                      bool_decide ((a, b) ∈ map item_key (cs_items s))) as He.
  { intros a b. apply eq_true_iff_eq. rewrite existsb_exists, bool_decide_eq_true, list_elem_of_In, in_map_iff.
    unfold item_key. setoid_rewrite andb_true_iff. setoid_rewrite Z.eqb_eq. naive_solver. }
  destruct (cf_id y <? cf_id x) eqn:Elt; zbool.
  - rewrite He, (Z.min_r (cf_id x)), (Z.max_l (cf_id x)) by lia. case_bool_decide; [done|]. by case_if.
  - rewrite He, (Z.min_l (cf_id x)), (Z.max_r (cf_id x)) by lia. case_bool_decide; [done|]. by case_if.
Qed.

Lemma conflict_set_ok_add ns s x y why :
  conflict_set_ok s -> 0 < cf_id x -> 0 < cf_id y -> cf_id x <> cf_id y ->
  report_key (x, y, why) ∉ map item_key (cs_items s) -> (length (cs_items s) < CONFLICT_SET_MAX)%nat ->
  conflict_set_ok (mkConflictSet (cs_items s ++ [pair_item ns (x, y, why)]) (cs_truncated s)).
Proof.
  intros [H1 H2 H3 H4] Hx Hy Hne Hk Hl. split; cbn [cs_items].
  - rewrite map_app. apply NoDup_app. split; [done|]. cbn [map]. rewrite item_key_pair. split; [|by apply NoDup_singleton].
    intros k Hin E. apply list_elem_of_singleton in E. congruence.
  - rewrite length_app. cbn. lia.
  - apply Forall_app. split; [done|]. apply Forall_singleton. cbn. case_if; cbn; lia.
  - apply Forall_app. split; [done|]. apply Forall_singleton. unfold pair_item.
    case_if; cbn [cp_ns cp_predicate_a cp_predicate_b cp_reason]; rewrite !length_take; lia.
Qed.

Definition pair_ids_ok (p : CFact * CFact * Reason) : Prop :=
  let '(x, y, _) := p in 0 < cf_id x /\ 0 < cf_id y /\ cf_id x <> cf_id y.

(** What a sequence of reports does to the set, the count and the edges:
    [new] are the pairs listed. *)
Record reported ns (ps : list (CFact * CFact * Reason)) s found notes s' found' (notes' : list (CFact * CFact)) new : Prop := {
  rep_ok : conflict_set_ok s';
  rep_items : cs_items s' = cs_items s ++ map (pair_item ns) new;
  rep_new : new ⊆ ps;
  rep_found : (found + length new <= found')%nat;
  rep_notes : exists ext, notes' = notes ++ ext /\ length ext = (found' - found)%nat /\ ext ⊆ map fst ps;
  rep_flag : cs_truncated s' = false -> cs_truncated s = false /\ (found + length new = found')%nat;
  rep_listed : cs_truncated s' = false -> forall p, p ∈ ps -> report_key p ∈ map item_key (cs_items s')
}.

Lemma reports_spec ns ps s found notes :
  conflict_set_ok s -> Forall pair_ids_ok ps ->
  exists s' found' notes' new,
    foldl (report ns) (Some s, found, notes) ps = (Some s', found', notes') /\
    reported ns ps s found notes s' found' notes' new.
Proof.
  intros Hok Hps. revert s found notes Hok. induction Hps as [|[[x y] why] ps (Hx & Hy & Hne) _ IH]; intros s found notes Hok.
  { exists s, found, notes, []. split; [done|]. split; try done; cbn; rewrite ?app_nil_r; [done|lia| |set_solver].
    exists []. rewrite app_nil_r. cbn. splits; [done|lia|set_solver]. }
  cbn [foldl]. rewrite report_spec by done. case_bool_decide as Hin.
  - destruct (IH s found notes Hok) as (s' & found' & notes' & new & E & R). exists s', found', notes', new. split; [done|].
    destruct R as [R1 R2 R3 R4 (ext & ? & ? & ?) R6 R7]. split; try done; [set_solver|exists ext; set_solver|].
    intros Ht p Hp. apply elem_of_cons in Hp as [->|Hp]; [|by apply R7]. rewrite R2, map_app. set_solver.
  - destruct (Nat.leb_spec CONFLICT_SET_MAX (length (cs_items s))) as [Hl|Hl].
    + destruct (IH (mkConflictSet (cs_items s) true) (S found) (notes ++ [(x, y)])) as (s' & found' & notes' & new & E & R).
      { destruct Hok. by split. }
      exists s', found', notes', new. split; [done|]. destruct R as [R1 R2 R3 R4 (ext & -> & Hl' & Hs) R6 R7]. cbn in *.
      split; try done; [set_solver|lia| |intros Ht; by destruct (R6 Ht)|intros Ht; by destruct (R6 Ht)].
      exists ((x, y) :: ext). cbn. rewrite <- app_assoc. splits; [done|lia|set_solver].
    + destruct (IH _ (S found) (notes ++ [(x, y)]) (conflict_set_ok_add ns s x y why Hok Hx Hy Hne Hin Hl))
        as (s' & found' & notes' & new & E & R).
      exists s', found', notes', ((x, y, why) :: new). split; [done|].
      destruct R as [R1 R2 R3 R4 (ext & -> & Hl' & Hs) R6 R7]. cbn [cs_items cs_truncated length] in *.
      split; try done; [by rewrite R2, <- app_assoc|set_solver|cbn; lia| | |].
      * exists ((x, y) :: ext). cbn. rewrite <- app_assoc. splits; [done|lia|set_solver].
      * intros Ht. destruct (R6 Ht). split; [done|cbn; lia].
      * intros Ht p Hp. apply elem_of_cons in Hp as [->|Hp]; [|by apply R7].
        rewrite R2, !map_app. cbn [map]. rewrite item_key_pair. set_solver.
Qed.

(** C24: The contradiction scan of one namespace: every pair it reports is a
    contradiction between two different live records about one subject (two
    values of a single-valued predicate, or two exclusive predicates), and for
    a subject with at most 256 live facts every exclusive pair is reported and
    of two values of a single-valued predicate at least one is reported
    against the oldest record of that predicate. *)
Theorem conflict_scan_exact reg facts (ids : NoDup (map cf_id facts)) :
  (forall x y why, (x, y, why) ∈ scan_pairs reg facts ->
     x ∈ facts /\ y ∈ facts /\ live_fact x /\ live_fact y /\ cf_id x <> cf_id y /\ contradicts reg x y why)
  /\ (forall x y why, x ∈ facts -> y ∈ facts -> live_fact x -> live_fact y -> cf_id x <> cf_id y ->
       contradicts reg x y why ->
       (length (filter (fun z => live_fact z /\ cf_subject z = cf_subject x) facts) <= CONFLICT_MAX_PER_SUBJECT)%nat ->
       match why with
       | MutexWith => (x, y, MutexWith) ∈ scan_pairs reg facts \/ (y, x, MutexWith) ∈ scan_pairs reg facts
       | Cardinality =>
           exists h v, (v = x \/ v = y) /\ cf_id h <= cf_id x /\ cf_id h <= cf_id y /\
             (h, v, Cardinality) ∈ scan_pairs reg facts
       end).
Proof.
  split; [intros; by apply scan_pairs_sound|].
  intros x y [] Hx Hy Lx Ly Hne Hc Hl; [apply scan_finds_cardinality|apply scan_finds_mutex]; try done. congruence.
Qed.

(** The gauge and the list of contradictions agree: from a well-formed set
    (each pair once, smaller id first, at most 1024, fields within their
    buffers) the scan leaves a well-formed set whose new entries are scanned
    pairs, it counts at least as many contradictions as it lists and asks for
    the edges of exactly the counted ones; and when the set did not overflow,
    the count is the number of entries added and every scanned pair is listed. *)
Theorem conflict_gauge_matches_list reg facts ns s :
  NoDup (map cf_id facts) -> Forall (fun x => 0 < cf_id x) facts -> conflict_set_ok s ->
  exists s' found notes new,
    find_conflicts reg true facts ns (Some s) = (Some s', found, notes) /\
    conflict_set_ok s' /\ cs_items s' = cs_items s ++ map (pair_item ns) new /\ new ⊆ scan_pairs reg facts /\
    (length new <= found)%nat /\ length notes = found /\ notes ⊆ map fst (scan_pairs reg facts) /\
    (conflict_set_truncated (Some s') = false ->
       found = length new /\
       forall x y why, (x, y, why) ∈ scan_pairs reg facts ->
         pair_key (cf_id x) (cf_id y) ∈ map item_key (cs_items s')).
Proof.
  intros Hids Hpos Hok. destruct (reports_spec ns (scan_pairs reg facts) s 0 [] Hok) as (s' & found & notes & new & E & R).
  { apply Forall_forall. intros [[x y] why] Hp. apply scan_pairs_sound in Hp as (Hx & Hy & _ & _ & Hne & _); [|done].
    rewrite Forall_forall in Hpos. cbn. auto. }
  exists s', found, notes, new. unfold find_conflicts. cbn [negb]. split; [done|].
  destruct R as [R1 R2 R3 R4 (ext & -> & Hl & Hs) R6 R7]. cbn [app] in *. splits; try done; [lia|].
  cbn. intros Ht. destruct (R6 Ht) as [_ Hn]. split; [lia|]. intros x y why Hp. by apply (R7 Ht) in Hp.
Qed.

(** ** A small corpus *)

Module Corpus.
Definition lives_in : list Z := [108].
Definition dead : list Z := [100].
Definition reg : PredicateRegistry :=
  mkRegistry [mkPredSpec dead PRED_OBJ_STRING false false false None [lives_in];
              mkPredSpec lives_in PRED_OBJ_STRING true false false None []].
Definition says (id : Z) (p v : list Z) : CFact := mkCFact id (mkFact FACT_OBJ_STRING 7 (Some p) 0 (Some v)).
Definition facts : list CFact := [says 3 lives_in [66]; says 1 lives_in [65]; says 2 lives_in [65]; says 4 dead [84]].
(** A predicate that is single-valued and excludes itself. *)
Definition self_reg : PredicateRegistry :=
  mkRegistry [mkPredSpec lives_in PRED_OBJ_STRING true false false None [lives_in]].
End Corpus.

Lemma corpus_ids : NoDup (map cf_id Corpus.facts).
Proof. apply (bool_decide_unpack _). vm_compute. exact I. Qed.

Lemma conflict_scan_exact_witness :
  NoDup (map cf_id Corpus.facts) /\
  (forall x y why, (x, y, why) ∈ scan_pairs Corpus.reg Corpus.facts ->
     x ∈ Corpus.facts /\ y ∈ Corpus.facts /\ live_fact x /\ live_fact y /\ cf_id x <> cf_id y /\ contradicts Corpus.reg x y why) /\
  map (fun p => report_key p) (scan_pairs Corpus.reg Corpus.facts) = [(1, 3); (1, 4); (2, 4); (3, 4)].
Proof.
  split; [exact corpus_ids|]. split; [exact (proj1 (conflict_scan_exact Corpus.reg Corpus.facts corpus_ids))|].
  vm_compute. reflexivity.
Defined.

Lemma conflict_gauge_matches_list_witness :
  exists s' found notes (new : list (CFact * CFact * Reason)),
    find_conflicts Corpus.reg true Corpus.facts [110] (Some (mkConflictSet [] false)) = (Some s', found, notes) /\
    found = length new /\ found = 4%nat.
Proof.
  destruct (conflict_gauge_matches_list Corpus.reg Corpus.facts [110] (mkConflictSet [] false) corpus_ids)
    as (s' & found & notes & new & E & _ & _ & _ & _ & _ & _ & H).
  - apply (bool_decide_unpack _). vm_compute. exact I.
  - split; cbn; [apply NoDup_nil_2|unfold CONFLICT_SET_MAX; lia|constructor|constructor].
  - exists s', found, notes, new.
    assert (find_conflicts Corpus.reg true Corpus.facts [110] (Some (mkConflictSet [] false)) =
            (Some s', found, notes)) as E' by exact E.
    vm_compute in E'. injection E' as Es Ef En. split; [exact E|]. split; [|symmetry; exact Ef].
    apply H. rewrite <- Es. reflexivity.
Defined.

(** Without a set the same contradiction is counted once per rule: a predicate
    that is single-valued and excludes itself gives a count of 2 for one pair,
    where the set makes it 1. *)
Theorem conflict_gauge_counts_rules_without_set :
  let facts := [Corpus.says 1 Corpus.lives_in [65]; Corpus.says 2 Corpus.lives_in [66]] in
  (find_conflicts Corpus.self_reg true facts [] None).1.2 = 2%nat /\
  (find_conflicts Corpus.self_reg true facts [] (Some (mkConflictSet [] false))).1.2 = 1%nat.
Proof. split; vm_compute; reflexivity. Qed.

(** The star of edges misses a record: of the values A (record 1), A (record
    2) and B (record 3), record 2 contradicts record 3 and no edge names it. *)
Theorem conflict_star_misses_record :
  let facts := [Corpus.says 1 Corpus.lives_in [65]; Corpus.says 2 Corpus.lives_in [65]; Corpus.says 3 Corpus.lives_in [66]] in
  contradicts Corpus.reg (Corpus.says 2 Corpus.lives_in [65]) (Corpus.says 3 Corpus.lives_in [66]) Cardinality /\
  map (fun e => (cf_id e.1, cf_id e.2)) (find_conflicts Corpus.reg true facts [] (Some (mkConflictSet [] false))).2 = [(1, 3)].
Proof.
  split; [|vm_compute; reflexivity]. split; [reflexivity|]. split; [reflexivity|]. split; [vm_compute; reflexivity|].
  eexists. split; vm_compute; reflexivity.
Qed.
