(* ===== verification/Lexical.v ===== *)
(** * The lexical index: tokenizer and postings

    [src/storage/lexical_index.c]: one pass over a payload yielding lowercased
    terms and the sub-parts of compound ones, the postings of each term (4096
    chained buckets, arrays sorted by id) and the table of document lengths.
    Text is a list of bytes. Ranking is not modelled. *)

From S2P Require Import Prelude Endian SortedArray StrTable ProbeTable.

Definition LEX_MAX_TERM : nat := 64.

(** ** Character classes *)

Definition in_byte_range (lo hi c : Z) : bool := (lo <=? c) && (c <=? hi).

Definition is_edge_char (c : Z) : bool :=
  (c =? 45) || (c =? 46) || (c =? 58) || (c =? 47) || (c =? 43) || (c =? 35).

Definition is_term_char (c : Z) : bool :=
  if 128 <=? c then true
  else if in_byte_range 97 122 c || in_byte_range 65 90 c || in_byte_range 48 57 c then true
  else (c =? 95) || (c =? 45) || (c =? 46) || (c =? 58) || (c =? 47) || (c =? 43) || (c =? 35).

Definition is_sub_delim (c : Z) : bool := (c =? 95) || is_edge_char c.

Definition lower (c : Z) : Z := if in_byte_range 65 90 c then c - 65 + 97 else c.

(** ** Tokenizer *)

(** [tk_rest] is the text from [p] to [end]; [tk_full] is [full] up to
    [full_len]. *)
Record LexTokenizer := mkTokenizer {
  tk_rest : list Z; tk_full : list Z; tk_sub_pos : nat; tk_have_full : bool; tk_compound : bool
}.

Definition lex_tokenizer_init (text : list Z) : LexTokenizer := mkTokenizer text [] 0 false false.

(** [while (p < end && f( *p)) p++]: what is passed over and what is left. *)
Fixpoint span (f : Z -> bool) (l : list Z) : list Z * list Z :=
  match l with
  | [] => ([], [])
  | c :: l' => if f c then let '(a, b) := span f l' in (c :: a, b) else ([], l)
  end.

(** The [while] over sub-parts, from position [pos] of [full]: the term found,
    if any, and the cursor. Each turn that goes on has passed a character. *)
Fixpoint sub_loop (fuel : nat) (full : list Z) (pos : nat) : option (list Z) * nat :=
  match fuel with
  | O => (None, pos)
  | S fuel' =>
      if (pos <? length full)%nat then
        let '(delims, l) := span is_sub_delim (drop pos full) in
        let '(part, _) := span (fun c => negb (is_sub_delim c)) l in
        let s := (pos + length delims)%nat in
        let e := (s + length part)%nat in
        if (length full <=? s)%nat then (None, e)
        else if (2 <=? length part)%nat && (length part <? length full)%nat then (Some part, e)
        else sub_loop fuel' full e
      else (None, pos)
  end.

(** Edge punctuation off both ends. *)
Definition trim_edges (run : list Z) : list Z :=
  rev (snd (span is_edge_char (rev (snd (span is_edge_char run))))).

(** The [while] over raw runs: the term and what follows its run. *)
Fixpoint run_loop (fuel : nat) (rest : list Z) : option (list Z * list Z) :=
  match fuel with
  | O => None
  | S fuel' =>
      match rest with
      | [] => None
      | _ =>
          let '(_, rest) := span (fun c => negb (is_term_char c)) rest in
          let '(run, rest) := span is_term_char rest in
          match trim_edges run with
          | [] => run_loop fuel' rest
          | term => Some (term, rest)
          end
      end
  end.

Definition lex_tokenizer_next (t : LexTokenizer) : LexTokenizer * option (list Z) :=
  let '(sub, pos) :=
    if tk_have_full t && tk_compound t then sub_loop (S (length (tk_full t))) (tk_full t) (tk_sub_pos t)
    else (None, tk_sub_pos t) in
  match sub with
  | Some part => (mkTokenizer (tk_rest t) (tk_full t) pos (tk_have_full t) (tk_compound t), Some part)
  | None =>
      match run_loop (S (length (tk_rest t))) (tk_rest t) with
      | Some (term, rest) =>
          let term := take LEX_MAX_TERM term in
          let full := map lower term in
          (mkTokenizer rest full 0 true (existsb is_sub_delim term), Some full)
      | None => (mkTokenizer [] [] pos false (tk_compound t), None)
      end
  end.

(** [while (lex_tokenizer_next(&t, term))]; a text of [n] bytes yields at most
    [2 * n] terms. *)
Fixpoint token_loop (fuel : nat) (t : LexTokenizer) : list (list Z) :=
  match fuel with
  | O => []
  | S fuel' =>
      match lex_tokenizer_next t with
      | (t, Some term) => term :: token_loop fuel' t
      | (_, None) => []
      end
  end.

Definition lex_tokens (text : list Z) : list (list Z) :=
  token_loop (S (2 * length text)) (lex_tokenizer_init text).

(** ** Index structures *)

Definition LEX_NBUCKETS : Z := 4096.

Record LexPost := mkLexPost { lp_id : Z; lp_tf : Z }.
Record LexTerm := mkLexTerm { lt_term : list Z; lt_posts : list LexPost; lt_cap : nat }.

#[export, refine] Instance LexTerm_buckets : Buckets LexTerm := {| nbuckets := LEX_NBUCKETS |}.
Proof. done. Defined.

Record LexDoc := mkLexDoc { ld_id : Z; ld_len : Z; ld_state : SlotState }.

#[export, refine] Instance LexDoc_slot : ProbeSlot LexDoc Z := {|
  slot_state := ld_state; slot_key := ld_id; key_hash := id; zero_slot := mkLexDoc 0 0 SLOT_EMPTY
|}.
Proof. reflexivity. Defined.

Record LexicalIndex := mkLexicalIndex {
  lx_buckets : list (list LexTerm); lx_term_count : nat; lx_docs : PTable LexDoc; lx_total_len : Z
}.

Definition lexical_index_create (ok : bool) : option LexicalIndex :=
  if ok then Some (mkLexicalIndex tbl_empty 0 pt_empty 0) else None.

(** *** Documents *)

Definition DOC_CAP0 : nat := 64.

Definition doc_slot (lx : LexicalIndex) (id : Z) : option LexDoc :=
  slot_at (pt_slots (lx_docs lx)) <$> pt_find (lx_docs lx) id.

Definition doc_grow (ok : bool) (docs : PTable LexDoc) : option (PTable LexDoc) := pt_grow DOC_CAP0 ok docs.

Definition set_docs (lx : LexicalIndex) (docs : PTable LexDoc) (total : Z) : LexicalIndex :=
  mkLexicalIndex (lx_buckets lx) (lx_term_count lx) docs total.

(** [None] is the result -1. An id that is present is left as it is. *)
Definition doc_put (ok : bool) (lx : LexicalIndex) (id len : Z) : option LexicalIndex :=
  match pt_put DOC_CAP0 ok (lx_docs lx) id (mkLexDoc id len SLOT_LIVE) with
  | None => None
  | Some (docs, _) =>
      Some (set_docs lx docs
              (if decide (pt_find (lx_docs lx) id = None) then wrap 64 (lx_total_len lx + len) else lx_total_len lx))
  end.

Definition doc_del (lx : LexicalIndex) (id : Z) : LexicalIndex :=
  match pt_find (lx_docs lx) id with
  | None => lx
  | Some j =>
      let d := slot_at (pt_slots (lx_docs lx)) j in
      set_docs lx (pt_retire (lx_docs lx) j (mkLexDoc (ld_id d) (ld_len d) SLOT_DEAD))
        (wrap 64 (lx_total_len lx - ld_len d))
  end.

(** *** Terms *)

Definition term_bucket (s : list Z) : nat := hash_str LEX_NBUCKETS s.
Definition term_find (lx : LexicalIndex) (term : list Z) : option LexTerm := tbl_find lt_term (lx_buckets lx) term.

Definition post_lower_bound (p : list LexPost) (id : Z) : nat := sa_lower_bound (map lp_id p) id.

(** The post at [pos] belongs to [id]. *)
Definition post_at (p : list LexPost) (pos : nat) (id : Z) : option LexPost :=
  match p !! pos with Some x => if lp_id x =? id then Some x else None | None => None end.

(** One occurrence on a node; [None] is a failure to grow the array. *)
Definition node_add (ok : bool) (n : LexTerm) (id : Z) : option LexTerm :=
  let pos := post_lower_bound (lt_posts n) id in
  match post_at (lt_posts n) pos id with
  | Some x =>
      Some (mkLexTerm (lt_term n)
              (<[pos := mkLexPost id (if lp_tf x <? UINT32_MAX then lp_tf x + 1 else lp_tf x)]> (lt_posts n)) (lt_cap n))
  | None =>
      let full := (length (lt_posts n) =? lt_cap n)%nat in
      if full && negb ok then None
      else
        Some (mkLexTerm (lt_term n) (insert_at pos (mkLexPost id 1) (lt_posts n))
                (if full then if (lt_cap n =? 0)%nat then 4 else lt_cap n * 2 else lt_cap n)%nat)
  end.

Definition set_terms (lx : LexicalIndex) (bs : list (list LexTerm)) (count : nat) : LexicalIndex :=
  mkLexicalIndex bs count (lx_docs lx) (lx_total_len lx).

(** [ok_node]: the node and its string; [ok_posts]: the array. True is the
    result 0; a new node whose array cannot be allocated stays in its chain. *)
Definition term_add (ok_node ok_posts : bool) (lx : LexicalIndex) (term : list Z) (id : Z) : LexicalIndex * bool :=
  let place (lx : LexicalIndex) (n : LexTerm) :=
    match node_add ok_posts n id with
    | None => (lx, false)
    | Some _ => (set_terms lx (tbl_update lt_term (fun n => Some (default n (node_add ok_posts n id))) (lx_buckets lx) term)
                   (lx_term_count lx), true)
    end in
  match term_find lx term with
  | Some n => place lx n
  | None =>
      if ok_node then
        let n := mkLexTerm term [] 0 in
        place (set_terms lx (tbl_push lt_term (lx_buckets lx) n) (S (lx_term_count lx))) n
      else (lx, false)
  end.

(** The node without [id]; [None] when nothing is left on it. *)
Definition node_remove (id : Z) (n : LexTerm) : option LexTerm :=
  let pos := post_lower_bound (lt_posts n) id in
  let posts := match post_at (lt_posts n) pos id with Some _ => remove_at pos (lt_posts n) | None => lt_posts n end in
  if (length posts =? 0)%nat then None else Some (mkLexTerm (lt_term n) posts (lt_cap n)).

Definition term_remove (lx : LexicalIndex) (term : list Z) (id : Z) : LexicalIndex :=
  match term_find lx term with
  | None => lx
  | Some n =>
      set_terms lx (tbl_update lt_term (node_remove id) (lx_buckets lx) term)
        (match node_remove id n with Some _ => lx_term_count lx | None => lx_term_count lx - 1 end)%nat
  end.

(** *** Writing *)

Definition unindex_text (lx : LexicalIndex) (id : Z) (text : list Z) : LexicalIndex :=
  foldl (fun lx term => term_remove lx term id) lx (lex_tokens text).

(** Outcomes of the allocations of one document. *)
Record LexAlloc := mkLexAlloc { la_node : nat -> bool; la_posts : nat -> bool; la_docs : bool }.

(** The terms in order; false when one could not be added. The second
    component is [dl]. *)
Fixpoint add_terms (al : LexAlloc) (k : nat) (lx : LexicalIndex) (id dl : Z) (terms : list (list Z))
  : LexicalIndex * Z * bool :=
  match terms with
  | [] => (lx, dl, true)
  | term :: terms' =>
      let '(lx, ok) := term_add (la_node al k) (la_posts al k) lx term id in
      if ok then add_terms al (S k) lx id (if dl <? UINT32_MAX then dl + 1 else dl) terms' else (lx, dl, false)
  end.

(** [None] is no index; true is the result 0. *)
Definition lexical_index_add (al : LexAlloc) (lxo : option LexicalIndex) (id : Z) (text : list Z)
  : option LexicalIndex * bool :=
  match lxo with
  | None => (None, true)
  | Some lx =>
      match doc_slot lx id with
      | Some _ => (lxo, true)
      | None =>
          match add_terms al 0 lx id 0 (lex_tokens text) with
          | (lx, _, false) => (Some (unindex_text lx id text), false)
          | (lx, dl, true) =>
              if dl =? 0 then (Some lx, true)
              else match doc_put (la_docs al) lx id dl with
                   | None => (Some (unindex_text lx id text), false)
                   | Some lx => (Some lx, true)
                   end
          end
      end
  end.

Definition lexical_index_remove (lxo : option LexicalIndex) (id : Z) (text : list Z) : option LexicalIndex :=
  match lxo with
  | None => None
  | Some lx => match doc_slot lx id with None => lxo | Some _ => Some (doc_del (unindex_text lx id text) id) end
  end.

Definition lexical_index_terms (lx : option LexicalIndex) : nat :=
  match lx with Some lx => lx_term_count lx | None => 0%nat end.
Definition lexical_index_docs (lx : option LexicalIndex) : nat :=
  match lx with Some lx => pt_live (lx_docs lx) | None => 0%nat end.

(** LP64 sizes: [LexicalIndex] 32816, [LexTerm] 40, [LexPost] 16, [LexDoc] 16. *)
Definition lexical_index_bytes (lx : option LexicalIndex) : Z :=
  match lx with
  | None => 0
  | Some lx =>
      foldl (fun total n => total + (40 + (Z.of_nat (length (lt_term n)) + 1) + Z.of_nat (lt_cap n) * 16))
        (32816 + Z.of_nat (pt_cap (lx_docs lx)) * 16) (concat (lx_buckets lx))
  end.

(** ** What the tokenizer computes *)

(** The maximal runs of characters of a class. *)
Fixpoint chunks (f : Z -> bool) (l : list Z) : list (list Z) :=
  match l with
  | [] => []
  | c :: l' =>
      if f c then
        if match l' with d :: _ => f d | [] => false end then
          match chunks f l' with r :: rs => (c :: r) :: rs | [] => [[c]] end
        else [c] :: chunks f l'
      else chunks f l'
  end.

Definition sub_wanted (n : nat) (p : list Z) : bool := (2 <=? length p)%nat && (length p <? n)%nat.
Definition sub_char (c : Z) : bool := negb (is_sub_delim c).

(** A word, then its sub-parts of two or more characters. *)
Definition expand (w : list Z) : list (list Z) :=
  let full := map lower (take LEX_MAX_TERM w) in
  full :: filter (fun p => sub_wanted (length full) p = true) (chunks sub_char full).

Definition words (text : list Z) : list (list Z) :=
  filter (fun w => w <> []) (map trim_edges (chunks is_term_char text)).

Definition spec_tokens (text : list Z) : list (list Z) := concat (map expand (words text)).

Lemma span_app f l : fst (span f l) ++ snd (span f l) = l.
Proof. induction l as [|c l IH]; [done|]. cbn. destruct (f c); [|done]. destruct (span f l). cbn in *. by rewrite IH. Qed.

Lemma span_all f l : Forall (fun c => f c = true) (fst (span f l)).
Proof. induction l as [|c l IH]; [done|]. cbn. destruct (f c) eqn:E; [|done]. destruct (span f l). by constructor. Qed.

Lemma span_stop f l c l' : snd (span f l) = c :: l' -> f c = false.
Proof.
  induction l as [|d l IH]; [done|]. cbn. destruct (f d) eqn:E; [|by intros [= -> ->]].
  destruct (span f l). exact IH.
Qed.

(** Skip what is outside the class, then take a run. *)
Lemma chunks_span f l :
  chunks f l =
  match fst (span f (snd (span (fun c => negb (f c)) l))) with
  | [] => []
  | r => r :: chunks f (snd (span f (snd (span (fun c => negb (f c)) l))))
  end.
Proof.
  induction l as [|c l IH]; [done|]. cbn [chunks span]. destruct (f c) eqn:E; cbn [negb].
  - cbn [snd span]. rewrite E. destruct l as [|d l']; [done|].
    destruct (f d) eqn:Ed.
    + cbn [span] in IH. rewrite Ed in IH. cbn [negb snd span] in IH. rewrite Ed in IH.
      cbn [span]. rewrite Ed. destruct (span f l') as [a b]. cbn [fst snd] in *. by rewrite IH.
    + cbn [span]. rewrite Ed. done.
  - destruct (span (fun c0 => negb (f c0)) l). exact IH.
Qed.

Lemma span_length f l : (length (fst (span f l)) + length (snd (span f l)) = length l)%nat.
Proof. by rewrite <- length_app, span_app. Qed.

Lemma span_drop f l : snd (span f l) = drop (length (fst (span f l))) l.
Proof. rewrite <- (span_app f l) at 3. by rewrite drop_app_length. Qed.

Lemma span_nil f l : fst (span f l) = [] -> snd (span f l) = l.
Proof. intros E. pose proof (span_app f l) as Ha. by rewrite E in Ha. Qed.

(** After the skipped characters a run starts, unless the text ends. *)
Lemma span_next f l : fst (span f (snd (span (fun c => negb (f c)) l))) = [] -> snd (span (fun c => negb (f c)) l) = [].
Proof.
  destruct (snd (span (fun c => negb (f c)) l)) as [|c l'] eqn:E; [done|]. cbn.
  apply span_stop in E. apply negb_false_iff in E. rewrite E. by destruct (span f l').
Qed.

Lemma sub_loop_spec fuel full pos :
  (length full < fuel + pos)%nat -> (pos <= length full)%nat ->
  let '(r, e) := sub_loop fuel full pos in
  let rest p := filter (fun q => sub_wanted (length full) q = true) (chunks sub_char (drop p full)) in
  (e <= length full)%nat /\
  match r with
  | Some part => rest pos = part :: rest e /\ (pos < e)%nat
  | None => rest pos = []
  end.
Proof.
  revert pos. induction fuel as [|fuel IH]; intros pos Hf Hp; [lia|]. cbn [sub_loop].
  destruct (Nat.ltb_spec pos (length full)) as [Hlt|Hge].
  2: { split; [done|]. rewrite drop_ge by lia. done. }
  rewrite (chunks_span sub_char (drop pos full)).
  change (fun c => negb (sub_char c)) with (fun c => negb (negb (is_sub_delim c))).
  assert (forall l, span (fun c => negb (negb (is_sub_delim c))) l = span is_sub_delim l) as Hnn.
  { clear. intros l. induction l as [|c l IH]; [done|]. cbn. rewrite negb_involutive, IH. done. }
  rewrite Hnn. pose proof (span_length is_sub_delim (drop pos full)) as L1.
  pose proof (span_next sub_char (drop pos full)) as Hnx.
  change (fun c => negb (sub_char c)) with (fun c => negb (negb (is_sub_delim c))) in Hnx. rewrite Hnn in Hnx.
  pose proof (span_drop is_sub_delim (drop pos full)) as D1. rewrite drop_drop in D1.
  destruct (span is_sub_delim (drop pos full)) as [delims l]. cbn [fst snd] in *.
  pose proof (span_length sub_char l) as L2. pose proof (span_drop sub_char l) as D2.
  change (fun c => negb (is_sub_delim c)) with sub_char. rewrite length_drop in L1.
  destruct (span sub_char l) as [part l2]. cbn [fst snd] in *.
  destruct (Nat.leb_spec (length full) (pos + length delims)) as [Hs|Hs].
  { split; [lia|]. assert (length l = 0)%nat by lia. destruct part; [done|]. cbn in L2. lia. }
  destruct part as [|c part]. { specialize (Hnx eq_refl). subst l. cbn in *. lia. }
  assert (l2 = drop (pos + length delims + length (c :: part)) full) as El2.
  { rewrite D2, D1, drop_drop. done. }
  rewrite El2. fold (sub_wanted (length full) (c :: part)). rewrite filter_cons.
  destruct (sub_wanted (length full) (c :: part)) eqn:Ew.
  - rewrite decide_True by done. cbn [length] in *. split; [lia|]. split; [done|lia].
  - rewrite decide_False by done. specialize (IH (pos + length delims + length (c :: part))%nat ltac:(cbn; lia) ltac:(cbn [length] in *; lia)).
    destruct (sub_loop fuel full _) as [[part'|] e]; [|done]. destruct IH as (? & ? & ?).
    split; [done|]. split; [done|cbn [length] in *; lia].
Qed.

Lemma trim_edges_length run : (length (trim_edges run) <= length run)%nat.
Proof.
  unfold trim_edges. rewrite length_rev.
  pose proof (span_length is_edge_char run). pose proof (span_length is_edge_char (rev (snd (span is_edge_char run)))) as Hr.
  rewrite length_rev in Hr. lia.
Qed.

Lemma run_loop_spec fuel rest :
  (length rest < fuel)%nat ->
  match run_loop fuel rest with
  | Some (w, rest') => words rest = w :: words rest' /\ (0 < length w)%nat /\ (length w + length rest' <= length rest)%nat
  | None => words rest = []
  end.
Proof.
  revert rest. induction fuel as [|fuel IH]; intros rest Hf; [lia|]. cbn [run_loop].
  destruct rest as [|c0 rest0]; [done|]. set (rest := c0 :: rest0) in *.
  unfold words at 1 3. rewrite (chunks_span is_term_char rest).
  pose proof (span_length (fun c => negb (is_term_char c)) rest) as L1. pose proof (span_next is_term_char rest) as Hnx.
  destruct (span (fun c => negb (is_term_char c)) rest) as [skip l]. cbn [fst snd] in *.
  pose proof (span_length is_term_char l) as L2. destruct (span is_term_char l) as [run l2]. cbn [fst snd] in *.
  destruct run as [|c run].
  { specialize (Hnx eq_refl). subst l. cbn in L2. assert (l2 = []) as -> by (destruct l2; [done|cbn in L2; lia]).
    cbn [trim_edges span snd rev]. specialize (IH [] ltac:(cbn in *; lia)). by destruct fuel. }
  cbn [map]. rewrite filter_cons. pose proof (trim_edges_length (c :: run)) as L3. cbn [length] in L2, Hf.
  destruct (trim_edges (c :: run)) as [|d w] eqn:Et.
  - rewrite decide_False by (intros H; by apply H). specialize (IH l2 ltac:(lia)).
    destruct (run_loop fuel l2) as [[w r']|]; [|done]. destruct IH as (? & ? & ?). split; [done|]. split; [done|lia].
  - rewrite decide_True by done. cbn [length] in *. split; [done|]. split; lia.
Qed.

Lemma sub_delim_lower c : is_sub_delim (lower c) = is_sub_delim c.
Proof.
  unfold lower. destruct (in_byte_range 65 90 c) eqn:E; [|done]. unfold in_byte_range in E. zbool.
  unfold is_sub_delim, is_edge_char. repeat rewrite (proj2 (Z.eqb_neq _ _)) by lia. done.
Qed.

(** Without a delimiter a word has no sub-parts. *)
Lemma chunks_whole f l : l <> [] -> Forall (fun c => f c = true) l -> chunks f l = [l].
Proof.
  intros Hl Hf. induction Hf as [|c l Hc Hf IH]; [done|]. cbn. rewrite Hc. destruct l as [|d l']; [done|].
  inversion Hf as [|? ? Hd _]. rewrite Hd. by rewrite IH.
Qed.

Lemma simple_no_subs w :
  existsb is_sub_delim w = false ->
  filter (fun p => sub_wanted (length (map lower w)) p = true) (chunks sub_char (map lower w)) = [].
Proof.
  intros He. destruct w as [|c w]; [done|]. rewrite chunks_whole; [|done|].
  - unfold sub_wanted. rewrite filter_cons_False; [done|]. intros H. zbool. lia.
  - apply Forall_forall. intros x Hx. apply list_elem_of_fmap in Hx as (y & -> & Hy). unfold sub_char.
    rewrite sub_delim_lower. apply negb_true_iff. apply not_true_iff_false. intros Hd.
    assert (existsb is_sub_delim (c :: w) = true) as Ht; [|congruence].
    apply existsb_exists. exists y. split; [by apply list_elem_of_In|done].
Qed.

(** What a tokenizer still has to say, and how much. *)
Definition pending (t : LexTokenizer) : list (list Z) :=
  if tk_have_full t && tk_compound t then
    filter (fun p => sub_wanted (length (tk_full t)) p = true) (chunks sub_char (drop (tk_sub_pos t) (tk_full t)))
  else [].

Definition tok_measure (t : LexTokenizer) : nat :=
  (2 * length (tk_rest t) + if tk_have_full t && tk_compound t then length (tk_full t) - tk_sub_pos t else 0)%nat.

Definition tok_ok (t : LexTokenizer) : Prop := (tk_sub_pos t <= length (tk_full t))%nat.

Lemma next_spec t :
  tok_ok t ->
  match lex_tokenizer_next t with
  | (t', Some x) => pending t ++ spec_tokens (tk_rest t) = x :: pending t' ++ spec_tokens (tk_rest t') /\ tok_ok t' /\
      (tok_measure t' < tok_measure t)%nat
  | (t', None) => pending t ++ spec_tokens (tk_rest t) = []
  end.
Proof.
  intros Hok. unfold lex_tokenizer_next.
  assert (let '(sub, pos) := if tk_have_full t && tk_compound t
            then sub_loop (S (length (tk_full t))) (tk_full t) (tk_sub_pos t) else (None, tk_sub_pos t) in
    (pos <= length (tk_full t))%nat /\
    match sub with
    | Some part => tk_have_full t && tk_compound t = true /\ (tk_sub_pos t < pos)%nat /\
        pending t = part :: filter (fun p => sub_wanted (length (tk_full t)) p = true) (chunks sub_char (drop pos (tk_full t)))
    | None => pending t = []
    end) as Hsub.
  { unfold pending. destruct (tk_have_full t && tk_compound t); [|done].
    pose proof (sub_loop_spec (S (length (tk_full t))) (tk_full t) (tk_sub_pos t) ltac:(lia) Hok) as H.
    destruct (sub_loop _ _ _) as [[part|] e]; [|done]. destruct H as (? & ? & ?). done. }
  destruct (if tk_have_full t && tk_compound t then _ else _) as [[part|] pos]; destruct Hsub as [Hp Hsub].
  - destruct Hsub as (Hb & Hlt & Ep). unfold pending, tok_measure, tok_ok in *. cbn [tk_rest tk_full tk_sub_pos tk_have_full tk_compound].
    rewrite Hb in *. rewrite Ep. split; [done|]. split; [done|]. lia.
  - rewrite Hsub. cbn [app]. pose proof (run_loop_spec (S (length (tk_rest t))) (tk_rest t) ltac:(lia)) as Hr.
    destruct (run_loop _ _) as [[w rest']|].
    + destruct Hr as (Ew & Hw & Hl). unfold spec_tokens at 1. rewrite Ew. cbn [map concat]. unfold expand.
      unfold pending, tok_measure, tok_ok. cbn [tk_rest tk_full tk_sub_pos tk_have_full tk_compound andb drop app].
      split; [|split; [lia|]].
      * fold (spec_tokens rest'). f_equal. f_equal. destruct (existsb _ _) eqn:Ec; [done|]. by rewrite simple_no_subs.
      * rewrite length_map, length_take. destruct (existsb _ _); lia.
    + unfold spec_tokens. by rewrite Hr.
Qed.

Lemma token_loop_spec fuel t :
  tok_ok t -> (tok_measure t < fuel)%nat -> token_loop fuel t = pending t ++ spec_tokens (tk_rest t).
Proof.
  revert t. induction fuel as [|fuel IH]; intros t Hok Hf; [lia|]. cbn [token_loop].
  pose proof (next_spec t Hok) as Hn. destruct (lex_tokenizer_next t) as [t' [x|]]; [|done].
  destruct Hn as (-> & Hok' & Hm). f_equal. apply IH; [done|lia].
Qed.

Lemma lex_tokens_spec text : lex_tokens text = spec_tokens text.
Proof. unfold lex_tokens. rewrite token_loop_spec; [done|unfold tok_ok; cbn; lia|cbn; lia]. Qed.
