(* ===== verification/LexicalCorrect.v ===== *)
(** * The lexical index as a map of documents

    The postings, document table and counters of [Lexical] always describe the
    same thing: which texts are indexed under which ids. *)

From S2P Require Import Prelude Endian SortedArray StrTable ProbeTable Lexical.

(** ** One posting list *)

Definition posts_map (p : list LexPost) : gmap Z Z := list_to_map (map (fun x => (lp_id x, lp_tf x)) p).

Definition posts_ok (p : list LexPost) : Prop := strictly_sorted (map lp_id p).

Lemma posts_keys p : (map (fun x => (lp_id x, lp_tf x)) p).*1 = map lp_id p.
Proof. induction p; cbn; congruence. Qed.

Lemma posts_map_elem p i v : posts_ok p -> posts_map p !! i = Some v <-> mkLexPost i v ∈ p.
Proof.
  intros Hs. unfold posts_map. rewrite <- elem_of_list_to_map by (rewrite posts_keys; by apply sorted_nodup).
  rewrite list_elem_of_fmap. split.
  - intros ([a b] & E & Hin). cbn in E. by simplify_eq.
  - intros Hin. by exists (mkLexPost i v).
Qed.

Lemma posts_map_None p i : posts_map p !! i = None <-> i ∉ map lp_id p.
Proof. unfold posts_map. rewrite <- not_elem_of_list_to_map. by rewrite posts_keys. Qed.


(** What the probe of the array finds. *)
Lemma post_at_spec p id :
  posts_ok p ->
  match post_at p (post_lower_bound p id) id with
  | Some x => p !! post_lower_bound p id = Some x /\ lp_id x = id
  | None => id ∉ map lp_id p
  end.
Proof.
  intros Hs. unfold post_at, post_lower_bound. pose proof (sa_at_spec (map lp_id p) id Hs) as Ha.
  unfold sa_at in Ha. rewrite andb_true_iff, bool_decide_eq_true, list_lookup_fmap in Ha.
  destruct (p !! sa_lower_bound (map lp_id p) id) as [x|] eqn:E.
  - destruct (Z.eqb_spec (lp_id x) id) as [Ei|Ei]; [done|]. intros Hin. apply Ha in Hin as [_ Hin]. cbn in Hin. congruence.
  - intros Hin. apply Ha in Hin as [_ Hin]. done.
Qed.

Definition bump (o : option Z) : Z := match o with Some v => if v <? UINT32_MAX then v + 1 else v | None => 1 end.

Definition node_ok (n : LexTerm) : Prop := posts_ok (lt_posts n) /\ (length (lt_posts n) <= lt_cap n)%nat.

Lemma node_add_spec ok n id n' :
  node_ok n -> node_add ok n id = Some n' ->
  lt_term n' = lt_term n /\ node_ok n' /\ lt_posts n' <> [] /\
  posts_map (lt_posts n') = <[id := bump (posts_map (lt_posts n) !! id)]> (posts_map (lt_posts n)).
Proof.
  intros [Hs Hc] E. unfold node_add in E. pose proof (post_at_spec (lt_posts n) id Hs) as Hp.
  destruct (post_at _ _ _) as [x|].
  - destruct Hp as [Hl Hx]. injection E as <-. cbn [lt_term lt_posts lt_cap]. set (v := if _ <? _ then _ else _) in *.
    assert (posts_ok (<[post_lower_bound (lt_posts n) id := mkLexPost id v]> (lt_posts n))) as Hs'.
    { unfold posts_ok. rewrite list_fmap_insert. cbn [lp_id]. rewrite list_insert_id; [done|].
      rewrite list_lookup_fmap, Hl. cbn. by rewrite Hx. }
    assert (mkLexPost id (lp_tf x) ∈ lt_posts n) as Hin.
    { destruct x as [a b]. cbn in *. subst a. by eapply list_elem_of_lookup_2. }
    split_and!; [done|split; cbn [lt_posts lt_cap]; [done|by rewrite length_insert]| |].
    { intros E. apply (f_equal length) in E. rewrite length_insert in E. apply list_elem_of_lookup_2 in Hl.
      destruct (lt_posts n); [by apply elem_of_nil in Hl|done]. }
    rewrite (proj2 (posts_map_elem (lt_posts n) id (lp_tf x) Hs) Hin). cbn [bump]. fold v.
    apply map_eq. intros i. apply option_eq. intros w. rewrite posts_map_elem by done.
    pose proof (lookup_lt_Some _ _ _ Hl) as Hlt.
    destruct (decide (i = id)) as [->|Hne].
    + rewrite lookup_insert_eq. split; [|intros [= <-]; apply list_elem_of_lookup_2 with (post_lower_bound (lt_posts n) id); by rewrite list_lookup_insert_eq].
      intros Hw. apply (posts_map_elem _ _ _ Hs') in Hw.
      assert (posts_map (<[post_lower_bound (lt_posts n) id:=mkLexPost id v]> (lt_posts n)) !! id = Some v) as Hv.
      { apply posts_map_elem; [done|]. apply list_elem_of_lookup_2 with (post_lower_bound (lt_posts n) id).
        by rewrite list_lookup_insert_eq. }
      congruence.
    + rewrite lookup_insert_ne by done. rewrite posts_map_elem by done. rewrite !list_elem_of_lookup. split.
      * intros [k Hk]. destruct (decide (k = post_lower_bound (lt_posts n) id)) as [->|Hk'].
        { rewrite list_lookup_insert_eq in Hk by done. congruence. }
        rewrite list_lookup_insert_ne in Hk by done. by exists k.
      * intros [k Hk]. exists k. rewrite list_lookup_insert_ne; [done|]. intros <-. rewrite Hl in Hk. injection Hk as ->. done.
  - case_if; [done|]. injection E as <-. cbn [lt_term lt_posts lt_cap].
    assert (posts_ok (insert_at (post_lower_bound (lt_posts n) id) (mkLexPost id 1) (lt_posts n))) as Hs'.
    { unfold posts_ok. rewrite map_insert_at. by apply sa_insert_sorted. }
    split_and!; [done|split; cbn [lt_posts lt_cap]; [done|]| |].
    + rewrite length_insert_at. repeat case_if; lia.
    + intros E'. apply (f_equal length) in E'. by rewrite length_insert_at in E'.
    + rewrite (proj2 (posts_map_None (lt_posts n) id) Hp). cbn [bump].
      transitivity (posts_map (mkLexPost id 1 :: lt_posts n)); [|done]. apply list_to_map_proper.
      * rewrite posts_keys. by apply sorted_nodup.
      * apply Permutation_map, insert_at_Permutation.
Qed.

Lemma node_add_ok n id : is_Some (node_add true n id).
Proof. unfold node_add. destruct (post_at _ _ _); [by eexists|]. rewrite andb_false_r. by eexists. Qed.

(** What is left of a node. *)
Lemma node_remove_spec n id :
  node_ok n ->
  match node_remove id n with
  | Some n' => lt_term n' = lt_term n /\ node_ok n' /\ lt_posts n' <> [] /\
      posts_map (lt_posts n') = delete id (posts_map (lt_posts n))
  | None => delete id (posts_map (lt_posts n)) = ∅
  end.
Proof.
  intros [Hs Hc]. unfold node_remove. pose proof (post_at_spec (lt_posts n) id Hs) as Hp.
  set (posts := match post_at _ _ _ with Some _ => _ | None => _ end).
  assert (posts_ok posts /\ (length posts <= length (lt_posts n))%nat /\
          posts_map posts = delete id (posts_map (lt_posts n))) as (Hs' & Hl & Hm).
  { unfold posts. destruct (post_at _ _ _) as [x|].
    - destruct Hp as [Hl Hx]. split_and!.
      + unfold posts_ok. rewrite map_remove_at. by apply sa_remove_sorted.
      + rewrite length_remove_at; [lia|]. by eapply lookup_lt_Some.
      + pose proof (remove_at_Permutation _ _ _ Hl) as Hperm.
        transitivity (delete id (posts_map (x :: remove_at (post_lower_bound (lt_posts n) id) (lt_posts n)))).
        * cbn. rewrite Hx, delete_insert_id; [done|]. apply posts_map_None.
          pose proof (sorted_nodup _ Hs) as Hnd. rewrite (Permutation_map lp_id Hperm) in Hnd. cbn in Hnd.
          rewrite Hx in Hnd. by apply NoDup_cons in Hnd as [].
        * f_equal. apply list_to_map_proper; [|symmetry; by apply Permutation_map].
          rewrite posts_keys. rewrite <- (Permutation_map lp_id Hperm). by apply sorted_nodup.
    - split_and!; [done|done|]. rewrite delete_id; [done|]. by apply posts_map_None. }
  destruct (Nat.eqb_spec (length posts) 0) as [E|E].
  - apply nil_length_inv in E. by rewrite <- Hm, E.
  - cbn [lt_term lt_posts lt_cap]. split_and!; [done|split; cbn [lt_posts lt_cap]; [done|lia]| |done]. by intros ->.
Qed.

(** ** The term table *)

Definition postings (lx : LexicalIndex) (term : list Z) : gmap Z Z :=
  match term_find lx term with Some n => posts_map (lt_posts n) | None => ∅ end.

(** The table is well formed; only terms of [Q] may have a node without
    postings. *)
Record terms_wf (Q : list Z -> Prop) (lx : LexicalIndex) : Prop := {
  tm_tbl : tbl_wf lt_term (lx_buckets lx);
  tm_nodes : forall term n, term_find lx term = Some n -> node_ok n;
  tm_used : forall term n, term_find lx term = Some n -> lt_posts n <> [] \/ Q term;
  tm_count : lx_term_count lx = size (list_to_set (map lt_term (tbl_nodes (lx_buckets lx))) : gset (list Z))
}.

Lemma tbl_names_elem (T : list (list LexTerm)) s :
  tbl_wf lt_term T -> s ∈ map lt_term (tbl_nodes T) <-> is_Some (tbl_find lt_term T s).
Proof.
  intros W. rewrite list_elem_of_fmap. setoid_rewrite (elem_of_tbl_nodes lt_term T _ W). split.
  - intros (n & -> & Hn). by eexists.
  - intros [n Hn]. exists n. apply chain_find_Some in Hn as Hc. destruct Hc as [_ Hc]. by rewrite Hc.
Qed.

Lemma find_name lx term n : term_find lx term = Some n -> lt_term n = term.
Proof. intros Hn. by apply chain_find_Some in Hn as [_ ?]. Qed.

(** The size of the table when one name changes. *)
Lemma names_size (T T' : list (list LexTerm)) s :
  tbl_wf lt_term T -> tbl_wf lt_term T' ->
  (forall s', s' <> s -> is_Some (tbl_find lt_term T' s') <-> is_Some (tbl_find lt_term T s')) ->
  (size (list_to_set (map lt_term (tbl_nodes T')) : gset (list Z)) + (if tbl_find lt_term T s then 1 else 0) =
   size (list_to_set (map lt_term (tbl_nodes T)) : gset (list Z)) + (if tbl_find lt_term T' s then 1 else 0))%nat.
Proof.
  intros W W' Hs. set (A := list_to_set (map lt_term (tbl_nodes T)) : gset (list Z)).
  set (B := list_to_set (map lt_term (tbl_nodes T')) : gset (list Z)).
  assert (forall x, x ∈ A <-> is_Some (tbl_find lt_term T x)) as HA by (intros; unfold A; rewrite elem_of_list_to_set; by apply tbl_names_elem).
  assert (forall x, x ∈ B <-> is_Some (tbl_find lt_term T' x)) as HB by (intros; unfold B; rewrite elem_of_list_to_set; by apply tbl_names_elem).
  assert (A ∖ {[s]} = B ∖ {[s]}) as E.
  { apply set_eq. intros x. rewrite !elem_of_difference, elem_of_singleton, HA, HB. pose proof (Hs x). tauto. }
  assert (forall X : gset (list Z), (size X = size (X ∖ {[s]}) + if bool_decide (s ∈ X) then 1 else 0)%nat) as Hsz.
  { intros X. case_bool_decide as Hx.
    - rewrite size_difference, size_singleton by set_solver.
      assert (size ({[s]} : gset (list Z)) <= size X)%nat by (apply subseteq_size; set_solver). rewrite size_singleton in *. lia.
    - rewrite difference_disjoint_L by set_solver. lia. }
  rewrite (Hsz A), (Hsz B), E, (bool_decide_ext _ _ (HA s)), (bool_decide_ext _ _ (HB s)).
  assert (forall o : option LexTerm, bool_decide (is_Some o) = if o then true else false) as Hb.
  { intros [n|]; [by apply bool_decide_eq_true_2|]. apply bool_decide_eq_false_2. by intros [? ?]. }
  rewrite !Hb. destruct (tbl_find lt_term T s), (tbl_find lt_term T' s); lia.
Qed.

Lemma node_empty_ok term : node_ok (mkLexTerm term [] 0).
Proof. split; [constructor|done]. Qed.

Lemma node_add_name ok id n n' : Some (default n (node_add ok n id)) = Some n' -> lt_term n' = lt_term n.
Proof.
  intros [= <-]. destruct (node_add ok n id) as [m|] eqn:E; [|done]. cbn. unfold node_add in E.
  destruct (post_at _ _ _); [by injection E as <-|]. case_if; [done|]. by injection E as <-.
Qed.

(** Count an occurrence on the node of [term]. *)
Lemma bump_node_spec Q lx term n ok id n' :
  terms_wf Q lx -> term_find lx term = Some n -> node_add ok n id = Some n' ->
  let lx' := set_terms lx (tbl_update lt_term (fun n => Some (default n (node_add ok n id))) (lx_buckets lx) term)
               (lx_term_count lx) in
  terms_wf (fun t => Q t /\ t <> term) lx' /\
  forall t, postings lx' t = if decide (t = term) then <[id := bump (posts_map (lt_posts n) !! id)]> (posts_map (lt_posts n))
                             else postings lx t.
Proof.
  intros [W1 W2 W3 W4] Hn Ha lx'.
  destruct (node_add_spec ok n id n' (W2 _ _ Hn) Ha) as (Ht & Hok & Hne & Hm).
  assert (tbl_wf lt_term (lx_buckets lx')) as W1' by (apply tbl_update_wf; [apply node_add_name|done]).
  assert (forall t, term_find lx' t = if bool_decide (t = term) then Some n' else term_find lx t) as Hf.
  { intros t. unfold term_find, lx'. cbn [set_terms lx_buckets].
    rewrite tbl_find_update; [|apply node_add_name|done]. unfold term_find in Hn. rewrite Hn. cbn. by rewrite Ha. }
  split; [split; [done| | |]|].
  - intros t m. rewrite Hf. case_bool_decide; [by intros [= <-]|apply W2].
  - intros t m. rewrite Hf. case_bool_decide; [intros [= <-]; by left|]. intros Hm'. destruct (W3 t m Hm'); tauto.
  - pose proof (names_size (lx_buckets lx) (lx_buckets lx') term W1 W1') as Hsz. unfold term_find in Hf, Hn.
    rewrite (Hf term), bool_decide_eq_true_2, Hn, !Nat.add_1_r in Hsz by done. change (lx_term_count lx') with (lx_term_count lx).
    rewrite W4. symmetry. apply Nat.succ_inj, Hsz. intros s' Hs'. by rewrite Hf, bool_decide_eq_false_2.
  - intros t. unfold postings. rewrite Hf. case_bool_decide; [by rewrite decide_True|by rewrite decide_False].
Qed.

Lemma term_add_spec (Q : list Z -> Prop) ok1 ok2 lx term id lx' ok :
  terms_wf Q lx -> term_add ok1 ok2 lx term id = (lx', ok) ->
  lx_docs lx' = lx_docs lx /\ lx_total_len lx' = lx_total_len lx /\
  if ok then
    terms_wf Q lx' /\
    forall t, postings lx' t = if decide (t = term) then <[id := bump (postings lx term !! id)]> (postings lx term) else postings lx t
  else terms_wf (fun t => Q t \/ t = term) lx' /\ (forall t, postings lx' t = postings lx t) /\ (ok1 = false \/ ok2 = false).
Proof.
  intros W E. unfold term_add in E. cbn zeta in E.
  assert (forall (Q Q' : list Z -> Prop) l, (forall t, Q t -> Q' t) -> terms_wf Q l -> terms_wf Q' l) as Hmono.
  { intros Q1 Q2 l HQ [? ? W3 ?]. split; try done. intros t m Hm. destruct (W3 t m Hm); auto. }
  destruct (term_find lx term) as [n|] eqn:Hn.
  - destruct (node_add ok2 n id) as [n'|] eqn:Ha.
    + injection E as <- <-. cbn [set_terms lx_docs lx_total_len]. split; [done|]. split; [done|].
      destruct (bump_node_spec Q lx term n ok2 id n' W Hn Ha) as [W' Hp].
      split; [eapply Hmono; [|exact W']; intros t0; cbn; tauto|]. intros t. rewrite Hp. unfold postings at 2 3. by rewrite Hn.
    + injection E as <- <-. split; [done|]. split; [done|]. split; [eapply Hmono; [|exact W]; intros t0; cbn; tauto|]. split; [done|].
      right. destruct ok2; [|done]. destruct (node_add_ok n id) as [? E]. congruence.
  - destruct ok1; [|injection E as <- <-; split; [done|]; split; [done|]; split; [eapply Hmono; [|exact W]; intros t0; cbn; tauto|]; auto].
    set (n := mkLexTerm term [] 0) in *.
    set (lx1 := set_terms lx (tbl_push lt_term (lx_buckets lx) n) (S (lx_term_count lx))) in *.
    assert (forall t, term_find lx1 t = if bool_decide (t = term) then Some n else term_find lx t) as Hf.
    { intros t. apply (tbl_find_push lt_term (lx_buckets lx) n t), W. }
    assert (forall t, postings lx1 t = postings lx t) as Hp1.
    { intros t. unfold postings. rewrite Hf. case_bool_decide; [subst; by rewrite Hn|done]. }
    assert (terms_wf (fun t => Q t \/ t = term) lx1) as W1.
    { destruct W as [W1 W2 W3 W4]. assert (tbl_wf lt_term (lx_buckets lx1)) as W1' by (by apply tbl_push_wf). split; [done| | |].
      - intros t m. rewrite Hf. case_bool_decide; [intros [= <-]; apply node_empty_ok|apply W2].
      - intros t m. rewrite Hf. case_bool_decide; [by auto|]. intros Hm. destruct (W3 t m Hm); auto.
      - pose proof (names_size (lx_buckets lx) (lx_buckets lx1) term W1 W1') as Hsz. unfold term_find in Hf, Hn.
        rewrite (Hf term), bool_decide_eq_true_2, Hn in Hsz by done. cbn [lx1 set_terms lx_term_count]. rewrite W4.
        rewrite Nat.add_0_r, Nat.add_1_r in Hsz. symmetry. apply Hsz. intros s' Hs'. by rewrite Hf, bool_decide_eq_false_2. }
    assert (term_find lx1 term = Some n) as Hn1 by (by rewrite Hf, bool_decide_eq_true_2).
    destruct (node_add ok2 n id) as [n'|] eqn:Ha.
    + injection E as <- <-. cbn [set_terms lx1 lx_docs lx_total_len]. split; [done|]. split; [done|].
      destruct (bump_node_spec _ lx1 term n ok2 id n' W1 Hn1 Ha) as [W' Hp].
      split; [eapply Hmono; [|exact W']; intros t0; cbn; tauto|]. intros t. rewrite Hp.
      change (posts_map (lt_posts n)) with (∅ : gmap Z Z). unfold postings at 2 3. rewrite Hn. case_decide; [done|]. apply Hp1.
    + injection E as <- <-. split; [done|]. split; [done|]. split; [done|]. split; [done|].
      right. destruct ok2; [|done]. destruct (node_add_ok n id) as [? E]. congruence.
Qed.

Lemma node_remove_name id n n' : node_remove id n = Some n' -> lt_term n' = lt_term n.
Proof. unfold node_remove. case_if; [done|]. by intros [= <-]. Qed.

Lemma term_remove_spec (Q : list Z -> Prop) lx term id :
  terms_wf Q lx ->
  let lx' := term_remove lx term id in
  lx_docs lx' = lx_docs lx /\ lx_total_len lx' = lx_total_len lx /\ terms_wf (fun t => Q t /\ t <> term) lx' /\
  forall t, postings lx' t = if decide (t = term) then delete id (postings lx t) else postings lx t.
Proof.
  intros W. unfold term_remove. destruct (term_find lx term) as [n|] eqn:Hn; cbn zeta.
  2: { split; [done|]. split; [done|]. split.
       - destruct W as [? ? W3 ?]. split; try done. intros t m Hm. destruct (W3 t m Hm); [by left|].
         right. split; [done|]. intros ->. congruence.
       - intros t. case_decide; [|done]. subst t. unfold postings. rewrite Hn. by rewrite delete_empty. }
  destruct W as [W1 W2 W3 W4]. set (lx' := set_terms lx _ _).
  assert (tbl_wf lt_term (lx_buckets lx')) as W1' by (apply tbl_update_wf; [apply node_remove_name|done]).
  assert (forall t, term_find lx' t = if bool_decide (t = term) then node_remove id n else term_find lx t) as Hf.
  { intros t. unfold term_find, lx'. cbn [set_terms lx_buckets].
    rewrite tbl_find_update; [|apply node_remove_name|done]. unfold term_find in Hn. by rewrite Hn. }
  pose proof (node_remove_spec n id (W2 _ _ Hn)) as Hr.
  split; [done|]. split; [done|]. split; [split; [done| | |]|].
  - intros t m. rewrite Hf. case_bool_decide; [|apply W2]. intros E. rewrite E in Hr. by destruct Hr as (_ & ? & _).
  - intros t m. rewrite Hf. case_bool_decide.
    + intros E. rewrite E in Hr. destruct Hr as (_ & _ & ? & _). by left.
    + intros Hm. destruct (W3 t m Hm); auto.
  - pose proof (names_size (lx_buckets lx) (lx_buckets lx') term W1 W1') as Hsz. unfold term_find in Hf.
    rewrite (Hf term), bool_decide_eq_true_2, (Hn : tbl_find lt_term (lx_buckets lx) term = Some n) in Hsz by done.
    specialize (Hsz ltac:(intros s' Hs'; by rewrite Hf, bool_decide_eq_false_2)).
    cbn [lx' set_terms lx_term_count]. rewrite W4. unfold lx' in Hsz. cbn [set_terms lx_buckets] in Hsz.
    destruct (node_remove id n); revert Hsz; generalize (size (list_to_set (map lt_term (tbl_nodes (lx_buckets lx))) : gset (list Z)));
      intros k Hk; rewrite ?Nat.add_0_r, ?Nat.add_1_r in Hk; [symmetry; by apply Nat.succ_inj|].
    rewrite <- Hk. cbn. by rewrite Nat.sub_0_r.
  - intros t. unfold postings. rewrite Hf. case_bool_decide as Et; [rewrite decide_True by done|by rewrite decide_False].
    subst t. rewrite Hn. destruct (node_remove id n) as [n'|]; [by destruct Hr as (_ & _ & _ & ->)|done].
Qed.

Lemma foldl_remove_spec (Q : list Z -> Prop) lx id terms :
  terms_wf Q lx ->
  let lx' := foldl (fun lx term => term_remove lx term id) lx terms in
  lx_docs lx' = lx_docs lx /\ lx_total_len lx' = lx_total_len lx /\ terms_wf (fun t => Q t /\ t ∉ terms) lx' /\
  forall t, postings lx' t = if decide (t ∈ terms) then delete id (postings lx t) else postings lx t.
Proof.
  revert Q lx. induction terms as [|term terms IH]; intros Q lx W; cbn [foldl].
  { split; [done|]. split; [done|]. split.
    - destruct W as [? ? W3 ?]. split; try done. intros t m Hm. destruct (W3 t m Hm); [by left|]. right. split; [done|apply not_elem_of_nil].
    - intros t. rewrite decide_False by apply not_elem_of_nil. done. }
  destruct (term_remove_spec Q lx term id W) as (E1 & E2 & W' & Hp).
  destruct (IH _ _ W') as (E3 & E4 & W'' & Hp'). split; [congruence|]. split; [congruence|]. split.
  - destruct W'' as [? ? W3 ?]. split; try done. intros t m Hm. destruct (W3 t m Hm) as [|[[? ?] ?]]; [by left|].
    right. split; [done|]. by rewrite not_elem_of_cons.
  - intros t. rewrite Hp', Hp. destruct (decide (t = term)) as [->|Hne].
    + rewrite (decide_True (P := term ∈ term :: terms)) by left. case_decide; [|done]. by rewrite delete_delete_eq.
    + destruct (decide (t ∈ terms)) as [Hin|Hin].
      * by rewrite (decide_True (P := t ∈ term :: terms)) by (by right).
      * by rewrite (decide_False (P := t ∈ term :: terms)) by (by rewrite not_elem_of_cons).
Qed.

(** ** Documents *)

(** Occurrences of a term, saturating; [None] when there is none. *)
Definition tf_of (o : option Z) (term : list Z) (terms : list (list Z)) : option Z :=
  foldl (fun o t => if decide (t = term) then Some (bump o) else o) o terms.

Definition sat_len (dl : Z) (terms : list (list Z)) : Z :=
  foldl (fun dl _ => if dl <? UINT32_MAX then dl + 1 else dl) dl terms.

Lemma add_terms_spec al id terms k lx dl lx' dl' ok :
  terms_wf (fun _ => False) lx ->
  add_terms al k lx id dl terms = (lx', dl', ok) ->
  lx_docs lx' = lx_docs lx /\ lx_total_len lx' = lx_total_len lx /\
  if ok then
    terms_wf (fun _ => False) lx' /\ dl' = sat_len dl terms /\
    forall t i, postings lx' t !! i = if decide (i = id) then tf_of (postings lx t !! id) t terms else postings lx t !! i
  else terms_wf (fun t => t ∈ terms) lx' /\
    (forall t i, i <> id -> postings lx' t !! i = postings lx t !! i) /\
    (forall t, t ∉ terms -> postings lx' t = postings lx t) /\
    exists j, la_node al j = false \/ la_posts al j = false.
Proof.
  revert k lx dl. induction terms as [|term terms IH]; intros k lx dl W E; cbn [add_terms] in E.
  { injection E as <- <- <-. split_and!; try done. intros t i. case_decide; [by subst|done]. }
  destruct (term_add _ _ lx term id) as [lx1 ok1] eqn:Ea.
  destruct (term_add_spec _ _ _ _ _ _ _ _ W Ea) as (D1 & T1 & H1). destruct ok1.
  - destruct H1 as [W1 P1]. destruct (IH _ _ _ W1 E) as (D2 & T2 & H2). split; [congruence|]. split; [congruence|].
    destruct ok.
    + destruct H2 as (W2 & Hd & P2). split; [done|]. split; [done|]. intros t i. rewrite P2, !P1.
      cbn [tf_of foldl]. fold (tf_of (if decide (term = t) then Some (bump (postings lx t !! id)) else postings lx t !! id) t terms).
      destruct (decide (t = term)) as [->|Hne].
      * rewrite lookup_insert_eq, (decide_True (P := term = term)) by done. case_decide; [done|]. by rewrite lookup_insert_ne.
      * by rewrite (decide_False (P := term = t)) by congruence.
    + destruct H2 as (W2 & P2 & P3 & Hj). split_and!; [|intros t i Hi|intros t Ht|done].
      * destruct W2 as [? ? W3 ?]. split; try done. intros t m Hm. destruct (W3 t m Hm); [by left|right; by right].
      * rewrite P2, P1 by done. case_decide; [subst; by rewrite lookup_insert_ne|done].
      * apply not_elem_of_cons in Ht as [Hne Ht]. rewrite P3, P1 by done. by rewrite decide_False.
  - injection E as <- <- <-. destruct H1 as (W1 & P1 & Hj). split; [done|]. split; [done|]. split_and!; [| | |by exists k].
    + destruct W1 as [? ? W3 ?]. split; try done. intros t m Hm. destruct (W3 t m Hm) as [|[[]| ->]]; [by left|right; left].
    + intros t i _. by rewrite P1.
    + intros t _. by rewrite P1.
Qed.

Lemma tf_of_none term terms o : tf_of o term terms = None <-> o = None /\ term ∉ terms.
Proof.
  revert o. induction terms as [|t terms IH]; intros o; cbn [tf_of foldl].
  { split; [intros ->; split; [done|apply not_elem_of_nil]|by intros [-> _]]. }
  fold (tf_of (if decide (t = term) then Some (bump o) else o) term terms). rewrite IH, not_elem_of_cons.
  case_decide; naive_solver.
Qed.

(** The document a text is. *)
Definition doc_of (id : Z) (text : list Z) : LexDoc := mkLexDoc id (sat_len 0 (lex_tokens text)) SLOT_LIVE.

Definition docs_len (D : gmap Z (list Z)) : Z := map_fold (fun _ text n => sat_len 0 (lex_tokens text) + n) 0 D.

(** The index describes the texts of [D]. *)
Record lex_refines (lx : LexicalIndex) (D : gmap Z (list Z)) : Prop := {
  lr_terms : terms_wf (fun _ => False) lx;
  lr_posts : forall term id, postings lx term !! id = D !! id ≫= fun text => tf_of None term (lex_tokens text);
  lr_docs : pt_wf (lx_docs lx);
  lr_get : forall id, pt_get (lx_docs lx) id = doc_of id <$> D !! id;
  lr_words : forall id text, D !! id = Some text -> lex_tokens text <> [];
  lr_total : lx_total_len lx = wrap 64 (docs_len D)
}.

Lemma doc_slot_get lx id : pt_wf (lx_docs lx) -> doc_slot lx id = pt_get (lx_docs lx) id.
Proof.
  intros W. unfold doc_slot, pt_get. destruct (pt_find (lx_docs lx) id) as [j|] eqn:E; [|done]. cbn.
  apply pt_find_spec in E as (s & Hs & _); [|done]. unfold slot_at. by rewrite Hs.
Qed.

Lemma sat_len_pos dl terms : 0 <= dl -> terms <> [] -> 0 < sat_len dl terms.
Proof.
  intros Hd. assert (forall l d, 0 < d -> 0 < sat_len d l) as Hp.
  { induction l as [|t l IH]; intros d Hpos; [done|]. cbn. apply IH. case_if; lia. }
  destruct terms as [|t l]; [done|]. intros _. cbn. apply Hp. unfold UINT32_MAX. case_if; lia.
Qed.

Lemma docs_len_insert (D : gmap Z (list Z)) id text :
  D !! id = None -> docs_len (<[id := text]> D) = sat_len 0 (lex_tokens text) + docs_len D.
Proof. intros Hd. unfold docs_len. rewrite map_fold_insert_L; [done|intros; lia|done]. Qed.

Lemma docs_len_delete (D : gmap Z (list Z)) id text :
  D !! id = Some text -> docs_len D = sat_len 0 (lex_tokens text) + docs_len (delete id D).
Proof. intros Hd. unfold docs_len. rewrite (map_fold_delete_L _ _ id text D); [done|intros; lia|done]. Qed.

Lemma wrap_add_l w a b : wrap w (wrap w a + b) = wrap w (a + b).
Proof. unfold wrap. by rewrite Zplus_mod_idemp_l. Qed.
Lemma wrap_sub_l w a b : wrap w (wrap w a - b) = wrap w (a - b).
Proof. unfold wrap. by rewrite Zminus_mod_idemp_l. Qed.

Lemma doc_cap0_ok : (exists e, DOC_CAP0 = (2 ^ e)%nat) /\ (2 <= DOC_CAP0)%nat.
Proof. split; [by exists 6%nat|unfold DOC_CAP0; lia]. Qed.

Lemma lex_create_refines : lex_refines (mkLexicalIndex tbl_empty 0 pt_empty 0) ∅.
Proof.
  assert (forall t, term_find (mkLexicalIndex tbl_empty 0 pt_empty 0) t = None) as Hf by (intros; apply tbl_find_empty).
  split; [split| | | | |].
  - apply tbl_empty_wf.
  - intros t n. by rewrite Hf.
  - intros t n. by rewrite Hf.
  - cbn [lx_term_count lx_buckets]. symmetry. apply size_empty_iff. apply set_equiv. intros s.
    rewrite elem_of_list_to_set, (tbl_names_elem _ _ (tbl_empty_wf lt_term)), tbl_find_empty. split; [by intros [? ?]|set_solver].
  - intros t id. unfold postings. by rewrite Hf, !lookup_empty.
  - apply pt_empty_wf.
  - intros id. by rewrite lookup_empty.
  - intros id text. by rewrite lookup_empty.
  - done.
Qed.

(** The rollback of a failed addition. *)
Lemma rollback_refines (Q : list Z -> Prop) lx lx1 D id text :
  lex_refines lx D -> D !! id = None ->
  lx_docs lx1 = lx_docs lx -> lx_total_len lx1 = lx_total_len lx ->
  terms_wf Q lx1 -> (forall t, Q t -> t ∈ lex_tokens text) ->
  (forall t i, i <> id -> postings lx1 t !! i = postings lx t !! i) ->
  (forall t, t ∉ lex_tokens text -> postings lx1 t = postings lx t) ->
  lex_refines (unindex_text lx1 id text) D.
Proof.
  intros R Hid Ed Et W HQ P1 P2. unfold unindex_text.
  destruct (foldl_remove_spec Q lx1 id (lex_tokens text) W) as (Ed' & Et' & W' & P'). destruct R as [R1 R2 R3 R4 R5 R6].
  split; [| |by rewrite Ed', Ed|by rewrite Ed', Ed|done|by rewrite Et', Et].
  - destruct W' as [? ? W3 ?]. split; try done. intros t m Hm. destruct (W3 t m Hm) as [|[Hq Hn]]; [by left|]. by apply HQ in Hq.
  - intros t i. rewrite <- R2, P'. destruct (decide (t ∈ lex_tokens text)) as [Ht|Ht]; [|by rewrite P2].
    destruct (decide (i = id)) as [->|Hne]; [|by rewrite lookup_delete_ne, P1].
    rewrite lookup_delete_eq, R2, Hid. done.
Qed.

(** Indexing a text: a new document, or nothing when the id is known, the text
    has no terms or an allocation fails. *)
Definition lex_added (D : gmap Z (list Z)) (id : Z) (text : list Z) : gmap Z (list Z) :=
  match D !! id with Some _ => D | None => if decide (lex_tokens text = []) then D else <[id := text]> D end.

Lemma lex_add_refines al lx D id text lx' ok :
  lex_refines lx D -> lexical_index_add al (Some lx) id text = (lx', ok) ->
  exists lx2, lx' = Some lx2 /\ lex_refines lx2 (if ok then lex_added D id text else D) /\
  (ok = false -> D !! id = None /\ (la_docs al = false \/ exists j, la_node al j = false \/ la_posts al j = false)).
Proof.
  intros R E. unfold lexical_index_add in E. rewrite doc_slot_get, (lr_get _ _ R) in E by apply R. unfold lex_added.
  destruct (D !! id) as [old|] eqn:Hid; cbn [fmap option_fmap option_map] in E.
  { injection E as <- <-. exists lx. by rewrite ?Hid. }
  destruct (add_terms al 0 lx id 0 (lex_tokens text)) as [[lx1 dl] ok1] eqn:Ea.
  destruct (add_terms_spec _ _ _ _ _ _ _ _ _ (lr_terms _ _ R) Ea) as (Ed & Et & H1). destruct ok1.
  2: { destruct H1 as (W1 & P1 & P2 & Hj). injection E as <- <-. eexists. split; [done|]. split; [|auto].
       by eapply rollback_refines. }
  destruct H1 as (W1 & -> & P1).
  assert (forall t, postings lx t !! id = None) as Hnone by (intros t; by rewrite (lr_posts _ _ R), Hid).
  destruct (decide (lex_tokens text = [])) as [E0|E0].
  { rewrite E0 in E, P1. cbn in E. injection E as <- <-. exists lx1. split; [done|]. split; [|done].
    destruct R as [R1 R2 R3 R4 R5 R6]. split; [done| |by rewrite Ed|by rewrite Ed|done|by rewrite Et].
    intros t i. rewrite P1, <- R2. case_decide; [subst i|done]. cbn. by rewrite Hnone. }
  pose proof (sat_len_pos 0 (lex_tokens text) ltac:(lia) E0) as Hpos. rewrite (proj2 (Z.eqb_neq _ _)) in E by lia.
  unfold doc_put in E. rewrite Ed in E. destruct doc_cap0_ok as [Hc1 Hc2].
  destruct (pt_put_spec DOC_CAP0 (lx_docs lx) id (doc_of id text) Hc1 Hc2 (lr_docs _ _ R) eq_refl eq_refl)
    as (docs & j & Ep & Wd & _ & _ & Hg). fold (doc_of id text) in E.
  destruct (pt_put DOC_CAP0 (la_docs al) (lx_docs lx) id (doc_of id text)) as [[docs' j']|] eqn:Ep'.
  - apply pt_put_any in Ep' as Ep''. rewrite Ep in Ep''. injection Ep'' as <- <-.
    rewrite decide_True in E by (apply pt_get_None; [apply R|by rewrite (lr_get _ _ R), Hid]).
    injection E as <- <-. eexists. split; [done|]. split; [|done].
    destruct R as [R1 R2 R3 R4 R5 R6]. split; cbn [set_docs lx_docs lx_total_len lx_buckets].
    + destruct W1 as [? ? ? ?]. by split.
    + intros t i. change (postings (set_docs lx1 docs _) t) with (postings lx1 t). rewrite P1.
      destruct (decide (i = id)) as [->|Hne]; [by rewrite lookup_insert_eq, Hnone|by rewrite lookup_insert_ne, R2].
    + done.
    + intros i. rewrite Hg. destruct (decide (i = id)) as [->|Hne]; [|by rewrite lookup_insert_ne, R4].
      rewrite lookup_insert_eq, R4, Hid. done.
    + intros i x. destruct (decide (i = id)) as [->|Hne]; [rewrite lookup_insert_eq; by intros [= <-]|].
      rewrite lookup_insert_ne by done. apply R5.
    + rewrite Et, R6, wrap_add_l, docs_len_insert by done. f_equal. lia.
  - injection E as <- <-. eexists. split; [done|]. split.
    + eapply (rollback_refines (fun _ => False)); [done|done|done|done|done|done| |].
      * intros t i Hi. by rewrite P1, decide_False.
      * intros t Ht. apply map_eq. intros i. rewrite P1. case_decide; [subst i|done]. rewrite Hnone. by apply tf_of_none.
    + intros _. split; [done|]. left. destruct (la_docs al); [|done]. congruence.
Qed.

(** Removing a document with the text it was indexed under. *)
Lemma lex_remove_refines lx D id text :
  lex_refines lx D -> (forall old, D !! id = Some old -> lex_tokens old = lex_tokens text) ->
  exists lx', lexical_index_remove (Some lx) id text = Some lx' /\ lex_refines lx' (delete id D).
Proof.
  intros R Hold. unfold lexical_index_remove. rewrite doc_slot_get, (lr_get _ _ R) by apply R.
  destruct (D !! id) as [old|] eqn:Hid; cbn [fmap option_fmap option_map].
  2: { exists lx. split; [done|]. by rewrite delete_id. }
  eexists. split; [done|]. specialize (Hold old eq_refl). unfold unindex_text.
  destruct (foldl_remove_spec _ lx id (lex_tokens text) (lr_terms _ _ R)) as (Ed & Et & W & P).
  set (lx1 := foldl _ lx _) in *. unfold doc_del. rewrite Ed.
  assert (exists j, pt_find (lx_docs lx) id = Some j /\ slot_at (pt_slots (lx_docs lx)) j = doc_of id old) as (j & Hj & Hs).
  { pose proof (lr_get _ _ R id) as Hg. rewrite Hid in Hg. unfold pt_get in Hg. apply bind_Some in Hg as (j & Hj & Hs).
    exists j. split; [done|]. by apply slot_at_lookup. }
  rewrite Hj, Hs. destruct (pt_retire_spec (lx_docs lx) id j (mkLexDoc id (ld_len (doc_of id old)) SLOT_DEAD) (lr_docs _ _ R) Hj eq_refl)
    as [Wd Hg]. destruct R as [R1 R2 R3 R4 R5 R6]. split; cbn [set_docs lx_docs lx_total_len].
  - destruct W as [? ? W3 ?]. split; try done. intros t m Hm. destruct (W3 t m Hm) as [|[[] _]]. by left.
  - intros t i. change (postings (set_docs lx1 _ _) t) with (postings lx1 t). rewrite P.
    destruct (decide (i = id)) as [->|Hne].
    + rewrite lookup_delete_eq. cbn. case_decide as Ht; [by rewrite lookup_delete_eq|]. rewrite R2, Hid. cbn [mbind option_bind]. rewrite Hold.
      by apply tf_of_none.
    + rewrite lookup_delete_ne by done. rewrite <- R2. case_decide; [by rewrite lookup_delete_ne|done].
  - done.
  - intros i. rewrite Hg. destruct (decide (i = id)) as [->|Hne]; [by rewrite lookup_delete_eq|by rewrite lookup_delete_ne, R4].
  - intros i x Hi. apply lookup_delete_Some in Hi as [_ Hi]. by apply (R5 i).
  - rewrite Et, R6, wrap_sub_l, (docs_len_delete D id old Hid). f_equal. cbn. lia.
Qed.

(** ** Runs *)

(** Texts indexed and removed; a removal is given the text its id was indexed
    under, as the write path does. *)
Inductive LexOp := LAdd (al : LexAlloc) (id : Z) (text : list Z) | LRemove (id : Z).

Definition lex_step (st : option LexicalIndex * gmap Z (list Z)) (o : LexOp) : option LexicalIndex * gmap Z (list Z) :=
  let '(lx, D) := st in
  match o with
  | LAdd al id text =>
      let '(lx, ok) := lexical_index_add al lx id text in (lx, if ok then lex_added D id text else D)
  | LRemove id => (lexical_index_remove lx id (default [] (D !! id)), delete id D)
  end.

Definition lex_run (ops : list LexOp) : option LexicalIndex * gmap Z (list Z) :=
  foldl lex_step (lexical_index_create true, ∅) ops.

Lemma lex_run_refines ops : exists lx D, lex_run ops = (Some lx, D) /\ lex_refines lx D.
Proof.
  unfold lex_run. assert (exists lx D, (lexical_index_create true, ∅) = (Some lx, D) /\ lex_refines lx D) as Hinit.
  { eexists _, _. split; [done|]. apply lex_create_refines. }
  revert Hinit. generalize (lexical_index_create true, ∅ : gmap Z (list Z)).
  induction ops as [|o ops IH]; intros st Hst; cbn [foldl]; [done|]. apply IH. destruct Hst as (lx & D & -> & R).
  destruct o as [al id text|id]; cbn [lex_step].
  - destruct (lexical_index_add al (Some lx) id text) as [lx' ok] eqn:E.
    destruct (lex_add_refines _ _ _ _ _ _ _ R E) as (lx2 & -> & R2 & _). eauto.
  - destruct (lex_remove_refines lx D id (default [] (D !! id)) R) as (lx' & -> & R'); [by intros old ->|]. eauto.
Qed.

Lemma lex_docs_count lx D : lex_refines lx D -> pt_live (lx_docs lx) = size D.
Proof.
  intros R. pose proof (lr_docs _ _ R) as W. rewrite <- live_keys_length, <- size_dom by done.
  rewrite <- (size_list_to_set (C := gset Z)) by (by apply live_keys_nodup).
  f_equal. apply set_eq. intros id. rewrite elem_of_list_to_set, elem_of_live_keys by done.
  by rewrite elem_of_dom, (lr_get _ _ R), fmap_is_Some.
Qed.

(** The distinct terms of the indexed texts. *)
Definition corpus_terms (D : gmap Z (list Z)) : gset (list Z) :=
  list_to_set (concat (map (fun d => lex_tokens (snd d)) (map_to_list D))).

Lemma corpus_terms_elem D term :
  term ∈ corpus_terms D <-> exists id text, D !! id = Some text /\ term ∈ lex_tokens text.
Proof.
  unfold corpus_terms. rewrite elem_of_list_to_set, list_elem_of_In, in_concat. setoid_rewrite in_map_iff. split.
  - intros (ts & ([id text] & <- & Hd) & Ht). apply list_elem_of_In in Hd, Ht. apply elem_of_map_to_list in Hd. eauto.
  - intros (id & text & Hd & Ht). exists (lex_tokens text). rewrite <- list_elem_of_In. split; [|done].
    exists (id, text). split; [done|]. by apply list_elem_of_In, elem_of_map_to_list.
Qed.

Lemma lex_terms_count lx D : lex_refines lx D -> lx_term_count lx = size (corpus_terms D).
Proof.
  intros R. pose proof (lr_terms _ _ R) as W. rewrite (tm_count _ _ W). f_equal. apply set_eq. intros term.
  rewrite elem_of_list_to_set, tbl_names_elem, corpus_terms_elem by apply W.
  change (tbl_find lt_term (lx_buckets lx) term) with (term_find lx term). split.
  - intros [n Hn]. destruct (tm_used _ _ W term n Hn) as [Hne|[]]. pose proof (tm_nodes _ _ W term n Hn) as [Hs _].
    destruct (lt_posts n) as [|[id tf] ps] eqn:Ep; [done|].
    assert (postings lx term !! id = Some tf) as Hp.
    { unfold postings. rewrite Hn, Ep. apply posts_map_elem; [done|left]. }
    rewrite (lr_posts _ _ R) in Hp. apply bind_Some in Hp as (text & Hd & Ht). exists id, text. split; [done|].
    destruct (decide (term ∈ lex_tokens text)) as [|Hni]; [done|]. rewrite (proj2 (tf_of_none term _ None)) in Ht; done.
  - intros (id & text & Hd & Ht). destruct (term_find lx term) as [n|] eqn:Hn; [by eexists|]. exfalso.
    pose proof (lr_posts _ _ R term id) as Hp. unfold postings in Hp. rewrite Hn, lookup_empty, Hd in Hp.
    cbn [mbind option_bind] in Hp. symmetry in Hp. apply tf_of_none in Hp as [_ Hp]. done.
Qed.

(** How often a term occurs. *)
Definition occurrences (term : list Z) (terms : list (list Z)) : Z := Z.of_nat (length (filter (fun t => t = term) terms)).

Lemma tf_of_count term terms :
  tf_of None term terms =
  if decide (term ∈ terms) then Some (Z.min (occurrences term terms) UINT32_MAX) else None.
Proof.
  assert (forall terms v, 1 <= v <= UINT32_MAX ->
    tf_of (Some v) term terms = Some (Z.min (v + occurrences term terms) UINT32_MAX)) as Hs.
  { clear. unfold occurrences. induction terms as [|t terms IH]; intros v Hv; cbn [tf_of foldl].
    { f_equal. cbn. lia. }
    fold (tf_of (if decide (t = term) then Some (bump (Some v)) else Some v) term terms).
    rewrite filter_cons. destruct (decide (t = term)); [|by rewrite IH]. cbn [bump length].
    case_if; rewrite IH by (unfold UINT32_MAX in *; lia); f_equal; unfold UINT32_MAX in *; lia. }
  induction terms as [|t terms IH]; [done|]. cbn [tf_of foldl].
  fold (tf_of (if decide (t = term) then Some (bump None) else None) term terms).
  unfold occurrences. rewrite filter_cons. destruct (decide (t = term)) as [->|Hne].
  - rewrite (decide_True (P := term ∈ term :: terms)) by left. cbn [bump length]. rewrite Hs by (unfold UINT32_MAX; lia).
    unfold occurrences. f_equal. lia.
  - rewrite IH. destruct (decide (term ∈ terms)).
    + by rewrite (decide_True (P := term ∈ t :: terms)) by (by right).
    + by rewrite (decide_False (P := term ∈ t :: terms)) by (rewrite not_elem_of_cons; naive_solver).
Qed.

(** C33: Whatever texts are indexed and removed and whatever allocations fail,
    the lexical index is exactly the inverted index of the texts it holds: a
    term's postings are the documents it occurs in with how often it occurs
    (saturating at 2^32 - 1), documents keep their length in terms, a failed
    addition leaves no trace, and both counters are exact. *)
Theorem lexical_index_implements_docs ops :
  exists lx D, lex_run ops = (Some lx, D) /\
    (forall term id, postings lx term !! id =
       D !! id ≫= fun text => if decide (term ∈ spec_tokens text)
                              then Some (Z.min (occurrences term (spec_tokens text)) UINT32_MAX) else None) /\
    (forall id, ld_len <$> doc_slot lx id = (fun text => sat_len 0 (spec_tokens text)) <$> D !! id) /\
    (forall term n, term_find lx term = Some n -> posts_ok (lt_posts n) /\ lt_posts n <> []) /\
    lexical_index_docs (Some lx) = size D /\ lexical_index_terms (Some lx) = size (corpus_terms D).
Proof.
  destruct (lex_run_refines ops) as (lx & D & E & R). exists lx, D. split_and!; [done| | | | |].
  - intros term id. rewrite (lr_posts _ _ R). destruct (D !! id) as [text|]; [|done]. cbn [mbind option_bind].
    by rewrite tf_of_count, lex_tokens_spec.
  - intros id. rewrite doc_slot_get, (lr_get _ _ R) by apply R. destruct (D !! id) as [text|]; [|done].
    cbn [fmap option_fmap option_map]. unfold doc_of. cbn [ld_len]. by rewrite lex_tokens_spec.
  - intros term n Hn. pose proof (lr_terms _ _ R) as W. split; [by apply (tm_nodes _ _ W term)|].
    by destruct (tm_used _ _ W term n Hn) as [|[]].
  - by apply lex_docs_count.
  - by apply lex_terms_count.
Qed.

(** The tokenizer, a resumable scanner over the text, yields exactly the
    words of the text in order (maximal runs of term characters, trimmed of
    edge punctuation, cut at 64 bytes, lowercased), each followed by its
    sub-parts of two or more characters between delimiters; every term is
    non-empty and at most 64 bytes, so the loop over it ends. *)
Theorem lex_tokenizer_exact text :
  lex_tokens text = spec_tokens text /\
  forall term, term ∈ lex_tokens text -> (0 < length term <= LEX_MAX_TERM)%nat.
Proof.
  split; [apply lex_tokens_spec|]. rewrite lex_tokens_spec. intros term Ht. unfold spec_tokens in Ht.
  apply list_elem_of_In, in_concat in Ht as (ts & Hts & Ht). apply in_map_iff in Hts as (w & <- & Hw).
  apply list_elem_of_In in Hw, Ht. apply list_elem_of_filter in Hw as [Hne Hw].
  assert (length (map lower (take LEX_MAX_TERM w)) <= LEX_MAX_TERM)%nat as Hl by (rewrite length_map, length_take; lia).
  apply elem_of_cons in Ht as [->|Ht].
  - split; [|done]. rewrite length_map, length_take. destruct w; [done|]. cbn. unfold LEX_MAX_TERM. lia.
  - apply list_elem_of_filter in Ht as [Hs _]. unfold sub_wanted in Hs. zbool. lia.
Qed.
