(* ===== verification/LexSearch.v ===== *)
(** * Ranked text search ([lexical_index_search] of [src/storage/lexical_index.c])

    BM25 over the postings of [Lexical], in the double and float arithmetic of
    the source; [log] and [qsort] are those of the class [VecKernel]. *)

From S2P Require Import Prelude Endian SortedArray StrTable ProbeTable Floats OpenTable Hnsw Lexical.

Definition LEX_MAX_QUERY_TERMS : nat := 32.
Definition LEX_MAX_CANDIDATES : nat := Z.to_nat 65536.

(** The doubles 1.2, 0.75 and 0.5. *)
Definition LEX_BM25_K1 : spec_float := S754_finite false 5404319552844595 (-52).
Definition LEX_BM25_B : spec_float := S754_finite false 6755399441055744 (-53).
Definition dbl_half : spec_float := S754_finite false 4503599627370496 (-53).
Definition dbl_one : spec_float := f64_of_Z 1.

Record LexCand := mkLexCand { lc_id : Z; lc_score : spec_float }.

(** ** The query *)

(** Distinct terms in order, until there are [LEX_MAX_QUERY_TERMS]. *)
Fixpoint query_terms (tokens terms : list (list Z)) : list (list Z) :=
  match tokens with
  | [] => terms
  | t :: tokens' =>
      if (LEX_MAX_QUERY_TERMS <=? length terms)%nat then terms
      else if existsb (fun x => bool_decide (x = t)) terms then query_terms tokens' terms
      else query_terms tokens' (terms ++ [t])
  end.

(** Terms with postings. *)
Definition resolve_terms (lx : LexicalIndex) (terms : list (list Z)) : list LexTerm :=
  omap (fun t => match term_find lx t with
                 | Some n => if (length (lt_posts n) =? 0)%nat then None else Some n
                 | None => None
                 end) terms.

(** The insertion sort, rarest first, over the sorted part read from its end. *)
Fixpoint insert_rare (back : list LexTerm) (v : LexTerm) : list LexTerm :=
  match back with
  | [] => [v]
  | x :: back' => if (length (lt_posts v) <? length (lt_posts x))%nat then x :: insert_rare back' v else v :: back
  end.
Definition sort_rare (nodes : list LexTerm) : list LexTerm := rev (foldl insert_rare [] nodes).

(** ** Candidates *)

(** [acc_find]: the slot of the id, or the free slot where it belongs. *)
Definition acc_find (acc : list (option (Z * nat))) (id : Z) : nat := map_probe acc id.

Definition acc_grow (ok : bool) (acc : list (option (Z * nat))) (cands : list LexCand) : option (list (option (Z * nat))) :=
  if ok then
    Some (foldl (fun t (p : nat * LexCand) => <[acc_find t (lc_id p.2) := Some (lc_id p.2, p.1)]> t)
            (replicate (length acc * 2) None) (imap pair cands))
  else None.

Definition cmp_cand_desc (x y : LexCand) : Z :=
  if SFltb (lc_score x) (lc_score y) then 1
  else if SFltb (lc_score y) (lc_score x) then -1
  else if lc_id x <? lc_id y then -1
  else if lc_id y <? lc_id x then 1 else 0.

(** Outcomes of the allocations, by the number of candidates. *)
Record LexSearchOks := mkLexSearchOks { ls_init : bool; ls_cands : nat -> bool; ls_acc : nat -> bool; ls_out : bool }.

(** The table, the candidates and their allocated length. *)
Definition LexState : Type := list (option (Z * nat)) * list LexCand * nat.

(** One contribution; [None] is an allocation failure. *)
Definition acc_contrib (ok : LexSearchOks) (st : LexState) (id : Z) (contrib : spec_float) : option LexState :=
  let '(acc, cands, ccap) := st in
  match acc !! acc_find acc id with
  | Some (Some (_, idx)) =>
      Some (acc, alter (fun c => mkLexCand (lc_id c) (f32_add (lc_score c) (f32_of_f64 contrib))) idx cands, ccap)
  | _ =>
      let cn := length cands in
      if (LEX_MAX_CANDIDATES <=? cn)%nat then Some st
      else if (cn =? ccap)%nat && negb (ls_cands ok cn) then None
      else
        let ccap := if (cn =? ccap)%nat then (ccap * 2)%nat else ccap in
        let cands := cands ++ [mkLexCand id (f32_of_f64 contrib)] in
        let acc := <[acc_find acc id := Some (id, cn)]> acc in
        if (length acc * 3 <=? (S cn + 1) * 4)%nat then
          match acc_grow (ls_acc ok (S cn)) acc cands with
          | None => None
          | Some acc => Some (acc, cands, ccap)
          end
        else Some (acc, cands, ccap)
  end.

Section search.
Context `{VecKernel}.

Definition lex_idf (n_docs : spec_float) (df : nat) : spec_float :=
  let d := f64_of_Z (Z.of_nat df) in
  vk_log (f64_add dbl_one (f64_div (f64_add (f64_sub n_docs d) dbl_half) (f64_add d dbl_half))).

Definition lex_contrib (idf avgdl : spec_float) (tf len : Z) : spec_float :=
  let tf := f64_of_Z tf in
  let norm := f64_add tf (f64_mul LEX_BM25_K1
                (f64_add (f64_sub dbl_one LEX_BM25_B) (f64_div (f64_mul LEX_BM25_B (f64_of_Z len)) avgdl))) in
  f64_mul idf (f64_div (f64_mul tf (f64_add LEX_BM25_K1 dbl_one)) (if SFltb (S754_zero false) norm then norm else dbl_one)).

Definition lex_avgdl (lx : LexicalIndex) : spec_float :=
  let avgdl := if lx_total_len lx =? 0 then dbl_one else f64_div (f64_of_Z (lx_total_len lx)) (f64_of_Z (Z.of_nat (pt_live (lx_docs lx)))) in
  if SFleb avgdl (S754_zero false) then dbl_one else avgdl.

(** The postings of one term. *)
Fixpoint score_posts (ok : LexSearchOks) (lx : LexicalIndex) (idf avgdl : spec_float) (posts : list LexPost) (st : LexState) : option LexState :=
  match posts with
  | [] => Some st
  | p :: posts' =>
      match doc_slot lx (lp_id p) with
      | None => score_posts ok lx idf avgdl posts' st
      | Some d =>
          match acc_contrib ok st (lp_id p) (lex_contrib idf avgdl (lp_tf p) (ld_len d)) with
          | None => None
          | Some st => score_posts ok lx idf avgdl posts' st
          end
      end
  end.

Fixpoint score_terms (ok : LexSearchOks) (lx : LexicalIndex) (nodes : list LexTerm) (st : LexState) : option LexState :=
  match nodes with
  | [] => Some st
  | n :: nodes' =>
      let idf := lex_idf (f64_of_Z (Z.of_nat (pt_live (lx_docs lx)))) (length (lt_posts n)) in
      if SFleb idf (S754_zero false) then score_terms ok lx nodes' st
      else
        match score_posts ok lx idf (lex_avgdl lx) (lt_posts n) st with
        | None => None
        | Some st => score_terms ok lx nodes' st
        end
  end.

(** [None] is the result -1. *)
Definition lexical_index_search (ok : LexSearchOks) (lxo : option LexicalIndex) (query : option (list Z)) (top_k : nat)
  : option (list (Z * spec_float)) :=
  match lxo, query with
  | Some lx, Some q =>
      if (top_k =? 0)%nat || (pt_live (lx_docs lx) =? 0)%nat then Some []
      else
        let nodes := sort_rare (resolve_terms lx (query_terms (lex_tokens q) [])) in
        if (length nodes =? 0)%nat then Some []
        else if negb (ls_init ok) then None
        else
          match score_terms ok lx nodes (replicate 256 None, [], 64%nat) with
          | None => None
          | Some (_, cands, _) =>
              if (length cands =? 0)%nat then Some []
              else if negb (ls_out ok) then None
              else Some (map (fun c => (lc_id c, lc_score c)) (take top_k (vk_qsort cmp_cand_desc cands)))
          end
  | _, _ => Some []
  end.
End search.
