(* ===== verification/LexSearchCorrect.v ===== *)
(** * What the text search answers

    The ranking of [LexSearch] is a function of the indexed documents alone: the
    score of a document is the sum of its BM25 contributions over the distinct
    terms of the query, rarest first, and the answer is the head of the scored
    documents in order. *)

From S2P Require Import Prelude Endian SortedArray StrTable ProbeTable Floats OpenTable Hnsw SemanticIndex SemanticTopK Lexical LexicalCorrect LexSearch.

#[local] Opaque LEX_MAX_CANDIDATES.

(** ** Contributions to candidates *)

(** The ids of a sequence of contributions by first appearance, and the score
    of one. *)
Definition firsts (hits : list (Z * spec_float)) : list Z :=
  foldl (fun l x => if decide (x.1 ∈ l) then l else l ++ [x.1]) [] hits.

Definition add_score (o : option spec_float) (c : spec_float) : option spec_float :=
  Some (match o with None => f32_of_f64 c | Some s => f32_add s (f32_of_f64 c) end).

Definition score_in (hits : list (Z * spec_float)) (id : Z) : option spec_float :=
  foldl (fun o x => if x.1 =? id then add_score o x.2 else o) None hits.

Lemma hit_firsts_snoc h x : firsts (h ++ [x]) = if decide (x.1 ∈ firsts h) then firsts h else firsts h ++ [x.1].
Proof. unfold firsts. by rewrite foldl_app. Qed.

Lemma score_in_snoc h x id : score_in (h ++ [x]) id = if x.1 =? id then add_score (score_in h id) x.2 else score_in h id.
Proof. unfold score_in. by rewrite foldl_app. Qed.

Lemma firsts_elem h id : id ∈ firsts h <-> id ∈ h.*1.
Proof.
  induction h as [|x h IH] using rev_ind; [done|]. rewrite hit_firsts_snoc, fmap_app, elem_of_app. cbn. rewrite list_elem_of_singleton.
  destruct (decide (x.1 ∈ firsts h)) as [Hin|Hin]; [|by rewrite elem_of_app, list_elem_of_singleton, IH]. rewrite <- IH. split; [by left|]. intros [?| ->]; done.
Qed.

Lemma firsts_nodup h : NoDup (firsts h).
Proof.
  induction h as [|x h IH] using rev_ind; [constructor|]. rewrite hit_firsts_snoc. destruct (decide _) as [Hin|Hin]; [done|].
  apply NoDup_app. split; [done|]. split; [|apply NoDup_singleton]. intros y Hy ->%list_elem_of_singleton. done.
Qed.

Lemma score_in_Some h id : is_Some (score_in h id) <-> id ∈ firsts h.
Proof.
  rewrite firsts_elem. induction h as [|x h IH] using rev_ind; [split; [by intros []|set_solver]|].
  rewrite score_in_snoc, fmap_app, elem_of_app. cbn. rewrite list_elem_of_singleton. destruct (Z.eqb_spec x.1 id) as [<-|Hne].
  - split; [by right|]. intros _. unfold add_score. eauto.
  - rewrite IH. split; [by left|]. intros [?| ->]; done.
Qed.

Definition cand_of (h : list (Z * spec_float)) (id : Z) : LexCand := mkLexCand id (default (S754_zero false) (score_in h id)).
Definition cands_of (h : list (Z * spec_float)) : list LexCand := cand_of h <$> take LEX_MAX_CANDIDATES (firsts h).

Lemma cands_ids h : lc_id <$> cands_of h = take LEX_MAX_CANDIDATES (firsts h).
Proof. unfold cands_of. rewrite <- list_fmap_compose. cbn. apply list_fmap_id. Qed.

Lemma cands_nodup h : NoDup (lc_id <$> cands_of h).
Proof. rewrite cands_ids. eapply sublist_NoDup; [apply firsts_nodup|apply sublist_take]. Qed.

(** The table points each candidate's id at its place, with room to spare. *)
Record lex_state_ok (h : list (Z * spec_float)) (st : LexState) : Prop := {
  lso_cands : st.1.2 = cands_of h;
  lso_wf : ot_wf st.1.1;
  lso_map : ot_map st.1.1 = pos_map lc_id (cands_of h);
  lso_room : ((length (cands_of h) + 1) * 4 < length st.1.1 * 3)%nat;
  lso_big : (256 <= length st.1.1)%nat
}.

Lemma acc_grow_spec acc cands :
  pow2 (length acc) -> NoDup (lc_id <$> cands) -> (length cands < length acc)%nat ->
  exists acc', acc_grow true acc cands = Some acc' /\ ot_wf acc' /\ ot_map acc' = pos_map lc_id cands /\ length acc' = (length acc * 2)%nat.
Proof.
  intros Hp Hn Hl. eexists. split; [done|].
  assert (forall l t, foldl (fun t (p : nat * LexCand) => <[acc_find t (lc_id p.2) := Some (lc_id p.2, p.1)]> t) t l =
    foldl (fun t kv => ot_set t kv.1 kv.2) t ((fun p => (lc_id p.2, p.1)) <$> l)) as Hf by (induction l as [|p l IH]; intros t; cbn; [done|apply IH]).
  rewrite Hf. assert ((fun p : nat * LexCand => (lc_id p.2, p.1)) <$> imap pair cands = positions lc_id cands) as -> by (unfold positions; by rewrite fmap_imap).
  pose proof (rehash_into_spec (length acc * 2) (positions lc_id cands) (pow2_double _ Hp)) as Hr. rewrite positions_keys, length_positions in Hr.
  destruct (Hr Hn ltac:(lia)) as (W & E & L). unfold rehash_into in *.
  assert (forall l t, ot_wf t -> NoDup l.*1 -> (forall k, k ∈ l.*1 -> ot_map t !! k = None) -> (length (entries t) + length l < length t)%nat ->
    foldl (fun t kv => ot_set t kv.1 kv.2) t l = foldl (place (V := nat)) t l) as Hs.
  { clear. induction l as [|[k v] l IH]; intros t W Hn Hk Hl; [done|]. cbn [foldl fst snd]. cbn in Hn, Hl. apply NoDup_cons in Hn as [Hkl Hn].
    assert (ot_map t !! k = None) as Hkn by (apply Hk; by left). rewrite (place_set t k v W Hkn).
    destruct (ot_set_spec t k v W) as [W1 E1]; [left; lia|]. apply IH; [done|done| |].
    - intros k' Hk'. rewrite E1, lookup_insert_ne; [apply Hk; by right|]. by intros ->.
    - rewrite length_ot_set, <- (ot_map_size _ W1), E1, map_size_insert_None, (ot_map_size _ W) by done. lia. }
  rewrite Hs; [done|apply empty_table_wf; by apply pow2_double|by rewrite positions_keys| |].
  - intros k _. unfold ot_map. by rewrite empty_table.
  - rewrite empty_table, length_replicate, length_positions. cbn. lia.
Qed.

Definition lex_allocs_ok (ok : LexSearchOks) : Prop :=
  ls_init ok = true /\ (forall n, ls_cands ok n = true) /\ (forall n, ls_acc ok n = true) /\ ls_out ok = true.

(** An id among the candidates. *)
Lemma cands_update h id c idx :
  pos_map lc_id (cands_of h) !! id = Some idx ->
  alter (fun x => mkLexCand (lc_id x) (f32_add (lc_score x) (f32_of_f64 c))) idx (cands_of h) = cands_of (h ++ [(id, c)]).
Proof.
  intros Hp. apply pos_map_lookup in Hp as (x & Hx & Hid); [|apply cands_nodup].
  assert (id ∈ firsts h) as Hin.
  { assert (id ∈ lc_id <$> cands_of h) as Hi by (apply list_elem_of_fmap; exists x; split; [done|by eapply list_elem_of_lookup_2]). rewrite cands_ids in Hi. apply elem_of_take in Hi as (i & Hi & _). by eapply list_elem_of_lookup_2. }
  unfold cands_of at 2. rewrite hit_firsts_snoc, decide_True by done. apply list_eq. intros j. destruct (decide (idx = j)) as [<-|Hne].
  - rewrite list_lookup_alter_eq, Hx. unfold cands_of in Hx. rewrite list_lookup_fmap in Hx |- *. apply fmap_Some in Hx as (id' & Hj & ->). rewrite Hj. cbn in Hid. subst id'.
    cbn. f_equal. unfold cand_of. f_equal. rewrite score_in_snoc. cbn. rewrite Z.eqb_refl. apply score_in_Some in Hin as [s Hs]. by rewrite Hs.
  - rewrite list_lookup_alter_ne by done. unfold cands_of. rewrite !list_lookup_fmap. destruct (take _ (firsts h) !! j) as [id'|] eqn:Hj; [|done]. cbn. f_equal.
    unfold cand_of. f_equal. rewrite score_in_snoc. cbn. destruct (Z.eqb_spec id id') as [<-|]; [|done]. exfalso. apply Hne.
    assert ((lc_id <$> cands_of h) !! idx = Some id) as H1 by (rewrite list_lookup_fmap, Hx; cbn; by rewrite Hid). rewrite cands_ids in H1.
    eapply (NoDup_lookup (take LEX_MAX_CANDIDATES (firsts h))); [rewrite <- cands_ids; apply cands_nodup|done|done].
Qed.

(** An id that is not among them. *)
Lemma cands_other h id c (l : list Z) :
  (forall x, x ∈ l -> x <> id) -> cand_of (h ++ [(id, c)]) <$> l = cand_of h <$> l.
Proof.
  intros Hl. apply list_fmap_ext. intros i x Hx. unfold cand_of. f_equal. rewrite score_in_snoc. cbn.
  destruct (Z.eqb_spec id x) as [<-|]; [|done]. exfalso. eapply Hl; [by eapply list_elem_of_lookup_2|done].
Qed.

Lemma cands_extend h id c :
  pos_map lc_id (cands_of h) !! id = None ->
  cands_of (h ++ [(id, c)]) =
    if (LEX_MAX_CANDIDATES <=? length (cands_of h))%nat then cands_of h else cands_of h ++ [mkLexCand id (f32_of_f64 c)].
Proof.
  intros Hp. assert (id ∉ take LEX_MAX_CANDIDATES (firsts h)) as Hni.
  { rewrite <- cands_ids. intros Hin. apply list_elem_of_fmap in Hin as (x & -> & Hx). apply list_elem_of_lookup in Hx as [i Hi].
    assert (pos_map lc_id (cands_of h) !! lc_id x = Some i) by (apply pos_map_lookup; [apply cands_nodup|eauto]). congruence. }
  assert (length (cands_of h) = Nat.min LEX_MAX_CANDIDATES (length (firsts h))) as Hlen by (unfold cands_of; by rewrite length_fmap, length_take).
  assert (cand_of (h ++ [(id, c)]) <$> take LEX_MAX_CANDIDATES (firsts h) = cands_of h) as Hold.
  { apply cands_other. intros x Hx ->. done. }
  unfold cands_of at 1. rewrite hit_firsts_snoc. destruct (Nat.leb_spec LEX_MAX_CANDIDATES (length (cands_of h))) as [Hfull|Hroom].
  - destruct (decide _); [done|]. rewrite take_app_le by lia. done.
  - assert (take LEX_MAX_CANDIDATES (firsts h) = firsts h) as Et by (apply take_ge; lia). rewrite Et in *. rewrite decide_False by done.
    rewrite take_ge by (rewrite length_app; cbn; lia). rewrite fmap_app, Hold. cbn. f_equal. f_equal. unfold cand_of. f_equal.
    rewrite score_in_snoc. cbn. rewrite Z.eqb_refl. destruct (score_in h id) eqn:Es; [|done]. exfalso. apply Hni. apply score_in_Some. eauto.
Qed.

Lemma acc_contrib_ok ok h st id c :
  lex_state_ok h st -> lex_allocs_ok ok -> exists st', acc_contrib ok st id c = Some st' /\ lex_state_ok (h ++ [(id, c)]) st'.
Proof.
  destruct st as [[acc cands] ccap]. intros [Hc W Hm Hr Hb] (_ & Hal & Hag & _). cbn [fst snd] in *. subst cands. unfold acc_contrib, acc_find.
  pose proof (map_probe_cases acc id W) as Hp. rewrite Hm in Hp. destruct (pos_map lc_id (cands_of h) !! id) as [idx|] eqn:Ep.
  - unfold holds_at in Hp. rewrite Hp. eexists. split; [done|]. rewrite (cands_update h id c idx Ep). split; cbn [fst snd]; try done.
    + rewrite Hm, <- (cands_update h id c idx Ep). by rewrite pos_map_alter.
    + rewrite <- (cands_update h id c idx Ep), length_alter. done.
  - destruct Hp as [Hfree _]. unfold free_at in Hfree. rewrite Hfree. pose proof (cands_extend h id c Ep) as Ec.
    destruct (Nat.leb_spec LEX_MAX_CANDIDATES (length (cands_of h))) as [Hfull|Hroom].
    { eexists. split; [done|]. split; cbn [fst snd]; rewrite ?Ec; done. }
    rewrite Hal, andb_false_r. cbn zeta. change (<[map_probe acc id := Some (id, length (cands_of h))]> acc) with (ot_set acc id (length (cands_of h))).
    pose proof (ot_map_size _ W) as Hsz. rewrite Hm, pos_map_size in Hsz by apply cands_nodup.
    destruct (ot_set_spec acc id (length (cands_of h)) W) as [W' E']; [left; lia|].
    assert (ot_map (ot_set acc id (length (cands_of h))) = pos_map lc_id (cands_of (h ++ [(id, c)]))) as E''.
    { rewrite E', Hm, Ec, pos_map_snoc; [done|]. rewrite <- Ec. apply cands_nodup. }
    rewrite length_ot_set. destruct (Nat.leb_spec (length acc * 3) ((S (length (cands_of h)) + 1) * 4)) as [Hg|Hg].
    + rewrite Hag. destruct (acc_grow_spec (ot_set acc id (length (cands_of h))) (cands_of (h ++ [(id, c)]))) as (acc' & Eg & Wg & Mg & Lg).
      * apply W'.
      * apply cands_nodup.
      * rewrite Ec, length_ot_set, length_app. cbn. lia.
      * rewrite <- Ec, Eg. eexists. split; [done|]. split; cbn [fst snd]; try done; rewrite Lg, length_ot_set; [rewrite Ec, length_app; cbn; lia|lia].
    + eexists. split; [done|]. split; cbn [fst snd]; try done; [|by rewrite length_ot_set]. rewrite Ec, length_app, length_ot_set. cbn. lia.
Qed.

Lemma cands_nil : cands_of [] = [].
Proof. unfold cands_of. change (firsts []) with (@nil Z). by rewrite take_nil. Qed.

Lemma lex_state_start : lex_state_ok [] (replicate 256 None, [], 64%nat).
Proof.
  split; rewrite ?cands_nil; cbn [fst snd]; [done|apply empty_table_wf; by exists 8%nat|unfold ot_map; by rewrite empty_table|rewrite length_replicate; cbn; lia|by rewrite length_replicate].
Qed.

(** ** Contributions of the terms *)

Section search.
Context `{VecKernel}.

Definition post_hits (lx : LexicalIndex) (idf avgdl : spec_float) (posts : list LexPost) : list (Z * spec_float) :=
  omap (fun p => (fun d => (lp_id p, lex_contrib idf avgdl (lp_tf p) (ld_len d))) <$> doc_slot lx (lp_id p)) posts.

Definition node_idf (lx : LexicalIndex) (n : LexTerm) : spec_float :=
  lex_idf (f64_of_Z (Z.of_nat (pt_live (lx_docs lx)))) (length (lt_posts n)).

Definition node_hits (lx : LexicalIndex) (n : LexTerm) : list (Z * spec_float) :=
  if SFleb (node_idf lx n) (S754_zero false) then [] else post_hits lx (node_idf lx n) (lex_avgdl lx) (lt_posts n).

Lemma score_posts_ok ok lx idf avgdl posts h st :
  lex_state_ok h st -> lex_allocs_ok ok ->
  exists st', score_posts ok lx idf avgdl posts st = Some st' /\ lex_state_ok (h ++ post_hits lx idf avgdl posts) st'.
Proof.
  intros Hs Hal. revert h st Hs. induction posts as [|p posts IH]; intros h st Hs; cbn [score_posts post_hits omap list_omap].
  { exists st. by rewrite app_nil_r. }
  destruct (doc_slot lx (lp_id p)) as [d|]; cbn [fmap option_fmap option_map]; [|by apply IH].
  destruct (acc_contrib_ok ok h st (lp_id p) (lex_contrib idf avgdl (lp_tf p) (ld_len d)) Hs Hal) as (st1 & -> & Hs1).
  destruct (IH _ _ Hs1) as (st2 & -> & Hs2). exists st2. split; [done|]. by rewrite <- app_assoc in Hs2.
Qed.

Lemma score_terms_ok ok lx nodes h st :
  lex_state_ok h st -> lex_allocs_ok ok ->
  exists st', score_terms ok lx nodes st = Some st' /\ lex_state_ok (h ++ concat (node_hits lx <$> nodes)) st'.
Proof.
  intros Hs Hal. revert h st Hs. induction nodes as [|n nodes IH]; intros h st Hs; cbn [score_terms fmap list_fmap concat].
  { exists st. by rewrite app_nil_r. }
  fold (node_idf lx n). rewrite app_assoc. unfold node_hits at 1. destruct (SFleb (node_idf lx n) (S754_zero false)); [rewrite app_nil_r; by apply IH|].
  destruct (score_posts_ok ok lx (node_idf lx n) (lex_avgdl lx) (lt_posts n) h st Hs Hal) as (st1 & -> & Hs1). by apply IH.
Qed.

(** ** Order *)

Lemma lex_cmp_total a b : cmp_cand_desc a b <= 0 \/ cmp_cand_desc b a <= 0.
Proof.
  unfold cmp_cand_desc. destruct (SFltb (lc_score a) (lc_score b)) eqn:E; [right; rewrite (sf_ltb_asym _ _ E); lia|].
  destruct (SFltb (lc_score b) (lc_score a)); [left; lia|]. destruct (Z.ltb_spec (lc_id a) (lc_id b)), (Z.ltb_spec (lc_id b) (lc_id a)); lia.
Qed.

(** Better: a higher score, or the same and a smaller id. *)
Definition cand_le (a b : LexCand) : Prop :=
  SFltb (lc_score a) (lc_score b) = false /\ (SFltb (lc_score b) (lc_score a) = false -> lc_id a <= lc_id b).

Lemma cmp_cand_le a b : cmp_cand_desc a b <= 0 <-> cand_le a b.
Proof.
  unfold cmp_cand_desc, cand_le. destruct (SFltb (lc_score a) (lc_score b)) eqn:E; [split; [lia|by intros [? _]]|].
  destruct (SFltb (lc_score b) (lc_score a)); [split; [done|lia]|].
  destruct (Z.ltb_spec (lc_id a) (lc_id b)); [split; [intros _; split; [done|lia]|lia]|]. destruct (Z.ltb_spec (lc_id b) (lc_id a)); [split; [lia|intros [_ Hc]; specialize (Hc eq_refl); lia]|].
  split; [intros _; split; [done|lia]|lia].
Qed.

Lemma cand_le_trans a b c :
  lc_score a <> S754_nan -> lc_score b <> S754_nan -> lc_score c <> S754_nan -> cand_le a b -> cand_le b c -> cand_le a c.
Proof.
  intros Na Nb Nc [H1 H2] [H3 H4]. split; [by eapply (sf_ltb_neg_trans _ (lc_score b))|]. intros H5.
  assert (SFltb (lc_score b) (lc_score a) = false) as E1 by (by eapply (sf_ltb_neg_trans _ (lc_score c))).
  assert (SFltb (lc_score c) (lc_score b) = false) as E2 by (by eapply (sf_ltb_neg_trans _ (lc_score a))). specialize (H2 E1). specialize (H4 E2). lia.
Qed.

Lemma qsort_cands (l : list LexCand) :
  Forall (fun c => lc_score c <> S754_nan) l -> StronglySorted cand_le (vk_qsort cmp_cand_desc l).
Proof.
  intros Hn. rewrite Forall_forall in Hn. assert (StronglySorted (fun a b => cmp_cand_desc a b <= 0) (vk_qsort cmp_cand_desc l)) as Hs.
  { apply vk_qsort_sorted; [apply lex_cmp_total|]. intros a b c Ha Hb Hc. rewrite !cmp_cand_le. apply cand_le_trans; by apply Hn. }
  induction Hs as [|x l' Hs IH Hf]; [constructor|]. constructor; [done|]. eapply Forall_impl; [exact Hf|]. intros y. apply cmp_cand_le.
Qed.

(** ** The documents *)

(** How often a term occurs in a document, and in how many it does. *)
Definition term_freq (D : gmap Z (list Z)) (t : list Z) (id : Z) : option Z :=
  D !! id ≫= fun text => if decide (t ∈ spec_tokens text) then Some (Z.min (occurrences t (spec_tokens text)) UINT32_MAX) else None.
Definition doc_freq (D : gmap Z (list Z)) (t : list Z) : nat := size (filter (fun d : Z * list Z => t ∈ spec_tokens d.2) D).

(** The terms of the query that occur, rarest first, equally rare ones in the
    order of the query. *)
Definition rare_terms (D : gmap Z (list Z)) (q : list Z) : list (list Z) :=
  concat ((fun k => filter (fun t => doc_freq D t = k) (query_terms (spec_tokens q) [])) <$> seq 1 (size D)).

Definition mean_length (D : gmap Z (list Z)) : spec_float :=
  let total := wrap 64 (docs_len D) in
  let avgdl := if total =? 0 then dbl_one else f64_div (f64_of_Z total) (f64_of_Z (Z.of_nat (size D))) in
  if SFleb avgdl (S754_zero false) then dbl_one else avgdl.

(** The contribution of a term to a document that holds it. *)
Definition doc_contrib (D : gmap Z (list Z)) (t : list Z) (id : Z) : option spec_float :=
  let idf := lex_idf (f64_of_Z (Z.of_nat (size D))) (doc_freq D t) in
  if SFleb idf (S754_zero false) then None
  else match D !! id, term_freq D t id with
       | Some text, Some tf => Some (lex_contrib idf (mean_length D) tf (sat_len 0 (spec_tokens text)))
       | _, _ => None
       end.

Definition bm25 (D : gmap Z (list Z)) (q : list Z) (id : Z) : option spec_float :=
  foldl (fun o t => match doc_contrib D t id with Some c => add_score o c | None => o end) None (rare_terms D q).

(** ** The insertion sort is a stable sort *)

Lemma insert_rare_split A B v :
  (forall x, x ∈ A -> (length (lt_posts x) <= length (lt_posts v))%nat) -> (forall x, x ∈ B -> (length (lt_posts v) < length (lt_posts x))%nat) ->
  insert_rare (rev (A ++ B)) v = rev (A ++ [v] ++ B).
Proof.
  intros HA HB. rewrite !rev_app_distr. cbn [rev app]. revert HB. generalize (rev B) (in_rev B). intros B'. intros Hin HB.
  assert (forall x, x ∈ B' -> (length (lt_posts v) < length (lt_posts x))%nat) as HB' by (intros x Hx; apply HB, list_elem_of_In, Hin, list_elem_of_In, Hx).
  clear Hin HB. induction B' as [|x B' IH]; cbn [app insert_rare].
  - destruct (rev A) as [|a A'] eqn:E; [done|]. cbn [insert_rare].
    assert (a ∈ A) as Ha by (apply list_elem_of_In, in_rev; rewrite E; by left). specialize (HA a Ha).
    destruct (Nat.ltb_spec (length (lt_posts v)) (length (lt_posts a))); [lia|done].
  - pose proof (HB' x ltac:(left)). destruct (Nat.ltb_spec (length (lt_posts v)) (length (lt_posts x))); [|lia]. rewrite IH; [done|]. intros y Hy. apply HB'. by right.
Qed.

Definition rarity (nodes : list LexTerm) (ks : list nat) : list LexTerm :=
  concat ((fun k => filter (fun n => length (lt_posts n) = k) nodes) <$> ks).

Lemma rarity_elem nodes ks x : x ∈ rarity nodes ks -> length (lt_posts x) ∈ ks.
Proof.
  unfold rarity. intros Hx. apply list_elem_of_In, in_concat in Hx as (l & Hl & Hx). apply list_elem_of_In in Hl, Hx.
  apply list_elem_of_fmap in Hl as (k & -> & Hk). by apply list_elem_of_filter in Hx as [<- _].
Qed.

Lemma rarity_snoc nodes v ks : length (lt_posts v) ∉ ks -> rarity (nodes ++ [v]) ks = rarity nodes ks.
Proof.
  intros Hv. unfold rarity. f_equal. apply list_fmap_ext. intros i k Hk. rewrite filter_app. cbn [filter list_filter].
  rewrite decide_False; [by rewrite app_nil_r|]. intros <-. apply Hv. by eapply list_elem_of_lookup_2.
Qed.

Lemma sort_rare_stable nodes N :
  (forall n, n ∈ nodes -> (1 <= length (lt_posts n) <= N)%nat) -> sort_rare nodes = rarity nodes (seq 1 N).
Proof.
  intros Hn. unfold sort_rare. rewrite <- (rev_involutive (rarity nodes (seq 1 N))). f_equal.
  induction nodes as [|v nodes IH] using rev_ind.
  { cbn. unfold rarity. induction (seq 1 N); [done|]. by cbn. }
  rewrite foldl_app. cbn [foldl]. rewrite IH by (intros n Hin; apply Hn, elem_of_app; by left).
  pose proof (Hn v ltac:(apply elem_of_app; right; left)) as Hv. set (k := length (lt_posts v)) in *.
  assert (seq 1 N = seq 1 k ++ seq (1 + k) (N - k)) as -> by (rewrite <- seq_app; f_equal; lia).
  assert (forall l, rarity l (seq 1 k ++ seq (1 + k) (N - k)) = rarity l (seq 1 k) ++ rarity l (seq (1 + k) (N - k))) as Happ
    by (intros l; unfold rarity; by rewrite fmap_app, concat_app).
  rewrite !Happ, insert_rare_split.
  - f_equal. rewrite app_assoc. rewrite (rarity_snoc nodes v (seq (1 + k) (N - k))) by (rewrite elem_of_seq; lia). f_equal.
    assert (seq 1 k = seq 1 (k - 1) ++ [k]) as E by (destruct k as [|k']; [lia|]; rewrite seq_S, Nat.sub_1_r; cbn; done). rewrite E.
    assert (forall l a b, rarity l (a ++ b) = rarity l a ++ rarity l b) as Happ' by (intros; unfold rarity; by rewrite fmap_app, concat_app).
    rewrite !Happ', (rarity_snoc nodes v (seq 1 (k - 1))) by (rewrite elem_of_seq; lia). rewrite <- app_assoc. f_equal.
    unfold rarity. cbn. rewrite filter_app. cbn [filter list_filter]. rewrite decide_True by done. by rewrite !app_nil_r.
  - intros x Hx. apply rarity_elem, elem_of_seq in Hx. lia.
  - intros x Hx. apply rarity_elem, elem_of_seq in Hx. lia.
Qed.

(** ** The index against the documents *)

Section docs.
Context (lx : LexicalIndex) (D : gmap Z (list Z)).
Hypothesis HR : lex_refines lx D.

Lemma postings_freq t id : postings lx t !! id = term_freq D t id.
Proof.
  rewrite (lr_posts _ _ HR). unfold term_freq. destruct (D !! id) as [text|]; [|done]. cbn [mbind option_bind]. by rewrite tf_of_count, lex_tokens_spec.
Qed.

Lemma postings_size t : size (postings lx t) = doc_freq D t.
Proof.
  unfold doc_freq. rewrite <- !(size_dom (D := gset Z)). f_equal. apply set_eq. intros id. rewrite !elem_of_dom, postings_freq. unfold term_freq.
  unfold is_Some. setoid_rewrite map_lookup_filter_Some. cbn. destruct (D !! id) as [text|]; cbn [mbind option_bind].
  - destruct (decide (t ∈ spec_tokens text)); split; [intros _; by exists text|intros _; eauto|by intros []|intros (x & [= <-] & ?); done].
  - split; [by intros []|by intros (x & ? & _)].
Qed.

Lemma posts_size (ps : list LexPost) : posts_ok ps -> size (posts_map ps) = length ps.
Proof.
  intros Hs. unfold posts_map. rewrite <- (size_dom (D := gset Z)), dom_list_to_map_L, size_list_to_set by (rewrite posts_keys; by apply sorted_nodup).
  by rewrite posts_keys, length_map.
Qed.

Lemma find_freq t n : term_find lx t = Some n -> length (lt_posts n) = doc_freq D t /\ lt_posts n <> [] /\ posts_ok (lt_posts n) /\ lt_term n = t.
Proof.
  intros Hn. pose proof (lr_terms _ _ HR) as W. pose proof (tm_nodes _ _ W t n Hn) as [Hs _].
  rewrite <- postings_size. unfold postings. rewrite Hn, posts_size by done. split_and!; [done| |done|by apply (find_name lx)].
  by destruct (tm_used _ _ W t n Hn) as [|[]].
Qed.

Lemma find_none_freq t : term_find lx t = None -> doc_freq D t = 0%nat.
Proof. intros Hn. rewrite <- postings_size. unfold postings. by rewrite Hn. Qed.

Lemma doc_freq_le t : (doc_freq D t <= size D)%nat.
Proof. unfold doc_freq. apply map_size_filter. Qed.

Lemma resolve_elem ts n : n ∈ resolve_terms lx ts -> term_find lx (lt_term n) = Some n.
Proof.
  intros Hn. apply list_elem_of_omap in Hn as (t & _ & Ht). destruct (term_find lx t) as [n'|] eqn:E; [|done]. destruct (_ =? 0)%nat; [done|].
  injection Ht as ->. by destruct (find_freq t n E) as (_ & _ & _ & ->).
Qed.

Lemma resolve_rarity ts k : (1 <= k)%nat ->
  lt_term <$> filter (fun n => length (lt_posts n) = k) (resolve_terms lx ts) = filter (fun t => doc_freq D t = k) ts.
Proof.
  intros Hk. induction ts as [|t ts IH]; [done|]. unfold resolve_terms. cbn [omap list_omap]. fold (resolve_terms lx ts). rewrite (filter_cons (fun t => doc_freq D t = k)).
  destruct (term_find lx t) as [n|] eqn:Hn.
  - destruct (find_freq t n Hn) as (Hl & Hne & _ & Ht). destruct (Nat.eqb_spec (length (lt_posts n)) 0) as [E|_]; [by apply nil_length_inv in E|].
    rewrite filter_cons. destruct (decide (length (lt_posts n) = k)) as [E|E].
    + rewrite decide_True by congruence. cbn. by rewrite Ht, IH.
    + rewrite decide_False by congruence. done.
  - rewrite (find_none_freq t Hn), decide_False by lia. done.
Qed.

Lemma sort_rare_nodes q : lt_term <$> sort_rare (resolve_terms lx (query_terms (lex_tokens q) [])) = rare_terms D q.
Proof.
  rewrite (sort_rare_stable _ (size D)).
  - unfold rarity, rare_terms. rewrite lex_tokens_spec.
    assert (forall l : list (list LexTerm), lt_term <$> concat l = concat ((fun x : list LexTerm => lt_term <$> x) <$> l)) as ->.
    { clear. induction l as [|x l IH]; [done|]. cbn. by rewrite fmap_app, IH. }
    f_equal. rewrite <- list_fmap_compose. apply list_fmap_ext. intros i k Hk. apply list_elem_of_lookup_2, elem_of_seq in Hk. cbn. apply resolve_rarity. lia.
  - intros n Hn. apply resolve_elem in Hn. destruct (find_freq _ n Hn) as (-> & _). pose proof (doc_freq_le (lt_term n)).
    destruct (find_freq _ n Hn) as (Hl & Hne & _). destruct (lt_posts n); [done|]. cbn in Hl. lia.
Qed.

Lemma avgdl_docs : lex_avgdl lx = mean_length D.
Proof. unfold lex_avgdl, mean_length. by rewrite (lr_total _ _ HR), (lex_docs_count lx D HR). Qed.

(** The contributions of a posting list to one document. *)
Lemma fold_posts idf avgdl ps id o :
  posts_ok ps ->
  foldl (fun o x => if x.1 =? id then add_score o x.2 else o) o (post_hits lx idf avgdl ps) =
  match posts_map ps !! id, D !! id with
  | Some tf, Some text => add_score o (lex_contrib idf avgdl tf (sat_len 0 (spec_tokens text)))
  | _, _ => o
  end.
Proof.
  intros Hs. assert (NoDup (map lp_id ps)) as Hn by (by apply sorted_nodup). clear Hs. revert o. induction ps as [|p ps IH]; intros o.
  { change (posts_map []) with (∅ : gmap Z Z). by rewrite lookup_empty. }
  cbn in Hn. apply NoDup_cons in Hn as [Hp Hn]. unfold post_hits. cbn [omap list_omap]. fold (post_hits lx idf avgdl ps).
  rewrite doc_slot_get, (lr_get _ _ HR) by apply HR.
  assert (posts_map (p :: ps) = <[lp_id p := lp_tf p]> (posts_map ps)) as -> by done. destruct (decide (lp_id p = id)) as [E|E].
  - rewrite <- E in *. rewrite lookup_insert_eq. assert (posts_map ps !! lp_id p = None) as Hnone by (by apply posts_map_None).
    destruct (D !! lp_id p) as [text|] eqn:Hd; cbn [fmap option_fmap option_map].
    + cbn [foldl fst snd]. rewrite Z.eqb_refl, IH by done. rewrite Hnone. unfold doc_of. cbn [ld_len]. by rewrite lex_tokens_spec.
    + rewrite IH by done. by rewrite Hnone.
  - rewrite lookup_insert_ne by done. destruct (D !! lp_id p) as [text|]; cbn [fmap option_fmap option_map]; [|by apply IH].
    cbn [foldl fst snd]. rewrite (proj2 (Z.eqb_neq _ _)) by done. by apply IH.
Qed.

Lemma hits_score nodes id :
  (forall n, n ∈ nodes -> term_find lx (lt_term n) = Some n) ->
  score_in (concat (node_hits lx <$> nodes)) id =
  foldl (fun o t => match doc_contrib D t id with Some c => add_score o c | None => o end) None (lt_term <$> nodes).
Proof.
  unfold score_in. generalize (@None spec_float). induction nodes as [|n nodes IH]; intros o Hn; [done|].
  cbn [fmap list_fmap concat foldl]. rewrite foldl_app, <- IH by (intros m Hm; apply Hn; by right). f_equal.
  pose proof (Hn n ltac:(left)) as Hf. destruct (find_freq _ n Hf) as (Hl & _ & Hs & _).
  unfold node_hits, doc_contrib, node_idf. rewrite Hl, (lex_docs_count lx D HR), <- avgdl_docs. cbn zeta. destruct (SFleb _ _); [done|].
  rewrite fold_posts by done. assert (posts_map (lt_posts n) !! id = term_freq D (lt_term n) id) as ->.
  { rewrite <- postings_freq. unfold postings. by rewrite Hf. }
  destruct (term_freq D (lt_term n) id), (D !! id); done.
Qed.
End docs.

(** The documents that match. *)
Definition matching (D : gmap Z (list Z)) (q : list Z) : gset Z := filter (fun id => is_Some (bm25 D q id)) (dom D).

(** The contributions of a query, in the order they are added. *)
Definition query_nodes (lx : LexicalIndex) (q : list Z) : list LexTerm := sort_rare (resolve_terms lx (query_terms (lex_tokens q) [])).
Definition query_hits (lx : LexicalIndex) (q : list Z) : list (Z * spec_float) := concat (node_hits lx <$> query_nodes lx q).

Lemma query_score lx D q id : lex_refines lx D -> score_in (query_hits lx q) id = bm25 D q id.
Proof.
  intros HR. unfold bm25. rewrite <- (sort_rare_nodes lx D HR q). apply hits_score; [done|]. intros n Hn. unfold query_nodes in Hn.
  rewrite (sort_rare_stable _ (size D)) in Hn.
  - unfold rarity in Hn. apply list_elem_of_In, in_concat in Hn as (l & Hl & Hn). apply list_elem_of_In in Hl, Hn.
    apply list_elem_of_fmap in Hl as (k & -> & _). apply list_elem_of_filter in Hn as [_ Hn]. by eapply (resolve_elem lx D).
  - intros m Hm. apply (resolve_elem lx D HR) in Hm. destruct (find_freq lx D HR _ m Hm) as (Hl & Hne & _). pose proof (doc_freq_le D (lt_term m)).
    destruct (lt_posts m); [done|]. cbn in *. lia.
Qed.

Lemma query_matching lx D q : lex_refines lx D -> size (matching D q) = length (firsts (query_hits lx q)).
Proof.
  intros HR. pose proof (query_score lx D q) as Hsc.
  rewrite <- (size_list_to_set (C := gset Z) (firsts (query_hits lx q)) (firsts_nodup _)). f_equal. apply set_eq. intros id. rewrite elem_of_list_to_set.
  unfold matching. rewrite elem_of_filter, <- score_in_Some, (Hsc id HR), elem_of_dom. split; [by intros [? _]|]. intros Hs. split; [done|].
  rewrite <- (Hsc id HR) in Hs. apply score_in_Some, firsts_elem in Hs. apply list_elem_of_fmap in Hs as ([id' c] & -> & Hin). cbn.
  apply list_elem_of_In, in_concat in Hin as (l & Hl & Hin). apply list_elem_of_In in Hl, Hin. apply list_elem_of_fmap in Hl as (n & -> & _).
  unfold node_hits in Hin. destruct (SFleb _ _); [by apply not_elem_of_nil in Hin|]. unfold post_hits in Hin. apply list_elem_of_omap in Hin as (p & _ & Hp).
  apply fmap_Some in Hp as (d & Hd & [= -> _]). rewrite doc_slot_get, (lr_get _ _ HR) in Hd by apply HR. apply fmap_Some in Hd as (text & Hd & _). by exists text.
Qed.

Lemma query_cands lx D q c : lex_refines lx D -> c ∈ cands_of (query_hits lx q) -> bm25 D q (lc_id c) = Some (lc_score c).
Proof.
  intros HR Hc. apply list_elem_of_fmap in Hc as (id & -> & Hid). cbn [cand_of lc_id lc_score]. rewrite <- (query_score lx D q id HR).
  apply elem_of_take in Hid as (i & Hi & _). apply list_elem_of_lookup_2, score_in_Some in Hi as [s Hs]. by rewrite Hs.
Qed.

(** The ranking before it is cut. *)
Definition ranking (lx : LexicalIndex) (q : list Z) : list (Z * spec_float) :=
  (fun c => (lc_id c, lc_score c)) <$> vk_qsort cmp_cand_desc (cands_of (query_hits lx q)).

Lemma ranking_length lx D q : lex_refines lx D -> length (ranking lx q) = Nat.min LEX_MAX_CANDIDATES (size (matching D q)).
Proof. intros HR. unfold ranking. rewrite length_fmap, (Permutation_length (vk_qsort_perm _ _ _)). unfold cands_of. by rewrite length_fmap, length_take, (query_matching lx D). Qed.

Lemma search_ranking ok lx D q top_k :
  lex_refines lx D -> lex_allocs_ok ok -> (0 < top_k)%nat -> lexical_index_search ok (Some lx) (Some q) top_k = Some (take top_k (ranking lx q)).
Proof.
  intros HR Hal Htop. unfold lexical_index_search. rewrite (proj2 (Nat.eqb_neq _ _)) by lia. cbn [orb]. fold (query_nodes lx q). pose proof (ranking_length lx D q HR) as Hlen.
  assert (ranking lx q = [] -> Some (@nil (Z * spec_float)) = Some (take top_k (ranking lx q))) as Hnil by (intros ->; by rewrite take_nil).
  destruct (Nat.eqb_spec (pt_live (lx_docs lx)) 0) as [E0|_].
  { apply Hnil, nil_length_inv. rewrite Hlen. rewrite (lex_docs_count lx D HR) in E0. apply map_size_empty_inv in E0 as ->.
    assert (matching ∅ q = ∅) as -> by (apply set_eq; intros x; unfold matching; rewrite elem_of_filter, dom_empty_L; set_solver).
    rewrite size_empty. lia. }
  destruct (Nat.eqb_spec (length (query_nodes lx q)) 0) as [E0|_].
  { apply Hnil, nil_length_inv. rewrite Hlen, (query_matching lx D q HR). unfold query_hits. apply nil_length_inv in E0 as ->. cbn. lia. }
  pose proof Hal as (Hi & _ & _ & Ho). rewrite Hi. cbn [negb].
  destruct (score_terms_ok ok lx (query_nodes lx q) [] _ lex_state_start Hal) as ([[acc cands] ccap] & -> & [Ec _ _ _ _]). cbn [fst snd app] in Ec. fold (query_hits lx q) in Ec. subst cands.
  destruct (Nat.eqb_spec (length (cands_of (query_hits lx q))) 0) as [E0|_].
  { apply Hnil. unfold ranking. apply nil_length_inv in E0. apply nil_length_inv. by rewrite length_fmap, (Permutation_length (vk_qsort_perm _ _ _)), E0. }
  rewrite Ho. cbn [negb]. f_equal. unfold ranking. by rewrite fmap_take.
Qed.

(** C17: The text search ranks by BM25 over the indexed documents. With its
    allocations served, the answer is the first [top_k] of a list of documents
    without repetition, ordered by descending score and then by id, in which
    every score is the sum of the document's contributions over the distinct
    terms of the query, rarest first; when at most [LEX_MAX_CANDIDATES]
    documents match, the list holds all of them. So the ranking depends on the
    documents held and not on how the index came to hold them. *)
Theorem lexical_search_exact ok lx D q top_k :
  lex_refines lx D -> lex_allocs_ok ok -> (0 < top_k)%nat -> (forall id, bm25 D q id <> Some S754_nan) ->
  exists l, lexical_index_search ok (Some lx) (Some q) top_k = Some (take top_k l) /\
    NoDup l.*1 /\
    StronglySorted (fun a b => SFltb a.2 b.2 = false /\ (SFltb b.2 a.2 = false -> a.1 <= b.1)) l /\
    (forall id s, (id, s) ∈ l -> bm25 D q id = Some s) /\
    length l = Nat.min LEX_MAX_CANDIDATES (size (matching D q)) /\
    ((size (matching D q) <= LEX_MAX_CANDIDATES)%nat -> forall id s, bm25 D q id = Some s -> (id, s) ∈ l).
Proof.
  intros HR Hal Htop Hnan. exists (ranking lx q). split_and!; [by apply (search_ranking ok lx D)| | | |by apply ranking_length|].
  - unfold ranking. rewrite <- list_fmap_compose. change (fst ∘ _) with lc_id. rewrite vk_qsort_perm. apply cands_nodup.
  - assert (StronglySorted cand_le (vk_qsort cmp_cand_desc (cands_of (query_hits lx q)))) as Hs.
    { apply qsort_cands. apply Forall_forall. intros c Hc E. apply (Hnan (lc_id c)). by rewrite <- E, (query_cands lx D q c HR Hc). }
    unfold ranking. clear -Hs. induction Hs as [|x l' Hs IH Hf]; [constructor|]. cbn. constructor; [done|]. apply Forall_fmap. exact Hf.
  - intros id s Hin. apply list_elem_of_fmap in Hin as (c & [= -> ->] & Hc). rewrite vk_qsort_perm in Hc. by apply (query_cands lx D).
  - intros Hle id s Hs. pose proof (query_score lx D q id HR) as Hsc. assert (id ∈ take LEX_MAX_CANDIDATES (firsts (query_hits lx q))) as Hin.
    { rewrite take_ge by (rewrite <- (query_matching lx D q HR); done). apply score_in_Some. rewrite Hsc. eauto. }
    unfold ranking. apply list_elem_of_fmap. exists (cand_of (query_hits lx q) id). split; [cbn [cand_of lc_id lc_score]; by rewrite Hsc, Hs|]. rewrite vk_qsort_perm. by apply list_elem_of_fmap_2.
Qed.
End search.

(** ** An index of five documents *)

#[local] Existing Instance ieee_kernel.

Definition wit_lex_oks : LexSearchOks := mkLexSearchOks true (fun _ => true) (fun _ => true) true.
Definition wit_lex_alloc : LexAlloc := mkLexAlloc (fun _ => true) (fun _ => true) true.

(** "red fox", "red red", three times "blue", and the query "red fox red". *)
Definition wit_lex_ops : list LexOp :=
  [LAdd wit_lex_alloc 1 [114; 101; 100; 32; 102; 111; 120]; LAdd wit_lex_alloc 2 [114; 101; 100; 32; 114; 101; 100];
   LAdd wit_lex_alloc 3 [98; 108; 117; 101]; LAdd wit_lex_alloc 4 [98; 108; 117; 101]; LAdd wit_lex_alloc 5 [98; 108; 117; 101]].
Definition wit_query : list Z := [114; 101; 100; 32; 102; 111; 120; 32; 114; 101; 100].
Definition wit_lex : option LexicalIndex * gmap Z (list Z) := lex_run wit_lex_ops.

(** The scores that can occur. *)
Definition wit_scores : list (option spec_float) := bm25 (snd wit_lex) wit_query <$> [1; 2; 3; 4; 5].

Lemma bm25_outside D q id : D !! id = None -> bm25 D q id = None.
Proof.
  intros Hd. unfold bm25. induction (rare_terms D q) as [|t ts IH]; [done|]. cbn [foldl].
  assert (doc_contrib D t id = None) as ->; [|done]. unfold doc_contrib. rewrite Hd. by destruct (SFleb _ _).
Qed.

Lemma wit_scores_number id : bm25 (snd wit_lex) wit_query id <> Some S754_nan.
Proof.
  destruct (decide (id ∈ [1; 2; 3; 4; 5])) as [Hin|Hni].
  - assert (forallb (fun s => match s with Some S754_nan => false | _ => true end) wit_scores = true) as Hs by (by vm_compute).
    intros Hb. rewrite forallb_forall in Hs. assert (In (bm25 (snd wit_lex) wit_query id) wit_scores) as Hw by (by apply list_elem_of_In, list_elem_of_fmap_2).
    apply Hs in Hw. by rewrite Hb in Hw.
  - rewrite bm25_outside; [done|]. destruct (snd wit_lex !! id) as [t|] eqn:Ht; [|done]. apply elem_of_map_to_list in Ht.
    assert (forallb (fun p => bool_decide (p.1 ∈ [1; 2; 3; 4; 5])) (map_to_list (snd wit_lex)) = true) as Hd by (by vm_compute).
    rewrite forallb_forall in Hd. apply list_elem_of_In, Hd, bool_decide_eq_true in Ht. done.
Qed.

Lemma wit_lex_allocs : lex_allocs_ok wit_lex_oks.
Proof. by split_and!. Qed.

Lemma wit_lex_refines : exists lx, fst wit_lex = Some lx /\ lex_refines lx (snd wit_lex).
Proof. destruct (lex_run_refines wit_lex_ops) as (lx & D & E & HR). exists lx. unfold wit_lex. rewrite E. split; [reflexivity|exact HR]. Qed.

Lemma lexical_search_exact_witness :
  option_map (map fst) (lexical_index_search wit_lex_oks (fst wit_lex) (Some wit_query) 2) = Some [1; 2] /\
  exists lx l, fst wit_lex = Some lx /\ lexical_index_search wit_lex_oks (Some lx) (Some wit_query) 2 = Some (take 2 l) /\ NoDup l.*1.
Proof.
  split; [by vm_compute|]. destruct wit_lex_refines as (lx & E & HR).
  destruct (lexical_search_exact wit_lex_oks lx (snd wit_lex) wit_query 2 HR wit_lex_allocs (Nat.lt_0_succ 1) wit_scores_number) as (l & Hl & Hn & _).
  exists lx, l. split; [exact E|]. split; [exact Hl|exact Hn].
Defined.
