(* ===== verification/RecordEdit.v ===== *)
(** * Editing records

    What the editing operations of [Record] leave behind when they succeed,
    whatever the allocations: a clone is the record itself, and each setter
    changes its own field. *)

From S2P Require Import Prelude Endian SortedArray Record RecordCodec RecordRoundtrip RecordDecode.

Lemma dup_str_Some alloc s s' : dup_str alloc s = Some s' -> s' = s.
Proof. unfold dup_str. case_if; congruence. Qed.

Lemma dup_all_Some alloc tags v : mapM (dup_str alloc) tags = Some v -> v = tags.
Proof.
  intros E. apply mapM_Some_1 in E. symmetry. apply list_eq_Forall2. eapply Forall2_impl; [exact E|].
  intros s s' Hs. by apply dup_str_Some in Hs.
Qed.

Lemma set_tags_Some alloc r tags r' : record_set_tags alloc r tags = (r', true) -> r' = set_tags r tags.
Proof.
  unfold record_set_tags. destruct tags as [|t tags]; [congruence|].
  destruct (negb _); [congruence|]. destruct (mapM _ _) as [v|] eqn:Em; [|congruence].
  apply dup_all_Some in Em as ->. congruence.
Qed.

Lemma set_fact_Some alloc r f r' :
  fact_ok f -> record_set_fact alloc r (fa_kind f) (fa_subject f) (fa_predicate f) (fa_object_id f) (fa_object_str f) = (r', true) ->
  r' = set_fact r f.
Proof.
  destruct f as [[] s p o os]; unfold fact_ok; cbn [fa_kind fa_subject fa_predicate fa_object_id fa_object_str].
  - intros ->. cbn. congruence.
  - intros (_ & _ & -> & q & -> & Hq & _) E. unfold record_set_fact in E. destruct q as [|c q]; [done|].
    destruct (dup_str alloc (c :: q)) eqn:Ed; [|congruence]. apply dup_str_Some in Ed as ->. congruence.
  - intros (_ & -> & (q & -> & Hq & _) & w & -> & _) E. unfold record_set_fact in E. destruct q as [|c q]; [done|].
    destruct (dup_str alloc (c :: q)) eqn:Ed; [|congruence]. apply dup_str_Some in Ed as ->.
    destruct (dup_str alloc w) eqn:Ew; [|congruence]. apply dup_str_Some in Ew as ->. congruence.
Qed.

Lemma add_relationship_Some alloc r from to kind r' :
  record_add_relationship alloc r from to kind = (r', true) ->
  r' = set_relationships r (mr_relationships r ++ [mkRelationship from to kind]).
Proof.
  unfold record_add_relationship. destruct (negb _); [congruence|]. destruct kind as [k|]; [|congruence].
  destruct (dup_str alloc k) eqn:Ed; [|congruence]. apply dup_str_Some in Ed as ->. congruence.
Qed.

(** ** Cloning *)

Lemma concat_u32_length v : length (concat (map aegis_put_u32le v)) = (4 * length v)%nat.
Proof. induction v as [|x v IH]; [done|]. cbn [map concat length]. rewrite length_app, IH. change (length (aegis_put_u32le x)) with 4%nat. lia. Qed.

(** A clone of a record that fits a frame is that record. *)
Lemma record_clone_Some alloc r c :
  record_wf r -> Z.of_nat (length (record_bytes r)) <= 0xFFFFFFFF -> record_clone alloc r = Some c -> c = r.
Proof.
  intros W Hl E. destruct (record_clone_cases alloc r W) as [E'|[E' _]]; [|congruence..].
  destruct (rw_emb r W) as [_ He]. destruct (rw_dims r W) as ([H1 H2] & [H3 H4] & _).
  assert (wrap 64 (mr_vec_count r * mr_embedding_dim r) = mr_vec_count r * mr_embedding_dim r) as Ew.
  { apply wrap_small. split; [lia|].
    assert (mr_vec_count r * mr_embedding_dim r <= (2 ^ 32 - 1) * (2 ^ 32 - 1)) by (apply Z.mul_le_mono_nonneg; lia). lia. }
  unfold record_bytes, embedding_bytes in Hl. rewrite !length_app, concat_u32_length, Ew in Hl. rewrite take_ge in Hl by lia.
  unfold SIZE_MAX, UINT64_MAX. lia.
Qed.
