(* ===== verification/StoreView.v ===== *)
(** * The store as a map of live records

    The storage core seen by the query engine: a finite map from ids to the
    live records, which appending a record updates at its id and loading reads.
    [RecordStore] is that interface, and the engine's proofs use nothing else of
    the storage core. The log, the id index and the codec implement it twice: as
    the plain map ([store_view]), and with the history of the log ([history_view]),
    which replication needs. *)

From S2P Require Import Prelude Endian HashIndex HashCheckpoint Record RecordCodec RecordRoundtrip RecordDecode Aead AeadCorrect Log LogCorrect LogFaults Tenant CkptCrypt Store StoreCorrect Compaction CompactionCorrect.

(** No live record points at [id]. *)
Definition unreferenced (m : gmap Z MemoryRecord) (id : Z) : Prop :=
  forall i r, m !! i = Some r -> Forall (fun rl => rl_to rl <> id) (mr_relationships r).

(** The map after a record is appended. *)
Definition stored (m : gmap Z MemoryRecord) (rec : MemoryRecord) : gmap Z MemoryRecord :=
  if is_deleted rec then delete (mr_id rec) m else <[mr_id rec := norm_deleted rec]> m.

(** A record enters under a new id only when nothing points at it yet. *)
Definition fresh_for (m : gmap Z MemoryRecord) (rec : MemoryRecord) : Prop :=
  is_deleted rec = false -> m !! mr_id rec = None -> unreferenced m (mr_id rec).

Section view.
Context `{AeadScheme}.

(** What the storage core promises of a map [m] it holds. *)
Class RecordStore (SV : Db -> gmap Z MemoryRecord -> Prop) : Prop := {
  rs_load db m id : SV db m ->
    load_record rok aok aok db id = match m !! id with Some r => inl r | None => inr AEGIS_ERR_NOT_FOUND end;
  rs_record db m id r : SV db m -> m !! id = Some r -> rec_ok r /\ mr_id r = id /\ mr_deleted r = 0 /\ id < db_next_id db;
  rs_get db m id : SV db m ->
    match hash_index_get (db_hash db) id with
    | Some e => exists r, m !! id = Some r /\ he_expires_at e = mr_expires_at r /\ he_deleted e = 0
    | None => m !! id = None
    end;
  rs_append io db m rec : SV db m -> wio_ok io -> rec_ok rec -> mr_id rec < db_next_id db -> fresh_for m rec ->
    let '(db', st) := append_and_hash io db rec in
    same_rest db db' /\ SV db' (match st with AEGIS_OK => stored m rec | _ => m end);
  rs_next_id db m : SV db m -> db_next_id db < 2 ^ 64 - 1 -> SV (fst (take_next_id db)) m;
  rs_next_pos db m : SV db m -> 0 < db_next_id db;
  rs_flush db m sync : SV db m -> SV (set_log db (fst (log_fsync_if_batched (db_log db) sync))) m
}.

(** The live records of the frames. *)
Definition view (segs : list Seg) (id : Z) : option MemoryRecord := answer (log_pays segs) id ≫= record_decode aok.

Record store_view (db : Db) (m : gmap Z MemoryRecord) : Prop := {
  sv_segs : exists segs, db_inv db segs /\ forall id, m !! id = view segs id
}.

Lemma answer_live ps id p : answer ps id = Some p -> exists r, record_decode aok p = Some r /\ is_deleted r = false /\ mr_id r = id.
Proof.
  unfold answer. destruct (pays ps !! id) as [q|] eqn:Eq; [|done]. cbn. unfold live.
  destruct (record_decode aok q) as [r|] eqn:Er; [|done]. destruct (is_deleted r) eqn:Ed; [done|]. cbn. intros [= <-].
  exists r. split; [done|]. split; [done|]. apply pays_elem in Eq as (_ & r' & Er' & E). congruence.
Qed.

(** Loading reads the map. *)
Lemma view_load db m id :
  store_view db m ->
  load_record rok aok aok db id = match m !! id with Some r => inl r | None => inr AEGIS_ERR_NOT_FOUND end.
Proof.
  intros [(segs & Hi & Hm)]. rewrite (load_record_answer db segs id Hi), Hm. unfold view.
  destruct (answer (log_pays segs) id) as [p|] eqn:Ea; [|done]. cbn [mbind option_bind].
  apply answer_live in Ea as (r & -> & _). done.
Qed.

Lemma pays_of_segs segs id p :
  Forall seg_rec segs -> answer (log_pays segs) id = Some p -> exists r, rec_ok r /\ p = record_bytes r.
Proof.
  intros Hs Ha. apply answer_elem in Ha. unfold log_pays in Ha. apply list_elem_of_omap in Ha as (s & Hin & Hp).
  rewrite Forall_forall in Hs. destruct (Hs s Hin) as (r & Hr & E & _). exists r. split; [done|congruence].
Qed.

(** What the map holds: well-formed records under their own ids, below the
    allocator. *)
Lemma view_record db m id r :
  store_view db m -> m !! id = Some r ->
  rec_ok r /\ mr_id r = id /\ mr_deleted r = 0 /\ id < db_next_id db.
Proof.
  intros [(segs & Hi & Hm)] Hr. rewrite Hm in Hr. unfold view in Hr. apply bind_Some in Hr as (p & Ha & Hd).
  pose proof (answer_live _ _ _ Ha) as (r' & Hd' & Hl & Hid). assert (r' = r) as -> by congruence.
  destruct (pays_of_segs _ _ _ (di_recs _ _ Hi) Ha) as (r0 & [W Hlen] & ->).
  rewrite record_decode_bytes in Hd by done. injection Hd as <-.
  assert (mr_deleted r0 = 0) as E0.
  { unfold is_deleted in Hl. cbn in Hl. destruct (Z.eqb_spec (mr_deleted r0) 0); [done|]. by cbn in Hl. }
  assert (norm_deleted r0 = r0) as En by (destruct r0; cbn in E0; subst; done).
  rewrite En in *. split_and!; [by split|done|done|].
  rewrite <- Hid. eapply (payload_id_lt db segs (record_bytes r0)); [done|by eapply answer_elem|]. by rewrite record_decode_bytes, En.
Qed.

(** An entry of the id index is a live record. *)
Lemma view_get db m id :
  store_view db m ->
  match hash_index_get (db_hash db) id with
  | Some e => exists r, m !! id = Some r /\ he_expires_at e = mr_expires_at r /\ he_deleted e = 0
  | None => m !! id = None
  end.
Proof.
  intros [(segs & Hi & Hm)]. rewrite Hm. unfold view, answer. rewrite get_refines by apply Hi. rewrite (di_map _ _ Hi).
  pose proof (index_pays (delivered (lf_encrypted (db_log db)) 0 segs) id) as Hp. rewrite delivered_pays in Hp.
  destruct (frames_index _ !! id) as [e|]; cbn [mbind option_bind]; [|by rewrite Hp].
  destruct Hp as (off & p & r & Hin & Hr & _ & -> & ->). cbn [frame_entry he_deleted mbind option_bind].
  unfold live. rewrite Hr. destruct (is_deleted r) eqn:Ed; cbn [flag Z.eqb negb mbind option_bind]; [done|].
  exists r. unfold frame_entry. cbn [he_expires_at he_deleted]. by rewrite Ed.
Qed.

Lemma log_pays_snoc segs s p : sg_payload s = Some p -> log_pays (segs ++ [s]) = log_pays segs ++ [p].
Proof. intros E. unfold log_pays. rewrite omap_app. cbn. by rewrite E. Qed.

Lemma view_snoc segs s rec id :
  record_wf rec -> sg_payload s = Some (record_bytes rec) ->
  view (segs ++ [s]) id =
  if decide (id = mr_id rec) then (if is_deleted rec then None else Some (norm_deleted rec)) else view segs id.
Proof.
  intros W E. unfold view, answer. rewrite (log_pays_snoc _ _ _ E).
  assert (pays (log_pays segs ++ [record_bytes rec]) = <[mr_id rec := record_bytes rec]> (pays (log_pays segs))) as ->.
  { unfold pays. rewrite foldl_app. cbn [foldl]. unfold pay_step at 1. by rewrite record_decode_bytes. }
  destruct (decide (id = mr_id rec)) as [->|Hne]; [|by rewrite lookup_insert_ne].
  rewrite lookup_insert_eq. cbn [mbind option_bind]. unfold live. rewrite record_decode_bytes by done.
  assert (is_deleted (norm_deleted rec) = is_deleted rec) as ->.
  { unfold is_deleted. cbn [norm_deleted mr_deleted]. by destruct (mr_deleted rec =? 0). }
  destruct (is_deleted rec); cbn [negb mbind option_bind]; [done|]. by rewrite record_decode_bytes.
Qed.

Lemma view_append io db m rec :
  store_view db m -> wio_ok io -> rec_ok rec -> mr_id rec < db_next_id db ->
  let '(db', st) := append_and_hash io db rec in
  same_rest db db' /\ store_view db' (match st with AEGIS_OK => stored m rec | _ => m end).
Proof.
  intros [(segs & Hi & Hm)] Hio Hr Hid. pose proof (append_step io db rec segs Hi Hio Hr Hid) as Ha.
  destruct (append_and_hash io db rec) as [db' st]. destruct Ha as [Hs [(-> & (s & Hp & Hi') & _)|(Hst & Hi' & _)]]; split; try done.
  - split. exists (segs ++ [s]). split; [done|]. intros id. rewrite (view_snoc segs s rec) by (apply Hr || done). unfold stored.
    destruct (is_deleted rec); destruct (decide (id = mr_id rec)) as [->|Hne].
    + by rewrite lookup_delete_eq.
    + by rewrite lookup_delete_ne.
    + by rewrite lookup_insert_eq.
    + by rewrite lookup_insert_ne.
  - split. exists segs. split; [done|]. destruct st; done.
Qed.

Lemma view_next_id db m :
  store_view db m -> db_next_id db < 2 ^ 64 - 1 -> store_view (fst (take_next_id db)) m.
Proof. intros [(segs & Hi & Hm)] Hn. split. exists segs. split; [by apply take_next_id_inv|done]. Qed.

Lemma view_next_pos db m : store_view db m -> 0 < db_next_id db.
Proof.
  intros [(segs & Hi & _)]. pose proof (di_next _ _ Hi). pose proof (frames_max_nonneg (delivered (lf_encrypted (db_log db)) 0 segs)). lia.
Qed.

Lemma view_flush db m sync : store_view db m -> store_view (set_log db (fst (log_fsync_if_batched (db_log db) sync))) m.
Proof.
  intros [(segs & Hi & Hm)]. destruct (fsync_batched_since (db_log db) sync) as [v ->]. split. exists segs. split; [|done].
  destruct Hi as [[? ? ? ?] ? ? ? ? ?]. by split.
Qed.

Lemma view_init cfg batch ten : store_view (init_db cfg batch ten) ∅.
Proof.
  split. exists []. split; [apply init_inv|]. intros id. by rewrite lookup_empty.
Qed.

#[export] Instance store_view_store : RecordStore store_view.
Proof.
  split.
  - apply view_load.
  - apply view_record.
  - apply view_get.
  - intros io db m rec Hs Hio Hr Hid _. by apply view_append.
  - apply view_next_id.
  - apply view_next_pos.
  - apply view_flush.
Qed.

(** ** The history *)

(** Each record of the log, in order, is fresh for the map before it. *)
Fixpoint stream_ok (m : gmap Z MemoryRecord) (recs : list MemoryRecord) : Prop :=
  match recs with [] => True | r :: recs' => fresh_for m r /\ stream_ok (stored m r) recs' end.

Lemma stream_ok_snoc m recs r : stream_ok m recs -> fresh_for (foldl stored m recs) r -> stream_ok m (recs ++ [r]).
Proof. revert m. induction recs as [|x recs IH]; intros m; cbn; [done|]. intros [Hx Hs] Hr. split; [done|by apply IH]. Qed.

(** The log holds exactly [recs]. *)
Definition logged (db : Db) (recs : list MemoryRecord) : Prop :=
  exists segs, db_inv db segs /\ log_pays segs = map record_bytes recs /\ Forall rec_ok recs.

Definition history_view (db : Db) (m : gmap Z MemoryRecord) : Prop :=
  exists recs, logged db recs /\ m = foldl stored ∅ recs /\ stream_ok ∅ recs.

Lemma stored_lookup m rec id :
  stored m rec !! id = if decide (id = mr_id rec) then (if is_deleted rec then None else Some (norm_deleted rec)) else m !! id.
Proof.
  unfold stored. destruct (is_deleted rec); [rewrite lookup_delete|rewrite lookup_insert]; repeat case_decide; by subst.
Qed.

Lemma pays_view recs id :
  Forall rec_ok recs -> answer (map record_bytes recs) id ≫= record_decode aok = foldl stored ∅ recs !! id.
Proof.
  induction recs as [|r recs IH] using rev_ind; intros Hr.
  { cbn. by rewrite lookup_empty. }
  apply Forall_app in Hr as [Hrs Hr]. apply Forall_singleton in Hr as [W _]. rewrite foldl_app, map_app. cbn [foldl map].
  rewrite stored_lookup, <- IH by done. unfold answer.
  assert (pays (map record_bytes recs ++ [record_bytes r]) = <[mr_id r := record_bytes r]> (pays (map record_bytes recs))) as ->.
  { unfold pays. rewrite foldl_app. cbn [foldl]. unfold pay_step at 1. by rewrite record_decode_bytes. }
  destruct (decide (id = mr_id r)) as [->|Hne]; [|by rewrite lookup_insert_ne].
  rewrite lookup_insert_eq. cbn [mbind option_bind]. unfold live. rewrite record_decode_bytes by done.
  assert (is_deleted (norm_deleted r) = is_deleted r) as ->.
  { unfold is_deleted. cbn [norm_deleted mr_deleted]. by destruct (mr_deleted r =? 0). }
  destruct (is_deleted r); cbn [negb mbind option_bind]; [done|]. by rewrite record_decode_bytes.
Qed.

Lemma history_store db m : history_view db m -> store_view db m.
Proof.
  intros (recs & (segs & Hi & Hp & Hr) & -> & _). split. exists segs. split; [done|]. intros id.
  unfold view. by rewrite Hp, pays_view.
Qed.

#[export] Instance history_view_store : RecordStore history_view.
Proof.
  split.
  - intros db m id Hh. by apply view_load, history_store.
  - intros db m id r Hh. by apply view_record, history_store.
  - intros db m id Hh. by apply view_get, history_store.
  - intros io db m rec (recs & (segs & Hi & Hp & Hrs) & -> & Hst) Hio Hr Hid Hf.
    pose proof (append_step io db rec segs Hi Hio Hr Hid) as Ha.
    destruct (append_and_hash io db rec) as [db' st]. destruct Ha as [Hs [(-> & (s & Hsp & Hi') & _)|(Hst' & Hi' & _)]]; (split; [done|]).
    + exists (recs ++ [rec]). split; [|split; [by rewrite foldl_app|by apply stream_ok_snoc]]. exists (segs ++ [s]).
      split; [done|]. rewrite (log_pays_snoc _ _ _ Hsp), Hp, map_app. split; [done|]. apply Forall_app. by split; [|apply Forall_singleton].
    + exists recs. split; [by exists segs|]. split; [by destruct st|done].
  - intros db m (recs & (segs & Hi & Hp & Hrs) & -> & Hst) Hn. exists recs. split; [|done]. exists segs. split; [by apply take_next_id_inv|done].
  - intros db m Hh. eapply view_next_pos. by apply history_store.
  - intros db m sync (recs & (segs & Hi & Hp & Hrs) & -> & Hst). destruct (fsync_batched_since (db_log db) sync) as [v ->].
    exists recs. split; [|done]. exists segs. split; [|done]. destruct Hi as [[? ? ? ?] ? ? ? ? ?]. by split.
Qed.

Lemma history_init cfg batch ten : history_view (init_db cfg batch ten) ∅.
Proof. exists []. split; [|done]. exists []. split; [apply init_inv|]. split; [done|constructor]. Qed.
End view.
