(* ===== verification/Engine.v ===== *)
(** * The query engine

    The operations of [src/query/query_engine.c] over the whole database:
    validation, insert, get, update, delete, promote and relate, with the
    storage core of [Store] and every secondary index, the truth-maintenance
    queue of [src/query/qe_infer.c] and [db_fact_index_apply] of
    [src/storage/db.c]. Each operation holds [index_lock] for its whole write,
    so it is one step. The vector index is kept as the sequence of calls made
    on it. *)

From S2P Require Import Prelude Endian HashIndex SortedArray Record RecordCodec StrTable ProbeTable Intern TimeIndex TagIndex UsageIndex EdgeIndex FactIndex AeadCorrect Log Floats Tenant CkptCrypt Store WorkingBuffer Json Registry Lexical.

(** ** State *)

(** A call on the vector index. *)
Inductive SemCall := SemAdd (id : Z) (embedding : list Z) (vec_count dim : Z) | SemRemove (id : Z).

Record Indexes := mkIndexes {
  ix_time : TimeIndex;
  ix_tags : TagIndex;
  ix_lex : option LexicalIndex;
  ix_edges : option EdgeIndex;
  ix_facts : option FactIndex;
  ix_usage : option UsageIndex;
  ix_sem : list SemCall
}.

(** [db->retract]: the queue and the merges, oldest first, with their
    allocated lengths. *)
Record Retract := mkRetract {
  rt_ids : list Z; rt_cap : nat; rt_sup : list (Z * Z); rt_sup_cap : nat
}.

(** What does not change while the server runs, and the sampled index size. *)
Record EngineCfg := mkEngineCfg {
  ec_phase : Z; ec_max_payload : Z; ec_dims : Z; ec_max_index_bytes : Z; ec_inference : bool;
  ec_read_only : bool; ec_max_derived : nat
}.

Record Engine := mkEngine {
  en_cfg : EngineCfg;
  en_predicates : option PredicateRegistry;
  en_db : Db;
  en_ix : Indexes;
  en_working : WorkingStore;
  en_retract : Retract;
  en_index_bytes : Z
}.

Definition with_db (en : Engine) (db : Db) : Engine :=
  mkEngine (en_cfg en) (en_predicates en) db (en_ix en) (en_working en) (en_retract en) (en_index_bytes en).
Definition with_ix (en : Engine) (ix : Indexes) : Engine :=
  mkEngine (en_cfg en) (en_predicates en) (en_db en) ix (en_working en) (en_retract en) (en_index_bytes en).
Definition with_working (en : Engine) (ws : WorkingStore) : Engine :=
  mkEngine (en_cfg en) (en_predicates en) (en_db en) (en_ix en) ws (en_retract en) (en_index_bytes en).
Definition with_retract (en : Engine) (rt : Retract) : Engine :=
  mkEngine (en_cfg en) (en_predicates en) (en_db en) (en_ix en) (en_working en) rt (en_index_bytes en).

Definition set_time (ix : Indexes) (t : TimeIndex) : Indexes :=
  mkIndexes t (ix_tags ix) (ix_lex ix) (ix_edges ix) (ix_facts ix) (ix_usage ix) (ix_sem ix).
Definition set_tag_index (ix : Indexes) (t : TagIndex) : Indexes :=
  mkIndexes (ix_time ix) t (ix_lex ix) (ix_edges ix) (ix_facts ix) (ix_usage ix) (ix_sem ix).
Definition set_lex (ix : Indexes) (l : option LexicalIndex) : Indexes :=
  mkIndexes (ix_time ix) (ix_tags ix) l (ix_edges ix) (ix_facts ix) (ix_usage ix) (ix_sem ix).
Definition set_edges (ix : Indexes) (e : option EdgeIndex) : Indexes :=
  mkIndexes (ix_time ix) (ix_tags ix) (ix_lex ix) e (ix_facts ix) (ix_usage ix) (ix_sem ix).
Definition set_facts (ix : Indexes) (f : option FactIndex) : Indexes :=
  mkIndexes (ix_time ix) (ix_tags ix) (ix_lex ix) (ix_edges ix) f (ix_usage ix) (ix_sem ix).
Definition set_usage (ix : Indexes) (u : option UsageIndex) : Indexes :=
  mkIndexes (ix_time ix) (ix_tags ix) (ix_lex ix) (ix_edges ix) (ix_facts ix) u (ix_sem ix).
Definition push_sem (ix : Indexes) (c : list SemCall) : Indexes :=
  mkIndexes (ix_time ix) (ix_tags ix) (ix_lex ix) (ix_edges ix) (ix_facts ix) (ix_usage ix) (ix_sem ix ++ c).

(** A record as the engine edits it. *)
Definition stamp_record (r : MemoryRecord) (id created updated expires deleted : Z) : MemoryRecord :=
  mkMemoryRecord id (mr_type r) created updated (mr_importance r) (mr_confidence r) (mr_agent_id r) (mr_tags r)
    (mr_embedding r) (mr_embedding_dim r) (mr_vec_count r) (mr_relationships r) (mr_fact r) (mr_derivation r)
    (mr_data r) expires deleted.

(** ** Outcomes of the calls an operation makes *)

(** Allocations of the secondary indexes; tags and edges one by one. *)
Record IndexIo := mkIndexIo {
  xi_time : bool; xi_tag : nat -> bool * bool; xi_lex : LexAlloc; xi_edge : nat -> EdgeOks;
  xi_fact : FactOks; xi_usage : bool
}.

Record QeIo := mkQeIo {
  qi_write : WriteIo;             (* the append *)
  qi_sync : bool;                 (* the flush *)
  qi_rerr : Z -> Z -> bool;       (* reads of the log *)
  qi_lalloc : Z -> bool;          (* buffers of a log read *)
  qi_dalloc : Z -> bool;          (* decoding *)
  qi_alloc : Z -> bool;           (* editing and cloning *)
  qi_session : bool;              (* a new session *)
  qi_index : IndexIo;
  qi_sources : bool;              (* the list of dependents *)
  qi_queue : nat -> bool          (* growing the retraction queue *)
}.

(** ** Phases and validation *)

Definition require_phase (en : Engine) (needed : Z) : aegis_status :=
  if needed <=? ec_phase (en_cfg en) then AEGIS_OK else AEGIS_ERR_NOT_READY.

Definition isalnum (c : Z) : bool := in_byte_range 48 57 c || in_byte_range 65 90 c || in_byte_range 97 122 c.

Definition valid_tag (t : list Z) : bool :=
  if (length t <? 1)%nat || (64 <? length t)%nat then false
  else forallb (fun c => isalnum c || (c =? 95) || (c =? 45)) t.

Definition MAX_AGENT_ID : nat := 128.

Definition valid_agent_id (a : list Z) : bool :=
  if (length a <? 1)%nat || (MAX_AGENT_ID <? length a)%nat then false
  else forallb (fun c => negb ((c <? 0x20) || (c =? 0x7f))) a.

Definition MAX_TAGS : nat := 32.

(** [x < 0.0F || x > 1.0F] of a stored float. *)
Definition outside_unit (bits : Z) : bool :=
  SFltb (f32_of_bits bits) (f32_of_bits F32_ZERO) || SFltb (f32_of_bits F32_ONE) (f32_of_bits bits).

Definition validate_common (en : Engine) (r : MemoryRecord) : aegis_status :=
  if ec_max_payload (en_cfg en) <? Z.of_nat (length (mr_data r)) then AEGIS_ERR_PAYLOAD_TOO_LARGE
  else if outside_unit (mr_importance r) then AEGIS_ERR_INVALID_REQUEST
  else if outside_unit (mr_confidence r) then AEGIS_ERR_INVALID_REQUEST
  else if (MAX_TAGS <? length (mr_tags r))%nat then AEGIS_ERR_INVALID_REQUEST
  else if negb (forallb valid_tag (mr_tags r)) then AEGIS_ERR_INVALID_REQUEST
  else if match mr_agent_id r with Some a => negb (valid_agent_id a) | None => false end then AEGIS_ERR_INVALID_REQUEST
  else if negb (mr_embedding_dim r =? 0) && negb (mr_embedding_dim r =? ec_dims (en_cfg en)) then AEGIS_ERR_INVALID_REQUEST
  else AEGIS_OK.

Definition ns_denies (ns : option (list Z)) (r : MemoryRecord) : bool :=
  match ns with
  | None => false
  | Some n => match mr_agent_id r with None => true | Some a => negb (bool_decide (a = n)) end
  end.

Definition record_expired (r : MemoryRecord) (now : Z) : bool :=
  negb (mr_expires_at r =? 0) && (mr_expires_at r <=? now).

(** ** Secondary indexes *)

Definition db_fact_index_apply (ok : FactOks) (fo : option FactIndex) (r : MemoryRecord) (add : bool) : option FactIndex :=
  let f := mr_fact r in
  match fo with
  | None => fo
  | Some _ =>
      if bool_decide (fa_kind f = FACT_NONE) then fo
      else if add then
        fst (fact_index_add ok fo (mr_id r) (fa_subject f) (fa_predicate f) (fa_kind f) (fa_object_id f) (fa_object_str f))
      else fact_index_remove fo (mr_id r) (fa_subject f) (fa_predicate f) (fa_kind f) (fa_object_id f) (fa_object_str f)
  end.

(** The results of the additions are ignored: what cannot be allocated is left
    out. [k] counts the tags or edges. *)
Fixpoint add_tags (ok : nat -> bool * bool) (k : nat) (t : TagIndex) (id : Z) (tags : list (list Z)) : TagIndex :=
  match tags with
  | [] => t
  | tag :: tags' => add_tags ok (S k) (fst (tag_index_add (ok k).1 (ok k).2 t tag id)) id tags'
  end.

Definition remove_tags (t : TagIndex) (id : Z) (tags : list (list Z)) : TagIndex :=
  foldl (fun t tag => tag_index_remove t tag id) t tags.

Fixpoint add_edges (ok : nat -> EdgeOks) (keep : Relationship -> bool) (k : nat) (e : option EdgeIndex) (id : Z)
  (rels : list Relationship) : option EdgeIndex :=
  match rels with
  | [] => e
  | rl :: rels' =>
      add_edges ok keep (S k) (if keep rl then fst (edge_index_add (ok k) e id (rl_to rl) (rl_kind rl)) else e) id rels'
  end.

Definition remove_edges (e : option EdgeIndex) (id : Z) (rels : list Relationship) : option EdgeIndex :=
  foldl (fun e rl => edge_index_remove e id (rl_to rl) (rl_kind rl)) e rels.

Definition has_vectors (r : MemoryRecord) : bool := negb (mr_embedding_dim r =? 0) && negb (mr_vec_count r =? 0).

(** The index work of a committed insert. *)
Definition index_insert (io : IndexIo) (ix : Indexes) (r : MemoryRecord) : Indexes :=
  let ix := set_time ix (default (ix_time ix) (time_index_add (xi_time io) (ix_time ix) (mr_created r) (mr_id r))) in
  let ix := set_tag_index ix (add_tags (xi_tag io) 0 (ix_tags ix) (mr_id r) (mr_tags r)) in
  let ix := set_lex ix (fst (lexical_index_add (xi_lex io) (ix_lex ix) (mr_id r) (mr_data r))) in
  let ix := set_edges ix (add_edges (xi_edge io) (fun _ => true) 0 (ix_edges ix) (mr_id r) (mr_relationships r)) in
  let ix := set_facts ix (db_fact_index_apply (xi_fact io) (ix_facts ix) r true) in
  let ix := set_usage ix (fst (usage_index_track (xi_usage io) (ix_usage ix) (mr_id r))) in
  if has_vectors r then push_sem ix [SemAdd (mr_id r) (mr_embedding r) (mr_vec_count r) (mr_embedding_dim r)] else ix.

(** ** Truth maintenance *)

Definition set_queue (rt : Retract) (ids : list Z) (cap : nat) : Retract := mkRetract ids cap (rt_sup rt) (rt_sup_cap rt).

(** An id that does not fit is dropped. *)
Definition retract_push_locked (ok : bool) (rt : Retract) (id : Z) : Retract :=
  if (length (rt_ids rt) =? rt_cap rt)%nat then
    if ok then set_queue rt (rt_ids rt ++ [id]) (if (rt_cap rt =? 0)%nat then 16 else rt_cap rt * 2)%nat
    else rt
  else set_queue rt (rt_ids rt ++ [id]) (rt_cap rt).

Definition db_retract_enqueue_id (ok : bool) (en : Engine) (id : Z) : Engine :=
  with_retract en (retract_push_locked ok (en_retract en) id).

Fixpoint push_all (ok : nat -> bool) (k : nat) (rt : Retract) (ids : list Z) : Retract :=
  match ids with [] => rt | id :: ids' => push_all ok (S k) (retract_push_locked (ok k) rt id) ids' end.

Definition S_derived_from : list Z := [100; 101; 114; 105; 118; 101; 100; 95; 102; 114; 111; 109].
Definition S_supersedes : list Z := [115; 117; 112; 101; 114; 115; 101; 100; 101; 115].

Definition db_retract_enqueue (sources : bool) (ok : nat -> bool) (en : Engine) (id : Z) : Engine :=
  if negb (ec_inference (en_cfg en)) then en
  else
    match ix_edges (en_ix en) with
    | None => en
    | Some _ =>
        match edge_index_sources sources (ix_edges (en_ix en)) id [Some S_derived_from] with
        | None => en
        | Some src => with_retract en (push_all ok 0 (en_retract en) (map es_from src))
        end
    end.

Definition SUPERSEDE_MAX_HOPS : nat := 8.
Definition SUPERSEDE_MAX : nat := 65536.

Definition db_supersede_note (ok : bool) (en : Engine) (old_id new_id : Z) : Engine :=
  let rt := en_retract en in
  if negb (ec_inference (en_cfg en)) || (old_id =? new_id) then en
  else if (SUPERSEDE_MAX <=? length (rt_sup rt))%nat then en
  else
    let full := (length (rt_sup rt) =? rt_sup_cap rt)%nat in
    if full && negb ok then en
    else
      with_retract en
        (mkRetract (rt_ids rt) (rt_cap rt) (rt_sup rt ++ [(old_id, new_id)])
           (if full then if (rt_sup_cap rt =? 0)%nat then 32 else rt_sup_cap rt * 2 else rt_sup_cap rt)%nat).

(** The newest entry of [id], 0 when there is none. *)
Definition supersede_lookup (en : Engine) (id : Z) : Z :=
  match list_find (fun p => fst p = id) (rev (rt_sup (en_retract en))) with
  | Some (_, (_, to)) => to
  | None => 0
  end.

Fixpoint resolve_loop (hops : nat) (hop : nat) (en : Engine) (cur : Z) : Z :=
  match hops with
  | O => cur
  | S hops' =>
      let next := supersede_lookup en cur in
      if (next =? 0) || (next =? cur) then (if (hop =? 0)%nat then 0 else cur)
      else resolve_loop hops' (S hop) en next
  end.

Definition db_supersede_resolve (en : Engine) (id : Z) : Z := resolve_loop SUPERSEDE_MAX_HOPS 0 en id.

(** A live, unexpired index entry. *)
Definition entry_live (en : Engine) (now id : Z) : bool :=
  match hash_index_get (db_hash (en_db en)) id with
  | Some e => (he_deleted e =? 0) && negb (negb (he_expires_at e =? 0) && (he_expires_at e <=? now))
  | None => false
  end.

Definition db_id_is_live (en : Engine) (now id : Z) : bool :=
  if entry_live en now id then true
  else
    let heir := db_supersede_resolve en id in
    if heir =? 0 then false else entry_live en now heir.

Definition db_derivation_stands (en : Engine) (now : Z) (r : MemoryRecord) : bool :=
  match mr_derivation r with
  | [] => true
  | routes => existsb (fun rt => forallb (db_id_is_live en now) (dr_premises rt)) routes
  end.

(** ** Operations *)

Section operations.
Context `{AeadScheme}.

Definition durably_flush (sync : bool) (en : Engine) : Engine * bool :=
  let '(lf, ok) := log_fsync_if_batched (db_log (en_db en)) sync in (with_db en (set_log (en_db en) lf), ok).

(** What every write does once [append_and_hash] has returned: index, flush,
    acknowledge. *)
Definition finish (io : QeIo) (en : Engine) (st : aegis_status) (r : MemoryRecord) : Engine * (MemoryRecord + aegis_status) :=
  match st with
  | AEGIS_OK =>
      let '(en, ok) := durably_flush (qi_sync io) en in (en, if ok then inl r else inr AEGIS_ERR_INTERNAL)
  | _ => (en, inr st)
  end.

Definition expiry_of (now ttl_ms : Z) : Z :=
  if ttl_ms =? 0 then 0 else if UINT64_MAX - now <? ttl_ms then UINT64_MAX else now + ttl_ms.

(** The working branch of an insert. *)
Definition insert_working (io : QeIo) (now : Z) (en : Engine) (r : MemoryRecord) (session_id : option (list Z)) (ttl_ms : Z)
  : Engine * (MemoryRecord + aegis_status) :=
  match require_phase en 4 with
  | AEGIS_OK =>
      match session_id with
      | None => (en, inr AEGIS_ERR_INVALID_REQUEST)
      | Some sid =>
          let '(ws, wid) := working_store_add (qi_session io) (qi_alloc io) (en_working en) sid r now ttl_ms in
          let en := with_working en ws in
          match wid with
          | None => (en, inr AEGIS_ERR_INTERNAL)
          | Some wid =>
              let '(ws, got) := working_store_get (qi_alloc io) (en_working en) sid wid now in
              (with_working en ws, match got with Some r => inl r | None => inr AEGIS_ERR_INTERNAL end)
          end
      end
  | st => (en, inr st)
  end.

(** The persisted branch, once the type is allowed. *)
Definition insert_persisted (io : QeIo) (now : Z) (en : Engine) (r : MemoryRecord) (ttl_ms : Z)
  : Engine * (MemoryRecord + aegis_status) :=
  if negb (ec_max_index_bytes (en_cfg en) =? 0) && (ec_max_index_bytes (en_cfg en) <=? en_index_bytes en) then
    (en, inr AEGIS_ERR_MEMORY_LIMIT)
  else
    match record_clone (qi_alloc io) r with
    | None => (en, inr AEGIS_ERR_INTERNAL)
    | Some rec =>
        let '(db, id) := take_next_id (en_db en) in
        let rec := stamp_record rec id now now (expiry_of now ttl_ms) 0 in
        let '(db, st) := append_and_hash (qi_write io) db rec in
        let en := with_db en db in
        let en := match st with AEGIS_OK => with_ix en (index_insert (qi_index io) (en_ix en) rec) | _ => en end in
        finish io en st rec
    end.

Definition qe_insert (io : QeIo) (now : Z) (en : Engine) (r : MemoryRecord) (session_id : option (list Z)) (ttl_ms : Z)
  : Engine * (MemoryRecord + aegis_status) :=
  match validate_common en r with
  | AEGIS_OK =>
      if (length (mr_data r) =? 0)%nat then (en, inr AEGIS_ERR_INVALID_REQUEST)
      else
        let f := mr_fact r in
        if negb (bool_decide (fa_kind f = FACT_NONE)) &&
           match predicate_registry_check (en_predicates en) (default [] (fa_predicate f)) (fa_kind f) with
           | Some _ => true
           | None => false
           end
        then (en, inr AEGIS_ERR_INVALID_REQUEST)
        else
          match mr_type r with
          | MEM_WORKING => insert_working io now en r session_id ttl_ms
          | ty =>
              match require_phase en (match ty with MEM_EPISODIC => 1 | _ => 2 end) with
              | AEGIS_OK => insert_persisted io now en r ttl_ms
              | st => (en, inr st)
              end
          end
  | st => (en, inr st)
  end.

(** The read path takes the offset under [index_lock] and reads under
    [log_lock]; no compaction can run between the two. *)
Definition load_record_ro (io : QeIo) (en : Engine) (id : Z) : MemoryRecord + aegis_status :=
  load_record (qi_rerr io) (qi_lalloc io) (qi_dalloc io) (en_db en) id.

Definition qe_get (io : QeIo) (now : Z) (en : Engine) (id : Z) (agent_filter : option (list Z))
  : MemoryRecord + aegis_status :=
  match load_record_ro io en id with
  | inr st => inr st
  | inl r =>
      if is_deleted r || record_expired r now then inr AEGIS_ERR_NOT_FOUND
      else if ns_denies agent_filter r then inr AEGIS_ERR_NOT_FOUND
      else inl r
  end.

(** *** Update *)

(** Absent fields are [None]; an embedding patch is the vectors, their
    dimension and their number. *)
Record UpdatePatch := mkPatch {
  up_data : option (list Z); up_importance : option Z; up_confidence : option Z;
  up_tags : option (list (list Z)); up_fact : option Fact; up_embedding : option (list Z * Z * Z)
}.

Definition set_data (r : MemoryRecord) (v : list Z) : MemoryRecord :=
  mkMemoryRecord (mr_id r) (mr_type r) (mr_created r) (mr_updated r) (mr_importance r) (mr_confidence r)
    (mr_agent_id r) (mr_tags r) (mr_embedding r) (mr_embedding_dim r) (mr_vec_count r) (mr_relationships r)
    (mr_fact r) (mr_derivation r) v (mr_expires_at r) (mr_deleted r).
Definition set_weights (r : MemoryRecord) (importance confidence : Z) : MemoryRecord :=
  mkMemoryRecord (mr_id r) (mr_type r) (mr_created r) (mr_updated r) importance confidence
    (mr_agent_id r) (mr_tags r) (mr_embedding r) (mr_embedding_dim r) (mr_vec_count r) (mr_relationships r)
    (mr_fact r) (mr_derivation r) (mr_data r) (mr_expires_at r) (mr_deleted r).
Definition set_embedding (r : MemoryRecord) (v : list Z) (dim count : Z) : MemoryRecord :=
  mkMemoryRecord (mr_id r) (mr_type r) (mr_created r) (mr_updated r) (mr_importance r) (mr_confidence r)
    (mr_agent_id r) (mr_tags r) v dim count (mr_relationships r)
    (mr_fact r) (mr_derivation r) (mr_data r) (mr_expires_at r) (mr_deleted r).

(** The fields of the record after the patch, [None] when one cannot be
    allocated. *)
Definition patch_fact (alloc : Z -> bool) (cur : MemoryRecord) (p : UpdatePatch) : option MemoryRecord :=
  match up_fact p with
  | None => Some cur
  | Some f =>
      let '(cur, ok) := record_set_fact alloc cur (fa_kind f) (fa_subject f) (fa_predicate f) (fa_object_id f) (fa_object_str f) in
      if ok then Some cur else None
  end.

Definition patch_data (alloc : Z -> bool) (cur : MemoryRecord) (p : UpdatePatch) : option MemoryRecord :=
  match up_data p with
  | None => Some cur
  | Some d => if negb (length d =? 0)%nat && negb (alloc (Z.of_nat (length d))) then None else Some (set_data cur d)
  end.

Definition patch_embedding (alloc : Z -> bool) (cur : MemoryRecord) (p : UpdatePatch) : option MemoryRecord :=
  match up_embedding p with
  | None => Some cur
  | Some (v, dim, count) =>
      let n := wrap 64 (count * dim) in
      if n =? 0 then Some (set_embedding cur [] 0 0)
      else if alloc (wrap 64 (n * 4)) then Some (set_embedding cur (take (Z.to_nat n) v) dim count)
      else None
  end.

Definition patch_tags (alloc : Z -> bool) (cur : MemoryRecord) (p : UpdatePatch) : option MemoryRecord :=
  match up_tags p with
  | None => Some cur
  | Some tags => let '(cur, ok) := record_set_tags alloc cur tags in if ok then Some cur else None
  end.

Definition apply_patch (alloc : Z -> bool) (now : Z) (cur : MemoryRecord) (p : UpdatePatch) : option MemoryRecord :=
  match patch_fact alloc cur p with
  | None => None
  | Some r =>
      match patch_data alloc r p with
      | None => None
      | Some r =>
          let r := set_weights r (default (mr_importance r) (up_importance p)) (default (mr_confidence r) (up_confidence p)) in
          match patch_embedding alloc r p with
          | None => None
          | Some r =>
              match patch_tags alloc r p with
              | None => None
              | Some r => Some (stamp_record r (mr_id r) (mr_created r) now (mr_expires_at r) (mr_deleted r))
              end
          end
      end
  end.

(** The index work of a committed update, [old] being the version it replaces. *)
Definition index_update (io : IndexIo) (ix : Indexes) (old new : MemoryRecord) (p : UpdatePatch) : Indexes :=
  let ix := match up_tags p with
            | None => ix
            | Some _ => set_tag_index ix (add_tags (xi_tag io) 0 (remove_tags (ix_tags ix) (mr_id new) (mr_tags old)) (mr_id new) (mr_tags new))
            end in
  let ix := match up_fact p with
            | None => ix
            | Some _ => set_facts ix (db_fact_index_apply (xi_fact io) (ix_facts ix) new true)
            end in
  let ix := match up_data p with
            | None => ix
            | Some _ =>
                set_lex ix (fst (lexical_index_add (xi_lex io) (lexical_index_remove (ix_lex ix) (mr_id new) (mr_data old))
                                   (mr_id new) (mr_data new)))
            end in
  match up_embedding p with
  | None => ix
  | Some _ =>
      if has_vectors new then push_sem ix [SemAdd (mr_id new) (mr_embedding new) (mr_vec_count new) (mr_embedding_dim new)]
      else if negb (mr_vec_count old =? 0) then push_sem ix [SemRemove (mr_id new)] else ix
  end.

Definition qe_update (io : QeIo) (now : Z) (en : Engine) (id : Z) (patch : UpdatePatch) (ns : option (list Z))
  : Engine * (MemoryRecord + aegis_status) :=
  match require_phase en 2 with
  | AEGIS_OK =>
      match load_record (qi_rerr io) (qi_lalloc io) (qi_dalloc io) (en_db en) id with
      | inr st => (en, inr st)
      | inl cur =>
          if is_deleted cur || ns_denies ns cur then (en, inr AEGIS_ERR_NOT_FOUND)
          else
            match mr_type cur with
            | MEM_SEMANTIC =>
                if match up_fact patch with Some _ => negb (bool_decide (fa_kind (mr_fact cur) = FACT_NONE)) | None => false end
                then (en, inr AEGIS_ERR_INVALID_REQUEST)
                else
                  match apply_patch (qi_alloc io) now cur patch with
                  | None => (en, inr AEGIS_ERR_INTERNAL)
                  | Some new =>
                      match validate_common en new with
                      | AEGIS_OK =>
                          let '(db, st) := append_and_hash (qi_write io) (en_db en) new in
                          let en := with_db en db in
                          let en := match st with
                                    | AEGIS_OK => with_ix en (index_update (qi_index io) (en_ix en) cur new patch)
                                    | _ => en
                                    end in
                          finish io en st new
                      | st => (en, inr st)
                      end
                  end
            | _ => (en, inr AEGIS_ERR_IMMUTABLE)
            end
      end
  | st => (en, inr st)
  end.

(** *** Delete *)

(** The index work of a delete, before its tombstone is appended. *)
Definition index_delete (io : QeIo) (en : Engine) (cur : MemoryRecord) : Engine :=
  let ix := en_ix en in
  let ix := set_tag_index ix (remove_tags (ix_tags ix) (mr_id cur) (mr_tags cur)) in
  let ix := set_lex ix (lexical_index_remove (ix_lex ix) (mr_id cur) (mr_data cur)) in
  let ix := set_edges ix (remove_edges (ix_edges ix) (mr_id cur) (mr_relationships cur)) in
  let en := db_retract_enqueue (qi_sources io) (qi_queue io) (with_ix en ix) (mr_id cur) in
  let ix := en_ix en in
  let ix := set_edges ix (edge_index_remove_target (ix_edges ix) (mr_id cur)) in
  let ix := set_facts ix (db_fact_index_apply (xi_fact (qi_index io)) (ix_facts ix) cur false) in
  let ix := set_usage ix (usage_index_untrack (ix_usage ix) (mr_id cur)) in
  let ix := if negb (mr_embedding_dim cur =? 0) then push_sem ix [SemRemove (mr_id cur)] else ix in
  let ix := set_time ix (time_index_remove (ix_time ix) (mr_created cur) (mr_id cur)) in
  with_ix en ix.

Definition qe_delete (io : QeIo) (now : Z) (en : Engine) (id : Z) (ns : option (list Z)) : Engine * aegis_status :=
  match require_phase en 1 with
  | AEGIS_OK =>
      match load_record (qi_rerr io) (qi_lalloc io) (qi_dalloc io) (en_db en) id with
      | inr st => (en, st)
      | inl cur =>
          if is_deleted cur || ns_denies ns cur then (en, AEGIS_ERR_NOT_FOUND)
          else
            let en := index_delete io en cur in
            let tomb := stamp_record cur (mr_id cur) (mr_created cur) now (mr_expires_at cur) 1 in
            let '(db, st) := append_and_hash (qi_write io) (en_db en) tomb in
            let '(en, r) := finish io (with_db en db) st tomb in
            (en, match r with inl _ => AEGIS_OK | inr st => st end)
      end
  | st => (en, st)
  end.

(** *** Promote *)

Definition pin_record (w : MemoryRecord) (ty : MemoryType) (agent : option (list Z)) : MemoryRecord :=
  mkMemoryRecord (mr_id w) ty (mr_created w) (mr_updated w) (mr_importance w) (mr_confidence w) agent (mr_tags w)
    (mr_embedding w) (mr_embedding_dim w) (mr_vec_count w) (mr_relationships w) (mr_fact w) (mr_derivation w)
    (mr_data w) 0 (mr_deleted w).

Definition qe_promote (io : QeIo) (now : Z) (en : Engine) (session_id : option (list Z)) (working_id : Z)
  (to_type : MemoryType) (ns : option (list Z)) : Engine * (MemoryRecord + aegis_status) :=
  match require_phase en 4 with
  | AEGIS_OK =>
      match session_id, to_type with
      | None, _ => (en, inr AEGIS_ERR_INVALID_REQUEST)
      | _, MEM_WORKING => (en, inr AEGIS_ERR_INVALID_REQUEST)
      | Some sid, _ =>
          let '(ws, w) := working_store_take (en_working en) sid working_id now ns in
          let en := with_working en ws in
          match w with
          | None => (en, inr AEGIS_ERR_NOT_FOUND)
          | Some w =>
              match ns with
              | Some n =>
                  match dup_str (qi_alloc io) n with
                  | None => (en, inr AEGIS_ERR_INTERNAL)
                  | Some n => qe_insert io now en (pin_record w to_type (Some n)) None 0
                  end
              | None => qe_insert io now en (pin_record w to_type (mr_agent_id w)) None 0
              end
          end
      end
  | st => (en, inr st)
  end.

(** *** Relate *)

Definition MAX_REL_KIND_LEN : nat := 64.
Definition MAX_RELATIONSHIPS : nat := 4096.

Definition rel_same (e : Relationship) (to_id : Z) (kind : option (list Z)) : bool :=
  if negb (rl_to e =? to_id) then false
  else match rl_kind e, kind with
       | None, None => true
       | Some a, Some b => bool_decide (a = b)
       | _, _ => false
       end.

(** The target exists, and belongs to the caller's namespace when there is
    one. *)
Definition target_found (io : QeIo) (en : Engine) (to_id : Z) (ns : option (list Z)) : bool :=
  match ns with
  | Some _ =>
      match load_record (qi_rerr io) (qi_lalloc io) (qi_dalloc io) (en_db en) to_id with
      | inl r => negb (is_deleted r || ns_denies ns r)
      | inr _ => false
      end
  | None => match hash_index_get (db_hash (en_db en)) to_id with Some _ => true | None => false end
  end.

Definition qe_relate (io : QeIo) (now : Z) (en : Engine) (from_id to_id : Z) (kind : option (list Z)) (ns : option (list Z))
  : Engine * aegis_status :=
  match require_phase en 4 with
  | AEGIS_OK =>
      if from_id =? to_id then (en, AEGIS_ERR_INVALID_REQUEST)
      else if match kind with Some k => (MAX_REL_KIND_LEN <? length k)%nat | None => false end then (en, AEGIS_ERR_INVALID_REQUEST)
      else
        match load_record (qi_rerr io) (qi_lalloc io) (qi_dalloc io) (en_db en) from_id with
        | inr st => (en, st)
        | inl from =>
            if is_deleted from || ns_denies ns from then (en, AEGIS_ERR_NOT_FOUND)
            else if negb (target_found io en to_id ns) then (en, AEGIS_ERR_NOT_FOUND)
            else if existsb (fun rl => rel_same rl to_id kind) (mr_relationships from) then (en, AEGIS_OK)
            else if (MAX_RELATIONSHIPS <=? length (mr_relationships from))%nat then (en, AEGIS_ERR_QUOTA_EXCEEDED)
            else
              let '(from, ok) := record_add_relationship (qi_alloc io) from from_id to_id kind in
              if negb ok then (en, AEGIS_ERR_INTERNAL)
              else
                let from := stamp_record from (mr_id from) (mr_created from) now (mr_expires_at from) (mr_deleted from) in
                let '(db, st) := append_and_hash (qi_write io) (en_db en) from in
                let en := with_db en db in
                let en := match st with
                          | AEGIS_OK =>
                              with_ix en (set_edges (en_ix en) (fst (edge_index_add (xi_edge (qi_index io) 0%nat) (ix_edges (en_ix en)) from_id to_id kind)))
                          | _ => en
                          end in
                let '(en, r) := finish io en st from in
                (en, match r with inl _ => AEGIS_OK | inr st => st end)
        end
  | st => (en, st)
  end.

(** *** Retraction *)

Fixpoint retract_batch (io : nat -> QeIo) (now : Z) (k : nat) (en : Engine) (batch : list Z) (retracted : nat) : Engine * nat :=
  match batch with
  | [] => (en, retracted)
  | id :: batch' =>
      match qe_get (io k) now en id None with
      | inr _ => retract_batch io now (S k) en batch' retracted
      | inl r =>
          if (if ec_inference (en_cfg en) then db_derivation_stands en now r else true)
          then retract_batch io now (S k) en batch' retracted
          else
            let '(en, st) := qe_delete (io k) now en (mr_id r) None in
            retract_batch io now (S k) en batch' (match st with AEGIS_OK => S retracted | _ => retracted end)
      end
  end.

(** [ok] is the allocation of the batch; [io k] the outcomes for its [k]-th
    entry. *)
Definition db_retract_step (ok : bool) (io : nat -> QeIo) (now : Z) (en : Engine) : Engine * nat :=
  if ec_read_only (en_cfg en) then (en, 0%nat)
  else
    let rt := en_retract en in
    let n := Nat.min (length (rt_ids rt)) (ec_max_derived (en_cfg en)) in
    if (n =? 0)%nat || negb ok then (en, 0%nat)
    else
      retract_batch io now 0 (with_retract en (set_queue rt (drop n (rt_ids rt)) (rt_cap rt))) (take n (rt_ids rt)) 0.
End operations.
