(* ===== verification/Rebuild.v ===== *)
(** * Rebuilding the secondary indexes

    The second pass of [recovery_run] ([src/storage/recovery.c]): the walk over
    the live entries of the id index that refills every secondary index, the
    replay of the vectors over their checkpoint, the reconciliation of
    derivations and merges. And the follower's side of replication:
    [db_replica_apply] and [db_reset_replica] of [src/storage/db.c], called for
    each message by [follow_session] of [src/server/replication.c], and the
    frames that the primary's streaming loop sends it. *)

From S2P Require Import Prelude Endian HashIndex SortedArray Record RecordCodec StrTable ProbeTable Intern TimeIndex TagIndex UsageIndex EdgeIndex FactIndex Aead AeadCorrect Log Floats Tenant CkptCrypt Store WorkingBuffer Json Registry Lexical Engine.

(** ** Vectors as calls *)

(** The vectors the calls leave in the index: an addition replaces what the id
    had. *)
Definition sem_step (s : gmap Z (list Z * Z * Z)) (c : SemCall) : gmap Z (list Z * Z * Z) :=
  match c with SemAdd id v n d => <[id := (v, n, d)]> s | SemRemove id => delete id s end.
Definition sem_contents (cs : list SemCall) : gmap Z (list Z * Z * Z) := foldl sem_step ∅ cs.

(** What the pass's call of [semantic_index_reconcile] adds to the calls: one
    removal for each id held that is not kept. The walk over the count table is
    [SemanticIndex.semantic_index_reconcile]. *)
Definition sem_reconcile (ok : bool) (keep : Z -> bool) (cs : list SemCall) : list SemCall :=
  if ok then cs ++ map SemRemove (filter (fun id => keep id = false) (map_to_list (sem_contents cs)).*1) else cs.

Section rebuild.
Context `{AeadScheme}.

(** Outcomes of the calls; the indexes, queues and accounting of the [k]-th
    entry. *)
Record RebuildIo := mkRebuildIo {
  bi_rerr : Z -> Z -> bool; bi_lalloc : Z -> bool; bi_dalloc : Z -> bool;
  bi_index : nat -> IndexIo; bi_sup : nat -> nat -> bool; bi_queue : nat -> bool; bi_tenant : nat -> bool * bool;
  bi_keep : bool; bi_usage : bool * bool
}.

Definition target_live (h : HashIndex) (id : Z) : bool :=
  match hash_index_get h id with Some te => he_deleted te =? 0 | None => false end.

(** Edges to live targets are indexed; a live record that supersedes a dead one
    restores the merge. *)
Fixpoint recover_edges (ok : nat -> EdgeOks) (sup : nat -> bool) (k : nat) (en : Engine) (id : Z) (rels : list Relationship) : Engine :=
  match rels with
  | [] => en
  | rl :: rels' =>
      recover_edges ok sup (S k)
        (if target_live (db_hash (en_db en)) (rl_to rl) then
           with_ix en (set_edges (en_ix en) (fst (edge_index_add (ok k) (ix_edges (en_ix en)) id (rl_to rl) (rl_kind rl))))
         else if bool_decide (rl_kind rl = Some S_supersedes) then db_supersede_note (sup k) en (rl_to rl) id
         else en) id rels'
  end.

(** Every premise of some route is live and unexpired; merges are not
    followed here. *)
Definition recover_stands (en : Engine) (now : Z) (r : MemoryRecord) : bool :=
  existsb (fun rt => forallb (entry_live en now) (dr_premises rt)) (mr_derivation r).

(** The vector calls of one record; [sem] is the offset the loaded checkpoint
    covers. *)
Definition recover_vectors (dims : Z) (sem : option Z) (e : HashEntry) (r : MemoryRecord) : list SemCall :=
  let tail := match sem with Some covered => covered <=? he_offset e | None => true end in
  if (mr_embedding_dim r =? dims) && negb (length (mr_embedding r) =? 0)%nat && negb (mr_vec_count r =? 0) && tail then
    [SemAdd (mr_id r) (mr_embedding r) (mr_vec_count r) (mr_embedding_dim r)]
  else match sem with
       | Some covered => if covered <=? he_offset e then [SemRemove (mr_id r)] else []
       | None => []
       end.

Definition recover_record (io : RebuildIo) (now : Z) (sem : option Z) (k : nat) (en : Engine) (e : HashEntry)
  (blen : Z) (r : MemoryRecord) : Engine :=
  let x := bi_index io k in
  let ix := en_ix en in
  let ix := set_time ix (default (ix_time ix) (time_index_add (xi_time x) (ix_time ix) (mr_created r) (mr_id r))) in
  let ix := set_tag_index ix (add_tags (xi_tag x) 0 (ix_tags ix) (mr_id r) (mr_tags r)) in
  let ix := set_lex ix (fst (lexical_index_add (xi_lex x) (ix_lex ix) (mr_id r) (mr_data r))) in
  let en := recover_edges (xi_edge x) (bi_sup io k) 0 (with_ix en ix) (mr_id r) (mr_relationships r) in
  let en := match mr_derivation r with
            | [] => en
            | _ => if recover_stands en now r then en else db_retract_enqueue_id (bi_queue io k) en (mr_id r)
            end in
  let ix := en_ix en in
  let ix := set_facts ix (db_fact_index_apply (xi_fact x) (ix_facts ix) r true) in
  let ix := set_usage ix (fst (usage_index_track (xi_usage x) (ix_usage ix) (mr_id r))) in
  let en := with_ix en ix in
  let db := en_db en in
  let en := match (if cfg_auth (db_config db) then mr_agent_id r else None) with
            | Some ns => with_db en (set_tenants db (tenant_usage_adjust (bi_tenant io k).1 (bi_tenant io k).2 (db_tenants db) ns 1 blen))
            | None => en
            end in
  with_ix en (push_sem (en_ix en) (recover_vectors (ec_dims (en_cfg en)) sem e r)).

Fixpoint pass2_loop (io : RebuildIo) (now : Z) (sem : option Z) (k : nat) (en : Engine) (es : list HashEntry) : Engine :=
  match es with
  | [] => en
  | e :: es' =>
      let en :=
        if negb (he_used e) || negb (he_deleted e =? 0) then en
        else
          match log_read (bi_rerr io) (bi_lalloc io) (db_log (en_db en)) (he_offset e) with
          | None => en
          | Some buf =>
              match record_decode (bi_dalloc io) buf with
              | None => en
              | Some r => recover_record io now sem k en e (Z.of_nat (length buf)) r
              end
          end in
      pass2_loop io now sem (S k) en es'
  end.

(** [sem_file] is what [semantic_index_load] found: the vectors, as the calls
    that built them, and the offset they cover. *)
Definition recovery_pass2 (io : RebuildIo) (now : Z) (sem_file : option (list SemCall * Z)) (usage_file : option (list Z))
  (en : Engine) : Engine :=
  let '(calls, sem) :=
    match sem_file with
    | Some (calls, covered) => if covered <=? lf_size (db_log (en_db en)) then (calls, Some covered) else ([], None)
    | None => ([], None)
    end in
  let en := with_ix en (push_sem (en_ix en) calls) in
  let en := pass2_loop io now sem 0 en (hi_buckets (db_hash (en_db en))) in
  let en := match sem with
            | Some _ =>
                with_ix en (mkIndexes (ix_time (en_ix en)) (ix_tags (en_ix en)) (ix_lex (en_ix en)) (ix_edges (en_ix en))
                  (ix_facts (en_ix en)) (ix_usage (en_ix en))
                  (sem_reconcile (bi_keep io) (fun id => match hash_index_get (db_hash (en_db en)) id with Some _ => true | None => false end)
                     (ix_sem (en_ix en))))
            | None => en
            end in
  match ix_usage (en_ix en) with
  | None => en
  | Some u =>
      match ckpt_read (bi_usage io).1 (bi_usage io).2 usage_file (cfg_key (db_config (en_db en))) with
      | None => en
      | Some buf => with_ix en (set_usage (en_ix en) (fst (usage_index_load_buf (Some u) (Some buf))))
      end
  end.

(** ** Replication *)

(** The live version [p] leaves the indexes. *)
Definition replica_drop (x : IndexIo) (ix : Indexes) (p : MemoryRecord) : Indexes :=
  let ix := set_time ix (time_index_remove (ix_time ix) (mr_created p) (mr_id p)) in
  let ix := set_tag_index ix (remove_tags (ix_tags ix) (mr_id p) (mr_tags p)) in
  let ix := set_lex ix (lexical_index_remove (ix_lex ix) (mr_id p) (mr_data p)) in
  let ix := set_edges ix (remove_edges (ix_edges ix) (mr_id p) (mr_relationships p)) in
  let ix := set_facts ix (db_fact_index_apply (xi_fact x) (ix_facts ix) p false) in
  let ix := set_usage ix (usage_index_untrack (ix_usage ix) (mr_id p)) in
  if has_vectors p then push_sem ix [SemRemove (mr_id p)] else ix.

(** The version [r] enters them; [h] already holds it. *)
Definition replica_add (x : IndexIo) (dims : Z) (h : HashIndex) (ix : Indexes) (r : MemoryRecord) : Indexes :=
  let ix := set_time ix (default (ix_time ix) (time_index_add (xi_time x) (ix_time ix) (mr_created r) (mr_id r))) in
  let ix := set_tag_index ix (add_tags (xi_tag x) 0 (ix_tags ix) (mr_id r) (mr_tags r)) in
  let ix := set_lex ix (fst (lexical_index_add (xi_lex x) (ix_lex ix) (mr_id r) (mr_data r))) in
  let ix := set_edges ix (add_edges (xi_edge x) (fun rl => target_live h (rl_to rl)) 0 (ix_edges ix) (mr_id r) (mr_relationships r)) in
  let ix := set_facts ix (db_fact_index_apply (xi_fact x) (ix_facts ix) r true) in
  let ix := set_usage ix (fst (usage_index_track (xi_usage x) (ix_usage ix) (mr_id r))) in
  if (mr_embedding_dim r =? dims) && negb (length (mr_embedding r) =? 0)%nat && negb (mr_vec_count r =? 0)
  then push_sem ix [SemAdd (mr_id r) (mr_embedding r) (mr_vec_count r) (mr_embedding_dim r)] else ix.

Definition set_next_id (db : Db) (n : Z) : Db :=
  mkDb (db_config db) (db_log db) (db_hash db) (db_tenants db) n (db_index_file db) (db_log_generation db).

(** Apply one frame already in the log at [offset]. *)
Definition db_replica_apply (io : QeIo) (en : Engine) (offset : Z) (payload : list Z) : Engine * bool :=
  match record_decode (qi_dalloc io) payload with
  | None => (en, false)
  | Some r =>
      let ix :=
        match hash_index_get (db_hash (en_db en)) (mr_id r) with
        | Some prior =>
            if he_deleted prior =? 0 then
              match log_read (qi_rerr io) (qi_lalloc io) (db_log (en_db en)) (he_offset prior) with
              | None => en_ix en
              | Some pbuf =>
                  match record_decode (qi_dalloc io) pbuf with
                  | None => en_ix en
                  | Some p => replica_drop (qi_index io) (en_ix en) p
                  end
              end
            else en_ix en
        | None => en_ix en
        end in
      let en := with_ix en ix in
      match hash_index_put (wi_put (qi_write io)) (db_hash (en_db en)) (mr_id r) offset (wrap 32 (Z.of_nat (length payload)))
              (memory_type_code (mr_type r)) (flag (is_deleted r)) (mr_expires_at r) with
      | None => (en, false)
      | Some h =>
          let en := with_db en (set_hash (en_db en) h) in
          let en :=
            if is_deleted r then with_ix en (set_edges (en_ix en) (edge_index_remove_target (ix_edges (en_ix en)) (mr_id r)))
            else with_ix en (replica_add (qi_index io) (ec_dims (en_cfg en)) h (en_ix en) r) in
          let next := db_next_id (en_db en) in
          (with_db en (set_next_id (en_db en) (if next <? wrap 64 (mr_id r + 1) then wrap 64 (mr_id r + 1) else next)), true)
      end
  end.

(** ** The replication stream *)

Definition MAX_PAYLOAD : Z := 64 * 1024 * 1024.
Definition RECORD_CODEC_MAX : Z := RECORD_CODEC_V5.

Inductive ReplMsg :=
  | MsgFrame (offset : Z) (payload : list Z)
  | MsgHeartbeat (size : Z)
  | MsgReset
  | MsgIncompatible (offset : Z).

(** The codec version a frame starts with is above what the peer reads. *)
Definition codec_above (peer_codec : Z) (payload : list Z) : bool :=
  match payload with [] => false | b :: _ => peer_codec <? b end.

(** A turn of the primary's loop once it has read the log's size: the frames
    from the cursor up to that size, then a heartbeat. [gen c] tells whether the
    log's generation is still the session's when the frame at [c] is read; a
    connection that drops delivers a prefix of these messages. Every
    frame is longer than nothing, so as many turns as bytes are enough. The
    second component is the cursor the next turn starts at, [None] when the
    session is over. *)
Fixpoint stream_frames (rerr : Z -> Z -> bool) (alloc gen : Z -> bool) (peer_codec : Z) (lf : LogFile) (size : Z) (fuel : nat) (cursor : Z)
  : list ReplMsg * option Z :=
  match fuel with
  | O => ([MsgHeartbeat size], Some cursor)
  | S fuel' =>
      if cursor <? size then
        if negb (gen cursor) then ([MsgReset], None)
        else
          match log_read rerr alloc lf cursor with
          | None => ([MsgHeartbeat size], Some cursor)
          | Some payload =>
              if codec_above peer_codec payload then ([MsgIncompatible cursor], None)
              else
                let '(ms, c) := stream_frames rerr alloc gen peer_codec lf size fuel'
                                  (cursor + (log_frame_overhead lf + Z.of_nat (length payload))) in
                (MsgFrame cursor payload :: ms, c)
          end
      else ([MsgHeartbeat size], Some cursor)
  end.

(** Where a session starts: at the offset the follower asks for, or at 0 after
    a reset. *)
Definition stream_cursor (req_gen cur_gen from_off logsz : Z) : bool * Z :=
  let reset := negb (req_gen =? cur_gen) || (from_off >? logsz) in (reset, if reset then 0 else from_off).

(** What the follower does with a frame message: a length the stream never
    carries ends the session, and the offset must be the end of the local
    log. *)
Definition follower_frame (io : QeIo) (en : Engine) (offset : Z) (payload : list Z) : Engine * bool :=
  let len := Z.of_nat (length payload) in
  if (len =? 0) || (len >? MAX_PAYLOAD) then (en, false)
  else if negb (offset =? lf_size (db_log (en_db en))) then (en, false)
  else
    let '(lf, off) := log_append (wi_log (qi_write io)) (db_log (en_db en)) payload (wi_nonce (qi_write io)) (wi_write (qi_write io)) in
    let en := with_db en (set_log (en_db en) lf) in
    match off with
    | None => (en, false)
    | Some off => db_replica_apply io en off payload
    end.

(** Back to an empty database; [created] tells whether every index could be
    allocated. *)
Definition db_reset_replica (trunc created : bool) (en : Engine) : Engine * bool :=
  let '(lf, ok) := log_truncate (db_log (en_db en)) 0 trunc in
  let en := with_db en (set_log (en_db en) lf) in
  if negb ok || negb created then (en, false)
  else
    let ix := en_ix en in
    let ix := mkIndexes time_index_create (mkTagIndex tbl_empty)
                (match ix_lex ix with Some _ => lexical_index_create true | None => None end)
                (match ix_edges ix with Some _ => Some edge_index_create | None => None end)
                (match ix_facts ix with Some _ => Some fact_index_create | None => None end)
                (match ix_usage ix with Some _ => Some usage_index_create | None => None end) [] in
    (with_ix (with_db en (set_next_id (set_hash (en_db en) hash_index_create) 1)) ix, true).

(** One message of the stream; the result tells whether the session goes on.
    The gauges of progress and the stop flag are not kept.
    [rst] gives the outcomes of the reset. *)
Definition follower_msg (io : QeIo) (rst : bool * bool) (en : Engine) (msg : ReplMsg) : Engine * bool :=
  match msg with
  | MsgHeartbeat _ => (en, true)
  | MsgIncompatible _ => (en, false)
  | MsgReset => (fst (db_reset_replica (fst rst) (snd rst) en), false)
  | MsgFrame offset payload => follower_frame io en offset payload
  end.

Fixpoint follow_session (io : nat -> QeIo) (rst : bool * bool) (k : nat) (en : Engine) (msgs : list ReplMsg) : Engine * bool :=
  match msgs with
  | [] => (en, true)
  | msg :: msgs' =>
      let '(en, ok) := follower_msg (io k) rst en msg in
      if ok then follow_session io rst (S k) en msgs' else (en, false)
  end.
End rebuild.
