(* ===== verification/EngineIndexes.v ===== *)
(** * The secondary indexes against the live records

    What each secondary index must hold when the live records are [m], and that
    the index work of an insert, an update, a delete and a relate keeps it so
    when its allocations succeed. *)

From S2P Require Import Prelude Endian SortedArray HashIndex Record RecordCodec RecordRoundtrip StrTable ProbeTable Intern TimeIndex TagIndex UsageIndex EdgeIndex FactIndex Aead AeadCorrect Log LogCorrect Tenant CkptCrypt Store StoreCorrect Compaction CompactionCorrect StoreView Lexical LexicalCorrect Engine Rebuild.

(** An index of type [I] agrees with the live records. *)
Class Describes (I : Type) := describes : I -> gmap Z MemoryRecord -> Prop.

Local Notation "ix ⊩ m" := (describes ix m) (at level 70).

(** ** Creation times *)

Definition time_entries (m : gmap Z MemoryRecord) : list TimeEntry :=
  (fun p : Z * MemoryRecord => mkTimeEntry (mr_created p.2) p.1) <$> map_to_list m.

#[export] Instance time_describes : Describes TimeIndex := fun t m => ti_wf t /\ ti_e t ≡ₚ time_entries m.

Lemma time_entries_insert m id r :
  m !! id = None -> time_entries (<[id := r]> m) ≡ₚ mkTimeEntry (mr_created r) id :: time_entries m.
Proof. intros Hid. unfold time_entries. by rewrite map_to_list_insert. Qed.

Lemma time_entries_delete m id r :
  m !! id = Some r -> time_entries m ≡ₚ mkTimeEntry (mr_created r) id :: time_entries (delete id m).
Proof. intros Hid. unfold time_entries. rewrite <- (map_to_list_delete m id r) by done. done. Qed.

Lemma time_insert (t : TimeIndex) m r :
  t ⊩ m -> m !! mr_id r = None -> default t (time_index_add true t (mr_created r) (mr_id r)) ⊩ <[mr_id r := r]> m.
Proof.
  intros [W Hp] Hid. destruct (time_index_add_spec t (mr_created r) (mr_id r) W) as (t' & -> & W' & Hp').
  split; [done|]. cbn. by rewrite Hp', time_entries_insert, Hp.
Qed.

Lemma time_update (t : TimeIndex) m id old new :
  t ⊩ m -> m !! id = Some old -> mr_created new = mr_created old -> t ⊩ <[id := new]> m.
Proof.
  intros [W Hp] Hid Hc. split; [done|]. rewrite Hp, (time_entries_delete m id old) by done.
  rewrite <- (insert_delete_eq m), time_entries_insert by apply lookup_delete_eq. by rewrite Hc.
Qed.

Lemma time_delete (t : TimeIndex) m id r :
  t ⊩ m -> m !! id = Some r -> time_index_remove t (mr_created r) id ⊩ delete id m.
Proof.
  intros [W Hp] Hid. destruct (time_index_remove_spec t (mr_created r) id W) as (W' & Hin & _).
  pose proof (time_entries_delete m id r Hid) as Hd.
  assert (mkTimeEntry (mr_created r) id ∈ ti_e t) as He by (rewrite Hp, Hd; left).
  split; [done|]. apply (Permutation_cons_inv (a := mkTimeEntry (mr_created r) id)). by rewrite <- Hin, Hp, Hd.
Qed.

(** ** Tags *)

#[export] Instance tag_describes : Describes TagIndex := fun t m =>
  exists s, tag_refines t s /\ forall tag id, (tag, id) ∈ s <-> exists r, m !! id = Some r /\ tag ∈ mr_tags r.

Lemma add_tags_refines ok k t s id tags :
  (forall k, ok k = (true, true)) -> tag_refines t s ->
  exists s', tag_refines (add_tags ok k t id tags) s' /\
    forall tag' id', (tag', id') ∈ s' <-> (tag', id') ∈ s \/ (id' = id /\ tag' ∈ tags).
Proof.
  intros Hok. revert k t s. induction tags as [|tag tags IH]; intros k t s R; cbn [add_tags].
  { exists s. split; [done|]. set_solver. }
  rewrite Hok. cbn [fst snd]. destruct (add_refines t s tag id R) as (t' & -> & R'). cbn [fst].
  destruct (IH (S k) t' _ R') as (s' & Rs & Hs). exists s'. split; [done|]. intros tag' id'. rewrite Hs. set_solver.
Qed.

Lemma remove_tags_refines t s id tags :
  tag_refines t s ->
  exists s', tag_refines (remove_tags t id tags) s' /\
    forall tag' id', (tag', id') ∈ s' <-> (tag', id') ∈ s /\ ~ (id' = id /\ tag' ∈ tags).
Proof.
  unfold remove_tags. revert t s. induction tags as [|tag tags IH]; intros t s R; cbn [foldl].
  { exists s. split; [done|]. set_solver. }
  destruct (IH _ _ (remove_refines t s tag id R)) as (s' & Rs & Hs). exists s'. split; [done|].
  intros tag' id'. rewrite Hs. set_solver.
Qed.

Lemma tags_insert ok (t : TagIndex) m r :
  (forall k, ok k = (true, true)) -> t ⊩ m -> m !! mr_id r = None ->
  add_tags ok 0 t (mr_id r) (mr_tags r) ⊩ <[mr_id r := r]> m.
Proof.
  intros Hok (s & R & Hs) Hid. destruct (add_tags_refines ok 0 t s (mr_id r) (mr_tags r) Hok R) as (s' & R' & Hs').
  exists s'. split; [done|]. intros tag id. rewrite Hs', Hs. destruct (decide (id = mr_id r)) as [->|Hne].
  - rewrite lookup_insert_eq, Hid. naive_solver.
  - rewrite lookup_insert_ne by done. naive_solver.
Qed.

Lemma tags_delete (t : TagIndex) m id r :
  t ⊩ m -> m !! id = Some r -> remove_tags t id (mr_tags r) ⊩ delete id m.
Proof.
  intros (s & R & Hs) Hid. destruct (remove_tags_refines t s id (mr_tags r) R) as (s' & R' & Hs').
  exists s'. split; [done|]. intros tag id'. rewrite Hs', Hs. destruct (decide (id' = id)) as [->|Hne].
  - rewrite lookup_delete_eq, Hid. naive_solver.
  - rewrite lookup_delete_ne by done. naive_solver.
Qed.

Lemma tags_replace ok (t : TagIndex) m old new :
  (forall k, ok k = (true, true)) -> t ⊩ m -> m !! mr_id new = Some old ->
  add_tags ok 0 (remove_tags t (mr_id new) (mr_tags old)) (mr_id new) (mr_tags new) ⊩ <[mr_id new := new]> m.
Proof.
  intros Hok Ht Hid. rewrite <- (insert_delete_eq m). apply tags_insert; [done| |apply lookup_delete_eq].
  by apply tags_delete.
Qed.

Lemma tags_update (t : TagIndex) m id old new :
  t ⊩ m -> m !! id = Some old -> mr_tags new = mr_tags old -> t ⊩ <[id := new]> m.
Proof.
  intros (s & R & Hs) Hid Ht. exists s. split; [done|]. intros tag id'. rewrite Hs. destruct (decide (id' = id)) as [->|Hne].
  - rewrite lookup_insert_eq, Hid. split; intros (r & [= <-] & Hr); [exists new; by rewrite Ht|exists old; by rewrite <- Ht].
  - by rewrite lookup_insert_ne.
Qed.

(** ** Indexes of one projection of the record

    The text, the fact and the vectors of a live record are each kept under its
    id, absent when the record has none. *)

Definition text_of (r : MemoryRecord) : option (list Z) :=
  if decide (lex_tokens (mr_data r) = []) then None else Some (mr_data r).
Definition fact_val (r : MemoryRecord) : option FactVal :=
  match fa_predicate (mr_fact r), object_key (fa_kind (mr_fact r)) (fa_object_id (mr_fact r)) (fa_object_str (mr_fact r)) with
  | Some p, Some key => Some (fa_subject (mr_fact r), p, key)
  | _, _ => None
  end.
Definition vectors_of (r : MemoryRecord) : option (list Z * Z * Z) :=
  if has_vectors r then Some (mr_embedding r, mr_vec_count r, mr_embedding_dim r) else None.

Section projection.
Context {X : Type} (proj : MemoryRecord -> option X).

Lemma proj_fresh (m : gmap Z MemoryRecord) id r :
  m !! id = None -> omap proj (<[id := r]> m) = match proj r with Some x => <[id := x]> (omap proj m) | None => omap proj m end.
Proof.
  intros Hid. rewrite omap_insert. destruct (proj r); [done|]. apply delete_id. by rewrite lookup_omap, Hid.
Qed.

Lemma proj_same (m : gmap Z MemoryRecord) id old new :
  m !! id = Some old -> proj new = proj old -> omap proj (<[id := new]> m) = omap proj m.
Proof.
  intros Hid Hp. apply map_eq. intros i. rewrite !lookup_omap. destruct (decide (i = id)) as [->|Hne].
  - by rewrite lookup_insert_eq, Hid.
  - by rewrite lookup_insert_ne.
Qed.
End projection.

(** *** Text *)

Definition lex_ok (al : LexAlloc) : Prop := la_docs al = true /\ forall j, la_node al j = true /\ la_posts al j = true.

#[export] Instance lex_describes : Describes (option LexicalIndex) := fun l m =>
  match l with None => True | Some lx => lex_refines lx (omap text_of m) end.

Lemma lex_insert al (l : option LexicalIndex) m r :
  lex_ok al -> l ⊩ m -> m !! mr_id r = None ->
  fst (lexical_index_add al l (mr_id r) (mr_data r)) ⊩ <[mr_id r := r]> m.
Proof.
  intros [Hd Hj] Hl Hid. destruct l as [lx|]; [|done].
  destruct (lexical_index_add al (Some lx) (mr_id r) (mr_data r)) as [lx' ok] eqn:Ea.
  destruct (lex_add_refines al lx _ (mr_id r) (mr_data r) lx' ok Hl Ea) as (lx2 & -> & R & Hf).
  destruct ok; [|exfalso; destruct (Hf eq_refl) as (_ & [?|(j & [?|?])]); [|destruct (Hj j)..]; congruence].
  cbn [fst describes lex_describes] in *. rewrite proj_fresh by done. unfold lex_added in R.
  rewrite lookup_omap, Hid in R. cbn in R. unfold text_of at 1. by destruct (decide _).
Qed.

Lemma lex_delete (l : option LexicalIndex) m id r :
  l ⊩ m -> m !! id = Some r -> lexical_index_remove l id (mr_data r) ⊩ delete id m.
Proof.
  intros Hl Hid. destruct l as [lx|]; [|done].
  destruct (lex_remove_refines lx _ id (mr_data r) Hl) as (lx' & -> & R).
  { intros old Ho. rewrite lookup_omap, Hid in Ho. cbn in Ho. unfold text_of in Ho. destruct (decide _); congruence. }
  cbn. by rewrite omap_delete.
Qed.

Lemma lex_replace al (l : option LexicalIndex) m old new :
  lex_ok al -> l ⊩ m -> m !! mr_id new = Some old ->
  fst (lexical_index_add al (lexical_index_remove l (mr_id new) (mr_data old)) (mr_id new) (mr_data new)) ⊩ <[mr_id new := new]> m.
Proof.
  intros Hok Hl Hid. rewrite <- (insert_delete_eq m). apply lex_insert; [done| |apply lookup_delete_eq]. by apply lex_delete.
Qed.

Lemma lex_update (l : option LexicalIndex) m id old new :
  l ⊩ m -> m !! id = Some old -> mr_data new = mr_data old -> l ⊩ <[id := new]> m.
Proof.
  intros Hl Hid Hd. destruct l as [lx|]; [|done]. cbn. rewrite (proj_same _ m id old); [done|done|].
  unfold text_of. by rewrite Hd.
Qed.

(** *** Facts *)

#[export] Instance fact_describes : Describes (option FactIndex) := fun fo m =>
  match fo with None => True | Some f => fact_refines f (omap fact_val m) end.

(** The predicate of the record can be interned. *)
Definition fact_fits (fo : option FactIndex) (r : MemoryRecord) : Prop :=
  match fo, fa_predicate (mr_fact r) with Some f, Some p => pred_fits true true (fi_preds f) p | _, _ => True end.

Lemma fact_val_cases r :
  fact_ok (mr_fact r) ->
  (fa_kind (mr_fact r) = FACT_NONE /\ fact_val r = None) \/
  (fa_kind (mr_fact r) <> FACT_NONE /\ exists p key, fa_predicate (mr_fact r) = Some p /\
     object_key (fa_kind (mr_fact r)) (fa_object_id (mr_fact r)) (fa_object_str (mr_fact r)) = Some key /\
     fact_val r = Some (fa_subject (mr_fact r), p, key)).
Proof.
  unfold fact_ok, fact_val. destruct (fa_kind (mr_fact r)) eqn:Ek.
  - left. split; [done|]. cbn. by destruct (fa_predicate _).
  - intros (_ & _ & _ & p & -> & _). right. eauto 10.
  - intros (_ & _ & (p & -> & _) & o & -> & _). right. cbn. eauto 10.
Qed.

Lemma facts_insert ok (fo : option FactIndex) m r :
  all_ok ok -> fact_ok (mr_fact r) -> fact_fits fo r -> fo ⊩ m -> fact_val <$> m !! mr_id r = None \/ fact_val <$> m !! mr_id r = Some None ->
  db_fact_index_apply ok fo r true ⊩ <[mr_id r := r]> m.
Proof.
  intros Hok Hf Hfit Hfo Hid. destruct fo as [f|]; [|done]. unfold db_fact_index_apply.
  assert ((omap fact_val m : gmap Z FactVal) !! mr_id r = None) as Hn.
  { rewrite lookup_omap. destruct (m !! mr_id r) as [o|]; [|done]. cbn in *. destruct Hid; congruence. }
  assert (omap fact_val (<[mr_id r := r]> m) = match fact_val r with Some x => <[mr_id r := x]> (omap fact_val m) | None => omap fact_val m end) as Eo.
  { rewrite omap_insert. destruct (fact_val r); [done|]. by apply delete_id. }
  destruct (fact_val_cases r Hf) as [[Hk Hv]|(Hk & p & key & Hp & Ho & Hv)].
  - rewrite bool_decide_true by done. cbn. by rewrite Eo, Hv.
  - rewrite bool_decide_false by done. rewrite Hp.
    destruct (fact_add_refines ok f (omap fact_val m) (mr_id r) (fa_subject (mr_fact r)) p (fa_kind (mr_fact r))
      (fa_object_id (mr_fact r)) (fa_object_str (mr_fact r)) key Hfo Ho (or_introl Hn)) as (f' & rc & -> & R & Hrc).
    unfold fact_fits in Hfit. rewrite Hp in Hfit. rewrite Hrc in R by done. cbn. by rewrite Eo, Hv.
Qed.

Lemma facts_delete ok (fo : option FactIndex) m id r :
  fact_ok (mr_fact r) -> fo ⊩ m -> m !! id = Some r -> mr_id r = id -> db_fact_index_apply ok fo r false ⊩ delete id m.
Proof.
  intros Hf Hfo Hid Hr. destruct fo as [f|]; [|done]. unfold db_fact_index_apply.
  assert ((omap fact_val m : gmap Z FactVal) !! id = fact_val r) as Hv0 by (by rewrite lookup_omap, Hid).
  destruct (fact_val_cases r Hf) as [[Hk Hv]|(Hk & p & key & Hp & Ho & Hv)].
  - rewrite bool_decide_true by done. cbn. rewrite omap_delete, delete_id; [done|]. congruence.
  - rewrite bool_decide_false by done. rewrite Hp, Hr.
    destruct (fact_remove_refines f (omap fact_val m) id (fa_subject (mr_fact r)) p (fa_kind (mr_fact r))
      (fa_object_id (mr_fact r)) (fa_object_str (mr_fact r)) key Hfo Ho) as (f' & -> & R); [right; congruence|].
    cbn. by rewrite omap_delete.
Qed.

Lemma facts_update (fo : option FactIndex) m id old new :
  fo ⊩ m -> m !! id = Some old -> mr_fact new = mr_fact old -> fo ⊩ <[id := new]> m.
Proof.
  intros Hl Hid Hd. destruct fo as [f|]; [|done]. cbn. rewrite (proj_same _ m id old); [done|done|].
  unfold fact_val. by rewrite Hd.
Qed.

(** *** Vectors *)

#[export] Instance sem_describes : Describes (list SemCall) := fun cs m => sem_contents cs = omap vectors_of m.

Lemma sem_contents_snoc cs c : sem_contents (cs ++ [c]) = sem_step (sem_contents cs) c.
Proof. unfold sem_contents. by rewrite foldl_app. Qed.

Lemma sem_insert cs m r :
  cs ⊩ m -> (has_vectors r = false -> vectors_of <$> m !! mr_id r = None \/ vectors_of <$> m !! mr_id r = Some None) ->
  (if has_vectors r then cs ++ [SemAdd (mr_id r) (mr_embedding r) (mr_vec_count r) (mr_embedding_dim r)] else cs) ⊩ <[mr_id r := r]> m.
Proof.
  unfold describes, sem_describes. intros Hc Hid. rewrite omap_insert. unfold vectors_of at 1. destruct (has_vectors r).
  - by rewrite sem_contents_snoc, Hc.
  - rewrite delete_id; [done|]. rewrite lookup_omap. specialize (Hid eq_refl). destruct (m !! mr_id r); [|done]. cbn in *. destruct Hid; congruence.
Qed.

Lemma sem_remove cs m id : cs ⊩ m -> (cs ++ [SemRemove id]) ⊩ delete id m.
Proof. unfold describes, sem_describes. intros Hc. by rewrite sem_contents_snoc, Hc, omap_delete. Qed.

Lemma sem_update (cs : list SemCall) m id old new :
  cs ⊩ m -> m !! id = Some old -> vectors_of new = vectors_of old -> cs ⊩ <[id := new]> m.
Proof. unfold describes, sem_describes. intros Hc Hid Hv. by rewrite (proj_same _ m id old). Qed.

(** ** Usage *)

#[export] Instance usage_describes : Describes (option UsageIndex) := fun uo m =>
  match uo with None => True | Some u => exists c, usage_refines u c /\ forall id, is_Some (c !! id) <-> is_Some (m !! id) end.

Lemma usage_insert (uo : option UsageIndex) m id r :
  uo ⊩ m -> fst (usage_index_track true uo id) ⊩ <[id := r]> m.
Proof.
  intros Hu. destruct uo as [u|]; [|done]. destruct Hu as (c & R & Hd).
  destruct (track_refines u c id R) as (u' & -> & R'). eexists. split; [exact R'|]. intros i. cbn [uspec_step].
  destruct (decide (i = id)) as [->|Hne].
  - rewrite lookup_insert_eq. destruct (c !! id) eqn:E; [rewrite E|rewrite lookup_insert_eq]; naive_solver.
  - rewrite lookup_insert_ne by done. destruct (c !! id); [apply Hd|]. rewrite lookup_insert_ne by done. apply Hd.
Qed.

Lemma usage_delete (uo : option UsageIndex) m id : uo ⊩ m -> usage_index_untrack uo id ⊩ delete id m.
Proof.
  intros Hu. destruct uo as [u|]; [|done]. destruct Hu as (c & R & Hd).
  destruct (untrack_refines u c id R) as (u' & -> & R'). eexists. split; [exact R'|]. intros i. cbn [uspec_step].
  rewrite !lookup_delete. case_decide; [|apply Hd]. split; by intros [].
Qed.

Lemma usage_update (uo : option UsageIndex) m id r : is_Some (m !! id) -> uo ⊩ m -> uo ⊩ <[id := r]> m.
Proof.
  intros Hid Hu. destruct uo as [u|]; [|done]. destruct Hu as (c & R & Hd). exists c. split; [done|]. intros i.
  rewrite Hd, lookup_insert. case_decide; [|done]. subst i. naive_solver.
Qed.

(** ** Edges *)

(** The edges between live records. *)
Definition live_edge (m : gmap Z MemoryRecord) (from to : Z) (kind : list Z) : Prop :=
  (exists r rl, m !! from = Some r /\ rl ∈ mr_relationships r /\ rl_to rl = to /\ default [] (rl_kind rl) = kind) /\
  is_Some (m !! to).

#[export] Instance edge_describes : Describes (option EdgeIndex) := fun eo m =>
  match eo with
  | None => True
  | Some e => exists E, edge_refines e E /\ forall from to kind, (from, to, kind) ∈ E <-> live_edge m from to kind
  end.

Definition short_kind (rl : Relationship) : Prop := (length (default [] (rl_kind rl)) <= EDGE_MAX_KIND_LEN)%nat.

(** No relationship points at an id before the allocator handed it out, and
    kinds are short enough to be kept whole. *)
Definition rels_bounded (next : Z) (m : gmap Z MemoryRecord) : Prop :=
  forall id r, m !! id = Some r -> Forall (fun rl => rl_to rl < next /\ short_kind rl) (mr_relationships r).

Lemma rels_unreferenced next m id : rels_bounded next m -> next <= id -> unreferenced m id.
Proof. intros Hb Hid i r Hi. eapply Forall_impl; [by eapply Hb|]. cbn. intros rl [? _]. lia. Qed.

Lemma edges_insert (eo : option EdgeIndex) m r :
  eo ⊩ m -> unreferenced m (mr_id r) -> m !! mr_id r = None -> mr_relationships r = [] -> eo ⊩ <[mr_id r := r]> m.
Proof.
  intros He Hb Hn Hr. destruct eo as [e|]; [|done]. destruct He as (E & R & HE). exists E. split; [done|].
  intros from to kind. rewrite HE. unfold live_edge. destruct (decide (from = mr_id r)) as [->|Hf].
  { rewrite Hn, lookup_insert_eq. split; [naive_solver|]. intros ((r' & rl & [= <-] & Hin & _) & _). rewrite Hr in Hin. set_solver. }
  rewrite (lookup_insert_ne _ _ from) by done. destruct (decide (to = mr_id r)) as [->|Ht]; [|by rewrite lookup_insert_ne].
  split; [intros [_ [? ?]]; congruence|]. intros ((r' & rl & Hm & Hin & Hto & _) & _). exfalso.
  specialize (Hb from r' Hm). rewrite Forall_forall in Hb. by apply (Hb rl Hin).
Qed.

Lemma edges_update (eo : option EdgeIndex) m id old new :
  eo ⊩ m -> m !! id = Some old -> mr_relationships new = mr_relationships old -> eo ⊩ <[id := new]> m.
Proof.
  intros He Hid Hr. destruct eo as [e|]; [|done]. destruct He as (E & R & HE). exists E. split; [done|].
  intros from to kind. rewrite HE. unfold live_edge. rewrite !lookup_insert.
  assert (is_Some (if decide (id = to) then Some new else m !! to) <-> is_Some (m !! to)) as ->.
  { case_decide; [subst; rewrite Hid; naive_solver|done]. }
  apply and_iff_compat_r. destruct (decide (id = from)) as [<-|Hne]; [|done]. rewrite Hid.
  split; intros (r & rl & [= <-] & Hin & Hk); [exists new|exists old]; exists rl; (split; [done|]); split; congruence.
Qed.

(** Every allocation of one edge insertion succeeds. *)
Definition edge_ok (ok : EdgeOks) : Prop := ok_karr ok = true /\ ok_knode ok = true /\ ok_tbl ok = true /\ ok_posts ok = true.
Definition edge_fits (eo : option EdgeIndex) (kind : option (list Z)) : Prop :=
  match eo with None => True | Some e => kind_fits (ei_kinds e) kind end.

Lemma edges_relate ok (eo : option EdgeIndex) m from to kind old new :
  edge_ok ok -> edge_fits eo kind -> eo ⊩ m -> m !! from = Some old -> is_Some (m !! to) ->
  mr_relationships new = mr_relationships old ++ [mkRelationship from to kind] ->
  fst (edge_index_add ok eo from to kind) ⊩ <[from := new]> m.
Proof.
  intros (H1 & H2 & H3 & H4) Hfit He Hid Hto Hr. destruct eo as [e|]; [|done]. destruct He as (E & R & HE).
  destruct (edge_add_refines ok e E from to kind R H1 H2 Hfit) as (e' & rc & -> & R' & Hrc & _). rewrite Hrc in R' by done.
  eexists. split; [exact R'|]. intros a b k. rewrite elem_of_union, elem_of_singleton, HE. unfold live_edge. rewrite !lookup_insert.
  assert (is_Some (if decide (from = b) then Some new else m !! b) <-> is_Some (m !! b)) as Hb.
  { case_decide; [subst; rewrite Hid; naive_solver|done]. }
  rewrite Hb. destruct (decide (from = a)) as [<-|Hne]; [|naive_solver]. rewrite Hid. split.
  - intros [[= -> ->]|((r & rl & [= <-] & Hin & Hk) & Hl)].
    + split; [|done]. exists new, (mkRelationship from to kind). split; [done|]. rewrite Hr. split; [set_solver|done].
    + split; [|done]. exists new, rl. split; [done|]. rewrite Hr. split; [set_solver|done].
  - intros ((r & rl & [= <-] & Hin & Ht & Hk) & Hl). rewrite Hr, elem_of_app, list_elem_of_singleton in Hin.
    destruct Hin as [Hin| ->]; [right; split; [|done]; by exists old, rl|left; cbn in *; congruence].
Qed.

Lemma remove_edges_refines e E id rels :
  edge_refines e E -> Forall short_kind rels ->
  exists e' E', remove_edges (Some e) id rels = Some e' /\ it_names (ei_kinds e') = it_names (ei_kinds e) /\ edge_refines e' E' /\
    forall from to kind, (from, to, kind) ∈ E' <->
      (from, to, kind) ∈ E /\ ~ (from = id /\ exists rl, rl ∈ rels /\ rl_to rl = to /\ default [] (rl_kind rl) = kind).
Proof.
  unfold remove_edges. intros R Hs. revert e E R. induction Hs as [|rl rels Hrl _ IH]; intros e E R; cbn [foldl].
  { exists e, E. split; [done|]. split; [done|]. split; [done|]. set_solver. }
  destruct (edge_remove_refines e E id (rl_to rl) (rl_kind rl) R Hrl) as (e1 & -> & R1 & Hn1).
  destruct (IH e1 _ R1) as (e' & E' & E1 & Hn & R' & HE). exists e', E'. split; [done|]. split; [by rewrite Hn|]. split; [done|].
  intros from to kind. rewrite HE, elem_of_difference, elem_of_singleton. split.
  - intros [[H1 H2] H3]. split; [done|]. intros (-> & x & Hx & <- & <-). apply elem_of_cons in Hx as [->|Hx]; [naive_solver|].
    apply H3. eauto.
  - intros [H1 H2]. split; [split; [done|]|].
    + intros [= -> -> ->]. apply H2. split; [done|]. exists rl. split; [left|done].
    + intros (-> & x & Hx & <- & <-). apply H2. split; [done|]. exists x. split; [by right|done].
Qed.

Lemma edges_delete (eo : option EdgeIndex) m id r :
  eo ⊩ m -> m !! id = Some r -> Forall short_kind (mr_relationships r) ->
  edge_index_remove_target (remove_edges eo id (mr_relationships r)) id ⊩ delete id m.
Proof.
  intros He Hid Hs. destruct eo as [e|].
  2:{ assert (remove_edges None id (mr_relationships r) = None) as ->; [|done].
      unfold remove_edges. clear. induction (mr_relationships r); [done|]. cbn. done. }
  destruct He as (E & R & HE). destruct (remove_edges_refines e E id _ R Hs) as (e1 & E1 & -> & _ & R1 & H1).
  destruct (edge_remove_target_refines e1 E1 id R1) as (e2 & -> & R2 & _). eexists. split; [exact R2|].
  intros from to kind. rewrite elem_of_filter. cbn [fst snd]. rewrite H1, HE. unfold live_edge. rewrite !lookup_delete.
  destruct (decide (id = to)) as [<-|Ht]; [split; [naive_solver|intros [_ []]; done]|].
  destruct (decide (id = from)) as [<-|Hf].
  - split; [|intros [(? & ? & ? & _) _]; done]. intros (_ & ((r' & rl & Hr & Hin & Hk) & _) & Hn). exfalso. apply Hn.
    split; [done|]. exists rl. split; [congruence|done].
  - split; [intros (_ & Hl & _); done|]. intros Hl. split; [congruence|]. split; [done|]. by intros [-> _].
Qed.

(** ** All of them *)

Record ix_ok (ix : Indexes) (m : gmap Z MemoryRecord) : Prop := {
  xo_time : ix_time ix ⊩ m; xo_tags : ix_tags ix ⊩ m; xo_lex : ix_lex ix ⊩ m; xo_edges : ix_edges ix ⊩ m;
  xo_facts : ix_facts ix ⊩ m; xo_usage : ix_usage ix ⊩ m; xo_sem : ix_sem ix ⊩ m
}.
#[export] Instance ix_describes : Describes Indexes := ix_ok.

Record index_io_ok (io : IndexIo) : Prop := {
  io_time : xi_time io = true; io_tag : forall k, xi_tag io k = (true, true); io_lex : lex_ok (xi_lex io);
  io_edge : forall k, edge_ok (xi_edge io k); io_fact : all_ok (xi_fact io); io_usage : xi_usage io = true
}.

Lemma index_insert_describes io ix m r :
  index_io_ok io -> ix ⊩ m -> unreferenced m (mr_id r) -> m !! mr_id r = None ->
  mr_relationships r = [] -> fact_ok (mr_fact r) -> fact_fits (ix_facts ix) r ->
  index_insert io ix r ⊩ <[mr_id r := r]> m.
Proof.
  intros [Hit Hitag Hil Hie Hif Hiu] [Ht Hg Hl He Hf Hu Hs] Hb Hn Hr Hfo Hff.
  unfold index_insert. rewrite Hit, Hiu, Hr. cbn [add_edges].
  assert ((if has_vectors r then ix_sem ix ++ [SemAdd (mr_id r) (mr_embedding r) (mr_vec_count r) (mr_embedding_dim r)] else ix_sem ix) ⊩ <[mr_id r := r]> m) as Hs'.
  { apply sem_insert; [done|]. rewrite Hn. by left. }
  destruct (has_vectors r); split; cbn;
    [by apply time_insert|by apply tags_insert|by apply lex_insert|by apply edges_insert| |by apply usage_insert|done
    |by apply time_insert|by apply tags_insert|by apply lex_insert|by apply edges_insert| |by apply usage_insert|done];
    (apply facts_insert; try done; rewrite Hn; by left).
Qed.

(** What an update may change of a record, field by field. *)
Record patch_step (old new : MemoryRecord) (p : UpdatePatch) : Prop := {
  ps_id : mr_id new = mr_id old;
  ps_created : mr_created new = mr_created old;
  ps_rels : mr_relationships new = mr_relationships old;
  ps_tags : up_tags p = None -> mr_tags new = mr_tags old;
  ps_fact : up_fact p = None -> mr_fact new = mr_fact old;
  ps_nofact : up_fact p <> None -> fa_kind (mr_fact old) = FACT_NONE;
  ps_data : up_data p = None -> mr_data new = mr_data old;
  ps_vec : up_embedding p = None -> vectors_of new = vectors_of old
}.

Lemma index_update_sem ix m old new p :
  ix_sem ix ⊩ m -> m !! mr_id new = Some old -> patch_step old new p ->
  ix_sem (match up_embedding p with
          | None => ix
          | Some _ =>
              if has_vectors new then push_sem ix [SemAdd (mr_id new) (mr_embedding new) (mr_vec_count new) (mr_embedding_dim new)]
              else if negb (mr_vec_count old =? 0) then push_sem ix [SemRemove (mr_id new)] else ix
          end) ⊩ <[mr_id new := new]> m.
Proof.
  intros Hs Hid Hp. destruct (up_embedding p) as [v|] eqn:Ee; [|by eapply sem_update; [| |apply Hp]].
  pose proof (sem_insert (ix_sem ix) m new Hs) as Hi. destruct (has_vectors new) eqn:Ev; [by apply Hi|].
  destruct (Z.eqb_spec (mr_vec_count old) 0) as [E0|E0]; cbn [negb].
  - apply Hi. intros _. right. rewrite Hid. cbn. unfold vectors_of, has_vectors. by rewrite E0, andb_false_r.
  - cbn [push_sem ix_sem]. pose proof (sem_remove _ m (mr_id new) Hs) as Hd. unfold describes, sem_describes in *.
    rewrite Hd, omap_insert, omap_delete. unfold vectors_of at 2. by rewrite Ev.
Qed.

Lemma index_update_describes io ix m old new p :
  index_io_ok io -> ix ⊩ m -> m !! mr_id new = Some old -> patch_step old new p ->
  fact_ok (mr_fact old) -> fact_ok (mr_fact new) -> fact_fits (ix_facts ix) new ->
  index_update io ix old new p ⊩ <[mr_id new := new]> m.
Proof.
  intros [Hit Hitag Hil Hie Hif Hiu] [Ht Hg Hl He Hf Hu Hs] Hid Hp Hfo Hfn Hff. unfold index_update.
  set (ix1 := match up_tags p with None => ix | Some _ => _ end).
  set (ix2 := match up_fact p with None => ix1 | Some _ => _ end).
  set (ix3 := match up_data p with None => ix2 | Some _ => _ end).
  assert (ix_sem ix3 ⊩ m) as Hs3.
  { unfold ix3, ix2, ix1. by destruct (up_data p), (up_fact p), (up_tags p). }
  pose proof (index_update_sem ix3 m old new p Hs3 Hid Hp) as Hsem.
  assert (ix_tags ix3 ⊩ <[mr_id new := new]> m) as Hg3.
  { assert (ix_tags ix3 = ix_tags ix1) as -> by (unfold ix3, ix2; by destruct (up_data p), (up_fact p)). unfold ix1.
    destruct (up_tags p) eqn:Et; [by apply tags_replace|by eapply tags_update; [| |apply Hp]]. }
  assert (ix_facts ix3 ⊩ <[mr_id new := new]> m) as Hf3.
  { assert (ix_facts ix3 = ix_facts ix2) as -> by (unfold ix3; by destruct (up_data p)). unfold ix2.
    assert (ix_facts ix1 = ix_facts ix) as Ei by (unfold ix1; by destruct (up_tags p)).
    destruct (up_fact p) eqn:Et; [|rewrite Ei; by eapply facts_update; [| |apply Hp]]. cbn [set_facts ix_facts]. rewrite Ei.
    apply facts_insert; try done. right. rewrite Hid. cbn. f_equal.
    destruct (fact_val_cases old Hfo) as [[_ E0]|[Hk _]]; [done|]. exfalso. apply Hk. by apply (ps_nofact _ _ _ Hp); rewrite Et. }
  assert (ix_lex ix3 ⊩ <[mr_id new := new]> m) as Hl3.
  { assert (ix_lex ix2 = ix_lex ix) as Ei by (unfold ix2, ix1; by destruct (up_fact p), (up_tags p)). unfold ix3.
    destruct (up_data p) eqn:Et; [|rewrite Ei; by eapply lex_update; [| |apply Hp]]. cbn [set_lex ix_lex]. rewrite Ei.
    by apply lex_replace. }
  assert (ix_time ix3 = ix_time ix /\ ix_edges ix3 = ix_edges ix /\ ix_usage ix3 = ix_usage ix) as (Et & Ee & Eu).
  { unfold ix3, ix2, ix1. by destruct (up_data p), (up_fact p), (up_tags p). }
  pose proof (time_update (ix_time ix) m _ old new Ht Hid (ps_created _ _ _ Hp)) as Ht3.
  pose proof (edges_update (ix_edges ix) m _ old new He Hid (ps_rels _ _ _ Hp)) as He3.
  pose proof (usage_update (ix_usage ix) m (mr_id new) new ltac:(by rewrite Hid) Hu) as Hu3.
  rewrite <- Et in Ht3. rewrite <- Ee in He3. rewrite <- Eu in Hu3. revert Hsem. clearbody ix3.
  destruct (up_embedding p); [|by split].
  destruct (has_vectors new); [by split|]. destruct (negb _); by split.
Qed.
