(* ===== verification/EngineCorrect.v ===== *)
(** * The query engine keeps its indexes and the log in agreement

    The live records are a map [m]; every operation acts on it as specified,
    and the seven secondary indexes describe the same map after it. *)

From S2P Require Import Prelude Endian HashIndex SortedArray Record RecordCodec RecordRoundtrip RecordDecode RecordEdit StrTable ProbeTable Intern TimeIndex TagIndex UsageIndex EdgeIndex FactIndex Aead AeadCorrect Log LogCorrect LogFaults Floats Tenant CkptCrypt Store StoreCorrect StoreView WorkingBuffer Json Registry Lexical LexicalCorrect Engine Rebuild EngineIndexes.

Local Notation "ix ⊩ m" := (describes ix m) (at level 70).

#[export] Instance aegis_status_eq_dec : EqDecision aegis_status.
Proof. solve_decision. Defined.

(** ** Records as the engine edits them *)

(** The layout has fixed-width stamps, so stamping keeps the frame's length. *)
Lemma stamp_length r id c u e d : length (record_bytes (stamp_record r id c u e d)) = length (record_bytes r).
Proof.
  reflexivity.
Qed.

Lemma stamp_ok r id c u e d :
  rec_ok r -> u64 id -> u64 c -> u64 u -> u64 e -> u8 d -> rec_ok (stamp_record r id c u e d).
Proof.
  intros [[] Hl] Hid Hc Hu He Hd. split; [|by rewrite stamp_length]. by split.
Qed.

(** The record a patch leaves. *)
Definition patched_vectors (cur : MemoryRecord) (p : UpdatePatch) : list Z * Z * Z :=
  match up_embedding p with
  | None => (mr_embedding cur, mr_embedding_dim cur, mr_vec_count cur)
  | Some (v, dim, count) =>
      let n := wrap 64 (count * dim) in if n =? 0 then ([], 0, 0) else (take (Z.to_nat n) v, dim, count)
  end.

Definition patched (now : Z) (cur : MemoryRecord) (p : UpdatePatch) : MemoryRecord :=
  mkMemoryRecord (mr_id cur) (mr_type cur) (mr_created cur) now
    (default (mr_importance cur) (up_importance p)) (default (mr_confidence cur) (up_confidence p)) (mr_agent_id cur)
    (default (mr_tags cur) (up_tags p)) (patched_vectors cur p).1.1 (patched_vectors cur p).1.2 (patched_vectors cur p).2
    (mr_relationships cur) (default (mr_fact cur) (up_fact p)) (mr_derivation cur) (default (mr_data cur) (up_data p))
    (mr_expires_at cur) (mr_deleted cur).

Lemma apply_patch_Some alloc now cur p new :
  (forall f, up_fact p = Some f -> fact_ok f) -> apply_patch alloc now cur p = Some new -> new = patched now cur p.
Proof.
  intros Hf E. unfold apply_patch in E. destruct (patch_fact alloc cur p) as [r1|] eqn:E1; [|done].
  assert (r1 = set_fact cur (default (mr_fact cur) (up_fact p))) as ->.
  { unfold patch_fact in E1. destruct (up_fact p) as [f|]; [|injection E1 as <-; by destruct cur].
    destruct (record_set_fact _ _ _ _ _ _ _) as [r ok] eqn:Es. destruct ok; [|done]. injection E1 as <-.
    by apply set_fact_Some in Es; [|apply Hf]. }
  clear E1. destruct (patch_data alloc _ p) as [r2|] eqn:E2; [|done].
  assert (r2 = set_data (set_fact cur (default (mr_fact cur) (up_fact p))) (default (mr_data cur) (up_data p))) as ->.
  { unfold patch_data in E2. destruct (up_data p); [destruct (_ && _); [done|by injection E2 as <-]|]. injection E2 as <-. by destruct cur. }
  clear E2. destruct (patch_embedding alloc _ p) as [r3|] eqn:E3; [|done].
  destruct (patch_tags alloc r3 p) as [r4|] eqn:E4; [|done]. injection E as <-.
  assert (r4 = set_tags r3 (default (mr_tags r3) (up_tags p))) as ->.
  { unfold patch_tags in E4. destruct (up_tags p) as [t|]; [|injection E4 as <-; by destruct r3].
    destruct (record_set_tags _ _ _) as [r ok] eqn:Es. destruct ok; [|done]. injection E4 as <-. by apply set_tags_Some in Es. }
  clear E4. unfold patched, patched_vectors. unfold patch_embedding in E3. destruct (up_embedding p) as [[[v dim] count]|].
  - cbn zeta in E3 |- *. destruct (wrap 64 (count * dim) =? 0); [injection E3 as <-; done|].
    destruct (alloc _); [|done]. injection E3 as <-. done.
  - injection E3 as <-. done.
Qed.

(** The patch itself is well formed. *)
Record patch_wf (p : UpdatePatch) : Prop := {
  pw_data : forall d, up_data p = Some d -> bytes_ok d /\ Z.of_nat (length d) <= UINT32_MAX;
  pw_imp : forall x, up_importance p = Some x -> u32 x /\ weight_bad x = false;
  pw_conf : forall x, up_confidence p = Some x -> u32 x /\ weight_bad x = false;
  pw_tags : forall t, up_tags p = Some t -> Forall str_ok t /\ Z.of_nat (length t) <= UINT16_MAX;
  pw_fact : forall f, up_fact p = Some f -> fact_ok f;
  pw_emb : forall v dim count, up_embedding p = Some (v, dim, count) ->
    Forall (fun x => u32 x) v /\ Z.of_nat (length v) = count * dim /\ u32 count /\ u32 dim
}.

Lemma patched_wf now cur p :
  record_wf cur -> patch_wf p -> u64 now -> (up_fact p <> None -> fa_kind (mr_fact cur) = FACT_NONE) -> record_wf (patched now cur p).
Proof.
  intros W P Hn Hf. destruct W as [H1 H2 H3 H4 H5 H6 H7 H8 H9 H10 H11 H12 H13 H14 H15 H16].
  assert (Forall (fun x => u32 x) (patched_vectors cur p).1.1 /\
    Z.of_nat (length (patched_vectors cur p).1.1) = (patched_vectors cur p).2 * (patched_vectors cur p).1.2 /\
    u32 (patched_vectors cur p).2 /\ u32 (patched_vectors cur p).1.2 /\
    ((patched_vectors cur p).2 = 0 <-> (patched_vectors cur p).1.2 = 0)) as (V1 & V2 & V3 & V4 & V5).
  { unfold patched_vectors. destruct (up_embedding p) as [[[v dim] count]|] eqn:Ee; [|cbn; naive_solver].
    destruct (pw_emb p P v dim count Ee) as (Hv & Hl & Hc & Hd).
    assert (0 <= count * dim < 2 ^ 64) as Hb.
    { unfold urange in *. assert (count * dim <= (2 ^ 32 - 1) * (2 ^ 32 - 1)) by (apply Z.mul_le_mono_nonneg; lia).
      assert (0 <= count * dim) by (apply Z.mul_nonneg_nonneg; lia). lia. } cbn zeta. rewrite wrap_small by (unfold urange in *; lia).
    destruct (Z.eqb_spec (count * dim) 0) as [E0|E0]; cbn; [split_and!; [apply Forall_nil_2|done..]|].
    rewrite take_ge by lia. split_and!; [done|done|done|done|split; intros ->; lia]. }
  split; cbn [patched mr_id mr_type mr_created mr_updated mr_importance mr_confidence mr_agent_id mr_tags mr_embedding
    mr_embedding_dim mr_vec_count mr_relationships mr_fact mr_derivation mr_data mr_expires_at mr_deleted]; try done.
  - destruct (up_importance p) eqn:E; [by apply (pw_imp p P)|done].
  - destruct (up_confidence p) eqn:E; [by apply (pw_conf p P)|done].
  - destruct (up_tags p) eqn:E; [by apply (pw_tags p P)|done].
  - destruct (up_fact p) eqn:E; [by apply (pw_fact p P)|done].
  - intros Hd. destruct (up_fact p) eqn:E; [|by apply H13]. exfalso. apply (H13 Hd). by apply Hf.
  - destruct (up_data p) eqn:E; [by apply (pw_data p P)|done].
Qed.

Lemma patched_step now cur p :
  (up_fact p <> None -> fa_kind (mr_fact cur) = FACT_NONE) -> patch_step cur (patched now cur p) p.
Proof.
  intros Hf. split; cbn [patched mr_id mr_created mr_relationships mr_tags mr_fact mr_data]; try done.
  - by intros ->.
  - by intros ->.
  - by intros ->.
  - intros E. unfold vectors_of, has_vectors. cbn. unfold patched_vectors. by rewrite E.
Qed.

(** ** Engine states *)

Section engine.
Context `{AeadScheme} (SV : Db -> gmap Z MemoryRecord -> Prop) `{!RecordStore SV}.

Record engine_ok (en : Engine) (m : gmap Z MemoryRecord) : Prop := {
  eo_store : SV (en_db en) m;
  eo_ix : en_ix en ⊩ m;
  eo_rels : rels_bounded (db_next_id (en_db en)) m
}.

(** Reads and index allocations succeed; appends and flushes may fail. *)
Record io_ok (io : QeIo) : Prop := {
  ik_write : wio_ok (qi_write io); ik_rerr : qi_rerr io = rok; ik_lalloc : qi_lalloc io = aok; ik_dalloc : qi_dalloc io = aok;
  ik_index : index_io_ok (qi_index io)
}.

Lemma io_load io en m id :
  io_ok io -> engine_ok en m ->
  load_record (qi_rerr io) (qi_lalloc io) (qi_dalloc io) (en_db en) id =
    match m !! id with Some r => inl r | None => inr AEGIS_ERR_NOT_FOUND end.
Proof. intros [_ -> -> -> _] Hok. apply rs_load, Hok. Qed.

Lemma rels_bounded_mono next next' m : next <= next' -> rels_bounded next m -> rels_bounded next' m.
Proof. intros Hle Hb id r Hid. eapply Forall_impl; [by eapply Hb|]. cbn. intros x [? ?]. split; [lia|done]. Qed.

Lemma qe_finish_spec io en st r m :
  engine_ok en m ->
  let '(en', res) := finish io en st r in
  engine_ok en' m /\ match st with AEGIS_OK => res = inl r \/ res = inr AEGIS_ERR_INTERNAL | _ => res = inr st end.
Proof.
  intros [Hs Hx Hr]. unfold finish. destruct st; try (split; [by split|done]).
  unfold durably_flush. pose proof (rs_flush (en_db en) m (qi_sync io) Hs) as Hf.
  destruct (log_fsync_if_batched (db_log (en_db en)) (qi_sync io)) as [lf ok]. cbn [fst] in Hf.
  split; [by split|]. destruct ok; auto.
Qed.

Lemma stored_live m rec : mr_deleted rec = 0 -> stored m rec = <[mr_id rec := rec]> m.
Proof.
  intros Hd. unfold stored, is_deleted. rewrite Hd. cbn. f_equal. destruct rec; cbn in *. by subst.
Qed.

Lemma expiry_range now ttl : u64 now -> u64 ttl -> u64 (expiry_of now ttl).
Proof.
  unfold urange, expiry_of. intros Hn Ht. destruct (Z.eqb_spec ttl 0); [lia|]. unfold UINT64_MAX.
  destruct (Z.ltb_spec (18446744073709551615 - now) ttl); lia.
Qed.

(** ** Insert *)

(** A record ready to be inserted. *)
Record insertable (en : Engine) (r : MemoryRecord) : Prop := {
  is_rec : rec_ok r; is_rels : mr_relationships r = []; is_fits : fact_fits (ix_facts (en_ix en)) r;
  is_room : db_next_id (en_db en) < 2 ^ 64 - 1
}.

Definition inserted_as (now : Z) (en : Engine) (r : MemoryRecord) (ttl_ms : Z) : MemoryRecord :=
  stamp_record r (db_next_id (en_db en)) now now (expiry_of now ttl_ms) 0.

Lemma insert_persisted_spec io now en m r ttl :
  engine_ok en m -> io_ok io -> insertable en r -> u64 now -> u64 ttl ->
  let '(en', res) := insert_persisted io now en r ttl in
  let rec := inserted_as now en r ttl in
  m !! mr_id rec = None /\ unreferenced m (mr_id rec) /\
  ((engine_ok en' m /\ exists st, res = inr st) \/
   (engine_ok en' (<[mr_id rec := rec]> m) /\ (res = inl rec \/ res = inr AEGIS_ERR_INTERNAL))).
Proof.
  intros [Hs Hx Hr] [Hw _ _ _ Hi] [Hrec Hrel Hfit Hroom] Hnow Httl.
  assert (m !! db_next_id (en_db en) = None) as Hfresh.
  { destruct (m !! db_next_id (en_db en)) as [r0|] eqn:E; [|done]. destruct (rs_record _ _ _ _ Hs E) as (_ & _ & _ & ?). lia. }
  unfold insert_persisted. assert (unreferenced m (db_next_id (en_db en))) as Hun by (by eapply rels_unreferenced).
  destruct (_ && _); [split; [done|]; split; [done|]; left; split; [by split|by eexists]|].
  destruct (record_clone (qi_alloc io) r) as [rec|] eqn:Ec; [|split; [done|]; split; [done|]; left; split; [by split|by eexists]].
  apply record_clone_Some in Ec as ->; [|apply Hrec..].
  pose proof (rs_next_pos _ _ Hs) as Hpos.
  pose proof (rs_next_id _ _ Hs Hroom) as Hs1. destruct (take_next_id (en_db en)) as [db1 id1] eqn:Et.
  injection Et as Edb1 Eid1. cbn [fst] in Hs1.
  assert (db_next_id db1 = db_next_id (en_db en) + 1) as En1.
  { rewrite <- Edb1. cbn. apply wrap_small. unfold urange. lia. }
  set (rec := stamp_record r id1 now now (expiry_of now ttl) 0).
  assert (inserted_as now en r ttl = rec) as -> by (unfold inserted_as, rec; by rewrite Eid1).
  assert (rec_ok rec) as Hok.
  { apply stamp_ok; [done|unfold urange; lia|done|done|by apply expiry_range|unfold urange; lia]. }
  pose proof (rs_append (qi_write io) db1 m rec Hs1 Hw Hok) as Ha.
  destruct (append_and_hash (qi_write io) db1 rec) as [db st].
  destruct Ha as [(_ & Hn & _) Hv]; [cbn; lia|intros _ _; cbn; by rewrite <- Eid1|].
  assert (m !! mr_id rec = None) as Hfr by (cbn; by rewrite <- Eid1).
  assert (unreferenced m (mr_id rec)) as Hur by (cbn; by rewrite <- Eid1).
  destruct (decide (st = AEGIS_OK)) as [->|Hst].
  - rewrite stored_live in Hv by done.
    pose proof (index_insert_describes (qi_index io) (en_ix en) m rec Hi Hx Hur Hfr) as Hx'.
    assert (engine_ok (with_ix (with_db en db) (index_insert (qi_index io) (en_ix (with_db en db)) rec)) (<[mr_id rec := rec]> m)) as Hok'.
    { split; [done| |].
      - apply Hx'; [done|apply Hrec|done].
      - cbn [with_ix with_db en_db]. rewrite Hn, En1. intros i r' Hl. apply lookup_insert_Some in Hl as [[_ <-]|[_ Hl]].
        + cbn. by rewrite Hrel.
        + eapply (rels_bounded_mono (db_next_id (en_db en))); [lia|exact Hr|exact Hl]. }
    pose proof (qe_finish_spec io _ AEGIS_OK rec _ Hok') as Hfin. destruct (finish _ _ _ _) as [en' res]. split; [done|]. split; [done|]. right. exact Hfin.
  - assert (engine_ok (with_db en db) m) as Hok'.
    { split; [destruct st; done|done|]. cbn [with_db en_db]. rewrite Hn, En1. eapply rels_bounded_mono; [|exact Hr]. lia. }
    pose proof (qe_finish_spec io _ st rec _ Hok') as Hfin.
    destruct st; [done|..]; (destruct (finish _ _ _ _) as [en' res]; destruct Hfin as [? ->]; split; [done|]; split; [done|]; left; split; [done|by eexists]).
Qed.

(** The outcome of an insert on the map. *)
Definition insert_outcome (now : Z) (en en' : Engine) (m : gmap Z MemoryRecord) (r : MemoryRecord) (ttl : Z)
  (res : MemoryRecord + aegis_status) : Prop :=
  let rec := inserted_as now en r ttl in
  m !! mr_id rec = None /\ unreferenced m (mr_id rec) /\
  ((engine_ok en' m /\ (mr_type r = MEM_WORKING \/ exists st, res = inr st)) \/
   (mr_type r <> MEM_WORKING /\ engine_ok en' (<[mr_id rec := rec]> m) /\ (res = inl rec \/ res = inr AEGIS_ERR_INTERNAL))).

Lemma working_ok en m ws : engine_ok en m -> engine_ok (with_working en ws) m.
Proof. intros [? ? ?]. by split. Qed.

Lemma insert_working_ok io now en m r sid ttl : engine_ok en m -> engine_ok (fst (insert_working io now en r sid ttl)) m.
Proof.
  intros Hok. unfold insert_working. destruct (require_phase en 4); try done. destruct sid as [sid|]; [|done].
  destruct (working_store_add _ _ _ _ _ _ _) as [ws [wid|]]; [|by apply working_ok].
  destruct (working_store_get _ _ _ _ _) as [ws' got]. by do 2 apply working_ok.
Qed.

Lemma qe_insert_spec io now en m r sid ttl :
  engine_ok en m -> io_ok io -> insertable en r -> u64 now -> u64 ttl ->
  let '(en', res) := qe_insert io now en r sid ttl in insert_outcome now en en' m r ttl res.
Proof.
  intros Hok Hio Hi Hnow Httl.
  assert (m !! mr_id (inserted_as now en r ttl) = None /\ unreferenced m (mr_id (inserted_as now en r ttl))) as [Hfresh Hur].
  { pose proof (insert_persisted_spec io now en m r ttl Hok Hio Hi Hnow Httl) as Hp. destruct (insert_persisted _ _ _ _ _).
    destruct Hp as (? & ? & _). done. }
  assert (forall st, insert_outcome now en en m r ttl (inr st)) as Hno by (intros st; split; [done|]; split; [done|]; left; eauto).
  unfold qe_insert. destruct (validate_common en r); try apply Hno. destruct (_ =? _)%nat; [apply Hno|]. cbn zeta.
  destruct (_ && _); [apply Hno|].
  destruct (mr_type r) eqn:Ety.
  - pose proof (insert_working_ok io now en m r sid ttl Hok) as Hw. destruct (insert_working _ _ _ _ _ _) as [en' res].
    split; [done|]. split; [done|]. left. auto.
  - destruct (require_phase en 1); try apply Hno.
    pose proof (insert_persisted_spec io now en m r ttl Hok Hio Hi Hnow Httl) as Hp. destruct (insert_persisted _ _ _ _ _) as [en' res].
    destruct Hp as [_ [_ [[? ?]|?]]]; (split; [done|]); (split; [done|]); [left; auto|right; split; [by rewrite Ety|done]].
  - destruct (require_phase en 2); try apply Hno.
    pose proof (insert_persisted_spec io now en m r ttl Hok Hio Hi Hnow Httl) as Hp. destruct (insert_persisted _ _ _ _ _) as [en' res].
    destruct Hp as [_ [_ [[? ?]|?]]]; (split; [done|]); (split; [done|]); [left; auto|right; split; [by rewrite Ety|done]].
Qed.

(** ** Rewriting a live record *)

Lemma live_record en m id cur :
  engine_ok en m -> m !! id = Some cur -> rec_ok cur /\ mr_id cur = id /\ mr_deleted cur = 0 /\ id < db_next_id (en_db en) /\ is_deleted cur = false.
Proof.
  intros Hok Hc. destruct (rs_record _ _ _ _ (eo_store _ _ Hok) Hc) as (? & ? & Hd & ?). split_and!; try done.
  unfold is_deleted. by rewrite Hd.
Qed.

(** A new version of a live record is appended; [ix'] is what the indexes
    become once it is. *)
Lemma rewrite_spec io en m cur new ix' :
  engine_ok en m -> io_ok io -> m !! mr_id cur = Some cur -> mr_id new = mr_id cur -> mr_deleted new = 0 -> rec_ok new ->
  ix' ⊩ <[mr_id cur := new]> m -> Forall (fun rl => rl_to rl < db_next_id (en_db en) /\ short_kind rl) (mr_relationships new) ->
  let '(db, st) := append_and_hash (qi_write io) (en_db en) new in
  let '(en', res) := finish io (match st with AEGIS_OK => with_ix (with_db en db) ix' | _ => with_db en db end) st new in
  (engine_ok en' m /\ exists st, res = inr st /\ st <> AEGIS_OK) \/
  (engine_ok en' (<[mr_id cur := new]> m) /\ (res = inl new \/ res = inr AEGIS_ERR_INTERNAL)).
Proof.
  intros Hok Hio Hc Hid Hd Hrec Hx Hrel. destruct (live_record _ _ _ _ Hok Hc) as (_ & _ & _ & Hlt & _).
  pose proof Hok as [Hs _ Hr]. pose proof (rs_append (qi_write io) (en_db en) m new Hs (ik_write _ Hio) Hrec) as Ha.
  destruct (append_and_hash (qi_write io) (en_db en) new) as [db st]. destruct Ha as [(_ & Hn & _) Hv]; [lia|intros _ Hn; congruence|].
  destruct (decide (st = AEGIS_OK)) as [->|Hst].
  - rewrite stored_live, Hid in Hv by done.
    assert (engine_ok (with_ix (with_db en db) ix') (<[mr_id cur := new]> m)) as Hok'.
    { split; [done|done|]. cbn [with_ix with_db en_db]. rewrite Hn. intros i r' Hl.
      apply lookup_insert_Some in Hl as [[_ <-]|[_ Hl]]; [done|by eapply Hr]. }
    pose proof (qe_finish_spec io _ AEGIS_OK new _ Hok') as Hfin. destruct (finish _ _ _ _) as [en' res]. by right.
  - assert (engine_ok (with_db en db) m) as Hok'.
    { split; [destruct st; done|apply Hok|]. cbn [with_db en_db]. by rewrite Hn. }
    pose proof (qe_finish_spec io _ st new _ Hok') as Hfin.
    destruct st; [done|..]; (destruct (finish _ _ _ _) as [en' res]; destruct Hfin as [? ->]; left; split; [done|eexists; split; done]).
Qed.

(** ** Update *)

Record update_ok (now : Z) (en : Engine) (m : gmap Z MemoryRecord) (id : Z) (p : UpdatePatch) : Prop := {
  uo_patch : patch_wf p; uo_now : u64 now;
  uo_fits : forall cur, m !! id = Some cur -> fact_fits (ix_facts (en_ix en)) (patched now cur p);
  uo_size : forall cur, m !! id = Some cur -> Z.of_nat (length (record_bytes (patched now cur p))) <= 0xFFFFFFFF
}.

Lemma qe_update_spec io now en m id p ns :
  engine_ok en m -> io_ok io -> update_ok now en m id p ->
  let '(en', res) := qe_update io now en id p ns in
  (engine_ok en' m /\ exists st, res = inr st) \/
  (exists cur, m !! id = Some cur /\ ns_denies ns cur = false /\ mr_type cur = MEM_SEMANTIC /\
     engine_ok en' (<[id := patched now cur p]> m) /\ (res = inl (patched now cur p) \/ res = inr AEGIS_ERR_INTERNAL)).
Proof.
  intros Hok Hio [Hpw Hnow Hfit Hsize]. unfold qe_update. destruct (require_phase en 2); try by left; eauto.
  rewrite (io_load io en m id Hio Hok). destruct (m !! id) as [cur|] eqn:Hc; [|left; eauto].
  destruct (live_record _ _ _ _ Hok Hc) as (Hrec & <- & Hdel & Hlt & ->). cbn [orb].
  destruct (ns_denies ns cur) eqn:Ens; [left; eauto|]. destruct (mr_type cur) eqn:Ety; [left; eauto..|].
  destruct (match up_fact p with Some _ => _ | None => false end) eqn:Ef; [left; eauto|].
  assert (up_fact p <> None -> fa_kind (mr_fact cur) = FACT_NONE) as Hnf.
  { destruct (up_fact p); [|done]. intros _. apply negb_false_iff, bool_decide_eq_true in Ef. done. }
  destruct (apply_patch _ _ _ _) as [new|] eqn:Ep; [|left; eauto]. apply apply_patch_Some in Ep as ->; [|apply Hpw].
  destruct (validate_common en _); try by left; eauto.
  assert (rec_ok (patched now cur p)) as Hnew.
  { split; [|by apply Hsize]. apply patched_wf; [apply Hrec|done..]. }
  pose proof (patched_step now cur p Hnf) as Hstep.
  pose proof (index_update_describes (qi_index io) (en_ix en) m cur (patched now cur p) p (ik_index _ Hio) (eo_ix _ _ Hok)) as Hx.
  pose proof (rewrite_spec io en m cur (patched now cur p) (index_update (qi_index io) (en_ix en) cur (patched now cur p) p) Hok Hio Hc) as Hrw.
  cbn [with_db en_ix]. destruct (append_and_hash _ _ _) as [db st].
  destruct (finish _ _ _ _) as [en' res].
  destruct Hrw as [(? & st' & -> & _)|[? ?]]; [done|done|done| |exact (eo_rels _ _ Hok _ cur Hc)|left; eauto|right; by exists cur].
  apply Hx; [done|done|apply Hrec|apply Hnew|by apply Hfit].
Qed.

(** ** Relate *)

Lemma target_found_live io en m to ns :
  engine_ok en m -> io_ok io -> target_found io en to ns = true -> exists r, m !! to = Some r /\ ns_denies ns r = false.
Proof.
  intros Hok Hio. unfold target_found. destruct ns as [n|].
  - rewrite (io_load io en m to Hio Hok). destruct (m !! to) as [r|]; [|done]. intros E. exists r. split; [done|].
    destruct (ns_denies _ r); [|done]. by rewrite orb_true_r in E.
  - pose proof (rs_get _ _ to (eo_store _ _ Hok)) as Hg. destruct (hash_index_get _ _); [|done].
    intros _. destruct Hg as (r & -> & _). by exists r.
Qed.

Definition related (now : Z) (cur : MemoryRecord) (to : Z) (kind : option (list Z)) : MemoryRecord :=
  stamp_record (set_relationships cur (mr_relationships cur ++ [mkRelationship (mr_id cur) to kind])) (mr_id cur) (mr_created cur) now
    (mr_expires_at cur) (mr_deleted cur).

Record relate_ok (now : Z) (en : Engine) (m : gmap Z MemoryRecord) (from to : Z) (kind : option (list Z)) : Prop := {
  ro_now : u64 now; ro_kind : ostr_ok kind; ro_fits : edge_fits (ix_edges (en_ix en)) kind;
  ro_size : forall cur, m !! from = Some cur -> Z.of_nat (length (record_bytes (related now cur to kind))) <= 0xFFFFFFFF
}.

Lemma related_wf now cur to kind :
  record_wf cur -> u64 now -> u64 to -> ostr_ok kind -> (length (mr_relationships cur) < MAX_RELATIONSHIPS)%nat ->
  record_wf (related now cur to kind).
Proof.
  intros [] Hn Ht Hk Hl. split; try done. cbn [related stamp_record set_relationships mr_relationships]. split.
  - apply Forall_app. split; [naive_solver|]. constructor; [|constructor]. by split.
  - rewrite length_app. cbn [length]. unfold MAX_RELATIONSHIPS, UINT16_MAX in *. lia.
Qed.

Lemma qe_relate_spec io now en m from to kind ns :
  engine_ok en m -> io_ok io -> relate_ok now en m from to kind ->
  let '(en', st) := qe_relate io now en from to kind ns in
  (engine_ok en' m /\ (st = AEGIS_OK ->
     exists cur rl, m !! from = Some cur /\ rl ∈ mr_relationships cur /\ rl_to rl = to /\ rl_kind rl = kind)) \/
  (exists cur tgt, m !! from = Some cur /\ ns_denies ns cur = false /\ m !! to = Some tgt /\ ns_denies ns tgt = false /\
     engine_ok en' (<[from := related now cur to kind]> m) /\ (st = AEGIS_OK \/ st = AEGIS_ERR_INTERNAL)).
Proof.
  intros Hok Hio [Hnow Hkind Hfit Hsize]. unfold qe_relate. destruct (require_phase en 4); try by left.
  destruct (from =? to); [by left|]. destruct (match kind with Some _ => _ | None => false end) eqn:Ek; [by left|].
  rewrite (io_load io en m from Hio Hok). destruct (m !! from) as [cur|] eqn:Hc; [|by left].
  destruct (live_record _ _ _ _ Hok Hc) as (Hrec & <- & Hdel & Hlt & ->). cbn [orb].
  destruct (ns_denies ns cur) eqn:Ens; [by left|]. destruct (target_found io en to ns) eqn:Et; [|by left]. cbn [negb].
  apply (target_found_live io en m) in Et as (tgt & Htgt & Hnt); [|done..].
  destruct (existsb _ _) eqn:Ex.
  { left. split; [done|]. intros _. apply existsb_exists in Ex as (rl & Hin & Hs). exists cur, rl.
    split; [done|]. split; [by apply list_elem_of_In|]. unfold rel_same in Hs.
    destruct (Z.eqb_spec (rl_to rl) to) as [|]; [|done]. split; [done|]. cbn in Hs.
    destruct (rl_kind rl), kind; try done. by apply bool_decide_eq_true in Hs as ->. }
  destruct (Nat.leb_spec MAX_RELATIONSHIPS (length (mr_relationships cur))) as [|Hroom]; [by left|].
  destruct (record_add_relationship _ _ _ _ _) as [r1 ok] eqn:Ea. destruct ok; [|by left]. cbn [negb].
  apply add_relationship_Some in Ea as ->.
  change (stamp_record _ _ _ now _ _) with (related now cur to kind).
  destruct (live_record _ _ _ _ Hok Htgt) as (_ & <- & _ & Hlto & _).
  destruct (live_record _ _ _ _ Hok Htgt) as (Htrec & _).
  assert (rec_ok (related now cur (mr_id tgt) kind)) as Hnew.
  { split; [|by apply Hsize]. apply related_wf; [apply Hrec|done|apply Htrec|done|done]. }
  pose proof (rewrite_spec io en m cur (related now cur (mr_id tgt) kind)
    (set_edges (en_ix en) (fst (edge_index_add (xi_edge (qi_index io) 0%nat) (ix_edges (en_ix en)) (mr_id cur) (mr_id tgt) kind))) Hok Hio Hc) as Hrw.
  cbn [with_db en_ix]. destruct (append_and_hash _ _ _) as [db st]. destruct (finish _ _ _ _) as [en' res].
  destruct Hrw as [(? & st' & -> & Hst')|[? Hres]]; [done|done|done| | |by left|].
  - destruct (eo_ix _ _ Hok) as [X1 X2 X3 X4 X5 X6 X7]. split; cbn [set_edges ix_time ix_tags ix_lex ix_edges ix_facts ix_usage ix_sem].
    + by eapply time_update.
    + by eapply tags_update.
    + by eapply lex_update.
    + eapply edges_relate; try done. apply Hio.
    + by eapply facts_update.
    + by apply usage_update.
    + by eapply sem_update.
  - cbn [related stamp_record set_relationships mr_relationships]. apply Forall_app. split; [exact (eo_rels _ _ Hok _ cur Hc)|].
    constructor; [|constructor]. cbn. split; [done|]. unfold short_kind. cbn.
    destruct kind as [k|]; cbn; [|unfold EDGE_MAX_KIND_LEN; lia]. apply Nat.ltb_ge in Ek. exact Ek.
  - right. exists cur, tgt. split_and!; try done. destruct Hres as [-> | ->]; auto.
Qed.

(** ** Delete *)

Definition tombstone (now : Z) (cur : MemoryRecord) : MemoryRecord :=
  stamp_record cur (mr_id cur) (mr_created cur) now (mr_expires_at cur) 1.

Lemma retract_enqueue_frame sources ok en id :
  exists rt, db_retract_enqueue sources ok en id = with_retract en rt.
Proof.
  assert (en = with_retract en (en_retract en)) as E by (by destruct en). unfold db_retract_enqueue.
  destruct (negb _); [eauto|]. destruct (ix_edges _); [|eauto]. destruct (edge_index_sources _ _ _ _); eauto.
Qed.

Lemma index_delete_spec io en m cur :
  en_ix en ⊩ m -> m !! mr_id cur = Some cur -> rec_ok cur -> Forall short_kind (mr_relationships cur) ->
  en_ix (index_delete io en cur) ⊩ delete (mr_id cur) m /\ en_db (index_delete io en cur) = en_db en.
Proof.
  intros [X1 X2 X3 X4 X5 X6 X7] Hc Hrec Hs. unfold index_delete.
  set (ix1 := set_edges _ _).
  destruct (retract_enqueue_frame (qi_sources io) (qi_queue io) (with_ix en ix1) (mr_id cur)) as [rt ->].
  split; [|by destruct (negb _)]. cbn [with_ix with_retract en_ix]. subst ix1.
  assert ((if negb (mr_embedding_dim cur =? 0) then ix_sem (en_ix en) ++ [SemRemove (mr_id cur)] else ix_sem (en_ix en)) ⊩ delete (mr_id cur) m) as Hsem.
  { destruct (Z.eqb_spec (mr_embedding_dim cur) 0) as [E0|_]; cbn [negb]; [|by apply sem_remove].
    unfold describes, sem_describes in *. rewrite X7, omap_delete, delete_id; [done|]. rewrite lookup_omap, Hc. cbn.
    unfold vectors_of, has_vectors. by rewrite E0. }
  destruct (negb (mr_embedding_dim cur =? 0));
    split; cbn [set_time set_usage set_facts set_edges set_lex set_tag_index push_sem ix_time ix_tags ix_lex ix_edges ix_facts ix_usage ix_sem];
    first [done | by apply time_delete | by apply tags_delete | by apply lex_delete | by apply edges_delete
          | by apply facts_delete; [apply Hrec|..] | by apply usage_delete].
Qed.

Lemma qe_delete_spec io now en m id ns :
  engine_ok en m -> io_ok io -> u64 now ->
  let '(en', st) := qe_delete io now en id ns in
  (en' = en /\ st <> AEGIS_OK /\
     (require_phase en 1 = AEGIS_OK -> forall cur, m !! id = Some cur -> ns_denies ns cur = true)) \/
  (exists cur, m !! id = Some cur /\ ns_denies ns cur = false /\
     match snd (append_and_hash (qi_write io) (en_db en) (tombstone now cur)) with
     | AEGIS_OK => engine_ok en' (delete id m) /\ (st = AEGIS_OK \/ st = AEGIS_ERR_INTERNAL)
     | bad => st = bad /\ SV (en_db en') m /\ en_ix en' ⊩ delete id m
     end).
Proof.
  intros Hok Hio Hnow. unfold qe_delete. destruct (require_phase en 1) eqn:Eph; try by left.
  rewrite (io_load io en m id Hio Hok). destruct (m !! id) as [cur|] eqn:Hc; [|by left].
  destruct (live_record _ _ _ _ Hok Hc) as (Hrec & <- & Hdel & Hlt & ->). cbn [orb].
  destruct (ns_denies ns cur) eqn:Ens; [left; split_and!; [done..|congruence]|].
  pose proof (eo_rels _ _ Hok _ _ Hc) as Hrels.
  destruct (index_delete_spec io en m cur (eo_ix _ _ Hok) Hc Hrec) as [Hx Hdb].
  { eapply Forall_impl; [exact Hrels|]. cbn. by intros ? []. }
  rewrite Hdb. fold (tombstone now cur).
  assert (rec_ok (tombstone now cur)) as Ht.
  { destruct Hrec as [W Hl]. apply stamp_ok; [by split|apply W|apply W|done|apply W|unfold urange; lia]. }
  pose proof (rs_append (qi_write io) (en_db en) m (tombstone now cur) (eo_store _ _ Hok) (ik_write _ Hio) Ht) as Ha.
  destruct (append_and_hash (qi_write io) (en_db en) (tombstone now cur)) as [db st] eqn:Eap.
  destruct Ha as [(_ & Hn & _) Hv]; [done|done|].
  destruct (decide (st = AEGIS_OK)) as [->|Hst].
  - assert (engine_ok (with_db (index_delete io en cur) db) (delete (mr_id cur) m)) as Hok'.
    { split; [exact Hv|done|]. cbn [with_db en_db]. rewrite Hn. intros i r Hl. apply lookup_delete_Some in Hl as [_ Hl]. by eapply Hok. }
    pose proof (qe_finish_spec io _ AEGIS_OK (tombstone now cur) _ Hok') as Hf. destruct (finish _ _ _ _) as [en' res].
    right. exists cur. rewrite Eap. cbn [snd]. destruct Hf as [? [-> | ->]]; auto.
  - assert (finish io (with_db (index_delete io en cur) db) st (tombstone now cur) = (with_db (index_delete io en cur) db, inr st)) as -> by (by destruct st).
    right. exists cur. rewrite Eap. cbn [snd]. split; [done|]. split; [done|]. destruct st; [done|..]; by split_and!.
Qed.

(** ** Promote *)

(** The record a promotion inserts. *)
Definition promoted (w : MemoryRecord) (ty : MemoryType) (ns : option (list Z)) : MemoryRecord :=
  pin_record w ty (match ns with Some n => Some n | None => mr_agent_id w end).

Definition taken (en : Engine) (sid : option (list Z)) (wid now : Z) (ns : option (list Z)) : option MemoryRecord :=
  match sid with Some s => snd (working_store_take (en_working en) s wid now ns) | None => None end.

Lemma qe_promote_spec io now en m sid wid ty ns :
  engine_ok en m -> io_ok io -> u64 now ->
  (forall w, taken en sid wid now ns = Some w -> insertable en (promoted w ty ns)) ->
  let '(en', res) := qe_promote io now en sid wid ty ns in
  (engine_ok en' m /\ exists st, res = inr st) \/
  (ty <> MEM_WORKING /\ exists w, taken en sid wid now ns = Some w /\
     insert_outcome now en en' m (promoted w ty ns) 0 res).
Proof.
  intros Hok Hio Hnow Hins. unfold qe_promote. destruct (require_phase en 4); try by left; eauto.
  destruct sid as [sid|]; [|left; eauto]. assert (ty = MEM_WORKING \/ ty <> MEM_WORKING) as [->|Hty] by (destruct ty; auto); [left; eauto|].
  assert (forall (A : Type) (a b : A), match ty with MEM_WORKING => a | _ => b end = b) as Hm by (intros; by destruct ty).
  rewrite (Hm _ (en, inr AEGIS_ERR_INVALID_REQUEST)). clear Hm.
  unfold taken in *. destruct (working_store_take (en_working en) sid wid now ns) as [ws [w|]]; cbn [snd] in *;
    [|left; split; [by apply working_ok|eauto]].
  assert (u64 0) as H0 by (unfold urange; lia).
  assert (forall r, insertable en r -> let '(en', res) := qe_insert io now (with_working en ws) r None 0 in insert_outcome now en en' m r 0 res) as Hq.
  { intros r [? ? ? ?]. pose proof (qe_insert_spec io now (with_working en ws) m r None 0 (working_ok _ _ _ Hok) Hio) as Hq.
    destruct (qe_insert _ _ _ _ _ _). apply Hq; [by split|done|done]. }
  specialize (Hins w eq_refl). destruct ns as [n|].
  - destruct (dup_str (qi_alloc io) n) as [n'|] eqn:Ed; [|left; split; [by apply working_ok|eauto]]. apply dup_str_Some in Ed as ->.
    specialize (Hq _ Hins). change (pin_record w ty (Some n)) with (promoted w ty (Some n)).
    destruct (qe_insert _ _ _ _ _ _). right. split; [done|]. by exists w.
  - specialize (Hq _ Hins). change (pin_record w ty (mr_agent_id w)) with (promoted w ty None).
    destruct (qe_insert _ _ _ _ _ _). right. split; [done|]. by exists w.
Qed.
End engine.
