(* ===== verification/EngineRefines.v ===== *)
(** * Runs of the query engine

    Every sequence of inserts, updates, deletes, promotions, relations and
    retraction passes is a sequence of steps on the map of live records, which
    the log, the id index and all seven secondary indexes then describe. *)

From S2P Require Import Prelude Endian HashIndex SortedArray Record RecordCodec RecordRoundtrip RecordDecode RecordEdit StrTable ProbeTable Intern TimeIndex TagIndex UsageIndex EdgeIndex FactIndex Aead AeadCorrect Log LogCorrect LogFaults Floats Tenant CkptCrypt Store StoreCorrect StoreView WorkingBuffer Json Registry Lexical LexicalCorrect Engine Rebuild EngineIndexes EngineCorrect.

Local Notation "ix ⊩ m" := (describes ix m) (at level 70).

Section runs.
Context `{AeadScheme} (SV : Db -> gmap Z MemoryRecord -> Prop) `{!RecordStore SV}.

Inductive EngOp :=
  | OpInsert (io : QeIo) (now : Z) (r : MemoryRecord) (sid : option (list Z)) (ttl : Z)
  | OpUpdate (io : QeIo) (now id : Z) (p : UpdatePatch) (ns : option (list Z))
  | OpDelete (io : QeIo) (now id : Z) (ns : option (list Z))
  | OpPromote (io : QeIo) (now : Z) (sid : option (list Z)) (wid : Z) (ty : MemoryType) (ns : option (list Z))
  | OpRelate (io : QeIo) (now from to : Z) (kind ns : option (list Z))
  | OpRetract (ok : bool) (io : nat -> QeIo) (now : Z).

(** A bare status is the right component. *)
Definition eng_step (en : Engine) (op : EngOp) : Engine * (MemoryRecord + aegis_status) :=
  match op with
  | OpInsert io now r sid ttl => qe_insert io now en r sid ttl
  | OpUpdate io now id p ns => qe_update io now en id p ns
  | OpDelete io now id ns => let '(en, st) := qe_delete io now en id ns in (en, inr st)
  | OpPromote io now sid wid ty ns => qe_promote io now en sid wid ty ns
  | OpRelate io now from to kind ns => let '(en, st) := qe_relate io now en from to kind ns in (en, inr st)
  | OpRetract ok io now => let '(en, _) := db_retract_step ok io now en in (en, inr AEGIS_OK)
  end.

Definition loaded (en : Engine) (id : Z) (cur : MemoryRecord) : Prop := load_record rok aok aok (en_db en) id = inl cur.

(** The tombstone of a delete of [id] is written. *)
Definition tomb_written (io : QeIo) (now : Z) (en : Engine) (id : Z) : Prop :=
  forall cur, loaded en id cur -> snd (append_and_hash (qi_write io) (en_db en) (tombstone now cur)) = AEGIS_OK.

Fixpoint retract_ok (io : nat -> QeIo) (now : Z) (k : nat) (en : Engine) (batch : list Z) : Prop :=
  match batch with
  | [] => True
  | id :: batch' =>
      io_ok (io k) /\ tomb_written (io k) now en id /\ retract_ok io now (S k) (fst (retract_batch io now k en [id] 0)) batch'
  end.

(** What an operation needs of the state it meets: well-formed arguments, room
    in the intern tables, frames within the size limit, and for a delete that
    the log accepts the tombstone. *)
Definition op_ok (en : Engine) (op : EngOp) : Prop :=
  match op with
  | OpInsert io now r sid ttl => io_ok io /\ insertable en r /\ u64 now /\ u64 ttl
  | OpUpdate io now id p ns =>
      io_ok io /\ patch_wf p /\ u64 now /\
      forall cur, loaded en id cur -> fact_fits (ix_facts (en_ix en)) (patched now cur p) /\
        Z.of_nat (length (record_bytes (patched now cur p))) <= 0xFFFFFFFF
  | OpDelete io now id ns => io_ok io /\ u64 now /\ tomb_written io now en id
  | OpPromote io now sid wid ty ns =>
      io_ok io /\ u64 now /\ forall w, taken en sid wid now ns = Some w -> insertable en (promoted w ty ns)
  | OpRelate io now from to kind ns =>
      io_ok io /\ u64 now /\ ostr_ok kind /\ edge_fits (ix_edges (en_ix en)) kind /\
      forall cur, loaded en from cur -> Z.of_nat (length (record_bytes (related now cur to kind))) <= 0xFFFFFFFF
  | OpRetract ok io now =>
      u64 now /\
      retract_ok io now 0 (with_retract en (set_queue (en_retract en)
        (drop (Nat.min (length (rt_ids (en_retract en))) (ec_max_derived (en_cfg en))) (rt_ids (en_retract en))) (rt_cap (en_retract en))))
        (take (Nat.min (length (rt_ids (en_retract en))) (ec_max_derived (en_cfg en))) (rt_ids (en_retract en)))
  end.

(** ** The map *)

Definition fresh_insert (now : Z) (m m' : gmap Z MemoryRecord) (r : MemoryRecord) (ttl : Z) (res : MemoryRecord + aegis_status) : Prop :=
  exists id, let rec := stamp_record r id now now (expiry_of now ttl) 0 in
    m !! id = None /\ unreferenced m id /\ m' = <[id := rec]> m /\ (res = inl rec \/ res = inr AEGIS_ERR_INTERNAL).

(** The step an operation and its answer allow on the live records. A failed
    flush answers [AEGIS_ERR_INTERNAL] for a change that was made. *)
Definition abs_step (m : gmap Z MemoryRecord) (op : EngOp) (res : MemoryRecord + aegis_status) (m' : gmap Z MemoryRecord) : Prop :=
  match op with
  | OpInsert io now r sid ttl =>
      (m' = m /\ (mr_type r = MEM_WORKING \/ exists st, res = inr st)) \/ (mr_type r <> MEM_WORKING /\ fresh_insert now m m' r ttl res)
  | OpUpdate io now id p ns =>
      (m' = m /\ exists st, res = inr st) \/
      (exists cur, m !! id = Some cur /\ ns_denies ns cur = false /\ mr_type cur = MEM_SEMANTIC /\
         m' = <[id := patched now cur p]> m /\ (res = inl (patched now cur p) \/ res = inr AEGIS_ERR_INTERNAL))
  | OpDelete io now id ns =>
      (m' = m /\ res <> inr AEGIS_OK) \/
      (exists cur, m !! id = Some cur /\ ns_denies ns cur = false /\ m' = delete id m /\ (res = inr AEGIS_OK \/ res = inr AEGIS_ERR_INTERNAL))
  | OpPromote io now sid wid ty ns =>
      (m' = m /\ exists st, res = inr st) \/ (ty <> MEM_WORKING /\ exists w, fresh_insert now m m' (promoted w ty ns) 0 res)
  | OpRelate io now from to kind ns =>
      (m' = m /\ (res = inr AEGIS_OK -> exists cur rl, m !! from = Some cur /\ rl ∈ mr_relationships cur /\ rl_to rl = to /\ rl_kind rl = kind)) \/
      (exists cur tgt, m !! from = Some cur /\ ns_denies ns cur = false /\ m !! to = Some tgt /\ ns_denies ns tgt = false /\
         m' = <[from := related now cur to kind]> m /\ (res = inr AEGIS_OK \/ res = inr AEGIS_ERR_INTERNAL))
  | OpRetract ok io now => m' ⊆ m /\ forall id r, m !! id = Some r -> m' !! id = None -> mr_derivation r <> []
  end.

Lemma loaded_live en m id cur : engine_ok SV en m -> m !! id = Some cur -> loaded en id cur.
Proof. intros Hok Hc. unfold loaded. rewrite (rs_load _ m); [by rewrite Hc|apply Hok]. Qed.

(** ** Retraction *)

Lemma retract_batch_count io now k en batch n : fst (retract_batch io now k en batch n) = fst (retract_batch io now k en batch 0).
Proof.
  revert k en n. induction batch as [|id batch IH]; intros k en n; [done|]. cbn [retract_batch].
  destruct (qe_get _ _ _ _ _) as [r|]; [|apply IH]. destruct (if ec_inference _ then _ else _); [apply IH|].
  destruct (qe_delete _ _ _ _ _) as [en' st]. rewrite IH. symmetry. apply IH.
Qed.

Lemma retract_batch_cons io now k en id batch n :
  fst (retract_batch io now k en (id :: batch) n) = fst (retract_batch io now (S k) (fst (retract_batch io now k en [id] 0)) batch 0).
Proof.
  cbn [retract_batch]. destruct (qe_get _ _ _ _ _) as [r|]; [|apply retract_batch_count].
  destruct (if ec_inference _ then _ else _); [apply retract_batch_count|].
  destruct (qe_delete _ _ _ _ _) as [en' st]. apply retract_batch_count.
Qed.

Lemma qe_get_live io now en m id ns :
  engine_ok SV en m -> io_ok io ->
  qe_get io now en id ns =
    match m !! id with
    | Some r => if record_expired r now || ns_denies ns r then inr AEGIS_ERR_NOT_FOUND else inl r
    | None => inr AEGIS_ERR_NOT_FOUND
    end.
Proof.
  intros Hok Hio. unfold qe_get, load_record_ro. rewrite (io_load SV io en m id Hio Hok). destruct (m !! id) as [r|] eqn:Hc; [|done].
  destruct (live_record SV _ _ _ _ Hok Hc) as (_ & _ & _ & _ & ->). cbn [orb]. by destruct (record_expired r now), (ns_denies ns r).
Qed.

Lemma retract_one io now k en m id :
  engine_ok SV en m -> io_ok (io k) -> u64 now -> tomb_written (io k) now en id ->
  exists m', engine_ok SV (fst (retract_batch io now k en [id] 0)) m' /\ m' ⊆ m /\
    forall i r, m !! i = Some r -> m' !! i = None -> mr_derivation r <> [].
Proof.
  intros Hok Hio Hnow Ht. assert (forall i r, m !! i = Some r -> m !! i = None -> mr_derivation r <> []) as Hno by congruence.
  cbn [retract_batch]. rewrite (qe_get_live (io k) now en m id None Hok Hio). destruct (m !! id) as [r|] eqn:Hc; [|by exists m].
  destruct (record_expired r now || ns_denies None r); [by exists m|].
  destruct (if ec_inference (en_cfg en) then db_derivation_stands en now r else true) eqn:Es; [by exists m|].
  assert (mr_derivation r <> []) as Hd.
  { destruct (ec_inference (en_cfg en)); [|done]. unfold db_derivation_stands in Es. by destruct (mr_derivation r). }
  destruct (live_record SV _ _ _ _ Hok Hc) as (_ & <- & _).
  pose proof (qe_delete_spec SV (io k) now en m (mr_id r) None Hok Hio Hnow) as Hdel.
  destruct (qe_delete (io k) now en (mr_id r) None) as [en' st]. cbn [fst].
  destruct Hdel as [(-> & _)|(cur & Hcur & _ & Hm)]; [by exists m|]. rewrite Hc in Hcur. injection Hcur as <-.
  rewrite (Ht r) in Hm by (by eapply loaded_live). exists (delete (mr_id r) m). split; [apply Hm|].
  split; [apply delete_subseteq|]. intros i r' Hi Hn. destruct (decide (i = mr_id r)) as [->|Hne]; [congruence|].
  rewrite lookup_delete_ne in Hn by done. congruence.
Qed.

Lemma retract_batch_spec io now k en m batch :
  engine_ok SV en m -> u64 now -> retract_ok io now k en batch ->
  exists m', engine_ok SV (fst (retract_batch io now k en batch 0)) m' /\ m' ⊆ m /\
    forall i r, m !! i = Some r -> m' !! i = None -> mr_derivation r <> [].
Proof.
  intros Hok Hnow Hr. revert k en m Hok Hr. induction batch as [|id batch IH]; intros k en m Hok Hr.
  { exists m. split; [done|]. split; [done|congruence]. }
  destruct Hr as (Hio & Ht & Hr). rewrite retract_batch_cons.
  destruct (retract_one io now k en m id Hok Hio Hnow Ht) as (m1 & Hok1 & Hs1 & Hd1).
  destruct (IH (S k) _ m1 Hok1 Hr) as (m2 & Hok2 & Hs2 & Hd2). exists m2. split; [done|]. split; [by etrans|].
  intros i r Hi Hn. destruct (m1 !! i) as [r1|] eqn:E1; [|by eapply Hd1].
  assert (m !! i = Some r1) by (by eapply lookup_weaken). simplify_eq. by eapply Hd2.
Qed.

Lemma fresh_outcome now en en' m r ttl res :
  mr_type r <> MEM_WORKING -> insert_outcome SV now en en' m r ttl res ->
  exists m', engine_ok SV en' m' /\ ((m' = m /\ exists st, res = inr st) \/ fresh_insert now m m' r ttl res).
Proof.
  intros Hty [Hn [Hun [[Hok [?|?]]|(_ & Hok & Hres)]]]; [done|exists m; auto|]. eexists. split; [exact Hok|]. right.
  exists (db_next_id (en_db en)). done.
Qed.

(** One operation is one step of the map. *)
Lemma eng_step_refines en m op :
  engine_ok SV en m -> op_ok en op ->
  exists m', abs_step m op (snd (eng_step en op)) m' /\ engine_ok SV (fst (eng_step en op)) m'.
Proof.
  intros Hok Hop. destruct op as [io now r sid ttl|io now id p ns|io now id ns|io now sid wid ty ns|io now from to kind ns|ok io now];
    cbn [eng_step op_ok] in *.
  - destruct Hop as (Hio & Hi & Hnow & Httl). pose proof (qe_insert_spec SV io now en m r sid ttl Hok Hio Hi Hnow Httl) as Hs.
    destruct (qe_insert _ _ _ _ _ _) as [en' res]. cbn [fst snd abs_step].
    destruct Hs as [Hn [Hun [[Hok' Hc]|(Hty & Hok' & Hc)]]]; [by exists m; auto|]. eexists. split; [|exact Hok']. right. split; [done|].
    by exists (db_next_id (en_db en)).
  - destruct Hop as (Hio & Hp & Hnow & Hc). pose proof (qe_update_spec SV io now en m id p ns Hok Hio) as Hs.
    destruct (qe_update _ _ _ _ _ _) as [en' res]. cbn [fst snd abs_step].
    destruct Hs as [[? ?]|(cur & ? & ? & ? & ? & ?)].
    + split; [done|done|..]; intros cur Hcur; by apply Hc, (loaded_live en m).
    + exists m. auto.
    + eexists. split; [|done]. right. by exists cur.
  - destruct Hop as (Hio & Hnow & Ht). pose proof (qe_delete_spec SV io now en m id ns Hok Hio Hnow) as Hs.
    destruct (qe_delete _ _ _ _ _) as [en' st]. cbn [fst snd abs_step].
    destruct Hs as [(-> & Hst & _)|(cur & Hc & Hns & Hm)]; [exists m; split; [left; split; congruence|done]|].
    rewrite (Ht cur) in Hm by (by eapply loaded_live). destruct Hm as [Hok' Hst].
    exists (delete id m). split; [|done]. right. exists cur. split_and!; try done. destruct Hst as [-> | ->]; auto.
  - destruct Hop as (Hio & Hnow & Hi). pose proof (qe_promote_spec SV io now en m sid wid ty ns Hok Hio Hnow Hi) as Hs.
    destruct (qe_promote _ _ _ _ _ _ _) as [en' res]. cbn [fst snd abs_step].
    destruct Hs as [[? ?]|(Hty & w & Hw & Ho)]; [exists m; auto|].
    destruct (fresh_outcome now en en' m (promoted w ty ns) 0 res Hty Ho) as (m' & Hok' & [?|?]); exists m'; split; try done; [by left|]. right. split; [done|]. by exists w.
  - destruct Hop as (Hio & Hnow & Hk & Hf & Hc). pose proof (qe_relate_spec SV io now en m from to kind ns Hok Hio) as Hs.
    destruct (qe_relate _ _ _ _ _ _ _) as [en' st]. cbn [fst snd abs_step].
    destruct Hs as [[Hok' Hst]|(cur & tgt & ? & ? & ? & ? & ? & Hst)].
    + split; [done|done|done|]. intros cur Hcur. by apply Hc, (loaded_live en m).
    + exists m. split; [|done]. left. split; [done|]. intros [= ->]. by apply Hst.
    + eexists. split; [|done]. right. exists cur, tgt. split_and!; try done. destruct Hst as [-> | ->]; auto.
  - destruct Hop as [Hnow Hr]. unfold db_retract_step.
    assert (exists m', (m' ⊆ m /\ forall id r, m !! id = Some r -> m' !! id = None -> mr_derivation r <> []) /\ engine_ok SV en m') as Hsame.
    { exists m. split; [|done]. split; [done|congruence]. }
    destruct (ec_read_only (en_cfg en)); [exact Hsame|]. cbn zeta. destruct (_ || _); [exact Hsame|].
    assert (engine_ok SV (with_retract en (set_queue (en_retract en)
        (drop (Nat.min (length (rt_ids (en_retract en))) (ec_max_derived (en_cfg en))) (rt_ids (en_retract en))) (rt_cap (en_retract en)))) m) as Hok1.
    { destruct Hok. by split. }
    destruct (retract_batch_spec io now 0 _ m _ Hok1 Hnow Hr) as (m' & Hok' & Hs).
    destruct (retract_batch _ _ _ _ _ _) as [en' n]. by exists m'.
Qed.
End runs.

(** ** Runs *)

Section run.
Context `{AeadScheme} (SV : Db -> gmap Z MemoryRecord -> Prop) `{!RecordStore SV}.

Fixpoint eng_run (en : Engine) (ops : list EngOp) : Engine * list (MemoryRecord + aegis_status) :=
  match ops with
  | [] => (en, [])
  | op :: ops' =>
      let '(en1, res) := eng_step en op in
      let '(en2, rest) := eng_run en1 ops' in (en2, res :: rest)
  end.

Fixpoint run_ok (en : Engine) (ops : list EngOp) : Prop :=
  match ops with [] => True | op :: ops' => op_ok en op /\ run_ok (fst (eng_step en op)) ops' end.

Inductive abs_run : gmap Z MemoryRecord -> list EngOp -> list (MemoryRecord + aegis_status) -> gmap Z MemoryRecord -> Prop :=
  | abs_nil m : abs_run m [] [] m
  | abs_cons m op ops res rest m1 m2 : abs_step m op res m1 -> abs_run m1 ops rest m2 -> abs_run m (op :: ops) (res :: rest) m2.

Lemma eng_run_refines en m ops :
  engine_ok SV en m -> run_ok en ops -> exists m', abs_run m ops (snd (eng_run en ops)) m' /\ engine_ok SV (fst (eng_run en ops)) m'.
Proof.
  revert en m. induction ops as [|op ops IH]; intros en m Hok Hrun; cbn [eng_run run_ok] in *.
  { exists m. split; [constructor|done]. }
  destruct Hrun as [Hop Hrun]. destruct (eng_step_refines SV en m op Hok Hop) as (m1 & Hs & Hok1).
  destruct (eng_step en op) as [en1 res]. destruct (IH en1 m1 Hok1 Hrun) as (m2 & Ha & Hok2).
  destruct (eng_run en1 ops) as [en2 rest]. exists m2. split; [by econstructor|done].
Qed.

(** A freshly opened, empty database; each optional index is on or off. *)
Definition empty_indexes (lex edges facts usage : bool) : Indexes :=
  mkIndexes time_index_create (mkTagIndex tbl_empty) (if lex then lexical_index_create true else None)
    (if edges then Some edge_index_create else None) (if facts then Some fact_index_create else None)
    (if usage then Some usage_index_create else None) [].

Definition empty_engine (ec : EngineCfg) (preds : option PredicateRegistry) (cfg : Config) (batch : Z) (ten : TenantTable)
  (lex edges facts usage : bool) (ws : WorkingStore) (bytes : Z) : Engine :=
  mkEngine ec preds (init_db cfg batch ten) (empty_indexes lex edges facts usage) ws (mkRetract [] 0 [] 0) bytes.

Context (init : forall cfg batch ten, SV (init_db cfg batch ten) ∅).

Lemma empty_engine_ok ec preds cfg batch ten lex edges facts usage ws bytes :
  engine_ok SV (empty_engine ec preds cfg batch ten lex edges facts usage ws bytes) ∅.
Proof.
  split; [apply init| |intros id r; by rewrite lookup_empty].
  split; cbn [empty_engine empty_indexes en_ix ix_time ix_tags ix_lex ix_edges ix_facts ix_usage ix_sem].
  - split; [split; [constructor|done]|]. unfold time_entries. by rewrite map_to_list_empty.
  - exists ∅. split; [apply empty_refines|]. intros tag id. rewrite lookup_empty. split; [set_solver|naive_solver].
  - destruct lex; [|done]. unfold describes, lex_describes. cbn. rewrite omap_empty. apply lex_create_refines.
  - destruct edges; [|done]. exists ∅. split; [apply create_edge_refines|]. intros from to kind. unfold live_edge.
    rewrite !lookup_empty. split; [set_solver|]. intros [_ []]; done.
  - destruct facts; [|done]. unfold describes, fact_describes. rewrite omap_empty. apply fact_create_refines.
  - destruct usage; [|done]. exists ∅. split; [apply create_refines|]. intros id. by rewrite !lookup_empty.
  - unfold describes, sem_describes. by rewrite omap_empty.
Qed.

(** ** Tenants *)

(** An operation on behalf of the agent [n]. *)
Definition op_of (n : list Z) (op : EngOp) : Prop :=
  match op with
  | OpInsert io now r sid ttl => mr_agent_id r = Some n
  | OpUpdate _ _ _ _ ns | OpDelete _ _ _ ns | OpPromote _ _ _ _ _ ns | OpRelate _ _ _ _ _ ns => ns = Some n
  | OpRetract _ _ _ => False
  end.

Definition foreign (n : list Z) (r : MemoryRecord) : Prop := mr_agent_id r <> Some n.

Lemma foreign_denied n r : foreign n r <-> ns_denies (Some n) r = true.
Proof.
  unfold foreign, ns_denies. destruct (mr_agent_id r) as [a|]; [|naive_solver]. rewrite negb_true_iff, bool_decide_eq_false. naive_solver.
Qed.

(** The records of other agents in two maps are the same. *)
Definition same_foreign (n : list Z) (m m' : gmap Z MemoryRecord) : Prop :=
  forall id r, foreign n r -> m !! id = Some r <-> m' !! id = Some r.

Lemma same_foreign_insert n m id r : ~ foreign n r -> (forall old, m !! id = Some old -> ~ foreign n old) -> same_foreign n m (<[id := r]> m).
Proof.
  intros Hr Hold i x Hx. destruct (decide (i = id)) as [->|Hne]; [|by rewrite lookup_insert_ne].
  rewrite lookup_insert_eq. split; [intros Hi; exfalso; by eapply Hold|intros [= ->]; done].
Qed.

Lemma owned_record n r : ns_denies (Some n) r = false -> ~ foreign n r.
Proof. intros Hd Hf. apply foreign_denied in Hf. congruence. Qed.

Lemma abs_step_foreign n m op res m' : op_of n op -> abs_step m op res m' -> same_foreign n m m'.
Proof.
  assert (same_foreign n m m) as Hid by done.
  destruct op as [io now r sid ttl|io now id p ns|io now id ns|io now sid wid ty ns|io now from to kind ns|ok io now];
    cbn [op_of abs_step]; intros Hn Hs.
  - destruct Hs as [[-> _]|(_ & id & Hf & _ & -> & _)]; [done|]. apply same_foreign_insert; [by intros Hc; apply Hc|congruence].
  - subst ns. destruct Hs as [[-> _]|(cur & Hc & Hd & _ & -> & _)]; [done|]. apply owned_record in Hd.
    apply same_foreign_insert; [done|]. intros old Ho. by simplify_eq.
  - subst ns. destruct Hs as [[-> _]|(cur & Hc & Hd & -> & _)]; [done|]. apply owned_record in Hd. intros i x Hx.
    rewrite lookup_delete_Some. split; [|naive_solver]. intros Hi. split; [|done]. intros ->. by simplify_eq.
  - subst ns. destruct Hs as [[-> _]|(_ & w & id & Hf & _ & -> & _)]; [done|]. apply same_foreign_insert; [by intros Hc; apply Hc|congruence].
  - subst ns. destruct Hs as [[-> _]|(cur & tgt & Hc & Hd & _ & _ & -> & _)]; [done|]. apply owned_record in Hd.
    apply same_foreign_insert; [done|]. intros old Ho. by simplify_eq.
  - done.
Qed.

Lemma abs_run_foreign n m ops res m' : Forall (op_of n) ops -> abs_run m ops res m' -> same_foreign n m m'.
Proof.
  intros Hf Hr. induction Hr as [|m op ops res rest m1 m2 Hs _ IH]; [done|]. inversion_clear Hf as [|? ? Ho Hf'].
  intros id r Hx. rewrite (abs_step_foreign n m op res m1 Ho Hs id r Hx). by apply IH.
Qed.
End run.

(** ** Theorems *)


(** C6: Tenants are isolated in the engine. Whatever sequence of operations an
    agent runs, the records of every other agent are exactly what they were, and
    reading, changing, deleting or relating one of them answers [NOT_FOUND] and
    changes nothing, as for an id that does not exist. *)
Theorem engine_tenant_isolation `{AeadScheme} n en m ops io now id r p kind to :
  engine_ok store_view en m -> run_ok en ops -> Forall (op_of n) ops -> io_ok io ->
  m !! id = Some r -> foreign n r -> ec_phase (en_cfg (fst (eng_run en ops))) = 4 ->
  let en' := fst (eng_run en ops) in
  load_record rok aok aok (en_db en') id = inl r /\
  qe_get io now en' id (Some n) = inr AEGIS_ERR_NOT_FOUND /\
  qe_update io now en' id p (Some n) = (en', inr AEGIS_ERR_NOT_FOUND) /\
  qe_delete io now en' id (Some n) = (en', AEGIS_ERR_NOT_FOUND) /\
  (id <> to -> (length (default [] kind) <= MAX_REL_KIND_LEN)%nat -> qe_relate io now en' id to kind (Some n) = (en', AEGIS_ERR_NOT_FOUND)) /\
  (fst (qe_relate io now en' to id kind (Some n)) = en' /\ snd (qe_relate io now en' to id kind (Some n)) <> AEGIS_OK).
Proof.
  intros Hok Hrun Hops Hio Hm Hf Hph en'. destruct (eng_run_refines store_view en m ops Hok Hrun) as (m' & Ha & Hok'). fold en' in Hok', Hph.
  pose proof (proj1 (abs_run_foreign n m ops _ m' Hops Ha id r Hf) Hm) as Hm'. pose proof (proj1 (foreign_denied n r) Hf) as Hd.
  destruct (live_record store_view _ _ _ _ Hok' Hm') as (_ & _ & _ & _ & Hdel).
  split; [by apply (loaded_live store_view _ m')|]. split; [by rewrite (qe_get_live store_view io now en' m' id _ Hok' Hio), Hm', Hd, orb_true_r|].
  pose proof (io_load store_view io en' m' id Hio Hok') as Hl. rewrite Hm' in Hl.
  split; [unfold qe_update, require_phase; by rewrite Hph, Hl, Hdel, Hd|].
  split; [unfold qe_delete, require_phase; by rewrite Hph, Hl, Hdel, Hd|]. split.
  - intros Hne Hk. unfold qe_relate, require_phase. rewrite Hph, Hl, Hdel, Hd. cbn [Z.leb Z.compare Pos.compare Pos.compare_cont].
    rewrite (proj2 (Z.eqb_neq id to)) by done. cbn [orb].
    destruct kind as [k|]; [|done]. cbn in Hk. by rewrite (proj2 (Nat.ltb_ge _ _)).
  - unfold qe_relate, require_phase. rewrite Hph. cbn [Z.leb Z.compare Pos.compare Pos.compare_cont].
    destruct (to =? id); [done|]. destruct (match kind with Some _ => _ | None => false end); [done|].
    rewrite (io_load store_view io en' m' to Hio Hok'). destruct (m' !! to) as [cur|]; [|done]. destruct (_ || _); [done|].
    unfold target_found. rewrite Hl, Hdel, Hd. done.
Qed.

(** C18: A delete whose tombstone cannot be written leaves the record half gone.
    It answers the error and the record is still read by id, but every secondary
    index has already forgotten it: no search, listing, relation or inference
    finds it until the indexes are rebuilt. *)
Theorem qe_delete_failed_append_hides `{AeadScheme} io now en m id cur ns :
  engine_ok store_view en m -> io_ok io -> u64 now -> m !! id = Some cur -> ns_denies ns cur = false -> 1 <= ec_phase (en_cfg en) ->
  snd (append_and_hash (qi_write io) (en_db en) (tombstone now cur)) <> AEGIS_OK ->
  let '(en', st) := qe_delete io now en id ns in
  st <> AEGIS_OK /\ load_record rok aok aok (en_db en') id = inl cur /\ describes (en_ix en') (delete id m).
Proof.
  intros Hok Hio Hnow Hc Hns Hph Hbad. pose proof (qe_delete_spec store_view io now en m id ns Hok Hio Hnow) as Hs.
  assert (require_phase en 1 = AEGIS_OK) as Ep by (unfold require_phase; by rewrite (proj2 (Z.leb_le _ _))).
  destruct (qe_delete io now en id ns) as [en' st]. destruct Hs as [(_ & _ & Hf)|(c & Hc' & _ & Hm)].
  { rewrite (Hf Ep cur Hc) in Hns. done. }
  rewrite Hc in Hc'. injection Hc' as <-.
  assert (st <> AEGIS_OK /\ store_view (en_db en') m /\ describes (en_ix en') (delete id m)) as (? & Hv & ?).
  { destruct (snd _); [done|..]; destruct Hm as (-> & ? & ?); by split_and!. }
  split; [done|]. split; [|done]. by rewrite (view_load _ m id Hv), Hc.
Qed.

(** ** A run *)

(** Two notes, related, the first edited, the second deleted, and a retraction
    pass. *)
Definition wit_note : MemoryRecord :=
  mkMemoryRecord 0 MEM_SEMANTIC 0 0 0x3F000000 F32_ONE (Some [97]) [[116]] [0x3F800000; 0] 2 1 []
    (mkFact FACT_OBJ_ID 7 (Some [112]) 9 None) [] [104; 105] 0 0.
Definition wit_edge_oks : EdgeOks := mkEdgeOks true true true true.
Definition wit_index_io : IndexIo :=
  mkIndexIo true (fun _ => (true, true)) (mkLexAlloc (fun _ => true) (fun _ => true) true) (fun _ => wit_edge_oks)
    (mkFactOks true true true true true true true true) true.
Definition wit_qio (w : nat -> option nat) : QeIo :=
  mkQeIo (mkWriteIo aok aok None w true true true) true rok aok aok aok true wit_index_io true (fun _ => true).
Definition wit_good : QeIo := wit_qio (fun _ => None).
Definition wit_ec : EngineCfg := mkEngineCfg 4 1000000 2 0 true false 8.
Definition wit_engine : Engine :=
  empty_engine wit_ec None (mkConfig None 0 true 10 100000) 0 (mkTenants [] 0) true true true true (mkStore [] 4 1000) 0.
Definition wit_patch : UpdatePatch := mkPatch (Some [121; 111]) None None (Some [[117]]) None None.
Definition wit_ops : list EngOp :=
  [OpInsert wit_good 100 wit_note None 0; OpInsert wit_good 101 wit_note None 50;
   OpRelate wit_good 102 1 2 (Some [107]) (Some [97]); OpUpdate wit_good 103 1 wit_patch (Some [97]);
   OpDelete wit_good 104 2 (Some [97])].

Lemma wit_note_ok : rec_ok wit_note.
Proof.
  split; [|vm_compute; discriminate]. apply (record_decode_range (fun _ => true) (record_bytes wit_note)); [by vm_compute|].
  apply (bool_decide_unpack (bytes_ok (record_bytes wit_note))). by vm_compute.
Qed.

Lemma wit_qio_ok w : io_ok (wit_qio w).
Proof. by repeat split. Qed.

(** Decidable forms of the conditions on a state. *)
Definition facts_room (fo : option FactIndex) : bool :=
  match fo with Some f => (length (it_nodes (fi_preds f)) <? INTERN_MAX)%nat | None => true end.
Definition kinds_room (eo : option EdgeIndex) : bool :=
  match eo with Some e => (length (it_nodes (ei_kinds e)) <? INTERN_MAX)%nat | None => true end.
Definition load_check `{AeadScheme} (en : Engine) (id : Z) (f : MemoryRecord -> bool) : bool :=
  match load_record rok aok aok (en_db en) id with inl cur => f cur | inr _ => true end.

Lemma facts_room_fits fo r p :
  facts_room fo = true -> fa_predicate (mr_fact r) = Some p -> (0 < length p <= FACT_MAX_PREDICATE_LEN)%nat -> fact_fits fo r.
Proof.
  intros Hr Hp Hl. unfold fact_fits. rewrite Hp. destruct fo as [f|]; [|done]. apply Nat.ltb_lt in Hr. split_and!; auto; lia.
Qed.

Lemma kinds_room_fits eo k : kinds_room eo = true -> (length k <= EDGE_MAX_KIND_LEN)%nat -> edge_fits eo (Some k).
Proof. intros Hr Hl. destruct eo as [e|]; [|done]. apply Nat.ltb_lt in Hr. split; [done|]. by right. Qed.

Lemma load_checked `{AeadScheme} en id f P :
  (forall cur, f cur = true -> P cur) -> load_check en id f = true -> forall cur, loaded en id cur -> P cur.
Proof. intros Hf Hc cur Hl. unfold load_check in Hc. rewrite Hl in Hc. by apply Hf. Qed.

Definition tomb_check `{AeadScheme} (io : QeIo) (now : Z) (en : Engine) (id : Z) : bool :=
  load_check en id (fun cur => bool_decide (snd (append_and_hash (qi_write io) (en_db en) (tombstone now cur)) = AEGIS_OK)).

Lemma tomb_checked `{AeadScheme} io now en id : tomb_check io now en id = true -> tomb_written io now en id.
Proof. intros Hc. refine (load_checked en id _ _ _ Hc). intros cur Hb. by apply bool_decide_eq_true in Hb. Qed.

Definition fits_frame (r : MemoryRecord) : bool := Z.of_nat (length (record_bytes r)) <=? 0xFFFFFFFF.

Lemma fits_frame_le r : fits_frame r = true -> Z.of_nat (length (record_bytes r)) <= 0xFFFFFFFF.
Proof. apply Z.leb_le. Qed.

Lemma wit_insertable en :
  facts_room (ix_facts (en_ix en)) = true -> (db_next_id (en_db en) <? 2 ^ 64 - 1) = true -> insertable en wit_note.
Proof.
  intros Hf Hn. split; [apply wit_note_ok|done| |by apply Z.ltb_lt]. apply (facts_room_fits _ _ [112]); [done|done|].
  cbn. unfold FACT_MAX_PREDICATE_LEN. lia.
Qed.

Lemma wit_patch_wf : patch_wf wit_patch.
Proof.
  split; try done; cbn.
  - intros d [= <-]. split; [|unfold UINT32_MAX; cbn; lia]. apply (bool_decide_unpack (bytes_ok [121; 111])). by vm_compute.
  - intros t [= <-]. split; [|unfold UINT16_MAX; cbn; lia]. constructor; [|constructor]. split; [|vm_compute; done].
    repeat constructor; lia.
Qed.

Lemma wit_run_ok : run_ok wit_engine wit_ops.
Proof.
  pose proof (wit_qio_ok (fun _ => None)) as Hio. unfold wit_ops. cbn [run_ok op_ok].
  split; [split; [done|]; split; [by apply wit_insertable|]; split; by vm_compute|].
  split; [split; [done|]; split; [apply wit_insertable; by vm_compute|]; split; by vm_compute|].
  split; [|split; [|split; [|done]]].
  - split; [done|]. split; [by vm_compute|]. split; [split; [repeat constructor; lia|by vm_compute]|].
    split; [apply kinds_room_fits; [by vm_compute|cbn; unfold EDGE_MAX_KIND_LEN; lia]|].
    apply (load_checked _ _ (fun cur => fits_frame (related 102 cur 2 (Some [107])))); [|by vm_compute].
    intros cur Hc. exact (fits_frame_le _ Hc).
  - split; [done|]. split; [apply wit_patch_wf|]. split; [by vm_compute|].
    apply (load_checked _ _ (fun cur => fits_frame (patched 103 cur wit_patch) && bool_decide (fa_predicate (mr_fact cur) = Some [112]))); [|by vm_compute].
    intros cur Hc. apply andb_true_iff in Hc as [Hs Hp]. apply bool_decide_eq_true in Hp. split; [|exact (fits_frame_le _ Hs)].
    apply (facts_room_fits _ _ [112]); [by vm_compute|exact Hp|]. cbn. unfold FACT_MAX_PREDICATE_LEN. lia.
  - split; [done|]. split; [by vm_compute|]. apply tomb_checked. by vm_compute.
Qed.


(** The state after the two inserts, and another agent editing its own record. *)
Definition wit_two : Engine := fst (eng_run wit_engine (take 2 wit_ops)).
Definition wit_map : gmap Z MemoryRecord :=
  <[2 := stamp_record wit_note 2 101 101 151 0]> (<[1 := stamp_record wit_note 1 100 100 0 0]> ∅).

Lemma wit_two_ok : engine_ok store_view wit_two wit_map.
Proof.
  destruct wit_run_ok as (H1 & H2 & _).
  destruct (eng_run_refines store_view wit_engine ∅ (take 2 wit_ops) (empty_engine_ok store_view view_init _ _ _ _ _ _ _ _ _ _ _)) as (m & Ha & Hok).
  { split; [exact H1|]. split; [exact H2|done]. }
  assert (m = wit_map) as <-; [|exact Hok].
  assert (snd (eng_run wit_engine (take 2 wit_ops)) =
    [inl (stamp_record wit_note 1 100 100 0 0); inl (stamp_record wit_note 2 101 101 151 0)]) as Er by (by vm_compute).
  rewrite Er in Ha. inversion Ha as [|? ? ? ? ? m1 ? S1 R1]; subst. inversion R1 as [|? ? ? ? ? m2 ? S2 R2]; subst.
  inversion R2; subst. clear -S1 S2.
  destruct S1 as [[_ [E|(st & E)]]|(_ & id1 & _ & _ & -> & [E|E])]; [done|done| |done]. injection E as <-.
  destruct S2 as [[_ [E|(st & E)]]|(_ & id2 & _ & _ & -> & [E|E])]; [done|done| |done]. injection E as <-. done.
Qed.

Lemma engine_tenant_isolation_witness :
  let en' := fst (eng_run wit_two [OpDelete wit_good 200 2 (Some [98])]) in
  load_record rok aok aok (en_db en') 1 = inl (stamp_record wit_note 1 100 100 0 0) /\
  qe_delete wit_good 201 en' 1 (Some [98]) = (en', AEGIS_ERR_NOT_FOUND).
Proof.
  assert (run_ok wit_two [OpDelete wit_good 200 2 (Some [98])]) as Hrun.
  { split; [|done]. split; [apply wit_qio_ok|]. split; [by vm_compute|]. apply tomb_checked. by vm_compute. }
  assert (ec_phase (en_cfg (fst (eng_run wit_two [OpDelete wit_good 200 2 (Some [98])]))) = 4) as Hph by (by vm_compute).
  assert (foreign [98] (stamp_record wit_note 1 100 100 0 0)) as Hf by done.
  destruct (engine_tenant_isolation [98] wit_two wit_map _ wit_good 201 1 _ wit_patch None 2
    wit_two_ok Hrun ltac:(by repeat constructor) (wit_qio_ok _) eq_refl Hf Hph) as (H1 & _ & _ & H4 & _).
  split; [exact H1|exact H4].
Defined.

Lemma qe_delete_failed_append_hides_witness :
  let '(en', st) := qe_delete (wit_qio (fun _ => Some 3%nat)) 200 wit_two 1 (Some [97]) in
  st <> AEGIS_OK /\ load_record rok aok aok (en_db en') 1 = inl (stamp_record wit_note 1 100 100 0 0) /\
  describes (en_ix en') (delete 1 wit_map).
Proof.
  assert (snd (append_and_hash (qi_write (wit_qio (fun _ => Some 3%nat))) (en_db wit_two)
    (tombstone 200 (stamp_record wit_note 1 100 100 0 0))) <> AEGIS_OK) as Hbad by (vm_compute; discriminate).
  assert (1 <= ec_phase (en_cfg wit_two)) as Hph by (vm_compute; discriminate).
  exact (qe_delete_failed_append_hides (wit_qio (fun _ => Some 3%nat)) 200 wit_two wit_map 1 _ (Some [97])
    wit_two_ok (wit_qio_ok _) ltac:(by vm_compute) eq_refl eq_refl Hph Hbad).
Defined.
