(* ===== verification/RebuildCorrect.v ===== *)
(** * Restart and replication rebuild the same indexes

    The second recovery pass, started from the log of a running engine, leaves
    the indexes that engine had; a follower that receives the primary's records
    in the order they were written ends with the primary's indexes. *)

From S2P Require Import Prelude Endian HashIndex SortedArray Record RecordCodec RecordRoundtrip RecordDecode StrTable ProbeTable Intern TimeIndex TagIndex UsageIndex EdgeIndex FactIndex Aead AeadCorrect Log LogCorrect LogFaults Floats Tenant CkptCrypt Store StoreCorrect Compaction CompactionCorrect StoreView WorkingBuffer Json Registry Lexical LexicalCorrect Engine Rebuild EngineIndexes EngineCorrect EngineRefines.

Local Notation "ix ⊩ m" := (describes ix m) (at level 70).

(** ** Vocabularies

    The edge kinds and predicates in use, few enough for the intern tables. *)

Record Vocab := mkVocab { vo_kinds : gset (list Z); vo_preds : gset (list Z) }.

Definition vocab_fits (V : Vocab) : Prop := (size (vo_kinds V) <= INTERN_MAX /\ size (vo_preds V) <= INTERN_MAX)%nat.

Definition names_in (T : Intern) (N : gset (list Z)) : Prop := forall n, n ∈ it_names T -> n ∈ N.

Lemma names_room T N n :
  it_wf T -> names_in T N -> (size N <= INTERN_MAX)%nat -> n ∈ N ->
  is_Some (it_find T n) \/ (length (it_nodes T) < INTERN_MAX)%nat.
Proof.
  intros W Hn Hs HN. destruct (decide (n ∈ it_names T)) as [Hi|Hi]; [left; by apply elem_of_it_names|]. right.
  assert (size (list_to_set (n :: it_names T) : gset (list Z)) <= size N)%nat as Hle.
  { apply subseteq_size. intros x Hx. apply elem_of_list_to_set, elem_of_cons in Hx as [->|Hx]; [done|by apply Hn]. }
  rewrite size_list_to_set in Hle by (constructor; [done|by apply it_names_nodup]).
  unfold it_names in Hle. cbn [length] in Hle. rewrite length_map in Hle. lia.
Qed.

Lemma it_use_names T id up : it_names (it_use T id up) = it_names T.
Proof.
  unfold it_use, it_node. destruct (_ || _); [done|]. destruct (it_nodes T !! Z.to_nat (id - 1)) as [[name uses]|] eqn:E; [|done].
  assert (forall u, map fst (<[Z.to_nat (id - 1) := (name, u)]> (it_nodes T)) = map fst (it_nodes T)) as Hm.
  { intros u. rewrite list_fmap_insert. cbn. apply list_insert_id. by rewrite list_lookup_fmap, E. }
  destruct up; [apply Hm|]. destruct (_ =? _)%nat; [done|apply Hm].
Qed.

Lemma pred_intern_names oka okn T p n : n ∈ it_names (fst (pred_intern oka okn T p)) -> n ∈ it_names T \/ n = p.
Proof.
  unfold pred_intern. destruct (_ || _); [by left|]. destruct (pred_find T p); [by left|].
  assert (n ∈ it_names (fst (it_mint oka okn T p)) -> n ∈ it_names T \/ n = p) as Hm.
  { unfold it_mint. destruct (INTERN_MAX <=? _)%nat; [by left|]. cbn zeta. destruct (_ && _); [by left|].
    destruct (negb okn); [by left|]. unfold it_names. cbn. rewrite map_app. intros Hin. apply elem_of_app in Hin as [?|Hin]; [by left|].
    right. by apply list_elem_of_singleton in Hin. }
  destruct (it_mint oka okn T p) as [T' [id|]]; apply Hm.
Qed.

Definition facts_named (P : gset (list Z)) (fo : option FactIndex) : Prop :=
  match fo with Some f => names_in (fi_preds f) P | None => True end.
Definition edges_named (K : gset (list Z)) (eo : option EdgeIndex) : Prop :=
  match eo with Some e => names_in (ei_kinds e) K | None => True end.

Lemma fact_add_named ok fo id s p okind oid ostr P :
  facts_named P fo -> (forall q, p = Some q -> q ∈ P) -> facts_named P (fst (fact_index_add ok fo id s p okind oid ostr)).
Proof.
  intros Hn Hp. destruct fo as [f|]; [|done]. unfold fact_index_add. destruct p as [p|]; [|done].
  destruct (object_key _ _ _) as [[okey os]|]; [|done]. destruct (pred_intern _ _ _ _) as [T pred] eqn:Ei.
  assert (names_in T P) as HT.
  { intros n Hin. pose proof (pred_intern_names (fk_arr ok) (fk_node ok) (fi_preds f) p n) as H. rewrite Ei in H.
    destruct (H Hin) as [?| ->]; [by apply Hn|by apply Hp]. }
  assert (names_in (pred_use T pred true) P) as HU by (intros n Hin; unfold pred_use in Hin; rewrite it_use_names in Hin; by apply HT).
  cbn zeta. destruct (_ =? _); [done|]. destruct (tbl_put _ _ _ _ _) as [? [?|]]; [|done].
  destruct (slot_add_post _ _ _ _ _) as [[? ?]|]; [|done]. destruct (tbl_put _ _ _ _ _) as [? [?|]]; [|done].
  destruct (slot_add_post _ _ _ _ _) as [[? ?]|]; [|done]. destruct (idlist_add _ _ _); [|done]. by destruct b.
Qed.

Lemma fact_remove_named fo id s p okind oid ostr P :
  facts_named P fo -> facts_named P (fact_index_remove fo id s p okind oid ostr).
Proof.
  intros Hn. destruct fo as [f|]; [|done]. unfold fact_index_remove. destruct p as [p|]; [|done].
  destruct (object_key _ _ _) as [[okey os]|]; [|done]. cbn zeta. destruct (_ =? _); [done|].
  assert (forall x, names_in (pred_use (fi_preds f) x false) P) as HU
    by (intros x n Hin; unfold pred_use in Hin; rewrite it_use_names in Hin; by apply Hn).
  destruct (match tbl_find _ _ _ with Some _ => _ | None => _ end) as [? b]. destruct (match tbl_find _ _ _ with Some _ => _ | None => _ end) as [? ?].
  destruct b; [apply HU|done].
Qed.

Lemma facts_apply_named ok fo r add P :
  facts_named P fo -> (forall q, fa_predicate (mr_fact r) = Some q -> q ∈ P) -> facts_named P (db_fact_index_apply ok fo r add).
Proof.
  intros Hn Hp. unfold db_fact_index_apply. destruct fo as [f|]; [|done]. destruct (bool_decide _); [done|].
  destruct add; [by apply fact_add_named|by apply fact_remove_named].
Qed.

(** The kinds and the predicate of a record belong to the vocabulary. *)
Record rec_vocab (V : Vocab) (r : MemoryRecord) : Prop := {
  rv_kinds : Forall (fun rl => short_kind rl /\ default [] (rl_kind rl) ∈ vo_kinds V) (mr_relationships r);
  rv_pred : forall p, fa_predicate (mr_fact r) = Some p -> p ∈ vo_preds V /\ (0 < length p <= FACT_MAX_PREDICATE_LEN)%nat
}.

Lemma vocab_fact_fits V fo m r :
  fo ⊩ m -> facts_named (vo_preds V) fo -> vocab_fits V -> rec_vocab V r -> fact_fits fo r.
Proof.
  intros Hf Hn [_ Hs] Hv. unfold fact_fits. destruct fo as [f|]; [|done]. destruct (fa_predicate (mr_fact r)) as [p|] eqn:Ep; [|done].
  destruct (rv_pred V r Hv p Ep) as [Hp Hl]. split_and!; [done|done|lia|lia|]. eapply names_room; [apply Hf|done|done|done].
Qed.

(** ** Edges while the sources are being rebuilt *)

(** The edges from the records of [src] to the ids of [tgt]. *)
Definition edges_between (eo : option EdgeIndex) (src tgt : gmap Z MemoryRecord) : Prop :=
  match eo with
  | None => True
  | Some e => exists E, edge_refines e E /\ forall from to kind, (from, to, kind) ∈ E <->
      (exists r rl, src !! from = Some r /\ rl ∈ mr_relationships r /\ rl_to rl = to /\ default [] (rl_kind rl) = kind) /\ is_Some (tgt !! to)
  end.

Lemma edges_between_same eo m : edges_between eo m m <-> eo ⊩ m.
Proof. done. Qed.

(** One edge enters. *)
Lemma add_edge_between V ok e E from rl :
  edge_refines e E -> names_in (ei_kinds e) (vo_kinds V) -> vocab_fits V -> edge_ok ok ->
  short_kind rl -> default [] (rl_kind rl) ∈ vo_kinds V ->
  exists e', fst (edge_index_add ok (Some e) from (rl_to rl) (rl_kind rl)) = Some e' /\ names_in (ei_kinds e') (vo_kinds V) /\
    edge_refines e' ({[ (from, rl_to rl, default [] (rl_kind rl)) ]} ∪ E).
Proof.
  intros R Hn [Hs _] (H1 & H2 & H3 & H4) Hk HK.
  destruct (edge_add_refines ok e E from (rl_to rl) (rl_kind rl) R H1 H2) as (e' & rc & -> & R' & Hrc & Hnm).
  { split; [done|]. destruct (names_room (ei_kinds e) (vo_kinds V) (default [] (rl_kind rl))) as [?|?]; try done; [apply R|left; by right|by right]. }
  rewrite Hrc in R' by done. exists e'. split; [done|]. split; [|done]. intros n Hin. apply Hnm in Hin as [?|[-> _]]; [by apply Hn|done].
Qed.

Lemma add_edges_refines V ok keep k e E from rels :
  edge_refines e E -> names_in (ei_kinds e) (vo_kinds V) -> vocab_fits V -> (forall k, edge_ok (ok k)) ->
  Forall (fun rl => short_kind rl /\ default [] (rl_kind rl) ∈ vo_kinds V) rels ->
  exists e' E', add_edges ok keep k (Some e) from rels = Some e' /\ names_in (ei_kinds e') (vo_kinds V) /\ edge_refines e' E' /\
    forall a b n, (a, b, n) ∈ E' <-> (a, b, n) ∈ E \/ (a = from /\ exists rl, rl ∈ rels /\ keep rl = true /\ rl_to rl = b /\ default [] (rl_kind rl) = n).
Proof.
  intros R Hn HV Hok Hr. revert k e E R Hn. induction Hr as [|rl rels [Hk HK] _ IH]; intros k e E R Hn; cbn [add_edges].
  { exists e, E. split; [done|]. split; [done|]. split; [done|]. set_solver. }
  destruct (keep rl) eqn:Ek.
  - destruct (add_edge_between V (ok k) e E from rl R Hn HV (Hok k) Hk HK) as (e1 & -> & Hn1 & R1).
    destruct (IH (S k) e1 _ R1 Hn1) as (e' & E' & ? & ? & ? & HE). exists e', E'. split_and!; try done.
    intros a b n. rewrite HE, elem_of_union, elem_of_singleton. split.
    + intros [[[= -> -> ->]|?]|(-> & x & ? & ?)]; [right; split; [done|]; exists rl; split; [left|done]|by left|right; split; [done|]; exists x; split; [by right|done]].
    + intros [?|(-> & x & Hx & Hkx & <- & <-)]; [by left; right|]. apply elem_of_cons in Hx as [->|Hx]; [by left; left|].
      right. split; [done|]. by exists x.
  - destruct (IH (S k) e E R Hn) as (e' & E' & ? & ? & ? & HE). exists e', E'. split_and!; try done.
    intros a b n. rewrite HE. split; (intros [?|(-> & x & Hx & Hkx & Hb)]; [by left|]).
    + right. split; [done|]. exists x. split; [by right|done].
    + apply elem_of_cons in Hx as [->|Hx]; [congruence|]. right. split; [done|]. by exists x.
Qed.

Lemma between_insert V ok keep k eo src tgt r :
  edges_between eo src tgt -> edges_named (vo_kinds V) eo -> vocab_fits V -> (forall k, edge_ok (ok k)) ->
  rec_vocab V r -> src !! mr_id r = None ->
  (forall rl, keep rl = true <-> is_Some (tgt !! rl_to rl)) ->
  edges_between (add_edges ok keep k eo (mr_id r) (mr_relationships r)) (<[mr_id r := r]> src) tgt /\
  edges_named (vo_kinds V) (add_edges ok keep k eo (mr_id r) (mr_relationships r)).
Proof.
  intros Hb Hn HV Hok Hr Hs Hkeep. destruct eo as [e|].
  2: { assert (add_edges ok keep k None (mr_id r) (mr_relationships r) = None) as ->; [|done].
       generalize (mr_relationships r) as l. intros l. revert k. induction l as [|rl l IH]; intros k; [done|]. cbn [add_edges].
       destruct (keep rl); apply IH. }
  destruct Hb as (E & R & HE).
  destruct (add_edges_refines V ok keep k e E (mr_id r) (mr_relationships r) R Hn HV Hok (rv_kinds V r Hr)) as (e' & E' & -> & Hn' & R' & HE').
  split; [|done]. exists E'. split; [done|]. intros a b n. rewrite HE', HE. destruct (decide (a = mr_id r)) as [->|Hne].
  - rewrite Hs, lookup_insert_eq. split.
    + intros [[(? & ? & ? & _) _]|(_ & rl & Hin & Hk & <- & Hnn)]; [done|]. split; [|by apply Hkeep]. by exists r, rl.
    + intros [(x & rl & [= <-] & Hin & <- & Hnn) Ht]. right. split; [done|]. exists rl. split; [done|]. split; [by apply Hkeep|done].
  - rewrite lookup_insert_ne by done. naive_solver.
Qed.

Lemma between_retarget eo src tgt tgt' :
  edges_between eo src tgt ->
  (forall i r rl, src !! i = Some r -> rl ∈ mr_relationships r -> is_Some (tgt !! rl_to rl) <-> is_Some (tgt' !! rl_to rl)) ->
  edges_between eo src tgt'.
Proof.
  intros Hb Ht. destruct eo as [e|]; [|done]. destruct Hb as (E & R & HE). exists E. split; [done|]. intros a b n. rewrite HE.
  split; (intros [(r & rl & Hr & Hin & <- & Hn) Hl]; split; [by exists r, rl|by eapply Ht]).
Qed.

Lemma between_remove eo m id r K :
  eo ⊩ m -> m !! id = Some r -> Forall short_kind (mr_relationships r) -> edges_named K eo ->
  edges_between (remove_edges eo id (mr_relationships r)) (delete id m) m /\ edges_named K (remove_edges eo id (mr_relationships r)).
Proof.
  intros He Hid Hs Hn. destruct eo as [e|].
  2: { assert (remove_edges None id (mr_relationships r) = None) as ->; [|done].
       unfold remove_edges. clear. induction (mr_relationships r); [done|]. cbn. done. }
  destruct He as (E & R & HE). destruct (remove_edges_refines e E id _ R Hs) as (e1 & E1 & -> & Hnm & R1 & H1).
  split; [|unfold edges_named, names_in; by rewrite Hnm]. exists E1. split; [done|]. intros a b n. rewrite H1, HE. unfold live_edge.
  destruct (decide (a = id)) as [->|Hne].
  - rewrite lookup_delete_eq. split; [|intros [(? & ? & ? & _) _]; done].
    intros [[(r' & rl & Hr & Hin & Hk) _] Hno]. exfalso. apply Hno. split; [done|]. exists rl. split; [congruence|done].
  - rewrite lookup_delete_ne by done. split; [by intros [? _]|]. intros ?. split; [done|]. by intros [-> _].
Qed.

Lemma between_drop_target eo src tgt id K :
  edges_between eo src tgt -> edges_named K eo ->
  edges_between (edge_index_remove_target eo id) src (delete id tgt) /\ edges_named K (edge_index_remove_target eo id).
Proof.
  intros Hb Hn. destruct eo as [e|]; [|done]. destruct Hb as (E & R & HE).
  destruct (edge_remove_target_refines e E id R) as (e1 & -> & R1 & Hnm). split; [|unfold edges_named, names_in; by rewrite Hnm].
  eexists. split; [exact R1|]. intros a b n. rewrite elem_of_filter. cbn [fst snd]. rewrite HE, lookup_delete.
  destruct (decide (id = b)) as [->|Hne]; [split; [by intros [? _]|intros [_ []]; done]|]. split; [by intros [_ ?]|]. intros ?. by split.
Qed.

(** Everything but the edges agrees with [src]. *)
Record ix_between (ix : Indexes) (src tgt : gmap Z MemoryRecord) : Prop := {
  xb_time : ix_time ix ⊩ src; xb_tags : ix_tags ix ⊩ src; xb_lex : ix_lex ix ⊩ src;
  xb_edges : edges_between (ix_edges ix) src tgt; xb_facts : ix_facts ix ⊩ src; xb_usage : ix_usage ix ⊩ src; xb_sem : ix_sem ix ⊩ src
}.

Lemma ix_between_same ix m : ix_between ix m m <-> ix ⊩ m.
Proof. split; intros []; by split. Qed.

Definition ix_named (V : Vocab) (ix : Indexes) : Prop := edges_named (vo_kinds V) (ix_edges ix) /\ facts_named (vo_preds V) (ix_facts ix).

(** Vectors have the configured dimension. *)
Definition rec_dims (dims : Z) (r : MemoryRecord) : Prop := mr_embedding_dim r = dims \/ mr_embedding_dim r = 0.

Lemma vector_guard dims r :
  record_wf r -> rec_dims dims r ->
  (mr_embedding_dim r =? dims) && negb (length (mr_embedding r) =? 0)%nat && negb (mr_vec_count r =? 0) = has_vectors r.
Proof.
  intros W Hd. destruct (rw_emb r W) as [_ He]. destruct (rw_dims r W) as ([Hv _] & [He0 _] & Hz). unfold has_vectors.
  destruct (Z.eqb_spec (mr_vec_count r) 0) as [E0|E0]; cbn [negb]; [by rewrite !andb_false_r|]. rewrite !andb_true_r.
  assert (mr_embedding_dim r <> 0) as Hd0 by (by rewrite <- Hz). rewrite (proj2 (Z.eqb_neq _ _) Hd0). cbn [negb].
  destruct Hd as [<-|?]; [|done]. rewrite Z.eqb_refl. cbn [andb]. destruct (Nat.eqb_spec (length (mr_embedding r)) 0) as [E1|]; [|done].
  rewrite E1 in He. nia.
Qed.

(** ** Replication *)

Lemma replica_drop_spec V x ix m p :
  ix ⊩ m -> ix_named V ix -> m !! mr_id p = Some p -> fact_ok (mr_fact p) -> rec_vocab V p ->
  ix_between (replica_drop x ix p) (delete (mr_id p) m) m /\ ix_named V (replica_drop x ix p).
Proof.
  intros [X1 X2 X3 X4 X5 X6 X7] [N1 N2] Hp Hf Hv.
  destruct (between_remove (ix_edges ix) m (mr_id p) p (vo_kinds V) X4 Hp) as [E1 E2]; [|done|].
  { eapply Forall_impl; [apply Hv|]. by intros ? []. }
  assert (facts_named (vo_preds V) (db_fact_index_apply (xi_fact x) (ix_facts ix) p false)) as F2.
  { apply facts_apply_named; [done|]. intros q Hq. by apply (rv_pred V p Hv). }
  pose proof (time_delete _ _ _ _ X1 Hp). pose proof (tags_delete _ _ _ _ X2 Hp). pose proof (lex_delete _ _ _ _ X3 Hp).
  pose proof (facts_delete (xi_fact x) _ _ _ _ Hf X5 Hp eq_refl). pose proof (usage_delete _ _ (mr_id p) X6).
  pose proof (sem_remove _ _ (mr_id p) X7) as S1. unfold replica_drop. destruct (has_vectors p) eqn:Ev.
  - split; [by split|by split].
  - assert (ix_sem ix ⊩ delete (mr_id p) m) as S2.
    { unfold describes, sem_describes in *. rewrite X7, omap_delete, delete_id; [done|]. rewrite lookup_omap, Hp. cbn. unfold vectors_of. by rewrite Ev. }
    split; [by split|by split].
Qed.

(** A record enters every index but the vectors, which become [cs]. *)
Definition index_add (x : IndexIo) (keep : Relationship -> bool) (ix : Indexes) (r : MemoryRecord) (cs : list SemCall) : Indexes :=
  mkIndexes (default (ix_time ix) (time_index_add (xi_time x) (ix_time ix) (mr_created r) (mr_id r)))
    (add_tags (xi_tag x) 0 (ix_tags ix) (mr_id r) (mr_tags r))
    (fst (lexical_index_add (xi_lex x) (ix_lex ix) (mr_id r) (mr_data r)))
    (add_edges (xi_edge x) keep 0 (ix_edges ix) (mr_id r) (mr_relationships r))
    (db_fact_index_apply (xi_fact x) (ix_facts ix) r true)
    (fst (usage_index_track (xi_usage x) (ix_usage ix) (mr_id r))) cs.

Lemma index_add_spec V x keep ix src tgt r cs :
  index_io_ok x -> vocab_fits V -> ix_between ix src tgt -> ix_named V ix -> src !! mr_id r = None ->
  record_wf r -> rec_vocab V r -> (forall rl, keep rl = true <-> is_Some (tgt !! rl_to rl)) ->
  cs ⊩ <[mr_id r := r]> src ->
  ix_between (index_add x keep ix r cs) (<[mr_id r := r]> src) tgt /\ ix_named V (index_add x keep ix r cs).
Proof.
  intros [Hit Hitag Hil Hie Hif Hiu] HV [X1 X2 X3 X4 X5 X6 X7] [N1 N2] Hs W Hv Hh Hcs.
  destruct (between_insert V (xi_edge x) keep 0 (ix_edges ix) src tgt r X4 N1 HV Hie Hv Hs) as [E1 E2].
  { done. }
  pose proof (vocab_fact_fits V (ix_facts ix) src r X5 N2 HV Hv) as Hfit.
  assert (facts_named (vo_preds V) (db_fact_index_apply (xi_fact x) (ix_facts ix) r true)) as F2.
  { apply facts_apply_named; [done|]. intros q Hq. by apply (rv_pred V r Hv). }
  pose proof (time_insert _ _ _ X1 Hs). pose proof (tags_insert _ _ _ _ Hitag X2 Hs). pose proof (lex_insert _ _ _ _ Hil X3 Hs).
  assert (db_fact_index_apply (xi_fact x) (ix_facts ix) r true ⊩ <[mr_id r := r]> src).
  { apply facts_insert; try done; [apply W|]. rewrite Hs. by left. }
  pose proof (usage_insert _ _ (mr_id r) r X6). unfold index_add. rewrite Hit, Hiu. split; [by split|by split].
Qed.

Lemma replica_add_spec V x dims h ix src r :
  index_io_ok x -> vocab_fits V -> ix_between ix src (<[mr_id r := r]> src) -> ix_named V ix -> src !! mr_id r = None ->
  record_wf r -> rec_vocab V r -> rec_dims dims r ->
  (forall id, target_live h id = true <-> is_Some (<[mr_id r := r]> src !! id)) ->
  replica_add x dims h ix r ⊩ <[mr_id r := r]> src /\ ix_named V (replica_add x dims h ix r).
Proof.
  intros Hx HV Hb Hn Hs W Hv Hd Hh.
  pose proof (sem_insert _ _ r (xb_sem _ _ _ Hb)) as S1. rewrite Hs in S1. specialize (S1 (fun _ => or_introl eq_refl)).
  rewrite <- ix_between_same.
  assert (replica_add x dims h ix r = index_add x (fun rl => target_live h (rl_to rl)) ix r
    (if has_vectors r then ix_sem ix ++ [SemAdd (mr_id r) (mr_embedding r) (mr_vec_count r) (mr_embedding_dim r)] else ix_sem ix)) as ->.
  { unfold replica_add. rewrite (vector_guard dims r W Hd). by destruct (has_vectors r). }
  by apply index_add_spec.
Qed.

Section replica.
Context `{AeadScheme}.

(** A target is live when the map holds it. *)
Lemma view_target db m id : store_view db m -> target_live (db_hash db) id = true <-> is_Some (m !! id).
Proof.
  intros Hsv. unfold target_live. pose proof (view_get db m id Hsv) as Hg. destruct (hash_index_get (db_hash db) id) as [e|].
  - destruct Hg as (r & -> & _ & ->). split; done.
  - rewrite Hg. split; [done|]. by intros [].
Qed.

(** A live entry of the index can be read from any log that extends this one. *)
Lemma live_entry_read db segs more lf id e :
  db_inv db segs -> log_holds lf (segs ++ more) -> lf_encrypted lf = lf_encrypted (db_log db) ->
  hash_index_get (db_hash db) id = Some e ->
  exists p r, log_read rok aok lf (he_offset e) = Some p /\ record_decode aok p = Some r /\ view segs id = Some r /\ he_deleted e = 0.
Proof.
  intros Hi Hl He Hg.
  assert (he_deleted e = 0) as Hd.
  { rewrite get_refines in Hg by apply Hi. destruct (hi_map (db_hash db) !! id) as [x|]; [|done]. cbn in Hg.
    destruct (Z.eqb_spec (he_deleted x) 0); [|done]. congruence. }
  apply get_known in Hg; [|apply Hi]. rewrite (di_map _ _ Hi) in Hg.
  pose proof (index_pays (delivered (lf_encrypted (db_log db)) 0 segs) id) as Hp. rewrite Hg, delivered_pays in Hp.
  destruct Hp as (off & p & r & Hin & Hr & Hid & -> & Hpay). exists p, r. split; [|split; [done|split; [|done]]].
  - apply (acked_read lf (delivered (lf_encrypted lf) 0 (segs ++ more))); [by exists (segs ++ more)|].
    rewrite delivered_app. apply elem_of_app. left. by rewrite He.
  - unfold view, answer. rewrite Hpay. cbn [mbind option_bind]. unfold live. rewrite Hr. cbn [frame_entry he_deleted] in Hd.
    destruct (is_deleted r); [done|]. cbn [negb mbind option_bind]. done.
Qed.

(** A record received and indexed: the frame is in the log, the entry in the
    id index. *)
Lemma frame_received io db segs rec lf off :
  db_inv db segs -> wio_ok io -> rec_ok rec ->
  log_append (wi_log io) (db_log db) (record_bytes rec) (wi_nonce io) (wi_write io) = (lf, off) ->
  lf_encrypted lf = lf_encrypted (db_log db) /\
  match off with
  | None => db_inv (set_log db lf) segs
  | Some o => o = lf_size (db_log db) /\ exists s h, sg_payload s = Some (record_bytes rec) /\ log_holds lf (segs ++ [s]) /\
      hash_index_put true (db_hash db) (mr_id rec) o (wrap 32 (Z.of_nat (length (record_bytes rec))))
        (memory_type_code (mr_type rec)) (flag (is_deleted rec)) (mr_expires_at rec) = Some h /\
      forall t n, db_next_id db <= n -> mr_id rec < n ->
        db_inv (mkDb (db_config db) lf h t n (db_index_file db) (db_log_generation db)) (segs ++ [s])
  end.
Proof.
  intros Hi Hio Hrec Ea. destruct (log_append_cases _ segs rec io lf off (di_log _ _ Hi) Hrec Hio Ea) as (He & Hk & Hoff).
  split; [done|]. destruct Hi as [Hlog Hrecs Hhash Hmap Hnext Hfile]. destruct off as [off|].
  2: { destruct Hoff as (Hh' & _). by split; cbn; rewrite ?He. }
  destruct Hoff as (-> & s & Hs & Hsp & Hh' & _). split; [done|].
  destruct (put_refines (db_hash db) (mr_id rec) (lf_size (db_log db)) (wrap 32 (Z.of_nat (length (record_bytes rec))))
    (memory_type_code (mr_type rec)) (flag (is_deleted rec)) (mr_expires_at rec) Hhash) as (h' & Ep & Hw & Hm).
  exists s, h'. split; [done|]. split; [done|]. split; [done|]. intros t n Hn Hid.
  assert (delivered (lf_encrypted lf) 0 (segs ++ [s])
    = delivered (lf_encrypted (db_log db)) 0 segs ++ [(lf_size (db_log db), record_bytes rec)]) as Hdel.
  { rewrite He, delivered_snoc, Hsp. rewrite (segs_size_bytes _ (lf_key (db_log db))) by apply Hlog. by rewrite (lh_size _ _ Hlog). }
  split; cbn.
  - done.
  - apply Forall_app. split; [done|by apply Forall_singleton].
  - done.
  - rewrite Hdel, Hm, Hmap. unfold frames_index. rewrite foldl_app. cbn [foldl]. rewrite index_step_rec; [done|apply Hrec].
  - rewrite Hdel, frames_max_app. cbn [frames_max foldl]. rewrite max_step_rec by apply Hrec. lia.
  - rewrite He. apply ckpt_inv_app. intros img Hr. destruct (Hfile img Hr) as (s1 & s2 & h & nid & ? & ? & ? & ? & ?).
    exists s1, s2, h, nid. split_and!; try done; lia.
Qed.

Record replica_ok (V : Vocab) (en : Engine) (m : gmap Z MemoryRecord) : Prop := {
  rp_store : store_view (en_db en) m;
  rp_ix : en_ix en ⊩ m;
  rp_named : ix_named V (en_ix en);
  rp_vocab : forall id r, m !! id = Some r -> rec_vocab V r
}.

(** A record of the stream: well formed, of the vocabulary and dimension, and
    under a new id only when nothing points at it yet. *)
Record frame_ok (V : Vocab) (dims : Z) (m : gmap Z MemoryRecord) (rec : MemoryRecord) : Prop := {
  fo_rec : rec_ok rec; fo_vocab : rec_vocab V rec; fo_dims : rec_dims dims rec; fo_id : mr_id rec < 2 ^ 64 - 1;
  fo_fresh : fresh_for m rec
}.

Lemma norm_rec r : is_deleted r = false -> norm_deleted r = r.
Proof.
  unfold is_deleted. intros Hd. destruct (Z.eqb_spec (mr_deleted r) 0) as [E|]; [|done]. destruct r; cbn in *. by subst.
Qed.

Lemma stored_vocab V m rec id r :
  (forall id r, m !! id = Some r -> rec_vocab V r) -> rec_vocab V rec -> stored m rec !! id = Some r -> rec_vocab V r.
Proof.
  intros Hm Hr. unfold stored. destruct (is_deleted rec) eqn:Ed.
  - intros Hl. apply lookup_delete_Some in Hl as [_ Hl]. by eapply Hm.
  - rewrite norm_rec by done. intros Hl. apply lookup_insert_Some in Hl as [[_ <-]|[_ Hl]]; [done|by eapply Hm].
Qed.

(** The prior version leaves the indexes. *)
Lemma replica_prior V io en segs more lf m rec :
  io_ok io -> db_inv (en_db en) segs -> (forall id, m !! id = view segs id) -> en_ix en ⊩ m -> ix_named V (en_ix en) ->
  (forall id r, m !! id = Some r -> rec_vocab V r) -> log_holds lf (segs ++ more) -> lf_encrypted lf = lf_encrypted (db_log (en_db en)) ->
  let ix := match hash_index_get (db_hash (en_db en)) (mr_id rec) with
            | Some prior =>
                if he_deleted prior =? 0 then
                  match log_read (qi_rerr io) (qi_lalloc io) lf (he_offset prior) with
                  | None => en_ix en
                  | Some pbuf => match record_decode (qi_dalloc io) pbuf with None => en_ix en | Some p => replica_drop (qi_index io) (en_ix en) p end
                  end
                else en_ix en
            | None => en_ix en
            end in
  ix_between ix (delete (mr_id rec) m) m /\ ix_named V ix.
Proof.
  intros [_ -> -> -> _] Hi Hm Hx Hn Hv Hl He.
  assert (store_view (en_db en) m) as Hsv by (split; by exists segs).
  pose proof (view_get (en_db en) m (mr_id rec) Hsv) as Hg.
  destruct (hash_index_get (db_hash (en_db en)) (mr_id rec)) as [e|] eqn:Eg.
  - destruct (live_entry_read (en_db en) segs more lf (mr_id rec) e Hi Hl He Eg) as (p & r & -> & -> & Hr & ->). cbn [Z.eqb].
    rewrite <- Hm in Hr. destruct (view_record _ _ _ _ Hsv Hr) as ([W _] & Eid & _). rewrite <- Eid in Hr |- *.
    apply (replica_drop_spec V (qi_index io) (en_ix en) m r); try done; [apply W|by eapply Hv].
  - split; [|done]. rewrite delete_id by done. by apply ix_between_same.
Qed.

(** The nonce of an encrypted log can be drawn and no write is cut. *)
Definition append_clean (lf : LogFile) (io : WriteIo) : Prop :=
  clean io /\ (lf_encrypted lf = true -> wi_nonce io <> None).

Lemma log_append_outcome lf rec io lf' off :
  rec_ok rec -> wio_ok io -> log_append (wi_log io) lf (record_bytes rec) (wi_nonce io) (wi_write io) = (lf', off) ->
  (off <> None -> lf_size lf' = lf_size lf + overhead (lf_encrypted lf) + Z.of_nat (length (record_bytes rec))) /\
  (append_clean lf io -> off <> None).
Proof.
  intros [_ Hl] (_ & -> & _ & _). revert Hl. generalize (record_bytes rec) as p. intros p Hl E.
  unfold log_append in E. rewrite Z.gtb_ltb, (proj2 (Z.ltb_ge _ _)) in E by lia.
  assert (forall pieces sz, append_pieces lf pieces sz (wi_write io) = (lf', off) ->
    (off <> None -> lf_size lf' = sz) /\ (clean io -> off <> None)) as Hp.
  { intros pieces sz Ep. unfold append_pieces in Ep. pose proof (write_all_clean (lf_disk lf) (lf_size lf) pieces (wi_write io)) as Hw.
    destruct (write_all _ _ _ _) as [d ok]. cbn in Hw. destruct ok; injection Ep as <- <-; [done|]. split; [done|].
    intros Hc. by specialize (Hw Hc). }
  destruct (lf_encrypted lf) eqn:Ee.
  - unfold log_append_encrypted in E. destruct (wi_nonce io) as [nc|] eqn:En; cbn [aok negb] in E.
    + destruct (as_seal _ _ _ _) as [ct tag]. destruct (Hp _ _ E) as [H1 H2]. unfold overhead.
      split; [exact H1|]. intros [Hc _]. by apply H2.
    + injection E as <- <-. split; [done|]. intros [_ Hc]. by destruct (Hc Ee).
  - destruct (Hp _ _ E) as [H1 H2]. unfold overhead. split; [exact H1|]. intros [Hc _]. by apply H2.
Qed.

Lemma record_bytes_nonempty r : 0 < Z.of_nat (length (record_bytes r)).
Proof. unfold record_bytes, head_bytes. rewrite !length_app. cbn [length]. lia. Qed.

(** One frame at the end of the follower's log. *)
Lemma follower_frame_spec V io en m rec :
  replica_ok V en m -> io_ok io -> vocab_fits V -> frame_ok V (ec_dims (en_cfg en)) m rec ->
  Z.of_nat (length (record_bytes rec)) <= MAX_PAYLOAD ->
  let '(en', ok) := follower_frame io en (lf_size (db_log (en_db en))) (record_bytes rec) in
  en_cfg en' = en_cfg en /\ replica_ok V en' (if ok then stored m rec else m) /\
  lf_encrypted (db_log (en_db en')) = lf_encrypted (db_log (en_db en)) /\
  (ok = true -> lf_size (db_log (en_db en')) =
     lf_size (db_log (en_db en)) + overhead (lf_encrypted (db_log (en_db en))) + Z.of_nat (length (record_bytes rec))) /\
  (append_clean (db_log (en_db en)) (qi_write io) -> ok = true).
Proof.
  intros [[(segs & Hi & Hm)] Hx Hn Hv] Hio HV [Hrec Hrv Hdim Hid Hfresh] Hmax. unfold follower_frame. rewrite Z.eqb_refl.
  pose proof (record_bytes_nonempty rec). rewrite (proj2 (Z.eqb_neq _ 0)), Z.gtb_ltb, (proj2 (Z.ltb_ge _ _)) by lia. cbn [negb orb].
  destruct (log_append _ _ _ _ _) as [lf off] eqn:Ea.
  destruct (frame_received (qi_write io) (en_db en) segs rec lf off Hi (ik_write _ Hio) Hrec Ea) as [He Hoff].
  destruct (log_append_outcome _ _ _ _ _ Hrec (ik_write _ Hio) Ea) as [Hsize Hclean].
  destruct off as [off|].
  2: { split; [done|]. split; [split; [split; by exists segs|done..]|]. split; [done|]. split; [done|]. intros Hc. by destruct (Hclean Hc). }
  specialize (Hsize ltac:(done)). clear Hclean.
  destruct Hoff as (-> & s & h & Hsp & Hl & Hput & Hinv). unfold db_replica_apply.
  pose proof (replica_prior V io en segs [s] lf m rec Hio Hi Hm Hx Hn Hv Hl He) as Hprior. cbn [with_db en_db set_log db_hash db_log en_ix].
  rewrite (ik_dalloc _ Hio), record_decode_bytes by apply Hrec.
  assert (mr_id (norm_deleted rec) = mr_id rec) as Enid by done.
  assert (is_deleted (norm_deleted rec) = is_deleted rec) as Endel.
  { unfold is_deleted. cbn [norm_deleted mr_deleted]. by destruct (mr_deleted rec =? 0). }
  rewrite Enid. rewrite (ik_dalloc _ Hio) in Hprior. cbn zeta in Hprior.
  set (ix := match hash_index_get _ _ with Some _ => _ | None => _ end) in *. destruct Hprior as [Hb Hnb].
  cbn [with_ix en_db with_db set_log db_hash]. destruct (ik_write _ Hio) as (_ & _ & -> & _). rewrite Endel.
  change (memory_type_code (mr_type (norm_deleted rec))) with (memory_type_code (mr_type rec)).
  change (mr_expires_at (norm_deleted rec)) with (mr_expires_at rec). rewrite Hput.
  set (n := if _ <? _ then _ else _).
  assert (wrap 64 (mr_id rec + 1) = mr_id rec + 1) as Ew.
  { apply wrap_small. destruct (rw_id _ (proj1 Hrec)). unfold urange in *. lia. }
  assert (store_view (mkDb (db_config (en_db en)) lf h (db_tenants (en_db en)) n (db_index_file (en_db en)) (db_log_generation (en_db en))) (stored m rec)) as Hsv.
  { split. exists (segs ++ [s]). split.
    - assert (db_next_id (en_db en) <= n /\ mr_id rec < n) as [? ?].
      { subst n. destruct (is_deleted rec); cbn; rewrite Ew; destruct (Z.ltb_spec (db_next_id (en_db en)) (mr_id rec + 1)); lia. }
      by apply Hinv.
    - intros id. rewrite (view_snoc segs s rec) by (done || apply Hrec). unfold stored.
      destruct (is_deleted rec); [rewrite lookup_delete|rewrite lookup_insert]; repeat case_decide; subst; done. }
  split; [by destruct (is_deleted rec)|]. split; [|destruct (is_deleted rec); by split_and!].
  assert (forall id, target_live h id = true <-> is_Some (stored m rec !! id)) as Hlive.
  { intros id. by apply (view_target _ _ id Hsv). }
  subst n. destruct (is_deleted rec) eqn:Ed.
  - split; cbn [with_ix with_db en_db en_ix set_next_id set_hash set_log]; [exact Hsv| | |by intros; eapply stored_vocab].
    + unfold stored. rewrite Ed. destruct (between_drop_target _ _ _ (mr_id rec) _ (xb_edges _ _ _ Hb) (proj1 Hnb)) as [HE _].
      destruct Hb. by split.
    + destruct (between_drop_target _ _ _ (mr_id rec) _ (xb_edges _ _ _ Hb) (proj1 Hnb)) as [_ HE]. split; [done|apply Hnb].
  - cbn [with_ix with_db en_db en_ix set_next_id set_hash set_log en_cfg].
    rewrite (norm_rec rec Ed) in *. unfold stored in *. rewrite Ed, (norm_rec rec Ed) in *.
    assert (<[mr_id rec := rec]> (delete (mr_id rec) m) = <[mr_id rec := rec]> m) as Eins by apply insert_delete_eq.
    destruct (replica_add_spec V (qi_index io) (ec_dims (en_cfg en)) h ix (delete (mr_id rec) m) rec) as [Hx' Hn']; try done.
    + apply Hio.
    + destruct Hb as [B1 B2 B3 B4 B5 B6 B7]. split; try done. eapply between_retarget; [exact B4|].
      intros i r rl Hi' Hin. rewrite Eins, lookup_insert. case_decide as Ec; [|done]. split; [done|]. intros _.
      apply lookup_delete_Some in Hi' as [_ Hi']. destruct (m !! rl_to rl) eqn:Em; [done|]. exfalso.
      assert (m !! mr_id rec = None) as Enone by (by rewrite Ec). pose proof (Hfresh Ed Enone i r Hi') as Hf.
      rewrite Forall_forall in Hf. by apply (Hf rl Hin).
    + apply lookup_delete_eq.
    + apply Hrec.
    + intros id. by rewrite Eins.
    + rewrite Eins in Hx'. split; [exact Hsv|done|done|].
      intros id r Hl'. apply lookup_insert_Some in Hl' as [[_ <-]|[_ Hl']]; [done|by eapply Hv].
Qed.

(** The records as the frames of a log from [off] on. *)
Fixpoint rec_frames (enc : bool) (off : Z) (recs : list MemoryRecord) : list (Z * list Z) :=
  match recs with
  | [] => []
  | r :: recs' => (off, record_bytes r) :: rec_frames enc (off + overhead enc + Z.of_nat (length (record_bytes r))) recs'
  end.

(** The messages that carry frames. *)
Definition frame_msgs (frames : list (Z * list Z)) : list ReplMsg := map (fun f => MsgFrame (fst f) (snd f)) frames.

Lemma delivered_recs enc off segs recs :
  Forall seg_rec segs -> log_pays segs = map record_bytes recs -> delivered enc off segs = rec_frames enc off recs.
Proof.
  intros Hs. revert off recs. induction Hs as [|s segs (r & _ & Hp & Hl) Hs IH]; intros off recs E; cbn [delivered].
  { by destruct recs. }
  unfold log_pays in E. cbn [omap list_omap] in E. rewrite Hp in E |- *. fold (log_pays segs) in E.
  destruct recs as [|x recs]; [done|]. cbn [map] in E.
  pose proof (f_equal (hd []) E) as E1. pose proof (f_equal (@tl _) E) as E2. cbn [hd tl] in E1, E2.
  cbn [rec_frames]. rewrite Hl, E1. f_equal. by apply IH.
Qed.

(** A turn of the stream sends every frame of the log at its offset. *)
Lemma stream_frames_spec peer lf segs1 segs2 fuel :
  log_holds lf (segs1 ++ segs2) -> (length segs2 < fuel)%nat ->
  Forall (fun '(_, p) => codec_above peer p = false) (delivered (lf_encrypted lf) (flen (segs_bytes segs1)) segs2) ->
  Forall seg_rec segs2 ->
  stream_frames rok aok (fun _ => true) peer lf (lf_size lf) fuel (flen (segs_bytes segs1))
  = (frame_msgs (delivered (lf_encrypted lf) (flen (segs_bytes segs1)) segs2) ++ [MsgHeartbeat (lf_size lf)], Some (lf_size lf)).
Proof.
  intros Hl. revert segs1 fuel Hl. induction segs2 as [|s segs2 IH]; intros segs1 fuel Hl Hf Hc Hr; (destruct fuel as [|fuel]; [cbn in Hf; lia|]);
    cbn [stream_frames].
  { rewrite app_nil_r in Hl. rewrite (lh_size _ _ Hl), Z.ltb_irrefl. done. }
  apply Forall_cons in Hr as [(r & Hrok & Hp & Hlen) Hr].
  pose proof (lh_ok _ _ Hl) as Hok. apply Forall_app in Hok as [Hok1 Hok2]. apply Forall_cons in Hok2 as [Hs _].
  destruct (frame_is_length _ _ _ _ _ Hs) as [Hfl _]. pose proof (hdr_len_pos (lf_encrypted lf)) as Hh.
  assert (lf_size lf = flen (segs_bytes segs1) + flen (sg_bytes s) + flen (segs_bytes segs2)) as Hsz.
  { rewrite (lh_size _ _ Hl), segs_bytes_app. cbn [segs_bytes map concat]. unfold flen. rewrite !length_app. fold (segs_bytes segs2). lia. }
  assert (0 <= flen (segs_bytes segs2)) by (unfold flen; lia).
  rewrite (proj2 (Z.ltb_lt _ _)) by lia. cbn [negb].
  assert (log_read rok aok lf (flen (segs_bytes segs1)) = Some (record_bytes r)) as ->.
  { apply (acked_read lf (delivered (lf_encrypted lf) 0 (segs1 ++ s :: segs2))); [by exists (segs1 ++ s :: segs2)|].
    rewrite delivered_app, (segs_size_bytes _ _ _ Hok1). apply elem_of_app. right. cbn [delivered]. rewrite Hp. by left. }
  cbn [delivered] in Hc |- *. rewrite Hp in Hc |- *. apply Forall_cons in Hc as [-> Hc].
  assert (flen (segs_bytes (segs1 ++ [s])) = flen (segs_bytes segs1) + overhead (lf_encrypted lf) + sg_len s) as Hnext.
  { rewrite segs_bytes_snoc. unfold flen in *. rewrite length_app. lia. }
  rewrite <- Hnext in Hc |- *.
  replace (flen (segs_bytes segs1) + (log_frame_overhead lf + Z.of_nat (length (record_bytes r)))) with (flen (segs_bytes (segs1 ++ [s])))
    by (rewrite Hnext; unfold log_frame_overhead; lia).
  rewrite IH; [done|by rewrite <- (assoc_L (++))|cbn in Hf; lia|done|done].
Qed.

Lemma codec_fits r : codec_above RECORD_CODEC_MAX (record_bytes r) = false.
Proof.
  assert (exists t, record_bytes r = wrap 8 (codec_version r) :: t) as [t ->] by (eexists; reflexivity).
  unfold codec_above, codec_version. by destruct (has_deriv r), (has_fact r).
Qed.

Lemma follow_spec V io rst k en m recs :
  replica_ok V en m -> (forall k, io_ok (io k)) -> vocab_fits V -> stream_ok m recs ->
  Forall (fun r => rec_ok r /\ rec_vocab V r /\ rec_dims (ec_dims (en_cfg en)) r /\ mr_id r < 2 ^ 64 - 1 /\
    Z.of_nat (length (record_bytes r)) <= MAX_PAYLOAD) recs ->
  forall size, let '(en', ok) := follow_session io rst k en
    (frame_msgs (rec_frames (lf_encrypted (db_log (en_db en))) (lf_size (db_log (en_db en))) recs) ++ [MsgHeartbeat size]) in
  (ok = true -> replica_ok V en' (foldl stored m recs)) /\
  ((forall k, append_clean (db_log (en_db en)) (qi_write (io k))) -> ok = true).
Proof.
  intros Hok Hio HV Hs Hr size. revert k en m Hok Hs Hr.
  induction recs as [|r recs IH]; intros k en m Hok Hs Hr; cbn [rec_frames frame_msgs map app follow_session follower_msg fst snd]; [done|].
  destruct Hs as [Hf Hs]. apply Forall_cons in Hr as [(H1 & H2 & H3 & H4 & H5) Hr'].
  pose proof (follower_frame_spec V (io k) en m r Hok (Hio k) HV ltac:(by split) H5) as Hff.
  destruct (follower_frame _ _ _ _) as [en1 ok]. destruct Hff as (Hcfg & Hok1 & He & Hsz & Hcl). destruct ok.
  - specialize (IH (S k) en1 (stored m r) Hok1 Hs). rewrite Hcfg in IH. specialize (IH Hr'). rewrite He, (Hsz eq_refl) in IH.
    fold (frame_msgs (rec_frames (lf_encrypted (db_log (en_db en)))
      (lf_size (db_log (en_db en)) + overhead (lf_encrypted (db_log (en_db en))) + Z.of_nat (length (record_bytes r))) recs)).
    destruct (follow_session _ _ _ _ _) as [en' ok']. destruct IH as [IH1 IH2]. split; [exact IH1|]. intros Hc. apply IH2. intros j.
    destruct (Hc j) as [C1 C2]. split; [done|]. by rewrite He.
  - split; [done|]. intros Hc. by apply Hcl.
Qed.

Lemma empty_replica_ok V ec preds cfg batch ten lex edges facts usage ws bytes :
  replica_ok V (empty_engine ec preds cfg batch ten lex edges facts usage ws bytes) ∅.
Proof.
  destruct (empty_engine_ok store_view view_init ec preds cfg batch ten lex edges facts usage ws bytes) as [Hs Hx _].
  split; [done|done| |intros id r; by rewrite lookup_empty].
  split; [destruct edges|destruct facts]; cbn; try done; intros n Hn; by apply elem_of_nil in Hn.
Qed.

(** A store together with the framing of its log. *)
Definition framed_view (SV : Db -> gmap Z MemoryRecord -> Prop) (enc : bool) (db : Db) (m : gmap Z MemoryRecord) : Prop :=
  SV db m /\ lf_encrypted (db_log db) = enc.

#[export] Instance framed_view_store SV enc `{!RecordStore SV} : RecordStore (framed_view SV enc).
Proof.
  split.
  - intros db m id [Hs _]. by apply rs_load.
  - intros db m id r [Hs _]. by apply rs_record.
  - intros db m id [Hs _]. by apply rs_get.
  - intros io db m rec [Hs He] Hio Hr Hid Hf. pose proof (rs_append io db m rec Hs Hio Hr Hid Hf) as Ha.
    destruct (append_and_hash io db rec) as [db' st]. destruct Ha as [Hsame Hs']. split; [done|]. split; [done|].
    destruct Hsame as (_ & _ & _ & -> & _). done.
  - intros db m [Hs He] Hn. split; [by apply rs_next_id|done].
  - intros db m [Hs _]. by eapply rs_next_pos.
  - intros db m sync [Hs He]. split; [by apply rs_flush|]. by destruct (fsync_batched_since (db_log db) sync) as [v ->].
Qed.

(** What a primary sends a follower that subscribes from 0, in one turn. *)
Definition primary_stream (lf : LogFile) : list ReplMsg :=
  fst (stream_frames rok aok (fun _ => true) RECORD_CODEC_MAX lf (lf_size lf) (S (Z.to_nat (lf_size lf))) 0).

(** A frame a follower can take: within the stream's bound, its record of the
    vocabulary and the dimension, its id not the last one. *)
Definition streamable (V : Vocab) (dims : Z) (p : list Z) : Prop :=
  Z.of_nat (length p) <= MAX_PAYLOAD /\
  forall r, record_decode aok p = Some r -> rec_vocab V r /\ rec_dims dims r /\ mr_id r < 2 ^ 64 - 1.

Lemma primary_stream_recs db segs recs :
  db_inv db segs -> log_pays segs = map record_bytes recs ->
  primary_stream (db_log db) = frame_msgs (rec_frames (lf_encrypted (db_log db)) 0 recs) ++ [MsgHeartbeat (lf_size (db_log db))].
Proof.
  intros Hi Hp. pose proof (di_log _ _ Hi) as Hl. pose proof (delivered_recs (lf_encrypted (db_log db)) 0 segs recs (di_recs _ _ Hi) Hp) as Hd.
  pose proof (segs_count _ _ _ (lh_ok _ _ Hl)) as Hc. rewrite <- (lh_size _ _ Hl) in Hc.
  unfold primary_stream. change 0 with (flen (segs_bytes [])) at 1. rewrite (stream_frames_spec _ _ [] segs); [|done|lia| |apply Hi].
  - change (flen (segs_bytes [])) with 0. by rewrite Hd.
  - change (flen (segs_bytes [])) with 0. rewrite Hd. clear. generalize 0. induction recs as [|r recs IH]; intros off; cbn [rec_frames]; [done|].
    apply Forall_cons. split; [apply codec_fits|apply IH].
Qed.

Lemma streamable_rec V dims r :
  rec_ok r -> streamable V dims (record_bytes r) ->
  rec_ok r /\ rec_vocab V r /\ rec_dims dims r /\ mr_id r < 2 ^ 64 - 1 /\ Z.of_nat (length (record_bytes r)) <= MAX_PAYLOAD.
Proof.
  intros Hr [Hl Hs]. destruct (Hs (norm_deleted r)) as ([V1 V2] & Hd & Hid); [apply record_decode_bytes, Hr|].
  by split_and!.
Qed.

Lemma rec_frames_msg enc off recs r :
  r ∈ recs -> exists o, MsgFrame o (record_bytes r) ∈ frame_msgs (rec_frames enc off recs).
Proof.
  intros Hin. revert off. induction Hin as [x l|x y l Hin IH]; intros off; cbn [rec_frames frame_msgs map fst snd].
  - exists off. by left.
  - destruct (IH (off + overhead enc + Z.of_nat (length (record_bytes y)))) as [o Ho]. exists o. by right.
Qed.
End replica.

(** C5: A follower converges to its primary. Run any operations on a primary that
    has not been compacted, and let a follower that starts empty, with the same
    encryption mode, apply the primary's stream from offset 0: the frames of the
    primary's log as the streaming loop reads them, each with the primary's
    offset. When no append of the follower is cut the session applies every
    frame (the offsets agree all the way). Whenever it does, the follower
    answers every id as the primary does, and its time, tag, text, edge, fact,
    usage and vector indexes describe the same live records as the primary's.
    Conditions: the kinds and predicates in use fit the intern tables, the
    vectors have the follower's dimension, and no frame exceeds the stream's
    bound of 64 MiB. *)
Theorem replica_follows_primary `{AeadScheme} ec preds cfg batch ten lex edges facts usage ws bytes ops
    V fec fpreds fcfg fbatch ften flex fedges ffacts fusage fws fbytes io rst :
  let en0 := empty_engine ec preds cfg batch ten lex edges facts usage ws bytes in
  let en := fst (eng_run en0 ops) in
  let fen := empty_engine fec fpreds fcfg fbatch ften flex fedges ffacts fusage fws fbytes in
  let msgs := primary_stream (db_log (en_db en)) in
  run_ok en0 ops ->
  (cfg_key fcfg = None <-> cfg_key cfg = None) ->
  vocab_fits V -> (forall k, io_ok (io k)) ->
  (forall off p, MsgFrame off p ∈ msgs -> streamable V (ec_dims fec) p) ->
  let '(en', ok) := follow_session io rst 0 fen msgs in
  ((forall k, append_clean (db_log (en_db fen)) (qi_write (io k))) -> ok = true) /\
  (ok = true ->
   (forall id, load_record rok aok aok (en_db en') id = load_record rok aok aok (en_db en) id) /\
   exists m, describes (en_ix en) m /\ describes (en_ix en') m).
Proof.
  intros en0 en fen msgs Hrun Hkey HV Hio Hmsg. set (enc := lf_encrypted (db_log (en_db fen))).
  assert (framed_view history_view enc (en_db en0) ∅) as Hinit.
  { split; [apply history_init|]. subst enc fen en0. cbn. destruct Hkey as [K1 K2].
    destruct (cfg_key fcfg), (cfg_key cfg); try done; [by specialize (K2 eq_refl)|by specialize (K1 eq_refl)]. }
  destruct (eng_run_refines (framed_view history_view enc) en0 ∅ ops) as (m & _ & [[Hh Henc] Hx _]); [|exact Hrun|].
  { destruct (empty_engine_ok history_view history_init ec preds cfg batch ten lex edges facts usage ws bytes) as [_ X Y]. by split. }
  fold en in Hh, Henc, Hx. pose proof (history_store _ _ Hh) as Hsv. destruct Hh as (recs & (segs & Hi & Hp & Hrok) & Em & Hst).
  pose proof (primary_stream_recs _ _ _ Hi Hp) as Hms. fold msgs in Hms. rewrite Henc in Hms.
  pose proof (follow_spec V io rst 0 fen ∅ recs (empty_replica_ok _ _ _ _ _ _ _ _ _ _ _ _) Hio HV Hst) as Hf.
  rewrite Hms. change (lf_size (db_log (en_db fen))) with 0 in Hf. fold enc in Hf.
  assert (Forall (fun r => rec_ok r /\ rec_vocab V r /\ rec_dims (ec_dims (en_cfg fen)) r /\ mr_id r < 2 ^ 64 - 1 /\
    Z.of_nat (length (record_bytes r)) <= MAX_PAYLOAD) recs) as Hall.
  { apply Forall_forall. intros r Hin. apply streamable_rec; [by rewrite Forall_forall in Hrok; apply Hrok|].
    destruct (rec_frames_msg enc 0 recs r Hin) as [o Ho]. apply (Hmsg o). rewrite Hms. apply elem_of_app. by left. }
  specialize (Hf Hall (lf_size (db_log (en_db en)))). destruct (follow_session _ _ _ _ _) as [en' ok]. destruct Hf as [Hf Hcl].
  split; [exact Hcl|]. intros Hk. destruct (Hf Hk) as [Hs' Hx' _ _]. rewrite <- Em in Hs', Hx'.
  split; [|by exists m]. intros id. by rewrite (view_load _ m id Hs'), (view_load _ m id Hsv).
Qed.

(** The primary's run of five operations applied by a follower. *)
Definition wit_stream_vocab : Vocab := mkVocab (list_to_set [[107]]) (list_to_set [[112]]).

(** A decidable form of [streamable]. *)
Definition check_frame (ks ps : list (list Z)) (dims : Z) (p : list Z) : bool :=
  (Z.of_nat (length p) <=? MAX_PAYLOAD) &&
  match record_decode aok p with
  | None => true
  | Some r =>
      forallb (fun rl => (length (default [] (rl_kind rl)) <=? EDGE_MAX_KIND_LEN)%nat && bool_decide (default [] (rl_kind rl) ∈ ks)) (mr_relationships r)
      && match fa_predicate (mr_fact r) with
         | None => true
         | Some q => bool_decide (q ∈ ps) && (0 <? length q)%nat && (length q <=? FACT_MAX_PREDICATE_LEN)%nat
         end
      && ((mr_embedding_dim r =? dims) || (mr_embedding_dim r =? 0)) && (mr_id r <? 2 ^ 64 - 1)
  end.

Lemma check_frame_ok ks ps dims p :
  check_frame ks ps dims p = true -> streamable (mkVocab (list_to_set ks) (list_to_set ps)) dims p.
Proof.
  unfold check_frame. rewrite andb_true_iff. intros [Hl Hr]. split; [by apply Z.leb_le|]. intros r Er. rewrite Er in Hr.
  rewrite !andb_true_iff, orb_true_iff, !Z.eqb_eq in Hr. destruct Hr as [[[Hk Hp] Hd] Hid]. apply Z.ltb_lt in Hid. split_and!; try done.
  split.
  - apply Forall_forall. intros rl Hin. rewrite forallb_forall in Hk. specialize (Hk rl ltac:(by apply list_elem_of_In)).
    apply andb_true_iff in Hk as [H1 H2]. apply Nat.leb_le in H1. apply bool_decide_eq_true in H2. split; [done|by apply elem_of_list_to_set].
  - intros q Eq. rewrite Eq in Hp. rewrite !andb_true_iff in Hp. destruct Hp as [[H1 H2] H3]. apply bool_decide_eq_true in H1.
    apply Nat.ltb_lt in H2. apply Nat.leb_le in H3. split; [by apply elem_of_list_to_set|lia].
Qed.

Lemma wit_primary_frames off p :
  MsgFrame off p ∈ primary_stream (db_log (en_db (fst (eng_run wit_engine wit_ops)))) -> streamable wit_stream_vocab (ec_dims wit_ec) p.
Proof.
  intros Hin. apply (check_frame_ok [[107]] [[112]]).
  assert (forallb (fun msg => match msg with MsgFrame _ p => check_frame [[107]] [[112]] (ec_dims wit_ec) p | _ => true end)
    (primary_stream (db_log (en_db (fst (eng_run wit_engine wit_ops))))) = true) as Hall by (vm_compute; reflexivity).
  rewrite forallb_forall in Hall. apply list_elem_of_In in Hin. exact (Hall _ Hin).
Qed.

(** The follower applied five frames. *)
Lemma replica_follows_primary_witness :
  length (primary_stream (db_log (en_db (fst (eng_run wit_engine wit_ops))))) = 6%nat /\
  exists en', follow_session (fun _ => wit_good) (true, true) 0 wit_engine (primary_stream (db_log (en_db (fst (eng_run wit_engine wit_ops))))) = (en', true) /\
    (forall id, load_record rok aok aok (en_db en') id = load_record rok aok aok (en_db (fst (eng_run wit_engine wit_ops))) id) /\
    exists m, describes (en_ix (fst (eng_run wit_engine wit_ops))) m /\ describes (en_ix en') m.
Proof.
  split; [vm_compute; reflexivity|].
  pose proof (replica_follows_primary wit_ec None (mkConfig None 0 true 10 100000) 0 (mkTenants [] 0) true true true true (mkStore [] 4 1000) 0 wit_ops
    wit_stream_vocab wit_ec None (mkConfig None 0 true 10 100000) 0 (mkTenants [] 0) true true true true (mkStore [] 4 1000) 0
    (fun _ => wit_good) (true, true) wit_run_ok ltac:(done) ltac:(split; vm_compute; lia) (fun _ => wit_qio_ok _) wit_primary_frames) as T.
  fold wit_engine in T.
  destruct (follow_session _ _ 0 wit_engine _) as [en' ok]. destruct T as [T1 T2].
  assert (ok = true) as -> by (apply T1; intros k; split; [done|discriminate]).
  exists en'. split; [done|]. by apply T2.
Defined.

(** ** After a compaction *)

(** A follower that bootstraps from a compacted log loses edges. A compaction
    writes the live records in the order of the id table, so a record can come
    before the target of its relation; the follower applies it first, finds no
    such target and does not index the edge, and nothing adds it later. Here two
    notes are related, the primary compacts, and the follower applies every frame
    of the new log: it answers both ids as the primary does, but the reverse
    lookup that finds the relation on the primary finds nothing on the
    follower. *)
Example replica_bootstrap_loses_edge :
  let en := fst (eng_run wit_engine (take 2 wit_ops ++ [OpRelate wit_good 102 1 2 (Some [107]) (Some [97])])) in
  let '(db2, ok) := compaction_run_once_locked wit_cio (en_db en) (en_db en) (en_db en) in
  let '(fen, fok) := follow_session (fun _ => wit_good) (true, true) 0 wit_engine (primary_stream (db_log db2)) in
  ok = true /\ fok = true /\
  load_record rok aok aok (en_db fen) 1 = load_record rok aok aok (en_db en) 1 /\
  load_record rok aok aok (en_db fen) 2 = load_record rok aok aok (en_db en) 2 /\
  edge_index_sources true (ix_edges (en_ix en)) 2 [] = Some [mkEdgeSource 1 (Some [107]) false] /\
  edge_index_sources true (ix_edges (en_ix fen)) 2 [] = Some [].
Proof. vm_compute. repeat split. Qed.
