(* ===== verification/RecoveryCorrect.v ===== *)
(** * A restart rebuilds the indexes

    The second recovery pass walks the id index the first pass left and refills
    the secondary indexes. Whatever the order of its buckets, it ends with
    indexes that describe exactly the live records, with the vectors replayed
    over a checkpoint that covers a prefix of the log or rebuilt in full. *)

From S2P Require Import Prelude Endian HashIndex SortedArray Record RecordCodec RecordRoundtrip RecordDecode StrTable ProbeTable Intern TimeIndex TagIndex UsageIndex EdgeIndex FactIndex Aead AeadCorrect Log LogCorrect LogFaults Floats Tenant CkptCrypt Store StoreCorrect Compaction CompactionCorrect StoreView WorkingBuffer Json Registry Lexical LexicalCorrect Engine Rebuild EngineIndexes EngineCorrect EngineRefines RebuildCorrect.

Local Notation "ix ⊩ m" := (describes ix m) (at level 70).

(** ** One record *)

(** What a step of the walk may change of the engine besides the indexes: the
    accounting, the queue and the merge table. *)
Record same_walk (en en' : Engine) : Prop := {
  sw_cfg : en_cfg en' = en_cfg en; sw_hash : db_hash (en_db en') = db_hash (en_db en); sw_log : db_log (en_db en') = db_log (en_db en);
  sw_config : db_config (en_db en') = db_config (en_db en); sw_next : db_next_id (en_db en') = db_next_id (en_db en);
  sw_file : db_index_file (en_db en') = db_index_file (en_db en)
}.

#[export] Instance same_walk_preorder : PreOrder same_walk.
Proof. split; [by split|]. intros a b c [] []. split; congruence. Qed.

Lemma supersede_note_same ok en a b : en_db (db_supersede_note ok en a b) = en_db en /\ en_ix (db_supersede_note ok en a b) = en_ix en /\ en_cfg (db_supersede_note ok en a b) = en_cfg en.
Proof. unfold db_supersede_note. destruct (_ || _); [done|]. destruct (_ <=? _)%nat; [done|]. by destruct (_ && _). Qed.

Lemma recover_edges_spec ok sup k en id rels :
  let en' := recover_edges ok sup k en id rels in
  en_db en' = en_db en /\ en_cfg en' = en_cfg en /\
  en_ix en' = set_edges (en_ix en) (add_edges ok (fun rl => target_live (db_hash (en_db en)) (rl_to rl)) k (ix_edges (en_ix en)) id rels).
Proof.
  cbn zeta. revert k en. induction rels as [|rl rels IH]; intros k en; cbn [recover_edges add_edges].
  { split; [done|]. split; [done|]. by destruct (en_ix en). }
  destruct (target_live (db_hash (en_db en)) (rl_to rl)) eqn:El.
  - specialize (IH (S k) (with_ix en (set_edges (en_ix en) (fst (edge_index_add (ok k) (ix_edges (en_ix en)) id (rl_to rl) (rl_kind rl)))))).
    destruct IH as (-> & -> & ->). done.
  - case_bool_decide; [|apply IH]. destruct (supersede_note_same (sup k) en (rl_to rl) id) as (E1 & E2 & E3).
    destruct (IH (S k) (db_supersede_note (sup k) en (rl_to rl) id)) as (-> & -> & ->). by rewrite E1, E2, E3.
Qed.

Section pass2.
Context `{AeadScheme}.

Lemma recover_record_spec io now sem k en e blen r :
  let en' := recover_record io now sem k en e blen r in
  same_walk en en' /\
  en_ix en' = index_add (bi_index io k) (fun rl => target_live (db_hash (en_db en)) (rl_to rl)) (en_ix en) r
    (ix_sem (en_ix en) ++ recover_vectors (ec_dims (en_cfg en)) sem e r).
Proof.
  unfold recover_record. cbn zeta.
  match goal with
  | |- context [recover_edges ?a ?b ?c ?d ?e ?f] =>
      destruct (recover_edges_spec a b c d e f) as (E1 & E2 & E3); set (en1 := recover_edges a b c d e f) in *
  end.
  set (en2 := match mr_derivation r with [] => en1 | _ => _ end).
  assert (en_db en2 = en_db en /\ en_cfg en2 = en_cfg en /\ en_ix en2 = en_ix en1) as (F1 & F2 & F3).
  { unfold en2. destruct (mr_derivation r); [by split_and!|]. destruct (recover_stands _ _ _); by split_and!. }
  clearbody en2. rewrite E3 in F3. clear E1 E2 E3 en1.
  cbn [with_ix en_db]. rewrite F1.
  destruct (if cfg_auth (db_config (en_db en)) then mr_agent_id r else None) as [ns|];
    cbn [with_ix with_db en_ix en_db en_cfg push_sem]; rewrite F2, F3; (split; [|done]); by split; cbn; rewrite ?F1.
Qed.

(** ** The vectors *)

(** What the walk has made of the vectors: those of the records seen, the
    checkpoint's for the rest. *)
Definition sem_over (base : gmap Z (list Z * Z * Z)) (src : gmap Z MemoryRecord) (cs : list SemCall) : Prop :=
  forall id, sem_contents cs !! id = match src !! id with Some r => vectors_of r | None => base !! id end.

(** Below the covered offset the checkpoint already holds the record's vectors;
    without one there is nothing. *)
Definition base_ok (base : gmap Z (list Z * Z * Z)) (sem : option Z) (e : HashEntry) (r : MemoryRecord) : Prop :=
  match sem with
  | Some covered => he_offset e < covered -> base !! mr_id r = vectors_of r
  | None => base !! mr_id r = None
  end.

Lemma sem_contents_app cs cs' : sem_contents (cs ++ cs') = foldl sem_step (sem_contents cs) cs'.
Proof. unfold sem_contents. by rewrite foldl_app. Qed.

Lemma recover_vectors_over base sem e r dims src cs :
  record_wf r -> rec_dims dims r -> base_ok base sem e r -> src !! mr_id r = None -> sem_over base src cs ->
  sem_over base (<[mr_id r := r]> src) (cs ++ recover_vectors dims sem e r).
Proof.
  intros W Hd Hb Hs Ho id. rewrite sem_contents_app. unfold recover_vectors. rewrite (vector_guard dims r W Hd).
  rewrite lookup_insert. specialize (Ho id). unfold base_ok, vectors_of in *.
  destruct sem as [covered|]; [destruct (Z.leb_spec covered (he_offset e)) as [Hle|Hlt]|];
    destruct (has_vectors r) eqn:Ev; cbn [andb foldl sem_step]; rewrite ?lookup_insert, ?lookup_delete;
    (case_decide as Ec; [subst id|done]); rewrite ?Hs in Ho; rewrite ?Ho, ?Ev; auto.
Qed.

(** ** The walk *)

Context (V : Vocab) (io : RebuildIo) (now : Z) (h : HashIndex) (lf : LogFile) (m : gmap Z MemoryRecord) (dims : Z)
  (sem : option Z) (base : gmap Z (list Z * Z * Z)).
Context (Hidx : forall k, index_io_ok (bi_index io k)) (Hfit : vocab_fits V) (Hvoc : forall id r, m !! id = Some r -> rec_vocab V r)
  (Hdims : forall id r, m !! id = Some r -> rec_dims dims r)
  (Hread : forall id e, hi_map h !! id = Some e -> he_deleted e = 0 ->
     exists p r, log_read (bi_rerr io) (bi_lalloc io) lf (he_offset e) = Some p /\ record_decode (bi_dalloc io) p = Some r /\
       m !! id = Some r /\ mr_id r = id /\ record_wf r /\ base_ok base sem e r)
  (Htarget : forall id, target_live h id = true <-> is_Some (m !! id)).

(** The indexes cover the records of [src], the vectors over [base]. *)
Record walked (en : Engine) (src : gmap Z MemoryRecord) : Prop := {
  wk_hash : db_hash (en_db en) = h; wk_log : db_log (en_db en) = lf; wk_dims : ec_dims (en_cfg en) = dims;
  wk_ix : exists cs, ix_between (mkIndexes (ix_time (en_ix en)) (ix_tags (en_ix en)) (ix_lex (en_ix en)) (ix_edges (en_ix en))
            (ix_facts (en_ix en)) (ix_usage (en_ix en)) cs) src m;
  wk_named : ix_named V (en_ix en);
  wk_sem : sem_over base src (ix_sem (en_ix en))
}.

(** The entries still to visit: those of the live records not in [src]. *)
Record to_visit (es : list HashEntry) (src : gmap Z MemoryRecord) : Prop := {
  tv_sub : forall id r, src !! id = Some r -> m !! id = Some r;
  tv_live : forall e, e ∈ es -> he_used e = true -> hi_map h !! he_id e = Some e /\ src !! he_id e = None;
  tv_nodup : NoDup (he_id <$> filter (fun e => he_used e = true) es);
  tv_cover : forall id, is_Some (m !! id) -> is_Some (src !! id) \/ exists e, e ∈ es /\ he_used e = true /\ he_deleted e = 0 /\ he_id e = id
}.

(** Calls that hold the vectors of [m]. *)
Lemma sem_canonical (s : gmap Z MemoryRecord) : exists cs : list SemCall, cs ⊩ s.
Proof.
  induction s as [|i r s Hi IH] using map_ind; [by exists []|]. destruct IH as [cs Hc].
  unfold describes, sem_describes in *. exists (cs ++ match vectors_of r with Some (v, n, d) => [SemAdd i v n d] | None => [] end).
  rewrite sem_contents_app, Hc, omap_insert. destruct (vectors_of r) as [[[v n] d]|]; cbn; [done|].
  rewrite delete_id; [done|]. by rewrite lookup_omap, Hi.
Qed.

Lemma visit_record k en src e p r :
  walked en src -> src !! mr_id r = None -> m !! mr_id r = Some r -> record_wf r -> base_ok base sem e r ->
  walked (recover_record io now sem k en e p r) (<[mr_id r := r]> src).
Proof.
  intros [Wh Wl Wd [cs Wi] Wn Ws] Hs Hm W Hb.
  destruct (recover_record_spec io now sem k en e p r) as [[S1 S2 S3 _ _ _] Ei]. cbn zeta in *.
  destruct (sem_canonical (<[mr_id r := r]> src)) as [cs' Hc].
  edestruct (index_add_spec V (bi_index io k) (fun rl => target_live h (rl_to rl)) _ src m r cs' (Hidx k) Hfit Wi) as [Hx Hn]; try done.
  { by eapply Hvoc. }
  split; [by rewrite S2|by rewrite S3|by rewrite S1| | |].
  - exists cs'. rewrite Ei, Wh. exact Hx.
  - rewrite Ei, Wh. exact Hn.
  - rewrite Ei, Wd. cbn [index_add ix_sem]. by apply recover_vectors_over; [|eapply Hdims| | |].
Qed.

Lemma to_visit_skip e es src :
  to_visit (e :: es) src -> (he_used e = true -> he_deleted e <> 0) -> to_visit es src.
Proof.
  intros [T1 T2 T3 T4] Hd. split; [done| | |].
  - intros x Hx. apply T2. by right.
  - rewrite filter_cons in T3. case_decide; [|done]. cbn [fmap list_fmap] in T3. by apply NoDup_cons in T3 as [_ T3].
  - intros id Hid. destruct (T4 id Hid) as [?|(x & Hx & Hu & Hd' & He)]; [by left|]. right.
    apply elem_of_cons in Hx as [->|Hx]; [by destruct (Hd Hu)|]. by exists x.
Qed.

Lemma to_visit_next e es src r :
  to_visit (e :: es) src -> he_used e = true -> mr_id r = he_id e -> m !! he_id e = Some r -> to_visit es (<[mr_id r := r]> src).
Proof.
  intros [T1 T2 T3 T4] Hu Hr Hm. rewrite Hr. rewrite filter_cons, decide_True in T3 by done. apply NoDup_cons in T3 as [T3 T3'].
  split; [| |done|].
  - intros id x. rewrite lookup_insert. case_decide; [subst; congruence|apply T1].
  - intros x Hx Hux. destruct (T2 x) as [? Hs]; [by right|done|]. split; [done|]. rewrite lookup_insert_ne; [done|].
    intros Heq. apply T3. rewrite Heq. apply list_elem_of_fmap. exists x. split; [done|]. by apply list_elem_of_filter.
  - intros id Hid. destruct (decide (he_id e = id)) as [->|Hne]; [left; by rewrite lookup_insert_eq|]. rewrite lookup_insert_ne by done.
    destruct (T4 id Hid) as [?|(x & Hx & Hux & Hd & He)]; [by left|]. right. apply elem_of_cons in Hx as [->|Hx]; [done|]. by exists x.
Qed.

Lemma pass2_loop_spec es k en src :
  walked en src -> to_visit es src ->
  walked (pass2_loop io now sem k en es) m /\ same_walk en (pass2_loop io now sem k en es).
Proof.
  revert k en src. induction es as [|e es IH]; intros k en src Hw Ht; cbn [pass2_loop].
  { assert (src = m) as ->; [|by split]. apply map_eq. intros id. destruct (src !! id) as [r|] eqn:Es.
    - symmetry. by apply (tv_sub _ _ Ht).
    - destruct (m !! id) eqn:Em; [|done]. destruct (tv_cover _ _ Ht id) as [[? ?]|(? & Hx & _)]; [done|congruence|by apply elem_of_nil in Hx]. }
  destruct (he_used e) eqn:Eu; cbn [negb orb].
  2: { apply (IH _ _ src); [done|]. eapply to_visit_skip; [done|congruence]. }
  destruct (Z.eqb_spec (he_deleted e) 0) as [Ed|Ed]; cbn [negb].
  2: { apply (IH _ _ src); [done|]. by eapply to_visit_skip. }
  destruct (tv_live _ _ Ht e (list_elem_of_here _ _) Eu) as [Hm Hs].
  destruct (Hread _ _ Hm Ed) as (p & r & Hl & Hdec & Hmr & Hid & W & Hb).
  rewrite (wk_log _ _ Hw), Hl, Hdec.
  destruct (IH (S k) (recover_record io now sem k en e (Z.of_nat (length p)) r) (<[mr_id r := r]> src)) as [H1 H2].
  - apply visit_record; try done; by rewrite Hid.
  - by eapply to_visit_next.
  - split; [done|]. etransitivity; [|exact H2]. apply recover_record_spec.
Qed.
End pass2.

(** ** The whole pass *)

Lemma sem_removes cs ids id :
  sem_contents (cs ++ map SemRemove ids) !! id = if decide (id ∈ ids) then None else sem_contents cs !! id.
Proof.
  rewrite sem_contents_app. generalize (sem_contents cs) as s. induction ids as [|i ids IH]; intros s; cbn [map foldl sem_step].
  { by rewrite decide_False by apply not_elem_of_nil. }
  rewrite IH. destruct (decide (id ∈ ids)) as [Hin|Hin]; [by rewrite decide_True by (by right)|].
  rewrite lookup_delete. destruct (decide (i = id)) as [->|Hne]; [by rewrite decide_True by left|].
  rewrite decide_False; [done|]. rewrite elem_of_cons. naive_solver.
Qed.

(** On the contents the calls act as [semantic_index_reconcile] does on the index
    itself ([semantic_index_reconcile_spec]). *)
Lemma sem_reconcile_contents keep cs :
  sem_contents (sem_reconcile true keep cs) = filter (fun p => keep p.1 = true) (sem_contents cs).
Proof.
  apply map_eq. intros id. unfold sem_reconcile. rewrite sem_removes. apply option_eq. intros v. rewrite map_lookup_filter_Some. cbn.
  case_decide as Hin; [|].
  - apply list_elem_of_filter in Hin as [Hk _]. split; [done|]. intros [_ Hk']. congruence.
  - split; [|by intros []]. intros Hv. split; [done|]. destruct (keep id) eqn:E; [done|]. destruct Hin. apply list_elem_of_filter. split; [done|].
    apply list_elem_of_fmap. exists (id, v). split; [done|]. by apply elem_of_map_to_list.
Qed.

(** Once the ids that are not live have left, the vectors are those of [m]. *)
Lemma reconcile_describes keep base m cs :
  sem_over base m cs -> (forall id, keep id = true <-> is_Some (m !! id)) -> sem_reconcile true keep cs ⊩ m.
Proof.
  intros Ho Hk. unfold describes, sem_describes, sem_reconcile. apply map_eq. intros id. rewrite sem_removes, lookup_omap, Ho.
  destruct (m !! id) as [r|] eqn:Em; cbn [mbind option_bind].
  - rewrite decide_False; [done|]. intros Hin. apply list_elem_of_filter in Hin as [Hf _]. rewrite (proj2 (Hk id)) in Hf; [done|by rewrite Em].
  - case_decide as Hin; [done|]. destruct (base !! id) as [v|] eqn:Eb; [|done]. exfalso. apply Hin. apply list_elem_of_filter. split.
    + destruct (keep id) eqn:E; [|done]. apply Hk in E as [? E]. congruence.
    + apply list_elem_of_fmap. exists (id, v). split; [done|]. apply elem_of_map_to_list. by rewrite Ho, Em.
Qed.

Lemma usage_load_describes (u : UsageIndex) m buf : Some u ⊩ m -> fst (usage_index_load_buf (Some u) (Some buf)) ⊩ m.
Proof.
  intros Hu. unfold usage_index_load_buf. destruct (_ <? _)%nat; [done|]. destruct (_ || _); [done|]. cbn zeta. destruct (_ >? _); [done|].
  cbn [fst]. generalize (Z.to_nat (aegis_get_u64le (drop 8 buf))) as n, (drop USG_HDR buf) as p. intros n. revert u Hu.
  induction n as [|n IH]; intros u Hu p; cbn [usg_load_loop]; [done|]. apply IH. destruct Hu as (c & R & Hd).
  unfold load_one. cbn zeta. destruct (pt_find u (aegis_get_u64le p)) as [j|] eqn:Ef; [|by exists c].
  eexists. split; [by apply write_refines|]. intros id. rewrite lookup_insert. case_decide as E; [|apply Hd]. subst id.
  rewrite <- Hd. destruct R as [W Hm]. destruct (slot_of_found u _ j W Ef) as (e0 & _ & _ & Hg & _ & _). rewrite <- Hm, Hg. done.
Qed.

Section restart.
Context `{AeadScheme}.

(** Reads, allocations and the reconciliation's buffer succeed. *)
Record rebuild_io_ok (io : RebuildIo) : Prop := {
  rb_rerr : bi_rerr io = rok; rb_lalloc : bi_lalloc io = aok; rb_dalloc : bi_dalloc io = aok;
  rb_index : forall k, index_io_ok (bi_index io k); rb_keep : bi_keep io = true
}.

(** A checkpoint of the vectors covers the records of a prefix of the log. *)
Definition sem_file_ok (segs : list Seg) (sf : option (list SemCall * Z)) : Prop :=
  match sf with
  | None => True
  | Some (calls, covered) => exists segs1 segs2, segs = segs1 ++ segs2 /\ covered = flen (segs_bytes segs1) /\
      forall id, sem_contents calls !! id = view segs1 id ≫= vectors_of
  end.

Lemma delivered_ge enc off segs o p : Forall (fun s => 0 <= sg_len s) segs -> (o, p) ∈ delivered enc off segs -> off <= o.
Proof.
  intros Hs. revert off. induction Hs as [|s segs H0 _ IH]; intros off Hin; cbn [delivered] in Hin; [by apply elem_of_nil in Hin|].
  assert (0 <= overhead enc) by (by destruct enc).
  destruct (sg_payload s); [apply elem_of_cons in Hin as [[= -> ->]|Hin]|]; [lia|apply IH in Hin; lia..].
Qed.

Lemma segs_len_nonneg enc key segs : Forall (seg_ok enc key) segs -> Forall (fun s => 0 <= sg_len s) segs.
Proof. intros Hs. eapply Forall_impl; [exact Hs|]. intros s Hf. destruct (frame_is_length _ _ _ _ _ Hf). lia. Qed.

(** A live version below the end of a prefix is the prefix's version. *)
Lemma prefix_version db segs1 segs2 id e r :
  db_inv db (segs1 ++ segs2) -> hash_index_get (db_hash db) id = Some e -> view (segs1 ++ segs2) id = Some r ->
  he_offset e < flen (segs_bytes segs1) -> view segs1 id = Some r.
Proof.
  intros Hi Hg Hv Hlt. pose proof (di_log _ _ Hi) as Hl.
  destruct (live_entry_read db (segs1 ++ segs2) [] (db_log db) id e Hi) as (p & r' & Hr & Hdec & Hv' & Hdel); [by rewrite app_nil_r|done|done|].
  assert (r' = r) as -> by congruence. apply get_known in Hg; [|apply Hi]. rewrite (di_map _ _ Hi), delivered_app in Hg.
  pose proof (lh_ok _ _ Hl) as Hok. apply Forall_app in Hok as [Hok1 Hok2].
  rewrite (segs_size_bytes _ _ _ Hok1) in Hg. unfold frames_index in Hg. rewrite foldl_app in Hg.
  apply frames_index_elem in Hg as [Hg|(off & q & x & Hin & _ & -> & _)].
  2: { apply delivered_ge in Hin; [|by eapply segs_len_nonneg]. cbn in Hlt. lia. }
  pose proof (index_pays (delivered (lf_encrypted (db_log db)) 0 segs1) id) as Hp. unfold frames_index in Hp. rewrite Hg, delivered_pays in Hp.
  destruct Hp as (off & q & x & Hin & Hx & _ & -> & Hpay). cbn [frame_entry he_offset he_deleted] in Hr, Hdel.
  assert (log_read rok aok (db_log db) off = Some q) as Hq.
  { apply (acked_read _ (delivered (lf_encrypted (db_log db)) 0 (segs1 ++ segs2))); [by exists (segs1 ++ segs2)|].
    rewrite delivered_app. apply elem_of_app. by left. }
  assert (p = q) as -> by congruence. assert (x = r) as -> by congruence.
  unfold view, answer. rewrite Hpay. cbn [mbind option_bind]. unfold live. rewrite Hdec. by destruct (is_deleted r).
Qed.

(** The first visit list is the whole bucket array. *)
Lemma visit_all db segs m :
  db_inv db segs -> (forall id, m !! id = view segs id) -> to_visit (db_hash db) m (hi_buckets (db_hash db)) ∅.
Proof.
  intros Hi Hm. pose proof (di_hash _ _ Hi) as Hw. assert (store_view db m) as Hsv by (split; by exists segs). split.
  - intros id r. by rewrite lookup_empty.
  - intros e He Hu. split; [|apply lookup_empty]. apply list_elem_of_lookup in He as [j Hj].
    apply (tbl_map_lookup _ _ (hw_table _ Hw)). eauto.
  - apply (used_ids_NoDup _ _ (hw_table _ Hw)).
  - intros id Hid. right. pose proof (view_get db m id Hsv) as Hg. destruct (hash_index_get (db_hash db) id) as [e|] eqn:Eg.
    + destruct Hg as (r & _ & _ & Hd). apply get_known in Eg; [|done]. apply (tbl_map_lookup _ _ (hw_table _ Hw)) in Eg as (j & Hj & Hu & He).
      exists e. split_and!; try done. by apply list_elem_of_lookup; exists j.
    + rewrite Hg in Hid. by destruct Hid.
Qed.

(** The calls and the covered offset a usable checkpoint gives. *)
Definition file_calls (sf : option (list SemCall * Z)) : list SemCall := match sf with Some (calls, _) => calls | None => [] end.

Lemma pass2_reads db segs (m : gmap Z MemoryRecord) io sf :
  db_inv db segs -> (forall id, m !! id = view segs id) -> rebuild_io_ok io -> sem_file_ok segs sf ->
  forall id e, hi_map (db_hash db) !! id = Some e -> he_deleted e = 0 ->
     exists p r, log_read (bi_rerr io) (bi_lalloc io) (db_log db) (he_offset e) = Some p /\ record_decode (bi_dalloc io) p = Some r /\
       m !! id = Some r /\ mr_id r = id /\ record_wf r /\
       base_ok (sem_contents (file_calls sf)) (snd <$> sf) e r.
Proof.
  intros Hi Hm [-> -> -> _ _] Hsf id e He Hd.
  assert (hash_index_get (db_hash db) id = Some e) as Hg by (rewrite get_refines by apply Hi; rewrite He; cbn; by rewrite Hd).
  destruct (live_entry_read db segs [] (db_log db) id e Hi) as (p & r & Hr & Hdec & Hv & _); [rewrite app_nil_r; apply Hi|done|done|].
  rewrite <- Hm in Hv. assert (store_view db m) as Hsv by (split; by exists segs).
  destruct (view_record db m id r Hsv Hv) as ([W _] & Hid & _). exists p, r. split_and!; try done.
  destruct sf as [[calls covered]|]; cbn [fmap option_fmap option_map snd base_ok]; [|apply lookup_empty].
  destruct Hsf as (segs1 & segs2 & -> & -> & Hc). intros Hlt. rewrite Hc, Hid. rewrite Hm in Hv.
  by rewrite (prefix_version db segs1 segs2 id e r Hi Hg Hv Hlt).
Qed.

Lemma sem_file_used db segs sf :
  log_holds (db_log db) segs -> sem_file_ok segs sf ->
  match sf with
  | Some (calls, covered) => if covered <=? lf_size (db_log db) then (calls, Some covered) else ([], None)
  | None => ([], None)
  end = (file_calls sf, snd <$> sf).
Proof.
  intros Hl Hsf. destruct sf as [[cs covered]|]; [|done]. destruct Hsf as (s1 & s2 & -> & -> & _).
  rewrite (lh_size _ _ Hl), segs_bytes_app. unfold flen. rewrite length_app.
  destruct (Z.leb_spec (Z.of_nat (length (segs_bytes s1))) (Z.of_nat (length (segs_bytes s1) + length (segs_bytes s2)))); [done|lia].
Qed.

Lemma walk_start V m dims en calls :
  en_ix en ⊩ ∅ -> ix_named V (en_ix en) -> dims = ec_dims (en_cfg en) ->
  walked V (db_hash (en_db en)) (db_log (en_db en)) m dims (sem_contents calls) (with_ix en (push_sem (en_ix en) calls)) ∅.
Proof.
  intros Hx Hn ->. split; [done|done|done| |done|].
  - exists (ix_sem (en_ix en)). apply ix_between_same in Hx. destruct Hx as [X1 X2 X3 X4 X5 X6 X7]. split; try done.
    cbn. unfold edges_between in *. destruct (ix_edges (en_ix en)) as [e|]; [|done]. destruct X4 as (E & R & HE). exists E. split; [done|].
    intros a b n. rewrite HE. split; intros [(? & ? & Hl & _) _]; by rewrite lookup_empty in Hl.
  - intros id. rewrite lookup_empty. cbn [with_ix en_ix push_sem ix_sem]. rewrite sem_contents_app.
    destruct Hx as [_ _ _ _ _ _ X7]. unfold describes, sem_describes in X7. by rewrite X7, omap_empty.
Qed.

(** From empty indexes, over the database the first pass left. *)
Lemma recovery_pass2_spec V io now sf ufile en segs m :
  db_inv (en_db en) segs -> (forall id, m !! id = view segs id) -> rebuild_io_ok io -> sem_file_ok segs sf ->
  vocab_fits V -> (forall id r, m !! id = Some r -> rec_vocab V r /\ rec_dims (ec_dims (en_cfg en)) r) ->
  en_ix en ⊩ ∅ -> ix_named V (en_ix en) ->
  let en' := recovery_pass2 io now sf ufile en in same_walk en en' /\ en_ix en' ⊩ m.
Proof.
  intros Hi Hm Hio Hsf HV Hr Hx Hn. cbn zeta. assert (store_view (en_db en) m) as Hsv by (split; by exists segs).
  unfold recovery_pass2. rewrite (sem_file_used (en_db en) segs sf (di_log _ _ Hi) Hsf).
  destruct (pass2_loop_spec V io now (db_hash (en_db en)) (db_log (en_db en)) m (ec_dims (en_cfg en)) (snd <$> sf) (sem_contents (file_calls sf))
    (rb_index _ Hio) HV (fun id r E => proj1 (Hr id r E)) (fun id r E => proj2 (Hr id r E)) (pass2_reads _ segs m io sf Hi Hm Hio Hsf)
    (fun id => view_target _ _ id Hsv) (hi_buckets (db_hash (en_db en))) 0 (with_ix en (push_sem (en_ix en) (file_calls sf))) ∅
    (walk_start V m _ en _ Hx Hn eq_refl) (visit_all _ _ _ Hi Hm)) as [[W1 W2 W3 [cs W4] W5 W6] Hsw].
  cbn [with_ix en_db] in *. set (en2 := pass2_loop _ _ _ _ _ _) in *. clearbody en2.
  set (en3 := match snd <$> sf with Some _ => _ | None => en2 end).
  assert (same_walk en2 en3 /\ en_ix en3 ⊩ m) as [Hsw3 X3].
  { destruct W4 as [Y1 Y2 Y3 Y4 Y5 Y6 _].
    destruct sf as [[cs0 covered]|]; cbn [fmap option_fmap option_map] in en3; subst en3; cbn [with_ix en_db en_ix]; (split; [by split|split; try done]).
    - rewrite (rb_keep _ Hio). eapply reconcile_describes; [exact W6|]. intros id. rewrite W1. pose proof (view_get _ _ id Hsv) as Hg.
      destruct (hash_index_get _ id) as [e|]; [destruct Hg as (r & -> & _)|rewrite Hg]; split; try done; by intros [].
    - unfold describes, sem_describes. apply map_eq. intros id. rewrite W6, lookup_omap. destruct (m !! id); [done|]. apply lookup_empty. }
  assert (same_walk en en3) as Hsw' by (etransitivity; [|exact Hsw3]; destruct Hsw; by split).
  clearbody en3. destruct (ix_usage (en_ix en3)) as [u|] eqn:Eu; [|done].
  destruct (ckpt_read _ _ _ _) as [buf|]; [|done]. split; [destruct Hsw'; by split|].
  destruct X3 as [Y1 Y2 Y3 Y4 Y5 Y6 Y7]. split; try done. cbn [with_ix en_ix set_usage ix_usage]. rewrite Eu in Y6. by apply usage_load_describes.
Qed.

(** ** Runs that keep a prefix of the log *)

Definition prefix_view (pre : list Seg) (db : Db) (m : gmap Z MemoryRecord) : Prop :=
  exists more, db_inv db (pre ++ more) /\ forall id, m !! id = view (pre ++ more) id.

Lemma prefix_store pre db m : prefix_view pre db m -> store_view db m.
Proof. intros (more & Hi & Hm). split. by exists (pre ++ more). Qed.

#[export] Instance prefix_view_store pre : RecordStore (prefix_view pre).
Proof.
  split.
  - intros db m id Hp. by apply view_load, (prefix_store pre).
  - intros db m id r Hp. by apply view_record, (prefix_store pre).
  - intros db m id Hp. by apply view_get, (prefix_store pre).
  - intros io db m rec (more & Hi & Hm) Hio Hr Hid _. pose proof (append_step io db rec (pre ++ more) Hi Hio Hr Hid) as Ha.
    destruct (append_and_hash io db rec) as [db' st]. destruct Ha as [Hs [(-> & (s & Hp & Hi') & _)|(Hst & Hi' & _)]]; (split; [done|]).
    + exists (more ++ [s]). rewrite (assoc_L (++)). split; [done|]. intros id.
      by rewrite (view_snoc (pre ++ more) s rec), stored_lookup, Hm by (apply Hr || done).
    + exists more. split; [done|]. by destruct st.
  - intros db m (more & Hi & Hm) Hn. exists more. split; [by apply take_next_id_inv|done].
  - intros db m Hp. eapply view_next_pos. by apply (prefix_store pre).
  - intros db m sync (more & Hi & Hm). destruct (fsync_batched_since (db_log db) sync) as [v ->]. exists more. split; [|done].
    destruct Hi as [[? ? ? ?] ? ? ? ? ?]. by split.
Qed.

(** The file a crash leaves: the one there is, bytes of earlier failed appends
    included, or the same with one more append cut at any byte. *)
Inductive crashed_log (lf : LogFile) : LogFile -> Prop :=
  | crash_between : crashed_log lf lf
  | crash_append payload nonce w lf' :
      LogCorrect.op_ok (OpAppend payload nonce w) -> log_append aok lf payload nonce w = (lf', None) -> crashed_log lf lf'.

Lemma crashed_log_holds lf lf' segs :
  log_holds lf segs -> crashed_log lf lf' ->
  log_holds lf' segs /\ lf_encrypted lf' = lf_encrypted lf /\ lf_key lf' = lf_key lf /\ lf_size lf' = lf_size lf /\
  (flen (lf_disk lf) = lf_size lf \/ silent (reopened lf') (lf_size lf) -> cut_tail lf' segs).
Proof.
  intros Hl Hc. assert (forall lf1, log_holds lf1 segs -> silent (reopened lf1) (lf_size lf) -> cut_tail lf1 segs) as Hsil.
  { intros lf1 H1 Hs. split; [by rewrite <- (lh_size _ _ Hl)|]. destruct (log_holds_split _ _ H1) as (rest & Hd & _). eauto. }
  destruct Hc as [|payload nonce w lf' [Hp Hn] E].
  { split_and!; try done. intros [Hf|Hs]; [by apply cut_tail_full|auto]. }
  assert (exists nc, nonce_ok nc /\ (nonce = Some nc \/ nonce = None)) as (nc & Hnc & Hnn).
  { destruct nonce as [nc|]; [by exists nc; auto|]. exists (replicate 24 0). split; [apply ex_nonce_ok|by right]. }
  destruct (log_append_holds _ _ _ _ _ _ _ nc Hl Hp Hnc Hnn E) as (He & Hk & Hl' & Hsz & Hcut).
  split_and!; try done. intros [Hf|Hs]; [|by apply Hsil]. destruct (Hcut Hf) as (k & Hkl & Hd).
  eapply cut_tail_torn; [|exact Hd]. rewrite He.
  by apply (torn_prefix _ _ _ _ _ _ (frame_bytes_is (lf_encrypted lf) (lf_key lf) nc _ Hp Hnc)).
Qed.

Lemma crashed_log_inv db segs lf' : db_inv db segs -> crashed_log (db_log db) lf' -> db_inv (set_log db lf') segs.
Proof.
  intros Hi Hc. destruct (crashed_log_holds _ _ _ (di_log _ _ Hi) Hc) as (Hl & He & _).
  destruct Hi as [D1 D2 D3 D4 D5 D6]. by split; cbn [set_log db_log db_hash db_next_id db_config db_index_file]; rewrite ?He.
Qed.
End restart.


(** Two notes, the vectors checkpointed after the first, a third insert whose
    append fails behind five bytes of its payload, and an append that the crash
    cuts behind nine bytes of its header. *)
Definition wit_one : Engine := fst (eng_run wit_engine (take 1 wit_ops)).
Definition wit_failed : EngOp := OpInsert (wit_qio (fun i => match i with O => None | _ => Some 5%nat end)) 102 wit_note None 0.
Definition wit_second : list EngOp := take 1 (drop 1 wit_ops) ++ [wit_failed].
Definition wit_rebuild : RebuildIo :=
  mkRebuildIo rok aok aok (fun _ => wit_index_io) (fun _ _ => true) (fun _ => true) (fun _ => (true, true)) true (true, true).
Definition wit_vocab : Vocab := mkVocab ∅ {[ [112] ]}.

Lemma wit_rebuild_ok : rebuild_io_ok wit_rebuild.
Proof. split; try reflexivity. intros k. apply (ik_index _ (wit_qio_ok (fun _ => None))). Qed.

Lemma eng_run_one `{AeadScheme} en op : fst (eng_run en [op]) = fst (eng_step en op).
Proof. cbn. by destruct (eng_step en op). Qed.

Lemma wit_failed_ok en :
  facts_room (ix_facts (en_ix en)) = true -> (db_next_id (en_db en) <? 2 ^ 64 - 1) = true -> op_ok en wit_failed.
Proof. intros Hf Hn. split; [apply wit_qio_ok|]. split; [by apply wit_insertable|]. by split. Qed.

Lemma wit_second_ok : run_ok wit_engine (take 1 wit_ops) /\ run_ok wit_one wit_second.
Proof.
  destruct wit_run_ok as (H1 & H2 & _). split; [split; [exact H1|done]|]. unfold wit_one, wit_second, wit_ops. cbn [take drop app].
  rewrite eng_run_one. split; [exact H2|]. split; [|done]. apply wit_failed_ok; vm_compute; reflexivity.
Qed.

Definition wit_after : Engine := fst (eng_run wit_one wit_second).

Lemma wit_one_run : wit_one = fst (eng_run wit_engine (take 1 wit_ops)).
Proof. unfold wit_one. reflexivity. Qed.

Lemma wit_after_run : wit_after = fst (eng_run wit_one wit_second).
Proof. unfold wit_after. reflexivity. Qed.

(** The failed insert leaves bytes in the file and changes no answer. *)
Lemma wit_after_left : lf_size (db_log (en_db wit_after)) < flen (lf_disk (db_log (en_db wit_after))).
Proof. by vm_compute. Qed.

Lemma wit_after_failed : wit_after = fst (eng_run wit_two [wit_failed]).
Proof. by vm_compute. Qed.

Lemma wit_after_view :
  exists m, store_view (en_db wit_after) m /\ forall id r, m !! id = Some r -> exists i a b c, r = stamp_record wit_note i a b c 0.
Proof.
  rewrite wit_after_failed.
  destruct (eng_run_refines store_view wit_two wit_map [wit_failed] wit_two_ok) as (m & Ha & Hok).
  { split; [apply wit_failed_ok; vm_compute; reflexivity|done]. }
  exists m. split; [apply Hok|]. clear Hok. revert Ha. generalize (snd (eng_run wit_two [wit_failed])) as rs. intros rs Ha.
  inversion Ha as [|? ? ? ? ? m1 ? S1 R1]; subst. inversion R1; subst. clear -S1.
  assert (forall id r, wit_map !! id = Some r -> exists i a b c, r = stamp_record wit_note i a b c 0) as Hw.
  { intros id r. unfold wit_map. rewrite !lookup_insert. repeat case_decide; try done; intros [= <-]; eauto 10. }
  destruct S1 as [[-> _]|(_ & id1 & _ & _ & -> & _)]; [done|]. intros id r. rewrite lookup_insert.
  case_decide; [intros [= <-]; eauto 10|apply Hw].
Qed.

Lemma wit_vocab_fits : vocab_fits wit_vocab.
Proof. split; vm_compute; lia. Qed.

Lemma wit_vocab_ok id r :
  load_record rok aok aok (en_db wit_after) id = inl r -> rec_vocab wit_vocab r /\ rec_dims (ec_dims wit_ec) r.
Proof.
  destruct wit_after_view as (m & Hv & Hm). rewrite (view_load _ _ id Hv). destruct (m !! id) as [x|] eqn:Ex; [|done].
  intros [= <-]. destruct (Hm id x Ex) as (i & a & b & c & ->). split; [|by left]. split; [by apply Forall_nil|].
  intros p [= <-]. split; [cbn [wit_vocab vo_preds]; by apply elem_of_singleton_2|cbn; unfold FACT_MAX_PREDICATE_LEN; lia].
Qed.

Lemma wit_after_sizes : lf_size (db_log (en_db wit_after)) < 2 ^ 63 /\ db_next_id (en_db wit_after) < 2 ^ 64.
Proof. split; by vm_compute. Qed.

Definition wit_crash : LogFile :=
  fst (log_append aok (db_log (en_db wit_after)) [9; 9; 9] None (fun _ => Some 9%nat)).

Lemma wit_crash_ok : crashed_log (db_log (en_db wit_after)) wit_crash.
Proof.
  apply (crash_append _ [9; 9; 9] None (fun _ => Some 9%nat)).
  - apply wit_append_ok; [repeat constructor; lia|cbn; lia|by right].
  - by vm_compute.
Qed.

Lemma wit_crash_silent : silent (reopened wit_crash) (lf_size (db_log (en_db wit_after))).
Proof. by vm_compute. Qed.

