(* ===== verification/Traverse.v ===== *)
(** * Walking the relationship graph

    The breadth-first traversal of [src/query/query_engine.c]: [kind_wanted],
    the frontier, the fixed visited set and [qe_traverse_ex].  Each level
    resolves ids and reads records in one critical section and asks the reverse
    edge index in a second one; other operations may run between the two, so the
    engine each section sees is an argument. *)

From S2P Require Import Prelude Endian HashIndex Record RecordCodec EdgeIndex AeadCorrect Log OpenTable Tenant CkptCrypt Store Engine.

(** ** Parameters and results *)

Inductive TraverseDirection := TRAVERSE_OUT | TRAVERSE_IN | TRAVERSE_BOTH.

Record TraverseParams := mkTraverseParams {
  tp_start_id : Z; tp_depth : Z; tp_agent_filter : option (list Z);
  tp_direction : TraverseDirection; tp_kinds : list (option (list Z))
}.

Record TraverseHop := mkTraverseHop {
  th_depth : Z; th_via_id : Z; th_via_kind : option (list Z); th_via_incoming : bool; th_via_kind_uncertain : bool
}.

Definition TRAVERSE_MAX_NODES : nat := Z.to_nat 8192.
Definition TRAVERSE_SEEN_SLOTS : nat := Z.to_nat 16384.

(** An id to visit and the edge that reached it. *)
Record TravEdge := mkTravEdge {
  te_id : Z; te_via_id : Z; te_via_kind : option (list Z); te_incoming : bool; te_kind_uncertain : bool
}.

(** A record collected and how the walk reached it. *)
Record TravNode := mkTravNode {
  tn_rec : MemoryRecord; tn_depth : Z; tn_via_id : Z; tn_via_kind : option (list Z);
  tn_via_incoming : bool; tn_via_kind_uncertain : bool
}.

(** Outcomes of the calls a walk makes. *)
Record TravIo := mkTravIo {
  tv_seen : bool;                   (* the visited set *)
  tv_frontier : bool;               (* the first frontier *)
  tv_level : nat -> bool;           (* the arrays of a level *)
  tv_acc : nat -> bool;             (* growing the collected nodes at a size *)
  tv_next : nat -> nat -> bool;     (* growing the next frontier of a level *)
  tv_dup : nat -> nat -> bool;      (* copying the label of an entry of it *)
  tv_sources : nat -> bool;         (* the list of sources of a collected node *)
  tv_rerr : Z -> Z -> bool;         (* reads of the log *)
  tv_lalloc : Z -> bool;
  tv_dalloc : Z -> bool;
  tv_result : bool;
  tv_hops : bool
}.

(** ** Helpers *)

Definition kind_wanted (kinds : list (option (list Z))) (kind : option (list Z)) : bool :=
  match kinds, kind with
  | [], _ => true
  | _, None => false
  | _, Some k => existsb (fun w => match w with Some w => bool_decide (w = k) | None => false end) kinds
  end.

(** [travedge_push]: the array and its allocated length; [None] is -1. *)
Definition travedge_push (grow dup : bool) (next : list TravEdge) (cap : nat) (id via_id : Z)
  (via_kind : option (list Z)) (incoming kind_uncertain : bool) : option (list TravEdge * nat) :=
  let e := mkTravEdge id via_id (match via_kind with Some k => if dup then Some k else None | None => None end)
             incoming kind_uncertain in
  if (length next =? cap)%nat then
    if grow then Some (next ++ [e], if (cap =? 0)%nat then 8%nat else (cap * 2)%nat) else None
  else Some (next ++ [e], cap).

(** The visited set: a slot holding 0 is free. *)
Fixpoint seen_probe (n : nat) (tbl : list Z) (id : Z) (i : nat) : list Z * bool :=
  match n with
  | O => (tbl, false)
  | S n' =>
      match tbl !! i with
      | None => (tbl, false)
      | Some x =>
          if x =? 0 then (<[i := id]> tbl, true)
          else if x =? id then (tbl, false)
          else seen_probe n' tbl id (Z.to_nat (Z.land (Z.of_nat i + 1) (Z.of_nat TRAVERSE_SEEN_SLOTS - 1)))
      end
  end.

Definition seen_insert (tbl : list Z) (id : Z) : list Z * bool :=
  seen_probe TRAVERSE_SEEN_SLOTS tbl id (Z.to_nat (Z.land (mix64 id) (Z.of_nat TRAVERSE_SEEN_SLOTS - 1))).

Definition walk_out (p : TraverseParams) : bool := match tp_direction p with TRAVERSE_IN => false | _ => true end.
Definition walk_in (p : TraverseParams) : bool := match tp_direction p with TRAVERSE_OUT => false | _ => true end.

Section walk.
Context `{AeadScheme}.

(** ** One level *)

(** Resolve the ids of the frontier not seen before: the visited set and its
    count, whether the ceiling was met, and the offsets with the edges that
    reached them. *)
Fixpoint resolve_level (h : HashIndex) (front : list TravEdge) (seen : list Z) (seen_n : nat)
  : list Z * nat * bool * list (TravEdge * Z) :=
  match front with
  | [] => (seen, seen_n, false, [])
  | e :: front' =>
      if (TRAVERSE_MAX_NODES <=? seen_n)%nat then (seen, seen_n, true, [])
      else
        let '(seen, fresh) := seen_insert seen (te_id e) in
        if negb fresh then resolve_level h front' seen seen_n
        else
          match hash_index_get h (te_id e) with
          | None => resolve_level h front' seen (S seen_n)
          | Some he =>
              let '(seen', seen_n', capped, hits) := resolve_level h front' seen (S seen_n) in
              (seen', seen_n', capped, (e, he_offset he) :: hits)
          end
  end.

(** The arrays a level grows, with their allocated lengths, and [oom]. *)
Record Walk := mkWalk {
  wk_acc : list TravNode; wk_acc_cap : nat; wk_next : list TravEdge; wk_next_cap : nat; wk_oom : bool
}.

Definition set_oom (w : Walk) : Walk := mkWalk (wk_acc w) (wk_acc_cap w) (wk_next w) (wk_next_cap w) true.

Definition enqueue (io : TravIo) (level : nat) (w : Walk) (id via_id : Z) (via_kind : option (list Z))
  (incoming kind_uncertain : bool) : Walk :=
  let k := length (wk_next w) in
  match travedge_push (tv_next io level k) (tv_dup io level k) (wk_next w) (wk_next_cap w) id via_id via_kind incoming kind_uncertain with
  | None => set_oom w
  | Some (next, cap) => mkWalk (wk_acc w) (wk_acc_cap w) next cap false
  end.

(** Enqueue outgoing neighbours, stopping at the first that does not fit. *)
Fixpoint push_outgoing (io : TravIo) (level : nat) (p : TraverseParams) (from : Z) (rels : list Relationship) (w : Walk) : Walk :=
  match rels with
  | [] => w
  | rl :: rels' =>
      if negb (kind_wanted (tp_kinds p) (rl_kind rl)) then push_outgoing io level p from rels' w
      else
        let w := enqueue io level w (rl_to rl) from (rl_kind rl) false false in
        if wk_oom w then w else push_outgoing io level p from rels' w
  end.

Definition collect_node (io : TravIo) (w : Walk) (n : TravNode) : option Walk :=
  if (length (wk_acc w) =? wk_acc_cap w)%nat then
    if tv_acc io (length (wk_acc w))
    then Some (mkWalk (wk_acc w ++ [n]) (if (wk_acc_cap w =? 0)%nat then 8%nat else (wk_acc_cap w * 2)%nat) (wk_next w) (wk_next_cap w) false)
    else None
  else Some (mkWalk (wk_acc w ++ [n]) (wk_acc_cap w) (wk_next w) (wk_next_cap w) false).

(** Read the resolved records, collect those that pass and enqueue what they
    point at. *)
Fixpoint read_level (io : TravIo) (now : Z) (L : LogFile) (p : TraverseParams) (level : nat)
  (hits : list (TravEdge * Z)) (w : Walk) : Walk :=
  match hits with
  | [] => w
  | (e, off) :: hits' =>
      if wk_oom w then w
      else
        match log_read (tv_rerr io) (tv_lalloc io) L off with
        | None => read_level io now L p level hits' w
        | Some buf =>
            match record_decode (tv_dalloc io) buf with
            | None => read_level io now L p level hits' w
            | Some r =>
                if is_deleted r || record_expired r now || ns_denies (tp_agent_filter p) r
                then read_level io now L p level hits' w
                else
                  match collect_node io w (mkTravNode r (Z.of_nat level) (te_via_id e) (te_via_kind e) (te_incoming e) (te_kind_uncertain e)) with
                  | None => set_oom w
                  | Some w =>
                      let w := if walk_out p then push_outgoing io level p (mr_id r) (mr_relationships r) w else w in
                      read_level io now L p level hits' w
                  end
            end
        end
  end.

Fixpoint push_sources (io : TravIo) (level : nat) (to : Z) (srcs : list EdgeSource) (w : Walk) : Walk :=
  match srcs with
  | [] => w
  | s :: srcs' =>
      let w := enqueue io level w (es_from s) to (es_kind s) true (es_unknown s) in
      if wk_oom w then w else push_sources io level to srcs' w
  end.

(** The reverse expansion of the nodes collected at this level, the first of
    which is node [a] of the walk. *)
Fixpoint expand_in (io : TravIo) (edges : option EdgeIndex) (p : TraverseParams) (level a : nat) (nodes : list TravNode) (w : Walk) : Walk :=
  match nodes with
  | [] => w
  | n :: nodes' =>
      if wk_oom w then w
      else
        match edge_index_sources (tv_sources io a) edges (mr_id (tn_rec n)) (tp_kinds p) with
        | None => set_oom w
        | Some srcs => expand_in io edges p level (S a) nodes' (push_sources io level (mr_id (tn_rec n)) srcs w)
        end
  end.

(** ** The walk *)

(** [enA] and [enB] are the engine in the two critical sections of a level. *)
Definition level_step (io : TravIo) (now : Z) (enA enB : Engine) (p : TraverseParams) (level : nat)
  (front : list TravEdge) (seen : list Z) (seen_n : nat) (acc : list TravNode) (acc_cap : nat)
  : list Z * nat * bool * Walk :=
  let '(seen, seen_n, capped, hits) := resolve_level (db_hash (en_db enA)) front seen seen_n in
  let w := read_level io now (db_log (en_db enA)) p level hits (mkWalk acc acc_cap [] 0 false) in
  let w := if walk_in p && negb (wk_oom w)
           then expand_in io (ix_edges (en_ix enB)) p level (length acc) (drop (length acc) (wk_acc w)) w
           else w in
  (seen, seen_n, capped, w).

(** [n] levels remain. *)
Fixpoint walk_levels (io : TravIo) (now : Z) (world : nat -> Engine * Engine) (p : TraverseParams) (n level : nat)
  (front : list TravEdge) (seen : list Z) (seen_n : nat) (acc : list TravNode) (acc_cap : nat) : list TravNode * bool :=
  match n with
  | O => (acc, false)
  | S n' =>
      if (length front =? 0)%nat then (acc, false)
      else if negb (tv_level io level) then (acc, false)
      else
        let '(seen, seen_n, capped, w) :=
          level_step io now (fst (world level)) (snd (world level)) p level front seen seen_n acc acc_cap in
        if wk_oom w || capped then (wk_acc w, capped)
        else walk_levels io now world p n' (S level) (wk_next w) seen seen_n (wk_acc w) (wk_acc_cap w)
  end.

Definition hop_of (n : TravNode) : TraverseHop :=
  mkTraverseHop (tn_depth n) (tn_via_id n) (tn_via_kind n) (tn_via_incoming n) (tn_via_kind_uncertain n).

(** The records with their hops and the ceiling flag; [want_hops] tells whether
    the caller passed [out_hops]. *)
Definition qe_traverse_ex (io : TravIo) (now : Z) (world : nat -> Engine * Engine) (p : TraverseParams) (want_hops : bool)
  : (list (MemoryRecord * option TraverseHop) * bool) + aegis_status :=
  match require_phase (fst (world 0%nat)) 4 with
  | AEGIS_OK =>
      if walk_in p && match ix_edges (en_ix (fst (world 0%nat))) with None => true | Some _ => false end
      then inr AEGIS_ERR_NOT_READY
      else if negb (tv_frontier io) || negb (tv_seen io) then inr AEGIS_ERR_INTERNAL
      else
        let depth := if tp_depth p <? 0 then 0 else tp_depth p in
        let '(acc, capped) :=
          walk_levels io now world p (Z.to_nat (depth + 1)) 0 [mkTravEdge (tp_start_id p) 0 None false false]
            (replicate TRAVERSE_SEEN_SLOTS 0) 0 [] 0 in
        if negb (tv_result io) || (want_hops && negb (tv_hops io)) then inr AEGIS_ERR_INTERNAL
        else inl (map (fun n => (tn_rec n, if want_hops then Some (hop_of n) else None)) acc, capped)
  | st => inr st
  end.

Definition qe_traverse (io : TravIo) (now : Z) (world : nat -> Engine * Engine) (start_id depth : Z) (agent_filter : option (list Z))
  : list MemoryRecord + aegis_status :=
  match qe_traverse_ex io now world (mkTraverseParams start_id depth agent_filter TRAVERSE_OUT []) false with
  | inl (l, _) => inl (map fst l)
  | inr st => inr st
  end.
End walk.
