(* ===== verification/TraverseCorrect.v ===== *)
(** * What the traversal visits

    The visited set is a set; in a quiet engine the walk is breadth-first search
    of the graph of visible records; in a busy one every record returned was
    visible when its level was read. *)

From S2P Require Import Prelude Endian HashIndex Record RecordCodec EdgeIndex Aead AeadCorrect Log LogCorrect OpenTable Tenant CkptCrypt Store StoreCorrect StoreView Engine EngineIndexes EngineCorrect EngineRefines Traverse.

Local Notation "ix ⊩ m" := (describes ix m) (at level 70).

(** ** The visited set *)

Definition slots (t : list Z) : list (option (Z * unit)) := map (fun x => if x =? 0 then None else Some (x, tt)) t.

Record seen_ok (t : list Z) (S : gset Z) : Prop := {
  so_len : length t = TRAVERSE_SEEN_SLOTS;
  so_wf : ot_wf (slots t);
  so_dom : dom (ot_map (slots t)) = S
}.

Lemma slots_length t : length (slots t) = length t.
Proof. apply length_map. Qed.

Lemma slots_lookup t i : slots t !! i = (fun x => if x =? 0 then None else Some (x, tt)) <$> t !! i.
Proof. apply list_lookup_fmap. Qed.

Lemma seen_slots_pow2 : pow2 TRAVERSE_SEEN_SLOTS.
Proof. exists 14%nat. by vm_compute. Qed.

Lemma seen_loop_stop t id n i :
  length t = TRAVERSE_SEEN_SLOTS -> (i < length t)%nat -> (n < length t)%nat ->
  probe_stops (slots t) id (wadd (length t) i n) = true ->
  (forall d, (d < n)%nat -> probe_stops (slots t) id (wadd (length t) i d) = false) ->
  forall fuel, (n < fuel)%nat ->
  seen_probe fuel t id i =
    match t !! wadd (length t) i n with
    | Some x => if x =? 0 then (<[wadd (length t) i n := id]> t, true) else (t, false)
    | None => (t, false)
    end.
Proof.
  intros Hl. revert i. induction n as [|n IH]; intros i Hi Hn Hs Hd fuel Hf; (destruct fuel as [|fuel]; [lia|]); cbn [seen_probe].
  - assert (wadd (length t) i 0 = i) as E by cyclic. rewrite E in *. unfold probe_stops in Hs. rewrite slots_lookup in Hs.
    destruct (t !! i) as [x|]; [|done]. cbn in Hs. destruct (x =? 0); [done|]. by rewrite Hs.
  - assert (wadd (length t) i 0 = i) as E by cyclic. pose proof (Hd 0%nat ltac:(lia)) as H0. rewrite E in H0.
    unfold probe_stops in H0. rewrite slots_lookup in H0. destruct (t !! i) as [x|]; [|done]. cbn in H0.
    destruct (x =? 0); [done|]. rewrite H0. change (Z.to_nat _) with (ot_next TRAVERSE_SEEN_SLOTS i). rewrite <- Hl, ot_next_wadd by (rewrite ?Hl; try apply seen_slots_pow2; lia).
    assert (forall d, (S d < length t)%nat -> wadd (length t) (wadd (length t) i 1) d = wadd (length t) i (S d)) as Ea by (intros; cyclic).
    rewrite (IH (wadd (length t) i 1)); [by rewrite Ea by lia|cyclic|lia|rewrite Ea by lia; done| |lia].
    intros d Hlt. rewrite Ea by lia. apply Hd. lia.
Qed.

Lemma seen_insert_probe t S id :
  seen_ok t S ->
  exists x, t !! map_probe (slots t) id = Some x /\
    seen_insert t id = (if x =? 0 then (<[map_probe (slots t) id := id]> t, true) else (t, false)).
Proof.
  intros [Hl W Hdom]. destruct (map_probe_spec (slots t) id (ow_pow _ W) (ow_free _ W)) as (n & Hn & E & Hs & Hd).
  rewrite slots_length in *. pose proof (ot_home_lt (length t) id ltac:(rewrite Hl; apply seen_slots_pow2)) as Hh.
  assert (map_probe (slots t) id < length t)%nat as Hp by (rewrite E; by apply wadd_bound).
  destruct (lookup_lt_is_Some_2 t _ Hp) as [x Hx]. exists x. split; [done|]. unfold seen_insert.
  change (Z.to_nat (Z.land (mix64 id) _)) with (ot_home TRAVERSE_SEEN_SLOTS id). rewrite <- Hl.
  rewrite E in Hs. rewrite (seen_loop_stop t id n); [|done|done|done|done|done|lia]. rewrite <- E, Hx. done.
Qed.

Lemma slots_insert t i x : x <> 0 -> slots (<[i := x]> t) = <[i := Some (x, tt)]> (slots t).
Proof. intros Hx. unfold slots. rewrite list_fmap_insert. by destruct (Z.eqb_spec x 0). Qed.

Lemma seen_size t S : seen_ok t S -> length (entries (slots t)) = size S.
Proof. intros [_ W <-]. by rewrite size_dom, ot_map_size. Qed.

(** Inserting tells whether the id is new; 0 always is. *)
Lemma seen_insert_spec t S id :
  seen_ok t S -> (size S + 1 < TRAVERSE_SEEN_SLOTS)%nat ->
  if decide (id = 0) then seen_insert t id = (t, true)
  else if decide (id ∈ S) then seen_insert t id = (t, false)
  else exists t', seen_insert t id = (t', true) /\ seen_ok t' ({[id]} ∪ S).
Proof.
  intros Hok Hsz. destruct (seen_insert_probe t S id Hok) as (x & Hx & ->). pose proof (seen_size _ _ Hok) as He. pose proof Hok as [Hl W Hdom].
  pose proof (map_probe_cases (slots t) id W) as Hc. destruct (ot_map (slots t) !! id) as [[]|] eqn:Em.
  - unfold holds_at in Hc. rewrite slots_lookup, Hx in Hc. cbn in Hc. destruct (Z.eqb_spec x 0) as [|Hne]; [done|]. injection Hc as ->.
    rewrite decide_False by done. rewrite decide_True; [done|]. subst S. apply elem_of_dom. eauto.
  - destruct Hc as [Hf (n & Hn & E & Hd)]. unfold free_at in Hf. rewrite slots_lookup, Hx in Hf. cbn in Hf.
    destruct (Z.eqb_spec x 0) as [->|]; [|done]. destruct (decide (id = 0)) as [->|Hz]; [by rewrite list_insert_id|].
    rewrite decide_False. 2:{ subst S. rewrite elem_of_dom, Em. by intros []. }
    eexists. split; [done|]. pose proof (ot_set_spec (slots t) id tt W) as Hset. unfold ot_set in Hset. rewrite <- slots_insert in Hset by done.
    destruct Hset as [W' Hm]; [left; rewrite slots_length; lia|]. split; [by rewrite length_insert|done|]. by rewrite Hm, dom_insert_L, Hdom.
Qed.

Lemma seen_empty : seen_ok (replicate TRAVERSE_SEEN_SLOTS 0) ∅.
Proof.
  assert (slots (replicate TRAVERSE_SEEN_SLOTS 0) = replicate TRAVERSE_SEEN_SLOTS None) as E by (unfold slots; by rewrite fmap_replicate).
  split; [apply length_replicate| |]; rewrite E; [apply empty_table_wf, seen_slots_pow2|]. unfold ot_map. by rewrite empty_table.
Qed.

(** ** Resolving a level *)

Definition ids_of (l : list TravEdge) : list Z := te_id <$> l.
Definition hit_ids (l : list (TravEdge * Z)) : list Z := (te_id ∘ fst) <$> l.

Record resolved (h : HashIndex) (front : list TravEdge) (S : gset Z) (seen_n : nat)
  (seen' : list Z) (S' : gset Z) (seen_n' : nat) (capped : bool) (hits : list (TravEdge * Z)) : Prop := {
  rv_seen : seen_ok seen' S';
  rv_n : (size S' <= seen_n' <= TRAVERSE_MAX_NODES)%nat;
  rv_mono : S ⊆ S';
  rv_from : forall y, y ∈ S' -> y ∈ S \/ y ∈ ids_of front;
  rv_all : capped = false -> forall y, y ∈ ids_of front -> y <> 0 -> y ∈ S';
  rv_hits : forall e off, (e, off) ∈ hits -> e ∈ front /\ te_id e ∉ S /\ te_id e ∈ S' /\
    exists he, hash_index_get h (te_id e) = Some he /\ off = he_offset he;
  rv_nodup : NoDup (hit_ids hits);
  rv_cover : capped = false -> forall y, y ∈ ids_of front -> y ∉ S -> is_Some (hash_index_get h y) -> y ∈ hit_ids hits;
  rv_count : 0 ∉ ids_of front -> seen_n = size S -> seen_n' = size S';
  rv_capped : capped = true -> seen_n' = TRAVERSE_MAX_NODES;
  rv_grow : (seen_n + length hits <= seen_n')%nat
}.

Lemma resolved_skip h e front S n seen' S' n' capped hits :
  (te_id e = 0 -> False) -> te_id e ∈ S -> resolved h front S n seen' S' n' capped hits -> resolved h (e :: front) S n seen' S' n' capped hits.
Proof.
  intros Hz He [H1 H2 H3 H4 H5 H6 H7 H8 H9 H10 H11]. split; try done.
  - intros y Hy. destruct (H4 y Hy); [by left|right; by right].
  - intros Hc y [->|Hy]%elem_of_cons; [set_solver|by apply H5].
  - intros e' off Hin. destruct (H6 e' off Hin) as (? & ?). split; [by right|done].
  - intros Hc y [->|Hy]%elem_of_cons; [done|by apply H8].
  - intros Hno. apply H9. cbn in Hno. set_solver.
Qed.

(** An id that is new: it enters the set, or is 0 and does not. *)
Lemma resolved_fresh h e front (S S1 : gset Z) n seen' S' n' capped hits (hit : option Z) :
  (n < TRAVERSE_MAX_NODES)%nat -> (te_id e = 0 /\ S1 = S /\ hit = None) \/ (te_id e <> 0 /\ te_id e ∉ S /\ S1 = {[te_id e]} ∪ S) ->
  hit = he_offset <$> hash_index_get h (te_id e) ->
  resolved h front S1 (Datatypes.S n) seen' S' n' capped hits ->
  resolved h (e :: front) S n seen' S' n' capped (match hit with Some off => (e, off) :: hits | None => hits end).
Proof.
  intros Hn Hcase Hhit [H1 H2 H3 H4 H5 H6 H7 H8 H9 H10 H11].
  assert (S ⊆ S1) as HS by (destruct Hcase as [(_ & -> & _)|(_ & _ & ->)]; set_solver).
  assert (te_id e <> 0 -> te_id e ∈ S1) as He by (destruct Hcase as [(? & _)|(_ & _ & ->)]; set_solver).
  assert (forall y, y ∈ S1 -> y ∈ S \/ y = te_id e) as Hback by (destruct Hcase as [(_ & -> & _)|(_ & _ & ->)]; set_solver).
  assert (forall e' off, (e', off) ∈ hits -> e' ∈ e :: front /\ te_id e' ∉ S /\ te_id e' ∈ S' /\
    exists he, hash_index_get h (te_id e') = Some he /\ off = he_offset he) as H6'.
  { intros e' off Hin. destruct (H6 e' off Hin) as (? & ? & ? & ?). split_and!; [by right|set_solver|done|done]. }
  assert (forall y, y ∈ hit_ids hits -> y ∉ S1) as Hns.
  { intros y Hy. apply list_elem_of_fmap in Hy as ([e' off] & -> & Hin). apply (H6 _ _ Hin). }
  split; try done.
  - set_solver.
  - intros y Hy. destruct (H4 y Hy) as [Hy1|?]; [destruct (Hback y Hy1) as [?| ->]; [by left|right; by left]|right; by right].
  - intros Hc y [->|Hy]%elem_of_cons Hy0; [by apply H3, He|by apply H5].
  - intros e' off Hin. destruct hit as [o|]; [|by apply H6'].
    apply elem_of_cons in Hin as [[= -> ->]|Hin]; [|by apply H6']. destruct Hcase as [(_ & _ & ?)|(Hz & Hs & _)]; [done|].
    symmetry in Hhit. apply fmap_Some in Hhit as (he & Hg & ->). split_and!; [by left|done|by apply H3, He|by exists he].
  - destruct hit as [o|]; [|done]. destruct Hcase as [(_ & _ & ?)|(Hz & Hs & ->)]; [done|]. constructor; [|done].
    intros Hin. apply Hns in Hin. cbn in Hin. set_solver.
  - intros Hc y Hy Hns' Hg. apply elem_of_cons in Hy as [->|Hy].
    + destruct hit as [o|]; [by left|]. destruct Hg as [he Hg]. by rewrite Hg in Hhit.
    + assert (y ∈ hit_ids hits \/ y = te_id e) as [Hin| ->].
      { destruct (decide (y ∈ S1)) as [Hin|Hin]; [destruct (Hback y Hin); [done|by right]|left; by apply H8]. }
      * destruct hit; [by right|done].
      * destruct hit as [o|]; [by left|]. destruct Hg as [he Hg]. by rewrite Hg in Hhit.
  - intros Hno ->. apply H9; [cbn in Hno; set_solver|]. destruct Hcase as [(Hz & _)|(_ & Hs & ->)]; [cbn in Hno; set_solver|].
    rewrite size_union, size_singleton by set_solver. done.
  - destruct hit; cbn [length]; lia.
Qed.

Lemma resolve_level_spec h front seen S n :
  hash_index_get h 0 = None -> seen_ok seen S -> (size S <= n <= TRAVERSE_MAX_NODES)%nat ->
  let '(seen', n', capped, hits) := resolve_level h front seen n in exists S', resolved h front S n seen' S' n' capped hits.
Proof.
  intros Hz. revert seen S n. induction front as [|e front IH]; intros seen S n Hok Hn; cbn [resolve_level].
  { exists S. split; try done; try set_solver; [constructor|cbn; lia]. }
  destruct (Nat.leb_spec TRAVERSE_MAX_NODES n) as [Hcap|Hlt].
  { exists S. split; try done; try set_solver; [constructor|lia|cbn; lia]. }
  assert (size S + 1 < TRAVERSE_SEEN_SLOTS)%nat as Hroom by (unfold TRAVERSE_MAX_NODES, TRAVERSE_SEEN_SLOTS in *; lia).
  pose proof (seen_insert_spec seen S (te_id e) Hok Hroom) as Hs. destruct (decide (te_id e = 0)) as [E0|E0].
  - rewrite Hs, E0, Hz. cbn [negb]. specialize (IH seen S (Datatypes.S n) Hok ltac:(lia)).
    destruct (resolve_level h front seen (Datatypes.S n)) as [[[seen' n'] capped] hits]. destruct IH as (S' & HR). exists S'.
    apply (resolved_fresh h e front S S n _ _ _ _ _ None); [done|by left|by rewrite E0, Hz|done].
  - destruct (decide (te_id e ∈ S)) as [Hin|Hni].
    + rewrite Hs. cbn [negb]. specialize (IH seen S n Hok Hn).
      destruct (resolve_level h front seen n) as [[[seen' n'] capped] hits]. destruct IH as (S' & HR). exists S'. by apply resolved_skip.
    + destruct Hs as (t' & -> & Hok'). cbn [negb].
      assert (size ({[te_id e]} ∪ S) <= Datatypes.S n)%nat by (rewrite size_union, size_singleton by set_solver; lia).
      specialize (IH t' _ (Datatypes.S n) Hok' ltac:(lia)).
      destruct (resolve_level h front t' (Datatypes.S n)) as [[[seen' n'] capped] hits]. destruct IH as (S' & HR).
      destruct (hash_index_get h (te_id e)) as [he|] eqn:Hg; exists S'.
      * apply (resolved_fresh h e front S _ n _ _ _ _ _ (Some (he_offset he))) with (2 := or_intror (conj E0 (conj Hni eq_refl))); [done|by rewrite Hg|done].
      * apply (resolved_fresh h e front S _ n _ _ _ _ _ None) with (2 := or_intror (conj E0 (conj Hni eq_refl))); [done|by rewrite Hg|done].
Qed.

(** ** The graph *)

Section graph.
Context (m : gmap Z MemoryRecord) (now : Z) (p : TraverseParams).

(** A live record, not expired, of the namespace asked for. *)
Definition visible (id : Z) (r : MemoryRecord) : Prop :=
  m !! id = Some r /\ record_expired r now = false /\ ns_denies (tp_agent_filter p) r = false.

(** An edge the walk follows from [x] to [y], its label and orientation. *)
Inductive hop (x y : Z) : option (list Z) -> bool -> Prop :=
  | hop_out r rl : walk_out p = true -> m !! x = Some r -> rl ∈ mr_relationships r -> rl_to rl = y ->
      kind_wanted (tp_kinds p) (rl_kind rl) = true -> hop x y (rl_kind rl) false
  | hop_in name : walk_in p = true -> live_edge m y x name -> kinds_match (tp_kinds p) name ->
      hop x y (es_kind (source_of y name)) true.

(** Paths through visible records. *)
Inductive reach : nat -> Z -> Prop :=
  | reach_start : reach 0 (tp_start_id p)
  | reach_step n x y r k inc : reach n x -> visible x r -> hop x y k inc -> reach (S n) y.

Definition dist (n : nat) (y : Z) : Prop := reach n y /\ forall k, (k < n)%nat -> ~ reach k y.

Lemma dist_pred n y : dist (S n) y -> exists x r k inc, dist n x /\ visible x r /\ hop x y k inc.
Proof.
  intros [Hr Hmin]. inversion Hr as [|? x ? r k inc Hx Hv Hh]; subst. exists x, r, k, inc. split; [|done]. split; [done|].
  intros j Hj Hjx. apply (Hmin (S j)); [lia|]. by eapply reach_step.
Qed.

Lemma dist_unique n n' y : dist n y -> dist n' y -> n = n'.
Proof.
  intros [H1 M1] [H2 M2]. destruct (Nat.lt_trichotomy n n') as [Hlt|[?|Hlt]]; [|done|]; exfalso.
  - by eapply M2.
  - by eapply M1.
Qed.

Lemma dist_below n l y : dist n y -> (l <= n)%nat -> exists z, dist l z.
Proof.
  revert y. induction n as [|n IH]; intros y Hd Hl.
  - exists y. by replace l with 0%nat by lia.
  - destruct (decide (l = S n)) as [->|]; [by exists y|]. apply dist_pred in Hd as (x & _ & _ & _ & Hx & _). apply (IH x Hx). lia.
Qed.

(** ** How a record was reached *)

(** A label may be lost when its copy cannot be allocated. *)
Definition label_ok (io : TravIo) (k k' : option (list Z)) : Prop := k' = k \/ (k' = None /\ exists l n, tv_dup io l n = false).

(** [id] reached at distance [d] over the edge described. *)
Definition arrival (io : TravIo) (d : nat) (id via_id : Z) (via_kind : option (list Z)) (incoming uncertain : bool) : Prop :=
  uncertain = false /\
  match d with
  | O => id = tp_start_id p /\ via_id = 0 /\ via_kind = None /\ incoming = false
  | S d' => exists r k, dist d' via_id /\ visible via_id r /\ hop via_id id k incoming /\ label_ok io k via_kind
  end.

Lemma arrival_reach io d id via k inc unc : arrival io d id via k inc unc -> reach d id.
Proof.
  intros [_ Ha]. destruct d as [|d]; [destruct Ha as (-> & _); constructor|]. destruct Ha as (r & k' & [Hr _] & Hv & Hh & _). by eapply reach_step.
Qed.

Definition edge_arrival (io : TravIo) (d : nat) (e : TravEdge) : Prop :=
  arrival io d (te_id e) (te_via_id e) (te_via_kind e) (te_incoming e) (te_kind_uncertain e).

Definition node_id (n : TravNode) : Z := mr_id (tn_rec n).

Definition node_ok (io : TravIo) (d : nat) (n : TravNode) : Prop :=
  tn_depth n = Z.of_nat d /\ visible (node_id n) (tn_rec n) /\ dist d (node_id n) /\
  arrival io d (node_id n) (tn_via_id n) (tn_via_kind n) (tn_via_incoming n) (tn_via_kind_uncertain n).
End graph.

(** ** Growing the frontier *)

Definition allocs_ok (io : TravIo) : Prop :=
  (forall l, tv_level io l = true) /\ (forall n, tv_acc io n = true) /\ (forall l n, tv_next io l n = true) /\ (forall a, tv_sources io a = true).

(** What enqueueing leaves alone, and the entries it adds. *)
Record grows (w w' : Walk) (more : list TravEdge) : Prop := {
  gr_acc : wk_acc w' = wk_acc w;
  gr_cap : wk_acc_cap w' = wk_acc_cap w;
  gr_next : wk_next w' = wk_next w ++ more
}.

Lemma grows_refl w : grows w w [].
Proof. split; [done|done|by rewrite app_nil_r]. Qed.

Lemma grows_trans w1 w2 w3 a b : grows w1 w2 a -> grows w2 w3 b -> grows w1 w3 (a ++ b).
Proof. intros [A1 A2 A3] [B1 B2 B3]. split; [congruence|congruence|]. by rewrite B3, A3, app_assoc. Qed.

Lemma enqueue_spec io level w id via k inc unc :
  wk_oom w = false ->
  let w' := enqueue io level w id via k inc unc in
  (allocs_ok io -> wk_oom w' = false) /\
  if wk_oom w' then grows w w' []
  else exists k', label_ok io k k' /\ grows w w' [mkTravEdge id via k' inc unc].
Proof.
  intros Hoom. unfold enqueue, travedge_push. cbn zeta. set (lab := match k with Some _ => _ | None => _ end).
  assert (label_ok io k lab) as Hl.
  { unfold lab, label_ok. destruct k as [s|]; [|by left]. destruct (tv_dup io level _) eqn:Ed; [by left|right; split; [done|eauto]]. }
  destruct (length (wk_next w) =? wk_next_cap w)%nat.
  - destruct (tv_next io level _) eqn:En; cbn [wk_oom set_oom].
    + split; [done|]. exists lab. split; [done|]. by split.
    + split; [|split; [done|done|by rewrite app_nil_r]]. intros (_ & _ & Hn & _). congruence.
  - cbn [wk_oom]. split; [done|]. exists lab. split; [done|]. by split.
Qed.

(** Each entry added stands for an item pushed; without a failure each item
    has its entry. *)
Lemma push_outgoing_spec io level p from rels w :
  wk_oom w = false ->
  let w' := push_outgoing io level p from rels w in
  (allocs_ok io -> wk_oom w' = false) /\
  exists more, grows w w' more /\
    (forall e, e ∈ more -> exists rl, rl ∈ rels /\ kind_wanted (tp_kinds p) (rl_kind rl) = true /\
       te_id e = rl_to rl /\ te_via_id e = from /\ te_incoming e = false /\ te_kind_uncertain e = false /\ label_ok io (rl_kind rl) (te_via_kind e)) /\
    (wk_oom w' = false -> forall rl, rl ∈ rels -> kind_wanted (tp_kinds p) (rl_kind rl) = true -> rl_to rl ∈ ids_of more).
Proof.
  revert w. induction rels as [|rl rels IH]; intros w Hoom; cbn [push_outgoing].
  { split; [done|]. exists []. split; [apply grows_refl|]. split; [set_solver|]. intros _ rl Hin. set_solver. }
  destruct (kind_wanted (tp_kinds p) (rl_kind rl)) eqn:Ek; cbn [negb].
  2:{ destruct (IH w Hoom) as (Ha & more & Hg & Hs & Hc). split; [done|]. exists more. split; [done|]. split.
      - intros e He. destruct (Hs e He) as (rl' & Hin & ?). exists rl'. split; [by right|done].
      - intros Ho rl' Hin Hw. apply elem_of_cons in Hin as [->|Hin]; [congruence|by apply Hc]. }
  pose proof (enqueue_spec io level w (rl_to rl) from (rl_kind rl) false false Hoom) as Hq. cbn zeta in *.
  set (w1 := enqueue _ _ _ _ _ _ _ _) in *. destruct Hq as [Hq1 Hq2]. destruct (wk_oom w1) eqn:Eo.
  { split; [intros Hal; specialize (Hq1 Hal); congruence|]. exists []. split; [done|]. split; [set_solver|]. congruence. }
  destruct Hq2 as (k' & Hl & Hg1). destruct (IH w1 Eo) as (Ha & more & Hg & Hs & Hc). split; [done|].
  eexists. split; [by eapply grows_trans|]. split.
  - intros e [He|He]%elem_of_app.
    + apply list_elem_of_singleton in He as ->. exists rl. by split_and!; [left|..].
    + destruct (Hs e He) as (rl' & Hin & ?). exists rl'. split; [by right|done].
  - intros Ho rl' Hin Hw. apply elem_of_cons in Hin as [->|Hin]; [by left|]. right. by apply Hc.
Qed.

Lemma push_sources_spec io level to srcs w :
  wk_oom w = false ->
  let w' := push_sources io level to srcs w in
  (allocs_ok io -> wk_oom w' = false) /\
  exists more, grows w w' more /\
    (forall e, e ∈ more -> exists s, s ∈ srcs /\ te_id e = es_from s /\ te_via_id e = to /\ te_incoming e = true /\
       te_kind_uncertain e = es_unknown s /\ label_ok io (es_kind s) (te_via_kind e)) /\
    (wk_oom w' = false -> forall s, s ∈ srcs -> es_from s ∈ ids_of more).
Proof.
  revert w. induction srcs as [|s srcs IH]; intros w Hoom; cbn [push_sources].
  { split; [done|]. exists []. split; [apply grows_refl|]. split; [set_solver|]. intros _ s Hin. set_solver. }
  pose proof (enqueue_spec io level w (es_from s) to (es_kind s) true (es_unknown s) Hoom) as Hq. cbn zeta in *.
  set (w1 := enqueue _ _ _ _ _ _ _ _) in *. destruct Hq as [Hq1 Hq2]. destruct (wk_oom w1) eqn:Eo.
  { split; [intros Hal; specialize (Hq1 Hal); congruence|]. exists []. split; [done|]. split; [set_solver|]. congruence. }
  destruct Hq2 as (k' & Hl & Hg1). destruct (IH w1 Eo) as (Ha & more & Hg & Hs & Hc). split; [done|].
  eexists. split; [by eapply grows_trans|]. split.
  - intros e [He|He]%elem_of_app.
    + apply list_elem_of_singleton in He as ->. exists s. by split_and!; [left|..].
    + destruct (Hs e He) as (s' & Hin & ?). exists s'. split; [by right|done].
  - intros Ho s' [->|Hin]%elem_of_cons; [by left|]. right. by apply Hc.
Qed.

Lemma sources_or_none ok eo to kinds :
  edge_index_sources ok eo to kinds = None \/ edge_index_sources ok eo to kinds = edge_index_sources true eo to kinds.
Proof.
  unfold edge_index_sources. destruct eo as [e|]; [|by right]. destruct (tgt_find e to); [|by right].
  destruct (_ =? 0)%nat; [by right|]. destruct ok; [by right|by left].
Qed.

(** The entry [e] walks a live edge backwards from [x]. *)
Definition in_entry (io : TravIo) (m : gmap Z MemoryRecord) (p : TraverseParams) (x : Z) (e : TravEdge) : Prop :=
  te_via_id e = x /\ te_incoming e = true /\ te_kind_uncertain e = false /\
  exists name, live_edge m (te_id e) x name /\ kinds_match (tp_kinds p) name /\ label_ok io (es_kind (source_of (te_id e) name)) (te_via_kind e).

Lemma expand_in_spec io eo m p level a nodes w :
  eo ⊩ m -> is_Some eo -> wk_oom w = false ->
  let w' := expand_in io eo p level a nodes w in
  (allocs_ok io -> wk_oom w' = false) /\
  exists more, grows w w' more /\
    (forall e, e ∈ more -> exists n, n ∈ nodes /\ in_entry io m p (node_id n) e) /\
    (wk_oom w' = false -> forall n y name, n ∈ nodes -> live_edge m y (node_id n) name -> kinds_match (tp_kinds p) name -> y ∈ ids_of more).
Proof.
  intros Hd [ei ->]. destruct Hd as (E & R & HE). revert a w. induction nodes as [|n nodes IH]; intros a w Hoom; cbn [expand_in].
  { split; [done|]. exists []. split; [apply grows_refl|]. split; [set_solver|]. intros _ n y name Hin. set_solver. }
  rewrite Hoom. fold (node_id n).
  destruct (edge_sources_refines ei E (node_id n) (tp_kinds p) R) as (l & El & _ & _ & Hl).
  destruct (sources_or_none (tv_sources io a) (Some ei) (node_id n) (tp_kinds p)) as [En|En].
  { rewrite En. cbn [set_oom wk_oom]. split.
    - intros (_ & _ & _ & Hs). rewrite Hs, El in En. done.
    - exists []. split; [split; [done|done|by rewrite app_nil_r]|]. split; [set_solver|done]. }
  rewrite En, El. pose proof (push_sources_spec io level (node_id n) l w Hoom) as Hp. cbn zeta in Hp.
  set (w1 := push_sources _ _ _ _ _) in *. destruct Hp as (Hp1 & more1 & Hg1 & Hs1 & Hc1).
  assert (forall e, e ∈ more1 -> in_entry io m p (node_id n) e) as Hin1.
  { intros e He. destruct (Hs1 e He) as (s & Hs & Hid & Hvia & Hinc & Hu & Hlab). apply Hl in Hs as (from & name & Hed & Hk & ->).
    cbn [source_of es_from es_unknown] in Hid, Hu. split_and!; [done|done|done|]. exists name. rewrite Hid. apply HE in Hed. done. }
  destruct (wk_oom w1) eqn:Eo.
  { assert (expand_in io (Some ei) p level (S a) nodes w1 = w1) as -> by (destruct nodes; cbn [expand_in]; by rewrite ?Eo).
    split; [intros Hal; specialize (Hp1 Hal); congruence|]. exists more1. split; [done|]. split; [|congruence].
    intros e He. exists n. split; [left|by apply Hin1]. }
  destruct (IH (S a) w1 Eo) as (Ha & more & Hg & Hs & Hc). split; [done|]. exists (more1 ++ more). split; [by eapply grows_trans|]. split.
  - intros e [He|He]%elem_of_app; [exists n; split; [left|by apply Hin1]|]. destruct (Hs e He) as (n' & ? & ?). exists n'. split; [by right|done].
  - intros Ho n' y name Hin Hle Hk. unfold ids_of. rewrite fmap_app, elem_of_app. apply elem_of_cons in Hin as [->|Hin]; [left|right; by eapply Hc].
    apply (Hc1 eq_refl (source_of y name)). apply Hl. exists y, name. split_and!; [by apply HE|done|done].
Qed.

(** ** Reading a level *)

Definition node_of (m : gmap Z MemoryRecord) (now : Z) (p : TraverseParams) (level : nat) (e : TravEdge) : option TravNode :=
  match m !! te_id e with
  | None => None
  | Some r =>
      if record_expired r now || ns_denies (tp_agent_filter p) r then None
      else Some (mkTravNode r (Z.of_nat level) (te_via_id e) (te_via_kind e) (te_incoming e) (te_kind_uncertain e))
  end.

Section read.
Context `{AeadScheme}.

Definition hit_reads (io : TravIo) (L : LogFile) (m : gmap Z MemoryRecord) (h : TravEdge * Z) : Prop :=
  exists r buf, m !! te_id h.1 = Some r /\ mr_id r = te_id h.1 /\ is_deleted r = false /\
    log_read (tv_rerr io) (tv_lalloc io) L h.2 = Some buf /\ record_decode (tv_dalloc io) buf = Some r.

Lemma collect_node_spec io w n :
  wk_oom w = false ->
  match collect_node io w n with
  | Some w' => wk_acc w' = wk_acc w ++ [n] /\ wk_next w' = wk_next w /\ wk_oom w' = false
  | None => ~ allocs_ok io
  end.
Proof.
  intros Ho. unfold collect_node. destruct (_ =? _)%nat; [|done]. destruct (tv_acc io _) eqn:Ea; [done|]. intros (_ & Hacc & _). congruence.
Qed.

(** The entry [e] follows a relationship of node [n]. *)
Definition out_entry (io : TravIo) (p : TraverseParams) (n : TravNode) (e : TravEdge) : Prop :=
  te_via_id e = node_id n /\ te_incoming e = false /\ te_kind_uncertain e = false /\
  exists rl, rl ∈ mr_relationships (tn_rec n) /\ kind_wanted (tp_kinds p) (rl_kind rl) = true /\ te_id e = rl_to rl /\ label_ok io (rl_kind rl) (te_via_kind e).

Record read_result (io : TravIo) (now : Z) (m : gmap Z MemoryRecord) (p : TraverseParams) (level : nat)
  (hits : list (TravEdge * Z)) (w w' : Walk) (new : list TravNode) (more : list TravEdge) : Prop := {
  rr_new : exists hits1, hits1 `prefix_of` hits /\ new = omap (node_of m now p level ∘ fst) hits1 /\ (wk_oom w' = false -> hits1 = hits);
  rr_acc : wk_acc w' = wk_acc w ++ new;
  rr_next : wk_next w' = wk_next w ++ more;
  rr_sound : forall e, e ∈ more -> walk_out p = true /\ exists n, n ∈ new /\ out_entry io p n e;
  rr_full : wk_oom w' = false -> walk_out p = true -> forall n rl, n ∈ new -> rl ∈ mr_relationships (tn_rec n) ->
    kind_wanted (tp_kinds p) (rl_kind rl) = true -> rl_to rl ∈ ids_of more;
  rr_ok : allocs_ok io -> wk_oom w' = false
}.

(** A hit that is not collected. *)
Lemma read_skip io now m p level e off hits w w' new more :
  node_of m now p level e = None -> read_result io now m p level hits w w' new more -> read_result io now m p level ((e, off) :: hits) w w' new more.
Proof.
  intros Hn [(hits1 & Hp & -> & Ho) H2 H3 H4 H5 H6]. split; try done. exists ((e, off) :: hits1). split; [by apply prefix_cons|].
  split; [cbn; by rewrite Hn|]. intros Hf. by rewrite Ho.
Qed.

Lemma read_stop io now m p level hits w w' new more :
  wk_oom w' = true -> read_result io now m p level [] w w' new more -> read_result io now m p level hits w w' new more.
Proof.
  intros Ho [(hits1 & Hp & -> & _) H2 H3 H4 H5 H6]. split; try done; try congruence. exists hits1. split; [|split; [done|congruence]].
  apply prefix_nil_inv in Hp as ->. apply prefix_nil.
Qed.

Lemma read_level_spec io now L m p level hits w :
  Forall (hit_reads io L m) hits -> wk_oom w = false ->
  exists new more, read_result io now m p level hits w (read_level io now L p level hits w) new more.
Proof.
  intros Hh. revert w. induction Hh as [|[e off] hits (r & buf & Hm & Hid & Hdel & Hrd & Hdec) _ IH]; intros w Hoom; cbn [read_level].
  { exists [], []. split; rewrite ?app_nil_r; set_solver. }
  cbn [fst snd] in *. rewrite Hoom, Hrd, Hdec, Hdel. cbn [orb].
  destruct (record_expired r now || ns_denies (tp_agent_filter p) r) eqn:Ef.
  { destruct (IH w Hoom) as (new & more & HR). exists new, more. apply read_skip; [|done]. unfold node_of. by rewrite Hm, Ef. }
  set (n := mkTravNode r _ _ _ _ _). assert (node_of m now p level e = Some n) as En by (unfold node_of; by rewrite Hm, Ef).
  pose proof (collect_node_spec io w n Hoom) as Hc. destruct (collect_node io w n) as [w1|].
  2:{ exists [], []. split; cbn [set_oom wk_acc wk_next wk_oom]; rewrite ?app_nil_r; try done; try set_solver. exists []. split; [apply prefix_nil|done]. }
  destruct Hc as (Ha1 & Hn1 & Ho1).
  assert (exists w2 more1, (if walk_out p then push_outgoing io level p (mr_id r) (mr_relationships r) w1 else w1) = w2 /\ grows w1 w2 more1 /\
    (forall e', e' ∈ more1 -> walk_out p = true /\ out_entry io p n e') /\ (allocs_ok io -> wk_oom w2 = false) /\
    (wk_oom w2 = false -> walk_out p = true -> forall rl, rl ∈ mr_relationships r -> kind_wanted (tp_kinds p) (rl_kind rl) = true -> rl_to rl ∈ ids_of more1))
    as (w2 & more1 & -> & Hg & Hs1 & Hok1 & Hf1).
  { destruct (walk_out p); [|exists w1, []; split_and!; [done|apply grows_refl|set_solver|done|done]].
    destruct (push_outgoing_spec io level p (mr_id r) (mr_relationships r) w1 Ho1) as (Hal & more1 & Hg & Hs & Hc).
    eexists _, more1. split_and!; [done|done| |done|by intros Ho _; apply Hc].
    intros e' He'. destruct (Hs e' He') as (rl & ? & ? & ? & ? & ? & ? & ?). split; [done|]. split_and!; [done|done|done|]. by exists rl. }
  destruct Hg as [Hg1 _ Hg3]. destruct (wk_oom w2) eqn:Eo.
  { assert (read_level io now L p level hits w2 = w2) as -> by (destruct hits as [|[? ?] ?]; cbn [read_level]; by rewrite ?Eo).
    exists [n], more1. split; rewrite ?Hg1, ?Hg3, ?Ha1, ?Hn1, ?Eo; try done.
    - exists [(e, off)]. split; [apply prefix_cons, prefix_nil|]. split; [cbn; by rewrite En|done].
    - intros e' He'. destruct (Hs1 e' He') as [? ?]. split; [done|]. exists n. split; [left|done]. }
  destruct (IH w2 Eo) as (new & more & [(hits1 & Hp & -> & Ho) H2 H3 H4 H5 H6]). exists (n :: omap (node_of m now p level ∘ fst) hits1), (more1 ++ more).
  split; rewrite ?H2, ?H3, ?Hg1, ?Hg3, ?Ha1, ?Hn1; try done.
  - exists ((e, off) :: hits1). split; [by apply prefix_cons|]. split; [cbn; by rewrite En|]. intros Hf. by rewrite Ho.
  - by rewrite <- app_assoc.
  - by rewrite <- app_assoc.
  - intros e' [He'|He']%elem_of_app.
    + destruct (Hs1 e' He') as [? ?]. split; [done|]. exists n. split; [left|done].
    + destruct (H4 e' He') as (? & n' & ? & ?). split; [done|]. exists n'. split; [by right|done].
  - intros Hf Hw n' rl Hin Hrl Hk. unfold ids_of. rewrite fmap_app, elem_of_app. apply elem_of_cons in Hin as [->|Hin]; [left; by apply Hf1|right; by eapply H5].
Qed.
End read.

(** ** Breadth-first levels *)

Section bfs.
Context `{AeadScheme} (SV : Db -> gmap Z MemoryRecord -> Prop) `{!RecordStore SV}.

Record reads_ok (io : TravIo) : Prop := {
  ro_rerr : tv_rerr io = rok; ro_lalloc : tv_lalloc io = aok; ro_dalloc : tv_dalloc io = aok
}.

Lemma hit_readable io db m e he :
  reads_ok io -> SV db m -> hash_index_get (db_hash db) (te_id e) = Some he -> hit_reads io (db_log db) m (e, he_offset he).
Proof.
  intros [Hr Hl Hd] Hs Hg. unfold hit_reads. rewrite Hr, Hl, Hd. cbn [fst snd]. pose proof (rs_load db m (te_id e) Hs) as Hload. pose proof (rs_get db m (te_id e) Hs) as Hget.
  rewrite Hg in Hget. destruct Hget as (r & Hm & _). destruct (rs_record db m (te_id e) r Hs Hm) as (_ & Hid & Hz & _).
  unfold load_record in Hload. rewrite Hg, Hm in Hload. destruct (log_read rok aok (db_log db) (he_offset he)) as [buf|]; [|done].
  destruct (record_decode aok buf) as [r'|] eqn:Edec; [|done]. injection Hload as ->. exists r, buf. split_and!; try done.
  unfold is_deleted. by rewrite Hz.
Qed.

Lemma get_none db m id : SV db m -> hash_index_get (db_hash db) id = None <-> m !! id = None.
Proof.
  intros Hs. pose proof (rs_get db m id Hs) as Hg. destruct (hash_index_get (db_hash db) id); [|done].
  destruct Hg as (r & Hr & _). rewrite Hr. done.
Qed.

Lemma hits_readable io db m front S n seen' S' n' capped hits :
  reads_ok io -> SV db m -> resolved (db_hash db) front S n seen' S' n' capped hits -> Forall (hit_reads io (db_log db) m) hits.
Proof.
  intros Hr Hs HR. apply Forall_forall. intros [e off] Hin. destruct (rv_hits _ _ _ _ _ _ _ _ _ HR e off Hin) as (_ & _ & _ & he & Hg & ->).
  by eapply hit_readable.
Qed.

Lemma node_of_Some m now p level e n :
  (forall id r, m !! id = Some r -> mr_id r = id) -> node_of m now p level e = Some n ->
  visible m now p (te_id e) (tn_rec n) /\ node_id n = te_id e /\ tn_depth n = Z.of_nat level /\ tn_via_id n = te_via_id e /\
  tn_via_kind n = te_via_kind e /\ tn_via_incoming n = te_incoming e /\ tn_via_kind_uncertain n = te_kind_uncertain e.
Proof.
  intros Hids. unfold node_of, visible, node_id. destruct (m !! te_id e) as [r|] eqn:Hm; [|done].
  destruct (record_expired r now) eqn:Ee, (ns_denies (tp_agent_filter p) r) eqn:En; cbn [orb]; try done. intros [= <-]. cbn. eauto 10.
Qed.

(** The ids of the nodes made from hits. *)
Lemma new_ids m now p level hits :
  (forall id r, m !! id = Some r -> mr_id r = id) ->
  node_id <$> omap (node_of m now p level ∘ fst) hits `sublist_of` hit_ids hits.
Proof.
  intros Hids. induction hits as [|[e off] hits IH]; [done|]. cbn [omap list_omap hit_ids fmap list_fmap compose fst].
  destruct (node_of m now p level e) as [n|] eqn:En; [|by apply sublist_cons].
  destruct (node_of_Some _ _ _ _ _ _ Hids En) as (_ & Hn & _). cbn. rewrite Hn. by apply sublist_skip.
Qed.

Section static.
Context (io : TravIo) (now : Z) (en : Engine) (m : gmap Z MemoryRecord) (p : TraverseParams).
Hypothesis Hok : engine_ok SV en m.
Hypothesis Hreads : reads_ok io.
Hypothesis Hzero : m !! 0 = None.
Hypothesis Hedges : walk_in p = true -> is_Some (ix_edges (en_ix en)).

Local Notation visible := (visible m now p).
Local Notation reach := (reach m now p).
Local Notation dist := (dist m now p).
Local Notation node_ok := (node_ok m now p io).

Definition depth_le (a b : TravNode) : Prop := tn_depth a <= tn_depth b.

(** What has been collected: nodes at their distance, each once, by depth. *)
Record acc_ok (l : nat) (acc : list TravNode) : Prop := {
  ac_nodes : forall n, n ∈ acc -> exists d, (d < l)%nat /\ node_ok d n;
  ac_nodup : NoDup (node_id <$> acc);
  ac_sorted : StronglySorted depth_le acc
}.

Definition acc_full (l : nat) (acc : list TravNode) : Prop :=
  forall d y r, (d < l)%nat -> dist d y -> visible y r -> y ∈ node_id <$> acc.

Record level_inv (l : nat) (front : list TravEdge) (seen : list Z) (S : gset Z) (seen_n : nat) (acc : list TravNode) : Prop := {
  li_seen : seen_ok seen S;
  li_n : (size S <= seen_n <= TRAVERSE_MAX_NODES)%nat;
  li_count : (forall k y, reach k y -> y <> 0) -> seen_n = size S;
  li_set : forall y, y <> 0 -> y ∈ S <-> exists k, (k < l)%nat /\ reach k y;
  li_front : forall e, e ∈ front -> edge_arrival m now p io l e;
  li_cover : forall y, dist l y -> y ∈ ids_of front;
  li_acc : acc_ok l acc;
  li_full : acc_full l acc
}.

Lemma live_ids id r : m !! id = Some r -> mr_id r = id.
Proof. intros Hr. by destruct (rs_record _ _ _ _ (eo_store _ _ _ Hok) Hr) as (_ & ? & _). Qed.

Lemma acc_extend l acc new :
  acc_ok l acc -> (forall n, n ∈ new -> node_ok l n) -> NoDup (node_id <$> new) -> acc_ok (S l) (acc ++ new).
Proof.
  intros [H1 H2 H3] Hn Hd. split.
  - intros n [Hin|Hin]%elem_of_app; [destruct (H1 n Hin) as (d & ? & ?); exists d; split; [lia|done]|]. exists l. split; [lia|by apply Hn].
  - rewrite fmap_app. apply NoDup_app. split; [done|]. split; [|done]. intros y Hy1 Hy2.
    apply list_elem_of_fmap in Hy1 as (a & -> & Ha). apply list_elem_of_fmap in Hy2 as (b & Eb & Hb).
    destruct (H1 a Ha) as (d & Hlt & _ & _ & Hda & _). destruct (Hn b Hb) as (_ & _ & Hdb & _). rewrite <- Eb in Hdb.
    pose proof (dist_unique _ _ _ _ _ _ Hda Hdb). lia.
  - assert (StronglySorted depth_le new) as Hs.
    { clear -Hn. induction new as [|a new IH]; constructor; [apply IH; set_solver|]. apply Forall_forall. intros b Hb. unfold depth_le.
      destruct (Hn a ltac:(left)) as (-> & _). destruct (Hn b ltac:(by right)) as (-> & _). lia. }
    apply StronglySorted_app_2; [|done..]. intros a b Ha Hb. unfold depth_le. destruct (H1 a Ha) as (d & Hlt & -> & _). destruct (Hn b Hb) as (-> & _). lia.
Qed.

(** A node made at level [l] from a hit of the frontier. *)
Lemma level_nodes l front seen S seen_n acc seen' S' n' capped hits n :
  level_inv l front seen S seen_n acc -> resolved (db_hash (en_db en)) front S seen_n seen' S' n' capped hits ->
  n ∈ omap (node_of m now p l ∘ fst) hits -> node_ok l n.
Proof.
  intros Hi HR Hin. apply list_elem_of_omap in Hin as ([e off] & Hhit & Hn). cbn in Hn.
  destruct (node_of_Some _ _ _ _ _ _ live_ids Hn) as (Hv & Hid & Hdep & E1 & E2 & E3 & E4).
  destruct (rv_hits _ _ _ _ _ _ _ _ _ HR e off Hhit) as (Hf & HnS & _ & _). pose proof (li_front _ _ _ _ _ _ Hi e Hf) as Harr.
  assert (te_id e <> 0) as Hz by (intros E; destruct Hv as [Hm _]; rewrite E in Hm; congruence).
  unfold node_ok. rewrite Hid, E1, E2, E3, E4. split_and!; [done|done| |done]. split; [by eapply arrival_reach|].
  intros k Hk Hr. apply HnS. apply (li_set _ _ _ _ _ _ Hi); eauto.
Qed.

Lemma prefix_nodes l (hits hits1 : list (TravEdge * Z)) n :
  hits1 `prefix_of` hits -> n ∈ omap (node_of m now p l ∘ fst) hits1 -> n ∈ omap (node_of m now p l ∘ fst) hits.
Proof. intros [k ->] Hin. rewrite omap_app. set_solver. Qed.

(** A visible record at distance [l] is collected. *)
Lemma level_covers l front seen S seen_n acc seen' S' n' hits y r :
  level_inv l front seen S seen_n acc -> resolved (db_hash (en_db en)) front S seen_n seen' S' n' false hits ->
  dist l y -> visible y r -> exists n, n ∈ omap (node_of m now p l ∘ fst) hits /\ node_id n = y /\ tn_rec n = r.
Proof.
  intros Hi HR Hd Hv. assert (y <> 0) as Hz by (intros ->; destruct Hv; congruence).
  assert (y ∈ hit_ids hits) as Hin.
  { apply (rv_cover _ _ _ _ _ _ _ _ _ HR eq_refl); [by apply (li_cover _ _ _ _ _ _ Hi)| |].
    - intros HyS. apply (li_set _ _ _ _ _ _ Hi) in HyS as (k & Hk & Hr); [|done]. by apply (proj2 Hd k Hk).
    - apply not_eq_None_Some. intros Hn. apply (get_none _ m y (eo_store _ _ _ Hok)) in Hn. destruct Hv. congruence. }
  apply list_elem_of_fmap in Hin as ([e off] & -> & Hin). cbn [compose fst] in *. destruct Hv as (Hm & He & Hn).
  eexists. split; [|split].
  - apply list_elem_of_omap. exists (e, off). split; [done|]. cbn. unfold node_of. by rewrite Hm, He, Hn.
  - unfold node_id. cbn. by apply live_ids.
  - done.
Qed.

Lemma set_next l front seen S seen_n acc seen' S' n' hits :
  level_inv l front seen S seen_n acc -> resolved (db_hash (en_db en)) front S seen_n seen' S' n' false hits ->
  forall y, y <> 0 -> y ∈ S' <-> exists k, (k < Datatypes.S l)%nat /\ reach k y.
Proof.
  intros Hi HR y Hy. split.
  - intros Hin. destruct (rv_from _ _ _ _ _ _ _ _ _ HR y Hin) as [HS|Hf].
    + apply (li_set _ _ _ _ _ _ Hi) in HS as (k & ? & ?); [|done]. exists k. split; [lia|done].
    + apply list_elem_of_fmap in Hf as (e & -> & He). exists l. split; [lia|]. eapply arrival_reach. by apply (li_front _ _ _ _ _ _ Hi).
  - intros (k & Hk & Hr). destruct (decide (y ∈ S)) as [HS|HS]; [by apply (rv_mono _ _ _ _ _ _ _ _ _ HR)|].
    assert (forall j, (j < l)%nat -> ~ reach j y) as Hno by (intros j Hj Hrj; apply HS, (li_set _ _ _ _ _ _ Hi); eauto).
    assert (k = l) as -> by (destruct (decide (k = l)); [done|]; exfalso; apply (Hno k); [lia|done]).
    apply (rv_all _ _ _ _ _ _ _ _ _ HR eq_refl); [by apply (li_cover _ _ _ _ _ _ Hi)|done].
Qed.

Lemma seen_no_zero t S : seen_ok t S -> 0 ∉ S.
Proof.
  intros [_ W <-] Hin. apply elem_of_dom in Hin as [[] Hm]. apply (ot_map_lookup _ _ _ W) in Hm as [j Hj]. unfold holds_at in Hj.
  rewrite slots_lookup in Hj. destruct (t !! j) as [x|]; cbn in Hj; [|done]. by destruct (Z.eqb_spec x 0); simplify_eq.
Qed.

(** A graph of fewer ids than the ceiling does not meet it. *)
Lemma level_uncapped l front seen S seen_n acc seen' S' n' capped hits (X : gset Z) :
  level_inv l front seen S seen_n acc -> resolved (db_hash (en_db en)) front S seen_n seen' S' n' capped hits ->
  0 ∉ X -> (forall k y, reach k y -> y ∈ X) -> (size X < TRAVERSE_MAX_NODES)%nat -> capped = false.
Proof.
  intros Hi HR HX Hall Hsz. destruct capped; [|done]. exfalso.
  assert (forall k y, reach k y -> y <> 0) as Hnz by (intros k y Hr ->; by apply HX, (Hall k)).
  assert (forall y, y ∈ ids_of front -> reach l y) as Hfr.
  { intros y Hy. apply list_elem_of_fmap in Hy as (e & -> & He). eapply arrival_reach. by apply (li_front _ _ _ _ _ _ Hi). }
  pose proof (rv_count _ _ _ _ _ _ _ _ _ HR) as Hc. rewrite Hc in *; [| |by apply (li_count _ _ _ _ _ _ Hi)].
  2:{ intros H0. by apply (Hnz l 0); [apply Hfr|]. }
  pose proof (rv_capped _ _ _ _ _ _ _ _ _ HR eq_refl) as E. assert (S' ⊆ X) as Hsub.
  { intros y Hy. destruct (rv_from _ _ _ _ _ _ _ _ _ HR y Hy) as [HS|Hf]; [|by apply (Hall l), Hfr].
    apply (li_set _ _ _ _ _ _ Hi) in HS as (k & _ & Hr); [by apply (Hall k)|]. intros ->. by apply (seen_no_zero seen S (li_seen _ _ _ _ _ _ Hi)). }
  apply subseteq_size in Hsub. lia.
Qed.

(** The entries a level leaves for the next one. *)
Record next_front (l : nat) (new : list TravNode) (next : list TravEdge) (full : Prop) : Prop := {
  nf_sound : forall e, e ∈ next -> exists n, n ∈ new /\ te_via_id e = node_id n /\ te_kind_uncertain e = false /\
    exists k, hop m p (node_id n) (te_id e) k (te_incoming e) /\ label_ok io k (te_via_kind e);
  nf_full : full -> forall n y k inc, n ∈ new -> hop m p (node_id n) y k inc -> y ∈ ids_of next
}.

Lemma level_expand l hits acc cap new more w :
  read_result io now m p l hits (mkWalk acc cap [] 0 false) w new more -> (forall n, n ∈ new -> m !! node_id n = Some (tn_rec n)) ->
  let w' := if walk_in p && negb (wk_oom w) then expand_in io (ix_edges (en_ix en)) p l (length acc) (drop (length acc) (wk_acc w)) w else w in
  wk_acc w' = acc ++ new /\ (allocs_ok io -> wk_oom w' = false) /\ (wk_oom w' = false -> wk_oom w = false) /\
  next_front l new (wk_next w') (wk_oom w' = false).
Proof.
  intros HR Hlive. pose proof HR as [_ Ha Hn Hs Hf Hal]. cbn [wk_acc wk_next app] in Ha, Hn.
  assert (forall e, e ∈ more -> exists n, n ∈ new /\ te_via_id e = node_id n /\ te_kind_uncertain e = false /\
    exists k, hop m p (node_id n) (te_id e) k (te_incoming e) /\ label_ok io k (te_via_kind e)) as Hout.
  { intros e He. destruct (Hs e He) as (Hw & n & Hin & Hv & Hi & Hu & rl & Hrl & Hk & Hid & Hlab). exists n. split_and!; try done.
    exists (rl_kind rl). split; [|done]. rewrite Hi. eapply hop_out; try done. by apply Hlive. }
  destruct (walk_in p) eqn:Ein; cbn [andb].
  2:{ cbn zeta. split_and!; [done|done|done|]. rewrite Hn. split; [done|]. intros Ho n y k inc Hin Hh.
      inversion Hh as [r rl Hw Hm Hrl Hto Hk|]; subst; [|congruence]. rewrite (Hlive n Hin) in Hm. injection Hm as <-. by eapply Hf. }
  destruct (wk_oom w) eqn:Eo; cbn [negb].
  { cbn zeta. rewrite Eo. split_and!; [done|by intros ?%Hal|done|]. rewrite Hn. split; [done|]. done. }
  rewrite Ha, drop_app_length. destruct (expand_in_spec io _ m p l (length acc) new w (xo_edges _ _ (eo_ix _ _ _ Hok)) (Hedges eq_refl) Eo) as (Hal' & more' & [G1 _ G3] & Hs' & Hf').
  cbn zeta in *. split_and!; [by rewrite G1|done|done|]. rewrite G3, Hn. split.
  - intros e [He|He]%elem_of_app; [by apply Hout|]. destruct (Hs' e He) as (n & Hin & Hv & Hi & Hu & name & Hle & Hk & Hlab).
    exists n. split_and!; try done. eexists. split; [|exact Hlab]. rewrite Hi. by apply hop_in.
  - intros Ho n y k inc Hin Hh. unfold ids_of. rewrite fmap_app, elem_of_app. inversion Hh as [r rl Hw Hm Hrl Hto Hk|name Hw Hle Hk]; subst.
    + left. rewrite (Hlive n Hin) in Hm. injection Hm as <-. by eapply Hf.
    + right. by eapply Hf'.
Qed.

Lemma level_step_spec l front seen S seen_n acc cap :
  level_inv l front seen S seen_n acc ->
  let '(seen', n', capped, w) := level_step io now en en p l front seen seen_n acc cap in
  acc_ok (Datatypes.S l) (wk_acc w) /\ (allocs_ok io -> wk_oom w = false) /\
  (forall X : gset Z, 0 ∉ X -> (forall k y, reach k y -> y ∈ X) -> (size X < TRAVERSE_MAX_NODES)%nat -> capped = false) /\
  (wk_oom w = false -> capped = false -> exists S', level_inv (Datatypes.S l) (wk_next w) seen' S' n' (wk_acc w)).
Proof.
  intros Hi. unfold level_step. pose proof (get_none _ m 0 (eo_store _ _ _ Hok)) as Hg0.
  pose proof (resolve_level_spec (db_hash (en_db en)) front seen S seen_n (proj2 Hg0 Hzero) (li_seen _ _ _ _ _ _ Hi) (li_n _ _ _ _ _ _ Hi)) as HR.
  destruct (resolve_level _ front seen seen_n) as [[[seen' n'] capped] hits]. destruct HR as (S' & HR).
  destruct (read_level_spec io now (db_log (en_db en)) m p l hits (mkWalk acc cap [] 0 false)
    (hits_readable io _ m _ _ _ _ _ _ _ _ Hreads (eo_store _ _ _ Hok) HR) eq_refl) as (new & more & Hrr).
  set (w := read_level _ _ _ _ _ _ _) in *. destruct (rr_new _ _ _ _ _ _ _ _ _ _ Hrr) as (hits1 & Hpre & Hnew & Hwhole).
  assert (forall n, n ∈ new -> node_ok l n) as Hnodes.
  { intros n Hin. rewrite Hnew in Hin. eapply level_nodes; [done|exact HR|]. by eapply prefix_nodes. }
  assert (NoDup (node_id <$> new)) as Hnd.
  { rewrite Hnew. eapply sublist_NoDup; [|apply new_ids, live_ids]. eapply sublist_NoDup; [apply (rv_nodup _ _ _ _ _ _ _ _ _ HR)|].
    destruct Hpre as [k ->]. unfold hit_ids. rewrite fmap_app. apply sublist_inserts_r. done. }
  destruct (level_expand l hits acc cap new more w Hrr) as (Ha & Hal & Hmono & Hnext); [intros n Hin; by apply (Hnodes n Hin)|].
  set (w' := if walk_in p && _ then _ else _) in *. rewrite Ha. pose proof (acc_extend l acc new (li_acc _ _ _ _ _ _ Hi) Hnodes Hnd) as Hacc.
  split_and!; [done|done|intros X; by eapply level_uncapped|]. intros Ho ->. exists S'. pose proof (set_next _ _ _ _ _ _ _ _ _ _ Hi HR) as Hset.
  rewrite (Hwhole (Hmono Ho)) in Hnew.
  assert (forall y r, dist l y -> visible y r -> exists n, n ∈ new /\ node_id n = y) as Hcov.
  { intros y r Hd Hv. destruct (level_covers _ _ _ _ _ _ _ _ _ _ y r Hi HR Hd Hv) as (n & Hin & Hid & _). exists n. by rewrite Hnew. }
  split; try done.
  - apply HR.
  - apply HR.
  - intros Hnz. apply (rv_count _ _ _ _ _ _ _ _ _ HR); [|by apply (li_count _ _ _ _ _ _ Hi)]. intros H0.
    apply list_elem_of_fmap in H0 as (e & E0 & He). eapply (Hnz l 0); [|done]. rewrite E0. eapply arrival_reach. by apply (li_front _ _ _ _ _ _ Hi).
  - intros e He. destruct (nf_sound _ _ _ _ Hnext e He) as (n & Hin & Hv & Hu & k & Hh & Hlab). split; [done|].
    destruct (Hnodes n Hin) as (_ & Hvis & Hd & _). exists (tn_rec n), k. by rewrite Hv.
  - intros y Hd. apply dist_pred in Hd as (x & r & k & inc & Hdx & Hvx & Hh). destruct (Hcov x r Hdx Hvx) as (n & Hin & <-).
    by eapply (nf_full _ _ _ _ Hnext).
  - intros d y r Hd Hdy Hv. rewrite fmap_app, elem_of_app. destruct (decide (d = l)) as [->|]; [right|left].
    + destruct (Hcov y r Hdy Hv) as (n & Hin & <-). by apply list_elem_of_fmap_2.
    + eapply (li_full _ _ _ _ _ _ Hi d); [lia|done|done].
Qed.

Lemma walk_levels_spec n l front seen S seen_n acc cap :
  level_inv l front seen S seen_n acc ->
  let '(acc', capped) := walk_levels io now (fun _ => (en, en)) p n l front seen seen_n acc cap in
  acc_ok (l + n) acc' /\
  (forall X : gset Z, 0 ∉ X -> (forall k y, reach k y -> y ∈ X) -> (size X < TRAVERSE_MAX_NODES)%nat -> capped = false) /\
  (allocs_ok io -> capped = false -> acc_full (l + n) acc').
Proof.
  revert l front seen S seen_n acc cap. induction n as [|n IH]; intros l front seen S seen_n acc cap Hi; cbn [walk_levels].
  { rewrite Nat.add_0_r. split_and!; [apply Hi|done|intros _ _; apply Hi]. }
  assert (acc_ok (l + Datatypes.S n) acc) as Hacc.
  { destruct (li_acc _ _ _ _ _ _ Hi) as [H1 H2 H3]. split; [|done|done]. intros x Hx. destruct (H1 x Hx) as (d & ? & ?). exists d. split; [lia|done]. }
  destruct (Nat.eqb_spec (length front) 0) as [E0|_].
  { apply nil_length_inv in E0 as ->. split_and!; [done|done|]. intros _ _ d y r Hd Hdy Hv.
    destruct (decide (d < l)%nat) as [Hlt|Hge]; [by eapply (li_full _ _ _ _ _ _ Hi)|]. exfalso.
    destruct (dist_below _ _ _ _ l _ Hdy) as [z Hz]; [lia|]. apply (li_cover _ _ _ _ _ _ Hi) in Hz. by apply not_elem_of_nil in Hz. }
  destruct (tv_level io l) eqn:El; cbn [negb]; [|split_and!; [done|done|intros [Hl _]; congruence]].
  cbn [fst snd]. pose proof (level_step_spec l front seen S seen_n acc cap Hi) as Hs.
  destruct (level_step io now en en p l front seen seen_n acc cap) as [[[seen' n'] capped] w]. destruct Hs as (Ha & Hal & Hcap & Hnext).
  assert (acc_ok (l + Datatypes.S n) (wk_acc w)) as Hacc'.
  { destruct Ha as [H1 H2 H3]. split; [|done|done]. intros x Hx. destruct (H1 x Hx) as (d & ? & ?). exists d. split; [lia|done]. }
  destruct (wk_oom w) eqn:Eo; [cbn [orb]; split_and!; [done|done|by intros ?%Hal]|]. destruct capped; cbn [orb].
  { split_and!; done. }
  destruct (Hnext eq_refl eq_refl) as (S' & Hi'). rewrite Nat.add_succ_r. by apply (IH (Datatypes.S l) _ _ S').
Qed.

Lemma level_inv_start :
  level_inv 0 [mkTravEdge (tp_start_id p) 0 None false false] (replicate TRAVERSE_SEEN_SLOTS 0) ∅ 0 [].
Proof.
  split.
  - apply seen_empty.
  - rewrite size_empty. lia.
  - by rewrite size_empty.
  - intros y _. split; [set_solver|]. intros (k & ? & _). lia.
  - intros e He. apply list_elem_of_singleton in He as ->. by split.
  - intros y [Hr _]. inversion Hr; subst. by left.
  - split; [set_solver|constructor|constructor].
  - intros d y r Hd. lia.
Qed.
End static.

(** ** Walks among other operations *)

Lemma enqueue_acc io level w id via k inc unc : wk_acc (enqueue io level w id via k inc unc) = wk_acc w.
Proof. unfold enqueue. by destruct (travedge_push _ _ _ _ _ _ _ _ _) as [[? ?]|]. Qed.

Lemma push_sources_acc io level to srcs w : wk_acc (push_sources io level to srcs w) = wk_acc w.
Proof.
  revert w. induction srcs as [|s srcs IH]; intros w; [done|]. cbn [push_sources].
  destruct (wk_oom (enqueue _ _ _ _ _ _ _ _)); [apply enqueue_acc|]. rewrite IH. apply enqueue_acc.
Qed.

Lemma expand_in_acc io eo p level a nodes w : wk_acc (expand_in io eo p level a nodes w) = wk_acc w.
Proof.
  revert a w. induction nodes as [|n nodes IH]; intros a w; [done|]. cbn [expand_in]. destruct (wk_oom w); [done|].
  destruct (edge_index_sources _ _ _ _); [|done]. by rewrite IH, push_sources_acc.
Qed.

Section dynamic.
Context (io : TravIo) (now : Z) (world : nat -> Engine * Engine) (ms : nat -> gmap Z MemoryRecord) (p : TraverseParams).
Hypothesis Hstore : forall l, SV (en_db (fst (world l))) (ms l).
Hypothesis Hreads : reads_ok io.
Hypothesis Hzero : forall l, ms l !! 0 = None.

Record busy_inv (acc : list TravNode) (seen : list Z) (S : gset Z) (seen_n : nat) : Prop := {
  bi_seen : seen_ok seen S;
  bi_n : (size S <= seen_n <= TRAVERSE_MAX_NODES)%nat;
  bi_len : (length acc <= seen_n)%nat;
  bi_in : forall n, n ∈ acc -> node_id n ∈ S;
  bi_nodup : NoDup (node_id <$> acc);
  bi_vis : forall n, n ∈ acc -> exists l, tn_depth n = Z.of_nat l /\ visible (ms l) now p (node_id n) (tn_rec n)
}.

Lemma busy_level l front seen S seen_n acc cap :
  busy_inv acc seen S seen_n ->
  let '(seen', n', capped, w) := level_step io now (fst (world l)) (snd (world l)) p l front seen seen_n acc cap in
  exists S', busy_inv (wk_acc w) seen' S' n'.
Proof.
  intros [B1 B2 B3 B4 B5 B6]. unfold level_step. set (en := fst (world l)).
  assert (forall id r, ms l !! id = Some r -> mr_id r = id) as Hids.
  { intros id r Hr. by destruct (rs_record _ _ _ _ (Hstore l) Hr) as (_ & ? & _). }
  pose proof (resolve_level_spec (db_hash (en_db en)) front seen S seen_n (proj2 (get_none _ _ 0 (Hstore l)) (Hzero l)) B1 B2) as HR.
  destruct (resolve_level _ front seen seen_n) as [[[seen' n'] capped] hits]. destruct HR as (S' & HR).
  destruct (read_level_spec io now (db_log (en_db en)) (ms l) p l hits (mkWalk acc cap [] 0 false)
    (hits_readable io _ _ _ _ _ _ _ _ _ _ Hreads (Hstore l) HR) eq_refl) as (new & more & Hrr).
  set (w := read_level _ _ _ _ _ _ _) in *. destruct (rr_new _ _ _ _ _ _ _ _ _ _ Hrr) as (hits1 & Hpre & Hnew & _).
  assert (wk_acc (if walk_in p && negb (wk_oom w) then expand_in io (ix_edges (en_ix (snd (world l)))) p l (length acc) (drop (length acc) (wk_acc w)) w else w) = acc ++ new) as ->.
  { pose proof (rr_acc _ _ _ _ _ _ _ _ _ _ Hrr) as Ha. cbn [wk_acc] in Ha. rewrite <- Ha. destruct (_ && _); [apply expand_in_acc|done]. }
  assert (node_id <$> new `sublist_of` hit_ids hits) as Hsub.
  { rewrite Hnew. etrans; [by apply new_ids|]. destruct Hpre as [k ->]. unfold hit_ids. rewrite fmap_app. by apply sublist_inserts_r. }
  assert (forall n, n ∈ new -> node_id n ∉ S /\ node_id n ∈ S') as Hin.
  { intros n Hn. apply (list_elem_of_fmap_2 node_id) in Hn. eapply elem_of_submseteq in Hn; [|by apply sublist_submseteq].
    apply list_elem_of_fmap in Hn as ([e off] & -> & Hh). cbn. by destruct (rv_hits _ _ _ _ _ _ _ _ _ HR e off Hh) as (_ & ? & ? & _). }
  exists S'. split.
  - apply HR.
  - apply HR.
  - pose proof (rv_grow _ _ _ _ _ _ _ _ _ HR). apply sublist_length in Hsub. unfold hit_ids in Hsub. rewrite !length_fmap in Hsub. rewrite length_app. lia.
  - intros n [Hn|Hn]%elem_of_app; [by apply (rv_mono _ _ _ _ _ _ _ _ _ HR), B4|by apply Hin].
  - rewrite fmap_app. apply NoDup_app. split; [done|]. split; [|by eapply sublist_NoDup; [apply (rv_nodup _ _ _ _ _ _ _ _ _ HR)|]].
    intros y Hy1 Hy2. apply list_elem_of_fmap in Hy1 as (a & -> & Ha). apply list_elem_of_fmap in Hy2 as (b & Eb & Hb).
    apply B4 in Ha. destruct (Hin b Hb) as [Hb' _]. congruence.
  - intros n [Hn|Hn]%elem_of_app; [by apply B6|]. exists l. rewrite Hnew in Hn. apply list_elem_of_omap in Hn as ([e off] & _ & Hn). cbn in Hn.
    destruct (node_of_Some _ _ _ _ _ _ Hids Hn) as (Hv & Hid & Hd & _). rewrite Hid. done.
Qed.

Lemma busy_walk n l front seen S seen_n acc cap :
  busy_inv acc seen S seen_n ->
  exists seen' S' n', busy_inv (fst (walk_levels io now world p n l front seen seen_n acc cap)) seen' S' n'.
Proof.
  revert l front seen S seen_n acc cap. induction n as [|n IH]; intros l front seen S seen_n acc cap Hi; cbn [walk_levels]; [by exists seen, S, seen_n|].
  destruct (_ =? 0)%nat; [by exists seen, S, seen_n|]. destruct (negb _); [by exists seen, S, seen_n|].
  pose proof (busy_level l front seen S seen_n acc cap Hi) as Hs.
  destruct (level_step io now _ _ p l front seen seen_n acc cap) as [[[seen' n'] capped] w]. destruct Hs as (S' & Hs).
  destruct (_ || _); [by exists seen', S', n'|]. by eapply IH.
Qed.
End dynamic.
End bfs.

(** ** Theorems *)

(** The calls outside the walk succeed. *)
Definition started (io : TravIo) (en : Engine) (p : TraverseParams) : Prop :=
  4 <= ec_phase (en_cfg en) /\ (walk_in p = true -> is_Some (ix_edges (en_ix en))) /\
  tv_seen io = true /\ tv_frontier io = true /\ tv_result io = true /\ tv_hops io = true.

Lemma traverse_started `{AeadScheme} io now world p :
  started io (fst (world 0%nat)) p ->
  qe_traverse_ex io now world p true =
    (let '(acc, capped) := walk_levels io now world p (Z.to_nat (Z.max 0 (tp_depth p) + 1)) 0
       [mkTravEdge (tp_start_id p) 0 None false false] (replicate TRAVERSE_SEEN_SLOTS 0) 0 [] 0 in
     inl (map (fun n => (tn_rec n, Some (hop_of n))) acc, capped)).
Proof.
  intros (Hph & He & Hs & Hf & Hr & Hh). unfold qe_traverse_ex, require_phase. rewrite (proj2 (Z.leb_le _ _)) by done.
  rewrite Hs, Hf, Hr, Hh. assert (walk_in p && match ix_edges (en_ix (fst (world 0%nat))) with None => true | Some _ => false end = false) as ->.
  { destruct (walk_in p); [|done]. by destruct (He eq_refl) as [? ->]. }
  assert ((if tp_depth p <? 0 then 0 else tp_depth p) = Z.max 0 (tp_depth p)) as -> by (case_if; lia). done.
Qed.

(** C13: Traversal is breadth-first search of the visible graph. Over records
    that do not change meanwhile, whatever allocation fails, each record returned
    is live, unexpired, of the namespace asked for, returned once and in order of
    depth; its depth is the length of the shortest path from the start through
    visible records along the edges asked for, and its hop names a visible record
    one step nearer and the edge between them. When no allocation fails and the
    ceiling is not reported, every visible record within the depth is returned;
    and the ceiling is not reported when fewer than [TRAVERSE_MAX_NODES] ids can
    be reached. *)
Theorem traverse_exact `{AeadScheme} io now en m p :
  engine_ok store_view en m -> reads_ok io -> m !! 0 = None -> started io en p ->
  exists out capped, qe_traverse_ex io now (fun _ => (en, en)) p true = inl (out, capped) /\
    NoDup ((mr_id ∘ fst) <$> out) /\
    StronglySorted (fun a b => default 0 (th_depth <$> a.2) <= default 0 (th_depth <$> b.2)) out /\
    (forall r h, (r, h) ∈ out -> exists d hp, h = Some hp /\ th_depth hp = Z.of_nat d /\ Z.of_nat d <= Z.max 0 (tp_depth p) /\
       visible m now p (mr_id r) r /\ dist m now p d (mr_id r) /\
       arrival m now p io d (mr_id r) (th_via_id hp) (th_via_kind hp) (th_via_incoming hp) (th_via_kind_uncertain hp)) /\
    (allocs_ok io -> capped = false -> forall d y r, Z.of_nat d <= Z.max 0 (tp_depth p) -> dist m now p d y -> visible m now p y r -> r ∈ fst <$> out) /\
    (forall X : gset Z, 0 ∉ X -> (forall k y, reach m now p k y -> y ∈ X) -> (size X < TRAVERSE_MAX_NODES)%nat -> capped = false).
Proof.
  intros Hok Hr Hz Hst. pose proof (traverse_started io now (fun _ => (en, en)) p Hst) as ->. destruct Hst as (_ & He & _).
  pose proof (walk_levels_spec store_view io now en m p Hok Hr Hz He (Z.to_nat (Z.max 0 (tp_depth p) + 1)) 0 _ _ _ _ _ 0%nat (level_inv_start store_view io now en m p Hok Hr Hz He)) as Hw.
  destruct (walk_levels _ _ _ _ _ _ _ _ _ _ _) as [acc capped]. destruct Hw as ([H1 H2 H3] & Hcap & Hfull).
  eexists _, capped. split; [done|]. split_and!.
  - by rewrite <- list_fmap_compose.
  - clear -H3. induction H3 as [|a acc _ IH Hf]; cbn [map]; constructor; [done|]. apply Forall_fmap. exact Hf.
  - intros r h Hin. apply list_elem_of_fmap in Hin as (n & [= -> ->] & Hn). destruct (H1 n Hn) as (d & Hd & E & Hv & Hdist & Ha).
    exists d, (hop_of n). split_and!; try done. lia.
  - intros Hal Hc d y r Hd Hdist Hv. assert (y ∈ node_id <$> acc) as Hin by (eapply (Hfull Hal Hc d); [lia|done|done]).
    apply list_elem_of_fmap in Hin as (n & -> & Hn). destruct (H1 n Hn) as (_ & _ & _ & Hvn & _).
    assert (tn_rec n = r) as <- by (destruct Hv, Hvn; congruence). rewrite <- list_fmap_compose. by apply list_elem_of_fmap_2.
  - done.
Qed.

(** Traversal stays inside its namespace whatever runs beside it. Records
    may be written, deleted and related between the levels of a walk; every
    record returned was, when its level was read, live, unexpired and of the
    namespace asked for; no id is returned twice, and no more than
    [TRAVERSE_MAX_NODES] are. *)
Theorem traverse_confined `{AeadScheme} io now world ms p out capped :
  (forall l, store_view (en_db (fst (world l))) (ms l)) -> (forall l, ms l !! 0 = None) -> reads_ok io ->
  qe_traverse_ex io now world p true = inl (out, capped) ->
  NoDup ((mr_id ∘ fst) <$> out) /\ (length out <= TRAVERSE_MAX_NODES)%nat /\
  forall r h, (r, h) ∈ out -> exists l hp, h = Some hp /\ th_depth hp = Z.of_nat l /\ visible (ms l) now p (mr_id r) r.
Proof.
  intros Hs Hz Hr. unfold qe_traverse_ex. destruct (require_phase _ _); try done. destruct (walk_in p && _); [done|]. destruct (_ || _); [done|]. cbn zeta.
  destruct (busy_walk store_view io now world ms p Hs Hr Hz (Z.to_nat ((if tp_depth p <? 0 then 0 else tp_depth p) + 1)) 0
    [mkTravEdge (tp_start_id p) 0 None false false] (replicate TRAVERSE_SEEN_SLOTS 0) ∅ 0%nat [] 0%nat) as (seen' & S' & n' & [B1 B2 B3 B4 B5 B6]).
  { split; [apply seen_empty|rewrite size_empty; lia|cbn; lia|set_solver|constructor|set_solver]. }
  destruct (walk_levels _ _ _ _ _ _ _ _ _ _ _) as [acc c]. cbn [fst] in *. destruct (_ || _); [done|]. intros [= <- <-].
  split_and!.
  - by rewrite <- list_fmap_compose.
  - rewrite length_map. lia.
  - intros r h Hin. apply list_elem_of_fmap in Hin as (n & [= -> ->] & Hn). destruct (B6 n Hn) as (l & E & Hv). by exists l, (hop_of n).
Qed.

(** ** Examples *)

(** The first note of the run, related to the second. *)
Definition wit_linked : Engine := fst (eng_run wit_engine (take 3 wit_ops)).
Definition wit_linked_map : gmap Z MemoryRecord := <[1 := related 102 (stamp_record wit_note 1 100 100 0 0) 2 (Some [107])]> wit_map.

Lemma wit_linked_ok : engine_ok store_view wit_linked wit_linked_map.
Proof.
  destruct wit_run_ok as (H1 & H2 & H3 & _).
  destruct (eng_run_refines store_view wit_engine ∅ (take 3 wit_ops) (empty_engine_ok store_view view_init _ _ _ _ _ _ _ _ _ _ _)) as (m & Ha & Hok).
  { split; [exact H1|]. split; [exact H2|]. split; [exact H3|done]. }
  assert (m = wit_linked_map) as <-; [|exact Hok].
  assert (snd (eng_run wit_engine (take 3 wit_ops)) =
    [inl (stamp_record wit_note 1 100 100 0 0); inl (stamp_record wit_note 2 101 101 151 0); inr AEGIS_OK]) as Er by (by vm_compute).
  rewrite Er in Ha. inversion Ha as [|? ? ? ? ? m1 ? S1 R1]; subst. inversion R1 as [|? ? ? ? ? m2 ? S2 R2]; subst.
  inversion R2 as [|? ? ? ? ? m3 ? S3 R3]; subst. inversion R3; subst. clear -S1 S2 S3.
  destruct S1 as [[_ [E|(st & E)]]|(_ & id1 & _ & _ & -> & [E|E])]; [done|done| |done]. injection E as <-.
  destruct S2 as [[_ [E|(st & E)]]|(_ & id2 & _ & _ & -> & [E|E])]; [done|done| |done]. injection E as <-.
  destruct S3 as [[_ Hc]|(cur & tgt & Hc & _ & _ & _ & -> & _)].
  - destruct (Hc eq_refl) as (cur & rl & Hcur & Hrl & _). rewrite lookup_insert_ne, lookup_insert_eq in Hcur by done. injection Hcur as <-.
    by apply not_elem_of_nil in Hrl.
  - rewrite lookup_insert_ne, lookup_insert_eq in Hc by done. injection Hc as <-. done.
Qed.

Definition wit_trav_io : TravIo :=
  mkTravIo true true (fun _ => true) (fun _ => true) (fun _ _ => true) (fun _ _ => true) (fun _ => true) rok aok aok true true.
Definition wit_walk : TraverseParams := mkTraverseParams 2 1 (Some [97]) TRAVERSE_IN [Some [107]].

(** Walking backwards from the second note finds the first. *)
Example walk_backwards :
  match qe_traverse_ex wit_trav_io 110 (fun _ => (wit_linked, wit_linked)) wit_walk true with
  | inl (out, capped) => (map (fun x => (mr_id x.1, x.2)) out, capped) =
      ([(2, Some (mkTraverseHop 0 0 None false false)); (1, Some (mkTraverseHop 1 2 (Some [107]) true false))], false)
  | inr _ => False
  end.
Proof. by vm_compute. Qed.

Lemma wit_started : started wit_trav_io wit_linked wit_walk.
Proof. split; [vm_compute; discriminate|]. split; [|done]. intros _. apply not_eq_None_Some. by vm_compute. Qed.

Lemma traverse_exact_witness :
  exists out capped, qe_traverse_ex wit_trav_io 110 (fun _ => (wit_linked, wit_linked)) wit_walk true = inl (out, capped) /\
    NoDup ((mr_id ∘ fst) <$> out).
Proof.
  destruct (traverse_exact wit_trav_io 110 wit_linked wit_linked_map wit_walk wit_linked_ok ltac:(by split) eq_refl wit_started)
    as (out & capped & E & Hd & _).
  exists out, capped. split; [exact E|exact Hd].
Defined.

(** The link is made between the two levels of the walk. *)
Definition wit_busy (l : nat) : Engine * Engine := match l with O => (wit_two, wit_linked) | _ => (wit_linked, wit_linked) end.
Definition wit_busy_map (l : nat) : gmap Z MemoryRecord := match l with O => wit_map | _ => wit_linked_map end.

Definition trav_out (x : (list (MemoryRecord * option TraverseHop) * bool) + aegis_status) : list (MemoryRecord * option TraverseHop) :=
  match x with inl (out, _) => out | inr _ => [] end.

Lemma traverse_confined_witness :
  length (trav_out (qe_traverse_ex wit_trav_io 110 wit_busy wit_walk true)) = 2%nat /\
  (length (trav_out (qe_traverse_ex wit_trav_io 110 wit_busy wit_walk true)) <= TRAVERSE_MAX_NODES)%nat.
Proof.
  split; [by vm_compute|].
  assert (exists x, qe_traverse_ex wit_trav_io 110 wit_busy wit_walk true = inl x) as [[out c] E].
  { destruct (qe_traverse_ex wit_trav_io 110 wit_busy wit_walk true) as [x|st] eqn:E; [by exists x|].
    assert (length (trav_out (qe_traverse_ex wit_trav_io 110 wit_busy wit_walk true)) = 2%nat) as El by (by vm_compute). by rewrite E in El. }
  rewrite E. refine (proj1 (proj2 (traverse_confined wit_trav_io 110 wit_busy wit_busy_map wit_walk out c _ _ _ E))).
  - intros [|l]; [apply (eo_store _ _ _ wit_two_ok)|apply (eo_store _ _ _ wit_linked_ok)].
  - by intros [|l].
  - by split.
Defined.
