(* ===== verification/Search.v ===== *)
(** * Search ([src/query/qe_search.c])

    Filters, candidate sources, reciprocal-rank fusion, bounded selection,
    paging, counting and deletion by query, over the engine of [Engine], the
    vector index of [SemanticIndex] and the text search of [LexSearch].  Each
    gathering of candidates is one critical section of [index_lock] handed over
    to [log_lock]; other operations may run between two of them. *)

From S2P Require Import Prelude Endian HashIndex SortedArray Record RecordCodec StrTable ProbeTable Intern TimeIndex TagIndex UsageIndex EdgeIndex FactIndex AeadCorrect Log Floats OpenTable BinaryHeap Hnsw SemanticIndex Tenant CkptCrypt Store WorkingBuffer Json Registry Lexical LexSearch Engine.

Definition SEARCH_FETCH_CAP : nat := Z.to_nat 8192.
Definition MAX_OFFSET : nat := Z.to_nat 100000.
Definition RRF_K : Z := 60.

(** ** Parameters *)

(** A position of a pattern is bound or free; an object is its kind, id and
    string. *)
Record Pattern := mkPattern { pa_subject : option Z; pa_predicate : option (list Z); pa_object : option (FactKind * Z * option (list Z)) }.

(** Flags with their values are options; stored floats are bit patterns. The
    callers keep [sp_top_k] under [MAX_TOP_K], so sums stay far below 2^64. *)
Record SearchParams := mkSearchParams {
  sp_time : option (Z * Z); sp_tags : list (list Z); sp_match_all : bool;
  sp_embedding : list Z; sp_embedding_dim : nat; sp_query : option (list Z);
  sp_type : option MemoryType; sp_agent_id : option (list Z); sp_top_k : nat; sp_offset : nat;
  sp_min_score : option Z; sp_half_life_ms : Z; sp_max_importance : option Z; sp_track_usage : bool;
  sp_pattern : option Pattern; sp_subsume : bool; sp_subsume_ids : list Z; sp_subsume_truncated : bool;
  sp_oldest_first : bool
}.

Definition set_subsume (p : SearchParams) (ids : list Z) (truncated : bool) : SearchParams :=
  mkSearchParams (sp_time p) (sp_tags p) (sp_match_all p) (sp_embedding p) (sp_embedding_dim p) (sp_query p) (sp_type p)
    (sp_agent_id p) (sp_top_k p) (sp_offset p) (sp_min_score p) (sp_half_life_ms p) (sp_max_importance p) (sp_track_usage p)
    (sp_pattern p) (sp_subsume p) ids truncated (sp_oldest_first p).

(** What the server was started with. *)
Record SearchCfg := mkSearchCfg { sg_query_scan_cap : nat; sg_inference_max_subsume : nat }.

(** ** Filters *)

#[global] Instance MemoryType_eq_dec : EqDecision MemoryType.
Proof. solve_decision. Defined.

Definition rec_has_tag (r : MemoryRecord) (tag : list Z) : bool := existsb (fun t => bool_decide (t = tag)) (mr_tags r).

Definition matches_pattern (r : MemoryRecord) (p : SearchParams) (pat : Pattern) : bool :=
  let f := mr_fact r in
  if bool_decide (fa_kind f = FACT_NONE) then false
  else match fa_predicate f with
  | None => false
  | Some pred =>
      if match pa_subject pat with
         | Some s => negb (fa_subject f =? s) && negb (existsb (fun i => i =? fa_subject f) (sp_subsume_ids p))
         | None => false
         end then false
      else if match pa_predicate pat with Some q => negb (bool_decide (pred = q)) | None => false end then false
      else match pa_object pat with
           | None => true
           | Some (k, oid, ostr) =>
               if negb (bool_decide (fa_kind f = k)) then false
               else if bool_decide (k = FACT_OBJ_ID) then fa_object_id f =? oid
               else match fa_object_str f, ostr with Some a, Some b => bool_decide (a = b) | _, _ => false end
           end
  end.

Definition passes_filters (r : MemoryRecord) (p : SearchParams) : bool :=
  if is_deleted r then false
  else if match sp_type p with Some t => negb (bool_decide (mr_type r = t)) | None => false end then false
  else if match sp_max_importance p with Some b => SFltb (f32_of_bits b) (f32_of_bits (mr_importance r)) | None => false end then false
  else if match sp_agent_id p with
          | Some a => match mr_agent_id r with None => true | Some b => negb (bool_decide (b = a)) end
          | None => false
          end then false
  else if match sp_time p with Some (s, e) => (mr_created r <? s) || (e <? mr_created r) | None => false end then false
  else if match sp_pattern p with Some pat => negb (matches_pattern r p pat) | None => false end then false
  else match sp_tags p with
       | [] => true
       | tags => if sp_match_all p then forallb (rec_has_tag r) tags else existsb (rec_has_tag r) tags
       end.

(** ** Ranked candidates *)

Inductive CandSource := CAND_FILTER | CAND_SEMANTIC | CAND_LEXICAL | CAND_HYBRID.

Record ScoredId := mkScoredId {
  si_rec : Z; si_score : spec_float; si_sim : spec_float; si_bm25 : spec_float; si_rrf : spec_float; si_srank : Z; si_lrank : Z
}.
Definition plain_id (id : Z) : ScoredId := mkScoredId id f32_zero f32_zero f32_zero f32_zero 0 0.

Definition cmp_scored_by_id (a b : ScoredId) : Z := if si_rec a <? si_rec b then -1 else if si_rec b <? si_rec a then 1 else 0.

(** The 1-based rank. *)
Definition rank_of (i : nat) : Z := wrap 32 (Z.of_nat i + 1).

(** A later entry of the same id. *)
Definition absorb (cur y : ScoredId) : ScoredId :=
  let cur := if si_srank y =? 0 then cur
             else mkScoredId (si_rec cur) (si_score cur) (si_sim y) (si_bm25 cur) (si_rrf cur) (si_srank y) (si_lrank cur) in
  if si_lrank y =? 0 then cur
  else mkScoredId (si_rec cur) (si_score cur) (si_sim cur) (si_bm25 y) (si_rrf cur) (si_srank cur) (si_lrank y).

Definition rrf_term (rank : Z) : spec_float := f32_div f32_one (f32_of_Z (wrap 32 (RRF_K + rank))).

Definition rrf_finish (cur : ScoredId) : ScoredId :=
  let rrf := f32_zero in
  let rrf := if si_srank cur =? 0 then rrf else f32_add rrf (rrf_term (si_srank cur)) in
  let rrf := if si_lrank cur =? 0 then rrf else f32_add rrf (rrf_term (si_lrank cur)) in
  mkScoredId (si_rec cur) rrf (si_sim cur) (si_bm25 cur) rrf (si_srank cur) (si_lrank cur).

(** Fold each run of equal ids into one entry. *)
Fixpoint rrf_runs (cur : ScoredId) (l : list ScoredId) : list ScoredId :=
  match l with
  | [] => [rrf_finish cur]
  | y :: l' => if si_rec y =? si_rec cur then rrf_runs (absorb cur y) l' else rrf_finish cur :: rrf_runs y l'
  end.

Definition sem_entries (l : list (Z * spec_float)) : list ScoredId :=
  imap (fun i x => mkScoredId x.1 f32_zero x.2 f32_zero f32_zero (rank_of i) 0) l.
Definition lex_entries (l : list (Z * spec_float)) : list ScoredId :=
  imap (fun i x => mkScoredId x.1 f32_zero f32_zero x.2 f32_zero 0 (rank_of i)) l.

Record Cand := mkCand {
  ca_rec : MemoryRecord; ca_score : spec_float; ca_sim : spec_float; ca_bm25 : spec_float; ca_rrf : spec_float;
  ca_srank : Z; ca_lrank : Z; ca_weight : spec_float; ca_recency : spec_float
}.

Definition cmp_score_desc (a b : Cand) : Z :=
  if SFltb (ca_score a) (ca_score b) then 1
  else if SFltb (ca_score b) (ca_score a) then -1
  else if mr_id (ca_rec a) <? mr_id (ca_rec b) then -1
  else if mr_id (ca_rec b) <? mr_id (ca_rec a) then 1 else 0.

Definition cmp_created_asc (a b : Cand) : Z :=
  if mr_created (ca_rec a) <? mr_created (ca_rec b) then -1
  else if mr_created (ca_rec b) <? mr_created (ca_rec a) then 1
  else (if mr_id (ca_rec b) <? mr_id (ca_rec a) then 1 else 0) - (if mr_id (ca_rec a) <? mr_id (ca_rec b) then 1 else 0).

(** ** Bounded selection *)

(** [worse c i j]: candidate [i] ranks after candidate [j]. *)
Definition worse (cmp : Cand -> Cand -> Z) (c : list Cand) (i j : nat) : bool :=
  match c !! i, c !! j with Some x, Some y => 0 <? cmp x y | _, _ => false end.

Definition idx_sift_down (cmp : Cand -> Cand -> Z) (c : list Cand) (h : list nat) (i : nat) : list nat :=
  sift_down (worse cmp c) (length h) (length h) h i.
Definition idx_sift_up (cmp : Cand -> Cand -> Z) (c : list Cand) (h : list nat) (i : nat) : list nat :=
  sift_up (worse cmp c) (length h) h i.

(** Candidate [i] against the [sel_n] kept so far. *)
Definition heap_offer (cmp : Cand -> Cand -> Z) (c : list Cand) (sel_n : nat) (h : list nat) (i : nat) : list nat :=
  if (length h <? sel_n)%nat then idx_sift_up cmp c (h ++ [i]) (length h)
  else match h !! 0%nat with
       | Some root =>
           match c !! i, c !! root with
           | Some x, Some y => if cmp x y <? 0 then idx_sift_down cmp c (<[0%nat := i]> h) 0 else h
           | _, _ => h
           end
       | None => h
       end.

Section search.
Context `{AeadScheme} `{VecKernel} (exp : spec_float -> spec_float).

(** [None] is an allocation failure. *)
Definition select_top (ok : bool) (cmp : Cand -> Cand -> Z) (cands : list Cand) (sel_n : nat) : option (list Cand) :=
  if (length cands <=? sel_n)%nat then Some (vk_qsort cmp cands)
  else if negb ok then None
  else Some (vk_qsort cmp (omap (fun i => cands !! i) (foldl (heap_offer cmp cands sel_n) [] (seq 0 (length cands))))).

Definition rrf_fuse (ok : bool) (sem lex : list (Z * spec_float)) : option (list ScoredId) :=
  if ok then
    Some (match vk_qsort cmp_scored_by_id (sem_entries sem ++ lex_entries lex) with [] => [] | x :: l => rrf_runs x l end)
  else None.

(** ** Gathering *)

Record GatherIo := mkGatherIo {
  gi_sem : SearchOks; gi_lex : LexSearchOks; gi_sc : bool;
  gi_ids : bool; gi_acc : bool;              (* the lookup of a filter source *)
  gi_part : nat -> bool; gi_grow : nat -> bool;  (* the lookups of an expansion and their union *)
  gi_snap : bool; gi_cands : bool; gi_rerr : Z -> Z -> bool; gi_lalloc : Z -> bool; gi_dalloc : Z -> bool
}.

(** The union over the expansion; [i] counts the lookups. *)
Fixpoint subsume_union (io : GatherIo) (fi : option FactIndex) (pred : option (list Z)) (i : nat) (subjects ids : list Z) : option (list Z) :=
  match subjects with
  | [] => Some ids
  | s :: subjects' =>
      match fact_index_by_subject (gi_part io i) fi s pred with
      | None => None
      | Some [] => subsume_union io fi pred (S i) subjects' ids
      | Some part => if gi_grow io i then subsume_union io fi pred (S i) subjects' (ids ++ part) else None
      end
  end.

(** The ids a pattern draws on: the narrowest position the index answers. *)
Definition pattern_ids (io : GatherIo) (ix : Indexes) (p : SearchParams) (pat : Pattern) : option (list Z) :=
  match pa_subject pat with
  | Some s =>
      match sp_subsume_ids p with
      | [] => fact_index_by_subject (gi_ids io) (ix_facts ix) s (pa_predicate pat)
      | sub => subsume_union io (ix_facts ix) (pa_predicate pat) 0 (s :: sub) []
      end
  | None =>
      match pa_object pat with
      | Some (k, oid, ostr) => fact_index_by_object (gi_ids io) (ix_facts ix) k oid ostr (pa_predicate pat)
      | None => fact_index_by_predicate (gi_ids io) (ix_facts ix) (pa_predicate pat)
      end
  end.

(** The ids of an unranked source and whether they are all there are. *)
Definition filter_ids (io : GatherIo) (ix : Indexes) (p : SearchParams) (load_cap : nat) : option (list Z * bool) :=
  match sp_time p with
  | Some (s, e) =>
      if sp_oldest_first p then
        match time_index_range (gi_ids io) (ix_time ix) s e load_cap with
        | None => None
        | Some ids => Some (ids, (load_cap =? 0)%nat || (length ids <? load_cap)%nat)
        end
      else
        match time_index_range_recent (gi_ids io) (ix_time ix) s e load_cap with
        | None => None
        | Some (ids, trunc) => Some (ids, negb trunc)
        end
  | None =>
      match sp_pattern p with
      | Some pat =>
          match pattern_ids io ix p pat with
          | None => None
          | Some ids => Some (ids, true)
          end
      | None =>
          match sp_tags p with
          | [] =>
              match time_index_range_recent (gi_ids io) (ix_time ix) 0 UINT64_MAX load_cap with
              | None => None
              | Some (ids, trunc) => Some (ids, negb trunc)
              end
          | tags =>
              match tag_index_query (gi_acc io) (gi_ids io) (ix_tags ix) tags (sp_match_all p) with
              | None => None
              | Some ids => Some (ids, true)
              end
          end
      end
  end.

Definition above_min (p : SearchParams) (l : list (Z * spec_float)) : list (Z * spec_float) :=
  match sp_min_score p with
  | None => l
  | Some b => filter (fun x => SFleb (f32_of_bits b) x.2 = true) l
  end.

(** The ids of a source with their ranking, and whether it has no more. *)
Definition source_ids (io : GatherIo) (en : Engine) (sem : SemanticIndex) (p : SearchParams) (fetch : nat) (src : CandSource) (load_cap : nat)
  : option (list ScoredId * bool) :=
  let semantic := semantic_index_search (gi_sem io) sem (sp_embedding p) (sp_embedding_dim p) fetch in
  let lexical := lexical_index_search (gi_lex io) (ix_lex (en_ix en)) (sp_query p) fetch in
  match src with
  | CAND_FILTER =>
      match filter_ids io (en_ix en) p load_cap with
      | None => None
      | Some (ids, exhausted) => Some (map plain_id ids, exhausted)
      end
  | CAND_SEMANTIC =>
      match semantic with
      | None => None
      | Some l =>
          if gi_sc io then
            Some (imap (fun i x => mkScoredId x.1 x.2 x.2 f32_zero f32_zero (rank_of i) 0) (above_min p l), (length l <? fetch)%nat)
          else None
      end
  | CAND_LEXICAL =>
      match lexical with
      | None => None
      | Some l =>
          if gi_sc io then
            Some (imap (fun i x => mkScoredId x.1 x.2 f32_zero x.2 f32_zero 0 (rank_of i)) l, (length l <? fetch)%nat)
          else None
      end
  | CAND_HYBRID =>
      match semantic with
      | None => None
      | Some ls =>
          match lexical with
          | None => None
          | Some ll =>
              match rrf_fuse (gi_sc io) (above_min p ls) ll with
              | None => None
              | Some l => Some (l, (length ls <? fetch)%nat && (length ll <? fetch)%nat)
              end
          end
      end
  end.

(** [-ln 2] *)
Definition neg_ln2 : spec_float := S754_finite true 6243314768165359 (-53).

(** The candidate of a record that passed. *)
Definition make_cand (p : SearchParams) (now : Z) (src : CandSource) (sc : ScoredId) (r : MemoryRecord) : Cand :=
  let w := f32_mul (f32_of_bits (mr_importance r)) (f32_of_bits (mr_confidence r)) in
  match src with
  | CAND_FILTER => mkCand r f32_zero f32_zero f32_zero f32_zero 0 0 w f32_one
  | _ =>
      let fused := match src with CAND_HYBRID => true | _ => false end in
      let wapplied := if fused || SFleb w f32_zero then f32_one else w in
      let recency :=
        if negb (sp_half_life_ms p =? 0) && negb fused then
          let age := if mr_updated r <? now then f64_of_Z (now - mr_updated r) else f32_zero in
          f32_of_f64 (exp (f64_div (f64_mul neg_ln2 age) (f64_of_Z (sp_half_life_ms p))))
        else f32_one in
      mkCand r (f32_mul (f32_mul wapplied (si_score sc)) recency) (si_sim sc) (si_bm25 sc) (si_rrf sc) (si_srank sc) (si_lrank sc) wapplied recency
  end.

(** The candidate an id gives, if any: its offset is taken under [index_lock],
    its record read under [log_lock]. *)
Definition load_cand (io : GatherIo) (now : Z) (db : Db) (p : SearchParams) (src : CandSource) (sc : ScoredId) : option Cand :=
  match hash_index_get (db_hash db) (si_rec sc) with
  | None => None
  | Some e =>
      match log_read (gi_rerr io) (gi_lalloc io) (db_log db) (he_offset e) with
      | None => None
      | Some buf =>
          match record_decode (gi_dalloc io) buf with
          | None => None
          | Some r => if record_expired r now || negb (passes_filters r p) then None else Some (make_cand p now src sc r)
          end
      end
  end.

(** [None] is [AEGIS_ERR_INTERNAL]. *)
Definition gather_candidates (io : GatherIo) (now : Z) (en : Engine) (sem : SemanticIndex) (p : SearchParams) (fetch : nat)
  (src : CandSource) (load_cap : nat) : option (list Cand * bool) :=
  match source_ids io en sem p fetch src load_cap with
  | None => None
  | Some (ids, exhausted) =>
      if negb (gi_snap io) || negb (gi_cands io) then None
      else Some (omap (load_cand io now (en_db en) p src) ids, exhausted)
  end.

(** ** Subsumption *)

Record SubsumeIo := mkSubsumeIo { su_lookup : bool; su_subs : bool; su_get : nat -> QeIo }.

Definition is_a : list Z := [105; 115; 95; 97].
Definition cmp_u64_asc (x y : Z) : Z := (if y <? x then 1 else 0) - (if x <? y then 1 else 0).

(** The subjects named by the records [ids]; [k] counts them. *)
Fixpoint subsume_subjects (io : SubsumeIo) (now : Z) (en : Engine) (p : SearchParams) (subject : Z) (k : nat) (ids : list Z) : list Z :=
  match ids with
  | [] => []
  | id :: ids' =>
      let rest := subsume_subjects io now en p subject (S k) ids' in
      match qe_get (su_get io k) now en id (sp_agent_id p) with
      | inr _ => rest
      | inl r =>
          if bool_decide (fa_kind (mr_fact r) = FACT_OBJ_ID) && negb (fa_subject (mr_fact r) =? subject)
          then fa_subject (mr_fact r) :: rest else rest
      end
  end.

(** Drop an element equal to the one before it. *)
Fixpoint uniq_adjacent (prev : option Z) (l : list Z) : list Z :=
  match l with
  | [] => []
  | x :: l' => if bool_decide (prev = Some x) then uniq_adjacent prev l' else x :: uniq_adjacent (Some x) l'
  end.

Definition resolve_subsume (cfg : SearchCfg) (io : SubsumeIo) (now : Z) (en : Engine) (p : SearchParams) : SearchParams + aegis_status :=
  let p := set_subsume p [] false in
  match sp_subsume p, match sp_pattern p with Some pat => pa_subject pat | None => None end, ix_facts (en_ix en) with
  | true, Some s, Some _ =>
      if negb (ec_inference (en_cfg en)) then inr AEGIS_ERR_NOT_READY
      else
        match fact_index_by_object (su_lookup io) (ix_facts (en_ix en)) FACT_OBJ_ID s None (Some is_a) with
        | None => inr AEGIS_ERR_INTERNAL
        | Some [] => inl p
        | Some ids =>
            let cap := sg_inference_max_subsume cfg in
            let over := negb (cap =? 0)%nat && (cap <? length ids)%nat in
            if negb (su_subs io) then inr AEGIS_ERR_INTERNAL
            else
              let subs := subsume_subjects io now en p s 0 (if over then take cap ids else ids) in
              inl (set_subsume p (uniq_adjacent None (vk_qsort cmp_u64_asc subs)) over)
        end
  | _, _, _ => inl p
  end.

(** ** Searching *)

(** What one gathering sees. *)
Record SearchView := mkSearchView { vw_en : Engine; vw_sem : SemanticIndex; vw_now : Z; vw_io : GatherIo }.

Definition source_of_params (p : SearchParams) : CandSource :=
  let semantic := negb (sp_embedding_dim p =? 0)%nat in
  let lexical := match sp_query p with Some (_ :: _) => true | _ => false end in
  if semantic && lexical then CAND_HYBRID else if semantic then CAND_SEMANTIC else if lexical then CAND_LEXICAL else CAND_FILTER.

Definition is_ranked (src : CandSource) : bool := match src with CAND_FILTER => false | _ => true end.

(** The widening loop, [k] counting its turns; the outer [None] is out of
    fuel, the inner one [AEGIS_ERR_INTERNAL]. *)
Fixpoint widen (n k : nat) (world : nat -> SearchView) (p : SearchParams) (src : CandSource) (want fetch : nat) : option (option (list Cand)) :=
  match n with
  | O => None
  | S n' =>
      match gather_candidates (vw_io (world k)) (vw_now (world k)) (vw_en (world k)) (vw_sem (world k)) p fetch src 0 with
      | None => Some None
      | Some (cands, exhausted) =>
          if (want <=? length cands)%nat || exhausted || (SEARCH_FETCH_CAP <=? fetch)%nat then Some (Some cands)
          else widen n' (S k) world p src want (if (fetch * 4 <? SEARCH_FETCH_CAP)%nat then (fetch * 4)%nat else SEARCH_FETCH_CAP)
      end
  end.

(** Five turns reach the cap from the smallest first fetch. *)
Definition WIDEN_TURNS : nat := 5.

Record SearchExplain := mkSearchExplain {
  ex_semantic : bool; ex_lexical : bool; ex_similarity : spec_float; ex_bm25 : spec_float; ex_semantic_rank : Z; ex_lexical_rank : Z;
  ex_rrf : spec_float; ex_importance : Z; ex_confidence : Z; ex_weight : spec_float; ex_recency_factor : spec_float; ex_score : spec_float
}.
Definition explain (c : Cand) : SearchExplain :=
  mkSearchExplain (negb (ca_srank c =? 0)) (negb (ca_lrank c =? 0)) (ca_sim c) (ca_bm25 c) (ca_srank c) (ca_lrank c) (ca_rrf c)
    (mr_importance (ca_rec c)) (mr_confidence (ca_rec c)) (ca_weight c) (ca_recency c) (ca_score c).

(** Outcomes after the gathering. *)
Record RankIo := mkRankIo { rk_select : bool; rk_res : bool; rk_exp : bool }.

Definition search_page (p : SearchParams) : nat * nat :=
  let top_k := if (sp_top_k p =? 0)%nat then 10%nat else sp_top_k p in
  let offset := if (sp_offset p <? MAX_OFFSET)%nat then sp_offset p else MAX_OFFSET in
  (offset, top_k).

(** The records with their explanations; the outer [None] is out of fuel. *)
Definition search_ex_body (cfg : SearchCfg) (rk : RankIo) (world : nat -> SearchView) (p : SearchParams) (want_explain : bool)
  : option (list (MemoryRecord * option SearchExplain) + aegis_status) :=
  let en := vw_en (world 0%nat) in
  match require_phase en (if (sp_embedding_dim p =? 0)%nat then 2 else 3) with
  | AEGIS_OK =>
      if negb (sp_embedding_dim p =? 0)%nat && negb (Z.of_nat (sp_embedding_dim p) =? ec_dims (en_cfg en)) then Some (inr AEGIS_ERR_INVALID_REQUEST)
      else if match sp_query p, ix_lex (en_ix en) with Some (_ :: _), None => true | _, _ => false end then Some (inr AEGIS_ERR_NOT_READY)
      else
        let src := source_of_params p in
        let '(offset, top_k) := search_page p in
        let want := (offset + top_k)%nat in
        let gathered :=
          if is_ranked src then
            let fetch := (want * 4 + 32)%nat in
            widen WIDEN_TURNS 0 world p src want (if (SEARCH_FETCH_CAP <? fetch)%nat then SEARCH_FETCH_CAP else fetch)
          else
            Some (fst <$> gather_candidates (vw_io (world 0%nat)) (vw_now (world 0%nat)) en (vw_sem (world 0%nat)) p 0 CAND_FILTER (sg_query_scan_cap cfg)) in
        match gathered with
        | None => None
        | Some None => Some (inr AEGIS_ERR_INTERNAL)
        | Some (Some cands) =>
            let m := length cands in
            let sel_n := if (want <? m)%nat then want else m in
            match select_top (rk_select rk) (if is_ranked src then cmp_score_desc else cmp_created_asc) cands sel_n with
            | None => Some (inr AEGIS_ERR_INTERNAL)
            | Some ranked =>
                if (want_explain && negb (rk_exp rk)) || negb (rk_res rk) then Some (inr AEGIS_ERR_INTERNAL)
                else
                  let start := if (offset <? sel_n)%nat then offset else sel_n in
                  Some (inl (map (fun c => (ca_rec c, if want_explain then Some (explain c) else None)) (drop start ranked)))
            end
        end
  | st => Some (inr st)
  end.

(** The counters of the records handed back. *)
Definition track (p : SearchParams) (now : Z) (en : Engine) (recs : list MemoryRecord) : Engine :=
  if sp_track_usage p
  then with_ix en (set_usage (en_ix en) (foldl (fun u r => usage_index_record u (mr_id r) now) (ix_usage (en_ix en)) recs))
  else en.

(** [en_end] is the engine when the counters are bumped; the truncation of the
    expansion is reported back. *)
Definition qe_search_ex (cfg : SearchCfg) (su : SubsumeIo) (rk : RankIo) (world : nat -> SearchView) (en_end : Engine) (now_end : Z)
  (p : SearchParams) (want_explain : bool)
  : option (Engine * (list (MemoryRecord * option SearchExplain) * bool + aegis_status)) :=
  match resolve_subsume cfg su (vw_now (world 0%nat)) (vw_en (world 0%nat)) p with
  | inr st => Some (en_end, inr st)
  | inl q =>
      match search_ex_body cfg rk world q want_explain with
      | None => None
      | Some (inr st) => Some (en_end, inr st)
      | Some (inl out) => Some (track p now_end en_end (map fst out), inl (out, sp_subsume_truncated q))
      end
  end.

Definition qe_search (cfg : SearchCfg) (su : SubsumeIo) (rk : RankIo) (world : nat -> SearchView) (en_end : Engine) (now_end : Z) (p : SearchParams)
  : option (Engine * (list MemoryRecord + aegis_status)) :=
  match qe_search_ex cfg su rk world en_end now_end p false with
  | None => None
  | Some (en, inl (out, _)) => Some (en, inl (map fst out))
  | Some (en, inr st) => Some (en, inr st)
  end.

(** ** Counting and deleting *)

(** The count and whether it is a floor. *)
Definition qe_count (cfg : SearchCfg) (su : SubsumeIo) (v : SearchView) (p : SearchParams) : (nat * bool) + aegis_status :=
  match require_phase (vw_en v) 2 with
  | AEGIS_OK =>
      match resolve_subsume cfg su (vw_now v) (vw_en v) p with
      | inr st => inr st
      | inl q =>
          match gather_candidates (vw_io v) (vw_now v) (vw_en v) (vw_sem v) q 0 CAND_FILTER (sg_query_scan_cap cfg) with
          | None => inr AEGIS_ERR_INTERNAL
          | Some (cands, exhausted) => inl (length cands, negb exhausted || sp_subsume_truncated q)
          end
      end
  | st => inr st
  end.

Fixpoint delete_all (io : nat -> QeIo) (now : nat -> Z) (k : nat) (en : Engine) (ids : list Z) (ns : option (list Z)) (deleted : nat) : Engine * nat :=
  match ids with
  | [] => (en, deleted)
  | id :: ids' =>
      let '(en, st) := qe_delete (io k) (now k) en id ns in
      delete_all io now (S k) en ids' ns (match st with AEGIS_OK => S deleted | _ => deleted end)
  end.

(** [ok] is the list of ids; [io k] and [now k] belong to the [k]-th deletion. *)
Definition qe_delete_by_query (ok : bool) (io : nat -> QeIo) (now : nat -> Z) (v : SearchView) (p : SearchParams) (ns : option (list Z))
  : Engine * (nat + aegis_status) :=
  let en := vw_en v in
  match require_phase en 1 with
  | AEGIS_OK =>
      if match sp_type p, sp_tags p, sp_time p with None, [], None => true | _, _, _ => false end then (en, inr AEGIS_ERR_INVALID_REQUEST)
      else
        match gather_candidates (vw_io v) (vw_now v) en (vw_sem v) p 0 CAND_FILTER 0 with
        | None => (en, inr AEGIS_ERR_INTERNAL)
        | Some (cands, _) =>
            if ok then
              let '(en, n) := delete_all io now 0 en (map (fun c => mr_id (ca_rec c)) cands) ns 0 in (en, inl n)
            else (en, inr AEGIS_ERR_INTERNAL)
        end
  | st => (en, inr st)
  end.
End search.
