(* ===== verification/SearchSelect.v ===== *)
(** * Ranking of search results: bounded selection and fusion

    The index heap keeps the best candidates, so that a page is a slice of one
    total order whatever the page; the fusion lists each id once with both its
    ranks. *)

From S2P Require Import Prelude Endian HashIndex SortedArray Record RecordCodec StrTable ProbeTable Intern TimeIndex TagIndex UsageIndex EdgeIndex FactIndex AeadCorrect Log Floats OpenTable BinaryHeap Hnsw SemanticIndex SemanticTopK Tenant CkptCrypt Store WorkingBuffer Json Registry Lexical LexSearch LexSearchCorrect Engine Search.

(** Two sorted arrangements of the same elements are one. *)
Lemma sorted_unique {A} (R : A -> A -> Prop) (l1 l2 : list A) :
  (forall x y, x ∈ l1 -> y ∈ l1 -> R x y -> R y x -> x = y) ->
  StronglySorted R l1 -> StronglySorted R l2 -> l1 ≡ₚ l2 -> l1 = l2.
Proof.
  revert l2. induction l1 as [|x l1 IH]; intros l2 Hanti H1 H2 Hp; [by apply Permutation_nil in Hp|].
  destruct l2 as [|y l2]; [by apply Permutation_sym, Permutation_nil in Hp|].
  apply StronglySorted_inv in H1 as [H1 F1]. apply StronglySorted_inv in H2 as [H2 F2].
  assert (x = y) as <-.
  { rewrite Forall_forall in F1, F2. assert (y ∈ x :: l1) as Hy by (rewrite Hp; by left). assert (x ∈ y :: l2) as Hx by (rewrite <- Hp; by left).
    apply elem_of_cons in Hy as [->|Hy]; [done|]. apply elem_of_cons in Hx as [->|Hx]; [done|]. apply Hanti; [by left|by right|by apply F1|by apply F2]. }
  f_equal. apply IH; [|done|done|by apply Permutation_cons_inv in Hp]. intros u v Hu Hv. apply Hanti; by right.
Qed.

Lemma sorted_sublist {A} (R : A -> A -> Prop) (l k : list A) : l `sublist_of` k -> StronglySorted R k -> StronglySorted R l.
Proof.
  induction 1 as [|x l k Hs IH|x l k Hs IH]; intros Hk; [done| |apply IH; by apply StronglySorted_inv in Hk as [? _]].
  apply StronglySorted_inv in Hk as [Hk Hf]. constructor; [by apply IH|]. rewrite Forall_forall in Hf. apply Forall_forall. intros y Hy. apply Hf. by eapply sublist_subseteq.
Qed.

Lemma omap_lookup_seq {A} (pre l : list A) : omap (fun i => (pre ++ l) !! i) (seq (length pre) (length l)) = l.
Proof.
  revert pre. induction l as [|x l IH]; intros pre; [done|]. cbn [length seq omap list_omap]. rewrite list_lookup_middle by done. f_equal.
  specialize (IH (pre ++ [x])). rewrite <- app_assoc, length_app, Nat.add_1_r in IH. exact IH.
Qed.

(** ** Bounded selection *)

Section select.
Context `{VecKernel} (cmp : Cand -> Cand -> Z) (cands : list Cand)
  (flip : forall x y, cmp x y < 0 <-> 0 < cmp y x)
  (le_trans : forall x y z, x ∈ cands -> y ∈ cands -> z ∈ cands -> cmp x y <= 0 -> cmp y z <= 0 -> cmp x z <= 0)
  (anti : forall x y, x ∈ cands -> y ∈ cands -> cmp x y <= 0 -> cmp y x <= 0 -> x = y).

Lemma cmp_dual x y : cmp x y <= 0 \/ cmp y x <= 0.
Proof. pose proof (flip x y). lia. Qed.

Definition inb (i : nat) : Prop := (i < length cands)%nat.

Lemma inb_at i : inb i -> exists x, cands !! i = Some x /\ x ∈ cands.
Proof. intros Hi. destruct (lookup_lt_is_Some_2 _ _ Hi) as [x Hx]. exists x. split; [done|by eapply list_elem_of_lookup_2]. Qed.

Lemma worse_at i j x y : cands !! i = Some x -> cands !! j = Some y -> worse cmp cands i j = (0 <? cmp x y).
Proof. intros Hi Hj. unfold worse. by rewrite Hi, Hj. Qed.

Lemma worse_irrefl i : inb i -> worse cmp cands i i = false.
Proof. intros Hi. destruct (inb_at i Hi) as (x & Ex & _). rewrite (worse_at i i x x) by done. pose proof (flip x x). lia. Qed.

Lemma worse_neg_trans i j k : inb i -> inb j -> inb k -> worse cmp cands i j = false -> worse cmp cands j k = false -> worse cmp cands i k = false.
Proof.
  intros Hi Hj Hk. destruct (inb_at i Hi) as (x & Ex & Hx), (inb_at j Hj) as (y & Ey & Hy), (inb_at k Hk) as (z & Ez & Hz).
  rewrite (worse_at i j x y), (worse_at j k y z), (worse_at i k x z), !Z.ltb_ge by done. by apply le_trans.
Qed.

Lemma worse_trans i j k : inb i -> inb j -> inb k -> worse cmp cands i j = true -> worse cmp cands j k = true -> worse cmp cands i k = true.
Proof.
  intros Hi Hj Hk. destruct (inb_at i Hi) as (x & Ex & Hx), (inb_at j Hj) as (y & Ey & Hy), (inb_at k Hk) as (z & Ez & Hz).
  rewrite (worse_at i j x y), (worse_at j k y z), (worse_at i k x z), !Z.ltb_lt by done. pose proof (flip z y) as F. pose proof (le_trans x z y Hx Hz Hy). lia.
Qed.

(** The heap after the first [k] candidates. *)
Record kept (n k : nat) (h : list nat) : Prop := {
  kp_len : length h = Nat.min k n;
  kp_heap : heap_from (worse cmp cands) 0 (length h) h;
  kp_best : exists lost, h ++ lost ≡ₚ seq 0 k /\ forall i j, i ∈ h -> j ∈ lost -> worse cmp cands i j = false
}.

Lemma kept_inb n k h : kept n k h -> (k <= length cands)%nat -> Forall inb h.
Proof.
  intros [_ _ (lost & Hp & _)] Hk. apply Forall_forall. intros i Hi. assert (i ∈ seq 0 k) as Hs by (rewrite <- Hp; apply elem_of_app; by left).
  apply elem_of_seq in Hs. unfold inb. lia.
Qed.

Lemma kept_offer n k h : kept n k h -> (k < length cands)%nat -> (0 < n)%nat -> kept n (S k) (heap_offer cmp cands n h k).
Proof.
  intros Hk Hlt Hn. pose proof (kept_inb n k h Hk ltac:(lia)) as Hin. destruct Hk as [Hl Hh (lost & Hp & Hb)].
  assert (Forall inb (h ++ [k])) as Hin' by (apply Forall_app; split; [done|by apply Forall_singleton]).
  assert (forall l, l ++ lost ≡ₚ k :: h ++ lost -> l ++ lost ≡ₚ seq 0 (S k)) as Hgrow.
  { intros l ->. rewrite seq_S, Hp. cbn. apply Permutation_cons_append. }
  unfold heap_offer. destruct (Nat.ltb_spec (length h) n) as [Hroom|Hfull].
  - pose proof (sift_up_perm (worse cmp cands) (length (h ++ [k])) (h ++ [k]) (length h)) as Hsp. unfold idx_sift_up.
    assert (length (sift_up (worse cmp cands) (length (h ++ [k])) (h ++ [k]) (length h)) = S (length h)) as Hlen by (rewrite Hsp, length_app; cbn; lia).
    assert (lost = []) as ->.
    { apply nil_length_inv. pose proof (Permutation_length Hp) as Hpl. rewrite length_app, length_seq in Hpl. lia. }
    split.
    + rewrite Hlen. lia.
    + rewrite Hlen. apply (sift_up_spec (worse cmp cands) inb worse_irrefl worse_trans worse_neg_trans); [done|rewrite length_app; cbn; lia|lia| |rewrite length_app; cbn; lia].
      split; [|intros j Hj Hpj; pose proof (parent_lt j); lia]. intros j Hj Hne. pose proof (parent_lt j ltac:(lia)). rewrite better_at_app by lia. apply Hh; lia.
    + exists []. split; [|set_solver]. apply Hgrow. rewrite !app_nil_r, Hsp. symmetry. apply Permutation_cons_append.
  - destruct h as [|root rest]; [cbn in *; lia|]. cbn [lookup list_lookup].
    assert (inb root) as Hr by (by apply Forall_cons in Hin as [? _]).
    destruct (inb_at root Hr) as (y & Ey & Hy), (inb_at k Hlt) as (x & Ex & Hx). rewrite Ex, Ey.
    assert (forall i, i ∈ root :: rest -> worse cmp cands i root = false) as Hmax.
    { intros i Hi. apply list_elem_of_lookup in Hi as [q Hq]. pose proof (lookup_lt_Some _ _ _ Hq).
      pose proof (heap_root (worse cmp cands) inb worse_irrefl worse_neg_trans _ _ Hin (le_n _) Hh q ltac:(done)) as Hb'. by rewrite (better_at_lookup (worse cmp cands) _ q 0 i root Hq eq_refl) in Hb'. }
    destruct (Z.ltb_spec (cmp x y) 0) as [Hbet|Hno].
    + assert (worse cmp cands k root = false) as Hkr by (rewrite (worse_at k root x y) by done; lia).
      change (<[0%nat:=k]> (root :: rest)) with (k :: rest). unfold idx_sift_down.
      pose proof (sift_down_perm (worse cmp cands) (length (k :: rest)) (length (k :: rest)) (k :: rest) 0) as Hsp.
      set (h' := sift_down _ _ _ _ _) in *. split.
      * rewrite Hsp. change (length (k :: rest)) with (length (root :: rest)). lia.
      * rewrite (Permutation_length Hsp). apply (sift_down_spec (worse cmp cands) inb worse_irrefl worse_trans worse_neg_trans); [|done|cbn; lia| |lia].
        { apply Forall_cons in Hin as [_ Hin]. by apply Forall_cons. }
        split; [|lia]. intros j Hj _ Hne. pose proof (parent_lt j ltac:(lia)). specialize (Hh j ltac:(done) ltac:(lia)).
        unfold better_at in *. destruct j; [lia|]. by destruct (parent (S j)); [lia|].
      * exists (root :: lost). split.
        { rewrite Hsp, seq_S, <- Hp. cbn. rewrite <- Permutation_cons_append, perm_swap. apply perm_skip. by rewrite Permutation_middle. }
        intros i j Hi Hj. rewrite Hsp in Hi. assert (worse cmp cands i root = false) as Hir.
        { apply elem_of_cons in Hi as [->|Hi]; [done|]. apply Hmax. by right. }
        apply elem_of_cons in Hj as [->|Hj]; [done|].
        assert (inb i /\ inb j) as [Hii Hij].
        { split; [apply elem_of_cons in Hi as [->|Hi]; [done|]; rewrite Forall_forall in Hin; apply Hin; by right|].
          assert (j ∈ seq 0 k) as Hs by (rewrite <- Hp; apply elem_of_app; by right). apply elem_of_seq in Hs. unfold inb. lia. }
        apply (worse_neg_trans i root j); try done. apply Hb; [by left|done].
    + assert (worse cmp cands root k = false) as Hrk by (rewrite (worse_at root k y x) by done; pose proof (flip x y); lia). split.
      * lia.
      * done.
      * exists (k :: lost). split; [rewrite seq_S, <- Hp, <- Permutation_cons_append; by rewrite <- Permutation_middle|].
        intros i j Hi Hj. apply elem_of_cons in Hj as [->|Hj]; [|by apply Hb]. rewrite Forall_forall in Hin.
        apply (worse_neg_trans i root k); try done; [by apply Hin|by apply Hmax].
Qed.

Lemma kept_all n k : (k <= length cands)%nat -> (0 < n)%nat -> kept n k (foldl (heap_offer cmp cands n) [] (seq 0 k)).
Proof.
  intros Hk Hn. induction k as [|k IH].
  - split; [done|intros j Hj; cbn in Hj; lia|]. exists []. split; [done|set_solver].
  - rewrite seq_S, foldl_app. cbn [foldl]. apply kept_offer; [apply IH; lia|lia|done].
Qed.

Lemma sorted_qsort l : (forall x, x ∈ l -> x ∈ cands) -> StronglySorted (fun a b => cmp a b <= 0) (vk_qsort cmp l).
Proof. intros Hl. apply vk_qsort_sorted; [apply cmp_dual|]. intros a b c Ha Hb Hc. apply le_trans; by apply Hl. Qed.

(** The selection is the head of the one sorted order, whatever its size. *)
Lemma select_top_take ok n out (L : list Cand) :
  select_top ok cmp cands n = Some out -> L ≡ₚ cands -> StronglySorted (fun a b => cmp a b <= 0) L -> out = take n L.
Proof.
  intros Hs HL Hsort.
  assert (forall l, l ≡ₚ cands -> StronglySorted (fun a b => cmp a b <= 0) l -> l = L) as Huniq.
  { intros l Hl Hls. apply (sorted_unique (fun a b => cmp a b <= 0)); [|done|done|by rewrite Hl]. intros x y Hx Hy. rewrite Hl in Hx, Hy. by apply anti. }
  unfold select_top in Hs. destruct (Nat.leb_spec (length cands) n) as [Hle|Hgt].
  { injection Hs as <-. rewrite take_ge by (rewrite HL; lia). apply Huniq; [apply vk_qsort_perm|by apply sorted_qsort]. }
  destruct ok; [|done]. cbn [negb] in Hs. injection Hs as <-.
  destruct (decide (n = 0%nat)) as [->|Hn].
  { rewrite take_0. assert (forall l, foldl (heap_offer cmp cands 0) [] l = []) as E by (induction l as [|i l IHl]; [done|cbn; done]).
    rewrite E. cbn. apply Permutation_nil. symmetry. apply (vk_qsort_perm _ cmp []). }
  destruct (kept_all n (length cands) ltac:(lia) ltac:(lia)) as [Hlen _ (lost & Hp & Hb)]. set (h := foldl _ _ _) in *.
  set (pick := omap (fun i => cands !! i)).
  assert (pick h ++ pick lost ≡ₚ cands) as Hpick.
  { unfold pick. rewrite <- omap_app, Hp. pose proof (omap_lookup_seq [] cands) as E. cbn [app length] in E. by rewrite E. }
  assert (length (pick h) = n) as Hpl.
  { rewrite <- (Nat.min_r (length cands) n), <- Hlen by lia. assert (Forall inb h) as Hin.
    { apply Forall_forall. intros i Hi. assert (i ∈ seq 0 (length cands)) as Hq by (rewrite <- Hp; apply elem_of_app; by left). apply elem_of_seq in Hq. unfold inb; lia. }
    clear -Hin. induction Hin as [|i h Hi _ IH]; [done|]. destruct (inb_at i Hi) as (x & Ex & _). unfold pick in *. cbn. rewrite Ex. cbn. by rewrite IH. }
  assert (forall x y, x ∈ pick h -> y ∈ pick lost -> cmp x y <= 0) as Hord.
  { intros x y Hx Hy. apply list_elem_of_omap in Hx as (i & Hi & Ex). apply list_elem_of_omap in Hy as (j & Hj & Ey).
    specialize (Hb i j Hi Hj). rewrite (worse_at i j x y Ex Ey) in Hb. lia. }
  assert (vk_qsort cmp (pick h) ++ vk_qsort cmp (pick lost) = L) as <-.
  { apply Huniq; [by rewrite !vk_qsort_perm|]. apply StronglySorted_app_2.
    - intros x y Hx Hy. rewrite vk_qsort_perm in Hx, Hy. by apply Hord.
    - apply sorted_qsort. intros x Hx. rewrite <- Hpick. apply elem_of_app. by left.
    - apply sorted_qsort. intros x Hx. rewrite <- Hpick. apply elem_of_app. by right. }
  rewrite take_app_length'; [done|]. by rewrite vk_qsort_perm.
Qed.
End select.

(** ** The two orders *)

(** Oldest first, then by id. *)
Definition chrono (a b : MemoryRecord) : Prop := mr_created a < mr_created b \/ (mr_created a = mr_created b /\ mr_id a <= mr_id b).

Lemma cmp_created_chrono a b : cmp_created_asc a b <= 0 <-> chrono (ca_rec a) (ca_rec b).
Proof.
  unfold cmp_created_asc, chrono. set (x := ca_rec a). set (y := ca_rec b).
  destruct (Z.ltb_spec (mr_created x) (mr_created y)), (Z.ltb_spec (mr_created y) (mr_created x)), (Z.ltb_spec (mr_id y) (mr_id x)), (Z.ltb_spec (mr_id x) (mr_id y)); lia.
Qed.

Lemma cmp_created_flip a b : cmp_created_asc a b < 0 <-> 0 < cmp_created_asc b a.
Proof.
  unfold cmp_created_asc. set (x := ca_rec a). set (y := ca_rec b).
  destruct (Z.ltb_spec (mr_created x) (mr_created y)), (Z.ltb_spec (mr_created y) (mr_created x)), (Z.ltb_spec (mr_id y) (mr_id x)), (Z.ltb_spec (mr_id x) (mr_id y)); lia.
Qed.

Lemma chrono_trans a b c : chrono a b -> chrono b c -> chrono a c.
Proof. unfold chrono. lia. Qed.

Lemma chrono_anti a b : chrono a b -> chrono b a -> mr_id a = mr_id b.
Proof. unfold chrono. lia. Qed.

(** Best first, then by id. *)
Definition score_key (c : Cand) : LexCand := mkLexCand (mr_id (ca_rec c)) (ca_score c).
Definition ranks_before (a b : Cand) : Prop := cand_le (score_key a) (score_key b).

Lemma cmp_score_key a b : cmp_score_desc a b = cmp_cand_desc (score_key a) (score_key b).
Proof. done. Qed.

Lemma cmp_score_flip a b : cmp_score_desc a b < 0 <-> 0 < cmp_score_desc b a.
Proof.
  unfold cmp_score_desc. destruct (SFltb (ca_score a) (ca_score b)) eqn:E; [rewrite (sf_ltb_asym _ _ E); lia|].
  destruct (SFltb (ca_score b) (ca_score a)); [lia|]. destruct (Z.ltb_spec (mr_id (ca_rec a)) (mr_id (ca_rec b))), (Z.ltb_spec (mr_id (ca_rec b)) (mr_id (ca_rec a))); lia.
Qed.

Lemma ranks_anti a b : ranks_before a b -> ranks_before b a -> mr_id (ca_rec a) = mr_id (ca_rec b).
Proof. intros [H1 H2] [H3 H4]. cbn in *. specialize (H2 H3). specialize (H4 H1). lia. Qed.

(** ** Fusion *)

(** Where [id] stands in a list of results: its position and score. *)
Definition place (l : list (Z * spec_float)) (id : Z) : option (nat * spec_float) := (fun p => (p.1, p.2.2)) <$> list_find (fun x => x.1 = id) l.

Definition place_rank (o : option (nat * spec_float)) : Z := match o with Some (i, _) => rank_of i | None => 0 end.
Definition place_score (o : option (nat * spec_float)) : spec_float := match o with Some (_, s) => s | None => f32_zero end.
Definition place_term (o : option (nat * spec_float)) (acc : spec_float) : spec_float := match o with Some (i, _) => f32_add acc (rrf_term (rank_of i)) | None => acc end.

(** The entry of [id]: its ranks and scores, and the sum of [1 / (60 + rank)]
    over the lists that hold it. *)
Definition fused (sem lex : list (Z * spec_float)) (id : Z) : ScoredId :=
  let a := place sem id in let b := place lex id in
  let rrf := place_term b (place_term a f32_zero) in
  mkScoredId id rrf (place_score a) (place_score b) rrf (place_rank a) (place_rank b).

Definition same_id (id : Z) (x : ScoredId) : Prop := si_rec x = id.
#[local] Instance same_id_dec id x : Decision (same_id id x) := decide (si_rec x = id).

Lemma absorb_rec cur y : si_rec (absorb cur y) = si_rec cur.
Proof. unfold absorb. by destruct (si_srank y =? 0), (si_lrank y =? 0). Qed.

Lemma finish_rec cur : si_rec (rrf_finish cur) = si_rec cur.
Proof. done. Qed.

(** One entry per id, folded from the group of that id. *)
Lemma rrf_runs_spec cur l :
  StronglySorted (fun a b => si_rec a <= si_rec b) (cur :: l) ->
  StronglySorted (fun a b => si_rec a < si_rec b) (rrf_runs cur l) /\
  forall s, s ∈ rrf_runs cur l <-> exists x xs, filter (same_id (si_rec s)) (cur :: l) = x :: xs /\ s = rrf_finish (foldl absorb x xs).
Proof.
  revert cur. induction l as [|y l IH]; intros cur Hs; cbn [rrf_runs].
  - split; [repeat constructor|]. intros s. rewrite list_elem_of_singleton. rewrite filter_cons, filter_nil. unfold same_id. split.
    + intros ->. exists cur, []. by rewrite decide_True.
    + intros (x & xs & Hf & ->). destruct (decide _); [|done]. by injection Hf as <- <-.
  - apply StronglySorted_inv in Hs as [Hs Hc]. rewrite Forall_forall in Hc. destruct (Z.eqb_spec (si_rec y) (si_rec cur)) as [Ey|Ey].
    + destruct (IH (absorb cur y)) as [H1 H2].
      { apply StronglySorted_inv in Hs as [Hs Hy]. constructor; [done|]. rewrite Forall_forall in Hy |- *. intros z Hz. rewrite absorb_rec, <- Ey. by apply Hy. }
      split; [done|]. intros s. rewrite H2, !filter_cons. pose proof (absorb_rec cur y) as Ea. destruct (decide (same_id (si_rec s) cur)) as [E|E].
      * rewrite !decide_True by (unfold same_id in *; congruence). split; intros (x & xs & Hf & Es); injection Hf as <- <-; eexists _, _; (split; [reflexivity|exact Es]).
      * by rewrite !decide_False by (unfold same_id in *; congruence).
    + destruct (IH y Hs) as [H1 H2]. assert (forall z, z ∈ y :: l -> si_rec cur < si_rec z) as Hlt.
      { intros z Hz. pose proof (Hc y ltac:(by left)). apply elem_of_cons in Hz as [->|Hz]; [lia|]. apply StronglySorted_inv in Hs as [_ Hy]. rewrite Forall_forall in Hy. specialize (Hy z Hz). lia. }
      assert (forall s, s ∈ rrf_runs y l -> si_rec cur < si_rec s) as Hlt'.
      { intros s Hin. apply H2 in Hin as (x & xs & Hf & ->). assert (x ∈ filter (same_id (si_rec (rrf_finish (foldl absorb x xs)))) (y :: l)) as Hx by (rewrite Hf; by left).
        apply list_elem_of_filter in Hx as [E Hx]. rewrite <- E. by apply Hlt. }
      split; [constructor; [done|]; apply Forall_forall; intros s Hin; rewrite finish_rec; by apply Hlt'|].
      intros s. rewrite elem_of_cons, (filter_cons _ cur). unfold same_id at 1. destruct (decide (si_rec cur = si_rec s)) as [E|E].
      * assert (filter (same_id (si_rec s)) (y :: l) = []) as ->.
        { apply filter_none, Forall_forall. intros z Hz Ez. specialize (Hlt z Hz). unfold same_id in Ez. lia. }
        split.
        -- intros [->|Hin]; [by exists cur, []|]. specialize (Hlt' s Hin). lia.
        -- intros (x & xs & [= <- <-] & ->). by left.
      * rewrite <- H2. split; [|by right]. intros [->|Hin]; [|done]. by rewrite finish_rec in E.
Qed.

Lemma group_of (f : nat -> Z * spec_float -> ScoredId) (l : list (Z * spec_float)) id :
  (forall i x, si_rec (f i x) = x.1) -> NoDup l.*1 ->
  filter (same_id id) (imap f l) = match list_find (fun x => x.1 = id) l with Some (i, x) => [f i x] | None => [] end.
Proof.
  revert f. induction l as [|x l IH]; intros f Hf Hn; [done|]. cbn [fmap list_fmap] in Hn. apply NoDup_cons in Hn as [Hx Hn].
  rewrite imap_cons, filter_cons. cbn [list_find]. destruct (decide (x.1 = id)) as [E|E].
  - rewrite decide_True by (unfold same_id; by rewrite Hf). f_equal. apply filter_none, Forall_forall. intros y Hy Ey. apply Hx.
    apply elem_of_lookup_imap in Hy as (i & z & -> & Hz). unfold same_id, compose in Ey. rewrite Hf in Ey. rewrite E, <- Ey. apply list_elem_of_fmap_2. by eapply list_elem_of_lookup_2.
  - rewrite decide_False by (unfold same_id; by rewrite Hf). rewrite (IH (f ∘ S)) by (done || by intros; apply Hf). by destruct (list_find _ l) as [[i y]|].
Qed.

Lemma find_place (l : list (Z * spec_float)) id i x : list_find (fun x => x.1 = id) l = Some (i, x) -> x.1 = id /\ place l id = Some (i, x.2) /\ (i < length l)%nat.
Proof. intros E. pose proof E as (Hl & Hx & _)%list_find_Some. split; [done|]. split; [unfold place; by rewrite E|by eapply lookup_lt_Some]. Qed.

Lemma rank_nonzero i n : (i < n)%nat -> Z.of_nat n < 2 ^ 32 -> (rank_of i =? 0) = false.
Proof. intros Hi Hn. unfold rank_of, wrap. rewrite Z.mod_small by lia. lia. Qed.

Section fuse.
Context `{VecKernel}.

Lemma sort_by_id (l : list ScoredId) : StronglySorted (fun a b => si_rec a <= si_rec b) (vk_qsort cmp_scored_by_id l).
Proof.
  assert (forall a b, cmp_scored_by_id a b <= 0 <-> si_rec a <= si_rec b) as E by (intros a b; unfold cmp_scored_by_id; destruct (Z.ltb_spec (si_rec a) (si_rec b)), (Z.ltb_spec (si_rec b) (si_rec a)); lia).
  assert (StronglySorted (fun a b => cmp_scored_by_id a b <= 0) (vk_qsort cmp_scored_by_id l)) as Hs.
  { apply vk_qsort_sorted; [intros a b; rewrite !E; lia|]. intros a b c _ _ _. rewrite !E. lia. }
  induction Hs as [|x k Hs IH Hf]; [constructor|]. constructor; [done|]. eapply Forall_impl; [exact Hf|]. intros y. apply E.
Qed.

Lemma group_fused sem lex id x xs :
  NoDup sem.*1 -> NoDup lex.*1 -> Z.of_nat (length sem) < 2 ^ 32 -> Z.of_nat (length lex) < 2 ^ 32 ->
  filter (same_id id) (vk_qsort cmp_scored_by_id (sem_entries sem ++ lex_entries lex)) = x :: xs -> rrf_finish (foldl absorb x xs) = fused sem lex id.
Proof.
  intros Hs Hl Ls Ll E. assert (x :: xs ≡ₚ filter (same_id id) (sem_entries sem) ++ filter (same_id id) (lex_entries lex)) as Hp by (by rewrite <- E, vk_qsort_perm, filter_app).
  unfold sem_entries, lex_entries in Hp. rewrite !group_of in Hp by done. unfold fused.
  destruct (list_find (fun x => x.1 = id) sem) as [[i y]|] eqn:Es; destruct (list_find (fun x => x.1 = id) lex) as [[j z]|] eqn:El.
  - apply find_place in Es as (Ei & -> & Hi). apply find_place in El as (Ej & -> & Hj). pose proof (rank_nonzero i _ Hi Ls) as Ri. pose proof (rank_nonzero j _ Hj Ll) as Rj.
    cbn [app] in Hp. symmetry in Hp. apply Permutation_length_2_inv in Hp as [[= -> ->]|[= -> ->]].
    all: cbn [foldl]; unfold absorb, rrf_finish; cbn; rewrite ?Ri, ?Rj; cbn; rewrite ?Ri, ?Rj; cbn; rewrite ?Ei, ?Ej; done.
  - apply find_place in Es as (Ei & -> & Hi). pose proof (rank_nonzero i _ Hi Ls) as Ri. unfold place. rewrite El. cbn [app] in Hp. apply Permutation_singleton_r in Hp as [= -> ->].
    unfold rrf_finish. cbn. rewrite Ri. cbn. by rewrite Ei.
  - apply find_place in El as (Ej & -> & Hj). pose proof (rank_nonzero j _ Hj Ll) as Rj. unfold place. rewrite Es. cbn [app] in Hp. apply Permutation_singleton_r in Hp as [= -> ->].
    unfold rrf_finish. cbn. rewrite Rj. cbn. by rewrite Ej.
  - cbn [app] in Hp. symmetry in Hp. by apply Permutation_nil in Hp.
Qed.

(** Fusion lists every id of either list once, in order of id, with the score of
    its definition. *)
Theorem rrf_fuse_exact sem lex :
  NoDup sem.*1 -> NoDup lex.*1 -> Z.of_nat (length sem) < 2 ^ 32 -> Z.of_nat (length lex) < 2 ^ 32 ->
  exists l, rrf_fuse true sem lex = Some l /\ StronglySorted (fun a b => si_rec a < si_rec b) l /\
    forall s, s ∈ l <-> (si_rec s ∈ sem.*1 \/ si_rec s ∈ lex.*1) /\ s = fused sem lex (si_rec s).
Proof.
  intros Hs Hl Ls Ll. unfold rrf_fuse. eexists. split; [reflexivity|]. set (q := vk_qsort cmp_scored_by_id (sem_entries sem ++ lex_entries lex)).
  pose proof (sort_by_id (sem_entries sem ++ lex_entries lex)) as Hq. fold q in Hq.
  assert (forall id, filter (same_id id) q <> [] <-> id ∈ sem.*1 \/ id ∈ lex.*1) as Hid.
  { intros id. split.
    - intros Hne. destruct (filter (same_id id) q) as [|x xs] eqn:E; [done|]. assert (x ∈ filter (same_id id) q) as Hx by (rewrite E; by left).
      apply list_elem_of_filter in Hx as [<- Hx]. unfold q in Hx. rewrite vk_qsort_perm in Hx.
      apply elem_of_app in Hx as [Hx|Hx]; apply elem_of_lookup_imap in Hx as (i & z & -> & Hz); cbn [si_rec]; apply list_elem_of_lookup_2 in Hz; [left|right]; by apply list_elem_of_fmap_2.
    - intros Hin Hnil. assert (exists x, x ∈ sem_entries sem ++ lex_entries lex /\ si_rec x = id) as (x & Hx & Ex).
      { destruct Hin as [Hin|Hin]; apply list_elem_of_fmap in Hin as (z & -> & Hz); apply list_elem_of_lookup in Hz as [i Hz];
          eexists; (split; [apply elem_of_app; [left + right]; apply elem_of_lookup_imap; by exists i, z|done]). }
      assert (x ∈ filter (same_id id) q) as Hf by (apply list_elem_of_filter; split; [done|unfold q; by rewrite vk_qsort_perm]). rewrite Hnil in Hf. by apply elem_of_nil in Hf. }
  destruct q as [|x l] eqn:Eq.
  { split; [constructor|]. intros s. split; [by intros ?%elem_of_nil|]. intros [Hin _]. by apply Hid in Hin. }
  destruct (rrf_runs_spec x l Hq) as [H1 H2]. split; [done|]. intros s. rewrite H2. split.
  - intros (y & ys & Hf & ->). cbn [si_rec rrf_finish] in *. split; [apply Hid; by rewrite Hf|]. apply (group_fused sem lex _ y ys); [done..|]. fold q. by rewrite Eq.
  - intros [Hin Es]. apply Hid in Hin. destruct (filter (same_id (si_rec s)) (x :: l)) as [|y ys] eqn:Hf; [done|]. exists y, ys. split; [done|].
    rewrite (group_fused sem lex (si_rec s) y ys); [done..|]. fold q. by rewrite Eq.
Qed.
End fuse.
