(* ===== verification/SearchCorrect.v ===== *)
(** * Search against its reference

    Over an engine that holds the records [m], an unranked search returns a
    slice of the matching live records in order of creation; a count counts
    them; a deletion by query deletes them.  Whatever runs beside a search and
    whatever fails, what it returns passes its filters. *)

From S2P Require Import Prelude Endian SortedArray HashIndex Record RecordCodec RecordRoundtrip StrTable ProbeTable Intern TimeIndex TagIndex UsageIndex EdgeIndex FactIndex Aead AeadCorrect Log LogCorrect Floats OpenTable BinaryHeap Hnsw SemanticIndex Tenant CkptCrypt Store StoreCorrect Compaction CompactionCorrect StoreView WorkingBuffer Json Registry Lexical LexicalCorrect LexSearch LexSearchCorrect Engine Rebuild EngineIndexes EngineCorrect EngineRefines Search SearchSelect.

Local Notation "ix ⊩ m" := (describes ix m) (at level 70).

(** ** The reference *)

(** The records a query asks for. *)
Definition match_rec (now : Z) (p : SearchParams) (r : MemoryRecord) : bool := negb (record_expired r now) && passes_filters r p.

Definition bounded_at (cap : nat) (recent : bool) (T : list MemoryRecord) : list MemoryRecord :=
  if (cap =? 0)%nat then T else if recent then drop (length T - cap) T else take cap T.

Definition within (s e : Z) (r : MemoryRecord) : bool := (s <=? mr_created r) && (mr_created r <=? e).

(** The source a query without ranking draws on, of the records [T] in order of
    creation: the time range, the records of a pattern or of tags, or all; a
    range and a scan keep the newest [cap] (the oldest when asked). *)
Definition window (p : SearchParams) (cap : nat) (T : list MemoryRecord) : list MemoryRecord :=
  match sp_time p with
  | Some (s, e) => bounded_at cap (negb (sp_oldest_first p)) (filter (fun r => within s e r = true) T)
  | None => match sp_pattern p, sp_tags p with None, [] => bounded_at cap true T | _, _ => T end
  end.

(** Whether nothing can have been cut off. *)
Definition complete (p : SearchParams) (cap : nat) (T : list MemoryRecord) : bool :=
  match sp_time p with
  | Some (s, e) =>
      let n := length (filter (fun r => within s e r = true) T) in
      (cap =? 0)%nat || (if sp_oldest_first p then (n <? cap)%nat else (n <=? cap)%nat)
  | None => match sp_pattern p, sp_tags p with None, [] => (cap =? 0)%nat || (length T <=? cap)%nat | _, _ => true end
  end.

Record gather_ok (io : GatherIo) : Prop := {
  go_ids : gi_ids io = true; go_acc : gi_acc io = true; go_part : forall i, gi_part io i = true; go_grow : forall i, gi_grow io i = true;
  go_snap : gi_snap io = true; go_cands : gi_cands io = true;
  go_rerr : gi_rerr io = rok; go_lalloc : gi_lalloc io = aok; go_dalloc : gi_dalloc io = aok
}.

(** A pattern the server passes on: some position bound, a bound object with
    its value. *)
Definition pattern_wf (ix : Indexes) (p : SearchParams) : Prop :=
  match sp_pattern p with
  | None => True
  | Some pat =>
      is_Some (ix_facts ix) /\ (pa_subject pat = None -> pa_object pat = None -> is_Some (pa_predicate pat)) /\
      (forall k oid ostr, pa_object pat = Some (k, oid, ostr) -> is_Some (object_key k oid ostr))
  end.

Definition bound_subject (p : SearchParams) : option Z := match sp_pattern p with Some pat => pa_subject pat | None => None end.

(** With an expansion of other subjects, each once. *)
Definition pattern_ok (ix : Indexes) (p : SearchParams) : Prop :=
  pattern_wf ix p /\ forall s, bound_subject p = Some s -> NoDup (s :: sp_subsume_ids p).

Lemma bounded_sub cap recent T : bounded_at cap recent T `sublist_of` T.
Proof. unfold bounded_at. destruct (_ =? _)%nat; [done|]. destruct recent; [apply sublist_drop|apply sublist_take]. Qed.

Lemma window_sub p cap T : window p cap T `sublist_of` T.
Proof.
  unfold window. destruct (sp_time p) as [[s e]|].
  - etrans; [apply bounded_sub|apply sublist_filter].
  - destruct (sp_pattern p); [done|]. destruct (sp_tags p); [apply bounded_sub|done].
Qed.

Section live.
Context `{AeadScheme} (SV : Db -> gmap Z MemoryRecord -> Prop) `{!RecordStore SV}.
Context (en : Engine) (m : gmap Z MemoryRecord) (Hok : engine_ok SV en m).

Definition by_time : list MemoryRecord := omap (fun e => m !! te_id e) (ti_e (ix_time (en_ix en))).

Lemma time_entry e : e ∈ ti_e (ix_time (en_ix en)) <-> exists r, m !! te_id e = Some r /\ te_created e = mr_created r.
Proof.
  destruct (xo_time _ _ (eo_ix _ _ _ Hok)) as [_ Hp]. rewrite Hp. unfold time_entries. rewrite list_elem_of_fmap. split.
  - intros ([id r] & -> & Hin). apply elem_of_map_to_list in Hin. by exists r.
  - intros (r & Hr & E). exists (te_id e, r). split; [destruct e; cbn in *; by f_equal|by apply elem_of_map_to_list].
Qed.

Lemma live_id id r : m !! id = Some r -> mr_id r = id.
Proof. intros Hr. by destruct (live_record SV _ _ _ _ Hok Hr) as (_ & ? & _). Qed.

Lemma by_time_live r : r ∈ by_time <-> m !! mr_id r = Some r.
Proof.
  unfold by_time. rewrite list_elem_of_omap. split.
  - intros (e & _ & Hr). by rewrite (live_id _ _ Hr).
  - intros Hr. exists (mkTimeEntry (mr_created r) (mr_id r)). split; [|done]. apply time_entry. by exists r.
Qed.

(** A part of the entries, as records. *)
Lemma entries_ids (es : list TimeEntry) : (forall e, e ∈ es -> e ∈ ti_e (ix_time (en_ix en))) -> te_id <$> es = mr_id <$> omap (fun e => m !! te_id e) es.
Proof.
  induction es as [|e es IH]; intros Hin; [done|]. destruct (proj1 (time_entry e)) as (r & Hr & _); [apply Hin; by left|].
  cbn. rewrite Hr. cbn. rewrite (live_id _ _ Hr). f_equal. apply IH. intros e' He'. apply Hin. by right.
Qed.

Lemma entries_length (es : list TimeEntry) : (forall e, e ∈ es -> e ∈ ti_e (ix_time (en_ix en))) -> length (omap (fun e => m !! te_id e) es) = length es.
Proof. intros Hin. by rewrite <- (length_fmap mr_id), <- entries_ids, length_fmap. Qed.

Lemma by_time_ids : NoDup (mr_id <$> by_time).
Proof.
  unfold by_time. rewrite <- entries_ids by done. destruct (xo_time _ _ (eo_ix _ _ _ Hok)) as [_ Hp]. rewrite Hp. unfold time_entries.
  rewrite <- list_fmap_compose. change (NoDup ((map_to_list m).*1)). apply NoDup_fst_map_to_list.
Qed.

Lemma by_time_perm : by_time ≡ₚ (map_to_list m).*2.
Proof.
  apply NoDup_Permutation.
  - eapply NoDup_fmap_1, by_time_ids.
  - apply (NoDup_fmap_1 mr_id). rewrite <- list_fmap_compose. rewrite (list_fmap_ext _ fst); [apply NoDup_fst_map_to_list|].
    intros i [id r] Hi. apply list_elem_of_lookup_2, elem_of_map_to_list in Hi. cbn. by apply live_id.
  - intros r. rewrite by_time_live, list_elem_of_fmap. split.
    + intros Hr. exists (mr_id r, r). split; [done|by apply elem_of_map_to_list].
    + intros ([id r'] & -> & Hin). apply elem_of_map_to_list in Hin. cbn. by rewrite (live_id _ _ Hin).
Qed.

Lemma entries_sorted (es : list TimeEntry) :
  (forall e, e ∈ es -> e ∈ ti_e (ix_time (en_ix en))) -> StronglySorted te_le es -> StronglySorted chrono (omap (fun e => m !! te_id e) es).
Proof.
  intros Hin Hs. induction Hs as [|e es Hs IH Hf]; [constructor|]. destruct (proj1 (time_entry e)) as (r & Hr & Ec); [apply Hin; by left|].
  cbn. rewrite Hr. constructor; [apply IH; intros e' He'; apply Hin; by right|]. apply Forall_forall. intros r' Hr'.
  apply list_elem_of_omap in Hr' as (e' & He' & Hr'). rewrite Forall_forall in Hf. specialize (Hf e' He').
  destruct (proj1 (time_entry e')) as (r2 & Hr2 & Ec'); [apply Hin; by right|]. assert (r2 = r') as -> by congruence.
  unfold te_le in Hf. unfold chrono. rewrite (live_id _ _ Hr), (live_id _ _ Hr'). lia.
Qed.

Lemma by_time_sorted : StronglySorted chrono by_time.
Proof. destruct (xo_time _ _ (eo_ix _ _ _ Hok)) as [[Hs _] _]. by apply entries_sorted. Qed.

(** The entries of a range are the records of the range. *)
Lemma range_window s e :
  let hits := filter (in_range s e) (ti_e (ix_time (en_ix en))) in
  te_id <$> hits = mr_id <$> filter (fun r => within s e r = true) by_time /\ length hits = length (filter (fun r => within s e r = true) by_time).
Proof.
  cbn zeta. assert (te_id <$> filter (in_range s e) (ti_e (ix_time (en_ix en))) = mr_id <$> filter (fun r => within s e r = true) by_time) as E.
  2:{ split; [done|]. by rewrite <- (length_fmap te_id), E, length_fmap. }
  unfold by_time. assert (forall x, x ∈ ti_e (ix_time (en_ix en)) -> x ∈ ti_e (ix_time (en_ix en))) as Hin by done.
  revert Hin. generalize (ti_e (ix_time (en_ix en))) at 1 3 4 as es. induction es as [|x es IH]; intros Hin; [done|].
  destruct (proj1 (time_entry x)) as (r & Hr & Ec); [apply Hin; by left|]. cbn [omap list_omap]. rewrite Hr, !filter_cons.
  assert (in_range s e x <-> within s e r = true) as Hiff by (unfold in_range, within; rewrite Ec, andb_true_iff, !Z.leb_le; done).
  destruct (decide (in_range s e x)) as [Hx|Hx]; [rewrite decide_True by (by apply Hiff)|rewrite decide_False by (by rewrite <- Hiff)].
  - cbn. rewrite (live_id _ _ Hr). f_equal. apply IH. intros y Hy. apply Hin. by right.
  - apply IH. intros y Hy. apply Hin. by right.
Qed.

Lemma time_ids_ok : ids_ok (ix_time (en_ix en)).
Proof.
  apply Forall_forall. intros e He. apply time_entry in He as (r & Hr & _). destruct (live_record SV _ _ _ _ Hok Hr) as ((W & _) & <- & _).
  pose proof (rw_id r W) as Hu. unfold urange in Hu. lia.
Qed.

(** The ids of a part of the records tell membership. *)
Lemma ids_of_part (W : list MemoryRecord) r : W `sublist_of` by_time -> m !! mr_id r = Some r -> mr_id r ∈ mr_id <$> W <-> r ∈ W.
Proof.
  intros Hsub Hr. split; [|apply list_elem_of_fmap_2]. intros Hin. apply list_elem_of_fmap in Hin as (r' & E & Hr').
  assert (m !! mr_id r' = Some r') by (apply by_time_live; by eapply sublist_subseteq). congruence.
Qed.

Lemma part_nodup (W : list MemoryRecord) : W `sublist_of` by_time -> NoDup (mr_id <$> W).
Proof. intros Hsub. eapply sublist_NoDup; [apply by_time_ids|]. by apply fmap_sublist. Qed.

(** *** Time and scan *)

Lemma recent_ids s e cap :
  let R := filter (fun r => within s e r = true) by_time in
  time_index_range_recent true (ix_time (en_ix en)) s e cap =
    Some (mr_id <$> bounded_at cap true R, negb ((cap =? 0)%nat || (length R <=? cap)%nat)).
Proof.
  destruct (xo_time _ _ (eo_ix _ _ _ Hok)) as [W _]. rewrite (time_index_range_recent_exact _ s e cap W time_ids_ok).
  destruct (range_window s e) as [E1 E2]. cbn zeta in *. rewrite E2. unfold bounded_at.
  destruct (Nat.eqb_spec cap 0) as [->|Hc]; cbn [negb andb orb]; [by rewrite E1|].
  destruct (Nat.ltb_spec cap (length (filter (fun r => within s e r = true) by_time))), (Nat.leb_spec (length (filter (fun r => within s e r = true) by_time)) cap); try lia; cbn [negb].
  - by rewrite fmap_drop, E1, fmap_drop.
  - rewrite E1. replace (_ - cap)%nat with 0%nat by lia. done.
Qed.

Lemma oldest_ids s e cap :
  time_index_range true (ix_time (en_ix en)) s e cap = Some (mr_id <$> bounded_at cap false (filter (fun r => within s e r = true) by_time)).
Proof.
  destruct (xo_time _ _ (eo_ix _ _ _ Hok)) as [W _]. rewrite (time_index_range_exact _ s e cap W time_ids_ok).
  destruct (range_window s e) as [E1 _]. cbn zeta in *. unfold bounded_at. destruct (_ =? _)%nat; [by rewrite E1|]. by rewrite !fmap_take, E1.
Qed.

Lemma within_all : filter (fun r => within 0 UINT64_MAX r = true) by_time = by_time.
Proof.
  apply filter_all, Forall_forall. intros r Hr. apply by_time_live in Hr. destruct (live_record SV _ _ _ _ Hok Hr) as ((W & _) & _).
  pose proof (rw_created r W) as Hu. unfold urange in Hu. unfold within, UINT64_MAX. apply andb_true_iff. lia.
Qed.

(** *** Tags *)

Lemma rec_has_tag_spec r tag : rec_has_tag r tag = true <-> tag ∈ mr_tags r.
Proof.
  unfold rec_has_tag. rewrite existsb_exists. split.
  - intros (t & Hin & E). apply bool_decide_eq_true in E as ->. by apply list_elem_of_In.
  - intros Hin. exists tag. split; [by apply list_elem_of_In|by apply bool_decide_eq_true].
Qed.

Definition tags_match (r : MemoryRecord) (p : SearchParams) : Prop :=
  sp_tags p = [] \/ if sp_match_all p then Forall (fun t => t ∈ mr_tags r) (sp_tags p) else Exists (fun t => t ∈ mr_tags r) (sp_tags p).

Lemma passes_parts r p : passes_filters r p = true ->
  tags_match r p /\ (forall s e, sp_time p = Some (s, e) -> within s e r = true) /\ (forall pat, sp_pattern p = Some pat -> matches_pattern r p pat = true).
Proof.
  unfold passes_filters. destruct (is_deleted r); [done|]. destruct (sp_type p) as [t|]; [destruct (negb _); [done|]|];
    (destruct (match sp_max_importance p with Some b => _ | None => _ end); [done|]; destruct (match sp_agent_id p with Some a => _ | None => _ end); [done|];
     intros Hp; split_and!;
     [|intros s e E; rewrite E in Hp; destruct ((mr_created r <? s) || (e <? mr_created r)) eqn:Er; [done|]; unfold within; zbool; apply andb_true_iff; lia
      |intros pat E; rewrite E in Hp; destruct (match sp_time p with Some (s, e) => _ | None => _ end); [done|]; by destruct (matches_pattern r p pat)]).
  all: destruct (match sp_time p with Some (s, e) => _ | None => _ end); [done|]; destruct (match sp_pattern p with Some pat => _ | None => _ end); [done|];
    unfold tags_match; destruct (sp_tags p) as [|t0 tags]; [by left|]; right; destruct (sp_match_all p);
    [apply Forall_forall; intros x Hx; apply rec_has_tag_spec; rewrite forallb_forall in Hp; apply Hp; by apply list_elem_of_In
    |apply existsb_exists in Hp as (x & Hx & Hp); apply Exists_exists; exists x; split; [by apply list_elem_of_In|by apply rec_has_tag_spec]].
Qed.

Lemma tag_ids_spec p : sp_tags p <> [] ->
  exists ids, tag_index_query true true (ix_tags (en_ix en)) (sp_tags p) (sp_match_all p) = Some ids /\ NoDup ids /\
    forall r, m !! mr_id r = Some r -> tags_match r p -> mr_id r ∈ ids.
Proof.
  intros Hne. destruct (xo_tags _ _ (eo_ix _ _ _ Hok)) as (S & R & HS). destruct (tag_query_refines _ _ (sp_tags p) (sp_match_all p) R) as (l & E & Hs & Hl).
  exists l. split; [done|]. split; [by apply sorted_nodup|]. intros r Hr [?|Ht]; [done|]. apply Hl. split; [done|].
  destruct (sp_match_all p).
  - eapply Forall_impl; [exact Ht|]. cbn. intros t Hin. apply HS. by exists r.
  - eapply Exists_impl; [exact Ht|]. cbn. intros t Hin. apply HS. by exists r.
Qed.

(** *** Patterns *)

Lemma fact_live r p pat :
  m !! mr_id r = Some r -> matches_pattern r p pat = true ->
  exists pred key, fact_val r = Some (fa_subject (mr_fact r), pred, key) /\ pred_matches (pa_predicate pat) pred /\
    (forall s, pa_subject pat = Some s -> fa_subject (mr_fact r) ∈ s :: sp_subsume_ids p) /\
    (forall k oid ostr, pa_object pat = Some (k, oid, ostr) -> is_Some (object_key k oid ostr) -> object_key k oid ostr = Some key).
Proof.
  intros Hr Hm. destruct (live_record SV _ _ _ _ Hok Hr) as ((W & _) & _). pose proof (rw_fact r W) as Hf. unfold fact_ok in Hf.
  unfold matches_pattern in Hm. unfold fact_val. case_bool_decide as Hk; [done|]. destruct (fa_predicate (mr_fact r)) as [pred|] eqn:Ep; [|done].
  assert (exists key, object_key (fa_kind (mr_fact r)) (fa_object_id (mr_fact r)) (fa_object_str (mr_fact r)) = Some key) as [key Ekey].
  { destruct (fa_kind (mr_fact r)); [done|by eexists|]. destruct Hf as (_ & _ & _ & s & -> & _). by eexists. }
  rewrite Ekey. exists pred, key. split; [done|].
  destruct (match pa_subject pat with Some s => _ | None => false end) eqn:Es; [done|].
  destruct (match pa_predicate pat with Some q => _ | None => false end) eqn:Eq; [done|]. split_and!.
  - unfold pred_matches. destruct (pa_predicate pat) as [q|]; [|by left]. apply negb_false_iff, bool_decide_eq_true in Eq as ->. by right.
  - intros s E. rewrite E in Es. apply andb_false_iff in Es as [Es|Es]; apply negb_false_iff in Es.
    + apply Z.eqb_eq in Es as ->. left.
    + apply existsb_exists in Es as (x & Hx & E'). apply Z.eqb_eq in E' as ->. right. by apply list_elem_of_In.
  - intros k oid ostr E [key' Hkey]. rewrite E in Hm. case_bool_decide as Ek; [|done]. cbn [negb] in Hm. rewrite <- Ekey, Ek. case_bool_decide as Ei.
    + subst k. rewrite Ei. apply Z.eqb_eq in Hm as ->. done.
    + destruct (fa_object_str (mr_fact r)) as [a|]; [|done]. destruct ostr as [b|]; [|done]. apply bool_decide_eq_true in Hm as ->. by destruct k.
Qed.

Definition subject_ids (f : FactIndex) (pred : option (list Z)) (s : Z) : list Z := default [] (fact_index_by_subject true (Some f) s pred).

Lemma subject_ids_spec f pred s : fact_refines f (omap fact_val m) ->
  fact_index_by_subject true (Some f) s pred = Some (subject_ids f pred s) /\ NoDup (subject_ids f pred s) /\
  forall id, id ∈ subject_ids f pred s <-> exists r p o, m !! id = Some r /\ fact_val r = Some (s, p, o) /\ pred_matches pred p.
Proof.
  intros R. destruct (by_subject_exact f _ s pred R) as (l & E & Hs & Hl). unfold subject_ids. rewrite E. cbn. split; [done|]. split; [by apply sorted_nodup|].
  intros id. rewrite Hl. split.
  - intros (p & o & Hm & Hp). rewrite lookup_omap in Hm. destruct (m !! id) as [r|]; [|done]. by exists r, p, o.
  - intros (r & p & o & Hr & Hv & Hp). exists p, o. split; [|done]. by rewrite lookup_omap, Hr.
Qed.

Lemma subsume_union_spec io f pred i subjects ids :
  gather_ok io -> fact_refines f (omap fact_val m) ->
  subsume_union io (Some f) pred i subjects ids = Some (ids ++ (subjects ≫= subject_ids f pred)).
Proof.
  intros Hio R. revert i ids. induction subjects as [|s subjects IH]; intros i ids; cbn [subsume_union mbind list_bind]; [by rewrite app_nil_r|].
  destruct (subject_ids_spec f pred s R) as (E & _). rewrite (go_part _ Hio), E. destruct (subject_ids f pred s) as [|x l]; [by rewrite IH|].
  rewrite (go_grow _ Hio), IH. by rewrite <- app_assoc.
Qed.

Lemma union_nodup f pred subjects : fact_refines f (omap fact_val m) -> NoDup subjects -> NoDup (subjects ≫= subject_ids f pred).
Proof.
  intros R Hn. induction Hn as [|s subjects Hs _ IH]; [constructor|]. cbn [mbind list_bind]. apply NoDup_app. split; [apply (subject_ids_spec f pred s R)|]. split; [|done].
  intros id Hid Hin. apply (subject_ids_spec f pred s R) in Hid as (r & p & o & Hr & Hv & _). apply list_elem_of_bind in Hin as (s' & Hin & Hs').
  apply (subject_ids_spec f pred s' R) in Hin as (r' & p' & o' & Hr' & Hv' & _). assert (s' = s) as -> by congruence. done.
Qed.

Lemma pattern_ids_spec io p pat :
  gather_ok io -> pattern_ok (en_ix en) p -> sp_pattern p = Some pat ->
  exists ids, pattern_ids io (en_ix en) p pat = Some ids /\ NoDup ids /\ forall r, m !! mr_id r = Some r -> matches_pattern r p pat = true -> mr_id r ∈ ids.
Proof.
  intros Hio Hpo Ep. unfold pattern_ok, pattern_wf, bound_subject in Hpo. rewrite Ep in Hpo. destruct Hpo as (([f Ef] & Hbound & Hobj) & Hsub).
  pose proof (xo_facts _ _ (eo_ix _ _ _ Hok)) as R. rewrite Ef in R. cbn [describes fact_describes] in R. unfold pattern_ids. rewrite Ef, (go_ids _ Hio).
  destruct (pa_subject pat) as [s|] eqn:Es.
  - assert (match sp_subsume_ids p with [] => fact_index_by_subject true (Some f) s (pa_predicate pat) | sub => subsume_union io (Some f) (pa_predicate pat) 0 (s :: sub) [] end
      = Some ((s :: sp_subsume_ids p) ≫= subject_ids f (pa_predicate pat))) as ->.
    { destruct (sp_subsume_ids p) as [|x l]; [|by rewrite (subsume_union_spec io f _ 0 _ [] Hio R)].
      destruct (subject_ids_spec f (pa_predicate pat) s R) as (-> & _). cbn. by rewrite app_nil_r. }
    eexists. split; [done|]. split; [apply (union_nodup f _ _ R); by apply Hsub|]. intros r Hr Hm.
    destruct (fact_live r p pat Hr Hm) as (pred & key & Hv & Hp & Hs & _). apply list_elem_of_bind. exists (fa_subject (mr_fact r)). split; [|by apply Hs].
    apply (subject_ids_spec f _ _ R). by exists r, pred, key.
  - destruct (pa_object pat) as [[[k oid] ostr]|] eqn:Eo.
    + destruct (Hobj k oid ostr eq_refl) as [key Hkey]. destruct (by_object_exact f _ k oid ostr key (pa_predicate pat) R Hkey) as (l & -> & Hs & Hl).
      exists l. split; [done|]. split; [by apply sorted_nodup|]. intros r Hr Hm. destruct (fact_live r p pat Hr Hm) as (pred & key' & Hv & Hp & _ & Ho).
      specialize (Ho k oid ostr Eo ltac:(by exists key)). apply Hl. exists (fa_subject (mr_fact r)), pred. split; [|done]. rewrite lookup_omap, Hr. cbn. congruence.
    + destruct (Hbound eq_refl eq_refl) as [q Eq]. rewrite Eq. destruct (by_predicate_exact f _ q R) as (l & -> & Hs & _ & Hl).
      exists l. split; [done|]. split; [by apply sorted_nodup|]. intros r Hr Hm. destruct (fact_live r p pat Hr Hm) as (pred & key & Hv & Hp & _).
      apply Hl. exists (fa_subject (mr_fact r)), key. rewrite lookup_omap, Hr. cbn. rewrite Hv. destruct Hp as [?|Hp]; congruence.
Qed.

(** *** Every source *)

Lemma filter_ids_spec io p cap :
  gather_ok io -> pattern_ok (en_ix en) p ->
  exists ids, filter_ids io (en_ix en) p cap = Some (ids, complete p cap by_time) /\ NoDup ids /\
    forall r, m !! mr_id r = Some r -> passes_filters r p = true -> mr_id r ∈ ids <-> r ∈ window p cap by_time.
Proof.
  intros Hio Hpo. unfold filter_ids, complete. rewrite (go_ids _ Hio), (go_acc _ Hio). pose proof (window_sub p cap by_time) as Hsub. unfold window in *.
  destruct (sp_time p) as [[s e]|].
  - destruct (sp_oldest_first p); cbn [negb] in *.
    + rewrite oldest_ids. eexists. split; [|split; [by apply part_nodup|intros r Hr _; by apply ids_of_part]]. f_equal. f_equal.
      unfold bounded_at. rewrite length_fmap. destruct (Nat.eqb_spec cap 0); [done|]. cbn [orb]. rewrite length_take.
      destruct (Nat.ltb_spec (Nat.min cap (length (filter (fun r => within s e r = true) by_time))) cap), (Nat.ltb_spec (length (filter (fun r => within s e r = true) by_time)) cap); lia || done.
    + rewrite recent_ids. cbn zeta. rewrite negb_involutive. eexists. split; [done|]. split; [by apply part_nodup|]. intros r Hr _. by apply ids_of_part.
  - destruct (sp_pattern p) as [pat|] eqn:Ep.
    + destruct (pattern_ids_spec io p pat Hio Hpo Ep) as (ids & -> & Hn & Hin). exists ids. split; [done|]. split; [done|].
      intros r Hr Hf. split; [intros _; by apply by_time_live|]. intros _. apply Hin; [done|]. apply passes_parts in Hf as (_ & _ & Hf). by apply Hf.
    + destruct (sp_tags p) as [|t tags] eqn:Et.
      * rewrite recent_ids. cbn zeta. rewrite within_all, negb_involutive. eexists. split; [done|]. split; [by apply part_nodup|]. intros r Hr _. by apply ids_of_part.
      * destruct (tag_ids_spec p) as (ids & E & Hn & Hin); [by rewrite Et|]. rewrite Et in E. rewrite E. exists ids. split; [done|]. split; [done|].
        intros r Hr Hf. split; [intros _; by apply by_time_live|]. intros _. apply Hin; [done|]. by apply passes_parts in Hf as (Hf & _).
Qed.

(** ** Gathering and ranking *)

Context `{VecKernel} (exp : spec_float -> spec_float).

Lemma load_cand_live io now p src sc :
  gather_ok io -> load_cand exp io now (en_db en) p src sc =
    match m !! si_rec sc with Some r => if match_rec now p r then Some (make_cand exp p now src sc r) else None | None => None end.
Proof.
  intros Hio. pose proof (rs_load (en_db en) m (si_rec sc) (eo_store _ _ _ Hok)) as Hl. unfold load_cand, load_record, match_rec in *.
  rewrite (go_rerr _ Hio), (go_lalloc _ Hio), (go_dalloc _ Hio).
  destruct (hash_index_get (db_hash (en_db en)) (si_rec sc)) as [e|]; [|by destruct (m !! si_rec sc)].
  destruct (log_read rok aok (db_log (en_db en)) (he_offset e)) as [buf|]; [|by destruct (m !! si_rec sc)].
  destruct (record_decode aok buf) as [r|]; [|by destruct (m !! si_rec sc)].
  destruct (m !! si_rec sc) as [r'|]; [|done]. injection Hl as ->. by destruct (record_expired r' now), (passes_filters r' p).
Qed.

Definition cand_of (p : SearchParams) (now : Z) (r : MemoryRecord) : Cand := make_cand exp p now CAND_FILTER (plain_id (mr_id r)) r.

(** The answer before paging. *)
Definition answers (now : Z) (p : SearchParams) (cap : nat) : list MemoryRecord := filter (fun r => match_rec now p r = true) (window p cap by_time).

Lemma answers_sub now p cap : answers now p cap `sublist_of` by_time.
Proof. etrans; [apply sublist_filter|apply window_sub]. Qed.

Lemma answers_live now p cap r : r ∈ answers now p cap -> m !! mr_id r = Some r.
Proof. intros Hr. apply by_time_live. by apply (sublist_subseteq _ _ (answers_sub now p cap)). Qed.

Lemma gather_filter io now sem p fetch cap :
  gather_ok io -> pattern_ok (en_ix en) p ->
  exists cands, gather_candidates exp io now en sem p fetch CAND_FILTER cap = Some (cands, complete p cap by_time) /\
    cands ≡ₚ cand_of p now <$> answers now p cap.
Proof.
  intros Hio Hpo. destruct (filter_ids_spec io p cap Hio Hpo) as (ids & E & Hn & Hin). unfold gather_candidates, source_ids. rewrite E, (go_snap _ Hio), (go_cands _ Hio).
  cbn [negb orb]. eexists. split; [done|].
  assert (omap (load_cand exp io now (en_db en) p CAND_FILTER) (map plain_id ids) =
    cand_of p now <$> omap (fun id => match m !! id with Some r => if match_rec now p r then Some r else None | None => None end) ids) as ->.
  { clear -Hok Hio RecordStore0. induction ids as [|id ids IH]; [done|]. cbn [map omap list_omap]. rewrite load_cand_live by done. cbn [si_rec plain_id].
    destruct (m !! id) as [r|] eqn:Hr; [|done]. destruct (match_rec now p r); [|done]. cbn. by rewrite IH. }
  apply fmap_Permutation, NoDup_Permutation.
  - apply (NoDup_fmap_1 mr_id). clear -Hn Hok RecordStore0. induction Hn as [|id ids Hid _ IH]; [constructor|]. cbn [omap list_omap].
    destruct (m !! id) as [r|] eqn:Hr; [|done]. destruct (match_rec now p r); [|done]. cbn. apply NoDup_cons. split; [|done]. rewrite (live_id _ _ Hr). intros Hin. apply Hid.
    apply list_elem_of_fmap in Hin as (r' & E & Hin). apply list_elem_of_omap in Hin as (id' & Hid' & Hm). destruct (m !! id') as [r2|] eqn:Hr2; [|done].
    destruct (match_rec now p r2); [|done]. injection Hm as ->. by rewrite E, (live_id _ _ Hr2).
  - eapply sublist_NoDup; [|apply answers_sub]. eapply NoDup_fmap_1, by_time_ids.
  - intros r. unfold answers. rewrite list_elem_of_omap, list_elem_of_filter. split.
    + intros (id & Hid & Hm). destruct (m !! id) as [r'|] eqn:Hr; [|done]. destruct (match_rec now p r') eqn:Ef; [|done]. injection Hm as <-.
      split; [done|]. pose proof (live_id _ _ Hr) as <-. apply Hin; [done| |done]. by apply andb_true_iff in Ef as [_ ?].
    + intros [Hm Hw]. assert (m !! mr_id r = Some r) as Hr by (apply by_time_live; by eapply sublist_subseteq; [apply window_sub|]).
      exists (mr_id r). split; [apply Hin; [done| |done]; by apply andb_true_iff in Hm as [_ ?]|]. by rewrite Hr, Hm.
Qed.

Lemma select_answers ok now p cap cands n out :
  cands ≡ₚ cand_of p now <$> answers now p cap -> select_top ok cmp_created_asc cands n = Some out -> out = cand_of p now <$> take n (answers now p cap).
Proof.
  intros Hp Hs. rewrite fmap_take. eapply (select_top_take cmp_created_asc cands cmp_created_flip); [| |done|by rewrite Hp|].
  - intros x y z _ _ _. rewrite !cmp_created_chrono. apply chrono_trans.
  - intros x y Hx Hy. rewrite !cmp_created_chrono. intros H1 H2. rewrite Hp in Hx, Hy.
    apply list_elem_of_fmap in Hx as (r & -> & Hr). apply list_elem_of_fmap in Hy as (r' & -> & Hr'). cbn in H1, H2. pose proof (chrono_anti _ _ H1 H2) as E.
    assert (m !! mr_id r = Some r /\ m !! mr_id r' = Some r') as [E1 E2] by (split; by eapply answers_live). congruence.
  - pose proof (sorted_sublist _ _ _ (answers_sub now p cap) by_time_sorted) as Hso. clear Hp Hs. induction Hso as [|r l Hso IH Hf]; [constructor|]. cbn. constructor; [done|].
    apply Forall_fmap. eapply Forall_impl; [exact Hf|]. intros r' Hc. cbn. by apply cmp_created_chrono.
Qed.

(** *** The page *)

Definition page (p : SearchParams) (L : list MemoryRecord) : list MemoryRecord := let '(offset, top_k) := search_page p in take top_k (drop offset L).

Lemma page_slice {A} (offset top_k : nat) (L : list A) :
  let sel_n := if (offset + top_k <? length L)%nat then (offset + top_k)%nat else length L in
  drop (if (offset <? sel_n)%nat then offset else sel_n) (take sel_n L) = take top_k (drop offset L).
Proof.
  cbn zeta. rewrite take_drop_commute. destruct (Nat.ltb_spec (offset + top_k) (length L)) as [Hw|Hw].
  - destruct (Nat.ltb_spec offset (offset + top_k)); [done|]. by replace (offset + top_k)%nat with offset by lia.
  - rewrite (take_ge L (offset + top_k)) by lia. rewrite take_ge by done. destruct (Nat.ltb_spec offset (length L)); [done|].
    rewrite !drop_ge by lia. done.
Qed.

Record rank_ok (rk : RankIo) : Prop := { ro_select : rk_select rk = true; ro_res : rk_res rk = true; ro_exp : rk_exp rk = true }.

Definition unranked (p : SearchParams) : Prop := sp_embedding_dim p = 0%nat /\ (sp_query p = None \/ sp_query p = Some []).

Lemma unranked_source p : unranked p -> source_of_params p = CAND_FILTER /\ match sp_query p, ix_lex (en_ix en) with Some (_ :: _), None => true | _, _ => false end = false.
Proof. intros [E Hq]. unfold source_of_params. rewrite E. by destruct Hq as [-> | ->]; destruct (ix_lex (en_ix en)). Qed.

Lemma select_some ok cmp (cands : list Cand) n : ok = true -> exists out, select_top ok cmp cands n = Some out.
Proof. intros ->. unfold select_top. destruct (_ <=? _)%nat; eauto. Qed.

Lemma search_body_spec cfg rk world io now sem p want_explain :
  world 0%nat = mkSearchView en sem now io -> gather_ok io -> rank_ok rk -> pattern_ok (en_ix en) p -> unranked p -> require_phase en 2 = AEGIS_OK ->
  exists out, search_ex_body exp cfg rk world p want_explain = Some (inl out) /\ map fst out = page p (answers now p (sg_query_scan_cap cfg)).
Proof.
  intros Hw Hio Hrk Hpo Hun Hph. unfold search_ex_body. rewrite Hw. cbn [vw_en vw_sem vw_now vw_io].
  destruct (unranked_source p Hun) as [Hsrc Hlex]. destruct Hun as [Hdim _]. rewrite Hdim. cbn [Nat.eqb negb andb]. rewrite Hph, Hlex, Hsrc. cbn [is_ranked].
  destruct (search_page p) as [offset top_k] eqn:Epg. destruct (gather_filter io now sem p 0 (sg_query_scan_cap cfg) Hio Hpo) as (cands & -> & Hp). cbn [fmap option_fmap option_map fst].
  set (n := if (offset + top_k <? length cands)%nat then (offset + top_k)%nat else length cands).
  destruct (select_some (rk_select rk) cmp_created_asc cands n (ro_select _ Hrk)) as [ranked Hr]. rewrite Hr, (ro_res _ Hrk), (ro_exp _ Hrk). rewrite andb_false_r. cbn [negb orb].
  eexists. split; [done|]. rewrite (select_answers _ now p (sg_query_scan_cap cfg) cands n ranked Hp Hr).
  rewrite map_map. cbn [fst]. assert (length cands = length (answers now p (sg_query_scan_cap cfg))) as El by (by rewrite Hp, length_fmap).
  change (map (fun x => ca_rec x)) with (fmap (M := list) ca_rec). rewrite <- fmap_drop, <- list_fmap_compose. change (ca_rec ∘ cand_of p now) with (@id MemoryRecord). rewrite list_fmap_id.
  unfold page. rewrite Epg. unfold n. rewrite El. apply page_slice.
Qed.

(** ** Subsumption *)

Record subsume_ok (su : SubsumeIo) : Prop := { sk_lookup : su_lookup su = true; sk_subs : su_subs su = true; sk_get : forall k, io_ok (su_get su k) }.

(** A record the caller sees that says [x] is a [s]. *)
Definition says_is_a (now : Z) (ns : option (list Z)) (s x : Z) (r : MemoryRecord) : Prop :=
  record_expired r now = false /\ ns_denies ns r = false /\ fa_kind (mr_fact r) = FACT_OBJ_ID /\ fa_subject (mr_fact r) = x /\ x <> s.

(** The expansion of [s]: the subjects of the records of the taxonomy the caller
    sees, the first [cap] of them when there are more. *)
Definition expands (now : Z) (cap : nat) (ns : option (list Z)) (s : Z) (ids : list Z) (over : bool) : Prop :=
  exists l, strictly_sorted l /\ (forall id, id ∈ l <-> exists r x, m !! id = Some r /\ fact_val r = Some (x, is_a, (s, None))) /\
    over = negb (cap =? 0)%nat && (cap <? length l)%nat /\ StronglySorted Z.lt ids /\
    forall x, x ∈ ids <-> exists id r, id ∈ (if over then take cap l else l) /\ m !! id = Some r /\ says_is_a now ns s x r.

Lemma subjects_spec su now p s k ids :
  subsume_ok su -> forall x, x ∈ subsume_subjects su now en p s k ids <-> exists id r, id ∈ ids /\ m !! id = Some r /\ says_is_a now (sp_agent_id p) s x r.
Proof.
  intros Hsu x. revert k. induction ids as [|id ids IH]; intros k; cbn [subsume_subjects]; [set_solver|].
  rewrite (qe_get_live SV (su_get su k) now en m id (sp_agent_id p) Hok (sk_get _ Hsu k)).
  assert ((exists id' r, id' ∈ id :: ids /\ m !! id' = Some r /\ says_is_a now (sp_agent_id p) s x r) <->
    (exists r, m !! id = Some r /\ says_is_a now (sp_agent_id p) s x r) \/ x ∈ subsume_subjects su now en p s (S k) ids) as ->.
  { rewrite IH. split.
    - intros (id' & r & Hin & Hr). apply elem_of_cons in Hin as [->|Hin]; [left; by exists r|right; by exists id', r].
    - intros [(r & Hr)|(id' & r & Hin & Hr)]; [exists id, r; split; [by left|done]|exists id', r; split; [by right|done]]. }
  assert (forall P Q : Prop, ~ P -> (Q <-> P \/ Q)) as Hno by tauto. unfold says_is_a.
  destruct (m !! id) as [r|]; [|apply Hno; by intros (r & [=] & _)].
  destruct (record_expired r now) eqn:E1; [apply Hno; intros (r' & [= <-] & ? & _); congruence|].
  destruct (ns_denies (sp_agent_id p) r) eqn:E2; [apply Hno; intros (r' & [= <-] & _ & ? & _); congruence|]. cbn [orb].
  case_bool_decide as Hk; cbn [andb]; [|apply Hno; intros (r' & [= <-] & _ & _ & ? & _); congruence].
  destruct (Z.eqb_spec (fa_subject (mr_fact r)) s) as [Es|Es]; cbn [negb]; [apply Hno; intros (r' & [= <-] & _ & _ & _ & ? & ?); congruence|]. rewrite elem_of_cons. split.
  - intros [->|Hx]; [left; by exists r|by right].
  - intros [(r' & [= <-] & _ & _ & _ & Ex & _)|Hx]; [left; congruence|by right].
Qed.
End live.

Lemma ascending_nodup (l : list Z) : StronglySorted Z.lt l -> NoDup l.
Proof. induction 1 as [|x l _ IH Hf]; constructor; [|done]. intros Hx. rewrite Forall_forall in Hf. specialize (Hf x Hx). lia. Qed.

(** Dropping repeats from a sorted list. *)
Lemma uniq_sorted prev l :
  StronglySorted Z.le l -> (forall x y, prev = Some x -> y ∈ l -> x <= y) ->
  StronglySorted Z.lt (uniq_adjacent prev l) /\ (forall x, x ∈ uniq_adjacent prev l <-> x ∈ l /\ prev <> Some x).
Proof.
  intros Hs. revert prev. induction Hs as [|x l Hs IH Hf]; intros prev Hp; cbn [uniq_adjacent]; [split; [constructor|set_solver]|].
  rewrite Forall_forall in Hf. case_bool_decide as E.
  - destruct (IH prev) as [H1 H2]; [intros a b Ha Hb; apply (Hp a b Ha); by right|]. split; [done|]. intros y. rewrite H2, elem_of_cons. naive_solver.
  - destruct (IH (Some x)) as [H1 H2]; [intros a b [= <-] Hb; by apply Hf|]. split.
    + constructor; [done|]. apply Forall_forall. intros y Hy. apply H2 in Hy as [Hy Hne]. specialize (Hf y Hy). assert (x <> y) by congruence. lia.
    + intros y. rewrite !elem_of_cons, H2. split.
      * intros [->|[Hy Hne]]; [split; [by left|done]|]. split; [by right|]. intros Ep. specialize (Hp y x Ep ltac:(by left)). specialize (Hf y Hy). apply Hne. f_equal. lia.
      * intros [[->|Hy] Hne]; [by left|]. destruct (decide (x = y)) as [->|Hxy]; [by left|right; split; [done|congruence]].
Qed.

Section answer.
Context `{AeadScheme} (SV : Db -> gmap Z MemoryRecord -> Prop) `{!RecordStore SV} `{VecKernel} (exp : spec_float -> spec_float).
Context (en : Engine) (m : gmap Z MemoryRecord) (Hok : engine_ok SV en m).

Lemma sort_subjects l : StronglySorted Z.le (vk_qsort cmp_u64_asc l).
Proof.
  assert (forall a b, cmp_u64_asc a b <= 0 <-> a <= b) as E by (intros a b; unfold cmp_u64_asc; destruct (Z.ltb_spec b a), (Z.ltb_spec a b); lia).
  assert (StronglySorted (fun a b => cmp_u64_asc a b <= 0) (vk_qsort cmp_u64_asc l)) as Hs.
  { apply vk_qsort_sorted; [intros a b; rewrite !E; lia|]. intros a b c _ _ _. rewrite !E. lia. }
  induction Hs as [|x k Hs IH Hf]; [constructor|]. constructor; [done|]. eapply Forall_impl; [exact Hf|]. intros y. apply E.
Qed.

(** What resolving leaves of the parameters. *)
Definition resolved_to (now : Z) (cap : nat) (p q : SearchParams) : Prop :=
  exists ids over, q = set_subsume p ids over /\
    match sp_subsume p, bound_subject p, ix_facts (en_ix en) with
    | true, Some s, Some _ => expands m now cap (sp_agent_id p) s ids over
    | _, _, _ => ids = [] /\ over = false
    end.

Lemma resolve_spec cfg su now p :
  subsume_ok su -> (sp_subsume p = true -> ec_inference (en_cfg en) = true) ->
  exists q, resolve_subsume cfg su now en p = inl q /\ resolved_to now (sg_inference_max_subsume cfg) p q.
Proof.
  intros Hsu Hinf. unfold resolve_subsume. cbn [sp_subsume sp_pattern set_subsume]. fold (bound_subject p).
  change (match sp_pattern p with Some pat => pa_subject pat | None => None end) with (bound_subject p). unfold resolved_to.
  assert (exists q, inl (B := aegis_status) (set_subsume p [] false) = inl q /\ exists ids over, q = set_subsume p ids over /\ ids = [] /\ over = false) as Hnone.
  { exists (set_subsume p [] false). split; [done|]. by exists [], false. }
  destruct (sp_subsume p); [|exact Hnone]. rewrite (Hinf eq_refl). cbn [negb].
  destruct (bound_subject p) as [s|] eqn:Es; [|exact Hnone]. destruct (ix_facts (en_ix en)) as [f|] eqn:Ef; [|exact Hnone].
  pose proof (xo_facts _ _ (eo_ix _ _ _ Hok)) as R. rewrite Ef in R. cbn [describes fact_describes] in R. rewrite (sk_lookup _ Hsu), (sk_subs _ Hsu).
  destruct (by_object_exact f _ FACT_OBJ_ID s None (s, None) (Some is_a) R eq_refl) as (l & -> & Hs & Hl).
  assert (forall id, id ∈ l <-> exists r x, m !! id = Some r /\ fact_val r = Some (x, is_a, (s, None))) as Hl'.
  { intros id. rewrite Hl. split.
    - intros (x & p' & Hm & [?|[= <-]]); [done|]. rewrite lookup_omap in Hm. destruct (m !! id) as [r|]; [|done]. by exists r, x.
    - intros (r & x & Hr & Hv). exists x, is_a. split; [by rewrite lookup_omap, Hr|by right]. }
  set (cap := sg_inference_max_subsume cfg). set (over := negb (cap =? 0)%nat && (cap <? length l)%nat). cbn [negb].
  set (subs := subsume_subjects su now en (set_subsume p [] false) s 0 (if over then take cap l else l)).
  assert (forall x, x ∈ subs <-> exists id r, id ∈ (if over then take cap l else l) /\ m !! id = Some r /\ says_is_a now (sp_agent_id p) s x r) as Hsubs
    by apply (subjects_spec SV en m Hok su now (set_subsume p [] false) s 0 _ Hsu).
  destruct (uniq_sorted None (vk_qsort cmp_u64_asc subs) (sort_subjects subs)) as [U1 U2]; [done|].
  assert (expands m now cap (sp_agent_id p) s (uniq_adjacent None (vk_qsort cmp_u64_asc subs)) over) as He.
  { exists l. split_and!; [done|done|done|done|]. intros x. rewrite U2, vk_qsort_perm, Hsubs. naive_solver. }
  destruct l as [|i l]; [|eexists; split; [done|]; by eexists _, over]. exists (set_subsume p [] false). split; [done|].
  assert (over = false) as Eo by (unfold over; by destruct (cap =? 0)%nat). exists [], false. split; [done|]. exists [].
  split_and!; [done|done|done|constructor|]. intros x. split; [by intros ?%elem_of_nil|]. by intros (id & r & ?%elem_of_nil & _).
Qed.

Lemma resolved_ok now cap p q : resolved_to now cap p q -> pattern_wf (en_ix en) p -> pattern_ok (en_ix en) q.
Proof.
  intros (ids & over & -> & He) Hw. split; [done|]. intros s Hs. change (bound_subject p = Some s) in Hs. cbn [sp_subsume_ids set_subsume]. rewrite Hs in He.
  assert (ids = [] \/ exists o, expands m now cap (sp_agent_id p) s ids o) as [->|(o & l & _ & _ & _ & Hsort & Hin)].
  { destruct (sp_subsume p); [|left; by destruct He]. destruct (ix_facts (en_ix en)); [right; by exists over|left; by destruct He]. }
  { apply NoDup_singleton. }
  apply NoDup_cons. split; [|by apply ascending_nodup]. intros Hx. apply Hin in Hx as (_ & _ & _ & _ & _ & _ & _ & _ & Hne). done.
Qed.

(** ** Search *)

Lemma search_spec cfg su rk world io now sem p q en_end now_end :
  world 0%nat = mkSearchView en sem now io -> gather_ok io -> rank_ok rk -> require_phase en 2 = AEGIS_OK -> unranked p -> pattern_wf (en_ix en) p ->
  resolve_subsume cfg su now en p = inl q -> resolved_to now (sg_inference_max_subsume cfg) p q ->
  let out := page p (answers en m now q (sg_query_scan_cap cfg)) in
  qe_search exp cfg su rk world en_end now_end p = Some (track p now_end en_end out, inl out).
Proof.
  intros Hw Hio Hrk Hph Hun Hwf Hq Hr. cbn zeta. unfold qe_search, qe_search_ex. rewrite Hw. cbn [vw_now vw_en]. rewrite Hq.
  destruct (search_body_spec SV en m Hok exp cfg rk world io now sem q false Hw Hio Hrk (resolved_ok _ _ _ _ Hr Hwf)) as (out & -> & E).
  - destruct Hr as (ids & over & -> & _). exact Hun.
  - done.
  - rewrite E. destruct Hr as (ids & over & -> & _). done.
Qed.
End answer.

(** ** Deletion by query *)

Section deletion.
Context `{AeadScheme} (SV : Db -> gmap Z MemoryRecord -> Prop) `{!RecordStore SV}.

Lemma index_delete_frame io en cur : en_db (index_delete io en cur) = en_db en /\ en_cfg (index_delete io en cur) = en_cfg en.
Proof. unfold index_delete, db_retract_enqueue. cbn. repeat (case_match; cbn); done. Qed.

(** A deletion keeps the configuration, and is acknowledged once its tombstone
    is written and flushed. *)
Lemma qe_delete_frame io now en id ns : en_cfg (fst (qe_delete io now en id ns)) = en_cfg en.
Proof.
  unfold qe_delete. destruct (require_phase en 1); try done. destruct (load_record _ _ _ _ _) as [cur|]; [|done]. destruct (is_deleted cur || ns_denies ns cur); [done|].
  destruct (append_and_hash _ _ _) as [db st]. destruct (index_delete_frame io en cur) as [_ E]. unfold finish, durably_flush. destruct st; try exact E.
  destruct (log_fsync_if_batched _ _) as [lf ok]. exact E.
Qed.

Lemma qe_delete_synced io now en id ns cur :
  require_phase en 1 = AEGIS_OK -> load_record (qi_rerr io) (qi_lalloc io) (qi_dalloc io) (en_db en) id = inl cur -> is_deleted cur = false -> ns_denies ns cur = false ->
  snd (append_and_hash (qi_write io) (en_db en) (tombstone now cur)) = AEGIS_OK -> qi_sync io = true -> snd (qe_delete io now en id ns) = AEGIS_OK.
Proof.
  intros Hph Hl Hd Hn Ha Hs. unfold qe_delete. rewrite Hph, Hl, Hd, Hn. cbn [orb]. destruct (index_delete_frame io en cur) as [Edb _]. rewrite Edb. fold (tombstone now cur).
  destruct (append_and_hash (qi_write io) (en_db en) (tombstone now cur)) as [db st]. cbn in Ha. subst st. unfold finish, durably_flush. rewrite Hs. unfold log_fsync_if_batched.
  destruct (negb _); [done|]. by destruct (_ || _).
Qed.

(** Every tombstone can be written. *)
Fixpoint deletes_ok (io : nat -> QeIo) (now : nat -> Z) (k : nat) (en : Engine) (ids : list Z) (ns : option (list Z)) : Prop :=
  match ids with
  | [] => True
  | id :: ids' => io_ok (io k) /\ u64 (now k) /\ tomb_written (io k) (now k) en id /\ deletes_ok io now (S k) (fst (qe_delete (io k) (now k) en id ns)) ids' ns
  end.

Definition deletable (ns : option (list Z)) (ids : list Z) (x : Z * MemoryRecord) : bool := bool_decide (x.1 ∈ ids) && negb (ns_denies ns x.2).

Lemma delete_all_spec io now k en m ids ns n :
  engine_ok SV en m -> require_phase en 1 = AEGIS_OK -> deletes_ok io now k en ids ns -> NoDup ids ->
  let '(en', n') := delete_all io now k en ids ns n in
  exists m', engine_ok SV en' m' /\ (forall id, m' !! id = match m !! id with Some r => if deletable ns ids (id, r) then None else Some r | None => None end) /\
    (n' + size m' <= n + size m)%nat /\ ((forall j, qi_sync (io j) = true) -> (n' + size m' = n + size m)%nat).
Proof.
  intros Hok Hph Hd Hn. revert k en m n Hok Hph Hd. induction Hn as [|id ids Hid _ IH]; intros k en m n Hok Hph Hd; cbn [delete_all].
  { exists m. split; [done|]. split; [|done]. intros id. by destruct (m !! id). }
  destruct Hd as (Hio & Hnow & Ht & Hd). pose proof (qe_delete_spec SV (io k) (now k) en m id ns Hok Hio Hnow) as Hs. pose proof (qe_delete_frame (io k) (now k) en id ns) as Hcfg.
  pose proof (io_load SV (io k) en m id Hio Hok) as Hload. pose proof (qe_delete_synced (io k) (now k) en id ns) as Hsync.
  destruct (qe_delete (io k) (now k) en id ns) as [en1 st] eqn:E. cbn [fst snd] in *.
  assert (require_phase en1 1 = AEGIS_OK) as Hph1 by (unfold require_phase in *; by rewrite Hcfg).
  assert (forall i r, i <> id -> deletable ns (id :: ids) (i, r) = deletable ns ids (i, r)) as Hother.
  { intros i r Hne. unfold deletable. cbn [fst snd]. f_equal. apply bool_decide_ext. rewrite elem_of_cons. naive_solver. }
  destruct Hs as [(-> & Hst & Hden)|(cur & Hc & Hns & Hm)].
  - specialize (IH (S k) en m (match st with AEGIS_OK => S n | _ => n end) Hok Hph1 Hd). destruct (delete_all _ _ _ _ _ _ _) as [en' n'].
    destruct IH as (m' & Hok' & Hm' & Hle & Heq). assert (match st with AEGIS_OK => S n | _ => n end = n) as En by (by destruct st). rewrite En in *.
    exists m'. split; [done|]. split; [|done]. intros i. rewrite Hm'. destruct (m !! i) as [r|] eqn:Hi; [|done]. destruct (decide (i = id)) as [->|Hne]; [|by rewrite Hother].
    unfold deletable. cbn [fst snd]. rewrite (Hden Hph r Hi). by rewrite !andb_false_r.
  - rewrite Hc in Hload. destruct (live_record SV _ _ _ _ Hok Hc) as (_ & _ & _ & _ & Hdel).
    rewrite (Ht cur) in Hm by (by eapply loaded_live). destruct Hm as [Hok1 Hst].
    specialize (IH (S k) en1 (delete id m) (match st with AEGIS_OK => S n | _ => n end) Hok1 Hph1 Hd). destruct (delete_all _ _ _ _ _ _ _) as [en' n'].
    destruct IH as (m' & Hok' & Hm' & Hle & Heq). assert (size m = S (size (delete id m))) as Hsz.
    { rewrite map_size_delete_Some by (by rewrite Hc). assert (size m <> 0%nat); [|lia]. rewrite map_size_non_empty_iff. intros ->. by rewrite lookup_empty in Hc. }
    exists m'. split; [done|]. split_and!.
    + intros i. rewrite Hm'. destruct (decide (i = id)) as [->|Hne].
      * rewrite lookup_delete_eq, Hc. unfold deletable. cbn [fst snd]. rewrite Hns, bool_decide_eq_true_2 by (by left). done.
      * rewrite lookup_delete_ne by done. destruct (m !! i); [by rewrite Hother|done].
    + destruct st; lia.
    + intros Hall. specialize (Heq Hall). specialize (Hsync cur Hph Hload Hdel Hns ltac:(apply Ht; by eapply loaded_live) (Hall k)). subst st. lia.
Qed.
End deletion.
