(* ===== verification/SearchAnswers.v ===== *)
(** * What search, count and deletion by query answer

    The theorems on [src/query/qe_search.c]: unranked answers against the
    reference of [SearchCorrect], and what holds of every answer, ranked or not,
    whatever runs beside the search. *)

From S2P Require Import Prelude Endian SortedArray HashIndex Record RecordCodec RecordRoundtrip StrTable ProbeTable Intern TimeIndex TagIndex UsageIndex EdgeIndex FactIndex Aead AeadCorrect Log LogCorrect Floats OpenTable BinaryHeap Hnsw HnswCorrect SemanticIndex Tenant CkptCrypt Store StoreCorrect Compaction CompactionCorrect StoreView WorkingBuffer Json Registry Lexical LexicalCorrect LexSearch LexSearchCorrect Engine Rebuild EngineIndexes EngineCorrect EngineRefines Search SearchSelect SearchCorrect.

(** ** Any search *)

Section any.
Context `{AeadScheme} `{VecKernel} (exp : spec_float -> spec_float).

(** What a view shows of a candidate. *)
Definition shown (v : SearchView) (p : SearchParams) (r : MemoryRecord) : Prop :=
  passes_filters r p = true /\ record_expired r (vw_now v) = false /\
  exists id, load_record (gi_rerr (vw_io v)) (gi_lalloc (vw_io v)) (gi_dalloc (vw_io v)) (en_db (vw_en v)) id = inl r.

Lemma gather_shown v p fetch src cap cands exhausted :
  gather_candidates exp (vw_io v) (vw_now v) (vw_en v) (vw_sem v) p fetch src cap = Some (cands, exhausted) -> Forall (fun c => shown v p (ca_rec c)) cands.
Proof.
  unfold gather_candidates. destruct (source_ids _ _ _ _ _ _ _) as [[ids ex]|]; [|done]. destruct (negb _ || negb _); [done|]. intros [= <- _].
  apply Forall_forall. intros c Hc. apply list_elem_of_omap in Hc as (sc & _ & Hc). unfold load_cand in Hc. unfold shown, load_record.
  destruct (hash_index_get (db_hash (en_db (vw_en v))) (si_rec sc)) as [e|] eqn:E1; [|done].
  destruct (log_read _ _ _ _) as [buf|] eqn:E2; [|done]. destruct (record_decode _ _) as [r|] eqn:E3; [|done].
  destruct (record_expired r (vw_now v)) eqn:E4; [done|]. destruct (passes_filters r p) eqn:E5; [|done]. cbn [orb negb] in Hc. injection Hc as <-.
  assert (ca_rec (make_cand exp p (vw_now v) src sc r) = r) as -> by (by destruct src). split_and!; [done|done|]. exists (si_rec sc). by rewrite E1, E2, E3.
Qed.

Lemma offer_length cmp c n h i : (length h <= n)%nat -> (length (heap_offer cmp c n h i) <= n)%nat.
Proof.
  intros Hl. unfold heap_offer, idx_sift_up, idx_sift_down. destruct (Nat.ltb_spec (length h) n).
  - rewrite sift_up_perm, length_app. cbn. lia.
  - destruct (h !! 0%nat); [|done]. destruct (c !! i); [|done]. destruct (c !! _); [|done]. destruct (_ <? 0); [|done]. rewrite sift_down_perm, length_insert. lia.
Qed.

Lemma select_members ok cmp cands n out : select_top ok cmp cands n = Some out -> (forall c, c ∈ out -> c ∈ cands) /\ ((n <= length cands)%nat -> (length out <= n)%nat).
Proof.
  unfold select_top. destruct (Nat.leb_spec (length cands) n).
  { intros [= <-]. split.
    - intros c Hc. by rewrite vk_qsort_perm in Hc.
    - rewrite vk_qsort_perm. lia. }
  destruct ok; [|done]. intros [= <-]. set (h := foldl _ _ _). assert (length h <= n)%nat as Hh.
  { unfold h. generalize (seq 0 (length cands)). intros l. assert (length (A := nat) [] <= n)%nat as Hnil by (cbn; lia). revert Hnil. generalize (@nil nat).
    induction l as [|i l IH]; intros h0 Hl; [done|]. cbn [foldl]. by apply IH, offer_length. }
  assert (length (omap (fun i => cands !! i) h) <= length h)%nat as Ho by (clear; induction h as [|i h IH]; [done|]; cbn; destruct (cands !! i); cbn; lia).
  split; [|rewrite vk_qsort_perm; lia]. intros c Hc. rewrite vk_qsort_perm in Hc. apply list_elem_of_omap in Hc as (i & _ & Hi). by eapply list_elem_of_lookup_2.
Qed.

(** Widening ends: the fetch quadruples up to the cap. *)
Lemma widen_spec n k world p src want fetch :
  (SEARCH_FETCH_CAP <= fetch * 4 ^ n)%nat ->
  exists res, widen exp (S n) k world p src want fetch = Some res /\ match res with Some cands => exists j, (k <= j < k + S n)%nat /\ Forall (fun c => shown (world j) p (ca_rec c)) cands | None => True end.
Proof.
  revert k fetch. induction n as [|n IH]; intros k fetch Hf; cbn [widen].
  all: destruct (gather_candidates _ _ _ _ _ _ _ _ _) as [[cands ex]|] eqn:Eg; [|by exists None]; pose proof (gather_shown _ _ _ _ _ _ _ Eg) as Hs.
  - assert ((SEARCH_FETCH_CAP <=? fetch)%nat = true) as -> by (apply Nat.leb_le; cbn in Hf; lia). rewrite orb_true_r. exists (Some cands). split; [done|]. exists k. split; [lia|done].
  - destruct (_ || _); [exists (Some cands); split; [done|]; exists k; split; [lia|done]|].
    set (f' := if (fetch * 4 <? SEARCH_FETCH_CAP)%nat then (fetch * 4)%nat else SEARCH_FETCH_CAP).
    destruct (IH (S k) f') as (res & E & Hres).
    { unfold f'. destruct (Nat.ltb_spec (fetch * 4) SEARCH_FETCH_CAP); [rewrite Nat.pow_succ_r' in Hf; nia|]. pose proof (Nat.pow_nonzero 4 n). nia. }
    exists res. split; [exact E|]. destruct res; [|done]. destruct Hres as (j & Hj & Hf'). exists j. split; [lia|done].
Qed.

Lemma search_page_top p : (1 <= snd (search_page p))%nat.
Proof. unfold search_page. cbn. destruct (Nat.eqb_spec (sp_top_k p) 0); lia. Qed.

Lemma fetch_cap_Z : Z.of_nat SEARCH_FETCH_CAP = 8192.
Proof. done. Qed.

#[local] Opaque SEARCH_FETCH_CAP.

Lemma body_shown cfg rk world p want_explain :
  exists res, search_ex_body exp cfg rk world p want_explain = Some res /\
    match res with
    | inl out => (length out <= snd (search_page p))%nat /\ exists j, (j < WIDEN_TURNS)%nat /\ Forall (fun x => shown (world j) p x.1) out
    | inr st => st <> AEGIS_OK
    end.
Proof.
  unfold search_ex_body. set (en := vw_en (world 0%nat)). destruct (require_phase en (if (sp_embedding_dim p =? 0)%nat then 2 else 3)) eqn:Eph; try by eexists.
  destruct (negb _ && negb _); [by eexists|]. destruct (match sp_query p with Some (_ :: _) => _ | _ => _ end); [by eexists|].
  pose proof (search_page_top p) as Htop. destruct (search_page p) as [offset top_k]. cbn [snd] in *. set (want := (offset + top_k)%nat).
  set (gathered := if is_ranked (source_of_params p) then _ else _).
  assert (exists res, gathered = Some res /\ match res with Some cands => exists j, (j < WIDEN_TURNS)%nat /\ Forall (fun c => shown (world j) p (ca_rec c)) cands | None => True end) as (res & -> & Hres).
  { unfold gathered. destruct (is_ranked (source_of_params p)).
    - destruct (widen_spec 4 0 world p (source_of_params p) want (if (SEARCH_FETCH_CAP <? want * 4 + 32)%nat then SEARCH_FETCH_CAP else (want * 4 + 32)%nat)) as (res & E & Hr).
      { pose proof fetch_cap_Z. destruct (Nat.ltb_spec SEARCH_FETCH_CAP (want * 4 + 32)); change (4 ^ 4)%nat with 256%nat; unfold want in *; lia. }
      exists res. split; [exact E|]. destruct res; [|done]. destruct Hr as (j & Hj & Hf). exists j. split; [unfold WIDEN_TURNS; lia|done].
    - destruct (gather_candidates _ _ _ _ _ _ _ _ _) as [[cands ex]|] eqn:Eg; [|by exists None]. exists (Some cands). split; [done|]. exists 0%nat. split; [unfold WIDEN_TURNS; lia|]. by eapply gather_shown. }
  destruct res as [cands|]; [|by eexists]. destruct Hres as (j & Hj & Hf). set (n := if (want <? length cands)%nat then want else length cands).
  assert (n <= length cands /\ n <= want)%nat as [Hn Hw] by (unfold n; destruct (Nat.ltb_spec want (length cands)); lia).
  destruct (select_top _ _ cands n) as [ranked|] eqn:Es; [|by eexists]. destruct (_ || negb (rk_res rk)); [by eexists|]. eexists. split; [done|].
  apply select_members in Es as [Hin Hlen]. specialize (Hlen Hn). split.
  - rewrite length_map, length_drop. destruct (Nat.ltb_spec offset n); unfold want in Hw; lia.
  - exists j. split; [done|]. apply Forall_fmap, Forall_drop. rewrite Forall_forall in Hf |- *. intros c Hc. cbn. by apply Hf, Hin.
Qed.
End any.

Lemma search_ex_shown `{AeadScheme} `{VecKernel} exp cfg su rk world en_end now_end p want_explain :
  exists en' res, qe_search_ex exp cfg su rk world en_end now_end p want_explain = Some (en', res) /\
    match res with
    | inl (out, trunc) => en' = track p now_end en_end (map fst out) /\ (length out <= snd (search_page p))%nat /\
        exists j ids, (j < WIDEN_TURNS)%nat /\ (sp_subsume p = false -> ids = []) /\ Forall (fun x => shown (world j) (set_subsume p ids trunc) x.1) out
    | inr st => en' = en_end /\ st <> AEGIS_OK
    end.
Proof.
  unfold qe_search_ex. destruct (resolve_subsume _ _ _ _ _) as [q|st] eqn:Er.
  - assert (exists ids, q = set_subsume p ids (sp_subsume_truncated q) /\ (sp_subsume p = false -> ids = [])) as (ids & Eq & Hids).
    { revert Er. unfold resolve_subsume. cbn [sp_subsume set_subsume]. destruct (sp_subsume p); [|intros [= <-]; by exists []].
      destruct (match sp_pattern _ with Some _ => _ | None => _ end); [|intros [= <-]; by exists []]. destruct (ix_facts _); [|intros [= <-]; by exists []].
      destruct (negb _); [done|]. destruct (fact_index_by_object _ _ _ _ _ _) as [[|i l]|]; [intros [= <-]; by exists []| |done].
      destruct (negb (su_subs su)); [done|]. intros [= <-]. by eexists. }
    destruct (body_shown exp cfg rk world q want_explain) as ([out|st] & -> & Hb).
    + eexists _, _. split; [done|]. cbn. split; [done|]. destruct Hb as (Hl & j & Hj & Hf). split; [by rewrite Eq in Hl|]. exists j, ids. split_and!; [done|done|]. by rewrite <- Eq.
    + by eexists _, _.
  - eexists _, _. split; [done|]. split; [done|]. revert Er. unfold resolve_subsume. repeat (case_match; try done); congruence.
Qed.

Lemma passes_scope r p : passes_filters r p = true ->
  is_deleted r = false /\ (forall t, sp_type p = Some t -> mr_type r = t) /\ (forall a, sp_agent_id p = Some a -> mr_agent_id r = Some a).
Proof.
  unfold passes_filters. destruct (is_deleted r); [done|]. intros Hp. split; [done|]. destruct (sp_type p) as [t|].
  - case_bool_decide as Et; [|done]. cbn [negb] in Hp. split; [by intros ? [= <-]|]. intros a Ea. rewrite Ea in Hp. destruct (match sp_max_importance p with Some _ => _ | None => _ end); [done|].
    destruct (mr_agent_id r) as [b|]; [|done]. case_bool_decide as Eb; [by subst|done].
  - split; [done|]. intros a Ea. rewrite Ea in Hp. destruct (match sp_max_importance p with Some _ => _ | None => _ end); [done|].
    destruct (mr_agent_id r) as [b|]; [|done]. case_bool_decide as Eb; [by subst|done].
Qed.

Lemma and_iff_distrib (A B C : Prop) : (A -> B <-> C) -> A /\ B <-> A /\ C.
Proof. tauto. Qed.

Lemma answers_all `{AeadScheme} SV `{!RecordStore SV} en m now p r :
  engine_ok SV en m -> r ∈ answers en m now p 0 <-> m !! mr_id r = Some r /\ match_rec now p r = true.
Proof.
  intros Hok. unfold answers. rewrite list_elem_of_filter, (and_comm (m !! mr_id r = Some r)). apply and_iff_distrib. intros Hm.
  rewrite <- (by_time_live SV en m Hok). unfold window. destruct (sp_time p) as [[s e]|] eqn:Et.
  - cbn [bounded_at Nat.eqb]. rewrite list_elem_of_filter. apply andb_true_iff in Hm as [_ Hm]. apply passes_parts in Hm as (_ & Hm & _). specialize (Hm s e Et). naive_solver.
  - destruct (sp_pattern p); [done|]. by destruct (sp_tags p).
Qed.

(** C16: A search, ranked or not, with any allocation or read failing and any
    operation running between its gatherings, returns within five gatherings and
    changes nothing but the usage counters; it answers at most [top_k] records,
    and each was stored, live, unexpired, of the type and the namespace asked for
    and inside the other filters when it was gathered. *)
Theorem search_confined `{AeadScheme} `{VecKernel} exp cfg su rk world en_end now_end p want_explain :
  exists en' res, qe_search_ex exp cfg su rk world en_end now_end p want_explain = Some (en', res) /\ en_db en' = en_db en_end /\
    match res with
    | inr st => en' = en_end /\ st <> AEGIS_OK
    | inl (out, trunc) =>
        (length out <= if (sp_top_k p =? 0)%nat then 10 else sp_top_k p)%nat /\
        exists j ids, (j < WIDEN_TURNS)%nat /\ (sp_subsume p = false -> ids = []) /\
          forall r ex, (r, ex) ∈ out ->
            is_deleted r = false /\ record_expired r (vw_now (world j)) = false /\ passes_filters r (set_subsume p ids trunc) = true /\
            (forall t, sp_type p = Some t -> mr_type r = t) /\ (forall a, sp_agent_id p = Some a -> mr_agent_id r = Some a) /\
            exists id, load_record (gi_rerr (vw_io (world j))) (gi_lalloc (vw_io (world j))) (gi_dalloc (vw_io (world j))) (en_db (vw_en (world j))) id = inl r
    end.
Proof.
  destruct (search_ex_shown exp cfg su rk world en_end now_end p want_explain) as (en' & res & E & Hres). exists en', res. split; [done|].
  destruct res as [[out trunc]|st]; [|by destruct Hres as [-> ?]]. destruct Hres as (-> & Hl & j & ids & Hj & Hids & Hf). split; [unfold track; by destruct (sp_track_usage p)|].
  split; [exact Hl|]. exists j, ids. split; [done|]. split; [done|]. intros r ex Hin. rewrite Forall_forall in Hf. destruct (Hf _ Hin) as (Hp & He & Hid). cbn [fst] in *.
  destruct (passes_scope _ _ Hp) as (Hd & Ht & Ha). by split_and!.
Qed.

(** C14: An unranked search is a page of the matching records. Over an engine
    that holds the records [m] and with nothing failing, with the records [T] in
    order of creation and id, the search returns the records number [offset] to
    [offset + top_k] of those in its source (the newest or oldest of a time range
    or of all when the scan is capped) that are unexpired and pass its filters,
    whichever index the source is read from; the count is their number, marked a
    floor when the cap may have cut some off or the expansion of the subject was
    cut; and the expansion is the subjects the caller sees below the bound one. *)
Theorem search_filter_exact `{AeadScheme} `{VecKernel} exp cfg su rk world io now sem en m p en_end now_end :
  engine_ok store_view en m -> world 0%nat = mkSearchView en sem now io -> gather_ok io -> rank_ok rk -> subsume_ok su -> require_phase en 2 = AEGIS_OK ->
  unranked p -> pattern_wf (en_ix en) p -> (sp_subsume p = true -> ec_inference (en_cfg en) = true) ->
  exists T q, T ≡ₚ (map_to_list m).*2 /\ StronglySorted chrono T /\ resolved_to en m now (sg_inference_max_subsume cfg) p q /\
    let found := filter (fun r => match_rec now q r = true) (window q (sg_query_scan_cap cfg) T) in
    qe_search exp cfg su rk world en_end now_end p = Some (track p now_end en_end (page p found), inl (page p found)) /\
    qe_count exp cfg su (world 0%nat) p = inl (length found, negb (complete q (sg_query_scan_cap cfg) T) || sp_subsume_truncated q).
Proof.
  intros Hok Hw Hio Hrk Hsu Hph Hun Hwf Hinf. destruct (resolve_spec store_view en m Hok cfg su now p Hsu Hinf) as (q & Hq & Hr).
  exists (by_time en m), q. split; [by apply (by_time_perm store_view)|]. split; [by apply (by_time_sorted store_view)|]. split; [done|]. split.
  - exact (search_spec store_view exp en m Hok cfg su rk world io now sem p q en_end now_end Hw Hio Hrk Hph Hun Hwf Hq Hr).
  - unfold qe_count. rewrite Hw. cbn [vw_en vw_now vw_io vw_sem]. rewrite Hph, Hq.
    destruct (gather_filter store_view en m Hok exp io now sem q 0 (sg_query_scan_cap cfg) Hio (resolved_ok en m _ _ _ _ Hr Hwf)) as (cands & -> & Hp).
    by rewrite Hp, length_fmap.
Qed.

(** Some filter that bounds a deletion. *)
Definition bounded_query (p : SearchParams) : Prop := match sp_type p, sp_tags p, sp_time p with None, [], None => False | _, _, _ => True end.

(** C15: A deletion by query deletes the matching records and no others. Over an
    engine that holds the records [m], when its tombstones can be written, it
    leaves an engine that holds [m] without the records that are unexpired, pass
    the filters and are of the namespace, however many there are and whatever
    index they are found in; the number answered is how many went, or fewer when
    a flush fails; a query without type, tags or time is refused. *)
Theorem delete_by_query_exact `{AeadScheme} `{VecKernel} exp io now v m p ns :
  engine_ok store_view (vw_en v) m -> gather_ok (vw_io v) -> pattern_ok (en_ix (vw_en v)) p -> require_phase (vw_en v) 1 = AEGIS_OK ->
  (forall cands ex, gather_candidates exp (vw_io v) (vw_now v) (vw_en v) (vw_sem v) p 0 CAND_FILTER 0 = Some (cands, ex) ->
     deletes_ok io now 0 (vw_en v) (map (fun c => mr_id (ca_rec c)) cands) ns) ->
  let '(en', res) := qe_delete_by_query exp true io now v p ns in
  (~ bounded_query p -> en' = vw_en v /\ res = inr AEGIS_ERR_INVALID_REQUEST) /\
  (bounded_query p -> exists n m', res = inl n /\ engine_ok store_view en' m' /\
     (forall id, m' !! id = match m !! id with Some r => if match_rec (vw_now v) p r && negb (ns_denies ns r) then None else Some r | None => None end) /\
     (n + size m' <= size m)%nat /\ ((forall k, qi_sync (io k) = true) -> (n + size m' = size m)%nat)).
Proof.
  intros Hok Hio Hpo Hph Hdel. unfold qe_delete_by_query. rewrite Hph.
  destruct (match sp_type p, sp_tags p, sp_time p with None, [], None => true | _, _, _ => false end) eqn:Eb.
  { split; [done|]. intros Hb. unfold bounded_query in Hb. by destruct (sp_type p), (sp_tags p), (sp_time p). }
  assert (bounded_query p) as Hbq by (unfold bounded_query; by destruct (sp_type p), (sp_tags p), (sp_time p)).
  destruct (gather_filter store_view (vw_en v) m Hok exp (vw_io v) (vw_now v) (vw_sem v) p 0 0 Hio Hpo) as (cands & Eg & Hp). rewrite Eg. specialize (Hdel _ _ Eg).
  assert (map (fun c => mr_id (ca_rec c)) cands ≡ₚ mr_id <$> answers (vw_en v) m (vw_now v) p 0) as Hids by (change (map ?f cands) with (f <$> cands); rewrite Hp, <- list_fmap_compose; done).
  pose proof (delete_all_spec store_view io now 0 (vw_en v) m _ ns 0 Hok Hph Hdel) as Hall. destruct (delete_all _ _ _ _ _ _ _) as [en' n].
  split; [done|]. intros _. destruct Hall as (m' & Hok' & Hm' & Hle & Heq).
  { rewrite Hids. apply (part_nodup store_view (vw_en v) m Hok), answers_sub. }
  exists n, m'. split; [done|]. split; [done|]. split; [|done]. intros id. rewrite Hm'. destruct (m !! id) as [r|] eqn:Hr; [|done].
  assert (bool_decide (id ∈ map (fun c => mr_id (ca_rec c)) cands) = match_rec (vw_now v) p r) as E; [|unfold deletable; cbn [fst snd]; by rewrite E].
  pose proof (live_id store_view (vw_en v) m Hok id r Hr) as <-. apply eq_true_iff_eq. rewrite bool_decide_eq_true, Hids.
  rewrite (ids_of_part store_view (vw_en v) m Hok _ r (answers_sub _ _ _ _ _) Hr), (answers_all store_view) by done. naive_solver.
Qed.

(** ** Searching two notes *)

#[local] Existing Instance ieee_kernel.

Definition wit_sem : SemanticIndex := mkSem 2 [] 0 [] [] 0 [] 1000 0 false 0 false false [] 0.
Definition wit_gather : GatherIo :=
  mkGatherIo (mkSearchOks true (fun _ => mkBeamOks true (fun _ => true) (fun _ => true) (fun _ => true)) (fun _ => true) true true) wit_lex_oks true true true
    (fun _ => true) (fun _ => true) true true rok aok aok.
Definition wit_view : SearchView := mkSearchView wit_two wit_sem 110 wit_gather.
Definition wit_cfg : SearchCfg := mkSearchCfg 100 16.
Definition wit_subsume : SubsumeIo := mkSubsumeIo true true (fun _ => wit_good).
Definition wit_rank : RankIo := mkRankIo true true true.

(** The second of the notes about 7. *)
Definition wit_params : SearchParams :=
  mkSearchParams None [] false [] 0 None None (Some [97]) 1 1 None 0 None true (Some (mkPattern (Some 7) (Some [112]) None)) false [] false false.

(** The notes tagged "t". *)
Definition wit_tagged : SearchParams :=
  mkSearchParams None [[116]] true [] 0 None None None 10 0 None 0 None false None false [] false false.

Lemma wit_gather_ok : gather_ok wit_gather.
Proof. by split. Qed.

Lemma wit_pattern : pattern_wf (en_ix wit_two) wit_params.
Proof. split; [apply not_eq_None_Some; by vm_compute|]. by split. Qed.

Lemma search_filter_exact_witness :
  option_map (fun x => sum_map (map mr_id) id (snd x)) (qe_search (fun x => x) wit_cfg wit_subsume wit_rank (fun _ => wit_view) wit_two 120 wit_params) = Some (inl [2]) /\
  exists T q, T ≡ₚ (map_to_list wit_map).*2 /\
    qe_count (fun x => x) wit_cfg wit_subsume wit_view wit_params =
      inl (length (filter (fun r => match_rec 110 q r = true) (window q 100 T)), negb (complete q 100 T) || sp_subsume_truncated q).
Proof.
  split; [vm_compute; reflexivity|].
  destruct (search_filter_exact (fun x => x) wit_cfg wit_subsume wit_rank (fun _ => wit_view) wit_gather 110 wit_sem wit_two wit_map wit_params wit_two 120
    wit_two_ok eq_refl wit_gather_ok ltac:(by split) ltac:(split; [reflexivity|reflexivity|intros k; apply wit_qio_ok]) eq_refl
    ltac:(split; [reflexivity|by left]) wit_pattern ltac:(discriminate)) as (T & q & Hp & _ & _ & _ & Hc).
  exists T, q. split; [exact Hp|exact Hc].
Defined.

Definition wit_delete : Engine * (nat + aegis_status) := qe_delete_by_query (fun x => x) true (fun _ => wit_good) (fun _ => 130) wit_view wit_tagged (Some [97]).

Lemma wit_found : option_map (fun x => map (fun c => mr_id (ca_rec c)) x.1) (gather_candidates (fun x => x) wit_gather 110 wit_two wit_sem wit_tagged 0 CAND_FILTER 0) = Some [1; 2].
Proof. vm_compute. reflexivity. Qed.

Lemma option_map_known {A B} (f : A -> B) (o : option A) a b : option_map f o = Some b -> o = Some a -> f a = b.
Proof. intros E ->. by injection E. Qed.

Lemma wit_tombs : tomb_check wit_good 130 wit_two 1 = true /\ tomb_check wit_good 130 (fst (qe_delete wit_good 130 wit_two 1 (Some [97]))) 2 = true.
Proof. split; vm_compute; reflexivity. Qed.

Lemma wit_deletes cands ex :
  gather_candidates (fun x => x) wit_gather 110 wit_two wit_sem wit_tagged 0 CAND_FILTER 0 = Some (cands, ex) ->
  deletes_ok (fun _ => wit_good) (fun _ => 130) 0 wit_two (map (fun c => mr_id (ca_rec c)) cands) (Some [97]).
Proof.
  intros E. pose proof (option_map_known _ _ _ _ wit_found E) as Hi. cbn [fst] in Hi. rewrite Hi. destruct wit_tombs as [T1 T2].
  assert (u64 130) as Hu by (unfold urange; lia).
  split; [apply wit_qio_ok|]. split; [exact Hu|]. split; [exact (tomb_checked _ _ _ _ T1)|].
  split; [apply wit_qio_ok|]. split; [exact Hu|]. split; [exact (tomb_checked _ _ _ _ T2)|exact I].
Qed.

Lemma delete_by_query_exact_witness :
  snd wit_delete = inl 2%nat /\ exists m', engine_ok store_view (fst wit_delete) m' /\ m' !! 1 = None.
Proof.
  split; [vm_compute; reflexivity|].
  pose proof (delete_by_query_exact (fun x => x) (fun _ => wit_good) (fun _ => 130) wit_view wit_map wit_tagged (Some [97]) wit_two_ok wit_gather_ok
    ltac:(split; [exact I|discriminate]) eq_refl wit_deletes) as Hd.
  unfold wit_delete. destruct (qe_delete_by_query (fun x => x) true (fun _ => wit_good) (fun _ => 130) wit_view wit_tagged (Some [97])) as [en' res].
  destruct Hd as [_ Hd]. destruct (Hd I) as (n & m' & _ & Hok & Hm & _). exists m'. split; [exact Hok|]. exact (Hm 1).
Defined.
