(* ===== verification/TruthMaintenance.v ===== *)
(** * Truth maintenance ([src/query/qe_infer.c], the retraction queue)

    Deleting a premise queues the conclusions that rest on it; the maintenance
    tick takes them off the queue and deletes those no route supports, which
    queues the next generation. Here the queue is shown to cover every
    conclusion that has lost its support, and to run empty. *)

From S2P Require Import Prelude Endian HashIndex SortedArray Record RecordCodec RecordRoundtrip RecordDecode StrTable ProbeTable Intern TimeIndex TagIndex UsageIndex EdgeIndex FactIndex AeadCorrect Log Floats OpenTable BinaryHeap Hnsw SemanticIndex Tenant CkptCrypt Store StoreCorrect StoreView WorkingBuffer Json Registry Lexical LexicalCorrect LexSearch Engine EngineIndexes EngineCorrect EngineRefines Search SearchCorrect.

(** ** Support *)

Definition live_at (m : gmap Z MemoryRecord) (now id : Z) : bool :=
  match m !! id with Some r => negb (record_expired r now) | None => false end.

(** A record with routes needs one whose premises are all live. *)
Definition supported (m : gmap Z MemoryRecord) (now : Z) (r : MemoryRecord) : bool :=
  match mr_derivation r with [] => true | routes => existsb (fun rt => forallb (live_at m now) (dr_premises rt)) routes end.

(** Every conclusion points at its premises, as the engine that writes them
    makes it. *)
Definition linked (m : gmap Z MemoryRecord) : Prop :=
  forall id r rt a, m !! id = Some r -> rt ∈ mr_derivation r -> a ∈ dr_premises rt -> is_Some (m !! a) ->
    exists rl, rl ∈ mr_relationships r /\ rl_to rl = a /\ rl_kind rl = Some S_derived_from.

Definition covered (m : gmap Z MemoryRecord) (now : Z) (todo : list Z) : Prop :=
  forall id r, m !! id = Some r -> record_expired r now = false -> supported m now r = false -> id ∈ todo.

Lemma linked_delete m x : linked m -> linked (delete x m).
Proof.
  intros Hl id r rt a Hr Hrt Ha [ra Hra]. apply lookup_delete_Some in Hr as [_ Hr]. apply lookup_delete_Some in Hra as [_ Hra]. eapply Hl; eauto.
Qed.

(** Only what rests on [x] loses support with it. *)
Lemma supported_delete m now x r :
  supported m now r = true -> supported (delete x m) now r = false -> exists rt, rt ∈ mr_derivation r /\ x ∈ dr_premises rt.
Proof.
  unfold supported. destruct (mr_derivation r) as [|rt0 rts] eqn:E; [done|]. intros Hs Hn. apply existsb_exists in Hs as (rt & Hin & Hall). apply list_elem_of_In in Hin.
  exists rt. split; [done|]. destruct (decide (x ∈ dr_premises rt)) as [?|Hx]; [done|]. exfalso.
  apply not_true_iff_false in Hn. apply Hn. apply existsb_exists. exists rt. split; [by apply list_elem_of_In|]. apply forallb_forall. intros a Ha.
  apply (proj1 (forallb_forall _ _) Hall) in Ha as Hla. unfold live_at in *. rewrite lookup_delete_ne; [done|]. intros ->. by apply Hx, list_elem_of_In.
Qed.

Lemma covered_delete m now x todo todo' :
  linked m -> is_Some (m !! x) -> covered m now (x :: todo) -> (forall i, i ∈ todo -> i ∈ todo') ->
  (forall i r rl, m !! i = Some r -> i <> x -> rl ∈ mr_relationships r -> rl_to rl = x -> rl_kind rl = Some S_derived_from -> i ∈ todo') ->
  covered (delete x m) now todo'.
Proof.
  intros Hl Hx Hc Hsub Hdep id r Hr He Hs. apply lookup_delete_Some in Hr as [Hne Hr]. destruct (supported m now r) eqn:Es.
  - destruct (supported_delete m now x r Es Hs) as (rt & Hrt & Hp). destruct (Hl id r rt x Hr Hrt Hp Hx) as (rl & Hrl & Ht & Hk). by eapply Hdep.
  - specialize (Hc id r Hr He Es). apply elem_of_cons in Hc as [->|Hc]; [done|by apply Hsub].
Qed.

(** ** The queue *)

Lemma push_all_ids ok k rt ids :
  (forall k, ok k = true) -> rt_ids (push_all ok k rt ids) = rt_ids rt ++ ids /\ rt_sup (push_all ok k rt ids) = rt_sup rt.
Proof.
  intros Hok. revert k rt. induction ids as [|id ids IH]; intros k rt; cbn [push_all]; [by rewrite app_nil_r|]. destruct (IH (S k) (retract_push_locked (ok k) rt id)) as [-> ->].
  unfold retract_push_locked. rewrite Hok. destruct (_ =? _)%nat; cbn [set_queue rt_ids rt_sup]; by rewrite <- app_assoc.
Qed.

Section truth.
Context `{AeadScheme} (SV : Db -> gmap Z MemoryRecord -> Prop) `{!RecordStore SV}.

(** The queue can grow and the edges can be looked up. *)
Definition queue_ok (io : QeIo) : Prop := qi_sources io = true /\ forall k, qi_queue io k = true.

Record tm_ok (now : Z) (todo : list Z) (en : Engine) (m : gmap Z MemoryRecord) : Prop := {
  tm_engine : engine_ok SV en m;
  tm_linked : linked m;
  tm_inference : ec_inference (en_cfg en) = true;
  tm_phase : require_phase en 1 = AEGIS_OK;
  tm_edges : is_Some (ix_edges (en_ix en));
  tm_merges : rt_sup (en_retract en) = [];
  tm_covered : covered m now (todo ++ rt_ids (en_retract en))
}.

Lemma entry_live_at en m now id : engine_ok SV en m -> entry_live en now id = live_at m now id.
Proof.
  intros Hok. pose proof (rs_get (en_db en) m id (eo_store _ _ _ Hok)) as Hg. unfold entry_live, live_at.
  destruct (hash_index_get _ _) as [e|]; [|by rewrite Hg]. destruct Hg as (r & -> & Ex & Ed). unfold record_expired. by rewrite Ed, Ex.
Qed.

(** Without merges the engine's test is [supported]. *)
Lemma stands_supported en m now r :
  engine_ok SV en m -> rt_sup (en_retract en) = [] -> db_derivation_stands en now r = supported m now r.
Proof.
  intros Hok Hs. unfold db_derivation_stands, supported. destruct (mr_derivation r) as [|rt0 rts]; [done|].
  assert (forall id, db_id_is_live en now id = live_at m now id) as E.
  { intros id. unfold db_id_is_live, db_supersede_resolve. cbn [SUPERSEDE_MAX_HOPS resolve_loop]. unfold supersede_lookup. rewrite Hs. cbn. rewrite (entry_live_at en m now id Hok).
    by destruct (live_at m now id). }
  assert (forall l, forallb (db_id_is_live en now) l = forallb (live_at m now) l) as El by (induction l as [|a l IH]; cbn; [done|by rewrite E, IH]).
  generalize (rt0 :: rts). induction l as [|rt l IH]; cbn; [done|]. by rewrite El, IH.
Qed.

(** The records that point at [id] join the queue. *)
Lemma enqueue_dependents io en m id ix cur :
  engine_ok SV en m -> m !! id = Some cur -> mr_id cur = id -> Forall short_kind (mr_relationships cur) -> queue_ok io -> ec_inference (en_cfg en) = true -> is_Some (ix_edges (en_ix en)) ->
  ix_edges ix = remove_edges (ix_edges (en_ix en)) id (mr_relationships cur) ->
  let rt := en_retract (db_retract_enqueue (qi_sources io) (qi_queue io) (with_ix en ix) id) in
  rt_sup rt = rt_sup (en_retract en) /\ (forall i, i ∈ rt_ids (en_retract en) -> i ∈ rt_ids rt) /\
  forall i r rl, m !! i = Some r -> i <> id -> rl ∈ mr_relationships r -> rl_to rl = id -> rl_kind rl = Some S_derived_from -> i ∈ rt_ids rt.
Proof.
  intros Hok Hc Hid Hs [Hso Hq] Hinf [e He] Hix. pose proof (xo_edges _ _ (eo_ix _ _ _ Hok)) as Hd. rewrite He in *. destruct Hd as (E & R & HE).
  destruct (remove_edges_refines e E id (mr_relationships cur) R Hs) as (e1 & E1 & Er & _ & R1 & HE1). unfold db_retract_enqueue.
  cbn [with_ix en_cfg en_ix]. rewrite Hinf, Hix, Er, Hso. cbn [negb]. destruct (edge_sources_refines e1 E1 id [Some S_derived_from] R1) as (l & -> & _ & _ & Hl).
  cbn [with_retract en_retract with_ix]. destruct (push_all_ids (qi_queue io) 0 (en_retract en) (map es_from l) Hq) as [-> ->]. split; [done|]. split; [intros i Hi; apply elem_of_app; by left|].
  intros i r rl Hr Hne Hin Ht Hk. apply elem_of_app. right. apply list_elem_of_fmap. exists (source_of i S_derived_from). split; [done|]. apply Hl.
  exists i, S_derived_from. split; [|split; [right; split; [done|by left]|done]]. apply HE1. split; [|intros [? _]; done]. apply HE. split; [|by rewrite Hc].
  exists r, rl. rewrite Hk. done.
Qed.

Lemma remove_edges_some eo id rels : is_Some eo -> is_Some (remove_edges eo id rels).
Proof.
  unfold remove_edges. revert eo. induction rels as [|rl rels IH]; intros eo Hs; cbn [foldl]; [done|]. apply IH. destruct Hs as [e ->].
  unfold edge_index_remove. destruct (tgt_find _ _); [|done]. by destruct (negb _).
Qed.

(** What a deletion leaves of the queue and of the edges. *)
Lemma index_delete_queue io en m id cur :
  engine_ok SV en m -> m !! id = Some cur -> queue_ok io -> ec_inference (en_cfg en) = true -> is_Some (ix_edges (en_ix en)) ->
  let en' := index_delete io en cur in
  is_Some (ix_edges (en_ix en')) /\ rt_sup (en_retract en') = rt_sup (en_retract en) /\ (forall i, i ∈ rt_ids (en_retract en) -> i ∈ rt_ids (en_retract en')) /\
  forall i r rl, m !! i = Some r -> i <> id -> rl ∈ mr_relationships r -> rl_to rl = id -> rl_kind rl = Some S_derived_from -> i ∈ rt_ids (en_retract en').
Proof.
  intros Hok Hc Hq Hinf He. destruct (live_record SV _ _ _ _ Hok Hc) as (_ & Hid & _). pose proof (eo_rels _ _ _ Hok _ _ Hc) as Hrels.
  unfold index_delete. rewrite Hid. set (ix1 := set_edges _ _).
  assert (Forall short_kind (mr_relationships cur)) as Hs by (eapply Forall_impl; [exact Hrels|]; cbn; by intros ? []).
  pose proof (enqueue_dependents io en m id ix1 cur Hok Hc Hid Hs Hq Hinf He eq_refl) as Hdep.
  destruct (retract_enqueue_frame (qi_sources io) (qi_queue io) (with_ix en ix1) id) as [rt E]. rewrite E in *. cbn [with_retract with_ix en_retract en_ix] in *.
  split; [|exact Hdep]. clear -He. destruct (negb _); cbn; pose proof (remove_edges_some _ id (mr_relationships cur) He) as [e Ee]; unfold ix1; cbn; rewrite Ee; cbn; by destruct (tgt_find e id).
Qed.

Lemma qe_delete_queue io now en id ns cur :
  require_phase en 1 = AEGIS_OK -> load_record (qi_rerr io) (qi_lalloc io) (qi_dalloc io) (en_db en) id = inl cur -> is_deleted cur || ns_denies ns cur = false ->
  en_retract (fst (qe_delete io now en id ns)) = en_retract (index_delete io en cur) /\ en_ix (fst (qe_delete io now en id ns)) = en_ix (index_delete io en cur).
Proof.
  intros Hph Hl Hd. unfold qe_delete. rewrite Hph, Hl, Hd. destruct (append_and_hash _ _ _) as [db st]. unfold finish, durably_flush.
  destruct st; try done. by destruct (log_fsync_if_batched _ _) as [lf ok].
Qed.

(** A deletion whose tombstone is written takes its record off the list of what
    may lack support, and puts on it what rested on the record. *)
Lemma tm_delete io now clock todo en m id ns :
  tm_ok now (id :: todo) en m -> io_ok io -> queue_ok io -> u64 clock -> tomb_written io clock en id ->
  let en' := fst (qe_delete io clock en id ns) in
  (en' = en /\ forall cur, m !! id = Some cur -> ns_denies ns cur = true) \/ (is_Some (m !! id) /\ tm_ok now todo en' (delete id m)).
Proof.
  intros [Hok Hl Hinf Hph He Hm Hc] Hio Hq Hck Ht. cbn zeta. pose proof (qe_delete_spec SV io clock en m id ns Hok Hio Hck) as Hs.
  pose proof (qe_delete_frame io clock en id ns) as Hcfg. pose proof (io_load SV io en m id Hio Hok) as Hload. pose proof (qe_delete_queue io clock en id ns) as Hqu.
  destruct (qe_delete io clock en id ns) as [en' st]. cbn [fst] in *. destruct Hs as [(-> & _ & Hd)|(cur & Hcur & Hns & Hr)]; [left; split; [done|by apply Hd]|right].
  rewrite Hcur in Hload |- *. split; [done|]. destruct (live_record SV _ _ _ _ Hok Hcur) as (_ & _ & _ & _ & Hdel). rewrite (Ht cur) in Hr by (by eapply loaded_live).
  destruct (Hqu cur Hph Hload ltac:(by rewrite Hdel, Hns)) as [Er Ei]. destruct (index_delete_queue io en m id cur Hok Hcur Hq Hinf He) as (He' & Hs' & Hsub & Hdep).
  rewrite <- Er in Hs', Hsub, Hdep. rewrite <- Ei in He'. split; [apply Hr|by apply linked_delete|congruence|unfold require_phase in *; by rewrite Hcfg|done|congruence|].
  apply (covered_delete m now id (todo ++ rt_ids (en_retract en))); [done|by rewrite Hcur|done| |].
  - intros i Hi. apply elem_of_app in Hi as [Hi|Hi]; apply elem_of_app; [by left|right; by apply Hsub].
  - intros i r rl H1 H2 H3 H4 H5. apply elem_of_app. right. by eapply Hdep.
Qed.

(** ** Progress *)

(** Nothing happened, or a record was deleted. *)
Definition progress (en en' : Engine) (m m' : gmap Z MemoryRecord) : Prop :=
  m' ⊆ m /\ ((m' = m /\ rt_ids (en_retract en') = rt_ids (en_retract en)) \/ (size m' < size m)%nat).

Lemma size_delete (m : gmap Z MemoryRecord) id : is_Some (m !! id) -> (size (delete id m) < size m)%nat.
Proof.
  intros [r Hr]. rewrite map_size_delete_Some by (by rewrite Hr). assert (size m <> 0%nat); [|lia]. rewrite map_size_non_empty_iff. intros ->. by rewrite lookup_empty in Hr.
Qed.

Lemma progress_trans a b c m1 m2 m3 : progress a b m1 m2 -> progress b c m2 m3 -> progress a c m1 m3.
Proof.
  intros [S1 H1] [S2 H2]. split; [by etrans|]. destruct H1 as [[-> E1]|H1], H2 as [[-> E2]|H2]; [left; split; congruence|right; lia..].
Qed.

(** One entry of a batch. *)
Lemma tm_examine io now k todo en m id :
  tm_ok now (id :: todo) en m -> io_ok (io k) -> queue_ok (io k) -> u64 now -> tomb_written (io k) now en id ->
  let en' := fst (retract_batch io now k en [id] 0) in
  en_cfg en' = en_cfg en /\ exists m', tm_ok now todo en' m' /\ progress en en' m m' /\ forall i r, m !! i = Some r -> m' !! i = None -> mr_derivation r <> [].
Proof.
  intros Htm Hio Hq Hnow Ht. pose proof Htm as [Hok Hl Hinf Hph He Hm Hc]. cbn zeta.
  assert ((forall r, m !! id = Some r -> record_expired r now = false -> supported m now r = true) ->
    en_cfg en = en_cfg en /\ exists m', tm_ok now todo en m' /\ progress en en m m' /\ forall i r, m !! i = Some r -> m' !! i = None -> mr_derivation r <> []) as Hkeep.
  { intros Hst. split; [done|]. exists m. split_and!; [|split; [done|by left]|congruence]. split; try done. intros i r Hr Hx Hs. specialize (Hc i r Hr Hx Hs). apply elem_of_cons in Hc as [->|Hc]; [|done].
    rewrite (Hst r Hr Hx) in Hs. done. }
  cbn [retract_batch]. rewrite (qe_get_live SV (io k) now en m id None Hok Hio). destruct (m !! id) as [r|] eqn:Hr; [|apply Hkeep; congruence].
  assert (ns_denies None r = false) as Hnd by done. rewrite Hnd, orb_false_r. destruct (record_expired r now) eqn:Hx; [apply Hkeep; congruence|].
  rewrite Hinf, (stands_supported en m now r Hok Hm). destruct (supported m now r) eqn:Es; [apply Hkeep; congruence|].
  destruct (live_record SV _ _ _ _ Hok Hr) as (_ & Hid & _). rewrite Hid. pose proof (tm_delete (io k) now now todo en m id None Htm Hio Hq Hnow Ht) as Hd.
  pose proof (qe_delete_frame (io k) now en id None) as Hcfg. destruct (qe_delete (io k) now en id None) as [en' st]. cbn [fst] in *. split; [done|].
  destruct Hd as [[_ Hd]|[Hs Hd]]; [rewrite (Hd r Hr) in Hnd; done|]. exists (delete id m). split; [done|]. split; [split; [apply delete_subseteq|right; by apply size_delete]|].
  intros i r' Hi Hn. destruct (decide (i = id)) as [->|Hne]; [|rewrite lookup_delete_ne in Hn by done; congruence]. assert (r' = r) as -> by congruence.
  intros Ed. unfold supported in Es. by rewrite Ed in Es.
Qed.

Lemma tm_batch io now k en m batch :
  tm_ok now batch en m -> u64 now -> retract_ok io now k en batch -> (forall k, queue_ok (io k)) ->
  let en' := fst (retract_batch io now k en batch 0) in
  en_cfg en' = en_cfg en /\ exists m', tm_ok now [] en' m' /\ progress en en' m m' /\ forall i r, m !! i = Some r -> m' !! i = None -> mr_derivation r <> [].
Proof.
  intros Htm Hnow Hr Hq. revert k en m Htm Hr. induction batch as [|id batch IH]; intros k en m Htm Hr.
  { split; [done|]. exists m. split_and!; [done|split; [done|by left]|congruence]. }
  destruct Hr as (Hio & Ht & Hr). rewrite retract_batch_cons. destruct (tm_examine io now k batch en m id Htm Hio (Hq k) Hnow Ht) as (E1 & m1 & Htm1 & P1 & D1).
  destruct (IH (S k) _ m1 Htm1 Hr) as (E2 & m2 & Htm2 & P2 & D2). split; [congruence|]. exists m2. split; [done|]. split; [by eapply progress_trans|].
  intros i r Hi Hn. destruct (m1 !! i) as [r1|] eqn:Hi1; [|by eapply D1]. assert (m !! i = Some r1) by (eapply lookup_weaken; [done|apply P1]). simplify_eq. by eapply D2.
Qed.

(** ** Passes *)

(** [n] ticks of the maintenance thread; [io j] are the outcomes of tick [j]. *)
Fixpoint passes (io : nat -> nat -> QeIo) (now : Z) (n : nat) (en : Engine) : Engine :=
  match n with O => en | S n' => passes (fun j => io (S j)) now n' (fst (db_retract_step true (io 0%nat) now en)) end.

(** The outcomes of one tick: reads succeed and tombstones are written. *)
Definition pass_ok (io : nat -> QeIo) (now : Z) (en : Engine) : Prop :=
  let q := rt_ids (en_retract en) in
  let n := Nat.min (length q) (ec_max_derived (en_cfg en)) in
  (forall k, queue_ok (io k)) /\ retract_ok io now 0 (with_retract en (set_queue (en_retract en) (drop n q) (rt_cap (en_retract en)))) (take n q).

Lemma tm_pass io now en m :
  tm_ok now [] en m -> ec_read_only (en_cfg en) = false -> (0 < ec_max_derived (en_cfg en))%nat -> rt_ids (en_retract en) <> [] -> u64 now -> pass_ok io now en ->
  let en' := fst (db_retract_step true io now en) in
  en_cfg en' = en_cfg en /\ exists m', tm_ok now [] en' m' /\ m' ⊆ m /\
    ((size m' < size m)%nat \/ (m' = m /\ (length (rt_ids (en_retract en')) < length (rt_ids (en_retract en)))%nat)) /\
    forall i r, m !! i = Some r -> m' !! i = None -> mr_derivation r <> [].
Proof.
  intros [Hok Hl Hinf Hph He Hm Hc] Hro Hmax Hne Hnow [Hq Hr]. cbn zeta. unfold db_retract_step. rewrite Hro.
  set (q := rt_ids (en_retract en)) in *. set (n := Nat.min (length q) (ec_max_derived (en_cfg en))) in *.
  assert (0 < length q)%nat as Hlen by (destruct q; [done|cbn; lia]). rewrite (proj2 (Nat.eqb_neq n 0)) by lia. cbn [orb negb].
  set (en1 := with_retract en _) in *. assert (tm_ok now (take n q) en1 m) as Htm1.
  { split; try done; [by destruct Hok|]. cbn [en1 with_retract en_retract set_queue rt_ids]. rewrite take_drop. exact Hc. }
  destruct (tm_batch io now 0 en1 m (take n q) Htm1 Hnow Hr Hq) as (Ecfg & m' & Htm' & [Hsub Hp] & Hd). split; [done|]. exists m'. split_and!; try done.
  destruct Hp as [[-> Eq]|Hp]; [right|by left]. split; [done|]. rewrite Eq. cbn [en1 with_retract en_retract set_queue rt_ids]. rewrite length_drop. lia.
Qed.

Lemma pass_idle io now en : rt_ids (en_retract en) = [] -> fst (db_retract_step true io now en) = en.
Proof. intros Hq. unfold db_retract_step. destruct (ec_read_only _); [done|]. by rewrite Hq. Qed.

Lemma passes_idle io now n en : rt_ids (en_retract en) = [] -> passes io now n en = en.
Proof. intros Hq. revert io. induction n as [|n IH]; intros io; [done|]. cbn [passes]. by rewrite pass_idle, IH. Qed.

(** The passes empty the queue: each deletes a record or shortens it. *)
Lemma passes_drain now en m :
  u64 now -> tm_ok now [] en m -> ec_read_only (en_cfg en) = false -> (0 < ec_max_derived (en_cfg en))%nat ->
  forall io, (forall n, pass_ok (io n) now (passes io now n en)) ->
  exists n m', tm_ok now [] (passes io now n en) m' /\ rt_ids (en_retract (passes io now n en)) = [] /\ m' ⊆ m /\
    forall i r, m !! i = Some r -> m' !! i = None -> mr_derivation r <> [].
Proof.
  intros Hnow. remember (size m) as s eqn:Es. remember (length (rt_ids (en_retract en))) as l eqn:El. revert l en m Es El.
  induction s as [s IHs] using lt_wf_ind. induction l as [l IHl] using lt_wf_ind. intros en m -> -> Htm Hro Hmax io Hio.
  destruct (decide (rt_ids (en_retract en) = [])) as [Hq|Hq]; [exists 0%nat, m; split_and!; try done; congruence|].
  destruct (tm_pass (io 0%nat) now en m Htm Hro Hmax Hq Hnow (Hio 0%nat)) as (Ecfg & m1 & Htm1 & Hsub & Hdec & Hd). set (en1 := fst (db_retract_step true (io 0%nat) now en)) in *.
  assert (exists n m', tm_ok now [] (passes (fun j => io (S j)) now n en1) m' /\ rt_ids (en_retract (passes (fun j => io (S j)) now n en1)) = [] /\ m' ⊆ m1 /\
    forall i r, m1 !! i = Some r -> m' !! i = None -> mr_derivation r <> []) as (n & m' & H1 & H2 & H3 & H4).
  { destruct Hdec as [Hlt|[-> Hlt]].
    - eapply (IHs (size m1) Hlt _ en1 m1 eq_refl eq_refl Htm1); [by rewrite Ecfg|by rewrite Ecfg|]. intros n. exact (Hio (S n)).
    - eapply (IHl _ Hlt en1 m eq_refl eq_refl Htm1); [by rewrite Ecfg|by rewrite Ecfg|]. intros n. exact (Hio (S n)). }
  exists (S n), m'. split_and!; [done|done|by etrans|]. intros i r Hi Hn. destruct (m1 !! i) as [r1|] eqn:Hi1; [|by eapply Hd].
  assert (m !! i = Some r1) by (by eapply lookup_weaken). simplify_eq. by eapply H4.
Qed.

(** Deletions by clients keep the queue complete. *)
Lemma tm_delete_all io clock now k en m ids ns c :
  tm_ok now [] en m -> deletes_ok io clock k en ids ns -> (forall k, queue_ok (io k)) ->
  let en' := fst (delete_all io clock k en ids ns c) in
  en_cfg en' = en_cfg en /\ exists m', tm_ok now [] en' m' /\ m' ⊆ m /\ forall i, is_Some (m !! i) -> m' !! i = None -> i ∈ ids.
Proof.
  intros Htm Hd Hq. revert k en m c Htm Hd. induction ids as [|id ids IH]; intros k en m c Htm Hd; cbn [delete_all].
  { split; [done|]. exists m. split_and!; [done|done|]. intros i [r Hr]. congruence. }
  destruct Hd as (Hio & Hck & Ht & Hd). assert (tm_ok now [id] en m) as Htm1.
  { destruct Htm as [H1 H2 H3 H4 H5 H6 H7]. split; try done. intros i r Hr Hx Hs. right. by eapply H7. }
  pose proof (tm_delete (io k) now (clock k) [] en m id ns Htm1 Hio (Hq k) Hck Ht) as Hdel. pose proof (qe_delete_frame (io k) (clock k) en id ns) as Hcfg.
  destruct (qe_delete (io k) (clock k) en id ns) as [en1 st]. cbn [fst] in *. destruct Hdel as [[-> _]|[Hs Htm2]].
  - destruct (IH (S k) en m (match st with AEGIS_OK => S c | _ => c end) Htm Hd) as (E & m' & H1 & H2 & H3). split; [done|]. exists m'. split_and!; try done. intros i Hi Hn. right. by apply H3.
  - destruct (IH (S k) en1 (delete id m) (match st with AEGIS_OK => S c | _ => c end) Htm2 Hd) as (E & m' & H1 & H2 & H3). split; [congruence|]. exists m'. split_and!; [done|etrans; [done|apply delete_subseteq]|].
    intros i Hi Hn. destruct (decide (i = id)) as [->|Hne]; [by left|]. right. apply H3; [by rewrite lookup_delete_ne|done].
Qed.
End truth.

(** C9: Retraction settles. Take an engine with inference on that holds the
    records [m], in which every conclusion points at its premises and, at the
    time [now], either has a route whose premises are all live or waits in the
    queue, and no merge is recorded. Delete any records; then let the maintenance
    thread run its passes, each bounded by the configured batch. After finitely
    many passes the queue is empty and stays so, every conclusion that is left
    and has not expired stands, and nothing was removed but the records the
    deletions named and conclusions. The reads, the queue and the tombstones
    are assumed not to fail. *)
Theorem retraction_settles `{AeadScheme} dio clock ids ns io now en m :
  engine_ok store_view en m -> require_phase en 1 = AEGIS_OK -> ec_inference (en_cfg en) = true -> ec_read_only (en_cfg en) = false -> (0 < ec_max_derived (en_cfg en))%nat ->
  is_Some (ix_edges (en_ix en)) -> rt_sup (en_retract en) = [] -> linked m -> covered m now (rt_ids (en_retract en)) -> u64 now ->
  deletes_ok dio clock 0 en ids ns -> (forall k, queue_ok (dio k)) ->
  let en1 := fst (delete_all dio clock 0 en ids ns 0) in
  (forall n, pass_ok (io n) now (passes io now n en1)) ->
  exists n en' m', (forall n', passes (fun j => io (n + j)%nat) now n' (passes io now n en1) = en') /\ rt_ids (en_retract en') = [] /\
    engine_ok store_view en' m' /\ m' ⊆ m /\
    (forall id r, m' !! id = Some r -> record_expired r now = false -> db_derivation_stands en' now r = true) /\
    forall id r, m !! id = Some r -> m' !! id = None -> id ∈ ids \/ mr_derivation r <> [].
Proof.
  intros Hok Hph Hinf Hro Hmax He Hm Hl Hc Hnow Hd Hq en1 Hio. assert (tm_ok store_view now [] en m) as Htm by (by split).
  destruct (tm_delete_all store_view dio clock now 0 en m ids ns 0 Htm Hd Hq) as (Ecfg & m1 & Htm1 & S1 & D1). fold en1 in Ecfg, Htm1.
  destruct (passes_drain store_view now en1 m1 Hnow Htm1 ltac:(by rewrite Ecfg) ltac:(by rewrite Ecfg) io Hio) as (n & m' & Htm' & Hempty & S2 & D2).
  exists n, (passes io now n en1), m'. split_and!; [intros n'; by apply passes_idle|done|apply Htm'|by etrans| |].
  - intros id r Hr Hx. rewrite (stands_supported store_view _ m' now r) by apply Htm'. destruct (supported m' now r) eqn:Es; [done|].
    pose proof (tm_covered _ _ _ _ _ Htm' id r Hr Hx Es) as Hin. rewrite Hempty in Hin. by apply not_elem_of_nil in Hin.
  - intros id r Hr Hn. destruct (m1 !! id) as [r1|] eqn:H1; [|left; by apply D1]. right. assert (m !! id = Some r1) by (by eapply lookup_weaken). simplify_eq. by eapply D2.
Qed.

(** ** A premise is deleted *)

Definition wit_conclusion : MemoryRecord :=
  mkMemoryRecord 0 MEM_SEMANTIC 0 0 0x3F000000 F32_ONE (Some [97]) [[116]] [0x3F800000; 0] 2 1 []
    (mkFact FACT_OBJ_ID 9 (Some [112]) 7 None) [mkDerivRoute DERIV_SYMMETRIC 1 [1]] [104; 105] 0 0.
Definition wit_derive : list EngOp :=
  [OpInsert wit_good 100 wit_note None 0; OpInsert wit_good 101 wit_conclusion None 0; OpRelate wit_good 102 2 1 (Some S_derived_from) (Some [97])].
Definition wit_derived : Engine := fst (eng_run wit_engine wit_derive).
Definition wit_derived_map : gmap Z MemoryRecord :=
  <[2 := related 102 (stamp_record wit_conclusion 2 101 101 0 0) 1 (Some S_derived_from)]> (<[2 := stamp_record wit_conclusion 2 101 101 0 0]> (<[1 := stamp_record wit_note 1 100 100 0 0]> ∅)).

Lemma wit_conclusion_ok : rec_ok wit_conclusion.
Proof.
  split; [|vm_compute; discriminate]. apply (record_decode_range (fun _ => true) (record_bytes wit_conclusion)); [by vm_compute|].
  apply (bool_decide_unpack (bytes_ok (record_bytes wit_conclusion))). by vm_compute.
Qed.

Lemma wit_derive_ok : run_ok wit_engine wit_derive.
Proof.
  pose proof (wit_qio_ok (fun _ => None)) as Hio. unfold wit_derive. cbn [run_ok op_ok].
  split; [split; [done|]; split; [by apply wit_insertable|]; split; by vm_compute|].
  split; [split; [done|]; split; [|split; by vm_compute]|].
  - split; [apply wit_conclusion_ok|done| |apply Z.ltb_lt; by vm_compute]. apply (facts_room_fits _ _ [112]); [by vm_compute|done|]. cbn. unfold FACT_MAX_PREDICATE_LEN. lia.
  - split; [|done]. split; [done|]. split; [by vm_compute|]. split; [split; [repeat constructor; lia|by vm_compute]|].
    split; [apply kinds_room_fits; [by vm_compute|vm_compute; lia]|].
    apply (load_checked _ _ (fun cur => fits_frame (related 102 cur 1 (Some S_derived_from)))); [intros cur; apply fits_frame_le|by vm_compute].
Qed.

Lemma wit_derived_ok : engine_ok store_view wit_derived wit_derived_map.
Proof.
  destruct (eng_run_refines store_view wit_engine ∅ wit_derive (empty_engine_ok store_view view_init _ _ _ _ _ _ _ _ _ _ _) wit_derive_ok) as (m & Ha & Hok).
  assert (m = wit_derived_map) as <-; [|exact Hok].
  assert (snd (eng_run wit_engine wit_derive) =
    [inl (stamp_record wit_note 1 100 100 0 0); inl (stamp_record wit_conclusion 2 101 101 0 0); inr AEGIS_OK]) as Er by (by vm_compute).
  rewrite Er in Ha. inversion Ha as [|? ? ? ? ? m1 ? S1 R1]; subst. inversion R1 as [|? ? ? ? ? m2 ? S2 R2]; subst.
  inversion R2 as [|? ? ? ? ? m3 ? S3 R3]; subst. inversion R3; subst. clear -S1 S2 S3.
  destruct S1 as [[_ [E|(st & E)]]|(_ & id1 & _ & _ & -> & [E|E])]; [done|done| |done]. injection E as <-.
  destruct S2 as [[_ [E|(st & E)]]|(_ & id2 & _ & _ & -> & [E|E])]; [done|done| |done]. injection E as <-.
  destruct S3 as [[_ Hc]|(cur & tgt & Hc & _ & _ & _ & -> & _)].
  - destruct (Hc eq_refl) as (cur & rl & Hcur & Hrl & _). rewrite lookup_insert_eq in Hcur. injection Hcur as <-. by apply not_elem_of_nil in Hrl.
  - rewrite lookup_insert_eq in Hc. injection Hc as <-. done.
Qed.

Lemma wit_derived_cases id r : wit_derived_map !! id = Some r ->
  (id = 1 /\ r = stamp_record wit_note 1 100 100 0 0) \/ (id = 2 /\ r = related 102 (stamp_record wit_conclusion 2 101 101 0 0) 1 (Some S_derived_from)).
Proof.
  unfold wit_derived_map. rewrite lookup_insert. case_decide as E; [intros [= <-]; by right|]. rewrite lookup_insert_ne by done. rewrite lookup_insert.
  case_decide as E1; [intros [= <-]; by left|]. by rewrite lookup_empty.
Qed.

Lemma wit_derived_linked : linked wit_derived_map.
Proof.
  intros id r rt a Hr Hrt Ha _. apply wit_derived_cases in Hr as [[-> ->]|[-> ->]]; [by apply not_elem_of_nil in Hrt|].
  apply list_elem_of_singleton in Hrt as ->. apply list_elem_of_singleton in Ha as ->. exists (mkRelationship 2 1 (Some S_derived_from)). split; [by left|done].
Qed.

Lemma wit_derived_covered : covered wit_derived_map 110 [].
Proof. intros id r Hr _ Hs. apply wit_derived_cases in Hr as [[-> ->]|[-> ->]]; exfalso; vm_compute in Hs; discriminate. Qed.

#[local] Notation wit_premise_gone := (fst (delete_all (fun _ : nat => wit_good) (fun _ : nat => 105) 0 wit_derived [1] (Some [97]) 0)).

Lemma wit_premise_tomb : tomb_check wit_good 105 wit_derived 1 = true.
Proof. vm_compute. reflexivity. Qed.

(** The deletion queues the conclusion, and one pass empties the queue. *)
Lemma wit_queue : rt_ids (en_retract wit_premise_gone) = [2] /\ ec_max_derived (en_cfg wit_premise_gone) = 8%nat.
Proof. vm_compute. done. Qed.
Lemma wit_pass_tomb : tomb_check wit_good 110 (with_retract wit_premise_gone (set_queue (en_retract wit_premise_gone) [] (rt_cap (en_retract wit_premise_gone)))) 2 = true.
Proof. vm_compute. reflexivity. Qed.
Lemma wit_pass_done : rt_ids (en_retract (fst (db_retract_step true (fun _ => wit_good) 110 wit_premise_gone))) = [].
Proof. vm_compute. reflexivity. Qed.

Lemma wit_queue_ok (k : nat) : queue_ok wit_good.
Proof. done. Qed.

Lemma pass_ok_idle io now en : (forall k, queue_ok (io k)) -> rt_ids (en_retract en) = [] -> pass_ok io now en.
Proof. intros Hq E. split; [done|]. by rewrite E. Qed.

Lemma pass_ok_single io now en id max :
  (forall k, queue_ok (io k)) -> io_ok (io 0%nat) -> rt_ids (en_retract en) = [id] /\ ec_max_derived (en_cfg en) = S max ->
  tomb_check (io 0%nat) now (with_retract en (set_queue (en_retract en) [] (rt_cap (en_retract en)))) id = true -> pass_ok io now en.
Proof. intros Hq Hio [E1 E2] Ht. split; [done|]. rewrite E1, E2. cbn. split; [done|]. split; [by apply tomb_checked|done]. Qed.

Lemma passes_after io now n en : rt_ids (en_retract (fst (db_retract_step true (io 0%nat) now en))) = [] -> rt_ids (en_retract (passes io now (S n) en)) = [].
Proof. intros E. cbn [passes]. by rewrite passes_idle. Qed.

Lemma wit_passes_ok n : pass_ok (fun _ => wit_good) 110 (passes (fun _ _ => wit_good) 110 n wit_premise_gone).
Proof.
  destruct n as [|n].
  - exact (pass_ok_single (fun _ => wit_good) 110 wit_premise_gone 2 7 wit_queue_ok (wit_qio_ok _) wit_queue wit_pass_tomb).
  - exact (pass_ok_idle (fun _ => wit_good) 110 _ wit_queue_ok (passes_after (fun _ _ => wit_good) 110 n wit_premise_gone wit_pass_done)).
Qed.

Lemma wit_derived_cfg :
  require_phase wit_derived 1 = AEGIS_OK /\ ec_inference (en_cfg wit_derived) = true /\ ec_read_only (en_cfg wit_derived) = false /\ (0 < ec_max_derived (en_cfg wit_derived))%nat /\
  is_Some (ix_edges (en_ix wit_derived)) /\ rt_sup (en_retract wit_derived) = [] /\ rt_ids (en_retract wit_derived) = [].
Proof. vm_compute. split_and!; try reflexivity; [lia|eauto]. Qed.

Lemma wit_derived_todo : covered wit_derived_map 110 (rt_ids (en_retract wit_derived)).
Proof. destruct wit_derived_cfg as (_ & _ & _ & _ & _ & _ & ->). exact wit_derived_covered. Qed.

Lemma wit_premise_deletes : deletes_ok (fun _ => wit_good) (fun _ => 105) 0 wit_derived [1] (Some [97]).
Proof. split; [apply wit_qio_ok|]. split; [by vm_compute|]. split; [exact (tomb_checked _ _ _ _ wit_premise_tomb)|exact I]. Qed.

Lemma retraction_settles_witness :
  exists n en' m', rt_ids (en_retract en') = [] /\ (forall n', passes (fun _ _ => wit_good) 110 n' (passes (fun _ _ => wit_good) 110 n wit_premise_gone) = en') /\ engine_ok store_view en' m' /\ m' ⊆ wit_derived_map.
Proof.
  assert (u64 110) as Hnow by (by vm_compute). destruct wit_derived_cfg as (C1 & C2 & C3 & C4 & C5 & C6 & _).
  pose proof (retraction_settles (fun _ => wit_good) (fun _ => 105) [1] (Some [97]) (fun _ _ => wit_good) 110 wit_derived wit_derived_map wit_derived_ok
    C1 C2 C3 C4 C5 C6 wit_derived_linked wit_derived_todo Hnow wit_premise_deletes wit_queue_ok) as Hs. cbv zeta beta in Hs.
  destruct (Hs wit_passes_ok) as (n & en' & m' & H1 & H2 & H3 & H4 & _).
  exists n, en', m'. split; [exact H2|]. split; [exact H1|]. split; [exact H3|exact H4].
Defined.
