(* ===== verification/Maint.v ===== *)
(** * Maintenance ([src/query/qe_maint.c])

    Export and erasure of a namespace, history and reads in the past, the sweep
    of expired records, consolidation of near duplicates, and forgetting.  Each
    engine call is one critical section; [io k] and [now k] are the outcomes and
    the clock of the [k]-th call of a job.  The counters of the metrics page are
    not modelled. *)

From S2P Require Import Prelude Endian HashIndex SortedArray Record RecordCodec StrTable ProbeTable Intern TimeIndex TagIndex UsageIndex EdgeIndex FactIndex AeadCorrect Log Floats OpenTable BinaryHeap Hnsw SemanticIndex Tenant CkptCrypt Store WorkingBuffer Json Registry Lexical LexSearch Engine Search.

(** ** Ids of live entries *)

Definition cmp_u64_asc (x y : Z) : Z := (if y <? x then 1 else 0) - (if x <? y then 1 else 0).

(** The scan of the buckets; [ok cap] is the growth of a full array of length
    [cap].  The flag is [out_oom]. *)
Fixpoint collect_loop (ok : nat -> bool) (keep : HashEntry -> bool) (es : list HashEntry) (ids : list Z) (cap : nat) : list Z * bool :=
  match es with
  | [] => (ids, false)
  | e :: es' =>
      if negb (he_used e) || negb (he_deleted e =? 0) || negb (keep e) then collect_loop ok keep es' ids cap
      else if (length ids =? cap)%nat then
        if ok cap then collect_loop ok keep es' (ids ++ [he_id e]) (if (cap =? 0)%nat then 64 else cap * 2)%nat else (ids, true)
      else collect_loop ok keep es' (ids ++ [he_id e]) cap
  end.

Definition collect_ids (ok : nat -> bool) (keep : HashEntry -> bool) (en : Engine) : list Z * bool :=
  collect_loop ok keep (hi_buckets (db_hash (en_db en))) [] 0.

Definition keep_after_id (after_id : Z) (e : HashEntry) : bool := after_id <? he_id e.
Definition keep_expired (now : Z) (e : HashEntry) : bool := negb (he_expires_at e =? 0) && (he_expires_at e <=? now).
Definition keep_semantic (e : HashEntry) : bool := he_type e =? memory_type_code MEM_SEMANTIC.
Definition keep_type (t : MemoryType) (e : HashEntry) : bool := he_type e =? memory_type_code t.

Definition snapshot_live_ids (ok : nat -> bool) (en : Engine) (after_id : Z) : list Z := fst (collect_ids ok (keep_after_id after_id) en).

Section maint.
Context `{AeadScheme} `{VecKernel} (exp : spec_float -> spec_float).

(** ** Export *)

(** The page and whether a candidate is left; the [k]-th read sees [world k]. *)
Fixpoint export_loop (io : nat -> QeIo) (now : nat -> Z) (world : nat -> Engine) (k : nat) (ns : option (list Z)) (limit : nat) (ids : list Z) (out : list MemoryRecord)
  : list MemoryRecord * bool :=
  match ids with
  | [] => (out, false)
  | id :: ids' =>
      if (length out =? limit)%nat then (out, true)
      else
        export_loop io now world (S k) ns limit ids'
          (match qe_get (io k) (now k) (world k) id ns with inl r => out ++ [r] | inr _ => out end)
  end.

(** [grow] are the allocations of the snapshot, [ok] that of the page. *)
Definition qe_export (grow : nat -> bool) (ok : bool) (io : nat -> QeIo) (now : nat -> Z) (en : Engine) (world : nat -> Engine)
  (ns : option (list Z)) (after_id : Z) (limit : nat) : (list MemoryRecord * bool) + aegis_status :=
  match require_phase en 1 with
  | AEGIS_OK =>
      let limit := if (limit =? 0)%nat then 100%nat else limit in
      let ids := vk_qsort cmp_u64_asc (snapshot_live_ids grow en after_id) in
      if ok then inl (export_loop io now world 0 ns limit ids []) else inr AEGIS_ERR_INTERNAL
  | st => inr st
  end.

(** ** Erasure *)

Fixpoint count_owned (io : nat -> QeIo) (now : nat -> Z) (k : nat) (en : Engine) (ns : option (list Z)) (ids : list Z) (n : nat) : nat :=
  match ids with
  | [] => n
  | id :: ids' => count_owned io now (S k) en ns ids' (match qe_get (io k) (now k) en id ns with inl _ => S n | inr _ => n end)
  end.

Definition qe_purge_namespace (grow : nat -> bool) (io : nat -> QeIo) (now : nat -> Z) (en : Engine) (ns : option (list Z)) (dry_run : bool) : Engine * (nat + aegis_status) :=
  match require_phase en 1 with
  | AEGIS_OK =>
      match ns with
      | None | Some [] => (en, inr AEGIS_ERR_INVALID_REQUEST)
      | Some _ =>
          let ids := snapshot_live_ids grow en 0 in
          if dry_run then (en, inl (count_owned io now 0 en ns ids 0))
          else let '(en, n) := delete_all io now 0 en ids ns 0 in (en, inl n)
      end
  | st => (en, inr st)
  end.

(** ** History *)

Record HistCtx := mkHistCtx { hc_arr : list MemoryRecord; hc_cap : nat; hc_err : bool }.

Definition history_cb (dalloc : Z -> bool) (grow : nat -> bool) (id : Z) (off : Z) (payload : list Z) (h : HistCtx) : HistCtx * Z :=
  match record_decode dalloc payload with
  | None => (h, 0)
  | Some r =>
      if negb (mr_id r =? id) then (h, 0)
      else if (length (hc_arr h) =? hc_cap h)%nat then
        if grow (hc_cap h) then (mkHistCtx (hc_arr h ++ [r]) (if (hc_cap h =? 0)%nat then 8 else hc_cap h * 2)%nat (hc_err h), 0)
        else (mkHistCtx (hc_arr h) (hc_cap h) true, 1)
      else (mkHistCtx (hc_arr h ++ [r]) (hc_cap h) (hc_err h), 0)
  end.

(** Outcomes of a scan: reads, frame buffers, decoding. *)
Record ScanIo := mkScanIo { sn_rerr : Z -> Z -> bool; sn_lalloc : Z -> bool; sn_dalloc : Z -> bool; sn_grow : nat -> bool }.

Definition qe_history (io : ScanIo) (en : Engine) (id : Z) (ns : option (list Z)) : list MemoryRecord + aegis_status :=
  match require_phase en 1 with
  | AEGIS_OK =>
      let lf := db_log (en_db en) in
      let '(h, rc) := log_scan (sn_rerr io) (sn_lalloc io) (history_cb (sn_dalloc io) (sn_grow io) id) lf 0 (lf_size lf) (mkHistCtx [] 0 false) in
      match rc with
      | None => inr AEGIS_ERR_INTERNAL
      | Some _ =>
          if hc_err h then inr AEGIS_ERR_INTERNAL
          else
            match last (hc_arr h) with
            | None => inr AEGIS_ERR_NOT_FOUND
            | Some r => if ns_denies ns r then inr AEGIS_ERR_NOT_FOUND else inl (hc_arr h)
            end
      end
  | st => inr st
  end.

Definition as_of_cb (dalloc : Z -> bool) (id as_of : Z) (off : Z) (payload : list Z) (best : option MemoryRecord) : option MemoryRecord * Z :=
  match record_decode dalloc payload with
  | None => (best, 0)
  | Some r => if negb (mr_id r =? id) || (as_of <? mr_updated r) then (best, 0) else (Some r, 0)
  end.

Definition qe_get_as_of (io : ScanIo) (en : Engine) (id : Z) (ns : option (list Z)) (as_of : Z) : MemoryRecord + aegis_status :=
  match require_phase en 1 with
  | AEGIS_OK =>
      let lf := db_log (en_db en) in
      let '(best, rc) := log_scan (sn_rerr io) (sn_lalloc io) (as_of_cb (sn_dalloc io) id as_of) lf 0 (lf_size lf) None in
      match rc with
      | None => inr AEGIS_ERR_INTERNAL
      | Some _ =>
          match best with
          | None => inr AEGIS_ERR_NOT_FOUND
          | Some r => if is_deleted r || ns_denies ns r then inr AEGIS_ERR_NOT_FOUND else inl r
          end
      end
  | st => inr st
  end.

(** ** Expiry *)

Definition qe_sweep_expired (grow : nat -> bool) (io : nat -> QeIo) (clock : nat -> Z) (en : Engine) (now : Z) : Engine * nat :=
  delete_all io clock 0 en (fst (collect_ids grow (keep_expired now) en)) None 0.

(** ** Consolidation *)

Definition CONSOLIDATE_CAP : nat := 256.

Definition facts_equal (a b : Fact) : bool :=
  if negb (bool_decide (fa_kind a = fa_kind b)) || negb (fa_subject a =? fa_subject b) then false
  else
    match fa_predicate a, fa_predicate b with
    | Some p, Some q =>
        if negb (bool_decide (p = q)) then false
        else if bool_decide (fa_kind a = FACT_OBJ_ID) then fa_object_id a =? fa_object_id b
        else match fa_object_str a, fa_object_str b with Some x, Some y => bool_decide (x = y) | _, _ => false end
    | _, _ => false
    end.

Definition no_fact (r : MemoryRecord) : bool := bool_decide (fa_kind (mr_fact r) = FACT_NONE).

(** The engine and the number of calls made. *)
Definition Job : Type := Engine * nat.

Definition relate_call (io : nat -> QeIo) (now : nat -> Z) (ns : option (list Z)) (from to : Z) (kind : option (list Z)) (j : Job) : Job :=
  (fst (qe_relate (io (snd j)) (now (snd j)) (fst j) from to kind ns), S (snd j)).

(** [ok] is the lookup of the edges. *)
Definition repoint_dependents (ok : bool) (io : nat -> QeIo) (now : nat -> Z) (ns : option (list Z)) (old_id heir : Z) (j : Job) : Job :=
  match edge_index_sources ok (ix_edges (en_ix (fst j))) old_id [Some S_derived_from] with
  | None => j
  | Some src => foldl (fun j s => relate_call io now ns (es_from s) heir (Some S_derived_from) j) j src
  end.

(** The latest update, then the greatest id; [i] is the position of [rest]. *)
Fixpoint survivor_loop (recs rest : list MemoryRecord) (i sv : nat) : nat :=
  match rest with
  | [] => sv
  | r :: rest' =>
      let sv' := match recs !! sv with
                 | Some b => if (mr_updated b <? mr_updated r) || ((mr_updated r =? mr_updated b) && (mr_id b <? mr_id r)) then i else sv
                 | None => sv
                 end in
      survivor_loop recs rest' (S i) sv'
  end.
Definition survivor_index (recs : list MemoryRecord) : nat := survivor_loop recs (tail recs) 1 0.

(** The members other than [sv] that assert the fact [f]. *)
Definition votes (recs : list MemoryRecord) (sv : nat) (f : Fact) : nat :=
  length (filter (fun b => b = true) (imap (fun j r => negb (j =? sv)%nat && negb (no_fact r) && facts_equal (mr_fact r) f) recs)).

Fixpoint adopt_loop (recs rest : list MemoryRecord) (i sv best : nat) (adopt : option Fact) : option Fact :=
  match rest with
  | [] => adopt
  | r :: rest' =>
      if (i =? sv)%nat || no_fact r then adopt_loop recs rest' (S i) sv best adopt
      else
        let v := votes recs sv (mr_fact r) in
        if (best <? v)%nat then adopt_loop recs rest' (S i) sv v (Some (mr_fact r)) else adopt_loop recs rest' (S i) sv best adopt
  end.

(** Which members the merge folds, the survivor included. *)
Definition keep_flags (recs : list MemoryRecord) (sv : nat) (sv_fact : Fact) : list bool :=
  imap (fun i r => (i =? sv)%nat || no_fact r || facts_equal (mr_fact r) sv_fact) recs.

(** The members folded, with the survivor or without it. *)
Definition kept_members (recs : list MemoryRecord) (keep : list bool) : list MemoryRecord := (filter (fun p => p.2 = true) (zip recs keep)).*1.
Definition losers (recs : list MemoryRecord) (keep : list bool) (survivor : Z) : list MemoryRecord :=
  filter (fun r => mr_id r <> survivor) (kept_members recs keep).

(** The tags of one member; a growth that fails ends the member. *)
Fixpoint union_tags (ok : nat -> bool) (tags utags : list (list Z)) (cap : nat) : list (list Z) * nat :=
  match tags with
  | [] => (utags, cap)
  | t :: tags' =>
      if existsb (fun u => bool_decide (u = t)) utags then union_tags ok tags' utags cap
      else if (length utags =? cap)%nat then
        if ok cap then union_tags ok tags' (utags ++ [t]) (if (cap =? 0)%nat then 8 else cap * 2)%nat else (utags, cap)
      else union_tags ok tags' (utags ++ [t]) cap
  end.

Definition max_weight (w : MemoryRecord -> Z) (l : list MemoryRecord) : Z :=
  foldl (fun acc r => if SFltb (f32_of_bits acc) (f32_of_bits (w r)) then w r else acc) 0 l.

Definition merge_patch (ok : nat -> bool) (members : list MemoryRecord) (adopt : option Fact) : UpdatePatch :=
  let utags := fst (foldl (fun st r => union_tags ok (mr_tags r) (fst st) (snd st)) ([], 0%nat) members) in
  mkPatch None (Some (max_weight mr_importance members)) (Some (max_weight mr_confidence members)) (Some utags) adopt None.

(** Outcomes of the allocations of a merge. *)
Record MergeIo := mkMergeIo { mg_keep : bool; mg_tags : nat -> bool; mg_sup : nat -> bool; mg_sources : nat -> bool }.

Definition migrate_edges (io : nat -> QeIo) (now : nat -> Z) (ns : option (list Z)) (survivor : Z) (l : list MemoryRecord) (j : Job) : Job :=
  foldl (fun j r => foldl (fun j rl => relate_call io now ns survivor (rl_to rl) (rl_kind rl) j) j (mr_relationships r)) j l.

(** The tombstones; [i] counts the losers. *)
Fixpoint retire (mg : MergeIo) (io : nat -> QeIo) (now : nat -> Z) (ns : option (list Z)) (survivor : Z) (i : nat) (l : list MemoryRecord) (j : Job) (merged : nat) : Job * nat :=
  match l with
  | [] => (j, merged)
  | r :: l' =>
      let j := relate_call io now ns survivor (mr_id r) (Some S_supersedes) j in
      let j := (db_supersede_note (mg_sup mg i) (fst j) (mr_id r) survivor, snd j) in
      let j := repoint_dependents (mg_sources mg i) io now ns (mr_id r) survivor j in
      let '(en, st) := qe_delete (io (snd j)) (now (snd j)) (fst j) (mr_id r) ns in
      retire mg io now ns survivor (S i) l' (en, S (snd j)) (match st with AEGIS_OK => S merged | _ => merged end)
  end.

Definition adopted (recs : list MemoryRecord) (sv : nat) (own : MemoryRecord) : option Fact :=
  if no_fact own then adopt_loop recs recs 0 sv 0 None else None.

Definition merge_cluster (mg : MergeIo) (io : nat -> QeIo) (now : nat -> Z) (recs : list MemoryRecord) (ns : option (list Z)) (j : Job) : Job * nat :=
  let sv := survivor_index recs in
  match recs !! sv with
  | None => (j, 0%nat)
  | Some own =>
      let survivor := mr_id own in
      let adopt := adopted recs sv own in
      let sv_fact := default (mr_fact own) adopt in
      if negb (mg_keep mg) then (j, 0%nat)
      else
        let keep := keep_flags recs sv sv_fact in
        if (length (kept_members recs keep) <=? 1)%nat then (j, 0%nat)
        else
          let patch := merge_patch (mg_tags mg) (kept_members recs keep) adopt in
          let '(en, res) := qe_update (io (snd j)) (now (snd j)) (fst j) survivor patch ns in
          let j := (en, S (snd j)) in
          match res with
          | inr _ => (j, 0%nat)
          | inl _ =>
              let l := losers recs keep survivor in
              retire mg io now ns survivor 0 l (migrate_edges io now ns survivor l j) 0
          end
  end.

(** What the searches of a consolidation see beside the engine: the vector
    index, the clock and the outcomes of the [i]-th search. *)
Record ConsolidateIo := mkConsolidateIo {
  co_grow : nat -> bool; co_sem : nat -> nat -> SemanticIndex; co_now : nat -> nat -> Z; co_gather : nat -> nat -> GatherIo; co_rank : nat -> RankIo;
  co_subsume : nat -> SubsumeIo; co_merge : nat -> MergeIo
}.

Definition near_duplicates (r : MemoryRecord) (ns : option (list Z)) (min_similarity : Z) : SearchParams :=
  mkSearchParams None [] false (mr_embedding r) (Z.to_nat (mr_embedding_dim r)) None (Some MEM_SEMANTIC) ns CONSOLIDATE_CAP 0 (Some min_similarity) 0 None false
    None false [] false false.

(** The clusters found and the records merged; [None] is out of fuel in a
    search. *)
Fixpoint consolidate_loop (cfg : SearchCfg) (co : ConsolidateIo) (io : nat -> QeIo) (now : nat -> Z) (ns : option (list Z)) (min_similarity : Z) (i : nat) (ids : list Z)
  (j : Job) (clusters merged : nat) : option (Job * nat * nat) :=
  match ids with
  | [] => Some (j, clusters, merged)
  | id :: ids' =>
      let next := consolidate_loop cfg co io now ns min_similarity (S i) ids' in
      match qe_get (io (snd j)) (now (snd j)) (fst j) id ns with
      | inr _ => next (fst j, S (snd j)) clusters merged
      | inl r =>
          let j := (fst j, S (snd j)) in
          if mr_embedding_dim r =? 0 then next j clusters merged
          else
            let world k := mkSearchView (fst j) (co_sem co i k) (co_now co i k) (co_gather co i k) in
            match qe_search exp cfg (co_subsume co i) (co_rank co i) world (fst j) (co_now co i 0%nat) (near_duplicates r ns min_similarity) with
            | None => None
            | Some (_, inr _) => next j clusters merged
            | Some (_, inl recs) =>
                if (2 <=? length recs)%nat then
                  let '(j, n) := merge_cluster (co_merge co i) io now recs ns j in next j (S clusters) (merged + n)%nat
                else next j clusters merged
            end
      end
  end.

Definition qe_consolidate (cfg : SearchCfg) (co : ConsolidateIo) (io : nat -> QeIo) (now : nat -> Z) (en : Engine) (ns : option (list Z)) (min_similarity : Z)
  : option (Engine * (nat * nat + aegis_status)) :=
  match require_phase en 3 with
  | AEGIS_OK =>
      let '(ids, oom) := collect_ids (co_grow co) keep_semantic en in
      if oom then Some (en, inr AEGIS_ERR_INTERNAL)
      else
        match consolidate_loop cfg co io now ns min_similarity 0 ids (en, 0%nat) 0 0 with
        | None => None
        | Some ((en, _), clusters, merged) => Some (en, inl (clusters, merged))
        end
  | st => Some (en, inr st)
  end.

(** ** Forgetting *)

Definition MIN_HALF_LIFE_MS : Z := 1000.

(** The age is measured from the last use when usage counts. *)
Definition retention (now half_life_ms usage_weight : Z) (usage : option UsageIndex) (r : MemoryRecord) : spec_float :=
  let used := if SFltb f32_zero (f32_of_bits usage_weight) then usage_index_get usage (mr_id r) else None in
  let basis := match used with Some (_, last) => if mr_updated r <? last then last else mr_updated r | None => mr_updated r end in
  let use_boost :=
    match used with
    | Some (recalls, _) =>
        if recalls =? 0 then dbl_one
        else f64_add dbl_one (f64_mul (f64_of_f32 (f32_of_bits usage_weight)) (f64_sub dbl_one (f64_div dbl_one (f64_add dbl_one (f64_of_Z recalls)))))
    | None => dbl_one
    end in
  let age := if basis <? now then f64_of_Z (now - basis) else f32_zero in
  let recency := exp (f64_div (f64_mul neg_ln2 age) (f64_of_Z half_life_ms)) in
  f64_mul (f64_mul (f64_of_f32 (f32_of_bits (mr_importance r))) recency) use_boost.

(** Records scanned and forgotten; [clock] is read once, [io] and [now] belong
    to the calls. *)
Fixpoint forget_loop (io : nat -> QeIo) (now : nat -> Z) (clock half_life_ms min_retention usage_weight : Z) (ns : option (list Z)) (dry_run : bool) (max_forget : nat)
  (ids : list Z) (j : Job) (scanned forgotten : nat) : Job * nat * nat :=
  match ids with
  | [] => (j, scanned, forgotten)
  | id :: ids' =>
      if negb (max_forget =? 0)%nat && (max_forget <=? forgotten)%nat then (j, scanned, forgotten)
      else
        let next := forget_loop io now clock half_life_ms min_retention usage_weight ns dry_run max_forget ids' in
        match qe_get (io (snd j)) (now (snd j)) (fst j) id ns with
        | inr _ => next (fst j, S (snd j)) scanned forgotten
        | inl r =>
            let j := (fst j, S (snd j)) in
            if SFleb (f64_of_f32 (f32_of_bits min_retention)) (retention clock half_life_ms usage_weight (ix_usage (en_ix (fst j))) r) then next j (S scanned) forgotten
            else if dry_run then next j (S scanned) (S forgotten)
            else
              let '(en, st) := qe_delete (io (snd j)) (now (snd j)) (fst j) id ns in
              next (en, S (snd j)) (S scanned) (match st with AEGIS_OK => S forgotten | _ => forgotten end)
        end
  end.

Definition qe_forget (grow : nat -> bool) (io : nat -> QeIo) (now : nat -> Z) (en : Engine) (ns : option (list Z)) (type : MemoryType) (clock half_life_ms min_retention usage_weight : Z)
  (dry_run : bool) (max_forget : nat) : Engine * (nat * nat + aegis_status) :=
  match require_phase en 1 with
  | AEGIS_OK =>
      let half_life_ms := if half_life_ms <? MIN_HALF_LIFE_MS then MIN_HALF_LIFE_MS else half_life_ms in
      let '(ids, oom) := collect_ids grow (keep_type type) en in
      if oom then (en, inr AEGIS_ERR_INTERNAL)
      else
        let '((en, _), scanned, forgotten) := forget_loop io now clock half_life_ms min_retention usage_weight ns dry_run max_forget ids (en, 0%nat) 0 0 in
        (en, inl (scanned, forgotten))
  | st => (en, inr st)
  end.
End maint.
