(* ===== verification/MaintCorrect.v ===== *)
(** * Maintenance jobs over an engine that holds the records [m] *)

From S2P Require Import Prelude Endian SortedArray HashIndex Record RecordCodec RecordRoundtrip RecordDecode StrTable ProbeTable Intern TimeIndex TagIndex UsageIndex EdgeIndex FactIndex Aead AeadCorrect Log LogCorrect Floats OpenTable BinaryHeap Hnsw SemanticIndex Tenant CkptCrypt Store StoreCorrect Compaction CompactionCorrect StoreView WorkingBuffer Json Registry Lexical LexicalCorrect LexSearch LexSearchCorrect Engine Rebuild EngineIndexes EngineCorrect EngineRefines Search SearchSelect SearchCorrect Maint.

(** ** Live entries *)

Definition live_entry (e : HashEntry) : bool := he_used e && (he_deleted e =? 0).

Lemma collect_all ok keep es ids cap :
  (forall n, ok n = true) -> collect_loop ok keep es ids cap = (ids ++ (he_id <$> filter (fun e => live_entry e && keep e = true) es), false).
Proof.
  intros Hok. revert ids cap. induction es as [|e es IH]; intros ids cap; cbn [collect_loop]; [by rewrite app_nil_r|].
  rewrite filter_cons. unfold live_entry. destruct (he_used e); cbn [negb orb andb]; [|by rewrite decide_False by done].
  destruct (he_deleted e =? 0); cbn [negb orb andb]; [|by rewrite decide_False by done].
  destruct (keep e); cbn [negb]; [|by rewrite decide_False by done]. rewrite decide_True by done. cbn [fmap list_fmap].
  destruct (length ids =? cap)%nat; [rewrite Hok|]; rewrite IH, <- app_assoc; done.
Qed.

Section store.
Context `{AeadScheme}.

(** A live entry describes its record. *)
Lemma entry_record db m id e :
  store_view db m -> hi_map (db_hash db) !! id = Some e -> he_deleted e = 0 ->
  he_id e = id /\ exists r, m !! id = Some r /\ he_type e = memory_type_code (mr_type r) /\ he_expires_at e = mr_expires_at r.
Proof.
  intros [(segs & Hi & Hm)] He Hd. rewrite (di_map _ _ Hi) in He. rewrite Hm. unfold view, answer.
  pose proof (index_pays (delivered (lf_encrypted (db_log db)) 0 segs) id) as Hp. rewrite delivered_pays, He in Hp.
  destruct Hp as (off & p & r & Hin & Hr & Hid & -> & Ep). rewrite Ep. cbn [mbind option_bind]. unfold live. rewrite Hr.
  cbn [frame_entry he_deleted] in Hd. split; [done|]. exists r. destruct (is_deleted r); [done|]. by cbn [negb mbind option_bind].
Qed.

Lemma record_entry db m id r : store_view db m -> m !! id = Some r -> exists e, hi_map (db_hash db) !! id = Some e /\ he_deleted e = 0.
Proof.
  intros Hs Hr. pose proof (view_get db m id Hs) as Hg. destruct Hs as [(segs & Hi & Hm)]. rewrite get_refines in Hg by apply Hi.
  destruct (hi_map (db_hash db) !! id) as [e|]; cbn in Hg; [|congruence]. exists e. destruct (Z.eqb_spec (he_deleted e) 0); [done|congruence].
Qed.

(** What a scan of the entries selects. *)
Lemma collect_spec_live ok keep want en m :
  store_view (en_db en) m -> (forall n, ok n = true) ->
  (forall e id r, he_id e = id -> m !! id = Some r -> he_type e = memory_type_code (mr_type r) -> he_expires_at e = mr_expires_at r -> keep e = want id r) ->
  exists ids, collect_ids ok keep en = (ids, false) /\ NoDup ids /\ forall id, id ∈ ids <-> exists r, m !! id = Some r /\ want id r = true.
Proof.
  intros Hs Hal Hk. unfold collect_ids. rewrite collect_all by done. cbn [app]. eexists. split; [done|].
  assert (hi_wf (db_hash (en_db en))) as Hwf by (destruct Hs as [(segs & Hi & _)]; apply Hi).
  assert (forall e, e ∈ hi_buckets (db_hash (en_db en)) -> live_entry e = true -> hi_map (db_hash (en_db en)) !! he_id e = Some e /\ he_deleted e = 0) as Hmap.
  { intros e He Hl. unfold live_entry in Hl. apply andb_true_iff in Hl as [Hu Hd]. apply Z.eqb_eq in Hd. split; [|done].
    apply (tbl_map_lookup _ _ (hw_table _ Hwf)). apply list_elem_of_lookup in He as [j Hj]. by exists j. }
  split.
  - eapply sublist_NoDup; [apply (used_ids_NoDup _ _ (hw_table _ Hwf))|]. apply fmap_sublist. unfold used_entries.
    apply filter_impl_sublist. intros e He. unfold live_entry in He. by destruct (he_used e).
  - intros id. rewrite list_elem_of_fmap. split.
    + intros (e & -> & He). apply list_elem_of_filter in He as [He Hin]. apply andb_true_iff in He as [Hl Hke]. destruct (Hmap e Hin Hl) as [Hm Hd].
      destruct (entry_record _ _ _ _ Hs Hm Hd) as (_ & r & Hr & Ht & Hx). exists r. split; [done|]. by rewrite <- (Hk e (he_id e) r).
    + intros (r & Hr & Hw). destruct (record_entry _ _ _ _ Hs Hr) as (e & Hm & Hd). destruct (entry_record _ _ _ _ Hs Hm Hd) as (Eid & r' & Hr' & Ht & Hx).
      assert (r' = r) as -> by congruence. exists e. split; [done|]. apply list_elem_of_filter. rewrite (Hk e id r) by done. rewrite Hw, andb_true_r.
      apply (tbl_map_lookup _ _ (hw_table _ Hwf)) in Hm as (j & Hj & Hu & _). split; [unfold live_entry; by rewrite Hu, Hd|by eapply list_elem_of_lookup_2].
Qed.

(** ** Sweep and purge *)

(** [m] without the records [gone] selects. *)
Definition without (gone : Z -> MemoryRecord -> bool) (m m' : gmap Z MemoryRecord) : Prop :=
  forall id, m' !! id = match m !! id with Some r => if gone id r then None else Some r | None => None end.

Section jobs.
Context (SV : Db -> gmap Z MemoryRecord -> Prop) `{!RecordStore SV} (Hsv : forall db m, SV db m -> store_view db m).

Lemma delete_selected io now en m ids ns (want : Z -> MemoryRecord -> bool) :
  engine_ok SV en m -> require_phase en 1 = AEGIS_OK -> NoDup ids -> (forall id, id ∈ ids <-> exists r, m !! id = Some r /\ want id r = true) ->
  deletes_ok io now 0 en ids ns ->
  let '(en', n) := delete_all io now 0 en ids ns 0 in
  exists m', engine_ok SV en' m' /\ without (fun id r => want id r && negb (ns_denies ns r)) m m' /\
    (n + size m' <= size m)%nat /\ ((forall j, qi_sync (io j) = true) -> (n + size m' = size m)%nat).
Proof.
  intros Hok Hph Hn Hids Hd. pose proof (delete_all_spec SV io now 0 en m ids ns 0 Hok Hph Hd Hn) as Ha. destruct (delete_all _ _ _ _ _ _ _) as [en' n].
  destruct Ha as (m' & Hok' & Hm' & Hle & Heq). exists m'. split; [done|]. split; [|done]. intros id. rewrite Hm'. destruct (m !! id) as [r|] eqn:Hr; [|done].
  unfold deletable. cbn [fst snd]. assert (bool_decide (id ∈ ids) = want id r) as ->; [|done]. apply eq_true_iff_eq. rewrite bool_decide_eq_true, Hids. split; [|by exists r].
  intros (r' & Hr' & Hw). congruence.
Qed.

Definition expired_at (now : Z) (r : MemoryRecord) : bool := negb (mr_expires_at r =? 0) && (mr_expires_at r <=? now).

Lemma sweep_spec grow io clock en m now :
  engine_ok SV en m -> require_phase en 1 = AEGIS_OK -> (forall n, grow n = true) ->
  deletes_ok io clock 0 en (fst (collect_ids grow (keep_expired now) en)) None ->
  let '(en', n) := qe_sweep_expired grow io clock en now in
  exists m', engine_ok SV en' m' /\ without (fun _ r => expired_at now r) m m' /\
    (n + size m' <= size m)%nat /\ ((forall j, qi_sync (io j) = true) -> (n + size m' = size m)%nat).
Proof.
  intros Hok Hph Hg Hd. unfold qe_sweep_expired.
  destruct (collect_spec_live grow (keep_expired now) (fun _ r => expired_at now r) en m (Hsv _ _ (eo_store _ _ _ Hok)) Hg) as (ids & E & Hn & Hids).
  { intros e id r _ _ _ Hx. unfold keep_expired, expired_at. by rewrite Hx. }
  rewrite E in *. cbn [fst] in *. pose proof (delete_selected io clock en m ids None _ Hok Hph Hn Hids Hd) as Ha. destruct (delete_all _ _ _ _ _ _ _) as [en' n].
  destruct Ha as (m' & Hok' & Hw & Hle & Heq). exists m'. split; [done|]. split; [|done]. intros id. rewrite Hw. destruct (m !! id); [|done]. by rewrite andb_true_r.
Qed.

Lemma purge_spec grow io now en m n :
  engine_ok SV en m -> require_phase en 1 = AEGIS_OK -> n <> [] -> m !! 0 = None -> (forall k, grow k = true) ->
  deletes_ok io now 0 en (snapshot_live_ids grow en 0) (Some n) ->
  exists en' count m', qe_purge_namespace grow io now en (Some n) false = (en', inl count) /\ engine_ok SV en' m' /\
    without (fun _ r => negb (ns_denies (Some n) r)) m m' /\
    (count + size m' <= size m)%nat /\ ((forall j, qi_sync (io j) = true) -> (count + size m' = size m)%nat).
Proof.
  intros Hok Hph Hn Hz Hg Hd. unfold qe_purge_namespace. rewrite Hph. destruct n as [|c n]; [done|]. unfold snapshot_live_ids in *.
  destruct (collect_spec_live grow (keep_after_id 0) (fun id _ => 0 <? id) en m (Hsv _ _ (eo_store _ _ _ Hok)) Hg) as (ids & E & Hnd & Hids).
  { intros e id r <- _ _ _. done. }
  rewrite E in *. cbn [fst] in *. pose proof (delete_selected io now en m ids (Some (c :: n)) _ Hok Hph Hnd Hids Hd) as Ha. destruct (delete_all _ _ _ _ _ _ _) as [en' count].
  destruct Ha as (m' & Hok' & Hw & Hle & Heq). exists en', count, m'. split; [done|]. split; [done|]. split; [|done]. intros id. rewrite Hw. destruct (m !! id) as [r|] eqn:Hr; [|done].
  assert ((0 <? id) = true) as ->; [|done]. apply Z.ltb_lt. destruct (live_record SV _ _ _ _ Hok Hr) as ((W & _) & <- & _). pose proof (rw_id r W) as Hu. unfold urange in Hu.
  assert (mr_id r <> 0) by congruence. lia.
Qed.
End jobs.

(** ** Reading the log *)

Definition scan_io_ok (io : ScanIo) : Prop := sn_rerr io = rok /\ sn_lalloc io = aok /\ sn_dalloc io = aok /\ forall n, sn_grow io n = true.

(** A callback that goes on sees every frame up to the size of the log. *)
Lemma scan_holds {C} (cb : Z -> list Z -> C -> C * Z) (step : C -> Z * list Z -> C) lf segs ctx :
  (forall off p c, cb off p c = (step c (off, p), 0)) -> log_holds lf segs ->
  exists res, log_scan rok aok cb lf 0 (lf_size lf) ctx = (foldl step ctx (delivered (lf_encrypted lf) 0 segs), Some res).
Proof.
  intros Hcb [Hok Hi Hc Hs]. assert (lf_disk lf = segs_bytes segs ++ [] ++ drop (Z.to_nat (lf_size lf)) (lf_disk lf)) as Hd.
  { cbn [app]. rewrite <- Hc. unfold content. by rewrite take_drop. }
  pose proof (log_scan_segments lf segs [] (drop (Z.to_nat (lf_size lf)) (lf_disk lf)) (lf_size lf) Hok (torn_nil _) Hd ltac:(rewrite Hs; unfold flen; cbn; lia)) as Hscan.
  rewrite scan_spec_intact in Hscan by done. cbn [fst snd] in Hscan. unfold log_scan in *.
  pose proof (scan_loop_cb cb step (S (Z.to_nat (lf_size lf - 0))) lf (lf_size lf) (mkSt 0 0 0 0 false false) [] ctx Hcb) as E. cbn [foldl] in E. rewrite E.
  destruct (scan_loop rok aok collect_cb _ lf (lf_size lf) _ []) as [out [st|]]; [|done]. injection Hscan as -> _. by eexists.
Qed.

Lemma scan_logged {C} (cb : Z -> list Z -> C -> C * Z) (step : C -> Z * list Z -> C) db recs ctx (view : C -> MemoryRecord -> C) :
  (forall off p c, cb off p c = (step c (off, p), 0)) -> logged db recs ->
  (forall c off r, record_wf r -> step c (off, record_bytes r) = view c (norm_deleted r)) ->
  exists res, log_scan rok aok cb (db_log db) 0 (lf_size (db_log db)) ctx = (foldl view ctx (norm_deleted <$> recs), Some res).
Proof.
  intros Hcb (segs & Hi & Hp & Hr) Hv. destruct (scan_holds cb step (db_log db) segs ctx Hcb (di_log _ _ Hi)) as [res E]. exists res. rewrite E. f_equal.
  pose proof (delivered_pays (lf_encrypted (db_log db)) 0 segs) as Hd. rewrite Hp in Hd. clear E Hp Hi. revert ctx recs Hr Hd.
  induction (delivered (lf_encrypted (db_log db)) 0 segs) as [|[off p] l IH]; intros ctx recs Hr Hd; destruct recs as [|r recs]; try done.
  cbn [map snd] in Hd. injection Hd as -> Hd. apply Forall_cons in Hr as [[W _] Hr]. cbn [foldl fmap list_fmap]. rewrite (Hv _ _ _ W). by apply IH.
Qed.

Definition versions (id : Z) (recs : list MemoryRecord) : list MemoryRecord := filter (fun r => mr_id r = id) (norm_deleted <$> recs).

Lemma history_spec io en recs id ns :
  logged (en_db en) recs -> require_phase en 1 = AEGIS_OK -> scan_io_ok io ->
  qe_history io en id ns =
    match last (versions id recs) with
    | Some r => if ns_denies ns r then inr AEGIS_ERR_NOT_FOUND else inl (versions id recs)
    | None => inr AEGIS_ERR_NOT_FOUND
    end.
Proof.
  intros Hl Hph (E1 & E2 & E3 & Hg). unfold qe_history. rewrite Hph, E1, E2, E3.
  set (step := fun h (f : Z * list Z) => fst (history_cb aok (sn_grow io) id (fst f) (snd f) h)).
  set (view := fun h r => if decide (mr_id r = id) then mkHistCtx (hc_arr h ++ [r]) (if (length (hc_arr h) =? hc_cap h)%nat then (if (hc_cap h =? 0)%nat then 8 else hc_cap h * 2)%nat else hc_cap h) (hc_err h) else h).
  destruct (scan_logged (history_cb aok (sn_grow io) id) step (en_db en) recs (mkHistCtx [] 0 false) view) as [res ->].
  - intros off p h. unfold step, history_cb. cbn [fst snd]. destruct (record_decode aok p); [|done]. destruct (negb _); [done|]. destruct (_ =? _)%nat; [by rewrite Hg|done].
  - done.
  - intros h off r W. unfold step, history_cb, view. cbn [fst snd]. rewrite record_decode_bytes by done. destruct (Z.eqb_spec (mr_id (norm_deleted r)) id) as [E|E]; cbn [negb].
    + rewrite decide_True by done. destruct (_ =? _)%nat; [by rewrite Hg|done].
    + by rewrite decide_False.
  - assert (forall l h, hc_arr (foldl view h l) = hc_arr h ++ filter (fun r => mr_id r = id) l /\ hc_err (foldl view h l) = hc_err h) as Hv.
    { induction l as [|r l IH]; intros h; [by rewrite app_nil_r|]. cbn [foldl]. destruct (IH (view h r)) as [-> ->]. rewrite filter_cons. unfold view.
      destruct (decide (mr_id r = id)); [|done]. cbn [hc_arr hc_err]. by rewrite <- app_assoc. }
    destruct (Hv (norm_deleted <$> recs) (mkHistCtx [] 0 false)) as [-> ->]. done.
Qed.

Lemma as_of_spec io en recs id ns t :
  logged (en_db en) recs -> require_phase en 1 = AEGIS_OK -> scan_io_ok io ->
  qe_get_as_of io en id ns t =
    match last (filter (fun r => mr_updated r <= t) (versions id recs)) with
    | Some r => if is_deleted r || ns_denies ns r then inr AEGIS_ERR_NOT_FOUND else inl r
    | None => inr AEGIS_ERR_NOT_FOUND
    end.
Proof.
  intros Hl Hph (E1 & E2 & E3 & Hg). unfold qe_get_as_of. rewrite Hph, E1, E2, E3.
  set (step := fun h (f : Z * list Z) => fst (as_of_cb aok id t (fst f) (snd f) h)).
  set (view := fun best r => if decide (mr_id r = id /\ mr_updated r <= t) then Some r else best).
  destruct (scan_logged (as_of_cb aok id t) step (en_db en) recs None view) as [res ->].
  - intros off p h. unfold step, as_of_cb. cbn [fst snd]. destruct (record_decode aok p); [|done]. by destruct (_ || _).
  - done.
  - intros h off r W. unfold step, as_of_cb, view. cbn [fst snd]. rewrite record_decode_bytes by done.
    destruct (Z.eqb_spec (mr_id (norm_deleted r)) id), (Z.ltb_spec t (mr_updated (norm_deleted r))); cbn [negb orb fst]; [rewrite decide_False by lia|rewrite decide_True by lia|rewrite decide_False by lia|rewrite decide_False by lia]; done.
  - assert (forall l best, foldl view best l = match last (filter (fun r => mr_updated r <= t) (filter (fun r => mr_id r = id) l)) with Some r => Some r | None => best end) as Hv.
    { induction l as [|r l IH] using rev_ind; intros best; [done|]. rewrite foldl_app. cbn [foldl]. rewrite !filter_app, IH. unfold view.
      rewrite (filter_cons _ r []). destruct (decide (mr_id r = id)) as [Ei|Ei]; [|rewrite decide_False by tauto; by rewrite filter_nil, app_nil_r].
      rewrite (filter_cons _ r []). destruct (decide (mr_updated r <= t)) as [Eu|Eu]; [rewrite decide_True by tauto; rewrite ?filter_nil, last_snoc; done|].
      rewrite decide_False by tauto. by rewrite filter_nil, app_nil_r. }
    rewrite Hv. unfold versions. by destruct (last _).
Qed.

(** The map the log leaves is the last version of each id. *)
Lemma stored_last id recs :
  foldl stored ∅ recs !! id = match last (versions id recs) with Some r => if is_deleted r then None else Some r | None => None end.
Proof.
  assert (forall r, is_deleted (norm_deleted r) = is_deleted r) as Hd by (intros r; unfold is_deleted; cbn; by destruct (mr_deleted r =? 0)).
  induction recs as [|r recs IH] using rev_ind; [done|]. rewrite foldl_app. cbn [foldl]. unfold versions. rewrite fmap_app, filter_app. cbn [fmap list_fmap]. fold (versions id recs).
  rewrite filter_cons, filter_nil. unfold stored. cbn [norm_deleted mr_id]. destruct (decide (mr_id r = id)) as [<-|Hne].
  - rewrite last_snoc, Hd. destruct (is_deleted r); [by rewrite lookup_delete_eq|by rewrite lookup_insert_eq].
  - rewrite app_nil_r. destruct (is_deleted r); [by rewrite lookup_delete_ne|by rewrite lookup_insert_ne].
Qed.

Lemma versions_until id recs n t :
  Forall (fun r => mr_updated r <= t) (take n recs) -> Forall (fun r => t < mr_updated r) (drop n recs) ->
  filter (fun r => mr_updated r <= t) (versions id recs) = versions id (take n recs).
Proof.
  intros H1 H2. rewrite <- (take_drop n recs) at 1. unfold versions. rewrite fmap_app, !filter_app.
  rewrite (filter_all (fun r => mr_updated r <= t)), (filter_none (fun r => mr_updated r <= t)); [by rewrite app_nil_r| |].
  - rewrite Forall_forall in H2 |- *. intros r Hr. apply list_elem_of_filter in Hr as [_ Hr]. apply list_elem_of_fmap in Hr as (r' & -> & Hr). specialize (H2 r' Hr). cbn. lia.
  - rewrite Forall_forall in H1 |- *. intros r Hr. apply list_elem_of_filter in Hr as [_ Hr]. apply list_elem_of_fmap in Hr as (r' & -> & Hr). specialize (H1 r' Hr). cbn. lia.
Qed.

(** ** Export *)

Definition visible_to (now : Z) (ns : option (list Z)) (r : MemoryRecord) : bool := negb (record_expired r now || ns_denies ns r).
Definition read_visible (m : gmap Z MemoryRecord) (now : Z) (ns : option (list Z)) (id : Z) : option MemoryRecord :=
  match m !! id with Some r => if visible_to now ns r then Some r else None | None => None end.

Lemma export_loop_spec io now en m k ns limit ids out :
  engine_ok store_view en m -> (forall k, io_ok (io k)) -> (length out <= limit)%nat ->
  let '(page, more) := export_loop io (fun _ => now) (fun _ => en) k ns limit ids out in
  let rest := omap (read_visible m now ns) ids in
  page = out ++ take (limit - length out) rest /\ (more = false -> page = out ++ rest) /\ (more = true -> length page = limit).
Proof.
  intros Hok Hio. revert k out. induction ids as [|id ids IH]; intros k out Hl; cbn [export_loop omap list_omap].
  { by rewrite take_nil, app_nil_r. }
  destruct (Nat.eqb_spec (length out) limit) as [E|Hne].
  { rewrite E, Nat.sub_diag, take_0, app_nil_r. done. }
  rewrite (qe_get_live store_view (io k) now en m id ns Hok (Hio k)).
  assert (read_visible m now ns id = match m !! id with Some r => if record_expired r now || ns_denies ns r then None else Some r | None => None end) as ->.
  { unfold read_visible, visible_to. destruct (m !! id) as [r|]; [|done]. by destruct (record_expired r now || ns_denies ns r). }
  destruct (m !! id) as [r|]; [|by apply IH]. destruct (record_expired r now || ns_denies ns r); [by apply IH|].
  specialize (IH (S k) (out ++ [r])). rewrite length_app in IH. cbn [length] in IH. specialize (IH ltac:(lia)).
  destruct (export_loop _ _ _ _ _ _ _ _) as [page more]. destruct IH as (H1 & H2 & H3). replace (limit - length out)%nat with (S (limit - (length out + 1)))%nat by lia.
  rewrite firstn_cons. split_and!; [by rewrite H1, <- app_assoc|intros E; by rewrite (H2 E), <- app_assoc|done].
Qed.

Definition by_id (a b : MemoryRecord) : Prop := mr_id a < mr_id b.

(** The records of a namespace, in order of id. *)
Record owned_list (m : gmap Z MemoryRecord) (now : Z) (ns : option (list Z)) (L : list MemoryRecord) : Prop := {
  ol_sorted : StronglySorted by_id L;
  ol_elem : forall r, r ∈ L <-> m !! mr_id r = Some r /\ visible_to now ns r = true
}.

Lemma owned_unique (L1 L2 : list MemoryRecord) :
  StronglySorted by_id L1 -> StronglySorted by_id L2 -> (forall r, r ∈ L1 <-> r ∈ L2) -> L1 = L2.
Proof.
  intros H1 H2 He. assert (forall L, StronglySorted by_id L -> NoDup L) as Hnd.
  { clear. induction 1 as [|x L _ IH Hf]; constructor; [|done]. intros Hx. rewrite Forall_forall in Hf. specialize (Hf x Hx). unfold by_id in Hf. lia. }
  apply (sorted_unique by_id); [|done|done|apply NoDup_Permutation; auto]. unfold by_id. lia.
Qed.

Context `{VecKernel}.

Lemma export_candidates grow en m now ns after :
  engine_ok store_view en m -> (forall n, grow n = true) ->
  let rest := omap (read_visible m now ns) (vk_qsort cmp_u64_asc (snapshot_live_ids grow en after)) in
  StronglySorted by_id rest /\ forall r, r ∈ rest <-> m !! mr_id r = Some r /\ visible_to now ns r = true /\ after < mr_id r.
Proof.
  intros Hok Hg. cbn zeta. unfold snapshot_live_ids.
  destruct (collect_spec_live grow (keep_after_id after) (fun id _ => after <? id) en m (eo_store _ _ _ Hok) Hg) as (ids & -> & Hn & Hids); [by intros e id r <- _ _ _|]. cbn [fst].
  assert (StronglySorted Z.lt (vk_qsort cmp_u64_asc ids)) as Hs.
  { assert (forall a b, cmp_u64_asc a b <= 0 <-> a <= b) as E by (intros a b; unfold cmp_u64_asc; destruct (Z.ltb_spec b a), (Z.ltb_spec a b); lia).
    assert (StronglySorted (fun a b => cmp_u64_asc a b <= 0) (vk_qsort cmp_u64_asc ids)) as Hs by (apply vk_qsort_sorted; [intros a b; rewrite !E; lia|intros a b c _ _ _; rewrite !E; lia]).
    assert (NoDup (vk_qsort cmp_u64_asc ids)) as Hnd by (by rewrite vk_qsort_perm). induction Hs as [|x k Hs IH Hf]; [constructor|]. apply NoDup_cons in Hnd as [Hx Hnd].
    constructor; [by apply IH|]. rewrite Forall_forall in Hf |- *. intros y Hy. specialize (Hf y Hy). apply (proj1 (E x y)) in Hf. assert (x <> y) as Hne by (intros ->; done). lia. }
  assert (forall id r, read_visible m now ns id = Some r -> mr_id r = id /\ m !! id = Some r /\ visible_to now ns r = true) as Hrv.
  { intros id r E. unfold read_visible in E. destruct (m !! id) as [r'|] eqn:Hr; [|done]. destruct (visible_to now ns r') eqn:Ev; [|done]. injection E as <-.
    destruct (live_record store_view _ _ _ _ Hok Hr) as (_ & Hid & _). done. }
  split.
  - clear Hids Hn. induction Hs as [|id l Hs IH Hf]; [constructor|]. cbn [omap list_omap]. destruct (read_visible m now ns id) as [r|] eqn:E; [|done]. constructor; [done|].
    apply Hrv in E as (<- & _). rewrite Forall_forall in Hf. apply Forall_forall. intros r' Hr'. apply list_elem_of_omap in Hr' as (id' & Hid' & E'). apply Hrv in E' as (<- & _). by apply Hf.
  - intros r. rewrite list_elem_of_omap. split.
    + intros (id & Hid & E). apply Hrv in E as (<- & Hr & Hv). rewrite vk_qsort_perm in Hid. apply Hids in Hid as (r' & _ & Hlt). apply Z.ltb_lt in Hlt. done.
    + intros (Hr & Hv & Hlt). exists (mr_id r). split; [|unfold read_visible; by rewrite Hr, Hv]. rewrite vk_qsort_perm. apply Hids. exists r. split; [done|by apply Z.ltb_lt].
Qed.

(** One page is the next [limit] records after [after]. *)
Lemma export_page grow io now en m ns L after limit :
  engine_ok store_view en m -> require_phase en 1 = AEGIS_OK -> (forall n, grow n = true) -> (forall k, io_ok (io k)) -> owned_list m now ns L -> (0 < limit)%nat ->
  exists page more, qe_export grow true io (fun _ => now) en (fun _ => en) ns after limit = inl (page, more) /\
    let rest := filter (fun r => after < mr_id r) L in
    page = take limit rest /\ (more = false -> page = rest) /\ (more = true -> length page = limit).
Proof.
  intros Hok Hph Hg Hio [HL1 HL2] Hlim. unfold qe_export. rewrite Hph, (proj2 (Nat.eqb_neq limit 0)) by lia.
  destruct (export_candidates grow en m now ns after Hok Hg) as [Hs He].
  pose proof (export_loop_spec io now en m 0 ns limit (vk_qsort cmp_u64_asc (snapshot_live_ids grow en after)) [] Hok Hio ltac:(cbn; lia)) as Hloop.
  destruct (export_loop _ _ _ _ _ _ _ _) as [page more]. exists page, more. split; [done|]. cbn [length app] in Hloop. rewrite Nat.sub_0_r in Hloop.
  assert (omap (read_visible m now ns) (vk_qsort cmp_u64_asc (snapshot_live_ids grow en after)) = filter (fun r => after < mr_id r) L) as E.
  { apply owned_unique; [done|eapply sorted_sublist; [apply sublist_filter|done]|]. intros r. rewrite He, list_elem_of_filter, HL2. tauto. }
  rewrite E in Hloop. exact Hloop.
Qed.

(** A client that asks for page after page. *)
Fixpoint export_pages (n : nat) (grow : nat -> bool) (io : nat -> QeIo) (now : Z) (en : Engine) (ns : option (list Z)) (after : Z) (limit : nat) : list MemoryRecord :=
  match n with
  | O => []
  | S n' =>
      match qe_export grow true io (fun _ => now) en (fun _ => en) ns after limit with
      | inl (page, more) =>
          page ++ (if more then match last page with Some r => export_pages n' grow io now en ns (mr_id r) limit | None => [] end else [])
      | inr _ => []
      end
  end.

(** What follows a prefix that ends in [r]. *)
Lemma after_prefix (pre post : list MemoryRecord) r : StronglySorted by_id (pre ++ r :: post) -> filter (fun x => mr_id r < mr_id x) (pre ++ r :: post) = post.
Proof.
  intros Hs. apply StronglySorted_app in Hs as (Hpre & _ & Hs). apply StronglySorted_inv in Hs as [_ Hf]. rewrite filter_app, filter_cons, decide_False by lia.
  rewrite filter_none, filter_all; [done| |].
  - eapply Forall_impl; [exact Hf|]. unfold by_id. done.
  - apply Forall_forall. intros x Hx. specialize (Hpre x r Hx ltac:(by left)). unfold by_id in Hpre. lia.
Qed.

Lemma export_pages_rest n grow io now en m ns L (after : Z) limit :
  engine_ok store_view en m -> require_phase en 1 = AEGIS_OK -> (forall n, grow n = true) -> (forall k, io_ok (io k)) -> owned_list m now ns L -> (0 < limit)%nat ->
  (length (filter (fun r => (after < mr_id r)%Z) L) < n)%nat -> export_pages n grow io now en ns after limit = filter (fun r => after < mr_id r) L.
Proof.
  intros Hok Hph Hg Hio HL Hlim. revert after. induction n as [|n IH]; intros after Hn; [lia|]. cbn [export_pages].
  destruct (export_page grow io now en m ns L after limit Hok Hph Hg Hio HL Hlim) as (page & more & -> & Hp & Hf & Ht). set (rest := filter (fun r => after < mr_id r) L) in *.
  destruct more; [|rewrite app_nil_r; by apply Hf]. specialize (Ht eq_refl). destruct (last page) as [r|] eqn:El.
  2:{ apply last_None in El. subst page. rewrite El in Ht. cbn in Ht. lia. }
  apply last_Some in El as [pre Epre]. assert (rest = pre ++ r :: drop limit rest) as Hrest.
  { rewrite <- (take_drop limit rest) at 1. rewrite <- Hp, Epre, <- app_assoc. done. }
  assert (StronglySorted by_id rest) as Hs by (eapply sorted_sublist; [apply sublist_filter|apply HL]).
  assert (filter (fun x => mr_id r < mr_id x) L = drop limit rest) as Hnext.
  { rewrite Hrest in Hs. rewrite <- (after_prefix pre (drop limit rest) r Hs), <- Hrest. unfold rest. rewrite list_filter_filter. apply list_filter_iff. intros x.
    assert (after < mr_id r); [|lia]. assert (r ∈ rest) as Hr by (rewrite Hrest; apply elem_of_app; right; by left). by apply list_elem_of_filter in Hr as [? _]. }
  rewrite IH, Hnext, Hp; [by rewrite take_drop|]. rewrite Hnext, length_drop. assert (length page <= length rest)%nat by (rewrite Hp, length_take; lia). lia.
Qed.
End store.
