(* ===== verification/MaintAnswers.v ===== *)
(** * What the maintenance jobs answer

    Erasure of a namespace reaches the log, history and reads in the past follow
    the versions written, export pages enumerate a namespace. *)

From S2P Require Import Prelude Endian SortedArray HashIndex Record RecordCodec RecordRoundtrip RecordDecode StrTable ProbeTable Intern TimeIndex TagIndex UsageIndex EdgeIndex FactIndex Aead AeadCorrect Log LogCorrect LogFaults Floats OpenTable BinaryHeap Hnsw SemanticIndex Tenant CkptCrypt Store StoreCorrect Compaction CompactionCorrect StoreView WorkingBuffer Json Registry Lexical LexicalCorrect LexSearch LexSearchCorrect Engine Rebuild EngineIndexes EngineCorrect EngineRefines Search SearchSelect SearchCorrect TruthMaintenance Maint MaintCorrect.

Section answers.
Context `{AeadScheme}.

(** ** A store whose log is encrypted as its configuration says *)

Definition keyed (db : Db) : Prop := lf_encrypted (db_log db) = is_enc (cfg_key (db_config db)).
Definition keyed_view (db : Db) (m : gmap Z MemoryRecord) : Prop := store_view db m /\ keyed db.

#[export] Instance keyed_view_store : RecordStore keyed_view.
Proof.
  split.
  - intros db m id [Hs _]. by apply view_load.
  - intros db m id r [Hs _]. by apply view_record.
  - intros db m id [Hs _]. by apply view_get.
  - intros io db m rec [Hs Hk] Hio Hr Hid _. pose proof (view_append io db m rec Hs Hio Hr Hid) as Ha. destruct (append_and_hash io db rec) as [db' st].
    destruct Ha as [Hsame Hs']. split; [done|]. split; [done|]. destruct Hsame as (Ec & _ & _ & Ee & _). unfold keyed in *. congruence.
  - intros db m [Hs Hk] Hn. split; [by apply view_next_id|done].
  - intros db m [Hs _]. by eapply view_next_pos.
  - intros db m sync [Hs Hk]. split; [by apply rs_flush|]. unfold keyed. destruct (fsync_batched_since (db_log db) sync) as [v ->]. done.
Qed.

Lemma engine_weaken (SV SV' : Db -> gmap Z MemoryRecord -> Prop) en m : SV' (en_db en) m -> engine_ok SV en m -> engine_ok SV' en m.
Proof. intros Hs []. by split. Qed.

(** ** Compaction of a quiet store *)

(** The frames of the new log are the live records. *)
Lemma compact_live cio db m db2 :
  keyed_view db m -> cio_ok cio -> compaction_run_once_locked cio db db db = (db2, true) ->
  exists recs, logged db2 recs /\ db_full db2 /\ (forall r, r ∈ recs -> mr_deleted r = 0 /\ m !! mr_id r = Some r) /\
    forall id, load_record rok aok aok db2 id = match m !! id with Some r => inl r | None => inr AEGIS_ERR_NOT_FOUND end.
Proof.
  intros [Hs Hk] Hcio E. pose proof (view_load db m) as Hld. destruct Hs as [(segs & Hi & Hm)]. pose proof Hi as Hi'. rewrite <- (app_nil_r segs) in Hi'.
  destruct (run_once_inv cio Hcio db db db segs [] [] db2 true Hi Hi' Hi' eq_refl Hk eq_refl eq_refl E) as [[? _]|(_ & segs2 & Hi2 & Hf & _ & _ & Hl & Hp)]; [done|].
  assert (forall p, p ∈ log_pays segs2 -> exists r, p = record_bytes r /\ rec_ok r /\ mr_deleted r = 0 /\ m !! mr_id r = Some r) as Hall.
  { intros p Hin. destruct (Hp p Hin) as [[id Ha]|Hno]; [|by apply elem_of_nil in Hno]. destruct (answer_live _ _ _ Ha) as (r & Hr & Hd & Hid).
    assert (m !! id = Some r) as Hmr by (rewrite Hm; unfold view; by rewrite Ha).
    destruct (view_record db m id r ltac:(split; by exists segs) Hmr) as (Hok & _ & Hdel & _).
    destruct (pays_of_segs _ _ _ (di_recs _ _ Hi) Ha) as (r0 & [W0 L0] & ->). rewrite record_decode_bytes in Hr by done. injection Hr as <-.
    exists (norm_deleted r0). rewrite Hid. split; [|done]. assert (mr_deleted r0 = 0) as E0; [|destruct r0; cbn in E0; by subst].
    unfold is_deleted in Hd. cbn in Hd. by destruct (mr_deleted r0 =? 0) eqn:Ez; [apply Z.eqb_eq|]. }
  assert (exists recs, log_pays segs2 = map record_bytes recs /\ Forall rec_ok recs /\ forall r, r ∈ recs -> mr_deleted r = 0 /\ m !! mr_id r = Some r) as (recs & Hpay & Hok & Hr).
  { clear -Hall. induction (log_pays segs2) as [|p l IH]; [exists []; split_and!; [done|done|]; intros r Hr; by apply elem_of_nil in Hr|].
    destruct IH as (recs & -> & Hok & Hr); [intros q Hq; apply Hall; by right|]. destruct (Hall p ltac:(by left)) as (r & -> & Hrok & Hd & Hm).
    exists (r :: recs). split_and!; [done|by constructor|]. intros x Hx. apply elem_of_cons in Hx as [->|Hx]; [done|by apply Hr]. }
  exists recs. split; [by exists segs2|]. split_and!; try done. intros id. rewrite Hl. apply Hld. split. by exists segs.
Qed.
(** ** Consolidation *)

(** A record folded into the survivor asserts nothing the survivor does not. *)
Lemma losers_agree recs sv f survivor r :
  (forall own, recs !! sv = Some own -> mr_id own = survivor) -> r ∈ losers recs (keep_flags recs sv f) survivor ->
  r ∈ recs /\ mr_id r <> survivor /\ (no_fact r = true \/ facts_equal (mr_fact r) f = true).
Proof.
  intros Hsv Hr. unfold losers, kept_members in Hr. apply list_elem_of_filter in Hr as [Hne Hr]. apply list_elem_of_fmap in Hr as ([x b] & -> & Hx). cbn [fst] in *.
  apply list_elem_of_filter in Hx as [Hb Hx]. cbn [snd] in Hb. subst b. apply list_elem_of_lookup in Hx as [i Hi]. apply lookup_zip_with_Some in Hi as (x' & b' & [= <- <-] & Hxi & Hbi).
  unfold keep_flags in Hbi. rewrite list_lookup_imap, Hxi in Hbi. cbn in Hbi. injection Hbi as Hbi. split; [by eapply list_elem_of_lookup_2|]. split; [done|].
  apply orb_true_iff in Hbi as [Hbi|Hbi]; [|by right]. apply orb_true_iff in Hbi as [Hbi|Hbi]; [|by left]. apply Nat.eqb_eq in Hbi. subst i. by rewrite (Hsv x Hxi) in Hne.
Qed.

Lemma union_tags_all ok tags utags cap :
  (forall n, ok n = true) -> forall t, t ∈ fst (union_tags ok tags utags cap) <-> t ∈ utags \/ t ∈ tags.
Proof.
  intros Hok. revert utags cap. induction tags as [|x tags IH]; intros utags cap t; cbn [union_tags fst]; [set_solver|].
  destruct (existsb _ utags) eqn:Ex.
  - apply existsb_exists in Ex as (u & Hu & E). apply bool_decide_eq_true in E as ->. apply list_elem_of_In in Hu. rewrite IH. set_solver.
  - destruct (length utags =? cap)%nat; [rewrite Hok|]; rewrite IH; set_solver.
Qed.

(** The survivor takes every tag of the records folded into it. *)
Lemma merge_takes_tags ok members adopt t :
  (forall n, ok n = true) -> (exists r, r ∈ members /\ t ∈ mr_tags r) <-> exists tags, up_tags (merge_patch ok members adopt) = Some tags /\ t ∈ tags.
Proof.
  intros Hok. unfold merge_patch. cbn. assert (forall st, t ∈ fst (foldl (fun st r => union_tags ok (mr_tags r) (fst st) (snd st)) st members) <-> t ∈ fst st \/ exists r, r ∈ members /\ t ∈ mr_tags r) as Hf.
  { induction members as [|r members IH]; intros st; cbn [foldl]; [set_solver|]. rewrite IH, union_tags_all by done. set_solver. }
  specialize (Hf ([], 0%nat)). cbn in Hf. split.
  - intros Hx. eexists. split; [done|]. apply Hf. by right.
  - intros (tags & [= <-] & Ht). apply Hf in Ht as [Ht|Ht]; [by apply not_elem_of_nil in Ht|done].
Qed.

(** ** Forgetting *)

(** What may be forgotten: records of the namespace, not expired, that score
    below the floor. *)
Definition forgettable (exp : spec_float -> spec_float) (clock now half_life floor weight : Z) (ns : option (list Z)) (r : MemoryRecord) : Prop :=
  ns_denies ns r = false /\ record_expired r now = false /\ exists usage, SFleb (f64_of_f32 (f32_of_bits floor)) (retention exp clock half_life weight usage r) = false.

Fixpoint forgets_ok (exp : spec_float -> spec_float) (io : nat -> QeIo) (now : nat -> Z) (clock half_life floor weight : Z) (ns : option (list Z)) (ids : list Z) (j : Job) : Prop :=
  match ids with
  | [] => True
  | id :: ids' =>
      io_ok (io (snd j)) /\ io_ok (io (S (snd j))) /\ u64 (now (S (snd j))) /\ tomb_written (io (S (snd j))) (now (S (snd j))) (fst j) id /\
      forall j', j' = (fst j, S (snd j)) \/ j' = (fst (qe_delete (io (S (snd j))) (now (S (snd j))) (fst j) id ns), S (S (snd j))) -> forgets_ok exp io now clock half_life floor weight ns ids' j'
  end.

Lemma forget_loop_spec exp io now clock half_life floor weight ns max ids en k m scanned forgotten :
  engine_ok store_view en m -> forgets_ok exp io now clock half_life floor weight ns ids (en, k) ->
  let '(en', k', scanned', forgotten') := forget_loop exp io now clock half_life floor weight ns false max ids (en, k) scanned forgotten in
  exists m', engine_ok store_view en' m' /\ m' ⊆ m /\ (forgotten' + size m' <= forgotten + size m)%nat /\ (max <> 0 -> forgotten <= max -> forgotten' <= max)%nat /\
    forall id r, m !! id = Some r -> m' !! id = None -> id ∈ ids /\ exists j, forgettable exp clock (now j) half_life floor weight ns r.
Proof.
  revert en k m scanned forgotten. induction ids as [|id ids IH]; intros en k m scanned forgotten Hok Hf; cbn [forget_loop].
  { exists m. split_and!; try done. intros id r H1 H2. congruence. }
  destruct (_ && _) eqn:Estop. { exists m. split_and!; try done. intros i r H1 H2. congruence. }
  destruct Hf as (Hio & Hio' & Hnow & Ht & Hf). cbn [fst snd] in *. rewrite (qe_get_live store_view (io k) (now k) en m id ns Hok Hio).
  assert (forall sc j', j' = (en, S k) -> let '(en', k', scanned', forgotten') := forget_loop exp io now clock half_life floor weight ns false max ids j' sc forgotten in
    exists m', engine_ok store_view en' m' /\ m' ⊆ m /\ (forgotten' + size m' <= forgotten + size m)%nat /\ (max <> 0 -> forgotten <= max -> forgotten' <= max)%nat /\
    forall i r, m !! i = Some r -> m' !! i = None -> i ∈ id :: ids /\ exists j, forgettable exp clock (now j) half_life floor weight ns r) as Hskip.
  { intros sc j' ->. specialize (IH en (S k) m sc forgotten Hok (Hf (en, S k) (or_introl eq_refl))). destruct (forget_loop _ _ _ _ _ _ _ _ _ _ _ _ _ _) as [[[en' k'] s'] f'].
    destruct IH as (m' & H1 & H2 & H3 & H4 & H5). exists m'. split_and!; try done. intros i r Hi Hn. destruct (H5 i r Hi Hn). split; [by right|done]. }
  destruct (m !! id) as [r|] eqn:Hr; [|by apply Hskip]. destruct (record_expired r (now k) || ns_denies ns r) eqn:Ev; [by apply Hskip|].
  apply orb_false_iff in Ev as [Ex Ens]. destruct (SFleb _ _) eqn:Efl; [by apply Hskip|].
  pose proof (qe_delete_spec store_view (io (S k)) (now (S k)) en m id ns Hok Hio' Hnow) as Hd. specialize (Hf _ (or_intror eq_refl)).
  destruct (qe_delete (io (S k)) (now (S k)) en id ns) as [en1 st]. cbn [fst snd] in *. destruct Hd as [(-> & Hst & _)|(cur & Hcur & _ & Hm)].
  - specialize (IH en (S (S k)) m (S scanned) (match st with AEGIS_OK => S forgotten | _ => forgotten end) Hok Hf). destruct (forget_loop _ _ _ _ _ _ _ _ _ _ _ _ _ _) as [[[en' k'] s'] f'].
    assert (match st with AEGIS_OK => S forgotten | _ => forgotten end = forgotten) as En by (by destruct st). rewrite En in IH. destruct IH as (m' & H1 & H2 & H3 & H4 & H5).
    exists m'. split_and!; try done. intros i x Hi Hn. destruct (H5 i x Hi Hn). split; [by right|done].
  - assert (cur = r) as -> by congruence. rewrite (Ht r (loaded_live store_view en m id r Hok Hr)) in Hm. destruct Hm as [Hok1 _].
    specialize (IH en1 (S (S k)) (delete id m) (S scanned) (match st with AEGIS_OK => S forgotten | _ => forgotten end) Hok1 Hf). destruct (forget_loop _ _ _ _ _ _ _ _ _ _ _ _ _ _) as [[[en' k'] s'] f'].
    destruct IH as (m' & H1 & H2 & H3 & H4 & H5). pose proof (size_delete m id ltac:(by rewrite Hr)) as Hsz. exists m'. split_and!; [done|etrans; [done|apply delete_subseteq]|destruct st; lia| |].
    + intros Hmax Hle. apply H4; [done|]. apply andb_false_iff in Estop as [E|E]; [apply negb_false_iff, Nat.eqb_eq in E; done|]. apply Nat.leb_gt in E. destruct st; lia.
    + intros i x Hi Hn. destruct (decide (i = id)) as [->|Hne]; [|rewrite <- (lookup_delete_ne m id i) in Hi by done; destruct (H5 i x Hi Hn); split; [by right|done]].
      split; [by left|]. exists k. assert (x = r) as -> by congruence. split; [done|]. split; [done|]. eauto.
Qed.

End answers.

(** C8: Purging a namespace and compacting erases it from the disk. Take an engine
    that holds the records [m]. The purge of a namespace, every tombstone of which
    can be written, answers a count and leaves exactly the records of [m] that
    belong to other namespaces; the count is their number when the flushes
    succeed. A compaction of the quiet store that then succeeds leaves a log file
    with nothing past its frames, in which no frame (older version, tombstone or
    live record) is a record of the namespace or a record that was deleted at
    any time, while every record of the other namespaces reads as before. *)
Theorem purge_compact_erases `{AeadScheme} grow io now en m n cio db2 :
  engine_ok keyed_view en m -> require_phase en 1 = AEGIS_OK -> n <> [] -> m !! 0 = None -> (forall k, grow k = true) ->
  deletes_ok io now 0 en (snapshot_live_ids grow en 0) (Some n) -> cio_ok cio ->
  exists en' count m', qe_purge_namespace grow io now en (Some n) false = (en', inl count) /\
    engine_ok keyed_view en' m' /\
    (forall id r, m' !! id = Some r <-> m !! id = Some r /\ ns_denies (Some n) r = true) /\
    ((forall j, qi_sync (io j) = true) -> (count + size m' = size m)%nat) /\
    (compaction_run_once_locked cio (en_db en') (en_db en') (en_db en') = (db2, true) ->
     exists recs, logged db2 recs /\ db_full db2 /\
       (forall r, r ∈ recs -> mr_deleted r = 0 /\ ns_denies (Some n) r = true /\ m !! mr_id r = Some r) /\
       forall id r, m !! id = Some r ->
         load_record rok aok aok db2 id = if ns_denies (Some n) r then inl r else inr AEGIS_ERR_NOT_FOUND).
Proof.
  intros Hok Hph Hn Hz Hg Hd Hcio.
  destruct (purge_spec keyed_view (fun db m Hk => proj1 Hk) grow io now en m n Hok Hph Hn Hz Hg Hd) as (en' & count & m' & E & Hok' & Hw & _ & Hc).
  assert (forall id r, m' !! id = Some r <-> m !! id = Some r /\ ns_denies (Some n) r = true) as Hm'.
  { intros id r. rewrite Hw. destruct (m !! id) as [r'|]; [|by split; [|intros [? _]]].
    destruct (ns_denies (Some n) r') eqn:En; cbn [negb]; (split; [intros [=]|intros [[=] ?]]); subst; [done|done|congruence]. }
  exists en', count, m'. split_and!; try done. intros Ec.
  destruct (compact_live cio _ m' db2 (eo_store _ _ _ Hok') Hcio Ec) as (recs & Hl & Hf & Hr & Hld). exists recs. split_and!; try done.
  - intros r Hin. destruct (Hr r Hin) as [Hdel Hmr]. apply Hm' in Hmr as [Hmr En]. done.
  - intros id r Hmr. rewrite Hld, Hw, Hmr. by destruct (ns_denies (Some n) r).
Qed.

(** The last of the versions stamped at [t] or before. *)
Definition version_at (t : Z) (vs : list MemoryRecord) : option MemoryRecord := last (filter (fun r => mr_updated r <= t) vs).

(** When the stamps never go back it is the one with the greatest stamp. *)
Lemma version_at_greatest t vs r :
  StronglySorted (fun a b => mr_updated a <= mr_updated b) vs -> version_at t vs = Some r ->
  r ∈ vs /\ mr_updated r <= t /\ forall v, v ∈ vs -> mr_updated v <= t -> mr_updated v <= mr_updated r.
Proof.
  intros Hs. unfold version_at. induction Hs as [|v vs Hs IH Hv]; [done|]. rewrite filter_cons. rewrite Forall_forall in Hv.
  destruct (filter (fun r => mr_updated r <= t) vs) as [|x l] eqn:Ef.
  - assert (forall w, w ∈ vs -> mr_updated w <= t -> False) as Hnone.
    { intros w Hw Ht. assert (w ∈ filter (fun r => mr_updated r <= t) vs) as Hin by (by apply list_elem_of_filter). rewrite Ef in Hin. by apply elem_of_nil in Hin. }
    case_decide as Ec; [|done]. intros [= <-]. split_and!; [by left|done|]. intros w Hw Ht. apply elem_of_cons in Hw as [->|Hw]; [done|]. by destruct (Hnone w Hw Ht).
  - assert (last (if decide (mr_updated v <= t) then v :: x :: l else x :: l) = last (x :: l)) as -> by (by case_decide).
    intros Hr. destruct (IH Hr) as (Hin & Ht & Hmax). split_and!; [by right|done|]. intros w Hw Hwt. apply elem_of_cons in Hw as [->|Hw]; [by apply Hv|by apply Hmax].
Qed.

(** C10: History and reads in the past see what was written. Take any engine that
    holds the records [m] over a log with its history. There is a list of the
    versions written, of which [m] is the outcome, such that the history of an
    id is its versions in the order they were written, tombstones included
    (none when the last of them belongs to another namespace, or when there is
    none). A read as of [t] answers the last written version stamped at [t] or
    before, not found when that is a tombstone or another namespace's. When the
    stamps of the id's versions never go back, this is the version with the
    greatest stamp up to [t], the one the protocol document promises; and when
    the first [n] writes are those stamped up to [t], it is what the store held
    after them. *)
Theorem time_travel_exact `{AeadScheme} io en m :
  engine_ok history_view en m -> require_phase en 1 = AEGIS_OK -> scan_io_ok io ->
  exists recs, logged (en_db en) recs /\ m = foldl stored ∅ recs /\
    forall id ns,
      qe_history io en id ns =
        match last (versions id recs) with
        | Some r => if ns_denies ns r then inr AEGIS_ERR_NOT_FOUND else inl (versions id recs)
        | None => inr AEGIS_ERR_NOT_FOUND
        end /\
      forall t,
        qe_get_as_of io en id ns t =
          match version_at t (versions id recs) with
          | Some r => if is_deleted r || ns_denies ns r then inr AEGIS_ERR_NOT_FOUND else inl r
          | None => inr AEGIS_ERR_NOT_FOUND
          end /\
        (StronglySorted (fun a b => mr_updated a <= mr_updated b) (versions id recs) ->
         forall r, version_at t (versions id recs) = Some r ->
           forall v, v ∈ versions id recs -> mr_updated v <= t -> mr_updated v <= mr_updated r <= t) /\
        forall n, Forall (fun r => mr_updated r <= t) (take n recs) -> Forall (fun r => t < mr_updated r) (drop n recs) ->
          qe_get_as_of io en id ns t =
            match foldl stored ∅ (take n recs) !! id with
            | Some r => if ns_denies ns r then inr AEGIS_ERR_NOT_FOUND else inl r
            | None => inr AEGIS_ERR_NOT_FOUND
            end.
Proof.
  intros Hok Hph Hio. destruct (eo_store _ _ _ Hok) as (recs & Hl & Hm & _). exists recs. split_and!; try done. intros id ns.
  split; [by apply history_spec|]. intros t. pose proof (as_of_spec io en recs id ns t Hl Hph Hio) as Hsp. split; [exact Hsp|]. split.
  - intros Hs r Hr v Hv Hvt. destruct (version_at_greatest t _ r Hs Hr) as (_ & Ht & Hmax). split; [by apply Hmax|done].
  - intros n H1 H2. rewrite Hsp, (versions_until _ _ _ _ H1 H2), stored_last.
    destruct (last (versions id (take n recs))) as [r|]; [|done]. by destruct (is_deleted r).
Qed.

(** C11: Exporting page by page enumerates a namespace. On a quiet engine a client
    that asks for pages of any positive size, each after the last id of the
    page before, and stops when no more is announced, receives every record
    of the namespace that is live and has not expired, exactly once and in
    ascending order of ids, and nothing else; one request more than there are
    such records is always enough. *)
Theorem export_enumerates `{AeadScheme} `{VecKernel} grow io now en m ns limit :
  engine_ok store_view en m -> require_phase en 1 = AEGIS_OK -> m !! 0 = None -> (forall n, grow n = true) -> (forall k, io_ok (io k)) -> (0 < limit)%nat ->
  exists L, StronglySorted (fun a b => mr_id a < mr_id b) L /\ (forall r, r ∈ L <-> m !! mr_id r = Some r /\ negb (record_expired r now || ns_denies ns r) = true) /\
    forall n, (length L < n)%nat -> export_pages n grow io now en ns 0 limit = L.
Proof.
  intros Hok Hph Hz Hg Hio Hlim. destruct (export_candidates grow en m now ns 0 Hok Hg) as [Hs He]. set (L := omap _ _) in *.
  assert (forall r, r ∈ L <-> m !! mr_id r = Some r /\ visible_to now ns r = true) as HL.
  { intros r. rewrite He. split; [by intros (? & ? & _)|]. intros [Hr Hv]. split_and!; try done. destruct (live_record store_view _ _ _ _ Hok Hr) as ((W & _) & _).
    pose proof (rw_id r W) as Hu. unfold urange in Hu. assert (mr_id r <> 0) by congruence. lia. }
  exists L. split; [exact Hs|]. split; [exact HL|]. intros n Hn. assert (filter (fun r => 0 < mr_id r) L = L) as EL.
  { apply filter_all, Forall_forall. intros r Hr. by apply He in Hr as (_ & _ & ?). }
  rewrite (export_pages_rest n grow io now en m ns L 0 limit Hok Hph Hg Hio (Build_owned_list _ _ _ _ Hs HL) Hlim); by rewrite EL.
Qed.

(** ** Examples *)

#[local] Existing Instance ieee_kernel.

Definition all_grow (n : nat) : bool := true.

Lemma wit_keyed : engine_ok keyed_view wit_two wit_map.
Proof. apply (engine_weaken store_view); [|exact wit_two_ok]. split; [apply (eo_store _ _ _ wit_two_ok)|]. vm_compute. reflexivity. Qed.

Lemma wit_two_phase : require_phase wit_two 1 = AEGIS_OK.
Proof. vm_compute. reflexivity. Qed.

Lemma wit_live_ids : snapshot_live_ids all_grow wit_two 0 = [1; 2].
Proof. vm_compute. reflexivity. Qed.

Lemma wit_purge_tombs : tomb_check wit_good 130 wit_two 1 = true /\ tomb_check wit_good 130 (fst (qe_delete wit_good 130 wit_two 1 (Some [97]))) 2 = true.
Proof. vm_compute. split; reflexivity. Qed.

Lemma wit_purge_deletes : deletes_ok (fun _ => wit_good) (fun _ => 130) 0 wit_two (snapshot_live_ids all_grow wit_two 0) (Some [97]).
Proof.
  rewrite wit_live_ids. assert (u64 130) as Hu by (by vm_compute). destruct wit_purge_tombs as [T1 T2].
  split; [apply wit_qio_ok|]. split; [exact Hu|]. split; [exact (tomb_checked _ _ _ _ T1)|].
  split; [apply wit_qio_ok|]. split; [exact Hu|]. split; [exact (tomb_checked _ _ _ _ T2)|exact I].
Qed.

Lemma wit_map_zero : wit_map !! 0 = None.
Proof. reflexivity. Qed.

(** The purged store, compacted. *)
#[local] Notation wit_purged := (qe_purge_namespace all_grow (fun _ : nat => wit_good) (fun _ : nat => 130) wit_two (Some [97]) false).
#[local] Notation wit_compact := (fun en => compaction_run_once_locked wit_cio (en_db en) (en_db en) (en_db en)).

Lemma wit_erased_done : snd (wit_compact (fst wit_purged)) = true.
Proof. vm_compute. reflexivity. Qed.

Lemma wit_purged_count : snd wit_purged = inl 2%nat.
Proof. vm_compute. reflexivity. Qed.

Lemma run_after {A B C} (f : A -> B * bool) (x : A * C) a c : snd (f (fst x)) = true -> x = (a, c) -> f a = (fst (f (fst x)), true).
Proof. intros Hf ->. cbn in *. destruct (f a). cbn in *. by subst. Qed.

Lemma count_of {A} (x : A * (nat + aegis_status)) a n k : snd x = inl n -> x = (a, inl k) -> k = n.
Proof. intros Hs ->. cbn in Hs. congruence. Qed.

Lemma purge_compact_erases_witness :
  exists (m' : gmap Z MemoryRecord) db2 recs, logged db2 recs /\ db_full db2 /\
    (forall r, r ∈ recs -> mr_deleted r = 0 /\ ns_denies (Some [97]) r = true /\ wit_map !! mr_id r = Some r) /\ (2 + size m' = size wit_map)%nat.
Proof.
  destruct (purge_compact_erases all_grow (fun _ => wit_good) (fun _ => 130) wit_two wit_map [97] wit_cio (fst (wit_compact (fst wit_purged))) wit_keyed wit_two_phase
    ltac:(discriminate) wit_map_zero (fun _ => eq_refl) wit_purge_deletes wit_cio_ok) as (en' & count & m' & E & _ & _ & Hc & Hcomp).
  rewrite (count_of _ _ _ _ wit_purged_count E) in Hc. destruct (Hcomp (run_after wit_compact _ _ _ wit_erased_done E)) as (recs & H1 & H2 & H3 & _).
  exists m', (fst (wit_compact (fst wit_purged))), recs. split; [exact H1|]. split; [exact H2|]. split; [exact H3|]. apply Hc. intros j. reflexivity.
Defined.

Lemma export_enumerates_witness :
  map mr_id (export_pages 3 all_grow (fun _ => wit_good) 110 wit_two (Some [97]) 0 1) = [1; 2] /\
  exists L, (forall r, r ∈ L <-> wit_map !! mr_id r = Some r /\ negb (record_expired r 110 || ns_denies (Some [97]) r) = true) /\
    forall n, (length L < n)%nat -> export_pages n all_grow (fun _ => wit_good) 110 wit_two (Some [97]) 0 1 = L.
Proof.
  split; [vm_compute; reflexivity|].
  destruct (export_enumerates all_grow (fun _ => wit_good) 110 wit_two wit_map (Some [97]) 1 wit_two_ok wit_two_phase wit_map_zero (fun _ => eq_refl) (fun _ => wit_qio_ok _) ltac:(lia))
    as (L & _ & H1 & H2). exists L. split; [exact H1|exact H2].
Defined.

Definition wit_scan : ScanIo := mkScanIo rok aok aok all_grow.

(** Two notes, related, the first edited and the second deleted. *)
Lemma wit_history : exists m, engine_ok history_view (fst (eng_run wit_engine wit_ops)) m.
Proof.
  destruct (eng_run_refines history_view wit_engine ∅ wit_ops (empty_engine_ok history_view history_init _ _ _ _ _ _ _ _ _ _ _) wit_run_ok) as (m & _ & Hok). by exists m.
Qed.

Lemma wit_ops_phase : require_phase (fst (eng_run wit_engine wit_ops)) 1 = AEGIS_OK.
Proof. vm_compute. reflexivity. Qed.

Example wit_versions :
  sum_map (map (fun r => (mr_updated r, mr_deleted r))) id (qe_history wit_scan (fst (eng_run wit_engine wit_ops)) 2 (Some [97])) = inl [(101, 0); (104, 1)] /\
  sum_map mr_updated id (qe_get_as_of wit_scan (fst (eng_run wit_engine wit_ops)) 2 (Some [97]) 103) = inl 101 /\
  sum_map mr_updated id (qe_get_as_of wit_scan (fst (eng_run wit_engine wit_ops)) 2 (Some [97]) 104) = inr AEGIS_ERR_NOT_FOUND.
Proof. vm_compute. split_and!; reflexivity. Qed.

Lemma time_travel_exact_witness :
  exists recs, logged (en_db (fst (eng_run wit_engine wit_ops))) recs /\
    forall t, qe_get_as_of wit_scan (fst (eng_run wit_engine wit_ops)) 2 None t =
      match version_at t (versions 2 recs) with
      | Some r => if is_deleted r || ns_denies None r then inr AEGIS_ERR_NOT_FOUND else inl r
      | None => inr AEGIS_ERR_NOT_FOUND
      end.
Proof.
  destruct wit_history as [m Hm]. destruct (time_travel_exact wit_scan _ m Hm wit_ops_phase ltac:(done)) as (recs & Hl & _ & Hr).
  exists recs. split; [exact Hl|]. intros t. exact (proj1 (proj2 (Hr 2 None) t)).
Defined.

(** With a clock that goes back between two writes the answer is not the version
    with the greatest stamp: the note of 100 is edited at 90, and a read as of
    150 answers the edit. *)
Example clock_back_as_of :
  let en := fst (eng_run wit_engine [OpInsert wit_good 100 wit_note None 0; OpUpdate wit_good 90 1 wit_patch (Some [97])]) in
  sum_map (map mr_updated) id (qe_history wit_scan en 1 (Some [97])) = inl [100; 90] /\
  sum_map mr_updated id (qe_get_as_of wit_scan en 1 (Some [97]) 150) = inl 90.
Proof. vm_compute. split; reflexivity. Qed.
