(* ===== verification/Text.v ===== *)
(** * Text

    String literals as the byte strings of the model, and the C string a
    buffer holds. *)

From Stdlib Require Strings.String Strings.Ascii.
From S2P Require Import Prelude.
Export String.StringSyntax.

Delimit Scope string_scope with string.
Bind Scope string_scope with String.string.

(** The bytes of a string literal. *)
Definition str (s : String.string) : list Z := map (fun c => Z.of_N (Ascii.N_of_ascii c)) (String.list_ascii_of_string s).
Arguments str s%_string.

(** A C string ends at its first zero byte. *)
Fixpoint c_string (bytes : list Z) : list Z :=
  match bytes with [] => [] | b :: bytes' => if b =? 0 then [] else b :: c_string bytes' end.

Lemma c_string_id s : Forall (fun b => b <> 0) s -> c_string s = s.
Proof.
  induction 1 as [|b s Hb _ IH]; [done|]. cbn [c_string]. apply Z.eqb_neq in Hb. by rewrite Hb, IH.
Qed.

Lemma c_string_free s : Forall (fun b => b <> 0) (c_string s).
Proof.
  induction s as [|b s IH]; cbn [c_string]; [constructor|]. destruct (b =? 0) eqn:E; [constructor|]. constructor; [lia|done].
Qed.

Example str_abc : str "abc" = [97; 98; 99].
Proof. reflexivity. Qed.
