(* ===== verification/InferStep.v ===== *)
(** * The inference job ([src/query/qe_infer.c])

    One step of the maintenance tick: the facts are loaded and grouped by
    namespace, contradictions are recorded for every group, and the groups are
    run through the reasoner from a rotating offset, under shared budgets; each
    conclusion becomes a record linked to its premises.  [io k] and [now k] are
    the outcomes and the clock of the [k]-th call of the step.  Log messages and
    the duration of the pass are not modelled. *)

From S2P Require Import Prelude Endian HashIndex SortedArray Record RecordCodec StrTable ProbeTable Intern TimeIndex TagIndex UsageIndex EdgeIndex FactIndex AeadCorrect Log Floats OpenTable BinaryHeap Hnsw SemanticIndex Tenant CkptCrypt Store WorkingBuffer Json Registry Inference Conflicts Lexical LexSearch Engine Text.

(** ** Loaded facts *)

(** [ns] of a loaded fact. *)
Definition lf_ns (r : MemoryRecord) : list Z := default [] (mr_agent_id r).

Definition cmp_by_ns (x y : MemoryRecord) : Z :=
  let c := strcmp (lf_ns x) (lf_ns y) in
  if negb (c =? 0) then c else (if mr_id y <? mr_id x then 1 else 0) - (if mr_id x <? mr_id y then 1 else 0).

(** ** Names *)

Definition CONCLUSION_NAME_MAX : nat := 160.
Definition NAME_CACHE_MAX : nat := 512.

Record NameCache := mkNameCache { nc_items : list (Z * list Z); nc_cap : nat }.

(** The walk back off continuation bytes. *)
Fixpoint walk_back (src : list Z) (n : nat) : nat :=
  match n with
  | O => O
  | S n' => if Z.land (nth n src 0) 0xC0 =? 0x80 then walk_back src n' else n
  end.

(** The bytes left in a buffer of [cap] bytes, without the terminator. *)
Definition copy_utf8_bounded (cap : nat) (src : list Z) : list Z :=
  if (cap =? 0)%nat then []
  else
    let n := if (length src <? cap - 1)%nat then length src else (cap - 1)%nat in
    take (if (n <? length src)%nat then walk_back src n else n) src.

(** ["#%llu"]. *)
Fixpoint decimal (fuel : nat) (n : Z) (acc : list Z) : list Z :=
  match fuel with
  | O => acc
  | S fuel' => if n <? 10 then (48 + n) :: acc else decimal fuel' (n / 10) ((48 + n mod 10) :: acc)
  end.
Definition hash_id (id : Z) : list Z := 35 :: decimal 20 id [].

Definition S_space : list Z := [32].
Definition S_quote : list Z := [34].
Definition S_derived : list Z := [32; 40; 100; 101; 114; 105; 118; 101; 100; 58; 32].
Definition S_close : list Z := [41].
Definition S_conflicts_with : list Z := [99; 111; 110; 102; 108; 105; 99; 116; 115; 95; 119; 105; 116; 104].
Definition rule_text (r : DerivRule) : list Z :=
  match r with
  | DERIV_TRANSITIVE => [116; 114; 97; 110; 115; 105; 116; 105; 118; 101]
  | DERIV_SYMMETRIC => [115; 121; 109; 109; 101; 116; 114; 105; 99]
  | DERIV_INVERSE => [105; 110; 118; 101; 114; 115; 101]
  | DERIV_NONE => [63]
  end.

(** Outcomes of the allocations of the cache, by its length. *)
Record NameOks := mkNameOks { no_grow : nat -> bool; no_dup : nat -> bool }.

(** What the configuration sets. *)
Record InferCfg := mkInferCfg { ifc_max_depth : Z; ifc_max_candidates : Z; ifc_confidence_floor : spec_float }.

(** The cursors, the published contradictions and the gauges of [AegisDB]. *)
Record InferState := mkInferState {
  ins_cursor : Z; ins_ns_cursor : Z; ins_conflicts : option ConflictSet; ins_conflicts_now : nat; ins_deferred : bool; ins_derived_total : Z
}.

(** Outcomes of the allocations of a step: the id array, the record array, the
    group array, the conflict set, the sort array and the reasoner of a group,
    the input array of a group, the names and the record of a conclusion. *)
Record StepIo := mkStepIo {
  st_ids : bool; st_loaded : bool; st_starts : bool; st_set : bool; st_sort : nat -> bool; st_input : nat -> bool; st_infer : nat -> InferAlloc;
  st_names : nat -> NameOks; st_record : nat -> Z -> bool
}.

Section step.
Context `{AeadScheme} `{VecKernel}.

(** The engine and the number of calls made. *)
Definition Calls : Type := Engine * nat.

(** Records that can be read and carry a fact. *)
Fixpoint load_facts_loop (io : nat -> QeIo) (now : nat -> Z) (c : Calls) (ids : list Z) (loaded : list MemoryRecord) : Calls * list MemoryRecord :=
  match ids with
  | [] => (c, loaded)
  | id :: ids' =>
      let c' := (fst c, S (snd c)) in
      match qe_get (io (snd c)) (now (snd c)) (fst c) id None with
      | inr _ => load_facts_loop io now c' ids' loaded
      | inl r => load_facts_loop io now c' ids' (if bool_decide (fa_kind (mr_fact r) = FACT_NONE) then loaded else loaded ++ [r])
      end
  end.

Definition load_facts (st : StepIo) (io : nat -> QeIo) (now : nat -> Z) (c : Calls) : Calls * option (list MemoryRecord) :=
  match fact_index_all_records (st_ids st) (ix_facts (en_ix (fst c))) with
  | None => (c, None)
  | Some [] => (c, Some [])
  | Some ids =>
      if negb (st_loaded st) then (c, None)
      else let '(c, loaded) := load_facts_loop io now c ids [] in (c, Some (vk_qsort cmp_by_ns loaded))
  end.

(** The prose of a record, [None] for NULL. *)
Definition entity_name (oks : NameOks) (io : nat -> QeIo) (now : nat -> Z) (nc : NameCache) (id : Z) (c : Calls) : Calls * NameCache * option (list Z) :=
  match list_find (fun p => fst p = id) (nc_items nc) with
  | Some (_, (_, text)) => (c, nc, Some text)
  | None =>
      let c' := (fst c, S (snd c)) in
      match qe_get (io (snd c)) (now (snd c)) (fst c) id None with
      | inr _ => (c', nc, None)
      | inl r =>
          if (length (mr_data r) =? 0)%nat then (c', nc, None)
          else
            let scratch := c_string (copy_utf8_bounded (CONCLUSION_NAME_MAX + 1) (mr_data r)) in
            let n := length (nc_items nc) in
            if (NAME_CACHE_MAX <=? n)%nat then (c', nc, Some scratch)
            else
              let full := (n =? nc_cap nc)%nat in
              if full && negb (no_grow oks n) then (c', nc, Some scratch)
              else
                let cap := if full then if (nc_cap nc =? 0)%nat then 16%nat else (nc_cap nc * 2)%nat else nc_cap nc in
                if negb (no_dup oks n) then (c', mkNameCache (nc_items nc) cap, Some scratch)
                else (c', mkNameCache (nc_items nc ++ [(id, scratch)]) cap, Some scratch)
      end
  end.

Definition name_or_id (oks : NameOks) (io : nat -> QeIo) (now : nat -> Z) (nc : NameCache) (id : Z) (c : Calls) : Calls * NameCache * list Z :=
  let '(c, nc, text) := entity_name oks io now nc id c in (c, nc, default (hash_id id) text).

(** The buffer has [cap] bytes. *)
Definition conclusion_text (oks : NameOks) (io : nat -> QeIo) (now : nat -> Z) (nc : NameCache) (cap : nat) (t : Triple) (rule : DerivRule) (c : Calls)
  : Calls * NameCache * list Z :=
  let tail := S_derived ++ rule_text rule ++ S_close in
  let '(c, nc, subj) := name_or_id oks io now nc (tr_subject t) c in
  let head := subj ++ S_space ++ tr_predicate t ++ S_space in
  match tr_kind t with
  | FACT_OBJ_ID => let '(c, nc, obj) := name_or_id oks io now nc (tr_oid t) c in (c, nc, take (cap - 1) (head ++ obj ++ tail))
  | _ => (c, nc, take (cap - 1) (head ++ S_quote ++ copy_utf8_bounded (CONCLUSION_NAME_MAX + 1) (default [] (tr_ostr t)) ++ S_quote ++ tail))
  end.

(** ** Conclusions *)

Fixpoint add_infer_routes (alloc : Z -> bool) (r : MemoryRecord) (routes : list InferRoute) : option MemoryRecord :=
  match routes with
  | [] => Some r
  | rt :: routes' =>
      let '(r, rc) := record_add_route alloc r (ir_rule rt) (ir_depth rt) (Some (ir_premises rt)) in
      if rc <? 0 then None else add_infer_routes alloc r routes'
  end.

Definition scope (ns : list Z) : option (list Z) := match ns with [] => None | _ => Some ns end.

(** The record handed to the insert. *)
Definition conclusion_record (alloc : Z -> bool) (c : InferConclusion) (ns text : list Z) : option MemoryRecord :=
  let t := ic_triple c in
  let r := mkMemoryRecord 0 MEM_SEMANTIC 0 0 F32_ZERO (f32_to_bits (ic_confidence c)) (scope ns) [] [] 0 0 [] fact_zero [] text 0 0 in
  let '(r, ok) := record_set_fact alloc r (tr_kind t) (tr_subject t) (Some (tr_predicate t)) (tr_oid t) (tr_ostr t) in
  if ok then add_infer_routes alloc r (ic_routes c) else None.

(** The edges to the premises; a premise gone queues the conclusion. *)
Fixpoint link_premises (io : nat -> QeIo) (now : nat -> Z) (id : Z) (premises : list Z) (ns : list Z) (c : Calls) : Calls :=
  match premises with
  | [] => c
  | p :: premises' =>
      let '(en, st) := qe_relate (io (snd c)) (now (snd c)) (fst c) id p (Some S_derived_from) (scope ns) in
      let en := match st with AEGIS_ERR_NOT_FOUND => db_retract_enqueue_id (qi_queue (io (snd c)) 0%nat) en id | _ => en end in
      link_premises io now id premises' ns (en, S (snd c))
  end.

(** The flag is the C result 0. *)
Definition write_conclusion (oks : NameOks) (alloc : Z -> bool) (io : nat -> QeIo) (now : nat -> Z) (nc : NameCache) (cn : InferConclusion) (ns : list Z) (c : Calls)
  : Calls * NameCache * bool :=
  let rule := match ic_routes cn with rt :: _ => ir_rule rt | [] => DERIV_NONE end in
  let '(c, nc, text) := conclusion_text oks io now nc 512 (ic_triple cn) rule c in
  match conclusion_record alloc cn ns text with
  | None => (c, nc, false)
  | Some r =>
      let '(en, res) := qe_insert (io (snd c)) (now (snd c)) (fst c) r None 0 in
      let c := (en, S (snd c)) in
      match res with
      | inr _ => (c, nc, false)
      | inl written => (link_premises io now (mr_id written) (concat (map ir_premises (ic_routes cn))) ns c, nc, true)
      end
  end.

Fixpoint write_conclusions (oks : NameOks) (alloc : nat -> Z -> bool) (io : nat -> QeIo) (now : nat -> Z) (nc : NameCache) (items : list InferConclusion) (ns : list Z) (c : Calls) (written : nat)
  : Calls * nat :=
  match items with
  | [] => (c, written)
  | cn :: items' =>
      let '(c, nc, ok) := write_conclusion oks (alloc (length items')) io now nc cn ns c in
      write_conclusions oks alloc io now nc items' ns c (if ok then S written else written)
  end.

(** ** Contradictions *)

Definition already_conflicting (r : MemoryRecord) (peer : Z) : bool :=
  existsb (fun rl => (rl_to rl =? peer) && bool_decide (rl_kind rl = Some S_conflicts_with)) (mr_relationships r).

Definition note_conflict (io : nat -> QeIo) (now : nat -> Z) (a b : MemoryRecord) (ns : list Z) (c : Calls) : Calls :=
  if already_conflicting a (mr_id b) && already_conflicting b (mr_id a) then c
  else
    let en := fst (qe_relate (io (snd c)) (now (snd c)) (fst c) (mr_id a) (mr_id b) (Some S_conflicts_with) (scope ns)) in
    let en := fst (qe_relate (io (S (snd c))) (now (S (snd c))) en (mr_id b) (mr_id a) (Some S_conflicts_with) (scope ns)) in
    (en, S (S (snd c))).

(** The records behind the pairs the scan asks to note. *)
Definition loaded_of (facts : list MemoryRecord) (x : CFact) : option MemoryRecord := snd <$> list_find (fun r => mr_id r = cf_id x) facts.
Definition note_pair (io : nat -> QeIo) (now : nat -> Z) (facts : list MemoryRecord) (ns : list Z) (c : Calls) (p : CFact * CFact) : Calls :=
  match loaded_of facts (fst p), loaded_of facts (snd p) with Some a, Some b => note_conflict io now a b ns c | _, _ => c end.

(** One group: the set, how many contradictions, and the edges. *)
Definition scan_group (ok : bool) (reg : PredicateRegistry) (io : nat -> QeIo) (now : nat -> Z) (facts : list MemoryRecord) (cs : option ConflictSet) (c : Calls)
  : Calls * option ConflictSet * nat :=
  let ns := match facts with r :: _ => lf_ns r | [] => [] end in
  let '(cs, found, notes) := find_conflicts reg ok (map (fun r => mkCFact (mr_id r) (mr_fact r)) facts) ns cs in
  (foldl (note_pair io now facts ns) c notes, cs, found).

Fixpoint scan_groups (st : StepIo) (reg : PredicateRegistry) (io : nat -> QeIo) (now : nat -> Z) (k : nat) (groups : list (list MemoryRecord)) (cs : option ConflictSet) (c : Calls) (found : nat)
  : Calls * option ConflictSet * nat :=
  match groups with
  | [] => (c, cs, found)
  | g :: groups' =>
      let '(c, cs, n) := scan_group (st_sort st k) reg io now g cs c in scan_groups st reg io now (S k) groups' cs c (found + n)
  end.

(** ** The pass over a group *)

Definition infer_fact (r : MemoryRecord) : InferFact :=
  let f := mr_fact r in
  mkInferFact (mr_id r) (fa_subject f) (default [] (fa_predicate f)) (fa_kind f) (fa_object_id f) (fa_object_str f) (derivation_depth (mr_derivation r)) (f32_of_bits (mr_confidence r)).

Definition pass_opts (cfg : InferCfg) (budget : nat) (cand_budget cursor : Z) : InferOpts :=
  mkInferOpts (wrap 16 (ifc_max_depth cfg)) budget cand_budget (Z.to_nat cursor) (ifc_confidence_floor cfg).

(** What a group leaves of the step: calls, cursor, candidate budget, whether a
    cap stopped it, and the conclusions written. *)
Definition run_namespace (st : StepIo) (k : nat) (cfg : InferCfg) (reg : PredicateRegistry) (io : nat -> QeIo) (now : nat -> Z) (facts : list MemoryRecord) (budget : nat) (cand_budget cursor : Z) (deferred : bool) (c : Calls)
  : Calls * Z * Z * bool * nat :=
  let ns := match facts with r :: _ => lf_ns r | [] => [] end in
  if negb (st_input st k) then (c, cursor, cand_budget, deferred, 0%nat)
  else
    match infer_run (st_infer st k) (map infer_fact facts) (Some reg) (Some (pass_opts cfg budget cand_budget cursor)) with
    | None => (c, cursor, cand_budget, deferred, 0%nat)
    | Some res =>
        let '(c, written) := write_conclusions (st_names st k) (st_record st) io now (mkNameCache [] 0) (ires_items res) ns c 0 in
        let left := cand_budget - (if ires_candidates res <? cand_budget then ires_candidates res else cand_budget) in
        if ires_truncated res then (c, wrap 64 (cursor + Z.of_nat (ires_scanned res)), left, true, written)
        else (c, cursor, left, deferred, written)
    end.

(** The groups in visiting order; [advanced] is how many were run. *)
Fixpoint derive_groups (st : StepIo) (cfg : InferCfg) (reg : PredicateRegistry) (io : nat -> QeIo) (now : nat -> Z) (k : nat) (groups : list (list MemoryRecord)) (budget : nat) (cand_budget cursor : Z) (deferred : bool)
  (c : Calls) (total : nat) : Calls * Z * bool * nat * nat :=
  match groups with
  | [] => (c, cursor, deferred, total, k)
  | g :: groups' =>
      if (budget =? 0)%nat || (cand_budget =? 0) then (c, cursor, true, total, k)
      else
        let '(c, cursor, cand_budget, deferred, got) := run_namespace st k cfg reg io now g budget cand_budget cursor deferred c in
        derive_groups st cfg reg io now (S k) groups' (budget - (if (got <? budget)%nat then got else budget)) cand_budget cursor deferred c (total + got)
  end.

(** Runs of equal namespaces. *)
Definition ns_groups (facts : list MemoryRecord) : list (list MemoryRecord) := group_runs (fun x y => strcmp (lf_ns x) (lf_ns y) =? 0) facts.

Definition rotate_groups {A} (g0 : nat) (groups : list A) : list A := drop g0 groups ++ take g0 groups.

(** What every path stores at the end. *)
Definition publish (s : InferState) (deferred : bool) (scanned : option (option ConflictSet * nat)) (total : nat) : InferState :=
  mkInferState (ins_cursor s) (ins_ns_cursor s) (match scanned with Some (cs, _) => cs | None => ins_conflicts s end)
    (match scanned with Some (_, n) => n | None => ins_conflicts_now s end) deferred (wrap 64 (ins_derived_total s + Z.of_nat total)).

Definition set_cursors (s : InferState) (cursor ns_cursor : Z) : InferState :=
  mkInferState cursor ns_cursor (ins_conflicts s) (ins_conflicts_now s) (ins_deferred s) (ins_derived_total s).

(** The step once facts were loaded. *)
Definition infer_over (cfg : InferCfg) (st : StepIo) (reg : PredicateRegistry) (io : nat -> QeIo) (now : nat -> Z) (max_derived : nat) (facts : list MemoryRecord) (c : Calls) (s : InferState)
  : Engine * InferState * nat :=
  let groups := ns_groups facts in
  let n := length groups in
  if negb (st_starts st) then (fst c, publish s false None 0, 0%nat)
  else
    let g0 := Z.to_nat (ins_ns_cursor s mod Z.of_nat n) in
    let order := rotate_groups g0 groups in
    let '(c, cs, found) := scan_groups st reg io now 0 order (conflict_set_create (st_set st)) c 0 in
    let '(c, cursor, deferred, total, advanced) := derive_groups st cfg reg io now 0 order max_derived (ifc_max_candidates cfg) (ins_cursor s) false c 0 in
    let ns_cursor := if deferred then Z.of_nat ((g0 + advanced) mod n) else ins_ns_cursor s in
    (fst c, publish (set_cursors s cursor ns_cursor) deferred (Some (cs, found)) total, total).

Definition db_inference_step (cfg : InferCfg) (st : StepIo) (io : nat -> QeIo) (now : nat -> Z) (en : Engine) (s : InferState) : Engine * InferState * nat :=
  match en_predicates en, ix_facts (en_ix en) with
  | Some reg, Some _ =>
      if negb (ec_inference (en_cfg en)) || ec_read_only (en_cfg en) then (en, s, 0%nat)
      else
        let '(c, loaded) := load_facts st io now (en, 0%nat) in
        match loaded with
        | None => (fst c, publish s false None 0, 0%nat)
        | Some [] => (fst c, publish s false (Some (None, 0%nat)) 0, 0%nat)
        | Some facts => infer_over cfg st reg io now (ec_max_derived (en_cfg en)) facts c s
        end
  | _, _ => (en, s, 0%nat)
  end.
End step.
