(* ===== verification/InferStepCorrect.v ===== *)
(** * What the inference job may do

    Whatever fails and wherever a budget stops it, a step of the job writes
    nothing but conclusions of the declared rules from facts of one namespace,
    into that namespace, links from a conclusion to its premises, and links
    between contradicting records of one namespace. *)

From S2P Require Import Prelude Endian HashIndex SortedArray Record RecordCodec RecordRoundtrip RecordDecode StrTable ProbeTable Intern TimeIndex TagIndex UsageIndex EdgeIndex FactIndex AeadCorrect Log LogCorrect Floats OpenTable BinaryHeap Hnsw SemanticIndex Tenant CkptCrypt Store StoreCorrect StoreView WorkingBuffer Json Registry Inference InferTables InferenceCorrect Conflicts Lexical LexSearch Engine EngineIndexes EngineCorrect EngineRefines InferStep.

(** ** Names end on a character boundary *)

Lemma walk_back_spec src n :
  (walk_back src n <= n)%nat /\ (walk_back src n <> 0%nat -> Z.land (nth (walk_back src n) src 0) 0xC0 <> 0x80).
Proof.
  induction n as [|n IH]; cbn [walk_back]; [done|]. destruct (Z.eqb_spec (Z.land (nth (S n) src 0) 0xC0) 0x80) as [E|E]; [|split; [lia|done]].
  destruct IH as [H1 H2]. split; [lia|done].
Qed.

(** A name cut short is a prefix that fits, and the byte after it begins a
    character. *)
Lemma copy_utf8_boundary cap src :
  (0 < cap)%nat -> exists n, copy_utf8_bounded cap src = take n src /\ (n <= length src)%nat /\ (length (copy_utf8_bounded cap src) < cap)%nat /\
    (n = length src \/ n = 0%nat \/ Z.land (nth n src 0) 0xC0 <> 0x80).
Proof.
  intros Hc. unfold copy_utf8_bounded. rewrite (proj2 (Nat.eqb_neq cap 0)) by lia. destruct (Nat.ltb_spec (length src) (cap - 1)) as [Hl|Hl].
  - rewrite (proj2 (Nat.ltb_ge _ _)) by lia. exists (length src). rewrite length_take. split_and!; [done|lia|lia|by left].
  - destruct (walk_back_spec src (cap - 1)) as [W1 W2]. destruct (Nat.ltb_spec (cap - 1) (length src)) as [Hl'|Hl'].
    + exists (walk_back src (cap - 1)). rewrite length_take. split_and!; [done|lia|lia|]. destruct (decide (walk_back src (cap - 1) = 0%nat)); [by right; left|right; right; auto].
    + exists (cap - 1)%nat. rewrite length_take. split_and!; [done|lia|lia|left; lia].
Qed.

(** ** The record of a conclusion *)

Definition route_of_infer (r : InferRoute) : DerivRoute := mkDerivRoute (ir_rule r) (ir_depth r) (ir_premises r).

Lemma infer_route_position_end rt routes k :
  Forall (fun x => ltb (route_key x) (route_key rt) = true) routes -> route_position rt routes k = inr (k + length routes)%nat.
Proof.
  intros Hf. revert k. induction Hf as [|x routes Hx _ IH]; intros k; cbn [route_position length]; [by rewrite Nat.add_0_r|].
  rewrite route_cmp_key. cbn in Hx. assert (key_cmp (route_key rt) (route_key x) <> 0) as Hne.
  { intros E. apply key_cmp_zero in E. rewrite E in Hx. rewrite (proj2 (key_cmp_zero _ _)) in Hx by done. done. }
  rewrite (proj2 (Z.eqb_neq _ _) Hne). destruct (key_cmp (route_key rt) (route_key x) <? 0) eqn:El; [|rewrite IH; f_equal; lia].
  exfalso. pose proof (ltb_trans (A := RouteKey) _ _ _ El Hx) as Hc. cbn in Hc. by rewrite (proj2 (key_cmp_zero _ _)) in Hc.
Qed.

(** Routes that arrive in order are kept in order. *)
Lemma add_infer_routes_spec alloc routes r r' :
  Forall InferenceCorrect.route_ok routes -> strictly_sorted (map route_key (mr_derivation r) ++ map ir_key routes) -> (length (mr_derivation r) + length routes <= DERIV_MAX_ROUTES)%nat ->
  add_infer_routes alloc r routes = Some r' -> r' = set_derivation r (mr_derivation r ++ map route_of_infer routes).
Proof.
  intros Hok. revert r. induction Hok as [|rt routes [Hr Hp] _ IH]; intros r Hs Hl E; cbn [add_infer_routes map length] in *.
  { injection E as <-. rewrite app_nil_r. by destruct r. }
  unfold record_add_route in E. rewrite (proj2 (Nat.eqb_neq _ _)), (proj2 (Nat.ltb_ge _ _)) in E by lia. cbn [orb] in E.
  fold (route_of_infer rt) in E. rewrite (infer_route_position_end (route_of_infer rt)) in E.
  2:{ apply Forall_forall. intros x Hx. eapply (StronglySorted_app_1_elem_of lt_rel); [exact Hs|by apply list_elem_of_fmap_2|by left]. }
  cbn [Nat.add] in E. rewrite (proj2 (Nat.leb_gt DERIV_MAX_ROUTES _)) in E by lia.
  assert (insert_at (length (mr_derivation r)) (route_of_infer rt) (mr_derivation r) = mr_derivation r ++ [route_of_infer rt]) as Ei.
  { unfold insert_at. by rewrite take_ge, drop_ge by done. }
  rewrite Ei in E. destruct ((length (mr_derivation r) =? 0)%nat && negb _).
  { by destruct (ir_rule rt). }
  assert (add_infer_routes alloc (set_derivation r (mr_derivation r ++ [route_of_infer rt])) routes = Some r') as E' by (by destruct (ir_rule rt)).
  apply IH in E'; cbn [mr_derivation set_derivation].
  - rewrite E'. cbn [set_derivation mr_derivation]. by rewrite <- app_assoc.
  - rewrite map_app, <- app_assoc. exact Hs.
  - rewrite length_app. cbn [length]. lia.
Qed.

(** A conclusion about one namespace: a semantic record of that namespace, whose
    routes are all applications of a declared rule to facts of the namespace
    that conclude its triple. *)
Record justified (reg : PredicateRegistry) (depth : Z) (floor : spec_float) (facts : list MemoryRecord) (r : MemoryRecord) : Prop := {
  ju_type : mr_type r = MEM_SEMANTIC;
  ju_edges : mr_relationships r = [];
  ju_routes : mr_derivation r <> [];
  ju_derives : exists ns, mr_agent_id r = scope ns /\
    forall rt, rt ∈ mr_derivation r -> exists s p o conf,
      mr_fact r = mkFact FACT_OBJ_ID s (Some p) o None /\
      derives (map infer_fact (filter (fun x => lf_ns x = ns) facts)) reg depth floor (s, p, inl o) (mkInferRoute (dr_rule rt) (dr_depth rt) (dr_premises rt) conf)
}.

(** A conclusion as the reasoner returns it. *)
Record concluded_ok (reg : PredicateRegistry) (depth : Z) (floor : spec_float) (group : list MemoryRecord) (c : InferConclusion) : Prop := {
  co_len : (0 < length (ic_routes c) <= DERIV_MAX_ROUTES)%nat;
  co_sorted : strictly_sorted (map ir_key (ic_routes c));
  co_derives : forall r, r ∈ ic_routes c -> derives (map infer_fact group) reg depth floor (ic_key c) r
}.

Lemma derives_mono F G reg d fl k r : (forall f, f ∈ F -> f ∈ G) -> derives F reg d fl k r -> derives G reg d fl k r.
Proof. intros Hs Hd. destruct Hd; econstructor; eauto. Qed.

Lemma derives_id F reg d fl k r : derives F reg d fl k r -> exists s p o, k = (s, p, inl o).
Proof. intros Hd. destruct Hd; eauto. Qed.

Lemma conclusion_justified alloc reg d fl facts group ns c text r :
  concluded_ok reg d fl group c -> (forall x, x ∈ group -> x ∈ facts /\ lf_ns x = ns) ->
  conclusion_record alloc c ns text = Some r -> justified reg d fl facts r /\ mr_agent_id r = scope ns /\ mr_derivation r = map route_of_infer (ic_routes c).
Proof.
  intros [Hlen Hs Hd] Hg E. assert (exists rt, rt ∈ ic_routes c) as [rt0 Hrt0] by (destruct (ic_routes c); [cbn in Hlen; lia|eexists; by left]).
  destruct (derives_id _ _ _ _ _ _ (Hd rt0 Hrt0)) as (s & p & o & Ek). unfold conclusion_record in E. set (r0 := mkMemoryRecord _ _ _ _ _ _ _ _ _ _ _ _ _ _ _ _ _) in E.
  unfold ic_key, triple_key in Ek. destruct (ic_triple c) as [s' p' k' o' os'] eqn:Et. cbn [tr_subject tr_predicate tr_kind tr_oid tr_ostr] in *.
  destruct k'; try done. injection Ek as -> -> ->. unfold record_set_fact in E. destruct p as [|b p]; [done|]. unfold dup_str in E.
  assert (exists r1, r1 = set_fact r0 (mkFact FACT_OBJ_ID s (Some (b :: p)) o None) /\ add_infer_routes alloc r1 (ic_routes c) = Some r) as (r1 & -> & E1).
  { destruct (alloc _); [eauto|done]. }
  apply add_infer_routes_spec in E1; [|apply Forall_forall; intros x Hx; exact (derives_route_ok _ _ _ _ _ _ (Hd x Hx))|exact Hs|cbn; lia].
  cbn [mr_derivation set_fact r0 app] in E1. assert (mr_derivation r = map route_of_infer (ic_routes c)) as Er by (by rewrite E1).
  split; [|by rewrite E1]. split; [by rewrite E1|by rewrite E1|rewrite Er; destruct (ic_routes c); [cbn in Hlen; lia|done]|]. exists ns. split; [by rewrite E1|]. intros rt Hrt.
  rewrite Er in Hrt. apply list_elem_of_fmap in Hrt as (x & -> & Hx). exists s, (b :: p), o, (ir_confidence x). split; [by rewrite E1|].
  pose proof (Hd x Hx) as Hdx. unfold ic_key, triple_key in Hdx. rewrite Et in Hdx. cbn in Hdx.
  eapply derives_mono; [|by destruct x]. intros f Hf. apply list_elem_of_fmap in Hf as (y & -> & Hy). apply list_elem_of_fmap_2, list_elem_of_filter. by destruct (Hg y Hy).
Qed.

(** ** What a step may write *)

Section writes.
Context `{AeadScheme} `{VecKernel}.

(** After a conclusion [r] was stored as [id]: an edge to one of its premises, or
    [id] on the retraction queue. *)
Inductive link_step (r : MemoryRecord) (id : Z) : Engine -> Engine -> Prop :=
  | link_edge io now en rt p : rt ∈ mr_derivation r -> p ∈ dr_premises rt ->
      link_step r id en (fst (qe_relate io now en id p (Some S_derived_from) (mr_agent_id r)))
  | link_queue ok en : link_step r id en (db_retract_enqueue_id ok en id).

(** The fact of a record as the scan for contradictions sees it. *)
Definition cfact (r : MemoryRecord) : CFact := mkCFact (mr_id r) (mr_fact r).

(** Two different records that cannot both hold: two values of a single-valued
    predicate, or two predicates declared exclusive, about one subject. *)
Definition contradictory (reg : PredicateRegistry) (a b : MemoryRecord) : Prop :=
  mr_id a <> mr_id b /\ exists why, contradicts reg (cfact a) (cfact b) why.

Inductive infer_write (reg : PredicateRegistry) (depth : Z) (floor : spec_float) (facts : list MemoryRecord) : Engine -> Engine -> Prop :=
  | iw_refused io now en r en' st : justified reg depth floor facts r -> qe_insert io now en r None 0 = (en', inr st) ->
      infer_write reg depth floor facts en en'
  | iw_conclusion io now en r en1 w en2 : justified reg depth floor facts r -> qe_insert io now en r None 0 = (en1, inl w) ->
      rtc (link_step r (mr_id w)) en1 en2 -> infer_write reg depth floor facts en en2
  | iw_conflict io now en a b : a ∈ facts -> b ∈ facts -> lf_ns a = lf_ns b -> contradictory reg a b ->
      infer_write reg depth floor facts en (fst (qe_relate io now en (mr_id a) (mr_id b) (Some S_conflicts_with) (scope (lf_ns a)))).

Lemma link_premises_steps r id io now premises ns c :
  mr_agent_id r = scope ns -> (forall p, p ∈ premises -> exists rt, rt ∈ mr_derivation r /\ p ∈ dr_premises rt) ->
  rtc (link_step r id) (fst c) (fst (link_premises io now id premises ns c)).
Proof.
  intros Ha. revert c. induction premises as [|p premises IH]; intros c Hp; cbn [link_premises]; [done|]. destruct (Hp p ltac:(by left)) as (rt & Hrt & Hin).
  pose proof (link_edge r id (io (snd c)) (now (snd c)) (fst c) rt p Hrt Hin) as Hl. rewrite Ha in Hl.
  destruct (qe_relate (io (snd c)) (now (snd c)) (fst c) id p (Some S_derived_from) (scope ns)) as [en st]. cbn [fst] in Hl.
  etrans; [|apply IH; intros q Hq; apply Hp; by right]. cbn [fst]. eapply rtc_l; [exact Hl|]. destruct st; try apply rtc_refl. apply rtc_once. constructor.
Qed.

Lemma name_or_id_engine oks io now nc id c : fst (fst (fst (name_or_id oks io now nc id c))) = fst c.
Proof. unfold name_or_id, entity_name. repeat (case_match; simplify_eq; try done). Qed.

Lemma conclusion_text_engine oks io now nc cap t rule c : fst (fst (fst (conclusion_text oks io now nc cap t rule c))) = fst c.
Proof.
  unfold conclusion_text. pose proof (name_or_id_engine oks io now nc (tr_subject t) c) as E1. destruct (name_or_id _ _ _ _ _ _) as [[c1 nc1] subj]. cbn [fst] in E1.
  destruct (tr_kind t); try done. pose proof (name_or_id_engine oks io now nc1 (tr_oid t) c1) as E2. destruct (name_or_id _ _ _ _ _ _) as [[c2 nc2] obj]. cbn [fst] in *. congruence.
Qed.

Lemma write_conclusion_steps reg d fl facts group oks alloc io now nc cn ns c :
  concluded_ok reg d fl group cn -> (forall x, x ∈ group -> x ∈ facts /\ lf_ns x = ns) ->
  rtc (infer_write reg d fl facts) (fst c) (fst (fst (fst (write_conclusion oks alloc io now nc cn ns c)))).
Proof.
  intros Hc Hg. unfold write_conclusion. set (rule := match ic_routes cn with rt :: _ => ir_rule rt | [] => DERIV_NONE end). pose proof (conclusion_text_engine oks io now nc 512 (ic_triple cn) rule c) as E1.
  destruct (conclusion_text _ _ _ _ _ _ _ _) as [[c1 nc1] text]. cbn [fst] in E1. rewrite <- E1. destruct (conclusion_record alloc cn ns text) as [r|] eqn:Er; [|apply rtc_refl].
  destruct (conclusion_justified alloc reg d fl facts group ns cn text r Hc Hg Er) as (Hj & Ha & Hd).
  destruct (qe_insert (io (snd c1)) (now (snd c1)) (fst c1) r None 0) as [en res] eqn:Ei. apply rtc_once. destruct res as [w|st]; [|by eapply iw_refused].
  eapply iw_conclusion; [done|exact Ei|]. apply (link_premises_steps r (mr_id w) io now _ ns (en, S (snd c1)) Ha). intros p Hp.
  apply list_elem_of_In, in_concat in Hp as (l & Hl & Hp). apply list_elem_of_In, list_elem_of_fmap in Hl as (rt & -> & Hrt). exists (route_of_infer rt).
  rewrite Hd. split; [by apply list_elem_of_fmap_2|by apply list_elem_of_In].
Qed.

Lemma write_conclusions_steps reg d fl facts group oks alloc io now nc items ns c n :
  (forall cn, cn ∈ items -> concluded_ok reg d fl group cn) -> (forall x, x ∈ group -> x ∈ facts /\ lf_ns x = ns) ->
  let '(c', n') := write_conclusions oks alloc io now nc items ns c n in rtc (infer_write reg d fl facts) (fst c) (fst c') /\ (n' <= n + length items)%nat.
Proof.
  intros Hi Hg. revert nc c n. induction items as [|cn items IH]; intros nc c n; cbn [write_conclusions length]; [split; [done|lia]|].
  pose proof (write_conclusion_steps reg d fl facts group oks (alloc (length items)) io now nc cn ns c (Hi cn ltac:(by left)) Hg) as H1.
  destruct (write_conclusion _ _ _ _ _ _ _ _) as [[c1 nc1] ok]. cbn [fst] in H1. specialize (IH ltac:(intros x Hx; apply Hi; by right) nc1 c1 (if ok then S n else n)).
  destruct (write_conclusions _ _ _ _ _ _ _ _ _) as [c2 n2]. destruct IH as [H2 H3]. split; [by etrans|]. destruct ok; lia.
Qed.

Lemma contradictory_sym reg a b : contradictory reg a b -> contradictory reg b a.
Proof.
  intros [Hne (why & Es & Hw)]. split; [done|]. exists why. split; [done|]. destruct why.
  - destruct Hw as (Ep & Hd & spec & Hs & Hv). split; [done|]. split; [by rewrite objects_differ_sym|]. exists spec. by rewrite <- Ep.
  - by rewrite exclusive_sym.
Qed.

(** What the scan asks to note are pairs it found. *)
Lemma find_conflicts_notes reg ok facts ns cs x y :
  (x, y) ∈ snd (find_conflicts reg ok facts ns cs) -> exists why, (x, y, why) ∈ scan_pairs reg facts.
Proof.
  unfold find_conflicts. destruct (negb ok); [by intros ?%elem_of_nil|]. generalize (scan_pairs reg facts) as ps. intros ps.
  assert (forall st, (x, y) ∈ snd (foldl (report ns) st ps) -> (x, y) ∈ snd st \/ exists why, (x, y, why) ∈ ps) as Hg.
  { induction ps as [|[[x0 y0] w0] ps IH]; intros st Hin; [by left|]. cbn [foldl] in Hin. apply IH in Hin as [Hin|(why & Hin)]; [|right; exists why; by right].
    destruct st as [[cs0 f0] n0]. unfold report in Hin. destruct (conflict_set_add _ _ _ _ _ _ _) as [cs1 rc]. destruct (rc =? 1); cbn [snd] in *; [by left|].
    apply elem_of_app in Hin as [Hin|Hin]; [by left|]. apply list_elem_of_singleton in Hin as [= -> ->]. right. exists w0. by left. }
  intros Hin. destruct (Hg _ Hin) as [Hn|Hn]; [by apply elem_of_nil in Hn|done].
Qed.

(** The record a fact of the group came from is the one found under its id. *)
Lemma loaded_of_fact group x a :
  NoDup (map mr_id group) -> x ∈ map cfact group -> loaded_of group x = Some a -> a ∈ group /\ cfact a = x.
Proof.
  intros Hn Hx E. unfold loaded_of in E. destruct (list_find _ group) as [[i b]|] eqn:El; [|done]. injection E as ->.
  apply list_find_Some in El as (Hi & Hid & _). split; [by eapply list_elem_of_lookup_2|].
  apply list_elem_of_fmap in Hx as (r & -> & Hr). apply list_elem_of_lookup in Hr as [j Hj]. cbn [cfact cf_id] in Hid.
  assert (i = j) as ->; [|by assert (a = r) as -> by congruence].
  eapply (NoDup_lookup (map mr_id group)); [done|by apply list_lookup_fmap_Some; eauto|]. apply list_lookup_fmap_Some. eauto.
Qed.

Lemma note_pair_steps reg d fl facts group io now ns c x y why :
  (forall x, x ∈ group -> x ∈ facts /\ lf_ns x = ns) -> NoDup (map mr_id group) -> (x, y, why) ∈ scan_pairs reg (map cfact group) ->
  rtc (infer_write reg d fl facts) (fst c) (fst (note_pair io now group ns c (x, y))).
Proof.
  intros Hg Hn Hp. assert (NoDup (map cf_id (map cfact group))) as Hids by (rewrite map_map; exact Hn).
  destruct (scan_pairs_sound reg (map cfact group) Hids x y why Hp) as (Hx & Hy & _ & _ & Hne & Hc).
  unfold note_pair. cbn [fst snd]. destruct (loaded_of group x) as [a|] eqn:Ea; [|done]. destruct (loaded_of group y) as [b|] eqn:Eb; [|done].
  destruct (loaded_of_fact group x a Hn Hx Ea) as [Ha <-]. destruct (loaded_of_fact group y b Hn Hy Eb) as [Hb <-].
  destruct (Hg a Ha) as [Ha' Ena]. destruct (Hg b Hb) as [Hb' Enb]. assert (contradictory reg a b) as Hab by (split; [exact Hne|by exists why]).
  unfold note_conflict. destruct (_ && _); [done|]. cbn [fst].
  subst ns. eapply rtc_l; [by apply (iw_conflict reg d fl facts (io (snd c)) (now (snd c)) (fst c) a b)|]. apply rtc_once.
  pose proof (fun en => iw_conflict reg d fl facts (io (S (snd c))) (now (S (snd c))) en b a Hb' Ha' Enb (contradictory_sym _ _ _ Hab)) as Hw.
  rewrite Enb in Hw. apply Hw.
Qed.

(** A group of the step: records of one namespace, each once. *)
Record one_namespace (facts group : list MemoryRecord) : Prop := {
  on_some : group <> [];
  on_same : forall x y, x ∈ group -> y ∈ group -> x ∈ facts /\ lf_ns x = lf_ns y;
  on_once : NoDup (map mr_id group)
}.

Lemma scan_group_steps ok reg d fl facts group io now cs c :
  one_namespace facts group -> rtc (infer_write reg d fl facts) (fst c) (fst (fst (fst (scan_group ok reg io now group cs c)))).
Proof.
  intros [Hne Hg Hn]. unfold scan_group. change (map (fun r => mkCFact (mr_id r) (mr_fact r)) group) with (map cfact group).
  set (ns := match group with r :: _ => lf_ns r | [] => [] end).
  assert (forall x, x ∈ group -> x ∈ facts /\ lf_ns x = ns) as Hns.
  { intros x Hx. subst ns. destruct group as [|r group]; [by apply not_elem_of_nil in Hx|]. apply Hg; [done|by left]. }
  pose proof (find_conflicts_notes reg ok (map cfact group) ns cs) as Hnotes.
  destruct (find_conflicts _ _ _ _ _) as [[cs' found] notes]. cbn [fst snd] in *. revert c.
  induction notes as [|[x y] notes IH]; intros c; cbn [foldl]; [done|].
  etrans; [|apply IH; intros a b Hab; apply Hnotes; by right]. destruct (Hnotes x y ltac:(by left)) as (why & Hp). by eapply note_pair_steps.
Qed.

Lemma scan_groups_steps st reg d fl facts io now k groups cs c found :
  Forall (one_namespace facts) groups -> rtc (infer_write reg d fl facts) (fst c) (fst (fst (fst (scan_groups st reg io now k groups cs c found)))).
Proof.
  intros Hg. revert k cs c found. induction Hg as [|g groups Hg _ IH]; intros k cs c found; cbn [scan_groups]; [done|].
  pose proof (scan_group_steps (st_sort st k) reg d fl facts g io now cs c Hg) as H1. destruct (scan_group _ _ _ _ _ _ _) as [[c1 cs1] n]. cbn [fst] in H1. etrans; [exact H1|]. apply IH.
Qed.

(** The limits a configuration sets. *)
Definition cfg_depth (cfg : InferCfg) : Z := run_depth (Some (pass_opts cfg 0 0 0)).
Definition cfg_floor (cfg : InferCfg) : spec_float := run_floor (Some (pass_opts cfg 0 0 0)).

Definition loaded_ok (r : MemoryRecord) : Prop := record_wf r /\ fa_kind (mr_fact r) <> FACT_NONE.

Lemma loaded_infer_ok r : loaded_ok r -> InferenceCorrect.fact_ok (infer_fact r) /\ 0 <= if_depth (infer_fact r).
Proof.
  intros [W Hk]. split.
  - pose proof (rw_fact r W) as Hf. unfold InferenceCorrect.fact_ok, triple_ok. cbn. unfold RecordRoundtrip.fact_ok in Hf. intros Hn.
    destruct (fa_kind (mr_fact r)); try done. destruct Hf as (_ & _ & _ & o & -> & _). done.
  - destruct (rw_routes r W) as (Hr & _ & _). cbn. unfold derivation_depth. destruct Hr as [|rt l (_ & Hd & _) Hl]; [lia|]. unfold urange in Hd.
    assert (forall best, 0 <= best -> 0 <= foldl (fun best rt => if dr_depth rt <? best then dr_depth rt else best) best l) as Hf; [|apply Hf; lia].
    clear -Hl. induction Hl as [|x l (_ & Hx & _) _ IH]; intros best Hb; cbn [foldl]; [done|]. apply IH. unfold urange in Hx. destruct (_ <? _); lia.
Qed.

(** What the reasoner returns over a group. *)
Lemma infer_run_group al group reg opts res :
  Forall loaded_ok group -> group <> [] -> opts_ok (Some opts) -> strictly_sorted (names reg) ->
  infer_run al (map infer_fact group) (Some reg) (Some opts) = Some res ->
  (forall cn, cn ∈ ires_items res -> concluded_ok reg (run_depth (Some opts)) (run_floor (Some opts)) group cn) /\
  (io_max_conclusions opts <> 0%nat -> (length (ires_items res) <= io_max_conclusions opts)%nat).
Proof.
  intros Hl Hne Ho Hreg E. assert (Forall InferenceCorrect.fact_ok (map infer_fact group) /\ Forall (fun f => 0 <= if_depth f) (map infer_fact group)) as [Hok Hd].
  { split; apply Forall_map; eapply Forall_impl; try exact Hl; intros r Hr; by destruct (loaded_infer_ok r Hr). }
  pose proof (infer_run_pass al (map infer_fact group) reg (Some opts) Hok ltac:(by destruct group) Ho) as Hp. rewrite E in Hp.
  destruct Hp as (done & rest & [Hsp Hit _ _ _ Hconc _ _]). split; [|intros Hz; destruct Hconc as [Hc|Hc]; [done|exact Hc]].
  assert (forall c, c ∈ done -> c ∈ all_cands (map infer_fact group) reg (run_start (map infer_fact group) (Some opts))) as Hsub by (rewrite Hsp; set_solver).
  intros cn Hcn. rewrite Hit in Hcn. apply result_elem in Hcn as (k & Hk & ->).
  destruct (conclusion_spec _ reg _ (run_floor (Some opts)) Hreg Hd (run_depth_ok _ Ho) _ done k Hsub Hk) as (Ek & _ & Hlen & Hs & Hder & _).
  split; [done|done|]. intros r Hr. rewrite Ek. by apply Hder.
Qed.

Lemma run_namespace_steps st k cfg reg io now facts group budget cb cursor deferred c :
  Forall loaded_ok group -> one_namespace facts group -> strictly_sorted (names reg) -> 0 <= cb -> (0 < budget)%nat ->
  let '(c', cursor', cb', deferred', got) := run_namespace st k cfg reg io now group budget cb cursor deferred c in
  rtc (infer_write reg (cfg_depth cfg) (cfg_floor cfg) facts) (fst c) (fst c') /\ (got <= budget)%nat /\ 0 <= cb'.
Proof.
  intros Hl [Hne Hg] Hreg Hcb Hb. unfold run_namespace. destruct (negb (st_input st k)); [split_and!; [done|lia|done]|].
  destruct (infer_run _ _ _ _) as [res|] eqn:E; [|split_and!; [done|lia|done]].
  assert (opts_ok (Some (pass_opts cfg budget cb cursor))) as Ho.
  { split; [done|]. cbn. unfold wrap, UINT16_MAX. pose proof (Z.mod_pos_bound (ifc_max_depth cfg) (2 ^ 16)). lia. }
  destruct (infer_run_group _ _ _ _ _ Hl Hne Ho Hreg E) as [Hc Hn].
  specialize (Hn ltac:(cbn; lia)). cbn [io_max_conclusions pass_opts] in Hn. set (ns := match group with r :: _ => lf_ns r | [] => [] end).
  assert (forall x, x ∈ group -> x ∈ facts /\ lf_ns x = ns) as Hns by (intros x Hx; subst ns; destruct group as [|r group]; [done|]; apply Hg; [done|by left]).
  pose proof (write_conclusions_steps reg (cfg_depth cfg) (cfg_floor cfg) facts group (st_names st k) (st_record st) io now (mkNameCache [] 0) (ires_items res) ns c 0 Hc Hns) as Hw.
  destruct (write_conclusions _ _ _ _ _ _ _ _ _) as [c1 written]. destruct Hw as [H1 H2]. cbn [Nat.add] in H2.
  assert (0 <= cb - (if ires_candidates res <? cb then ires_candidates res else cb)) by (destruct (Z.ltb_spec (ires_candidates res) cb); lia).
  destruct (ires_truncated res); split_and!; try done; lia.
Qed.

Lemma derive_groups_steps st cfg reg io now facts k groups budget cb cursor deferred c total :
  Forall (Forall loaded_ok) groups -> Forall (one_namespace facts) groups -> strictly_sorted (names reg) -> 0 <= cb ->
  let '(c', cursor', deferred', total', advanced) := derive_groups st cfg reg io now k groups budget cb cursor deferred c total in
  rtc (infer_write reg (cfg_depth cfg) (cfg_floor cfg) facts) (fst c) (fst c') /\ (total' <= total + budget)%nat /\ (advanced <= k + length groups)%nat.
Proof.
  intros Hl Hg Hreg. revert k budget cb cursor deferred c total. induction Hg as [|g groups Hg _ IH]; intros k budget cb cursor deferred c total Hcb; cbn [derive_groups length].
  { split_and!; [done|lia|lia]. }
  destruct ((budget =? 0)%nat || (cb =? 0)) eqn:Eb; [split_and!; [done|lia|lia]|]. apply orb_false_iff in Eb as [Eb _]. apply Nat.eqb_neq in Eb.
  apply Forall_cons in Hl as [Hlg Hl]. pose proof (run_namespace_steps st k cfg reg io now facts g budget cb cursor deferred c Hlg Hg Hreg Hcb ltac:(lia)) as H1.
  destruct (run_namespace _ _ _ _ _ _ _ _ _ _ _ _) as [[[[c1 cursor1] cb1] deferred1] got]. destruct H1 as (S1 & Hgot & Hcb1).
  specialize (IH Hl (S k) (budget - (if (got <? budget)%nat then got else budget))%nat cb1 cursor1 deferred1 c1 (total + got)%nat Hcb1).
  destruct (derive_groups _ _ _ _ _ _ _ _ _ _ _ _ _) as [[[[c2 cursor2] deferred2] total2] adv]. destruct IH as (S2 & Ht & Ha). split_and!; [by etrans| |lia].
  destruct (Nat.ltb_spec got budget); lia.
Qed.

(** ** Loading and grouping *)

(** The ids the index lists are different ones. *)
Lemma all_records_once ok (fo : option FactIndex) m l :
  describes fo m -> fact_index_all_records ok fo = Some l -> NoDup l.
Proof.
  intros Hd E. destruct fo as [f|]; [|injection E as <-; constructor].
  destruct ok; [|cbn [fact_index_all_records] in E; destruct (_ =? _)%nat; [injection E as <-; constructor|done]].
  destruct (all_records_exact f _ Hd) as (l' & E' & Hs & _). assert (l' = l) as -> by congruence. by apply sorted_nodup.
Qed.

(** The records found so far, and the ids still to read, are different. *)
Lemma load_facts_loop_spec io now en m ids k acc :
  engine_ok store_view en m -> (forall k, io_ok (io k)) -> Forall (fun r => loaded_ok r /\ m !! mr_id r = Some r) acc -> NoDup (map mr_id acc ++ ids) ->
  let '(c, l) := load_facts_loop io now (en, k) ids acc in
  fst c = en /\ Forall (fun r => loaded_ok r /\ m !! mr_id r = Some r) l /\ NoDup (map mr_id l).
Proof.
  intros Hok Hio. revert k acc. induction ids as [|id ids IH]; intros k' acc Hl Hn; cbn [load_facts_loop fst snd]; [by rewrite app_nil_r in Hn|].
  assert (NoDup (map mr_id acc ++ ids)) as Hn'.
  { apply NoDup_app in Hn as (H1 & H2 & H3). apply NoDup_cons in H3 as [_ H3]. apply NoDup_app. split_and!; try done. intros x Hx Hin. apply (H2 x Hx). by right. }
  rewrite (qe_get_live store_view (io k') (now k') en m id None Hok (Hio k')).
  destruct (m !! id) as [r|] eqn:Hr; [|by apply IH]. destruct (_ || _); [by apply IH|].
  destruct (live_record store_view _ _ _ _ Hok Hr) as ((W & _) & Hid & _).
  destruct (bool_decide_reflect (fa_kind (mr_fact r) = FACT_NONE)); [by apply IH|]. apply IH.
  - apply Forall_app. split; [done|]. apply Forall_singleton. split; [by split|congruence].
  - rewrite map_app, <- app_assoc. cbn [map app]. by rewrite Hid.
Qed.

Lemma load_facts_spec st io now en m k c' loaded :
  engine_ok store_view en m -> (forall k, io_ok (io k)) -> load_facts st io now (en, k) = (c', loaded) ->
  fst c' = en /\ Forall (fun r => loaded_ok r /\ m !! mr_id r = Some r) (default [] loaded) /\ NoDup (map mr_id (default [] loaded)).
Proof.
  intros Hok Hio. unfold load_facts. cbn [fst].
  pose proof (all_records_once (st_ids st) (ix_facts (en_ix en)) m) as Ho. destruct (eo_ix _ _ _ Hok) as [_ _ _ _ Hfx _ _].
  assert (forall c, (en, k) = c -> fst c = en /\ Forall (fun r => loaded_ok r /\ m !! mr_id r = Some r) [] /\ NoDup (map mr_id [])) as Hnone
    by (intros c <-; split; [done|split; constructor]).
  destruct (fact_index_all_records _ _) as [[|id ids]|]; [intros [= <- <-]; by apply Hnone| |intros [= <- <-]; by apply Hnone].
  destruct (negb _); [intros [= <- <-]; by apply Hnone|].
  pose proof (load_facts_loop_spec io now en m (id :: ids) k [] Hok Hio ltac:(constructor) (Ho _ Hfx eq_refl)) as Hloop.
  destruct (load_facts_loop _ _ _ _ _) as [c l]. intros [= <- <-]. destruct Hloop as (-> & Hl & Hn).
  split; [done|]. cbn [default]. split; [by rewrite vk_qsort_perm|].
  eapply (NoDup_Permutation_proper _ _ (fmap_Permutation mr_id _ _ (vk_qsort_perm _ cmp_by_ns l))). exact Hn.
Qed.

(** Groups of a list without repetition. *)
Lemma group_runs_once {A} (f : A -> Z) (same : A -> A -> bool) (l : list A) :
  NoDup (map f l) -> Forall (fun g => NoDup (map f g)) (group_runs same l).
Proof.
  rewrite <- (group_runs_concat same l) at 1. induction (group_runs same l) as [|g gs IH]; cbn [concat]; [constructor|].
  rewrite map_app, NoDup_app. intros (H1 & _ & H3). constructor; [done|by apply IH].
Qed.

Lemma group_runs_same {A K} (key : A -> K) (same : A -> A -> bool) (l : list A) :
  (forall x y, same x y = true -> key x = key y) ->
  Forall (fun g => g <> [] /\ (forall x y, x ∈ g -> y ∈ g -> key x = key y) /\ forall x, x ∈ g -> x ∈ l) (group_runs same l).
Proof.
  intros Hs. induction l as [|x l IH]; cbn [group_runs]; [constructor|].
  assert (forall gs, Forall (fun g => g <> [] /\ (forall x y, x ∈ g -> y ∈ g -> key x = key y) /\ forall x, x ∈ g -> x ∈ l) gs ->
    Forall (fun g => g <> [] /\ (forall x y, x ∈ g -> y ∈ g -> key x = key y) /\ forall y, y ∈ g -> y ∈ x :: l) gs) as Hw.
  { intros gs Hgs. eapply Forall_impl; [exact Hgs|]. intros g (H1 & H2 & H3). split_and!; [done|done|]. intros y Hy. right. by apply H3. }
  assert ([x] <> [] /\ (forall a b, a ∈ [x] -> b ∈ [x] -> key a = key b) /\ forall y, y ∈ [x] -> y ∈ x :: l) as Hsingle.
  { split_and!; [done| |]; intros; repeat match goal with Hx : _ ∈ [x] |- _ => apply list_elem_of_singleton in Hx as -> end; [done|by left]. }
  destruct (group_runs same l) as [|[|y r] gs]; [constructor; [exact Hsingle|constructor]|constructor; [exact Hsingle|by apply Hw]|].
  destruct (same x y) eqn:E; [|constructor; [done|by apply Hw]]. apply Forall_cons in IH as [(_ & Hg & Hin) IH]. constructor; [|by apply Hw]. apply Hs in E.
  assert (forall a, a ∈ x :: y :: r -> key a = key y) as Hk by (intros a Ha; apply elem_of_cons in Ha as [->|Ha]; [done|apply Hg; [done|by left]]).
  split_and!; [done|intros a b Ha Hb; by rewrite (Hk a Ha), (Hk b Hb)|]. intros a Ha. apply elem_of_cons in Ha as [->|Ha]; [by left|right; by apply Hin].
Qed.

Lemma ns_groups_spec facts g0 : NoDup (map mr_id facts) -> Forall (one_namespace facts) (rotate_groups g0 (ns_groups facts)).
Proof.
  intros Hn. assert (Forall (one_namespace facts) (ns_groups facts)) as Hf.
  { unfold ns_groups. eapply Forall_impl; [apply Forall_and; split; [apply (group_runs_same lf_ns)|by apply (group_runs_once mr_id)]|].
    - intros x y E. by apply strcmp_refl_eq in E.
    - intros g [(H1 & H2 & H3) H4]. split; [done| |done]. intros x y Hx Hy. split; [by apply H3|by apply H2]. }
  unfold rotate_groups. apply Forall_app. split; [by apply Forall_drop|by apply Forall_take].
Qed.
Lemma infer_over_steps cfg st reg io now max_derived facts c s :
  Forall loaded_ok facts -> NoDup (map mr_id facts) -> facts <> [] -> strictly_sorted (names reg) -> 0 <= ifc_max_candidates cfg ->
  let '(en', s', total) := infer_over cfg st reg io now max_derived facts c s in
  (total <= max_derived)%nat /\ rtc (infer_write reg (cfg_depth cfg) (cfg_floor cfg) facts) (fst c) en' /\
  (ins_deferred s' = true -> 0 <= ins_ns_cursor s' < Z.of_nat (length (ns_groups facts))).
Proof.
  intros Hl Hnd Hne Hs Hcand. unfold infer_over. destruct (negb (st_starts st)); [split_and!; [lia|done|done]|].
  assert (ns_groups facts <> []) as Hgr.
  { intros E. pose proof (group_runs_concat (fun x y => strcmp (lf_ns x) (lf_ns y) =? 0) facts) as Hc. fold (ns_groups facts) in Hc. rewrite E in Hc. by subst. }
  set (order := rotate_groups _ _). pose proof (ns_groups_spec facts (Z.to_nat (ins_ns_cursor s mod Z.of_nat (length (ns_groups facts))))) as Hg. fold order in Hg. specialize (Hg Hnd).
  pose proof (scan_groups_steps st reg (cfg_depth cfg) (cfg_floor cfg) facts io now 0 order (conflict_set_create (st_set st)) c 0 Hg) as S1.
  destruct (scan_groups _ _ _ _ _ _ _ _ _) as [[c1 cs] found]. cbn [fst] in S1.
  assert (Forall (Forall loaded_ok) order) as Hlo.
  { eapply Forall_impl; [exact Hg|]. intros g [_ Hin _]. rewrite Forall_forall in Hl. apply Forall_forall. intros x Hx. apply Hl. by apply (Hin x x). }
  pose proof (derive_groups_steps st cfg reg io now facts 0 order max_derived (ifc_max_candidates cfg) (ins_cursor s) false c1 0 Hlo Hg Hs Hcand) as S2.
  destruct (derive_groups _ _ _ _ _ _ _ _ _ _ _ _ _) as [[[[c2 cursor] deferred] total] advanced]. destruct S2 as (S2 & Ht & _). split_and!; [lia|by etrans|].
  cbn [publish ins_deferred ins_ns_cursor set_cursors]. intros ->. assert (length (ns_groups facts) <> 0%nat) by (by destruct (ns_groups facts)).
  pose proof (Nat.mod_upper_bound (Z.to_nat (ins_ns_cursor s mod Z.of_nat (length (ns_groups facts))) + advanced) (length (ns_groups facts))). lia.
Qed.
End writes.



(** ** A symmetric predicate *)

#[local] Existing Instance ieee_kernel.

Definition wit_reg : PredicateRegistry := mkRegistry [mkPredSpec [112] PRED_OBJ_ID false true false None []].
Definition wit_thinker : Engine := empty_engine wit_ec (Some wit_reg) (mkConfig None 0 true 10 100000) 0 (mkTenants [] 0) true true true true (mkStore [] 4 1000) 0.
Definition wit_fact : list EngOp := [OpInsert wit_good 100 wit_note None 0].
#[local] Notation wit_known := (fst (eng_run wit_thinker wit_fact)).

Lemma wit_fact_ok : run_ok wit_thinker wit_fact.
Proof.
  pose proof (wit_qio_ok (fun _ => None)) as Hio. unfold wit_fact. cbn [run_ok op_ok]. split; [|exact I]. split; [exact Hio|]. split; [by apply wit_insertable|]. split; by vm_compute.
Qed.

Definition wit_step : StepIo :=
  mkStepIo true true true true (fun _ => true) (fun _ => true) (fun _ => mkInferAlloc (fun _ => true) (fun _ => true) (fun _ => true) (fun _ => true))
    (fun _ => mkNameOks (fun _ => true) (fun _ => true)) (fun _ _ => true).
Definition wit_infer_cfg : InferCfg := mkInferCfg 4 1000 (f32_of_bits 0x3DCCCCCD).
Definition wit_infer_state : InferState := mkInferState 0 0 None 0 false 0.

(** The note says 7 p 9; the step concludes 9 p 7 and stores it as record 2. *)
Lemma wit_inferred :
  let '(en', s', total) := db_inference_step wit_infer_cfg wit_step (fun _ => wit_good) (fun _ => 200) wit_known wit_infer_state in
  total = 1%nat /\
  match load_record rok aok aok (en_db en') 2 with
  | inl r => (mr_fact r, map dr_premises (mr_derivation r), mr_relationships r) = (mkFact FACT_OBJ_ID 9 (Some [112]) 7 None, [[1]], [mkRelationship 2 1 (Some S_derived_from)])
  | inr _ => False
  end.
Proof. vm_compute. split; reflexivity. Qed.

Lemma wit_known_preds : en_predicates wit_known = Some wit_reg.
Proof. vm_compute. reflexivity. Qed.

