(* ===== verification/Sha256.v ===== *)
(** * SHA-256

    The hash of credentials and keys ([src/util/sha256.c]) as the code computes
    it, one shot over a byte string, and the function of FIPS 180-4 it stands
    for: the padded message cut into blocks, the schedule by its recurrence,
    the constants from the roots of the primes. *)

From S2P Require Import Prelude Endian.

(** ** The code *)

Definition rotr (x n : Z) : Z := Z.lor (Z.shiftr x n) (wrap 32 (Z.shiftl x (32 - n))).

(** The words of the table of the source, in decimal. *)
Definition K : list Z :=
  [1116352408; 1899447441; 3049323471; 3921009573; 961987163; 1508970993;
   2453635748; 2870763221; 3624381080; 310598401; 607225278; 1426881987;
   1925078388; 2162078206; 2614888103; 3248222580; 3835390401; 4022224774;
   264347078; 604807628; 770255983; 1249150122; 1555081692; 1996064986;
   2554220882; 2821834349; 2952996808; 3210313671; 3336571891; 3584528711;
   113926993; 338241895; 666307205; 773529912; 1294757372; 1396182291;
   1695183700; 1986661051; 2177026350; 2456956037; 2730485921; 2820302411;
   3259730800; 3345764771; 3516065817; 3600352804; 4094571909; 275423344;
   430227734; 506948616; 659060556; 883997877; 958139571; 1322822218;
   1537002063; 1747873779; 1955562222; 2024104815; 2227730452; 2361852424;
   2428436474; 2756734187; 3204031479; 3329325298].

Definition word (w : list Z) (i : nat) : Z := default 0 (w !! i).

(** The [i]-th big-endian word of a block. *)
Definition load_word (p : list Z) (i : nat) : Z :=
  Z.lor (Z.lor (Z.lor (Z.shiftl (byte_at p (i * 4)) 24) (Z.shiftl (byte_at p (i * 4 + 1)) 16)) (Z.shiftl (byte_at p (i * 4 + 2)) 8))
    (byte_at p (i * 4 + 3)).

(** One turn of the second loop: [w[i]] from the words before it. *)
Definition extend (w : list Z) (i : nat) : list Z :=
  let w15 := word w (i - 15) in
  let s0 := Z.lxor (Z.lxor (rotr w15 7) (rotr w15 18)) (Z.shiftr w15 3) in
  let w2 := word w (i - 2) in
  let s1 := Z.lxor (Z.lxor (rotr w2 17) (rotr w2 19)) (Z.shiftr w2 10) in
  w ++ [wrap 32 (word w (i - 16) + s0 + word w (i - 7) + s1)].

Definition schedule (p : list Z) : list Z := foldl extend (map (load_word p) (seq 0 16)) (seq 16 48).

(** The working variables. *)
Inductive Regs := mkRegs (a b c d e f g h : Z).

Definition sha_round (r : Regs) (kw : Z * Z) : Regs :=
  let '(mkRegs a b c d e f g h) := r in
  let S1 := Z.lxor (Z.lxor (rotr e 6) (rotr e 11)) (rotr e 25) in
  let ch := Z.lxor (Z.land e f) (Z.land (Z.lxor UINT32_MAX e) g) in
  let t1 := wrap 32 (h + S1 + ch + kw.1 + kw.2) in
  let S0 := Z.lxor (Z.lxor (rotr a 2) (rotr a 13)) (rotr a 22) in
  let maj := Z.lxor (Z.lxor (Z.land a b) (Z.land a c)) (Z.land b c) in
  let t2 := wrap 32 (S0 + maj) in
  mkRegs (wrap 32 (t1 + t2)) a b c (wrap 32 (d + t1)) e f g.

Definition add_regs (s r : Regs) : Regs :=
  let '(mkRegs s0 s1 s2 s3 s4 s5 s6 s7) := s in
  let '(mkRegs a b c d e f g h) := r in
  mkRegs (wrap 32 (s0 + a)) (wrap 32 (s1 + b)) (wrap 32 (s2 + c)) (wrap 32 (s3 + d))
    (wrap 32 (s4 + e)) (wrap 32 (s5 + f)) (wrap 32 (s6 + g)) (wrap 32 (s7 + h)).

Definition transform (s : Regs) (p : list Z) : Regs := add_regs s (foldl sha_round s (zip K (schedule p))).

Definition sha256_init : Regs := mkRegs 1779033703 3144134277 1013904242 2773480762 1359893119 2600822924 528734635 1541459225.

(** The loop over whole blocks; every turn takes 64 bytes, so [length p] turns
    are enough. *)
Fixpoint whole_blocks (fuel : nat) (s : Regs) (p : list Z) : Regs * list Z :=
  match fuel with
  | O => (s, p)
  | S fuel' => if (64 <=? length p)%nat then whole_blocks fuel' (transform s p) (drop 64 p) else (s, p)
  end.

Definition set_byte (bits : Z) (padlen : nat) (buf : list Z) (i : nat) : list Z :=
  <[(padlen - 1 - i)%nat := wrap 8 (Z.shiftr bits (8 * Z.of_nat i))]> buf.

(** The 128-byte buffer with the last partial block. *)
Definition pad_buffer (p : list Z) (bits : Z) (padlen : nat) : list Z :=
  foldl (set_byte bits padlen) (p ++ 0x80 :: replicate (127 - length p) 0) (seq 0 8).

Definition store_word (v : Z) : list Z := [wrap 8 (Z.shiftr v 24); wrap 8 (Z.shiftr v 16); wrap 8 (Z.shiftr v 8); wrap 8 v].

Definition sha256 (data : list Z) : list Z :=
  let total := Z.of_nat (length data) in
  let '(s, p) := whole_blocks (length data) sha256_init data in
  let padlen := if (length p <? 56)%nat then 64%nat else 128%nat in
  let buf := pad_buffer p (wrap 64 (total * 8)) padlen in
  let s := transform s buf in
  let '(mkRegs a b c d e f g h) := if (padlen =? 128)%nat then transform s (drop 64 buf) else s in
  concat (map store_word [a; b; c; d; e; f; g; h]).

(** ** FIPS 180-4 *)

Module Fips.
(** Addition of words, and the operations of section 4.1.2 by arithmetic. *)
Definition sum (l : list Z) : Z := foldr Z.add 0 l mod 2 ^ 32.
Definition ROTR (n x : Z) : Z := x / 2 ^ n + (x mod 2 ^ n) * 2 ^ (32 - n).
Definition SHR (n x : Z) : Z := x / 2 ^ n.
Definition Ch (x y z : Z) : Z := Z.lxor (Z.land x y) (Z.ldiff z x).
Definition Maj (x y z : Z) : Z := Z.lxor (Z.lxor (Z.land x y) (Z.land x z)) (Z.land y z).
Definition xor3 (x y z : Z) : Z := Z.lxor (Z.lxor x y) z.
Definition Sigma0 (x : Z) : Z := xor3 (ROTR 2 x) (ROTR 13 x) (ROTR 22 x).
Definition Sigma1 (x : Z) : Z := xor3 (ROTR 6 x) (ROTR 11 x) (ROTR 25 x).
Definition sigma0 (x : Z) : Z := xor3 (ROTR 7 x) (ROTR 18 x) (SHR 3 x).
Definition sigma1 (x : Z) : Z := xor3 (ROTR 17 x) (ROTR 19 x) (SHR 10 x).

(** The first 64 primes; the constants are the first 32 bits of the fractional
    parts of their cube roots, the initial value of the square roots of the
    first eight. *)
Definition is_prime (n : nat) : bool := forallb (fun d => negb (n mod d =? 0)%nat) (seq 2 (n - 2)).
Definition primes : list Z := take 64 (map Z.of_nat (filter (fun n => is_prime n = true) (seq 2 320))).
(** The integer cube root, bit by bit. *)
Fixpoint cbrt (bits : nat) (r n : Z) : Z :=
  match bits with
  | O => r
  | S b => let r' := r + 2 ^ Z.of_nat b in cbrt b (if r' ^ 3 <=? n then r' else r) n
  end.
Definition Kt (t : nat) : Z := cbrt 40 0 (default 0 (primes !! t) * 2 ^ 96) mod 2 ^ 32.
Definition H0 (i : nat) : Z := Z.sqrt (default 0 (primes !! i) * 2 ^ 64) mod 2 ^ 32.

(** The message padded to whole blocks (section 5.1.1). *)
Definition be_bytes (n : nat) (v : Z) : list Z := rev (le_split n v).
Definition zeros (len : nat) : nat := Z.to_nat ((55 - Z.of_nat len) mod 64).
Definition pad (m : list Z) : list Z := m ++ 0x80 :: replicate (zeros (length m)) 0 ++ be_bytes 8 (8 * Z.of_nat (length m)).
Definition be_word (b : list Z) : Z := le_combine (rev b).
(** The [j]-th word of block [i]. *)
Definition Mt (m : list Z) (i j : nat) : Z := be_word (slice m (64 * i + 4 * j) 4).

(** The schedule of section 6.2.2 by its recurrence; [t < n] is enough fuel. *)
Fixpoint Wt (n : nat) (M : nat -> Z) (t : nat) : Z :=
  match n with
  | O => 0
  | S n' =>
      if (t <? 16)%nat then M t
      else sum [sigma1 (Wt n' M (t - 2)); Wt n' M (t - 7); sigma0 (Wt n' M (t - 15)); Wt n' M (t - 16)]
  end.

Definition step (M : nat -> Z) (r : Regs) (t : nat) : Regs :=
  let '(mkRegs a b c d e f g h) := r in
  let T1 := sum [h; Sigma1 e; Ch e f g; Kt t; Wt (S t) M t] in
  let T2 := sum [Sigma0 a; Maj a b c] in
  mkRegs (sum [T1; T2]) a b c (sum [d; T1]) e f g.

Definition combine (s r : Regs) : Regs :=
  let '(mkRegs s0 s1 s2 s3 s4 s5 s6 s7) := s in
  let '(mkRegs a b c d e f g h) := r in
  mkRegs (sum [a; s0]) (sum [b; s1]) (sum [c; s2]) (sum [d; s3]) (sum [e; s4]) (sum [f; s5]) (sum [g; s6]) (sum [h; s7]).

Definition compress (m : list Z) (s : Regs) (i : nat) : Regs := combine s (foldl (step (Mt m i)) s (seq 0 64)).

Definition digest (m : list Z) : list Z :=
  let p := pad m in
  let s := mkRegs (H0 0) (H0 1) (H0 2) (H0 3) (H0 4) (H0 5) (H0 6) (H0 7) in
  let '(mkRegs a b c d e f g h) := foldl (compress p) s (seq 0 (length p / 64)) in
  concat (map (be_bytes 4) [a; b; c; d; e; f; g; h]).
End Fips.

(** The vectors of FIPS 180-4: the empty string and "abc". *)
Example sha256_abc : take 8 (sha256 [97; 98; 99]) = [0xba; 0x78; 0x16; 0xbf; 0x8f; 0x01; 0xcf; 0xea].
Proof. vm_compute. reflexivity. Qed.
Example sha256_empty : take 8 (sha256 []) = [0xe3; 0xb0; 0xc4; 0x42; 0x98; 0xfc; 0x1c; 0x14].
Proof. vm_compute. reflexivity. Qed.

(** ** The code computes the standard *)

Lemma rotr_ROTR x n : u32 x -> 0 < n < 32 -> rotr x n = Fips.ROTR n x.
Proof.
  intros [H0 H1] Hn. unfold rotr, Fips.ROTR. rewrite Z.shiftr_div_pow2 by lia. unfold wrap.
  assert (2 ^ 32 = 2 ^ n * 2 ^ (32 - n)) as E by (rewrite <- Z.pow_add_r by lia; f_equal; lia).
  assert (0 < 2 ^ n) by (apply Z.pow_pos_nonneg; lia). assert (0 < 2 ^ (32 - n)) by (apply Z.pow_pos_nonneg; lia).
  rewrite Z.shiftl_mul_pow2 by lia. rewrite E, Z.mul_mod_distr_r by lia. rewrite <- Z.shiftl_mul_pow2 at 1 by lia.
  apply lor_shiftl_add; [lia| |apply Z.mod_pos_bound; lia].
  split; [apply Z.div_pos; lia|]. apply Z.div_lt_upper_bound; [lia|]. by rewrite <- E.
Qed.

Lemma be_lor b0 b1 b2 b3 : bytes_ok [b0; b1; b2; b3] ->
  Z.lor (Z.lor (Z.lor (Z.shiftl b0 24) (Z.shiftl b1 16)) (Z.shiftl b2 8)) b3 = Fips.be_word [b0; b1; b2; b3].
Proof.
  intros Hb. assert (0 <= b0 < 256 /\ 0 <= b1 < 256 /\ 0 <= b2 < 256 /\ 0 <= b3 < 256) as (H0 & H1 & H2 & H3).
  { unfold bytes_ok, urange in Hb. rewrite !Forall_cons in Hb. change (2 ^ 8) with 256 in Hb. tauto. }
  rewrite (Z.lor_comm _ b3), (Z.lor_comm _ (Z.shiftl b2 8)), Z.lor_assoc, (Z.lor_comm (Z.shiftl b0 24)), Z.lor_assoc.
  rewrite (lor_shiftl_add b3 b2 8) by (unfold urange; lia). rewrite (lor_shiftl_add _ b1 16) by (unfold urange; lia).
  rewrite (lor_shiftl_add _ b0 24) by (unfold urange; lia). unfold Fips.be_word. cbn [rev app le_combine]. lia.
Qed.

Lemma load_word_slice p i : bytes_ok p -> (4 * i + 4 <= length p)%nat -> load_word p i = Fips.be_word (slice p (4 * i) 4).
Proof.
  intros Hb Hl. pose proof (length_slice p (4 * i) 4 Hl) as Hs. assert (bytes_ok (slice p (4 * i) 4)) as Hok by (unfold slice; auto with aegis).
  assert (forall k, (k < 4)%nat -> byte_at p (i * 4 + k) = byte_at (slice p (4 * i) 4) k) as Hat.
  { intros k Hk. unfold byte_at, slice. rewrite lookup_take_lt by lia. rewrite lookup_drop. do 2 f_equal. lia. }
  unfold load_word. replace (byte_at p (i * 4)) with (byte_at p (i * 4 + 0)) by (f_equal; lia). rewrite !Hat by lia.
  destruct (slice p (4 * i) 4) as [|b0 [|b1 [|b2 [|b3 [|]]]]]; try done. by apply be_lor.
Qed.

Lemma be_word_range b : length b = 4%nat -> bytes_ok b -> u32 (Fips.be_word b).
Proof.
  intros Hl Hb. unfold Fips.be_word, urange. replace 32 with (8 * Z.of_nat (length (rev b))) by (rewrite length_rev, Hl; done).
  apply le_combine_range. unfold bytes_ok. by apply Forall_rev.
Qed.

(** *** Words stay in range *)

Lemma sum_range l : u32 (Fips.sum l).
Proof. apply Z.mod_pos_bound. lia. Qed.

Lemma Wt_range n M t : (forall j, (j < 16)%nat -> u32 (M j)) -> u32 (Fips.Wt n M t).
Proof. intros HM. destruct n as [|n]; [done|]. cbn [Fips.Wt]. destruct (Nat.ltb_spec t 16); [by apply HM|apply sum_range]. Qed.

Definition regs_ok (r : Regs) : Prop := let '(mkRegs a b c d e f g h) := r in Forall (fun x => u32 x) [a; b; c; d; e; f; g; h].

Lemma step_ok M r t : regs_ok r -> regs_ok (Fips.step M r t).
Proof.
  destruct r as [a b c d e f g h]. cbn [regs_ok Fips.step]. rewrite !Forall_cons. intros (?&?&?&?&?&?&?&?&_).
  split_and!; try done; apply sum_range.
Qed.

Lemma combine_ok s r : regs_ok (Fips.combine s r).
Proof. destruct s, r. cbn [regs_ok Fips.combine]. repeat constructor; apply sum_range. Qed.

(** *** The schedule *)

Lemma Wt_fuel n M t : (t < n)%nat -> Fips.Wt n M t = Fips.Wt (S t) M t.
Proof.
  revert n. induction t as [t IH] using lt_wf_ind. intros n Hn. destruct n as [|n]; [lia|]. cbn [Fips.Wt].
  destruct (Nat.ltb_spec t 16) as [|Ht]; [done|].
  assert (forall m k, (m < t)%nat -> (m < k)%nat -> Fips.Wt k M m = Fips.Wt (S m) M m) as IH' by (intros; by apply IH).
  by rewrite !(IH' _ n), !(IH' _ t) by lia.
Qed.

Lemma Wt_rec M t : (16 <= t)%nat ->
  Fips.Wt (S t) M t = Fips.sum [Fips.sigma1 (Fips.Wt (S (t - 2)) M (t - 2)); Fips.Wt (S (t - 7)) M (t - 7);
    Fips.sigma0 (Fips.Wt (S (t - 15)) M (t - 15)); Fips.Wt (S (t - 16)) M (t - 16)].
Proof. intros Ht. cbn [Fips.Wt]. destruct (Nat.ltb_spec t 16); [lia|]. by rewrite !(Wt_fuel t) by lia. Qed.

Lemma schedule_loop p n : (forall j, (j < 16)%nat -> u32 (load_word p j)) ->
  foldl extend (map (load_word p) (seq 0 16)) (seq 16 n) = map (fun t => Fips.Wt (S t) (load_word p) t) (seq 0 (16 + n)).
Proof.
  intros Hp. induction n as [|n IH]; [done|]. rewrite (seq_S n 16), foldl_snoc, IH. replace (16 + S n)%nat with (S (16 + n)) by lia.
  rewrite (seq_S (16 + n) 0), map_app. unfold extend. f_equal. cbn [map]. f_equal.
  assert (forall i, (i < 16 + n)%nat -> word (map (fun t => Fips.Wt (S t) (load_word p) t) (seq 0 (16 + n))) i = Fips.Wt (S i) (load_word p) i) as Hw.
  { intros i Hi. unfold word. rewrite list_lookup_fmap, lookup_seq_lt by lia. done. }
  rewrite !Hw by lia. rewrite Nat.add_0_l, (Wt_rec _ (16 + n)) by lia.
  unfold Fips.sigma0, Fips.sigma1, Fips.xor3, Fips.SHR. rewrite !rotr_ROTR by (lia || by apply Wt_range).
  rewrite !Z.shiftr_div_pow2 by lia. unfold wrap, Fips.sum. cbn [foldr]. f_equal. lia.
Qed.

(** *** A block *)

Lemma K_table : K = map Fips.Kt (seq 0 64).
Proof. vm_compute. reflexivity. Qed.

Lemma init_table : sha256_init = mkRegs (Fips.H0 0) (Fips.H0 1) (Fips.H0 2) (Fips.H0 3) (Fips.H0 4) (Fips.H0 5) (Fips.H0 6) (Fips.H0 7).
Proof. vm_compute. reflexivity. Qed.

Lemma init_ok : regs_ok sha256_init.
Proof. apply (bool_decide_unpack (Forall (fun x => u32 x) _)). vm_compute. done. Qed.

Lemma zip_map {A B C} (f : A -> B) (g : A -> C) l : zip (map f l) (map g l) = map (fun x => (f x, g x)) l.
Proof. induction l as [|x l IH]; [done|]. cbn. by f_equal. Qed.

Lemma not_word e g : u32 e -> u32 g -> Z.land (Z.lxor UINT32_MAX e) g = Z.ldiff g e.
Proof.
  intros He Hg. apply Z.bits_inj'. intros i Hi. rewrite Z.land_spec, Z.lxor_spec, Z.ldiff_spec.
  destruct (Z.lt_ge_cases i 32) as [Hlt|Hge].
  - change UINT32_MAX with (Z.ones 32). rewrite Z.ones_spec_low by lia. destruct (Z.testbit e i), (Z.testbit g i); done.
  - rewrite (testbit_high 32 g) by (done || lia). by rewrite andb_false_r.
Qed.

Lemma round_step M r t : regs_ok r -> sha_round r (Fips.Kt t, Fips.Wt (S t) M t) = Fips.step M r t.
Proof.
  destruct r as [a b c d e f g h]. cbn [regs_ok sha_round Fips.step fst snd]. rewrite !Forall_cons. intros (Ha&_&_&_&He&Hf&Hg&_&_).
  rewrite !rotr_ROTR by (done || lia). rewrite not_word by done.
  change (Z.lxor (Z.lxor (Fips.ROTR 2 a) (Fips.ROTR 13 a)) (Fips.ROTR 22 a)) with (Fips.Sigma0 a).
  change (Z.lxor (Z.lxor (Fips.ROTR 6 e) (Fips.ROTR 11 e)) (Fips.ROTR 25 e)) with (Fips.Sigma1 e).
  change (Z.lxor (Z.land e f) (Z.ldiff g e)) with (Fips.Ch e f g).
  change (Z.lxor (Z.lxor (Z.land a b) (Z.land a c)) (Z.land b c)) with (Fips.Maj a b c).
  unfold wrap, Fips.sum. cbn [foldr]. rewrite !Z.add_0_r, !Z.add_assoc. done.
Qed.

Lemma rounds_steps M r l : regs_ok r ->
  foldl sha_round r (map (fun t => (Fips.Kt t, Fips.Wt (S t) M t)) l) = foldl (Fips.step M) r l.
Proof.
  revert r. induction l as [|t l IH]; intros r Hr; [done|]. cbn [map foldl]. rewrite round_step by done. apply IH. by apply step_ok.
Qed.

Lemma add_combine s r : add_regs s r = Fips.combine s r.
Proof. destruct s, r. cbn [add_regs Fips.combine]. unfold wrap, Fips.sum. cbn [foldr]. f_equal; f_equal; lia. Qed.

Lemma Wt_ext n M N t : (forall j, (j < 16)%nat -> M j = N j) -> Fips.Wt n M t = Fips.Wt n N t.
Proof.
  intros HE. revert t. induction n as [|n IH]; intros t; [done|]. cbn [Fips.Wt]. destruct (Nat.ltb_spec t 16); [by apply HE|].
  by rewrite !IH.
Qed.

Lemma step_ext M N r t : (forall j, (j < 16)%nat -> M j = N j) -> Fips.step M r t = Fips.step N r t.
Proof. intros HE. unfold Fips.step. destruct r. rewrite (Wt_ext (S t) M N t HE). reflexivity. Qed.

Lemma steps_ext M N r l : (forall j, (j < 16)%nat -> M j = N j) -> foldl (Fips.step M) r l = foldl (Fips.step N) r l.
Proof. intros HE. revert r. induction l as [|t l IH]; intros r; cbn [foldl]; [reflexivity|]. rewrite (step_ext M N r t HE). apply IH. Qed.

(** The code's block transform is the standard's, on the same 64 bytes. *)
Lemma transform_compress s p m i : regs_ok s -> bytes_ok p -> (64 <= length p)%nat -> slice m (64 * i) 64 = take 64 p ->
  transform s p = Fips.compress m s i.
Proof.
  intros Hs Hb Hl Hm. assert (forall j, (j < 16)%nat -> load_word p j = Fips.Mt m i j) as HM.
  { intros j Hj. rewrite load_word_slice by (done || lia). unfold Fips.Mt. f_equal.
    transitivity (slice (slice m (64 * i) 64) (4 * j) 4).
    - rewrite Hm. unfold slice. rewrite skipn_firstn_comm, take_take. f_equal. lia.
    - unfold slice. rewrite skipn_firstn_comm, drop_drop, take_take. f_equal. lia. }
  unfold transform, schedule, Fips.compress. rewrite schedule_loop; cycle 1.
  { intros j Hj. rewrite load_word_slice by (done || lia). apply be_word_range; [apply length_slice; lia|unfold slice; auto with aegis]. }
  change (16 + 48)%nat with 64%nat. rewrite K_table, zip_map, (rounds_steps (load_word p) s _ Hs), add_combine.
  rewrite (steps_ext _ _ s (seq 0 64) HM). reflexivity.
Qed.

(** *** The message *)

Lemma whole_blocks_spec fuel s p : (length p <= fuel)%nat ->
  whole_blocks fuel s p = (foldl (fun s i => transform s (drop (64 * i) p)) s (seq 0 (length p / 64)), drop (64 * (length p / 64)) p).
Proof.
  revert s p. induction fuel as [|fuel IH]; intros s p Hf; cbn [whole_blocks].
  { destruct p; [done|cbn in Hf; lia]. }
  destruct (Nat.leb_spec 64 (length p)) as [Hge|Hlt]; [|by rewrite Nat.div_small by done].
  rewrite IH by (rewrite length_drop; lia). rewrite length_drop.
  replace (length p / 64)%nat with (S ((length p - 64) / 64)) by (replace (length p) with (length p - 64 + 1 * 64)%nat at 2 by lia; rewrite Nat.div_add by lia; lia).
  f_equal.
  - cbn [seq foldl]. rewrite drop_0, <- fmap_S_seq. generalize (seq 0 ((length p - 64) / 64)). generalize (transform s p).
    intros s' l. revert s'. induction l as [|i l IHl]; intros s'; cbn [fmap list_fmap foldl]; [reflexivity|].
    rewrite IHl, drop_drop. do 3 f_equal. lia.
  - rewrite drop_drop. f_equal. lia.
Qed.

Lemma pad_buffer_spec p bits padlen z :
  (length p + 1 + z + 8 = padlen)%nat -> (padlen <= 128)%nat ->
  pad_buffer p bits padlen = (p ++ 0x80 :: replicate z 0 ++ Fips.be_bytes 8 bits) ++ replicate (128 - padlen) 0.
Proof.
  intros Hz Hp. unfold pad_buffer. replace (127 - length p)%nat with (z + (8 + (128 - padlen)))%nat by lia.
  rewrite !replicate_add. assert (length (p ++ 0x80 :: replicate z 0) = (padlen - 8)%nat) as Hl.
  { rewrite length_app. cbn. rewrite length_replicate. lia. }
  replace (p ++ 128 :: replicate z 0 ++ replicate 8 0 ++ replicate (128 - padlen) 0)
    with ((p ++ 0x80 :: replicate z 0) ++ replicate 8 0 ++ replicate (128 - padlen) 0) by (by rewrite <- app_assoc).
  replace ((p ++ 128 :: replicate z 0 ++ Fips.be_bytes 8 bits) ++ replicate (128 - padlen) 0)
    with ((p ++ 0x80 :: replicate z 0) ++ Fips.be_bytes 8 bits ++ replicate (128 - padlen) 0) by (rewrite <- !app_assoc; cbn; by rewrite <- app_assoc).
  generalize dependent (p ++ 0x80 :: replicate z 0). intros A Hl. generalize (replicate (128 - padlen) 0). intros B.
  unfold Fips.be_bytes. rewrite <- put_u64le_split. cbn [seq foldl]. unfold set_byte.
  rewrite insert_app_r_alt by lia. rewrite Hl. replace (padlen - 1 - 0 - (padlen - 8))%nat with 7%nat by lia.
  do 7 (rewrite insert_app_r_alt by lia). rewrite Hl.
  replace (padlen - 1 - 1 - (padlen - 8))%nat with 6%nat by lia. replace (padlen - 1 - 2 - (padlen - 8))%nat with 5%nat by lia.
  replace (padlen - 1 - 3 - (padlen - 8))%nat with 4%nat by lia. replace (padlen - 1 - 4 - (padlen - 8))%nat with 3%nat by lia.
  replace (padlen - 1 - 5 - (padlen - 8))%nat with 2%nat by lia. replace (padlen - 1 - 6 - (padlen - 8))%nat with 1%nat by lia.
  replace (padlen - 1 - 7 - (padlen - 8))%nat with 0%nat by lia. reflexivity.
Qed.

Lemma store_word_be v : store_word v = Fips.be_bytes 4 v.
Proof. unfold store_word, Fips.be_bytes. rewrite <- put_u32le_split. unfold aegis_put_u32le. cbn [map rev app]. by rewrite Z.shiftr_0_r. Qed.

Lemma be_bytes_length n v : length (Fips.be_bytes n v) = n.
Proof. unfold Fips.be_bytes. by rewrite length_rev, length_le_split. Qed.

Lemma be_bytes_bytes n v : bytes_ok (Fips.be_bytes n v).
Proof. apply Forall_rev, le_split_bytes. Qed.

Lemma pad_bytes m : bytes_ok m -> bytes_ok (Fips.pad m).
Proof.
  intros Hm. unfold Fips.pad. apply bytes_ok_app. split; [done|]. constructor; [unfold urange; lia|].
  apply bytes_ok_app. split; [|apply be_bytes_bytes]. apply Forall_replicate. unfold urange. lia.
Qed.

Lemma blocks_prefix m k s n : regs_ok s -> bytes_ok m -> (64 * n <= length m)%nat ->
  foldl (fun s i => transform s (drop (64 * i) m)) s (seq 0 n) = foldl (Fips.compress (m ++ k)) s (seq 0 n).
Proof.
  intros Hs Hm Hn. assert (forall l s, regs_ok s -> Forall (fun i => (i < n)%nat) l ->
    foldl (fun s i => transform s (drop (64 * i) m)) s l = foldl (Fips.compress (m ++ k)) s l) as HF; [|apply HF; [done|]].
  - clear s Hs. induction l as [|i l IH]; intros s Hs Hl; cbn [foldl]; [reflexivity|]. inversion_clear Hl as [|? ? Hi Hl'].
    rewrite (transform_compress s (drop (64 * i) m) (m ++ k) i Hs); [|auto with aegis|rewrite length_drop; lia|].
    + apply IH; [apply combine_ok|done].
    + unfold slice. rewrite drop_app_le by lia. rewrite take_app_le by (rewrite length_drop; lia). done.
  - apply Forall_forall. intros i Hi. apply elem_of_seq in Hi. lia.
Qed.

Lemma blocks_ok m s l : regs_ok s -> regs_ok (foldl (Fips.compress m) s l).
Proof. revert s. induction l as [|i l IH]; intros s Hs; cbn [foldl]; [done|]. apply IH, combine_ok. Qed.

Lemma zeros_spec len : (64 * (len / 64) + (len mod 64 + 1 + Fips.zeros len + 8) = len + 1 + Fips.zeros len + 8)%nat /\
  (len mod 64 + 1 + Fips.zeros len + 8 = if (len mod 64 <? 56)%nat then 64 else 128)%nat.
Proof.
  split; [pose proof (Nat.div_mod_eq len 64); lia|]. pose proof (Nat.mod_upper_bound len 64 ltac:(lia)) as Hm. unfold Fips.zeros.
  assert ((55 - Z.of_nat len) mod 64 = (55 - Z.of_nat (len mod 64)) mod 64) as ->.
  { rewrite Nat2Z.inj_mod. rewrite Zminus_mod_idemp_r. done. }
  destruct (Nat.ltb_spec (len mod 64) 56).
  - rewrite Z.mod_small by lia. lia.
  - replace (55 - Z.of_nat (len mod 64)) with (119 - Z.of_nat (len mod 64) + (-1) * 64) by lia. rewrite Z.mod_add by lia.
    rewrite Z.mod_small by lia. lia.
Qed.

(** The padding buffer is the last one or two blocks of the padded message. *)
Lemma last_blocks m n padlen s : bytes_ok m -> regs_ok s -> length (drop (64 * n) m) = padlen -> padlen = 64%nat \/ padlen = 128%nat ->
  let buf := drop (64 * n) m ++ replicate (128 - padlen) 0 in
  (if (padlen =? 128)%nat then transform (transform s buf) (drop 64 buf) else transform s buf) =
  foldl (Fips.compress m) s (seq n (padlen / 64)).
Proof.
  intros Hm Hs Hl Hp buf. assert (bytes_ok buf) as Hb.
  { apply bytes_ok_app. split; [auto with aegis|]. apply Forall_replicate. unfold urange. lia. }
  assert (length buf = 128%nat) as Hbl by (unfold buf; rewrite length_app, length_replicate; lia).
  assert (transform s buf = Fips.compress m s n) as ->.
  { apply transform_compress; [done|done|lia|]. unfold buf, slice. rewrite take_app_le by lia. done. }
  destruct Hp as [-> | ->]; cbn [Nat.eqb]; [reflexivity|].
  rewrite (transform_compress _ (drop 64 buf) m (S n)); [reflexivity|apply combine_ok|auto with aegis|rewrite length_drop; lia|].
  unfold buf, slice. rewrite Nat.sub_diag. cbn [replicate]. rewrite app_nil_r, drop_drop. do 2 f_equal. lia.
Qed.

(** C28: The hash of credentials is SHA-256. Over every byte string whose length
    in bits is a 64-bit number, the one-shot code, with its table, its whole
    blocks in place and its padding buffer of one or two blocks, computes the
    digest of FIPS 180-4, where the constants are the roots of the primes. *)
Theorem sha256_is_fips data : bytes_ok data -> 8 * Z.of_nat (length data) < 2 ^ 64 -> sha256 data = Fips.digest data.
Proof.
  intros Hb Hlen. unfold sha256, Fips.digest. rewrite whole_blocks_spec by lia. rewrite <- init_table.
  set (n := (length data / 64)%nat). set (len := length data) in *. destruct (zeros_spec len) as [Hz1 Hz2]. fold n in Hz1.
  assert (length (drop (64 * n) data) = (len mod 64)%nat) as Hr by (rewrite length_drop; pose proof (Nat.div_mod_eq len 64); lia).
  rewrite Hr. set (padlen := if (len mod 64 <? 56)%nat then 64%nat else 128%nat) in *.
  rewrite wrap_small by (unfold urange; lia). rewrite (Z.mul_comm _ 8).
  assert (drop (64 * n) (Fips.pad data) = drop (64 * n) data ++ 0x80 :: replicate (Fips.zeros len) 0 ++ Fips.be_bytes 8 (8 * Z.of_nat len)) as Hd.
  { unfold Fips.pad. rewrite drop_app_le; [done|]. unfold n. pose proof (Nat.div_mod_eq len 64). fold len. lia. }
  assert (length (drop (64 * n) (Fips.pad data)) = padlen) as Hdl.
  { rewrite Hd, length_app, Hr. cbn [length]. rewrite length_app, length_replicate, be_bytes_length. lia. }
  assert (length (Fips.pad data) = 64 * n + padlen)%nat as Hpl.
  { unfold Fips.pad. rewrite length_app. cbn [length]. rewrite length_app, length_replicate, be_bytes_length. fold len. lia. }
  rewrite (pad_buffer_spec _ _ padlen (Fips.zeros len)) by (rewrite ?Hr; lia || (unfold padlen; case_match; lia)). rewrite <- Hd.
  assert (padlen = 64 \/ padlen = 128)%nat as Hp by (unfold padlen; case_match; lia).
  assert (regs_ok (foldl (Fips.compress (Fips.pad data)) sha256_init (seq 0 n))) as Hok by (apply blocks_ok, init_ok).
  rewrite (blocks_prefix data (0x80 :: replicate (Fips.zeros len) 0 ++ Fips.be_bytes 8 (8 * Z.of_nat len)) _ n init_ok Hb)
    by (unfold n; pose proof (Nat.div_mod_eq len 64); fold len; lia).
  change (data ++ 0x80 :: replicate (Fips.zeros len) 0 ++ Fips.be_bytes 8 (8 * Z.of_nat len)) with (Fips.pad data).
  rewrite (last_blocks (Fips.pad data) n padlen _ (pad_bytes _ Hb) Hok Hdl Hp), <- foldl_app.
  replace (seq 0 n ++ seq n (padlen / 64)) with (seq 0 (length (Fips.pad data) / 64)).
  - generalize (foldl (Fips.compress (Fips.pad data)) sha256_init (seq 0 (length (Fips.pad data) / 64))). intros [a b c d e f g h]. cbn [map]. rewrite !store_word_be. reflexivity.
  - rewrite Hpl, Nat.add_comm, Nat.mul_comm, Nat.div_add by lia. rewrite Nat.add_comm. apply seq_app.
Qed.

Lemma sha256_is_fips_witness : bytes_ok (replicate 60 97) /\ sha256 (replicate 60 97) = Fips.digest (replicate 60 97).
Proof. split; [|apply sha256_is_fips; [|vm_compute; reflexivity]]; apply Forall_replicate; split; lia. Defined.
