(* ===== verification/Reply.v ===== *)
(** * Responses

    The response trees of [src/protocol/json_response.c] and the names of
    [src/util/status.c]. Nodes of the document library are always created;
    only the buffer the source itself allocates for a payload can be missing. *)

From S2P Require Import Prelude Endian HashIndex SortedArray Record RecordCodec Floats Json Text AeadCorrect Log Tenant CkptCrypt Store.

(** ** Documents under construction *)

Definition num (z : Z) : cJSON := JNumber (f64_of_Z z).
Definition jbool (b : bool) : cJSON := if b then JTrue else JFalse.
(** A [float] as a number. *)
Definition jfloat (bits : Z) : cJSON := JNumber (f64_of_f32 (f32_of_bits bits)).

(** [cJSON_AddItemToObject]: new children go last. *)
Definition add_item (o : cJSON) (key : list Z) (v : cJSON) : cJSON :=
  match o with JObject l => JObject (l ++ [(key, v)]) | o => o end.

(** ** Names *)

Definition aegis_status_code (s : aegis_status) : list Z :=
  match s with
  | AEGIS_OK => str "OK"
  | AEGIS_ERR_INVALID_REQUEST => str "INVALID_REQUEST"
  | AEGIS_ERR_NOT_FOUND => str "NOT_FOUND"
  | AEGIS_ERR_PAYLOAD_TOO_LARGE => str "PAYLOAD_TOO_LARGE"
  | AEGIS_ERR_IMMUTABLE => str "IMMUTABLE"
  | AEGIS_ERR_NOT_READY => str "NOT_READY"
  | AEGIS_ERR_UNAUTHORIZED => str "UNAUTHORIZED"
  | AEGIS_ERR_FORBIDDEN => str "FORBIDDEN"
  | AEGIS_ERR_QUOTA_EXCEEDED => str "QUOTA_EXCEEDED"
  | AEGIS_ERR_RATE_LIMITED => str "RATE_LIMITED"
  | AEGIS_ERR_READ_ONLY => str "READ_ONLY"
  | AEGIS_ERR_MEMORY_LIMIT => str "MEMORY_LIMIT"
  | AEGIS_ERR_INTERNAL => str "INTERNAL"
  end.

Definition aegis_status_message (s : aegis_status) : list Z :=
  match s with
  | AEGIS_OK => str "ok"
  | AEGIS_ERR_INVALID_REQUEST => str "malformed or incomplete request"
  | AEGIS_ERR_NOT_FOUND => str "memory not found"
  | AEGIS_ERR_PAYLOAD_TOO_LARGE => str "payload exceeds configured limit"
  | AEGIS_ERR_IMMUTABLE => str "record is immutable"
  | AEGIS_ERR_NOT_READY => str "feature not enabled for current phase"
  | AEGIS_ERR_UNAUTHORIZED => str "authentication required or invalid token"
  | AEGIS_ERR_FORBIDDEN => str "not permitted for this token"
  | AEGIS_ERR_QUOTA_EXCEEDED => str "tenant storage quota exceeded"
  | AEGIS_ERR_RATE_LIMITED => str "tenant request rate limit exceeded"
  | AEGIS_ERR_READ_ONLY => str "server is a read-only replica; write to the primary"
  | AEGIS_ERR_MEMORY_LIMIT => str "server index-memory limit reached; free memory or raise --max-index-bytes"
  | AEGIS_ERR_INTERNAL => str "internal server error"
  end.

Definition memory_type_from_string (s : list Z) : option MemoryType :=
  if bool_decide (s = str "working") then Some MEM_WORKING
  else if bool_decide (s = str "episodic") then Some MEM_EPISODIC
  else if bool_decide (s = str "semantic") then Some MEM_SEMANTIC
  else None.

Definition memory_type_to_string (t : MemoryType) : list Z :=
  match t with MEM_WORKING => str "working" | MEM_EPISODIC => str "episodic" | MEM_SEMANTIC => str "semantic" end.

(** ** Responses *)

Definition json_ok : cJSON := JObject [(str "ok", JTrue)].

Definition json_error (code message : list Z) : cJSON :=
  JObject [(str "ok", JFalse); (str "error", JObject [(str "code", JString code); (str "message", JString message)])].

Definition json_error_status (st : aegis_status) : cJSON := json_error (aegis_status_code st) (aegis_status_message st).

Definition opt_field (key : list Z) (v : option cJSON) : list (list Z * cJSON) :=
  match v with Some v => [(key, v)] | None => [] end.

Definition json_fact (f : Fact) : option cJSON :=
  match fa_kind f, fa_predicate f with
  | FACT_NONE, _ | _, None => None
  | k, Some p =>
      Some (JObject ([(str "s", num (fa_subject f)); (str "p", JString p)] ++
        match k with
        | FACT_OBJ_ID => [(str "o", JObject [(str "id", num (fa_object_id f))])]
        | _ => opt_field (str "o") (JString <$> fa_object_str f)
        end))
  end.

Definition json_vector (bits : list Z) : cJSON := JArray (map jfloat bits).

Definition json_vectors (r : MemoryRecord) : list (list Z * cJSON) :=
  let dim := Z.to_nat (mr_embedding_dim r) in
  if mr_embedding_dim r =? 0 then []
  else if mr_vec_count r =? 1 then [(str "embedding", json_vector (take dim (mr_embedding r)))]
  else if 1 <? mr_vec_count r then
    [(str "embeddings", JArray (map (fun v => json_vector (slice (mr_embedding r) (v * dim) dim)) (seq 0 (Z.to_nat (mr_vec_count r)))))]
  else [].

Definition json_relationship (rl : Relationship) : cJSON :=
  JObject ([(str "from_id", num (rl_from rl)); (str "to_id", num (rl_to rl))] ++ opt_field (str "kind") (JString <$> rl_kind rl)).

(** [dok] is the outcome of the buffer for the payload. *)
Definition json_record (dok : bool) (r : MemoryRecord) (include_embeddings : bool) : cJSON :=
  JObject (
    [(str "id", num (mr_id r)); (str "type", JString (memory_type_to_string (mr_type r)));
     (str "created", num (mr_created r)); (str "updated", num (mr_updated r));
     (str "importance", jfloat (mr_importance r)); (str "confidence", jfloat (mr_confidence r))] ++
    opt_field (str "agent_id") (JString <$> mr_agent_id r) ++
    opt_field (str "fact") (json_fact (mr_fact r)) ++
    [(str "tags", JArray (map JString (mr_tags r)))] ++
    (if include_embeddings then json_vectors r else []) ++
    (if (length (mr_relationships r) =? 0)%nat then [] else [(str "relationships", JArray (map json_relationship (mr_relationships r)))]) ++
    (if dok then [(str "data", JString (c_string (mr_data r)))] else [])).

(** The namespace a record is shown with. *)
Lemma json_record_agent dok r emb :
  cJSON_GetObjectItemCaseSensitive (json_record dok r emb) (str "agent_id") = JString <$> mr_agent_id r.
Proof.
  unfold json_record. cbn [cJSON_GetObjectItemCaseSensitive app find_item]. repeat (rewrite bool_decide_eq_false_2 by (vm_compute; done)).
  destruct (mr_agent_id r) as [a|]; cbn [fmap option_fmap option_map opt_field app find_item]; [by rewrite bool_decide_eq_true_2|].
  assert (forall v l, find_item (opt_field (str "fact") v ++ l) (str "agent_id") = find_item l (str "agent_id")) as -> by (by intros [v|] l).
  cbn [app find_item]. rewrite bool_decide_eq_false_2 by (vm_compute; done).
  assert (forall l, find_item ((if emb then json_vectors r else []) ++ l) (str "agent_id") = find_item l (str "agent_id")) as ->.
  { intros l. destruct emb; [|done]. unfold json_vectors. by repeat case_match. }
  destruct (length (mr_relationships r) =? 0)%nat; destruct dok; done.
Qed.
