(* ===== verification/Tokens.v ===== *)
(** * Credentials

    The token set of [src/util/config.c] (its text file, additions, removals,
    fingerprints and the rewriting of the file), the key file, and the
    resolution of a request's identity ([resolve_identity] of
    [src/query/qe_dispatch.c]). A file is the bytes its reads deliver;
    [auth_lock] makes each operation on the set one step. *)

From S2P Require Import Prelude Endian CkptCrypt Floats Json Text Sha256 Store Reply.

(** ** The token set *)

Inductive AegisScope := AEGIS_SCOPE_RO | AEGIS_SCOPE_RW | AEGIS_SCOPE_ADMIN.
#[global] Instance aegis_scope_eq_dec : EqDecision AegisScope.
Proof. solve_decision. Defined.

Record AuthToken := mkToken {
  at_token : option (list Z);       (* the secret; [None] when hashed *)
  at_hash : list Z;
  at_hashed : bool;
  at_namespace : option (list Z);   (* [None]: every namespace *)
  at_scope : AegisScope
}.

(** The digit of a hexadecimal character. *)
Definition hex_val (c : Z) : option Z :=
  if (48 <=? c) && (c <=? 57) then Some (c - 48)
  else if (97 <=? c) && (c <=? 102) then Some (c - 97 + 10)
  else if (65 <=? c) && (c <=? 70) then Some (c - 65 + 10)
  else None.

Fixpoint hex_decode (s : list Z) : option (list Z) :=
  match s with
  | [] => Some []
  | [_] => None
  | a :: b :: s' =>
      match hex_val a, hex_val b with
      | Some hi, Some lo => cons (wrap 8 (Z.lor (Z.shiftl hi 4) lo)) <$> hex_decode s'
      | _, _ => None
      end
  end.

(** [fgets] with room for [n] bytes before the terminator: up to and including
    the first newline; what is left of a longer line stays in the file. *)
Fixpoint fgets (n : nat) (s : list Z) : list Z * list Z :=
  match n, s with
  | O, _ => ([], s)
  | _, [] => ([], [])
  | S n', b :: s' => if b =? 10 then ([b], s') else let '(l, r) := fgets n' s' in (b :: l, r)
  end.

Definition is_blank (b : Z) : bool := (b =? 32) || (b =? 9).
Definition is_trailing (b : Z) : bool := (b =? 10) || (b =? 13) || (b =? 32) || (b =? 9).

Fixpoint skip_while (f : Z -> bool) (s : list Z) : list Z :=
  match s with [] => [] | b :: s' => if f b then skip_while f s' else s end.

Definition trim_end (s : list Z) : list Z := rev (skip_while is_trailing (rev s)).

(** The key on the first line of the file; [None] for -1. *)
Definition load_key_file (file : option (list Z)) : option (list Z) :=
  match file with
  | None | Some [] => None
  | Some f =>
      let line := trim_end (c_string (fst (fgets 255 f))) in
      if (length line =? 64)%nat then hex_decode line else None
  end.

(** Outcomes of the allocations of one addition. *)
Record TokOks := mkTokOks { tk_grow : bool; tk_tok : bool; tk_ns : bool }.

Definition S_sha256 : list Z := str "sha256$".
Definition no_hash : list Z := replicate 32 0.

Definition append_token (ok : TokOks) (tokens : list AuthToken) (tok : list Z) (ns : option (list Z)) (scope : AegisScope)
  : list AuthToken * bool :=
  if negb (tk_grow ok) then (tokens, false)
  else
    let cred :=
      if bool_decide (take 7 tok = S_sha256)
      then if (length (drop 7 tok) =? 64)%nat then (fun h => (None, h, true)) <$> hex_decode (drop 7 tok) else None
      else if tk_tok ok then Some (Some tok, no_hash, false) else None in
    match cred with
    | None => (tokens, false)
    | Some (t, h, hashed) =>
        if bool_decide (ns <> None) && negb (tk_ns ok) then (tokens, false)
        else (tokens ++ [mkToken t h hashed ns scope], true)
    end.

(** The field and what follows it, [None] when nothing does. *)
Fixpoint next_field (s : list Z) : list Z * option (list Z) :=
  match s with
  | [] => ([], None)
  | b :: s' =>
      if is_blank b then ([], match skip_while is_blank s' with [] => None | r => Some r end)
      else let '(f, r) := next_field s' in (b :: f, r)
  end.

Definition parse_token_line (ok : TokOks) (tokens : list AuthToken) (s : list Z) : list AuthToken * bool :=
  match next_field s with
  | (tok, None) => append_token ok tokens tok None AEGIS_SCOPE_ADMIN
  | (tok, Some rest) =>
      let '(ns, scope_s) := next_field rest in
      match scope_s with
      | None =>
          if bool_decide (ns = str "admin") then append_token ok tokens tok None AEGIS_SCOPE_ADMIN
          else append_token ok tokens tok (Some ns) AEGIS_SCOPE_RW
      | Some sc =>
          if bool_decide (sc = str "ro") then append_token ok tokens tok (Some ns) AEGIS_SCOPE_RO
          else if bool_decide (sc = str "rw") then append_token ok tokens tok (Some ns) AEGIS_SCOPE_RW
          else if bool_decide (sc = str "admin") then append_token ok tokens tok None AEGIS_SCOPE_ADMIN
          else (tokens, false)
      end
  end.

(** Every turn takes at least one byte, so [length s] turns are enough. *)
Fixpoint load_lines (fuel k : nat) (oks : nat -> TokOks) (tokens : list AuthToken) (s : list Z) : list AuthToken * bool :=
  match fuel, s with
  | _, [] => (tokens, true)
  | O, _ => (tokens, true)
  | S fuel', _ =>
      let '(line, rest) := fgets 1023 s in
      let l := trim_end (skip_while is_blank (c_string line)) in
      match l with
      | [] => load_lines fuel' (S k) oks tokens rest
      | b :: _ =>
          if b =? 35 then load_lines fuel' (S k) oks tokens rest
          else
            let '(tokens, ok) := parse_token_line (oks k) tokens l in
            if ok then load_lines fuel' (S k) oks tokens rest else (tokens, false)
      end
  end.

Definition load_token_file (oks : nat -> TokOks) (tokens : list AuthToken) (file : option (list Z)) : list AuthToken * bool :=
  match file with
  | None => (tokens, false)
  | Some f => load_lines (length f) 0 oks tokens f
  end.

(** ** Administration at run time *)

Definition token_digest (t : AuthToken) : list Z := if at_hashed t then at_hash t else sha256 (default [] (at_token t)).

(** The hexadecimal text without its terminator. *)
Definition hex_text (b : list Z) : list Z := c_string (aegis_hex_encode b).

Definition config_token_fingerprint (t : AuthToken) : list Z := hex_text (take 6 (token_digest t)).
Definition config_key_fingerprint (key : list Z) : list Z := hex_text (take 6 (sha256 key)).

Fixpoint config_remove_token (tokens : list AuthToken) (id12 : list Z) : list AuthToken * bool :=
  match tokens with
  | [] => ([], false)
  | t :: tokens' =>
      if bool_decide (config_token_fingerprint t = id12) then (tokens', true)
      else let '(l, removed) := config_remove_token tokens' id12 in (t :: l, removed)
  end.

Definition scope_name (s : AegisScope) : list Z :=
  match s with AEGIS_SCOPE_RO => str "ro" | AEGIS_SCOPE_ADMIN => str "admin" | AEGIS_SCOPE_RW => str "rw" end.

Definition token_line (t : AuthToken) : list Z :=
  S_sha256 ++ hex_text (token_digest t) ++
  match at_namespace t with
  | Some ns => [32] ++ ns ++ [32] ++ scope_name (at_scope t) ++ [10]
  | None => [10]
  end.

Definition token_file (tokens : list AuthToken) : list Z := concat (map token_line tokens).

(** [mem] is whether the text could be built; then the file is replaced. *)
Definition config_write_token_file (mem : bool) (io : FsIo) (st : FsState) (tokens : list AuthToken) : list FsState * FsState * bool :=
  if mem then fs_write_atomic io st (token_file tokens) else ([], st, false).

(** ** The identity of a request *)

(** No early exit. *)
Fixpoint ct_diff (a b : list Z) (n : nat) (diff : Z) : Z :=
  match n with
  | O => diff
  | S n' => ct_diff (tail a) (tail b) n' (Z.lor diff (wrap 8 (Z.lxor (hd 0 a) (hd 0 b))))
  end.
Definition ct_eq_bytes (a b : list Z) (n : nat) : bool := ct_diff a b n 0 =? 0.

(** [ns = None]: unrestricted. *)
Record AuthCtx := mkAuthCtx { ax_ns : option (list Z); ax_can_write : bool }.

Definition NS_BUF : nat := 512.

Definition match_token (th : list Z) (m : option AuthToken) (t : AuthToken) : option AuthToken :=
  if ct_eq_bytes th (if at_hashed t then at_hash t else sha256 (default [] (at_token t))) 32 then Some t else m.

(** [None] for [UNAUTHORIZED]. *)
Definition resolve_identity (tokens : list AuthToken) (req : cJSON) : option AuthCtx :=
  if (length tokens =? 0)%nat then Some (mkAuthCtx None true)
  else
    match (match jr_str req (str "token") None with Some token => foldl (match_token (sha256 token)) None tokens | None => None end) with
    | None => None
    | Some t => Some (mkAuthCtx (take (NS_BUF - 1) <$> at_namespace t) (negb (bool_decide (at_scope t = AEGIS_SCOPE_RO))))
    end.

(** ** Requests that administer tokens *)

Definition scope_from_str (s : option (list Z)) : option AegisScope :=
  match s with
  | None => Some AEGIS_SCOPE_RW
  | Some s =>
      if bool_decide (s = str "rw") then Some AEGIS_SCOPE_RW
      else if bool_decide (s = str "ro") then Some AEGIS_SCOPE_RO
      else if bool_decide (s = str "admin") then Some AEGIS_SCOPE_ADMIN
      else None
  end.

Definition token_namespace_ok (ns : option (list Z)) : bool :=
  match ns with
  | None => false
  | Some ns => negb ((length ns <? 1)%nat || (128 <? length ns)%nat) && forallb (fun c => negb ((c <=? 0x20) || (c =? 0x7f))) ns
  end.

(** Thirty-two random bytes, [None] when they cannot be read. *)
Definition gen_random_token (random : option (list Z)) : option (list Z) :=
  match random with Some r => if (length r =? 32)%nat then Some (hex_text r) else None | None => None end.

(** The token set with its file; [ts_path] is whether one was configured. *)
Record TokenStore := mkTokenStore { ts_tokens : list AuthToken; ts_path : bool; ts_fs : FsState }.

Definition scope_str (s : AegisScope) : list Z :=
  match s with AEGIS_SCOPE_RO => str "ro" | AEGIS_SCOPE_ADMIN => str "admin" | AEGIS_SCOPE_RW => str "rw" end.

Definition token_entry (t : AuthToken) : cJSON :=
  JObject ([(str "id", JString (config_token_fingerprint t))] ++ opt_field (str "namespace") (JString <$> at_namespace t) ++
    [(str "scope", JString (scope_str (at_scope t)))]).

Definition handle_token_list (ts : TokenStore) : cJSON :=
  add_item json_ok (str "tokens") (JArray (map token_entry (ts_tokens ts))).

(** Rewrites the file when there is one; the flag is [persisted]. *)
Definition persist (mem : bool) (io : FsIo) (ts : TokenStore) : TokenStore * bool :=
  if ts_path ts then
    let '(_, fs, ok) := config_write_token_file mem io (ts_fs ts) (ts_tokens ts) in
    (mkTokenStore (ts_tokens ts) (ts_path ts) fs, ok)
  else (ts, false).

Definition with_tokens (ts : TokenStore) (tokens : list AuthToken) : TokenStore := mkTokenStore tokens (ts_path ts) (ts_fs ts).

Definition handle_token_add (ok : TokOks) (random : option (list Z)) (mem : bool) (io : FsIo) (ts : TokenStore) (req : cJSON)
  : TokenStore * cJSON :=
  let tok := jr_str req (str "new_token") None in
  let ns := jr_str req (str "namespace") None in
  let dflt := match ns with Some _ => str "rw" | None => str "admin" end in
  match scope_from_str (jr_str req (str "scope") (Some dflt)) with
  | None => (ts, json_error_status AEGIS_ERR_INVALID_REQUEST)
  | Some scope =>
      let ns := if bool_decide (scope = AEGIS_SCOPE_ADMIN) then None else ns in
      if negb (bool_decide (scope = AEGIS_SCOPE_ADMIN)) && negb (token_namespace_ok ns)
      then (ts, json_error_status AEGIS_ERR_INVALID_REQUEST)
      else
        let minted := bool_decide (tok = None) in
        match (match tok with Some t => Some t | None => gen_random_token random end) with
        | None => (ts, json_error_status AEGIS_ERR_INTERNAL)
        | Some secret =>
            let '(tokens, added) := append_token ok (ts_tokens ts) secret ns scope in
            if negb added then (with_tokens ts tokens, json_error_status AEGIS_ERR_INTERNAL)
            else
              let id := from_option config_token_fingerprint [] (last tokens) in
              let '(ts, persisted) := persist mem io (with_tokens ts tokens) in
              (ts, JObject ([(str "ok", JTrue); (str "id", JString id)] ++
                     (if minted then [(str "token", JString secret)] else []) ++ [(str "persisted", jbool persisted)]))
        end
  end.

Definition handle_token_revoke (mem : bool) (io : FsIo) (ts : TokenStore) (req : cJSON) : TokenStore * cJSON :=
  match jr_str req (str "id") None with
  | None => (ts, json_error_status AEGIS_ERR_INVALID_REQUEST)
  | Some id =>
      let '(tokens, removed) := config_remove_token (ts_tokens ts) id in
      if negb removed then (with_tokens ts tokens, json_error_status AEGIS_ERR_NOT_FOUND)
      else
        let '(ts, persisted) := persist mem io (with_tokens ts tokens) in
        (ts, JObject [(str "ok", JTrue); (str "revoked", JTrue); (str "persisted", jbool persisted)])
  end.
