(* ===== verification/TokensCorrect.v ===== *)
(** * The token file round trip

    The token set survives the rewriting of its file and a restart: what is
    loaded authenticates every request as before. *)

From S2P Require Import Prelude Endian CkptCrypt Floats Json Text Sha256 Store Reply Tokens.

(** ** Hexadecimal text *)

Definition hex_pair (b : Z) : list Z := [byte_at hex_digits (Z.to_nat (Z.shiftr b 4)); byte_at hex_digits (Z.to_nat (Z.land b 0xf))].
Definition graphic (c : Z) : Prop := 0x20 < c /\ c <> 0x7f.
#[global] Instance graphic_dec c : Decision (graphic c).
Proof. unfold graphic. apply _. Defined.

Lemma hex_digit_ok n : 0 <= n < 16 -> graphic (byte_at hex_digits (Z.to_nat n)) /\ hex_val (byte_at hex_digits (Z.to_nat n)) = Some n.
Proof.
  intros Hn. assert (forallb (fun k => let c := byte_at hex_digits k in (0x20 <? c) && negb (c =? 0x7f) && bool_decide (hex_val c = Some (Z.of_nat k))) (seq 0 16) = true) as Hall
    by (vm_compute; reflexivity).
  rewrite forallb_forall in Hall. specialize (Hall (Z.to_nat n) ltac:(apply in_seq; lia)). cbv zeta in Hall.
  apply andb_true_iff in Hall as [Hg Hv]. apply bool_decide_eq_true in Hv. rewrite Z2Nat.id in Hv by lia. split; [|done].
  apply andb_true_iff in Hg as [? ?]. unfold graphic. zbool. split; [lia|done].
Qed.

Lemma nibbles b : u8 b -> 0 <= Z.shiftr b 4 < 16 /\ 0 <= Z.land b 0xf < 16 /\ wrap 8 (Z.lor (Z.shiftl (Z.shiftr b 4) 4) (Z.land b 0xf)) = b.
Proof.
  intros [H0 H1]. change (2 ^ 8) with 256 in H1. change 0xf with (Z.ones 4). rewrite Z.land_ones by lia.
  rewrite Z.shiftr_div_pow2 by lia. change (2 ^ 4) with 16. pose proof (Z.mod_pos_bound b 16 ltac:(lia)). pose proof (Z.div_mod b 16 ltac:(lia)).
  assert (0 <= b / 16 < 16) by (split; [apply Z.div_pos; lia|apply Z.div_lt_upper_bound; lia]). split; [done|]. split; [done|].
  rewrite Z.lor_comm, lor_shiftl_add; [|lia|unfold urange; lia|lia]. change (2 ^ 4) with 16. rewrite wrap_small by (unfold urange; lia). lia.
Qed.

Lemma hex_text_flat b : bytes_ok b -> hex_text b = flat_map hex_pair b /\ Forall graphic (flat_map hex_pair b).
Proof.
  intros Hb. assert (Forall graphic (flat_map hex_pair b)) as Hg.
  { induction Hb as [|x b Hx _ IH]; [constructor|]. cbn [flat_map]. apply Forall_app. split; [|done].
    destruct (nibbles x Hx) as (Hh & Hl & _). unfold hex_pair. repeat constructor; apply hex_digit_ok; done. }
  split; [|done]. unfold hex_text, aegis_hex_encode. fold hex_pair. clear Hb. change (flat_map _ b) with (flat_map hex_pair b).
  induction Hg as [|c l [Hc _] _ IH]; [done|]. cbn [app c_string]. destruct (Z.eqb_spec c 0); [lia|]. by rewrite IH.
Qed.

Lemma hex_decode_text b : bytes_ok b -> hex_decode (flat_map hex_pair b) = Some b.
Proof.
  induction 1 as [|x b Hx _ IH]; [done|]. cbn [flat_map hex_pair app hex_decode]. destruct (nibbles x Hx) as (Hh & Hl & Hw).
  rewrite (proj2 (hex_digit_ok _ Hh)), (proj2 (hex_digit_ok _ Hl)), IH. cbn. by rewrite Hw.
Qed.

Lemma length_hex b : length (flat_map hex_pair b) = (2 * length b)%nat.
Proof. induction b as [|x b IH]; [done|]. cbn [flat_map hex_pair app length]. rewrite IH. lia. Qed.

(** ** Digests *)

Lemma sha256_shape d : length (sha256 d) = 32%nat /\ bytes_ok (sha256 d).
Proof.
  unfold sha256. destruct (whole_blocks _ _ _) as [s p]. cbv zeta.
  match goal with |- context [match ?r with mkRegs _ _ _ _ _ _ _ _ => _ end] => generalize r end. intros [a b c d' e f g h]. cbn [map concat].
  split; [reflexivity|]. repeat (apply bytes_ok_app; split); try (unfold store_word; repeat constructor; by apply wrap_range).
Qed.

(** A byte that can stand in a field of the file. *)
Definition plain (c : Z) : Prop := is_blank c = false /\ c <> 10 /\ c <> 0.

(** What a token set holds, whichever way its members came in. *)
Record token_wf (t : AuthToken) : Prop := {
  tok_cred : if at_hashed t then length (at_hash t) = 32%nat /\ bytes_ok (at_hash t) else at_token t <> None;
  tok_bound : match at_namespace t with
              | None => at_scope t = AEGIS_SCOPE_ADMIN
              | Some ns => Forall plain ns /\ ns <> [] /\ at_scope t <> AEGIS_SCOPE_ADMIN
              end
}.

(** The longest namespace whose rewritten line, with its digest, scope and
    newline, fits the 1024 bytes of the reader's buffer. *)
Definition NS_LINE_MAX : nat := 947.
Definition ns_short (t : AuthToken) : Prop := (length (default [] (at_namespace t)) <= NS_LINE_MAX)%nat.
Definition token_ok (t : AuthToken) : Prop := token_wf t /\ ns_short t.

Lemma digest_shape t : token_ok t -> length (token_digest t) = 32%nat /\ bytes_ok (token_digest t).
Proof. intros [[Hc _] _]. unfold token_digest. destruct (at_hashed t); [done|apply sha256_shape]. Qed.

(** ** Lines *)

Lemma fgets_line body rest n : Forall (fun b => b <> 10) body -> (length body < n)%nat -> fgets n (body ++ 10 :: rest) = (body ++ [10], rest).
Proof.
  intros Hb. revert n. induction Hb as [|b body Hb _ IH]; intros n Hn; (destruct n as [|n]; [cbn in Hn; lia|]); cbn [fgets app]; [done|].
  cbn in Hn. apply Z.eqb_neq in Hb. rewrite Hb, IH by lia. done.
Qed.

Lemma skip_while_head f s : match s with [] => True | b :: _ => f b = false end -> skip_while f s = s.
Proof. destruct s as [|b s]; [done|]. cbn. intros Hb. by rewrite Hb. Qed.

Lemma trim_end_newline s c : last s = Some c -> is_trailing c = false -> trim_end (s ++ [10]) = s.
Proof.
  intros Hs Hc. unfold trim_end. rewrite rev_app_distr. cbn. destruct s as [|x s] using rev_ind; [done|]. rewrite last_snoc in Hs.
  injection Hs as ->. rewrite rev_app_distr. cbn. rewrite Hc. cbn. by rewrite rev_involutive.
Qed.

Lemma graphic_plain c : graphic c -> is_blank c = false /\ is_trailing c = false /\ c <> 10 /\ c <> 0.
Proof. intros [Hc _]. unfold is_blank, is_trailing. repeat (destruct (Z.eqb_spec c _); [lia|]). split_and!; done || lia. Qed.

Lemma graphic_plains l : Forall graphic l -> Forall plain l.
Proof. intros Hl. eapply Forall_impl; [exact Hl|]. intros c Hc. destruct (graphic_plain c Hc) as (? & _ & ? & ?). by split_and!. Qed.

Lemma next_field_end f : Forall plain f -> next_field f = (f, None).
Proof. induction 1 as [|c f [Hc _] _ IH]; [done|]. cbn [next_field]. by rewrite Hc, IH. Qed.

Lemma next_field_more f c r : Forall plain f -> plain c -> next_field (f ++ 32 :: c :: r) = (f, Some (c :: r)).
Proof.
  intros Hf [Hc _]. induction Hf as [|x f [Hx _] _ IH].
  - cbn. by rewrite Hc.
  - cbn [app next_field]. by rewrite Hx, IH.
Qed.

(** ** Loading what was written *)

(** A token as it is stored: hashed. *)
Definition rehashed (t : AuthToken) : AuthToken := mkToken None (token_digest t) true (at_namespace t) (at_scope t).
Definition oks_fine (oks : nat -> TokOks) : Prop := forall k, oks k = mkTokOks true true true.

Lemma append_hashed ok tokens t : ok = mkTokOks true true true -> token_ok t ->
  append_token ok tokens (S_sha256 ++ flat_map hex_pair (token_digest t)) (at_namespace t) (at_scope t) = (tokens ++ [rehashed t], true).
Proof.
  intros -> Ht. destruct (digest_shape t Ht) as [Hl Hb]. unfold append_token. cbn [tk_grow negb]. rewrite take_app_length' by done.
  rewrite drop_app_length' by done. rewrite bool_decide_eq_true_2 by done. rewrite length_hex, Hl. cbn [Nat.mul Nat.add Nat.eqb].
  rewrite hex_decode_text by done. cbn [fmap option_fmap option_map tk_ns negb]. by rewrite andb_false_r.
Qed.

Lemma namespace_graphic ns : token_namespace_ok (Some ns) = true -> Forall graphic ns /\ (1 <= length ns <= 128)%nat.
Proof.
  unfold token_namespace_ok. intros H. apply andb_true_iff in H as [Hl Hc]. apply negb_true_iff, orb_false_iff in Hl as [H1 H2]. zbool.
  split; [|lia]. apply Forall_forall. intros c Hin. rewrite forallb_forall in Hc. specialize (Hc c ltac:(by apply list_elem_of_In)).
  apply negb_true_iff, orb_false_iff in Hc as [? ?]. zbool. split; lia.
Qed.

(** The line of a token without its newline. *)
Definition line_body (t : AuthToken) : list Z :=
  S_sha256 ++ flat_map hex_pair (token_digest t) ++
  match at_namespace t with Some ns => 32 :: ns ++ 32 :: scope_name (at_scope t) | None => [] end.

Lemma token_line_body t : token_ok t -> token_line t = line_body t ++ [10].
Proof.
  intros Ht. destruct (digest_shape t Ht) as [_ Hb]. unfold token_line, line_body. rewrite (proj1 (hex_text_flat _ Hb)).
  destruct (at_namespace t); cbn [app]; repeat (rewrite <- app_assoc; cbn [app]); done.
Qed.

Lemma scope_graphic s : Forall graphic (scope_name s) /\ (length (scope_name s) <= 5)%nat /\ scope_name s <> [].
Proof. destruct s; (split; [apply (bool_decide_unpack _); by vm_compute|split; [cbn; lia|done]]). Qed.

Lemma sha256_prefix_graphic : Forall graphic S_sha256.
Proof. apply (bool_decide_unpack _). by vm_compute. Qed.

Lemma cred_graphic t : token_ok t -> Forall graphic (S_sha256 ++ flat_map hex_pair (token_digest t)).
Proof. intros Ht. apply Forall_app. split; [apply sha256_prefix_graphic|]. apply hex_text_flat, digest_shape, Ht. Qed.

Lemma last_graphic l : Forall graphic l -> l <> [] -> exists c, last l = Some c /\ is_trailing c = false.
Proof.
  intros Hl Hne. destruct l as [|c l] using rev_ind; [done|]. clear IHl. exists c. split; [apply last_snoc|].
  apply Forall_app in Hl as [_ Hc]. inversion_clear Hc as [|? ? Hc' _]. by apply graphic_plain.
Qed.

(** The bytes of a line: it fits the buffer, has no terminator and no newline
    inside, and ends in a graphic character. *)
Lemma line_shape t : token_ok t ->
  (length (line_body t) < 1023)%nat /\ Forall (fun b => b <> 10 /\ b <> 0) (line_body t) /\
  exists c, last (line_body t) = Some c /\ is_trailing c = false.
Proof.
  intros Ht. destruct (digest_shape t Ht) as [Hl _]. pose proof (cred_graphic t Ht) as Hg. destruct Ht as [[_ Hbd] Hshort].
  assert (forall c, graphic c -> c <> 10 /\ c <> 0) as Hgr by (intros c Hc; apply (graphic_plain c Hc)).
  assert (forall c, plain c -> c <> 10 /\ c <> 0) as Hpl by (by intros c (_ & ? & ?)).
  unfold ns_short, NS_LINE_MAX in Hshort. unfold line_body. rewrite app_assoc. destruct (at_namespace t) as [ns|].
  - destruct Hbd as (Hns & Hne0 & Hadm). cbn in Hshort. destruct (scope_graphic (at_scope t)) as (Hs & Hsl & Hne). split_and!.
    + rewrite !length_app. cbn [length]. rewrite length_app, length_hex, Hl. cbn [length]. change (length S_sha256) with 7%nat.
      assert (length (scope_name (at_scope t)) <= 2)%nat by (destruct (at_scope t); cbn; (lia || done)). lia.
    + apply Forall_app. split; [by eapply Forall_impl|]. constructor; [done|]. apply Forall_app. split; [by eapply Forall_impl|].
      constructor; [done|by eapply Forall_impl].
    + destruct (last_graphic _ Hs Hne) as (c & Hc & Hp). exists c. split; [|done].
      replace (32 :: ns ++ 32 :: scope_name (at_scope t)) with ((32 :: ns ++ [32]) ++ scope_name (at_scope t)) by (cbn; by rewrite <- app_assoc).
      by rewrite app_assoc, last_app, Hc.
  - rewrite app_nil_r. split_and!; [rewrite length_app, length_hex, Hl; cbn; lia|by eapply Forall_impl|]. by apply last_graphic.
Qed.

Lemma parse_line ok tokens t : ok = mkTokOks true true true -> token_ok t -> parse_token_line ok tokens (line_body t) = (tokens ++ [rehashed t], true).
Proof.
  intros Hok Ht. pose proof (append_hashed ok tokens t Hok Ht) as Ha. pose proof (graphic_plains _ (cred_graphic t Ht)) as Hg. destruct Ht as [[_ Hbd] _].
  unfold parse_token_line, line_body. rewrite app_assoc. destruct (at_namespace t) as [ns|].
  - destruct Hbd as (Hns & Hne & Hsc). destruct ns as [|c ns]; [done|].
    assert (plain c) as Hc by (by inversion_clear Hns). cbn [app]. rewrite next_field_more by done.
    change (c :: ns ++ 32 :: scope_name (at_scope t)) with ((c :: ns) ++ 32 :: scope_name (at_scope t)).
    destruct (at_scope t); [| |done]; cbn [scope_name]; unfold str; cbn [map String.list_ascii_of_string];
      (rewrite next_field_more; [|done|split_and!; vm_compute; done]); exact Ha.
  - rewrite app_nil_r, next_field_end by done. by rewrite <- Hbd.
Qed.

Lemma load_written fuel k oks tokens ts : oks_fine oks -> Forall token_ok ts -> (length (token_file ts) <= fuel)%nat ->
  load_lines fuel k oks tokens (token_file ts) = (tokens ++ map rehashed ts, true).
Proof.
  intros Hoks Hts. revert fuel k tokens. induction Hts as [|t ts Ht _ IH]; intros fuel k tokens Hf.
  { cbn. rewrite app_nil_r. by destruct fuel. }
  cbn [token_file map concat] in *. fold (token_file ts) in *. rewrite (token_line_body t Ht), <- app_assoc in *. cbn [app] in *.
  destruct (line_shape t Ht) as (Hlen & Hb & c & Hlast & Hc). 
  assert (exists b, line_body t = 115 :: b) as [b0 Hb0] by (eexists; reflexivity).
  rewrite length_app in Hf. cbn [length] in Hf. destruct fuel as [|fuel]; [lia|]. rewrite Hb0 at 1. cbn [app load_lines].
  change (115 :: b0 ++ 10 :: token_file ts) with ((115 :: b0) ++ 10 :: token_file ts). rewrite <- Hb0.
  rewrite fgets_line; [|eapply Forall_impl; [exact Hb|naive_solver]|done].
  rewrite c_string_id; cycle 1.
  { apply Forall_app. split; [eapply Forall_impl; [exact Hb|naive_solver]|by repeat constructor]. }
  rewrite skip_while_head by (by rewrite Hb0). rewrite (trim_end_newline _ c) by done. rewrite Hb0 at 1. cbn [Z.eqb Pos.eqb].
  rewrite (parse_line _ _ t (Hoks k) Ht). rewrite IH by lia. by rewrite <- app_assoc.
Qed.

(** ** The stored set is the set in use *)

Lemma identity_rehashed ts req : resolve_identity (map rehashed ts) req = resolve_identity ts req.
Proof.
  unfold resolve_identity. rewrite length_map. destruct (length ts =? 0)%nat; [done|]. destruct (jr_str req (str "token") None) as [tok|]; [|done].
  assert (forall l m, foldl (match_token (sha256 tok)) (rehashed <$> m) (map rehashed l) = rehashed <$> foldl (match_token (sha256 tok)) m l) as HF.
  { induction l as [|t l IH]; intros m; [done|]. cbn [map foldl]. rewrite <- IH. f_equal. unfold match_token. cbn [rehashed at_hashed at_hash].
    unfold token_digest. destruct (ct_eq_bytes _ _ _); done. }
  specialize (HF ts None). cbn [fmap option_fmap option_map] in HF. rewrite HF. by destruct (foldl _ None ts).
Qed.

Lemma remove_rehashed ts id :
  config_remove_token (map rehashed ts) id = let '(l, b) := config_remove_token ts id in (map rehashed l, b).
Proof.
  induction ts as [|t ts IH]; [done|]. cbn [map config_remove_token].
  change (config_token_fingerprint (rehashed t)) with (config_token_fingerprint t). case_bool_decide; [done|]. rewrite IH. by destruct (config_remove_token ts id).
Qed.

(** *** Every token came in well formed *)

Lemma hex_decode_shape s b : hex_decode s = Some b -> length s = (2 * length b)%nat /\ bytes_ok b.
Proof.
  revert b. induction s as [s IH] using (induction_ltof1 _ (@length Z)); unfold ltof in IH. intros b. destruct s as [|x [|y s]]; cbn [hex_decode].
  - intros [= <-]. split; [done|constructor].
  - done.
  - destruct (hex_val x) as [hi|]; [|done]. destruct (hex_val y) as [lo|]; [|done]. destruct (hex_decode s) as [b'|] eqn:E; [|done].
    intros [= <-]. destruct (IH s ltac:(cbn; lia) b' E) as [Hl Hb]. split; [cbn; lia|]. constructor; [by apply wrap_range|done].
Qed.

Definition bound_ok (ns : option (list Z)) (scope : AegisScope) : Prop :=
  match ns with None => scope = AEGIS_SCOPE_ADMIN | Some n => Forall plain n /\ n <> [] /\ scope <> AEGIS_SCOPE_ADMIN end.

(** An addition appends one token or nothing. *)
Lemma append_token_wf ok tokens tok ns scope : bound_ok ns scope ->
  exists l, fst (append_token ok tokens tok ns scope) = tokens ++ l /\ Forall (fun t => token_wf t /\ at_namespace t = ns) l.
Proof.
  intros Hb. unfold append_token. assert (exists l, tokens = tokens ++ l /\ Forall (fun t => token_wf t /\ at_namespace t = ns) l) as Hnone
    by (exists []; by rewrite app_nil_r).
  destruct (tk_grow ok); [|done]. cbn [negb].
  match goal with |- context [match ?c with Some _ => _ | None => _ end] => destruct c as [[[t h] hd]|] eqn:Ec end; [|done].
  destruct (bool_decide (ns <> None) && _); [done|]. eexists. split; [done|]. apply Forall_singleton. split; [|done]. split; [|done].
  cbn [at_hashed at_hash at_token]. destruct (bool_decide (take 7 tok = S_sha256)).
  - destruct (Nat.eqb_spec (length (drop 7 tok)) 64) as [Hl|]; [|done]. destruct (hex_decode (drop 7 tok)) as [b|] eqn:Eh; [|done].
    injection Ec as <- <- <-. apply hex_decode_shape in Eh as [Hlb Hok]. split; [lia|done].
  - destruct (tk_tok ok); [|done]. by injection Ec as <- <- <-.
Qed.

Lemma remove_token_ok tokens id : Forall token_ok tokens -> Forall token_ok (fst (config_remove_token tokens id)).
Proof.
  induction 1 as [|t tokens Ht Hts IH]; [constructor|]. cbn [config_remove_token]. case_bool_decide; [done|].
  destruct (config_remove_token tokens id). by constructor.
Qed.

(** *** What the file gives *)

Definition inner (c : Z) : Prop := c <> 10 /\ c <> 0.

Lemma skip_while_suffix f s : exists a, s = a ++ skip_while f s.
Proof.
  induction s as [|b s [a IH]]; [by exists []|]. cbn [skip_while]. destruct (f b); [|by exists []]. exists (b :: a). cbn. by f_equal.
Qed.

Lemma trim_end_Forall P s : Forall P s -> Forall P (trim_end s).
Proof.
  intros Hs. unfold trim_end. destruct (skip_while_suffix is_trailing (rev s)) as [a Ha]. apply Forall_rev.
  apply Forall_rev in Hs. rewrite Ha in Hs. by apply Forall_app in Hs as [_ Hs].
Qed.

Lemma trim_end_drop s : trim_end (s ++ [10]) = trim_end s.
Proof. unfold trim_end. by rewrite rev_app_distr. Qed.

Lemma fgets_shape n s : exists body, Forall (fun b => b <> 10) body /\ (fst (fgets n s) = body \/ fst (fgets n s) = body ++ [10]).
Proof.
  revert s. induction n as [|n IH]; intros [|b s]; cbn [fgets]; [exists []; by split; [|left]..|].
  destruct (Z.eqb_spec b 10) as [->|Hb]; [exists []; split; [done|by right]|].
  destruct (IH s) as (body & Hbd & Hf). destruct (fgets n s) as [l r]. cbn [fst] in *. exists (b :: body). split; [by constructor|].
  destruct Hf as [-> | ->]; [by left|by right].
Qed.

Lemma c_string_inner s : Forall (fun b => b <> 10) s -> Forall inner (c_string s) /\
  (c_string (s ++ [10]) = c_string s \/ c_string (s ++ [10]) = c_string s ++ [10]).
Proof.
  induction 1 as [|b s Hb _ [IH1 IH2]]; cbn [c_string app]; [split; [constructor|by right]|].
  destruct (Z.eqb_spec b 0); [split; [constructor|by left]|]. split; [by constructor|].
  destruct IH2 as [-> | ->]; [by left|by right].
Qed.

Lemma skip_blank_snoc s : skip_while is_blank (s ++ [10]) = skip_while is_blank s ++ [10].
Proof. induction s as [|b s IH]; [done|]. cbn [skip_while app]. destruct (is_blank b); [done|done]. Qed.

(** A line without its ends holds no newline and no terminator. *)
Lemma line_inner n s : Forall inner (trim_end (skip_while is_blank (c_string (fst (fgets n s))))).
Proof.
  destruct (fgets_shape n s) as (body & Hb & Hf). destruct (c_string_inner body Hb) as [Hi Hc].
  assert (Forall inner (trim_end (skip_while is_blank (c_string body)))) as Hgood.
  { apply trim_end_Forall. destruct (skip_while_suffix is_blank (c_string body)) as [a Ha]. rewrite Ha in Hi. by apply Forall_app in Hi as [_ Hi]. }
  destruct Hf as [-> | ->]; [done|]. destruct Hc as [-> | ->]; [done|]. by rewrite skip_blank_snoc, trim_end_drop.
Qed.

Lemma next_field_inner s : Forall inner s ->
  Forall plain (fst (next_field s)) /\
  match snd (next_field s) with None => True | Some r => Forall inner r /\ exists b r', r = b :: r' /\ is_blank b = false end.
Proof.
  induction 1 as [|b s [H1 H2] Hs IH]; cbn [next_field]; [done|]. destruct (is_blank b) eqn:Eb.
  - split; [constructor|]. destruct (skip_while_suffix is_blank s) as [a Ha].
    assert (match skip_while is_blank s with [] => True | b :: _ => is_blank b = false end) as Hh.
    { clear. induction s as [|b s IH]; [done|]. cbn [skip_while]. destruct (is_blank b) eqn:E; done. }
    cbn [snd]. destruct (skip_while is_blank s) as [|c r]; [done|]. split; [|by eauto]. rewrite Ha in Hs. by apply Forall_app in Hs as [_ Hs].
  - destruct (next_field s) as [f r]. cbn [fst snd] in *. split; [|apply IH]. constructor; [by split_and!|apply IH].
Qed.

Lemma parse_token_line_wf ok tokens s : Forall inner s ->
  exists l, fst (parse_token_line ok tokens s) = tokens ++ l /\ Forall token_wf l.
Proof.
  intros Hs. assert (forall tok ns scope, bound_ok ns scope -> exists l, fst (append_token ok tokens tok ns scope) = tokens ++ l /\ Forall token_wf l) as Ha.
  { intros tok ns scope Hb. destruct (append_token_wf ok tokens tok ns scope Hb) as (l & E & Hl). exists l. split; [done|].
    eapply Forall_impl; [exact Hl|]. by intros t []. }
  unfold parse_token_line. destruct (next_field_inner s Hs) as [_ Hr]. destruct (next_field s) as [tok [rest|]]; cbn [snd] in Hr; [|by apply Ha].
  destruct Hr as [Hin (b & r' & -> & Hb)]. destruct (next_field_inner _ Hin) as [Hns _].
  assert (fst (next_field (b :: r')) <> []) as Hne by (cbn [next_field]; rewrite Hb; by destruct (next_field r')).
  destruct (next_field (b :: r')) as [ns sc]. cbn [fst] in Hns, Hne.
  destruct sc as [sc|]; repeat case_bool_decide; try (by apply Ha). by exists []; rewrite app_nil_r.
Qed.

Lemma load_lines_wf fuel k oks tokens s : exists l, fst (load_lines fuel k oks tokens s) = tokens ++ l /\ Forall token_wf l.
Proof.
  assert (forall tokens, exists l, tokens = tokens ++ l /\ Forall token_wf l) as Hnone by (intros ts; exists []; by rewrite app_nil_r).
  revert k tokens s. induction fuel as [|fuel IH]; intros k tokens [|c s]; cbn [load_lines]; try done.
  destruct (fgets 1023 (c :: s)) as [line rest] eqn:Ef. pose proof (line_inner 1023 (c :: s)) as Hl. rewrite Ef in Hl. cbn [fst] in Hl.
  destruct (trim_end _) as [|b l]; [done|]. destruct (b =? 35); [done|].
  destruct (parse_token_line_wf (oks k) tokens (b :: l) Hl) as (l1 & E1 & H1). destruct (parse_token_line _ _ _) as [tokens1 ok]. cbn [fst] in E1. subst tokens1.
  destruct ok; [|by exists l1]. destruct (IH (S k) (tokens ++ l1) rest) as (l2 & -> & H2). exists (l1 ++ l2).
  rewrite (assoc_L (++)). split; [done|]. by apply Forall_app.
Qed.

(** The set a start-up builds: global tokens of the command line and token
    files, whatever they contain. *)
Inductive started : list AuthToken -> Prop :=
  | started_none : started []
  | started_token ok tokens tok : started tokens -> started (fst (append_token ok tokens tok None AEGIS_SCOPE_ADMIN))
  | started_file oks tokens file : started tokens -> started (fst (load_token_file oks tokens file)).

Lemma started_wf tokens : started tokens -> Forall token_wf tokens.
Proof.
  induction 1 as [|ok tokens tok _ IH|oks tokens file _ IH]; [constructor| |].
  - destruct (append_token_wf ok tokens tok None AEGIS_SCOPE_ADMIN eq_refl) as (l & -> & Hl). apply Forall_app. split; [done|].
    eapply Forall_impl; [exact Hl|]. by intros t [].
  - destruct file as [f|]; [|done]. cbn [load_token_file]. destruct (load_lines_wf (length f) 0 oks tokens f) as (l & -> & Hl). by apply Forall_app.
Qed.

(** ** Administration *)

Inductive TokenOp :=
  | TokenAdd (ok : TokOks) (random : option (list Z)) (mem : bool) (io : FsIo) (req : cJSON)
  | TokenRevoke (mem : bool) (io : FsIo) (req : cJSON).

Definition token_step (ts : TokenStore) (op : TokenOp) : TokenStore * cJSON :=
  match op with
  | TokenAdd ok random mem io req => handle_token_add ok random mem io ts req
  | TokenRevoke mem io req => handle_token_revoke mem io ts req
  end.

Definition token_run (ts : TokenStore) (ops : list TokenOp) : TokenStore := foldl (fun ts op => fst (token_step ts op)) ts ops.

Definition says_persisted (resp : cJSON) : Prop := cJSON_GetObjectItemCaseSensitive resp (str "persisted") = Some JTrue.

(** The file of [ts] loads, into no matter which memory, as the set in use. *)
Definition stored_set (ts : TokenStore) : Prop :=
  forall oks, oks_fine oks -> load_token_file oks [] (fs_file (ts_fs ts)) = (map rehashed (ts_tokens ts), true).

Lemma persist_spec mem io ts : Forall token_ok (ts_tokens ts) ->
  let '(ts', ok) := persist mem io ts in ts_tokens ts' = ts_tokens ts /\ (ok = true -> stored_set ts').
Proof.
  intros Ht. unfold persist. destruct (ts_path ts); [|done]. unfold config_write_token_file. destruct mem; [|done].
  pose proof (fs_write_atomic_spec io (ts_fs ts) (token_file (ts_tokens ts))) as Hw. destruct (fs_write_atomic _ _ _) as [[tr fin] ok].
  split; [done|]. intros Hok oks Hoks. destruct Hw as [_ Hw]. cbn [ts_fs ts_tokens]. rewrite (Hw Hok). unfold load_token_file.
  by rewrite load_written.
Qed.

(** The tail of both operations. *)
Lemma persisted_reply mem io ts (f : bool -> cJSON) : Forall token_ok (ts_tokens ts) ->
  (says_persisted (f false) -> False) ->
  let '(ts', resp) := (let '(ts', p) := persist mem io ts in (ts', f p)) in
  Forall token_ok (ts_tokens ts') /\ (says_persisted resp -> stored_set ts').
Proof.
  intros Ht Hf. pose proof (persist_spec mem io ts Ht) as Hp. destruct (persist mem io ts) as [ts' ok]. destruct Hp as [-> Hs].
  split; [done|]. intros Hr. destruct ok; [by apply Hs|by exfalso].
Qed.

Lemma error_not_persisted st : ~ says_persisted (json_error_status st).
Proof. by destruct st. Qed.

Lemma token_step_spec ts op : Forall token_ok (ts_tokens ts) ->
  let '(ts', resp) := token_step ts op in Forall token_ok (ts_tokens ts') /\ (says_persisted resp -> stored_set ts').
Proof.
  intros Ht. assert (forall t st, Forall token_ok t -> Forall token_ok (ts_tokens (with_tokens ts t)) /\ (says_persisted (json_error_status st) -> stored_set (with_tokens ts t))) as Hno
    by (intros t st Hok; split; [done|]; intros Hs; by apply error_not_persisted in Hs).
  assert (forall st, Forall token_ok (ts_tokens ts) /\ (says_persisted (json_error_status st) -> stored_set ts)) as Hsame
    by (intros st; split; [done|]; intros Hs; by apply error_not_persisted in Hs).
  destruct op as [ok random mem io req|mem io req]; cbn [token_step].
  - unfold handle_token_add. destruct (scope_from_str _) as [scope|]; [|apply Hsame]. cbv zeta.
    set (ns := if bool_decide (scope = AEGIS_SCOPE_ADMIN) then None else _).
    destruct (negb (bool_decide (scope = AEGIS_SCOPE_ADMIN)) && negb (token_namespace_ok ns)) eqn:Eg; [apply Hsame|].
    destruct (match jr_str req (str "new_token") None with Some t => Some t | None => _ end) as [secret|]; [|apply Hsame].
    assert (Forall token_ok (fst (append_token ok (ts_tokens ts) secret ns scope))) as Ha.
    { destruct (append_token_wf ok (ts_tokens ts) secret ns scope) as (l & -> & Hl).
      - apply andb_false_iff in Eg. unfold ns, bound_ok. case_bool_decide as Es; [done|]. destruct Eg as [Eg|Eg]; [done|].
        apply negb_false_iff in Eg. unfold ns in Eg.
        destruct (jr_str req (str "namespace") None) as [n|]; [|done]. apply namespace_graphic in Eg as [Hg Hn].
        split; [by apply graphic_plains|]. split; [|done]. intros ->. cbn in Hn. lia.
      - apply Forall_app. split; [done|]. eapply Forall_impl; [exact Hl|]. intros t [Hw Hns]. split; [done|]. unfold ns_short, NS_LINE_MAX. rewrite Hns.
        destruct ns as [n|] eqn:En; [|cbn; lia]. cbn [default from_option]. apply andb_false_iff in Eg. destruct Eg as [Eg|Eg].
        + apply negb_false_iff, bool_decide_eq_true in Eg. unfold ns in En. by rewrite bool_decide_eq_true_2 in En.
        + apply negb_false_iff, namespace_graphic in Eg as [_ Hn]. cbn. lia. }
    destruct (append_token ok (ts_tokens ts) secret ns scope) as [tokens added]. destruct added; cbn [negb]; [|by apply Hno].
    eapply (persisted_reply mem io (with_tokens ts tokens) (fun p => JObject _)); [exact Ha|].
    unfold says_persisted. by destruct (bool_decide (jr_str req (str "new_token") None = None)).
  - unfold handle_token_revoke. destruct (jr_str req (str "id") None) as [id|]; [|apply Hsame].
    pose proof (remove_token_ok (ts_tokens ts) id Ht) as Hr. destruct (config_remove_token (ts_tokens ts) id) as [tokens removed].
    destruct removed; cbn [negb]; [|by apply Hno]. by apply (persisted_reply mem io (with_tokens ts tokens) (fun p => JObject _)).
Qed.

Lemma token_run_ok ts ops : Forall token_ok (ts_tokens ts) -> Forall token_ok (ts_tokens (token_run ts ops)).
Proof.
  revert ts. induction ops as [|op ops IH]; intros ts Ht; [done|]. pose proof (token_step_spec ts op Ht) as Hs.
  unfold token_run. cbn [foldl]. apply IH. destruct (token_step ts op). apply Hs.
Qed.

(** C7: Credentials survive administration and a restart. Start with whatever the
    command line and the token files gave, no namespace in it longer than 947
    bytes. After any sequence of token additions and revocations, an operation
    that answers [persisted] has left a file that loads as exactly the set in use
    with every secret replaced by its digest; that set authenticates every
    request with the same namespace and rights as the set in use, and revokes
    the same tokens. (With a longer namespace the rewritten line does not fit the
    reader's buffer, [long_namespace_breaks_file]; additions at run time accept
    at most 128 bytes.) *)
Theorem token_file_roundtrip ts ops op oks req id :
  started (ts_tokens ts) -> Forall ns_short (ts_tokens ts) -> oks_fine oks ->
  let '(ts', resp) := token_step (token_run ts ops) op in
  says_persisted resp ->
  let '(loaded, ok) := load_token_file oks [] (fs_file (ts_fs ts')) in
  ok = true /\ loaded = map rehashed (ts_tokens ts') /\ resolve_identity loaded req = resolve_identity (ts_tokens ts') req /\
  (fst (config_remove_token loaded id) = map rehashed (fst (config_remove_token (ts_tokens ts') id))).
Proof.
  intros Hst Hsh Hoks. assert (Forall token_ok (ts_tokens ts)) as Ht by (apply Forall_and; split; [by apply started_wf|done]).
  pose proof (token_step_spec _ op (token_run_ok ts ops Ht)) as Hs. destruct (token_step _ op) as [ts' resp].
  intros Hp. destruct Hs as [_ Hs]. rewrite (Hs Hp oks Hoks). split; [done|]. split; [done|]. split; [apply identity_rehashed|].
  rewrite remove_rehashed. by destruct (config_remove_token _ id).
Qed.

(** A file of a global and a tenant token; the set gains a read-only tenant
    token and the rewritten file is read back. *)
Definition wit_fs_io : FsIo := mkFsIo true true (fun _ => Some 1000%nat) true true true true.
Definition wit_ok : TokOks := mkTokOks true true true.
Definition wit_file : list Z := str "root" ++ [10] ++ str "key-1 bob rw" ++ [10].
Definition wit_loaded : list AuthToken := fst (load_token_file (fun _ => wit_ok) [] (Some wit_file)).
Definition wit_store : TokenStore := mkTokenStore wit_loaded true (mkFs (Some wit_file) None).
Definition wit_req : cJSON :=
  JObject [(str "new_token", JString (str "s3cret")); (str "namespace", JString (str "alice")); (str "scope", JString (str "ro"))].

Lemma wit_loaded_short : Forall ns_short wit_loaded.
Proof. unfold wit_loaded. vm_compute. repeat constructor. Qed.

Lemma token_file_roundtrip_witness :
  let '(ts', resp) := token_step wit_store (TokenAdd wit_ok None true wit_fs_io wit_req) in
  says_persisted resp /\
  let '(loaded, ok) := load_token_file (fun _ => wit_ok) [] (fs_file (ts_fs ts')) in
  ok = true /\ resolve_identity loaded (JObject [(str "token", JString (str "s3cret"))]) = Some (mkAuthCtx (Some (str "alice")) false).
Proof.
  pose proof (token_file_roundtrip wit_store [] (TokenAdd wit_ok None true wit_fs_io wit_req) (fun _ => wit_ok)
    (JObject [(str "token", JString (str "s3cret"))]) [] (started_file (fun _ => wit_ok) [] (Some wit_file) started_none) wit_loaded_short ltac:(done)) as Ht.
  cbn [token_run foldl] in Ht. destruct (token_step wit_store (TokenAdd wit_ok None true wit_fs_io wit_req)) as [ts' resp] eqn:E.
  assert (says_persisted resp) as Hp by (apply (f_equal snd) in E; cbn [snd] in E; subst resp; vm_compute; reflexivity).
  split; [exact Hp|]. specialize (Ht Hp). destruct (load_token_file _ _ _) as [loaded ok]. destruct Ht as (-> & _ & Hi & _). split; [done|].
  rewrite Hi. apply (f_equal (fun x => ts_tokens (fst x))) in E. cbn [fst] in E. rewrite <- E. vm_compute. reflexivity.
Defined.

(** A file whose tenant token has a namespace of 950 bytes loads, but the file
    written for it reads back differently: the line is cut at the buffer's end,
    the tenant's token gains write access and the rest of the line, [ro], becomes
    a secret that is valid for every namespace. *)
Example long_namespace_breaks_file :
  let file := str "k " ++ replicate 950 120 ++ str " ro" ++ [10] in
  let '(tokens, ok) := load_token_file (fun _ => wit_ok) [] (Some file) in
  ok = true /\ length tokens = 1%nat /\
  let '(loaded, ok') := load_token_file (fun _ => wit_ok) [] (Some (token_file tokens)) in
  map at_scope tokens = [AEGIS_SCOPE_RO] /\ ok' = true /\
  map at_scope loaded = [AEGIS_SCOPE_RW; AEGIS_SCOPE_ADMIN] /\ map at_token loaded = [None; Some (str "ro")] /\
  resolve_identity loaded (JObject [(str "token", JString (str "ro"))]) = Some (mkAuthCtx None true).
Proof. vm_compute. split_and!; reflexivity. Qed.

(** A comment longer than the line buffer: its rest is read as a line of its
    own, and a single word there is accepted as a global token. *)
Example long_comment_is_token :
  let file := str "# " ++ replicate 1021 120 ++ str "word" ++ [10] in
  map at_token (fst (load_token_file (fun _ => wit_ok) [] (Some file))) = [Some (str "word")] /\
  map at_scope (fst (load_token_file (fun _ => wit_ok) [] (Some file))) = [AEGIS_SCOPE_ADMIN].
Proof. vm_compute. split; reflexivity. Qed.

(** Revoking the last token turns authentication off: a request without a token
    is then unrestricted. *)
Example last_revoke_opens :
  let store := mkTokenStore [mkToken (Some (str "root")) no_hash false None AEGIS_SCOPE_ADMIN] true (mkFs None None) in
  let id := config_token_fingerprint (mkToken (Some (str "root")) no_hash false None AEGIS_SCOPE_ADMIN) in
  let ts := fst (handle_token_revoke true wit_fs_io store (JObject [(str "id", JString id)])) in
  resolve_identity (ts_tokens store) (JObject []) = None /\ resolve_identity (ts_tokens ts) (JObject []) = Some (mkAuthCtx None true).
Proof. vm_compute. split; reflexivity. Qed.
